(* ===== verification/_CoqProject ===== *)
-Q . S2P
Prelude.v
Machine.v
Types.v
Document.v
DocumentCodec.v
DocumentDecode.v
DocumentValidate.v
DocumentTheorems.v
RadixMap.v
RadixMapTheorems.v
Shared.v
PagedVec.v
PagedVecTheorems.v
Csr.v
CsrTheorems.v
Algorithms.v
Layers.v
SearchTheorems.v
PathTheorems.v
DepthTheorems.v
Components.v
Kosaraju.v
ComponentsTheorems.v
ComponentsCanonical.v
Undirected.v
UndirectedTheorems.v
CoreTheorems.v
Adjacency.v
AdjacencyTheorems.v
Admission.v
Results.v
ResultsTheorems.v
Ordering.v
OrderKey.v
OrderingTheorems.v
OrderCode.v
OrderKeyTheorems.v
Records.v
RecordsTheorems.v
RecordsStore.v
RecordsMemory.v
Segment.v
SegmentTheorems.v
SegmentReads.v
SegmentDurability.v
SegmentMemory.v
Lexer.v
LexerTheorems.v
LexerPrint.v
Mutation.v
Temporal.v
Value.v
TemporalTheorems.v
TemporalCalendar.v
EqualityKey.v
ValueTheorems.v
EqualityKeyTheorems.v
Bolt.v
BoltTheorems.v
BoltDecode.v
BoltFraming.v
BoltTyped.v
BoltTypedTheorems.v
BoltPaths.v
BoltParameters.v
BoltParameterTheorems.v
QueryEvents.v
Actions.v
BoltCursor.v
BoltCursorTheorems.v
BoltSession.v
BoltSessionTheorems.v
BoltServe.v
BoltResults.v
BoltInterrupt.v
