(* ===== verification/Prelude.v ===== *)
(** * IronGraph: verification development (root file)

    IronGraph is a graph database in Rust: a storage crate (records and
    segments on an embedded key-value store, admission control), a graph crate
    on persistent containers, an execution crate (result values, their order
    and keys), a Cypher crate (lexer, parser, planner, executor), and a server
    with brokers and protocols around them.  This development models the
    layers that everything else stands on, as executable functions translated
    from the source, and proves what each promises to the next.

    ** Files and what they model

    All sources are under [src/crates].

    - [Prelude] (this file): outcomes of Rust functions, tactics, lexicographic
      orders.  A fallible function returns [Ok] or [Err]; a panic and an
      exhausted loop bound are [Abort], so "never panics" and "always ends" are
      statements about the result.
    - [Machine]: machine integers as [Z] with their widths, checked, wrapping
      and saturating arithmetic, byte strings, UTF-8, the bits of floats.
    - [Types]: [types/src/types.rs] and [error.rs]; ordered maps as sorted lists.
    - [Document], [DocumentCodec], [DocumentDecode], [DocumentValidate],
      [DocumentTheorems]: the canonical document codec [types/src/document.rs],
      an explicit-stack encoder, decoder and validator.
    - [RadixMap], [PagedVec], [Shared] and their [...Theorems]: the persistent
      radix map and paged vector of [graph/src/persistent.rs] and the views of
      [graph/src/shared.rs].
    - [Csr], [Adjacency] and their [...Theorems]: [graph/src/adjacency.rs], the
      sparse rows and, over the two containers, the adjacency with pending
      changes.
    - [Algorithms], [Components], [Undirected]: the traversals, components,
      triangles and cores of [graph/src/algorithms.rs].  [Layers] and
      [Kosaraju] are the graph theory of the searches over any relation;
      [SearchTheorems], [PathTheorems], [DepthTheorems], [ComponentsTheorems],
      [ComponentsCanonical], [UndirectedTheorems] and [CoreTheorems] apply it to
      the code.
    - [Results], [Ordering], [OrderKey], [OrderCode] and their [...Theorems]:
      [result.rs], [ordering.rs] and [order_key.rs] of [execution/src].
    - [Value], [EqualityKey] and their [...Theorems]: [value.rs] and
      [equality_key.rs] of [cypher/src], the predicates and the grouping keys.
    - [Temporal], [TemporalTheorems], [TemporalCalendar]: dates, times and
      durations, [execution/src/temporal.rs]; [TemporalCalendar] is a Gregorian
      calendar for the examples.
    - [Lexer], [LexerTheorems], [LexerPrint]: the tokenizer [cypher/src/lexer.rs].
    - [Admission]: [storage/src/admission.rs].
    - [Mutation]: [storage/src/mutation.rs].
    - [Records], [RecordsTheorems], [RecordsStore], [RecordsMemory]:
      the record store [storage/src/records.rs].
    - [Segment], [SegmentTheorems], [SegmentReads], [SegmentDurability],
      [SegmentMemory]: the segment store [storage/src/segment.rs], on top of
      the record store.
    - [Bolt], [BoltTheorems], [BoltDecode], [BoltFraming]: the wire format of
      the Bolt protocol, [server/src/protocol/bolt.rs]: PackStream encoding and
      decoding, chunked messages, the handshake.
    - [BoltTyped], [BoltTypedTheorems], [BoltPaths]: the typed values of
      [protocol/query.rs] as PackStream values and bytes, paths included.
    - [BoltParameters], [BoltParameterTheorems]: query parameters, from
      PackStream to JSON ([bolt.rs]), to result values and back to typed values
      ([json_to_result], [result_to_typed] of [server/src/server/database.rs]),
      and bookmarks.
    - [QueryEvents]: the requests, events and result statistics of
      [protocol/query.rs], and the accounting around [execute] in
      [database.rs].
    - [Actions]: computations on a state that may fail, and the rules for
      reasoning about what they return and leave.
    - [BoltCursor], [BoltCursorTheorems]: the cursor on the events of a query.
    - [BoltSession], [BoltSessionTheorems]: the session: every request, the
      interrupt registry, the answers, and the service of a connection.  Its
      calls of the engine are recorded as its history.
    - [BoltServe], [BoltResults], [BoltInterrupt]: whole connections, whole
      results, and the accesses of the interrupt registry by the two tasks of a
      connection in any order.

    ** What the theorems show

    - Documents: decoding what was encoded gives the value back with its floats
      normalised; whatever decodes is the one encoding of its value; the
      validator accepts exactly what the decoder does; neither panics.
    - Containers: every sequence of operations on the radix map and the paged
      vector returns what a finite map and a list return; iteration, the
      constructors and serialisation agree; shared views stay in bounds.
    - Graphs: built rows are the edges given, in both directions; rows read
      through pending changes are the sets the changes leave.  Distances are
      least numbers of hops, shortest paths are paths of that length, the
      depth-first order is the recursive preorder, weak and strong components
      are the classes of connection and of mutual reachability numbered by their
      least nodes, triangles are counted once, and core numbers are the largest
      possible.  Each holds whatever the cancellation callback answers: the
      computation ends with the result or with an error of the callback.
    - Values: property documents round trip; the total order of results is a
      preorder and its byte keys sort as the values do, also when concatenated;
      integers and floats compare exactly; the ordering predicates agree with
      that order, equality is symmetric, membership is a disjunction, and
      grouping keys agree with equality but for nulls and NaNs.
    - Temporal values: adding a duration answers exactly the value it advances
      to, whenever there is one, and otherwise fails with a range error or, for
      more days than [Duration::days] takes, panics; fields are typed and
      recombine to the value; comparison agrees with the predicates; the text
      of durations reads back.
    - Lexer: every text gives tokens or a syntax error; tokens cover the text
      in order at the positions they report; they follow a declarative lexical
      grammar; quoted texts and names of any characters are read back.
    - Admission: the counters are those of the live permits after any history,
      limits hold, the control reserve cannot be taken, refusals are free.
    - Mutations: an entry is accepted exactly when its checksum is its body's.
    - Records: a commit applies its batches to an abstract map of records or
      changes nothing, reads agree with the map, and whatever is read has the
      length and the checksum it claims.
    - Segments: the staging tables keep their invariant, publication binds all
      payloads or none, staged and durable payloads read back, published
      payloads survive later steps, reclamation removes only dead payloads, and
      pinned payloads stay readable.
    - Bolt: PackStream values decode to what was encoded, arbitrary bytes
      decode to a value or a protocol violation, reading a message ends and
      gives the message written, the handshake selects the version spoken, the
      direct encoding of results writes the bytes of their PackStream values,
      path structures replay to their paths, a parameter returned unchanged is
      the value sent, and of several bookmarks the latest is selected.
    - Sessions: every connection ends; its transactions are settled, and
      committed only when all their queries succeeded; every request of a client
      that reads is answered, in order; the rows of a result reach the client
      in order and once, however it asks for them; a RESET that races with the
      start of a query cancels it; summaries count what was sent.

    ** Third-party code and bounds

    Code outside the repository is an argument, with its documented behaviour
    as a class: the allocator ([Allocator] in [Document]), [OrderedFloat]
    ([OrderedFloatOrd]), [redb] and [blake3] ([Redb], [RedbSpec]), [postcard]
    and [hex] ([Codecs], [CodecsSpec], [MutationCodec]), the Unicode tables
    ([Unicode]), the calendar and zones of [chrono] and [chrono_tz] ([Chrono],
    [ChronoSpec], and the names of zones [Timezones]).  The executor behind a
    session is the class [QueryEngine], which answers from the history of the
    session and so may depend on it in any way; [QueryEngineSpec] says that it
    sends well-formed events, and after the last one of a result no more than
    its channel holds.  Each class has an instance in the development, on which
    the examples evaluate.  Cryptographic strength is never assumed.

    Loops that are not structural take fuel: the number of bytes or characters
    left, the size of the tree, or the number of levels of the radix map, each
    one more than the loop can use, the days of a month, the nodes and entries a
    traversal can push; the theorems show it is never exhausted.  The digits of a number take forty, enough for [i128].
    The PackStream decoder recurses to [MAX_VALUE_DEPTH] and its fuel is two
    more ([depth_fuel]); a message has at most one chunk in three bytes.
    A cursor reads at most the events of its query, and a request at most the
    rows they hold ([cursor_size]); [finish] of a query waits for its thread,
    which the engine is taken to end.
    A value that is a stored document is read before it is compared; a document
    holds no documents, so two readings are enough for two operands.

    ** What is not modelled

    The graph store and its indexes, the parser, planner and executor, the
    device backends, brokers and the HTTP protocols are not modelled: they are
    large, concurrent or drive external devices, and stand on the layers above.
    Of the Bolt server, the listener that accepts connections, the buffer of the
    writer (messages are written at once) and the pool of codec threads (their
    work is done in place) are left out; the reader's steps on the interrupt
    registry come between messages, except in [BoltInterrupt].  Of
    the modelled files, the serde implementations, random identifiers, the
    numeric view of documents, rebasing of paged vectors on shared pages, the
    graph algorithms on floats (Dijkstra, PageRank, clustering) and Louvain
    communities, and test fixtures are left out.  Calls on a shared store are taken one at a
    time, in the order its locks give. *)

From stdpp Require Import prelude gmap strings sorting.
From Stdlib Require Import ZArith Lia.

(** ** Outcomes of Rust functions

    A fallible Rust function either returns [Ok], returns [Err], or does not
    return: it panics, or (in the model of an unbounded [loop]) the fuel given
    to the model runs out.  The last two are kept apart from [Err] so that
    "never panics" and "enough fuel" are statements about the outcome. *)

Inductive abort := Panicked | OutOfFuel.

Inductive outcome (E A : Type) :=
| Ok (a : A)
| Err (e : E)
| Abort (why : abort).
Arguments Ok {E A} a.
Arguments Err {E A} e.
Arguments Abort {E A} why.

#[global] Instance outcome_ret E : MRet (outcome E) := λ A a, Ok a.
#[global] Instance outcome_bind E : MBind (outcome E) := λ A B f m,
  match m with
  | Ok a => f a
  | Err e => Err e
  | Abort w => Abort w
  end.
#[global] Instance outcome_fmap E : FMap (outcome E) := λ A B f m,
  match m with
  | Ok a => Ok (f a)
  | Err e => Err e
  | Abort w => Abort w
  end.

(** [Option::ok_or_else]. *)
Definition ok_or {E A} (o : option A) (e : E) : outcome E A :=
  match o with Some a => Ok a | None => Err e end.

(** [Result::is_ok] on outcomes. *)
Definition is_ok {E A} (m : outcome E A) : bool :=
  match m with Ok _ => true | _ => false end.

Definition aborts {E A} (m : outcome E A) : bool :=
  match m with Abort _ => true | _ => false end.

Section outcome_lemmas.
Context {E A B : Type}.
Implicit Types (m : outcome E A) (f : A → outcome E B).

Lemma bind_Ok_inv m f b :
  (m ≫= f) = Ok b → ∃ a, m = Ok a ∧ f a = Ok b.
Proof. destruct m; simpl; naive_solver. Qed.

Lemma bind_Ok_l a f : ((Ok a : outcome E A) ≫= f) = f a.
Proof. done. Qed.

Lemma bind_Err_l e f : ((Err e : outcome E A) ≫= f) = Err e.
Proof. done. Qed.

Lemma bind_Abort_l w f : ((Abort w : outcome E A) ≫= f) = Abort w.
Proof. done. Qed.

Lemma bind_assoc {D} m f (g : B → outcome E D) : ((m ≫= f) ≫= g) = (m ≫= λ a, f a ≫= g).
Proof. by destruct m. Qed.

Lemma fmap_Ok_inv m (g : A → B) b :
  (g <$> m) = Ok b → ∃ a, m = Ok a ∧ b = g a.
Proof. destruct m; simpl; naive_solver. Qed.

Lemma ok_or_Ok_inv (o : option A) (e : E) a : ok_or o e = Ok a → o = Some a.
Proof. destruct o; simpl; naive_solver. Qed.
End outcome_lemmas.

Lemma ok_or_Some {E A} (a : A) (e : E) : ok_or (Some a) e = Ok a.
Proof. done. Qed.
Lemma ok_or_None {E A} (e : E) : ok_or (None : option A) e = Err e.
Proof. done. Qed.

(** Reduces sequenced computations whose first part is known. *)
Ltac rbind := rewrite ?ok_or_Some, ?ok_or_None, ?bind_Ok_l, ?bind_Err_l, ?bind_Abort_l.

(** Inverts hypotheses [_ = Ok _] of sequenced computations. *)
Ltac inv_ok :=
  repeat match goal with
  | H : (_ ≫= _) = Ok _ |- _ =>
      let a := fresh "a" in let Ha := fresh "Ha" in
      apply bind_Ok_inv in H as (a & Ha & H); simpl in H
  | H : (_ <$> _) = Ok _ |- _ =>
      let a := fresh "a" in let Ha := fresh "Ha" in
      apply fmap_Ok_inv in H as (a & Ha & H)
  | H : ok_or _ _ = Ok _ |- _ => apply ok_or_Ok_inv in H
  | H : Ok _ = Ok _ |- _ => injection H as H
  | H : Err _ = Ok _ |- _ => discriminate H
  | H : Abort _ = Ok _ |- _ => discriminate H
  end.

(** Proves a closed decidable proposition by evaluating its decision. *)
Ltac decided :=
  match goal with |- ?P => refine (bool_decide_eq_true_1 P _); vm_compute; reflexivity end.

Lemma forallb_Forall {A} (f : A → bool) l : forallb f l = true ↔ Forall (λ x, f x = true) l.
Proof.
  induction l as [|x l IH]; simpl; [done|]. by rewrite andb_true_iff, Forall_cons, IH.
Qed.

Lemma Forall2_impl_in {A B} (P Q : A → B → Prop) l k :
  Forall2 P l k → (∀ x y, x ∈ l → y ∈ k → P x y → Q x y) → Forall2 Q l k.
Proof.
  induction 1 as [|x y l k Hxy _ IH]; intros HPQ; constructor; [apply HPQ; set_solver|].
  apply IH. intros. apply HPQ; set_solver.
Qed.

Lemma Forall_mp {A} {P Q : A → Prop} {l} : Forall (λ a, P a → Q a) l → Forall P l → Forall Q l.
Proof. induction 1; inversion_clear 1; constructor; auto. Qed.

Lemma filter_none {A} (P : A → Prop) `{∀ x, Decision (P x)} l : Forall (λ x, ¬ P x) l → filter P l = [].
Proof. induction 1 as [|x l Hx _ IH]; [done|]. by rewrite filter_cons_False. Qed.

Lemma filter_all {A} (P : A → Prop) `{∀ x, Decision (P x)} l : Forall P l → filter P l = l.
Proof. induction 1 as [|x l Hx _ IH]; [done|]. by rewrite filter_cons_True, IH. Qed.

(** [post m Q]: [m] does not abort, and if it returns [Ok a] then [Q a]. *)
Definition post {E A} (m : outcome E A) (Q : A → Prop) : Prop :=
  match m with Ok a => Q a | Err _ => True | Abort _ => False end.

Section post_lemmas.
Context {E A B : Type}.
Implicit Types (m : outcome E A) (f : A → outcome E B).

Lemma post_bind m f (Q : A → Prop) (R : B → Prop) :
  post m Q → (∀ a, Q a → post (f a) R) → post (m ≫= f) R.
Proof. destruct m; simpl; auto. Qed.

Lemma post_mono m (Q R : A → Prop) : post m Q → (∀ a, Q a → R a) → post m R.
Proof. destruct m; simpl; auto. Qed.

Lemma post_Ok_inv m (Q : A → Prop) a : post m Q → m = Ok a → Q a.
Proof. intros Hp ->. exact Hp. Qed.

Lemma post_no_abort m (Q : A → Prop) : post m Q → aborts m = false.
Proof. by destruct m. Qed.

Lemma post_ok_or (o : option A) (e : E) (Q : A → Prop) :
  (∀ a, o = Some a → Q a) → post (ok_or o e) Q.
Proof. destruct o; simpl; auto. Qed.

Lemma post_if (b : bool) m1 m2 (Q : A → Prop) :
  (b = true → post m1 Q) → (b = false → post m2 Q) → post (if b then m1 else m2) Q.
Proof. destruct b; auto. Qed.
End post_lemmas.

(** [posts F m Q]: as [post], and an error satisfies [F]. *)
Definition posts {E A} (F : E → Prop) (m : outcome E A) (Q : A → Prop) : Prop :=
  match m with Ok a => Q a | Err e => F e | Abort _ => False end.

Section posts_lemmas.
Context {E A B : Type} (F : E → Prop).
Implicit Types (m : outcome E A) (f : A → outcome E B).

Lemma posts_bind m f (Q : A → Prop) (R : B → Prop) :
  posts F m Q → (∀ a, Q a → posts F (f a) R) → posts F (m ≫= f) R.
Proof. destruct m; simpl; auto. Qed.

Lemma posts_fmap m (g : A → B) (R : B → Prop) : posts F m (λ a, R (g a)) → posts F (g <$> m) R.
Proof. by destruct m. Qed.

Lemma posts_mono m (Q R : A → Prop) : posts F m Q → (∀ a, Q a → R a) → posts F m R.
Proof. destruct m; simpl; auto. Qed.

Lemma posts_weaken (G : E → Prop) m (Q : A → Prop) :
  posts F m Q → (∀ e, F e → G e) → posts G m Q.
Proof. destruct m; simpl; auto. Qed.
End posts_lemmas.

Lemma mapM_posts {E A B} (F : E → Prop) (f : A → outcome E B) l (Q : A → B → Prop) :
  Forall (λ x, posts F (f x) (Q x)) l → posts F (mapM f l) (Forall2 Q l).
Proof.
  induction 1 as [|x l Hx _ IH]; [constructor|].
  change (mapM f (x :: l)) with (y ← f x; k ← mapM f l; Ok (y :: k)).
  eapply posts_bind; [exact Hx|]. intros y Hy. eapply posts_bind; [exact IH|].
  intros k Hk. by constructor.
Qed.

(** ** Loops over a sequence *)

(** [for x in l { state = f(state, x)?; }]. *)
Fixpoint foldM {E A B} (f : B → A → outcome E B) (b : B) (l : list A) : outcome E B :=
  match l with
  | [] => Ok b
  | x :: l => b ← f b x; foldM f b l
  end.

Lemma foldM_app {E A B} (f : B → A → outcome E B) b l k :
  foldM f b (l ++ k) = (b' ← foldM f b l; foldM f b' k).
Proof.
  revert b. induction l as [|x l IH]; intros b; [done|]. cbn [foldM app]. rewrite bind_assoc.
  destruct (f b x); [apply IH|done..].
Qed.

(** The rule for loops: [I] holds of the items done and the state. *)
Lemma foldM_posts {E A B} (F : E → Prop) (f : B → A → outcome E B) b l (I : list A → B → Prop) :
  I [] b → (∀ done x rest b, l = done ++ x :: rest → I done b → posts F (f b x) (I (done ++ [x]))) →
  posts F (foldM f b l) (I l).
Proof.
  intros Hb Hstep. assert (∀ done b rest, l = done ++ rest → I done b → posts F (foldM f b rest) (I l)) as H.
  { intros d b' rest. revert d b'. induction rest as [|x rest IH]; intros d b' El Hd; cbn [foldM].
    - by rewrite El, app_nil_r.
    - eapply posts_bind; [by eapply Hstep|]. intros b'' Hb''. apply (IH (d ++ [x])); [|done].
      by rewrite <- app_assoc. }
  by apply (H [] b l).
Qed.

(** The invariant of a loop that succeeded. *)
Lemma foldM_Ok {E A B} (f : B → A → outcome E B) b l b' (I : list A → B → Prop) :
  foldM f b l = Ok b' → I [] b →
  (∀ done x rest b b', l = done ++ x :: rest → I done b → f b x = Ok b' → I (done ++ [x]) b') → I l b'.
Proof.
  intros Hf Hb Hstep.
  assert (∀ rest done b, l = done ++ rest → I done b → foldM f b rest = Ok b' → I l b') as H; [|by apply (H l [] b)].
  induction rest as [|x rest IH]; intros d b0 El Hd Hf0; cbn in Hf0.
  - injection Hf0 as <-. by rewrite El, app_nil_r.
  - apply bind_Ok_inv in Hf0 as (b1 & H1 & H2). apply (IH (d ++ [x]) b1); [by rewrite <- app_assoc| |done].
    by eapply Hstep.
Qed.

Lemma foldM_map {E A B C} (f : B → C → outcome E B) (g : A → C) l b :
  foldM f b (map g l) = foldM (λ b a, f b (g a)) b l.
Proof. revert b. induction l as [|a l IH]; intros b; cbn; [done|]. destruct (f b (g a)); cbn; auto. Qed.

Lemma foldM_ext {E A B} (f g : B → A → outcome E B) l b :
  Forall (λ a, ∀ b, f b a = g b a) l → foldM f b l = foldM g b l.
Proof.
  intros Hl. revert b. induction Hl as [|a l Ha Hl IH]; intros b; cbn; [done|].
  rewrite Ha. destruct (g b a); cbn; [apply IH|done..].
Qed.

(** ** Traversals ([Iterator::collect::<Result<Vec<_>, _>>]) *)

Section traversal.
Context {E A B : Type}.
Implicit Types (f : A → outcome E B).

Lemma mapM_cons f x l :
  mapM f (x :: l) = (y ← f x; k ← mapM f l; Ok (y :: k)).
Proof. done. Qed.

Lemma mapM_Ok f l k : Forall2 (λ x y, f x = Ok y) l k → mapM f l = Ok k.
Proof. induction 1 as [|x y l k Hx _ IH]; [done|]. rewrite mapM_cons, Hx. rbind. by rewrite IH. Qed.

Lemma mapM_Ok_inv f l k : mapM f l = Ok k → Forall2 (λ x y, f x = Ok y) l k.
Proof.
  revert k. induction l as [|x l IH]; intros k; [intros [= <-]; constructor|].
  rewrite mapM_cons. intros Hm. inv_ok. subst. constructor; auto.
Qed.

Lemma mapM_post f l (Q : A → B → Prop) :
  Forall (λ x, post (f x) (Q x)) l → post (mapM f l) (Forall2 Q l).
Proof.
  induction 1 as [|x l Hx _ IH]; [constructor|]. rewrite mapM_cons.
  eapply post_bind; [exact Hx|]. intros y Hy. eapply post_bind; [exact IH|].
  intros k Hk. by constructor.
Qed.
End traversal.

Lemma mapM_length {E A B} (f : A → outcome E B) l k : mapM f l = Ok k → length k = length l.
Proof. intros H%mapM_Ok_inv. by apply Forall2_length in H. Qed.

(** ** Comparisons ([std::cmp::Ordering]) *)

(** [Ordering::then_with]. *)
Definition then_cmp (c d : comparison) : comparison :=
  match c with Eq => d | _ => c end.

Definition is_eq (c : comparison) : bool :=
  match c with Eq => true | _ => false end.

Lemma then_cmp_assoc a b c : then_cmp (then_cmp a b) c = then_cmp a (then_cmp b c).
Proof. by destruct a. Qed.

Lemma then_cmp_Eq_r a : then_cmp a Eq = a.
Proof. by destruct a. Qed.

Lemma CompOpp_then a b : CompOpp (then_cmp a b) = then_cmp (CompOpp a) (CompOpp b).
Proof. by destruct a. Qed.

(** Lexicographic comparison of sequences ([Ord for [T]], [Iterator::cmp]). *)
Section lex.
Context {A : Type} (cmp : A → A → comparison).

Fixpoint lex (l k : list A) : comparison :=
  match l, k with
  | [], [] => Eq
  | [], _ :: _ => Lt
  | _ :: _, [] => Gt
  | x :: l, y :: k => then_cmp (cmp x y) (lex l k)
  end.

Lemma lex_refl l : Forall (λ x, cmp x x = Eq) l → lex l l = Eq.
Proof. induction 1 as [|x l Hx _ IH]; simpl; [done|]. by rewrite Hx. Qed.

Lemma lex_eq (l k : list A) :
  (∀ x y, cmp x y = Eq → x = y) → lex l k = Eq → l = k.
Proof.
  intros Hcmp. revert k.
  induction l as [|x l IH]; intros [|y k]; simpl; try done.
  destruct (cmp x y) eqn:Hxy; simpl; try done.
  intros ?. f_equal; auto.
Qed.

Lemma lex_antisym l k :
  (∀ x y, x ∈ l → cmp y x = CompOpp (cmp x y)) → lex k l = CompOpp (lex l k).
Proof.
  revert k. induction l as [|x l IH]; intros [|y k] Hc; simpl; try done.
  rewrite (Hc x y), IH, CompOpp_then; [done| |]; set_solver.
Qed.

Lemma lex_trans l1 l2 l3 :
  (∀ x y, cmp x y = Eq → x = y) →
  (∀ x y z, cmp x y = Lt → cmp y z = Lt → cmp x z = Lt) →
  lex l1 l2 = Lt → lex l2 l3 = Lt → lex l1 l3 = Lt.
Proof.
  intros Heq Htr. revert l2 l3.
  induction l1 as [|x l1 IH]; intros [|y l2] [|z l3]; simpl; try done.
  destruct (cmp x y) eqn:Hxy; simpl; [|clear IH|done].
  - apply Heq in Hxy as ->. destruct (cmp y z); simpl; eauto.
  - intros _. destruct (cmp y z) eqn:Hyz; simpl; [| |done].
    + apply Heq in Hyz as ->. by rewrite Hxy.
    + by rewrite (Htr _ _ _ Hxy Hyz).
Qed.
End lex.

Definition lexZ : list Z → list Z → comparison := lex Z.compare.

Lemma lexZ_refl l : lexZ l l = Eq.
Proof. apply lex_refl, Forall_forall. intros; apply Z.compare_refl. Qed.

Lemma lexZ_eq l k : lexZ l k = Eq ↔ l = k.
Proof.
  split; [apply lex_eq; intros; by apply Z.compare_eq|].
  intros ->; apply lexZ_refl.
Qed.

Lemma lexZ_antisym l k : lexZ k l = CompOpp (lexZ l k).
Proof. apply lex_antisym. intros; apply Z.compare_antisym. Qed.

Lemma lexZ_trans l1 l2 l3 : lexZ l1 l2 = Lt → lexZ l2 l3 = Lt → lexZ l1 l3 = Lt.
Proof.
  apply lex_trans; [intros; by apply Z.compare_eq|].
  intros x y z; rewrite !Z.compare_lt_iff; lia.
Qed.

Lemma lexZ_lt_gt l k : lexZ l k = Lt ↔ lexZ k l = Gt.
Proof. rewrite (lexZ_antisym l k). by destruct (lexZ l k). Qed.

(** A common prefix does not influence the comparison. *)
Lemma lexZ_app_same p l k : lexZ (p ++ l) (p ++ k) = lexZ l k.
Proof. induction p as [|x p IH]; simpl; [done|]. unfold lexZ in *; simpl. by rewrite Z.compare_refl. Qed.

Create HintDb irongraph.
Create Rewrite HintDb irongraph.
#[export] Hint Rewrite @length_app @length_rev @length_cons : irongraph.
#[export] Hint Resolve lexZ_refl : irongraph.
