(* ===== verification/Machine.v ===== *)
(** * Machine integers, byte strings, UTF-8 and IEEE-754 bit patterns

    What the code uses of Rust's primitive types: fixed-width integers with
    their checked, saturating and wrapping operations, [to_le_bytes] and its
    relatives, byte-wise string comparison, [std::str::from_utf8] and the
    classification of [f64]/[f32] bit patterns.  Integers are [Z]; the range of
    a Rust type is a predicate. *)

From stdpp Require Import prelude gmap strings sorting.
From Stdlib Require Import ZArith Lia Ascii.
From S2P Require Import Prelude.

Local Open Scope Z_scope.

(** ** Ranges *)

Definition u8_max : Z := 255.
Definition u16_max : Z := 65535.
Definition u32_max : Z := 4294967295.
Definition u64_max : Z := 18446744073709551615.
Definition i64_max : Z := 9223372036854775807.
Definition i64_min : Z := -9223372036854775808.
Definition i128_max : Z := 170141183460469231731687303715884105727.
Definition i128_min : Z := -170141183460469231731687303715884105728.
(** The supported targets are 64-bit. *)
Definition usize_max : Z := u64_max.
Definition isize_max : Z := i64_max.

Definition u8 (x : Z) : Prop := 0 ≤ x ≤ 255.
Definition u16 (x : Z) : Prop := 0 ≤ x ≤ 65535.
Definition u32 (x : Z) : Prop := 0 ≤ x ≤ 4294967295.
Definition u64 (x : Z) : Prop := 0 ≤ x ≤ 18446744073709551615.
Definition i32 (x : Z) : Prop := -2147483648 ≤ x ≤ 2147483647.
Definition i64 (x : Z) : Prop := -9223372036854775808 ≤ x ≤ 9223372036854775807.
Definition i128 (x : Z) : Prop :=
  -170141183460469231731687303715884105728 ≤ x ≤ 170141183460469231731687303715884105727.

#[global] Instance u8_dec x : Decision (u8 x).
Proof. unfold u8; apply _. Defined.
#[global] Instance u32_dec x : Decision (u32 x).
Proof. unfold u32; apply _. Defined.
#[global] Instance u64_dec x : Decision (u64 x).
Proof. unfold u64; apply _. Defined.
#[global] Instance i32_dec x : Decision (i32 x).
Proof. unfold i32; apply _. Defined.
#[global] Instance i64_dec x : Decision (i64 x).
Proof. unfold i64; apply _. Defined.

(** Unfolds every range predicate and constant; [lia] then sees numerals. *)
Ltac unfold_ranges :=
  unfold usize_max, isize_max, u8, u16, u32, u64, i32, i64, i128, u8_max, u16_max, u32_max, u64_max,
    i64_max, i64_min, i128_max, i128_min in *.
Ltac rlia := unfold_ranges; lia.

(** ** Arithmetic of the primitive types *)

Definition checked_add (max a b : Z) : option Z :=
  if a + b <=? max then Some (a + b) else None.
Definition checked_mul (max a b : Z) : option Z :=
  if a * b <=? max then Some (a * b) else None.
(** On unsigned types. *)
Definition checked_sub (a b : Z) : option Z :=
  if b <=? a then Some (a - b) else None.
(** [+] on [usize], with the overflow check of a debug build. *)
Definition usize_add {E} (a b : Z) : outcome E Z :=
  if a + b <=? usize_max then Ok (a + b) else Abort Panicked.
Lemma usize_add_Ok {E} a b : a + b ≤ usize_max → usize_add (E := E) a b = Ok (a + b).
Proof. intros. unfold usize_add. by rewrite (proj2 (Z.leb_le _ _)). Qed.
Definition saturating_sub (a b : Z) : Z := Z.max 0 (a - b).
Definition saturating_add (max a b : Z) : Z := Z.min max (a + b).

Definition clamp (lo hi x : Z) : Z := Z.max lo (Z.min hi x).
Definition i64_saturating_sub (a b : Z) : Z := clamp i64_min i64_max (a - b).
Definition i64_saturating_mul (a b : Z) : Z := clamp i64_min i64_max (a * b).
Definition i128_saturating_add (a b : Z) : Z := clamp i128_min i128_max (a + b).
Definition i128_saturating_mul (a b : Z) : Z := clamp i128_min i128_max (a * b).

(** [try_from] for a type of the given bounds. *)
Definition in_range (min max x : Z) : option Z :=
  if (min <=? x) && (x <=? max) then Some x else None.

Definition usize_try_from (x : Z) : option Z := if x <=? usize_max then Some x else None.
Definition u32_try_from (x : Z) : option Z := if x <=? u32_max then Some x else None.
Definition u64_try_from (x : Z) : option Z := if x <=? u64_max then Some x else None.

(** [x as u32] on [usize]. *)
Definition as_u32 (x : Z) : Z := x mod 2 ^ 32.

(** [usize::div_ceil] on nonnegative operands. *)
Definition div_ceil (a b : Z) : Z := (a + b - 1) / b.

Definition zlen {A} (l : list A) : Z := Z.of_nat (length l).

Lemma zlen_nil {A} : zlen (@nil A) = 0.
Proof. done. Qed.
Lemma zlen_cons {A} (x : A) l : zlen (x :: l) = 1 + zlen l.
Proof. unfold zlen; simpl; lia. Qed.
Lemma zlen_app {A} (l k : list A) : zlen (l ++ k) = zlen l + zlen k.
Proof. unfold zlen. rewrite length_app. lia. Qed.
Lemma zlen_nonneg {A} (l : list A) : 0 ≤ zlen l.
Proof. unfold zlen; lia. Qed.

(** ** Byte strings *)

Abbreviation bytes := (list Z).

(** The value of an ASCII character, and a literal. *)
Definition ch (c : ascii) : Z := Z.of_N (N_of_ascii c).
Fixpoint lit (s : string) : bytes :=
  match s with EmptyString => [] | String.String c s => ch c :: lit s end.

Definition bytes_wf (bs : bytes) : Prop := Forall u8 bs.

#[global] Instance bytes_wf_dec bs : Decision (bytes_wf bs).
Proof. unfold bytes_wf; apply _. Defined.

(** [to_le_bytes] of an [n]-byte integer; a negative integer is encoded in
    two's complement because [mod] and [/] round towards minus infinity. *)
Fixpoint le_bytes (n : nat) (x : Z) : bytes :=
  match n with
  | O => []
  | S n => x mod 256 :: le_bytes n (x / 256)
  end.

(** [from_le_bytes] of an unsigned integer. *)
Fixpoint from_le (bs : bytes) : Z :=
  match bs with
  | [] => 0
  | b :: bs => b + 256 * from_le bs
  end.

(** [from_le_bytes] of a signed integer. *)
Definition from_le_signed (bs : bytes) : Z :=
  let x := from_le bs in
  if x <? 2 ^ (8 * zlen bs - 1) then x else x - 2 ^ (8 * zlen bs).

Definition be_bytes (n : nat) (x : Z) : bytes := rev (le_bytes n x).
Definition from_be (bs : bytes) : Z := from_le (rev bs).

(** Range indexing [bytes.get(start..end)]. *)
Definition get_range {A} (l : list A) (start end_ : Z) : option (list A) :=
  if (start <=? end_) && (end_ <=? zlen l)
  then Some (firstn (Z.to_nat (end_ - start)) (skipn (Z.to_nat start) l))
  else None.

(** Range indexing [bytes[start..end]], which panics out of range. *)
Definition index_range {E A} (l : list A) (start end_ : Z) : outcome E (list A) :=
  match get_range l start end_ with Some s => Ok s | None => Abort Panicked end.

(** [<[T]>::get]. *)
Definition get {A} (l : list A) (i : Z) : option A :=
  if i <? 0 then None else l !! Z.to_nat i.

(** Indexing [l[i]], which panics out of range. *)
Definition index_at {E A} (l : list A) (i : Z) : outcome E A :=
  match get l i with Some x => Ok x | None => Abort Panicked end.

(** Assignment [l[i] = x], which panics out of range. *)
Definition index_set {E A} (l : list A) (i : Z) (x : A) : outcome E (list A) :=
  if (0 <=? i) && (i <? zlen l) then Ok (<[Z.to_nat i := x]> l) else Abort Panicked.

(** [u64::leading_zeros], [<<] and [!]. *)
Definition leading_zeros64 (x : Z) : Z := if x =? 0 then 64 else 63 - Z.log2 x.
Definition u64_shl (x n : Z) : Z := Z.shiftl x n mod 2 ^ 64.
Definition u64_not (x : Z) : Z := u64_max - x.
Definition u32_not (x : Z) : Z := u32_max - x.
Definition u16_not (x : Z) : Z := u16_max - x.

(** ** Strings: UTF-8 *)

Definition cont (b : Z) : bool := (128 <=? b) && (b <=? 191).

(** [std::str::from_utf8] succeeds exactly on well-formed UTF-8 (the table
    of well-formed byte sequences of the Unicode standard). *)
Fixpoint utf8_valid (bs : bytes) : bool :=
  match bs with
  | [] => true
  | b0 :: r0 =>
      if b0 <? 128 then utf8_valid r0 else
      match r0 with
      | [] => false
      | b1 :: r1 =>
          if (194 <=? b0) && (b0 <=? 223) then cont b1 && utf8_valid r1 else
          match r1 with
          | [] => false
          | b2 :: r2 =>
              if (224 <=? b0) && (b0 <=? 239) then
                cont b1 && cont b2
                && (if b0 =? 224 then 160 <=? b1 else true)
                && (if b0 =? 237 then b1 <=? 159 else true)
                && utf8_valid r2
              else
              match r2 with
              | [] => false
              | b3 :: r3 =>
                  (240 <=? b0) && (b0 <=? 244)
                  && cont b1 && cont b2 && cont b3
                  && (if b0 =? 240 then 144 <=? b1 else true)
                  && (if b0 =? 244 then b1 <=? 143 else true)
                  && utf8_valid r3
              end
          end
      end
  end.

(** A Rust [str]: bytes that are well-formed UTF-8. *)
Definition str_wf (s : bytes) : Prop := bytes_wf s ∧ utf8_valid s = true.

#[global] Instance str_wf_dec s : Decision (str_wf s).
Proof. unfold str_wf; apply _. Defined.

(** ** IEEE-754 binary64, by bit pattern *)

Definition f64_exponent (bits : Z) : Z := (bits / 2 ^ 52) mod 2048.
Definition f64_fraction (bits : Z) : Z := bits mod 2 ^ 52.
Definition f64_negative (bits : Z) : bool := 2 ^ 63 <=? bits.

Definition f64_is_nan (bits : Z) : bool :=
  (f64_exponent bits =? 2047) && negb (f64_fraction bits =? 0).
Definition f64_is_finite (bits : Z) : bool := negb (f64_exponent bits =? 2047).
(** [value == 0.0], which holds of both zeros. *)
Definition f64_is_zero (bits : Z) : bool :=
  (f64_exponent bits =? 0) && (f64_fraction bits =? 0).

Definition f64_nan_bits : Z := 9221120237041090560.      (* 0x7ff8_0000_0000_0000 *)
Definition f64_infinity_bits : Z := 9218868437227405312. (* 0x7ff0_0000_0000_0000 *)
Definition f64_neg_infinity_bits : Z := 18442240474082181120.

(** The value of a pattern that is not a NaN, in units of [2 ^ -1074]; an
    infinity reads as the power of two above every finite value. *)
Definition f64_scaled (bits : Z) : Z :=
  let e := f64_exponent bits in
  let magnitude :=
    if e =? 0 then f64_fraction bits else (2 ^ 52 + f64_fraction bits) * 2 ^ (e - 1) in
  if f64_negative bits then - magnitude else magnitude.

(** The integer nearest to [num / den], ties to even. *)
Definition round_half_even (num den : Z) : Z :=
  let q := num / den in
  let r := num mod den in
  match 2 * r ?= den with
  | Lt => q
  | Eq => if Z.even q then q else q + 1
  | Gt => q + 1
  end.

(** The bits of the float nearest to [num / den]. *)
Definition f64_nearest (num den : Z) : Z :=
  if num =? 0 then 0
  else
    let guess := Z.log2 num - Z.log2 den in
    let exponent := if num * 2 ^ Z.max 0 (- guess) <? den * 2 ^ Z.max 0 guess then guess - 1 else guess in
    let exponent := Z.max exponent (-1022) in
    let shift := 52 - exponent in
    let q := round_half_even (num * 2 ^ Z.max 0 shift) (den * 2 ^ Z.max 0 (- shift)) in
    Z.min ((exponent + 1022) * 2 ^ 52 + q) f64_infinity_bits.

(** [f32::total_cmp]: sign and magnitude, negative zero below positive zero. *)
Definition f32_total_key (bits : Z) : Z := if bits <? 2 ^ 31 then bits else 2 ^ 31 - 1 - bits.
Definition f32_total_cmp (a b : Z) : comparison := f32_total_key a ?= f32_total_key b.

(** ** Lemmas: integers as byte strings *)

Lemma in_range_Some min max x y : in_range min max x = Some y ↔ y = x ∧ min ≤ x ≤ max.
Proof. unfold in_range. case_match; split; [intros [= <-]; lia|intros [-> _]; done|done|lia]. Qed.
Lemma zlen_rev {A} (l : list A) : zlen (rev l) = zlen l.
Proof. unfold zlen. by rewrite length_rev. Qed.

Lemma length_le_bytes n x : length (le_bytes n x) = n.
Proof. revert x; induction n; simpl; auto. Qed.

Lemma length_be_bytes n x : length (be_bytes n x) = n.
Proof. unfold be_bytes. by rewrite length_rev, length_le_bytes. Qed.

Lemma zlen_le_bytes n x : zlen (le_bytes n x) = Z.of_nat n.
Proof. unfold zlen. by rewrite length_le_bytes. Qed.

Lemma le_bytes_wf n x : bytes_wf (le_bytes n x).
Proof.
  revert x; induction n as [|n IH]; intros x; simpl; constructor; [|apply IH].
  pose proof (Z.mod_pos_bound x 256 ltac:(lia)). rlia.
Qed.

Lemma be_bytes_wf n x : bytes_wf (be_bytes n x).
Proof. apply Forall_rev, le_bytes_wf. Qed.

Lemma pow256_S n : 256 ^ Z.of_nat (S n) = 256 * 256 ^ Z.of_nat n.
Proof. rewrite Nat2Z.inj_succ, Z.pow_succ_r; lia. Qed.

Lemma pow256_pos n : 0 < 256 ^ Z.of_nat n.
Proof. apply Z.pow_pos_nonneg; lia. Qed.

Lemma from_le_le_bytes n x : from_le (le_bytes n x) = x mod 256 ^ Z.of_nat n.
Proof.
  revert x; induction n as [|n IH]; intros x; simpl le_bytes.
  - simpl. by rewrite Z.mod_1_r.
  - simpl from_le. rewrite IH, pow256_S.
    pose proof (pow256_pos n). rewrite Z.rem_mul_r; lia.
Qed.

Lemma from_le_bound bs : bytes_wf bs → 0 ≤ from_le bs < 256 ^ zlen bs.
Proof.
  unfold zlen. induction 1 as [|b bs Hb Hbs IH]; simpl length; simpl from_le; [done|].
  rewrite pow256_S. unfold u8 in Hb. lia.
Qed.

Lemma le_bytes_from_le bs : bytes_wf bs → le_bytes (length bs) (from_le bs) = bs.
Proof.
  induction 1 as [|b bs Hb Hbs IH]; simpl; [done|]. unfold u8 in Hb.
  replace (b + 256 * from_le bs) with (b + from_le bs * 256) by lia.
  rewrite Z.mod_add, Z.div_add, Z.mod_small, Z.div_small by lia.
  by rewrite Z.add_0_l, IH.
Qed.

Lemma le_bytes_mod n x : le_bytes n (x mod 256 ^ Z.of_nat n) = le_bytes n x.
Proof.
  rewrite <- from_le_le_bytes. rewrite <- (length_le_bytes n x) at 1.
  apply le_bytes_from_le, le_bytes_wf.
Qed.

Lemma le_bytes_inj n x y :
  le_bytes n x = le_bytes n y → x mod 256 ^ Z.of_nat n = y mod 256 ^ Z.of_nat n.
Proof. intros H. by rewrite <- !from_le_le_bytes, H. Qed.

Lemma pow2_8 k : 0 ≤ k → 2 ^ (8 * k) = 256 ^ k.
Proof. intros. change 256 with (2 ^ 8). rewrite <- Z.pow_mul_r; lia. Qed.

(** Two's complement: the signed reading of the encoding of an in-range integer. *)
Lemma from_le_signed_le_bytes n x :
  - 2 ^ (8 * Z.of_nat (S n) - 1) ≤ x < 2 ^ (8 * Z.of_nat (S n) - 1) →
  from_le_signed (le_bytes (S n) x) = x.
Proof.
  intros Hx. unfold from_le_signed. rewrite zlen_le_bytes, from_le_le_bytes.
  rewrite <- pow2_8 by lia.
  set (h := 2 ^ (8 * Z.of_nat (S n) - 1)) in *.
  assert (Hp : 2 ^ (8 * Z.of_nat (S n)) = 2 * h).
  { unfold h. rewrite <- Z.pow_succ_r by lia. f_equal; lia. }
  rewrite Hp. assert (0 < h) by (apply Z.pow_pos_nonneg; lia).
  destruct (Z_lt_le_dec x 0).
  - replace (x mod (2 * h)) with (x + 2 * h).
    + destruct (Z.ltb_spec (x + 2 * h) h); lia.
    + rewrite <- (Z.mod_small (x + 2 * h) (2 * h)) by lia.
      rewrite <- (Z.mod_add x 1 (2 * h)) by lia. f_equal; lia.
  - rewrite Z.mod_small by lia. destruct (Z.ltb_spec x h); lia.
Qed.

Lemma from_le_signed_range n bs :
  length bs = S n → bytes_wf bs →
  - 2 ^ (8 * Z.of_nat (S n) - 1) ≤ from_le_signed bs < 2 ^ (8 * Z.of_nat (S n) - 1).
Proof.
  intros Hlen Hwf. pose proof (from_le_bound bs Hwf) as Hb.
  unfold from_le_signed, zlen in *. rewrite Hlen in *. rewrite <- pow2_8 in Hb by lia.
  set (h := 2 ^ (8 * Z.of_nat (S n) - 1)) in *.
  assert (Hp : 2 ^ (8 * Z.of_nat (S n)) = 2 * h).
  { unfold h. rewrite <- Z.pow_succ_r by lia. f_equal; lia. }
  rewrite Hp in *. destruct (Z.ltb_spec (from_le bs) h); lia.
Qed.

Lemma le_bytes_from_le_signed bs :
  bytes_wf bs → le_bytes (length bs) (from_le_signed bs) = bs.
Proof.
  intros Hwf. rewrite <- le_bytes_mod. unfold from_le_signed.
  rewrite (pow2_8 (zlen bs)) by apply zlen_nonneg. fold (zlen bs).
  pose proof (from_le_bound bs Hwf) as Hb.
  destruct (_ <? _).
  - rewrite Z.mod_small by lia. by apply le_bytes_from_le.
  - replace (from_le bs - 256 ^ zlen bs) with (from_le bs + (-1) * 256 ^ zlen bs) by lia.
    rewrite Z.mod_add, Z.mod_small by lia. by apply le_bytes_from_le.
Qed.

Lemma from_le_8 x : u64 x → from_le (le_bytes 8 x) = x.
Proof. intros H. rewrite from_le_le_bytes, Z.mod_small; [done|]. rlia. Qed.
Lemma from_le_4 x : u32 x → from_le (le_bytes 4 x) = x.
Proof. intros H. rewrite from_le_le_bytes, Z.mod_small; [done|]. rlia. Qed.
Lemma from_le_signed_8 x : i64 x → from_le_signed (le_bytes 8 x) = x.
Proof. intros H. apply from_le_signed_le_bytes. rlia. Qed.
Lemma from_le_signed_4 x : i32 x → from_le_signed (le_bytes 4 x) = x.
Proof. intros H. apply from_le_signed_le_bytes. rlia. Qed.

Lemma from_le_u64 bs : length bs = 8%nat → bytes_wf bs → u64 (from_le bs).
Proof. intros Hl Hw. pose proof (from_le_bound _ Hw) as H. unfold zlen in H. rewrite Hl in H. rlia. Qed.
Lemma from_le_u32 bs : length bs = 4%nat → bytes_wf bs → u32 (from_le bs).
Proof. intros Hl Hw. pose proof (from_le_bound _ Hw) as H. unfold zlen in H. rewrite Hl in H. rlia. Qed.
Lemma from_le_signed_i64 bs : length bs = 8%nat → bytes_wf bs → i64 (from_le_signed bs).
Proof. intros Hl Hw. pose proof (from_le_signed_range 7 bs Hl Hw). rlia. Qed.
Lemma from_le_signed_i32 bs : length bs = 4%nat → bytes_wf bs → i32 (from_le_signed bs).
Proof. intros Hl Hw. pose proof (from_le_signed_range 3 bs Hl Hw). rlia. Qed.

Lemma from_be_be_bytes n x : from_be (be_bytes n x) = x mod 256 ^ Z.of_nat n.
Proof. unfold from_be, be_bytes. by rewrite rev_involutive, from_le_le_bytes. Qed.

(** ** Lemmas: bit operations *)

Lemma land_pow2_small n x : 0 ≤ n → 0 ≤ x < 2 ^ n → Z.land (2 ^ n) x = 0.
Proof.
  intros Hn Hx. apply Z.bits_inj'. intros m Hm. rewrite Z.land_spec, Z.bits_0, Z.pow2_bits_eqb by done.
  destruct (Z.eqb_spec n m) as [->|]; [|done]. cbn [andb]. destruct (Z.eq_dec x 0) as [->|]; [apply Z.bits_0|].
  apply Z.bits_above_log2; [lia|]. apply Z.log2_lt_pow2; lia.
Qed.

Lemma lor_pow2_small n x : 0 ≤ n → 0 ≤ x < 2 ^ n → Z.lor (2 ^ n) x = 2 ^ n + x.
Proof.
  intros Hn Hx. pose proof (land_pow2_small n x Hn Hx) as Hl.
  rewrite <- Z.lxor_lor by done. by rewrite <- Z.add_nocarry_lxor.
Qed.

(** Flipping the top bit of an [n + 1]-bit integer. *)
Lemma lxor_pow2_low n x : 0 ≤ n → 0 ≤ x < 2 ^ n → Z.lxor x (2 ^ n) = x + 2 ^ n.
Proof.
  intros Hn Hx. symmetry. apply Z.add_nocarry_lxor. rewrite Z.land_comm. by apply land_pow2_small.
Qed.

Lemma lxor_pow2_high n x : 0 ≤ n → 2 ^ n ≤ x < 2 * 2 ^ n → Z.lxor x (2 ^ n) = x - 2 ^ n.
Proof.
  intros Hn Hx. replace x with (Z.lxor (x - 2 ^ n) (2 ^ n)) at 1 by (rewrite lxor_pow2_low by lia; lia).
  by rewrite Z.lxor_assoc, Z.lxor_nilpotent, Z.lxor_0_r.
Qed.

(** A signed integer, with its sign bit flipped, as an unsigned one. *)
Lemma sign_flip n x :
  0 ≤ n → - 2 ^ n ≤ x < 2 ^ n → Z.lxor (x mod 2 ^ (n + 1)) (Z.shiftl 1 n) = x + 2 ^ n.
Proof.
  intros Hn Hx. rewrite Z.shiftl_mul_pow2, Z.mul_1_l by done.
  assert (2 ^ (n + 1) = 2 * 2 ^ n) as E by (rewrite Z.add_1_r, Z.pow_succ_r by done; done).
  rewrite E. destruct (Z_lt_le_dec x 0).
  - assert (x mod (2 * 2 ^ n) = x + 2 * 2 ^ n) as ->.
    { symmetry. apply Z.mod_unique with (-1); lia. }
    rewrite lxor_pow2_high by lia. lia.
  - rewrite Z.mod_small by lia. apply lxor_pow2_low; lia.
Qed.

(** ** Lemmas: ranges of a slice *)

Lemma get_range_app {A} (p s r : list A) :
  get_range (p ++ s ++ r) (zlen p) (zlen p + zlen s) = Some s.
Proof.
  unfold get_range. rewrite !zlen_app.
  pose proof (zlen_nonneg p); pose proof (zlen_nonneg s); pose proof (zlen_nonneg r).
  rewrite (proj2 (Z.leb_le _ _)), (proj2 (Z.leb_le _ _)) by lia. simpl. f_equal.
  replace (zlen p + zlen s - zlen p) with (zlen s) by lia.
  unfold zlen. rewrite !Nat2Z.id.
  by rewrite drop_app_length, take_app_length.
Qed.

Lemma index_range_app {E A} (p s r : list A) a b :
  a = zlen p → b = zlen p + zlen s → index_range (E := E) (p ++ s ++ r) a b = Ok s.
Proof. intros -> ->. unfold index_range. by rewrite get_range_app. Qed.

Lemma index_range_suffix {E A} (p s : list A) a b :
  a = zlen p → b = zlen p + zlen s → index_range (E := E) (p ++ s) a b = Ok s.
Proof. intros Ha Hb. rewrite <- (app_nil_r s) at 1. by apply index_range_app. Qed.

Lemma get_range_all {A} (l : list A) : get_range l 0 (zlen l) = Some l.
Proof.
  pose proof (get_range_app [] l []) as E. cbn [app] in E. rewrite app_nil_r in E. exact E.
Qed.

Lemma get_range_Some {A} (l : list A) a b s :
  0 ≤ a → get_range l a b = Some s →
  ∃ p r, l = p ++ s ++ r ∧ zlen p = a ∧ zlen p + zlen s = b.
Proof.
  intros Ha. unfold get_range.
  destruct (Z.leb_spec a b), (Z.leb_spec b (zlen l)); simpl; try done.
  intros [= <-].
  exists (firstn (Z.to_nat a) l), (skipn (Z.to_nat (b - a)) (skipn (Z.to_nat a) l)).
  split; [by rewrite firstn_skipn, firstn_skipn|].
  unfold zlen in *. rewrite !length_firstn, length_skipn. lia.
Qed.

#[export] Hint Rewrite @zlen_nil @zlen_cons @zlen_app @zlen_rev zlen_le_bytes : irongraph.
#[export] Hint Resolve le_bytes_wf be_bytes_wf @zlen_nonneg : irongraph.

#[global] Arguments le_bytes : simpl never.
#[global] Arguments be_bytes : simpl never.
#[global] Arguments from_le : simpl never.
#[global] Arguments from_le_signed : simpl never.
#[global] Arguments zlen : simpl never.
#[global] Arguments utf8_valid : simpl never.
#[global] Arguments get_range : simpl never.
