(* ===== verification/Types.v ===== *)
(** * Shared types: [crates/types]

    The error taxonomy of [error.rs], the bookmarks, layers and property values
    of [types.rs], and the ordered map [BTreeMap<str, _>] that documents and
    results are built from. *)

From stdpp Require Import prelude gmap strings sorting.
From Stdlib Require Import ZArith Lia.
From S2P Require Import Prelude Machine.

Local Open Scope Z_scope.

(** ** Errors *)

Inductive ErrorCode :=
| StaleLocalRead | CorruptStorage | GpuAdmissionFailure | ProjectNotFound
| ProjectFenced | LayerNotAllowed | QuerySyntax | QueryType
| TransactionConflict | TransactionExpired | TransactionSequencerChanged
| WriteAdmissionFull | TemporalRange | EmbeddingProfileMismatch
| EmbeddingProfileImmutable | IndexUnavailable | ResultBudgetExceeded
| EmbeddingUnavailable | AuthenticationFailed | AuthorizationDenied
| Backpressure | RetentionExpired | ProtocolViolation | Cancelled
| DeadlineExceeded | InvalidData | Io | Internal.

#[global] Instance ErrorCode_eq_dec : EqDecision ErrorCode.
Proof. solve_decision. Defined.

Record Error := mkError {
  code : ErrorCode;
  message : string;
  retryable : bool;
  retry_after_ms : option Z;
}.

Abbreviation Result := (outcome Error).

Definition Error_new (c : ErrorCode) (m : string) : Error := mkError c m false None.
Definition Error_retryable (c : ErrorCode) (m : string) (after : option Z) : Error :=
  mkError c m true after.
Definition Error_invalid_data (m : string) : Error := Error_new InvalidData m.
Definition Error_internal (m : string) : Error := Error_new Internal m.

(** The helper [corrupt] that every storage file declares for itself. *)
Definition corrupt (m : string) : Error := Error_new CorruptStorage m.

(** ** Bookmarks and layers *)

Record Bookmark := mkBookmark { term : Z; index : Z }.

#[global] Instance Bookmark_eq_dec : EqDecision Bookmark.
Proof. solve_decision. Defined.

Definition Bookmark_default : Bookmark := mkBookmark 0 0.

Definition bookmark_wf (b : Bookmark) : Prop := u64 (term b) ∧ u64 (index b).

Inductive Layer := Observed | Knowledge | Workspace.

#[global] Instance Layer_eq_dec : EqDecision Layer.
Proof. solve_decision. Defined.

Definition Layer_ALL : list Layer := [Observed; Knowledge; Workspace].

(** The [repr(u8)] discriminant. *)
Definition Layer_as_u8 (l : Layer) : Z :=
  match l with Observed => 0 | Knowledge => 1 | Workspace => 2 end.

Definition Layer_try_from (value : Z) : Result Layer :=
  match value with
  | 0 => Ok Observed
  | 1 => Ok Knowledge
  | 2 => Ok Workspace
  | _ => Err (Error_invalid_data "invalid layer byte")
  end.

(** ** Property values *)

(** [Float] holds the bit pattern of the [f64] inside [OrderedFloat]; strings
    are their UTF-8 bytes; [ScalarList] and [ScalarMap] hold the canonical
    bytes of [DocumentList] and [DocumentMap]. *)
Inductive ScalarValue :=
| ScalarNull
| ScalarBoolean (b : bool)
| ScalarInteger (x : Z)
| ScalarFloat (bits : Z)
| ScalarString (s : bytes)
| ScalarBytes (s : bytes)
| ScalarDate (days : Z)
| ScalarLocalTime (nanos : Z)
| ScalarZonedTime (nanos offset_seconds : Z)
| ScalarLocalDateTime (seconds nanos : Z)
| ScalarZonedDateTime (seconds nanos : Z) (timezone : bytes)
| ScalarDuration (months days seconds nanos : Z)
| ScalarList (document : bytes)
| ScalarMap (document : bytes).

#[global] Instance ScalarValue_eq_dec : EqDecision ScalarValue.
Proof. solve_decision. Defined.

Definition is_document (v : ScalarValue) : bool :=
  match v with ScalarList _ | ScalarMap _ => true | _ => false end.

Definition type_name (v : ScalarValue) : string :=
  match v with
  | ScalarNull => "NULL"
  | ScalarBoolean _ => "BOOLEAN"
  | ScalarInteger _ => "INTEGER"
  | ScalarFloat _ => "FLOAT"
  | ScalarString _ => "STRING"
  | ScalarBytes _ => "BYTES"
  | ScalarDate _ => "DATE"
  | ScalarLocalTime _ => "LOCAL TIME"
  | ScalarZonedTime _ _ => "ZONED TIME"
  | ScalarLocalDateTime _ _ => "LOCAL DATETIME"
  | ScalarZonedDateTime _ _ _ => "ZONED DATETIME"
  | ScalarDuration _ _ _ _ => "DURATION"
  | ScalarList _ => "LIST"
  | ScalarMap _ => "MAP"
  end.

(** What the Rust field types guarantee of a value. *)
Definition scalar_wf (v : ScalarValue) : Prop :=
  match v with
  | ScalarNull | ScalarBoolean _ => True
  | ScalarInteger x | ScalarDate x | ScalarLocalTime x => i64 x
  | ScalarFloat bits => u64 bits
  | ScalarString s => str_wf s
  | ScalarBytes s | ScalarList s | ScalarMap s => bytes_wf s
  | ScalarZonedTime nanos offset => i64 nanos ∧ i32 offset
  | ScalarLocalDateTime seconds nanos => i64 seconds ∧ u32 nanos
  | ScalarZonedDateTime seconds nanos tz => i64 seconds ∧ u32 nanos ∧ str_wf tz
  | ScalarDuration months days seconds nanos =>
      i64 months ∧ i64 days ∧ i64 seconds ∧ i32 nanos
  end.

#[global] Instance scalar_wf_dec v : Decision (scalar_wf v).
Proof. destruct v; simpl; apply _. Defined.

(** ** [BTreeMap<str, V>] as a key-ordered association list *)

Section btree.
Context {V : Type}.

(** Strictly increasing keys: the iteration order of a [BTreeMap]. *)
Fixpoint keys_sorted (m : list (bytes * V)) : Prop :=
  match m with
  | [] => True
  | (k, _) :: m' =>
      match m' with
      | [] => True
      | (k', _) :: _ => lexZ k k' = Lt ∧ keys_sorted m'
      end
  end.

(** [BTreeMap::insert]: returns the value it replaced. *)
Fixpoint btree_insert (k : bytes) (v : V) (m : list (bytes * V))
    : option V * list (bytes * V) :=
  match m with
  | [] => (None, [(k, v)])
  | (k', v') :: m' =>
      match lexZ k k' with
      | Lt => (None, (k, v) :: (k', v') :: m')
      | Eq => (Some v', (k', v) :: m')
      | Gt => let '(old, m'') := btree_insert k v m' in (old, (k', v') :: m'')
      end
  end.

Lemma keys_sorted_tail p m : keys_sorted (p :: m) → keys_sorted m.
Proof. destruct p as [k v], m as [|[k' v'] m]; simpl; tauto. Qed.

Lemma keys_sorted_all_lt k v m :
  keys_sorted ((k, v) :: m) → Forall (λ p, lexZ k p.1 = Lt) m.
Proof.
  revert k v. induction m as [|[k' v'] m IH]; intros k v; [constructor|].
  intros [Hlt Hs]. constructor; [done|].
  eapply Forall_impl; [apply (IH _ _ Hs)|]. intros [k'' v''] ?; simpl in *.
  by eapply lexZ_trans.
Qed.

Lemma keys_sorted_cons k v m :
  Forall (λ p, lexZ k p.1 = Lt) m → keys_sorted m → keys_sorted ((k, v) :: m).
Proof. destruct m as [|[k' v'] m]; [done|]. intros Hf%Forall_inv Hs. by split. Qed.

Lemma keys_sorted_snoc m k v :
  keys_sorted m → Forall (λ p, lexZ p.1 k = Lt) m → keys_sorted (m ++ [(k, v)]).
Proof.
  induction m as [|[k' v'] m IH]; [done|]. intros Hs Hf.
  rewrite <- app_comm_cons. apply keys_sorted_cons.
  - apply Forall_app; split; [by eapply keys_sorted_all_lt|].
    constructor; [|constructor]. by apply Forall_inv in Hf.
  - apply IH; [by eapply keys_sorted_tail|by apply Forall_inv_tail in Hf].
Qed.

(** Inserting past the last key appends. *)
Lemma btree_insert_last k v m :
  Forall (λ p, lexZ p.1 k = Lt) m → btree_insert k v m = (None, m ++ [(k, v)]).
Proof.
  induction 1 as [|[k' v'] m Hlt Hf IH]; simpl in *; [done|].
  apply lexZ_lt_gt in Hlt. by rewrite Hlt, IH.
Qed.

Lemma keys_sorted_app_lt m k v m' :
  keys_sorted (m ++ (k, v) :: m') → Forall (λ p, lexZ p.1 k = Lt) m.
Proof.
  induction m as [|[k0 v0] m IH]; [constructor|]. intros Hs. constructor.
  - apply keys_sorted_all_lt, Forall_app in Hs as [_ Hs]. by apply Forall_inv in Hs.
  - apply IH. by eapply keys_sorted_tail.
Qed.
End btree.

(** [BTreeMap::get] on the ordered entries. *)
Fixpoint btree_get {V} (k : bytes) (m : list (bytes * V)) : option V :=
  match m with
  | [] => None
  | (k', v) :: m => if bool_decide (k = k') then Some v else btree_get k m
  end.

Lemma btree_get_insert {V} k (v : V) m k' :
  btree_get k' (btree_insert k v m).2 = if bool_decide (k' = k) then Some v else btree_get k' m.
Proof.
  induction m as [|[k0 v0] m IH]; cbn; [done|].
  destruct (lexZ k k0) eqn:E; cbn.
  - apply lexZ_eq in E as <-. by case_bool_decide.
  - done.
  - destruct (btree_insert k v m) as [old m'] eqn:Hi. cbn in *. rewrite IH.
    repeat case_bool_decide; try done. subst. by rewrite lexZ_refl in E.
Qed.

Lemma btree_insert_new {V} k (v : V) m m' :
  btree_insert k v m = (None, m') → m' ≡ₚ (k, v) :: m.
Proof.
  revert m'. induction m as [|[k0 v0] m IH]; intros m'; cbn; [by intros [= <-]|].
  destruct (lexZ k k0) eqn:E; [done|by intros [= <-]|].
  destruct (btree_insert k v m) as [old m1] eqn:Hi. intros [= -> <-].
  rewrite (IH m1) by done. by constructor.
Qed.

Lemma btree_insert_sorted {V} k (v : V) m m' :
  keys_sorted m → btree_insert k v m = (None, m') → keys_sorted m'.
Proof.
  revert m'. induction m as [|[k0 v0] m IH]; intros m' Hs; cbn; [by intros [= <-]|].
  destruct (lexZ k k0) eqn:E; [done|by intros [= <-]|].
  destruct (btree_insert k v m) as [old m1] eqn:Hi. intros [= -> <-].
  apply keys_sorted_cons; [|apply IH; [by eapply keys_sorted_tail|done]].
  rewrite (btree_insert_new _ _ _ _ Hi). constructor; [by apply lexZ_lt_gt|].
  by eapply keys_sorted_all_lt.
Qed.

Lemma keys_sorted_keys {V W} (m : list (bytes * V)) (m' : list (bytes * W)) :
  map fst m = map fst m' → keys_sorted m → keys_sorted m'.
Proof.
  revert m'. induction m as [|[k v] m IH]; intros [|[k' v'] m']; try done.
  intros [= <- Hk] Hs. specialize (IH m' Hk (keys_sorted_tail _ _ Hs)).
  destruct m as [|[k1 v1] m], m' as [|[k1' v1'] m']; try done. injection Hk as <- Hk. split; [apply Hs|done].
Qed.

Lemma keys_sorted_NoDup {V} (m : list (bytes * V)) : keys_sorted m → NoDup (map fst m).
Proof.
  induction m as [|[k v] m IH]; intros Hs; cbn; constructor.
  - intros ([k' v'] & -> & Hin)%list_elem_of_fmap. apply keys_sorted_all_lt in Hs.
    rewrite Forall_forall in Hs. specialize (Hs _ Hin). cbn in Hs. by rewrite lexZ_refl in Hs.
  - apply IH. by eapply keys_sorted_tail.
Qed.

Lemma keys_sorted_filter {V} (P : bytes * V → Prop) `{!∀ x, Decision (P x)} (m : list (bytes * V)) :
  keys_sorted m → keys_sorted (filter P m).
Proof.
  induction m as [|[k v] m IH]; intros Hs; [done|]. rewrite filter_cons. specialize (IH (keys_sorted_tail _ _ Hs)).
  case_decide; [|done]. apply keys_sorted_cons; [|done]. apply keys_sorted_all_lt in Hs.
  rewrite Forall_forall in *. intros x [_ Hx]%list_elem_of_filter. auto.
Qed.

Lemma keys_sorted_unique {V} (m m' : list (bytes * V)) :
  keys_sorted m → keys_sorted m' → (∀ x, x ∈ m ↔ x ∈ m') → m = m'.
Proof.
  revert m'. induction m as [|[k v] m IH]; intros [|[k' v'] m'] Hs Hs' Hin; [done|..].
  - exfalso. eapply not_elem_of_nil, (Hin (k', v')). by left.
  - exfalso. eapply not_elem_of_nil, (Hin (k, v)). by left.
  - pose proof (keys_sorted_all_lt _ _ _ Hs) as Hlt. pose proof (keys_sorted_all_lt _ _ _ Hs') as Hlt'.
    rewrite Forall_forall in Hlt, Hlt'.
    assert ((k, v) = (k', v')) as [= <- <-].
    { assert ((k, v) ∈ (k', v') :: m') as [E|Hx]%elem_of_cons by (apply Hin; by left); [done|].
      assert ((k', v') ∈ (k, v) :: m) as [E|Hx']%elem_of_cons by (apply Hin; by left); [done|].
      pose proof (lexZ_trans _ _ _ (Hlt _ Hx') (Hlt' _ Hx)) as E. cbn in E. by rewrite lexZ_refl in E. }
    f_equal. apply IH; [by eapply keys_sorted_tail..|]. intros x. split; intros Hx.
    + assert (x ∈ (k, v) :: m') as [->|]%elem_of_cons by (apply Hin; by right); [|done].
      specialize (Hlt _ Hx). cbn in Hlt. by rewrite lexZ_refl in Hlt.
    + assert (x ∈ (k, v) :: m) as [->|]%elem_of_cons by (apply Hin; by right); [|done].
      specialize (Hlt' _ Hx). cbn in Hlt'. by rewrite lexZ_refl in Hlt'.
Qed.
