(* ===== verification/Document.v ===== *)
(** * Canonical documents: [crates/types/src/document.rs]

    The flat byte format of list and map properties.  The Rust encoder, decoder
    and validator are iterative, each with an explicit frame stack; the model
    keeps the stacks, the cursor with its absolute position, the error values
    and the fallible allocations.  A stack is a list whose head is the top.

    [Allocator] stands for the host allocator: [grant b n] says whether a buffer
    of class [b] may grow to [n] elements ([Vec::try_reserve]).  No [Vec] ever
    exceeds [isize::MAX] elements, which is the only law of the class. *)

From stdpp Require Import prelude gmap strings sorting.
From Stdlib Require Import ZArith Lia.
From S2P Require Import Prelude Machine Types.

Local Open Scope Z_scope.

(** ** Constants *)

Definition FORMAT_VERSION : Z := 3.
Definition ENCODED_LENGTH_BYTES : Z := 8.
Definition NULL : Z := 0.
Definition FALSE : Z := 1.
Definition TRUE : Z := 2.
Definition INTEGER : Z := 3.
Definition FLOAT : Z := 4.
Definition STRING : Z := 5.
Definition BYTES : Z := 6.
Definition DATE : Z := 7.
Definition LOCAL_TIME : Z := 8.
Definition ZONED_TIME : Z := 9.
Definition LOCAL_DATETIME : Z := 10.
Definition ZONED_DATETIME : Z := 11.
Definition DURATION : Z := 12.
Definition LIST : Z := 13.
Definition MAP : Z := 14.

Inductive DocumentRoot := RootList | RootMap.

Definition tag (root : DocumentRoot) : Z :=
  match root with RootList => LIST | RootMap => MAP end.

#[local] Unset Elimination Schemes.
Inductive DocumentItem :=
| ItemScalar (v : ScalarValue)
| ItemList (values : list DocumentItem)
| ItemMap (values : list (bytes * DocumentItem)).
#[local] Set Elimination Schemes.

(** Induction through the nested lists. *)
Section DocumentItem_induction.
Context (P : DocumentItem → Prop).
Hypothesis Hscalar : ∀ v, P (ItemScalar v).
Hypothesis Hlist : ∀ vs, Forall P vs → P (ItemList vs).
Hypothesis Hmap : ∀ vs, Forall (λ p, P p.2) vs → P (ItemMap vs).

Fixpoint DocumentItem_nested_ind (v : DocumentItem) : P v :=
  match v with
  | ItemScalar v => Hscalar v
  | ItemList vs =>
      Hlist vs ((fix go vs : Forall P vs :=
        match vs with
        | [] => Forall_nil_2 _
        | v :: vs => Forall_cons_2 _ _ _ (DocumentItem_nested_ind v) (go vs)
        end) vs)
  | ItemMap vs =>
      Hmap vs ((fix go (vs : list (bytes * DocumentItem)) : Forall (λ p, P p.2) vs :=
        match vs with
        | [] => Forall_nil_2 _
        | (k, v) :: vs => Forall_cons_2 (λ p, P p.2) (k, v) vs (DocumentItem_nested_ind v) (go vs)
        end) vs)
  end.
End DocumentItem_induction.

(** [matches!((&value, root), (List, List) | (Map, Map))]. *)
Definition root_matches (value : DocumentItem) (root : DocumentRoot) : bool :=
  match value, root with
  | ItemList _, RootList | ItemMap _, RootMap => true
  | _, _ => false
  end.

(** ** Allocation *)

Inductive buffer :=
| OutputBytes | EncodeFrames | DecodeFrames | ValidationFrames | DecodedValues | KeyBytes
| RecordBytes.

Class Allocator := {
  grant : buffer → Z → bool;
  grant_bound b n : grant b n = true → n ≤ isize_max;
}.

(** An allocator that refuses only what [Vec] itself refuses. *)
#[refine] Instance roomy : Allocator := {| grant _ n := n <=? isize_max |}.
Proof. intros _ n. apply Z.leb_le. Defined.

Definition document_address_space_exhausted : Error :=
  Error_new ResultBudgetExceeded "document length exceeds the canonical u64 address space".
Definition document_allocation_failed : Error :=
  Error_new ResultBudgetExceeded
    "document bytes or traversal state cannot be allocated in the host address space".

(** ** Canonical floats *)

(** The bits [encode_scalar] writes for a float. *)
Definition canonical_float_bits (bits : Z) : Z :=
  if f64_is_nan bits then f64_nan_bits
  else if f64_is_zero bits then 0
  else bits.

Definition validate_float_bits (bits : Z) : Result unit :=
  if (f64_is_nan bits && negb (bits =? f64_nan_bits))
     || (f64_is_zero bits && negb (bits =? 0))
  then Err (corrupt "document float encoding is not canonical")
  else Ok tt.

(** ** Encoding *)

Inductive EncodeFrame :=
| EncodeItem (v : DocumentItem)
| EncodeList (values : list DocumentItem)
| EncodeMap (values : list (bytes * DocumentItem)).

Section encode.
Context `{Allocator}.

Definition push_byte (output : bytes) (value : Z) : Result bytes :=
  if grant OutputBytes (zlen output + 1) then Ok (output ++ [value])
  else Err document_allocation_failed.

Definition extend_output (output bs : bytes) : Result bytes :=
  if grant OutputBytes (zlen output + zlen bs) then Ok (output ++ bs)
  else Err document_allocation_failed.

Definition push_len (output : bytes) (length : Z) : Result bytes :=
  length ← ok_or (u64_try_from length) document_address_space_exhausted;
  extend_output output (le_bytes 8 length).

Definition push_bytes (output bs : bytes) : Result bytes :=
  output ← push_len output (zlen bs);
  extend_output output bs.

Definition reserve_frames {T} (b : buffer) (frames : list T) (additional : Z) : Result unit :=
  if grant b (zlen frames + additional) then Ok tt else Err document_allocation_failed.

Definition push_frame (frames : list EncodeFrame) (frame : EncodeFrame)
    : Result (list EncodeFrame) :=
  _ ← reserve_frames EncodeFrames frames 1;
  Ok (frame :: frames).

Definition encode_scalar (output : bytes) (value : ScalarValue) : Result bytes :=
  match value with
  | ScalarNull => push_byte output NULL
  | ScalarBoolean false => push_byte output FALSE
  | ScalarBoolean true => push_byte output TRUE
  | ScalarInteger x =>
      output ← push_byte output INTEGER;
      extend_output output (le_bytes 8 x)
  | ScalarFloat bits =>
      output ← push_byte output FLOAT;
      extend_output output (le_bytes 8 (canonical_float_bits bits))
  | ScalarString s =>
      output ← push_byte output STRING;
      push_bytes output s
  | ScalarBytes s =>
      output ← push_byte output BYTES;
      push_bytes output s
  | ScalarDate x =>
      output ← push_byte output DATE;
      extend_output output (le_bytes 8 x)
  | ScalarLocalTime x =>
      output ← push_byte output LOCAL_TIME;
      extend_output output (le_bytes 8 x)
  | ScalarZonedTime nanos offset_seconds =>
      output ← push_byte output ZONED_TIME;
      output ← extend_output output (le_bytes 8 nanos);
      extend_output output (le_bytes 4 offset_seconds)
  | ScalarLocalDateTime seconds nanos =>
      output ← push_byte output LOCAL_DATETIME;
      output ← extend_output output (le_bytes 8 seconds);
      extend_output output (le_bytes 4 nanos)
  | ScalarZonedDateTime seconds nanos timezone =>
      output ← push_byte output ZONED_DATETIME;
      output ← extend_output output (le_bytes 8 seconds);
      output ← extend_output output (le_bytes 4 nanos);
      push_bytes output timezone
  | ScalarDuration months days seconds nanos =>
      output ← push_byte output DURATION;
      output ← extend_output output (le_bytes 8 months);
      output ← extend_output output (le_bytes 8 days);
      output ← extend_output output (le_bytes 8 seconds);
      extend_output output (le_bytes 4 nanos)
  | ScalarList _ | ScalarMap _ =>
      Err (Error_new QueryType
        "nested document must use a list or map item, not a scalar wrapper")
  end.

(** One iteration of the loop: the popped [frame], then the stack below it. *)
Definition encode_frame (output : bytes) (frame : EncodeFrame) (stack : list EncodeFrame)
    : Result (bytes * list EncodeFrame) :=
  match frame with
  | EncodeItem (ItemScalar value) =>
      output ← encode_scalar output value;
      Ok (output, stack)
  | EncodeItem (ItemList values) =>
      output ← push_byte output LIST;
      output ← push_len output (zlen values);
      match values with
      | [] => Ok (output, stack)
      | _ => stack ← push_frame stack (EncodeList values); Ok (output, stack)
      end
  | EncodeItem (ItemMap values) =>
      output ← push_byte output MAP;
      output ← push_len output (zlen values);
      match values with
      | [] => Ok (output, stack)
      | _ => stack ← push_frame stack (EncodeMap values); Ok (output, stack)
      end
  | EncodeList [] => Ok (output, stack)
  | EncodeList (value :: values) =>
      _ ← reserve_frames EncodeFrames stack 2;
      Ok (output, EncodeItem value :: EncodeList values :: stack)
  | EncodeMap [] => Ok (output, stack)
  | EncodeMap ((key, value) :: values) =>
      output ← push_bytes output key;
      _ ← reserve_frames EncodeFrames stack 2;
      Ok (output, EncodeItem value :: EncodeMap values :: stack)
  end.

Fixpoint encode_loop (fuel : nat) (output : bytes) (stack : list EncodeFrame) : Result bytes :=
  match stack with
  | [] => Ok output
  | frame :: stack =>
      match fuel with
      | O => Abort OutOfFuel
      | S fuel =>
          '(output, stack) ← encode_frame output frame stack;
          encode_loop fuel output stack
      end
  end.

(** The number of frames the loop pops for a value. *)
Fixpoint encode_fuel (v : DocumentItem) : nat :=
  match v with
  | ItemScalar _ => 1
  | ItemList [] | ItemMap [] => 1
  | ItemList vs => 2 + sum_list_with (λ v, S (encode_fuel v)) vs
  | ItemMap vs => 2 + sum_list_with (λ '(_, v), S (encode_fuel v)) vs
  end.

Definition encode_item (output : bytes) (value : DocumentItem) : Result bytes :=
  stack ← push_frame [] (EncodeItem value);
  encode_loop (encode_fuel value) output stack.

Definition encode (value : DocumentItem) (root : DocumentRoot) : Result bytes :=
  if negb (root_matches value root) then
    Err (Error_new QueryType "document root does not match its property type")
  else
    output ← push_byte [] FORMAT_VERSION;
    output ← encode_item output value;
    if decide (get output 1 = Some (tag root)) then Ok output
    else Err (Error_new QueryType "document root does not match its property type").
End encode.

(** ** The cursor *)

Record Cursor := mkCursor { cursor_bytes : bytes; position : Z }.

Definition remaining (c : Cursor) : Z := saturating_sub (zlen (cursor_bytes c)) (position c).

Definition take (c : Cursor) (length : Z) : Result (bytes * Cursor) :=
  end_ ← ok_or (checked_add usize_max (position c) length) (corrupt "document offset overflow");
  value ← ok_or (get_range (cursor_bytes c) (position c) end_) (corrupt "document is truncated");
  Ok (value, mkCursor (cursor_bytes c) end_).

Definition byte (c : Cursor) : Result (Z * Cursor) :=
  '(value, c) ← take c 1;
  match value with b :: _ => Ok (b, c) | [] => Abort Panicked end.

(** [slice.try_into::<[u8; n]>()]. *)
Definition as_array (n : nat) (bs : bytes) : Result bytes :=
  if decide (length bs = n) then Ok bs else Err (corrupt "document integer is truncated").

Definition cursor_u32 (c : Cursor) : Result (Z * Cursor) :=
  '(value, c) ← take c 4; a ← as_array 4 value; Ok (from_le a, c).
Definition cursor_i32 (c : Cursor) : Result (Z * Cursor) :=
  '(value, c) ← take c 4; a ← as_array 4 value; Ok (from_le_signed a, c).
Definition cursor_u64 (c : Cursor) : Result (Z * Cursor) :=
  '(value, c) ← take c 8; a ← as_array 8 value; Ok (from_le a, c).
Definition cursor_i64 (c : Cursor) : Result (Z * Cursor) :=
  '(value, c) ← take c 8; a ← as_array 8 value; Ok (from_le_signed a, c).

Definition encoded_length (c : Cursor) : Result (Z * Cursor) := cursor_u64 c.

Definition byte_length (c : Cursor) : Result (Z * Cursor) :=
  '(length, c) ← encoded_length c;
  if remaining c <? length then Err (corrupt "document byte sequence is truncated")
  else
    length ← ok_or (usize_try_from length) (corrupt "document length exceeds host address space");
    Ok (length, c).

Definition collection_length (c : Cursor) (minimum_entry_bytes : Z) : Result (Z * Cursor) :=
  '(length, c) ← encoded_length c;
  let maximum_from_input := remaining c / minimum_entry_bytes in
  if maximum_from_input <? length then
    Err (corrupt "document collection length exceeds the remaining canonical bytes")
  else
    length ← ok_or (usize_try_from length)
      (corrupt "document collection length exceeds host address space");
    Ok (length, c).

Definition cursor_bytes_value (c : Cursor) : Result (bytes * Cursor) :=
  '(length, c) ← byte_length c;
  take c length.

Definition cursor_string (c : Cursor) : Result (bytes * Cursor) :=
  '(value, c) ← cursor_bytes_value c;
  if utf8_valid value then Ok (value, c)
  else Err (corrupt "document string is not valid UTF-8").

Definition string_range (c : Cursor) : Result ((Z * Z) * Cursor) :=
  '(length, c) ← byte_length c;
  let start := position c in
  '(value, c) ← take c length;
  if utf8_valid value then Ok ((start, position c), c)
  else Err (corrupt "document string is not valid UTF-8").

Definition map_key_range (c : Cursor) (previous : option (Z * Z)) : Result ((Z * Z) * Cursor) :=
  '(current, c) ← string_range c;
  not_increasing ←
    match previous with
    | None => Ok false
    | Some previous =>
        p ← index_range (cursor_bytes c) previous.1 previous.2;
        q ← index_range (cursor_bytes c) current.1 current.2;
        Ok (match lexZ p q with Lt => false | _ => true end)
    end;
  if not_increasing : bool then Err (corrupt "document map keys are not canonical")
  else Ok (current, c).

Definition map_key (c : Cursor) (previous : option (Z * Z))
    : Result ((Z * Z) * bytes * Cursor) :=
  '(current, c) ← map_key_range c previous;
  key ← index_range (cursor_bytes c) current.1 current.2;
  if utf8_valid key then Ok (current, key, c)
  else Err (corrupt "document string is not valid UTF-8").

(** ** Decoding *)

Inductive DecodeFrame :=
| DecodeList (remaining : Z) (values : list DocumentItem)
| DecodeMap (remaining : Z) (values : list (bytes * DocumentItem))
    (previous_key : Z * Z) (pending_key : option bytes).

Section decode.
Context `{Allocator}.

Definition push_decode_frame (frames : list DecodeFrame) (frame : DecodeFrame)
    : Result (list DecodeFrame) :=
  _ ← reserve_frames DecodeFrames frames 1;
  Ok (frame :: frames).

(** The tag dispatch of [Cursor::item]: the value it completes, if any, with
    the frame stack and the cursor after it. *)
Definition decode_tag (c : Cursor) (frames : list DecodeFrame)
    : Result (option DocumentItem * list DecodeFrame * Cursor) :=
  '(tag, c) ← byte c;
  let scalar v c := Ok (Some (ItemScalar v), frames, c) in
  if tag =? NULL then scalar ScalarNull c
  else if tag =? FALSE then scalar (ScalarBoolean false) c
  else if tag =? TRUE then scalar (ScalarBoolean true) c
  else if tag =? INTEGER then '(x, c) ← cursor_i64 c; scalar (ScalarInteger x) c
  else if tag =? FLOAT then
    '(bits, c) ← cursor_u64 c;
    _ ← validate_float_bits bits;
    scalar (ScalarFloat bits) c
  else if tag =? STRING then '(s, c) ← cursor_string c; scalar (ScalarString s) c
  else if tag =? BYTES then '(s, c) ← cursor_bytes_value c; scalar (ScalarBytes s) c
  else if tag =? DATE then '(x, c) ← cursor_i64 c; scalar (ScalarDate x) c
  else if tag =? LOCAL_TIME then '(x, c) ← cursor_i64 c; scalar (ScalarLocalTime x) c
  else if tag =? ZONED_TIME then
    '(nanos, c) ← cursor_i64 c;
    '(offset_seconds, c) ← cursor_i32 c;
    scalar (ScalarZonedTime nanos offset_seconds) c
  else if tag =? LOCAL_DATETIME then
    '(seconds, c) ← cursor_i64 c;
    '(nanos, c) ← cursor_u32 c;
    scalar (ScalarLocalDateTime seconds nanos) c
  else if tag =? ZONED_DATETIME then
    '(seconds, c) ← cursor_i64 c;
    '(nanos, c) ← cursor_u32 c;
    '(timezone, c) ← cursor_string c;
    scalar (ScalarZonedDateTime seconds nanos timezone) c
  else if tag =? DURATION then
    '(months, c) ← cursor_i64 c;
    '(days, c) ← cursor_i64 c;
    '(seconds, c) ← cursor_i64 c;
    '(nanos, c) ← cursor_i32 c;
    scalar (ScalarDuration months days seconds nanos) c
  else if tag =? LIST then
    '(length, c) ← collection_length c 1;
    if length =? 0 then Ok (Some (ItemList []), frames, c)
    else if negb (grant DecodedValues length) then Err document_allocation_failed
    else
      frames ← push_decode_frame frames (DecodeList length []);
      Ok (None, frames, c)
  else if tag =? MAP then
    '(length, c) ← collection_length c (ENCODED_LENGTH_BYTES + 1);
    if length =? 0 then Ok (Some (ItemMap []), frames, c)
    else
      '(previous_key, pending_key, c) ← map_key c None;
      frames ← push_decode_frame frames (DecodeMap length [] previous_key (Some pending_key));
      Ok (None, frames, c)
  else Err (corrupt "document value tag is invalid").

(** The inner loop of [Cursor::item]: hands a completed value to the frame on
    top, popping the frames it completes.  [inl]: the root is complete. *)
Fixpoint complete_item (item : DocumentItem) (frames : list DecodeFrame) (c : Cursor)
    : Result ((DocumentItem + list DecodeFrame) * Cursor) :=
  match frames with
  | [] => Ok (inl item, c)
  | DecodeList remaining values :: rest =>
      let values := values ++ [item] in
      remaining ← ok_or (checked_sub remaining 1) (corrupt "document list accounting underflow");
      if remaining =? 0 then complete_item (ItemList values) rest c
      else Ok (inr (DecodeList remaining values :: rest), c)
  | DecodeMap remaining values previous_key pending_key :: rest =>
      key ← ok_or pending_key (corrupt "document map key is missing");
      let '(old, values) := btree_insert key item values in
      match old with
      | Some _ => Err (corrupt "document map keys are not canonical")
      | None =>
          remaining ← ok_or (checked_sub remaining 1)
            (corrupt "document map accounting underflow");
          if remaining =? 0 then complete_item (ItemMap values) rest c
          else
            '(next_range, next_key, c) ← map_key c (Some previous_key);
            Ok (inr (DecodeMap remaining values next_range (Some next_key) :: rest), c)
      end
  end.

Fixpoint item_loop (fuel : nat) (frames : list DecodeFrame) (c : Cursor)
    : Result (DocumentItem * Cursor) :=
  match fuel with
  | O => Abort OutOfFuel
  | S fuel =>
      '(completed, frames, c) ← decode_tag c frames;
      match completed with
      | None => item_loop fuel frames c
      | Some item =>
          '(next, c) ← complete_item item frames c;
          match next with
          | inl item => Ok (item, c)
          | inr frames => item_loop fuel frames c
          end
      end
  end.

(** Every iteration reads at least the tag byte. *)
Definition cursor_item (c : Cursor) : Result (DocumentItem * Cursor) :=
  item_loop (S (length (cursor_bytes c))) [] c.

Definition validate_size (bs : bytes) : Result unit :=
  if zlen bs <? 2 then Err (corrupt "document is truncated before its root tag") else Ok tt.

Definition decode (bs : bytes) (expected : DocumentRoot) : Result DocumentItem :=
  _ ← validate_size bs;
  '(version, c) ← byte (mkCursor bs 0);
  if negb (version =? FORMAT_VERSION) then Err (corrupt "document format version is unsupported")
  else if decide (get (cursor_bytes c) (position c) = Some (tag expected)) then
    '(value, c) ← cursor_item c;
    if negb (position c =? zlen bs) then Err (corrupt "document contains trailing bytes")
    else if negb (root_matches value expected) then Err (corrupt "document root kind is invalid")
    else Ok value
  else Err (corrupt "document root kind is invalid").

(** [DocumentList::new], [DocumentList::items], [DocumentMap::new] and
    [DocumentMap::entries]. *)
Definition DocumentList_new (values : list DocumentItem) : Result bytes :=
  encode (ItemList values) RootList.
Definition DocumentList_items (document : bytes) : Result (list DocumentItem) :=
  value ← decode document RootList;
  match value with
  | ItemList values => Ok values
  | _ => Err (corrupt "list document has a non-list root")
  end.
Definition DocumentMap_new (values : list (bytes * DocumentItem)) : Result bytes :=
  encode (ItemMap values) RootMap.
Definition DocumentMap_entries (document : bytes) : Result (list (bytes * DocumentItem)) :=
  value ← decode document RootMap;
  match value with
  | ItemMap values => Ok values
  | _ => Err (corrupt "map document has a non-map root")
  end.
End decode.

(** ** Validation *)

Inductive ValidationFrame :=
| ValidationList (remaining : Z)
| ValidationMap (remaining : Z) (previous_key : Z * Z).

Section validate.
Context `{Allocator}.

Definition push_validation_frame (frames : list ValidationFrame) (frame : ValidationFrame)
    : Result (list ValidationFrame) :=
  _ ← reserve_frames ValidationFrames frames 1;
  Ok (frame :: frames).

(** The tag dispatch of [Cursor::skip_item]; the flag is [item_complete]. *)
Definition skip_tag (c : Cursor) (frames : list ValidationFrame)
    : Result (bool * list ValidationFrame * Cursor) :=
  '(tag, c) ← byte c;
  if (tag =? NULL) || (tag =? FALSE) || (tag =? TRUE) then Ok (true, frames, c)
  else if (tag =? INTEGER) || (tag =? DATE) || (tag =? LOCAL_TIME) then
    '(_, c) ← take c 8; Ok (true, frames, c)
  else if tag =? FLOAT then
    '(bits, c) ← cursor_u64 c;
    _ ← validate_float_bits bits;
    Ok (true, frames, c)
  else if tag =? STRING then '(_, c) ← cursor_string c; Ok (true, frames, c)
  else if tag =? BYTES then '(_, c) ← cursor_bytes_value c; Ok (true, frames, c)
  else if (tag =? ZONED_TIME) || (tag =? LOCAL_DATETIME) then
    '(_, c) ← take c 12; Ok (true, frames, c)
  else if tag =? ZONED_DATETIME then
    '(_, c) ← take c 12;
    '(_, c) ← cursor_string c;
    Ok (true, frames, c)
  else if tag =? DURATION then '(_, c) ← take c 28; Ok (true, frames, c)
  else if tag =? LIST then
    '(length, c) ← collection_length c 1;
    if length =? 0 then Ok (true, frames, c)
    else
      frames ← push_validation_frame frames (ValidationList length);
      Ok (false, frames, c)
  else if tag =? MAP then
    '(length, c) ← collection_length c (ENCODED_LENGTH_BYTES + 1);
    if length =? 0 then Ok (true, frames, c)
    else
      '(previous_key, c) ← map_key_range c None;
      frames ← push_validation_frame frames (ValidationMap length previous_key);
      Ok (false, frames, c)
  else Err (corrupt "document value tag is invalid").

(** [while item_complete]; [None]: the root is complete. *)
Fixpoint complete_skip (frames : list ValidationFrame) (c : Cursor)
    : Result (option (list ValidationFrame) * Cursor) :=
  match frames with
  | [] => Ok (None, c)
  | ValidationList remaining :: rest =>
      remaining ← ok_or (checked_sub remaining 1) (corrupt "document list accounting underflow");
      if remaining =? 0 then complete_skip rest c
      else Ok (Some (ValidationList remaining :: rest), c)
  | ValidationMap remaining previous_key :: rest =>
      remaining ← ok_or (checked_sub remaining 1) (corrupt "document map accounting underflow");
      if remaining =? 0 then complete_skip rest c
      else
        '(previous_key, c) ← map_key_range c (Some previous_key);
        Ok (Some (ValidationMap remaining previous_key :: rest), c)
  end.

Fixpoint skip_loop (fuel : nat) (frames : list ValidationFrame) (c : Cursor) : Result Cursor :=
  match fuel with
  | O => Abort OutOfFuel
  | S fuel =>
      '(item_complete, frames, c) ← skip_tag c frames;
      if item_complete : bool then
        '(next, c) ← complete_skip frames c;
        match next with
        | None => Ok c
        | Some frames => skip_loop fuel frames c
        end
      else skip_loop fuel frames c
  end.

Definition skip_item (c : Cursor) : Result Cursor :=
  skip_loop (S (length (cursor_bytes c))) [] c.

Definition validate_canonical (bs : bytes) (expected : DocumentRoot) : Result unit :=
  _ ← validate_size bs;
  '(version, c) ← byte (mkCursor bs 0);
  if negb (version =? FORMAT_VERSION) then Err (corrupt "document format version is unsupported")
  else if decide (get (cursor_bytes c) (position c) = Some (tag expected)) then
    c ← skip_item c;
    if negb (position c =? zlen bs) then Err (corrupt "document contains trailing bytes")
    else Ok tt
  else Err (corrupt "document root kind is invalid").
End validate.

(** The document of [canonical_map_round_trip_is_key_ordered] in the tests. *)
Example nested_map_bytes :
  let nested := [([97], ItemList [ItemScalar (ScalarBoolean true); ItemScalar ScalarNull]);
                 ([122], ItemScalar (ScalarInteger 7))] in
  ∃ bs, DocumentMap_new nested = Ok bs ∧ DocumentMap_entries bs = Ok nested
        ∧ validate_canonical bs RootMap = Ok tt.
Proof. eexists; split; [vm_compute; reflexivity|split; vm_compute; reflexivity]. Qed.
