(* ===== verification/DocumentCodec.v ===== *)
(** * Correctness of the canonical document codec

    [enc] is the reference definition of the format: a recursive function from
    trees to bytes.  The iterative encoder of [Document.v] computes it, the
    iterative decoder inverts it and accepts nothing else, and the validator
    accepts exactly what the decoder accepts. *)

From stdpp Require Import prelude gmap strings sorting.
From Stdlib Require Import ZArith Lia.
From S2P Require Import Prelude Machine Types Document.

Local Open Scope Z_scope.

(** ** The format *)

Definition str_bytes (s : bytes) : bytes := le_bytes 8 (zlen s) ++ s.

Definition scalar_bytes (v : ScalarValue) : bytes :=
  match v with
  | ScalarNull => [NULL]
  | ScalarBoolean false => [FALSE]
  | ScalarBoolean true => [TRUE]
  | ScalarInteger x => INTEGER :: le_bytes 8 x
  | ScalarFloat bits => FLOAT :: le_bytes 8 (canonical_float_bits bits)
  | ScalarString s => STRING :: str_bytes s
  | ScalarBytes s => BYTES :: str_bytes s
  | ScalarDate x => DATE :: le_bytes 8 x
  | ScalarLocalTime x => LOCAL_TIME :: le_bytes 8 x
  | ScalarZonedTime nanos offset => ZONED_TIME :: le_bytes 8 nanos ++ le_bytes 4 offset
  | ScalarLocalDateTime seconds nanos =>
      LOCAL_DATETIME :: le_bytes 8 seconds ++ le_bytes 4 nanos
  | ScalarZonedDateTime seconds nanos tz =>
      ZONED_DATETIME :: le_bytes 8 seconds ++ le_bytes 4 nanos ++ str_bytes tz
  | ScalarDuration months days seconds nanos =>
      DURATION :: le_bytes 8 months ++ le_bytes 8 days ++ le_bytes 8 seconds ++ le_bytes 4 nanos
  | ScalarList _ | ScalarMap _ => []
  end.

Fixpoint enc (v : DocumentItem) : bytes :=
  match v with
  | ItemScalar v => scalar_bytes v
  | ItemList vs => LIST :: le_bytes 8 (zlen vs) ++ concat (map enc vs)
  | ItemMap vs =>
      MAP :: le_bytes 8 (zlen vs) ++ concat (map (λ '(k, v), str_bytes k ++ enc v) vs)
  end.

Definition enc_list (vs : list DocumentItem) : bytes := concat (map enc vs).
Definition enc_entries (vs : list (bytes * DocumentItem)) : bytes :=
  concat (map (λ '(k, v), str_bytes k ++ enc v) vs).

(** No scalar of the tree is itself a wrapped document. *)
Fixpoint document_free (v : DocumentItem) : bool :=
  match v with
  | ItemScalar v => negb (is_document v)
  | ItemList vs => forallb document_free vs
  | ItemMap vs => forallb (λ '(_, v), document_free v) vs
  end.

#[local] Set Warnings "-register-all".

(** What the Rust types guarantee of a tree: field ranges, UTF-8 keys, and the
    strictly increasing key order of a [BTreeMap]. *)
Inductive item_wf : DocumentItem → Prop :=
| item_wf_scalar v : scalar_wf v → item_wf (ItemScalar v)
| item_wf_list vs : Forall item_wf vs → item_wf (ItemList vs)
| item_wf_map vs :
    keys_sorted vs → Forall (λ p, str_wf p.1 ∧ item_wf p.2) vs → item_wf (ItemMap vs).

(** The float normalisation that encoding performs. *)
Definition canonical_scalar (v : ScalarValue) : ScalarValue :=
  match v with ScalarFloat bits => ScalarFloat (canonical_float_bits bits) | v => v end.

Fixpoint canonical (v : DocumentItem) : DocumentItem :=
  match v with
  | ItemScalar v => ItemScalar (canonical_scalar v)
  | ItemList vs => ItemList (map canonical vs)
  | ItemMap vs => ItemMap (map (λ '(k, v), (k, canonical v)) vs)
  end.

Lemma enc_ItemList vs : enc (ItemList vs) = LIST :: le_bytes 8 (zlen vs) ++ enc_list vs.
Proof. done. Qed.
Lemma enc_ItemMap vs : enc (ItemMap vs) = MAP :: le_bytes 8 (zlen vs) ++ enc_entries vs.
Proof. done. Qed.

(** ** The encoder computes [enc] *)

Definition nested_document_error : Error :=
  Error_new QueryType "nested document must use a list or map item, not a scalar wrapper".

(** The errors encoding [v] can report. *)
Definition encode_error (v : DocumentItem) (e : Error) : Prop :=
  e = document_allocation_failed ∨ e = document_address_space_exhausted
  ∨ (e = nested_document_error ∧ document_free v = false).

Section encoder.
Context `{Allocator}.

Lemma push_byte_cases out b :
  push_byte out b = Ok (out ++ [b]) ∨ push_byte out b = Err document_allocation_failed.
Proof. unfold push_byte. destruct (grant _ _); auto. Qed.

Lemma extend_output_cases out bs :
  extend_output out bs = Ok (out ++ bs) ∨ extend_output out bs = Err document_allocation_failed.
Proof. unfold extend_output. destruct (grant _ _); auto. Qed.

Lemma push_len_cases out n :
  push_len out n = Ok (out ++ le_bytes 8 n)
  ∨ push_len out n = Err document_allocation_failed
  ∨ push_len out n = Err document_address_space_exhausted.
Proof.
  unfold push_len, u64_try_from. destruct (n <=? u64_max); simpl; [|auto].
  destruct (extend_output_cases out (le_bytes 8 n)); auto.
Qed.

Lemma push_bytes_cases out s :
  push_bytes out s = Ok (out ++ str_bytes s)
  ∨ push_bytes out s = Err document_allocation_failed
  ∨ push_bytes out s = Err document_address_space_exhausted.
Proof.
  unfold push_bytes. destruct (push_len_cases out (zlen s)) as [->|[->| ->]]; simpl; [|auto..].
  unfold str_bytes. rewrite app_assoc.
  destruct (extend_output_cases (out ++ le_bytes 8 (zlen s)) s); auto.
Qed.

(** Steps through a sequence of pushes, leaving the all-granted path. *)
Ltac push_steps :=
  repeat first
    [ match goal with |- context [push_byte ?o ?b] =>
        destruct (push_byte_cases o b) as [->| ->]; simpl end
    | match goal with |- context [push_len ?o ?b] =>
        destruct (push_len_cases o b) as [->|[->| ->]]; simpl end
    | match goal with |- context [push_bytes ?o ?b] =>
        destruct (push_bytes_cases o b) as [->|[->| ->]]; simpl end
    | match goal with |- context [extend_output ?o ?b] =>
        destruct (extend_output_cases o b) as [->| ->]; simpl end ].

Lemma encode_scalar_cases out v :
  (document_free (ItemScalar v) = true ∧ encode_scalar out v = Ok (out ++ scalar_bytes v))
  ∨ ∃ e, encode_scalar out v = Err e ∧ encode_error (ItemScalar v) e.
Proof.
  unfold encode_error. destruct v as [|[]| | | | | | | | | | | |]; simpl; push_steps;
    rewrite <- ?app_assoc; simpl; naive_solver.
Qed.

Definition frame_bytes (f : EncodeFrame) : bytes :=
  match f with
  | EncodeItem v => enc v
  | EncodeList vs => enc_list vs
  | EncodeMap vs => enc_entries vs
  end.

Definition frame_fuel (f : EncodeFrame) : nat :=
  match f with
  | EncodeItem v => encode_fuel v
  | EncodeList vs => S (sum_list_with (λ v, S (encode_fuel v)) vs)
  | EncodeMap vs => S (sum_list_with (λ '(_, v), S (encode_fuel v)) vs)
  end.

Definition frame_free (f : EncodeFrame) : bool :=
  match f with
  | EncodeItem v => document_free v
  | EncodeList vs => forallb document_free vs
  | EncodeMap vs => forallb (λ '(_, v), document_free v) vs
  end.

Definition frame_error (f : EncodeFrame) (e : Error) : Prop :=
  e = document_allocation_failed ∨ e = document_address_space_exhausted
  ∨ (e = nested_document_error ∧ frame_free f = false).

(** Popping [f] either appends its bytes and leaves the stack below it, or
    stops with one of the documented errors. *)
Definition frame_runs (f : EncodeFrame) : Prop := ∀ n out st,
  (frame_free f = true ∧
   encode_loop (frame_fuel f + n) out (f :: st) = encode_loop n (out ++ frame_bytes f) st)
  ∨ ∃ e, encode_loop (frame_fuel f + n) out (f :: st) = Err e ∧ frame_error f e.

Lemma reserve_frames_cases {T} b (fr : list T) k :
  reserve_frames b fr k = Ok tt ∨ reserve_frames b fr k = Err document_allocation_failed.
Proof. unfold reserve_frames. destruct (grant _ _); auto. Qed.

Lemma push_frame_cases fr f :
  push_frame fr f = Ok (f :: fr) ∨ push_frame fr f = Err document_allocation_failed.
Proof.
  unfold push_frame. destruct (reserve_frames_cases EncodeFrames fr 1) as [->| ->]; auto.
Qed.

Lemma encode_loop_S n out f st :
  encode_loop (S n) out (f :: st) =
    '(out, st) ← encode_frame out f st; encode_loop n out st.
Proof. done. Qed.

Lemma frame_fuel_list v vs :
  frame_fuel (EncodeList (v :: vs)) = S (frame_fuel (EncodeItem v) + frame_fuel (EncodeList vs)).
Proof. simpl. lia. Qed.

Lemma frame_fuel_map k v vs :
  frame_fuel (EncodeMap ((k, v) :: vs)) = S (frame_fuel (EncodeItem v) + frame_fuel (EncodeMap vs)).
Proof. simpl. lia. Qed.

(** Runs [f], then the frame [g] below it. *)
Lemma runs_then f g n out st :
  frame_runs f → frame_runs g →
  (frame_free f = true ∧ frame_free g = true ∧
   encode_loop (frame_fuel f + frame_fuel g + n) out (f :: g :: st) =
     encode_loop n (out ++ frame_bytes f ++ frame_bytes g) st)
  ∨ ∃ e, encode_loop (frame_fuel f + frame_fuel g + n) out (f :: g :: st) = Err e
         ∧ (frame_error f e ∨ frame_error g e).
Proof.
  intros Hf Hg. rewrite <- Nat.add_assoc.
  destruct (Hf (frame_fuel g + n)%nat out (g :: st)) as [[Hff ->]|(e & -> & He)]; [|eauto].
  destruct (Hg n (out ++ frame_bytes f) st) as [[Hgf ->]|(e & -> & He)]; [|eauto].
  rewrite app_assoc. auto.
Qed.

Lemma list_frame_runs vs :
  Forall (λ v, frame_runs (EncodeItem v)) vs → frame_runs (EncodeList vs).
Proof.
  induction 1 as [|v vs Hv Hvs IH]; intros n out st.
  { left. simpl. by rewrite app_nil_r. }
  rewrite frame_fuel_list, Nat.add_succ_l, encode_loop_S.
  cbn [encode_frame]. destruct (reserve_frames_cases EncodeFrames st 2) as [->| ->];
    rbind; [|right; unfold frame_error; eauto].
  destruct (runs_then _ _ n out st Hv IH) as [(Hf & Hg & ->)|(e & -> & He)];
    [left|right].
  - simpl in *. by rewrite Hf, Hg.
  - eexists; split; [done|]. unfold frame_error in *; simpl in *.
    rewrite andb_false_iff. tauto.
Qed.

Lemma map_frame_runs vs :
  Forall (λ p, frame_runs (EncodeItem p.2)) vs → frame_runs (EncodeMap vs).
Proof.
  induction 1 as [|[k v] vs Hv Hvs IH]; intros n out st.
  { left. simpl. by rewrite app_nil_r. }
  cbn [snd] in Hv. rewrite frame_fuel_map, Nat.add_succ_l, encode_loop_S.
  cbn [encode_frame]. destruct (push_bytes_cases out k) as [->|[->| ->]];
    rbind; [|right; unfold frame_error; eauto..].
  destruct (reserve_frames_cases EncodeFrames st 2) as [->| ->];
    rbind; [|right; unfold frame_error; eauto].
  destruct (runs_then _ _ n (out ++ str_bytes k) st Hv IH) as [(Hf & Hg & ->)|(e & -> & He)];
    [left|right].
  - simpl in *. rewrite Hf, Hg. unfold enc_entries; simpl. by rewrite <- !app_assoc.
  - eexists; split; [done|]. unfold frame_error in *; simpl in *.
    rewrite andb_false_iff. tauto.
Qed.

(** The container cases of the loop, with the frame they push. *)
Definition container_step (t : Z) (k : Z) (f : EncodeFrame) (n : nat) (out : bytes)
    (st : list EncodeFrame) : Result bytes :=
  out ← push_byte out t;
  out ← push_len out k;
  st ← push_frame st f;
  encode_loop n out st.

Lemma encode_loop_list n out v vs st :
  encode_loop (S n) out (EncodeItem (ItemList (v :: vs)) :: st) =
    container_step LIST (zlen (v :: vs)) (EncodeList (v :: vs)) n out st.
Proof.
  rewrite encode_loop_S.
  change (encode_frame out (EncodeItem (ItemList (v :: vs))) st)
    with (o ← push_byte out LIST; o ← push_len o (zlen (v :: vs));
          st ← push_frame st (EncodeList (v :: vs)); Ok (o, st)).
  unfold container_step. destruct (push_byte out LIST) as [o| |]; rbind; [|done..].
  destruct (push_len o _) as [o'| |]; rbind; [|done..]. by destruct (push_frame st _).
Qed.

Lemma encode_loop_map n out v vs st :
  encode_loop (S n) out (EncodeItem (ItemMap (v :: vs)) :: st) =
    container_step MAP (zlen (v :: vs)) (EncodeMap (v :: vs)) n out st.
Proof.
  rewrite encode_loop_S.
  change (encode_frame out (EncodeItem (ItemMap (v :: vs))) st)
    with (o ← push_byte out MAP; o ← push_len o (zlen (v :: vs));
          st ← push_frame st (EncodeMap (v :: vs)); Ok (o, st)).
  unfold container_step. destruct (push_byte out MAP) as [o| |]; rbind; [|done..].
  destruct (push_len o _) as [o'| |]; rbind; [|done..]. by destruct (push_frame st _).
Qed.

Lemma container_step_cases f t k n out st :
  frame_runs f →
  (frame_free f = true ∧
   container_step t k f (frame_fuel f + n) out st =
     encode_loop n (out ++ t :: le_bytes 8 k ++ frame_bytes f) st)
  ∨ ∃ e, container_step t k f (frame_fuel f + n) out st = Err e ∧ frame_error f e.
Proof.
  intros Hf. unfold container_step.
  destruct (push_byte_cases out t) as [->| ->]; rbind;
    [|right; unfold frame_error; eauto].
  destruct (push_len_cases (out ++ [t]) k) as [->|[->| ->]]; rbind;
    [|right; unfold frame_error; eauto..].
  destruct (push_frame_cases st f) as [->| ->]; rbind;
    [|right; unfold frame_error; eauto].
  destruct (Hf n ((out ++ [t]) ++ le_bytes 8 k) st) as [[Hff ->]|(e & -> & He)]; [left|eauto].
  split; [done|]. by rewrite <- !app_assoc.
Qed.

Lemma encode_loop_empty v t n out st :
  (v = ItemList [] ∧ t = LIST) ∨ (v = ItemMap [] ∧ t = MAP) →
  (encode_loop (S n) out (EncodeItem v :: st) =
     encode_loop n (out ++ t :: le_bytes 8 0) st)
  ∨ ∃ e, encode_loop (S n) out (EncodeItem v :: st) = Err e ∧ frame_error (EncodeItem v) e.
Proof.
  intros Hv. rewrite encode_loop_S.
  assert (encode_frame out (EncodeItem v) st =
            out ← push_byte out t; out ← push_len out 0; Ok (out, st)) as ->.
  { by destruct Hv as [[-> ->]|[-> ->]]. }
  destruct (push_byte_cases out t) as [->| ->]; rbind;
    [|right; unfold frame_error; eauto].
  destruct (push_len_cases (out ++ [t]) 0) as [->|[->| ->]]; rbind;
    [|right; unfold frame_error; eauto..].
  left. by rewrite <- app_assoc.
Qed.

Lemma item_frame_runs v : frame_runs (EncodeItem v).
Proof.
  induction v as [v|vs IH|vs IH] using DocumentItem_nested_ind; intros n out st.
  - change (frame_fuel (EncodeItem (ItemScalar v)) + n)%nat with (S n).
    rewrite encode_loop_S. cbn [encode_frame].
    destruct (encode_scalar_cases out v) as [[Hf ->]|(e & -> & He)]; [left|right]; eauto.
  - apply list_frame_runs in IH. destruct vs as [|v vs].
    + destruct (encode_loop_empty (ItemList []) LIST n out st) as [Hr|Hr]; auto.
    + change (frame_fuel (EncodeItem (ItemList (v :: vs))))
        with (S (frame_fuel (EncodeList (v :: vs)))).
      rewrite Nat.add_succ_l, encode_loop_list.
      exact (container_step_cases _ LIST (zlen (v :: vs)) n out st IH).
  - apply map_frame_runs in IH. destruct vs as [|v vs].
    + destruct (encode_loop_empty (ItemMap []) MAP n out st) as [Hr|Hr]; auto.
    + change (frame_fuel (EncodeItem (ItemMap (v :: vs))))
        with (S (frame_fuel (EncodeMap (v :: vs)))).
      rewrite Nat.add_succ_l, encode_loop_map.
      exact (container_step_cases _ MAP (zlen (v :: vs)) n out st IH).
Qed.

Lemma encode_item_cases out v :
  (document_free v = true ∧ encode_item out v = Ok (out ++ enc v))
  ∨ ∃ e, encode_item out v = Err e ∧ encode_error v e.
Proof.
  unfold encode_item.
  destruct (push_frame_cases [] (EncodeItem v)) as [->| ->]; rbind;
    [|right; unfold encode_error; eauto].
  destruct (item_frame_runs v 0%nat out []) as [[Hf Hr]|(e & Hr & He)];
    rewrite Nat.add_0_r in Hr; cbn [frame_fuel] in Hr; rewrite Hr; simpl; eauto.
Qed.

Lemma get_1_enc v root :
  root_matches v root = true → get (FORMAT_VERSION :: enc v) 1 = Some (tag root).
Proof. by destruct v, root. Qed.

(** The encoder returns the version byte followed by [enc], or reports one of
    the documented errors; it terminates and does not panic. *)
Lemma encode_cases v root :
  (root_matches v root = true ∧ document_free v = true
   ∧ encode v root = Ok (FORMAT_VERSION :: enc v))
  ∨ (∃ e, encode v root = Err e ∧ (encode_error v e ∨ root_matches v root = false)).
Proof.
  unfold encode. destruct (root_matches v root) eqn:Hroot; cbn [negb]; [|eauto].
  destruct (push_byte_cases [] FORMAT_VERSION) as [->| ->]; rbind;
    [|right; unfold encode_error; eauto].
  destruct (encode_item_cases ([] ++ [FORMAT_VERSION]) v) as [[Hf ->]|(e & -> & He)];
    rbind; [|eauto].
  cbn [app]. rewrite (get_1_enc v root Hroot). rewrite decide_True by done. left. auto.
Qed.

Lemma encode_Ok_inv v root bs :
  encode v root = Ok bs →
  root_matches v root = true ∧ document_free v = true ∧ bs = FORMAT_VERSION :: enc v.
Proof. destruct (encode_cases v root) as [(? & ? & ->)|(e & -> & ?)]; naive_solver. Qed.
End encoder.
