(* ===== verification/DocumentDecode.v ===== *)
(** * Correctness of the document decoder and validator

    The cursor primitives read back what the encoder writes and nothing else;
    the decoder loop inverts [enc]; the validator is the decoder with its
    values erased. *)

From stdpp Require Import prelude gmap strings sorting.
From Stdlib Require Import ZArith Lia.
From S2P Require Import Prelude Machine Types Document DocumentCodec.

Local Open Scope Z_scope.

(** ** Reading with the cursor *)

(** The cursor after the bytes [p], before the bytes [r]. *)
Definition cur (p r : bytes) : Cursor := mkCursor (p ++ r) (zlen p).

Definition fits (bs : bytes) : Prop := zlen bs ≤ isize_max.

Lemma fits_eq bs bs' : fits bs → zlen bs' = zlen bs → fits bs'.
Proof. unfold fits. lia. Qed.

(** Length arithmetic over concatenations. *)
Ltac zlens :=
  repeat first [rewrite zlen_app | rewrite zlen_cons | rewrite zlen_nil | rewrite zlen_le_bytes].
Ltac same_length := unfold str_bytes; zlens; lia.
Ltac solve_fits := match goal with Hf : fits _ |- fits _ =>
  first [exact Hf | apply (fits_eq _ _ Hf); same_length] end.

Lemma cur_app p s r : mkCursor (p ++ s ++ r) (zlen (p ++ s)) = cur (p ++ s) r.
Proof. unfold cur. by rewrite <- app_assoc. Qed.

Lemma cursor_bytes_cur p s r : cursor_bytes (cur (p ++ s) r) = p ++ s ++ r.
Proof. simpl. by rewrite <- app_assoc. Qed.

Lemma remaining_cur p r : remaining (cur p r) = zlen r.
Proof.
  unfold remaining, cur, saturating_sub; simpl. rewrite zlen_app.
  pose proof (zlen_nonneg r). lia.
Qed.

Lemma take_fwd p s r :
  fits (p ++ s ++ r) → take (cur p (s ++ r)) (zlen s) = Ok (s, cur (p ++ s) r).
Proof.
  intros Hf. unfold fits in Hf. rewrite !zlen_app in Hf.
  pose proof (zlen_nonneg p); pose proof (zlen_nonneg s); pose proof (zlen_nonneg r).
  unfold take, cur, checked_add; simpl.
  rewrite (proj2 (Z.leb_le _ _)) by rlia. simpl. rewrite get_range_app. simpl.
  by rewrite <- zlen_app, cur_app.
Qed.

Lemma take_fwd' n p s r :
  zlen s = n → fits (p ++ s ++ r) → take (cur p (s ++ r)) n = Ok (s, cur (p ++ s) r).
Proof. intros <-. apply take_fwd. Qed.

Lemma take_post p r n :
  0 ≤ n →
  post (take (cur p r) n)
    (λ '(s, c), ∃ r', r = s ++ r' ∧ zlen s = n ∧ c = cur (p ++ s) r').
Proof.
  intros Hn. unfold take, cur; simpl.
  eapply post_bind; [apply post_ok_or; intros a Ha; exact Ha|]. intros e He.
  eapply post_bind; [apply post_ok_or; intros a Ha; exact Ha|]. intros s Hs. simpl.
  unfold checked_add in He. destruct (_ <=? _) in He; [|done]. injection He as <-.
  apply get_range_Some in Hs as (p' & r' & Heq & Hp & Hs); [|apply zlen_nonneg].
  assert (p = p' ∧ r = s ++ r') as [<- ->].
  { apply app_inj_1; [unfold zlen in Hp; lia|exact Heq]. }
  exists r'. split; [done|]. split; [lia|]. rewrite <- Hs, <- zlen_app. apply cur_app.
Qed.

Lemma byte_fwd p b r : fits (p ++ b :: r) → byte (cur p (b :: r)) = Ok (b, cur (p ++ [b]) r).
Proof.
  intros Hf. unfold byte. change (b :: r) with ([b] ++ r). by rewrite (take_fwd' 1).
Qed.

Lemma byte_post p r :
  post (byte (cur p r)) (λ '(b, c), ∃ r', r = b :: r' ∧ c = cur (p ++ [b]) r').
Proof.
  unfold byte. eapply post_bind; [by apply take_post|].
  intros [s c] (r' & -> & Hs & ->). destruct s as [|b [|b' s]]; simpl; eauto.
  - by rewrite zlen_nil in Hs.
  - rewrite !zlen_cons in Hs. pose proof (zlen_nonneg s). lia.
Qed.

Lemma as_array_len n bs : length bs = n → as_array n bs = Ok bs.
Proof. intros <-. unfold as_array. by rewrite decide_True. Qed.

(** Fixed-width integers: each reader inverts [le_bytes] on its range. *)
Lemma u64_fwd p x r :
  u64 x → fits (p ++ le_bytes 8 x ++ r) →
  cursor_u64 (cur p (le_bytes 8 x ++ r)) = Ok (x, cur (p ++ le_bytes 8 x) r).
Proof.
  intros Hx Hf. unfold cursor_u64. rewrite (take_fwd' 8) by (rewrite ?zlen_le_bytes; done).
  rbind. rewrite as_array_len by apply length_le_bytes. rbind. by rewrite from_le_8.
Qed.

Lemma u32_fwd p x r :
  u32 x → fits (p ++ le_bytes 4 x ++ r) →
  cursor_u32 (cur p (le_bytes 4 x ++ r)) = Ok (x, cur (p ++ le_bytes 4 x) r).
Proof.
  intros Hx Hf. unfold cursor_u32. rewrite (take_fwd' 4) by (rewrite ?zlen_le_bytes; done).
  rbind. rewrite as_array_len by apply length_le_bytes. rbind. by rewrite from_le_4.
Qed.

Lemma i64_fwd p x r :
  i64 x → fits (p ++ le_bytes 8 x ++ r) →
  cursor_i64 (cur p (le_bytes 8 x ++ r)) = Ok (x, cur (p ++ le_bytes 8 x) r).
Proof.
  intros Hx Hf. unfold cursor_i64. rewrite (take_fwd' 8) by (rewrite ?zlen_le_bytes; done).
  rbind. rewrite as_array_len by apply length_le_bytes. rbind. by rewrite from_le_signed_8.
Qed.

Lemma i32_fwd p x r :
  i32 x → fits (p ++ le_bytes 4 x ++ r) →
  cursor_i32 (cur p (le_bytes 4 x ++ r)) = Ok (x, cur (p ++ le_bytes 4 x) r).
Proof.
  intros Hx Hf. unfold cursor_i32. rewrite (take_fwd' 4) by (rewrite ?zlen_le_bytes; done).
  rbind. rewrite as_array_len by apply length_le_bytes. rbind. by rewrite from_le_signed_4.
Qed.

(** What reading an [n]-byte integer consumes. *)
Definition reads_int (n : nat) (range : Z → Prop) (p r : bytes) : Z * Cursor → Prop :=
  λ '(x, c), range x ∧ ∃ r', r = le_bytes n x ++ r' ∧ c = cur (p ++ le_bytes n x) r'.

Lemma read_int_post n (conv : bytes → Z) (range : Z → Prop) p r :
  (∀ s, length s = n → bytes_wf s → range (conv s) ∧ le_bytes n (conv s) = s) →
  bytes_wf r →
  post ('(value, c) ← take (cur p r) (Z.of_nat n); a ← as_array n value; Ok (conv a, c))
    (reads_int n range p r).
Proof.
  intros Hconv Hw. eapply post_bind; [apply take_post; lia|].
  intros [s c] (r' & -> & Hs & ->). apply Forall_app in Hw as [Hws Hwr].
  assert (length s = n) as Hl by (unfold zlen in Hs; lia).
  rewrite as_array_len by done. rbind. simpl.
  destruct (Hconv s Hl Hws) as [Hr ->]. eauto.
Qed.

Lemma u64_post p r : bytes_wf r → post (cursor_u64 (cur p r)) (reads_int 8 u64 p r).
Proof.
  apply (read_int_post 8 from_le). intros s Hl Hw. split; [by apply from_le_u64|].
  rewrite <- Hl at 1. by apply le_bytes_from_le.
Qed.
Lemma u32_post p r : bytes_wf r → post (cursor_u32 (cur p r)) (reads_int 4 u32 p r).
Proof.
  apply (read_int_post 4 from_le). intros s Hl Hw. split; [by apply from_le_u32|].
  rewrite <- Hl at 1. by apply le_bytes_from_le.
Qed.
Lemma i64_post p r : bytes_wf r → post (cursor_i64 (cur p r)) (reads_int 8 i64 p r).
Proof.
  apply (read_int_post 8 from_le_signed). intros s Hl Hw. split; [by apply from_le_signed_i64|].
  rewrite <- Hl at 1. by apply le_bytes_from_le_signed.
Qed.
Lemma i32_post p r : bytes_wf r → post (cursor_i32 (cur p r)) (reads_int 4 i32 p r).
Proof.
  apply (read_int_post 4 from_le_signed). intros s Hl Hw. split; [by apply from_le_signed_i32|].
  rewrite <- Hl at 1. by apply le_bytes_from_le_signed.
Qed.

(** Length-prefixed bytes, strings and keys. *)
Lemma zlen_u64 {A} (l : list A) n : zlen l ≤ n → n ≤ isize_max → u64 (zlen l).
Proof. pose proof (zlen_nonneg l). rlia. Qed.

Lemma fits_u64 p (s r : bytes) : fits (p ++ s ++ r) → u64 (zlen s).
Proof.
  unfold fits. rewrite !zlen_app. pose proof (zlen_nonneg p); pose proof (zlen_nonneg s);
    pose proof (zlen_nonneg r). intros. apply (zlen_u64 _ isize_max); lia.
Qed.

Lemma usize_of_u64 x : u64 x → usize_try_from x = Some x.
Proof. intros. unfold usize_try_from. rewrite (proj2 (Z.leb_le _ _)); [done|rlia]. Qed.

Lemma byte_length_fwd p s r :
  fits (p ++ str_bytes s ++ r) →
  byte_length (cur p (str_bytes s ++ r)) = Ok (zlen s, cur (p ++ le_bytes 8 (zlen s)) (s ++ r)).
Proof.
  unfold str_bytes. rewrite <- app_assoc. intros Hf.
  assert (u64 (zlen s)) as Hu by (apply (fits_u64 (p ++ le_bytes 8 (zlen s)) s r); solve_fits).
  unfold byte_length, encoded_length. rewrite u64_fwd by done. rbind.
  rewrite remaining_cur, zlen_app.
  rewrite (proj2 (Z.ltb_ge _ _)) by (pose proof (zlen_nonneg r); lia).
  by rewrite usize_of_u64.
Qed.

Lemma byte_length_post p r :
  bytes_wf r →
  post (byte_length (cur p r))
    (λ '(n, c), ∃ r', r = le_bytes 8 n ++ r' ∧ c = cur (p ++ le_bytes 8 n) r' ∧ 0 ≤ n).
Proof.
  intros Hw. unfold byte_length, encoded_length. eapply post_bind; [by apply u64_post|].
  intros [n c] (Hn & r' & -> & ->). apply post_if; intros _; [done|].
  rewrite usize_of_u64 by done. simpl. exists r'. split_and!; [done..|rlia].
Qed.

(** What reading length-prefixed bytes consumes. *)
Definition reads_bytes (P : bytes → Prop) (p r : bytes) : bytes * Cursor → Prop :=
  λ '(s, c), P s ∧ ∃ r', r = str_bytes s ++ r' ∧ c = cur (p ++ str_bytes s) r'.

Lemma bytes_value_fwd p s r :
  fits (p ++ str_bytes s ++ r) →
  cursor_bytes_value (cur p (str_bytes s ++ r)) = Ok (s, cur (p ++ str_bytes s) r).
Proof.
  intros Hf. unfold cursor_bytes_value. rewrite byte_length_fwd by done. rbind.
  unfold str_bytes in *. rewrite take_fwd by solve_fits. by rewrite <- app_assoc.
Qed.

Lemma bytes_value_post p r :
  bytes_wf r → post (cursor_bytes_value (cur p r)) (reads_bytes bytes_wf p r).
Proof.
  intros Hw. unfold cursor_bytes_value. eapply post_bind; [by apply byte_length_post|].
  intros [n c] (r' & -> & -> & Hn). eapply post_mono; [by apply take_post|].
  intros [s c] (r'' & -> & <- & ->). apply Forall_app in Hw as [_ [Hw _]%Forall_app].
  split; [done|]. exists r''. unfold str_bytes. by rewrite <- !app_assoc.
Qed.

Lemma string_fwd p s r :
  str_wf s → fits (p ++ str_bytes s ++ r) →
  cursor_string (cur p (str_bytes s ++ r)) = Ok (s, cur (p ++ str_bytes s) r).
Proof.
  intros [_ Hs] Hf. unfold cursor_string. rewrite bytes_value_fwd by done. rbind. by rewrite Hs.
Qed.

Lemma string_post p r : bytes_wf r → post (cursor_string (cur p r)) (reads_bytes str_wf p r).
Proof.
  intros Hw. unfold cursor_string. eapply post_bind; [by apply bytes_value_post|].
  intros [s c] (Hs & r' & -> & ->). apply post_if; intros Hu; [|done].
  split; [by split|]. eauto.
Qed.

(** The byte range of a key whose length prefix starts at [start]. *)
Definition key_range (start : Z) (k : bytes) : Z * Z := (start + 8, start + 8 + zlen k).

Lemma get_key_range p k r :
  get_range (p ++ str_bytes k ++ r) (key_range (zlen p) k).1 (key_range (zlen p) k).2 = Some k.
Proof.
  unfold str_bytes, key_range; cbn [fst snd]. rewrite <- (app_assoc (le_bytes _ _)), (app_assoc p).
  replace (zlen p + 8) with (zlen (p ++ le_bytes 8 (zlen k))) by
    (rewrite zlen_app, zlen_le_bytes; lia).
  apply get_range_app.
Qed.

Lemma string_range_fwd p s r :
  str_wf s → fits (p ++ str_bytes s ++ r) →
  string_range (cur p (str_bytes s ++ r)) = Ok (key_range (zlen p) s, cur (p ++ str_bytes s) r).
Proof.
  intros [_ Hs] Hf. unfold string_range. rewrite byte_length_fwd by done. rbind.
  unfold str_bytes in *. rewrite take_fwd by solve_fits.
  rbind. rewrite Hs. cbn [position cur]. rewrite !zlen_app, zlen_le_bytes. by rewrite <- app_assoc.
Qed.

Lemma string_range_post p r :
  bytes_wf r →
  post (string_range (cur p r))
    (λ '(range, c), ∃ k, range = key_range (zlen p) k ∧ reads_bytes str_wf p r (k, c)).
Proof.
  intros Hw. unfold string_range. eapply post_bind; [by apply byte_length_post|].
  intros [n c] (r' & -> & -> & Hn). eapply post_bind; [by apply take_post|].
  intros [s c] (r'' & -> & <- & ->). apply post_if; intros Hu; [|done].
  exists s. split; [cbn [position cur]; by rewrite !zlen_app, zlen_le_bytes|].
  apply Forall_app in Hw as [_ [Hw _]%Forall_app].
  split; [by split|]. exists r''. unfold str_bytes. by rewrite <- !app_assoc.
Qed.

Lemma index_range_Some {E A} (l s : list A) a b :
  get_range l a b = Some s → index_range (E := E) l a b = Ok s.
Proof. unfold index_range. by intros ->. Qed.

(** The key range a frame remembers denotes [k] in the input. *)
Definition denotes (bs : bytes) (range : Z * Z) (k : bytes) : Prop :=
  get_range bs range.1 range.2 = Some k.

(** [previous], if any, denotes a key below [k]. *)
Definition above (bs : bytes) (previous : option (Z * Z)) (k : bytes) : Prop :=
  match previous with
  | None => True
  | Some range => ∃ k0, denotes bs range k0 ∧ lexZ k0 k = Lt
  end.

Lemma map_key_range_fwd p k r previous :
  str_wf k → fits (p ++ str_bytes k ++ r) → above (p ++ str_bytes k ++ r) previous k →
  map_key_range (cur p (str_bytes k ++ r)) previous
  = Ok (key_range (zlen p) k, cur (p ++ str_bytes k) r).
Proof.
  intros Hk Hf Hp. unfold map_key_range. rewrite string_range_fwd by done. rbind.
  destruct previous as [range|]; rbind; [|done]. destruct Hp as (k0 & Hd & Hlt).
  rewrite cursor_bytes_cur.
  rewrite (index_range_Some _ _ _ _ Hd). rbind.
  rewrite (index_range_Some _ _ _ _ (get_key_range p k r)). rbind. by rewrite Hlt.
Qed.

Lemma map_key_fwd p k r previous :
  str_wf k → fits (p ++ str_bytes k ++ r) → above (p ++ str_bytes k ++ r) previous k →
  map_key (cur p (str_bytes k ++ r)) previous
  = Ok (key_range (zlen p) k, k, cur (p ++ str_bytes k) r).
Proof.
  intros Hk Hf Hp. unfold map_key. rewrite map_key_range_fwd by done. rbind.
  rewrite cursor_bytes_cur.
  rewrite (index_range_Some _ _ _ _ (get_key_range p k r)). rbind. by rewrite (proj2 Hk).
Qed.

(** The ranges stored in frames denote some key. *)
Definition known (bs : bytes) (previous : option (Z * Z)) : Prop :=
  match previous with None => True | Some range => ∃ k0, denotes bs range k0 end.

Lemma map_key_range_post p r previous :
  bytes_wf r → known (p ++ r) previous →
  post (map_key_range (cur p r) previous)
    (λ '(range, c), ∃ k, range = key_range (zlen p) k ∧ reads_bytes str_wf p r (k, c)
                         ∧ above (p ++ r) previous k).
Proof.
  intros Hw Hp. unfold map_key_range. eapply post_bind; [by apply string_range_post|].
  intros [range c] (k & -> & Hk & r' & -> & ->).
  rewrite cursor_bytes_cur.
  destruct previous as [range|]; rbind.
  - destruct Hp as [k0 Hd]. rewrite (index_range_Some _ _ _ _ Hd). rbind.
    rewrite (index_range_Some _ _ _ _ (get_key_range p k r')). rbind.
    destruct (lexZ k0 k) eqn:Hlt; [done| |done].
    exists k. split_and!; [done| |by exists k0]. split; eauto.
  - exists k. split_and!; [done| |done]. split; eauto.
Qed.

Lemma map_key_post p r previous :
  bytes_wf r → known (p ++ r) previous →
  post (map_key (cur p r) previous)
    (λ '(range, k, c), range = key_range (zlen p) k ∧ reads_bytes str_wf p r (k, c)
                       ∧ above (p ++ r) previous k).
Proof.
  intros Hw Hp. unfold map_key. eapply post_bind; [by apply map_key_range_post|].
  intros [range c] (k & -> & (Hk & r' & -> & ->) & Ha).
  rewrite cursor_bytes_cur.
  rewrite (index_range_Some _ _ _ _ (get_key_range p k r')). rbind. rewrite (proj2 Hk).
  split_and!; [done| |done]. split; eauto.
Qed.

(** Collection lengths. *)
Lemma collection_length_fwd p n m r :
  0 < m → 0 ≤ n → n * m ≤ zlen r → fits (p ++ le_bytes 8 n ++ r) →
  collection_length (cur p (le_bytes 8 n ++ r)) m = Ok (n, cur (p ++ le_bytes 8 n) r).
Proof.
  intros Hm Hn Hr Hf.
  assert (u64 n) as Hu.
  { unfold fits in Hf. rewrite !zlen_app in Hf. pose proof (zlen_nonneg p).
    pose proof (zlen_nonneg (le_bytes 8 n)). split; [lia|]. unfold_ranges. nia. }
  unfold collection_length, encoded_length. rewrite u64_fwd by done. rbind.
  rewrite remaining_cur. rewrite (proj2 (Z.ltb_ge _ _)) by (apply Z.div_le_lower_bound; lia).
  by rewrite usize_of_u64.
Qed.

Lemma collection_length_post p r m :
  bytes_wf r → post (collection_length (cur p r) m) (reads_int 8 u64 p r).
Proof.
  intros Hw. unfold collection_length, encoded_length. eapply post_bind; [by apply u64_post|].
  intros [n c] (Hn & r' & -> & ->). apply post_if; intros _; [done|].
  rewrite usize_of_u64 by done. simpl. split; [done|]. eauto.
Qed.

(** ** Canonical trees *)

Lemma enc_nonempty v : document_free v = true → (0 < length (enc v))%nat.
Proof. destruct v as [[]|vs|vs]; simpl; intros; try done; try lia. destruct b; simpl; lia. Qed.

(** The trees the decoder produces. *)
Definition good (v : DocumentItem) : Prop :=
  item_wf v ∧ document_free v = true ∧ canonical v = v.

Definition good_entry (p : bytes * DocumentItem) : Prop := str_wf p.1 ∧ good p.2.

Lemma good_ItemScalar s :
  good (ItemScalar s) ↔ scalar_wf s ∧ is_document s = false ∧ canonical_scalar s = s.
Proof.
  unfold good; simpl. rewrite negb_true_iff. split.
  - intros (Hw & Hd & [= Hc]). inversion Hw; auto.
  - intros (Hw & Hd & ->). by repeat constructor.
Qed.

Lemma good_ItemList vs : good (ItemList vs) ↔ Forall good vs.
Proof.
  unfold good; simpl. split.
  - intros (Hw & Hd & [= Hc]). inversion Hw as [|? Hws|]; subst.
    apply forallb_Forall in Hd. revert Hw Hws Hd Hc. clear.
    induction vs as [|v vs IH]; simpl; [constructor|]. intros Hw Hws Hd [= Hv Hvs].
    apply Forall_cons in Hws as [? ?]. apply Forall_cons in Hd as [? ?].
    constructor; [done|]. apply IH; auto. by constructor.
  - intros Hg. split_and!.
    + constructor. eapply Forall_impl; [exact Hg|]. intros ? H; apply H.
    + induction Hg as [|v vs (_ & Hv & _) _ IH]; simpl; [done|]. by rewrite Hv.
    + f_equal. induction Hg as [|v vs (_ & _ & Hv) _ IH]; simpl; [done|]. by rewrite Hv, IH.
Qed.

Lemma good_ItemMap vs : good (ItemMap vs) ↔ keys_sorted vs ∧ Forall good_entry vs.
Proof.
  unfold good_entry, good; simpl. split.
  - intros (Hw & Hd & [= Hc]). inversion Hw as [| |? Hs Hws]; subst. split; [done|].
    apply forallb_Forall in Hd. clear Hw Hs. revert Hws Hd Hc.
    induction vs as [|[k v] vs IH]; simpl; [constructor|]. intros Hws Hd [= Hv Hvs].
    apply Forall_cons in Hws as [[? ?] ?]. apply Forall_cons in Hd as [? ?].
    constructor; [done|]. by apply IH.
  - intros [Hs Hg]. split_and!.
    + constructor; [done|]. eapply Forall_impl; [exact Hg|]. intros ? H; split; apply H.
    + clear Hs. induction Hg as [|[k v] vs (_ & _ & Hv & _) _ IH]; simpl in *; [done|].
      by rewrite Hv.
    + f_equal. clear Hs. induction Hg as [|[k v] vs (_ & _ & _ & Hv) _ IH]; simpl in *; [done|].
      by rewrite Hv, IH.
Qed.

Lemma validate_float_canonical bits :
  validate_float_bits bits = Ok tt ↔ canonical_float_bits bits = bits.
Proof.
  unfold validate_float_bits, canonical_float_bits.
  destruct (f64_is_nan bits); simpl.
  - destruct (Z.eqb_spec bits f64_nan_bits) as [->|Hn]; simpl; [done|]. split; [done|]. congruence.
  - destruct (f64_is_zero bits); simpl; [|done].
    destruct (Z.eqb_spec bits 0) as [->|Hn]; simpl; [done|]. split; [done|]. congruence.
Qed.

Lemma canonical_float_bits_idemp bits :
  canonical_float_bits (canonical_float_bits bits) = canonical_float_bits bits.
Proof.
  unfold canonical_float_bits. destruct (f64_is_nan bits) eqn:Hn; [by vm_compute|].
  destruct (f64_is_zero bits) eqn:Hz; [by vm_compute|]. by rewrite Hn, Hz.
Qed.

(** The encoder writes the bytes of the canonical form. *)
Lemma enc_canonical v : enc (canonical v) = enc v.
Proof.
  induction v as [s|vs IH|vs IH] using DocumentItem_nested_ind; cbn [enc canonical].
  - destruct s; try done. cbn [canonical_scalar scalar_bytes]. by rewrite canonical_float_bits_idemp.
  - unfold zlen. rewrite length_map, map_map. do 3 f_equal.
    by apply map_ext_Forall.
  - unfold zlen. rewrite length_map, map_map. do 3 f_equal. apply map_ext_Forall.
    eapply Forall_impl; [exact IH|]. intros [k v] Hv. cbn [snd] in Hv. by rewrite Hv.
Qed.

Lemma canonical_float_u64 bits : u64 bits → u64 (canonical_float_bits bits).
Proof.
  intros. unfold canonical_float_bits. destruct (f64_is_nan bits); [unfold f64_nan_bits; rlia|].
  destruct (f64_is_zero bits); [rlia|done].
Qed.

Lemma keys_sorted_map {V W} (f : V → W) (vs : list (bytes * V)) :
  keys_sorted vs → keys_sorted (map (λ '(k, v), (k, f v)) vs).
Proof.
  induction vs as [|[k v] [|[k' v'] vs] IH]; simpl in *; [done..|].
  intros [? ?]. split; [done|]. by apply IH.
Qed.

Lemma canonical_good v : item_wf v → document_free v = true → good (canonical v).
Proof.
  induction v as [s|vs IH|vs IH] using DocumentItem_nested_ind; cbn [canonical]; intros Hw Hd.
  - apply good_ItemScalar. inversion Hw; subst. simpl in Hd. apply negb_true_iff in Hd.
    destruct s; simpl in *;
      (split; [first [done|by apply canonical_float_u64]|]); split; try done.
    by rewrite canonical_float_bits_idemp.
  - apply good_ItemList. inversion Hw as [|? Hws|]; subst. simpl in Hd.
    apply forallb_Forall in Hd. rewrite Forall_map.
    rewrite Forall_forall in *. intros v Hv. apply IH; [done|by apply Hws|].
    by apply Hd.
  - apply good_ItemMap. inversion Hw as [| |? Hs Hws]; subst. simpl in Hd.
    split; [by apply keys_sorted_map|].
    apply forallb_Forall in Hd. rewrite Forall_map. rewrite Forall_forall in *.
    intros [k v] Hv. specialize (Hws _ Hv) as [Hk Hwv]. specialize (Hd _ Hv).
    split; [done|]. apply (IH _ Hv); done.
Qed.

(** ** What the decoder accepts *)

(** The input bytes that built the frames, bottom of the stack first. *)
Definition frame_prefix (f : DecodeFrame) : bytes :=
  match f with
  | DecodeList n vs => LIST :: le_bytes 8 (zlen vs + n) ++ enc_list vs
  | DecodeMap n vs _ pending =>
      MAP :: le_bytes 8 (zlen vs + n) ++ enc_entries vs ++ default [] (str_bytes <$> pending)
  end.

Fixpoint stack_prefix (frames : list DecodeFrame) : bytes :=
  match frames with [] => [] | f :: fs => stack_prefix fs ++ frame_prefix f end.

Definition frame_inv (bs : bytes) (f : DecodeFrame) : Prop :=
  match f with
  | DecodeList n vs => 1 ≤ n ∧ Forall good vs
  | DecodeMap n vs previous pending =>
      1 ≤ n ∧ keys_sorted vs ∧ Forall good_entry vs
      ∧ ∃ k, pending = Some k ∧ str_wf k ∧ denotes bs previous k
             ∧ Forall (λ p, lexZ p.1 k = Lt) vs
  end.

(** Bytes of [enc] under concatenation. *)
Lemma enc_list_cons v vs : enc_list (v :: vs) = enc v ++ enc_list vs.
Proof. done. Qed.
Lemma enc_entries_cons k v vs :
  enc_entries ((k, v) :: vs) = str_bytes k ++ enc v ++ enc_entries vs.
Proof. unfold enc_entries. cbn [map concat]. by rewrite <- app_assoc. Qed.
Lemma enc_list_snoc vs v : enc_list (vs ++ [v]) = enc_list vs ++ enc v.
Proof. unfold enc_list. rewrite map_app, concat_app. simpl. by rewrite app_nil_r. Qed.
Lemma enc_entries_snoc vs k v :
  enc_entries (vs ++ [(k, v)]) = enc_entries vs ++ str_bytes k ++ enc v.
Proof. unfold enc_entries. rewrite map_app, concat_app. simpl. by rewrite app_nil_r. Qed.

Lemma zlen_snoc {A} (l : list A) x n : zlen (l ++ [x]) + (n - 1) = zlen l + n.
Proof. zlens. lia. Qed.

Ltac solve_wf :=
  unfold bytes_wf in *;
  repeat match goal with
  | Hw : Forall u8 (_ ++ _) |- _ => apply Forall_app in Hw as [? ?]
  | Hw : Forall u8 (_ :: _) |- _ => apply Forall_cons in Hw as [? ?]
  end; assumption.

Lemma validate_float_post bits :
  post (validate_float_bits bits) (λ _, canonical_float_bits bits = bits).
Proof.
  destruct (validate_float_bits bits) as [[]| |] eqn:Hv; simpl; [|done|].
  - by apply validate_float_canonical.
  - unfold validate_float_bits in Hv. by destruct (_ || _).
Qed.

Lemma list_frame_done n vs v :
  n - 1 = 0 → frame_prefix (DecodeList n vs) ++ enc v = enc (ItemList (vs ++ [v])).
Proof.
  intros Hn. rewrite enc_ItemList, enc_list_snoc.
  replace (zlen (vs ++ [v])) with (zlen vs + n) by (zlens; lia).
  cbn [frame_prefix]. by rewrite <- app_comm_cons, <- app_assoc.
Qed.

Lemma list_frame_next n vs v :
  frame_prefix (DecodeList n vs) ++ enc v = frame_prefix (DecodeList (n - 1) (vs ++ [v])).
Proof.
  cbn [frame_prefix]. by rewrite enc_list_snoc, zlen_snoc, <- app_comm_cons, <- app_assoc.
Qed.

Lemma map_frame_done n vs prev k v :
  n - 1 = 0 →
  frame_prefix (DecodeMap n vs prev (Some k)) ++ enc v = enc (ItemMap (vs ++ [(k, v)])).
Proof.
  intros Hn. rewrite enc_ItemMap, enc_entries_snoc.
  replace (zlen (vs ++ [(k, v)])) with (zlen vs + n) by (zlens; lia).
  cbn [frame_prefix default fmap option_fmap option_map].
  by rewrite <- app_comm_cons, <- !app_assoc.
Qed.

Lemma map_frame_next n vs prev prev' k k' v :
  (frame_prefix (DecodeMap n vs prev (Some k)) ++ enc v) ++ str_bytes k'
  = frame_prefix (DecodeMap (n - 1) (vs ++ [(k, v)]) prev' (Some k')).
Proof.
  cbn [frame_prefix default fmap option_fmap option_map].
  by rewrite enc_entries_snoc, zlen_snoc, <- !app_comm_cons, <- !app_assoc.
Qed.

(** Handing a value to the stack: the root is complete, or the top frame waits
    for its next element. *)
Definition resumed (bs p0 : bytes) (frames : list DecodeFrame) (v : DocumentItem) (r : bytes)
    : (DocumentItem + list DecodeFrame) * Cursor → Prop :=
  λ '(next, c),
    match next with
    | inl w => good w ∧ enc w = stack_prefix frames ++ enc v ∧ c = cur (p0 ++ enc w) r
    | inr frames' => ∃ r', Forall (frame_inv bs) frames'
        ∧ stack_prefix frames ++ enc v ++ r = stack_prefix frames' ++ r'
        ∧ c = cur (p0 ++ stack_prefix frames') r' ∧ r' `suffix_of` r
    end.

Lemma resumed_pop bs p0 f frames v w r nc :
  frame_prefix f ++ enc v = enc w →
  resumed bs p0 frames w r nc → resumed bs p0 (f :: frames) v r nc.
Proof.
  intros Hw. destruct nc as [[x|frames'] c]; cbn [resumed stack_prefix];
    rewrite <- Hw, <- !app_assoc; [done|].
  intros (r' & ? & E & ? & ?). exists r'. split; [done|]. split; [|done].
  by rewrite <- E, <- ?app_assoc.
Qed.

Lemma checked_sub_1 n : 1 ≤ n → checked_sub n 1 = Some (n - 1).
Proof. intros. unfold checked_sub. by rewrite (proj2 (Z.leb_le _ _)). Qed.

Lemma Forall_lt_snoc {V} (vs : list (bytes * V)) k k' v :
  Forall (λ p, lexZ p.1 k = Lt) vs → lexZ k k' = Lt →
  Forall (λ p, lexZ p.1 k' = Lt) (vs ++ [(k, v)]).
Proof.
  intros Hf Hlt. apply Forall_app; split; [|by repeat constructor].
  eapply Forall_impl; [exact Hf|]. intros p Hp. by apply (lexZ_trans _ k).
Qed.

Section decoder.
Context `{Allocator}.

Lemma push_decode_frame_post frames f :
  post (push_decode_frame frames f) (λ frames', frames' = f :: frames).
Proof. unfold push_decode_frame, reserve_frames. by destruct (grant _ _). Qed.

(** One iteration reads a scalar or an empty container, or opens a frame. *)
Definition tag_read (p r : bytes) (frames : list DecodeFrame)
    : option DocumentItem * list DecodeFrame * Cursor → Prop :=
  λ '(completed, frames', c),
    match completed with
    | Some v => frames' = frames ∧ good v ∧ ∃ r', r = enc v ++ r' ∧ c = cur (p ++ enc v) r'
    | None => ∃ f r', frames' = f :: frames ∧ frame_inv (p ++ r) f
              ∧ r = frame_prefix f ++ r' ∧ c = cur (p ++ frame_prefix f) r'
    end.

Ltac read_fields :=
  repeat (eapply post_bind;
    [first [apply u64_post | apply u32_post | apply i64_post | apply i32_post
           | apply string_post | apply bytes_value_post]; solve_wf
    | intros [? ?] (? & ? & -> & ->)]).
Ltac tag_cases := apply post_if; [intros ->%Z.eqb_eq|intros _; try tag_cases].
Ltac read_done :=
  split; [done|]; split;
  [apply good_ItemScalar; split; [simpl; tauto|done]
  | eexists; cbn [enc scalar_bytes];
    split; [rewrite <- ?app_comm_cons, <- ?app_assoc; reflexivity
           |f_equal; rewrite <- ?app_assoc; reflexivity]].

Lemma decode_tag_post p r frames :
  bytes_wf r → post (decode_tag (cur p r) frames) (tag_read p r frames).
Proof.
  intros Hw. unfold decode_tag. eapply post_bind; [apply byte_post|].
  intros [t c] (r0 & -> & ->).
  tag_cases; read_fields; try solve [read_done | done].
  - eapply post_bind; [apply validate_float_post|]. cbn beta; intros [] Hc.
    split; [done|]. split; [apply good_ItemScalar; simpl; by rewrite Hc|].
    eexists; cbn [enc scalar_bytes]. rewrite Hc.
    split; [reflexivity|f_equal; by rewrite <- ?app_assoc].
  - eapply post_bind; [apply collection_length_post; solve_wf|]. intros [n c] (Hn & r' & -> & ->).
    apply post_if; [intros ->%Z.eqb_eq|intros Hz%Z.eqb_neq].
    { split; [done|]. split; [by apply good_ItemList|]. exists r'. cbn. 
      by rewrite <- !app_assoc, app_nil_r. }
    apply post_if; [done|intros _]. eapply post_bind; [apply push_decode_frame_post|].
    intros ? ->. exists (DecodeList n []), r'. split; [done|]. split; [simpl; split; [rlia|done]|].
    cbn. by rewrite <- !app_assoc, !app_nil_r.
  - eapply post_bind; [apply collection_length_post; solve_wf|]. intros [n c] (Hn & r' & -> & ->).
    apply post_if; [intros ->%Z.eqb_eq|intros Hz%Z.eqb_neq].
    { split; [done|]. split; [by apply good_ItemMap|]. exists r'. cbn. 
      by rewrite <- !app_assoc, app_nil_r. }
    eapply post_bind; [apply map_key_post; [solve_wf|done]|].
    intros [[range k] c] (-> & (Hk & r'' & -> & ->) & _). eapply post_bind; [apply push_decode_frame_post|].
    intros ? ->. exists (DecodeMap n [] (key_range (zlen ((p ++ [MAP]) ++ le_bytes 8 n)) k) (Some k)), r''.
    split; [done|]. split.
    { simpl. split; [rlia|]. split; [done|]. split; [done|]. exists k. split_and!; [done..| |done].
      unfold denotes. rewrite <- (get_key_range ((p ++ [MAP]) ++ le_bytes 8 n) k r'').
      by rewrite <- !app_assoc. }
    cbn [frame_prefix default fmap option_fmap option_map enc_entries map concat]. 
    by rewrite <- !app_assoc.
Qed.

Lemma complete_item_post bs p0 frames v r :
  bs = p0 ++ stack_prefix frames ++ enc v ++ r → bytes_wf r →
  Forall (frame_inv bs) frames → good v →
  post (complete_item v frames (cur (p0 ++ stack_prefix frames ++ enc v) r))
    (resumed bs p0 frames v r).
Proof.
  intros Hbs Hw Hf. revert v Hbs. induction Hf as [|f frames Hi Hf IH]; intros v Hbs Hv; [done|].
  cbn [stack_prefix] in *. rewrite <- (app_assoc (stack_prefix frames)) in *.
  destruct f as [n vs|n vs prev pending]; cbn [complete_item].
  - destruct Hi as [Hn Hvs]. rewrite checked_sub_1 by done. rbind.
    assert (Forall good (vs ++ [v])) by (apply Forall_app; auto).
    apply post_if; [intros Hz%Z.eqb_eq|intros Hz%Z.eqb_neq].
    + pose proof (list_frame_done n vs v Hz) as E. rewrite (app_assoc (frame_prefix _)), E in Hbs.
      rewrite E. eapply post_mono; [apply IH; [by rewrite Hbs|by apply good_ItemList]|].
      intros nc. by apply resumed_pop.
    + exists r. split; [constructor; [split; [lia|done]|done]|].
      cbn [stack_prefix]. by rewrite <- list_frame_next, <- !app_assoc.
  - destruct Hi as (Hn & Hs & Hvs & k & -> & Hk & Hd & Hlt). rbind.
    rewrite btree_insert_last by done. rewrite checked_sub_1 by done. rbind.
    assert (keys_sorted (vs ++ [(k, v)])) as Hs' by (by apply keys_sorted_snoc).
    assert (Forall good_entry (vs ++ [(k, v)])) as Hvs'
      by (apply Forall_app; split; [done|apply Forall_singleton; by split]).
    apply post_if; [intros Hz%Z.eqb_eq|intros Hz%Z.eqb_neq].
    + pose proof (map_frame_done n vs prev k v Hz) as E.
      rewrite (app_assoc (frame_prefix _)), E in Hbs.
      rewrite E. eapply post_mono; [apply IH; [by rewrite Hbs|by apply good_ItemMap]|].
      intros nc. by apply resumed_pop.
    + eapply post_bind; [apply map_key_post; [done|]|].
      { exists k. by rewrite Hbs, <- !app_assoc in *. }
      intros [[range k'] c] (-> & (Hk' & r' & -> & ->) & (k0 & Hd' & Hlt')).
      assert (k0 = k) as -> by (rewrite Hbs in Hd; unfold denotes in *; rewrite <- !app_assoc in *; congruence).
      exists r'. cbn [stack_prefix]. rewrite <- (map_frame_next n vs prev _ k k' v).
      split_and!.
      * constructor; [|done]. split; [lia|]. split; [done|]. split; [done|].
        exists k'. split_and!; [done..| |by eapply Forall_lt_snoc].
        replace bs with ((p0 ++ stack_prefix frames
          ++ frame_prefix (DecodeMap n vs prev (Some k)) ++ enc v) ++ str_bytes k' ++ r')
          by (by rewrite Hbs, <- !app_assoc).
        apply get_key_range.
      * by rewrite <- !app_assoc.
      * by rewrite <- !app_assoc.
      * by exists (str_bytes k').
Qed.

Lemma frame_prefix_length f : (1 ≤ length (frame_prefix f))%nat.
Proof. destruct f; simpl; lia. Qed.

Lemma item_loop_post fuel bs p0 frames r :
  bs = p0 ++ stack_prefix frames ++ r → bytes_wf r → (length r < fuel)%nat →
  Forall (frame_inv bs) frames →
  post (item_loop fuel frames (cur (p0 ++ stack_prefix frames) r))
    (λ '(v, c), good v ∧ ∃ r', stack_prefix frames ++ r = enc v ++ r' ∧ c = cur (p0 ++ enc v) r').
Proof.
  revert frames r. induction fuel as [|fuel IH]; intros frames r Hbs Hw Hl Hf; [lia|].
  cbn [item_loop]. eapply post_bind; [by apply decode_tag_post|].
  intros [[[v|] frames'] c].
  - intros (-> & Hv & r' & -> & ->). apply Forall_app in Hw as [_ Hw].
    rewrite <- app_assoc. eapply post_bind; [by apply (complete_item_post bs)|].
    intros [[w|frames'] c].
    + intros (Hg & Heq & ->). split; [done|]. exists r'. by rewrite Heq, <- app_assoc.
    + intros (r'' & Hf' & Heq & -> & [s ->]). rewrite Heq in *.
      assert (0 < length (enc v))%nat by (apply enc_nonempty; apply Hv).
      apply IH; [by rewrite Hbs|solve_wf|rewrite !length_app in Hl; lia|done].
  - intros (f & r' & -> & Hi & -> & ->). rewrite <- app_assoc in *.
    change (stack_prefix frames ++ frame_prefix f) with (stack_prefix (f :: frames)).
    assert (length (frame_prefix f ++ r') = length (frame_prefix f) + length r')%nat by apply length_app.
    pose proof (frame_prefix_length f).
    eapply post_mono; [apply IH|].
    + rewrite Hbs. cbn [stack_prefix]. by rewrite <- !app_assoc.
    + solve_wf.
    + lia.
    + constructor; [|done]. by rewrite Hbs.
    + intros [v c]. cbn [stack_prefix]. by rewrite <- !app_assoc.
Qed.

Lemma cursor_item_post p r :
  bytes_wf r →
  post (cursor_item (cur p r))
    (λ '(v, c), good v ∧ ∃ r', r = enc v ++ r' ∧ c = cur (p ++ enc v) r').
Proof.
  intros Hw. unfold cursor_item. rewrite <- (app_nil_r p) at 2.
  apply (item_loop_post _ (p ++ r) p []); [done|done| |constructor].
  cbn [cur cursor_bytes]. rewrite length_app. lia.
Qed.

(** [decode] never aborts, and what it returns encodes to its input. *)
Lemma decode_post bs root :
  bytes_wf bs →
  post (decode bs root)
    (λ v, good v ∧ root_matches v root = true ∧ bs = FORMAT_VERSION :: enc v).
Proof.
  intros Hw. unfold decode, validate_size. destruct (zlen bs <? 2); [done|]. rbind.
  change (mkCursor bs 0) with (cur [] bs). eapply post_bind; [apply byte_post|].
  intros [t c] (r & -> & ->). apply post_if; [done|]. intros Hv%negb_false_iff%Z.eqb_eq. subst t.
  destruct (decide _); [|done]. eapply post_bind; [apply cursor_item_post; solve_wf|].
  intros [v c] (Hg & r' & -> & ->). apply post_if; [done|]. intros Hp%negb_false_iff%Z.eqb_eq.
  apply post_if; [done|]. intros Hr%negb_false_iff. split; [done|]. split; [done|].
  cbn [cur position] in Hp. rewrite zlen_cons, !zlen_app, zlen_cons, zlen_nil in Hp.
  assert (zlen r' = 0) as Hz by lia. destruct r'; [by rewrite app_nil_r|].
  rewrite zlen_cons in Hz. pose proof (zlen_nonneg r'). lia.
Qed.
End decoder.

(** ** The decoder inverts [enc] *)

(** The number of tags the encoding of a value holds. *)
Fixpoint tags (v : DocumentItem) : nat :=
  match v with
  | ItemScalar _ => 1
  | ItemList vs => S (sum_list_with tags vs)
  | ItemMap vs => S (sum_list_with (λ '(_, v), tags v) vs)
  end.

Definition tags_list (vs : list DocumentItem) : nat := sum_list_with tags vs.
Definition tags_entries (vs : list (bytes * DocumentItem)) : nat :=
  sum_list_with (λ '(_, v), tags v) vs.

Lemma zlen_enc_pos v : document_free v = true → 1 ≤ zlen (enc v).
Proof. intros Hd. pose proof (enc_nonempty v Hd). unfold zlen. lia. Qed.

Lemma free_zlen_enc_list vs : frame_free (EncodeList vs) = true → zlen vs ≤ zlen (enc_list vs).
Proof.
  cbn [frame_free]. induction vs as [|v vs IH]; [done|]. intros [Hv Hvs]%andb_true_iff.
  rewrite enc_list_cons. pose proof (zlen_enc_pos v Hv). specialize (IH Hvs). zlens. lia.
Qed.

Lemma free_zlen_enc_entries vs :
  frame_free (EncodeMap vs) = true → zlen vs * 9 ≤ zlen (enc_entries vs).
Proof.
  cbn [frame_free]. induction vs as [|[k v] vs IH]; [done|]. intros [Hv Hvs]%andb_true_iff.
  rewrite enc_entries_cons. pose proof (zlen_enc_pos v Hv). specialize (IH Hvs).
  unfold str_bytes. zlens. pose proof (zlen_nonneg k). lia.
Qed.

Lemma zlen_enc_list vs : Forall good vs → zlen vs ≤ zlen (enc_list vs).
Proof. intros Hg%good_ItemList. apply free_zlen_enc_list, Hg. Qed.

Lemma zlen_enc_entries vs : Forall good_entry vs → zlen vs * 9 ≤ zlen (enc_entries vs).
Proof.
  intros Hg. apply free_zlen_enc_entries. cbn [frame_free]. apply forallb_Forall.
  eapply Forall_impl; [exact Hg|]. intros [k v] [_ Hv]. apply Hv.
Qed.

Ltac tag_test :=
  repeat match goal with
  | |- (if ?a =? ?b then ?x else ?y) = _ =>
      first [change (if a =? b then x else y) with x | change (if a =? b then x else y) with y]
  end.

Section inverse.
Context `{Allocator}.
Hypothesis granted : ∀ b n, n ≤ isize_max → grant b n = true.

Ltac fields_fwd :=
  repeat (rewrite <- ?app_assoc;
    first [rewrite i64_fwd | rewrite u64_fwd | rewrite i32_fwd | rewrite u32_fwd
          | rewrite string_fwd | rewrite bytes_value_fwd]; [|tauto || solve_fits..];
    rbind; cbv beta iota zeta).

Lemma decode_tag_scalar p s r frames :
  good (ItemScalar s) → fits (p ++ scalar_bytes s ++ r) →
  decode_tag (cur p (scalar_bytes s ++ r)) frames
  = Ok (Some (ItemScalar s), frames, cur (p ++ scalar_bytes s) r).
Proof.
  intros (Hw & Hd & Hc)%good_ItemScalar Hf. unfold decode_tag.
  destruct s as [|[]| | | | | | | | | | | |]; try done; cbn [scalar_bytes app scalar_wf] in *;
    rewrite byte_fwd by solve_fits; rbind; cbv beta iota zeta; tag_test; try done.
  all: try solve [fields_fwd; by rewrite <- ?app_assoc].
  - injection Hc as Hc. rewrite Hc in *. fields_fwd.
    rewrite (proj2 (validate_float_canonical _)) by done. rbind. by rewrite <- app_assoc.
Qed.

Lemma push_decode_frame_fwd frames f p r :
  fits (p ++ r) → zlen frames < zlen (p ++ r) → push_decode_frame frames f = Ok (f :: frames).
Proof.
  unfold fits, push_decode_frame, reserve_frames. intros. rewrite granted; [done|lia].
Qed.

Lemma decode_tag_list p vs r frames :
  Forall good vs → fits (p ++ enc (ItemList vs) ++ r) → zlen frames ≤ zlen p →
  decode_tag (cur p (enc (ItemList vs) ++ r)) frames
  = match vs with
    | [] => Ok (Some (ItemList []), frames, cur (p ++ enc (ItemList [])) r)
    | _ => Ok (None, DecodeList (zlen vs) [] :: frames,
               cur (p ++ LIST :: le_bytes 8 (zlen vs)) (enc_list vs ++ r))
    end.
Proof.
  intros Hg Hf Hl. pose proof (zlen_enc_list vs Hg) as Hz.
  pose proof (zlen_nonneg p); pose proof (zlen_nonneg vs); pose proof (zlen_nonneg r).
  assert (zlen vs ≤ isize_max ∧ zlen frames < zlen (p ++ enc (ItemList vs) ++ r)) as [Hvs Hfr].
  { unfold fits in Hf. rewrite enc_ItemList in *. revert Hf. zlens. lia. }
  rewrite enc_ItemList in *. unfold decode_tag. rewrite <- app_comm_cons, <- app_assoc in *.
  rewrite byte_fwd by done. rbind; cbv beta iota zeta; tag_test.
  rewrite collection_length_fwd; [|lia|lia|zlens; lia|solve_fits]. rbind; cbv beta iota zeta.
  destruct vs as [|v vs]; [by rewrite <- app_assoc|].
  assert ((zlen (v :: vs) =? 0) = false) as -> by (apply Z.eqb_neq; zlens; pose proof (zlen_nonneg vs); lia).
  rewrite granted by done. cbn [negb]. rewrite (push_decode_frame_fwd _ _ _ _ Hf) by done.
  rbind. by rewrite <- app_assoc.
Qed.

Lemma decode_tag_map p vs r frames :
  Forall good_entry vs → fits (p ++ enc (ItemMap vs) ++ r) → zlen frames ≤ zlen p →
  decode_tag (cur p (enc (ItemMap vs) ++ r)) frames
  = match vs with
    | [] => Ok (Some (ItemMap []), frames, cur (p ++ enc (ItemMap [])) r)
    | (k, v) :: vs' =>
        let p' := p ++ MAP :: le_bytes 8 (zlen vs) in
        Ok (None, DecodeMap (zlen vs) [] (key_range (zlen p') k) (Some k) :: frames,
            cur (p' ++ str_bytes k) (enc v ++ enc_entries vs' ++ r))
    end.
Proof.
  intros Hg Hf Hl. pose proof (zlen_enc_entries vs Hg) as Hz.
  pose proof (zlen_nonneg p); pose proof (zlen_nonneg vs); pose proof (zlen_nonneg r).
  assert (zlen frames < zlen (p ++ enc (ItemMap vs) ++ r)) as Hfr.
  { unfold fits in Hf. rewrite enc_ItemMap in *. revert Hf. zlens. lia. }
  rewrite enc_ItemMap in *. unfold decode_tag. rewrite <- app_comm_cons, <- app_assoc in *.
  rewrite byte_fwd by done. rbind; cbv beta iota zeta; tag_test.
  rewrite collection_length_fwd; [|done|lia|unfold ENCODED_LENGTH_BYTES; zlens; lia|solve_fits].
  rbind; cbv beta iota zeta.
  destruct vs as [|[k v] vs]; [by rewrite <- app_assoc|].
  assert ((zlen ((k, v) :: vs) =? 0) = false) as -> by (apply Z.eqb_neq; zlens; pose proof (zlen_nonneg vs); lia).
  apply Forall_cons in Hg as [[Hk _] _].
  rewrite enc_entries_cons, <- !(app_assoc (str_bytes k)), <- !(app_assoc (enc v)) in *.
  rewrite map_key_fwd; [|done|solve_fits|done]. rbind; cbv beta iota zeta.
  rewrite (push_decode_frame_fwd _ _ _ _ Hf) by done.
  rbind. by rewrite <- !(app_assoc p), <- !app_comm_cons.
Qed.

(** The rest of the loop once [v] is complete. *)
Definition resume (n : nat) (v : DocumentItem) (frames : list DecodeFrame) (c : Cursor)
    : Result (DocumentItem * Cursor) :=
  '(next, c) ← complete_item v frames c;
  match next with inl v => Ok (v, c) | inr frames => item_loop n frames c end.

Definition item_fwd (v : DocumentItem) : Prop :=
  ∀ n frames p r, good v → fits (p ++ enc v ++ r) → zlen frames ≤ zlen p →
  item_loop (tags v + n) frames (cur p (enc v ++ r)) = resume n v frames (cur (p ++ enc v) r).

Lemma resume_list n done v m frames c :
  0 ≤ m →
  resume n v (DecodeList (1 + m) done :: frames) c
  = if m =? 0 then resume n (ItemList (done ++ [v])) frames c
    else item_loop n (DecodeList m (done ++ [v]) :: frames) c.
Proof.
  intros Hm. unfold resume. cbn [complete_item]. rewrite checked_sub_1 by lia. rbind.
  replace (1 + m - 1) with m by lia. by destruct (m =? 0).
Qed.

Lemma resume_map n done k v m prev frames c :
  0 ≤ m → Forall (λ p, lexZ p.1 k = Lt) done →
  resume n v (DecodeMap (1 + m) done prev (Some k) :: frames) c
  = if m =? 0 then resume n (ItemMap (done ++ [(k, v)])) frames c
    else '(range, k', c) ← map_key c (Some prev);
         item_loop n (DecodeMap m (done ++ [(k, v)]) range (Some k') :: frames) c.
Proof.
  intros Hm Hlt. unfold resume. cbn [complete_item]. rbind.
  rewrite btree_insert_last by done. rewrite checked_sub_1 by lia. rbind.
  replace (1 + m - 1) with m by lia. destruct (m =? 0); [done|].
  by destruct (map_key c (Some prev)) as [[[range k'] c']| |].
Qed.

Lemma list_fwd todo :
  Forall item_fwd todo → todo ≠ [] → Forall good todo → ∀ n done frames p r,
  fits (p ++ enc_list todo ++ r) → zlen frames < zlen p →
  item_loop (tags_list todo + n) (DecodeList (zlen todo) done :: frames)
    (cur p (enc_list todo ++ r))
  = resume n (ItemList (done ++ todo)) frames (cur (p ++ enc_list todo) r).
Proof.
  induction 1 as [|v todo Hv _ IH]; [done|]. intros _ [Hg Hgs]%Forall_cons n done frames p r Hf Hl.
  rewrite enc_list_cons, <- app_assoc in *. cbn [tags_list sum_list_with]. rewrite <- Nat.add_assoc.
  rewrite Hv; [|done|done|zlens; lia]. rewrite zlen_cons, resume_list by apply zlen_nonneg.
  destruct todo as [|v' todo']; [by rewrite app_nil_r|].
  rewrite (proj2 (Z.eqb_neq _ _)) by (zlens; pose proof (zlen_nonneg todo'); lia).
  rewrite IH; [by rewrite <- !app_assoc|done|done|solve_fits|].
  zlens. pose proof (zlen_nonneg (enc v)). lia.
Qed.

Lemma map_fwd todo :
  Forall (λ p, item_fwd p.2) todo → ∀ n done k v prev frames p r,
  item_fwd v → good v → Forall good_entry todo → keys_sorted ((k, v) :: todo) →
  Forall (λ p, lexZ p.1 k = Lt) done →
  fits (p ++ enc v ++ enc_entries todo ++ r) → zlen frames < zlen p →
  denotes (p ++ enc v ++ enc_entries todo ++ r) prev k →
  item_loop (tags v + (tags_entries todo + n))
    (DecodeMap (1 + zlen todo) done prev (Some k) :: frames)
    (cur p (enc v ++ enc_entries todo ++ r))
  = resume n (ItemMap (done ++ (k, v) :: todo)) frames (cur (p ++ enc v ++ enc_entries todo) r).
Proof.
  induction 1 as [|[k' v'] todo Hv' _ IH]; intros n done k v prev frames p r Hv Hg Hgs Hs Hlt Hf Hl Hd.
  - rewrite Hv; [|done|done|zlens; lia]. rewrite resume_map by done. cbn. by rewrite app_nil_r.
  - apply Forall_cons in Hgs as [[Hk' Hgv'] Hgs]. destruct Hs as [Hkk' Hs]. cbn [fst snd] in *.
    rewrite Hv; [|done|done|zlens; lia].
    rewrite resume_map by (try apply zlen_nonneg; done).
    rewrite (proj2 (Z.eqb_neq _ _)) by (zlens; pose proof (zlen_nonneg todo); lia).
    rewrite enc_entries_cons, <- !(app_assoc (str_bytes k')), <- !(app_assoc (enc v')) in *.
    rewrite map_key_fwd; [|done|solve_fits|].
    2: { exists k. split; [by rewrite <- app_assoc|done]. }
    rbind; cbv beta iota zeta. cbn [tags_entries sum_list_with]. rewrite <- Nat.add_assoc, zlen_cons.
    rewrite IH; [by rewrite <- !app_assoc|done..|by apply (Forall_lt_snoc _ k)|solve_fits| |].
    + zlens. pose proof (zlen_nonneg (enc v)); pose proof (zlen_nonneg (str_bytes k')). lia.
    + rewrite <- !(app_assoc _ (str_bytes k')). apply get_key_range.
Qed.

Lemma item_loop_S n frames c :
  item_loop (S n) frames c
  = '(completed, frames, c) ← decode_tag c frames;
    match completed with
    | None => item_loop n frames c
    | Some item => resume n item frames c
    end.
Proof. done. Qed.

Lemma item_fwd_all v : item_fwd v.
Proof.
  induction v as [s|vs IH|vs IH] using DocumentItem_nested_ind;
    intros n frames p r Hg Hf Hl; cbn [tags Nat.add]; rewrite item_loop_S.
  - cbn [enc] in *. rewrite decode_tag_scalar by done. by rbind.
  - apply good_ItemList in Hg. rewrite decode_tag_list by done.
    destruct vs as [|v vs]; rbind; [done|]. fold (tags_list (v :: vs)).
    rewrite list_fwd; [|done|done|done| |]; rewrite enc_ItemList in *.
    + by rewrite <- !app_assoc, <- app_comm_cons.
    + solve_fits.
    + zlens. lia.
  - apply good_ItemMap in Hg as [Hs Hg]. rewrite decode_tag_map by done.
    destruct vs as [|[k v] vs]; rbind; [done|]. cbv zeta. cbn [sum_list_with].
    fold (tags_entries vs). rewrite <- Nat.add_assoc, zlen_cons.
    apply Forall_cons in IH as [Hv IH]. apply Forall_cons in Hg as [[Hk Hgv] Hg].
    rewrite enc_ItemMap, enc_entries_cons, zlen_cons in *. cbn [fst snd] in *.
    rewrite map_fwd; [|done..| | |].
    + by rewrite <- !app_assoc, <- app_comm_cons, <- ?app_assoc.
    + solve_fits.
    + zlens. pose proof (zlen_nonneg (str_bytes k)). lia.
    + rewrite <- (app_assoc _ (str_bytes k)). apply get_key_range.
Qed.

Lemma tags_le v : good v → (tags v ≤ length (enc v))%nat.
Proof.
  induction v as [s|vs IH|vs IH] using DocumentItem_nested_ind; intros Hg; cbn [tags].
  - pose proof (enc_nonempty (ItemScalar s)) as Hn. destruct Hg as (_ & Hd & _). apply Hn in Hd. lia.
  - apply good_ItemList in Hg. rewrite enc_ItemList. cbn [length]. rewrite length_app.
    assert (sum_list_with tags vs ≤ length (enc_list vs))%nat; [|lia].
    induction IH as [|v vs Hv _ IH]; [done|]. apply Forall_cons in Hg as [? ?].
    rewrite enc_list_cons, length_app. cbn [sum_list_with]. specialize (IH H1). specialize (Hv H0). lia.
  - apply good_ItemMap in Hg as [_ Hg]. rewrite enc_ItemMap. cbn [length]. rewrite length_app.
    assert (sum_list_with (λ '(_, v), tags v) vs ≤ length (enc_entries vs))%nat; [|lia].
    induction IH as [|[k v] vs Hv _ IH]; [done|]. apply Forall_cons in Hg as [[_ ?] ?].
    rewrite enc_entries_cons, !length_app. cbn [sum_list_with fst snd] in *.
    specialize (IH H1). specialize (Hv H0). lia.
Qed.

Lemma cursor_item_fwd p v r :
  good v → fits (p ++ enc v ++ r) →
  cursor_item (cur p (enc v ++ r)) = Ok (v, cur (p ++ enc v) r).
Proof.
  intros Hg Hf. unfold cursor_item. pose proof (tags_le v Hg).
  replace (S _) with (tags v + (S (length (cursor_bytes (cur p (enc v ++ r)))) - tags v))%nat.
  - rewrite item_fwd_all; [done..|]. apply zlen_nonneg.
  - cbn [cur cursor_bytes]. rewrite !length_app. lia.
Qed.

Lemma get_root_tag v root :
  root_matches v root = true → get (FORMAT_VERSION :: enc v) 1 = Some (tag root).
Proof. by destruct v, root. Qed.

Lemma decode_enc v root :
  good v → root_matches v root = true → fits (FORMAT_VERSION :: enc v) →
  decode (FORMAT_VERSION :: enc v) root = Ok v.
Proof.
  intros Hg Hr Hf. unfold decode, validate_size.
  pose proof (zlen_enc_pos v (proj1 (proj2 Hg))) as Hp. rewrite (proj2 (Z.ltb_ge _ _)) by (zlens; lia). rbind.
  change (mkCursor (FORMAT_VERSION :: enc v) 0) with (cur [] (FORMAT_VERSION :: enc v)).
  rewrite byte_fwd by done. rbind; cbv beta iota zeta. cbn [negb]. rewrite Z.eqb_refl. cbn [negb].
  rewrite decide_True by (by apply get_root_tag).
  pose proof (cursor_item_fwd [FORMAT_VERSION] v [] Hg) as E. rewrite app_nil_r in E.
  cbn [app] in E |- *. rewrite E by done. rbind; cbv beta iota zeta.
  replace (position _) with (zlen (FORMAT_VERSION :: enc v)) by (cbn [cur position]; by zlens).
  by rewrite Z.eqb_refl, Hr.
Qed.
End inverse.
