(* ===== verification/DocumentValidate.v ===== *)
(** * The document validator agrees with the decoder

    [skip_item] walks a document without building values.  Erasing the values
    from the decoder's frames gives the validator's frames, and every step of
    one loop is matched by a step of the other, errors included. *)

From stdpp Require Import prelude gmap strings sorting.
From Stdlib Require Import ZArith Lia.
From S2P Require Import Prelude Machine Types Document DocumentCodec DocumentDecode.

Local Open Scope Z_scope.

Definition erase_frame (f : DecodeFrame) : ValidationFrame :=
  match f with
  | DecodeList n _ => ValidationList n
  | DecodeMap n _ range _ => ValidationMap n range
  end.

Definition erase (frames : list DecodeFrame) : list ValidationFrame := map erase_frame frames.

Definition erase_tag : option DocumentItem * list DecodeFrame * Cursor →
    bool * list ValidationFrame * Cursor :=
  λ '(completed, frames, c),
    (match completed with Some _ => true | None => false end, erase frames, c).

Definition erase_next : (DocumentItem + list DecodeFrame) * Cursor →
    option (list ValidationFrame) * Cursor :=
  λ '(next, c), (match next with inl _ => None | inr frames => Some (erase frames) end, c).

(** ** Fixed-width fields *)

Definition truncated : Error := corrupt "document is truncated".

Lemma take_cases p r n :
  fits (p ++ r) → 0 ≤ n ≤ 28 →
  (∃ s r', r = s ++ r' ∧ zlen s = n ∧ take (cur p r) n = Ok (s, cur (p ++ s) r'))
  ∨ (zlen r < n ∧ take (cur p r) n = Err truncated).
Proof.
  intros Hf Hn. destruct (Z.lt_ge_cases (zlen r) n) as [Hlt|Hge].
  - right. split; [done|]. unfold take, cur, checked_add; cbn [position cursor_bytes].
    unfold fits in Hf. rewrite zlen_app in Hf. pose proof (zlen_nonneg p); pose proof (zlen_nonneg r).
    rewrite (proj2 (Z.leb_le _ _)) by rlia. rbind.
    unfold get_range. rewrite zlen_app.
    destruct (_ && _) eqn:E; [|done]. lia.
  - left. exists (firstn (Z.to_nat n) r), (skipn (Z.to_nat n) r).
    assert (zlen (firstn (Z.to_nat n) r) = n) as Hz.
    { unfold zlen in *. rewrite length_firstn. lia. }
    rewrite firstn_skipn. split_and!; [done..|].
    rewrite <- (firstn_skipn (Z.to_nat n) r) at 1. apply take_fwd'; [done|].
    by rewrite firstn_skipn.
Qed.

(** A reader of [n] bytes. *)
Definition reads (f : Cursor → Result (Z * Cursor)) (n : Z) : Prop :=
  ∀ p r, fits (p ++ r) →
  (∃ x s r', r = s ++ r' ∧ zlen s = n ∧ f (cur p r) = Ok (x, cur (p ++ s) r'))
  ∨ (zlen r < n ∧ f (cur p r) = Err truncated).

Lemma reads_int_n n (conv : bytes → Z) :
  (n ≤ 28)%nat →
  reads (λ c, '(value, c) ← take c (Z.of_nat n); a ← as_array n value; Ok (conv a, c)) (Z.of_nat n).
Proof.
  intros Hn p r Hf. destruct (take_cases p r (Z.of_nat n)) as [(s & r' & -> & Hs & ->)|[? ->]];
    [done|lia| |by right].
  left. exists (conv s), s, r'. split_and!; [done..|]. rbind.
  rewrite as_array_len; [done|]. unfold zlen in Hs. lia.
Qed.

Lemma reads_i64 : reads cursor_i64 8.
Proof. by apply (reads_int_n 8); lia. Qed.
Lemma reads_i32 : reads cursor_i32 4.
Proof. by apply (reads_int_n 4); lia. Qed.
Lemma reads_u32 : reads cursor_u32 4.
Proof. by apply (reads_int_n 4); lia. Qed.

Lemma take_fwd_app p s r n :
  fits (p ++ s ++ r) → zlen s = n → take (cur p (s ++ r)) n = Ok (s, cur (p ++ s) r).
Proof. intros. by apply take_fwd'. Qed.

Lemma take_short p r n :
  fits (p ++ r) → 0 ≤ n ≤ 28 → zlen r < n → take (cur p r) n = Err truncated.
Proof.
  intros Hf Hn Hlt. destruct (take_cases p r n Hf Hn) as [(s & r' & -> & Hs & _)|[_ ->]]; [|done].
  rewrite zlen_app in Hlt. pose proof (zlen_nonneg r'). lia.
Qed.

(** ** One iteration *)

Lemma collection_length_le p r m n c :
  0 < m → collection_length (cur p r) m = Ok (n, c) → n ≤ zlen r.
Proof.
  unfold collection_length, encoded_length. intros Hm Hc.
  destruct (cursor_u64 (cur p r)) as [[x c']| |] eqn:Hu; [|done..]. rewrite bind_Ok_l in Hc.
  unfold cursor_u64 in Hu.
  destruct (take (cur p r) 8) as [[s c'']| |] eqn:Ht; [|done..]. rewrite bind_Ok_l in Hu.
  destruct (as_array 8 s); [|done..]. rewrite bind_Ok_l in Hu. injection Hu as _ <-.
  pose proof (take_post p r 8 ltac:(lia)) as Hp. rewrite Ht in Hp. destruct Hp as (r' & -> & _ & ->).
  rewrite remaining_cur in Hc. destruct (Z.ltb_spec (zlen r' / m) x); [done|].
  destruct (usize_try_from x) eqn:Hx; [|done]. injection Hc as -> _.
  unfold usize_try_from in Hx. destruct (_ <=? _); [|done]. injection Hx as ->.
  rewrite zlen_app. pose proof (zlen_nonneg s). pose proof (zlen_nonneg r').
  assert (zlen r' / m ≤ zlen r') by (apply Z.div_le_upper_bound; nia). lia.
Qed.

Lemma map_key_via_range p r previous :
  bytes_wf r → known (p ++ r) previous →
  map_key_range (cur p r) previous
  = (λ '(range, _, c), (range, c)) <$> map_key (cur p r) previous.
Proof.
  intros Hw Hk. pose proof (map_key_range_post p r previous Hw Hk) as Hp. unfold map_key.
  destruct (map_key_range (cur p r) previous) as [[range c]| |]; [|done..].
  destruct Hp as (k & -> & (Hs & r' & -> & ->) & _). rbind. cbv beta iota.
  rewrite cursor_bytes_cur, (index_range_Some _ _ _ _ (get_key_range p k r')). rbind.
  by rewrite (proj2 Hs).
Qed.

Section simulation.
Context `{Allocator}.
Hypothesis granted : ∀ b n, n ≤ isize_max → grant b n = true.

Lemma push_frames_sim frames f :
  zlen frames < isize_max →
  push_validation_frame (erase frames) (erase_frame f) = erase <$> push_decode_frame frames f.
Proof.
  intros Hl. unfold push_validation_frame, push_decode_frame, reserve_frames, erase.
  assert (zlen (map erase_frame frames) = zlen frames) as -> by (unfold zlen; by rewrite length_map).
  by rewrite !granted by lia.
Qed.

Ltac eval_tags :=
  repeat match goal with
  | |- context [?a =? ?b] =>
      first [change (a =? b) with true | change (a =? b) with false]
  end; cbn [orb]; cbv iota.
Ltac read_int lem :=
  match goal with
  | Hf : fits _ |- context [_ <$> (?f (cur ?p ?r) ≫= _)] =>
      destruct (lem p r) as [(? & ? & ? & -> & ? & ->)|[? ->]]; [solve_fits| |]
  end; rbind; cbv beta iota.
(** The fields of one [take], read one by one by the decoder. *)
Ltac skip_fields :=
  first
    [ rewrite take_short by (try solve_fits; zlens; lia); reflexivity
    | match goal with |- context [take (cur _ (?a ++ ?b ++ ?c ++ ?d ++ ?r)) _] =>
        replace (a ++ b ++ c ++ d ++ r) with ((a ++ b ++ c ++ d) ++ r) by (by rewrite <- !app_assoc)
      end; rewrite take_fwd_app by (try solve_fits; zlens; lia)
    | match goal with |- context [take (cur _ (?a ++ ?b ++ ?r)) _] =>
        replace (a ++ b ++ r) with ((a ++ b) ++ r) by (by rewrite <- app_assoc)
      end; rewrite take_fwd_app by (try solve_fits; zlens; lia)
    | rewrite take_fwd_app by (try solve_fits; zlens; lia) ];
  rbind; cbv beta iota; rewrite <- ?app_assoc.

Lemma skip_tag_sim p r frames :
  fits (p ++ r) → bytes_wf r → zlen frames < isize_max →
  skip_tag (cur p r) (erase frames) = erase_tag <$> decode_tag (cur p r) frames.
Proof.
  intros Hf Hw Hl. unfold skip_tag, decode_tag.
  pose proof (byte_post p r) as Hb. destruct (byte (cur p r)) as [[t c]| |]; [|done..].
  destruct Hb as (r0 & -> & ->). rbind. cbv beta iota zeta.
  assert (fits ((p ++ [t]) ++ r0)) as Hf0 by solve_fits. clear Hf. apply Forall_cons in Hw as [_ Hw].
  generalize dependent (p ++ [t]). clear p. intros p Hf.
  destruct (Z.eq_dec t NULL) as [->|NNULL]; [done|].
  destruct (Z.eq_dec t FALSE) as [->|NFALSE]; [done|].
  destruct (Z.eq_dec t TRUE) as [->|NTRUE]; [done|].
  destruct (Z.eq_dec t INTEGER) as [->|NINTEGER]; [eval_tags; read_int reads_i64; by skip_fields|].
  destruct (Z.eq_dec t FLOAT) as [->|NFLOAT].
  { eval_tags. destruct (cursor_u64 _) as [[x c]| |]; rbind; [|done..]. cbv beta iota.
    by destruct (validate_float_bits x). }
  destruct (Z.eq_dec t STRING) as [->|NSTRING].
  { eval_tags. by destruct (cursor_string _) as [[x c]| |]. }
  destruct (Z.eq_dec t BYTES) as [->|NBYTES].
  { eval_tags. by destruct (cursor_bytes_value _) as [[x c]| |]. }
  destruct (Z.eq_dec t DATE) as [->|NDATE]; [eval_tags; read_int reads_i64; by skip_fields|].
  destruct (Z.eq_dec t LOCAL_TIME) as [->|NLOCAL_TIME]; [eval_tags; read_int reads_i64; by skip_fields|].
  destruct (Z.eq_dec t ZONED_TIME) as [->|NZONED_TIME].
  { eval_tags. read_int reads_i64; [read_int reads_i32|]; by skip_fields. }
  destruct (Z.eq_dec t LOCAL_DATETIME) as [->|NLOCAL_DATETIME].
  { eval_tags. read_int reads_i64; [read_int reads_u32|]; by skip_fields. }
  destruct (Z.eq_dec t ZONED_DATETIME) as [->|NZONED_DATETIME].
  { eval_tags. read_int reads_i64; [read_int reads_u32|]; skip_fields; try done.
    by destruct (cursor_string _) as [[? ?]| |]. }
  destruct (Z.eq_dec t DURATION) as [->|NDURATION].
  { eval_tags. read_int reads_i64; [read_int reads_i64; [read_int reads_i64; [read_int reads_i32|]|]|];
      by skip_fields. }
  destruct (Z.eq_dec t LIST) as [->|NLIST].
  { eval_tags. destruct (collection_length _ 1) as [[n c]| |] eqn:Hc; rbind; [|done..].
    apply collection_length_le in Hc; [|lia]. cbv beta iota.
    destruct (n =? 0); [done|]. unfold fits in Hf. rewrite zlen_app in Hf.
    pose proof (zlen_nonneg p). rewrite granted by lia. cbn [negb].
    change (ValidationList n) with (erase_frame (DecodeList n [])). rewrite push_frames_sim by done.
    by destruct (push_decode_frame _ _). }
  destruct (Z.eq_dec t MAP) as [->|NMAP].
  { eval_tags. destruct (collection_length _ _) as [[n c]| |] eqn:Hc; rbind; [|done..]. cbv beta iota.
    destruct (n =? 0); [done|].
    pose proof (collection_length_post p r0 (ENCODED_LENGTH_BYTES + 1) Hw) as Hp.
    rewrite Hc in Hp. destruct Hp as (_ & r' & -> & ->).
    rewrite map_key_via_range by (try solve_wf; done).
    destruct (map_key _ _) as [[[range k] c]| |]; rbind; [|done..]. cbn [fmap outcome_fmap]. rbind. cbv beta iota.
    change (ValidationMap n range) with (erase_frame (DecodeMap n [] range (Some k))).
    rewrite push_frames_sim by done.
    by destruct (push_decode_frame _ _). }
  repeat (rewrite (proj2 (Z.eqb_neq t _)) by done). done.
Qed.

Lemma complete_skip_sim p r frames v :
  bytes_wf r → Forall (frame_inv (p ++ r)) frames →
  complete_skip (erase frames) (cur p r) = erase_next <$> complete_item v frames (cur p r).
Proof.
  intros Hw Hf. revert v. induction Hf as [|f frames Hi _ IH]; intros v; [done|].
  destruct f as [n vs|n vs prev pending]; cbn [erase map erase_frame complete_skip complete_item].
  - rewrite checked_sub_1 by apply Hi. rbind. destruct (n - 1 =? 0); [by apply IH|done].
  - destruct Hi as (Hn & _ & _ & k & -> & _ & Hd & Hlt). rbind.
    rewrite btree_insert_last, checked_sub_1 by done. rbind.
    destruct (n - 1 =? 0); [by apply IH|].
    rewrite map_key_via_range by (try done; by exists k).
    by destruct (map_key _ _) as [[[range k'] c]| |].
Qed.

Lemma zlen_stack_prefix frames : zlen frames ≤ zlen (stack_prefix frames).
Proof.
  induction frames as [|f frames IH]; [done|]. cbn [stack_prefix]. zlens.
  pose proof (frame_prefix_length f). unfold zlen in *. lia.
Qed.

Lemma skip_loop_sim fuel bs p0 frames r :
  bs = p0 ++ stack_prefix frames ++ r → fits bs → 1 ≤ zlen p0 → bytes_wf r →
  Forall (frame_inv bs) frames →
  skip_loop fuel (erase frames) (cur (p0 ++ stack_prefix frames) r)
  = snd <$> item_loop fuel frames (cur (p0 ++ stack_prefix frames) r).
Proof.
  revert frames r. induction fuel as [|fuel IH]; intros frames r Hbs Hf Hp0 Hw Hi; [done|].
  cbn [skip_loop item_loop].
  assert (zlen frames < isize_max).
  { pose proof (zlen_stack_prefix frames). unfold fits in Hf. rewrite Hbs in Hf. revert Hf. zlens.
    pose proof (zlen_nonneg r). lia. }
  rewrite skip_tag_sim; [|by rewrite <- app_assoc, <- Hbs|done..].
  pose proof (decode_tag_post (p0 ++ stack_prefix frames) r frames Hw) as Hp.
  destruct (decode_tag _ frames) as [[[[v|] frames'] c]| |]; [| |done..];
    cbn [fmap outcome_fmap erase_tag]; rbind; cbv beta iota.
  - destruct Hp as (-> & Hv & r' & -> & ->). apply Forall_app in Hw as [_ Hw].
    rewrite <- app_assoc in *.
    pose proof (complete_item_post bs p0 frames v r' Hbs Hw Hi Hv) as Hc.
    rewrite (complete_skip_sim _ _ _ v) by (rewrite <- ?app_assoc, <- ?Hbs; done).
    destruct (complete_item v frames _) as [[[w|frames'] c]| |]; [done| |done..].
    cbn [fmap outcome_fmap erase_next]; rbind; cbv beta iota.
    destruct Hc as (r'' & Hi' & Heq & -> & [s ->]). apply Forall_app in Hw as [_ Hw].
    apply IH; try done. by rewrite Hbs, Heq.
  - destruct Hp as (f & r' & -> & Hfi & -> & ->). apply Forall_app in Hw as [_ Hw].
    rewrite <- app_assoc in *. apply (IH (f :: frames)); try done.
    + rewrite Hbs. cbn [stack_prefix]. by rewrite <- !app_assoc.
    + constructor; [by rewrite Hbs|done].
Qed.

Lemma skip_item_sim p r :
  fits (p ++ r) → 1 ≤ zlen p → bytes_wf r →
  skip_item (cur p r) = snd <$> cursor_item (cur p r).
Proof.
  intros Hf Hp Hw. unfold skip_item, cursor_item. rewrite <- (app_nil_r p) at 2 4.
  by apply (skip_loop_sim _ (p ++ r) p []).
Qed.

Lemma root_of_tag v root r :
  document_free v = true → get (FORMAT_VERSION :: enc v ++ r) 1 = Some (tag root) →
  root_matches v root = true.
Proof. by destruct v as [[|[]| | | | | | | | | | | |]|vs|vs], root. Qed.

Lemma validate_sim bs root :
  fits bs → bytes_wf bs →
  validate_canonical bs root = (λ _, tt) <$> decode bs root.
Proof.
  intros Hf Hw. unfold validate_canonical, decode, validate_size.
  destruct (zlen bs <? 2); [done|]. rbind. change (mkCursor bs 0) with (cur [] bs).
  pose proof (byte_post [] bs) as Hb. destruct (byte (cur [] bs)) as [[t c]| |]; [|done..].
  destruct Hb as (r & -> & ->). rbind. cbv beta iota.
  destruct (Z.eqb_spec t FORMAT_VERSION) as [->|]; [|done]. cbn [negb].
  destruct (decide _) as [Ht|]; [|done]. apply Forall_cons in Hw as [_ Hw].
  rewrite skip_item_sim by done. pose proof (cursor_item_post ([] ++ [FORMAT_VERSION]) r Hw) as Hp.
  destruct (cursor_item _) as [[v c]| |]; [|done..]. destruct Hp as (Hg & r' & -> & ->).
  cbn [fmap outcome_fmap]; rbind; cbv beta iota. cbn [snd].
  destruct (_ =? _); cbn [negb]; [|done].
  rewrite (root_of_tag v root r'); [done|apply Hg|exact Ht].
Qed.
End simulation.
