(* ===== verification/DocumentTheorems.v ===== *)
(** * The document codec: its properties

    The totality of the encoder when allocations succeed, and the properties of
    the codec as a whole: encoding is injective up to float normalisation,
    decoding accepts exactly the canonical encodings, validation agrees with
    decoding, and no input makes any of them panic or loop. *)

From stdpp Require Import prelude gmap strings sorting.
From Stdlib Require Import ZArith Lia.
From S2P Require Import Prelude Machine Types Document DocumentCodec DocumentDecode DocumentValidate.

Local Open Scope Z_scope.

(** ** The encoder succeeds when its allocations do *)

Section total.
Context `{Allocator}.
Hypothesis granted : ∀ b n, n ≤ isize_max → grant b n = true.

Lemma push_byte_ok out b : zlen out + 1 ≤ isize_max → push_byte out b = Ok (out ++ [b]).
Proof. intros. unfold push_byte. by rewrite granted. Qed.

Lemma extend_output_ok out bs :
  zlen out + zlen bs ≤ isize_max → extend_output out bs = Ok (out ++ bs).
Proof. intros. unfold extend_output. by rewrite granted. Qed.

Lemma push_len_ok out n :
  zlen out + 8 ≤ isize_max → 0 ≤ n ≤ u64_max → push_len out n = Ok (out ++ le_bytes 8 n).
Proof.
  intros Ho Hn. unfold push_len, u64_try_from. rewrite (proj2 (Z.leb_le _ _)) by lia. rbind.
  apply extend_output_ok. by rewrite zlen_le_bytes.
Qed.

Lemma push_bytes_ok out s :
  zlen out + zlen (str_bytes s) ≤ isize_max → push_bytes out s = Ok (out ++ str_bytes s).
Proof.
  unfold str_bytes. zlens. intros Ho. pose proof (zlen_nonneg out); pose proof (zlen_nonneg s).
  unfold push_bytes. rewrite push_len_ok by rlia. rbind.
  rewrite extend_output_ok by (zlens; lia). by rewrite <- app_assoc.
Qed.

Ltac pushes_ok :=
  repeat (first [rewrite push_byte_ok by (zlens; lia) | rewrite extend_output_ok by (zlens; lia)
                | rewrite push_bytes_ok by (zlens; lia)]; rbind).

Lemma encode_scalar_ok out v :
  is_document v = false → zlen out + zlen (scalar_bytes v) ≤ isize_max →
  encode_scalar out v = Ok (out ++ scalar_bytes v).
Proof.
  destruct v as [|[]| | | | | | | | | | | |]; try done; intros _; cbn [scalar_bytes encode_scalar];
    zlens; intros Ho; try (pose proof (zlen_nonneg (str_bytes s)));
    try (pose proof (zlen_nonneg (str_bytes timezone))); pushes_ok; by rewrite <- ?app_assoc.
Qed.

(** Stack room a frame needs below the output written so far. *)
Definition frame_total (f : EncodeFrame) : Prop := ∀ n out st,
  frame_free f = true → zlen out + zlen (frame_bytes f) ≤ isize_max →
  zlen st + match f with EncodeItem _ => 1 | _ => 2 end ≤ zlen out →
  encode_loop (frame_fuel f + n) out (f :: st) = encode_loop n (out ++ frame_bytes f) st.

Lemma reserve_frames_ok {T} b (fr : list T) k :
  zlen fr + k ≤ isize_max → reserve_frames b fr k = Ok tt.
Proof. intros. unfold reserve_frames. by rewrite granted. Qed.

Lemma push_frame_ok fr f : zlen fr + 1 ≤ isize_max → push_frame fr f = Ok (f :: fr).
Proof. intros. unfold push_frame. by rewrite reserve_frames_ok. Qed.

Lemma list_frame_total vs :
  Forall (λ v, frame_total (EncodeItem v)) vs → frame_total (EncodeList vs).
Proof.
  induction 1 as [|v vs Hv Hvs IH]; intros n out st Hf Ho Hs.
  { simpl. by rewrite app_nil_r. }
  rewrite frame_fuel_list, Nat.add_succ_l, encode_loop_S, <- Nat.add_assoc. cbn [encode_frame].
  cbn [frame_bytes frame_free forallb] in *. apply andb_true_iff in Hf as [Hf Hfs].
  rewrite enc_list_cons, zlen_app in Ho.
  pose proof (zlen_nonneg (enc v)); pose proof (zlen_nonneg (enc_list vs)).
  rewrite reserve_frames_ok by lia. rbind.
  rewrite Hv; [|done|cbn [frame_bytes]; lia|zlens; lia]. cbn [frame_bytes].
  rewrite IH; [|done|cbn [frame_bytes]; zlens; lia|zlens; lia].
  by rewrite enc_list_cons, app_assoc.
Qed.

Lemma map_frame_total vs :
  Forall (λ p, frame_total (EncodeItem p.2)) vs → frame_total (EncodeMap vs).
Proof.
  induction 1 as [|[k v] vs Hv Hvs IH]; intros n out st Hf Ho Hs.
  { simpl. by rewrite app_nil_r. }
  cbn [snd] in Hv.
  rewrite frame_fuel_map, Nat.add_succ_l, encode_loop_S, <- Nat.add_assoc. cbn [encode_frame].
  cbn [frame_bytes frame_free forallb] in *. apply andb_true_iff in Hf as [Hf Hfs].
  rewrite enc_entries_cons, !zlen_app in Ho.
  pose proof (zlen_nonneg (enc v)); pose proof (zlen_nonneg (enc_entries vs));
    pose proof (zlen_nonneg (str_bytes k)).
  rewrite push_bytes_ok by lia. rbind. rewrite reserve_frames_ok by lia. rbind.
  rewrite Hv; [|done|cbn [frame_bytes]; zlens; lia|zlens; lia]. cbn [frame_bytes].
  rewrite IH; [|done|cbn [frame_bytes]; zlens; lia|zlens; lia].
  by rewrite enc_entries_cons, !app_assoc.
Qed.

Lemma container_step_total f t k n out st :
  frame_total f → frame_free f = true → 0 ≤ k ≤ u64_max →
  match f with EncodeItem _ => False | _ => True end →
  zlen out + 9 + zlen (frame_bytes f) ≤ isize_max → zlen st + 1 ≤ zlen out →
  container_step t k f (frame_fuel f + n) out st
  = encode_loop n (out ++ t :: le_bytes 8 k ++ frame_bytes f) st.
Proof.
  intros Hf Hff Hk Hc Ho Hs. pose proof (zlen_nonneg (frame_bytes f)). unfold container_step.
  rewrite push_byte_ok by lia. rbind. rewrite push_len_ok by (zlens; lia). rbind.
  rewrite push_frame_ok by lia. rbind. rewrite Hf; [by rewrite <- !app_assoc|done|zlens; lia|].
  destruct f; [done|zlens; lia..].
Qed.

Lemma empty_frame_total v t n out st :
  (v = ItemList [] ∧ t = LIST) ∨ (v = ItemMap [] ∧ t = MAP) → zlen out + 9 ≤ isize_max →
  encode_loop (S n) out (EncodeItem v :: st) = encode_loop n (out ++ t :: le_bytes 8 0) st.
Proof.
  intros Hv Ho. rewrite encode_loop_S.
  assert (encode_frame out (EncodeItem v) st =
            out ← push_byte out t; out ← push_len out 0; Ok (out, st)) as ->.
  { by destruct Hv as [[-> ->]|[-> ->]]. }
  rewrite push_byte_ok by lia. rbind. rewrite push_len_ok by (zlens; rlia). rbind.
  by rewrite <- app_assoc.
Qed.

Lemma item_frame_total v : frame_total (EncodeItem v).
Proof.
  induction v as [v|vs IH|vs IH] using DocumentItem_nested_ind; intros n out st Hf Ho Hs;
    cbn [frame_free frame_bytes document_free] in *.
  - change (frame_fuel (EncodeItem (ItemScalar v)) + n)%nat with (S n).
    rewrite encode_loop_S. cbn [encode_frame]. apply negb_true_iff in Hf.
    by rewrite encode_scalar_ok.
  - apply list_frame_total in IH. rewrite enc_ItemList in *. revert Ho. zlens. intros Ho.
    pose proof (free_zlen_enc_list vs Hf). destruct vs as [|v vs]; [by apply empty_frame_total; auto|].
    change (frame_fuel (EncodeItem (ItemList (v :: vs)))) with (S (frame_fuel (EncodeList (v :: vs)))).
    rewrite Nat.add_succ_l, encode_loop_list.
    apply container_step_total; try done; cbn [frame_bytes]; [|lia].
    pose proof (zlen_nonneg (v :: vs)). pose proof (zlen_nonneg out). rlia.
  - apply map_frame_total in IH. rewrite enc_ItemMap in *. revert Ho. zlens. intros Ho.
    pose proof (free_zlen_enc_entries vs Hf). destruct vs as [|v vs]; [by apply empty_frame_total; auto|].
    change (frame_fuel (EncodeItem (ItemMap (v :: vs)))) with (S (frame_fuel (EncodeMap (v :: vs)))).
    rewrite Nat.add_succ_l, encode_loop_map.
    apply container_step_total; try done; cbn [frame_bytes]; [|lia].
    pose proof (zlen_nonneg (v :: vs)). pose proof (zlen_nonneg out). rlia.
Qed.

Lemma encode_ok v root :
  root_matches v root = true → document_free v = true → fits (FORMAT_VERSION :: enc v) →
  encode v root = Ok (FORMAT_VERSION :: enc v).
Proof.
  unfold fits. zlens. intros Hr Hf Ho. unfold encode. rewrite Hr. cbn [negb].
  pose proof (zlen_nonneg (enc v)). rewrite push_byte_ok by (zlens; lia). rbind.
  unfold encode_item. rewrite push_frame_ok by (zlens; rlia). rbind.
  pose proof (item_frame_total v 0%nat ([] ++ [FORMAT_VERSION]) [] Hf) as Ht.
  rewrite Nat.add_0_r in Ht. cbn [frame_fuel frame_bytes] in Ht. cbv iota in Ht.
  rewrite Ht; [|zlens; lia|done]. rbind. cbn [app encode_loop]. rbind.
  by rewrite decide_True by (by apply get_1_enc).
Qed.
End total.

(** ** The codec *)

Ltac wf_parts :=
  unfold bytes_wf, str_bytes;
  repeat match goal with
  | |- Forall _ (_ ++ _) => apply Forall_app; split
  | |- Forall _ (_ :: _) => apply Forall_cons; split
  | |- Forall _ (le_bytes _ _) => apply le_bytes_wf
  | |- Forall _ [] => constructor
  end.

Lemma enc_wf v : item_wf v → bytes_wf (enc v).
Proof.
  induction v as [s|vs IH|vs IH] using DocumentItem_nested_ind; intros Hw.
  - inversion Hw as [? Hv| |]; subst. cbn [enc].
    destruct s as [|[]| | | | | | | | | | | |]; cbn [scalar_wf scalar_bytes] in *; wf_parts;
      first [by vm_compute|apply Hv].
  - inversion Hw as [|? Hvs|]; subst. rewrite enc_ItemList. wf_parts; [by vm_compute|]. clear Hw.
    induction IH as [|v vs Hv _ IH]; [constructor|]. apply Forall_cons in Hvs as [? ?].
    rewrite enc_list_cons. wf_parts; [by apply Hv|by apply IH].
  - inversion Hw as [| |? _ Hvs]; subst. rewrite enc_ItemMap. wf_parts; [by vm_compute|]. clear Hw.
    induction IH as [|[k v] vs Hv _ IH]; [constructor|]. apply Forall_cons in Hvs as [[Hk ?] ?].
    rewrite enc_entries_cons. wf_parts; [apply Hk|by apply Hv|by apply IH].
Qed.

Lemma roomy_grants b n : n ≤ isize_max → grant (Allocator := roomy) b n = true.
Proof. intros. by apply Z.leb_le. Qed.

Section codec.
Context `{Allocator}.

(** C1: every well-formed tree without scalar document wrappers whose encoding
    fits in the address space is encoded; the bytes decode to the tree with its
    floats normalised (one NaN, no negative zero), and pass validation. *)
Theorem document_roundtrip v root :
  (∀ b n, n ≤ isize_max → grant b n = true) →
  item_wf v → document_free v = true → root_matches v root = true →
  zlen (enc v) < isize_max →
  ∃ bs, encode v root = Ok bs ∧ decode bs root = Ok (canonical v)
        ∧ validate_canonical bs root = Ok tt.
Proof.
  intros granted Hw Hd Hr Hf. exists (FORMAT_VERSION :: enc v).
  assert (fits (FORMAT_VERSION :: enc v)) as Hfit by (unfold fits; zlens; lia).
  pose proof (canonical_good v Hw Hd) as Hg.
  assert (decode (FORMAT_VERSION :: enc v) root = Ok (canonical v)) as Hdec.
  { rewrite <- enc_canonical in *. apply decode_enc; try done. by destruct v. }
  split; [by apply encode_ok|]. split; [done|].
  rewrite validate_sim; [by rewrite Hdec|done|done|].
  constructor; [by vm_compute|]. by apply enc_wf.
Qed.

(** decoding accepts canonical encodings only: a tree it returns is well
    formed, in normal form, and re-encodes to the very bytes it was read from. *)
Theorem decode_canonical bs root v :
  (∀ b n, n ≤ isize_max → grant b n = true) → bytes_wf bs → zlen bs ≤ isize_max →
  decode bs root = Ok v →
  item_wf v ∧ canonical v = v ∧ encode v root = Ok bs.
Proof.
  intros granted Hw Hf Hd.
  destruct (post_Ok_inv _ _ _ (decode_post bs root Hw) Hd) as ((Hwf & Hfree & Hc) & Hr & ->).
  split; [done|]. split; [done|]. by apply encode_ok.
Qed.


(** C3: whatever the allocator refuses, the codec terminates without a panic.
    Decoding arbitrary bytes returns, and equal results come from equal bytes.
    Encoding returns the version byte and the recursive encoding of the tree, or
    the error of a failed allocation, of a nested scalar document, or of a root
    of the wrong kind. *)
Theorem codec_safe bs bs' root v u :
  bytes_wf bs → bytes_wf bs' →
  aborts (decode bs root) = false
  ∧ (decode bs root = Ok v → decode bs' root = Ok v → bs = bs')
  ∧ ((root_matches u root = true ∧ document_free u = true ∧ encode u root = Ok (FORMAT_VERSION :: enc u))
     ∨ (∃ e, encode u root = Err e ∧ (encode_error u e ∨ root_matches u root = false))).
Proof.
  intros Hw Hw'. pose proof (decode_post bs root Hw) as Hp. split_and!; [by eapply post_no_abort| |apply encode_cases].
  intros Hd Hd'. rewrite Hd in Hp. pose proof (decode_post bs' root Hw') as Hp'. rewrite Hd' in Hp'.
  destruct Hp as (_ & _ & ->), Hp' as (_ & _ & ->). done.
Qed.
End codec.

(** A map with a list, a non-canonical NaN and a negative zero. *)
Definition sample : DocumentItem :=
  ItemMap [([97], ItemList [ItemScalar (ScalarFloat 0x7ff8000000000001);
                            ItemScalar (ScalarFloat 0x8000000000000000)]);
           ([97; 98], ItemMap []);
           ([195; 169], ItemScalar (ScalarString [226; 130; 172]))].

Lemma sample_wf : item_wf sample.
Proof.
  constructor; [done|].
  repeat apply Forall_cons_2; try apply Forall_nil_2; (split; [decided|]).
  - constructor. repeat apply Forall_cons_2; try apply Forall_nil_2; constructor; decided.
  - constructor; [done|constructor].
  - constructor. decided.
Qed.

Lemma document_roundtrip_witness :
  ∃ bs, encode (H := roomy) sample RootMap = Ok bs
        ∧ decode (H := roomy) bs RootMap = Ok (canonical sample)
        ∧ validate_canonical (H := roomy) bs RootMap = Ok tt.
Proof.
  apply (document_roundtrip (H := roomy) sample RootMap);
    [exact roomy_grants|exact sample_wf|reflexivity|reflexivity|vm_compute; reflexivity].
Defined.

(** The bytes of a document with one key. *)
Definition sample_bytes : bytes :=
  [FORMAT_VERSION; MAP] ++ le_bytes 8 1 ++ str_bytes [107] ++ INTEGER :: le_bytes 8 (-2).

Lemma decode_canonical_witness :
  item_wf (ItemMap [([107], ItemScalar (ScalarInteger (-2)))])
  ∧ canonical (ItemMap [([107], ItemScalar (ScalarInteger (-2)))])
    = ItemMap [([107], ItemScalar (ScalarInteger (-2)))]
  ∧ encode (H := roomy) (ItemMap [([107], ItemScalar (ScalarInteger (-2)))]) RootMap = Ok sample_bytes.
Proof.
  apply (decode_canonical (H := roomy) sample_bytes RootMap);
    [exact roomy_grants|decided
    |vm_compute; discriminate|vm_compute; reflexivity].
Defined.


Lemma codec_safe_witness :
  aborts (decode (H := roomy) sample_bytes RootMap) = false
  ∧ encode (H := roomy) sample RootMap = Ok (FORMAT_VERSION :: enc sample).
Proof.
  destruct (codec_safe (H := roomy) sample_bytes [3] RootMap (ItemMap []) sample ltac:(decided) ltac:(decided))
    as (Ha & _ & [(_ & _ & He)|(e & He & _)]); [by split|]. vm_compute in He. discriminate He.
Defined.
