(* ===== verification/RadixMap.v ===== *)
(** * The persistent radix map

    [crates/graph/src/persistent.rs]: [RadixNode], [PersistentMap] and its
    iterator.  Keys are [u128]; a node at depth [d] splits on the nibble at
    bits [128 - 4 (d + 1)].  The model counts levels instead: a node at depth
    [d] has [RADIX_LEVELS - d] levels below it, so that the recursion of the
    code is structural.  [Arc] sharing is not observable through the operations
    modelled here and nodes are plain values. *)

From stdpp Require Import prelude gmap strings sorting.
From Stdlib Require Import ZArith Lia.
From S2P Require Import Prelude Machine Types.

Local Open Scope Z_scope.

Definition RADIX_BITS : Z := 4.
Definition RADIX_FANOUT : nat := 16.
Definition RADIX_LEVELS : nat := 32.
Definition RADIX_LEAF_CAPACITY : nat := 8.

#[local] Unset Elimination Schemes.
#[local] Set Warnings "-register-all".

Inductive RadixNode (V : Type) :=
| Branch (children : list (option (RadixNode V)))
| Leaf (entries : list (Z * V)).
Arguments Branch {V} children.
Arguments Leaf {V} entries.

#[local] Set Elimination Schemes.

(** [u128::leading_zeros]. *)
Definition leading_zeros (key : Z) : Z := if key =? 0 then 128 else 127 - Z.log2 key.

(** The nibble of [key] a branch with [levels] levels below its children
    splits on: [(key >> shift) & 15] with [shift = 4 * levels]. *)
Definition slot (levels : nat) (key : Z) : nat :=
  Z.to_nat (Z.land (Z.shiftr key (RADIX_BITS * Z.of_nat levels)) (2 ^ RADIX_BITS - 1)).

Section radix.
Context {V E : Type}.
Abbreviation node := (RadixNode V).
Abbreviation Result := (outcome E).

(** [binary_search_by_key] on entries in ascending key order: the position of
    the key, or where to insert it. *)
Fixpoint search (key : Z) (entries : list (Z * V)) : nat + nat :=
  match entries with
  | [] => inr O
  | (stored, _) :: rest =>
      match Z.compare stored key with
      | Eq => inl O
      | Gt => inr O
      | Lt => match search key rest with inl i => inl (S i) | inr i => inr (S i) end
      end
  end.

Definition leaf_get (key : Z) (entries : list (Z * V)) : option V :=
  match search key entries with
  | inl i => snd <$> entries !! i
  | inr _ => None
  end.

(** [children[slot]]. *)
Definition child (children : list (option node)) (i : nat) : option node := mjoin (children !! i).

(** The loop of [PersistentMap::get]. *)
Fixpoint get_node (levels : nat) (n : node) (key : Z) : option V :=
  match n with
  | Branch children =>
      match levels with
      | O => None
      | S l => match child children (slot l key) with Some c => get_node l c key | None => None end
      end
  | Leaf entries => leaf_get key entries
  end.

(** [get_radix_mut]: the value and the node with that value replaced. *)
Fixpoint get_radix_mut (levels : nat) (n : node) (key : Z) : option (V * (V → node)) :=
  match n with
  | Branch children =>
      match levels with
      | O => None
      | S l =>
          match child children (slot l key) with
          | Some c =>
              '(v, put) ← get_radix_mut l c key;
              Some (v, λ v', Branch (<[slot l key := Some (put v')]> children))
          | None => None
          end
      end
  | Leaf entries =>
      match search key entries with
      | inl i =>
          '(_, v) ← entries !! i;
          Some (v, λ v', Leaf (<[i := (key, v')]> entries))
      | inr _ => None
      end
  end.

(** [children.iter().any(Option::is_some)]. *)
Definition any_child (children : list (option node)) : bool :=
  existsb (λ o, match o with Some _ => true | None => false end) children.

Fixpoint remove_radix (levels : nat) (current : option node) (key : Z) : option node * option V :=
  match current with
  | Some (Leaf entries) =>
      match search key entries with
      | inr _ => (current, None)
      | inl i =>
          let removed := snd <$> entries !! i in
          let entries := take i entries ++ drop (S i) entries in
          (match entries with [] => None | _ => Some (Leaf entries) end, removed)
      end
  | Some (Branch children) =>
      match levels with
      | O => (current, None)
      | S l =>
          let s := slot l key in
          let '(replacement, removed) := remove_radix l (child children s) key in
          match removed with
          | None => (current, None)
          | Some _ =>
              let children := <[s := replacement]> children in
              (if any_child children then Some (Branch children) else None, removed)
          end
      end
  | None => (None, None)
  end.

Definition empty_children : list (option node) := repeat None RADIX_FANOUT.

(** Stores an entry in a leaf: [entries[index].1 = value] or
    [entries.insert(index, (key, value))]. *)
Definition leaf_insert (key : Z) (value : V) (entries : list (Z * V))
    : list (Z * V) * option V :=
  match search key entries with
  | inl i => (<[i := (key, value)]> entries, snd <$> entries !! i)
  | inr i => (take i entries ++ (key, value) :: drop i entries, None)
  end.

(** Inserts through one slot of a branch. *)
Definition insert_slot (insert : node → Z → V → Result (node * option V)) (levels : nat)
    (children : list (option node)) (key : Z) (value : V)
    : Result (list (option node) * option V) :=
  let s := slot levels key in
  match child children s with
  | Some c =>
      '(c, previous) ← insert c key value;
      Ok (<[s := Some c]> children, previous)
  | None => Ok (<[s := Some (Leaf [(key, value)])]> children, None)
  end.

Fixpoint split_entries (insert : node → Z → V → Result (node * option V)) (levels : nat)
    (children : list (option node)) (entries : list (Z * V)) : Result (list (option node)) :=
  match entries with
  | [] => Ok children
  | (key, value) :: rest =>
      '(children, _) ← insert_slot insert levels children key value;
      split_entries insert levels children rest
  end.

Fixpoint insert_radix_cow (levels : nat) (n : node) (key : Z) (value : V)
    : Result (node * option V) :=
  match n with
  | Branch children =>
      match levels with
      | O => Abort Panicked
      | S l =>
          '(children, previous) ← insert_slot (insert_radix_cow l) l children key value;
          Ok (Branch children, previous)
      end
  | Leaf entries =>
      let '(entries, previous) := leaf_insert key value entries in
      match levels with
      | O => Ok (Leaf entries, previous)
      | S l =>
          if decide (length entries ≤ RADIX_LEAF_CAPACITY)%nat then Ok (Leaf entries, previous)
          else
            children ← split_entries (insert_radix_cow l) l empty_children entries;
            Ok (Branch children, previous)
      end
  end.

(** ** [PersistentMap] *)

Record PersistentMap := mkMap {
  root : option node;
  root_depth : Z;
  map_len : Z;
}.

Definition PersistentMap_default : PersistentMap := mkMap None 0 0.

Definition levels_below (depth : Z) : nat := Z.to_nat (Z.of_nat RADIX_LEVELS - depth).

Definition len (m : PersistentMap) : Z := map_len m.

Definition get (m : PersistentMap) (key : Z) : option V :=
  n ← root m;
  if leading_zeros key / RADIX_BITS <? root_depth m then None
  else get_node (levels_below (root_depth m)) n key.

Definition contains_key (m : PersistentMap) (key : Z) : bool :=
  match get m key with Some _ => true | None => false end.

(** [while self.root_depth > key_depth]: each round adds a branch whose first
    child is the old root. *)
Fixpoint promote (rounds : nat) (n : node) : node :=
  match rounds with
  | O => n
  | S rounds => promote rounds (Branch (<[0%nat := Some n]> empty_children))
  end.

Definition insert_cow (m : PersistentMap) (key : Z) (value : V)
    : Result (PersistentMap * option V) :=
  let key_depth := Z.min (leading_zeros key / RADIX_BITS) (Z.of_nat RADIX_LEVELS - 1) in
  '(root', depth, previous) ←
    match root m with
    | Some n =>
        let '(n, depth) :=
          match n with
          | Leaf _ => (n, Z.min (root_depth m) key_depth)
          | Branch _ =>
              (promote (Z.to_nat (root_depth m - key_depth)) n, Z.min (root_depth m) key_depth)
          end in
        '(n, previous) ← insert_radix_cow (levels_below depth) n key value;
        Ok (n, depth, previous)
    | None => Ok (Leaf [(key, value)], key_depth, None)
    end;
  let count := match previous with None => map_len m + 1 | Some _ => map_len m end in
  Ok (mkMap (Some root') depth count, previous).

Definition insert (m : PersistentMap) (key : Z) (value : V)
    : Result (PersistentMap * option V) := insert_cow m key value.

Definition get_mut (m : PersistentMap) (key : Z) : option (V * (V → PersistentMap)) :=
  if leading_zeros key / RADIX_BITS <? root_depth m then None
  else
    n ← root m;
    '(v, put) ← get_radix_mut (levels_below (root_depth m)) n key;
    Some (v, λ v', mkMap (Some (put v')) (root_depth m) (map_len m)).

Definition remove (m : PersistentMap) (key : Z) : PersistentMap * option V :=
  if leading_zeros key / RADIX_BITS <? root_depth m then (m, None)
  else
    let '(r, removed) := remove_radix (levels_below (root_depth m)) (root m) key in
    match removed with
    | Some _ => (mkMap r (root_depth m) (saturating_sub (map_len m) 1), removed)
    | None => (m, None)
    end.

(** ** [PersistentMapIter] *)

Record Iter := mkIter { stack : list node; leaf : option (list (Z * V)) }.

Definition iter (m : PersistentMap) : Iter :=
  mkIter (match root m with Some n => [n] | None => [] end) None.

(** [for child in children.iter().rev().flatten() { stack.push(child) }]; the
    head of the list is the top of the stack. *)
Definition push_children (children : list (option node)) (st : list node) : list node :=
  omap id children ++ st.

Fixpoint next (fuel : nat) (it : Iter) : Result (option (Z * V) * Iter) :=
  match fuel with
  | O => Abort OutOfFuel
  | S fuel =>
      match leaf it with
      | Some (e :: rest) => Ok (Some e, mkIter (stack it) (Some rest))
      | _ =>
          match stack it with
          | [] => Ok (None, mkIter [] None)
          | Leaf entries :: st => next fuel (mkIter st (Some entries))
          | Branch children :: st => next fuel (mkIter (push_children children st) None)
          end
      end
  end.

(** A [for] loop over the iterator. *)
Fixpoint collect (fuel : nat) (it : Iter) : Result (list (Z * V)) :=
  match fuel with
  | O => Abort OutOfFuel
  | S fuel' =>
      '(e, it) ← next fuel it;
      match e with
      | None => Ok []
      | Some e => rest ← collect fuel' it; Ok (e :: rest)
      end
  end.

End radix.
Arguments PersistentMap V : clear implicits.
Arguments Iter V : clear implicits.

Section serde.
Context {V : Type}.

(** [Serialize] writes the entries in iteration order; [Deserialize] inserts
    them one by one. *)
Fixpoint visit_map (m : PersistentMap V) (entries : list (Z * V)) : outcome string (PersistentMap V) :=
  match entries with
  | [] => Ok m
  | (key, value) :: rest =>
      '(m, previous) ← insert m key value;
      match previous with
      | Some _ => Err "persistent map contains a duplicate key"%string
      | None => visit_map m rest
      end
  end.

Definition deserialize (entries : list (Z * V)) : outcome string (PersistentMap V) :=
  visit_map PersistentMap_default entries.
End serde.

Definition stable_id_key (id : Z) : Z := Z.shiftl id 64.

Definition stable_id_row (m : PersistentMap Z) (id : Z) : option Z :=
  match get m (stable_id_key id) with Some row => Some row | None => get m id end.

(** Nine keys that share every nibble but the last two split the root leaf. *)
Example nine_keys :
  let m := foldl (λ m k, m ← m; '(m, _) ← insert m k (10 * k); Ok m)
    (Ok PersistentMap_default : Result _) [17; 3; 1; 18; 2; 20; 19; 16; 33] in
  ∃ m', m = Ok m' ∧ len m' = 9 ∧ get m' 18 = Some 180 ∧ get m' 4 = None
        ∧ collect (E := Error) 100 (iter m') = Ok ((λ k, (k, 10 * k)) <$> [1; 2; 3; 16; 17; 18; 19; 20; 33]).
Proof. eexists. split; [vm_compute; reflexivity|]. repeat split. Qed.
