(* ===== verification/RadixMapTheorems.v ===== *)
(** * The radix map implements a finite map on [u128]

    [node_wf] is the shape every operation preserves: a node with [l] levels
    below it holds keys with one common prefix, leaves are sorted, non-empty
    and split before they outgrow their capacity, branches are non-empty.
    Under it, [get], [insert], [remove] and [get_mut] act on the finite map of
    the entries, and iteration yields them in ascending key order. *)

From stdpp Require Import prelude gmap strings sorting.
From Stdlib Require Import ZArith Lia.
From S2P Require Import Prelude Machine Types RadixMap.

Local Open Scope Z_scope.
#[local] Set Warnings "-clear-no-such-hyp".

(** ** Keys and nibbles *)

Definition u128 (k : Z) : Prop := 0 ≤ k < 2 ^ 128.

(** [k] without its low [levels] nibbles is [p]. *)
Definition in_prefix (levels : nat) (p k : Z) : Prop := 0 ≤ k ∧ k / 16 ^ Z.of_nat levels = p.

Lemma pow16_pos (n : nat) : 0 < 16 ^ Z.of_nat n.
Proof. apply Z.pow_pos_nonneg; lia. Qed.

Lemma pow16_S (n : nat) : 16 ^ Z.of_nat (S n) = 16 * 16 ^ Z.of_nat n.
Proof. rewrite Nat2Z.inj_succ, Z.pow_succ_r; lia. Qed.

Lemma slot_spec l k : Z.of_nat (slot l k) = (k / 16 ^ Z.of_nat l) mod 16.
Proof.
  unfold slot, RADIX_BITS. rewrite Z.shiftr_div_pow2 by lia.
  change (2 ^ 4 - 1) with (Z.ones 4). rewrite Z.land_ones by lia.
  rewrite Z.pow_mul_r by lia. change (2 ^ 4) with 16.
  rewrite Z2Nat.id; [done|]. apply Z.mod_pos_bound. lia.
Qed.

Lemma slot_lt l k : (slot l k < RADIX_FANOUT)%nat.
Proof.
  pose proof (slot_spec l k). pose proof (Z.mod_pos_bound (k / 16 ^ Z.of_nat l) 16 ltac:(lia)).
  unfold RADIX_FANOUT. lia.
Qed.

Lemma div_16 l k : k / 16 ^ Z.of_nat (S l) = k / 16 ^ Z.of_nat l / 16.
Proof. pose proof (pow16_pos l). rewrite pow16_S, Z.mul_comm, Z.div_div; lia. Qed.

Lemma in_prefix_child l p k :
  in_prefix (S l) p k ↔ in_prefix l (16 * p + Z.of_nat (slot l k)) k.
Proof.
  unfold in_prefix. rewrite slot_spec, div_16.
  pose proof (Z.div_mod (k / 16 ^ Z.of_nat l) 16 ltac:(lia)).
  pose proof (Z.mod_pos_bound (k / 16 ^ Z.of_nat l) 16 ltac:(lia)). lia.
Qed.

Lemma in_prefix_slot l p (i : nat) k :
  (i < RADIX_FANOUT)%nat → in_prefix l (16 * p + Z.of_nat i) k → slot l k = i ∧ in_prefix (S l) p k.
Proof.
  unfold in_prefix, RADIX_FANOUT. intros Hi [Hk Hp].
  assert (Z.of_nat (slot l k) = Z.of_nat i) as Hs.
  { rewrite slot_spec, Hp, Z.add_comm, Z.mul_comm, Z.mod_add, Z.mod_small; lia. }
  split; [lia|]. split; [done|]. rewrite div_16, Hp, Z.mul_comm, Z.div_add_l by lia.
  rewrite Z.div_small; lia.
Qed.

(** ** Sorted entries *)

Section entries.
Context {V : Type}.
Implicit Types (es : list (Z * V)) (k : Z) (v : V).

Definition sorted es : Prop := StronglySorted Z.lt (map fst es).

Lemma sorted_cons e es :
  sorted (e :: es) ↔ Forall (λ e', e.1 < e'.1) es ∧ sorted es.
Proof.
  unfold sorted. cbn [map]. split.
  - inversion 1 as [|? ? Hs Hf]; subst. split; [|done]. by rewrite Forall_map in Hf.
  - intros [Hf Hs]. constructor; [done|]. by rewrite Forall_map.
Qed.

Lemma sorted_app es es' :
  sorted (es ++ es') ↔ sorted es ∧ sorted es' ∧ ∀ e e', e ∈ es → e' ∈ es' → e.1 < e'.1.
Proof.
  induction es as [|e es IH]; [simpl; set_solver by constructor|].
  rewrite <- app_comm_cons, !sorted_cons, IH, Forall_app, !Forall_forall. set_solver.
Qed.

Lemma sorted_NoDup es : sorted es → NoDup es.*1.
Proof.
  induction es as [|e es IH]; [constructor|]. intros [Hf Hs]%sorted_cons.
  cbn. constructor; [|by apply IH]. intros (e' & He & Hin)%list_elem_of_fmap.
  rewrite Forall_forall in Hf. specialize (Hf _ Hin). lia.
Qed.

(** The two outcomes of a search. *)
Lemma search_spec k es :
  sorted es →
  match search k es with
  | inl i => ∃ v a b, es = a ++ (k, v) :: b ∧ length a = i
  | inr i => ∃ a b, es = a ++ b ∧ length a = i
      ∧ Forall (λ e, e.1 < k) a ∧ Forall (λ e, k < e.1) b
  end.
Proof.
  induction es as [|[k' v'] es IH]; intros Hs; simpl.
  { exists [], []. by repeat constructor. }
  apply sorted_cons in Hs as [Hf Hs]. specialize (IH Hs).
  destruct (Z.compare_spec k' k) as [->|Hlt|Hgt].
  - by exists v', [], es.
  - destruct (search k es) as [i|i].
    + destruct IH as (v & a & b & -> & <-). by exists v, ((k', v') :: a), b.
    + destruct IH as (a & b & -> & <- & Ha & Hb). exists ((k', v') :: a), b.
      split_and!; try done. by constructor.
  - exists [], ((k', v') :: es). split_and!; [done..|]. constructor; [done|].
    eapply Forall_impl; [exact Hf|]. simpl. lia.
Qed.

Lemma search_split k es :
  sorted es →
  (∃ v a b, es = a ++ (k, v) :: b ∧ search k es = inl (length a))
  ∨ (∃ a b, es = a ++ b ∧ search k es = inr (length a)
      ∧ Forall (λ e, e.1 < k) a ∧ Forall (λ e, k < e.1) b).
Proof.
  intros Hs. pose proof (search_spec k es Hs) as H. destruct (search k es) as [i|i].
  - left. destruct H as (v & a & b & -> & <-). eauto.
  - right. destruct H as (a & b & -> & <- & ? & ?). eauto 10.
Qed.

Lemma lookup_mid (a b : list (Z * V)) e : (a ++ e :: b) !! length a = Some e.
Proof. by rewrite list_lookup_middle. Qed.

Lemma drop_mid (a b : list (Z * V)) e : drop (S (length a)) (a ++ e :: b) = b.
Proof. induction a; [done|]. simpl. done. Qed.

Lemma sorted_mid (a b : list (Z * V)) e :
  sorted (a ++ e :: b) ↔
  sorted a ∧ sorted b ∧ Forall (λ x, x.1 < e.1) a ∧ Forall (λ x, e.1 < x.1) b
  ∧ ∀ x y, x ∈ a → y ∈ b → x.1 < y.1.
Proof.
  rewrite sorted_app, sorted_cons, !Forall_forall. split.
  - intros (Ha & [He Hb] & Hab). split_and!; auto; intros; [|apply Hab]; set_solver.
  - intros (Ha & Hb & Hae & Heb & Hab). split_and!; auto.
    intros x y Hx [->|Hy]%elem_of_cons; auto.
Qed.

Lemma leaf_get_elem k v es : sorted es → leaf_get k es = Some v ↔ (k, v) ∈ es.
Proof.
  intros Hs. unfold leaf_get.
  destruct (search_split k es Hs) as [(v0 & a & b & -> & ->)|(a & b & -> & -> & Ha & Hb)].
  - rewrite lookup_mid. cbn. apply sorted_mid in Hs as (_ & _ & Ha & Hb & _).
    rewrite Forall_forall in Ha, Hb. rewrite elem_of_app, elem_of_cons. split; [intros [= ->]; auto|].
    intros [Hin|[[= ->]|Hin]]; [|done|]; [specialize (Ha _ Hin)|specialize (Hb _ Hin)]; simpl in *; lia.
  - split; [done|]. rewrite Forall_forall in Ha, Hb.
    intros [Hin|Hin]%elem_of_app; [specialize (Ha _ Hin)|specialize (Hb _ Hin)]; simpl in *; lia.
Qed.

(** Two sorted entry lists with the same elements up to [k] agree off [k]. *)
Lemma leaf_get_off k v es es' :
  sorted es → sorted es' → (k, v) ∈ es' →
  (∀ k' v', k' ≠ k → (k', v') ∈ es' ↔ (k', v') ∈ es) →
  ∀ k', leaf_get k' es' = if decide (k' = k) then Some v else leaf_get k' es.
Proof.
  intros Hs Hs' Hin Hoff k'. destruct (decide (k' = k)) as [->|Hne].
  - by apply leaf_get_elem.
  - apply option_eq. intros v'. rewrite !leaf_get_elem by done. auto.
Qed.

Lemma leaf_get_cons k v es :
  sorted ((k, v) :: es) →
  leaf_get k es = None
  ∧ ∀ k', leaf_get k' ((k, v) :: es) = if decide (k' = k) then Some v else leaf_get k' es.
Proof.
  intros Hs. pose proof Hs as [Hf Hs']%sorted_cons. split.
  - apply eq_None_not_Some. intros [v' Hv']. apply leaf_get_elem in Hv'; [|done].
    rewrite Forall_forall in Hf. specialize (Hf _ Hv'). simpl in *. lia.
  - apply leaf_get_off; [done..|set_solver|set_solver].
Qed.

Lemma leaf_insert_spec k v es :
  sorted es →
  ∃ es', leaf_insert k v es = (es', leaf_get k es) ∧ sorted es' ∧ es' ≠ []
    ∧ (∀ e, e ∈ es' → e.1 = k ∨ e ∈ es)
    ∧ length es' = (length es + match leaf_get k es with None => 1 | Some _ => 0 end)%nat
    ∧ ∀ k', leaf_get k' es' = if decide (k' = k) then Some v else leaf_get k' es.
Proof.
  intros Hs. unfold leaf_insert, leaf_get at 1 2.
  destruct (search_split k es Hs) as [(v0 & a & b & -> & ->)|(a & b & -> & -> & Ha & Hb)].
  - rewrite lookup_mid. cbn. rewrite insert_app_r_alt, Nat.sub_diag by lia. cbn.
    exists (a ++ (k, v) :: b).
    assert (sorted (a ++ (k, v) :: b)) by (apply sorted_mid in Hs; by apply sorted_mid).
    split_and!; [done|done|by destruct a| |by rewrite !length_app|].
    + set_solver.
    + apply leaf_get_off; [done..|set_solver|set_solver].
  - rewrite take_app_length, drop_app_length. exists (a ++ (k, v) :: b).
    assert (sorted (a ++ (k, v) :: b)).
    { apply sorted_app in Hs as (Hsa & Hsb & Hab). by apply sorted_mid. }
    split_and!; [done|done|by destruct a|set_solver|rewrite !length_app; simpl; lia|].
    apply leaf_get_off; [done..|set_solver|set_solver].
Qed.

Lemma leaf_remove_spec k v es :
  sorted es → leaf_get k es = Some v →
  ∃ a b, es = a ++ (k, v) :: b ∧ search k es = inl (length a)
    ∧ sorted (a ++ b)
    ∧ ∀ k', leaf_get k' (a ++ b) = if decide (k' = k) then None else leaf_get k' es.
Proof.
  intros Hs Hg. unfold leaf_get in Hg.
  destruct (search_split k es Hs) as [(v0 & a & b & -> & Hse)|(a & b & -> & Hse & Ha & Hb)];
    rewrite Hse in Hg; [|done].
  rewrite lookup_mid in Hg. injection Hg as ->. exists a, b.
  pose proof Hs as (Hsa & Hsb & Ha & Hb & Hab)%sorted_mid.
  assert (sorted (a ++ b)) as Hs' by (apply sorted_app; auto).
  split_and!; [done..|]. intros k'. destruct (decide (k' = k)) as [->|Hne].
  - apply eq_None_not_Some. intros [v' Hv']. apply leaf_get_elem in Hv'; [|done].
    rewrite Forall_forall in Ha, Hb.
    apply elem_of_app in Hv' as [Hin|Hin]; [specialize (Ha _ Hin)|specialize (Hb _ Hin)]; simpl in *; lia.
  - apply option_eq. intros v'. rewrite !leaf_get_elem by done. set_solver.
Qed.
End entries.

(** ** Well-formed nodes *)

Section nodes.
Context {V E : Type}.
Abbreviation node := (RadixNode V).
Implicit Types (n c : node) (ch : list (option node)) (es : list (Z * V)) (k p : Z) (v : V) (l : nat).

Definition children_wf (wf : Z → node → Prop) p ch : Prop :=
  length ch = RADIX_FANOUT ∧ ∀ i c, child ch i = Some c → wf (16 * p + Z.of_nat i) c.

Fixpoint node_wf (l : nat) (p : Z) (n : node) : Prop :=
  match n with
  | Leaf es =>
      es ≠ [] ∧ sorted es ∧ Forall (λ e, in_prefix l p e.1) es
      ∧ (l = O ∨ length es ≤ RADIX_LEAF_CAPACITY)%nat
  | Branch ch =>
      match l with
      | O => False
      | S l => children_wf (node_wf l) p ch ∧ any_child ch = true
      end
  end.

(** [get_node] through the slot of a branch. *)
Definition get_children l ch k : option V :=
  match child ch (slot l k) with Some c => get_node l c k | None => None end.

Lemma get_Branch l ch k : get_node (S l) (Branch ch) k = get_children l ch k.
Proof. done. Qed.

Lemma get_Leaf l es k : get_node l (Leaf es) k = leaf_get k es.
Proof. by destruct l. Qed.

Lemma wf_Leaf l p es :
  node_wf l p (Leaf es) ↔
  es ≠ [] ∧ sorted es ∧ Forall (λ e, in_prefix l p e.1) es
  ∧ (l = O ∨ length es ≤ RADIX_LEAF_CAPACITY)%nat.
Proof. by destruct l. Qed.

Lemma child_insert ch i o j :
  length ch = RADIX_FANOUT → (i < RADIX_FANOUT)%nat →
  child (<[i := o]> ch) j = if decide (i = j) then o else child ch j.
Proof.
  intros Hl Hi. unfold child. destruct (decide (i = j)) as [<-|Hne].
  - by rewrite list_lookup_insert_eq by lia.
  - by rewrite list_lookup_insert_ne.
Qed.

Lemma child_lt ch i c : length ch = RADIX_FANOUT → child ch i = Some c → (i < RADIX_FANOUT)%nat.
Proof.
  intros <- Hc. apply lookup_lt_is_Some. unfold child in Hc. destruct (ch !! i); [done|discriminate].
Qed.

Lemma any_child_true ch : any_child ch = true ↔ ∃ i c, child ch i = Some c.
Proof.
  unfold any_child, child. split.
  - intros (o & Hin & Ho)%existsb_exists. apply list_elem_of_In, list_elem_of_lookup in Hin as [i Hi].
    destruct o as [c|]; [|done]. exists i, c. by rewrite Hi.
  - intros (i & c & Hc). destruct (ch !! i) as [o|] eqn:Hi; [|done]. cbn in Hc. subst o.
    apply existsb_exists. exists (Some c). split; [|done].
    by apply list_elem_of_In, list_elem_of_lookup_2 with i.
Qed.

Lemma child_empty i : child empty_children i = (None : option node).
Proof.
  unfold child, empty_children. destruct (repeat None RADIX_FANOUT !! i) as [o|] eqn:Ho; [|done].
  apply list_elem_of_lookup_2, list_elem_of_In, repeat_spec in Ho. by subst.
Qed.

Lemma empty_children_wf wf p : children_wf wf p (empty_children : list (option node)).
Proof. split; [done|]. intros i c. by rewrite child_empty. Qed.

Lemma get_prefix l p n k v : node_wf l p n → get_node l n k = Some v → in_prefix l p k.
Proof.
  revert p n. induction l as [|l IH]; intros p [ch|es]; simpl; try done.
  - intros (_ & Hs & Hf & _) Hg%leaf_get_elem; [|done]. by rewrite Forall_forall in Hf; apply (Hf (k, v)).
  - intros [[Hl Hc] _]. destruct (child ch (slot l k)) as [c|] eqn:Hch; [|done]. intros Hg.
    apply in_prefix_child. eapply IH; [|done]. by apply Hc.
  - intros (_ & Hs & Hf & _) Hg%leaf_get_elem; [|done]. by rewrite Forall_forall in Hf; apply (Hf (k, v)).
Qed.

Lemma singleton_wf l p k v : in_prefix l p k → node_wf l p (Leaf [(k, v)]).
Proof.
  intros Hk. assert (sorted [(k, v)]) by (repeat constructor).
  destruct l; simpl; (split_and!; [done|done|by apply Forall_singleton|unfold RADIX_LEAF_CAPACITY; lia]).
Qed.

Lemma get_singleton l k v k' :
  get_node l (Leaf [(k, v)]) k' = if decide (k' = k) then Some v else None.
Proof.
  destruct l; simpl; unfold leaf_get; simpl; destruct (Z.compare_spec k k') as [->|?|?];
    by destruct (decide _); try lia.
Qed.

(** ** Insertion *)

(** What inserting [v] at [k] does to a node, and to the children of a branch. *)
Definition inserts l p (ins : node → Z → V → outcome E (node * option V)) : Prop :=
  ∀ n k v, node_wf l p n → in_prefix l p k →
  ∃ n', ins n k v = Ok (n', get_node l n k) ∧ node_wf l p n'
    ∧ ∀ k', get_node l n' k' = if decide (k' = k) then Some v else get_node l n k'.

Lemma insert_slot_spec l p ins ch k v :
  (∀ p, inserts l p ins) → children_wf (node_wf l) p ch → in_prefix (S l) p k →
  ∃ ch', insert_slot ins l ch k v = Ok (ch', get_children l ch k)
    ∧ children_wf (node_wf l) p ch' ∧ any_child ch' = true
    ∧ ∀ k', get_children l ch' k' = if decide (k' = k) then Some v else get_children l ch k'.
Proof.
  intros Hins [Hl Hc] Hk. apply in_prefix_child in Hk as Hkc.
  pose proof (slot_lt l k) as Hs. unfold insert_slot, get_children.
  assert (∃ c', (match child ch (slot l k) with
                 | Some c => ins c k v | None => Ok (Leaf [(k, v)], None) end)
                = Ok (c', match child ch (slot l k) with Some c => get_node l c k | None => None end)
          ∧ node_wf l (16 * p + Z.of_nat (slot l k)) c'
          ∧ ∀ k', get_node l c' k' = if decide (k' = k) then Some v
                  else match child ch (slot l k) with Some c => get_node l c k' | None => None end)
    as (c' & Heq & Hw & Hget).
  { destruct (child ch (slot l k)) as [c|] eqn:Hch.
    - destruct (Hins _ c k v (Hc _ _ Hch) Hkc) as (c' & -> & ? & ?). eauto.
    - eexists. split; [done|]. split; [by apply singleton_wf|apply get_singleton]. }
  exists (<[slot l k := Some c']> ch).
  split.
  { destruct (child ch (slot l k)); [by rewrite Heq|by injection Heq as <-]. }
  split_and!.
  - split; [by rewrite length_insert|]. intros i c. rewrite child_insert by done.
    destruct (decide _) as [<-|]; [intros [= <-]; done|apply Hc].
  - apply any_child_true. exists (slot l k), c'. rewrite child_insert by done. by rewrite decide_True.
  - intros k'. rewrite child_insert by done.
    destruct (decide (slot l k = slot l k')) as [Hsl|Hsl]; [rewrite Hget, Hsl; done|].
    rewrite decide_False; [done|congruence].
Qed.

Lemma split_entries_spec l p ins es ch :
  (∀ p, inserts l p ins) → children_wf (node_wf l) p ch → sorted es →
  Forall (λ e, in_prefix (S l) p e.1) es →
  ∃ ch', split_entries ins l ch es = Ok ch'
    ∧ children_wf (node_wf l) p ch' ∧ (es ≠ [] ∨ any_child ch = true → any_child ch' = true)
    ∧ ∀ k, get_children l ch' k
           = match leaf_get k es with Some v => Some v | None => get_children l ch k end.
Proof.
  intros Hins. revert ch. induction es as [|[k v] es IH]; intros ch Hc Hs Hf.
  { exists ch. split_and!; [done..| |done]. by intros [?|?]. }
  pose proof Hs as [Hlt Hs']%sorted_cons. apply Forall_cons in Hf as [Hk Hf].
  destruct (insert_slot_spec l p ins ch k v Hins Hc Hk) as (ch1 & Heq & Hc1 & Hany & Hget).
  cbn [split_entries]. rewrite Heq. rbind.
  destruct (IH ch1 Hc1 Hs' Hf) as (ch2 & -> & Hc2 & Hany2 & Hget2). exists ch2.
  split_and!; [done|done|auto|].
  intros k'. destruct (leaf_get_cons _ _ _ Hs) as [Hn ->]. rewrite Hget2, Hget.
  destruct (decide (k' = k)) as [->|]; [by rewrite Hn|done].
Qed.

Lemma insert_radix_spec l p : inserts l p (insert_radix_cow l).
Proof.
  revert p. induction l as [|l IH]; intros p [ch|es] k v Hw Hk; [done| | |].
  - destruct Hw as (Hne & Hs & Hf & _). destruct (leaf_insert_spec k v es Hs)
      as (es' & Heq & Hs' & Hne' & Hin & _ & Hget).
    exists (Leaf es'). cbn [insert_radix_cow]. rewrite Heq. split; [done|]. split; [|done].
    split_and!; [done..| |by left]. rewrite Forall_forall in *.
    intros e [->|He]%Hin; [done|by apply Hf].
  - destruct Hw as [Hc Hany].
    destruct (insert_slot_spec l p _ ch k v IH Hc Hk) as (ch' & Heq & Hc' & Hany' & Hget).
    exists (Branch ch'). cbn [insert_radix_cow]. by rewrite Heq.
  - destruct Hw as (Hne & Hs & Hf & _). destruct (leaf_insert_spec k v es Hs)
      as (es' & Heq & Hs' & Hne' & Hin & _ & Hget).
    assert (Forall (λ e, in_prefix (S l) p e.1) es') as Hf'.
    { rewrite Forall_forall in *. intros e [->|He]%Hin; [done|by apply Hf]. }
    cbn [insert_radix_cow]. rewrite Heq. destruct (decide _) as [Hle|Hgt].
    + exists (Leaf es'). split; [done|]. split; [|done]. split_and!; [done..|by right].
    + destruct (split_entries_spec l p _ es' empty_children IH (empty_children_wf _ _) Hs' Hf')
        as (ch' & -> & Hc' & Hany' & Hget'). rbind. exists (Branch ch').
      split; [done|]. split; [split; auto|]. intros k'. rewrite get_Branch, Hget'.
      unfold get_children. rewrite child_empty. cbn [get_node]. rewrite <- Hget.
      by destruct (leaf_get k' es').
Qed.

(** ** Removal *)

Definition get_option l (o : option node) k : option V :=
  match o with Some n => get_node l n k | None => None end.

Definition option_wf l p (o : option node) : Prop :=
  match o with Some n => node_wf l p n | None => True end.

Definition removes l p (o : option node) k : Prop :=
  ∃ o', remove_radix l o k = (o', get_option l o k) ∧ option_wf l p o'
    ∧ (get_option l o k = None → o' = o)
    ∧ ∀ k', get_option l o' k' = if decide (k' = k) then None else get_option l o k'.

(** Nothing is removed: the node is kept. *)
Lemma removes_nothing l p o k :
  option_wf l p o → get_option l o k = None → remove_radix l o k = (o, None) → removes l p o k.
Proof.
  intros Hw Hg Hr. exists o. rewrite Hr, Hg. split_and!; try done.
  intros k'. by destruct (decide (k' = k)) as [->|].
Qed.

Lemma remove_leaf l p es k :
  option_wf l p (Some (Leaf es)) → removes l p (Some (Leaf es)) k.
Proof.
  intros Hw. pose proof Hw as (Hne & Hs & Hf & Hcap)%wf_Leaf.
  assert (∀ k', get_option l (Some (Leaf es)) k' = leaf_get k' es) as Hgl by (by destruct l).
  destruct (leaf_get k es) as [v|] eqn:Hg.
  - destruct (leaf_remove_spec k v es Hs Hg) as (a & b & -> & Hse & Hs' & Hget).
    exists (match a ++ b with [] => None | _ => Some (Leaf (a ++ b)) end).
    assert (remove_radix l (Some (Leaf (a ++ (k, v) :: b))) k
            = (match a ++ b with [] => None | _ => Some (Leaf (a ++ b)) end, Some v)) as ->.
    { destruct l; cbn [remove_radix]; rewrite Hse, lookup_mid, take_app_length, drop_mid;
        by destruct (a ++ b). }
    rewrite Hgl, Hg. split; [done|]. split; [|split; [done|]].
    + destruct (a ++ b) as [|e es] eqn:Hab; [done|]. rewrite <- Hab in *.
      assert (length (a ++ b) ≤ length (a ++ (k, v) :: b))%nat by (rewrite !length_app; simpl; lia).
      apply Forall_app in Hf as [? [? ?]%Forall_cons].
      apply wf_Leaf. split_and!; [by rewrite Hab|done|by apply Forall_app|lia].
    + intros k'. rewrite Hgl, <- Hget. destruct (a ++ b); [done|]. by destruct l.
  - apply removes_nothing; [done|by rewrite Hgl|].
    unfold leaf_get in Hg. assert (∃ i, search k es = inr i) as [i Hi].
    { destruct (search_split k es Hs) as [(v & a & b & -> & Hse)|(a & b & -> & Hse & _)]; [|eauto].
      rewrite Hse, lookup_mid in Hg. done. }
    destruct l; cbn [remove_radix]; by rewrite Hi.
Qed.

Lemma remove_radix_spec l p o k : option_wf l p o → removes l p o k.
Proof.
  revert p o. induction l as [|l IH]; intros p [[ch|es]|] Hw; try done;
    try (by apply remove_leaf); try (by exists None; split_and!; try done; intros; destruct (decide _)).
  destruct Hw as [[Hl Hc] Hany]. pose proof (slot_lt l k) as Hlt.
  destruct (IH (16 * p + Z.of_nat (slot l k)) (child ch (slot l k))) as (c' & Hr & Hw' & Hsame & Hget).
  { destruct (child ch (slot l k)) eqn:Hch; [by apply Hc|done]. }
  assert (get_option (S l) (Some (Branch ch)) k = get_option l (child ch (slot l k)) k) as Hg by done.
  destruct (get_option l (child ch (slot l k)) k) as [v|] eqn:Hv.
  2: { apply removes_nothing; [by split|by rewrite Hg|]. cbn [remove_radix]. by rewrite Hr. }
  set (ch' := <[slot l k := c']> ch).
  assert (∀ k', get_children l ch' k' = if decide (k' = k) then None else get_children l ch k') as Hgc.
  { intros k'. unfold get_children, ch'. rewrite child_insert by done.
    destruct (decide (slot l k = slot l k')) as [Hsl|Hsl].
    - rewrite <- Hsl. apply Hget.
    - rewrite decide_False; [done|congruence]. }
  exists (if any_child ch' then Some (Branch ch') else None).
  split; [cbn [remove_radix]; by rewrite Hr, Hg|]. split; [|split; [by rewrite Hg|]].
  - destruct (any_child ch') eqn:Ha; [|done]. split; [|done]. split; [unfold ch'; by rewrite length_insert|].
    intros i c. unfold ch'. rewrite child_insert by done. destruct (decide _) as [<-|]; [|apply Hc].
    intros ->. exact Hw'.
  - intros k'. cbn [get_option get_node]. fold (get_children l ch k'). rewrite <- Hgc.
    destruct (any_child ch') eqn:Ha; [done|]. cbn. unfold get_children.
    destruct (child ch' (slot l k')) as [c|] eqn:Hch; [|done].
    assert (any_child ch' = true) by (apply any_child_true; eauto). congruence.
Qed.

(** ** Update in place *)

Definition updates l p n k : Prop :=
  match get_radix_mut l n k with
  | None => get_node l n k = None
  | Some (v, put) => get_node l n k = Some v ∧ ∀ v', node_wf l p (put v')
      ∧ ∀ k', get_node l (put v') k' = if decide (k' = k) then Some v' else get_node l n k'
  end.

Lemma get_mut_leaf l p es k : node_wf l p (Leaf es) → updates l p (Leaf es) k.
Proof.
  intros (Hne & Hs & Hf & Hcap)%wf_Leaf. unfold updates. rewrite get_Leaf.
  assert (get_radix_mut l (Leaf es) k =
    match search k es with
    | inl i => '(_, v) ← es !! i; Some (v, λ v', Leaf (<[i := (k, v')]> es))
    | inr _ => None
    end) as -> by (by destruct l).
  destruct (search k es) as [i|i] eqn:Hse; [|unfold leaf_get; by rewrite Hse].
  pose proof (search_spec k es Hs) as Hsp. rewrite Hse in Hsp.
  destruct Hsp as (v & a & b & -> & <-). rewrite lookup_mid. cbn [mbind option_bind].
  assert (leaf_get k (a ++ (k, v) :: b) = Some v) as Hg by (unfold leaf_get; by rewrite Hse, lookup_mid).
  split; [done|]. intros v'.
  destruct (leaf_insert_spec k v' _ Hs) as (es' & Heq & Hs' & Hne' & Hin & Hlen & Hget).
  unfold leaf_insert in Heq. rewrite Hse in Heq. injection Heq as -> _.
  rewrite Hg, Nat.add_0_r in Hlen. split.
  - apply wf_Leaf. split_and!; [done|done| |by rewrite Hlen].
    rewrite Forall_forall in *. intros e He.
    destruct (Hin e He) as [->|He']; [|by apply Hf].
    apply (Hf (k, v)). set_solver.
  - intros k'. rewrite !get_Leaf. apply Hget.
Qed.

Lemma get_radix_mut_spec l p n k : node_wf l p n → updates l p n k.
Proof.
  revert p n. induction l as [|l IH]; intros p [ch|es] Hw; try done; try by apply get_mut_leaf.
  destruct Hw as [[Hl Hc] Hany]. pose proof (slot_lt l k) as Hlt.
  unfold updates. rewrite get_Branch. unfold get_children. cbn [get_radix_mut].
  destruct (child ch (slot l k)) as [c|] eqn:Hch; [|done].
  specialize (IH _ _ (Hc _ _ Hch)). unfold updates in IH.
  destruct (get_radix_mut l c k) as [[v put]|]; [|done]. cbn [mbind option_bind].
  destruct IH as [Hg Hput]. split; [done|]. intros v'. destruct (Hput v') as [Hw' Hget]. split.
  - split.
    + split; [by rewrite length_insert|]. intros i c'. rewrite child_insert by done.
      destruct (decide _) as [<-|]; [by intros [= <-]|apply Hc].
    + apply any_child_true. exists (slot l k), (put v'). rewrite child_insert by done.
      by rewrite decide_True.
  - intros k'. rewrite !get_Branch. unfold get_children. rewrite child_insert by done.
    destruct (decide (slot l k = slot l k')) as [Hsl|Hsl].
    + rewrite Hget, <- Hsl, Hch. done.
    + rewrite decide_False; [done|congruence].
Qed.

(** ** The entries of a node *)

Fixpoint entries_of (n : node) : list (Z * V) :=
  match n with
  | Leaf es => es
  | Branch ch => concat (map (λ o, match o with Some c => entries_of c | None => [] end) ch)
  end.

Definition child_entries (ch : list (option node)) : list (Z * V) :=
  concat (map (λ o, match o with Some c => entries_of c | None => [] end) ch).

Definition lists l n : Prop :=
  sorted (entries_of n) ∧ ∀ k v, (k, v) ∈ entries_of n ↔ get_node l n k = Some v.

Lemma child_cons o ch i :
  child (o :: ch) i = match i with O => o | S i => child ch i end.
Proof. by destruct i. Qed.

(** The blocks of consecutive children are sorted one after the other. *)
Lemma child_entries_spec l b ch :
  (∀ i c, child ch i = Some c → node_wf l (b + Z.of_nat i) c ∧ lists l c) →
  sorted (child_entries ch)
  ∧ (∀ k v, (k, v) ∈ child_entries ch ↔ ∃ i c, child ch i = Some c ∧ get_node l c k = Some v).
Proof.
  revert b. induction ch as [|o ch IH]; intros b Hc.
  { split; [constructor|]. intros k v. cbn. split; [by intros ?%not_elem_of_nil|].
    intros (i & c & Hi & _). by destruct i. }
  destruct (IH (b + 1)) as [Hs Hin].
  { intros i c Hi. replace (b + 1 + Z.of_nat i) with (b + Z.of_nat (S i)) by lia. by apply (Hc (S i)). }
  change (child_entries (o :: ch))
    with (match o with Some c => entries_of c | None => [] end ++ child_entries ch).
  split.
  - apply sorted_app. destruct o as [c|]; [|split_and!; [constructor|done|set_solver]].
    destruct (Hc O c eq_refl) as [Hw [Hsc Hic]]. split_and!; [done..|].
    intros [k v] [k' v'] He (i & c' & Hi & Hg)%Hin. apply Hic in He.
    destruct (get_prefix _ _ _ _ _ Hw He) as [_ Hp].
    destruct (Hc (S i) c' Hi) as [Hw' _]. destruct (get_prefix _ _ _ _ _ Hw' Hg) as [_ Hp']. cbn.
    pose proof (pow16_pos l). destruct (Z.lt_ge_cases k k'); [done|].
    assert (k' / 16 ^ Z.of_nat l ≤ k / 16 ^ Z.of_nat l) by (apply Z.div_le_mono; lia). lia.
  - intros k v. rewrite elem_of_app, Hin. split.
    + intros [He|(i & c & Hi & Hg)]; [|by exists (S i), c].
      destruct o as [c|]; [|by apply not_elem_of_nil in He].
      exists O, c. split; [done|]. by apply (Hc O c eq_refl).
    + intros ([|i] & c & Hi & Hg); [left|right; by exists i, c].
      cbn in Hi. subst o. by apply (Hc O c eq_refl).
Qed.

Lemma entries_spec l p n : node_wf l p n → lists l n.
Proof.
  revert p n. induction l as [|l IH]; intros p [ch|es] Hw; try done.
  - destruct Hw as (_ & Hs & _). split; [done|]. intros. by rewrite get_Leaf, leaf_get_elem.
  - destruct Hw as [[Hl Hc] _]. destruct (child_entries_spec l (16 * p) ch) as [Hs Hin].
    { intros i c Hi. specialize (Hc i c Hi). split; [done|]. by eapply IH. }
    split; [done|]. intros k v. change (entries_of (Branch ch)) with (child_entries ch).
    rewrite Hin, get_Branch. unfold get_children. split.
    + intros (i & c & Hi & Hg). pose proof (child_lt _ _ _ Hl Hi) as Hlt.
      destruct (in_prefix_slot l p i k Hlt) as [-> _]; [|by rewrite Hi].
      eapply get_prefix; [by apply Hc|done].
    + destruct (child ch (slot l k)) as [c|] eqn:Hi; [|done]. eauto.
  - destruct Hw as (_ & Hs & _). split; [done|]. intros. by rewrite get_Leaf, leaf_get_elem.
Qed.

Definition node_map n : gmap Z V := list_to_map (entries_of n).

Lemma node_map_lookup l p n k : node_wf l p n → node_map n !! k = get_node l n k.
Proof.
  intros [Hs Hin]%entries_spec. apply option_eq. intros v. rewrite <- Hin.
  symmetry. by apply elem_of_list_to_map, sorted_NoDup.
Qed.

Lemma node_map_size l p n : node_wf l p n → Z.of_nat (size (node_map n)) = zlen (entries_of n).
Proof.
  intros [Hs _]%entries_spec. unfold node_map, zlen. f_equal.
  rewrite <- length_map_to_list. apply Permutation_length.
  by apply map_to_list_to_map, sorted_NoDup.
Qed.
End nodes.

(** ** The map *)

Section map.
Context {V : Type}.
Implicit Types (m : PersistentMap V) (k : Z) (v : V).

Definition entries m : list (Z * V) :=
  match root m with Some n => entries_of n | None => [] end.

(** The finite map a [PersistentMap] stands for. *)
Definition to_map m : gmap Z V := list_to_map (entries m).

Definition map_inv m : Prop :=
  0 ≤ root_depth m ≤ 31 ∧ map_len m = zlen (entries m)
  ∧ option_wf (levels_below (root_depth m)) 0 (root m).

(** The test [key.leading_zeros() / RADIX_BITS < depth]. *)
Lemma depth_test k d :
  u128 k → 0 ≤ d ≤ 32 →
  (leading_zeros k / RADIX_BITS <? d) = negb (k <? 16 ^ Z.of_nat (levels_below d)).
Proof.
  unfold u128, leading_zeros, levels_below, RADIX_BITS, RADIX_LEVELS. intros Hk Hd.
  rewrite Z2Nat.id by lia. change 16 with (2 ^ 4). rewrite <- Z.pow_mul_r by lia.
  destruct (Z.eqb_spec k 0) as [->|Hk0].
  - rewrite (proj2 (Z.ltb_ge _ _)) by (change (128 / 4) with 32; lia).
    rewrite (proj2 (Z.ltb_lt _ _)); [done|]. apply Z.pow_pos_nonneg; lia.
  - pose proof (Z.log2_lt_pow2 k (4 * (32 - d)) ltac:(lia)) as Hlog.
    pose proof (Z.log2_nonneg k). pose proof (proj1 (Z.log2_lt_pow2 k 128 ltac:(lia)) ltac:(lia)).
    change (Z.of_nat 32) with 32.
    destruct (Z.ltb_spec k (2 ^ (4 * (32 - d)))); simpl; [apply Z.ltb_ge|apply Z.ltb_lt].
    + apply Z.div_le_lower_bound; lia.
    + apply Z.div_lt_upper_bound; lia.
Qed.

Lemma in_prefix_0 l k : 0 ≤ k → in_prefix l 0 k ↔ k < 16 ^ Z.of_nat l.
Proof.
  intros Hk. unfold in_prefix. pose proof (pow16_pos l). rewrite Z.div_small_iff by lia. lia.
Qed.

Lemma option_map_lookup l (o : option (RadixNode V)) k :
  option_wf l 0 o →
  (list_to_map (match o with Some n => entries_of n | None => [] end) : gmap Z V) !! k
  = get_option l o k.
Proof. destruct o as [n|]; [apply node_map_lookup|done]. Qed.

Lemma get_spec m k : map_inv m → u128 k → get m k = to_map m !! k.
Proof.
  intros (Hd & _ & Hw) Hk. unfold get, to_map, entries. rewrite (option_map_lookup _ _ _ Hw).
  destruct (root m) as [n|]; [|done]. cbn [mbind option_bind get_option].
  rewrite depth_test by (done || lia). destruct (Z.ltb_spec k (16 ^ Z.of_nat (levels_below (root_depth m)))); [done|].
  cbn. destruct (get_node _ n k) as [v|] eqn:Hg; [|done].
  apply (get_prefix _ _ _ _ _ Hw) in Hg as Hp. unfold u128 in Hk.
  apply in_prefix_0 in Hp; lia.
Qed.

(** A leaf root may sit at any shallower depth. *)
Lemma leaf_deepen l l' (es : list (Z * V)) :
  (1 ≤ l ≤ l')%nat → node_wf l 0 (Leaf es) → node_wf l' 0 (Leaf es).
Proof.
  intros Hl (Hne & Hs & Hf & Hcap)%wf_Leaf. apply wf_Leaf. split_and!; [done..| |lia].
  eapply Forall_impl; [exact Hf|]. intros e He. pose proof He as [He0 _].
  apply in_prefix_0 in He; [|done]. apply in_prefix_0; [done|].
  assert (16 ^ Z.of_nat l ≤ 16 ^ Z.of_nat l') by (apply Z.pow_le_mono_r; lia). lia.
Qed.

Lemma promote_spec rounds l (n : RadixNode V) :
  node_wf l 0 n →
  node_wf (rounds + l) 0 (promote rounds n)
  ∧ ∀ k, get_node (rounds + l) (promote rounds n) k = get_node l n k.
Proof.
  revert l n. induction rounds as [|rounds IH]; intros l n Hw; [done|].
  set (n' := Branch (<[0%nat := Some n]> empty_children)).
  assert (∀ i, child (<[0%nat := Some n]> empty_children) i
               = if decide (0%nat = i) then Some n else None) as Hch.
  { intros i. rewrite child_insert by (done || unfold RADIX_FANOUT; lia). by rewrite child_empty. }
  assert (node_wf (S l) 0 n') as Hw'.
  { split; [split; [done|]|done]. intros i c. rewrite Hch. by destruct (decide _) as [<-|]; intros [= <-]. }
  assert (∀ k, get_node (S l) n' k = get_node l n k) as Hg.
  { intros k. unfold n'. rewrite get_Branch. unfold get_children. rewrite Hch.
    destruct (decide _) as [Hs|Hs]; [done|]. destruct (get_node l n k) as [v|] eqn:Hv; [|done].
    apply (get_prefix _ _ _ _ _ Hw) in Hv.
    destruct (in_prefix_slot l 0 0 k ltac:(unfold RADIX_FANOUT; lia) Hv). congruence. }
  destruct (IH (S l) n' Hw') as [Hw'' Hg'']. cbn [promote Nat.add].
  rewrite <- Nat.add_succ_r. split; [done|]. intros k. by rewrite Hg''.
Qed.

Definition key_depth k : Z := Z.min (leading_zeros k / RADIX_BITS) (Z.of_nat RADIX_LEVELS - 1).

Lemma key_depth_range k : u128 k → 0 ≤ key_depth k ≤ 31.
Proof.
  unfold u128, key_depth, leading_zeros, RADIX_BITS, RADIX_LEVELS. intros Hk.
  destruct (Z.eqb_spec k 0) as [->|]; [done|].
  pose proof (proj1 (Z.log2_lt_pow2 k 128 ltac:(lia)) ltac:(lia)).
  assert (0 ≤ (127 - Z.log2 k) / 4) by (apply Z.div_pos; lia). lia.
Qed.

Lemma key_in_prefix k d : u128 k → 0 ≤ d ≤ key_depth k → in_prefix (levels_below d) 0 k.
Proof.
  intros Hk Hd. pose proof (key_depth_range k Hk). apply in_prefix_0; [apply Hk|].
  pose proof (depth_test k d Hk ltac:(lia)) as Ht.
  destruct (Z.ltb_spec k (16 ^ Z.of_nat (levels_below d))); [done|]. cbn in Ht.
  apply Z.ltb_lt in Ht. unfold key_depth in Hd. lia.
Qed.

(** The root that [insert_cow] descends into. *)
Definition promoted (n : RadixNode V) (d kd : Z) : RadixNode V :=
  match n with Leaf _ => n | Branch _ => promote (Z.to_nat (d - kd)) n end.

Lemma promoted_spec n d kd :
  0 ≤ d ≤ 31 → 0 ≤ kd → node_wf (levels_below d) 0 n →
  node_wf (levels_below (Z.min d kd)) 0 (promoted n d kd)
  ∧ ∀ k, get_node (levels_below (Z.min d kd)) (promoted n d kd) k = get_node (levels_below d) n k.
Proof.
  intros Hd Hkd Hw. destruct n as [ch|es]; cbn [promoted].
  - replace (levels_below (Z.min d kd)) with (Z.to_nat (d - kd) + levels_below d)%nat.
    + by apply promote_spec.
    + unfold levels_below, RADIX_LEVELS. lia.
  - split; [|intros k; by rewrite !get_Leaf]. eapply leaf_deepen; [|done].
    unfold levels_below, RADIX_LEVELS. lia.
Qed.

Lemma insert_cow_promoted {E} m k v :
  insert_cow (E := E) m k v =
    '(root', depth, previous) ←
      match root m with
      | Some n =>
          let depth := Z.min (root_depth m) (key_depth k) in
          '(n, previous) ← insert_radix_cow (levels_below depth)
                             (promoted n (root_depth m) (key_depth k)) k v;
          Ok (n, depth, previous)
      | None => Ok (Leaf [(k, v)], key_depth k, None)
      end;
    let count := match previous with None => map_len m + 1 | Some _ => map_len m end in
    Ok (mkMap (Some root') depth count, previous).
Proof. unfold insert_cow. by destruct (root m) as [[ch|es]|]. Qed.

(** The length bookkeeping of an update at [k]. *)
Lemma map_inv_of_node d (n : RadixNode V) count m k v :
  map_inv m → 0 ≤ d ≤ 31 → node_wf (levels_below d) 0 n →
  node_map n = <[k := v]> (to_map m) →
  count = map_len m + match to_map m !! k with None => 1 | Some _ => 0 end →
  map_inv (mkMap (Some n) d count).
Proof.
  intros (_ & Hl & Hw) Hd Hn Hmap Hc. split; [done|]. split; [|done]. cbn [map_len entries root].
  rewrite <- (node_map_size _ _ _ Hn), Hmap, map_size_insert, Hc, Hl.
  assert (zlen (entries m) = Z.of_nat (size (to_map m))) as ->.
  { unfold entries, to_map, entries. destruct (root m) as [n0|]; [|done].
    symmetry. by eapply node_map_size. }
  destruct (to_map m !! k); cbn; lia.
Qed.

Lemma insert_spec {E} m k v :
  map_inv m → u128 k →
  ∃ m', insert_cow (E := E) m k v = Ok (m', to_map m !! k) ∧ map_inv m'
    ∧ to_map m' = <[k := v]> (to_map m).
Proof.
  intros Hm Hk. pose proof Hm as (Hd & Hl & Hw). pose proof (key_depth_range k Hk) as Hkd.
  rewrite insert_cow_promoted.
  assert (∀ k, to_map m !! k = get_option (levels_below (root_depth m)) (root m) k) as Hlk
    by (intros; by apply option_map_lookup).
  destruct (root m) as [n|] eqn:Hr.
  - destruct (promoted_spec n (root_depth m) (key_depth k) Hd (proj1 Hkd) Hw) as [Hpw Hpg].
    cbv zeta. destruct (insert_radix_spec (E := E) _ 0 _ k v Hpw) as (n' & -> & Hw' & Hg').
    { apply key_in_prefix; [done|lia]. }
    rbind. rewrite Hpg. change (get_node _ n k) with (get_option (levels_below (root_depth m)) (Some n) k).
    rewrite <- Hlk. eexists. split; [done|].
    assert (node_map n' = <[k := v]> (to_map m)) as Hmap.
    { apply map_eq. intros k'. rewrite (node_map_lookup _ _ _ _ Hw'), Hg', Hpg.
      rewrite lookup_insert, Hlk. by destruct (decide (k' = k)), (decide (k = k')). }
    split; [|exact Hmap]. eapply map_inv_of_node; [done|lia|done|done|].
    destruct (to_map m !! k); lia.
  - rbind. assert (to_map m !! k = None) as Hn by (by rewrite Hlk). eexists. rewrite Hn. split; [done|].
    assert (node_map (Leaf [(k, v)]) = <[k := v]> (to_map m)) as Hmap.
    { unfold to_map, entries. by rewrite Hr. }
    split; [|exact Hmap]. eapply map_inv_of_node; [done|lia| |done|by rewrite Hn].
    apply singleton_wf, key_in_prefix; [done|lia].
Qed.

Lemma to_map_above m k :
  map_inv m → u128 k → 16 ^ Z.of_nat (levels_below (root_depth m)) ≤ k → to_map m !! k = None.
Proof.
  intros (Hd & Hl & Hw) Hk Hle. unfold to_map, entries. rewrite (option_map_lookup _ _ _ Hw).
  destruct (root m) as [n|]; [|done]. cbn [get_option].
  destruct (get_node _ n k) as [v|] eqn:Hv; [|done]. apply (get_prefix _ _ _ _ _ Hw) in Hv.
  apply in_prefix_0 in Hv; [lia|apply Hk].
Qed.

Lemma zlen_entries m : map_inv m → zlen (entries m) = Z.of_nat (size (to_map m)).
Proof.
  intros (_ & _ & Hw). unfold entries, to_map, entries. destruct (root m) as [n|]; [|done].
  symmetry. by eapply node_map_size.
Qed.

Lemma len_size m : map_inv m → len m = Z.of_nat (size (to_map m)).
Proof. intros Hm. rewrite <- zlen_entries by done. apply Hm. Qed.

Lemma remove_spec m k :
  map_inv m → u128 k →
  ∃ m', remove m k = (m', to_map m !! k) ∧ map_inv m' ∧ to_map m' = delete k (to_map m).
Proof.
  intros Hm Hk. pose proof Hm as (Hd & Hl & Hw). unfold remove. rewrite depth_test by (done || lia).
  destruct (Z.ltb_spec k (16 ^ Z.of_nat (levels_below (root_depth m)))) as [Hlt|Hge]; cbn [negb].
  2: { exists m. rewrite (to_map_above m k Hm Hk Hge). split_and!; [done..|].
       by rewrite delete_id by (by apply to_map_above). }
  destruct (remove_radix_spec _ 0 _ k Hw) as (o' & -> & Hw' & Hsame & Hget).
  assert (∀ k, to_map m !! k = get_option (levels_below (root_depth m)) (root m) k) as Hlk
    by (intros; by apply option_map_lookup).
  rewrite <- Hlk in *. destruct (to_map m !! k) as [v|] eqn:Hv.
  - set (m' := mkMap o' (root_depth m) (saturating_sub (map_len m) 1)).
    assert (to_map m' = delete k (to_map m)) as Hmap.
    { apply map_eq. intros k'. rewrite lookup_delete, Hlk.
      transitivity (get_option (levels_below (root_depth m)) o' k'); [by apply option_map_lookup|].
      rewrite Hget. by destruct (decide (k' = k)), (decide (k = k')). }
    exists m'. split_and!; [done| |done]. split; [done|]. split; [|done].
    assert (zlen (entries m') = Z.of_nat (size (to_map m'))) as ->.
    { unfold entries, to_map, entries. cbn [m' root]. destruct o' as [n|]; [|done].
      symmetry. by eapply node_map_size. }
    cbn [m' map_len]. rewrite Hmap, map_size_delete, Hv, Hl, (zlen_entries m Hm). unfold saturating_sub.
    cbn. lia.
  - exists m. split_and!; [done..|]. by rewrite delete_id.
Qed.

Lemma get_mut_spec m k :
  map_inv m → u128 k →
  match get_mut m k with
  | None => to_map m !! k = None
  | Some (v, put) => to_map m !! k = Some v
      ∧ ∀ v', map_inv (put v') ∧ to_map (put v') = <[k := v']> (to_map m)
  end.
Proof.
  intros Hm Hk. pose proof Hm as (Hd & Hl & Hw). unfold get_mut. rewrite depth_test by (done || lia).
  destruct (Z.ltb_spec k (16 ^ Z.of_nat (levels_below (root_depth m)))) as [Hlt|Hge]; cbn [negb].
  2: by apply to_map_above.
  assert (∀ k, to_map m !! k = get_option (levels_below (root_depth m)) (root m) k) as Hlk
    by (intros; by apply option_map_lookup).
  destruct (root m) as [n|] eqn:Hr; [|by rewrite Hlk]. cbn [mbind option_bind].
  pose proof (get_radix_mut_spec _ 0 n k Hw) as Hu. unfold updates in Hu.
  destruct (get_radix_mut _ n k) as [[v put]|]; [|by rewrite Hlk]. cbn.
  destruct Hu as [Hg Hput]. rewrite Hlk. split; [done|]. intros v'. destruct (Hput v') as [Hw' Hget].
  assert (node_map (put v') = <[k := v']> (to_map m)) as Hmap.
  { apply map_eq. intros k'. rewrite (node_map_lookup _ _ _ _ Hw'), Hget, lookup_insert, Hlk.
    by destruct (decide (k' = k)), (decide (k = k')). }
  split; [|done]. eapply map_inv_of_node; try done. rewrite Hlk. cbn. rewrite Hg. lia.
Qed.

(** ** Iteration *)

Fixpoint weight (n : RadixNode V) : nat :=
  match n with
  | Leaf es => S (length es)
  | Branch ch => S (sum_list_with (λ o, match o with Some c => weight c | None => O end) ch)
  end.

Definition iter_entries (it : Iter V) : list (Z * V) :=
  default [] (leaf it) ++ concat (map entries_of (stack it)).

Definition iter_weight (it : Iter V) : nat :=
  (length (default [] (leaf it)) + sum_list_with weight (stack it))%nat.

Lemma push_children_spec (ch : list (option (RadixNode V))) st :
  concat (map entries_of (push_children ch st)) = child_entries ch ++ concat (map entries_of st)
  ∧ S (sum_list_with weight (push_children ch st))
    = (weight (Branch ch) + sum_list_with weight st)%nat.
Proof.
  unfold push_children. induction ch as [|[c|] ch [IH1 IH2]]; [done| |].
  - cbn in *. rewrite IH1. split; [unfold child_entries; cbn; by rewrite app_assoc|]. lia.
  - exact (conj IH1 IH2).
Qed.

Lemma next_spec {E} fuel (it : Iter V) :
  (iter_weight it < fuel)%nat →
  ∃ it', next (E := E) fuel it = Ok (head (iter_entries it), it')
    ∧ iter_entries it' = tail (iter_entries it)
    ∧ (iter_entries it ≠ [] → iter_weight it' < iter_weight it)%nat.
Proof.
  revert it. induction fuel as [|fuel IH]; intros [st lf] Hf; [lia|].
  unfold iter_weight, iter_entries in *. cbn [leaf stack] in *.
  destruct lf as [[|e rest]|]; cbn [default] in *.
  2: { eexists. split; [done|]. cbn. split; [done|]. lia. }
  all: destruct st as [|[ch|es] st]; cbn [next leaf stack] in *; [by eexists| |].
  all: try (destruct (push_children_spec ch st) as [He Hs];
            destruct (IH (mkIter (push_children ch st) None)) as (it' & Hn & Hit & Hlt);
            [cbn in *; lia|]; exists it'; cbn [leaf stack default] in *;
            rewrite He in Hn, Hit, Hlt; cbn in *; split_and!; [done..|];
            intros Hne; specialize (Hlt Hne); lia).
  all: destruct (IH (mkIter st (Some es))) as (it' & Hn & Hit & Hlt);
       [cbn in *; lia|]; exists it'; cbn in *; split_and!; [done..|];
       intros Hne; specialize (Hlt Hne); lia.
Qed.

Lemma collect_spec {E} fuel (it : Iter V) :
  (iter_weight it < fuel)%nat → collect (E := E) fuel it = Ok (iter_entries it).
Proof.
  revert it. induction fuel as [|fuel IH]; intros it Hf; [lia|]. cbn [collect].
  destruct (next_spec (E := E) (S fuel) it Hf) as (it' & -> & Hit & Hlt). rbind.
  destruct (iter_entries it) as [|e es]; cbn; [done|].
  rewrite IH by (specialize (Hlt ltac:(done)); lia). rbind. by rewrite Hit.
Qed.

(** ** Serialization *)

Lemma entry_key_u128 m e : map_inv m → e ∈ entries m → u128 e.1.
Proof.
  intros (Hd & _ & Hw). unfold entries. destruct (root m) as [n|]; [|by intros ?%not_elem_of_nil].
  destruct e as [k v]. intros Hin. apply (entries_spec _ _ _ Hw) in Hin.
  apply (get_prefix _ _ _ _ _ Hw) in Hin as Hp. pose proof Hp as [Hk _].
  apply in_prefix_0 in Hp; [|done]. split; [done|]. cbn.
  change (2 ^ 128) with (16 ^ 32).
  assert (16 ^ Z.of_nat (levels_below (root_depth m)) ≤ 16 ^ 32).
  { apply Z.pow_le_mono_r; [lia|]. unfold levels_below, RADIX_LEVELS. lia. }
  lia.
Qed.

Lemma entries_sorted m : map_inv m → sorted (entries m).
Proof.
  intros (_ & _ & Hw). unfold entries. destruct (root m) as [n|]; [|constructor].
  by apply (entries_spec _ _ _ Hw).
Qed.

Lemma visit_map_spec m es :
  map_inv m → Forall (λ e, u128 e.1) es → NoDup es.*1 → Forall (λ e, to_map m !! e.1 = None) es →
  ∃ m', visit_map m es = Ok m' ∧ map_inv m' ∧ to_map m' = list_to_map es ∪ to_map m.
Proof.
  revert m. induction es as [|[k v] es IH]; intros m Hm Hu Hnd Hno.
  { exists m. split_and!; [done..|]. cbn. by rewrite (left_id_L ∅ (∪)). }
  apply Forall_cons in Hu as [Hk Hu]. apply NoDup_cons in Hnd as [Hnin Hnd].
  apply Forall_cons in Hno as [Hkn Hno]. cbn [fst] in *. cbn [visit_map]. unfold insert.
  destruct (insert_spec (E := string) m k v Hm Hk) as (m1 & -> & Hm1 & Hmap1). rbind. rewrite Hkn.
  destruct (IH m1 Hm1 Hu Hnd) as (m2 & -> & Hm2 & Hmap2).
  { rewrite Forall_forall in *. intros e He. rewrite Hmap1, lookup_insert_ne; [by apply Hno|].
    intros ->. apply Hnin. by apply list_elem_of_fmap_2. }
  exists m2. split_and!; [done..|]. rewrite Hmap2, Hmap1. cbn.
  rewrite <- insert_union_l. symmetry. apply insert_union_r.
  by apply not_elem_of_list_to_map_1.
Qed.

Lemma default_inv : map_inv (PersistentMap_default : PersistentMap V).
Proof. by split; [cbn; lia|]. Qed.

(** ** Operation sequences *)

Inductive map_op :=
| OpInsert (k : Z) (v : V)
| OpRemove (k : Z)
| OpGet (k : Z)
| OpUpdate (k : Z) (f : V → V).

Definition op_key (op : map_op) : Z :=
  match op with OpInsert k _ | OpRemove k | OpGet k | OpUpdate k _ => k end.

(** One call on the map, with the value it returns. *)
Definition map_step m (op : map_op) : Result (PersistentMap V * option V) :=
  match op with
  | OpInsert k v => insert m k v
  | OpRemove k => Ok (remove m k)
  | OpGet k => Ok (m, get m k)
  | OpUpdate k f => Ok (match get_mut m k with
                        | Some (v, put) => (put (f v), Some v)
                        | None => (m, None)
                        end)
  end.

Fixpoint map_run m (ops : list map_op) : Result (PersistentMap V * list (option V)) :=
  match ops with
  | [] => Ok (m, [])
  | op :: ops =>
      '(m, r) ← map_step m op;
      '(m, rs) ← map_run m ops;
      Ok (m, r :: rs)
  end.

(** The same calls on a finite map. *)
Definition spec_step (M : gmap Z V) (op : map_op) : gmap Z V * option V :=
  match op with
  | OpInsert k v => (<[k := v]> M, M !! k)
  | OpRemove k => (delete k M, M !! k)
  | OpGet k => (M, M !! k)
  | OpUpdate k f => (alter f k M, M !! k)
  end.

Fixpoint spec_run (M : gmap Z V) (ops : list map_op) : gmap Z V * list (option V) :=
  match ops with
  | [] => (M, [])
  | op :: ops =>
      let '(M, r) := spec_step M op in
      let '(M, rs) := spec_run M ops in (M, r :: rs)
  end.

Lemma map_step_spec m op :
  map_inv m → u128 (op_key op) →
  ∃ m', map_step m op = Ok (m', (spec_step (to_map m) op).2) ∧ map_inv m'
        ∧ to_map m' = (spec_step (to_map m) op).1.
Proof.
  intros Hm Hk. destruct op as [k v|k|k|k f]; cbn [map_step spec_step fst snd op_key] in *.
  - by apply insert_spec.
  - destruct (remove_spec m k Hm Hk) as (m' & -> & ? & ?). eauto.
  - exists m. by rewrite get_spec.
  - pose proof (get_mut_spec m k Hm Hk) as Hg. destruct (get_mut m k) as [[v put]|].
    + destruct Hg as [Hv Hput]. destruct (Hput (f v)) as [Hi Hmap].
      exists (put (f v)). rewrite Hv. split_and!; [done..|]. rewrite Hmap.
      apply map_eq. intros k'. destruct (decide (k' = k)) as [->|].
      * by rewrite lookup_insert_eq, lookup_alter_eq, Hv.
      * by rewrite lookup_insert_ne, lookup_alter_ne.
    + exists m. rewrite Hg. split_and!; [done..|]. symmetry. apply map_eq. intros k'.
      destruct (decide (k' = k)) as [->|]; [by rewrite lookup_alter_eq, Hg|by rewrite lookup_alter_ne].
Qed.

Lemma map_run_spec m ops :
  map_inv m → Forall (λ op, u128 (op_key op)) ops →
  ∃ m', map_run m ops = Ok (m', (spec_run (to_map m) ops).2) ∧ map_inv m'
        ∧ to_map m' = (spec_run (to_map m) ops).1.
Proof.
  intros Hm Hf. revert m Hm. induction Hf as [|op ops Hop _ IH]; intros m Hm; [by exists m|].
  cbn [map_run spec_run]. destruct (map_step_spec m op Hm Hop) as (m1 & -> & Hm1 & Hmap1). rbind.
  destruct (IH m1 Hm1) as (m2 & -> & Hm2 & Hmap2). rbind. exists m2.
  rewrite Hmap1 in Hmap2 |- *. destruct (spec_step (to_map m) op) as [M r]. cbn [fst snd] in *.
  by destruct (spec_run M ops) as [M' rs].
Qed.
End map.
Arguments map_op V : clear implicits.

(** ** Properties *)

(** C11: any sequence of insertions, removals, lookups and in-place updates with
    [u128] keys runs without a panic and returns, call by call, what the same
    calls return on a finite map; the length counts its entries. *)
Theorem radix_map_refines {V} (ops : list (map_op V)) :
  Forall (λ op, 0 ≤ op_key op < 2 ^ 128) ops →
  ∃ m, map_run PersistentMap_default ops = Ok (m, (spec_run ∅ ops).2)
       ∧ to_map m = (spec_run ∅ ops).1
       ∧ len m = Z.of_nat (size (to_map m)).
Proof.
  intros Hf. destruct (map_run_spec PersistentMap_default ops default_inv Hf) as (m & Hr & Hm & Hmap).
  exists m. split_and!; [done..|]. by apply len_size.
Qed.

Definition sample_ops : list (map_op Z) :=
  ((λ k, OpInsert (k * 2 ^ 124) k) <$> [0; 1; 2; 3; 4; 5; 6; 7; 8; 9])
  ++ [OpInsert 5 50; OpRemove (3 * 2 ^ 124); OpUpdate 5 (Z.add 1); OpGet 5; OpGet 0].

Lemma radix_map_refines_witness :
  ∃ m, map_run PersistentMap_default sample_ops = Ok (m, (spec_run ∅ sample_ops).2)
       ∧ to_map m = (spec_run ∅ sample_ops).1
       ∧ len m = Z.of_nat (size (to_map m)).
Proof. apply (radix_map_refines sample_ops). decided. Defined.

(** Deserializing the entries of a map gives a map with the same contents. *)
Lemma deserialize_entries {V} (m : PersistentMap V) :
  map_inv m → ∃ m', deserialize (entries m) = Ok m' ∧ to_map m' = to_map m ∧ len m' = len m.
Proof.
  intros Hm. destruct (visit_map_spec PersistentMap_default (entries m) default_inv) as (m' & Hv & Hm' & Hmap).
  - apply Forall_forall. intros e. by apply entry_key_u128.
  - by apply sorted_NoDup, entries_sorted.
  - by apply Forall_forall.
  - assert (to_map m' = to_map m) as Heq.
    { rewrite Hmap. change (to_map PersistentMap_default) with (∅ : gmap Z V).
      by rewrite (right_id_L ∅ (∪)). }
    exists m'. split_and!; [done|done|]. by rewrite !len_size, Heq.
Qed.

(** Iteration terminates and yields the entries in strictly ascending key
    order, each entry of the finite map exactly once; deserializing the entries
    a map serializes to gives a map with the same contents, whatever the shape
    of either tree. *)
Theorem radix_iteration {V} (m : PersistentMap V) fuel :
  map_inv m → (iter_weight (iter m) < fuel)%nat →
  ∃ es m', collect (E := Error) fuel (iter m) = Ok es
           ∧ StronglySorted Z.lt es.*1 ∧ es ≡ₚ map_to_list (to_map m)
           ∧ deserialize es = Ok m' ∧ to_map m' = to_map m ∧ len m' = len m.
Proof.
  intros Hm Hf. destruct (deserialize_entries m Hm) as (m' & Hd). exists (entries m), m'.
  rewrite collect_spec by done. split_and!; [| | |apply Hd..].
  - f_equal. unfold iter_entries, iter, entries. destruct (root m); cbn; [by rewrite app_nil_r|done].
  - by apply entries_sorted.
  - symmetry. by apply map_to_list_to_map, sorted_NoDup, entries_sorted.
Qed.

Definition sample_map : PersistentMap Z :=
  mkMap (Some (Leaf [(2, 20); (7, 70)])) 31 2.

Lemma sample_map_inv : map_inv sample_map.
Proof.
  split; [done|]. split; [done|]. apply wf_Leaf. split_and!; [done| | |right; vm_compute; lia].
  - repeat constructor.
  - repeat apply Forall_cons_2; try apply Forall_nil_2; by split.
Qed.

Lemma radix_iteration_witness :
  ∃ es m', collect (E := Error) 100 (iter sample_map) = Ok es
           ∧ StronglySorted Z.lt es.*1 ∧ es ≡ₚ map_to_list (to_map sample_map)
           ∧ deserialize es = Ok m' ∧ to_map m' = to_map sample_map ∧ len m' = len sample_map.
Proof. apply (radix_iteration sample_map 100 sample_map_inv). vm_compute. lia. Defined.
