(* ===== verification/Shared.v ===== *)
(** * Typed views of shared allocations

    [crates/graph/src/shared.rs]: [SharedFlat].  An allocation is an address
    range with the value each byte offset reads as; a view is a pointer into it
    and a length.  The theorem of this file is the obligation behind the unsafe
    code: every view the checked constructors return lies inside its
    allocation, is aligned, and reads the values it is meant to. *)

From stdpp Require Import prelude gmap strings sorting.
From Stdlib Require Import ZArith Lia.
From S2P Require Import Prelude Machine.

Local Open Scope Z_scope.

Section shared.
(** [width] is [size_of::<T>()], [align] is [align_of::<T>()]. *)
Context {T : Type} (width align : Z).
Abbreviation Result := (outcome string).

(** [SharedAllocation]: [base_ptr], [byte_len], and the value stored at a byte
    offset, if that part is initialised. *)
Record Allocation := mkAllocation {
  base_ptr : Z;
  byte_len : Z;
  value_at : Z → option T;
}.

Record SharedFlat := mkShared {
  allocation : Allocation;
  pointer : Z;
  shared_len : Z;
}.

(** [NonNull::dangling] is the alignment as an address. *)
Definition EmptyAllocation : Allocation := mkAllocation 1 0 (λ _, None).
Definition SharedFlat_empty : SharedFlat := mkShared EmptyAllocation align 0.

Definition SharedFlat_new (a : Allocation) (byte_offset len : Z) : Result SharedFlat :=
  bytes ← ok_or (checked_mul usize_max len width) "shared flat allocation size overflow"%string;
  end_ ← ok_or (checked_add usize_max byte_offset bytes) "shared flat allocation range overflow"%string;
  if width =? 0 then Err "zero-sized shared flat values are unsupported"%string
  else if len =? 0 then Ok SharedFlat_empty
  else if byte_len a <? end_ then Err "shared flat allocation range is out of bounds"%string
  else if base_ptr a =? 0 then Err "shared flat allocation has a null base pointer"%string
  else
    let p := base_ptr a + byte_offset in
    if negb (p mod align =? 0) then
      Err "shared flat allocation is not aligned for its value type"%string
    else if p =? 0 then Err "shared flat allocation pointer is null"%string
    else Ok (mkShared a p len).

Definition is_prefix_of (s extended : SharedFlat) : bool :=
  (base_ptr (allocation s) =? base_ptr (allocation extended))
  && (byte_len (allocation s) =? byte_len (allocation extended))
  && (pointer s =? pointer extended) && (shared_len s <=? shared_len extended).

Definition extended_prefix (s : SharedFlat) (len : Z) : Result SharedFlat :=
  if len <? shared_len s then Err "shared flat prefix extension cannot shrink"%string
  else
    byte_offset ← ok_or (checked_sub (pointer s) (base_ptr (allocation s)))
      "shared flat prefix starts before its allocation"%string;
    SharedFlat_new (allocation s) byte_offset len.

(** [from_raw_parts(pointer, len)]. *)
Definition as_slice (s : SharedFlat) : list T :=
  omap (λ i, value_at (allocation s) (pointer s - base_ptr (allocation s) + i * width))
    (seqZ 0 (shared_len s)).

Definition slice (s : SharedFlat) (start len : Z) : Result SharedFlat :=
  end_ ← ok_or (checked_add usize_max start len) "shared flat slice range overflow"%string;
  if shared_len s <? end_ then Err "shared flat slice is out of bounds"%string
  else
    current_offset ← ok_or (checked_sub (pointer s) (base_ptr (allocation s)))
      "shared flat pointer precedes its allocation"%string;
    byte_offset ← ok_or
      (offset ← checked_mul usize_max start width; checked_add usize_max current_offset offset)
      "shared flat slice byte range overflow"%string;
    SharedFlat_new (allocation s) byte_offset len.

(** ** Views stay inside their allocation *)

Hypothesis width_range : 0 ≤ width ≤ usize_max.
Hypothesis align_pos : 0 < align ≤ usize_max.
Hypothesis width_align : width mod align = 0.

(** What [unsafe trait SharedAllocation] asks of an implementation. *)
Definition allocation_ok (a : Allocation) : Prop :=
  0 ≤ byte_len a ∧ 0 < base_ptr a ∧ base_ptr a + byte_len a ≤ usize_max
  ∧ ∀ o, 0 ≤ o → o + width ≤ byte_len a → (base_ptr a + o) mod align = 0 → is_Some (value_at a o).

(** The range a view reads is inside the allocation and aligned. *)
Definition in_bounds (s : SharedFlat) : Prop :=
  0 ≤ shared_len s ≤ usize_max
  ∧ 0 ≤ base_ptr (allocation s) ≤ pointer s ∧ pointer s ≤ usize_max
  ∧ (0 < shared_len s →
     0 < width ∧ allocation_ok (allocation s)
     ∧ pointer s + shared_len s * width ≤ base_ptr (allocation s) + byte_len (allocation s)
     ∧ pointer s mod align = 0).

Lemma empty_in_bounds : in_bounds SharedFlat_empty.
Proof. unfold in_bounds; cbn. split; [rlia|]. split; [lia|]. split; [lia|]. lia. Qed.

Lemma new_post a o len :
  allocation_ok a → 0 ≤ o → 0 ≤ len →
  post (SharedFlat_new a o len) (λ s, in_bounds s ∧ shared_len s = len
    ∧ (0 < len → allocation s = a ∧ pointer s = base_ptr a + o)).
Proof.
  intros Ha Ho Hl. unfold SharedFlat_new.
  eapply post_bind; [apply post_ok_or; intros x Hx; exact Hx|]. intros bytes Hb.
  eapply post_bind; [apply post_ok_or; intros x Hx; exact Hx|]. intros end_ He. cbn beta.
  unfold checked_mul in Hb. unfold checked_add in He.
  destruct (_ <=? _) in Hb; [|done]. destruct (_ <=? _) in He; [|done].
  injection Hb as <-. injection He as <-.
  destruct (Z.eqb_spec width 0); [done|]. destruct (Z.eqb_spec len 0) as [->|].
  { split; [apply empty_in_bounds|]. cbn. lia. }
  destruct (Z.ltb_spec (byte_len a) (o + len * width)); [done|].
  destruct (_ =? 0); [done|]. destruct (Z.eqb_spec ((base_ptr a + o) mod align) 0); [|done].
  cbn [negb]. destruct (_ =? 0); [done|]. destruct Ha as (? & ? & ? & ?) eqn:EHa. clear EHa. cbn.
  split; [|done]. unfold in_bounds; cbn. split; [nia|]. split; [lia|]. split; [nia|]. intros _.
  split; [lia|]. split; [done|]. split; [lia|done].
Qed.

Lemma omap_all_Some {A B} (f : A → option B) (l : list A) (j : nat) :
  Forall (λ x, is_Some (f x)) l → omap f l !! j = l !! j ≫= f.
Proof.
  intros Hf. revert j. induction Hf as [|x l [y Hy] _ IH]; intros j; [by destruct j|].
  cbn. rewrite Hy. destruct j; [done|]. apply IH.
Qed.

Lemma row_aligned s i :
  pointer s mod align = 0 → (pointer s + i * width) mod align = 0.
Proof.
  rewrite !Z.mod_divide by lia. intros Hal. apply Z.divide_add_r; [done|].
  apply Z.divide_mul_r. apply Z.mod_divide; [lia|done].
Qed.

(** Every position of a view is initialised and aligned. *)
Lemma view_initialised s :
  in_bounds s →
  Forall (λ i, is_Some (value_at (allocation s)
                          (pointer s - base_ptr (allocation s) + i * width)))
    (seqZ 0 (shared_len s)).
Proof.
  intros (Hl & Hp & Hu & Hin). apply Forall_forall. intros i Hi%elem_of_seqZ.
  destruct Hin as (Hw & (? & ? & ? & Hinit) & Hend & Hal); [lia|].
  apply Hinit; [nia|nia|].
  replace (base_ptr (allocation s) + (pointer s - base_ptr (allocation s) + i * width))
    with (pointer s + i * width) by lia.
  by apply row_aligned.
Qed.

Lemma as_slice_lookup s (j : nat) :
  in_bounds s →
  as_slice s !! j
  = if Z.of_nat j <? shared_len s
    then value_at (allocation s) (pointer s - base_ptr (allocation s) + Z.of_nat j * width)
    else None.
Proof.
  intros Hb. unfold as_slice. rewrite omap_all_Some by (by apply view_initialised).
  destruct (Z.ltb_spec (Z.of_nat j) (shared_len s)).
  - by rewrite lookup_seqZ_lt by lia.
  - by rewrite lookup_seqZ_ge by lia.
Qed.

Lemma zlen_as_slice s : in_bounds s → zlen (as_slice s) = shared_len s.
Proof.
  intros Hb. unfold zlen, as_slice.
  assert (∀ l, Forall (λ i, is_Some (value_at (allocation s)
      (pointer s - base_ptr (allocation s) + i * width))) l →
    length (omap (λ i, value_at (allocation s)
      (pointer s - base_ptr (allocation s) + i * width)) l) = length l) as Hlen.
  { induction 1 as [|i l [v Hv] _ IH]; [done|]. cbn. rewrite Hv. cbn. by rewrite IH. }
  rewrite Hlen by (by apply view_initialised). rewrite length_seqZ. destruct Hb. lia.
Qed.

(** Slicing inside the view always succeeds, without touching the values. *)
Lemma slice_Ok s start len :
  in_bounds s → 0 < width → 0 ≤ start → 0 ≤ len → start + len ≤ shared_len s →
  slice s start len =
    Ok (if len =? 0 then SharedFlat_empty
        else mkShared (allocation s) (pointer s + start * width) len).
Proof.
  intros ((? & Hlen) & (? & Hptr) & Hu & Hin) Hw Hs Hl Hle.
  assert (start * width ≤ usize_max ∧ pointer s - base_ptr (allocation s) + start * width ≤ usize_max
          ∧ len * width ≤ usize_max
          ∧ pointer s - base_ptr (allocation s) + start * width + len * width ≤ usize_max
          ∧ (0 < len → pointer s - base_ptr (allocation s) + start * width + len * width
                       ≤ byte_len (allocation s))) as (? & ? & ? & ? & ?).
  { destruct (Z.eq_dec (shared_len s) 0).
    - assert (start = 0 ∧ len = 0) as [-> ->] by lia. rlia.
    - destruct Hin as (_ & (? & ? & ? & _) & Hend & _); [lia|].
      assert (start * width + len * width ≤ shared_len s * width) by nia. 
      assert (0 ≤ start * width) by nia. assert (0 ≤ len * width) by nia. lia. }
  unfold slice, checked_add, checked_sub, checked_mul.
  rewrite (proj2 (Z.leb_le (start + len) _)) by lia. rbind.
  rewrite (proj2 (Z.ltb_ge _ _)) by lia. rewrite (proj2 (Z.leb_le (base_ptr _) _)) by lia. rbind.
  rewrite (proj2 (Z.leb_le (start * width) _)) by lia. cbn [mbind option_bind].
  rewrite (proj2 (Z.leb_le _ _)) by lia. rbind.
  unfold SharedFlat_new, checked_add, checked_mul.
  rewrite (proj2 (Z.leb_le (len * width) _)) by lia. rbind.
  rewrite (proj2 (Z.leb_le _ _)) by lia. rbind.
  destruct (Z.eqb_spec width 0); [lia|]. destruct (Z.eqb_spec len 0); [done|].
  destruct Hin as (_ & (? & ? & ? & _) & Hend & Hal); [lia|].
  rewrite (proj2 (Z.ltb_ge _ _)) by lia. destruct (Z.eqb_spec (base_ptr (allocation s)) 0); [lia|].
  replace (base_ptr (allocation s) + (pointer s - base_ptr (allocation s) + start * width))
    with (pointer s + start * width) by lia.
  rewrite row_aligned by done. cbn [Z.eqb negb].
  destruct (Z.eqb_spec (pointer s + start * width) 0); [nia|done].
Qed.

Lemma slice_spec s start len :
  in_bounds s → 0 < width → 0 ≤ start → 0 ≤ len → start + len ≤ shared_len s →
  ∃ s', slice s start len = Ok s' ∧ in_bounds s' ∧ shared_len s' = len
    ∧ as_slice s' = take (Z.to_nat len) (drop (Z.to_nat start) (as_slice s)).
Proof.
  intros Hb Hw Hs Hl Hle. eexists. split; [by apply slice_Ok|].
  destruct (Z.eqb_spec len 0) as [->|Hl0].
  { split; [apply empty_in_bounds|]. done. }
  pose proof Hb as ((? & Hlen) & (? & Hptr) & Hu & Hin).
  destruct Hin as (_ & Ha & Hend & Hal); [lia|].
  assert (start * width + len * width ≤ shared_len s * width) by nia.
  assert (0 ≤ start * width) by nia. assert (0 ≤ len * width) by nia.
  assert (in_bounds (mkShared (allocation s) (pointer s + start * width) len)) as Hb'.
  { pose proof Ha as (? & ? & ? & _). unfold in_bounds; cbn. split; [lia|]. split; [lia|].
    split; [lia|]. intros _. split_and!; [done|done|lia|by apply row_aligned]. }
  split; [done|]. split; [done|]. apply list_eq. intros j. rewrite as_slice_lookup by done.
  cbn [shared_len allocation pointer].
  destruct (Z.ltb_spec (Z.of_nat j) len).
  - rewrite lookup_take_lt, lookup_drop, as_slice_lookup by (done || lia).
    rewrite (proj2 (Z.ltb_lt _ _)) by lia. f_equal. nia.
  - rewrite lookup_take_ge by lia. done.
Qed.

Lemma slice_post s start len :
  in_bounds s → 0 ≤ start → 0 ≤ len →
  post (slice s start len) (λ s', in_bounds s'
    ∧ as_slice s' = take (Z.to_nat len) (drop (Z.to_nat start) (as_slice s))).
Proof.
  intros Hb Hs Hl. destruct (Z.le_gt_cases (start + len) (shared_len s)) as [Hle|Hgt].
  - destruct (Z.eq_dec width 0) as [Hw|Hw].
    + unfold slice, SharedFlat_new.
      eapply (post_bind _ _ (λ _, True)); [by apply post_ok_or|intros ? _]. destruct (_ <? _); [done|].
      do 4 (eapply (post_bind _ _ (λ _, True)); [by apply post_ok_or|intros ? _]).
      by rewrite (proj2 (Z.eqb_eq _ _) Hw).
    + destruct (slice_spec s start len) as (s' & -> & ? & _ & ?); try done; lia.
  - unfold slice, checked_add. destruct (_ <=? _); [|done]. rbind.
    by rewrite (proj2 (Z.ltb_lt _ _)) by lia.
Qed.

Lemma extended_prefix_post s len :
  in_bounds s → allocation_ok (allocation s) →
  post (extended_prefix s len) (λ s', in_bounds s' ∧ shared_len s' = len
    ∧ as_slice s `prefix_of` as_slice s').
Proof.
  intros Hb Ha. unfold extended_prefix. destruct (Z.ltb_spec len (shared_len s)); [done|].
  pose proof Hb as (Hl & Hp & Hu & Hin). unfold checked_sub.
  rewrite (proj2 (Z.leb_le _ _)) by lia. rbind.
  eapply post_mono; [apply new_post; [done|lia|lia]|]. intros s' (Hb' & Hl' & Heq).
  split; [done|]. split; [done|]. destruct (Z.eq_dec (shared_len s) 0) as [Hz|Hz].
  - assert (as_slice s = []) as ->; [|apply prefix_nil].
    apply length_zero_iff_nil. pose proof (zlen_as_slice s Hb). unfold zlen in *. lia.
  - destruct Heq as [Hal Hptr]; [lia|].
    exists (drop (length (as_slice s)) (as_slice s')). apply list_eq. intros j.
    assert (Z.of_nat (length (as_slice s)) = shared_len s) as Hls by (by apply zlen_as_slice).
    destruct (Z.lt_ge_cases (Z.of_nat j) (shared_len s)).
    + rewrite lookup_app_l by lia. rewrite !as_slice_lookup by done.
      rewrite !(proj2 (Z.ltb_lt _ _)) by lia. rewrite Hal, Hptr. f_equal. lia.
    + rewrite lookup_app_r, lookup_drop by lia. f_equal. lia.
Qed.

(** The checked constructors of shared views establish what the unsafe
    reads rely on: a view of an allocation, and every slice or extension of
    it, stays inside the allocation, aligned and initialised; a slice reads
    exactly the selected range and an extension keeps the values it had. *)
Theorem shared_views_in_bounds a o n s start len :
  allocation_ok a → 0 ≤ o → 0 ≤ n → SharedFlat_new a o n = Ok s → 0 ≤ start → 0 ≤ len →
  in_bounds s ∧ zlen (as_slice s) = n
  ∧ post (slice s start len) (λ s', in_bounds s'
      ∧ as_slice s' = take (Z.to_nat len) (drop (Z.to_nat start) (as_slice s)))
  ∧ (0 < n → post (extended_prefix s len) (λ s', in_bounds s' ∧ shared_len s' = len
      ∧ as_slice s `prefix_of` as_slice s')).
Proof.
  intros Ha Ho Hn Hs Hst Hl.
  destruct (post_Ok_inv _ _ _ (new_post a o n Ha Ho Hn) Hs) as (Hb & Hlen & Heq).
  split; [done|]. split; [by rewrite zlen_as_slice|]. split; [by apply slice_post|].
  intros Hpos. apply extended_prefix_post; [done|]. by destruct (Heq Hpos) as [-> _].
Qed.
End shared.
Arguments Allocation T : clear implicits.
Arguments SharedFlat T : clear implicits.

(** Four little [u32] values at offsets 0, 4, 8 and 12 of one allocation. *)
Definition four_words : Allocation Z := mkAllocation 4096 16 (λ o, Some (o / 4 + 10)).
Definition last_three : SharedFlat Z := mkShared four_words 4100 3.

Lemma shared_views_in_bounds_witness :
  in_bounds 4 4 last_three ∧ zlen (as_slice 4 last_three) = 3
  ∧ post (slice 4 4 last_three 1 2) (λ s', in_bounds 4 4 s'
      ∧ as_slice 4 s' = take (Z.to_nat 2) (drop (Z.to_nat 1) (as_slice 4 last_three)))
  ∧ (0 < 3 → post (extended_prefix 4 4 last_three 2) (λ s', in_bounds 4 4 s' ∧ shared_len s' = 2
      ∧ as_slice 4 last_three `prefix_of` as_slice 4 s')).
Proof.
  apply (shared_views_in_bounds 4 4 ltac:(rlia) ltac:(rlia) eq_refl four_words 4 3 last_three 1 2);
    [|lia|lia|reflexivity|lia|lia].
  split; [cbn; lia|]. split; [cbn; lia|]. split; [cbn; rlia|]. intros; by eexists.
Defined.
