(* ===== verification/PagedVec.v ===== *)
(** * The paged vector

    [crates/graph/src/persistent.rs]: [ValuePage], [PageLeaf], [PageDirectory]
    and [PagedVec].  The directory is a map from reversed leaf numbers to
    leaves of 256 page slots.  What the vector needs of that map is the class
    [LeafMap]; [RadixMapTheorems.v] provides the implementation the code uses.
    [Arc::make_mut] copies a shared node before it is changed, so a value is
    never changed behind a clone and the model passes values.

    [usize] additions that the code leaves unchecked panic in the model when
    they overflow; the theorems show they do not. *)

From stdpp Require Import prelude gmap strings sorting.
From Stdlib Require Import ZArith Lia.
From S2P Require Import Prelude Machine Shared.

Local Open Scope Z_scope.

Abbreviation Result := (outcome string).

Definition PAGE_BYTES : Z := 16 * 1024.
Definition MAX_PAGE_ELEMENTS : Z := 4096.
Definition PAGES_PER_LEAF : Z := 256.

Definition page_capacity (width : Z) : Z :=
  clamp 1 MAX_PAGE_ELEMENTS (PAGE_BYTES / Z.max width 1).

(** [reverse_bits] on [n]-bit integers. *)
Fixpoint reverse_bits (n : nat) (x : Z) : Z :=
  match n with
  | O => 0
  | S n => x mod 2 * 2 ^ Z.of_nat n + reverse_bits n (x / 2)
  end.

(** ** The map of leaves *)

Class LeafMap (M L : Type) := {
  lm_default : M;
  lm_get : M → Z → option L;
  lm_insert : M → Z → L → Result (M * option L);
  lm_get_mut : M → Z → option (L * (L → M));
  lm_remove : M → Z → M * option L;
}.

(** The contract: the operations act on a finite map over [u128] keys. *)
Class LeafMapSpec (M L : Type) `{LeafMap M L} := {
  lm_inv : M → Prop;
  lm_map : M → gmap Z L;
  lm_default_spec : lm_inv lm_default ∧ lm_map lm_default = ∅;
  lm_get_spec m k : lm_inv m → 0 ≤ k < 2 ^ 128 → lm_get m k = lm_map m !! k;
  lm_insert_spec m k l : lm_inv m → 0 ≤ k < 2 ^ 128 →
    ∃ m', lm_insert m k l = Ok (m', lm_map m !! k) ∧ lm_inv m' ∧ lm_map m' = <[k := l]> (lm_map m);
  lm_get_mut_spec m k : lm_inv m → 0 ≤ k < 2 ^ 128 →
    match lm_get_mut m k with
    | None => lm_map m !! k = None
    | Some (l, put) => lm_map m !! k = Some l
        ∧ ∀ l', lm_inv (put l') ∧ lm_map (put l') = <[k := l']> (lm_map m)
    end;
  lm_remove_spec m k : lm_inv m → 0 ≤ k < 2 ^ 128 →
    ∃ m', lm_remove m k = (m', lm_map m !! k) ∧ lm_inv m' ∧ lm_map m' = delete k (lm_map m);
}.

Section paged.
Context {T : Type} (width align : Z).

Inductive ValuePage :=
| Owned (values : list T)
| SharedPage (values : SharedFlat T).

Definition page_slice (p : ValuePage) : list T :=
  match p with Owned values => values | SharedPage values => as_slice width values end.

Definition page_len (p : ValuePage) : Z := zlen (page_slice p).

(** [ValuePage::get_mut]: detaches a shared page first. *)
Definition page_get_mut (p : ValuePage) (index : Z) : option (T * (T → ValuePage)) :=
  let values := page_slice p in
  v ← get values index;
  Some (v, λ v', Owned (<[Z.to_nat index := v']> values)).

(** [ValuePage::push]; reserving capacity is not observable. *)
Definition page_push (p : ValuePage) (value : T) : ValuePage := Owned (page_slice p ++ [value]).

(** [PageLeaf]: the page slots of a leaf. *)
Abbreviation PageLeaf := (list (option ValuePage)).

Context {M : Type} `{LeafMap M PageLeaf}.

Record PageDirectory := mkDirectory {
  leaves : M;
  first_page : Z;
  dir_len : Z;
  default_value : option T;
}.

Definition leaf_key (page : Z) : Z := reverse_bits 128 (page / PAGES_PER_LEAF).

Definition dir_page (d : PageDirectory) (page : Z) : option ValuePage :=
  leaf ← lm_get (leaves d) (leaf_key page);
  slot ← get leaf (page mod PAGES_PER_LEAF);
  slot.

(** [leaf.pages.resize_with(slot + 1, || None)] when the leaf is too short. *)
Definition resize_leaf (leaf : PageLeaf) (slot : Z) : PageLeaf :=
  if zlen leaf <=? slot then leaf ++ repeat None (Z.to_nat (slot + 1 - zlen leaf)) else leaf.

(** [PageDirectory::page_mut]: the slot, and the directory with it replaced. *)
Definition page_mut (d : PageDirectory) (page : Z)
    : Result (option ValuePage * (option ValuePage → PageDirectory)) :=
  let key := leaf_key page in
  m ← match lm_get (leaves d) key with
      | Some _ => Ok (leaves d)
      | None => '(m, _) ← lm_insert (leaves d) key []; Ok m
      end;
  match lm_get_mut m key with
  | None => Abort Panicked
  | Some (leaf, put) =>
      let slot := page mod PAGES_PER_LEAF in
      let pages := resize_leaf leaf slot in
      match get pages slot with
      | None => Abort Panicked
      | Some current =>
          Ok (current, λ p, mkDirectory (put (<[Z.to_nat slot := p]> pages))
                              (first_page d) (dir_len d) (default_value d))
      end
  end.

(** ** [PagedVec] *)

Definition PagedVec_default : PageDirectory := mkDirectory lm_default 0 0 None.

Definition PagedVec_repeat (value : T) (len : Z) : PageDirectory :=
  mkDirectory lm_default 0 len (Some value).

(** The [while offset < values.len()] loop; [fuel] is the number of pages. *)
Fixpoint share_pages (fuel : nat) (values : SharedFlat T) (offset : Z) (d : PageDirectory)
    : Result PageDirectory :=
  if shared_len values <=? offset then Ok d
  else
    match fuel with
    | O => Abort OutOfFuel
    | S fuel =>
        let capacity := page_capacity width in
        let page_len := Z.min capacity (shared_len values - offset) in
        view ← slice width align values offset page_len;
        '(_, put) ← page_mut d (offset / capacity);
        share_pages fuel values (offset + page_len) (put (Some (SharedPage view)))
    end.

Definition from_shared (values : SharedFlat T) : Result PageDirectory :=
  share_pages (Z.to_nat (shared_len values)) values 0
    (mkDirectory lm_default 0 (shared_len values) None).

Definition len (v : PageDirectory) : Z := dir_len v.
Definition is_empty (v : PageDirectory) : bool := dir_len v =? 0.

Definition get_row (v : PageDirectory) (index : Z) : option T :=
  if dir_len v <=? index then None
  else
    let capacity := page_capacity width in
    page ← checked_add usize_max (first_page v) (index / capacity);
    match (p ← dir_page v page; get (page_slice p) (index mod capacity)) with
    | Some value => Some value
    | None => default_value v
    end.

(** The first half of [PagedVec::get_mut]: allocates the page of [index] from
    the default value if it is absent; [None] if there is no default either. *)
Definition materialize (v : PageDirectory) (page_index index : Z) : Result (option PageDirectory) :=
  match dir_page v page_index with
  | Some _ => Ok (Some v)
  | None =>
      match default_value v with
      | None => Ok None
      | Some value =>
          let capacity := page_capacity width in
          let n := Z.min capacity (dir_len v - index / capacity * capacity) in
          '(_, put) ← page_mut v page_index;
          Ok (Some (put (Some (Owned (replicate (Z.to_nat n) value)))))
      end
  end.

(** [PagedVec::get_mut]; [None] is the code's [None]. *)
Definition get_row_mut (v : PageDirectory) (index : Z)
    : Result (option (T * (T → PageDirectory))) :=
  if dir_len v <=? index then Ok None
  else
    let capacity := page_capacity width in
    match checked_add usize_max (first_page v) (index / capacity) with
    | None => Ok None
    | Some page_index =>
        materialized ← materialize v page_index index;
        match materialized with
        | None => Ok None
        | Some v =>
            '(current, put) ← page_mut v page_index;
            match current with
            | None => Ok None
            | Some p =>
                Ok ('(value, put_value) ← page_get_mut p (index mod capacity);
                    Some (value, λ value', put (Some (put_value value'))))
            end
        end
    end.

Definition replace (v : PageDirectory) (index : Z) (value : T) : Result PageDirectory :=
  slot ← get_row_mut v index;
  match slot with
  | None => Err "paged vector index is out of bounds"%string
  | Some (_, put) => Ok (put value)
  end.

Definition push (v : PageDirectory) (value : T) : Result PageDirectory :=
  let capacity := page_capacity width in
  page_index ← usize_add (first_page v) (dir_len v / capacity);
  let offset := dir_len v mod capacity in
  '(current, put) ← page_mut v page_index;
  let page :=
    match current with
    | Some p => p
    | None =>
        Owned (if negb (offset =? 0)
               then match default_value v with
                    | Some d => replicate (Z.to_nat offset) d
                    | None => []
                    end
               else [])
    end in
  let v := put (Some (page_push page value)) in
  n ← usize_add (dir_len v) 1;
  Ok (mkDirectory (leaves v) (first_page v) n (default_value v)).

(** The rows of one page of [PagedVec::iter]; [[..len]] panics on a short page. *)
Definition iter_page (v : PageDirectory) (page : Z) : Result (list T) :=
  let capacity := page_capacity width in
  let n := Z.min capacity (dir_len v - page * capacity) in
  index ← usize_add (first_page v) page;
  allocated ←
    match dir_page v index with
    | Some p => index_range (page_slice p) 0 n
    | None => Ok []
    end;
  Ok (allocated ++ match default_value v with
                   | Some d => replicate (Z.to_nat (n - zlen allocated)) d
                   | None => []
                   end).

Fixpoint iter_pages (v : PageDirectory) (page : Z) (count : nat) : Result (list T) :=
  match count with
  | O => Ok []
  | S count =>
      rows ← iter_page v page;
      rest ← iter_pages v (page + 1) count;
      Ok (rows ++ rest)
  end.

Definition iter (v : PageDirectory) : Result (list T) :=
  iter_pages v 0 (Z.to_nat (div_ceil (dir_len v) (page_capacity width))).

(** [for leaf in first..end { leaves.remove(..) }]. *)
Fixpoint remove_leaves (m : M) (leaf : Z) (count : nat) : M :=
  match count with
  | O => m
  | S count => remove_leaves (lm_remove m (reverse_bits 128 leaf)).1 (leaf + 1) count
  end.

Definition discard_prefix_leaves (v : PageDirectory) (elements : Z) : Result (PageDirectory * Z) :=
  let capacity := page_capacity width in
  let leaf_capacity := capacity * PAGES_PER_LEAF in
  let removable :=
    if dir_len v <=? elements then dir_len v else elements / leaf_capacity * leaf_capacity in
  if removable =? 0 then Ok (v, 0)
  else
    let page_count := div_ceil removable capacity in
    next_page ← usize_add (first_page v) page_count;
    let first_leaf := first_page v / PAGES_PER_LEAF in
    let end_leaf := div_ceil next_page PAGES_PER_LEAF in
    let m := remove_leaves (leaves v) first_leaf (Z.to_nat (end_leaf - first_leaf)) in
    let n := saturating_sub (dir_len v) removable in
    Ok (if n =? 0 then mkDirectory lm_default 0 0 (default_value v)
        else mkDirectory m next_page n (default_value v), removable).

Definition first_leaf_len (v : PageDirectory) : Z :=
  Z.min (dir_len v) (page_capacity width * PAGES_PER_LEAF).

(** [Deserialize]: pushes the elements one by one. *)
Fixpoint visit_seq (v : PageDirectory) (values : list T) : Result PageDirectory :=
  match values with
  | [] => Ok v
  | value :: rest => v ← push v value; visit_seq v rest
  end.
End paged.
