(* ===== verification/PagedVecTheorems.v ===== *)
(** * The paged vector implements a list

    Against the contract [LeafMapSpec] of the leaf map, every operation of
    [PagedVec] acts on the list of its rows; the radix map satisfies that
    contract, which gives the theorems for the structure the code builds. *)

From stdpp Require Import prelude gmap strings sorting.
From Stdlib Require Import ZArith Lia.
From S2P Require Import Prelude Machine RadixMap RadixMapTheorems Shared PagedVec.

Local Open Scope Z_scope.
#[local] Set Warnings "-clear-no-such-hyp".

(** ** The radix map as a map of leaves *)

#[global] Instance radix_leaf_map L : LeafMap (PersistentMap L) L := {|
  lm_default := PersistentMap_default;
  lm_get := RadixMap.get;
  lm_insert := RadixMap.insert_cow;
  lm_get_mut := RadixMap.get_mut;
  lm_remove := RadixMap.remove;
|}.

#[global] Program Instance radix_leaf_map_spec L : LeafMapSpec (PersistentMap L) L := {|
  lm_inv := map_inv;
  lm_map := to_map;
|}.
Next Obligation. intros L. split; [apply default_inv|done]. Qed.
Next Obligation. intros L m k. apply get_spec. Qed.
Next Obligation. intros L m k l. apply insert_spec. Qed.
Next Obligation. intros L m k. apply get_mut_spec. Qed.
Next Obligation. intros L m k. apply remove_spec. Qed.

(** ** Reversed keys *)

Lemma reverse_bits_range n x : 0 ≤ reverse_bits n x < 2 ^ Z.of_nat n.
Proof.
  revert x. induction n as [|n IH]; intros x; [cbn; lia|]. cbn [reverse_bits].
  specialize (IH (x / 2)). pose proof (Z.mod_pos_bound x 2 ltac:(lia)).
  rewrite Nat2Z.inj_succ, Z.pow_succ_r by lia. nia.
Qed.

Lemma reverse_bits_inj n x y :
  0 ≤ x < 2 ^ Z.of_nat n → 0 ≤ y < 2 ^ Z.of_nat n →
  reverse_bits n x = reverse_bits n y → x = y.
Proof.
  revert x y. induction n as [|n IH]; intros x y Hx Hy; [cbn in *; lia|]. cbn [reverse_bits].
  rewrite Nat2Z.inj_succ, Z.pow_succ_r in Hx, Hy by lia. intros Heq.
  pose proof (reverse_bits_range n (x / 2)). pose proof (reverse_bits_range n (y / 2)).
  pose proof (Z.mod_pos_bound x 2 ltac:(lia)). pose proof (Z.mod_pos_bound y 2 ltac:(lia)).
  assert (x mod 2 = y mod 2) by nia.
  assert (x / 2 = y / 2).
  { apply IH; [| |lia]; (split; [apply Z.div_pos; lia|apply Z.div_lt_upper_bound; lia]). }
  rewrite (Z.div_mod x 2), (Z.div_mod y 2) by lia. lia.
Qed.

Lemma leaf_key_u128 page : 0 ≤ leaf_key page < 2 ^ 128.
Proof. apply (reverse_bits_range 128). Qed.

Lemma leaf_inj a b :
  0 ≤ a ≤ usize_max → 0 ≤ b ≤ usize_max → reverse_bits 128 a = reverse_bits 128 b → a = b.
Proof. intros. apply (reverse_bits_inj 128); [rlia|rlia|done]. Qed.

(** ** Pages of the directory *)

Section pages.
Context {T : Type} (width align : Z) {M : Type} `{HM : LeafMapSpec M (list (option (@ValuePage T)))}.
Abbreviation PageDirectory := (@PageDirectory T M).
Implicit Types (d : PageDirectory) (page : Z).

Lemma page_leaf_range page : 0 ≤ page ≤ usize_max → 0 ≤ page / PAGES_PER_LEAF ≤ usize_max.
Proof.
  intros Hp. unfold PAGES_PER_LEAF. split; [apply Z.div_pos; lia|].
  apply Z.div_le_upper_bound; lia.
Qed.

Lemma slot_range page : 0 ≤ page mod PAGES_PER_LEAF < 256.
Proof. apply Z.mod_pos_bound. unfold PAGES_PER_LEAF. lia. Qed.

Lemma page_split page page' :
  page / PAGES_PER_LEAF = page' / PAGES_PER_LEAF →
  page mod PAGES_PER_LEAF = page' mod PAGES_PER_LEAF → page = page'.
Proof.
  intros Hq Hr. rewrite (Z.div_mod page PAGES_PER_LEAF), (Z.div_mod page' PAGES_PER_LEAF)
    by (unfold PAGES_PER_LEAF; lia). congruence.
Qed.

(** The slot [page] of a leaf, [None] past its end. *)
Definition leaf_slot (leaf : list (option (@ValuePage T))) page : option (@ValuePage T) :=
  mjoin (leaf !! Z.to_nat (page mod PAGES_PER_LEAF)).

Lemma dir_page_lookup d page :
  lm_inv (leaves d) →
  dir_page d page = lm_map (leaves d) !! leaf_key page ≫= λ leaf, leaf_slot leaf page.
Proof.
  intros Hi. unfold dir_page. rewrite lm_get_spec by (done || apply leaf_key_u128).
  destruct (lm_map (leaves d) !! leaf_key page) as [leaf|]; [|done]. cbn.
  unfold leaf_slot, Machine.get. pose proof (slot_range page).
  rewrite (proj2 (Z.ltb_ge _ _)) by lia. by destruct (leaf !! _).
Qed.

Lemma resize_leaf_spec (leaf : list (option (@ValuePage T))) slot :
  0 ≤ slot →
  (Z.to_nat slot < length (resize_leaf leaf slot))%nat
  ∧ ∀ i, mjoin (resize_leaf leaf slot !! i) = mjoin (leaf !! i).
Proof.
  intros Hs. unfold resize_leaf, zlen. destruct (Z.leb_spec (Z.of_nat (length leaf)) slot); [|split; [lia|done]].
  split; [rewrite length_app, repeat_length; lia|]. intros i.
  destruct (decide (i < length leaf)%nat) as [Hi|Hi]; [by rewrite lookup_app_l|].
  rewrite lookup_app_r, (lookup_ge_None_2 leaf) by lia.
  destruct (repeat _ _ !! _) as [o|] eqn:Ho; [|done].
  apply list_elem_of_lookup_2, list_elem_of_In, repeat_spec in Ho. by subst.
Qed.

Lemma page_mut_spec d page :
  lm_inv (leaves d) → 0 ≤ page ≤ usize_max →
  ∃ put, page_mut d page = Ok (dir_page d page, put) ∧ ∀ p,
    lm_inv (leaves (put p)) ∧ first_page (put p) = first_page d ∧ dir_len (put p) = dir_len d
    ∧ default_value (put p) = default_value d
    ∧ ∀ page', 0 ≤ page' ≤ usize_max →
        dir_page (put p) page' = if decide (page' = page) then p else dir_page d page'.
Proof.
  intros Hi Hp. pose proof (leaf_key_u128 page) as Hk. unfold page_mut.
  assert (∃ m, (match lm_get (leaves d) (leaf_key page) with
      | Some _ => Ok (leaves d)
      | None => '(m, _) ← lm_insert (leaves d) (leaf_key page) []; Ok m
      end : Result M) = Ok m ∧ lm_inv m
      ∧ lm_map m = <[leaf_key page := default [] (lm_map (leaves d) !! leaf_key page)]> (lm_map (leaves d)))
    as (m & -> & Hm & Hmap).
  { rewrite lm_get_spec by done. destruct (lm_map (leaves d) !! leaf_key page) as [leaf|] eqn:Hl.
    - exists (leaves d). split_and!; [done..|]. cbn. by rewrite insert_id.
    - destruct (lm_insert_spec (leaves d) (leaf_key page) [] Hi Hk) as (m & -> & ? & ?). eauto. }
  rbind. pose proof (lm_get_mut_spec m (leaf_key page) Hm Hk) as Hg.
  rewrite Hmap, lookup_insert_eq in Hg.
  destruct (lm_get_mut m (leaf_key page)) as [[leaf put]|]; [|done]. destruct Hg as [[= <-] Hput].
  set (leaf := default [] (lm_map (leaves d) !! leaf_key page)) in *.
  pose proof (slot_range page) as Hs. destruct (resize_leaf_spec leaf (page mod PAGES_PER_LEAF)) as [Hlt Hrs];
    [lia|].
  destruct (lookup_lt_is_Some_2 _ _ Hlt) as [current Hcur]. unfold Machine.get.
  rewrite (proj2 (Z.ltb_ge _ _)) by lia. rewrite Hcur.
  assert (dir_page d page = current) as Hdp.
  { rewrite dir_page_lookup by done. specialize (Hrs (Z.to_nat (page mod PAGES_PER_LEAF))).
    rewrite Hcur in Hrs. cbn in Hrs. rewrite Hrs. unfold leaf_slot, leaf.
    by destruct (lm_map (leaves d) !! leaf_key page). }
  rewrite Hdp. eexists. split; [done|]. intros p.
  destruct (Hput (<[Z.to_nat (page mod PAGES_PER_LEAF) := p]> (resize_leaf leaf (page mod PAGES_PER_LEAF))))
    as [Hi' Hmap']. cbn [leaves first_page dir_len default_value]. split_and!; [done..|].
  intros page' Hp'. rewrite !dir_page_lookup by done. cbn [leaves]. rewrite Hmap', insert_insert_eq.
  destruct (decide (leaf_key page' = leaf_key page)) as [Hkk|Hkk].
  - rewrite Hkk, lookup_insert_eq. cbn [mbind option_bind]. apply leaf_inj in Hkk; try by apply page_leaf_range.
    unfold leaf_slot. destruct (decide (page' = page)) as [->|Hne].
    + by rewrite list_lookup_insert_eq.
    + rewrite list_lookup_insert_ne.
      * rewrite Hrs. unfold leaf. by destruct (lm_map (leaves d) !! leaf_key page).
      * intros Heq. apply Hne. apply page_split; [done|]. pose proof (slot_range page'). lia.
  - rewrite lookup_insert_ne by done. by rewrite decide_False by congruence.
Qed.
End pages.

(** ** Rows *)

Section rows.
Context {T : Type} (width align : Z) {M : Type} `{HM : LeafMapSpec M (list (option (@ValuePage T)))}.
Abbreviation PageDirectory := (@PageDirectory T M).
Abbreviation c := (page_capacity width).
Implicit Types (v : PageDirectory) (l : list T) (x : T).

Lemma capacity_pos : 1 ≤ c ≤ 4096.
Proof. unfold page_capacity, clamp, MAX_PAGE_ELEMENTS. lia. Qed.

Lemma div_mod_block j k : 0 ≤ k < c → (j * c + k) / c = j ∧ (j * c + k) mod c = k.
Proof.
  intros Hk. split.
  - rewrite Z.div_add_l, Z.div_small; lia.
  - rewrite Z.add_comm, Z.mod_add, Z.mod_small; lia.
Qed.

(** The number of rows page [j] of a vector of [n] rows holds. *)
Definition need (n j : Z) : Z := Z.min c (n - j * c).

Definition page_ok v (j : Z) : Prop :=
  match dir_page v (first_page v + j) with
  | Some p => j * c < dir_len v ∧ zlen (page_slice width p) = need (dir_len v) j
  | None => j * c < dir_len v → is_Some (default_value v)
  end.

(** Pages start at a leaf boundary; an allocated page holds exactly its rows;
    an absent one stands for default rows. *)
Definition vec_inv v : Prop :=
  lm_inv (leaves v) ∧ 0 ≤ dir_len v ∧ 0 ≤ first_page v ∧ first_page v mod PAGES_PER_LEAF = 0
  ∧ first_page v * c + dir_len v ≤ usize_max
  ∧ ∀ j, 0 ≤ j → first_page v + j ≤ usize_max → page_ok v j.

Definition row v (i : Z) : option T :=
  match dir_page v (first_page v + i / c) with
  | Some p => page_slice width p !! Z.to_nat (i mod c)
  | None => default_value v
  end.

(** [v] holds the rows [l]. *)
Definition represents v l : Prop :=
  vec_inv v ∧ dir_len v = zlen l ∧ ∀ i, 0 ≤ i < dir_len v → row v i = l !! Z.to_nat i.

Lemma index_page v i :
  vec_inv v → 0 ≤ i < dir_len v →
  0 ≤ i / c ∧ i / c * c ≤ i ∧ first_page v + i / c ≤ usize_max
  ∧ 0 ≤ i mod c < need (dir_len v) (i / c) ∧ i = i / c * c + i mod c.
Proof.
  intros (_ & Hl & Hf & _ & Hext & _) Hi. pose proof capacity_pos.
  pose proof (Z.div_mod i c ltac:(lia)). pose proof (Z.mod_pos_bound i c ltac:(lia)).
  assert (0 ≤ i / c) by (apply Z.div_pos; lia). unfold need. split_and!; try lia.
  - assert (i / c ≤ i) by nia. nia.
Qed.

Lemma lookup_zlen l (i : nat) : is_Some (l !! i) ↔ Z.of_nat i < zlen l.
Proof. rewrite lookup_lt_is_Some. unfold zlen. lia. Qed.

Lemma row_is_Some v i : vec_inv v → 0 ≤ i < dir_len v → is_Some (row v i).
Proof.
  intros Hv Hi. destruct (index_page v i Hv Hi) as (? & ? & Hu & Hm & Heq).
  destruct Hv as (_ & _ & _ & _ & _ & Hp). specialize (Hp (i / c) ltac:(lia) Hu).
  unfold page_ok in Hp. unfold row. destruct (dir_page v _) as [p|].
  - destruct Hp as [_ Hlen]. apply lookup_zlen. lia.
  - apply Hp. lia.
Qed.

Lemma get_row_row v i : vec_inv v → 0 ≤ i < dir_len v → get_row width v i = row v i.
Proof.
  intros Hv Hi. destruct (index_page v i Hv Hi) as (? & ? & Hu & Hm & Heq).
  pose proof (row_is_Some v i Hv Hi) as Hs. unfold get_row, row in *.
  rewrite (proj2 (Z.leb_gt _ _)) by lia. unfold checked_add. rewrite (proj2 (Z.leb_le _ _)) by lia.
  cbn [mbind option_bind]. destruct (dir_page v _) as [p|]; [|done]. cbn [mbind option_bind].
  unfold Machine.get. rewrite (proj2 (Z.ltb_ge _ _)) by lia. by destruct Hs as [y ->].
Qed.

Lemma represents_get v l i : represents v l → 0 ≤ i → get_row width v i = l !! Z.to_nat i.
Proof.
  intros (Hv & Hl & Hr) Hi. destruct (Z.lt_ge_cases i (dir_len v)).
  - rewrite get_row_row by done. by apply Hr.
  - unfold get_row. rewrite (proj2 (Z.leb_le _ _)) by lia. symmetry. apply lookup_ge_None_2.
    unfold zlen in Hl. lia.
Qed.

(** Replacing the contents of one page, possibly growing the vector into it. *)
Lemma set_page_represents v l v' l' j vals :
  represents v l → 0 ≤ j →
  lm_inv (leaves v') → first_page v' = first_page v → default_value v' = default_value v →
  dir_len v' = zlen l' → first_page v * c + dir_len v' ≤ usize_max →
  (∀ page, 0 ≤ page ≤ usize_max →
     dir_page v' page = if decide (page = first_page v + j) then Some (Owned vals) else dir_page v page) →
  j * c < dir_len v' → zlen vals = need (dir_len v') j →
  (∀ k, 0 ≤ k → k ≠ j → need (dir_len v') k = need (dir_len v) k
                         ∨ (dir_len v ≤ k * c ∧ dir_len v' ≤ k * c)) →
  (∀ i, 0 ≤ i < dir_len v' →
     l' !! Z.to_nat i = if decide (i / c = j) then vals !! Z.to_nat (i mod c) else l !! Z.to_nat i) →
  represents v' l'.
Proof.
  intros (Hv & Hl & Hr) Hj Hi Hf Hd Hl' Hext Hpage Hjl Hvals Hneed Hrow.
  pose proof capacity_pos as Hc.
  pose proof Hv as (_ & Hl0 & Hf0 & Hmod & _ & Hok).
  assert (vec_inv v') as Hv'.
  { repeat split; try (rewrite ?Hf; done); [rewrite Hl'; apply zlen_nonneg|].
    intros k Hk Hku. rewrite Hf in Hku. unfold page_ok. rewrite Hf, Hpage, Hd by lia.
    destruct (decide (first_page v + k = first_page v + j)) as [Heq|Hne].
    - assert (k = j) as -> by lia. done.
    - specialize (Hok k Hk Hku). unfold page_ok in Hok. unfold need in *.
      destruct (dir_page v _) as [p|].
      + destruct Hok. destruct (Hneed k Hk ltac:(lia)) as [Hn|Hn]; split; lia.
      + intros. apply Hok. destruct (Hneed k Hk ltac:(lia)) as [Hn|Hn]; lia. }
  split; [done|]. split; [done|]. intros i Hil.
  destruct (index_page v' i Hv' Hil) as (? & ? & Hu & Hm & Heq). rewrite Hf in Hu.
  rewrite Hrow by done. unfold row. rewrite Hf, Hpage, Hd by lia.
  destruct (decide (i / c = j)) as [->|Hne].
  - by rewrite decide_True.
  - rewrite decide_False by lia. rewrite <- Hr; [done|].
    destruct (Hneed (i / c) ltac:(lia) Hne) as [Hn|Hn]; unfold need in *; lia.
Qed.

(** The rows of page [j], allocated or not. *)
Definition page_rows v (j : Z) : list T :=
  match dir_page v (first_page v + j) with
  | Some p => page_slice width p
  | None => match default_value v with
            | Some d => replicate (Z.to_nat (need (dir_len v) j)) d
            | None => []
            end
  end.

Lemma page_rows_spec v j :
  vec_inv v → 0 ≤ j → j * c < dir_len v →
  zlen (page_rows v j) = need (dir_len v) j
  ∧ ∀ k, 0 ≤ k < need (dir_len v) j → page_rows v j !! Z.to_nat k = row v (j * c + k).
Proof.
  intros Hv Hj Hl. pose proof capacity_pos as Hc.
  assert (first_page v + j ≤ usize_max) as Hu by (destruct Hv as (_ & ? & ? & _ & ? & _); nia).
  pose proof Hv as (_ & _ & _ & _ & _ & Hok). specialize (Hok j Hj Hu).
  assert (∀ k, 0 ≤ k < need (dir_len v) j → (j * c + k) / c = j ∧ (j * c + k) mod c = k) as Hdm.
  { intros k Hk. unfold need in Hk. apply div_mod_block. lia. }
  unfold page_rows, row, page_ok in *. destruct (dir_page v (first_page v + j)) as [p|] eqn:Hp.
  - destruct Hok as [_ Hlen]. split; [done|]. intros k Hk. destruct (Hdm k Hk) as [-> ->]. by rewrite Hp.
  - destruct (Hok Hl) as [d Hd]. rewrite Hd. unfold zlen. rewrite length_replicate.
    split; [unfold need; lia|]. intros k Hk. destruct (Hdm k Hk) as [-> _]. rewrite Hp.
    by rewrite lookup_replicate_2 by lia.
Qed.

(** [v'] is [v] with page [j] holding [vals]. *)
Definition page_set v v' (j : Z) (vals : list T) : Prop :=
  lm_inv (leaves v') ∧ first_page v' = first_page v ∧ dir_len v' = dir_len v
  ∧ default_value v' = default_value v
  ∧ ∀ page, 0 ≤ page ≤ usize_max →
      dir_page v' page = if decide (page = first_page v + j) then Some (Owned vals) else dir_page v page.

Lemma get_row_mut_spec v i :
  vec_inv v → 0 ≤ i < dir_len v →
  ∃ x put, get_row_mut width v i = Ok (Some (x, put)) ∧ row v i = Some x
    ∧ ∀ x', page_set v (put x') (i / c) (<[Z.to_nat (i mod c) := x']> (page_rows v (i / c))).
Proof.
  intros Hv Hi. destruct (index_page v i Hv Hi) as (Hj & Hjl & Hu & Hm & Heq).
  destruct (row_is_Some v i Hv Hi) as [x Hx].
  destruct (page_rows_spec v (i / c) Hv Hj ltac:(lia)) as [Hlen Hrows].
  specialize (Hrows (i mod c) Hm). rewrite <- Heq, Hx in Hrows.
  pose proof Hv as (Hinv & _ & Hf & _). unfold get_row_mut. rewrite (proj2 (Z.leb_gt _ _)) by lia.
  unfold checked_add. rewrite (proj2 (Z.leb_le _ _)) by lia.
  set (page := first_page v + i / c) in *.
  assert (∃ v1, materialize width v page i = Ok (Some v1)
      ∧ lm_inv (leaves v1) ∧ first_page v1 = first_page v ∧ dir_len v1 = dir_len v
      ∧ default_value v1 = default_value v
      ∧ (∃ p, dir_page v1 page = Some p ∧ page_slice width p = page_rows v (i / c))
      ∧ ∀ page', 0 ≤ page' ≤ usize_max → page' ≠ page → dir_page v1 page' = dir_page v page')
    as (v1 & -> & Hi1 & Hf1 & Hl1 & Hd1 & (p & Hp & Hps) & Hoth).
  { unfold materialize, page_rows in *. fold page in Hrows, Hlen |- *.
    destruct (dir_page v page) as [p|] eqn:Hp; [exists v; split_and!; eauto|].
    destruct (default_value v) as [dv|] eqn:Hdv; [|by rewrite lookup_nil in Hrows].
    destruct (page_mut_spec v page Hinv ltac:(lia)) as (put & -> & Hput). rbind. cbv zeta.
    eexists. split; [done|].
    destruct (Hput (Some (Owned (replicate (Z.to_nat (Z.min c (dir_len v - i / c * c))) dv))))
      as (? & ? & ? & Hd' & Hpg). split_and!; [done..|by rewrite Hd'| |].
    - eexists. rewrite Hpg by lia. rewrite decide_True by done. split; [done|]. done.
    - intros page' Hpr Hne. rewrite Hpg by lia. by rewrite decide_False. }
  rbind. destruct (page_mut_spec v1 page Hi1 ltac:(lia)) as (put & -> & Hput). rewrite Hp. rbind.
  unfold page_get_mut, Machine.get. rewrite (proj2 (Z.ltb_ge _ _)) by lia. rewrite Hps, Hrows.
  cbn [mbind option_bind]. eexists _, _. split; [done|]. split; [done|]. intros x'.
  destruct (Hput (Some (Owned (<[Z.to_nat (i mod c):=x']> (page_rows v (i / c))))))
    as (? & Hf2 & Hl2 & Hd2 & Hpg). split_and!; [done|by rewrite Hf2|by rewrite Hl2|by rewrite Hd2|].
  intros page' Hpr. rewrite Hpg by done. fold page. destruct (decide (page' = page)); [done|]. by apply Hoth.
Qed.

Lemma replace_spec v l i x :
  represents v l → 0 ≤ i < zlen l →
  ∃ v', replace width v i x = Ok v' ∧ represents v' (<[Z.to_nat i := x]> l)
        ∧ first_page v' = first_page v.
Proof.
  intros Hrep Hi. pose proof Hrep as (Hv & Hl & Hr). rewrite <- Hl in Hi.
  destruct (get_row_mut_spec v i Hv Hi) as (x0 & put & Hg & _ & Hput).
  destruct (index_page v i Hv Hi) as (Hj & Hjl & Hu & Hm & Heq).
  destruct (page_rows_spec v (i / c) Hv Hj ltac:(lia)) as [Hlen Hrows].
  unfold replace. rewrite Hg. rbind. exists (put x). split; [done|].
  destruct (Hput x) as (Hi' & Hf' & Hl' & Hd' & Hpg). split; [|done].
  pose proof capacity_pos as Hc. unfold zlen in Hlen.
  assert (Z.to_nat (i mod c) < length (page_rows v (i / c)))%nat by lia.
  eapply (set_page_represents v l _ _ (i / c)); try done.
  - rewrite Hl', Hl. unfold zlen. by rewrite length_insert.
  - rewrite Hl'. apply Hv.
  - rewrite Hl'. lia.
  - unfold zlen. rewrite length_insert, Hl'. done.
  - intros k _ _. left. by rewrite Hl'.
  - intros i' Hi''. rewrite Hl' in Hi''.
    destruct (index_page v i' Hv Hi'') as (Hj' & Hjl' & Hu' & Hm' & Heq').
    destruct (decide (i' / c = i / c)) as [Hsame|Hdiff].
    + destruct (decide (i' = i)) as [->|Hne].
      * rewrite !list_lookup_insert_eq; [done|done|]. unfold zlen in Hl. lia.
      * rewrite !list_lookup_insert_ne by lia. rewrite <- Hr by done.
        rewrite Heq' at 1. rewrite Hsame in *. symmetry. by apply Hrows.
    + rewrite list_lookup_insert_ne; [done|]. intros E. apply Hdiff. f_equal. lia.
Qed.


(** The page a push extends, as a list of rows. *)
Definition tail_rows v : list T :=
  if dir_len v mod c =? 0 then [] else page_rows v (dir_len v / c).

Lemma tail_rows_spec v :
  vec_inv v →
  zlen (tail_rows v) = dir_len v mod c
  ∧ ∀ k, 0 ≤ k < dir_len v mod c → tail_rows v !! Z.to_nat k = row v (dir_len v / c * c + k).
Proof.
  intros Hv. pose proof capacity_pos. pose proof Hv as (_ & Hl & _). unfold tail_rows.
  pose proof (Z.div_mod (dir_len v) c ltac:(lia)). pose proof (Z.mod_pos_bound (dir_len v) c ltac:(lia)).
  assert (0 ≤ dir_len v / c) by (apply Z.div_pos; lia).
  destruct (Z.eqb_spec (dir_len v mod c) 0) as [->|Hne]; [split; [done|lia]|].
  destruct (page_rows_spec v (dir_len v / c) Hv) as [Hlen Hrows]; [lia|lia|].
  assert (need (dir_len v) (dir_len v / c) = dir_len v mod c) as Hn by (unfold need; lia).
  rewrite Hn in *. done.
Qed.

Lemma push_page_mut v x :
  vec_inv v → first_page v * c + dir_len v < usize_max →
  ∃ v', push width v x = Ok (mkDirectory (leaves v') (first_page v') (dir_len v' + 1) (default_value v'))
    ∧ page_set v v' (dir_len v / c) (tail_rows v ++ [x]).
Proof.
  intros Hv Hext. pose proof capacity_pos. pose proof Hv as (Hinv & Hl & Hf & Hmod & _ & Hok).
  pose proof (Z.div_mod (dir_len v) c ltac:(lia)). pose proof (Z.mod_pos_bound (dir_len v) c ltac:(lia)).
  assert (0 ≤ dir_len v / c) by (apply Z.div_pos; lia).
  assert (first_page v + dir_len v / c ≤ usize_max) as Hu by nia.
  unfold push. rewrite usize_add_Ok by done. rbind.
  destruct (page_mut_spec v (first_page v + dir_len v / c) Hinv ltac:(lia)) as (put & -> & Hput). rbind.
  set (page := match dir_page v (first_page v + dir_len v / c) with Some p => p | None => _ end).
  assert (page_slice width page = tail_rows v) as Hps.
  { specialize (Hok (dir_len v / c) ltac:(lia) Hu). unfold page, tail_rows, page_rows, page_ok in *.
    destruct (dir_page v (first_page v + dir_len v / c)) as [p|].
    - destruct (Z.eqb_spec (dir_len v mod c) 0); [lia|done].
    - destruct (Z.eqb_spec (dir_len v mod c) 0); [done|]. cbn [negb page_slice].
      destruct (default_value v); [|done]. do 2 f_equal. unfold need. lia. }
  destruct (Hput (Some (page_push width page x))) as (? & Hf' & Hl' & Hd' & Hpg).
  rewrite usize_add_Ok by (rewrite Hl'; nia). rbind. eexists. split; [done|].
  split_and!; [done..|]. intros pg Hr. rewrite Hpg by done. unfold page_push. by rewrite Hps.
Qed.

Lemma push_spec v l x :
  represents v l → first_page v * c + zlen l < usize_max →
  ∃ v', push width v x = Ok v' ∧ represents v' (l ++ [x]) ∧ first_page v' = first_page v.
Proof.
  intros Hrep Hext. pose proof Hrep as (Hv & Hl & Hr). rewrite <- Hl in Hext.
  destruct (push_page_mut v x Hv Hext) as (v' & -> & Hi' & Hf' & Hl' & Hd' & Hpg).
  eexists. split; [done|]. split; [|done].
  destruct (tail_rows_spec v Hv) as [Htl Htr]. pose proof capacity_pos.
  pose proof Hv as (_ & Hl0 & Hf0 & _).
  pose proof (Z.div_mod (dir_len v) c ltac:(lia)). pose proof (Z.mod_pos_bound (dir_len v) c ltac:(lia)).
  assert (0 ≤ dir_len v / c) by (apply Z.div_pos; lia).
  eapply (set_page_represents v l _ _ (dir_len v / c) (tail_rows v ++ [x]));
    cbn [leaves first_page dir_len default_value]; try done.
  - rewrite Hl', zlen_app, Hl. done.
  - rewrite Hl'. lia.
  - rewrite Hl'. lia.
  - rewrite zlen_app, Htl, Hl'. unfold need, zlen. cbn [length]. lia.
  - intros k Hk Hne. rewrite Hl'. unfold need. destruct (Z.lt_ge_cases k (dir_len v / c)).
    + left. nia.
    + right. nia.
  - intros i Hi. rewrite Hl' in Hi.
    pose proof (Z.div_mod i c ltac:(lia)). pose proof (Z.mod_pos_bound i c ltac:(lia)).
    unfold zlen in Hl, Htl.
    destruct (decide (i / c = dir_len v / c)) as [Hsame|Hdiff].
    + destruct (Z.lt_ge_cases i (dir_len v)).
      * rewrite !lookup_app_l by lia. rewrite <- Hr, Htr by lia. f_equal. lia.
      * rewrite (lookup_app_r l), (lookup_app_r (tail_rows v)) by lia. f_equal. lia.
    + rewrite lookup_app_l; [done|]. destruct (Z.lt_ge_cases i (dir_len v)); [lia|].
      assert (i = dir_len v) as -> by lia. done.
Qed.

(** ** Iteration *)

Lemma iter_page_spec v l j :
  represents v l → 0 ≤ j → j * c < dir_len v →
  iter_page width v j = Ok (take (Z.to_nat c) (drop (Z.to_nat (j * c)) l)).
Proof.
  intros (Hv & Hl & Hr) Hj Hjl. pose proof capacity_pos. pose proof Hv as (_ & Hl0 & Hf0 & _ & Hext & Hok).
  assert (first_page v + j ≤ usize_max) as Hu by nia. specialize (Hok j Hj Hu).
  destruct (page_rows_spec v j Hv Hj Hjl) as [Hlen Hrows].
  unfold iter_page. rewrite usize_add_Ok by done. rbind.
  assert (page_rows v j = take (Z.to_nat c) (drop (Z.to_nat (j * c)) l)) as Hpr.
  { unfold zlen in Hlen, Hl. apply list_eq. intros k.
    destruct (decide (Z.of_nat k < need (dir_len v) j)) as [Hk|Hk].
    - rewrite <- (Nat2Z.id k) at 1. rewrite Hrows by lia. unfold need in Hk.
      rewrite lookup_take_lt, lookup_drop, Hr by nia. f_equal. nia.
    - rewrite !lookup_ge_None_2; [done| |lia].
      rewrite length_take, length_drop. unfold need in Hk. lia. }
  fold (need (dir_len v) j). rewrite <- Hpr. unfold page_rows, page_ok in *.
  destruct (dir_page v (first_page v + j)) as [p|].
  - unfold index_range. rewrite <- Hlen, get_range_all. rbind. rewrite Z.sub_diag.
    destruct (default_value v); cbn; by rewrite app_nil_r.
  - rbind. rewrite zlen_nil, Z.sub_0_r. done.
Qed.

Lemma iter_pages_spec v l j count :
  represents v l → 0 ≤ j → (∀ k, j ≤ k < j + Z.of_nat count → k * c < dir_len v) →
  iter_pages width v j count = Ok (take (count * Z.to_nat c) (drop (Z.to_nat (j * c)) l)).
Proof.
  intros Hrep. pose proof capacity_pos. revert j. induction count as [|count IH]; intros j Hj Hk; [done|].
  cbn [iter_pages]. rewrite (iter_page_spec v l j Hrep Hj) by (apply Hk; lia). rbind.
  rewrite IH by (lia || (intros k ?; apply Hk; lia)). rbind. f_equal.
  rewrite <- (take_take_drop _ (Z.to_nat c) (count * Z.to_nat c)), drop_drop. do 3 f_equal. lia.
Qed.

Lemma div_ceil_bounds n : 0 ≤ n → n ≤ div_ceil n c * c < n + c.
Proof.
  intros Hn. pose proof capacity_pos. unfold div_ceil.
  pose proof (Z.div_mod (n + c - 1) c ltac:(lia)). pose proof (Z.mod_pos_bound (n + c - 1) c ltac:(lia)). lia.
Qed.

Lemma iter_spec v l : represents v l → iter width v = Ok l.
Proof.
  intros Hrep. pose proof Hrep as (Hv & Hl & _). pose proof capacity_pos.
  pose proof Hv as (_ & Hl0 & _). pose proof (div_ceil_bounds (dir_len v) Hl0).
  assert (0 ≤ div_ceil (dir_len v) c) by nia.
  unfold iter. rewrite (iter_pages_spec v l 0) by (lia || (done || intros k ?; nia)).
  cbn. f_equal. apply take_ge. unfold zlen in Hl. nia.
Qed.

(** ** Discarding leading leaves *)

Lemma remove_leaves_spec m leaf count :
  lm_inv m → 0 ≤ leaf → leaf + Z.of_nat count ≤ usize_max + 1 →
  lm_inv (remove_leaves m leaf count)
  ∧ ∀ k, 0 ≤ k ≤ usize_max →
      lm_map (remove_leaves m leaf count) !! reverse_bits 128 k
      = if decide (leaf ≤ k < leaf + Z.of_nat count) then None else lm_map m !! reverse_bits 128 k.
Proof.
  revert m leaf. induction count as [|count IH]; intros m leaf Hm Hlf Hmax.
  { split; [done|]. intros. by rewrite decide_False by lia. }
  cbn [remove_leaves].
  destruct (lm_remove_spec m (reverse_bits 128 leaf) Hm (reverse_bits_range 128 leaf))
    as (m' & -> & Hm' & Hmap). cbn [fst].
  destruct (IH m' (leaf + 1) Hm' ltac:(lia) ltac:(lia)) as [Hi Hk]. split; [done|].
  intros k Hkr. rewrite Hk, Hmap by done.
  destruct (decide (k = leaf)) as [->|Hne].
  - rewrite lookup_delete_eq. rewrite (decide_True (P := leaf ≤ leaf < _)) by lia. by destruct (decide _).
  - rewrite lookup_delete_ne by (intros E; apply Hne; symmetry; apply leaf_inj; [lia|lia|done]).
    destruct (decide (leaf + 1 ≤ k < _)), (decide (leaf ≤ k < _)); try done; lia.
Qed.

Lemma dir_page_default fp n dv page : dir_page (mkDirectory lm_default fp n dv : PageDirectory) page = None.
Proof.
  destruct lm_default_spec as [Hi Hm]. rewrite dir_page_lookup by done. cbn [leaves]. by rewrite Hm.
Qed.

Lemma blank_represents dv l :
  zlen l ≤ usize_max → (∀ i : nat, (i < length l)%nat → l !! i = dv) →
  represents (mkDirectory lm_default 0 (zlen l) dv) l.
Proof.
  intros Hu Hl. destruct lm_default_spec as [Hi _]. pose proof (zlen_nonneg l).
  split; [|split; [done|]].
  - repeat split; cbn; try done. intros j Hj _. unfold page_ok. rewrite dir_page_default. cbn. intros Hlt.
    pose proof capacity_pos. rewrite <- (Hl 0%nat) by (unfold zlen in *; nia).
    apply lookup_lt_is_Some. unfold zlen in *. nia.
  - cbn. intros i Hr. unfold row. rewrite dir_page_default. cbn. symmetry. apply Hl.
    unfold zlen in Hr. lia.
Qed.

(** How many rows a call to [discard_prefix_leaves] removes. *)
Definition removable (n elements : Z) : Z :=
  if n <=? elements then n else elements / (c * PAGES_PER_LEAF) * (c * PAGES_PER_LEAF).

Lemma discard_all v l elements :
  represents v l → 0 < dir_len v ≤ elements →
  ∃ v', discard_prefix_leaves width v elements = Ok (v', dir_len v) ∧ represents v' []
        ∧ first_page v' = 0.
Proof.
  intros (Hv & Hl & _) He. pose proof capacity_pos. pose proof Hv as (_ & _ & Hf & _ & Hext & _).
  unfold discard_prefix_leaves. rewrite (proj2 (Z.leb_le (dir_len v) _)) by lia.
  destruct (Z.eqb_spec (dir_len v) 0); [lia|].
  pose proof (div_ceil_bounds (dir_len v) ltac:(lia)). assert (div_ceil (dir_len v) c ≤ dir_len v) by nia.
  rewrite usize_add_Ok by nia. rbind. eexists. split; [done|].
  replace (saturating_sub (dir_len v) (dir_len v)) with 0 by (unfold saturating_sub; lia).
  cbn [Z.eqb]. split; [|done]. apply (blank_represents _ []); [by vm_compute|cbn; lia].
Qed.

Lemma discard_some v l elements (q : Z) :
  represents v l → 0 ≤ elements < dir_len v → q = elements / (c * PAGES_PER_LEAF) → 0 < q →
  ∃ v', discard_prefix_leaves width v elements = Ok (v', q * (c * PAGES_PER_LEAF))
        ∧ represents v' (drop (Z.to_nat (q * (c * PAGES_PER_LEAF))) l)
        ∧ first_page v' = first_page v + q * PAGES_PER_LEAF.
Proof.
  intros (Hv & Hl & Hr) He Hq Hq0. pose proof capacity_pos.
  pose proof Hv as (Hinv & Hl0 & Hf & Hmod & Hext & Hok).
  assert (q * (c * PAGES_PER_LEAF) ≤ elements) as Hqe.
  { subst q. rewrite Z.mul_comm. apply Z.mul_div_le. unfold PAGES_PER_LEAF. lia. }
  unfold discard_prefix_leaves. rewrite (proj2 (Z.leb_gt _ _)) by lia. rewrite <- Hq.
  unfold PAGES_PER_LEAF in *. destruct (Z.eqb_spec (q * (c * 256)) 0); [nia|].
  assert (div_ceil (q * (c * 256)) c = q * 256) as ->.
  { unfold div_ceil. replace (q * (c * 256) + c - 1) with (q * 256 * c + (c - 1)) by ring.
    apply div_mod_block. lia. }
  rewrite usize_add_Ok by nia. rbind.
  assert (first_page v = first_page v / 256 * 256) as Hfp
    by (pose proof (Z.div_mod (first_page v) 256 ltac:(lia)); lia).
  assert (div_ceil (first_page v + q * 256) 256 = first_page v / 256 + q) as ->.
  { unfold div_ceil. rewrite Hfp at 1.
    replace (first_page v / 256 * 256 + q * 256 + 256 - 1) with ((first_page v / 256 + q) * 256 + 255) by ring.
    rewrite Z.div_add_l by lia. change (255 / 256) with 0. lia. }
  replace (first_page v / 256 + q - first_page v / 256) with q by lia.
  unfold saturating_sub. replace (Z.max 0 (dir_len v - q * (c * 256))) with (dir_len v - q * (c * 256)) by lia.
  destruct (Z.eqb_spec (dir_len v - q * (c * 256)) 0); [lia|].
  assert (0 ≤ first_page v / 256) by (apply Z.div_pos; lia).
  destruct (remove_leaves_spec (leaves v) (first_page v / 256) (Z.to_nat q) Hinv) as [Hi' Hrm]; [done|nia|].
  set (v' := mkDirectory _ (first_page v + q * 256) (dir_len v - q * (c * 256)) (default_value v)).
  assert (∀ j, 0 ≤ j → first_page v + q * 256 + j ≤ usize_max →
            dir_page v' (first_page v' + j) = dir_page v (first_page v + (q * 256 + j))) as Hpg.
  { intros j Hj Hju. cbn [v' first_page]. rewrite !dir_page_lookup by done. cbn [v' leaves].
    replace (first_page v + (q * 256 + j)) with (first_page v + q * 256 + j) by lia.
    unfold leaf_key. rewrite Hrm.
    - rewrite decide_False; [done|]. unfold PAGES_PER_LEAF.
      replace (first_page v + q * 256 + j) with ((first_page v / 256 + q) * 256 + j) by lia.
      rewrite Z.div_add_l by lia. pose proof (Z.div_pos j 256 Hj ltac:(lia)). lia.
    - apply page_leaf_range. lia. }
  eexists. split; [done|]. split; [|done]. split; [|split].
  - repeat split; cbn [v' leaves dir_len first_page default_value]; try done; try lia.
    + unfold PAGES_PER_LEAF. rewrite Z.mod_add by lia. done.
    + intros j Hj Hju. cbn [v' first_page] in Hju. specialize (Hok (q * 256 + j) ltac:(lia) ltac:(lia)).
      unfold page_ok in *. rewrite Hpg by lia. cbn [v' dir_len default_value]. unfold need in *.
      destruct (dir_page v _) as [p|]; [destruct Hok; split; lia|]. intros; apply Hok; lia.
  - cbn [v' dir_len]. unfold zlen in *. rewrite length_drop. lia.
  - cbn [v' dir_len]. intros i Hir. rewrite lookup_drop.
    replace (Z.to_nat (q * (c * 256)) + Z.to_nat i)%nat with (Z.to_nat (q * (c * 256) + i)) by lia.
    rewrite <- Hr by lia. unfold row.
    pose proof (Z.div_mod i c ltac:(lia)). pose proof (Z.mod_pos_bound i c ltac:(lia)).
    assert (0 ≤ i / c) by (apply Z.div_pos; lia).
    destruct (div_mod_block (q * 256 + i / c) (i mod c) ltac:(lia)) as [Hd Hm].
    replace ((q * 256 + i / c) * c + i mod c) with (q * (c * 256) + i) in Hd, Hm by lia.
    rewrite Hd, Hm. rewrite Hpg; [done|lia|]. assert (i / c ≤ i) by nia. nia.
Qed.

Lemma discard_spec v l elements :
  represents v l → 0 ≤ elements →
  ∃ v', discard_prefix_leaves width v elements = Ok (v', removable (dir_len v) elements)
        ∧ represents v' (drop (Z.to_nat (removable (dir_len v) elements)) l)
        ∧ first_page v' * c + dir_len v' ≤ first_page v * c + dir_len v.
Proof.
  intros Hrep He. pose proof capacity_pos. pose proof Hrep as (Hv & Hl & _). pose proof Hv as (_ & Hl0 & _).
  unfold removable. destruct (Z.leb_spec (dir_len v) elements) as [Hle|Hlt].
  - destruct (Z.eq_dec (dir_len v) 0) as [Hz|Hz].
    + exists v. unfold discard_prefix_leaves. rewrite (proj2 (Z.leb_le _ _)) by lia. by rewrite Hz.
    + destruct (discard_all v l elements Hrep ltac:(lia)) as (v' & Hd & Hr & Hf). exists v'.
      split; [done|]. split; [rewrite drop_ge; [done|unfold zlen in Hl; lia]|].
      destruct Hr as (_ & -> & _). rewrite Hf. destruct Hv as (_ & _ & ? & _). unfold zlen; cbn [length]. nia.
  - destruct (Z.eq_dec (elements / (c * PAGES_PER_LEAF)) 0) as [Hz|Hz].
    + exists v. unfold discard_prefix_leaves. rewrite (proj2 (Z.leb_gt _ _)) by lia. by rewrite Hz.
    + assert (0 ≤ elements / (c * PAGES_PER_LEAF)) by (apply Z.div_pos; unfold PAGES_PER_LEAF; lia).
      destruct (discard_some v l elements _ Hrep ltac:(lia) eq_refl ltac:(lia)) as (v' & Hd & Hr & Hf).
      exists v'. split; [done|]. split; [done|]. destruct Hr as (_ & -> & _). rewrite Hf.
      assert (elements / (c * PAGES_PER_LEAF) * (c * PAGES_PER_LEAF) ≤ elements)
        by (rewrite Z.mul_comm; apply Z.mul_div_le; unfold PAGES_PER_LEAF; lia).
      unfold zlen in *. rewrite length_drop. nia.
Qed.

(** ** Construction *)

Lemma default_represents : represents (PagedVec_default : PageDirectory) [].
Proof. apply (blank_represents None []); [by vm_compute|cbn; lia]. Qed.

Lemma repeat_represents x n :
  0 ≤ n ≤ usize_max → represents (PagedVec_repeat x n : PageDirectory) (replicate (Z.to_nat n) x).
Proof.
  intros Hn. unfold PagedVec_repeat.
  assert (n = zlen (replicate (Z.to_nat n) x)) as Heq by (unfold zlen; rewrite length_replicate; lia).
  rewrite Heq at 1. apply blank_represents; [by rewrite <- Heq; lia|].
  intros i Hi. rewrite length_replicate in Hi. by rewrite lookup_replicate_2.
Qed.

Lemma visit_seq_spec v l xs :
  represents v l → first_page v * c + zlen l + zlen xs ≤ usize_max →
  ∃ v', visit_seq width v xs = Ok v' ∧ represents v' (l ++ xs).
Proof.
  revert v l. induction xs as [|x xs IH]; intros v l Hrep Hu; cbn [visit_seq].
  { exists v. by rewrite app_nil_r. }
  rewrite zlen_cons in Hu. pose proof (zlen_nonneg xs).
  destruct (push_spec v l x Hrep ltac:(lia)) as (v' & -> & Hrep' & Hf). rbind.
  destruct (IH v' (l ++ [x]) Hrep') as (v'' & -> & Hr); [rewrite Hf, zlen_app, zlen_cons, zlen_nil; lia|].
  exists v''. by rewrite <- app_assoc in Hr.
Qed.

(** ** Sharing an allocation *)

Section share.
Hypothesis width_range : 0 < width ≤ usize_max.
Hypothesis align_range : 0 < align ≤ usize_max.
Hypothesis width_align : width mod align = 0.
Variable values : SharedFlat T.
Hypothesis values_ok : in_bounds width align values.
Abbreviation rows := (as_slice width values).
Abbreviation total := (shared_len values).

(** The first [k] pages are views of the allocation, the rest are absent. *)
Definition filled (d : PageDirectory) (k : Z) : Prop :=
  lm_inv (leaves d) ∧ first_page d = 0 ∧ dir_len d = total ∧ default_value d = None
  ∧ ∀ j, 0 ≤ j ≤ usize_max →
      if decide (j < k ∧ j * c < total)
      then ∃ p, dir_page d j = Some p
                ∧ page_slice width p = take (Z.to_nat c) (drop (Z.to_nat (j * c)) rows)
      else dir_page d j = None.

Lemma share_pages_spec fuel k d :
  filled d k → 0 ≤ k → total - k * c ≤ Z.of_nat fuel * c →
  ∃ d', share_pages width align fuel values (Z.min (k * c) total) d = Ok d' ∧ filled d' (k + Z.of_nat fuel).
Proof.
  pose proof capacity_pos. pose proof values_ok as ((Hn0 & Hnu) & _).
  revert k d. induction fuel as [|fuel IH]; intros k d (Hi & Hf & Hl & Hd & Hpg) Hk Hfuel;
    cbn [share_pages].
  { rewrite (proj2 (Z.leb_le _ _)) by lia. exists d. split; [done|]. by rewrite Z.add_0_r. }
  destruct (Z.leb_spec total (Z.min (k * c) total)) as [Hge|Hlt].
  { exists d. split; [done|]. split_and!; [done..|]. intros j Hj. specialize (Hpg j Hj).
    destruct (decide (j < k ∧ j * c < total)); destruct (decide (j < _ ∧ _)); try done; nia. }
  assert (Z.min (k * c) total = k * c) as -> by lia.
  assert (k * c / c = k) as -> by (rewrite Z.div_mul; lia).
  destruct (slice_spec width align ltac:(lia) align_range width_align values (k * c) (Z.min c (total - k * c)) values_ok)
    as (view & -> & Hview & _ & Has); [lia|lia|lia|lia|]. rbind.
  destruct (page_mut_spec d k Hi ltac:(nia)) as (put & -> & Hput). rbind.
  destruct (Hput (Some (SharedPage view))) as (Hi' & Hf' & Hl' & Hd' & Hpg').
  replace (k * c + Z.min c (total - k * c)) with (Z.min ((k + 1) * c) total) by lia.
  destruct (IH (k + 1) (put (Some (SharedPage view)))) as (d' & -> & Hfill); [|lia|lia|].
  - split_and!; [done|congruence|congruence|congruence|]. intros j Hj. rewrite Hpg' by done.
    specialize (Hpg j Hj). destruct (decide (j = k)) as [->|Hne].
    + rewrite decide_True by lia. eexists. split; [done|]. cbn [page_slice]. rewrite Has.
      apply list_eq. intros i. pose proof (zlen_as_slice width align align_range width_align _ values_ok) as Hz.
      unfold zlen in Hz. destruct (decide (Z.of_nat i < Z.min c (total - k * c))).
      * by rewrite !lookup_take_lt by lia.
      * rewrite lookup_take_ge by lia. symmetry. apply lookup_ge_None_2.
        rewrite length_take, length_drop. lia.
    + destruct (decide (j < k ∧ j * c < total)); destruct (decide (j < k + 1 ∧ j * c < total)); try done; lia.
  - exists d'. split; [done|]. replace (k + Z.of_nat (S fuel)) with (k + 1 + Z.of_nat fuel) by lia. done.
Qed.

Lemma from_shared_spec :
  ∃ v : PageDirectory, from_shared width align values = Ok v ∧ represents v rows.
Proof.
  pose proof capacity_pos. pose proof values_ok as ((Hn0 & Hnu) & _).
  destruct lm_default_spec as [Hinv _]. pose proof (zlen_as_slice width align align_range width_align _ values_ok) as Hz.
  unfold from_shared.
  destruct (share_pages_spec (Z.to_nat total) 0 (mkDirectory lm_default 0 total None)) as (v & Heq & Hfill).
  - split_and!; [done..|]. intros j Hj. rewrite decide_False by lia. apply dir_page_default.
  - lia.
  - nia.
  - replace (Z.min (0 * c) total) with 0 in Heq by lia. exists v. split; [done|].
    destruct Hfill as (Hi & Hf & Hl & Hd & Hpg).
    assert (∀ j, 0 ≤ j ≤ usize_max → j * c < total → ∃ p, dir_page v j = Some p
              ∧ page_slice width p = take (Z.to_nat c) (drop (Z.to_nat (j * c)) rows)) as Hpage.
    { intros j Hj Hjn. specialize (Hpg j Hj). rewrite decide_True in Hpg by nia. done. }
    assert (vec_inv v) as Hv.
    { repeat split; rewrite ?Hf, ?Hl; try done. intros j Hj Hju. rewrite ?Hf in Hju.
      unfold page_ok. rewrite Hf, Hl, Z.add_0_l. destruct (Z.lt_ge_cases (j * c) total) as [Hjn|Hjn].
      - destruct (Hpage j ltac:(lia) Hjn) as (p & -> & ->). split; [done|].
        unfold zlen in *. rewrite length_take, length_drop. unfold need. lia.
      - specialize (Hpg j ltac:(lia)). rewrite decide_False in Hpg by lia. rewrite Hpg. lia. }
    split; [done|]. split; [by rewrite Hl|]. intros i Hir.
    destruct (index_page v i Hv Hir) as (? & ? & Hu & Hm & Hie). rewrite Hf in Hu. rewrite Hl in *.
    unfold row. rewrite Hf, Z.add_0_l. destruct (Hpage (i / c) ltac:(lia) ltac:(lia)) as (p & -> & ->).
    unfold need in Hm. rewrite lookup_take_lt, lookup_drop by lia. f_equal. lia.
Qed.
End share.

(** ** Operation sequences *)

Inductive vec_op :=
| VPush (x : T)
| VReplace (i : Z) (x : T)
| VGet (i : Z)
| VDiscard (elements : Z)
| VToVec.

(** What a call returns: nothing, an error, a row, a count, or the rows. *)
Inductive vec_obs :=
| ODone
| OError
| ORow (o : option T)
| OCount (r : Z)
| ORows (l : list T).

Definition vec_step v (op : vec_op) : Result (PageDirectory * vec_obs) :=
  match op with
  | VPush x => v ← push width v x; Ok (v, ODone)
  | VReplace i x =>
      match replace width v i x with
      | Ok v => Ok (v, ODone)
      | Err _ => Ok (v, OError)
      | Abort a => Abort a
      end
  | VGet i => Ok (v, ORow (get_row width v i))
  | VDiscard elements =>
      '(v, r) ← discard_prefix_leaves width v elements; Ok (v, OCount r)
  | VToVec => l ← iter width v; Ok (v, ORows l)
  end.

Definition list_step l (op : vec_op) : list T * vec_obs :=
  match op with
  | VPush x => (l ++ [x], ODone)
  | VReplace i x => if i <? zlen l then (<[Z.to_nat i := x]> l, ODone) else (l, OError)
  | VGet i => (l, ORow (l !! Z.to_nat i))
  | VDiscard elements =>
      let r := removable (zlen l) elements in (drop (Z.to_nat r) l, OCount r)
  | VToVec => (l, ORows l)
  end.

Fixpoint vec_run v (ops : list vec_op) : Result (PageDirectory * list vec_obs) :=
  match ops with
  | [] => Ok (v, [])
  | op :: ops =>
      '(v, o) ← vec_step v op;
      '(v, os) ← vec_run v ops;
      Ok (v, o :: os)
  end.

Fixpoint list_run l (ops : list vec_op) : list T * list vec_obs :=
  match ops with
  | [] => (l, [])
  | op :: ops =>
      let '(l, o) := list_step l op in
      let '(l, os) := list_run l ops in (l, o :: os)
  end.

Fixpoint pushes (ops : list vec_op) : Z :=
  match ops with [] => 0 | VPush _ :: ops => 1 + pushes ops | _ :: ops => pushes ops end.

(** [usize] arguments are not negative. *)
Definition op_ok (op : vec_op) : Prop :=
  match op with VReplace i _ | VGet i | VDiscard i => 0 ≤ i | _ => True end.

Definition extent v : Z := first_page v * c + dir_len v.

Lemma replace_out v l i x :
  represents v l → zlen l ≤ i → ∃ e, replace width v i x = Err e.
Proof.
  intros (_ & Hl & _) Hi. unfold replace, get_row_mut. rewrite (proj2 (Z.leb_le _ _)) by lia. by eexists.
Qed.

Lemma vec_step_spec v l op :
  represents v l → op_ok op → extent v + pushes [op] ≤ usize_max →
  ∃ v', vec_step v op = Ok (v', (list_step l op).2) ∧ represents v' (list_step l op).1
        ∧ extent v' ≤ extent v + pushes [op].
Proof.
  intros Hrep Hop Hext. pose proof Hrep as (Hv & Hl & _). unfold extent in *.
  destruct op as [x|i x|i|elements|]; cbn [vec_step list_step fst snd op_ok] in *.
  - assert (pushes [VPush x] = 1) as Hp by done. rewrite Hp in *.
    destruct (push_spec v l x Hrep) as (v' & -> & Hr & Hf); [lia|]. rbind. exists v'.
    split; [done|]. split; [done|]. destruct Hr as (_ & -> & _). rewrite Hf, zlen_app, zlen_cons, zlen_nil. lia.
  - assert (pushes [VReplace i x] = 0) as Hp by done. rewrite Hp in *.
    destruct (Z.ltb_spec i (zlen l)).
    + destruct (replace_spec v l i x Hrep ltac:(lia)) as (v' & -> & Hr & Hf). exists v'.
      split; [done|]. split; [done|]. destruct Hr as (_ & -> & _). unfold zlen in *.
      rewrite Hf, length_insert. lia.
    + destruct (replace_out v l i x Hrep ltac:(lia)) as [e ->]. exists v. split; [done|]. split; [done|]. lia.
  - exists v. rewrite (represents_get v l) by done. split; [done|]. split; [done|].
    assert (pushes [VGet i] = 0) as -> by done. lia.
  - assert (pushes [VDiscard elements] = 0) as Hp by done. rewrite Hp in *.
    destruct (discard_spec v l elements Hrep Hop) as (v' & -> & Hr & Hext'). rbind.
    rewrite <- Hl. exists v'. split; [done|]. split; [done|]. lia.
  - rewrite (iter_spec v l Hrep). rbind. exists v. split; [done|]. split; [done|].
    assert (pushes [VToVec] = 0) as -> by done. lia.
Qed.

Lemma pushes_cons op ops : pushes (op :: ops) = pushes [op] + pushes ops.
Proof. by destruct op. Qed.

Lemma pushes_nonneg ops : 0 ≤ pushes ops.
Proof. induction ops as [|[] ops IH]; cbn; lia. Qed.

Lemma vec_run_spec v l ops :
  represents v l → Forall op_ok ops → extent v + pushes ops ≤ usize_max →
  ∃ v', vec_run v ops = Ok (v', (list_run l ops).2) ∧ represents v' (list_run l ops).1.
Proof.
  intros Hrep Hf. revert v l Hrep. induction Hf as [|op ops Hop _ IH]; intros v l Hrep Hext; [by exists v|].
  rewrite pushes_cons in Hext. pose proof (pushes_nonneg ops) as Hnn.
  cbn [vec_run list_run]. destruct (vec_step_spec v l op Hrep Hop ltac:(lia)) as (v1 & -> & Hr1 & He1). rbind.
  destruct (IH v1 _ Hr1 ltac:(lia)) as (v2 & -> & Hr2). rbind. exists v2.
  destruct (list_step l op) as [l1 o]. cbn [fst snd] in *. by destruct (list_run l1 ops).
Qed.
End rows.
Arguments vec_op T : clear implicits.
Arguments vec_obs T : clear implicits.

(** ** Properties *)

Section properties.
Context {T : Type}.
Abbreviation vec := (@PageDirectory T (PersistentMap (list (option (@ValuePage T))))).

(** C12: a paged vector over the radix directory behaves as a list: any
    sequence of pushes, replacements, lookups, prefix discards and traversals
    on a vector representing [l], with fewer than [usize::MAX] rows in total,
    runs without a panic and returns what the list returns. *)
Theorem paged_vec_refines width (v : vec) (l : list T) (ops : list (vec_op T)) :
  represents width v l → Forall op_ok ops → extent width v + pushes ops ≤ usize_max →
  ∃ v', vec_run width v ops = Ok (v', (list_run width l ops).2)
        ∧ represents width v' (list_run width l ops).1.
Proof. apply vec_run_spec. Qed.

(** The constructors build vectors that represent the expected rows: an
    empty vector, a repeated value, the rows of a shared allocation, and the
    sequence a serialized vector is read back from. *)
Theorem paged_vec_constructors width align (x : T) n (values : SharedFlat T) (xs : list T) :
  0 ≤ n ≤ usize_max → 0 < width ≤ usize_max → 0 < align ≤ usize_max → width mod align = 0 →
  in_bounds width align values → zlen xs ≤ usize_max →
  represents width (PagedVec_default : vec) []
  ∧ represents width (PagedVec_repeat x n : vec) (replicate (Z.to_nat n) x)
  ∧ (∃ v : vec, from_shared width align values = Ok v ∧ represents width v (as_slice width values))
  ∧ (∃ v : vec, visit_seq width PagedVec_default xs = Ok v ∧ represents width v xs
                ∧ iter width v = Ok xs).
Proof.
  intros Hn Hw Ha Hwa Hval Hxs. split; [apply default_represents|].
  split; [by apply repeat_represents|]. split; [by apply from_shared_spec|].
  destruct (visit_seq_spec width (PagedVec_default : vec) [] xs) as (v & Hv & Hr).
  - apply default_represents.
  - cbn [first_page PagedVec_default]. change (zlen (@nil T)) with 0. lia.
  - exists v. split; [done|]. split; [done|]. exact (iter_spec width v xs Hr).
Qed.
End properties.

Definition sample_vec_ops : list (vec_op Z) :=
  [VReplace 4097 7; VPush 8; VReplace 9000 1; VGet 4097; VGet 4096; VDiscard 100; VGet 8192].

Lemma paged_vec_refines_witness :
  ∃ v', vec_run 4 (PagedVec_repeat 5 8192 : PageDirectory (M := PersistentMap (list (option (@ValuePage Z)))))
          sample_vec_ops
        = Ok (v', (list_run 4 (replicate (Z.to_nat 8192) 5) sample_vec_ops).2)
        ∧ represents 4 v' (list_run 4 (replicate (Z.to_nat 8192) 5) sample_vec_ops).1.
Proof.
  apply (paged_vec_refines 4); [apply repeat_represents; rlia|repeat constructor; cbn; lia|vm_compute; discriminate].
Defined.

Lemma paged_vec_constructors_witness :
  represents 4 (PagedVec_default : PageDirectory (M := PersistentMap (list (option (@ValuePage Z))))) []
  ∧ represents 4 (PagedVec_repeat 9 5 : PageDirectory (M := PersistentMap (list (option (@ValuePage Z)))))
      (replicate (Z.to_nat 5) 9)
  ∧ (∃ v : PageDirectory (M := PersistentMap (list (option (@ValuePage Z)))),
       from_shared 4 4 last_three = Ok v ∧ represents 4 v (as_slice 4 last_three))
  ∧ (∃ v : PageDirectory (M := PersistentMap (list (option (@ValuePage Z)))),
       visit_seq 4 PagedVec_default [1; 2; 3] = Ok v ∧ represents 4 v [1; 2; 3]
       ∧ iter 4 v = Ok [1; 2; 3]).
Proof.
  apply (paged_vec_constructors 4 4 9 5 last_three [1; 2; 3]); [rlia|rlia|rlia|reflexivity| |vm_compute; discriminate].
  split; [cbn; rlia|]. split; [cbn; lia|]. split; [cbn; rlia|]. intros _.
  split; [lia|]. split; [|split; [cbn; lia|reflexivity]].
  split; [cbn; lia|]. split; [cbn; lia|]. split; [cbn; rlia|]. intros; by eexists.
Defined.
