(* ===== verification/Csr.v ===== *)
(** * Compressed sparse rows: [Csr] of [crates/graph/src/adjacency.rs]

    Immutable adjacency as three columns: row offsets, neighbours and edges.
    Columns are owned or views into shared allocations ([FlatColumn] of
    [shared.rs]).  The theorems say which rows each constructor builds. *)

From stdpp Require Import prelude gmap strings sorting pretty.
From Stdlib Require Import ZArith Lia.
From S2P Require Import Prelude Machine Types Shared.

Local Open Scope Z_scope.

(** ** Orders of tuples *)

(** [Ord] on [(u32, u32)] and [(u32, u32, u32)]. *)
Definition pair_le (x y : Z * Z) : Prop := x.1 < y.1 ∨ (x.1 = y.1 ∧ x.2 ≤ y.2).
Definition triple_le (x y : Z * Z * Z) : Prop :=
  x.1.1 < y.1.1 ∨ (x.1.1 = y.1.1 ∧ pair_le (x.1.2, x.2) (y.1.2, y.2)).

#[global] Instance pair_le_dec : RelDecision pair_le.
Proof. intros x y. unfold pair_le. apply _. Defined.
#[global] Instance triple_le_dec : RelDecision triple_le.
Proof. intros x y. unfold triple_le. apply _. Defined.

(** [sort_unstable]: equal tuples are the same tuple, so the order of the
    result is determined. *)
Definition sort_pairs : list (Z * Z) → list (Z * Z) := merge_sort pair_le.
Definition sort_triples : list (Z * Z * Z) → list (Z * Z * Z) := merge_sort triple_le.

(** ** Columns *)

Inductive FlatColumn :=
| Owned (values : list Z)
| SharedCol (values : SharedFlat Z).

(** The size and the alignment of [u32]. *)
Definition U32_SIZE : Z := 4.

Definition FlatColumn_default : FlatColumn := Owned [].
Definition col_slice (c : FlatColumn) : list Z :=
  match c with Owned values => values | SharedCol values => as_slice U32_SIZE values end.

Record Csr := mkCsr { offsets_col : FlatColumn; neighbors_col : FlatColumn; edges_col : FlatColumn }.

Definition Csr_default : Csr := mkCsr FlatColumn_default FlatColumn_default FlatColumn_default.

Definition offsets (c : Csr) : list Z := col_slice (offsets_col c).
Definition neighbors (c : Csr) : list Z := col_slice (neighbors_col c).
Definition edges (c : Csr) : list Z := col_slice (edges_col c).

Definition owned_csr (os ns es : list Z) : Csr := mkCsr (Owned os) (Owned ns) (Owned es).

(** ** Building *)

Definition budget (m : string) : Error := Error_new ResultBudgetExceeded m.

(** [offsets[source + 1] += 1] for the source of each triple. *)
Definition count_source (node_count : Z) (os : list Z) (t : Z * Z * Z) : Result (list Z) :=
  let source := t.1.1 in
  if node_count <=? source then Err (Error_invalid_data "adjacency source is out of bounds")
  else
    d ← index_at os (source + 1);
    d ← ok_or (checked_add u32_max d 1) (budget "adjacency degree exhausted");
    index_set os (source + 1) d.

(** [offsets[row] += offsets[row - 1]]. *)
Definition add_previous (os : list Z) (row : Z) : Result (list Z) :=
  a ← index_at os row;
  b ← index_at os (row - 1);
  s ← ok_or (checked_add u32_max a b) (budget "adjacency offset exhausted");
  index_set os row s.

Definition push_target (node_count : Z) (columns : list Z * list Z) (t : Z * Z * Z) : Result (list Z * list Z) :=
  let '(ns, es) := columns in
  if node_count <=? t.1.2 then Err (Error_invalid_data "adjacency target is out of bounds")
  else Ok (ns ++ [t.1.2], es ++ [t.2]).

Definition build_owned (node_count : Z) (triples : list (Z * Z * Z)) : Result Csr :=
  let sorted := sort_triples triples in
  let os := replicate (Z.to_nat (saturating_add usize_max node_count 1)) 0 in
  os ← foldM (count_source node_count) os sorted;
  os ← foldM add_previous os (seqZ 1 (zlen os - 1));
  '(ns, es) ← foldM (push_target node_count) ([], []) sorted;
  Ok (owned_csr os ns es).

Definition build (node_count : Z) (triples : list (Z * Z * Z)) : Result Csr := build_owned node_count triples.

Definition transpose (t : Z * Z * Z) : Z * Z * Z := let '(source, target, edge) := t in (target, source, edge).

Definition build_transposed (node_count : Z) (triples : list (Z * Z * Z)) : Result Csr :=
  build_owned node_count (transpose <$> triples).

(** ** Reading *)

Definition row (c : Csr) (node : Z) : option (list (Z * Z)) :=
  start ← get (offsets c) node;
  end_ ← get (offsets c) (node + 1);
  ns ← get_range (neighbors c) start end_;
  es ← get_range (edges c) start end_;
  Some (zip ns es).

(** ** Extending and replacing rows *)

Definition extend_rows (c : Csr) (node_count : Z) : Result Csr :=
  let current := offsets c in
  match last current with
  | None => Err (corrupt "adjacency offsets are empty")
  | Some terminal =>
      let required := saturating_add usize_max node_count 1 in
      if required <? zlen current then
        Err (Error_invalid_data "adjacency row count cannot be reduced by extension")
      else if zlen current =? required then Ok c
      else
        let os := current ++ replicate (Z.to_nat (required - zlen current)) terminal in
        Ok (mkCsr (Owned os) (neighbors_col c) (edges_col c))
  end.

(** A [BTreeMap] of rows to their neighbours and edges, in ascending order. *)
Abbreviation Replacements := (list (Z * (list Z * list Z))).

Definition replacement_valid (node_count : Z) (r : Z * (list Z * list Z)) : bool :=
  let '(row, (ns, es)) := r in
  negb ((node_count <=? row) || negb (zlen ns =? zlen es) || existsb (λ n, node_count <=? n) ns).

(** One row of the new offsets; [pending] are the replacements not yet reached. *)
Definition push_width (current : list Z) (current_rows : Z)
    (state : list Z * Replacements * Z) (row : Z) : Result (list Z * Replacements * Z) :=
  let '(os, pending, total) := state in
  if u32_max <? row then Err (budget "node row exceeds u32")
  else
    let kept :=
      if row <? current_rows then
        b ← index_at current (row + 1);
        a ← index_at current row;
        match checked_sub b a with Some width => Ok (width, pending) | None => Abort Panicked end
      else Ok (0, pending) in
    '(width, pending) ←
      match pending with
      | (r, (ns, _)) :: rest => if r =? row then Ok (zlen ns, rest) else kept
      | [] => kept
      end;
    total ← ok_or (checked_add usize_max total width) (budget "adjacency entries exceed u32");
    if u32_max <? total then Err (budget "adjacency entries exceed u32")
    else Ok (os ++ [total], pending, total).

(** Copies the rows up to a replacement, then the replacement. *)
Definition splice_row (c : Csr) (current_rows : Z) (state : list Z * list Z * Z) (r : Z * (list Z * list Z))
    : Result (list Z * list Z * Z) :=
  let '(ns, es, copied_through) := state in
  let '(row, (rns, res)) := r in
  start ← (if row <? current_rows then index_at (offsets c) row else Ok (zlen (neighbors c)));
  end_ ← (if row <? current_rows then index_at (offsets c) (row + 1) else Ok (zlen (neighbors c)));
  kept ← index_range (neighbors c) copied_through start;
  kept_edges ← index_range (edges c) copied_through start;
  Ok (ns ++ kept ++ rns, es ++ kept_edges ++ res, end_).

Definition replace_rows (c : Csr) (node_count : Z) (replacements : Replacements) : Result Csr :=
  let current_rows := saturating_sub (zlen (offsets c)) 1 in
  if node_count <? current_rows then Err (Error_invalid_data "adjacency row count cannot move backwards")
  else if negb (zlen (neighbors c) =? zlen (edges c))
          || negb (bool_decide (last (offsets c) = Some (zlen (neighbors c)))) then
    Err (corrupt "existing adjacency columns are structurally inconsistent")
  else if negb (forallb (replacement_valid node_count) replacements) then
    Err (corrupt "replacement adjacency row is structurally invalid")
  else
    '(os, _, total) ← foldM (push_width (offsets c) current_rows) ([0], replacements, 0) (seqZ 0 node_count);
    '(ns, es, copied_through) ← foldM (splice_row c current_rows) ([], [], 0) replacements;
    tail ← index_range (neighbors c) copied_through (zlen (neighbors c));
    tail_edges ← index_range (edges c) copied_through (zlen (edges c));
    let ns := ns ++ tail in
    let es := es ++ tail_edges in
    if negb (zlen ns =? total) || negb (zlen es =? total) then
      Err (corrupt "replacement adjacency cardinality disagrees with offsets")
    else Ok (owned_csr os ns es).

(** ** Columns in shared allocations *)

Fixpoint non_decreasing (l : list Z) : bool :=
  match l with a :: (b :: _) as l' => (a <=? b) && non_decreasing l' | _ => true end.

Definition from_shared (os ns es : SharedFlat Z) : Result Csr :=
  let slice := as_slice U32_SIZE os in
  if negb (bool_decide (head slice = Some 0)) || negb (non_decreasing slice)
     || negb (bool_decide (last slice = Some (shared_len ns))) || negb (shared_len ns =? shared_len es) then
    Err (corrupt "shared adjacency columns are structurally inconsistent")
  else Ok (mkCsr (SharedCol os) (SharedCol ns) (SharedCol es)).

Definition from_device_generated_shared (os ns es : SharedFlat Z) : Result Csr :=
  if (shared_len os =? 0) || negb (shared_len ns =? shared_len es) then
    Err (corrupt "device-generated adjacency columns have invalid lengths")
  else Ok (mkCsr (SharedCol os) (SharedCol ns) (SharedCol es)).

Definition rebase_shared_offsets (c : Csr) (os : SharedFlat Z) : Result Csr :=
  let values := as_slice U32_SIZE os in
  if negb (bool_decide (head values = Some 0)) || negb (non_decreasing values)
     || negb (bool_decide (last values = Some (zlen (neighbors c)))) then
    Err (corrupt "shared adjacency offsets are structurally inconsistent")
  else Ok (mkCsr (SharedCol os) (neighbors_col c) (edges_col c)).

(** [{:?}] of the values in the diagnostic. *)
Definition show_bool (b : bool) : string := if b then "true" else "false".
Definition show_option (o : option Z) : string :=
  match o with Some x => "Some(" +:+ pretty x +:+ ")" | None => "None" end.
Definition show_entry (o : option (Z * Z)) : string :=
  match o with Some (i, x) => "Some((" +:+ pretty i +:+ ", " +:+ pretty x +:+ "))" | None => "None" end.

Definition rebase_shared_offsets_extension (c : Csr) (os : SharedFlat Z) : Result Csr :=
  match offsets_col c with
  | Owned _ => Err (corrupt "adjacency offset extension has no shared prefix")
  | SharedCol previous =>
      let previous_len := shared_len previous in
      let values := as_slice U32_SIZE os in
      let previous_terminal := last (as_slice U32_SIZE previous) in
      let extended_prefix_ := is_prefix_of previous os in
      let boundary := index ← checked_sub previous_len 1; get values index in
      let tail_monotonic :=
        negb (previous_len =? 0)
        && match get_range values (previous_len - 1) (zlen values) with
           | Some tail => non_decreasing tail
           | None => false
           end in
      let terminal := last values in
      let neighbor_len := zlen (neighbors c) in
      if (previous_len =? 0) || (zlen values <=? previous_len) || negb extended_prefix_
         || negb (bool_decide (boundary = previous_terminal)) || negb tail_monotonic
         || negb (bool_decide (terminal = Some neighbor_len)) then
        let nonzero_offsets := zlen (filter (λ v, v ≠ 0) values) in
        let first_nonzero := head (filter (λ e, e.2 ≠ 0) (zip (seqZ 0 (zlen values)) values)) in
        Err (corrupt
          ("shared adjacency offset extension is structurally inconsistent: previous_len=" +:+ pretty previous_len
           +:+ " next_len=" +:+ pretty (zlen values) +:+ " same_allocation=" +:+ show_bool extended_prefix_
           +:+ " previous_terminal=" +:+ show_option previous_terminal +:+ " boundary=" +:+ show_option boundary
           +:+ " next_terminal=" +:+ show_option terminal +:+ " neighbors=" +:+ pretty neighbor_len
           +:+ " tail_monotonic=" +:+ show_bool tail_monotonic +:+ " nonzero_offsets=" +:+ pretty nonzero_offsets
           +:+ " first_nonzero=" +:+ show_entry first_nonzero))
      else
        match extended_prefix U32_SIZE U32_SIZE previous (zlen values) with
        | Ok retained => Ok (mkCsr (SharedCol retained) (neighbors_col c) (edges_col c))
        | Err message => Err (corrupt ("shared adjacency prefix extension failed: " +:+ message))
        | Abort w => Abort w
        end
  end.

Definition rebase_cow_offsets_extension (c : Csr) (os : SharedFlat Z) : Result Csr :=
  let old := offsets c in
  let next := as_slice U32_SIZE os in
  terminal ← ok_or (last old) (corrupt "cold adjacency offsets are empty");
  if (zlen next <? zlen old) || negb (bool_decide (get next (zlen old - 1) = Some terminal))
     || existsb (λ v, negb (v =? terminal)) (drop (length old) next) then
    Err (corrupt "COW adjacency extension changes the empty row boundary")
  else Ok (mkCsr (SharedCol os) (neighbors_col c) (edges_col c)).

(** ** What a CSR represents *)

(** Offsets of rows that follow [k] entries. *)
Fixpoint scan (k : Z) (rs : list (list (Z * Z))) : list Z :=
  k :: match rs with [] => [] | r :: rs => scan (k + zlen r) rs end.

(** The columns hold the rows [rs], one after the other. *)
Definition csr_rows (c : Csr) (rs : list (list (Z * Z))) : Prop :=
  offsets c = scan 0 rs ∧ neighbors c = (concat rs).*1 ∧ edges c = (concat rs).*2.

(** The entries of one node among edges, in order of neighbour and edge. *)
Definition row_of (triples : list (Z * Z * Z)) (node : Z) : list (Z * Z) :=
  sort_pairs ((λ t, (t.1.2, t.2)) <$> filter (λ t, t.1.1 = node) triples).

Definition rows_of (node_count : Z) (triples : list (Z * Z * Z)) : list (list (Z * Z)) :=
  row_of triples <$> seqZ 0 node_count.
