(* ===== verification/CsrTheorems.v ===== *)
(** * Compressed sparse rows: theorems

    Building sorts the edges of every node into its row; extending and
    replacing rows do so to the rows represented; the checks on shared columns
    accept only columns that represent rows. *)

From stdpp Require Import prelude gmap strings sorting.
From Stdlib Require Import ZArith Lia.
From S2P Require Import Prelude Machine Types Shared Csr.

Local Open Scope Z_scope.
#[local] Set Warnings "-clear-no-such-hyp".

(** ** Sorting tuples *)

#[global] Instance pair_le_total : Total pair_le.
Proof. intros [] []. unfold pair_le. cbn. lia. Qed.
#[global] Instance pair_le_trans : Transitive pair_le.
Proof. intros [] [] []. unfold pair_le. cbn. lia. Qed.
#[global] Instance pair_le_antisymm : AntiSymm (=) pair_le.
Proof. intros [] []. unfold pair_le. cbn. intros. f_equal; lia. Qed.
#[global] Instance triple_le_total : Total triple_le.
Proof. intros [[] ?] [[] ?]. unfold triple_le, pair_le. cbn. lia. Qed.
#[global] Instance triple_le_trans : Transitive triple_le.
Proof. intros [[] ?] [[] ?] [[] ?]. unfold triple_le, pair_le. cbn. lia. Qed.

Lemma sort_pairs_perm l : sort_pairs l ≡ₚ l.
Proof. apply merge_sort_Permutation. Qed.
Lemma sort_triples_perm l : sort_triples l ≡ₚ l.
Proof. apply merge_sort_Permutation. Qed.

Lemma sort_pairs_sorted l : StronglySorted pair_le (sort_pairs l).
Proof. apply StronglySorted_merge_sort; apply _. Qed.
Lemma sort_triples_sorted l : StronglySorted triple_le (sort_triples l).
Proof. apply StronglySorted_merge_sort; apply _. Qed.

Lemma elem_of_sort_pairs x l : x ∈ sort_pairs l ↔ x ∈ l.
Proof. by rewrite sort_pairs_perm. Qed.

Lemma sort_pairs_unique l k : StronglySorted pair_le k → k ≡ₚ l → k = sort_pairs l.
Proof.
  intros Hs Hp. apply (StronglySorted_unique pair_le); [done|apply sort_pairs_sorted|]. by rewrite sort_pairs_perm.
Qed.

(** ** Rows of represented columns *)

Lemma length_scan k rs : length (scan k rs) = S (length rs).
Proof. revert k. induction rs as [|r rs IH]; intros k; cbn; [done|]. by rewrite IH. Qed.

Lemma scan_lookup k rs i :
  (i ≤ length rs)%nat → scan k rs !! i = Some (k + zlen (concat (take i rs))).
Proof.
  revert k i. induction rs as [|r rs IH]; intros k i Hi; destruct i as [|i]; cbn in *; try lia; try (f_equal; unfold zlen; cbn; lia).
  rewrite IH by lia. f_equal. rewrite zlen_app. lia.
Qed.

Lemma last_scan k rs : last (scan k rs) = Some (k + zlen (concat rs)).
Proof. rewrite last_lookup, length_scan. cbn. rewrite scan_lookup by lia. by rewrite firstn_all. Qed.

Lemma get_nat {A} (l : list A) (i : Z) : 0 ≤ i → get l i = l !! Z.to_nat i.
Proof. intros. unfold get. by rewrite (proj2 (Z.ltb_ge _ _)) by lia. Qed.

Lemma fmap_range {A B} (f : A → B) (l : list A) a b :
  get_range (f <$> l) a b = (λ k : list A, f <$> k) <$> get_range l a b.
Proof.
  unfold get_range. unfold zlen. rewrite length_fmap. destruct (_ && _); cbn; [|done]. by rewrite fmap_take, fmap_drop.
Qed.

(** The entries of row [i] are those between the offsets of the rows before and
    up to it. *)
Lemma concat_range (rs : list (list (Z * Z))) (i : nat) r :
  rs !! i = Some r →
  get_range (concat rs) (zlen (concat (take i rs))) (zlen (concat (take (S i) rs))) = Some r.
Proof.
  intros Hr. rewrite (take_S_r _ _ _ Hr), concat_app. cbn. rewrite app_nil_r.
  rewrite <- (take_drop_middle _ _ _ Hr) at 1. rewrite concat_app. cbn. rewrite zlen_app. apply get_range_app.
Qed.

Lemma row_csr c rs node : 0 ≤ node → csr_rows c rs → row c node = rs !! Z.to_nat node.
Proof.
  intros Hn (Ho & Hns & Hes). unfold row. rewrite !get_nat, Ho by lia. replace (Z.to_nat (node + 1)) with (S (Z.to_nat node)) by lia.
  destruct (rs !! Z.to_nat node) as [r|] eqn:Hr.
  - pose proof (lookup_lt_Some _ _ _ Hr). rewrite !scan_lookup by lia. cbn [mbind option_bind].
    rewrite Hns, Hes, !fmap_range, !Z.add_0_l, (concat_range rs _ r Hr). cbn. f_equal. apply zip_fst_snd.
  - apply lookup_ge_None in Hr. rewrite (proj2 (lookup_ge_None (scan 0 rs) (S _))) by (rewrite length_scan; lia).
    by destruct (scan 0 rs !! _).
Qed.

Lemma row_csr_inv c rs node r : csr_rows c rs → row c node = Some r → 0 ≤ node ∧ rs !! Z.to_nat node = Some r.
Proof.
  intros Hc Hr. assert (0 ≤ node) as Hn; [|by rewrite (row_csr c rs) in Hr].
  unfold row, get in Hr. destruct (Z.ltb_spec node 0); [done|lia].
Qed.

(** ** Building *)

(** The number of entries before each row is found by counting sources. *)
Definition sources_below (l : list (Z * Z * Z)) (i : Z) : Z := zlen (filter (λ t, t.1.1 < i) l).
Definition sources_at (l : list (Z * Z * Z)) (i : Z) : Z := zlen (filter (λ t, t.1.1 = i) l).

Lemma sources_below_next l i : sources_below l (i + 1) = sources_below l i + sources_at l i.
Proof.
  unfold sources_below, sources_at, zlen. induction l as [|t l IH]; [done|].
  rewrite !filter_cons. repeat case_decide; cbn [length]; lia.
Qed.

Lemma sources_at_app l k i : sources_at (l ++ k) i = sources_at l i + sources_at k i.
Proof. unfold sources_at. rewrite filter_app. apply zlen_app. Qed.

Lemma sources_at_le l i : sources_at l i ≤ zlen l.
Proof. unfold sources_at, zlen. pose proof (length_filter (λ t : Z * Z * Z, t.1.1 = i) l). lia. Qed.

Lemma index_at_lookup {E A} (l : list A) (i : Z) x : 0 ≤ i → l !! Z.to_nat i = Some x → index_at (E := E) l i = Ok x.
Proof. intros Hi Hx. unfold index_at. by rewrite get_nat, Hx. Qed.

Lemma index_set_Ok {E A} (l : list A) (i : Z) x :
  0 ≤ i < zlen l → index_set (E := E) l i x = Ok (<[Z.to_nat i := x]> l).
Proof. intros. unfold index_set. by rewrite (proj2 (Z.leb_le _ _)), (proj2 (Z.ltb_lt _ _)) by lia. Qed.

(** Endpoints of edges that are nodes. *)
Definition sources_in (n : Z) (l : list (Z * Z * Z)) : Prop := Forall (λ t, t.1.1 < n) l.
Definition targets_in (n : Z) (l : list (Z * Z * Z)) : Prop := Forall (λ t, t.1.2 < n) l.

Definition nonnegative (l : list (Z * Z * Z)) : Prop := Forall (λ t, 0 ≤ t.1.1 ∧ 0 ≤ t.1.2) l.

(** Offsets while counting: the degree of the row before. *)
Definition counted (n : Z) (l : list (Z * Z * Z)) (os : list Z) : Prop :=
  zlen os = n + 1 ∧ ∀ i, 0 ≤ i ≤ n → os !! Z.to_nat i = Some (if i =? 0 then 0 else sources_at l (i - 1)).

Lemma count_source_spec n done t os :
  0 ≤ t.1.1 → zlen (done ++ [t]) ≤ u32_max → counted n done os →
  if n <=? t.1.1 then count_source n os t = Err (Error_invalid_data "adjacency source is out of bounds")
  else ∃ os', count_source n os t = Ok os' ∧ counted n (done ++ [t]) os'.
Proof.
  intros Ht Hlen [Hl Hc]. unfold count_source. destruct (Z.leb_spec n t.1.1) as [|Hs]; [done|].
  pose proof (sources_at_le (done ++ [t]) t.1.1) as Hle. rewrite sources_at_app in Hle.
  assert (sources_at [t] t.1.1 = 1) as E1 by (unfold sources_at; rewrite filter_cons_True by done; done).
  rewrite (index_at_lookup os (t.1.1 + 1) (sources_at done t.1.1)); [|lia|].
  2:{ rewrite Hc by lia. rewrite (proj2 (Z.eqb_neq _ _)) by lia. do 2 f_equal. lia. }
  cbn [mbind outcome_bind]. unfold checked_add. rewrite (proj2 (Z.leb_le _ _)) by lia. cbn [ok_or mbind outcome_bind].
  rewrite index_set_Ok by lia. eexists. split; [done|]. split; [by rewrite <- Hl; unfold zlen; rewrite length_insert|].
  intros i Hi. rewrite sources_at_app. destruct (decide (i = t.1.1 + 1)) as [->|Hne].
  - rewrite list_lookup_insert_eq by (unfold zlen in Hl; lia). rewrite (proj2 (Z.eqb_neq _ _)) by lia.
    replace (t.1.1 + 1 - 1) with t.1.1 by lia. f_equal. lia.
  - rewrite list_lookup_insert_ne by lia. rewrite Hc by done. f_equal. destruct (Z.eqb_spec i 0); [done|].
    unfold sources_at. rewrite (filter_cons_False _ t []) by lia. unfold zlen. cbn. lia.
Qed.

Lemma count_sources_spec n l :
  0 ≤ n < usize_max → nonnegative l → zlen l ≤ u32_max →
  let zeros := replicate (Z.to_nat (saturating_add usize_max n 1)) 0 in
  if bool_decide (sources_in n l) then ∃ os, foldM (count_source n) zeros l = Ok os ∧ counted n l os
  else foldM (count_source n) zeros l = Err (Error_invalid_data "adjacency source is out of bounds").
Proof.
  intros Hn Hnn Hlen zeros.
  assert (counted n [] zeros) as H0.
  { unfold zeros, saturating_add. replace (Z.min usize_max (n + 1)) with (n + 1) by lia. split.
    - unfold zlen. rewrite length_replicate. lia.
    - intros i Hi. rewrite lookup_replicate_2 by lia. f_equal. by destruct (i =? 0). }
  assert (∀ rest done os, l = done ++ rest → counted n done os →
    if bool_decide (sources_in n rest) then ∃ os', foldM (count_source n) os rest = Ok os' ∧ counted n l os'
    else foldM (count_source n) os rest = Err (Error_invalid_data "adjacency source is out of bounds")) as H.
  { induction rest as [|t rest IH]; intros done os El Hc.
    - rewrite bool_decide_true by constructor. exists os. rewrite El, app_nil_r. done.
    - assert (l = (done ++ [t]) ++ rest) as El' by (by rewrite <- app_assoc).
      pose proof (count_source_spec n done t os) as Hs. cbn [foldM].
      assert (zlen (done ++ [t]) ≤ u32_max) as Hd by (rewrite El', zlen_app in Hlen; pose proof (zlen_nonneg rest); lia).
      assert (0 ≤ t.1.1) as Ht by (rewrite El in Hnn; by apply Forall_app in Hnn as [_ [[? _] _]%Forall_cons]).
      specialize (Hs Ht Hd Hc). destruct (Z.leb_spec n t.1.1) as [Hge|Hlt].
      + rewrite bool_decide_false by (intros [? _]%Forall_cons; lia). by rewrite Hs.
      + destruct Hs as (os' & -> & Hc'). cbn [mbind outcome_bind]. specialize (IH _ _ El' Hc').
        rewrite (bool_decide_ext _ (sources_in n rest)); [done|]. unfold sources_in. rewrite Forall_cons. naive_solver. }
  by apply (H l [] zeros).
Qed.

(** Offsets while summing: below [r] they count the sources below the row. *)
Definition summed (n : Z) (l : list (Z * Z * Z)) (r : Z) (os : list Z) : Prop :=
  zlen os = n + 1
  ∧ ∀ i, 0 ≤ i ≤ n → os !! Z.to_nat i = Some (if i <? r then sources_below l i else if i =? 0 then 0 else sources_at l (i - 1)).

Lemma sources_below_le l i : sources_below l i ≤ zlen l.
Proof. unfold sources_below, zlen. pose proof (length_filter (λ t : Z * Z * Z, t.1.1 < i) l). lia. Qed.

Lemma add_previous_spec n l r os :
  zlen l ≤ u32_max → 1 ≤ r ≤ n → summed n l r os → ∃ os', add_previous os r = Ok os' ∧ summed n l (r + 1) os'.
Proof.
  intros Hlen Hr [Hl Hs]. unfold add_previous.
  rewrite (index_at_lookup os r (sources_at l (r - 1))); [|lia|].
  2:{ rewrite Hs by lia. rewrite (proj2 (Z.ltb_ge _ _)), (proj2 (Z.eqb_neq _ _)) by lia. done. }
  rewrite (index_at_lookup os (r - 1) (sources_below l (r - 1))); [|lia|].
  2:{ rewrite Hs by lia. by rewrite (proj2 (Z.ltb_lt _ _)) by lia. }
  pose proof (sources_below_next l (r - 1)) as Hn. replace (r - 1 + 1) with r in Hn by lia. pose proof (sources_below_le l r).
  cbn [mbind outcome_bind]. unfold checked_add. rewrite (proj2 (Z.leb_le _ _)) by lia. cbn [ok_or mbind outcome_bind].
  rewrite index_set_Ok by lia. eexists. split; [done|]. split; [by rewrite <- Hl; unfold zlen; rewrite length_insert|].
  intros i Hi. destruct (decide (i = r)) as [->|Hne].
  - rewrite list_lookup_insert_eq by (unfold zlen in Hl; lia). rewrite (proj2 (Z.ltb_lt r (r + 1))) by lia. f_equal. lia.
  - rewrite list_lookup_insert_ne by lia. rewrite Hs by done. f_equal.
    destruct (Z.ltb_spec i r), (Z.ltb_spec i (r + 1)); try lia; done.
Qed.

Lemma add_all_spec n l os :
  0 ≤ n → nonnegative l → zlen l ≤ u32_max → counted n l os →
  ∃ os', foldM add_previous os (seqZ 1 (zlen os - 1)) = Ok os' ∧ summed n l (n + 1) os'.
Proof.
  intros Hn Hnn Hlen [Hl Hc]. rewrite Hl. replace (n + 1 - 1) with n by lia.
  assert (sources_below l 0 = 0) as H0.
  { unfold sources_below. rewrite (filter_none _ l); [done|]. apply (Forall_impl _ _ _ Hnn). intros t [??]. lia. }
  assert (summed n l 1 os) as H1.
  { split; [done|]. intros i Hi. rewrite Hc by done. f_equal. destruct (Z.ltb_spec i 1), (Z.eqb_spec i 0); try lia; try done.
    by subst. }
  assert (∀ k r os, Z.of_nat k + r = n + 1 → 1 ≤ r → summed n l r os →
    ∃ os', foldM add_previous os (seqZ r (Z.of_nat k)) = Ok os' ∧ summed n l (n + 1) os') as H.
  { induction k as [|k IH]; intros r os' Hk Hr Hs.
    - exists os'. split; [done|]. by replace (n + 1) with r by lia.
    - rewrite seqZ_cons by lia. cbn [foldM]. destruct (add_previous_spec n l r os') as (os'' & -> & Hs'); [lia..|done|].
      cbn [mbind outcome_bind]. replace (Z.pred (Z.of_nat (S k))) with (Z.of_nat k) by lia.
      apply (IH (Z.succ r)); [lia..|]. done. }
  specialize (H (Z.to_nat n) 1 os ltac:(lia) ltac:(lia) H1). by rewrite Z2Nat.id in H by lia.
Qed.

Lemma push_targets_spec n l ns es :
  if bool_decide (targets_in n l)
  then foldM (push_target n) (ns, es) l = Ok (ns ++ ((λ t, t.1.2) <$> l), es ++ ((λ t, t.2) <$> l))
  else foldM (push_target n) (ns, es) l = Err (Error_invalid_data "adjacency target is out of bounds").
Proof.
  revert ns es. induction l as [|t l IH]; intros ns es.
  - rewrite bool_decide_true by constructor. cbn. by rewrite !app_nil_r.
  - cbn [foldM]. unfold push_target at 2 4. destruct (Z.leb_spec n t.1.2).
    + rewrite bool_decide_false by (intros [? _]%Forall_cons; lia). done.
    + cbn [mbind outcome_bind]. specialize (IH (ns ++ [t.1.2]) (es ++ [t.2])).
      rewrite (bool_decide_ext _ (targets_in n l)) by (unfold targets_in; rewrite Forall_cons; naive_solver).
      rewrite <- !app_assoc in IH. done.
Qed.

(** Sorted edges are the rows one after the other. *)
Lemma first_source l a :
  StronglySorted triple_le l → Forall (λ t, a ≤ t.1.1) l →
  filter (λ t, t.1.1 = a) l ++ filter (λ t, t.1.1 ≠ a) l = l.
Proof.
  induction 1 as [|t l Hs IH Ht]; intros Ha; [done|]. apply Forall_cons in Ha as [Hat Ha].
  destruct (decide (t.1.1 = a)) as [E|Hne].
  - rewrite filter_cons_True, (filter_cons_False (λ t, t.1.1 ≠ a)) by (done || by intros []). cbn. by rewrite IH.
  - rewrite filter_none, filter_all; [done| |].
    + constructor; [done|]. apply (Forall_impl _ _ _ Ht). intros u. unfold triple_le. lia.
    + constructor; [done|]. apply (Forall_impl _ _ _ Ht). intros u. unfold triple_le. lia.
Qed.

Lemma StronglySorted_filter {A} (R : relation A) (P : A → Prop) `{∀ x, Decision (P x)} l :
  StronglySorted R l → StronglySorted R (filter P l).
Proof.
  induction 1 as [|x l Hs IH Hx]; [constructor|]. rewrite filter_cons. case_decide; [|done]. constructor; [done|].
  rewrite Forall_forall in *. intros y [_ Hy]%list_elem_of_filter. auto.
Qed.

Lemma rows_concat l a k :
  StronglySorted triple_le l → Forall (λ t, a ≤ t.1.1 < a + Z.of_nat k) l →
  concat ((λ i, filter (λ t, t.1.1 = i) l) <$> seqZ a (Z.of_nat k)) = l.
Proof.
  revert a l. induction k as [|k IH]; intros a l Hs Hl.
  - cbn. destruct l as [|t l]; [done|]. apply Forall_cons in Hl as [? _]. lia.
  - rewrite seqZ_cons by lia. cbn [fmap list_fmap concat]. replace (Z.pred (Z.of_nat (S k))) with (Z.of_nat k) by lia.
    transitivity (filter (λ t, t.1.1 = a) l ++ filter (λ t, t.1.1 ≠ a) l);
      [f_equal|apply first_source; [done|apply (Forall_impl _ _ _ Hl); lia]].
    assert (Forall (λ t, Z.succ a ≤ t.1.1 < Z.succ a + Z.of_nat k) (filter (λ t, t.1.1 ≠ a) l)) as Hrest.
    { apply Forall_forall. intros t [Hne Ht]%list_elem_of_filter. rewrite Forall_forall in Hl. specialize (Hl t Ht). lia. }
    rewrite <- (IH (Z.succ a) _ (StronglySorted_filter _ _ _ Hs) Hrest). f_equal. apply list_fmap_ext. intros i b Hb.
    apply lookup_seqZ in Hb as [-> _]. rewrite list_filter_filter. apply list_filter_iff. intros t. lia.
Qed.

Definition entry (t : Z * Z * Z) : Z * Z := (t.1.2, t.2).

Lemma row_of_sorted triples i : entry <$> filter (λ t, t.1.1 = i) (sort_triples triples) = row_of triples i.
Proof.
  apply sort_pairs_unique; [|by rewrite sort_triples_perm].
  pose proof (StronglySorted_filter _ (λ t : Z * Z * Z, t.1.1 = i) _ (sort_triples_sorted triples)) as Hs.
  assert (Forall (λ t : Z * Z * Z, t.1.1 = i) (filter (λ t, t.1.1 = i) (sort_triples triples))) as Hi.
  { apply Forall_forall. by intros t [? _]%list_elem_of_filter. }
  induction Hs as [|t l _ IH Ht]; [constructor|]. apply Forall_cons in Hi as [Hit Hi]. cbn. constructor; [by apply IH|].
  apply Forall_fmap. rewrite Forall_forall in *. intros u Hu. destruct (Ht u Hu) as [?|[_ ?]]; [|done].
  specialize (Hi u Hu). lia.
Qed.

Lemma concat_entries (g : Z → list (Z * Z * Z)) l : concat ((λ i, entry <$> g i) <$> l) = entry <$> concat (g <$> l).
Proof. induction l as [|i l IH]; [done|]. cbn. by rewrite fmap_app, IH. Qed.

Lemma rows_of_sorted n triples :
  rows_of n triples = (λ i, entry <$> filter (λ t, t.1.1 = i) (sort_triples triples)) <$> seqZ 0 n.
Proof. apply list_fmap_ext. intros ? i ?. by rewrite row_of_sorted. Qed.

Lemma rows_below n triples i :
  0 ≤ i ≤ n → nonnegative triples →
  zlen (concat (take (Z.to_nat i) (rows_of n triples))) = sources_below (sort_triples triples) i.
Proof.
  intros Hi Hnn. rewrite rows_of_sorted, <- fmap_take, concat_entries. unfold sources_below, zlen. rewrite length_fmap. do 2 f_equal.
  set (l := sort_triples triples).
  assert (take (Z.to_nat i) (seqZ 0 n) = seqZ 0 (Z.of_nat (Z.to_nat i))) as ->.
  { rewrite Z2Nat.id by lia. replace n with (i + (n - i)) by lia. rewrite seqZ_app by lia. apply take_app_length'.
    rewrite length_seqZ. lia. }
  rewrite <- (rows_concat (filter (λ t, t.1.1 < i) l) 0 (Z.to_nat i)).
  - f_equal. apply list_fmap_ext. intros ? j Hj. apply list_elem_of_lookup_2, elem_of_seqZ in Hj.
    rewrite list_filter_filter. apply list_filter_iff. intros t. lia.
  - apply StronglySorted_filter, sort_triples_sorted.
  - apply Forall_forall. intros t [Hlt Ht]%list_elem_of_filter. unfold l in Ht. rewrite sort_triples_perm in Ht.
    unfold nonnegative in Hnn. rewrite Forall_forall in Hnn. specialize (Hnn t Ht). lia.
Qed.

Lemma rows_all n triples :
  0 ≤ n → nonnegative triples → sources_in n triples → concat (rows_of n triples) = entry <$> sort_triples triples.
Proof.
  intros Hn Hnn Hin. rewrite rows_of_sorted, concat_entries. f_equal. rewrite <- (Z2Nat.id n) at 1 by lia.
  apply rows_concat; [apply sort_triples_sorted|]. unfold nonnegative, sources_in in *. rewrite Forall_forall in *.
  intros t Ht. rewrite sort_triples_perm in Ht. specialize (Hnn t Ht). specialize (Hin t Ht). cbn in Hin. lia.
Qed.

Lemma build_owned_spec n triples :
  0 ≤ n < usize_max → nonnegative triples → zlen triples ≤ u32_max →
  if bool_decide (sources_in n triples) then
    if bool_decide (targets_in n triples)
    then ∃ c, build_owned n triples = Ok c ∧ csr_rows c (rows_of n triples)
    else build_owned n triples = Err (Error_invalid_data "adjacency target is out of bounds")
  else build_owned n triples = Err (Error_invalid_data "adjacency source is out of bounds").
Proof.
  intros Hn Hnn Hlen. set (l := sort_triples triples).
  assert (nonnegative l) as Hnnl by (unfold l, nonnegative; by rewrite sort_triples_perm).
  assert (zlen l = zlen triples) as El by (unfold l, zlen; by rewrite sort_triples_perm).
  pose proof (count_sources_spec n l Hn Hnnl ltac:(lia)) as Hc. unfold build_owned. fold l.
  rewrite (bool_decide_ext (sources_in n triples) (sources_in n l)) by (unfold l, sources_in; by rewrite sort_triples_perm).
  rewrite (bool_decide_ext (targets_in n triples) (targets_in n l)) by (unfold l, targets_in; by rewrite sort_triples_perm).
  case_bool_decide as Hs; [|by rewrite Hc]. destruct Hc as (os & -> & Hos). cbn [mbind outcome_bind].
  destruct (add_all_spec n l os ltac:(lia) Hnnl ltac:(lia) Hos) as (os' & -> & Hl & Hsum). cbn [mbind outcome_bind].
  pose proof (push_targets_spec n l [] []) as Hp. case_bool_decide as Ht; rewrite Hp; [|done]. cbn.
  eexists. split; [done|]. unfold csr_rows. cbn.
  assert (sources_in n triples) as Hs' by (unfold sources_in; by rewrite <- sort_triples_perm).
  rewrite rows_all by (done || lia). fold l. rewrite <- !list_fmap_compose. split; [|done].
  assert (length (rows_of n triples) = Z.to_nat n) as Hr by (unfold rows_of; by rewrite length_fmap, length_seqZ).
  apply list_eq. intros i. destruct (decide (i ≤ Z.to_nat n)%nat) as [Hi|Hi].
  - specialize (Hsum (Z.of_nat i) ltac:(lia)). rewrite Nat2Z.id in Hsum. rewrite Hsum, scan_lookup by lia.
    rewrite (proj2 (Z.ltb_lt _ _)) by lia. f_equal. rewrite <- (rows_below n triples) by (done || lia). by rewrite Nat2Z.id.
  - rewrite !lookup_ge_None_2; [done|rewrite length_scan; lia|unfold zlen in Hl; lia].
Qed.

(** ** Extending *)

Lemma scan_empty k rs m : scan k (rs ++ replicate m []) = scan k rs ++ replicate m (k + zlen (concat rs)).
Proof.
  revert k. induction rs as [|r rs IH]; intros k.
  - cbn [app concat]. rewrite zlen_nil, Z.add_0_r. induction m as [|m IH]; [done|]. cbn [replicate scan].
    rewrite zlen_nil, Z.add_0_r, IH. done.
  - cbn [app scan]. rewrite IH. cbn. by rewrite zlen_app, Z.add_assoc.
Qed.

Lemma concat_empty (rs : list (list (Z * Z))) m : concat (rs ++ replicate m []) = concat rs.
Proof. rewrite concat_app. induction m as [|m IH]; cbn; [by rewrite app_nil_r|done]. Qed.

Lemma extend_rows_spec c rs n :
  csr_rows c rs → 0 ≤ n < usize_max →
  if n <? zlen rs then extend_rows c n = Err (Error_invalid_data "adjacency row count cannot be reduced by extension")
  else ∃ c', extend_rows c n = Ok c' ∧ csr_rows c' (rs ++ replicate (Z.to_nat (n - zlen rs)) []).
Proof.
  intros (Ho & Hns & Hes) Hn. unfold extend_rows. rewrite Ho, last_scan. unfold saturating_add.
  replace (Z.min usize_max (n + 1)) with (n + 1) by lia.
  assert (zlen (scan 0 rs) = zlen rs + 1) as El by (unfold zlen; rewrite length_scan; lia). rewrite El.
  destruct (Z.ltb_spec n (zlen rs)), (Z.ltb_spec (n + 1) (zlen rs + 1)); try lia; [done|].
  destruct (Z.eqb_spec (zlen rs + 1) (n + 1)) as [E|Hne].
  - exists c. split; [done|]. replace (n - zlen rs) with 0 by lia. cbn. by rewrite app_nil_r.
  - eexists. split; [done|]. unfold csr_rows. cbn. rewrite scan_empty, concat_empty.
    split_and!; [|done|done]. do 2 f_equal. lia.
Qed.

(** ** Replacing *)

Fixpoint replacement (reps : Replacements) (i : Z) : option (list (Z * Z)) :=
  match reps with
  | [] => None
  | (r, (ns, es)) :: reps => if r =? i then Some (zip ns es) else replacement reps i
  end.

(** The rows after replacing some of them, up to [n]. *)
Definition replaced_row (rs : list (list (Z * Z))) (reps : Replacements) (i : Z) : list (Z * Z) :=
  default (default [] (rs !! Z.to_nat i)) (replacement reps i).

Definition replaced (n : Z) (rs : list (list (Z * Z))) (reps : Replacements) : list (list (Z * Z)) :=
  replaced_row rs reps <$> seqZ 0 n.

(** The keys of a [BTreeMap] ascend. *)
Definition ascending (reps : Replacements) : Prop := StronglySorted Z.lt reps.*1 ∧ Forall (λ r, 0 ≤ r) reps.*1.

Lemma replacement_above reps i : Forall (λ r, i < r) reps.*1 → replacement reps i = None.
Proof.
  induction reps as [|[r [ns es]] reps IH]; [done|]. intros [Hr Hrs]%Forall_cons. cbn in *.
  rewrite (proj2 (Z.eqb_neq _ _)) by lia. by apply IH.
Qed.

(** The replacements not before row [i] start with that of [i], if it has one. *)
Lemma pending_step reps i :
  StronglySorted Z.lt reps.*1 →
  let pending i := filter (λ p : Z * (list Z * list Z), i ≤ p.1) reps in
  (∃ ns es, replacement reps i = Some (zip ns es) ∧ (i, (ns, es)) ∈ reps ∧ pending i = (i, (ns, es)) :: pending (i + 1))
  ∨ (replacement reps i = None ∧ pending i = pending (i + 1) ∧ match pending i with (r, _) :: _ => r ≠ i | [] => True end).
Proof.
  induction reps as [|[r [ns es]] reps IH]; intros Hs pending; [by right|].
  apply StronglySorted_inv in Hs as [Hs Hr]. assert (Forall (λ p, r < p.1) reps) as Hr' .
  { change (Forall (Z.lt r) reps.*1) in Hr. exact (proj1 (Forall_fmap _ _ _) Hr). }
  unfold pending in *. rewrite !filter_cons. cbn [replacement fst] in *.
  destruct (Z.eqb_spec r i) as [->|Hne].
  - left. exists ns, es. rewrite decide_True by lia. rewrite (decide_False (P := i + 1 ≤ i)) by lia.
    split_and!; [done|by left|]. f_equal. rewrite !filter_all; [done|..]; apply (Forall_impl _ _ _ Hr'); cbn; lia.
  - destruct (decide (i ≤ r)) as [Hle|Hlt].
    + right. rewrite (decide_True (P := i + 1 ≤ r)) by lia. split_and!; [|f_equal|done].
      * apply replacement_above. apply (Forall_impl _ _ _ Hr). lia.
      * rewrite !filter_all; [done|..]; apply (Forall_impl _ _ _ Hr'); cbn; lia.
    + rewrite (decide_False (P := i + 1 ≤ r)) by lia. destruct (IH Hs) as [(ns' & es' & ? & ? & ?)|?]; [left|by right].
      exists ns', es'. split_and!; [done|by right|done].
Qed.

Lemma scan_snoc k rs r : scan k (rs ++ [r]) = scan k rs ++ [k + zlen (concat (rs ++ [r]))].
Proof.
  revert k. induction rs as [|x rs IH]; intros k.
  - cbn. rewrite app_nil_r. done.
  - cbn [app scan]. rewrite IH. cbn. rewrite zlen_app, Z.add_assoc. done.
Qed.

Lemma concat_take_S {A} (l : list (list A)) i r : l !! i = Some r → concat (take (S i) l) = concat (take i l) ++ r.
Proof. intros Hr. rewrite (take_S_r _ _ _ Hr), concat_app. cbn. by rewrite app_nil_r. Qed.

Lemma concat_take_le {A} (l : list (list A)) i j : (i ≤ j)%nat → zlen (concat (take i l)) ≤ zlen (concat (take j l)).
Proof.
  intros Hij. rewrite <- (take_drop i (take j l)), take_take, Nat.min_l, concat_app, zlen_app by lia.
  pose proof (zlen_nonneg (concat (drop i (take j l)))). lia.
Qed.

Section replace.
Context (c : Csr) (rs : list (list (Z * Z))) (n : Z) (reps : Replacements).
Hypothesis Hc : csr_rows c rs.
Hypothesis Hn : zlen rs ≤ n ≤ u32_max + 1.
Hypothesis Hasc : ascending reps.
Hypothesis Hvalid : Forall (λ r, replacement_valid n r = true) reps.
Let new := replaced n rs reps.

Lemma length_new : length new = Z.to_nat n.
Proof. unfold new, replaced. by rewrite length_fmap, length_seqZ. Qed.

Lemma new_lookup i : 0 ≤ i < n → new !! Z.to_nat i = Some (replaced_row rs reps i).
Proof. intros Hi. unfold new, replaced. rewrite list_lookup_fmap, lookup_seqZ_lt by lia. cbn. do 2 f_equal. lia. Qed.

Lemma replacement_lengths r ns es : (r, (ns, es)) ∈ reps → zlen ns = zlen es ∧ 0 ≤ r < n.
Proof.
  intros Hr. pose proof Hvalid as Hv. rewrite Forall_forall in Hv. specialize (Hv _ Hr). unfold replacement_valid in Hv.
  apply negb_true_iff, orb_false_iff in Hv as [[Hv1 Hv2]%orb_false_iff _]. destruct Hasc as [_ Hnn].
  rewrite Forall_forall in Hnn. specialize (Hnn r (list_elem_of_fmap_2 fst reps _ Hr)).
  apply Z.leb_gt in Hv1. apply negb_false_iff, Z.eqb_eq in Hv2. done.
Qed.

Lemma rows_count : saturating_sub (zlen (offsets c)) 1 = zlen rs.
Proof. destruct Hc as [-> _]. unfold saturating_sub, zlen. rewrite length_scan. lia. Qed.

Lemma zlen_zip (ns es : list Z) : zlen ns = zlen es → zlen (zip ns es) = zlen ns.
Proof. unfold zlen. intros. rewrite length_zip_with. lia. Qed.

(** The state of the first loop before row [i]. *)
Definition widths (i : Z) : list Z * Replacements * Z :=
  (scan 0 (take (Z.to_nat i) new), filter (λ p, i ≤ p.1) reps, zlen (concat (take (Z.to_nat i) new))).

(** The width of a row that is not replaced is the difference of its offsets. *)
Lemma kept_width {A} i (x : A) :
  0 ≤ i → 
  (if i <? zlen rs then
     b ← index_at (offsets c) (i + 1); a ← index_at (offsets c) i;
     match checked_sub b a with Some width => Ok (width, x) | None => Abort Panicked end
   else Ok (0, x) : Result (Z * A)) = Ok (zlen (default [] (rs !! Z.to_nat i)), x).
Proof.
  intros Hi. destruct Hc as [-> _]. destruct (Z.ltb_spec i (zlen rs)) as [Hlt|Hge].
  - destruct (lookup_lt_is_Some_2 rs (Z.to_nat i)) as [r Hr]; [unfold zlen in Hlt; lia|]. rewrite Hr. cbn [default].
    pose proof (lookup_lt_Some _ _ _ Hr).
    rewrite (index_at_lookup _ (i + 1) (0 + zlen (concat (take (S (Z.to_nat i)) rs))));
      [|lia|replace (Z.to_nat (i + 1)) with (S (Z.to_nat i)) by lia; by rewrite scan_lookup by lia].
    rewrite (index_at_lookup _ i (0 + zlen (concat (take (Z.to_nat i) rs)))) by (lia || by rewrite scan_lookup by lia).
    cbn [mbind outcome_bind]. rewrite (concat_take_S _ _ _ Hr), zlen_app. unfold checked_sub.
    pose proof (zlen_nonneg r). rewrite (proj2 (Z.leb_le _ _)) by lia. unfold id. do 2 f_equal. lia.
  - rewrite (lookup_ge_None_2 rs (Z.to_nat i)); [done|]. unfold zlen in Hge. lia.
Qed.

Lemma push_width_spec i :
  0 ≤ i < n → zlen (concat (take (Z.to_nat i) new)) ≤ u32_max →
  push_width (offsets c) (zlen rs) (widths i) i =
  if u32_max <? zlen (concat (take (Z.to_nat (i + 1)) new)) then Err (budget "adjacency entries exceed u32")
  else Ok (widths (i + 1)).
Proof.
  intros Hi Htot. unfold push_width, widths. rewrite (proj2 (Z.ltb_ge _ _)) by lia.
  pose proof (new_lookup i Hi) as Hl. assert (Z.to_nat (i + 1) = S (Z.to_nat i)) as ES by lia.
  rewrite ES, (concat_take_S _ _ _ Hl), (take_S_r _ _ _ Hl), scan_snoc, zlen_app, concat_app, zlen_app.
  pose proof (zlen_nonneg (concat (take (Z.to_nat i) new))). pose proof (zlen_nonneg (replaced_row rs reps i)).
  assert (zlen (concat [replaced_row rs reps i]) = zlen (replaced_row rs reps i)) as -> by (cbn; by rewrite app_nil_r).
  rewrite !kept_width by lia. cbn zeta.
  assert (∀ m : Result (Z * Replacements), m = Ok (zlen (replaced_row rs reps i), filter (λ p, i + 1 ≤ p.1) reps) →
    (m ≫= λ '(width, pending),
      total ← ok_or (checked_add usize_max (zlen (concat (take (Z.to_nat i) new))) width) (budget "adjacency entries exceed u32");
      if u32_max <? total then Err (budget "adjacency entries exceed u32")
      else Ok (scan 0 (take (Z.to_nat i) new) ++ [total], pending, total)) =
    if u32_max <? zlen (concat (take (Z.to_nat i) new)) + zlen (replaced_row rs reps i)
    then Err (budget "adjacency entries exceed u32")
    else Ok (scan 0 (take (Z.to_nat i) new) ++ [0 + (zlen (concat (take (Z.to_nat i) new)) + zlen (replaced_row rs reps i))],
             filter (λ p, i + 1 ≤ p.1) reps, zlen (concat (take (Z.to_nat i) new)) + zlen (replaced_row rs reps i))) as Hm.
  { intros m ->. cbn [mbind outcome_bind]. unfold checked_add. destruct (Z.leb_spec (zlen (concat (take (Z.to_nat i) new)) +
      zlen (replaced_row rs reps i)) usize_max); [done|]. rewrite (proj2 (Z.ltb_lt _ _)) by rlia. done. }
  apply Hm. unfold replaced_row. destruct (pending_step reps i (proj1 Hasc)) as [(ns & es & E & Hin & ->)|(E & -> & Hh)]; rewrite E.
  - rewrite Z.eqb_refl. cbn. by rewrite zlen_zip by apply (replacement_lengths _ _ _ Hin).
  - destruct (filter _ reps) as [|[r [ns es]] rest] eqn:Ef; [done|]. by rewrite (proj2 (Z.eqb_neq _ _)) by done.
Qed.

Lemma widths_spec :
  foldM (push_width (offsets c) (zlen rs)) ([0], reps, 0) (seqZ 0 n) =
  if u32_max <? zlen (concat new) then Err (budget "adjacency entries exceed u32") else Ok (widths n).
Proof.
  assert (∀ k i, Z.of_nat k + i = n → 0 ≤ i → zlen (concat (take (Z.to_nat i) new)) ≤ u32_max →
    foldM (push_width (offsets c) (zlen rs)) (widths i) (seqZ i (Z.of_nat k)) =
    if u32_max <? zlen (concat new) then Err (budget "adjacency entries exceed u32") else Ok (widths n)) as H.
  { induction k as [|k IH]; intros i Hk Hi Ht.
    - cbn. replace i with n in * by lia. rewrite take_ge in Ht by (rewrite length_new; lia).
      by rewrite (proj2 (Z.ltb_ge _ _)) by lia.
    - rewrite seqZ_cons by lia. cbn [foldM]. rewrite push_width_spec by lia.
      assert (zlen (concat (take (Z.to_nat (i + 1)) new)) ≤ zlen (concat new)) as Hle.
      { etransitivity; [apply (concat_take_le _ _ (length new))|by rewrite firstn_all]. rewrite length_new. lia. }
      destruct (Z.ltb_spec u32_max (zlen (concat (take (Z.to_nat (i + 1)) new)))).
      + rewrite (proj2 (Z.ltb_lt _ _)) by lia. done.
      + cbn [mbind outcome_bind]. replace (Z.pred (Z.of_nat (S k))) with (Z.of_nat k) by lia.
        apply (IH (i + 1)); lia. }
  pose proof (zlen_nonneg rs). specialize (H (Z.to_nat n) 0 ltac:(lia) ltac:(lia)). rewrite Z2Nat.id in H by lia. 
  change (concat (take (Z.to_nat 0) new)) with (@nil (Z * Z)) in H. rewrite zlen_nil in H. rewrite <- H by rlia.
  unfold widths. cbn [take Z.to_nat scan]. f_equal. f_equal. f_equal. symmetry. apply filter_all.
  destruct Hasc as [_ Hnn]. exact (proj1 (Forall_fmap _ _ _) Hnn).
Qed.

(** Rows between two positions that no replacement names are copied. *)
Lemma copied_rows (p q : nat) :
  (p ≤ q)%nat → (Z.of_nat q ≤ n) → (∀ i, Z.of_nat p ≤ i < Z.of_nat q → replacement reps i = None) →
  ∃ x, concat (take q new) = concat (take p new) ++ x ∧ concat (take q rs) = concat (take p rs) ++ x.
Proof.
  intros Hpq Hq Hnone. induction q as [|q IH].
  - exists []. replace p with 0%nat by lia. done.
  - destruct (decide (p = S q)) as [->|Hne]; [exists []; by rewrite !app_nil_r|].
    destruct IH as (x & Hx & Hy); [lia|lia|intros i Hi; apply Hnone; lia|].
    exists (x ++ default [] (rs !! q)). split.
    + pose proof (new_lookup (Z.of_nat q) ltac:(lia)) as Hl. rewrite Nat2Z.id in Hl.
      rewrite (concat_take_S _ _ _ Hl), Hx, <- app_assoc. unfold replaced_row. by rewrite Hnone, Nat2Z.id by lia.
    + destruct (rs !! q) as [r|] eqn:Hr.
      * by rewrite (concat_take_S _ _ _ Hr), Hy, <- app_assoc.
      * apply lookup_ge_None in Hr. cbn. rewrite app_nil_r, <- Hy, !take_ge by lia. done.
Qed.

(** The state of the second loop before position [p]. *)
Definition spliced (p : nat) : list Z * list Z * Z :=
  ((concat (take p new)).*1, (concat (take p new)).*2, zlen (concat (take p rs))).

Lemma column_range {A} (f : Z * Z → A) (a b : nat) x :
  concat (take b rs) = concat (take a rs) ++ x →
  index_range (E := Error) (f <$> concat rs) (zlen (concat (take a rs))) (zlen (concat (take b rs))) = Ok (f <$> x).
Proof.
  intros E. unfold index_range. rewrite fmap_range. rewrite <- (take_drop b rs) at 1. rewrite concat_app, E, <- app_assoc, zlen_app.
  by rewrite get_range_app.
Qed.

Lemma offset_at (p : nat) :
  (if Z.of_nat p <? zlen rs then index_at (offsets c) (Z.of_nat p) else Ok (zlen (neighbors c)) : Result Z)
  = Ok (zlen (concat (take p rs))).
Proof.
  destruct Hc as (-> & -> & _). destruct (Z.ltb_spec (Z.of_nat p) (zlen rs)) as [Hlt|Hge]; unfold zlen in *.
  - rewrite (index_at_lookup _ _ (0 + zlen (concat (take p rs)))); [done|lia|]. rewrite Nat2Z.id, scan_lookup by lia. done.
  - rewrite length_fmap, take_ge by lia. done.
Qed.

Lemma offset_after (p : nat) :
  (if Z.of_nat p <? zlen rs then index_at (offsets c) (Z.of_nat p + 1) else Ok (zlen (neighbors c)) : Result Z)
  = Ok (zlen (concat (take (S p) rs))).
Proof.
  destruct Hc as (-> & -> & _). destruct (Z.ltb_spec (Z.of_nat p) (zlen rs)) as [Hlt|Hge]; unfold zlen in *.
  - rewrite (index_at_lookup _ _ (0 + zlen (concat (take (S p) rs)))); [done|lia|].
    replace (Z.to_nat (Z.of_nat p + 1)) with (S p) by lia. rewrite scan_lookup by lia. done.
  - rewrite length_fmap, take_ge by lia. done.
Qed.

Lemma replacement_app l k i : replacement (l ++ k) i = replacement l i ∪ replacement k i.
Proof.
  induction l as [|[r [ns es]] l IH]; cbn; [by destruct (replacement k i)|]. destruct (r =? i); [|done].
  by destruct (replacement k i).
Qed.

Lemma replacement_below l i : Forall (λ p : Z * (list Z * list Z), p.1 < i) l → replacement l i = None.
Proof.
  induction 1 as [|[r [ns es]] l Hr _ IH]; [done|]. cbn in *. by rewrite (proj2 (Z.eqb_neq _ _)) by lia.
Qed.

Lemma splice_spec rest done (p : nat) :
  reps = done ++ rest → Forall (λ e, e.1 < Z.of_nat p) done → Forall (λ e, Z.of_nat p ≤ e.1) rest → Z.of_nat p ≤ n →
  ∃ q, foldM (splice_row c (zlen rs)) (spliced p) rest = Ok (spliced q) ∧ Z.of_nat q ≤ n
       ∧ ∀ i, Z.of_nat q ≤ i → replacement reps i = None.
Proof.
  revert done p. induction rest as [|[r [ns es]] rest IH]; intros done p Er Hd Hrest Hp.
  - exists p. split_and!; [done|done|]. intros i Hi. rewrite Er, app_nil_r. apply replacement_below.
    apply (Forall_impl _ _ _ Hd). cbn. lia.
  - apply Forall_cons in Hrest as [Hpr Hrest]. cbn in Hpr.
    assert ((r, (ns, es)) ∈ reps) as Hin by (rewrite Er; set_solver).
    destruct (replacement_lengths r ns es Hin) as [Hlen Hr].
    assert (Forall (λ e, r < e.1) rest) as Habove.
    { destruct Hasc as [Hs _]. rewrite Er, fmap_app in Hs. apply StronglySorted_app_1_r in Hs.
      apply StronglySorted_inv in Hs as [_ Hs]. exact (proj1 (Forall_fmap _ _ _) Hs). }
    assert (∃ q : nat, r = Z.of_nat q) as [q ->] by (exists (Z.to_nat r); lia).
    destruct (copied_rows p q) as (x & Hx & Hy); [lia|lia| |].
    { intros i Hi. rewrite Er, replacement_app. rewrite (replacement_below done) by (apply (Forall_impl _ _ _ Hd); lia).
      rewrite (left_id_L None (∪)). cbn. rewrite (proj2 (Z.eqb_neq _ _)) by lia. apply replacement_above.
      apply Forall_fmap. apply (Forall_impl _ _ _ Habove). cbn. lia. }
    assert (new !! q = Some (zip ns es)) as Hl.
    { pose proof (new_lookup (Z.of_nat q) ltac:(lia)) as Hl. rewrite Nat2Z.id in Hl. rewrite Hl. unfold replaced_row.
      rewrite Er, replacement_app, (replacement_below done) by (apply (Forall_impl _ _ _ Hd); lia).
      rewrite (left_id_L None (∪)). cbn. by rewrite Z.eqb_refl. }
    cbn [foldM]. unfold splice_row at 2, spliced at 1. rewrite offset_at, offset_after. cbn [mbind outcome_bind].
    destruct Hc as (_ & -> & ->). rewrite !(column_range _ p q x) by done. cbn [mbind outcome_bind].
    assert ((zip ns es).*1 = ns ∧ (zip ns es).*2 = es) as [E1 E2].
    { unfold zlen in Hlen. split; [apply fst_zip; lia|apply snd_zip; lia]. }
    destruct (IH (done ++ [(Z.of_nat q, (ns, es))]) (S q)) as (q' & Hq' & Hn' & Hnone).
    { by rewrite <- app_assoc. }
    { apply Forall_app. split; [apply (Forall_impl _ _ _ Hd); cbn; lia|]. repeat constructor. cbn. lia. }
    { apply (Forall_impl _ _ _ Habove). lia. }
    { lia. }
    exists q'. split_and!; [|done|done]. rewrite <- Hq'. unfold spliced. f_equal.
    rewrite (concat_take_S _ _ _ Hl), Hx, !fmap_app, E1, E2, <- !app_assoc. done.
Qed.

Lemma columns_agree : zlen (neighbors c) = zlen (edges c) ∧ last (offsets c) = Some (zlen (neighbors c)).
Proof. destruct Hc as (-> & -> & ->). rewrite last_scan. unfold zlen. by rewrite !length_fmap. Qed.

Lemma replace_rows_loops :
  if u32_max <? zlen (concat new) then replace_rows c n reps = Err (budget "adjacency entries exceed u32")
  else ∃ c', replace_rows c n reps = Ok c' ∧ csr_rows c' new.
Proof.
  destruct columns_agree as [Hne Hlast]. unfold replace_rows. rewrite rows_count, (proj2 (Z.ltb_ge n (zlen rs))) by lia.
  rewrite (proj2 (Z.eqb_eq _ _) Hne), bool_decide_true by done. cbn [negb orb].
  rewrite (proj2 (forallb_Forall _ _) Hvalid). cbn [negb]. rewrite widths_spec.
  destruct (Z.ltb_spec u32_max (zlen (concat new))); [done|]. cbn [mbind outcome_bind].
  pose proof (zlen_nonneg rs).
  destruct (splice_spec reps [] 0) as (q & Hq & Hqn & Hnone); [done|constructor| |lia|].
  { destruct Hasc as [_ Hnn]. exact (proj1 (Forall_fmap _ _ _) Hnn). }
  change (spliced 0) with (@nil Z, @nil Z, 0) in Hq. unfold widths. cbn [mbind outcome_bind]. rewrite Hq. unfold spliced. cbn [mbind outcome_bind].
  destruct (copied_rows q (Z.to_nat n)) as (x & Hx & Hy); [lia|lia|intros i Hi; apply Hnone; lia|].
  rewrite !take_ge in Hx by (rewrite length_new; lia). rewrite (take_ge rs (Z.to_nat n)) in Hy by (unfold zlen in Hn; lia).
  assert (concat (take (length rs) rs) = concat (take q rs) ++ x) as Hy' by (by rewrite firstn_all).
  pose proof (column_range fst q (length rs) x Hy') as R1. pose proof (column_range snd q (length rs) x Hy') as R2.
  rewrite firstn_all in R1, R2.
  assert (∀ (A : Type) (f : Z * Z → A), zlen (f <$> concat rs) = zlen (concat rs)) as Hz by (intros; unfold zlen; by rewrite length_fmap).
  destruct Hc as (_ & -> & ->). rewrite !Hz, R1, R2. cbn [mbind outcome_bind]. rewrite <- !fmap_app, <- Hx.
  rewrite (take_ge new (Z.to_nat n)) by (rewrite length_new; lia).
  assert (∀ (A : Type) (f : Z * Z → A), zlen (f <$> concat new) = zlen (concat new)) as Hz' by (intros; unfold zlen; by rewrite length_fmap).
  rewrite !Hz', Z.eqb_refl. cbn [negb orb]. eexists. split; [done|]. done.
Qed.
End replace.

(** ** Shared columns *)

Lemma offsets_scan (l : list (Z * Z)) os k :
  head os = Some k → non_decreasing os = true → last os = Some (k + zlen l) → ∃ rs, scan k rs = os ∧ concat rs = l.
Proof.
  revert k l. induction os as [|a os IH]; intros k l Hh Hn Hl; [done|]. cbn in Hh. simplify_eq.
  destruct os as [|b os].
  - cbn in Hl. simplify_eq. assert (l = []) as -> by (destruct l; [done|unfold zlen in *; cbn in *; lia]). by exists [].
  - cbn [non_decreasing] in Hn. apply andb_true_iff in Hn as [Hab%Z.leb_le Hn].
    assert (b ≤ k + zlen l) as Hb.
    { clear IH. revert b Hab Hn Hl. induction os as [|b' os IH]; intros b Hab Hn Hl; [cbn in Hl; simplify_eq; lia|].
      cbn [non_decreasing] in Hn. apply andb_true_iff in Hn as [Hbb%Z.leb_le Hn].
      assert (b' ≤ k + zlen l); [|lia]. apply (IH b'); [lia|done|]. by rewrite !last_cons_cons in *. }
    set (w := Z.to_nat (b - k)). destruct (IH b (drop w l)) as (rs & Hs & Hr); [done|done| |].
    + rewrite last_cons_cons in Hl. rewrite Hl. f_equal. unfold zlen in *. rewrite length_drop. lia.
    + exists (take w l :: rs). cbn [scan concat]. rewrite Hr, take_drop. split; [|done]. f_equal. rewrite <- Hs. f_equal.
      unfold zlen in *. rewrite length_take. lia.
Qed.

Lemma checked_columns os ns es c :
  head os = Some 0 → non_decreasing os = true → last os = Some (zlen ns) → zlen ns = zlen es →
  offsets c = os → neighbors c = ns → edges c = es → ∃ rs, csr_rows c rs.
Proof.
  intros Hh Hn Hl He Eo En Ee. destruct (offsets_scan (zip ns es) os 0) as (rs & Hs & Hr); [done|done| |].
  - rewrite Hl. f_equal. rewrite zlen_zip by done. lia.
  - exists rs. unfold csr_rows. rewrite Eo, En, Ee, Hs, Hr. unfold zlen in He.
    split_and!; [done|symmetry; apply fst_zip; lia|symmetry; apply snd_zip; lia].
Qed.

Lemma csr_from_shared_spec os ns es c :
  in_bounds U32_SIZE U32_SIZE os → in_bounds U32_SIZE U32_SIZE ns → in_bounds U32_SIZE U32_SIZE es →
  from_shared os ns es = Ok c → ∃ rs, csr_rows c rs.
Proof.
  intros Ho Hns Hes. unfold from_shared. destruct (_ || _) eqn:E; [done|]. intros [= <-].
  apply orb_false_iff in E as [[[Hh Hn]%orb_false_iff Hl]%orb_false_iff He].
  apply negb_false_iff in Hh, Hn, Hl, He. apply bool_decide_eq_true in Hh, Hl. apply Z.eqb_eq in He.
  assert (∀ v : SharedFlat Z, in_bounds U32_SIZE U32_SIZE v → zlen (as_slice U32_SIZE v) = shared_len v) as Hz.
  { intros v. apply zlen_as_slice; unfold U32_SIZE; first [rlia|reflexivity]. }
  apply (checked_columns (as_slice U32_SIZE os) (as_slice U32_SIZE ns) (as_slice U32_SIZE es));
    [done|done|by rewrite Hz|by rewrite !Hz|done..].
Qed.

(** Offsets that keep the old prefix and repeat its last value add empty rows. *)
Lemma rebase_cow_spec c rs os c' :
  csr_rows c rs → prefix (offsets c) (as_slice U32_SIZE os) → rebase_cow_offsets_extension c os = Ok c' →
  csr_rows c' (rs ++ replicate (length (as_slice U32_SIZE os) - length (offsets c)) []).
Proof.
  intros (Ho & Hns & Hes) [k Hk]. unfold rebase_cow_offsets_extension. rewrite Hk, Ho, last_scan. cbn [ok_or mbind outcome_bind].
  destruct (_ || _) eqn:E; [done|]. intros [= <-]. apply orb_false_iff in E as [_ E].
  rewrite drop_app_length in E. unfold csr_rows. cbn. rewrite Hk, Ho, scan_empty, concat_empty.
  split_and!; [|done|done]. f_equal. rewrite length_app. replace (_ + _ - _)%nat with (length k) by lia.
  clear Hk. induction k as [|v k IH]; [done|]. cbn in *. apply orb_false_iff in E as [Ev E]. apply negb_false_iff, Z.eqb_eq in Ev.
  rewrite <- (IH E). by subst.
Qed.

(** The two directions hold the same edges. *)
Lemma transposed_rows triples u v e : (v, e) ∈ row_of triples u ↔ (u, e) ∈ row_of (transpose <$> triples) v.
Proof.
  unfold row_of. rewrite !elem_of_sort_pairs, !list_elem_of_fmap. split.
  - intros ([[u' v'] e'] & ? & [Hu Ht]%list_elem_of_filter). simplify_eq/=. eexists (_, _, _). split; [done|].
    apply list_elem_of_filter. split; [done|]. by apply (list_elem_of_fmap_2 transpose) in Ht.
  - intros ([[v' u'] e'] & ? & [Hv Ht]%list_elem_of_filter). apply list_elem_of_fmap in Ht as ([[]] & ? & ?). simplify_eq/=. eexists (_, _, _). split; [done|].
    by apply list_elem_of_filter.
Qed.

Lemma transposed_ok n triples :
  nonnegative triples → sources_in n triples → targets_in n triples →
  nonnegative (transpose <$> triples) ∧ sources_in n (transpose <$> triples) ∧ targets_in n (transpose <$> triples).
Proof.
  unfold sources_in, targets_in, nonnegative. rewrite !Forall_fmap. intros Hnn Hs Ht. split_and!;
    [apply (Forall_impl _ _ _ Hnn)|apply (Forall_impl _ _ _ Ht)|apply (Forall_impl _ _ _ Hs)]; intros [[]]; cbn; tauto.
Qed.

#[global] Instance transpose_inj : Inj (=) (=) transpose.
Proof. intros [[]] [[]]. cbn. congruence. Qed.

(** Both directions of a graph. *)
Lemma build_both n triples :
  0 ≤ n < usize_max → nonnegative triples → zlen triples ≤ u32_max → sources_in n triples → targets_in n triples →
  ∃ c c', build n triples = Ok c ∧ build_transposed n triples = Ok c'
    ∧ csr_rows c (rows_of n triples) ∧ csr_rows c' (rows_of n (transpose <$> triples)).
Proof.
  intros Hn Hnn Hlen Hs Ht. pose proof (build_owned_spec n triples Hn Hnn Hlen) as Hb. rewrite !bool_decide_true in Hb by done.
  destruct Hb as (c & Hb & Hc).
  destruct (transposed_ok n triples Hnn Hs Ht) as (Hnn' & Hs' & Ht').
  assert (zlen (transpose <$> triples) = zlen triples) as El by (unfold zlen; by rewrite length_fmap).
  pose proof (build_owned_spec n _ Hn Hnn' ltac:(lia)) as Hb'. rewrite !bool_decide_true in Hb' by done.
  destruct Hb' as (c' & Hb' & Hc'). by exists c, c'.
Qed.

(** ** Theorems *)

(** C20: building adjacency from edges gives every node exactly its entries, in
    order of neighbour and edge, and the transposed build gives every node the
    edges into it.  An endpoint that is no node is refused. *)
Theorem csr_build n triples :
  0 ≤ n < usize_max → nonnegative triples → zlen triples ≤ u32_max →
  let built m rows := ∃ c, m = Ok c ∧ csr_rows c rows ∧ ∀ v, 0 ≤ v → row c v = rows !! Z.to_nat v in
  (sources_in n triples → targets_in n triples →
   built (build n triples) (rows_of n triples)
   ∧ built (build_transposed n triples) (rows_of n (transpose <$> triples))
   ∧ ∀ u v e, 0 ≤ u < n → 0 ≤ v < n → (v, e) ∈ row_of triples u ↔ (u, e) ∈ row_of (transpose <$> triples) v)
  ∧ (¬ (sources_in n triples ∧ targets_in n triples) →
     ∃ e, build n triples = Err e ∧ code e = InvalidData).
Proof.
  intros Hn Hnn Hlen built. split.
  - intros Hs Ht. destruct (build_both n triples Hn Hnn Hlen Hs Ht) as (c & c' & Hb & Hb' & Hc & Hc'). split_and!.
    + exists c. split_and!; [done..|]. intros v Hv. by apply row_csr.
    + exists c'. split_and!; [done..|]. intros v Hv. by apply row_csr.
    + intros u v e Hu Hv. apply transposed_rows.
  - intros Hne. pose proof (build_owned_spec n triples Hn Hnn Hlen) as Hb. unfold build.
    repeat case_bool_decide; try (destruct Hne; done); rewrite Hb; eauto.
Qed.

(** the operations that change rows without building them again keep a
    valid representation: extending adds empty rows, replacing puts the given
    rows in the place of those they name and leaves the others, and columns
    read from shared allocations are accepted only when they represent rows. *)
Theorem csr_updates c rs n reps :
  csr_rows c rs → 0 ≤ n < usize_max →
  (if n <? zlen rs then ∃ e, extend_rows c n = Err e ∧ code e = InvalidData
   else ∃ c', extend_rows c n = Ok c' ∧ csr_rows c' (rs ++ replicate (Z.to_nat (n - zlen rs)) []))
  ∧ (ascending reps → zlen rs ≤ n ≤ u32_max + 1 →
     if negb (forallb (replacement_valid n) reps) then ∃ e, replace_rows c n reps = Err e ∧ code e = CorruptStorage
     else if u32_max <? zlen (concat (replaced n rs reps))
     then ∃ e, replace_rows c n reps = Err e ∧ code e = ResultBudgetExceeded
     else ∃ c', replace_rows c n reps = Ok c' ∧ csr_rows c' (replaced n rs reps))
  ∧ (∀ os ns es c', in_bounds U32_SIZE U32_SIZE os → in_bounds U32_SIZE U32_SIZE ns → in_bounds U32_SIZE U32_SIZE es →
     from_shared os ns es = Ok c' → ∃ rs', csr_rows c' rs')
  ∧ (∀ os c', prefix (offsets c) (as_slice U32_SIZE os) → rebase_cow_offsets_extension c os = Ok c' →
     csr_rows c' (rs ++ replicate (length (as_slice U32_SIZE os) - length (offsets c)) [])).
Proof.
  intros Hc Hn. split_and!.
  - pose proof (extend_rows_spec c rs n Hc Hn). case_match; eauto.
  - intros Ha Hr. destruct (forallb (replacement_valid n) reps) eqn:Ef; cbn [negb].
    + pose proof (replace_rows_loops c rs n reps Hc Hr Ha (proj1 (forallb_Forall _ _) Ef)). case_match; eauto.
    + unfold replace_rows. rewrite (rows_count c rs Hc), (proj2 (Z.ltb_ge n (zlen rs))) by lia.
      destruct (columns_agree c rs Hc) as [-> ->]. rewrite Z.eqb_refl, bool_decide_true, Ef by done. cbn. eauto.
  - intros os ns es c' Ho Hns Hes. by apply csr_from_shared_spec.
  - intros. by apply rebase_cow_spec.
Qed.

(** Four nodes, a parallel pair of edges, and a new row for node 2. *)
Definition some_edges : list (Z * Z * Z) := [(2, 1, 7); (0, 1, 3); (0, 1, 2); (1, 0, 5)].

Lemma csr_build_witness :
  (∃ c, build 4 some_edges = Ok c ∧ row c 0 = Some [(1, 2); (1, 3)])
  ∧ ∃ e, build 2 some_edges = Err e ∧ code e = InvalidData.
Proof.
  assert (nonnegative some_edges ∧ zlen some_edges ≤ u32_max) as [Hnn Hl] by (split; [decided|vm_compute; discriminate]).
  split.
  - destruct (csr_build 4 some_edges ltac:(rlia) Hnn Hl) as [Hb _].
    destruct Hb as ((c & Hc & _ & Hr) & _); [decided..|]. exists c. split; [exact Hc|]. rewrite Hr by lia. vm_compute. reflexivity.
  - destruct (csr_build 2 some_edges ltac:(rlia) Hnn Hl) as [_ Hb]. apply Hb. intros [Hs _].
    apply Forall_cons in Hs as [Hs _]. cbn in Hs. lia.
Defined.

Definition some_csr : Csr := owned_csr [0; 1; 1] [1] [9].

Lemma csr_updates_witness :
  ∃ c', replace_rows some_csr 3 [(2, ([0; 1], [4; 5]))] = Ok c' ∧ csr_rows c' [[(1, 9)]; []; [(0, 4); (1, 5)]].
Proof.
  destruct (csr_updates some_csr [[(1, 9)]; []] 3 [(2, ([0; 1], [4; 5]))]) as (_ & Hr & _); [done|rlia|].
  apply Hr; [|vm_compute; split; discriminate]. split; [repeat constructor|]. apply Forall_singleton. cbn. lia.
Defined.
