(* ===== verification/Algorithms.v ===== *)
(** * Graph algorithms: [crates/graph/src/algorithms.rs]

    The reference algorithms on adjacency: traversals, shortest paths,
    components, triangles and cores, and the frontier expansion of [Csr].  The
    cancellation callback may answer anything at each call: it is a sequence of
    answers, and the number of calls made is threaded through. *)

From stdpp Require Import prelude gmap strings sorting.
From Stdlib Require Import ZArith Lia.
From S2P Require Import Prelude Machine Types Shared Csr.

Local Open Scope Z_scope.

(** ** Cancellation *)

(** [FnMut() -> Result<()>]: the error of the [k]-th call, if it fails. *)
Definition Check : Type := nat → option Error.

(** A computation that calls the callback. *)
Definition Checked (A : Type) : Type := nat → Result (A * nat).

#[global] Instance Checked_ret : MRet Checked := λ A a k, Ok (a, k).
#[global] Instance Checked_bind : MBind Checked := λ A B f m k, '(a, k) ← m k; f a k.

(** A step that does not call it. *)
Definition step {A} (m : Result A) : Checked A := λ k, a ← m; Ok (a, k).

Definition call (check : Check) : Checked unit :=
  λ k, match check k with None => Ok (tt, S k) | Some e => Err e end.

(** [if condition { check()?; }]. *)
Definition call_if (check : Check) (condition : bool) : Checked unit :=
  if condition then call check else mret tt.

(** The result of an algorithm called with the callback. *)
Definition run {A} (m : Checked A) : Result A := fst <$> m O.

(** [|| Ok(())]. *)
Definition never : Check := λ _, None.

Fixpoint each {A B} (f : B → A → Checked B) (b : B) (l : list A) : Checked B :=
  match l with
  | [] => mret b
  | x :: l => b ← f b x; each f b l
  end.

(** ** [AdjacencyRead] *)

Record AdjacencyRead := mkRead {
  node_count : Z;
  read_row : Z → option (list (Z * Z));
}.

(** [append_row] into a cleared buffer, then [sort_unstable]: an absent row
    leaves it empty. *)
Definition append_row (a : AdjacencyRead) (node : Z) (output : list (Z * Z)) : list (Z * Z) :=
  match read_row a node with Some r => output ++ r | None => output end.

Definition sorted_row (a : AdjacencyRead) (node : Z) : list (Z * Z) := sort_pairs (append_row a node []).

Definition degree (a : AdjacencyRead) (node : Z) : Z :=
  match read_row a node with Some r => zlen r | None => 0 end.

Definition edge_count (a : AdjacencyRead) : Z :=
  foldr Z.add 0 (degree a <$> seqZ 0 (node_count a)).

(** The implementation on [Csr]. *)
Definition csr_read (c : Csr) : AdjacencyRead :=
  mkRead (saturating_sub (zlen (offsets c)) 1) (row c).

Definition csr_degree (c : Csr) (node : Z) : Z :=
  match get (offsets c) node, get (offsets c) (node + 1) with
  | Some start, Some end_ => saturating_sub end_ start
  | _, _ => 0
  end.

Definition csr_edge_count (c : Csr) : Z := zlen (neighbors c).

(** A bound on the pushes of a traversal: the entries of all rows. *)
Definition entry_count (a : AdjacencyRead) : nat :=
  sum_list ((λ v, length (sorted_row a v)) <$> seqZ 0 (node_count a)).

Definition query_type (m : string) : Error := Error_new QueryType m.

(** [x & mask == 0]. *)
Definition masked (x mask : Z) : bool := Z.land x mask =? 0.

Section algorithms.
Context (check : Check) (adjacency : AdjacencyRead).

(** ** Breadth-first distances *)

(** One neighbour in [bfs_cancellable]: distances, frontier and scanned count. *)
Definition bfs_neighbor (next : Z) (s : list (option Z) * list Z * Z) (entry : Z * Z)
    : Checked (list (option Z) * list Z * Z) :=
  let '(distances, frontier, scanned) := s in
  let scanned := scanned + 1 in
  _ ← call_if check (masked scanned 4095);
  known ← step (index_at distances entry.1);
  match known with
  | None =>
      distances ← step (index_set distances entry.1 (Some next));
      mret (distances, frontier ++ [entry.1], scanned)
  | Some _ => mret (distances, frontier, scanned)
  end.

Fixpoint bfs_loop (fuel : nat) (distances : list (option Z)) (frontier : list Z) (scanned : Z)
    : Checked (list (option Z)) :=
  match fuel with
  | O => step (Abort OutOfFuel)
  | S fuel =>
      match frontier with
      | [] => mret distances
      | node :: frontier =>
          _ ← call check;
          known ← step (index_at distances node);
          let next := saturating_add u32_max (default 0 known) 1 in
          '(distances, frontier, scanned) ←
            each (bfs_neighbor next) (distances, frontier, scanned) (sorted_row adjacency node);
          bfs_loop fuel distances frontier scanned
      end
  end.

(** Every node enters the frontier once. *)
Definition bfs_cancellable (source : Z) : Checked (list (option Z)) :=
  if node_count adjacency <=? source then step (Err (query_type "BFS source is out of bounds"))
  else
    let distances := replicate (Z.to_nat (node_count adjacency)) None in
    distances ← step (index_set distances source (Some 0));
    bfs_loop (S (Z.to_nat (node_count adjacency))) distances [source] 0.

(** ** Depth-first preorder *)

(** The stack has its top first.  The neighbours are pushed in reverse, those
    already visited left out, so that the smallest is on top. *)
Definition unvisited (visited : list bool) (vs : list Z) : Checked (list Z) :=
  each (λ acc v, seen ← step (index_at visited v); mret (if seen : bool then acc else acc ++ [v])) [] vs.

Fixpoint dfs_loop (fuel : nat) (visited : list bool) (stack order : list Z) : Checked (list Z) :=
  match fuel with
  | O => step (Abort OutOfFuel)
  | S fuel =>
      match stack with
      | [] => mret order
      | node :: stack =>
          _ ← call_if check (masked (zlen order) 1023);
          seen ← step (index_at visited node);
          if seen : bool then dfs_loop fuel visited stack order
          else
            visited ← step (index_set visited node true);
            let order := order ++ [node] in
            unseen ← unvisited visited (sorted_row adjacency node).*1;
            dfs_loop fuel visited (unseen ++ stack) order
      end
  end.

(** Every entry is pushed at most once, and the source. *)
Definition dfs_cancellable (source : Z) : Checked (list Z) :=
  if node_count adjacency <=? source then step (Err (query_type "DFS source is out of bounds"))
  else
    let visited := replicate (Z.to_nat (node_count adjacency)) false in
    dfs_loop (S (S (entry_count adjacency))) visited [source] [].

(** ** Shortest path *)

Definition path_neighbor (node : Z) (s : list (option Z) * list bool * list Z) (entry : Z * Z)
    : Checked (list (option Z) * list bool * list Z) :=
  let '(predecessor, visited, queue) := s in
  seen ← step (index_at visited entry.1);
  if seen : bool then mret s
  else
    visited ← step (index_set visited entry.1 true);
    predecessor ← step (index_set predecessor entry.1 (Some node));
    mret (predecessor, visited, queue ++ [entry.1]).

Fixpoint path_loop (fuel : nat) (target : Z) (predecessor : list (option Z)) (visited : list bool) (queue : list Z)
    : Checked (list (option Z) * list bool) :=
  match fuel with
  | O => step (Abort OutOfFuel)
  | S fuel =>
      match queue with
      | [] => mret (predecessor, visited)
      | node :: queue =>
          _ ← call_if check (masked node 1023);
          if node =? target then mret (predecessor, visited)
          else
            '(predecessor, visited, queue) ←
              each (path_neighbor node) (predecessor, visited, queue) (sorted_row adjacency node);
            path_loop fuel target predecessor visited queue
      end
  end.

(** Follows the predecessors from the target; [path] is in the order pushed. *)
Fixpoint path_back (fuel : nat) (predecessor : list (option Z)) (source cursor : Z) (path : list Z) : Result (list Z) :=
  match fuel with
  | O => Abort OutOfFuel
  | S fuel =>
      if cursor =? source then Ok path
      else
        previous ← index_at predecessor cursor;
        match previous with
        | None => Err (Error_internal "shortest-path predecessor chain is incomplete")
        | Some previous => path_back fuel predecessor source previous (path ++ [previous])
        end
  end.

Definition shortest_path_cancellable (source target : Z) : Checked (option (list Z)) :=
  let n := node_count adjacency in
  if (n <=? source) || (n <=? target) then step (Err (query_type "shortest-path endpoint is out of bounds"))
  else
    _ ← call check;
    let predecessor := replicate (Z.to_nat n) None in
    visited ← step (index_set (replicate (Z.to_nat n) false) source true);
    '(predecessor, visited) ← path_loop (S (Z.to_nat n)) target predecessor visited [source];
    _ ← call check;
    reached ← step (index_at visited target);
    if negb reached then mret None
    else
      path ← step (path_back (S (Z.to_nat n)) predecessor source target [target]);
      mret (Some (rev path)).
End algorithms.

Definition bfs (a : AdjacencyRead) (source : Z) : Result (list (option Z)) := run (bfs_cancellable never a source).
Definition dfs (a : AdjacencyRead) (source : Z) : Result (list Z) := run (dfs_cancellable never a source).
Definition shortest_path (a : AdjacencyRead) (source target : Z) : Result (option (list Z)) :=
  run (shortest_path_cancellable never a source target).

(** ** Frontier expansion of [Csr] *)

Section frontier.
Context (check : Check) (c : Csr).

Definition csr_nodes : Z := saturating_sub (zlen (offsets c)) 1.

Definition seed_frontier (s : list (option Z) * list Z) (seed : Z) : Checked (list (option Z) * list Z) :=
  let '(distance, frontier) := s in
  if csr_nodes <=? seed then mret s
  else
    known ← step (index_at distance seed);
    match known with
    | Some _ => mret s
    | None => distance ← step (index_set distance seed (Some 0)); mret (distance, frontier ++ [seed])
    end.

Definition expand_neighbor (next_hop : Z) (s : list (option Z) * list Z * Z) (entry : Z * Z)
    : Checked (list (option Z) * list Z * Z) :=
  let '(distance, next, since_check) := s in
  let since_check := saturating_add usize_max since_check 1 in
  since_check ← (if 4096 <=? since_check then _ ← call check; mret 0 else mret since_check);
  known ← step (index_at distance entry.1);
  match known with
  | None =>
      distance ← step (index_set distance entry.1 (Some next_hop));
      mret (distance, next ++ [entry.1], since_check)
  | Some _ => mret (distance, next, since_check)
  end.

Definition expand_node (next_hop : Z) (s : list (option Z) * list Z * Z) (node : Z)
    : Checked (list (option Z) * list Z * Z) :=
  match row c node with
  | None => mret s
  | Some r => each (expand_neighbor next_hop) s r
  end.

Fixpoint frontier_loop (fuel : nat) (max_hops : option Z) (distance : list (option Z)) (frontier : list Z)
    (hop since_check : Z) : Checked (list (option Z)) :=
  match fuel with
  | O => step (Abort OutOfFuel)
  | S fuel =>
      if bool_decide (frontier = []) then mret distance
      else if match max_hops with Some max => max <=? hop | None => false end then mret distance
      else
        _ ← call check;
        let next_hop := saturating_add u32_max hop 1 in
        '(distance, next, since_check) ← each (expand_node next_hop) (distance, [], since_check) frontier;
        frontier_loop fuel max_hops distance next next_hop since_check
  end.

(** Every level but the last reaches a new node. *)
Definition multi_source_frontier_distances (seeds : list Z) (max_hops : option Z) : Checked (list (option Z)) :=
  let distance := replicate (Z.to_nat csr_nodes) None in
  '(distance, frontier) ← each seed_frontier (distance, []) seeds;
  frontier_loop (S (S (Z.to_nat csr_nodes))) max_hops distance frontier 0 0.

Definition multi_source_reachable (seeds : list Z) (min_hops : Z) (max_hops : option Z) : Checked (list Z) :=
  distance ← multi_source_frontier_distances seeds max_hops;
  mret (omap (λ '(node, hop), match hop with Some h => if min_hops <=? h then Some node else None | None => None end)
          (zip (seqZ 0 (zlen distance)) distance)).
End frontier.
