(* ===== verification/Layers.v ===== *)
(** * Breadth-first search, abstractly

    Searching in layers over any relation: the invariant of the queue, its
    preservation by the search of one node, and what it says at the end.  The
    searches of [Algorithms] keep it on their own state. *)

From stdpp Require Import prelude gmap relations functions.
From Stdlib Require Import ZArith Lia.
From S2P Require Import Prelude Machine.

Local Open Scope Z_scope.
#[local] Set Warnings "-clear-no-such-hyp".

Section layers.
(** The edges, and the nodes the search starts from. *)
Context (E : relation Z) (seeds : list Z).

Definition reach (d : nat) (v : Z) : Prop := ∃ s, s ∈ seeds ∧ nsteps E d s v.

(** [o] is the least number of hops to [v]. *)
Definition least_hops (v : Z) (o : option nat) : Prop :=
  match o with
  | Some d => reach d v ∧ ∀ m, reach m v → (d ≤ m)%nat
  | None => ∀ m, ¬ reach m v
  end.

Lemma reach_step d u v : reach d u → E u v → reach (S d) v.
Proof. intros (s & Hs & Hp) Hv. exists s. split; [done|]. by eapply nsteps_r. Qed.

Lemma reach_inv d v : reach (S d) v → ∃ u, reach d u ∧ E u v.
Proof. intros (s & Hs & Hp). apply nsteps_inv_r in Hp as (u & Hp & Hu). exists u. split; [by exists s|done]. Qed.

(** What holds of the levels [D] given to nodes, [P] being those searched. *)
Record levels (P : list Z) (D : Z → option nat) : Prop := {
  levels_sound v d : D v = Some d → reach d v;
  levels_seed s : s ∈ seeds → D s = Some O;
  levels_closed u v d : u ∈ P → E u v → D u = Some d → ∃ d', D v = Some d' ∧ (d' ≤ S d)%nat;
  levels_dense v d d' : D v = Some d → (d' ≤ d)%nat → ∃ w, D w = Some d';
}.

(** The queue: nodes of one level, then nodes of the next. *)
Definition band (d : nat) (P Q : list Z) (D : Z → option nat) : Prop :=
  (∃ Q1 Q2, Q = Q1 ++ Q2 ∧ (∀ v, v ∈ Q1 → D v = Some d) ∧ (∀ v, v ∈ Q2 → D v = Some (S d)))
  ∧ ∀ v, v ∈ P → ∃ d', D v = Some d' ∧ (d' ≤ d)%nat.

Record layered (P Q : list Z) (D : Z → option nat) : Prop := {
  layered_levels : levels P D;
  layered_assigned v : is_Some (D v) ↔ v ∈ P ∨ v ∈ Q;
  layered_nodup : NoDup (P ++ Q);
  layered_band : ∃ d, band d P Q D;
}.

(** While the neighbours of [u], of level [d], are searched; [done] are behind. *)
Record searching (P : list Z) (u : Z) (d : nat) (done Q : list Z) (D : Z → option nat) : Prop := {
  searching_levels : levels P D;
  searching_assigned v : is_Some (D v) ↔ v ∈ P ∨ v = u ∨ v ∈ Q;
  searching_nodup : NoDup (P ++ u :: Q);
  searching_band : band d P Q D;
  searching_level : D u = Some d;
  searching_done v : v ∈ done → ∃ d', D v = Some d' ∧ (d' ≤ S d)%nat;
}.

(** ** The start *)

Definition seeded : Z → option nat := λ v, if decide (v ∈ seeds) then Some O else None.

Lemma layered_start Q : (∀ v, v ∈ Q ↔ v ∈ seeds) → NoDup Q → layered [] Q seeded.
Proof.
  intros HQ Hnd. unfold seeded. split; [split|..]; try done.
  - intros v d. case_decide; [|done]. intros [= <-]. exists v. split; [done|constructor].
  - intros s Hs. by rewrite decide_True.
  - set_solver.
  - intros v d d'. case_decide; [|done]. intros [= <-] Hd. assert (d' = 0)%nat as -> by lia. exists v. by rewrite decide_True.
  - intros v. rewrite HQ. assert (v ∉ ([] : list Z)) by set_solver. case_decide.
    + split; [by right|done].
    + split; [by intros [? ?]|]. by intros [?|?].
  - exists 0%nat. split; [|set_solver]. exists Q, []. rewrite app_nil_r. split_and!; [done| |set_solver].
    intros v Hv. rewrite decide_True; [done|]. by apply HQ.
Qed.

Lemma layered_ext P Q D D' : (∀ v, D v = D' v) → layered P Q D → layered P Q D'.
Proof.
  intros HD [[Hsound Hseed Hclosed Hdense] Ha Hn [d [(Q1 & Q2 & EQ & H1 & H2) HP]]]. split; [split|..]; try done.
  - intros v k. rewrite <- HD. apply Hsound.
  - intros s. rewrite <- HD. apply Hseed.
  - intros u v k. rewrite <- HD. setoid_rewrite <- HD. apply Hclosed.
  - intros v k k'. rewrite <- HD. setoid_rewrite <- HD. apply Hdense.
  - intros v. rewrite <- HD. apply Ha.
  - exists d. split; [exists Q1, Q2; split_and!; [done|..]; intros v; rewrite <- HD; auto|]. intros v. setoid_rewrite <- HD. apply HP.
Qed.

(** ** One node *)

Lemma search_enter P u Q D :
  layered P (u :: Q) D → ∃ d, searching P u d [] Q D.
Proof.
  intros [Hl Ha Hn [d [(Q1 & Q2 & EQ & H1 & H2) HP]]].
  destruct Q1 as [|u' Q1]; cbn in EQ; simplify_eq.
  - exists (S d). split; [done| |done| | |set_solver].
    + intros v. rewrite Ha. set_solver.
    + split; [|intros v Hv; destruct (HP v Hv) as (d' & ? & ?); exists d'; split; [done|lia]].
      exists Q, []. rewrite app_nil_r. split_and!; [done| |set_solver]. intros v Hv. apply H2. by right.
    + apply H2. by left.
  - exists d. split; [done| |done| | |set_solver].
    + intros v. rewrite Ha. set_solver.
    + split; [|done]. exists Q1, Q2. split_and!; [done| |done]. intros v Hv. apply H1. by right.
    + apply H1. by left.
Qed.

Lemma search_seen P u d done Q D v :
  searching P u d done Q D → is_Some (D v) → searching P u d (done ++ [v]) Q D.
Proof.
  intros [Hl Ha Hn Hb Hd Hdone] Hv. split; try done.
  intros w [Hw| ->%list_elem_of_singleton]%elem_of_app; [by apply Hdone|].
  destruct Hb as [(Q1 & Q2 & -> & H1 & H2) HP]. apply Ha in Hv as [Hv|[->|Hv]].
  - destruct (HP v Hv) as (d' & ? & ?). exists d'. split; [done|lia].
  - exists d. split; [done|lia].
  - apply elem_of_app in Hv as [Hv|Hv]; [exists d; split; [by apply H1|lia]|exists (S d); split; [by apply H2|done]].
Qed.

Lemma search_new P u d done Q D v :
  searching P u d done Q D → D v = None → E u v →
  searching P u d (done ++ [v]) (Q ++ [v]) (<[v := Some (S d)]> D).
Proof.
  intros [[Hsound Hseed Hclosed Hdense] Ha Hn Hb Hd Hdone] Hv HE.
  assert (∀ w x, D w = Some x → <[v := Some (S d)]> D w = Some x) as Hkeep.
  { intros w x Hw. rewrite fn_lookup_insert_ne; [done|]. intros <-. congruence. }
  split; [split|..].
  - intros w x Hw. destruct (decide (v = w)) as [<-|Hne].
    + rewrite fn_lookup_insert in Hw. simplify_eq. apply (reach_step _ u); auto.
    + rewrite fn_lookup_insert_ne in Hw by done. auto.
  - intros s Hs. auto.
  - intros x w k Hx HE' Hk. assert (x ≠ v) as Hne.
    { intros ->. assert (is_Some (D v)) as [? ?] by (apply Ha; by left). congruence. }
    rewrite fn_lookup_insert_ne in Hk by done. destruct (Hclosed x w k Hx HE' Hk) as (d' & ? & ?). exists d'. auto.
  - intros w x d' Hw Hle. destruct (decide (v = w)) as [<-|Hne].
    + rewrite fn_lookup_insert in Hw. simplify_eq. destruct (decide (d' = S d)) as [->|Hd'].
      * exists v. by rewrite fn_lookup_insert.
      * destruct (Hdense u d d' Hd ltac:(lia)) as [w Hw]. exists w. auto.
    + rewrite fn_lookup_insert_ne in Hw by done. destruct (Hdense w x d' Hw Hle) as [z Hz]. exists z. auto.
  - intros w. destruct (decide (v = w)) as [<-|Hne].
    + rewrite fn_lookup_insert. split; [|done]. intros _. right. right. set_solver.
    + rewrite fn_lookup_insert_ne by done. rewrite Ha, elem_of_app, list_elem_of_singleton. naive_solver.
  - assert (v ∉ P ++ u :: Q) as Hnew.
    { intros Hin. assert (is_Some (D v)) as [? ?]; [|congruence]. apply Ha. set_solver. }
    rewrite app_comm_cons, (assoc_L (++)). apply list.NoDup_app. split_and!; [done| |apply NoDup_singleton]. set_solver.
  - destruct Hb as [(Q1 & Q2 & -> & H1 & H2) HP]. split.
    + exists Q1, (Q2 ++ [v]). split_and!; [by rewrite (assoc_L (++))|auto|].
      intros w [Hw| ->%list_elem_of_singleton]%elem_of_app; [auto|by rewrite fn_lookup_insert].
    + intros w Hw. destruct (HP w Hw) as (d' & ? & ?). exists d'. auto.
  - auto.
  - intros w [Hw| ->%list_elem_of_singleton]%elem_of_app; [|exists (S d); by rewrite fn_lookup_insert].
    destruct (Hdone w Hw) as (d' & ? & ?). exists d'. auto.
Qed.

Lemma search_exit P u d done Q D :
  searching P u d done Q D → (∀ v, E u v → v ∈ done) → layered (P ++ [u]) Q D.
Proof.
  intros [[Hsound Hseed Hclosed Hdense] Ha Hn Hb Hd Hdone] Hall. split; [split; try done|..].
  - intros x v k [Hx| ->%list_elem_of_singleton]%elem_of_app HE Hk; [by eapply Hclosed|].
    assert (k = d) as -> by congruence. auto.
  - intros v. rewrite Ha. set_solver.
  - by rewrite <- app_assoc.
  - exists d. destruct Hb as [HQ HP]. split; [done|]. intros v [Hv| ->%list_elem_of_singleton]%elem_of_app; [auto|]. by exists d.
Qed.

(** ** What the levels say *)

(** Below the level of the queue, every reachable node has its level. *)
Lemma levels_below P Q D d v m :
  layered P Q D → band d P Q D → reach m v → (m ≤ d)%nat →
  ∃ d', D v = Some d' ∧ (d' ≤ m)%nat.
Proof.
  intros [[Hsound Hseed Hclosed Hdense] Ha Hn _] [(Q1 & Q2 & -> & H1 & H2) HP] Hm. revert v Hm.
  induction m as [|m IH]; intros v Hr Hle.
  - destruct Hr as (s & Hs & Hp). inversion Hp; subst. exists O. split; [by apply Hseed|lia].
  - apply reach_inv in Hr as (u & Hr & HE). destruct (IH u Hr ltac:(lia)) as (k & Hk & Hkm).
    assert (u ∈ P) as Hu.
    { assert (is_Some (D u)) as Hs by (by eexists). apply Ha in Hs as [?|Hu]; [done|]. exfalso.
      apply elem_of_app in Hu as [Hu|Hu]; [specialize (H1 u Hu)|specialize (H2 u Hu)]; simplify_eq; lia. }
    destruct (Hclosed u v k Hu HE Hk) as (d' & ? & ?). exists d'. split; [done|lia].
Qed.

Lemma band_head P u Q D d : layered P (u :: Q) D → D u = Some d → band d P (u :: Q) D.
Proof.
  intros Hl Hd. destruct (layered_band _ _ _ Hl) as [b [(Q1 & Q2 & EQ & H1 & H2) HP]].
  destruct Q1 as [|x Q1]; cbn in EQ; simplify_eq.
  - assert (d = S b) as -> by (specialize (H2 u ltac:(by left)); by simplify_eq). split.
    + exists (u :: Q), []. rewrite app_nil_r. split_and!; [done|done|set_solver].
    + intros v Hv. destruct (HP v Hv) as (d' & ? & ?). exists d'. split; [done|lia].
  - assert (d = b) as -> by (specialize (H1 x ltac:(by left)); by simplify_eq). split; [|done].
    by exists (x :: Q1), Q2.
Qed.

Lemma below_least P Q D b v d : layered P Q D → band b P Q D → D v = Some d → (d ≤ S b)%nat → least_hops v (Some d).
Proof.
  intros Hl Hb Hd Hle. split; [by apply (levels_sound _ _ (layered_levels _ _ _ Hl))|]. intros m Hm.
  destruct (decide (d ≤ m)%nat) as [|Hlt]; [done|exfalso].
  destruct (levels_below P Q D b v m Hl Hb Hm ltac:(lia)) as (d' & ? & ?). simplify_eq. lia.
Qed.

Lemma head_least P u Q D d : layered P (u :: Q) D → D u = Some d → least_hops u (Some d).
Proof. intros Hl Hd. apply (below_least P (u :: Q) D d); [done|by apply band_head|done|lia]. Qed.

(** When the queue is empty the levels are the least hops. *)
Lemma layered_complete P D v : layered P [] D → least_hops v (D v).
Proof.
  intros [[Hsound Hseed Hclosed Hdense] Ha Hn _].
  assert (∀ m v, reach m v → ∃ d, D v = Some d ∧ (d ≤ m)%nat) as H.
  { induction m as [|m IH]; intros w Hr.
    - destruct Hr as (s & Hs & Hp). inversion Hp; subst. exists O. split; [by apply Hseed|lia].
    - apply reach_inv in Hr as (u & Hr & HE). destruct (IH u Hr) as (k & Hk & Hkm).
      assert (u ∈ P) as Hu by (assert (is_Some (D u)) as [?|?]%Ha by (by eexists); [done|set_solver]).
      destruct (Hclosed u w k Hu HE Hk) as (d' & ? & ?). exists d'. split; [done|lia]. }
  destruct (D v) as [d|] eqn:Hd; cbn.
  - split; [by apply Hsound|]. intros m Hm. destruct (H m v Hm) as (d' & ? & ?). simplify_eq. lia.
  - intros m Hm. destruct (H m v Hm) as (d' & ? & ?). congruence.
Qed.
End layers.
