(* ===== verification/SearchTheorems.v ===== *)
(** * Traversals: theorems

    Breadth-first distances and the frontier expansion find the least numbers
    of hops, the shortest path is a path of that length, and the depth-first
    preorder is the one of the recursive definition. *)

From stdpp Require Import functions relations prelude gmap strings sorting list.
From Stdlib Require Import ZArith Lia.
From S2P Require Import Prelude Machine Types Shared Csr CsrTheorems Algorithms Layers.

Local Open Scope Z_scope.
#[local] Set Warnings "-clear-no-such-hyp".

(** ** Computations that may be cancelled *)

(** [m] returns a value that satisfies [Q], whatever number of calls was made
    before, or the error is one of the callback. *)
Definition checks {A} (check : Check) (m : Checked A) (Q : A → Prop) : Prop :=
  ∀ k, posts (λ e, ∃ k, check k = Some e) (m k) (λ p, Q p.1).

Section checks.
Context (check : Check).

Lemma checks_bind {A B} (m : Checked A) (f : A → Checked B) Q R :
  checks check m Q → (∀ a, Q a → checks check (f a) R) → checks check (m ≫= f) R.
Proof. intros Hm Hf k. eapply posts_bind; [apply Hm|]. intros [a k'] Ha. by apply Hf. Qed.

Lemma checks_ret {A} (a : A) (Q : A → Prop) : Q a → checks check (mret a) Q.
Proof. by intros Ha k. Qed.

Lemma checks_step {A} (m : Result A) a (Q : A → Prop) : m = Ok a → Q a → checks check (step m) Q.
Proof. intros -> Ha k. exact Ha. Qed.

Lemma checks_call (Q : unit → Prop) : Q tt → checks check (call check) Q.
Proof. intros Hq k. unfold call. destruct (check k) as [e|] eqn:E; cbn; [by exists k|done]. Qed.

Lemma checks_call_if b (Q : unit → Prop) : Q tt → checks check (call_if check b) Q.
Proof. intros Hq. destruct b; [by apply checks_call|by intros k]. Qed.

Lemma checks_mono {A} (m : Checked A) (Q R : A → Prop) : checks check m Q → (∀ a, Q a → R a) → checks check m R.
Proof. intros Hm HQ k. eapply posts_mono; [apply Hm|]. intros [a k']. apply HQ. Qed.

(** The rule for loops over a sequence. *)
Lemma checks_each {A B} (f : B → A → Checked B) b l (I : list A → B → Prop) :
  I [] b → (∀ done x rest b, l = done ++ x :: rest → I done b → checks check (f b x) (I (done ++ [x]))) →
  checks check (each f b l) (I l).
Proof.
  intros Hb Hstep. assert (∀ done b rest, l = done ++ rest → I done b → checks check (each f b rest) (I l)) as H.
  { intros d b' rest. revert d b'. induction rest as [|x rest IH]; intros d b' Hl Hd; cbn [each].
    - rewrite Hl, app_nil_r. by apply checks_ret.
    - eapply checks_bind; [by eapply Hstep|]. intros b'' Hb''. apply (IH (d ++ [x])); [|done]. by rewrite <- app_assoc. }
  by apply (H [] b l).
Qed.
End checks.

(** A computation that never fails its callback returns. *)
Lemma checks_never {A} (m : Checked A) Q : checks never m Q → ∃ a, run m = Ok a ∧ Q a.
Proof.
  intros Hm. specialize (Hm O). unfold run. destruct (m O) as [[a k]|e|w]; cbn in *; [by exists a|by destruct Hm|done].
Qed.

(** Whatever the callback answers, the result is right or the error is one of
    the callback. *)
Definition returns {A} (check : Check) (m : Checked A) (Q : A → Prop) : Prop :=
  (∃ a, run m = Ok a ∧ Q a) ∨ (∃ e k, run m = Err e ∧ check k = Some e).

Lemma checks_run {A} check (m : Checked A) Q : checks check m Q → returns check m Q.
Proof.
  intros Hm. specialize (Hm O). unfold returns, run. destruct (m O) as [[a k]|e|w]; cbn in *; [left; by exists a| |done].
  right. destruct Hm as [k Hk]. by exists e, k.
Qed.

(** ** Adjacency *)

(** There is an entry from [u] to [v]. *)
Definition edge (a : AdjacencyRead) : relation Z := λ u v, ∃ e, (v, e) ∈ sorted_row a u.

(** Neighbours are nodes, and nodes are numbered by [u32]. *)
Definition adjacency_ok (a : AdjacencyRead) : Prop :=
  0 ≤ node_count a ≤ u32_max + 1 ∧ ∀ u v, edge a u v → 0 ≤ v < node_count a.

Lemma edge_row a u v : edge a u v ↔ ∃ r e, read_row a u = Some r ∧ (v, e) ∈ r.
Proof.
  unfold edge, sorted_row, append_row. setoid_rewrite elem_of_sort_pairs.
  destruct (read_row a u) as [r|]; split; intros; set_solver.
Qed.

Lemma elem_of_row_of triples u v e : (v, e) ∈ row_of triples u ↔ (u, v, e) ∈ triples.
Proof.
  unfold row_of. rewrite elem_of_sort_pairs, list_elem_of_fmap. split.
  - intros ([[u' v'] e'] & Heq & [Hu Ht]%list_elem_of_filter). by simplify_eq/=.
  - intros Ht. exists (u, v, e). split; [done|]. by apply list_elem_of_filter.
Qed.

(** A graph built from edges has these edges. *)
Lemma built_edges c n triples :
  csr_rows c (rows_of n triples) → nonnegative triples → sources_in n triples →
  ∀ u v, edge (csr_read c) u v ↔ ∃ e, (u, v, e) ∈ triples.
Proof.
  unfold nonnegative, sources_in. rewrite !list.Forall_forall. intros Hc Hnn Hs u v. rewrite edge_row. cbn. split.
  - intros (r & e & Hr & Hv). exists e. apply (row_csr_inv c (rows_of n triples)) in Hr as [Hu Hr]; [|done].
    apply list_lookup_fmap_Some in Hr as (u' & -> & Hu'). apply lookup_seqZ in Hu' as [-> _]. apply elem_of_row_of.
    by replace (0 + Z.of_nat (Z.to_nat u)) with u in Hv by lia.
  - intros [e He]. specialize (Hnn _ He). specialize (Hs _ He). cbn in *. exists (row_of triples u), e.
    split; [|by apply elem_of_row_of]. rewrite (row_csr c (rows_of n triples)) by (done || lia). unfold rows_of.
    rewrite list_lookup_fmap, (proj2 (lookup_seqZ 0 n (Z.to_nat u) u)) by lia. done.
Qed.

Lemma built_ok c n triples :
  csr_rows c (rows_of n triples) → 0 ≤ n ≤ u32_max + 1 → nonnegative triples → sources_in n triples → targets_in n triples →
  node_count (csr_read c) = n ∧ adjacency_ok (csr_read c).
Proof.
  intros Hc Hn Hnn Hs Ht. assert (node_count (csr_read c) = n) as Hcount.
  { cbn. rewrite (proj1 Hc). unfold saturating_sub, zlen, rows_of. rewrite length_scan, length_fmap, length_seqZ. lia. }
  split; [done|]. split; [lia|]. intros u v Huv. rewrite Hcount. apply (built_edges c n triples) in Huv as [e He]; [|done..].
  unfold nonnegative, targets_in in *. rewrite !list.Forall_forall in *. specialize (Hnn _ He). specialize (Ht _ He). cbn in *. lia.
Qed.

(** The implementation on [Csr] counts what the default one does. *)
Lemma csr_counts c rs :
  csr_rows c rs → (∀ v, 0 ≤ v → csr_degree c v = degree (csr_read c) v) ∧ csr_edge_count c = edge_count (csr_read c).
Proof.
  intros Hc. pose proof Hc as (Ho & Hn & _). assert (∀ v, 0 ≤ v → degree (csr_read c) v = zlen (default [] (rs !! Z.to_nat v))) as Hd.
  { intros v Hv. unfold degree. cbn. rewrite (row_csr c rs) by done. by destruct (rs !! Z.to_nat v). }
  split.
  - intros v Hv. rewrite Hd by done. unfold csr_degree. rewrite Ho, !get_nat by lia.
    replace (Z.to_nat (v + 1)) with (S (Z.to_nat v)) by lia. destruct (rs !! Z.to_nat v) as [r|] eqn:Hr.
    + pose proof (lookup_lt_Some _ _ _ Hr). rewrite !scan_lookup by lia. erewrite take_S_r by exact Hr.
      rewrite concat_app, zlen_app. cbn. rewrite app_nil_r. unfold saturating_sub. pose proof (zlen_nonneg r). lia.
    + apply lookup_ge_None in Hr. rewrite (proj2 (lookup_ge_None (scan 0 rs) (S _))) by (rewrite length_scan; lia).
      cbn. by destruct (scan 0 rs !! Z.to_nat v).
  - unfold csr_edge_count, edge_count. rewrite Hn. cbn [node_count csr_read]. rewrite Ho. unfold zlen at 1.
    rewrite length_fmap. fold (zlen (concat rs)).
    replace (saturating_sub (zlen (scan 0 rs)) 1) with (zlen rs) by (unfold saturating_sub, zlen; rewrite length_scan; lia).
    assert (∀ k, (degree (csr_read c) <$> seqZ (Z.of_nat k) (zlen (drop k rs))) = (zlen <$> drop k rs)) as Hmap.
    { intros k. apply list_eq. intros i. rewrite !list_lookup_fmap, lookup_drop.
      destruct (rs !! (k + i)%nat) as [r|] eqn:Hr; cbn.
      - pose proof (lookup_lt_Some _ _ _ Hr). rewrite (proj2 (lookup_seqZ _ _ i (Z.of_nat k + Z.of_nat i))).
        + cbn. rewrite Hd by lia. replace (Z.to_nat (Z.of_nat k + Z.of_nat i)) with (k + i)%nat by lia. by rewrite Hr.
        + unfold zlen. rewrite length_drop. lia.
      - apply lookup_ge_None in Hr. rewrite (proj2 (lookup_ge_None _ _)); [done|]. rewrite length_seqZ. unfold zlen. rewrite length_drop. lia. }
    specialize (Hmap O). rewrite drop_0 in Hmap. change (Z.of_nat 0) with 0 in Hmap. rewrite Hmap.
    clear. induction rs as [|r rs IH]; [done|]. cbn. rewrite zlen_app, IH. done.
Qed.

(** Lists that hold a value for every node. *)
Definition holds {A} (n : Z) (l : list A) (f : Z → A) : Prop :=
  zlen l = n ∧ ∀ v, 0 ≤ v < n → l !! Z.to_nat v = Some (f v).

Lemma holds_replicate {A} n (x : A) : 0 ≤ n → holds n (replicate (Z.to_nat n) x) (λ _, x).
Proof.
  intros Hn. split; [unfold zlen; rewrite length_replicate; lia|]. intros v Hv. apply lookup_replicate_2. lia.
Qed.

Lemma holds_get {E A} n (l : list A) f v : holds n l f → 0 ≤ v < n → index_at (E := E) l v = Ok (f v).
Proof. intros [_ H] Hv. apply index_at_lookup; [lia|]. by apply H. Qed.

Lemma holds_set {E A} n (l : list A) f v x :
  holds n l f → 0 ≤ v < n → ∃ l', index_set (E := E) l v x = Ok l' ∧ holds n l' (<[v := x]> f).
Proof.
  intros [Hl H] Hv. eexists. split; [apply index_set_Ok; lia|]. split; [unfold zlen; by rewrite length_insert|].
  intros w Hw. destruct (decide (v = w)) as [<-|Hne].
  - rewrite fn_lookup_insert. apply list_lookup_insert_eq. unfold zlen in Hl. lia.
  - rewrite fn_lookup_insert_ne, list_lookup_insert_ne by (done || lia). by apply H.
Qed.

Lemma holds_ext {A} n (l : list A) f g : holds n l f → (∀ v, 0 ≤ v < n → f v = g v) → holds n l g.
Proof. intros [Hl H] Hfg. split; [done|]. intros v Hv. rewrite <- Hfg by done. by apply H. Qed.

Lemma NoDup_range_length (l : list Z) n : NoDup l → (∀ v, v ∈ l → 0 ≤ v < n) → zlen l ≤ Z.max 0 n.
Proof.
  intros Hnd Hr. assert (length l ≤ length (seqZ 0 n))%nat as Hle.
  { apply submseteq_length, NoDup_submseteq; [done|]. intros v Hv. apply elem_of_seqZ. specialize (Hr v Hv). lia. }
  rewrite length_seqZ in Hle. unfold zlen. lia.
Qed.

(** Levels are fewer than the nodes. *)
Lemma levels_bound (D : Z → option nat) n v d :
  (∀ w, is_Some (D w) → 0 ≤ w < n) → (∀ v d d', D v = Some d → (d' ≤ d)%nat → ∃ w, D w = Some d') →
  D v = Some d → Z.of_nat d < n.
Proof.
  intros Hr Hdense Hv. assert (length (seq 0 (S d)) ≤ length (omap D (seqZ 0 n)))%nat as Hle.
  { apply submseteq_length, NoDup_submseteq; [apply NoDup_seq|]. intros d' Hd'. apply elem_of_seq in Hd'.
    destruct (Hdense v d d' Hv ltac:(lia)) as [w Hw]. apply list_elem_of_omap. exists w. split; [|done].
    apply elem_of_seqZ. destruct (Hr w ltac:(by eexists)). lia. }
  assert (length (omap D (seqZ 0 n)) ≤ length (seqZ 0 n))%nat as Hle2.
  { generalize (seqZ 0 n). induction l as [|x l IH]; cbn; [lia|]. destruct (D x); cbn; lia. }
  rewrite length_seq in Hle. rewrite length_seqZ in Hle2. lia.
Qed.

(** A search of [n] nodes: the list of distances holds the levels. *)
Definition distances_hold (n : Z) (l : list (option Z)) (D : Z → option nat) : Prop :=
  holds n l (λ v, Z.of_nat <$> D v) ∧ ∀ v, is_Some (D v) → 0 ≤ v < n.

Lemma distances_set {E} n l D v d :
  distances_hold n l D → 0 ≤ v < n →
  ∃ l', index_set (E := E) l v (Some (Z.of_nat d)) = Ok l' ∧ distances_hold n l' (<[v := Some d]> D).
Proof.
  intros [Hl Hr] Hv. destruct (holds_set (E := E) n l _ v (Some (Z.of_nat d)) Hl Hv) as (l' & -> & Hl'). exists l'. split; [done|].
  split.
  - apply (holds_ext _ _ _ _ Hl'). intros w _. destruct (decide (v = w)) as [<-|Hne]; [by rewrite !fn_lookup_insert|].
    by rewrite !fn_lookup_insert_ne.
  - intros w. destruct (decide (v = w)) as [<-|Hne]; [done|]. rewrite fn_lookup_insert_ne by done. apply Hr.
Qed.

Section bfs.
Context (check : Check) (a : AdjacencyRead).
Hypothesis ok : adjacency_ok a.
Abbreviation n := (node_count a).
Abbreviation E := (edge a).

(** A level that has been given fits [u32]. *)
Lemma next_level seeds P u d done Q (D : Z → option nat) v :
  searching E seeds P u d done Q D → (∀ w, is_Some (D w) → 0 ≤ w < n) → E u v → D v = None →
  saturating_add u32_max (Z.of_nat d) 1 = Z.of_nat (S d).
Proof.
  intros Hs Hr HE Hv. pose proof (search_new _ _ _ _ _ _ _ _ _ Hs Hv HE) as Hs'.
  assert (Z.of_nat (S d) < n); [|destruct ok as [? _]; unfold saturating_add; lia].
  apply (levels_bound (<[v := Some (S d)]> D) n v (S d)).
  - intros w. destruct (decide (v = w)) as [<-|Hne]; [intros _; by apply (proj2 ok u)|].
    rewrite fn_lookup_insert_ne by done. apply Hr.
  - intros w x x'. apply (levels_dense _ _ _ _ (searching_levels _ _ _ _ _ _ _ _ Hs')).
  - by rewrite fn_lookup_insert.
Qed.

Lemma bfs_neighbor_spec s P u d done Q D l scanned entry :
  searching E [s] P u d done Q D → distances_hold n l D → E u entry.1 →
  checks check (bfs_neighbor check (saturating_add u32_max (Z.of_nat d) 1) (l, Q, scanned) entry)
    (λ '(l', Q', _), ∃ D', searching E [s] P u d (done ++ [entry.1]) Q' D' ∧ distances_hold n l' D').
Proof.
  intros Hs Hl HE. pose proof (proj2 ok _ _ HE) as Hv. unfold bfs_neighbor.
  eapply checks_bind; [by apply (checks_call_if _ _ (λ _, True))|]. intros _ _.
  eapply checks_bind; [eapply (checks_step _ _ _ (λ x, x = Z.of_nat <$> D entry.1)); [by eapply holds_get; [apply Hl|]|done]|].
  intros x ->. destruct (D entry.1) as [k|] eqn:Hk; cbn [fmap option_fmap option_map].
  - apply checks_ret. exists D. split; [|done]. apply search_seen; [done|]. by rewrite Hk.
  - rewrite (next_level _ _ _ _ _ _ _ _ Hs (proj2 Hl) HE Hk).
    destruct (distances_set (E := Error) n l D entry.1 (S d) Hl Hv) as (l' & Hset & Hl').
    eapply checks_bind; [eapply (checks_step _ _ _ (λ x, x = l')); [exact Hset|done]|]. intros ? ->.
    apply checks_ret. eexists. split; [|exact Hl']. by apply search_new.
Qed.

Lemma bfs_loop_spec s fuel P Q D l scanned :
  layered E [s] P Q D → distances_hold n l D → (n - zlen P < Z.of_nat fuel) →
  checks check (bfs_loop check a fuel l Q scanned) (λ l', ∃ P' D', layered E [s] P' [] D' ∧ distances_hold n l' D').
Proof.
  revert P Q D l scanned. induction fuel as [|fuel IH]; intros P Q D l scanned Hlay Hl Hf.
  - exfalso. assert (zlen P ≤ Z.max 0 n); [|destruct ok as [? _]; lia]. apply NoDup_range_length.
    + pose proof (layered_nodup _ _ _ _ _ Hlay) as Hnd. by apply list.NoDup_app in Hnd as [? _].
    + intros v Hv. apply (proj2 Hl). apply (layered_assigned _ _ _ _ _ Hlay). by left.
  - cbn [bfs_loop]. destruct Q as [|u Q]; [apply checks_ret; by exists P, D|].
    eapply checks_bind; [by apply (checks_call _ (λ _, True))|]. intros _ _.
    destruct (search_enter _ _ _ _ _ _ Hlay) as [d Hs].
    assert (0 ≤ u < n) as Hu by (apply (proj2 Hl), (searching_assigned _ _ _ _ _ _ _ _ Hs); auto).
    eapply checks_bind; [eapply (checks_step _ _ _ (λ x, x = Some (Z.of_nat d)))|].
    { rewrite (holds_get n l _ u (proj1 Hl) Hu). by rewrite (searching_level _ _ _ _ _ _ _ _ Hs). } { done. }
    intros x ->. cbn [default].
    eapply checks_bind.
    { apply (checks_each check _ _ _ (λ done '(l', Q', _), ∃ D', searching E [s] P u d done.*1 Q' D' ∧ distances_hold n l' D')).
      - by exists D.
      - intros done x rest [[l' Q'] sc] Hx (D' & Hs' & Hl'). rewrite fmap_app. apply bfs_neighbor_spec with D'; [done..|].
        exists x.2. rewrite Hx. destruct x. set_solver. }
    intros [[l' Q'] sc] (D' & Hs' & Hl'). apply (IH (P ++ [u]) Q' D'); [|done|rewrite zlen_app; unfold zlen in *; cbn; lia].
    apply (search_exit _ _ _ _ _ _ _ _ Hs'). intros v [e Hv]. by apply (list_elem_of_fmap_2 fst _ (v, e)).
Qed.

(** The distances from [s]: the least number of hops of every node. *)
Definition distances_from (s : Z) (l : list (option Z)) : Prop :=
  zlen l = n ∧ ∀ v, 0 ≤ v < n → ∃ o, l !! Z.to_nat v = Some (Z.of_nat <$> o) ∧ least_hops E [s] v o.

Lemma bfs_spec s : 0 ≤ s < n → checks check (bfs_cancellable check a s) (distances_from s).
Proof.
  intros Hs. unfold bfs_cancellable. rewrite (proj2 (Z.leb_gt _ _)) by lia.
  assert (distances_hold n (replicate (Z.to_nat n) None) (λ _, None)) as H0.
  { split; [|by intros v [? ?]]. apply holds_replicate. lia. }
  destruct (distances_set (E := Error) n _ _ s O H0 Hs) as (l & Hset & Hl).
  eapply checks_bind; [eapply (checks_step _ _ _ (λ x, x = l)); [exact Hset|done]|]. intros ? ->.
  eapply checks_mono.
  - apply (bfs_loop_spec s _ [] [s] (<[s := Some O]> (λ _, None))); [|done|change (zlen []) with 0; lia].
    assert (layered E [s] [] [s] (seeded [s])) as Hlay by (apply layered_start; [set_solver|apply NoDup_singleton]).
    apply (layered_ext _ _ _ _ (seeded [s])); [|done]. intros v. unfold seeded.
    destruct (decide (s = v)) as [<-|Hne]; [by rewrite fn_lookup_insert, decide_True by set_solver|].
    rewrite fn_lookup_insert_ne, decide_False by set_solver. done.
  - intros l' (P & D & Hlay & Hl'). destruct Hl' as [[Hlen Hl'] _]. split; [done|]. intros v Hv.
    exists (D v). split; [by apply Hl'|]. by eapply layered_complete.
Qed.
End bfs.

(** ** Frontier expansion *)

Section frontier.
Context (check : Check) (c : Csr) (seeds : list Z).
Hypothesis ok : adjacency_ok (csr_read c).
Hypothesis seeds_u32 : Forall (λ s, 0 ≤ s) seeds.
Abbreviation n := (csr_nodes c).
Abbreviation E := (edge (csr_read c)).

(** Seeds that are no nodes are ignored. *)
Definition node_seeds : list Z := filter (λ s, s < n) seeds.

(** The least number of hops to [v], if it is at most [max]. *)
Definition hops_within (max : option Z) (v : Z) (o : option nat) : Prop :=
  match o with
  | Some d => least_hops E node_seeds v (Some d) ∧ match max with Some m => Z.of_nat d ≤ m | None => True end
  | None => ∀ k, reach E node_seeds k v → match max with Some m => m < Z.of_nat k | None => False end
  end.

Lemma expand_neighbor_spec P u d done Q0 Q D l since entry :
  searching E node_seeds P u d done (Q0 ++ Q) D → distances_hold n l D → E u entry.1 →
  checks check (expand_neighbor check (saturating_add u32_max (Z.of_nat d) 1) (l, Q, since) entry)
    (λ '(l', Q', _), ∃ D', searching E node_seeds P u d (done ++ [entry.1]) (Q0 ++ Q') D' ∧ distances_hold n l' D'
       ∧ (∀ v x, D v = Some x → D' v = Some x) ∧ ∀ v, v ∈ Q' → v ∈ Q ∨ D' v = Some (S d)).
Proof.
  intros Hs Hl HE. pose proof (proj2 ok _ _ HE) as Hv. unfold expand_neighbor.
  eapply (checks_bind _ _ _ (λ _, True)).
  { destruct (4096 <=? _); [|by apply checks_ret]. eapply checks_bind; [by apply (checks_call _ (λ _, True))|].
    intros _ _. by apply checks_ret. }
  intros since' _.
  eapply checks_bind; [eapply (checks_step _ _ _ (λ x, x = Z.of_nat <$> D entry.1)); [by eapply holds_get; [apply Hl|]|done]|].
  intros x ->. destruct (D entry.1) as [k|] eqn:Hk; cbn [fmap option_fmap option_map].
  - apply checks_ret. exists D. split_and!; [|done|done|auto]. apply search_seen; [done|]. by rewrite Hk.
  - rewrite (next_level (csr_read c) ok _ _ _ _ _ _ _ _ Hs (proj2 Hl) HE Hk).
    destruct (distances_set (E := Error) n l D entry.1 (S d) Hl Hv) as (l' & Hset & Hl').
    eapply checks_bind; [eapply (checks_step _ _ _ (λ x, x = l')); [exact Hset|done]|]. intros ? ->.
    apply checks_ret. eexists. split_and!; [|exact Hl'|..].
    + rewrite (assoc_L (++)). by apply search_new.
    + intros w x Hw. rewrite fn_lookup_insert_ne; [done|]. congruence.
    + intros v [?| ->%list_elem_of_singleton]%elem_of_app; [by left|right; by rewrite fn_lookup_insert].
Qed.

(** While a level [h] is expanded: [rest] is left of it, [next] has been found. *)
Definition expanding (h : nat) (P rest next : list Z) (D : Z → option nat) : Prop :=
  layered E node_seeds P (rest ++ next) D ∧ (∀ v, v ∈ rest → D v = Some h) ∧ (∀ v, v ∈ next → D v = Some (S h)).

Lemma expand_node_spec h P u rest next D l since :
  expanding h P (u :: rest) next D → distances_hold n l D →
  checks check (expand_node check c (saturating_add u32_max (Z.of_nat h) 1) (l, next, since) u)
    (λ '(l', next', _), ∃ D', expanding h (P ++ [u]) rest next' D' ∧ distances_hold n l' D'
       ∧ ∀ v x, D v = Some x → D' v = Some x).
Proof.
  intros (Hlay & Hrest & Hnext) Hl. destruct (search_enter _ _ _ _ _ _ Hlay) as [d Hs].
  assert (d = h) as ->.
  { pose proof (searching_level _ _ _ _ _ _ _ _ Hs) as Hd. rewrite (Hrest u) in Hd by (by left). by simplify_eq. }
  unfold expand_node. destruct (row c u) as [r|] eqn:Hr.
  - eapply checks_mono.
    + apply (checks_each check _ _ _ (λ done '(l', Q', _), ∃ D', searching E node_seeds P u h done.*1 (rest ++ Q') D'
        ∧ distances_hold n l' D' ∧ (∀ v x, D v = Some x → D' v = Some x) ∧ ∀ v, v ∈ Q' → D' v = Some (S h))).
      * exists D. split_and!; [done..|auto].
      * intros done x tl [[l' Q'] sc] Hx (D' & Hs' & Hl' & Hext & HQ'). rewrite fmap_app.
        eapply checks_mono; [apply (expand_neighbor_spec P u h (done.*1) rest Q' D' l' sc x); [exact Hs'|exact Hl'|]|].
        { apply edge_row. exists r, x.2. split; [done|]. rewrite Hx. destruct x. set_solver. }
        intros [[l'' Q''] sc'] (D'' & Hs'' & Hl'' & Hext' & HQ''). exists D''. split_and!; [done..|auto|].
        intros v Hv. destruct (HQ'' v Hv) as [?|?]; auto.
    + intros [[l' Q'] sc] (D' & Hs' & Hl' & Hext & HQ'). exists D'. split_and!; [|done|done]. split_and!; [|set_solver|done].
      apply (search_exit _ _ _ _ _ _ _ _ Hs'). intros v Hv. apply edge_row in Hv as (r' & e & Hr' & Hv).
      cbn in Hr'. simplify_eq. by apply (list_elem_of_fmap_2 fst _ (v, e)).
  - apply checks_ret. exists D. split_and!; [|done|done]. split_and!; [|set_solver|done].
    apply (search_exit _ _ _ _ _ _ _ _ Hs). intros v Hv. apply edge_row in Hv as (r' & e & Hr' & Hv). cbn in Hr'. congruence.
Qed.

Definition levels_within (max : option Z) (D : Z → option nat) : Prop :=
  match max with Some m => ∀ v d, D v = Some d → Z.of_nat d ≤ m | None => True end.

Lemma expand_level_spec h P Q D l since :
  expanding h P Q [] D → distances_hold n l D →
  checks check (each (expand_node check c (saturating_add u32_max (Z.of_nat h) 1)) (l, [], since) Q)
    (λ '(l', next, _), ∃ D', expanding h (P ++ Q) [] next D' ∧ distances_hold n l' D' ∧ ∀ v x, D v = Some x → D' v = Some x).
Proof.
  intros He Hl. eapply checks_mono.
  - apply (checks_each check _ _ _ (λ done '(l', next, _), ∃ rest D', Q = done ++ rest ∧ expanding h (P ++ done) rest next D'
      ∧ distances_hold n l' D' ∧ ∀ v x, D v = Some x → D' v = Some x)).
    + exists Q, D. rewrite app_nil_r. done.
    + intros done u tl [[l' next] sc] HQ (rest & D' & HQ' & He' & Hl' & Hext).
      assert (rest = u :: tl) as -> by (rewrite HQ in HQ'; by apply app_inv_head in HQ').
      eapply checks_mono; [apply (expand_node_spec h (P ++ done) u tl next D' l' sc He' Hl')|].
      intros [[l'' next'] sc'] (D'' & He'' & Hl'' & Hext'). exists tl, D''.
      split_and!; [by rewrite <- app_assoc|by rewrite (assoc_L (++))|done|auto].
  - intros [[l' next] sc] (rest & D' & HQ & He' & Hl' & Hext). exists D'.
    assert (rest = []) as -> by (apply (app_inv_head Q); by rewrite app_nil_r). done.
Qed.

Lemma frontier_loop_spec fuel max_hops h P Q D l hop since :
  expanding h P Q [] D → distances_hold n l D → n - zlen P < Z.of_nat fuel → levels_within max_hops D →
  Q = [] ∨ hop = Z.of_nat h →
  checks check (frontier_loop check c fuel max_hops l Q hop since)
    (λ l', ∃ D', distances_hold n l' D' ∧ ∀ v, hops_within max_hops v (D' v)).
Proof.
  revert h P Q D l hop since. induction fuel as [|fuel IH]; intros h P Q D l hop since He Hl Hf Hw Hhop;
    pose proof He as (Hlay & HQ & _); rewrite app_nil_r in Hlay.
  { exfalso. assert (zlen P ≤ Z.max 0 n); [|destruct ok as [? _]; unfold csr_read in *; cbn in *; unfold csr_nodes in *; lia].
    apply NoDup_range_length.
    - pose proof (layered_nodup _ _ _ _ _ Hlay) as Hnd. by apply list.NoDup_app in Hnd as [? _].
    - intros v Hv. apply (proj2 Hl). apply (layered_assigned _ _ _ _ _ Hlay). by left. }
  cbn [frontier_loop]. case_bool_decide as HQe.
  { subst. apply checks_ret. exists D. split; [done|]. intros v. pose proof (layered_complete _ _ _ _ v Hlay) as Hv.
    unfold hops_within. destruct (D v) as [d|] eqn:Hd.
    - split; [done|]. destruct max_hops; [by eapply Hw|done].
    - intros k Hk. by destruct (Hv k). }
  destruct Hhop as [?| ->]; [done|]. destruct Q as [|u Q]; [done|].
  assert (D u = Some h) as Hu by (apply HQ; by left).
  destruct (match max_hops with Some max => max <=? Z.of_nat h | None => false end) eqn:Emax.
  - destruct max_hops as [max|]; [|done]. apply Z.leb_le in Emax. pose proof (Hw _ _ Hu) as Hhm.
    apply checks_ret. exists D. split; [done|]. pose proof (band_head _ _ _ _ _ _ _ Hlay Hu) as Hb. intros v. unfold hops_within.
    destruct (D v) as [d|] eqn:Hd.
    + pose proof (Hw _ _ Hd). split; [|done]. apply (below_least _ _ _ _ _ _ _ _ Hlay Hb Hd). lia.
    + intros k Hk. destruct (decide (max < Z.of_nat k)); [done|exfalso].
      destruct (levels_below _ _ _ _ _ _ _ _ Hlay Hb Hk ltac:(lia)) as (? & ? & _). congruence.
  - eapply checks_bind; [by apply (checks_call _ (λ _, True))|]. intros _ _.
    eapply checks_bind; [by apply (expand_level_spec h P (u :: Q) D)|].
    intros [[l' next] sc] (D' & He' & Hl' & Hext). pose proof He' as (Hlay' & _ & Hnext).
    apply (IH (S h) (P ++ u :: Q) next D').
    + split_and!; [by rewrite app_nil_r|done|set_solver].
    + done.
    + rewrite zlen_app, zlen_cons. pose proof (zlen_nonneg Q). lia.
    + destruct max_hops as [max|]; [|done]. apply Z.leb_gt in Emax. intros v d Hd.
      assert (is_Some (D' v)) as Hv by (by eexists). apply (layered_assigned _ _ _ _ _ Hlay') in Hv as [Hv|Hv].
      * assert (is_Some (D v)) as [x Hx] by (apply (layered_assigned _ _ _ _ _ Hlay); set_solver).
        rewrite (Hext v x Hx) in Hd. simplify_eq. by eapply Hw.
      * rewrite (Hnext v) in Hd by done. simplify_eq. lia.
    + destruct next as [|w next]; [by left|right]. assert (D' w = Some (S h)) as Hlw by (apply Hnext; by left).
      assert (Z.of_nat (S h) < n); [|destruct ok as [? _]; cbn in *; unfold csr_nodes, saturating_add in *; lia].
      apply (levels_bound D' n w (S h)); [apply Hl'| |done].
      intros x d d'. apply (levels_dense _ _ _ _ (layered_levels _ _ _ _ _ Hlay')).
Qed.

Lemma seeds_spec :
  checks check (each (seed_frontier c) (replicate (Z.to_nat n) None, []) seeds)
    (λ '(l, Q), distances_hold n l (seeded node_seeds) ∧ NoDup Q ∧ ∀ v, v ∈ Q ↔ v ∈ node_seeds).
Proof.
  assert (0 ≤ n) as Hn by (apply (proj1 ok)). eapply checks_mono.
  - apply (checks_each check _ _ _ (λ done '(l, Q), distances_hold n l (seeded (filter (λ s, s < n) done)) ∧ NoDup Q
      ∧ ∀ v, v ∈ Q ↔ v ∈ filter (λ s, s < n) done)).
    + split_and!; [|constructor|set_solver]. split; [|by intros v [? ?]]. by apply holds_replicate.
    + intros done s rest [l Q] Hs (Hl & Hnd & HQ). unfold seed_frontier.
      assert (0 ≤ s) as Hs0.
      { pose proof seeds_u32 as Hu. rewrite list.Forall_forall in Hu. apply Hu. rewrite Hs. set_solver. }
      rewrite filter_app. destruct (Z.leb_spec n s) as [Hge|Hlt].
      * apply checks_ret. rewrite (filter_cons_False _ s []) by lia. rewrite filter_nil, app_nil_r. done.
      * rewrite (filter_cons_True _ s []), filter_nil by lia.
        eapply checks_bind; [eapply (checks_step _ _ _ (λ x, x = Z.of_nat <$> seeded (filter (λ s, s < n) done) s));
          [eapply holds_get; [apply Hl|lia]|done]|]. intros x ->.
        unfold seeded at 1. case_decide as Hin; cbn [fmap option_fmap option_map].
        -- apply checks_ret. split_and!; [|done|set_solver]. destruct Hl as [Hl Hr]. split.
           ++ apply (holds_ext _ _ _ _ Hl). intros v _. unfold seeded. f_equal. apply decide_ext. set_solver.
           ++ intros v Hv. apply Hr. unfold seeded in *. case_decide; [|by destruct Hv]. rewrite decide_True; [done|set_solver].
        -- destruct (distances_set (E := Error) n l _ s O Hl ltac:(lia)) as (l' & Hset & Hl').
           eapply checks_bind; [eapply (checks_step _ _ _ (λ x, x = l')); [exact Hset|done]|]. intros ? ->.
           assert (∀ v, <[s := Some O]> (seeded (filter (λ s, s < n) done)) v = seeded (filter (λ s, s < n) done ++ [s]) v) as Hsd.
           { intros v. unfold seeded. destruct (decide (s = v)) as [<-|Hne].
             - rewrite fn_lookup_insert, decide_True by set_solver. done.
             - rewrite fn_lookup_insert_ne by done. apply decide_ext. set_solver. }
           apply checks_ret. split_and!.
           ++ destruct Hl' as [Hl' Hr']. split; [apply (holds_ext _ _ _ _ Hl'); intros v _; by rewrite Hsd|].
              intros v. rewrite <- Hsd. apply Hr'.
           ++ apply list.NoDup_app. split_and!; [done| |apply NoDup_singleton]. set_solver.
           ++ set_solver.
  - intros [l Q] H. exact H.
Qed.

(** Every node with its least number of hops, if that is within the bound. *)
Definition distances_within (max : option Z) (l : list (option Z)) : Prop :=
  zlen l = n ∧ ∀ v, 0 ≤ v < n → ∃ o, l !! Z.to_nat v = Some (Z.of_nat <$> o) ∧ hops_within max v o.

Lemma frontier_spec max_hops :
  match max_hops with Some m => 0 ≤ m | None => True end →
  checks check (multi_source_frontier_distances check c seeds max_hops) (distances_within max_hops).
Proof.
  intros Hmax. unfold multi_source_frontier_distances. eapply checks_bind; [apply seeds_spec|].
  intros [l Q] (Hl & Hnd & HQ). assert (0 ≤ n) as Hn by (apply (proj1 ok)). eapply checks_mono.
  - apply (frontier_loop_spec _ max_hops O [] Q (seeded node_seeds)).
    + split_and!; [by rewrite app_nil_r; apply layered_start| |set_solver].
      intros v Hv. unfold seeded. rewrite decide_True; [done|]. by apply HQ.
    + done.
    + change (zlen []) with 0. lia.
    + destruct max_hops; [|done]. intros v d. unfold seeded. case_decide; [|done]. intros. simplify_eq. lia.
    + by right.
  - intros l' (D & [[Hlen Hl'] _] & HD). split; [done|]. intros v Hv. exists (D v). split; [by apply Hl'|done].
Qed.

(** The nodes that satisfy a condition on their hops, in ascending order. *)
Lemma selected_nodes (g : option Z → bool) (l : list (option Z)) a :
  let vs := omap (λ '(node, hop), if g hop : bool then Some node else None) (zip (seqZ a (zlen l)) l) in
  StronglySorted Z.lt vs ∧ (∀ v, v ∈ vs ↔ a ≤ v ∧ ∃ hop, l !! Z.to_nat (v - a) = Some hop ∧ g hop = true).
Proof.
  revert a. induction l as [|hop l IH]; intros a vs.
  - split; [constructor|]. intros v. split; [by intros ?%elem_of_nil|]. intros (_ & ? & ? & _). done.
  - unfold vs. rewrite zlen_cons, seqZ_cons by (pose proof (zlen_nonneg l); lia). replace (Z.pred (1 + zlen l)) with (zlen l) by lia.
    destruct (IH (Z.succ a)) as [Hs He]. cbn [zip zip_with omap list_omap].
    assert (∀ v, Z.succ a ≤ v → Z.to_nat (v - a) = S (Z.to_nat (v - Z.succ a))) as Hv by lia. split.
    + destruct (g hop); [|done]. constructor; [done|]. apply Forall_forall. intros v Hin. apply He in Hin. lia.
    + intros v. destruct (g hop) eqn:Hg.
      * rewrite elem_of_cons, He. split.
        -- intros [->|(Hle & h & Hl & Hh)]; [split; [lia|]; exists hop; by rewrite Z.sub_diag|].
           split; [lia|]. exists h. by rewrite Hv.
        -- intros (Hle & h & Hl & Hh). destruct (decide (v = a)) as [->|Hne]; [by left|right]. split; [lia|].
           exists h. rewrite Hv in Hl by lia. done.
      * rewrite He. split; intros (Hle & h & Hl & Hh).
        -- split; [lia|]. exists h. by rewrite Hv.
        -- destruct (decide (v = a)) as [->|Hne]; [rewrite Z.sub_diag in Hl; change (Some hop = Some h) in Hl; congruence|].
           split; [lia|]. exists h. rewrite Hv in Hl by lia. done.
Qed.

Lemma hops_within_unique max v o o' : hops_within max v o → hops_within max v o' → o = o'.
Proof.
  assert (∀ d d', hops_within max v (Some d) → hops_within max v (Some d') → d = d') as H1.
  { intros d d' [[Hr Hm] _] [[Hr' Hm'] _]. apply Nat.le_antisymm; auto. }
  assert (∀ d, hops_within max v (Some d) → hops_within max v None → False) as H2.
  { intros d [[Hr _] Hd] Hn. specialize (Hn d Hr). destruct max; [lia|done]. }
  destruct o, o'; intros Ho Ho'; [f_equal; auto|destruct (H2 _ Ho Ho')|destruct (H2 _ Ho' Ho)|done].
Qed.

(** A node is reported exactly when its least number of hops is in the range. *)
Lemma reachable_spec min_hops max_hops :
  match max_hops with Some m => 0 ≤ m | None => True end →
  checks check (multi_source_reachable check c seeds min_hops max_hops)
    (λ vs, StronglySorted Z.lt vs ∧ ∀ v, v ∈ vs ↔ 0 ≤ v < n ∧ ∃ d, hops_within max_hops v (Some d) ∧ min_hops ≤ Z.of_nat d).
Proof.
  intros Hmax. unfold multi_source_reachable. eapply checks_bind; [by apply frontier_spec|]. intros l [Hlen Hl].
  apply checks_ret. set (g := λ hop : option Z, match hop with Some h => min_hops <=? h | None => false end).
  assert (omap (λ '(node, hop), match hop with Some h => if min_hops <=? h then Some node else None | None => None end)
            (zip (seqZ 0 (zlen l)) l) = omap (λ '(node, hop), if g hop then Some node else None) (zip (seqZ 0 (zlen l)) l)) as ->.
  { generalize (zip (seqZ 0 (zlen l)) l). intros k. induction k as [|[node [h|]] k IH]; cbn; [done|by rewrite IH|done]. }
  destruct (selected_nodes g l 0) as [Hs He]. split; [done|]. intros v. rewrite He, Z.sub_0_r. split.
  - intros (Hv & hop & Hlk & Hg). pose proof (lookup_lt_Some _ _ _ Hlk). assert (0 ≤ v < n) as Hvn by (unfold zlen in Hlen; lia).
    split; [done|]. destruct (Hl v Hvn) as (o & Ho & Hh). rewrite Hlk in Ho. simplify_eq. destruct o as [d|]; [|done].
    exists d. cbn in Hg. apply Z.leb_le in Hg. done.
  - intros (Hv & d & Hd & Hmin). split; [lia|]. destruct (Hl v Hv) as (o & Ho & Hh). exists (Z.of_nat <$> o).
    pose proof (hops_within_unique _ _ _ _ Hd Hh) as <-. split; [done|]. by apply Z.leb_le.
Qed.
End frontier.

(** ** Claims *)

(** C17: breadth-first distances are the least numbers of hops, and so is the
    expansion of several seeds up to a bound, from which the nodes in a range
    of hops are reported in ascending order.  Whatever the callback answers,
    the computations end with these results or with an error of the callback;
    a source that is no node is refused, such seeds are ignored. *)
Theorem hop_distances check a c s seeds min_hops max_hops :
  adjacency_ok a → adjacency_ok (csr_read c) → 0 ≤ s → Forall (λ s, 0 ≤ s) seeds → match max_hops with Some m => 0 ≤ m | None => True end →
  (if node_count a <=? s
   then run (bfs_cancellable check a s) = Err (query_type "BFS source is out of bounds")
   else returns check (bfs_cancellable check a s) (distances_from a s)
        ∧ ∃ l, bfs a s = Ok l ∧ distances_from a s l)
  ∧ returns check (multi_source_frontier_distances check c seeds max_hops) (distances_within c seeds max_hops)
  ∧ returns check (multi_source_reachable check c seeds min_hops max_hops) (λ vs, StronglySorted Z.lt vs ∧
      ∀ v, v ∈ vs ↔ 0 ≤ v < csr_nodes c ∧ ∃ d, hops_within c seeds max_hops v (Some d) ∧ min_hops ≤ Z.of_nat d).
Proof.
  intros Ha Hok Hs Hseeds Hmax. split_and!.
  - destruct (Z.leb_spec (node_count a) s) as [Hge|Hlt].
    + unfold bfs_cancellable. by rewrite (proj2 (Z.leb_le _ _)).
    + split; [apply checks_run|apply checks_never]; by apply bfs_spec.
  - by apply checks_run, frontier_spec.
  - by apply checks_run, reachable_spec.
Qed.

(** A diamond with a longer way round. *)
Definition diamond_edges : list (Z * Z * Z) := [(0, 2, 1); (0, 1, 2); (1, 3, 3); (2, 3, 4); (3, 4, 5); (4, 0, 6)].
Definition diamond : Csr := match build 6 diamond_edges with Ok c => c | _ => Csr_default end.

Lemma diamond_ok : adjacency_ok (csr_read diamond).
Proof.
  destruct (build_both 6 diamond_edges) as (c & _ & Hb & _ & Hc & _); [rlia|decided|vm_compute; discriminate|decided..|].
  unfold diamond. rewrite Hb. apply (built_ok c 6 diamond_edges); [done|rlia|decided..].
Qed.

Lemma hop_distances_witness :
  bfs (csr_read diamond) 0 = Ok [Some 0; Some 1; Some 1; Some 2; Some 3; None]
  ∧ distances_from (csr_read diamond) 0 [Some 0; Some 1; Some 1; Some 2; Some 3; None]
  ∧ run (multi_source_reachable never diamond [3; 9] 1 (Some 2)) = Ok [0; 4].
Proof.
  destruct (hop_distances never (csr_read diamond) diamond 0 [3; 9] 1 (Some 2)) as (Hb & _ & _); [apply diamond_ok|apply diamond_ok|lia|decided|lia|].
  assert (bfs (csr_read diamond) 0 = Ok [Some 0; Some 1; Some 1; Some 2; Some 3; None]) as He by (vm_compute; reflexivity).
  rewrite (proj2 (Z.leb_gt _ _)) in Hb by (vm_compute; reflexivity). destruct Hb as [_ (l & Hl & Hd)]. rewrite He in Hl. injection Hl as <-.
  split_and!; [done..|]. vm_compute. reflexivity.
Defined.
