(* ===== verification/PathTheorems.v ===== *)
(** * Shortest paths: theorems

    The predecessors recorded by the search lead back to the source along a
    path with the least number of hops. *)

From stdpp Require Import functions relations prelude gmap strings sorting list.
From Stdlib Require Import ZArith Lia.
From S2P Require Import Prelude Machine Types Shared Csr CsrTheorems Algorithms Layers SearchTheorems.

Local Open Scope Z_scope.
#[local] Set Warnings "-clear-no-such-hyp".

(** The nodes of a path from [u] to [t]. *)
Inductive trail (E : relation Z) : Z → Z → list Z → Prop :=
  | trail_one t : trail E t t [t]
  | trail_cons u v t l : E u v → trail E v t l → trail E u t (u :: l).

Section path.
Context (check : Check) (a : AdjacencyRead) (s : Z).
Hypothesis ok : adjacency_ok a.
Abbreviation n := (node_count a).
Abbreviation E := (edge a).

(** Every node found but the source was found from one of the level before. *)
Definition preceded (D : Z → option nat) (p : Z → option Z) : Prop :=
  ∀ v d, D v = Some d → v ≠ s → ∃ u d', p v = Some u ∧ E u v ∧ D u = Some d' ∧ d = S d'.

(** The lists of the search hold its levels. *)
Definition tracked (pred : list (option Z)) (visited : list bool) (D : Z → option nat) : Prop :=
  holds n visited (λ v, bool_decide (is_Some (D v))) ∧ (∀ v, is_Some (D v) → 0 ≤ v < n)
  ∧ ∃ p, holds n pred p ∧ preceded D p.

Lemma preceded_new D p u d v :
  preceded D p → D u = Some d → D v = None → E u v → preceded (<[v := Some (S d)]> D) (<[v := Some u]> p).
Proof.
  intros Hp Hu Hv HE w k Hw Hne. assert (u ≠ v) by congruence. destruct (decide (v = w)) as [<-|Hvw].
  - rewrite fn_lookup_insert in Hw. simplify_eq. exists u, d. rewrite fn_lookup_insert, fn_lookup_insert_ne by done. done.
  - rewrite fn_lookup_insert_ne in Hw by done. destruct (Hp w k Hw Hne) as (x & k' & ? & ? & ? & ?). exists x, k'.
    rewrite !fn_lookup_insert_ne by congruence. done.
Qed.

Lemma path_neighbor_spec P u d done Q D pred visited entry :
  searching E [s] P u d done Q D → tracked pred visited D → E u entry.1 →
  checks check (path_neighbor u (pred, visited, Q) entry)
    (λ '(pred', visited', Q'), ∃ D', searching E [s] P u d (done ++ [entry.1]) Q' D' ∧ tracked pred' visited' D').
Proof.
  intros Hs (Hvis & Hr & p & Hpred & Hp) HE. pose proof (proj2 ok _ _ HE) as Hv. unfold path_neighbor.
  eapply checks_bind; [eapply (checks_step _ _ _ (λ x, x = bool_decide (is_Some (D entry.1)))); [by eapply holds_get|done]|].
  intros seen ->. case_bool_decide as Hseen.
  - apply checks_ret. exists D. split; [by apply search_seen|]. split_and!; [done..|by exists p].
  - apply eq_None_not_Some in Hseen.
    destruct (holds_set (E := Error) n visited _ entry.1 true Hvis Hv) as (visited' & Hset & Hvis').
    destruct (holds_set (E := Error) n pred _ entry.1 (Some u) Hpred Hv) as (pred' & Hset' & Hpred').
    eapply checks_bind; [eapply (checks_step _ _ _ (λ x, x = visited')); [exact Hset|done]|]. intros ? ->.
    eapply checks_bind; [eapply (checks_step _ _ _ (λ x, x = pred')); [exact Hset'|done]|]. intros ? ->.
    apply checks_ret. exists (<[entry.1 := Some (S d)]> D). split; [by apply search_new|]. split_and!.
    + apply (holds_ext _ _ _ _ Hvis'). intros w _. destruct (decide (entry.1 = w)) as [<-|Hne]; [by rewrite !fn_lookup_insert|].
      by rewrite !fn_lookup_insert_ne.
    + intros w. destruct (decide (entry.1 = w)) as [<-|Hne]; [done|]. rewrite fn_lookup_insert_ne by done. apply Hr.
    + eexists. split; [exact Hpred'|]. apply preceded_new; [done| |done|done]. by apply (searching_level _ _ _ _ _ _ _ _ Hs).
Qed.

(** The search stops at the target or when it has found all nodes. *)
Lemma path_loop_spec t fuel P Q D pred visited :
  layered E [s] P Q D → tracked pred visited D → n - zlen P < Z.of_nat fuel →
  checks check (path_loop check a fuel t pred visited Q)
    (λ '(pred', visited'), ∃ P' Q' D', layered E [s] P' Q' D' ∧ tracked pred' visited' D' ∧ (Q' = [] ∨ head Q' = Some t)).
Proof.
  revert P Q D pred visited. induction fuel as [|fuel IH]; intros P Q D pred visited Hlay Ht Hf; pose proof Ht as (_ & Hr & _).
  - exfalso. assert (zlen P ≤ Z.max 0 n); [|destruct ok as [? _]; lia]. apply NoDup_range_length.
    + pose proof (layered_nodup _ _ _ _ _ Hlay) as Hnd. by apply list.NoDup_app in Hnd as [? _].
    + intros v Hv. apply Hr. apply (layered_assigned _ _ _ _ _ Hlay). by left.
  - cbn [path_loop]. destruct Q as [|u Q]; [apply checks_ret; exists P, [], D; auto|].
    eapply checks_bind; [by apply (checks_call_if _ _ (λ _, True))|]. intros _ _.
    destruct (Z.eqb_spec u t) as [->|Hne]; [apply checks_ret; exists P, (t :: Q), D; auto|].
    destruct (search_enter _ _ _ _ _ _ Hlay) as [d Hs].
    eapply checks_bind.
    { apply (checks_each check _ _ _ (λ done '(pr, vi, Q'), ∃ D', searching E [s] P u d done.*1 Q' D' ∧ tracked pr vi D')).
      - by exists D.
      - intros done x rest [[pr vi] Q'] Hx (D' & Hs' & Ht'). rewrite fmap_app. apply path_neighbor_spec with D'; [done..|].
        exists x.2. rewrite Hx. destruct x. set_solver. }
    intros [[pr vi] Q'] (D' & Hs' & Ht'). apply (IH (P ++ [u]) Q' D'); [|done|rewrite zlen_app; unfold zlen in *; cbn; lia].
    apply (search_exit _ _ _ _ _ _ _ _ Hs'). intros v [e Hv]. by apply (list_elem_of_fmap_2 fst _ (v, e)).
Qed.

(** Going back over the predecessors gives a path with the levels' length. *)
Lemma path_back_spec t D pred p fuel v d path :
  holds n pred p → preceded D p → (∀ v, is_Some (D v) → 0 ≤ v < n) → D s = Some O →
  (d < fuel)%nat → D v = Some d → trail E v t (rev path) →
  ∃ path', path_back fuel pred s v path = Ok path' ∧ trail E s t (rev path') ∧ length path' = (length path + d)%nat.
Proof.
  intros Hpred Hp Hr Hs. revert v d path. induction fuel as [|fuel IH]; intros v d path Hf Hv Ht; [lia|].
  cbn [path_back]. destruct (Z.eqb_spec v s) as [->|Hne].
  - exists path. assert (d = O) as -> by congruence. split_and!; [done..|lia].
  - destruct (Hp v d Hv Hne) as (u & d' & Hu & HE & Hd' & ->). assert (0 ≤ v < n) as Hvn by (apply Hr; by eexists).
    rewrite (holds_get n pred p v Hpred Hvn), Hu. cbn.
    destruct (IH u d' (path ++ [u])) as (path' & Hb & Htr & Hlen); [lia|done| |].
    + rewrite rev_app_distr. cbn. by apply trail_cons with v.
    + exists path'. split_and!; [done..|]. rewrite Hlen, length_app. cbn. lia.
Qed.

(** Either there is no path at all, or a path with the least number of hops. *)
Definition least_path (t : Z) (o : option (list Z)) : Prop :=
  match o with
  | None => ∀ l, ¬ trail E s t l
  | Some l => trail E s t l ∧ ∀ l', trail E s t l' → (length l ≤ length l')%nat
  end.

Lemma trail_nsteps u t l : trail E u t l → nsteps E (pred (length l)) u t.
Proof.
  induction 1 as [t|u v t l HE Ht IH]; [constructor|]. destruct Ht; [by apply (nsteps_l _ _ _ t); [|constructor]|].
  cbn in *. by eapply nsteps_l.
Qed.

Lemma least_hops_path t o path :
  least_hops E [s] t o → match o with Some d => ∃ l, path = Some l ∧ trail E s t l ∧ length l = S d | None => path = None end →
  least_path t path.
Proof.
  assert (∀ l, trail E s t l → reach E [s] (Nat.pred (length l)) t) as Hreach.
  { intros l Hl. exists s. split; [set_solver|]. by apply trail_nsteps. }
  destruct o as [d|].
  - intros [_ Hmin] (l & -> & Hl & Hlen). split; [done|]. intros l' Hl'. specialize (Hmin _ (Hreach l' Hl')).
    destruct Hl'; cbn in *; lia.
  - intros Hno ->. intros l Hl. by apply (Hno _ (Hreach l Hl)).
Qed.

Lemma shortest_path_spec t : 0 ≤ s < n → 0 ≤ t < n → checks check (shortest_path_cancellable check a s t) (least_path t).
Proof.
  intros Hs Ht. unfold shortest_path_cancellable. rewrite !(proj2 (Z.leb_gt _ _)) by lia. cbn [orb].
  eapply checks_bind; [by apply (checks_call _ (λ _, True))|]. intros _ _.
  destruct (holds_set (E := Error) n _ _ s true (holds_replicate n false ltac:(lia)) Hs) as (visited & Hset & Hvis).
  eapply checks_bind; [eapply (checks_step _ _ _ (λ x, x = visited)); [exact Hset|done]|]. intros ? ->.
  eapply checks_bind.
  { apply (path_loop_spec t _ [] [s] (seeded [s])); [apply layered_start; [set_solver|apply NoDup_singleton]| |change (zlen []) with 0; lia].
    split_and!.
    - apply (holds_ext _ _ _ _ Hvis). intros v _. unfold seeded. destruct (decide (s = v)) as [<-|Hne].
      + by rewrite fn_lookup_insert, decide_True by set_solver.
      + by rewrite fn_lookup_insert_ne, decide_False by set_solver.
    - intros v. unfold seeded. case_decide as Hin; [|by intros [? ?]]. apply list_elem_of_singleton in Hin as ->. done.
    - eexists. split; [apply holds_replicate; lia|]. intros v d. unfold seeded. case_decide as Hin; [|done].
      apply list_elem_of_singleton in Hin as ->. done. }
  intros [pred vis] (P & Q & D & Hlay & (Hv & Hr & p & Hpred & Hp) & Hq).
  eapply checks_bind; [by apply (checks_call _ (λ _, True))|]. intros _ _.
  eapply checks_bind; [eapply (checks_step _ _ _ (λ x, x = bool_decide (is_Some (D t)))); [by eapply holds_get|done]|]. intros ? ->.
  assert (least_hops E [s] t (D t)) as Hleast.
  { destruct Hq as [->|Hq]; [by eapply layered_complete|]. destruct Q as [|t' Q]; cbn in Hq; simplify_eq.
    assert (is_Some (D t)) as [d Hd] by (apply (layered_assigned _ _ _ _ _ Hlay); right; by left). rewrite Hd. by eapply head_least. }
  destruct (D t) as [d|] eqn:Hd; cbn [negb bool_decide].
  - rewrite bool_decide_true by done. cbn [negb].
    destruct (path_back_spec t D pred p (S (Z.to_nat n)) t d [t]) as (path & Hb & Htr & Hlen); [done..| | |done|constructor|].
    + apply (levels_seed _ _ _ _ (layered_levels _ _ _ _ _ Hlay)). set_solver.
    + assert (Z.of_nat d < n); [|lia]. apply (levels_bound D n t d); [done| |done].
      intros w k k'. apply (levels_dense _ _ _ _ (layered_levels _ _ _ _ _ Hlay)).
    + eapply checks_bind; [eapply (checks_step _ _ _ (λ x, x = path)); [exact Hb|done]|]. intros ? ->. apply checks_ret.
      apply (least_hops_path t (Some d)); [done|]. exists (rev path). rewrite length_rev. done.
  - rewrite bool_decide_false by (by intros [? ?]). cbn [negb]. apply checks_ret. by apply (least_hops_path t None).
Qed.
End path.

(** C18: a shortest path is returned exactly when the target can be reached, and
    it is a path along edges with the least number of nodes.  Whatever the
    callback answers, the computation ends with this result or with an error of
    the callback, never with the one for an incomplete chain of predecessors;
    endpoints that are no nodes are refused. *)
Theorem shortest_path_least check a s t :
  adjacency_ok a → 0 ≤ s → 0 ≤ t →
  if bool_decide (s < node_count a ∧ t < node_count a)
  then returns check (shortest_path_cancellable check a s t) (least_path a s t)
       ∧ ∃ o, shortest_path a s t = Ok o ∧ least_path a s t o
  else run (shortest_path_cancellable check a s t) = Err (query_type "shortest-path endpoint is out of bounds").
Proof.
  intros Hok Hs Ht. case_bool_decide as Hin.
  - split; [apply checks_run|apply checks_never]; apply shortest_path_spec; (done || lia).
  - unfold shortest_path_cancellable. destruct (Z.leb_spec (node_count a) s); [done|].
    destruct (Z.leb_spec (node_count a) t); [done|]. lia.
Qed.

Lemma shortest_path_least_witness :
  shortest_path (csr_read diamond) 4 3 = Ok (Some [4; 0; 1; 3])
  ∧ least_path (csr_read diamond) 4 3 (Some [4; 0; 1; 3]).
Proof.
  pose proof (shortest_path_least never (csr_read diamond) 4 3 diamond_ok ltac:(lia) ltac:(lia)) as H.
  assert (shortest_path (csr_read diamond) 4 3 = Ok (Some [4; 0; 1; 3])) as He by (vm_compute; reflexivity).
  rewrite bool_decide_true in H by (split; vm_compute; reflexivity). destruct H as [_ (o & Ho & Hl)].
  rewrite He in Ho. injection Ho as <-. split; [exact He|exact Hl].
Defined.
