(* ===== verification/DepthTheorems.v ===== *)
(** * Depth-first order: theorems

    The traversal with a stack visits the nodes in the preorder of the
    recursive definition: every reachable node once. *)

From stdpp Require Import functions relations prelude gmap strings sorting list.
From Stdlib Require Import ZArith Lia.
From S2P Require Import Prelude Machine Types Shared Csr CsrTheorems Algorithms Layers SearchTheorems.

Local Open Scope Z_scope.
#[local] Set Warnings "-clear-no-such-hyp".

(** ** The recursive definition *)

(** [visits next o vs o']: with the nodes [o] visited, visiting the nodes [vs]
    one after the other, each followed by its neighbours, appends to [o] the
    nodes met for the first time. *)
Inductive visits (next : Z → list Z) : list Z → list Z → list Z → Prop :=
  | visits_nil o : visits next o [] o
  | visits_seen o v vs o' : v ∈ o → visits next o vs o' → visits next o (v :: vs) o'
  | visits_new o v vs o1 o' :
      v ∉ o → visits next (o ++ [v]) (next v) o1 → visits next o1 vs o' → visits next o (v :: vs) o'.

Section visits.
Context (next : Z → list Z).
Abbreviation visits := (visits next).

Lemma visits_grow o vs o' : visits o vs o' → ∀ v, v ∈ o → v ∈ o'.
Proof. induction 1; set_solver. Qed.

Lemma visits_app o vs1 vs2 o' : visits o (vs1 ++ vs2) o' → ∃ o1, visits o vs1 o1 ∧ visits o1 vs2 o'.
Proof.
  revert o. induction vs1 as [|v vs1 IH]; intros o H; cbn in H; [exists o; split; [constructor|done]|].
  inversion H; simplify_eq.
  - destruct (IH o) as (o1 & ? & ?); [done|]. exists o1. split; [by apply visits_seen|done].
  - match goal with Hr : DepthTheorems.visits _ _ (vs1 ++ vs2) _ |- _ => apply IH in Hr as (o2 & ? & ?) end.
    exists o2. split; [by eapply visits_new|done].
Qed.

(** Leaving out nodes visited before changes nothing. *)
Lemma visits_filter o vs o' (keep : Z → Prop) `{!∀ v, Decision (keep v)} :
  (∀ v, v ∈ vs → ¬ keep v → v ∈ o) → visits o (filter keep vs) o' → visits o vs o'.
Proof.
  revert o. induction vs as [|v vs IH]; intros o Hk Hf; [done|]. rewrite filter_cons in Hf. case_decide as Hv.
  - inversion Hf; simplify_eq; [apply visits_seen; [done|]; apply IH; set_solver|].
    eapply visits_new; [done..|]. apply IH; [|done]. intros w Hw Hn. eapply visits_grow; [done|]. set_solver.
  - apply visits_seen; [set_solver|]. apply IH; set_solver.
Qed.

Lemma visits_functional o vs o1 o2 : visits o vs o1 → visits o vs o2 → o1 = o2.
Proof.
  intros H1. revert o2. induction H1 as [o|o v vs o' Hv H IH|o v vs o1 o' Hv H IH H' IH']; intros o2 H2; inversion H2; simplify_eq; try done; auto.
  match goal with Hr : DepthTheorems.visits _ (_ ++ _) _ _ |- _ => apply IH in Hr as -> end. auto.
Qed.

Lemma visits_nodup o vs o' : visits o vs o' → NoDup o → NoDup o'.
Proof.
  induction 1 as [o|o v vs o' Hv H IH|o v vs o1 o' Hv H IH H' IH']; intros Hnd; auto.
  apply IH', IH. apply list.NoDup_app. split_and!; [done|set_solver|apply NoDup_singleton].
Qed.

(** The nodes asked for are visited, and the neighbours of every new node. *)
Lemma visits_closed o vs o' :
  visits o vs o' → (∀ v, v ∈ vs → v ∈ o') ∧ ∀ u, u ∈ o' → u ∉ o → ∀ v, v ∈ next u → v ∈ o'.
Proof.
  induction 1 as [o|o v vs o' Hv H [IH1 IH2]|o v vs o1 o' Hv H [IH1 IH2] H' [IH1' IH2']]; [set_solver|..].
  - split; [|done]. intros w [->|Hw]%elem_of_cons; [by eapply visits_grow|auto].
  - assert (v ∈ o1) by (eapply visits_grow; [done|set_solver]). split.
    + intros w [->|Hw]%elem_of_cons; [by eapply visits_grow|auto].
    + intros u Hu Hno w Hw. destruct (decide (u ∈ o1)) as [Hu1|Hu1]; [|by eapply IH2'].
      eapply visits_grow; [exact H'|]. destruct (decide (u = v)) as [->|Hne]; [by apply IH1|]. apply (IH2 u); set_solver.
Qed.

Lemma visits_sound o vs o' : visits o vs o' → ∀ v, v ∈ o' → v ∈ o ∨ ∃ u, u ∈ vs ∧ rtc (λ x y, y ∈ next x) u v.
Proof.
  induction 1 as [o|o v vs o' Hv H IH|o v vs o1 o' Hv H IH H' IH']; intros w Hw; [by left|..].
  - destruct (IH w Hw) as [?|(u & ? & ?)]; [by left|]. right. exists u. set_solver.
  - destruct (IH' w Hw) as [Hw1|(u & ? & ?)]; [|right; exists u; set_solver].
    destruct (IH w Hw1) as [[?| ->%list_elem_of_singleton]%elem_of_app|(u & Hu & Hr)]; [by left|right; exists v; set_solver|].
    right. exists v. split; [by left|]. by eapply rtc_l.
Qed.

(** From one node: the reachable nodes, each once. *)
Lemma visits_reachable s o : visits [] [s] o → NoDup o ∧ ∀ v, v ∈ o ↔ rtc (λ x y, y ∈ next x) s v.
Proof.
  intros H. split; [eapply visits_nodup; [done|constructor]|]. intros v. split.
  - intros Hv. destruct (visits_sound _ _ _ H v Hv) as [?%elem_of_nil|(u & ->%list_elem_of_singleton & Hr)]; done.
  - intros Hr. destruct (visits_closed _ _ _ H) as [Hs Hc]. revert v Hr.
    apply rtc_ind_r; [set_solver|]. intros y z _ Hyz IH. apply (Hc y); [done|set_solver|done].
Qed.
End visits.

(** ** The traversal *)

(** Neighbours in ascending order. *)
Definition targets (a : AdjacencyRead) (u : Z) : list Z := (sorted_row a u).*1.

Lemma elem_of_targets a u v : v ∈ targets a u ↔ edge a u v.
Proof. unfold targets, edge. rewrite list_elem_of_fmap. split; [intros ([w e] & -> & ?); by exists e|intros [e ?]; by exists (v, e)]. Qed.

Lemma rtc_targets a u v : rtc (λ x y, y ∈ targets a x) u v ↔ rtc (edge a) u v.
Proof. split; induction 1; econstructor; try done; by apply elem_of_targets. Qed.

Section dfs.
Context (check : Check) (a : AdjacencyRead).
Hypothesis ok : adjacency_ok a.
Abbreviation n := (node_count a).

(** The entries of the nodes that are not visited. *)
Definition entries_left (vis : Z → bool) : nat :=
  sum_list ((λ v, if vis v then O else length (sorted_row a v)) <$> seqZ 0 n).

Lemma entries_left_visit vis v :
  0 ≤ v < n → vis v = false → entries_left vis = (entries_left (<[v := true]> vis) + length (sorted_row a v))%nat.
Proof.
  intros Hv Hvis. unfold entries_left. assert (v ∈ seqZ 0 n) as Hin by (apply elem_of_seqZ; lia).
  pose proof (NoDup_seqZ 0 n) as Hnd. apply list_elem_of_split in Hin as (l1 & l2 & Hl). rewrite Hl in Hnd |- *.
  apply list.NoDup_app in Hnd as (_ & Hd & [Hv2 _]%list.NoDup_cons).
  assert (∀ l : list Z, v ∉ l → ((λ w, if vis w then O else length (sorted_row a w)) <$> l)
    = ((λ w, if <[v:=true]> vis w then O else length (sorted_row a w)) <$> l)) as Hsame.
  { intros l Hl'. apply list_fmap_ext. intros i w Hw. rewrite fn_lookup_insert_ne; [done|]. intros <-.
    apply Hl'. by eapply list_elem_of_lookup_2. }
  rewrite !fmap_app, !fmap_cons, !sum_list_with_app. rewrite <- (Hsame l1), <- (Hsame l2) by set_solver.
  cbn. rewrite fn_lookup_insert, Hvis. lia.
Qed.

Lemma unvisited_spec visited vis vs :
  holds n visited vis → (∀ v, v ∈ vs → 0 ≤ v < n) →
  checks check (unvisited visited vs) (λ l, l = filter (λ v, vis v = false) vs).
Proof.
  intros Hvis Hr. unfold unvisited. apply (checks_each check _ _ _ (λ done l, l = filter (λ v, vis v = false) done)); [done|].
  intros done v rest l Hvs ->. eapply checks_bind.
  { eapply (checks_step _ _ _ (λ x, x = vis v)); [eapply holds_get; [done|]|done]. apply Hr. rewrite Hvs. set_solver. }
  intros ? ->. apply checks_ret. rewrite filter_app, filter_cons, filter_nil. destruct (vis v); cbn; [by rewrite app_nil_r|done].
Qed.

Lemma dfs_loop_spec fuel visited vis stack order :
  holds n visited vis → (∀ v, v ∈ stack → 0 ≤ v < n) → (∀ v, 0 ≤ v < n → vis v = true ↔ v ∈ order) →
  (length stack + entries_left vis < fuel)%nat →
  checks check (dfs_loop check a fuel visited stack order) (λ o, visits (targets a) order stack o).
Proof.
  revert visited vis stack order. induction fuel as [|fuel IH]; intros visited vis stack order Hvis Hst Hord Hf; [lia|].
  cbn [dfs_loop]. destruct stack as [|u stack]; [apply checks_ret; constructor|].
  assert (0 ≤ u < n) as Hu by (apply Hst; by left).
  eapply checks_bind; [by apply (checks_call_if _ _ (λ _, True))|]. intros _ _.
  eapply checks_bind; [eapply (checks_step _ _ _ (λ x, x = vis u)); [by eapply holds_get|done]|]. intros ? ->.
  cbn in Hf. destruct (vis u) eqn:Hvu.
  - eapply checks_mono; [apply (IH visited vis); [done|set_solver|done|lia]|]. intros o Ho. apply visits_seen; [|done]. by apply Hord.
  - destruct (holds_set (E := Error) n visited _ u true Hvis Hu) as (visited' & Hset & Hvis').
    eapply checks_bind; [eapply (checks_step _ _ _ (λ x, x = visited')); [exact Hset|done]|]. intros ? ->.
    assert (∀ v, v ∈ targets a u → 0 ≤ v < n) as Ht by (intros v Hv%elem_of_targets; by apply (proj2 ok u)).
    eapply checks_bind; [by apply (unvisited_spec visited' _ (targets a u) Hvis')|]. intros ? ->.
    eapply checks_mono.
    + apply (IH visited' (<[u := true]> vis)); [done| | |].
      * intros v [Hv|Hv]%elem_of_app; [apply Ht; by apply list_elem_of_filter in Hv as [_ ?]|apply Hst; by right].
      * intros v Hv. destruct (decide (u = v)) as [<-|Hne]; [rewrite fn_lookup_insert; set_solver|].
        rewrite fn_lookup_insert_ne, Hord by done. set_solver.
      * rewrite length_app. pose proof (length_filter (λ v, <[u:=true]> vis v = false) (targets a u)) as Hle.
        unfold targets in Hle at 2. rewrite length_fmap in Hle. rewrite (entries_left_visit vis u Hu Hvu) in Hf. lia.
    + intros o Ho. apply visits_app in Ho as (o1 & Ho1 & Ho2). apply (visits_new _ _ _ _ o1).
      * rewrite <- Hord by done. by rewrite Hvu.
      * revert Ho1. apply visits_filter. intros v Hin Hv. apply not_false_is_true in Hv.
        destruct (decide (u = v)) as [<-|Hne]; [set_solver|]. rewrite fn_lookup_insert_ne in Hv by done.
        apply elem_of_app. left. apply Hord; [by apply Ht|done].
      * done.
Qed.

Lemma dfs_spec s :
  0 ≤ s < n → checks check (dfs_cancellable check a s) (λ o, visits (targets a) [] [s] o).
Proof.
  intros Hs. unfold dfs_cancellable. rewrite (proj2 (Z.leb_gt _ _)) by lia.
  apply (dfs_loop_spec _ _ (λ _, false)); [apply holds_replicate; lia|by intros v ->%list_elem_of_singleton|set_solver|].
  unfold entries_left, entry_count. cbn [length]. lia.
Qed.
End dfs.

(** the depth-first traversal with a stack visits the nodes in the preorder
    of the recursive definition, neighbours in ascending order: every node that
    can be reached, once.  Whatever the callback answers, the computation ends
    with this result or with an error of the callback; a source that is no node
    is refused. *)
Theorem depth_first_preorder check a s :
  adjacency_ok a → 0 ≤ s →
  let preorder o := visits (targets a) [] [s] o ∧ NoDup o ∧ ∀ v, v ∈ o ↔ rtc (edge a) s v in
  if node_count a <=? s then run (dfs_cancellable check a s) = Err (query_type "DFS source is out of bounds")
  else returns check (dfs_cancellable check a s) preorder ∧ ∃ o, dfs a s = Ok o ∧ preorder o.
Proof.
  intros Hok Hs preorder. destruct (Z.leb_spec (node_count a) s) as [Hge|Hlt].
  - unfold dfs_cancellable. by rewrite (proj2 (Z.leb_le _ _)).
  - assert (∀ check, checks check (dfs_cancellable check a s) preorder) as H.
    { intros ch. eapply checks_mono; [by apply dfs_spec|]. intros o Ho. split; [done|].
      destruct (visits_reachable _ _ _ Ho) as [Hnd Hr]. split; [done|]. intros v. rewrite Hr. apply rtc_targets. }
    split; [apply checks_run|apply checks_never]; apply H.
Qed.

Lemma depth_first_preorder_witness :
  dfs (csr_read diamond) 0 = Ok [0; 1; 3; 4; 2] ∧ ∀ v, v ∈ [0; 1; 3; 4; 2] ↔ rtc (edge (csr_read diamond)) 0 v.
Proof.
  pose proof (depth_first_preorder never (csr_read diamond) 0 diamond_ok ltac:(lia)) as H.
  assert (dfs (csr_read diamond) 0 = Ok [0; 1; 3; 4; 2]) as He by (vm_compute; reflexivity).
  rewrite (proj2 (Z.leb_gt _ _)) in H by (vm_compute; reflexivity). destruct H as [_ (o & Ho & _ & _ & Hr)].
  rewrite He in Ho. injection Ho as <-. split; [exact He|exact Hr].
Defined.
