(* ===== verification/Components.v ===== *)
(** * Components: [crates/graph/src/algorithms.rs]

    Weakly connected components by breadth-first search over both directions,
    and strongly connected components by two traversals with explicit stacks,
    renumbered by the smallest node of each. *)

From stdpp Require Import prelude gmap strings sorting.
From Stdlib Require Import ZArith Lia.
From S2P Require Import Prelude Machine Types Shared Csr Algorithms.

Local Open Scope Z_scope.

Record Components := mkComponents { component : list Z; count : Z }.

Definition validate_pair (outgoing incoming : AdjacencyRead) : Result unit :=
  if node_count outgoing =? node_count incoming then Ok tt
  else Err (Error_invalid_data "CSR and CSC node counts differ").

(** [count.checked_add(1).ok_or_else(..)]. *)
Definition next_component (count : Z) : Result Z :=
  ok_or (checked_add u32_max count 1) (budget "component ID space exhausted").

Section components.
Context (check : Check) (outgoing incoming : AdjacencyRead).

(** ** Weak components *)

(** Gives a neighbour without a component, which has [u32::MAX], the component
    and pushes it. *)
Definition claim (push : list Z → Z → list Z) (count : Z) (s : list Z * list Z) (entry : Z * Z)
    : Checked (list Z * list Z) :=
  let '(component, waiting) := s in
  label ← step (index_at component entry.1);
  if label =? u32_max then
    component ← step (index_set component entry.1 count);
    mret (component, push waiting entry.1)
  else mret s.

Definition push_back (queue : list Z) (v : Z) : list Z := queue ++ [v].

Fixpoint weak_loop (fuel : nat) (count : Z) (component queue : list Z) : Checked (list Z) :=
  match fuel with
  | O => step (Abort OutOfFuel)
  | S fuel =>
      match queue with
      | [] => mret component
      | node :: queue =>
          _ ← call_if check (masked node 1023);
          s ← each (claim push_back count) (component, queue) (sorted_row outgoing node);
          '(component, queue) ← each (claim push_back count) s (sorted_row incoming node);
          weak_loop fuel count component queue
      end
  end.

(** Every node enters the queue once. *)
Definition weak_start (s : list Z * Z) (start : Z) : Checked (list Z * Z) :=
  let '(component, count) := s in
  _ ← call_if check (masked start 1023);
  label ← step (index_at component start);
  if negb (label =? u32_max) then mret s
  else
    component ← step (index_set component start count);
    component ← weak_loop (S (Z.to_nat (node_count outgoing))) count component [as_u32 start];
    count ← step (next_component count);
    mret (component, count).

Definition weakly_connected_components_cancellable : Checked Components :=
  _ ← step (validate_pair outgoing incoming);
  let n := node_count outgoing in
  '(component, count) ← each weak_start (replicate (Z.to_nat n) u32_max, 0) (seqZ 0 n);
  mret (mkComponents component count).

(** ** Strong components *)

(** The stack has its top first; an entry that is left is pushed below the
    neighbours of its node. *)
Fixpoint finish_loop (fuel : nat) (visited : list bool) (stack : list (Z * bool)) (finish : list Z)
    : Checked (list bool * list Z) :=
  match fuel with
  | O => step (Abort OutOfFuel)
  | S fuel =>
      match stack with
      | [] => mret (visited, finish)
      | (node, exiting) :: stack =>
          if exiting : bool then finish_loop fuel visited stack (finish ++ [node])
          else
            seen ← step (index_at visited node);
            if seen : bool then finish_loop fuel visited stack finish
            else
              visited ← step (index_set visited node true);
              unseen ← unvisited visited (sorted_row outgoing node).*1;
              finish_loop fuel visited (((λ v, (v, false)) <$> unseen) ++ (node, true) :: stack) finish
      end
  end.

(** Every entry and every node is pushed at most once, and the start. *)
Definition finish_start (s : list bool * list Z) (start : Z) : Checked (list bool * list Z) :=
  let '(visited, finish) := s in
  _ ← call_if check (masked start 1023);
  seen ← step (index_at visited start);
  if seen : bool then mret s
  else finish_loop (S (S (Z.to_nat (node_count outgoing) + entry_count outgoing))) visited [(as_u32 start, false)] finish.

Definition push_top (stack : list Z) (v : Z) : list Z := v :: stack.

Fixpoint strong_loop (fuel : nat) (count : Z) (component stack : list Z) : Checked (list Z) :=
  match fuel with
  | O => step (Abort OutOfFuel)
  | S fuel =>
      match stack with
      | [] => mret component
      | node :: stack =>
          _ ← call_if check (masked node 1023);
          '(component, stack) ← each (claim push_top count) (component, stack) (sorted_row incoming node);
          strong_loop fuel count component stack
      end
  end.

Definition strong_start (s : list Z * Z) (start : Z) : Checked (list Z * Z) :=
  let '(component, count) := s in
  label ← step (index_at component start);
  if negb (label =? u32_max) then mret s
  else
    component ← step (index_set component start count);
    component ← strong_loop (S (Z.to_nat (node_count outgoing))) count component [start];
    count ← step (next_component count);
    mret (component, count).

(** ** Canonical numbers *)

(** Lowers the minimum of the component of [node]. *)
Definition lower_minimum (minimum_by_old : list Z) (entry : Z * Z) : Result (list Z) :=
  let '(node, old) := entry in
  minimum ← ok_or (get minimum_by_old old) (Error_internal "SCC produced an out-of-range component identifier");
  node ← ok_or (u32_try_from node) (budget "SCC node ordinal exceeds u32");
  index_set minimum_by_old old (Z.min minimum node).

Definition renumber (canonical_by_old : list Z) (entry : Z * (Z * Z)) : Result (list Z) :=
  let '(canonical, (_, old)) := entry in
  canonical ← ok_or (u32_try_from canonical) (budget "component ID space exhausted");
  index_set canonical_by_old old canonical.

Definition enumerate {A} (l : list A) : list (Z * A) := zip (seqZ 0 (zlen l)) l.

Definition canonicalize (component : list Z) (count : Z) : Result Components :=
  minimum_by_old ← foldM lower_minimum (replicate (Z.to_nat count) u32_max) (enumerate component);
  let ordered := sort_pairs ((λ '(old, minimum), (minimum, old)) <$> enumerate minimum_by_old) in
  canonical_by_old ← foldM renumber (replicate (Z.to_nat count) u32_max) (enumerate ordered);
  component ← foldM (λ values value,
      value ← ok_or (get canonical_by_old value) (Error_internal "SCC canonicalization lost a component identifier");
      Ok (values ++ [value])) [] component;
  Ok (mkComponents component count).

Definition strongly_connected_components_cancellable : Checked Components :=
  _ ← step (validate_pair outgoing incoming);
  let n := node_count outgoing in
  '(_, finish) ← each finish_start (replicate (Z.to_nat n) false, []) (seqZ 0 n);
  '(component, count) ← each strong_start (replicate (Z.to_nat n) u32_max, 0) (rev finish);
  step (canonicalize component count).
End components.

Definition weakly_connected_components (outgoing incoming : AdjacencyRead) : Result Components :=
  run (weakly_connected_components_cancellable never outgoing incoming).
Definition strongly_connected_components (outgoing incoming : AdjacencyRead) : Result Components :=
  run (strongly_connected_components_cancellable never outgoing incoming).
