(* ===== verification/Kosaraju.v ===== *)
(** * Components, abstractly

    Labelling what can be reached among the nodes without a label, and the
    order in which a depth-first search finishes nodes: over the reverse of
    it, labelling backwards gives the strongly connected components.  The
    component algorithms keep these invariants on their own state. *)

From stdpp Require Import functions relations prelude gmap list.
From Stdlib Require Import ZArith Lia.
From S2P Require Import Prelude Machine.

Local Open Scope Z_scope.
#[local] Set Warnings "-clear-no-such-hyp".

(** ** Labelling *)

Section flood.
(** The steps, the labels before, and the start with its label. *)
Context (S : relation Z) (L0 : Z → option Z) (c s : Z).
Hypothesis fresh_start : L0 s = None.

(** A step to a node without a label. *)
Definition fresh_step : relation Z := λ u v, S u v ∧ L0 v = None.

(** [todo] are the nodes labelled whose steps are still to be followed. *)
Record flood (todo : list Z) (L : Z → option Z) : Prop := {
  flood_old v x : L0 v = Some x → L v = Some x;
  flood_new v x : L v = Some x → L0 v = None → x = c ∧ rtc fresh_step s v;
  flood_at_start : L s = Some c;
  flood_closed v : L0 v = None → is_Some (L v) → v ∈ todo ∨ ∀ w, S v w → is_Some (L w);
}.

Lemma flood_begin : flood [s] (<[s := Some c]> L0).
Proof.
  split.
  - intros v x Hv. rewrite fn_lookup_insert_ne; [done|congruence].
  - intros v x. destruct (decide (s = v)) as [<-|Hne]; [rewrite fn_lookup_insert; by intros [= <-]|].
    rewrite fn_lookup_insert_ne by done. congruence.
  - by rewrite fn_lookup_insert.
  - intros v Hv. destruct (decide (s = v)) as [<-|Hne]; [left; by left|].
    rewrite fn_lookup_insert_ne, Hv by done. by intros [? ?].
Qed.

(** A step from a labelled node to one without a label. *)
Lemma flood_claim todo todo' L u v :
  flood todo L → is_Some (L u) → L0 u = None → S u v → L v = None → (∀ w, w ∈ todo' ↔ w ∈ todo ∨ w = v) →
  flood todo' (<[v := Some c]> L).
Proof.
  intros [Hold Hnew Hs Hcl] [x Hu] Hu0 HS Hv Ht.
  assert (L0 v = None) as Hv0 by (destruct (L0 v) eqn:E; [apply Hold in E; congruence|done]).
  assert (∀ w, is_Some (L w) → is_Some (<[v := Some c]> L w)) as Hkeep.
  { intros w Hw. destruct (decide (v = w)) as [<-|Hne]; [by rewrite fn_lookup_insert|by rewrite fn_lookup_insert_ne]. }
  split.
  - intros w y Hw. rewrite fn_lookup_insert_ne; [auto|congruence].
  - intros w y. destruct (decide (v = w)) as [<-|Hne].
    + rewrite fn_lookup_insert. intros [= <-] _. split; [done|]. eapply rtc_r; [by eapply Hnew|]. done.
    + rewrite fn_lookup_insert_ne by done. apply Hnew.
  - rewrite fn_lookup_insert_ne; [done|congruence].
  - intros w Hw0. destruct (decide (v = w)) as [<-|Hne]; [intros _; left; apply Ht; by right|].
    rewrite fn_lookup_insert_ne by done. intros Hw. destruct (Hcl w Hw0 Hw) as [?|Hall]; [left; apply Ht; by left|right; auto].
Qed.

(** All steps of [u] have been followed. *)
Lemma flood_leave todo L u : flood (u :: todo) L → (∀ v, S u v → is_Some (L v)) → flood todo L.
Proof.
  intros [Hold Hnew Hs Hcl] Hu. split; try done. intros v Hv0 Hv.
  destruct (Hcl v Hv0 Hv) as [[->|?]%elem_of_cons|?]; [right; by apply Hu|by left|by right].
Qed.

(** At the end: what can be reached over nodes without a label is labelled. *)
Lemma flood_end L v x : flood [] L → L v = Some x ↔ L0 v = Some x ∨ (L0 v = None ∧ x = c ∧ rtc fresh_step s v).
Proof.
  intros [Hold Hnew Hs Hcl]. split.
  - intros Hv. destruct (L0 v) as [y|] eqn:Hv0; [left; apply Hold in Hv0; congruence|]. right. by destruct (Hnew v x Hv Hv0).
  - intros [Hv|(Hv0 & -> & Hr)]; [by apply Hold|]. assert (is_Some (L v)) as [y Hy].
    { clear Hv0. revert v Hr. apply rtc_ind_r; [by eexists|]. intros y z Hsy [Hyz Hz0] Hy.
      assert (L0 y = None) as Hy0.
      { apply rtc_inv_r in Hsy as [<-|(? & _ & [_ ?])]; done. }
      destruct (Hcl y Hy0 Hy) as [?%elem_of_nil|Hall]; [done|by apply Hall]. }
    by destruct (Hnew v y Hy Hv0) as [-> _].
Qed.
End flood.

(** ** Finishing order *)

(** [finishes next V F vs V' F']: with the nodes [V] visited and [F] finished,
    a depth-first search of [vs] visits [V'] and finishes [F']; a node is
    finished after all its neighbours have been searched. *)
Inductive finishes (next : Z → list Z) : list Z → list Z → list Z → list Z → list Z → Prop :=
  | finishes_nil V F : finishes next V F [] V F
  | finishes_seen V F v vs V' F' : v ∈ V → finishes next V F vs V' F' → finishes next V F (v :: vs) V' F'
  | finishes_new V F v vs V1 F1 V' F' :
      v ∉ V → finishes next (V ++ [v]) F (next v) V1 F1 → finishes next V1 (F1 ++ [v]) vs V' F' →
      finishes next V F (v :: vs) V' F'.

(** [u] is [v] or comes after it. *)
Definition later (B : list Z) (v u : Z) : Prop := ∃ B1 B2, B = B1 ++ v :: B2 ∧ u ∈ v :: B2.

Lemma nodup_split {A} (l1 l2 m1 m2 : list A) x :
  NoDup (l1 ++ x :: l2) → l1 ++ x :: l2 = m1 ++ x :: m2 → l1 = m1 ∧ l2 = m2.
Proof.
  revert m1. induction l1 as [|y l1 IH]; intros [|z m1] Hnd Heq; cbn in *; simplify_eq; [done|..].
  - apply list.NoDup_cons in Hnd as [Hx _]. set_solver.
  - apply list.NoDup_cons in Hnd as [Hx _]. set_solver.
  - apply list.NoDup_cons in Hnd as [_ Hnd]. by destruct (IH m1 Hnd) as [-> ->].
Qed.

Lemma later_refl B v : v ∈ B → later B v v.
Proof. intros (B1 & B2 & ->)%list_elem_of_split. exists B1, B2. set_solver. Qed.
Lemma later_app_l B C v u : later B v u → later (B ++ C) v u.
Proof. intros (B1 & B2 & -> & Hu). exists B1, (B2 ++ C). rewrite <- app_assoc. set_solver. Qed.
Lemma later_app_r B C v u : later C v u → later (B ++ C) v u.
Proof. intros (B1 & B2 & -> & Hu). exists (B ++ B1), B2. by rewrite <- app_assoc. Qed.
Lemma later_cross B C v u : v ∈ B → u ∈ C → later (B ++ C) v u.
Proof. intros (B1 & B2 & ->)%list_elem_of_split Hu. exists B1, (B2 ++ C). rewrite <- app_assoc. set_solver. Qed.

Section finishes.
Context (next : Z → list Z).
Abbreviation E := (λ u v, v ∈ next u).

Definition mutual (u v : Z) : Prop := rtc E u v ∧ rtc E v u.

#[global] Instance mutual_equivalence : Equivalence mutual.
Proof.
  split; [intros x; split; constructor|intros x y [? ?]; by split|]. intros x y z [? ?] [? ?]. split; by etrans.
Qed.

(** A step that avoids [V]. *)
Definition around (V : list Z) : relation Z := λ u v, E u v ∧ v ∉ V.

(** What is finished in a search of [vs] with [V] visited. *)
Record block (V vs B : list Z) : Prop := {
  block_nodup : NoDup B;
  block_fresh v : v ∈ B → v ∉ V;
  block_asked v : v ∈ vs → v ∈ V ∨ v ∈ B;
  block_closed u v : u ∈ B → E u v → v ∈ V ∨ v ∈ B;
  block_reached v : v ∈ B → ∃ u, u ∈ vs ∧ rtc E u v;
  (** of two nodes, the one that reaches the other is mutually reachable with
      one finished no sooner *)
  block_order v u : v ∈ B → u ∈ B → rtc (around V) u v → ∃ u', later B v u' ∧ mutual u u';
}.

(** Paths around [V] do not leave a block. *)
Lemma block_stays V vs B u v : block V vs B → u ∈ B → rtc (around V) u v → v ∈ B.
Proof.
  intros Hb Hu Hr. induction Hr as [|x y z [Hxy Hy] Hr IH]; [done|].
  apply IH. by destruct (block_closed _ _ _ Hb x y Hu Hxy).
Qed.

Lemma around_rtc V u v : rtc (around V) u v → rtc E u v.
Proof. induction 1 as [|x y z [? _] _ IH]; [constructor|by eapply rtc_l]. Qed.

(** A path around [V] goes around [V'] too, or through a node of [V'] only. *)
Lemma around_split V V' u v :
  rtc (around V) u v → rtc (around V') u v ∨ ∃ w, w ∈ V' ∧ (w ∉ V) ∧ rtc (around V) u w ∧ rtc (around V) w v.
Proof.
  induction 1 as [x|x y z [Hxy Hy] Hr IH]; [left; constructor|].
  destruct (decide (y ∈ V')) as [Hy'|Hy'].
  - right. exists y. split_and!; [done..| |done]. by apply rtc_once.
  - destruct IH as [IH|(w & Hw & Hw' & H1 & H2)]; [left; by eapply rtc_l|].
    right. exists w. split_and!; [done..| |done]. by eapply rtc_l.
Qed.

Lemma block_nil V : block V [] [].
Proof. split; try set_solver. constructor. Qed.

Lemma block_seen V v vs B : v ∈ V → block V vs B → block V (v :: vs) B.
Proof.
  intros Hv [Hnd Hf Ha Hc Hr Ho]. split; try done; [set_solver|]. intros w Hw. destruct (Hr w Hw) as (u & ? & ?). exists u. set_solver.
Qed.

(** The search of one node: its neighbours, then the node. *)
Lemma block_node V v B : v ∉ V → block (V ++ [v]) (next v) B → block V [v] (B ++ [v]).
Proof.
  intros Hv Hb. pose proof Hb as [Hnd Hf Ha Hc Hr Ho].
  assert (∀ w, w ∈ B → rtc E v w) as Hvw by (intros w Hw; destruct (Hr w Hw) as (u & Hu & ?); by eapply rtc_l).
  split.
  - apply list.NoDup_app. split_and!; [done|set_solver|apply NoDup_singleton].
  - set_solver.
  - set_solver.
  - intros u w [Hu| ->%list_elem_of_singleton]%elem_of_app HE; [specialize (Hc u w Hu HE)|specialize (Ha w HE)]; set_solver.
  - intros w [Hw| ->%list_elem_of_singleton]%elem_of_app; exists v; split; [set_solver|auto|set_solver|constructor].
  - intros x u [Hx| ->%list_elem_of_singleton]%elem_of_app [Hu| ->%list_elem_of_singleton]%elem_of_app Hux.
    + destruct (around_split V (V ++ [v]) u x Hux) as [Hux'|(w & Hw & Hw' & H1 & H2)].
      * destruct (Ho x u Hx Hu Hux') as (u' & ? & ?). exists u'. split; [by apply later_app_l|done].
      * assert (w = v) as -> by set_solver. exists v. split; [apply later_cross; set_solver|].
        split; [by eapply around_rtc|by apply Hvw].
    + exists v. split; [apply later_cross; set_solver|split; constructor].
    + exists v. split; [apply later_refl; set_solver|]. split; [by eapply around_rtc|by apply Hvw].
    + exists v. split; [apply later_refl; set_solver|split; constructor].
Qed.

(** One search after another. *)
Lemma block_app V V1 vs1 vs2 B1 B2 :
  block V vs1 B1 → (∀ w, w ∈ V1 ↔ w ∈ V ∨ w ∈ B1) → block V1 vs2 B2 → block V (vs1 ++ vs2) (B1 ++ B2).
Proof.
  intros Hb1 HV1 Hb2. pose proof Hb1 as [Hnd Hf Ha Hc Hr Ho]. pose proof Hb2 as [Hnd2 Hf2 Ha2 Hc2 Hr2 Ho2]. split.
  - apply list.NoDup_app. split_and!; [done| |done]. intros w Hw Hw2. apply (Hf2 w Hw2), HV1. by right.
  - intros w [?|Hw]%elem_of_app; [by apply Hf|]. intros HV. apply (Hf2 w Hw), HV1. by left.
  - intros w [Hw|Hw]%elem_of_app; [specialize (Ha w Hw)|specialize (Ha2 w Hw); rewrite HV1 in Ha2]; set_solver.
  - intros u w [Hu|Hu]%elem_of_app HE; [specialize (Hc u w Hu HE)|specialize (Hc2 u w Hu HE); rewrite HV1 in Hc2]; set_solver.
  - intros w [Hw|Hw]%elem_of_app; [destruct (Hr w Hw) as (u & ? & ?)|destruct (Hr2 w Hw) as (u & ? & ?)]; exists u; set_solver.
  - intros v u [Hv|Hv]%elem_of_app [Hu|Hu]%elem_of_app Huv.
    + destruct (Ho v u Hv Hu Huv) as (u' & ? & ?). exists u'. split; [by apply later_app_l|done].
    + exists u. split; [by apply later_cross|split; constructor].
    + destruct (Hf2 v Hv). apply HV1. right. by apply (block_stays V vs1 B1 u).
    + destruct (around_split V V1 u v Huv) as [Huv'|(w & Hw & Hw' & H1 & H2)].
      * destruct (Ho2 v u Hv Hu Huv') as (u' & ? & ?). exists u'. split; [by apply later_app_r|done].
      * destruct (Hf2 v Hv). apply HV1. right. apply (block_stays V vs1 B1 w); [done|set_solver|done].
Qed.

Lemma finishes_block V F vs V' F' :
  finishes next V F vs V' F' → ∃ B, F' = F ++ B ∧ (∀ w, w ∈ V' ↔ w ∈ V ∨ w ∈ B) ∧ block V vs B.
Proof.
  induction 1 as [V F|V F v vs V' F' Hv _ (B & -> & HV & Hb)|V F v vs V1 F1 V' F' Hv _ (B1 & -> & HV1 & Hb1) _ (B2 & -> & HV2 & Hb2)].
  - exists []. split_and!; [by rewrite app_nil_r|set_solver|apply block_nil].
  - exists B. split_and!; [done..|]. by apply block_seen.
  - exists ((B1 ++ [v]) ++ B2). split_and!; [by rewrite !app_assoc|set_solver|].
    apply (block_app V V1 [v] vs); [by apply block_node|set_solver|done].
Qed.

Lemma finishes_app V F vs1 vs2 V' F' V1 F1 :
  finishes next V F vs1 V1 F1 → finishes next V1 F1 vs2 V' F' → finishes next V F (vs1 ++ vs2) V' F'.
Proof.
  intros H1 H2. induction H1; cbn; [done|by apply finishes_seen; auto|]. eapply finishes_new; eauto.
Qed.

Lemma finishes_grow V F vs V' F' v : finishes next V F vs V' F' → v ∈ V → v ∈ V'.
Proof. intros (B & _ & HV & _)%finishes_block. set_solver. Qed.

(** Leaving out nodes visited before changes nothing. *)
Lemma finishes_filter V F vs V' F' (keep : Z → Prop) `{!∀ v, Decision (keep v)} :
  (∀ v, v ∈ vs → ¬ keep v → v ∈ V) → finishes next V F (filter keep vs) V' F' → finishes next V F vs V' F'.
Proof.
  revert V F. induction vs as [|v vs IH]; intros V F Hk Hf; [done|]. rewrite filter_cons in Hf. case_decide as Hv.
  - inversion Hf; simplify_eq; [apply finishes_seen; [done|]; apply IH; set_solver|].
    eapply finishes_new; [done..|]. apply IH; [|done]. intros w Hw Hn. eapply finishes_grow; [done|]. set_solver.
  - apply finishes_seen; [set_solver|]. apply IH; set_solver.
Qed.

(** ** The backward search *)

(** The whole search finishes all nodes. *)
Definition finish_order (F : list Z) : Prop :=
  NoDup F ∧ ∀ v u, v ∈ F → u ∈ F → rtc E u v → ∃ u', later F v u' ∧ mutual u u'.

Lemma finishes_order vs V F : finishes next [] [] vs V F → finish_order F ∧ ∀ v, v ∈ vs → v ∈ F.
Proof.
  intros (B & HF & HV & [Hnd Hf Ha Hc Hr Ho])%finishes_block. cbn in HF. subst. split; [split; [done|]|set_solver].
  intros v u Hv Hu Huv. apply (Ho v u Hv Hu). clear -Huv. induction Huv; [constructor|]. eapply rtc_l; [|done].
  split; [done|set_solver].
Qed.

(** Backwards from the last node not labelled, over nodes not labelled: its
    strongly connected component. *)
Lemma backward_component F p x q (L : Z → option Z) v :
  finish_order F → (∀ u v, E u v → v ∈ F → u ∈ F) → rev F = p ++ x :: q →
  (∀ v, is_Some (L v) ↔ ∃ y, y ∈ p ∧ mutual y v) → L x = None →
  rtc (fresh_step (flip E) L) x v ↔ mutual x v.
Proof.
  intros [Hnd Hord] Hclosed HF HL Hx. assert (F = rev q ++ x :: rev p) as HF'.
  { apply (f_equal (@rev Z)) in HF. rewrite rev_involutive, rev_app_distr in HF. cbn in HF. by rewrite <- app_assoc in HF. }
  split.
  - intros Hr. assert (rtc E v x ∧ v ∈ F ∧ L v = None) as (Hvx & HvF & Hv0).
    { revert v Hr. apply rtc_ind_r; [split_and!; [constructor|set_solver|done]|].
      intros y z _ [Hzy Hz0] (Hyx & HyF & _). split_and!; [by eapply rtc_l|by eapply Hclosed|done]. }
    destruct (Hord x v) as (u' & (B1 & B2 & HB & Hu') & Hvu); [set_solver|done|done|].
    assert (B2 = rev p) as -> by (rewrite HF' in HB, Hnd; by apply (nodup_split _ _ _ _ _ Hnd) in HB as [_ ->]).
    apply elem_of_cons in Hu' as [->|Hu']; [by destruct Hvu|]. exfalso.
    assert (is_Some (L v)) as [? ?]; [|congruence]. apply HL. exists u'. split; [apply elem_of_reverse; unfold reverse; by rewrite <- rev_alt|].
    destruct Hvu. done.
  - intros [Hxv Hvx]. assert (∀ w, mutual x w → L w = None) as Hfresh.
    { intros w [Hxw Hwx]. apply eq_None_not_Some. intros Hw. apply HL in Hw as (y & Hy & Hyw & Hwy).
      assert (is_Some (L x)) as [? ?]; [|congruence]. apply HL. exists y. split; [done|]. split; by etrans. }
    induction Hvx as [|v w x Hvw Hwx IH]; [constructor|].
    eapply rtc_r; [apply IH; [done..|by eapply rtc_r|done]|]. split; [done|]. apply Hfresh. split; [done|by eapply rtc_l].
Qed.
End finishes.
