(* ===== verification/ComponentsTheorems.v ===== *)
(** * Components: theorems

    The weakly and strongly connected components of the code are the classes of
    connection and of mutual reachability, numbered by their smallest nodes. *)

From stdpp Require Import functions relations prelude gmap strings sorting list.
From Stdlib Require Import ZArith Lia.
From S2P Require Import Prelude Machine Types Shared Csr CsrTheorems Algorithms Layers SearchTheorems DepthTheorems Components Kosaraju.

Local Open Scope Z_scope.
#[local] Set Warnings "-clear-no-such-hyp".

(** ** Labels *)

(** The list holds the labels, [u32::MAX] for none. *)
Definition labelled (n : Z) (component : list Z) (L : Z → option Z) : Prop :=
  holds n component (λ v, default u32_max (L v)) ∧ (∀ v, is_Some (L v) → 0 ≤ v < n)
  ∧ ∀ v x, L v = Some x → 0 ≤ x < u32_max.

Lemma labelled_none n component L v :
  labelled n component L → (default u32_max (L v) =? u32_max) = bool_decide (L v = None).
Proof.
  intros (_ & _ & Hx). destruct (L v) as [x|] eqn:Hv; cbn; [|done]. specialize (Hx v x Hv).
  apply Z.eqb_neq. unfold id. lia.
Qed.

Lemma labelled_set {E} n component L v c :
  labelled n component L → 0 ≤ v < n → 0 ≤ c < u32_max →
  ∃ component', index_set (E := E) component v c = Ok component' ∧ labelled n component' (<[v := Some c]> L).
Proof.
  intros (Hh & Hr & Hx) Hv Hc. destruct (holds_set (E := E) n component _ v c Hh Hv) as (l & -> & Hl). exists l. split; [done|].
  split_and!.
  - apply (holds_ext _ _ _ _ Hl). intros w _. destruct (decide (v = w)) as [<-|Hne]; [by rewrite !fn_lookup_insert|].
    by rewrite !fn_lookup_insert_ne.
  - intros w. destruct (decide (v = w)) as [<-|Hne]; [done|]. rewrite fn_lookup_insert_ne by done. apply Hr.
  - intros w x. destruct (decide (v = w)) as [<-|Hne]; [rewrite fn_lookup_insert; by intros [= <-]|].
    rewrite fn_lookup_insert_ne by done. apply Hx.
Qed.

(** How many nodes have no label. *)
Definition unlabelled (n : Z) (L : Z → option Z) : nat := length (filter (λ v, L v = None) (seqZ 0 n)).

(** One node less. *)
Lemma count_drop (P P' : Z → Prop) `{!∀ v, Decision (P v), !∀ v, Decision (P' v)} n v :
  0 ≤ v < n → P v → ¬ P' v → (∀ w, w ≠ v → P w ↔ P' w) →
  length (filter P (seqZ 0 n)) = S (length (filter P' (seqZ 0 n))).
Proof.
  intros Hv HP HP' Hiff. assert (v ∈ seqZ 0 n) as Hin by (apply elem_of_seqZ; lia).
  pose proof (NoDup_seqZ 0 n) as Hnd. apply list_elem_of_split in Hin as (l1 & l2 & Hl). rewrite Hl in Hnd |- *.
  apply list.NoDup_app in Hnd as (_ & Hd & [Hv2 _]%list.NoDup_cons).
  assert (∀ l : list Z, v ∉ l → filter P l = filter P' l) as Hsame.
  { intros l. induction l as [|w l IH]; intros Hl'; [done|]. rewrite !filter_cons, IH by set_solver. apply decide_ext, Hiff. set_solver. }
  rewrite !filter_app, !filter_cons, decide_True, decide_False by done.
  rewrite <- (Hsame l1), <- (Hsame l2) by set_solver. rewrite !length_app. cbn. lia.
Qed.

Lemma unlabelled_set n L v c :
  0 ≤ v < n → L v = None → unlabelled n L = S (unlabelled n (<[v := Some c]> L)).
Proof.
  intros Hv HL. apply count_drop with v; [done..|by rewrite fn_lookup_insert|]. intros w Hw. by rewrite fn_lookup_insert_ne.
Qed.

Lemma unlabelled_le n L : 0 ≤ n → Z.of_nat (unlabelled n L) ≤ n.
Proof. intros Hn. unfold unlabelled. pose proof (length_filter (λ v, L v = None) (seqZ 0 n)) as H. rewrite length_seqZ in H. lia. Qed.

(** ** One component *)

Section flood.
Context (n : Z) (S : relation Z) (L0 : Z → option Z) (c s : Z).

(** [m] bounds the nodes to come. *)
Definition flooding (waiting : list Z) (component : list Z) (L : Z → option Z) (m : nat) : Prop :=
  flood S L0 c s waiting L ∧ labelled n component L ∧ (∀ v, v ∈ waiting → L0 v = None ∧ is_Some (L v))
  ∧ (unlabelled n L + length waiting = m)%nat.

(** The node is left when all its steps have been followed. *)
Lemma flooding_leave u waiting component L m :
  flooding (u :: waiting) component L (Datatypes.S m) → (∀ v, S u v → is_Some (L v)) → flooding waiting component L m.
Proof.
  intros (Hfl & Hlab & Hw & Hm) Hall.
  split_and!; [by apply (flood_leave _ _ _ _ _ _ u)|done|set_solver|cbn in Hm; lia].
Qed.

(** What the search leaves. *)
Definition flooded (component : list Z) : Prop := ∃ L, flood S L0 c s [] L ∧ labelled n component L.

Context (check : Check) (push : list Z → Z → list Z).
Hypothesis push_members : ∀ q v w, w ∈ push q v ↔ w ∈ q ∨ w = v.
Hypothesis push_length : ∀ q v, length (push q v) = Datatypes.S (length q).
Hypothesis c_label : 0 ≤ c < u32_max.
Hypothesis fresh_start : L0 s = None.
Hypothesis S_nodes : ∀ u v, S u v → 0 ≤ v < n.

Lemma claim_spec u waiting component L m entry :
  flooding (u :: waiting) component L m → S u entry.1 →
  checks check (claim push c (component, waiting) entry)
    (λ '(component', waiting'), ∃ L', flooding (u :: waiting') component' L' m
       ∧ (∀ v, is_Some (L v) → is_Some (L' v)) ∧ is_Some (L' entry.1)).
Proof.
  intros (Hfl & Hlab & Hw & Hm) HS. pose proof (S_nodes _ _ HS) as Hv. unfold claim.
  eapply checks_bind; [eapply (checks_step _ _ _ (λ x, x = default u32_max (L entry.1))); [eapply holds_get; [apply Hlab|done]|done]|].
  intros ? ->. rewrite (labelled_none n component) by done. case_bool_decide as HL.
  - destruct (labelled_set (E := Error) n component L entry.1 c Hlab Hv c_label) as (component' & Hset & Hlab').
    eapply checks_bind; [eapply (checks_step _ _ _ (λ x, x = component')); [exact Hset|done]|]. intros ? ->. apply checks_ret.
    destruct (Hw u ltac:(by left)) as [Hu0 Hu]. exists (<[entry.1 := Some c]> L). split_and!.
    + split_and!; [|done| |].
      * apply (flood_claim _ _ _ _ fresh_start (u :: waiting) _ L u); [done..|]. intros w. rewrite !elem_of_cons, push_members. tauto.
      * intros w Hin. destruct (decide (entry.1 = w)) as [<-|Hne].
        -- rewrite fn_lookup_insert. split; [|done]. destruct (L0 entry.1) eqn:E; [|done].
           apply (flood_old _ _ _ _ _ _ Hfl) in E. congruence.
        -- rewrite fn_lookup_insert_ne by done. apply Hw. rewrite elem_of_cons, push_members in Hin. set_solver.
      * rewrite (unlabelled_set n L entry.1 c Hv HL) in Hm. cbn in *. rewrite push_length. lia.
    + intros w Hws. destruct (decide (entry.1 = w)) as [<-|Hne]; [by rewrite fn_lookup_insert|by rewrite fn_lookup_insert_ne].
    + by rewrite fn_lookup_insert.
  - apply checks_ret. exists L. split_and!; [done|done|]. by apply not_eq_None_Some.
Qed.

(** All neighbours of one adjacency. *)
Lemma claim_row_spec a u waiting component L m :
  flooding (u :: waiting) component L m → (∀ v, edge a u v → S u v) →
  checks check (each (claim push c) (component, waiting) (sorted_row a u))
    (λ '(component', waiting'), ∃ L', flooding (u :: waiting') component' L' m
       ∧ (∀ v, is_Some (L v) → is_Some (L' v)) ∧ ∀ v, edge a u v → is_Some (L' v)).
Proof.
  intros Hf HS. eapply checks_mono.
  - apply (checks_each check _ _ _ (λ done '(component', waiting'), ∃ L', flooding (u :: waiting') component' L' m
       ∧ (∀ v, is_Some (L v) → is_Some (L' v)) ∧ ∀ v, v ∈ done.*1 → is_Some (L' v))).
    + exists L. split_and!; [done|done|]. by intros v ?%elem_of_nil.
    + intros done x rest [comp' w'] Hx (L' & Hf' & Hk & Hd). eapply checks_mono.
      * apply (claim_spec u w' comp' L' m x Hf'). apply HS. exists x.2. rewrite Hx. destruct x. set_solver.
      * intros [comp'' w''] (L'' & Hf'' & Hk' & Hx'). exists L''. split_and!; [done|auto|].
        intros v. rewrite fmap_app. intros [Hv| ->%list_elem_of_singleton]%elem_of_app; auto.
  - intros [comp' w'] (L' & Hf' & Hk & Hd). exists L'. split_and!; [done..|]. intros v [e Hv].
    apply Hd. by apply (list_elem_of_fmap_2 fst _ (v, e)).
Qed.

Lemma flooding_start component component' :
  labelled n component L0 → 0 ≤ s < n → index_set (E := Error) component s c = Ok component' →
  flooding [s] component' (<[s := Some c]> L0) (unlabelled n L0).
Proof.
  intros Hlab Hs Hset. destruct (labelled_set (E := Error) n component L0 s c Hlab Hs c_label) as (l & Hl & Hlab').
  rewrite Hl in Hset. simplify_eq. split_and!; [by apply flood_begin|done| |].
  - intros v ->%list_elem_of_singleton. by rewrite fn_lookup_insert.
  - rewrite (unlabelled_set n L0 s c Hs fresh_start). cbn. lia.
Qed.
End flood.

(** ** Classes *)

(** The labels are positions of representatives, one of every class so far. *)
Definition classes (n : Z) (R : relation Z) (reps : list Z) (L : Z → option Z) : Prop :=
  NoDup reps ∧ (∀ r, r ∈ reps → 0 ≤ r < n)
  ∧ ∀ v c, L v = Some c ↔ 0 ≤ c ∧ ∃ r, reps !! Z.to_nat c = Some r ∧ R r v.

Lemma classes_none n R : classes n R [] (λ _, None).
Proof.
  split_and!; [constructor|by intros r ?%elem_of_nil|]. intros v c. split; [done|]. intros (_ & r & Hr & _). done.
Qed.

Lemma classes_ext n R reps L L' : (∀ v, L v = L' v) → classes n R reps L → classes n R reps L'.
Proof. intros HL (Hnd & Hr & Hc). split_and!; [done..|]. intros v c. rewrite <- HL. apply Hc. Qed.

Lemma classes_some n R reps L v : classes n R reps L → is_Some (L v) ↔ ∃ r, r ∈ reps ∧ R r v.
Proof.
  intros (_ & _ & Hc). split.
  - intros [c (_ & r & Hr & Hrv)%Hc]. exists r. split; [by eapply list_elem_of_lookup_2|done].
  - intros (r & [i Hi]%list_elem_of_lookup & Hrv). exists (Z.of_nat i). apply Hc. split; [lia|]. exists r. by rewrite Nat2Z.id.
Qed.

Lemma classes_count n R reps L s : classes n R reps L → L s = None → Equivalence R → 0 ≤ s < n → zlen reps < n.
Proof.
  intros Hcl Hs HR Hsn. pose proof Hcl as (Hnd & Hr & _). assert (zlen (reps ++ [s]) ≤ Z.max 0 n) as Hle.
  { apply NoDup_range_length; [|set_solver]. apply list.NoDup_app. split_and!; [done| |apply NoDup_singleton].
    intros r Hr' ->%list_elem_of_singleton. assert (is_Some (L s)) as [? ?]; [|congruence].
    apply (classes_some n R reps); [done|]. by exists s. }
  rewrite zlen_app in Hle. change (zlen [s]) with 1 in Hle. lia.
Qed.

(** A class more, when the search from [s] finds the class of [s]. *)
Lemma classes_add n S R reps L0 L s :
  classes n R reps L0 → Equivalence R → L0 s = None → 0 ≤ s < n →
  (∀ v, rtc (fresh_step S L0) s v ↔ R s v) → flood S L0 (zlen reps) s [] L → classes n R (reps ++ [s]) L.
Proof.
  intros Hcl HR Hs Hsn Hreach Hfl. pose proof Hcl as (Hnd & Hr & Hc).
  assert (∀ v, R s v → L0 v = None) as Hnone.
  { intros v Hv. apply eq_None_not_Some. intros Hsome. apply (classes_some n R reps) in Hsome as (r & Hin & Hrv); [|done].
    assert (is_Some (L0 s)) as [? ?]; [|congruence]. apply (classes_some n R reps); [done|]. exists r. split; [done|].
    etrans; [exact Hrv|]. by symmetry. }
  split_and!.
  - apply list.NoDup_app. split_and!; [done| |apply NoDup_singleton]. intros r Hin ->%list_elem_of_singleton.
    assert (is_Some (L0 s)) as [? ?]; [|congruence]. apply (classes_some n R reps); [done|]. by exists s.
  - intros r [?| ->%list_elem_of_singleton]%elem_of_app; auto.
  - intros v c. rewrite (flood_end _ _ _ _ Hs _ _ _ Hfl), Hreach, Hc. split.
    + intros [(Hc0 & r & Hi & Hrv)|(_ & -> & Hv)].
      * split; [done|]. exists r. split; [by apply lookup_app_l_Some|done].
      * split; [apply zlen_nonneg|]. exists s. split; [|done]. unfold zlen. rewrite Nat2Z.id. by apply list_lookup_middle.
    + intros (Hc0 & r & Hi & Hrv). apply lookup_app_Some in Hi as [Hi|[Hge Hi]]; [left; split; [done|by exists r]|right].
      apply list_lookup_singleton_Some in Hi as [Hi ->]. split_and!; [by apply Hnone|unfold zlen; lia|done].
Qed.

(** ** The contract *)

(** The components are the classes of [R], numbered in the order of their least
    nodes: [reps] are the least nodes in ascending order, every number is used,
    and every node has the number of the least node of its class. *)
Definition numbered_by_least (n : Z) (R : relation Z) (cs : Components) : Prop :=
  zlen (component cs) = n
  ∧ ∃ reps, zlen reps = count cs ∧ StronglySorted Z.lt reps
  ∧ (∀ c r, reps !! c = Some r → 0 ≤ r < n ∧ component cs !! Z.to_nat r = Some (Z.of_nat c))
  ∧ ∀ v, 0 ≤ v < n → ∃ c r, component cs !! Z.to_nat v = Some (Z.of_nat c) ∧ reps !! c = Some r ∧ R r v
      ∧ ∀ w, 0 ≤ w < n → R v w → r ≤ w.

Lemma ascending_NoDup (l : list Z) : StronglySorted Z.lt l → NoDup l.
Proof.
  induction 1 as [|x l _ IH Hall]; constructor; [|done]. intros Hx. rewrite list.Forall_forall in Hall. specialize (Hall x Hx). lia.
Qed.

(** Two nodes have the same number exactly when they are in the same class. *)
Lemma numbered_same n R cs u v :
  Equivalence R → numbered_by_least n R cs → 0 ≤ u < n → 0 ≤ v < n →
  component cs !! Z.to_nat u = component cs !! Z.to_nat v ↔ R u v.
Proof.
  intros HR (_ & reps & _ & Hs & Hin & Hall) Hu Hv. destruct (Hall u Hu) as (c & r & Hcu & Hr & Hru & Hmin).
  destruct (Hall v Hv) as (c' & r' & Hcv & Hr' & Hrv & Hmin'). rewrite Hcu, Hcv. split.
  - intros [= Heq]. simplify_eq. etrans; [|exact Hrv]. by symmetry.
  - intros Huv. pose proof (proj1 (Hin c r Hr)) as Hrn. pose proof (proj1 (Hin c' r' Hr')) as Hrn'.
    assert (r = r') as <-.
    { apply Z.le_antisymm; [apply Hmin; [done|]|apply Hmin'; [done|]].
      - etrans; [exact Huv|]. by symmetry.
      - etrans; [|symmetry; exact Hru]. by symmetry. }
    do 3 f_equal. eapply NoDup_lookup; [|done..]. by apply ascending_NoDup.
Qed.

Lemma zlen_seqZ a n : 0 ≤ n → zlen (seqZ a n) = n.
Proof. intros Hn. unfold zlen. rewrite length_seqZ. lia. Qed.

Lemma seqZ_middle n done s rest :
  seqZ 0 n = done ++ s :: rest → 0 ≤ s < n ∧ zlen done = s ∧ ∀ w, w ∈ done ↔ 0 ≤ w < s.
Proof.
  intros Heq. assert (seqZ 0 n !! length done = Some s) as Hs by (rewrite Heq; by apply list_lookup_middle).
  apply lookup_seqZ in Hs as [Hs Hlt]. split_and!; [lia..|unfold zlen; lia|]. assert (∀ i w, done !! i = Some w → w = Z.of_nat i) as Hi.
  { intros i w Hw. apply (lookup_app_l_Some _ (s :: rest)) in Hw. rewrite <- Heq in Hw. apply lookup_seqZ in Hw. lia. }
  intros w. split.
  - intros [i Hw]%list_elem_of_lookup. pose proof (lookup_lt_Some _ _ _ Hw). apply Hi in Hw. lia.
  - intros Hw. destruct (lookup_lt_is_Some_2 done (Z.to_nat w)) as [x Hx]; [lia|].
    pose proof (Hi _ _ Hx) as ->. apply list_elem_of_lookup. exists (Z.to_nat w). rewrite Hx. f_equal. lia.
Qed.

(** ** Both adjacencies *)

Section pair.
Context (check : Check) (outgoing incoming : AdjacencyRead).
Hypothesis out_ok : adjacency_ok outgoing.
Hypothesis in_ok : adjacency_ok incoming.
Hypothesis same_nodes : node_count incoming = node_count outgoing.
Hypothesis transposed : ∀ u v, edge outgoing u v ↔ edge incoming v u.
Hypothesis nodes_u32 : node_count outgoing ≤ u32_max.
Abbreviation n := (node_count outgoing).

Lemma nodes_bound : 0 ≤ n ≤ u32_max.
Proof. destruct out_ok as [? _]. lia. Qed.

Lemma as_u32_node v : 0 ≤ v < n → as_u32 v = v.
Proof. intros Hv. apply Z.mod_small. pose proof nodes_bound. unfold u32_max in *. lia. Qed.

Lemma next_component_Ok k : 0 ≤ k < n → next_component k = Ok (k + 1).
Proof.
  intros Hk. unfold next_component, checked_add. pose proof nodes_bound. by rewrite (proj2 (Z.leb_le (k + 1) u32_max)) by lia.
Qed.

(** A search of one component, by a loop that meets [flooded]. *)
Lemma component_step S R reps L0 comp s loop :
  (∀ comp', flooding n S L0 (zlen reps) s [s] comp' (<[s := Some (zlen reps)]> L0) (unlabelled n L0) →
     checks check (loop comp') (flooded n S L0 (zlen reps) s)) →
  Equivalence R → classes n R reps L0 → labelled n comp L0 → L0 s = None → 0 ≤ s < n →
  (∀ v, rtc (fresh_step S L0) s v ↔ R s v) →
  checks check (comp ← step (index_set comp s (zlen reps)); comp ← loop comp; count ← step (next_component (zlen reps));
                mret (comp, count))
    (λ '(comp', count), ∃ L, labelled n comp' L ∧ classes n R (reps ++ [s]) L ∧ count = zlen (reps ++ [s])).
Proof.
  intros Hloop HR Hcl Hlab Hs Hsn Hreach. pose proof (classes_count _ _ _ _ _ Hcl Hs HR Hsn) as Hlt.
  pose proof (zlen_nonneg reps) as Hpos. pose proof nodes_bound.
  destruct (labelled_set (E := Error) n comp L0 s (zlen reps) Hlab Hsn ltac:(lia)) as (comp' & Hset & _).
  eapply checks_bind; [eapply (checks_step _ _ _ (λ x, x = comp')); [exact Hset|done]|]. intros ? ->.
  eapply checks_bind; [apply Hloop, (flooding_start n S L0 (zlen reps) s) with comp; [lia|done..]|].
  intros comp'' (L & Hfl & Hlab'). eapply checks_bind.
  { eapply (checks_step _ _ _ (λ x, x = zlen reps + 1)); [apply next_component_Ok; lia|done]. }
  intros ? ->. apply checks_ret. exists L. split_and!; [done| |by rewrite zlen_app].
  by apply (classes_add n S R reps L0).
Qed.

(** ** Weak components *)

Lemma weak_nodes u v : sc (edge outgoing) u v → 0 ≤ v < n.
Proof.
  intros [Huv|Hvu]; [by apply (proj2 out_ok u)|]. apply transposed in Hvu. rewrite <- same_nodes. by apply (proj2 in_ok u).
Qed.

Lemma push_back_members (q : list Z) v w : w ∈ push_back q v ↔ w ∈ q ∨ w = v.
Proof. unfold push_back. set_solver. Qed.
Lemma push_back_length (q : list Z) v : length (push_back q v) = S (length q).
Proof. unfold push_back. rewrite length_app. cbn. lia. Qed.

Lemma weak_loop_spec L0 c s fuel waiting comp L m :
  0 ≤ c < u32_max → L0 s = None → flooding n (sc (edge outgoing)) L0 c s waiting comp L m → (m < fuel)%nat →
  checks check (weak_loop check outgoing incoming fuel c comp waiting) (flooded n (sc (edge outgoing)) L0 c s).
Proof.
  intros Hc Hs. revert waiting comp L m. induction fuel as [|fuel IH]; intros waiting comp L m Hf Hm; [lia|].
  cbn [weak_loop]. destruct waiting as [|u waiting]; [apply checks_ret; destruct Hf as (? & ? & _); by exists L|].
  eapply checks_bind; [by apply (checks_call_if _ _ (λ _, True))|]. intros _ _.
  eapply checks_bind.
  { apply (claim_row_spec n _ L0 c s check push_back push_back_members push_back_length Hc Hs weak_nodes outgoing u _ _ _ _ Hf).
    intros v Hv. by left. }
  intros [comp1 w1] (L1 & Hf1 & Hk1 & Hout). eapply checks_bind.
  { apply (claim_row_spec n _ L0 c s check push_back push_back_members push_back_length Hc Hs weak_nodes incoming u _ _ _ _ Hf1).
    intros v Hv. right. by apply transposed. }
  intros [comp2 w2] (L2 & Hf2 & Hk2 & Hin). destruct m as [|m]; [destruct Hf2 as (_ & _ & _ & ?); cbn in *; lia|].
  apply (IH w2 comp2 L2 m); [|lia]. apply (flooding_leave n _ L0 c s u); [done|].
  intros v [Hv|Hv]; [by apply Hk2, Hout|]. by apply Hin, transposed.
Qed.

Lemma weak_fresh reps L0 s v :
  classes n (rtsc (edge outgoing)) reps L0 → L0 s = None → rtc (fresh_step (sc (edge outgoing)) L0) s v ↔ rtsc (edge outgoing) s v.
Proof.
  intros Hcl Hs. split.
  - clear Hs. induction 1 as [|x y z [Hxy _] _ IH]; [constructor|]. by eapply rtc_l.
  - intros Hr. assert (rtc (fresh_step (sc (edge outgoing)) L0) s v ∧ L0 v = None) as [? _]; [|done].
    revert v Hr. apply rtc_ind_r; [split; [constructor|done]|]. intros y z _ Hyz [IH Hy].
    assert (L0 z = None) as Hz.
    { apply eq_None_not_Some. intros Hsome. apply (classes_some _ _ _ _ _ Hcl) in Hsome as (r & Hr & Hrz).
      assert (is_Some (L0 y)) as [? ?]; [|congruence]. apply (classes_some _ _ _ _ _ Hcl). exists r. split; [done|].
      etrans; [exact Hrz|]. apply rtc_once. by symmetry. }
    split; [|done]. by eapply rtc_r.
Qed.

(** The nodes below [k] have their components, whose starts are their least nodes. *)
Definition weak_until (k : Z) (comp : list Z) (count : Z) : Prop :=
  ∃ reps L, labelled n comp L ∧ classes n (rtsc (edge outgoing)) reps L ∧ StronglySorted Z.lt reps
    ∧ (∀ r, r ∈ reps → r < k) ∧ (∀ v, 0 ≤ v < k → is_Some (L v))
    ∧ (∀ r w, r ∈ reps → 0 ≤ w → rtsc (edge outgoing) r w → r ≤ w) ∧ count = zlen reps.

Lemma weak_start_spec comp count s :
  weak_until s comp count → 0 ≤ s < n →
  checks check (weak_start check outgoing incoming (comp, count) s) (λ '(comp', count'), weak_until (s + 1) comp' count').
Proof.
  intros (reps & L & Hlab & Hcl & Hsort & Hlt & Hdone & Hleast & ->) Hs. unfold weak_start.
  eapply checks_bind; [by apply (checks_call_if _ _ (λ _, True))|]. intros _ _.
  eapply checks_bind; [eapply (checks_step _ _ _ (λ x, x = default u32_max (L s))); [eapply holds_get; [apply Hlab|done]|done]|].
  intros ? ->. rewrite (labelled_none n comp), as_u32_node by done. case_bool_decide as HL; cbn [negb].
  - pose proof (classes_count _ _ _ _ _ Hcl HL _ Hs). pose proof nodes_bound. pose proof (zlen_nonneg reps).
    eapply checks_mono; [eapply (component_step (sc (edge outgoing)) (rtsc (edge outgoing)) reps L comp s
      (λ comp, weak_loop check outgoing incoming (S (Z.to_nat n)) (zlen reps) comp [s])); try done|].
    + intros comp' Hf. apply (weak_loop_spec L (zlen reps) s _ _ _ _ _ ltac:(lia) HL Hf). pose proof (unlabelled_le n L). lia.
    + apply _.
    + intros v. by apply (weak_fresh reps).
    + intros [comp' count] (L' & Hlab' & Hcl' & ->). exists (reps ++ [s]), L'. split_and!; [done..| | | | |done].
      * apply StronglySorted_app; split_and!; [|done|repeat constructor]. intros x y Hx ->%list_elem_of_singleton. by apply Hlt.
      * intros r [Hr| ->%list_elem_of_singleton]%elem_of_app; [|lia]. specialize (Hlt r Hr). lia.
      * intros v Hv. apply (classes_some _ _ _ _ _ Hcl'). destruct (decide (v = s)) as [->|Hne]; [exists s; split; [set_solver|done]|].
        assert (is_Some (L v)) as Hsome by (apply Hdone; lia).
        apply (classes_some _ _ _ _ _ Hcl) in Hsome as (r & ? & ?). exists r. set_solver.
      * intros r w [Hr| ->%list_elem_of_singleton]%elem_of_app Hw Hrw; [by apply Hleast|].
        destruct (decide (s ≤ w)) as [|Hws]; [done|exfalso]. assert (is_Some (L w)) as Hsome by (apply Hdone; lia).
        apply (classes_some _ _ _ _ _ Hcl) in Hsome as (r & Hr & Hrw').
        assert (is_Some (L s)) as [? ?]; [|congruence]. apply (classes_some _ _ _ _ _ Hcl). exists r. split; [done|].
        etrans; [exact Hrw'|]. by symmetry.
  - apply checks_ret. exists reps, L. split_and!; [done..| | |done|done].
    + intros r Hr. specialize (Hlt r Hr). lia.
    + intros v Hv. destruct (decide (v = s)) as [->|Hne]; [by apply not_eq_None_Some|]. apply Hdone. lia.
Qed.

Lemma labels_none : labelled n (replicate (Z.to_nat n) u32_max) (λ _, None).
Proof. split_and!; [apply holds_replicate, nodes_bound|by intros v [? ?]|done]. Qed.

Lemma weak_spec :
  checks check (weakly_connected_components_cancellable check outgoing incoming)
    (numbered_by_least n (rtsc (edge outgoing))).
Proof.
  unfold weakly_connected_components_cancellable, validate_pair. rewrite same_nodes, Z.eqb_refl.
  eapply checks_bind; [by eapply (checks_step _ _ _ (λ _, True))|]. intros _ _. eapply checks_bind.
  { apply (checks_each check _ _ _ (λ done '(comp, count), weak_until (zlen done) comp count)).
    - exists [], (λ _, None). split_and!; [apply labels_none|apply classes_none|constructor|set_solver| |set_solver|done].
      change (zlen []) with 0. lia.
    - intros done s rest [comp count] Heq Hu. destruct (seqZ_middle _ _ _ _ Heq) as (Hs & Hlen & _).
      rewrite zlen_app, Hlen in *. by apply weak_start_spec. }
  intros [comp count]. rewrite zlen_seqZ by apply nodes_bound. 
  intros (reps & L & (Hh & Hr & Hx) & Hcl & Hsort & Hlt & Hall & Hleast & ->). apply checks_ret.
  pose proof Hcl as (Hnd & Hrn & Hc). split; [apply Hh|]. exists reps. split_and!; [done..| |].
  - intros c r Hcr. assert (0 ≤ r < n) as Hr' by (apply Hrn; by eapply list_elem_of_lookup_2). split; [done|]. cbn.
    rewrite (proj2 Hh) by done. assert (L r = Some (Z.of_nat c)) as ->; [|done]. apply Hc. split; [lia|].
    exists r. by rewrite Nat2Z.id.
  - intros v Hv. destruct (Hall v Hv) as [x Hx']. pose proof Hx' as (Hx0 & r & Hi & Hrv)%Hc.
    exists (Z.to_nat x), r. split_and!; [|done|done|].
    + cbn. rewrite (proj2 Hh), Hx', Z2Nat.id by done. done.
    + intros w Hw Hvw. apply Hleast; [by eapply list_elem_of_lookup_2|lia|]. by etrans.
Qed.

(** ** Strong components: the order of finishing *)

Abbreviation next := (targets outgoing).

(** What a stack stands for: nodes to search and nodes to finish. *)
Fixpoint leaves (V F : list Z) (stack : list (Z * bool)) (V' F' : list Z) : Prop :=
  match stack with
  | [] => V' = V ∧ F' = F
  | (v, true) :: stack => leaves V (F ++ [v]) stack V' F'
  | (v, false) :: stack => ∃ V1 F1, finishes next V F [v] V1 F1 ∧ leaves V1 F1 stack V' F'
  end.

Lemma leaves_app V F vs stack V' F' :
  leaves V F (((λ v, (v, false)) <$> vs) ++ stack) V' F' → ∃ V1 F1, finishes next V F vs V1 F1 ∧ leaves V1 F1 stack V' F'.
Proof.
  revert V F. induction vs as [|v vs IH]; intros V F; cbn.
  - intros H. exists V, F. split; [constructor|done].
  - intros (V1 & F1 & H1 & (V2 & F2 & H2 & H3)%IH). exists V2, F2. split; [|done]. by apply (finishes_app next V F [v] vs _ _ V1 F1).
Qed.

Definition nodes_left (vis : Z → bool) : nat := length (filter (λ v, vis v = false) (seqZ 0 n)).

Lemma nodes_left_visit vis v : 0 ≤ v < n → vis v = false → nodes_left vis = S (nodes_left (<[v := true]> vis)).
Proof.
  intros Hv Hvis. apply count_drop with v; [done..|by rewrite fn_lookup_insert|]. intros w Hw. by rewrite fn_lookup_insert_ne.
Qed.

Definition visited_are (visited : list bool) (V : list Z) : Prop :=
  ∃ vis, holds n visited vis ∧ ∀ v, 0 ≤ v < n → vis v = true ↔ v ∈ V.

Lemma finish_loop_spec fuel visited vis stack V F :
  holds n visited vis → (∀ v, 0 ≤ v < n → vis v = true ↔ v ∈ V) → (∀ x, x ∈ stack → 0 ≤ x.1 < n) →
  (length stack + entries_left outgoing vis + nodes_left vis < fuel)%nat →
  checks check (finish_loop outgoing fuel visited stack F)
    (λ '(visited', F'), ∃ V', visited_are visited' V' ∧ leaves V F stack V' F').
Proof.
  revert visited vis stack V F. induction fuel as [|fuel IH]; intros visited vis stack V F Hvis HV Hst Hf; [lia|].
  cbn [finish_loop]. destruct stack as [|[u exiting] stack]; [apply checks_ret; exists V; split; [by exists vis|done]|].
  assert (0 ≤ u < n) as Hu by (apply (Hst (u, exiting)); by left). cbn in Hf. destruct exiting.
  { eapply checks_mono; [apply (IH visited vis stack V); [done|done|set_solver|lia]|]. by intros [visited' F'] H. }
  eapply checks_bind; [eapply (checks_step _ _ _ (λ x, x = vis u)); [by eapply holds_get|done]|]. intros ? ->.
  destruct (vis u) eqn:Hvu.
  - eapply checks_mono; [apply (IH visited vis stack V); [done|done|set_solver|lia]|].
    intros [visited' F'] (V' & HV' & Hl). exists V'. split; [done|]. exists V, F. split; [|done].
    apply finishes_seen; [by apply HV|constructor].
  - destruct (holds_set (E := Error) n visited _ u true Hvis Hu) as (visited1 & Hset & Hvis1).
    eapply checks_bind; [eapply (checks_step _ _ _ (λ x, x = visited1)); [exact Hset|done]|]. intros ? ->.
    assert (∀ v, v ∈ next u → 0 ≤ v < n) as Ht by (intros v Hv%elem_of_targets; by apply (proj2 out_ok u)).
    eapply checks_bind; [by apply (unvisited_spec check outgoing out_ok visited1 _ (next u) Hvis1)|]. intros ? ->.
    eapply checks_mono.
    + apply (IH visited1 (<[u := true]> vis) _ (V ++ [u])); [done| | |].
      * intros v Hv. destruct (decide (u = v)) as [<-|Hne]; [rewrite fn_lookup_insert; set_solver|].
        rewrite fn_lookup_insert_ne, HV by done. set_solver.
      * intros x [(v & -> & Hv)%list_elem_of_fmap|[->|Hx]%elem_of_cons]%elem_of_app; [|done|apply Hst; by right].
        apply Ht. by apply list_elem_of_filter in Hv as [_ ?].
      * rewrite length_app, length_fmap. cbn [length]. rewrite (nodes_left_visit vis u Hu Hvu), (entries_left_visit outgoing out_ok vis u Hu Hvu) in Hf.
        pose proof (length_filter (λ v, <[u:=true]> vis v = false) (next u)) as Hle.
        unfold targets in Hle at 2. rewrite length_fmap in Hle. lia.
    + intros [visited' F'] (V' & HV' & Hl). exists V'. split; [done|]. apply leaves_app in Hl as (V1 & F1 & Hfin & Hl).
      exists V1, (F1 ++ [u]). split; [|done]. assert (finishes next (V ++ [u]) F (next u) V1 F1) as Hfin'.
      { revert Hfin. apply finishes_filter. intros v Hin Hv. apply not_false_is_true in Hv.
        destruct (decide (u = v)) as [<-|Hne]; [set_solver|].
        rewrite fn_lookup_insert_ne in Hv by done. apply elem_of_app. left. apply HV; [by apply Ht|done]. }
      eapply finishes_new; [|exact Hfin'|constructor]. rewrite <- HV by done. by rewrite Hvu.
Qed.

Lemma entries_left_le vis : (entries_left outgoing vis ≤ entry_count outgoing)%nat.
Proof.
  unfold entries_left, entry_count. generalize (seqZ 0 n). intros l. induction l as [|v l IH]; cbn; [lia|].
  destruct (vis v); unfold id in *; lia.
Qed.

Lemma finish_start_spec visited V F s :
  visited_are visited V → 0 ≤ s < n →
  checks check (finish_start check outgoing (visited, F) s)
    (λ '(visited', F'), ∃ V', visited_are visited' V' ∧ finishes next V F [s] V' F').
Proof.
  intros (vis & Hvis & HV) Hs. unfold finish_start.
  eapply checks_bind; [by apply (checks_call_if _ _ (λ _, True))|]. intros _ _.
  eapply checks_bind; [eapply (checks_step _ _ _ (λ x, x = vis s)); [by eapply holds_get|done]|]. intros ? ->.
  destruct (vis s) eqn:Hvs.
  - apply checks_ret. exists V. split; [by exists vis|]. apply finishes_seen; [by apply HV|constructor].
  - rewrite as_u32_node by done. eapply checks_mono.
    + apply (finish_loop_spec _ visited vis _ V F); [done|done|by intros x ->%list_elem_of_singleton|].
      pose proof (entries_left_le vis). pose proof (length_filter (λ v, vis v = false) (seqZ 0 n)) as Hle.
      unfold nodes_left. rewrite length_seqZ in Hle. cbn. lia.
    + intros [visited' F'] (V' & HV' & V1 & F1 & Hfin & <- & <-). by exists V'.
Qed.

Lemma finish_spec :
  checks check (each (finish_start check outgoing) (replicate (Z.to_nat n) false, []) (seqZ 0 n))
    (λ '(_, F), finish_order next F ∧ ∀ v, v ∈ F ↔ 0 ≤ v < n).
Proof.
  eapply checks_mono.
  - apply (checks_each check _ _ _ (λ done '(visited, F), ∃ V, visited_are visited V ∧ finishes next [] [] done V F)).
    + exists []. split; [|constructor]. exists (λ _, false). split; [apply holds_replicate, nodes_bound|]. set_solver.
    + intros done s rest [visited F] Heq (V & HV & Hfin). destruct (seqZ_middle _ _ _ _ Heq) as (Hs & _ & _).
      eapply checks_mono; [by apply (finish_start_spec visited V F s)|].
      intros [visited' F'] (V' & HV' & Hfin'). exists V'. split; [done|]. by eapply finishes_app.
  - intros [visited F] (V & HV & Hfin). pose proof (finishes_order _ _ _ _ Hfin) as [Ho Hall]. split; [done|].
    intros v. split; [|intros Hv; apply Hall, elem_of_seqZ; lia]. intros Hv.
    apply finishes_block in Hfin as (B & HF & _ & Hb). cbn in HF. subst.
    destruct (block_reached _ _ _ _ Hb v Hv) as (u & Hu%elem_of_seqZ & Hr). clear -out_ok Hu Hr.
    induction Hr as [|x y z Hxy _ IH]; [lia|]. apply IH. apply elem_of_targets, (proj2 out_ok) in Hxy. lia.
Qed.

(** ** Strong components: the labels *)

Abbreviation back := (flip (λ u v, v ∈ next u)).

Lemma back_incoming u v : back u v ↔ edge incoming u v.
Proof. unfold flip. rewrite elem_of_targets. apply transposed. Qed.

Lemma back_nodes u v : back u v → 0 ≤ v < n.
Proof. rewrite back_incoming. intros Huv. rewrite <- same_nodes. by apply (proj2 in_ok u). Qed.

Lemma push_top_members (q : list Z) v w : w ∈ push_top q v ↔ w ∈ q ∨ w = v.
Proof. unfold push_top. set_solver. Qed.

Lemma strong_loop_spec L0 c s fuel waiting comp L m :
  0 ≤ c < u32_max → L0 s = None → flooding n back L0 c s waiting comp L m → (m < fuel)%nat →
  checks check (strong_loop check incoming fuel c comp waiting) (flooded n back L0 c s).
Proof.
  intros Hc Hs. revert waiting comp L m. induction fuel as [|fuel IH]; intros waiting comp L m Hf Hm; [lia|].
  cbn [strong_loop]. destruct waiting as [|u waiting]; [apply checks_ret; destruct Hf as (? & ? & _); by exists L|].
  eapply checks_bind; [by apply (checks_call_if _ _ (λ _, True))|]. intros _ _.
  eapply checks_bind.
  { apply (claim_row_spec n _ L0 c s check push_top push_top_members (λ _ _, eq_refl) Hc Hs back_nodes incoming u _ _ _ _ Hf).
    intros v Hv. by apply back_incoming. }
  intros [comp1 w1] (L1 & Hf1 & Hk1 & Hin). destruct m as [|m]; [destruct Hf1 as (_ & _ & _ & ?); cbn in *; lia|].
  apply (IH w1 comp1 L1 m); [|lia]. apply (flooding_leave n _ L0 c s u); [done|].
  intros v Hv. by apply Hin, back_incoming.
Qed.

(** The components of the nodes [done] are labelled. *)
Definition strong_until (done : list Z) (comp : list Z) (count : Z) : Prop :=
  ∃ reps L, labelled n comp L ∧ classes n (mutual next) reps L
    ∧ (∀ r, r ∈ reps → r ∈ done) ∧ (∀ v, v ∈ done → is_Some (L v)) ∧ count = zlen reps.

Lemma strong_start_spec F p s q comp count :
  finish_order next F → (∀ v, v ∈ F ↔ 0 ≤ v < n) → rev F = p ++ s :: q → strong_until p comp count →
  checks check (strong_start check outgoing incoming (comp, count) s) (λ '(comp', count'), strong_until (p ++ [s]) comp' count').
Proof.
  intros HF Hn Hrev (reps & L & Hlab & Hcl & Hreps & Hdone & ->). unfold strong_start.
  assert (0 ≤ s < n) as Hs.
  { apply Hn. apply elem_of_reverse. unfold reverse. rewrite <- rev_alt, Hrev. set_solver. }
  eapply checks_bind; [eapply (checks_step _ _ _ (λ x, x = default u32_max (L s))); [eapply holds_get; [apply Hlab|done]|done]|].
  intros ? ->. rewrite (labelled_none n comp) by done. case_bool_decide as HL; cbn [negb].
  - pose proof (classes_count _ _ _ _ _ Hcl HL _ Hs). pose proof nodes_bound. pose proof (zlen_nonneg reps).
    eapply checks_mono; [eapply (component_step back (mutual next) reps L comp s
      (λ comp, strong_loop check incoming (S (Z.to_nat n)) (zlen reps) comp [s])); try done|].
    + intros comp' Hf. apply (strong_loop_spec L (zlen reps) s _ _ _ _ _ ltac:(lia) HL Hf). pose proof (unlabelled_le n L). lia.
    + apply _.
    + intros v. apply (backward_component next F p s q L); [done| |done| |done].
      * intros u w Huw _. apply Hn. by apply (back_nodes w).
      * intros w. rewrite (classes_some _ _ _ _ _ Hcl). split; [intros (r & ? & ?); exists r; auto|].
        intros (y & Hy%Hdone & Hyw). apply (classes_some _ _ _ _ _ Hcl) in Hy as (r & ? & ?). exists r. split; [done|by etrans].
    + intros [comp' count] (L' & Hlab' & Hcl' & ->). exists (reps ++ [s]), L'. split_and!; [done..|set_solver| |done].
      intros v [Hv| ->%list_elem_of_singleton]%elem_of_app; apply (classes_some _ _ _ _ _ Hcl').
      * apply Hdone, (classes_some _ _ _ _ _ Hcl) in Hv as (r & ? & ?). exists r. set_solver.
      * exists s. split; [set_solver|done].
  - apply checks_ret. exists reps, L. split_and!; [done..|set_solver| |done].
    intros v [?| ->%list_elem_of_singleton]%elem_of_app; [auto|]. by apply not_eq_None_Some.
Qed.
End pair.
