(* ===== verification/ComponentsCanonical.v ===== *)
(** * Components: canonical numbers

    The renumbering of the strongly connected components by their smallest
    nodes, and the claims on components. *)

From stdpp Require Import functions relations prelude gmap strings sorting list.
From Stdlib Require Import ZArith Lia.
From S2P Require Import Prelude Machine Types Shared Csr CsrTheorems Algorithms Layers SearchTheorems DepthTheorems Components Kosaraju ComponentsTheorems.

Local Open Scope Z_scope.
#[local] Set Warnings "-clear-no-such-hyp".

Lemma enumerate_lookup {A} (l : list A) i j x : enumerate l !! i = Some (j, x) ↔ j = Z.of_nat i ∧ l !! i = Some x.
Proof.
  unfold enumerate. rewrite lookup_zip_Some, lookup_seqZ. split; [intros [[-> _] ?]; split; [lia|done]|].
  intros [-> Hx]. pose proof (lookup_lt_Some _ _ _ Hx). unfold zlen. split; [split; lia|done].
Qed.

Lemma enumerate_middle {A} (l : list A) done j x rest :
  enumerate l = done ++ (j, x) :: rest → j = zlen done ∧ l !! Z.to_nat j = Some x.
Proof.
  intros Heq. assert (enumerate l !! length done = Some (j, x)) as Hl by (rewrite Heq; by apply list_lookup_middle).
  apply enumerate_lookup in Hl as [-> Hx]. by rewrite Nat2Z.id.
Qed.

Lemma zlen_enumerate {A} (l : list A) : zlen (enumerate l) = zlen l.
Proof. unfold enumerate, zlen. rewrite length_zip, length_seqZ. unfold zlen. lia. Qed.

Section canonical.
Context (n : Z) (R : relation Z) (reps comp : list Z) (L : Z → option Z).
Context `{!Equivalence R}.
Hypothesis nodes_u32 : 0 ≤ n ≤ u32_max.
Hypothesis Hlab : labelled n comp L.
Hypothesis Hcl : classes n R reps L.
Hypothesis total : ∀ v, 0 ≤ v < n → is_Some (L v).
Abbreviation k := (zlen reps).

Lemma label_range v c : L v = Some c → 0 ≤ c < k.
Proof.
  intros (Hc & r & Hr & _)%(proj2 (proj2 Hcl)). apply lookup_lt_Some in Hr. unfold zlen. lia.
Qed.

Lemma label_node v c : 0 ≤ v → comp !! Z.to_nat v = Some c → 0 ≤ v < n ∧ L v = Some c.
Proof.
  intros Hv Hc. pose proof (lookup_lt_Some _ _ _ Hc) as Hlt. destruct Hlab as [[Hlen Hh] _].
  assert (0 ≤ v < n) as Hvn by (unfold zlen in Hlen; lia). split; [done|].
  rewrite Hh in Hc by done. destruct (total v Hvn) as [x Hx]. rewrite Hx in *. by simplify_eq.
Qed.

Lemma label_used c : 0 ≤ c < k → ∃ v, L v = Some c.
Proof.
  intros Hc. destruct (lookup_lt_is_Some_2 reps (Z.to_nat c)) as [r Hr]; [unfold zlen in *; lia|].
  exists r. apply (proj2 (proj2 Hcl)). split; [lia|]. by exists r.
Qed.

(** [f c] is the least node below [m] with the label [c], or [u32::MAX]. *)
Definition least_below (m : Z) (f : Z → Z) : Prop :=
  ∀ c, 0 ≤ c < k →
    (f c = u32_max ∧ ∀ v, 0 ≤ v < m → L v ≠ Some c)
    ∨ (0 ≤ f c < m ∧ L (f c) = Some c ∧ ∀ v, 0 ≤ v < m → L v = Some c → f c ≤ v).

Lemma lower_minimum_spec m M f c :
  holds k M f → least_below m f → 0 ≤ m < n → L m = Some c →
  posts (λ _, False) (lower_minimum M (m, c)) (λ M', ∃ f', holds k M' f' ∧ least_below (m + 1) f').
Proof.
  intros HM Hf Hm Hc. pose proof (label_range _ _ Hc) as Hck. unfold lower_minimum.
  rewrite get_nat, (proj2 HM) by lia. cbn. unfold u32_try_from. rewrite (proj2 (Z.leb_le _ _)) by lia. cbn.
  destruct (holds_set (E := Error) k M f c (Z.min (f c) m) HM Hck) as (M' & -> & HM'). exists (<[c := Z.min (f c) m]> f).
  split; [done|]. intros d Hd. destruct (decide (c = d)) as [<-|Hne].
  - rewrite fn_lookup_insert. right. destruct (Hf c Hck) as [[-> Hno]|(Hr & HL & Hmin)].
    + rewrite Z.min_r by lia. split_and!; [lia..|done|]. intros v Hv HLv. destruct (decide (v = m)) as [->|]; [done|].
      destruct (Hno v); [lia|done].
    + rewrite Z.min_l by lia. split_and!; [lia..|done|]. intros v Hv HLv. destruct (decide (v = m)) as [->|]; [lia|].
      apply Hmin; [lia|done].
  - rewrite fn_lookup_insert_ne by done. destruct (Hf d Hd) as [[-> Hno]|(Hr & HL & Hmin)]; [left|right].
    + split; [done|]. intros v Hv. destruct (decide (v = m)) as [->|]; [congruence|]. apply Hno. lia.
    + split_and!; [lia..|done|]. intros v Hv HLv. destruct (decide (v = m)) as [->|]; [congruence|]. apply Hmin; [lia|done].
Qed.

(** The least node of every component. *)
Definition least_node (f : Z → Z) : Prop :=
  ∀ c, 0 ≤ c < k → 0 ≤ f c < n ∧ L (f c) = Some c ∧ ∀ v, 0 ≤ v < n → L v = Some c → f c ≤ v.

Lemma minimum_spec :
  posts (λ _, False) (foldM lower_minimum (replicate (Z.to_nat k) u32_max) (enumerate comp))
    (λ M, ∃ f, holds k M f ∧ least_node f).
Proof.
  eapply posts_mono.
  - apply (foldM_posts _ _ _ _ (λ done M, ∃ f, holds k M f ∧ least_below (zlen done) f)).
    + exists (λ _, u32_max). split; [apply holds_replicate, zlen_nonneg|]. intros c Hc. left. split; [done|].
      change (zlen []) with 0. lia.
    + intros done [v c] rest M Heq (f & HM & Hf). destruct (enumerate_middle _ _ _ _ _ Heq) as [-> Hv].
      apply label_node in Hv as [Hv HL]; [|apply zlen_nonneg]. rewrite zlen_app. by apply (lower_minimum_spec _ M f c).
  - intros M (f & HM & Hf). exists f. split; [done|]. rewrite zlen_enumerate, (proj1 (proj1 Hlab)) in Hf. intros c Hc.
    destruct (Hf c Hc) as [[_ Hno]|?]; [|done]. destruct (label_used c Hc) as [v Hv]. destruct (Hno v); [|done].
    apply (proj1 (proj2 Hlab)). by eexists.
Qed.

(** The components in the order of their least nodes. *)
Definition ordered_by (f : Z → Z) (l : list (Z * Z)) : Prop :=
  NoDup l ∧ zlen l = k ∧ StronglySorted Z.lt l.*1 ∧ ∀ m c, (m, c) ∈ l ↔ 0 ≤ c < k ∧ m = f c.

Lemma sorted_firsts (l : list (Z * Z)) : StronglySorted pair_le l → NoDup l.*1 → StronglySorted Z.lt l.*1.
Proof.
  induction 1 as [|x l Hs IH Hall]; cbn; [constructor|]. intros [Hx Hnd]%list.NoDup_cons. constructor; [by apply IH|].
  apply list.Forall_forall. intros y (z & -> & Hz)%list_elem_of_fmap. pose proof (proj1 (list.Forall_forall _ _) Hall z Hz) as Hxz.
  assert (x.1 ≠ z.1); [|unfold pair_le in Hxz; lia]. intros Heq. apply Hx. rewrite Heq. by apply list_elem_of_fmap_2.
Qed.

Lemma ordered_spec M f :
  holds k M f → least_node f → ordered_by f (sort_pairs ((λ '(old, minimum), (minimum, old)) <$> enumerate M)).
Proof.
  intros [Hlen HM] Hf. set (l := (λ '(old, minimum), (minimum, old)) <$> enumerate M).
  assert (∀ m c, (m, c) ∈ l ↔ 0 ≤ c < k ∧ m = f c) as Hin.
  { intros m c. unfold l. rewrite list_elem_of_fmap. split.
    - intros ([c' m'] & [= -> ->] & [i Hi]%list_elem_of_lookup). apply enumerate_lookup in Hi as [-> Hi].
      pose proof (lookup_lt_Some _ _ _ Hi). assert (0 ≤ Z.of_nat i < k) as Hk by (unfold zlen in *; lia). split; [done|].
      specialize (HM (Z.of_nat i) Hk). rewrite Nat2Z.id in HM. congruence.
    - intros [Hc ->]. exists (c, f c). split; [done|]. apply list_elem_of_lookup. exists (Z.to_nat c).
      apply enumerate_lookup. split; [lia|by apply HM]. }
  assert (NoDup l.*2) as Hnd2.
  { assert (l.*2 = seqZ 0 (zlen M)) as ->; [|apply NoDup_seqZ]. unfold l, enumerate. rewrite <- list_fmap_compose.
    rewrite <- (fst_zip (seqZ 0 (zlen M)) M) at 2 by (rewrite length_seqZ; unfold zlen; lia).
    apply list_fmap_ext. by intros i [? ?] _. }
  assert (NoDup l) as Hnd by (by apply NoDup_fmap_1 in Hnd2).
  assert (NoDup l.*1) as Hnd1.
  { apply NoDup_fmap_2_strong; [|done]. intros [m c] [m' c'] H1 H2 Heq. cbn in Heq. subst.
    apply Hin in H1 as [Hc Hm], H2 as [Hc' Hm']. destruct (Hf c Hc) as (_ & HL & _), (Hf c' Hc') as (_ & HL' & _). congruence. }
  split_and!.
  - by rewrite sort_pairs_perm.
  - unfold zlen. rewrite sort_pairs_perm. unfold l. rewrite length_fmap. fold (zlen (enumerate M)). by rewrite zlen_enumerate.
  - apply sorted_firsts; [apply sort_pairs_sorted|]. by rewrite sort_pairs_perm.
  - intros m c. rewrite elem_of_sort_pairs. apply Hin.
Qed.

(** The new number of a component is its position. *)
Lemma renumber_spec f l :
  ordered_by f l →
  posts (λ _, False) (foldM renumber (replicate (Z.to_nat k) u32_max) (enumerate l))
    (λ K, ∃ g, holds k K g ∧ ∀ i m c, l !! i = Some (m, c) → g c = Z.of_nat i).
Proof.
  intros (Hnd & Hlen & _ & Hin). eapply posts_mono.
  - apply (foldM_posts _ _ _ _ (λ done K, ∃ g, holds k K g ∧ ∀ i m c, (i, (m, c)) ∈ done → g c = i)).
    + exists (λ _, u32_max). split; [apply holds_replicate, zlen_nonneg|]. by intros i m c ?%elem_of_nil.
    + intros done [j [m c]] rest K Heq (g & HK & Hg). destruct (enumerate_middle _ _ _ _ _ Heq) as [Hj Hl].
      assert ((m, c) ∈ l) as Hmc by (by eapply list_elem_of_lookup_2). apply Hin in Hmc as [Hc ->].
      unfold renumber, u32_try_from. assert (j ≤ u32_max) as Hju.
      { pose proof (lookup_lt_Some _ _ _ Hl). assert (k ≤ Z.max 0 n); [|unfold zlen in *; lia].
        apply NoDup_range_length; apply Hcl. }
      rewrite (proj2 (Z.leb_le _ _)) by done. cbn. destruct (holds_set (E := Error) k K g c j HK Hc) as (K' & -> & HK').
      exists (<[c := j]> g). split; [done|]. intros i m' c' [Hi|[= -> -> ->]%list_elem_of_singleton]%elem_of_app; [|by rewrite fn_lookup_insert].
      destruct (decide (c = c')) as [<-|Hne]; [|rewrite fn_lookup_insert_ne by done; by apply (Hg i m')].
      rewrite fn_lookup_insert. assert ((i, (m', c)) ∈ enumerate l) as He by (rewrite Heq; set_solver).
      apply list_elem_of_lookup in He as [p Hp]. apply enumerate_lookup in Hp as [-> Hp].
      assert ((m', c) ∈ l) as Hm' by (by eapply list_elem_of_lookup_2). apply Hin in Hm' as [_ ->].
      pose proof (NoDup_lookup _ _ _ _ Hnd Hp Hl). pose proof (zlen_nonneg done). lia.
  - intros K (g & HK & Hg). exists g. split; [done|]. intros i m c Hi. apply (Hg _ m). apply list_elem_of_lookup. exists i.
    by apply enumerate_lookup.
Qed.

Lemma relabel_spec K (g : Z → Z) :
  holds k K g →
  posts (λ _, False) (foldM (λ values value,
      value ← ok_or (get K value) (Error_internal "SCC canonicalization lost a component identifier");
      Ok (values ++ [value])) [] comp) (λ comp', comp' = g <$> comp).
Proof.
  intros HK. apply (foldM_posts _ _ _ _ (λ (done : list Z) values, values = g <$> done)); [done|].
  intros done c rest values Heq ->. assert (comp !! length done = Some c) as Hc by (rewrite Heq; by apply list_lookup_middle).
  rewrite <- (Nat2Z.id (length done)) in Hc. apply label_node in Hc as [_ Hc%label_range]; [|lia].
  rewrite get_nat, (proj2 HK) by lia. cbn. by rewrite fmap_app.
Qed.

Lemma canonicalize_spec : ∃ cs, canonicalize comp k = Ok cs ∧ numbered_by_least n R cs.
Proof.
  assert (posts (λ _, False) (canonicalize comp k) (numbered_by_least n R)) as Hp.
  2: { destruct (canonicalize comp k) as [cs|e|w]; [by exists cs|done..]. }
  unfold canonicalize. eapply posts_bind; [apply minimum_spec|]. intros M (f & HM & Hf).
  pose proof (ordered_spec M f HM Hf) as Hord. eapply posts_bind; [by apply (renumber_spec f)|]. intros K (g & HK & Hg).
  eapply posts_bind; [by apply relabel_spec|]. intros ? ->. cbn. destruct Hord as (Hnd & Hlen & Hsort & Hin).
  set (l := sort_pairs _) in *. destruct Hlab as ([Hclen Hh] & Hr & _).
  assert (∀ v c i, 0 ≤ v < n → L v = Some c → l !! i = Some (f c, c) → (g <$> comp) !! Z.to_nat v = Some (Z.of_nat i)) as Hnum.
  { intros v c i Hv Hc Hi. rewrite list_lookup_fmap, Hh, Hc by done. cbn. unfold id. by rewrite (Hg i _ _ Hi). }
  split; [cbn; unfold zlen in *; by rewrite length_fmap|]. exists l.*1. cbn [count component]. split_and!; [|done|..].
  - unfold zlen in *. by rewrite length_fmap.
  - intros i r Hi. apply list_lookup_fmap_Some in Hi as ([r' c] & -> & Hi). cbn.
    assert ((r', c) ∈ l) as [Hc ->]%Hin by (by eapply list_elem_of_lookup_2). destruct (Hf c Hc) as (? & ? & _). split; [done|]. by eapply Hnum.
  - intros v Hv. destruct (total v Hv) as [c Hc]. pose proof (label_range _ _ Hc) as Hck. destruct (Hf c Hck) as (Hfn & HfL & Hmin).
    assert ((f c, c) ∈ l) as [i Hi]%list_elem_of_lookup by (by apply Hin). exists i, (f c). split_and!.
    + by eapply Hnum.
    + by rewrite list_lookup_fmap, Hi.
    + apply (proj2 (proj2 Hcl)) in Hc as (_ & r & Hr1 & Hrv), HfL as (_ & r' & Hr2 & Hrf). simplify_eq. etrans; [symmetry; exact Hrf|done].
    + intros w Hw Hvw. apply Hmin; [done|]. apply (proj2 (proj2 Hcl)) in Hc as (Hc0 & r & Hr1 & Hrv).
      apply (proj2 (proj2 Hcl)). split; [done|]. exists r. split; [done|by etrans].
Qed.
End canonical.

(** [incoming] is [outgoing] with the edges reversed, and a [u32] can count the
    components. *)
Record transposes (outgoing incoming : AdjacencyRead) : Prop := {
  transposes_out : adjacency_ok outgoing;
  transposes_in : adjacency_ok incoming;
  transposes_nodes : node_count incoming = node_count outgoing;
  transposes_edges u v : edge outgoing u v ↔ edge incoming v u;
  transposes_u32 : node_count outgoing ≤ u32_max;
}.

Section pair.
Context (check : Check) (outgoing incoming : AdjacencyRead).
Hypothesis pair_ok : transposes outgoing incoming.

Lemma strong_spec :
  checks check (strongly_connected_components_cancellable check outgoing incoming)
    (numbered_by_least (node_count outgoing) (mutual (targets outgoing))).
Proof.
  destruct pair_ok as [out_ok in_ok same_nodes transposed nodes_u32].
  unfold strongly_connected_components_cancellable, validate_pair. rewrite same_nodes, Z.eqb_refl.
  eapply checks_bind; [by eapply (checks_step _ _ _ (λ _, True))|]. intros _ _.
  eapply checks_bind; [by apply (finish_spec check outgoing incoming)|]. intros [visited F] [HF Hn]. eapply checks_bind.
  { apply (checks_each check _ _ _ (λ done '(comp, count), strong_until outgoing done comp count)).
    - exists [], (λ _, None). split_and!; [by apply labels_none|apply classes_none|set_solver|set_solver|done].
    - intros done s rest [comp count] Heq Hu. by apply (strong_start_spec check outgoing incoming) with F rest. }
  intros [comp count] (reps & L & Hlab & Hcl & _ & Hall & ->).
  destruct (canonicalize_spec (node_count outgoing) (mutual (targets outgoing)) reps comp L) as (cs & Hcs & Hnum); try done.
  - destruct out_ok as [? _]. lia.
  - intros v Hv. apply Hall. rewrite rev_alt. apply elem_of_reverse. by apply Hn.
  - eapply checks_step; [exact Hcs|done].
Qed.

(** Each of two nodes can be reached from the other. *)
Definition strongly_connected : relation Z := λ u v, rtc (edge outgoing) u v ∧ rtc (edge outgoing) v u.

Lemma mutual_connected u v : mutual (targets outgoing) u v ↔ strongly_connected u v.
Proof.
  unfold mutual, strongly_connected. by rewrite !rtc_targets.
Qed.

#[local] Instance strongly_connected_equivalence : Equivalence strongly_connected.
Proof.
  split; [intros x|intros x y|intros x y z]; rewrite <- !mutual_connected; [done|by symmetry|by etrans].
Qed.

Lemma numbered_ext n (R R' : relation Z) cs : (∀ u v, R u v ↔ R' u v) → numbered_by_least n R cs → numbered_by_least n R' cs.
Proof.
  intros HR (Hlen & reps & Hc & Hs & Hr & Hall). split; [done|]. exists reps. split_and!; [done..|]. intros v Hv.
  destruct (Hall v Hv) as (c & r & ? & ? & ? & Hmin). exists c, r. split_and!; [done..|by apply HR|]. intros w Hw Hvw. by apply Hmin, HR.
Qed.

(** The components of the classes of [R]. *)
Definition components_of (R : relation Z) (cs : Components) : Prop :=
  numbered_by_least (node_count outgoing) R cs
  ∧ ∀ u v, 0 ≤ u < node_count outgoing → 0 ≤ v < node_count outgoing →
      component cs !! Z.to_nat u = component cs !! Z.to_nat v ↔ R u v.

Lemma weak_components_spec :
  checks check (weakly_connected_components_cancellable check outgoing incoming) (components_of (rtsc (edge outgoing))).
Proof.
  destruct pair_ok as [? ? ? ? ?]. eapply checks_mono; [by apply weak_spec|]. intros cs Hcs. split; [done|].
  intros u v Hu Hv. eapply numbered_same; [apply _|done..].
Qed.

Lemma strong_components_spec :
  checks check (strongly_connected_components_cancellable check outgoing incoming) (components_of strongly_connected).
Proof.
  eapply checks_mono; [by apply strong_spec|]. intros cs Hcs%(numbered_ext _ _ strongly_connected); [|apply mutual_connected].
  split; [done|]. intros u v Hu Hv. eapply numbered_same; [apply _|done..].
Qed.
End pair.

Lemma components_pair_error check outgoing incoming :
  node_count outgoing ≠ node_count incoming →
  run (weakly_connected_components_cancellable check outgoing incoming) = Err (Error_invalid_data "CSR and CSC node counts differ")
  ∧ run (strongly_connected_components_cancellable check outgoing incoming) = Err (Error_invalid_data "CSR and CSC node counts differ").
Proof.
  intros Hne. unfold weakly_connected_components_cancellable, strongly_connected_components_cancellable, validate_pair.
  by rewrite (proj2 (Z.eqb_neq _ _)).
Qed.

(** Both directions of a graph built from edges. *)
Lemma built_transposes n triples :
  0 ≤ n ≤ u32_max → nonnegative triples → zlen triples ≤ u32_max → sources_in n triples → targets_in n triples →
  ∃ out inc, build n triples = Ok out ∧ build_transposed n triples = Ok inc ∧ transposes (csr_read out) (csr_read inc)
    ∧ node_count (csr_read out) = n ∧ ∀ u v, edge (csr_read out) u v ↔ ∃ e, (u, v, e) ∈ triples.
Proof.
  intros Hn Hnn Hlen Hs Ht. destruct (build_both n triples) as (out & inc & Hb & Hb' & Hc & Hc'); [rlia|done..|].
  exists out, inc. split_and!; [done..| | |by apply (built_edges out n)].
  2: apply (built_ok out n triples); (done || lia).
  destruct (transposed_ok n triples Hnn Hs Ht) as (Hnn' & Hs' & Ht').
  destruct (built_ok out n triples) as [Hn1 Hok1]; [done|lia|done..|].
  destruct (built_ok inc n (transpose <$> triples)) as [Hn2 Hok2]; [done|lia|done..|].
  split; [done|done|congruence| |lia]. intros u v. rewrite (built_edges out n triples), (built_edges inc n (transpose <$> triples)) by done.
  split; intros [e He]; exists e.
  - by apply (list_elem_of_fmap_2 transpose) in He.
  - apply list_elem_of_fmap in He as ([[u' v'] e'] & Heq & He). by simplify_eq/=.
Qed.

(** ** Claims *)

(** the weakly connected components are the classes of nodes connected by
    edges of any direction, numbered in the order of their least nodes; the
    result depends on nothing else.  Whatever the callback answers, the
    computation ends with this result or with an error of the callback, and
    adjacencies of different sizes are refused. *)
Theorem weak_components check outgoing incoming :
  (node_count outgoing ≠ node_count incoming →
   run (weakly_connected_components_cancellable check outgoing incoming)
   = Err (Error_invalid_data "CSR and CSC node counts differ"))
  ∧ (transposes outgoing incoming →
     returns check (weakly_connected_components_cancellable check outgoing incoming)
       (components_of outgoing (rtsc (edge outgoing)))
     ∧ ∃ cs, weakly_connected_components outgoing incoming = Ok cs ∧ components_of outgoing (rtsc (edge outgoing)) cs).
Proof.
  split; [intros Hne; by apply components_pair_error|]. intros Hp.
  split; [apply checks_run|apply checks_never]; by apply weak_components_spec.
Qed.

(** C13: the strongly connected components are the classes of nodes each of
    which can be reached from the other, numbered in the order of their least
    nodes whatever the order of the traversals.  Whatever the callback answers,
    the computation ends with this result or with an error of the callback, and
    adjacencies of different sizes are refused. *)
Theorem strong_components check outgoing incoming :
  (node_count outgoing ≠ node_count incoming →
   run (strongly_connected_components_cancellable check outgoing incoming)
   = Err (Error_invalid_data "CSR and CSC node counts differ"))
  ∧ (transposes outgoing incoming →
     returns check (strongly_connected_components_cancellable check outgoing incoming)
       (components_of outgoing (strongly_connected outgoing))
     ∧ ∃ cs, strongly_connected_components outgoing incoming = Ok cs ∧ components_of outgoing (strongly_connected outgoing) cs).
Proof.
  split; [intros Hne; by apply components_pair_error|]. intros Hp.
  split; [apply checks_run|apply checks_never]; by apply strong_components_spec.
Qed.

(** A cycle with a tail, and a pair apart. *)
Definition cycle_edges : list (Z * Z * Z) := [(0, 2, 1); (2, 0, 2); (2, 1, 3); (4, 3, 4)].
Definition cycle_out : Csr := match build 5 cycle_edges with Ok c => c | _ => Csr_default end.
Definition cycle_in : Csr := match build_transposed 5 cycle_edges with Ok c => c | _ => Csr_default end.

Lemma cycle_transposes : transposes (csr_read cycle_out) (csr_read cycle_in).
Proof.
  destruct (built_transposes 5 cycle_edges) as (out & inc & Ho & Hi & Ht & _); [rlia|decided|vm_compute; discriminate|decided..|].
  unfold cycle_out, cycle_in. by rewrite Ho, Hi.
Qed.

Lemma weak_components_witness :
  ∃ cs, weakly_connected_components (csr_read cycle_out) (csr_read cycle_in) = Ok cs
    ∧ component cs = [0; 0; 0; 1; 1] ∧ components_of (csr_read cycle_out) (rtsc (edge (csr_read cycle_out))) cs.
Proof.
  destruct (weak_components never (csr_read cycle_out) (csr_read cycle_in)) as [_ Hw].
  destruct (Hw cycle_transposes) as [_ (cs & Hcs & Hc)]. exists cs. split_and!; [done| |done].
  assert (weakly_connected_components (csr_read cycle_out) (csr_read cycle_in) = Ok (mkComponents [0; 0; 0; 1; 1] 2)) as He
    by (vm_compute; reflexivity).
  rewrite Hcs in He. by injection He as ->.
Defined.

Lemma strong_components_witness :
  ∃ cs, strongly_connected_components (csr_read cycle_out) (csr_read cycle_in) = Ok cs
    ∧ component cs = [0; 1; 0; 2; 3] ∧ components_of (csr_read cycle_out) (strongly_connected (csr_read cycle_out)) cs.
Proof.
  destruct (strong_components never (csr_read cycle_out) (csr_read cycle_in)) as [_ Hw].
  destruct (Hw cycle_transposes) as [_ (cs & Hcs & Hc)]. exists cs. split_and!; [done| |done].
  assert (strongly_connected_components (csr_read cycle_out) (csr_read cycle_in) = Ok (mkComponents [0; 1; 0; 2; 3] 4)) as He
    by (vm_compute; reflexivity).
  rewrite Hcs in He. by injection He as ->.
Defined.
