(* ===== verification/Undirected.v ===== *)
(** * Undirected algorithms: [crates/graph/src/algorithms.rs]

    Rows of the graph without directions, the number of triangles and the core
    numbers. *)

From stdpp Require Import prelude gmap strings sorting.
From Stdlib Require Import ZArith Lia.
From S2P Require Import Prelude Machine Types Shared Csr Algorithms Components.

Local Open Scope Z_scope.

(** ** Rows without directions *)

(** [dedup_by_key]: of consecutive items with one key the first is kept. *)
Fixpoint dedup_from {A} (key : A → Z) (last : Z) (l : list A) : list A :=
  match l with
  | [] => []
  | x :: l => if key x =? last then dedup_from key last l else x :: dedup_from key (key x) l
  end.

Definition dedup_by_key {A} (key : A → Z) (l : list A) : list A :=
  match l with [] => [] | x :: l => x :: dedup_from key (key x) l end.

Definition undirected_row (outgoing incoming : AdjacencyRead) (node : Z) : list Z :=
  let others a := match read_row a node with Some r => filter (λ v, v ≠ node) r.*1 | None => [] end in
  dedup_by_key id (merge_sort Z.le (others outgoing ++ others incoming)).

Definition undirected_row_into (outgoing incoming : AdjacencyRead) (node : Z) : list (Z * Z) :=
  let output := append_row incoming node (append_row outgoing node []) in
  dedup_by_key fst (sort_pairs (filter (λ e, e.1 ≠ node) output)).

(** [partition_point] on a slice whose leading items satisfy the predicate. *)
Fixpoint partition_point {A} (p : A → bool) (l : list A) : nat :=
  match l with
  | [] => O
  | x :: l => if p x then S (partition_point p l) else O
  end.

Section undirected.
Context (check : Check) (outgoing incoming : AdjacencyRead).

(** ** Triangles *)

(** The items not yet passed stand for the indices. *)
Fixpoint intersect (fuel : nat) (left right : list (Z * Z)) (steps count : Z) : Checked Z :=
  match fuel with
  | O => step (Abort OutOfFuel)
  | S fuel =>
      match left, right with
      | x :: left', y :: right' =>
          _ ← call_if check (negb (steps =? 0) && masked steps 4095);
          let steps := steps + 1 in
          match x.1 ?= y.1 with
          | Lt => intersect fuel left' right steps count
          | Gt => intersect fuel left right' steps count
          | Eq => intersect fuel left' right' steps (count + 1)
          end
      | _, _ => mret count
      end
  end.

Definition sorted_neighbor_intersection_count (left right : list (Z * Z)) : Checked Z :=
  intersect (S (length left + length right)) left right 0 0.

Definition triangle_second (first_neighbors : list (Z * Z)) (count : Z) (entry : Z * (Z * Z)) : Checked Z :=
  let '(position, (second, _)) := entry in
  _ ← call_if check (negb (position =? 0) && masked position 255);
  let first_start := partition_point (λ e : Z * Z, e.1 <=? second) first_neighbors in
  if (first_start =? length first_neighbors)%nat then mret count
  else
    let second_neighbors := undirected_row_into outgoing incoming second in
    let third_start := partition_point (λ e : Z * Z, e.1 <=? second) second_neighbors in
    common ← sorted_neighbor_intersection_count (drop first_start first_neighbors) (drop third_start second_neighbors);
    step (ok_or (checked_add u64_max count common) (budget "triangle count overflow")).

Definition triangle_first (count first : Z) : Checked Z :=
  _ ← call_if check (masked first 255);
  let first_neighbors := undirected_row_into outgoing incoming (as_u32 first) in
  let second_start := partition_point (λ e : Z * Z, e.1 <=? as_u32 first) first_neighbors in
  each (triangle_second first_neighbors) count (enumerate (drop second_start first_neighbors)).

Definition triangle_count_range_cancellable (start end_ : Z) : Checked Z :=
  _ ← step (validate_pair outgoing incoming);
  if (end_ <? start) || (node_count outgoing <? end_) then step (Err (Error_internal "triangle vertex range is invalid"))
  else
    _ ← call check;
    count ← each triangle_first 0 (seqZ start (end_ - start));
    _ ← call check;
    mret count.

Definition triangle_count_cancellable : Checked Z := triangle_count_range_cancellable 0 (node_count outgoing).

(** ** Core numbers *)

(** [BinaryHeap<Reverse<(usize, usize)>>]: the least pair is popped; equal
    pairs cannot be told apart, so the heap is its items in order. *)
Fixpoint heap_push (heap : list (Z * Z)) (x : Z * Z) : list (Z * Z) :=
  match heap with
  | [] => [x]
  | y :: heap' => if bool_decide (pair_le x y) then x :: heap else y :: heap_push heap' x
  end.

Definition degree_push (degrees : list Z) (node : Z) : Checked (list Z) :=
  _ ← call_if check (masked node 1023);
  mret (degrees ++ [zlen (undirected_row_into outgoing incoming (as_u32 node))]).

(** One neighbour of a removed node. *)
Definition peel_neighbor (removed : list bool) (current : Z) (s : list Z * list (Z * Z)) (entry : Z * Z)
    : Checked (list Z * list (Z * Z)) :=
  let '(degrees, heap) := s in
  gone ← step (index_at removed entry.1);
  if gone : bool then mret s
  else
    d ← step (index_at degrees entry.1);
    if current <? d then
      degrees ← step (index_set degrees entry.1 (d - 1));
      mret (degrees, heap_push heap (d - 1, entry.1))
    else mret s.

Fixpoint peel_loop (fuel : nat) (degrees : list Z) (removed : list bool) (core : list Z) (heap : list (Z * Z)) (current : Z)
    : Checked (list Z) :=
  match fuel with
  | O => step (Abort OutOfFuel)
  | S fuel =>
      match heap with
      | [] => mret core
      | (candidate, node) :: heap =>
          _ ← call_if check (masked node 1023);
          gone ← step (index_at removed node);
          d ← step (index_at degrees node);
          if gone || negb (d =? candidate) then peel_loop fuel degrees removed core heap current
          else
            removed ← step (index_set removed node true);
            let current := Z.max current candidate in
            number ← step (ok_or (u32_try_from current) (budget "core number overflow"));
            core ← step (index_set core node number);
            '(degrees, heap) ← each (peel_neighbor removed current) (degrees, heap)
              (undirected_row_into outgoing incoming (as_u32 node));
            peel_loop fuel degrees removed core heap current
      end
  end.

(** Every node is pushed once, and once for every unit its degree loses. *)
Definition k_core_cancellable : Checked (list Z) :=
  _ ← step (validate_pair outgoing incoming);
  _ ← call check;
  let n := node_count outgoing in
  degrees ← each degree_push [] (seqZ 0 n);
  let heap := sort_pairs ((λ '(node, d), (d, node)) <$> enumerate degrees) in
  let fuel := S (length heap + Z.to_nat (foldr Z.add 0 degrees)) in
  core ← peel_loop fuel degrees (replicate (Z.to_nat n) false) (replicate (Z.to_nat n) 0) heap 0;
  _ ← call check;
  mret core.
End undirected.

Definition triangle_count (outgoing incoming : AdjacencyRead) : Result Z :=
  run (triangle_count_cancellable never outgoing incoming).
Definition k_core (outgoing incoming : AdjacencyRead) : Result (list Z) :=
  run (k_core_cancellable never outgoing incoming).
