(* ===== verification/UndirectedTheorems.v ===== *)
(** * Undirected algorithms: theorems

    Rows without directions, and the count of triangles: every triangle is
    counted once. *)

From stdpp Require Import functions relations prelude gmap strings sorting list.
From Stdlib Require Import ZArith Lia.
From S2P Require Import Prelude Machine Types Shared Csr CsrTheorems Algorithms Layers SearchTheorems DepthTheorems Components Kosaraju ComponentsTheorems ComponentsCanonical Undirected.

Local Open Scope Z_scope.
#[local] Set Warnings "-clear-no-such-hyp".

(** ** Rows *)

Section dedup.
Context {A : Type} (key : A → Z).
Abbreviation ordered := (StronglySorted (λ x y, key x ≤ key y)).

Lemma dedup_from_spec last l :
  ordered l → (∀ x, x ∈ l → last ≤ key x) →
  let d := dedup_from key last l in
  StronglySorted Z.lt (key <$> d) ∧ (∀ x, x ∈ d → last < key x) ∧ ∀ k, k ∈ key <$> d ↔ k ∈ key <$> l ∧ k ≠ last.
Proof.
  intros Hs. revert last. induction Hs as [|x l Hs IH Hall]; intros last Hl; [cbn; split_and!; [constructor|set_solver..]|].
  rewrite list.Forall_forall in Hall. assert (last ≤ key x) as Hx by (apply Hl; by left). cbn. destruct (Z.eqb_spec (key x) last) as [<-|Hne].
  - destruct (IH (key x) Hall) as (Hd & Hgt & Hin). split_and!; [done..|]. intros k. rewrite Hin. set_solver.
  - destruct (IH (key x) Hall) as (Hd & Hgt & Hin). split_and!.
    + cbn. constructor; [done|]. apply list.Forall_forall. intros k (y & -> & Hy)%list_elem_of_fmap. by apply Hgt.
    + intros y [->|Hy]%elem_of_cons; [lia|]. specialize (Hgt y Hy). lia.
    + intros k. cbn. rewrite !elem_of_cons, Hin. split; [|intros [[->|?] ?]; [by left|]].
      * intros [->|[Hk Hne']]; [split; [by left|done]|]. split; [by right|].
        apply list_elem_of_fmap in Hk as (y & -> & Hy). specialize (Hall y Hy). lia.
      * destruct (decide (k = key x)); [by left|by right].
Qed.

Lemma dedup_spec l :
  ordered l → StronglySorted Z.lt (key <$> dedup_by_key key l) ∧ ∀ k, k ∈ key <$> dedup_by_key key l ↔ k ∈ key <$> l.
Proof.
  intros Hs. destruct Hs as [|x l Hs Hall]; [split; [constructor|done]|]. rewrite list.Forall_forall in Hall. cbn.
  destruct (dedup_from_spec (key x) l Hs Hall) as (Hd & Hgt & Hin). split.
  - constructor; [done|]. apply list.Forall_forall. intros k (y & -> & Hy)%list_elem_of_fmap. by apply Hgt.
  - intros k. rewrite !elem_of_cons, Hin. destruct (decide (k = key x)); naive_solver.
Qed.
End dedup.

(** The neighbours of a node, of either direction. *)
Definition near (outgoing incoming : AdjacencyRead) (u : Z) : list Z := (undirected_row_into outgoing incoming u).*1.

Lemma near_spec outgoing incoming u :
  StronglySorted Z.lt (near outgoing incoming u)
  ∧ ∀ v, v ∈ near outgoing incoming u ↔ v ≠ u ∧ (edge outgoing u v ∨ edge incoming u v).
Proof.
  unfold near, undirected_row_into. set (l := append_row incoming u (append_row outgoing u [])).
  destruct (dedup_spec fst (sort_pairs (filter (λ e, e.1 ≠ u) l))) as [Hs Hin].
  { generalize (sort_pairs_sorted (filter (λ e, e.1 ≠ u) l)). generalize (sort_pairs (filter (λ e, e.1 ≠ u) l)).
    intros k. induction 1 as [|x k Hk IH Hall]; constructor; [done|]. apply (Forall_impl _ _ _ Hall). unfold pair_le. lia. }
  split; [done|]. intros v. rewrite Hin, list_elem_of_fmap, !edge_row.
  assert (∀ x, x ∈ l ↔ (∃ r, read_row outgoing u = Some r ∧ x ∈ r) ∨ (∃ r, read_row incoming u = Some r ∧ x ∈ r)) as Hl.
  { intros x. unfold l, append_row. destruct (read_row outgoing u), (read_row incoming u); set_solver. }
  setoid_rewrite elem_of_sort_pairs. setoid_rewrite list_elem_of_filter. setoid_rewrite Hl. split.
  - intros ([v' e] & -> & Hne & [(r & ? & ?)|(r & ? & ?)]); (split; [done|]); [left|right]; by exists r, e.
  - intros [Hne [(r & e & ? & ?)|(r & e & ? & ?)]]; exists (v, e); (split_and!; [done..|]); [left|right]; by exists r.
Qed.

(** The row of plain numbers is the same. *)
Lemma undirected_row_near outgoing incoming u : undirected_row outgoing incoming u = near outgoing incoming u.
Proof.
  destruct (near_spec outgoing incoming u) as [Hs Hin]. unfold undirected_row. set (l := _ ++ _).
  destruct (dedup_spec id (merge_sort Z.le l)) as [Hs' Hin'].
  { apply (StronglySorted_merge_sort Z.le). }
  rewrite list_fmap_id in Hs', Hin'. apply (StronglySorted_unique_strong Z.lt); [lia|done|done|].
  apply NoDup_Permutation; [by apply ascending_NoDup..|]. intros v. rewrite Hin', Hin, list_fmap_id, merge_sort_Permutation.
  assert (∀ a, v ∈ match read_row a u with Some r => filter (λ v, v ≠ u) r.*1 | None => [] end ↔ v ≠ u ∧ edge a u v) as Ha.
  { intros a. rewrite edge_row. destruct (read_row a u) as [r|]; [rewrite list_elem_of_filter, list_elem_of_fmap|]; split.
    - intros (Hne & [v' e] & -> & He). split; [done|]. by exists r, e.
    - intros (Hne & r' & e & [= <-] & He). split; [done|]. by exists (v, e).
    - by intros ?%elem_of_nil.
    - by intros (_ & r & e & ? & _). }
  unfold l. rewrite elem_of_app, !Ha. tauto.
Qed.

(** ** Common neighbours *)

Abbreviation ascending l := (StronglySorted Z.lt l).

Lemma ascending_cons x l : ascending (x :: l) → ascending l ∧ ∀ y, y ∈ l → x < y.
Proof. intros [Hs Hall]%StronglySorted_inv. by rewrite list.Forall_forall in Hall. Qed.

Lemma filter_skip (x : Z) (l r : list Z) : x ∉ l → filter (λ v, v ∈ x :: r) l = filter (λ v, v ∈ r) l.
Proof.
  induction l as [|y l IH]; intros Hx; [done|]. rewrite !filter_cons, IH by set_solver. apply decide_ext. set_solver.
Qed.

Lemma intersect_spec check fuel left right steps count :
  ascending left.*1 → ascending right.*1 → (length left + length right < fuel)%nat →
  checks check (intersect check fuel left right steps count)
    (λ k, k = count + zlen (filter (λ v, v ∈ right.*1) left.*1)).
Proof.
  revert left right steps count. induction fuel as [|fuel IH]; intros left right steps count Hl Hr Hf; [lia|].
  cbn [intersect]. destruct left as [|x left]; [apply checks_ret; cbn; rewrite zlen_nil; lia|].
  destruct right as [|y right].
  { apply checks_ret. rewrite filter_none; [change (zlen []) with 0; lia|]. apply list.Forall_forall. intros v _ ?%elem_of_nil. done. }
  eapply checks_bind; [by apply (checks_call_if _ _ (λ _, True))|]. intros _ _.
  change ((x :: left).*1) with (x.1 :: left.*1) in *. change ((y :: right).*1) with (y.1 :: right.*1) in *.
  destruct (ascending_cons _ _ Hl) as [Hl' Hxl], (ascending_cons _ _ Hr) as [Hr' Hyr]. cbn [length] in Hf.
  destruct (Z.compare_spec x.1 y.1) as [Heq|Hlt|Hgt].
  - eapply checks_mono; [apply (IH left right); [done..|lia]|]. intros k ->.
    rewrite filter_cons_True by (rewrite Heq; by left). rewrite zlen_cons, filter_skip; [lia|]. intros Hin. specialize (Hxl _ Hin). lia.
  - eapply checks_mono; [apply (IH left (y :: right)); [done..|cbn; lia]|]. intros k ->.
    rewrite (filter_cons_False _ x.1); [done|]. intros [?|Hin]%elem_of_cons; [lia|]. specialize (Hyr _ Hin). lia.
  - eapply checks_mono; [apply (IH (x :: left) right); [done..|cbn; lia]|]. intros k ->.
    change ((x :: left).*1) with (x.1 :: left.*1). rewrite (filter_skip y.1 (x.1 :: left.*1)); [done|].
    intros [?|Hin]%elem_of_cons; [lia|]. specialize (Hxl _ Hin). lia.
Qed.

(** The items above a bound. *)
Lemma partition_drop (s : Z) (l : list (Z * Z)) :
  ascending l.*1 → (drop (partition_point (λ e : Z * Z, e.1 <=? s) l) l).*1 = filter (λ v, s < v) l.*1.
Proof.
  induction l as [|x l IH]; intros Hs; [done|]. change ((x :: l).*1) with (x.1 :: l.*1) in *.
  destruct (ascending_cons _ _ Hs) as [Hs' Hx]. cbn [partition_point]. destruct (Z.leb_spec x.1 s) as [Hle|Hgt].
  - cbn [drop]. rewrite filter_cons_False by lia. by apply IH.
  - cbn [drop]. symmetry. apply filter_all. apply Forall_cons. split; [lia|]. apply list.Forall_forall. intros v Hv. specialize (Hx v Hv). lia.
Qed.

Lemma snd_enumerate {A} (l : list A) : (enumerate l).*2 = l.
Proof. unfold enumerate. apply snd_zip. rewrite length_seqZ. unfold zlen. lia. Qed.

Lemma bind_prefix_le {A B} (f : A → list B) (done : list A) x (rest : list A) :
  zlen (done ≫= f) + zlen (f x) ≤ zlen ((done ++ x :: rest) ≫= f).
Proof. rewrite bind_app, zlen_app. cbn. rewrite zlen_app. pose proof (zlen_nonneg (rest ≫= f)). unfold zlen in *. lia. Qed.

Section triangles.
Context (check : Check) (outgoing incoming : AdjacencyRead).
Hypothesis pair_ok : transposes outgoing incoming.
Abbreviation n := (node_count outgoing).
Abbreviation N := (near outgoing incoming).

(** The third nodes of the triangles with [i] and [j]. *)
Definition thirds (i j : Z) : list Z := filter (λ k, k ∈ filter (λ k, j < k) (N j)) (filter (λ k, j < k) (N i)).

Lemma triangle_second_spec i count entry :
  count + zlen (thirds i entry.2.1) ≤ u64_max →
  checks check (triangle_second check outgoing incoming (undirected_row_into outgoing incoming i) count entry)
    (λ c, c = count + zlen (thirds i entry.2.1)).
Proof.
  intros Hfit. destruct entry as [position [j e]]. cbn [snd fst] in *. unfold triangle_second.
  eapply checks_bind; [by apply (checks_call_if _ _ (λ _, True))|]. intros _ _.
  pose proof (proj1 (near_spec outgoing incoming i)) as Hi. pose proof (proj1 (near_spec outgoing incoming j)) as Hj.
  pose proof (partition_drop j _ Hi) as Hdi. pose proof (partition_drop j _ Hj) as Hdj.
  destruct (Nat.eqb_spec (partition_point (λ e : Z * Z, e.1 <=? j) (undirected_row_into outgoing incoming i))
    (length (undirected_row_into outgoing incoming i))) as [Hall|_].
  - apply checks_ret. rewrite Hall, drop_all in Hdi. unfold thirds.
    change (N i) with ((undirected_row_into outgoing incoming i).*1). rewrite <- Hdi. cbn. rewrite zlen_nil. lia.
  - eapply checks_bind.
    { apply (intersect_spec check); [rewrite Hdi|rewrite Hdj|lia]; by apply StronglySorted_filter. }
    intros k ->. rewrite Hdi, Hdj. fold (near outgoing incoming i) (near outgoing incoming j). fold (thirds i j).
    eapply checks_step; [|reflexivity]. unfold checked_add. by rewrite (proj2 (Z.leb_le _ _)).
Qed.

(** The triangles with the smallest node [i]. *)
Definition triangles_at (i : Z) : list (Z * Z * Z) :=
  filter (λ j, i < j) (N i) ≫= λ j, (λ k, (i, j, k)) <$> thirds i j.
Definition triangles (start end_ : Z) : list (Z * Z * Z) := seqZ start (end_ - start) ≫= triangles_at.

Lemma triangle_first_spec count i :
  0 ≤ i < n → count + zlen (triangles_at i) ≤ u64_max →
  checks check (triangle_first check outgoing incoming count i) (λ c, c = count + zlen (triangles_at i)).
Proof.
  intros Hi Hfit. unfold triangle_first. eapply checks_bind; [by apply (checks_call_if _ _ (λ _, True))|]. intros _ _.
  destruct pair_ok as [Hout _ _ _ Hu32]. rewrite (as_u32_node outgoing Hout Hu32 i Hi). set (l := drop _ _).
  assert (l.*1 = filter (λ j, i < j) (N i)) as Hl by (apply partition_drop, near_spec).
  eapply checks_mono.
  - apply (checks_each check _ _ _ (λ done c, c = count + zlen (done.*2.*1 ≫= λ j, (λ k, (i, j, k)) <$> thirds i j))).
    + cbn. rewrite zlen_nil. lia.
    + intros done x rest c Heq ->. rewrite fmap_app, fmap_app, bind_app, zlen_app. cbn [fmap list_fmap mbind list_bind].
      rewrite app_nil_r. assert (zlen ((λ k, (i, x.2.1, k)) <$> thirds i x.2.1) = zlen (thirds i x.2.1)) as Hz by (unfold zlen; by rewrite length_fmap).
      rewrite Hz, Z.add_assoc. apply triangle_second_spec.
      assert (filter (λ j, i < j) (N i) = done.*2.*1 ++ x.2.1 :: rest.*2.*1) as Hsplit.
      { rewrite <- Hl. rewrite <- (snd_enumerate l), Heq, !fmap_app. done. }
      unfold triangles_at in Hfit. rewrite Hsplit in Hfit.
      pose proof (bind_prefix_le (λ j, (λ k, (i, j, k)) <$> thirds i j) done.*2.*1 x.2.1 rest.*2.*1) as Hp.
      cbn beta in Hp. rewrite Hz in Hp. lia.
  - intros c ->. unfold triangles_at. by rewrite snd_enumerate, Hl.
Qed.

Lemma triangle_range_spec start end_ :
  0 ≤ start ≤ end_ → end_ ≤ n → zlen (triangles start end_) ≤ u64_max →
  checks check (triangle_count_range_cancellable check outgoing incoming start end_) (λ c, c = zlen (triangles start end_)).
Proof.
  intros Hr Hn Hfit. unfold triangle_count_range_cancellable, validate_pair.
  rewrite (transposes_nodes _ _ pair_ok), Z.eqb_refl.
  eapply checks_bind; [by eapply (checks_step _ _ _ (λ _, True))|]. intros _ _.
  rewrite (proj2 (Z.ltb_ge end_ start)), (proj2 (Z.ltb_ge n end_)) by lia. cbn [orb].
  eapply checks_bind; [by apply (checks_call _ (λ _, True))|]. intros _ _.
  eapply checks_bind.
  { apply (checks_each check _ _ _ (λ done c, c = zlen (done ≫= triangles_at))); [done|].
    intros done i rest c Heq ->. rewrite bind_app, zlen_app. cbn [mbind list_bind]. rewrite app_nil_r.
    assert (i ∈ seqZ start (end_ - start)) as Hi%elem_of_seqZ by (rewrite Heq; set_solver).
    apply triangle_first_spec; [lia|]. unfold triangles in Hfit. rewrite Heq in Hfit.
    pose proof (bind_prefix_le triangles_at done i rest). lia. }
  intros c ->. eapply checks_bind; [by apply (checks_call _ (λ _, True))|]. intros _ _. by apply checks_ret.
Qed.

(** Two nodes joined by an edge of some direction. *)
Definition joined (u v : Z) : Prop := u ≠ v ∧ sc (edge outgoing) u v.

Lemma elem_of_near u v : v ∈ N u ↔ joined u v.
Proof.
  rewrite (proj2 (near_spec outgoing incoming u)). unfold joined, sc. rewrite (transposes_edges _ _ pair_ok v u). naive_solver.
Qed.

Lemma elem_of_triangles start end_ i j k :
  (i, j, k) ∈ triangles start end_ ↔ start ≤ i < end_ ∧ i < j < k ∧ joined i j ∧ joined i k ∧ joined j k.
Proof.
  unfold triangles, triangles_at, thirds. rewrite list_elem_of_bind. setoid_rewrite elem_of_seqZ. split.
  - intros (i' & (j' & (k' & Heq & Hk)%list_elem_of_fmap & Hj)%list_elem_of_bind & Hi). simplify_eq.
    apply list_elem_of_filter in Hk as [[Hjk HNj]%list_elem_of_filter [_ HNi]%list_elem_of_filter], Hj as [Hij Hj].
    apply elem_of_near in HNj, HNi, Hj. split_and!; (done || lia).
  - intros (Hi & Hij & H1 & H2 & H3). exists i. split; [|lia]. apply list_elem_of_bind. exists j. split.
    + apply list_elem_of_fmap. exists k. split; [done|].
      apply list_elem_of_filter; split; apply list_elem_of_filter; rewrite elem_of_near; (split; [lia|done]).
    + rewrite list_elem_of_filter, elem_of_near. split; [lia|done].
Qed.

Lemma NoDup_triangles start end_ : NoDup (triangles start end_).
Proof.
  assert (∀ u, NoDup (N u)) as HN by (intros u; apply ascending_NoDup, near_spec).
  apply NoDup_bind; [|intros i _; apply NoDup_bind|apply NoDup_seqZ].
  - intros i i' [[a b] c] _ _ (j & (k & ? & _)%list_elem_of_fmap & _)%list_elem_of_bind (j' & (k' & ? & _)%list_elem_of_fmap & _)%list_elem_of_bind.
    congruence.
  - intros j j' [[a b] c] _ _ (k & ? & _)%list_elem_of_fmap (k' & ? & _)%list_elem_of_fmap. congruence.
  - intros j _. apply NoDup_fmap_2; [intros k k' ?; congruence|]. unfold thirds. by repeat apply NoDup_filter.
  - by apply NoDup_filter.
Qed.
End triangles.

(** C19: counting triangles counts every triangle of the graph without
    directions once: the result for a range of nodes is the number of sets of
    three nodes joined to each other whose smallest is in the range, so that
    the results of disjoint ranges add up.  Whatever the callback answers, the
    computation ends with this result or with an error of the callback. *)
Theorem triangles_counted_once check outgoing incoming start middle end_ :
  transposes outgoing incoming → 0 ≤ start ≤ middle → middle ≤ end_ ≤ node_count outgoing →
  let is_triangle i j k := i < j < k ∧ joined outgoing i j ∧ joined outgoing i k ∧ joined outgoing j k in
  let ts := triangles outgoing incoming start end_ in
  NoDup ts ∧ (∀ i j k, (i, j, k) ∈ ts ↔ start ≤ i < end_ ∧ is_triangle i j k)
  ∧ (zlen ts ≤ u64_max →
     returns check (triangle_count_range_cancellable check outgoing incoming start end_) (λ c, c = zlen ts)
     ∧ ∃ a b, run (triangle_count_range_cancellable never outgoing incoming start middle) = Ok a
         ∧ run (triangle_count_range_cancellable never outgoing incoming middle end_) = Ok b
         ∧ run (triangle_count_range_cancellable never outgoing incoming start end_) = Ok (a + b))
  ∧ (zlen ts ≤ u64_max → start = 0 → end_ = node_count outgoing → triangle_count outgoing incoming = Ok (zlen ts)).
Proof.
  intros Hp Hs Hm is_triangle ts. unfold ts.
  split_and!; [apply NoDup_triangles|intros i j k; by apply elem_of_triangles|..].
  - intros Hfit. assert (triangles outgoing incoming start end_
      = triangles outgoing incoming start middle ++ triangles outgoing incoming middle end_) as Hsplit.
    { unfold triangles. rewrite <- bind_app. f_equal. replace (end_ - start) with ((middle - start) + (end_ - middle)) by lia.
      rewrite seqZ_app by lia. do 2 f_equal; lia. }
    split; [by apply checks_run, triangle_range_spec; [done|lia..|]|].
    rewrite Hsplit, zlen_app in Hfit.
    pose proof (zlen_nonneg (triangles outgoing incoming start middle)). pose proof (zlen_nonneg (triangles outgoing incoming middle end_)).
    destruct (checks_never _ _ (triangle_range_spec never _ _ Hp start middle ltac:(lia) ltac:(lia) ltac:(lia))) as (a & Ha & ->).
    destruct (checks_never _ _ (triangle_range_spec never _ _ Hp middle end_ ltac:(lia) ltac:(lia) ltac:(lia))) as (b & Hb & ->).
    destruct (checks_never _ _ (triangle_range_spec never _ _ Hp start end_ ltac:(lia) ltac:(lia)
      ltac:(by rewrite Hsplit, zlen_app))) as (c & Hc & ->).
    eexists _, _. split_and!; [done..|]. by rewrite Hc, Hsplit, zlen_app.
  - intros Hfit -> ->. destruct (checks_never _ _ (triangle_range_spec never _ _ Hp 0 (node_count outgoing) ltac:(lia) ltac:(lia) Hfit)) as (c & Hc & ->).
    exact Hc.
Qed.

(** Two triangles with an edge in common, one edge twice. *)
Definition wings_edges : list (Z * Z * Z) := [(0, 1, 1); (1, 2, 2); (2, 0, 3); (1, 0, 4); (3, 0, 5); (1, 3, 6); (4, 3, 7); (4, 4, 8)].
Definition wings_out : Csr := match build 5 wings_edges with Ok c => c | _ => Csr_default end.
Definition wings_in : Csr := match build_transposed 5 wings_edges with Ok c => c | _ => Csr_default end.

Lemma wings_transposes : transposes (csr_read wings_out) (csr_read wings_in).
Proof.
  destruct (built_transposes 5 wings_edges) as (out & inc & Ho & Hi & Ht & _); [rlia|decided|vm_compute; discriminate|decided..|].
  unfold wings_out, wings_in. by rewrite Ho, Hi.
Qed.

Lemma triangles_counted_once_witness :
  triangle_count (csr_read wings_out) (csr_read wings_in) = Ok 2
  ∧ ∃ a b, run (triangle_count_range_cancellable never (csr_read wings_out) (csr_read wings_in) 0 2) = Ok a
      ∧ run (triangle_count_range_cancellable never (csr_read wings_out) (csr_read wings_in) 2 5) = Ok b.
Proof.
  destruct (triangles_counted_once never _ _ 0 2 5 wings_transposes) as (_ & _ & Hr & Ht); [lia|vm_compute; split; discriminate|].
  assert (zlen (triangles (csr_read wings_out) (csr_read wings_in) 0 5) = 2) as Hl by (vm_compute; reflexivity).
  rewrite Hl in Hr, Ht. split; [by apply Ht; rlia || done|].
  destruct (Hr ltac:(rlia)) as [_ (a & b & Ha & Hb & _)]. exists a, b. split; [exact Ha|exact Hb].
Defined.
