(* ===== verification/CoreTheorems.v ===== *)
(** * Core numbers: theorems

    Removing nodes in the order of their degrees, kept from falling below the
    current level, gives every node the largest [k] for which it is in a set
    of nodes each joined to at least [k] others of the set. *)

From stdpp Require Import functions relations prelude gmap strings sorting list.
From Stdlib Require Import ZArith Lia.
From S2P Require Import Prelude Machine Types Shared Csr CsrTheorems Algorithms Layers SearchTheorems DepthTheorems Components Kosaraju ComponentsTheorems ComponentsCanonical Undirected UndirectedTheorems.

Local Open Scope Z_scope.
#[local] Set Warnings "-clear-no-such-hyp".

(** ** The heap *)

Lemma elem_of_heap_push heap x y : y ∈ heap_push heap x ↔ y = x ∨ y ∈ heap.
Proof. induction heap as [|z heap IH]; cbn; [set_solver|]. case_bool_decide; set_solver. Qed.

Lemma length_heap_push heap x : length (heap_push heap x) = S (length heap).
Proof. induction heap as [|z heap IH]; cbn; [done|]. case_bool_decide; cbn; lia. Qed.

Lemma heap_push_sorted heap x : StronglySorted pair_le heap → StronglySorted pair_le (heap_push heap x).
Proof.
  induction 1 as [|y heap Hs IH Hall]; cbn; [repeat constructor|]. case_bool_decide as Hxy.
  - constructor; [by constructor|]. constructor; [done|]. apply (Forall_impl _ _ _ Hall). intros z Hz. by etrans.
  - constructor; [done|]. apply list.Forall_forall. intros z [->|Hz]%elem_of_heap_push.
    + by destruct (total pair_le x y).
    + by apply (proj1 (list.Forall_forall _ _) Hall).
Qed.

Lemma sum_insert (l : list Z) i x y : l !! i = Some x → foldr Z.add 0 (<[i := y]> l) = foldr Z.add 0 l - x + y.
Proof.
  revert i. induction l as [|z l IH]; intros [|i] Hi; [done..| |]; cbn in Hi.
  - simplify_eq. change (<[O := y]> (x :: l)) with (y :: l). cbn [foldr]. lia.
  - change (<[S i := y]> (z :: l)) with (z :: <[i := y]> l). cbn [foldr]. rewrite (IH i Hi). lia.
Qed.

Lemma sum_nonneg (n : Z) (l : list Z) D : holds n l D → (∀ v, 0 ≤ v < n → 0 ≤ D v) → 0 ≤ foldr Z.add 0 l.
Proof.
  intros [Hl Hg] Hpos. assert (∀ x, x ∈ l → 0 ≤ x) as Hall.
  { intros x [i Hi]%list_elem_of_lookup. pose proof (lookup_lt_Some _ _ _ Hi). assert (0 ≤ Z.of_nat i < n) as Hin by (unfold zlen in Hl; lia).
    specialize (Hg _ Hin). rewrite Nat2Z.id, Hi in Hg. simplify_eq. by apply Hpos. }
  clear -Hall. induction l as [|d l IH]; cbn; [done|]. specialize (IH ltac:(set_solver)). specialize (Hall d ltac:(by left)). lia.
Qed.

(** ** Peeling *)

Section peel.
(** Neighbours of the graph without directions. *)
Context (n : Z) (N : Z → list Z).
Hypothesis N_nodup : ∀ u, NoDup (N u).
Hypothesis N_sym : ∀ u v, v ∈ N u → u ∈ N v.
Hypothesis N_nodes : ∀ u v, v ∈ N u → 0 ≤ v < n.

(** Every node of [H] is joined to at least [k] nodes of [H]. *)
Definition dense (H : list Z) (k : Z) : Prop := ∀ u, u ∈ H → k ≤ zlen (filter (λ v, v ∈ H) (N u)).

(** The largest [k] for which [v] is in such a set. *)
Definition core_number (v k : Z) : Prop :=
  (∃ H, v ∈ H ∧ dense H k) ∧ ∀ H k', v ∈ H → dense H k' → k' ≤ k.

(** The neighbours left when [X] is removed. *)
Definition residual (X : list Z) (u : Z) : Z := zlen (filter (λ v, v ∉ X) (N u)).

Lemma residual_remove X w u :
  w ∉ X → residual (X ++ [w]) u = residual X u - (if decide (w ∈ N u) then 1 else 0).
Proof.
  intros Hw. unfold residual. specialize (N_nodup u). generalize dependent (N u). intros l. induction l as [|v l IH]; intros Hnd.
  - rewrite decide_False by set_solver. done.
  - apply list.NoDup_cons in Hnd as [Hv Hnd]. specialize (IH Hnd). destruct (decide (v = w)) as [->|Hne].
    + rewrite (decide_True (P := w ∈ w :: l)) by (by left). rewrite decide_False in IH by done.
      rewrite filter_cons_False by set_solver. rewrite filter_cons_True, zlen_cons by done. lia.
    + rewrite (decide_ext (w ∈ v :: l) (w ∈ l)) by set_solver.
      destruct (decide (v ∈ X)); [rewrite !filter_cons_False by set_solver; done|].
      rewrite !filter_cons_True, !zlen_cons by set_solver. lia.
Qed.

Lemma filter_le (P Q : Z → Prop) `{!∀ v, Decision (P v), !∀ v, Decision (Q v)} l :
  (∀ v, v ∈ l → P v → Q v) → zlen (filter P l) ≤ zlen (filter Q l).
Proof.
  induction l as [|v l IH]; intros HPQ; [done|]. specialize (IH ltac:(set_solver)). rewrite !filter_cons.
  specialize (HPQ v ltac:(by left)). repeat case_decide; rewrite ?zlen_cons; try lia. tauto.
Qed.

(** A degree kept from falling below the level [c]. *)
Definition kept (c d r : Z) : Prop := (c < d → d = r) ∧ (d ≤ c → r ≤ c).

Record peeled (X : list Z) (D K : Z → Z) (c : Z) : Prop := {
  peeled_level : 0 ≤ c ≤ n;
  peeled_degree u : 0 ≤ u < n → u ∉ X → 0 ≤ D u ≤ n ∧ kept c (D u) (residual X u);
  peeled_dense v : v ∈ X → ∃ H, v ∈ H ∧ dense H (K v);
  peeled_left : ∃ H, (∀ u, 0 ≤ u < n → u ∉ X → u ∈ H) ∧ dense H c;
  peeled_bound H k : dense H k → (∃ w, w ∈ H ∧ w ∈ X) → k ≤ c ∧ ∀ v, v ∈ H → v ∈ X → k ≤ K v;
}.

(** The heap has the degree of every node left. *)
Definition heap_has (X : list Z) (D : Z → Z) (heap : list (Z * Z)) : Prop :=
  StronglySorted pair_le heap ∧ (∀ x, x ∈ heap → 0 ≤ x.2 < n) ∧ ∀ u, 0 ≤ u < n → u ∉ X → (D u, u) ∈ heap.

Lemma heap_pop X X' D q w heap :
  heap_has X D ((q, w) :: heap) → (∀ u, u ∉ X' → (u ∉ X) ∧ (D u, u) ≠ (q, w)) → heap_has X' D heap.
Proof.
  intros (Hsort & Hr & Hhas) HX. apply StronglySorted_inv in Hsort as [Hsort _]. split_and!; [done|intros x Hx; apply Hr; by right|].
  intros u Hu HuX. destruct (HX u HuX) as [HuX' Hne]. specialize (Hhas u Hu HuX'). by apply elem_of_cons in Hhas as [?|?].
Qed.

Lemma peel_level X D K c heap q w :
  peeled X D K c → heap_has X D ((q, w) :: heap) → 0 ≤ w < n → w ∉ X → D w = q →
  (∃ H, (∀ u, 0 ≤ u < n → u ∉ X → u ∈ H) ∧ dense H (Z.max c q)) ∧ residual X w ≤ Z.max c q.
Proof.
  intros [Hc Hd Ha (H & HH & Hdense) Hb] (Hsort & _ & Hheap) Hw HwX HD.
  assert (∀ u, 0 ≤ u < n → u ∉ X → q ≤ D u) as Hmin.
  { intros u Hu HuX. specialize (Hheap u Hu HuX). apply StronglySorted_inv in Hsort as [_ Hall].
    apply elem_of_cons in Hheap as [Heq|Hin]; [simplify_eq; lia|].
    pose proof (proj1 (list.Forall_forall _ _) Hall _ Hin) as Hle. unfold pair_le in Hle. cbn in Hle. lia. }
  split.
  - destruct (decide (q ≤ c)) as [Hle|Hgt]; [rewrite Z.max_l by lia; by exists H|]. rewrite Z.max_r by lia.
    exists (filter (λ u, u ∉ X) (seqZ 0 n)). split; [intros u Hu HuX; apply list_elem_of_filter; split; [done|apply elem_of_seqZ; lia]|].
    intros u [HuX Hu%elem_of_seqZ]%list_elem_of_filter. destruct (Hd u ltac:(lia) HuX) as [_ [Heq _]].
    specialize (Hmin u ltac:(lia) HuX). rewrite Heq in Hmin by lia. etrans; [exact Hmin|]. apply filter_le.
    intros v Hv HvX. apply list_elem_of_filter. split; [done|]. apply elem_of_seqZ. specialize (N_nodes u v Hv). lia.
  - destruct (Hd w Hw HwX) as [_ [H1 H2]]. rewrite HD in *. destruct (decide (q ≤ c)); [specialize (H2 ltac:(done)); lia|].
    specialize (H1 ltac:(lia)). lia.
Qed.

(** Removing the node of the least degree. *)
Lemma peel_remove X D K c heap q w :
  peeled X D K c → heap_has X D ((q, w) :: heap) → 0 ≤ w < n → w ∉ X → D w = q → 
  let c' := Z.max c q in
  0 ≤ c' ≤ n ∧ (∀ u, 0 ≤ u < n → u ∉ X → 0 ≤ D u ≤ n ∧ kept c' (D u) (residual X u))
  ∧ (∀ v, v ∈ X ++ [w] → ∃ H, v ∈ H ∧ dense H (<[w := c']> K v))
  ∧ (∃ H, (∀ u, 0 ≤ u < n → u ∉ X ++ [w] → u ∈ H) ∧ dense H c')
  ∧ ∀ H k, dense H k → (∃ x, x ∈ H ∧ x ∈ X ++ [w]) → k ≤ c' ∧ ∀ v, v ∈ H → v ∈ X ++ [w] → k ≤ <[w := c']> K v.
Proof.
  intros Hp Hheap Hw HwX HD c'. destruct (peel_level _ _ _ _ _ _ _ Hp Hheap Hw HwX HD) as [(H & HH & Hdense) Hres].
  destruct Hp as [Hc Hd Ha _ Hb]. fold c' in Hdense, Hres. assert (c ≤ c') as Hle by lia.
  assert (∀ v x, v ∈ X → <[w := x]> K v = K v) as HK by (intros v x Hv; rewrite fn_lookup_insert_ne; [done|congruence]).
  split_and!.
  - lia.
  - specialize (Hd w Hw HwX). lia.
  - intros u Hu HuX. destruct (Hd u Hu HuX) as [? [H1 H2]]. split; [done|]. split; [intros; apply H1; lia|].
    intros Hdc. destruct (decide (D u ≤ c)) as [Hdc'|]; [specialize (H2 Hdc'); lia|]. specialize (H1 ltac:(lia)). lia.
  - intros v [Hv| ->%list_elem_of_singleton]%elem_of_app; [rewrite HK by done; by apply Ha|].
    exists H. rewrite fn_lookup_insert. split; [by apply HH|done].
  - exists H. split; [|done]. intros u Hu HuX. apply HH; [done|set_solver].
  - intros H' k Hk Hex. assert (k ≤ c') as Hkc.
    { destruct (decide (Exists (λ x, x ∈ X) H')) as [Hx|Hnx].
      - apply Exists_exists in Hx as (x & ? & ?). destruct (Hb H' k Hk) as [? _]; [by exists x|]. lia.
      - assert (w ∈ H') as HwH.
        { destruct Hex as (x & Hx & [HX| ->%list_elem_of_singleton]%elem_of_app); [|done]. destruct Hnx. apply Exists_exists. by exists x. }
        etrans; [by apply (Hk w)|]. etrans; [|exact Hres]. apply filter_le. intros v _ Hv HX. destruct Hnx. apply Exists_exists. by exists v. }
    split; [done|]. intros v Hv [HX| ->%list_elem_of_singleton]%elem_of_app; [|by rewrite fn_lookup_insert].
    rewrite HK by done. destruct (Hb H' k Hk) as [_ Hall]; [by exists v|]. by apply Hall.
Qed.

(** While the neighbours of the removed [w] are looked at; [rest] are left. *)
Definition peeling (X : list Z) (w : Z) (rest : list Z) (D : Z → Z) (c : Z) : Prop :=
  ∀ u, 0 ≤ u < n → u ∉ X ++ [w] →
    0 ≤ D u ≤ n ∧ kept c (D u) (if decide (u ∈ rest) then residual X u else residual (X ++ [w]) u).

Lemma peeling_start X w D c :
  w ∉ X → (∀ u, 0 ≤ u < n → u ∉ X → 0 ≤ D u ≤ n ∧ kept c (D u) (residual X u)) → peeling X w (N w) D c.
Proof.
  intros Hw Hd u Hu HuX. specialize (Hd u Hu ltac:(set_solver)). case_decide as Hin; [done|].
  rewrite residual_remove, decide_False, Z.sub_0_r; [done|naive_solver|done].
Qed.

(** A neighbour removed before. *)
Lemma peeling_gone X w u rest D c : u ∈ X ++ [w] → peeling X w (u :: rest) D c → peeling X w rest D c.
Proof.
  intros Hu Hp x Hx HxX. specialize (Hp x Hx HxX). rewrite (decide_ext (x ∈ u :: rest) (x ∈ rest)) in Hp; [done|set_solver].
Qed.

(** A neighbour that is left: its degree falls unless it is at the level. *)
Lemma peeling_neighbor X w u rest D c :
  0 ≤ c → w ∉ X → u ∈ N w → u ∉ rest → 0 ≤ u < n → u ∉ X ++ [w] → peeling X w (u :: rest) D c →
  peeling X w rest (if c <? D u then <[u := D u - 1]> D else D) c.
Proof.
  intros Hc Hw Hu Hur Hun HuX Hp x Hx HxX. pose proof (Hp x Hx HxX) as [Hr Hk].
  destruct (decide (u = x)) as [<-|Hne].
  - rewrite decide_True in Hk by (by left). rewrite decide_False by done.
    rewrite residual_remove, decide_True by (done || by apply N_sym). destruct (Z.ltb_spec c (D u)) as [Hlt|Hge].
    + rewrite fn_lookup_insert. destruct Hk as [Heq _]. specialize (Heq Hlt). split; [lia|]. split; lia.
    + destruct Hk as [_ Hle]. specialize (Hle Hge). split; [done|]. split; lia.
  - rewrite (decide_ext (x ∈ u :: rest) (x ∈ rest)) in Hk by set_solver.
    assert ((if c <? D u then <[u := D u - 1]> D else D) x = D x) as ->; [|done].
    destruct (c <? D u); [by rewrite fn_lookup_insert_ne|done].
Qed.
End peel.

(** ** The algorithm *)

Section k_core.
Context (check : Check) (outgoing incoming : AdjacencyRead).
Hypothesis pair_ok : transposes outgoing incoming.
Abbreviation n := (node_count outgoing).
Abbreviation N := (near outgoing incoming).

Lemma near_nodup u : NoDup (N u).
Proof. apply ascending_NoDup, near_spec. Qed.

Lemma near_sym u v : v ∈ N u → u ∈ N v.
Proof. rewrite !elem_of_near by done. intros [Hne Hsc]. split; [done|]. by symmetry. Qed.

Lemma near_nodes u v : v ∈ N u → 0 ≤ v < n.
Proof. rewrite elem_of_near by done. intros [_ Hsc]. destruct pair_ok. by apply (weak_nodes outgoing incoming) with u. Qed.

(** The sum that falls with every item popped. *)
Definition work (degrees : list Z) (heap : list (Z * Z)) : Z := zlen heap + foldr Z.add 0 degrees.

Lemma peel_neighbor_spec removed X w c rest D degrees heap m entry :
  holds n removed (λ v, bool_decide (v ∈ X ++ [w])) → 0 ≤ c → w ∉ X → entry.1 ∈ N w → entry.1 ∉ rest →
  peeling n N X w (entry.1 :: rest) D c → holds n degrees D → heap_has n (X ++ [w]) D heap → work degrees heap = m →
  (∀ v, 0 ≤ v < n → 0 ≤ D v) →
  checks check (peel_neighbor removed c (degrees, heap) entry)
    (λ '(degrees', heap'), ∃ D', peeling n N X w rest D' c ∧ holds n degrees' D' ∧ heap_has n (X ++ [w]) D' heap' ∧ work degrees' heap' = m
       ∧ ∀ v, 0 ≤ v < n → 0 ≤ D' v).
Proof.
  intros Hrem Hc Hw HuN Hur Hp Hdeg Hheap Hm Hpos. pose proof (near_nodes _ _ HuN) as Hu. unfold peel_neighbor.
  eapply checks_bind; [eapply (checks_step _ _ _ (λ x, x = bool_decide (entry.1 ∈ X ++ [w]))); [by eapply holds_get|done]|].
  intros ? ->. case_bool_decide as HuX.
  { apply checks_ret. exists D. split_and!; [|done..]. by apply (peeling_gone n N near_nodup near_sym near_nodes X w entry.1). }
  eapply checks_bind; [eapply (checks_step _ _ _ (λ x, x = D entry.1)); [by eapply holds_get|done]|]. intros ? ->.
  pose proof (peeling_neighbor n N near_nodup near_sym near_nodes X w entry.1 rest D c Hc Hw HuN Hur Hu HuX Hp) as Hp'.
  destruct (Z.ltb_spec c (D entry.1)) as [Hlt|_]; [|apply checks_ret; by exists D].
  destruct (holds_set (E := Error) n degrees D entry.1 (D entry.1 - 1) Hdeg Hu) as (degrees' & Hset & Hdeg').
  eapply checks_bind; [eapply (checks_step _ _ _ (λ x, x = degrees')); [exact Hset|done]|]. intros ? ->. apply checks_ret.
  exists (<[entry.1 := D entry.1 - 1]> D). destruct Hheap as (Hsort & Hrange & Hhas). split_and!; [done|done| |..].
  - split_and!; [by apply heap_push_sorted| |].
    + intros x [->|Hx]%elem_of_heap_push; [done|by apply Hrange].
    + intros x Hx HxX. apply elem_of_heap_push. destruct (decide (entry.1 = x)) as [<-|Hne]; [rewrite fn_lookup_insert; by left|].
      rewrite fn_lookup_insert_ne by done. right. by apply Hhas.
  - unfold work, zlen in *. rewrite length_heap_push. rewrite index_set_Ok in Hset by (unfold zlen; destruct Hdeg as [Hl _]; unfold zlen in Hl; lia).
    simplify_eq. rewrite (sum_insert _ _ (D entry.1)); [lia|]. by apply (proj2 Hdeg).
  - intros v Hv. destruct (decide (entry.1 = v)) as [<-|Hne]; [rewrite fn_lookup_insert; lia|]. rewrite fn_lookup_insert_ne by done. by apply Hpos.
Qed.

(** All neighbours of the removed node. *)
Lemma peel_row_spec removed X w c D degrees heap :
  holds n removed (λ v, bool_decide (v ∈ X ++ [w])) → 0 ≤ c → w ∉ X → peeling n N X w (N w) D c →
  holds n degrees D → heap_has n (X ++ [w]) D heap → (∀ v, 0 ≤ v < n → 0 ≤ D v) →
  checks check (each (peel_neighbor removed c) (degrees, heap) (undirected_row_into outgoing incoming w))
    (λ '(degrees', heap'), ∃ D', peeling n N X w [] D' c ∧ holds n degrees' D' ∧ heap_has n (X ++ [w]) D' heap'
       ∧ work degrees' heap' = work degrees heap ∧ ∀ v, 0 ≤ v < n → 0 ≤ D' v).
Proof.
  intros Hrem Hc HwX Hpe0 Hdeg Hheap Hpos. eapply checks_mono.
  - apply (checks_each check _ _ _ (λ done '(degrees', heap'), ∃ rest D', N w = done.*1 ++ rest ∧ peeling n N X w rest D' c
      ∧ holds n degrees' D' ∧ heap_has n (X ++ [w]) D' heap' ∧ work degrees' heap' = work degrees heap
      ∧ ∀ v, 0 ≤ v < n → 0 ≤ D' v)).
    + by exists (N w), D.
    + intros done x tl [degrees' heap'] Heq (rest & D' & HN & Hpe & Hdeg' & Hheap' & Hwork & Hpos').
      assert (rest = x.1 :: tl.*1) as ->.
      { unfold near in HN. rewrite Heq, fmap_app in HN. by apply app_inv_head in HN. }
      pose proof (near_nodup w) as Hnd. rewrite HN in Hnd. apply list.NoDup_app in Hnd as (_ & _ & [Hx _]%list.NoDup_cons).
      assert (x.1 ∈ N w) as HxN by (rewrite HN; apply elem_of_app; right; by left).
      eapply checks_mono; [apply (peel_neighbor_spec removed X w c tl.*1 D' degrees' heap' (work degrees heap) x); (done || lia)|].
      intros [degrees'' heap''] (D'' & Hpe' & Hdeg'' & Hheap'' & Hwork' & Hpos''). exists tl.*1, D''. split_and!; [|done..].
      by rewrite fmap_app, <- app_assoc.
  - intros [degrees' heap'] (rest & D' & HN & H). exists D'.
    assert (rest = []) as -> by (apply (app_inv_head (N w)); by rewrite app_nil_r). done.
Qed.

Lemma peel_loop_spec fuel X D K c degrees removed core heap :
  peeled n N X D K c → heap_has n X D heap → (∀ v, v ∈ X → 0 ≤ v < n) →
  holds n degrees D → holds n removed (λ v, bool_decide (v ∈ X)) → holds n core K → 
  (∀ v, 0 ≤ v < n → 0 ≤ D v) → work degrees heap < Z.of_nat fuel →
  checks check (peel_loop check outgoing incoming fuel degrees removed core heap c)
    (λ core', ∃ K', holds n core' K' ∧ ∀ v, 0 ≤ v < n → core_number N v (K' v)).
Proof.
  revert X D K c degrees removed core heap. induction fuel as [|fuel IH];
    intros X D K c degrees removed core heap Hp Hheap HX Hdeg Hrem Hcore Hpos Hf.
  { exfalso. unfold work in Hf. pose proof (zlen_nonneg heap). pose proof (sum_nonneg n degrees D Hdeg Hpos). lia. }
  cbn [peel_loop]. destruct heap as [|[q w] heap].
  { apply checks_ret. exists K. split; [done|]. intros v Hv. destruct Hheap as (_ & _ & Hhas).
    assert (v ∈ X) as HvX by (destruct (decide (v ∈ X)) as [|Hn]; [done|]; by specialize (Hhas v Hv Hn) as ?%elem_of_nil).
    split; [by apply (peeled_dense _ _ _ _ _ _ Hp)|]. intros H k HvH Hk.
    destruct (peeled_bound _ _ _ _ _ _ Hp H k Hk) as [_ Hall]; [by exists v|]. by apply Hall. }
  assert (0 ≤ w < n) as Hw by (destruct Hheap as (_ & Hr & _); apply (Hr (q, w)); by left).
  eapply checks_bind; [by apply (checks_call_if _ _ (λ _, True))|]. intros _ _.
  eapply checks_bind; [eapply (checks_step _ _ _ (λ x, x = bool_decide (w ∈ X))); [by eapply holds_get|done]|]. intros ? ->.
  eapply checks_bind; [eapply (checks_step _ _ _ (λ x, x = D w)); [by eapply holds_get|done]|]. intros ? ->.
  assert (work degrees heap < Z.of_nat fuel) as Hf' by (unfold work in *; rewrite zlen_cons in Hf; lia).
  destruct (bool_decide (w ∈ X) || negb (D w =? q)) eqn:Hstale.
  { apply (IH X D K); [done| |done..]. apply (heap_pop n X X D q w); [done|]. intros u HuX. split; [done|]. intros [= Hd ->].
    rewrite bool_decide_false, <- Hd, Z.eqb_refl in Hstale by done. done. }
  apply orb_false_iff in Hstale as [HwX%bool_decide_eq_false Hd%negb_false_iff%Z.eqb_eq].
  destruct (holds_set (E := Error) n removed _ w true Hrem Hw) as (removed' & Hset & Hrem').
  eapply checks_bind; [eapply (checks_step _ _ _ (λ x, x = removed')); [exact Hset|done]|]. intros ? ->.
  destruct (peel_remove n N near_nodup near_sym near_nodes X D K c heap q w Hp Hheap Hw HwX Hd) as (Hc' & Hkept & Ha & Hb & Hbound).
  set (c' := Z.max c q) in *.
  eapply checks_bind.
  { eapply (checks_step _ _ _ (λ x, x = c')); [|done]. unfold u32_try_from. destruct pair_ok. by rewrite (proj2 (Z.leb_le c' u32_max)) by lia. }
  intros ? ->. destruct (holds_set (E := Error) n core _ w c' Hcore Hw) as (core' & Hset' & Hcore').
  eapply checks_bind; [eapply (checks_step _ _ _ (λ x, x = core')); [exact Hset'|done]|]. intros ? ->.
  rewrite (as_u32_node outgoing (transposes_out _ _ pair_ok) (transposes_u32 _ _ pair_ok) w Hw).
  assert (holds n removed' (λ v, bool_decide (v ∈ X ++ [w]))) as Hrem''.
  { apply (holds_ext _ _ _ _ Hrem'). intros v _. destruct (decide (w = v)) as [<-|Hne].
    - rewrite fn_lookup_insert, bool_decide_true; [done|]. apply elem_of_app. right. by left.
    - rewrite fn_lookup_insert_ne by done. apply bool_decide_ext. rewrite elem_of_app, list_elem_of_singleton.
      split; [by left|]. intros [?| ->]; [done|by destruct Hne]. }
  eapply checks_bind.
  { apply (peel_row_spec removed' X w c' D degrees heap); [done|lia|done|by apply (peeling_start n N near_nodup near_sym near_nodes)|done| |done].
    apply (heap_pop n X _ D q w); [done|]. intros u [HuX Huw]%not_elem_of_app. split; [done|]. intros [= _ ->]. by destruct Huw; left. }
  intros [degrees' heap'] (D' & Hpe & Hdeg' & Hheap' & Hwork & Hpos').
  apply (IH (X ++ [w]) D' (<[w := c']> K) c'); [|done| |done..|by rewrite Hwork].
  - split; [done| |done..]. intros u Hu HuX. specialize (Hpe u Hu HuX). rewrite decide_False in Hpe by apply not_elem_of_nil. done.
  - intros v [?| ->%list_elem_of_singleton]%elem_of_app; [by apply HX|done].
Qed.

Lemma degrees_spec :
  checks check (each (degree_push check outgoing incoming) [] (seqZ 0 n)) (λ degrees, holds n degrees (λ u, zlen (N u))).
Proof.
  assert (0 ≤ n) as Hn by (destruct (transposes_out _ _ pair_ok) as [? _]; lia). eapply checks_mono.
  - apply (checks_each check _ _ _ (λ done degrees, degrees = (λ u, zlen (N u)) <$> done)); [done|].
    intros done u rest degrees Heq ->. unfold degree_push. eapply checks_bind; [by apply (checks_call_if _ _ (λ _, True))|].
    intros _ _. apply checks_ret. assert (u ∈ seqZ 0 n) as Hu%elem_of_seqZ by (rewrite Heq; set_solver).
    rewrite (as_u32_node outgoing (transposes_out _ _ pair_ok) (transposes_u32 _ _ pair_ok) u) by lia.
    rewrite fmap_app. unfold near, zlen. cbn. by rewrite length_fmap.
  - intros degrees ->. split; [unfold zlen; rewrite length_fmap, length_seqZ; lia|]. intros v Hv.
    rewrite list_lookup_fmap, (proj2 (lookup_seqZ 0 n (Z.to_nat v) v)) by lia. done.
Qed.

Lemma k_core_spec :
  checks check (k_core_cancellable check outgoing incoming)
    (λ core, ∃ K, holds n core K ∧ ∀ v, 0 ≤ v < n → core_number N v (K v)).
Proof.
  unfold k_core_cancellable, validate_pair. rewrite (transposes_nodes _ _ pair_ok), Z.eqb_refl.
  assert (0 ≤ n) as Hn by (destruct (transposes_out _ _ pair_ok) as [? _]; lia).
  eapply checks_bind; [by eapply (checks_step _ _ _ (λ _, True))|]. intros _ _.
  eapply checks_bind; [by apply (checks_call _ (λ _, True))|]. intros _ _.
  eapply checks_bind; [apply degrees_spec|]. intros degrees Hdeg. set (heap := sort_pairs _).
  assert (∀ u, zlen (N u) ≤ n) as Hle.
  { intros u. pose proof (NoDup_range_length (N u) n (near_nodup u) (near_nodes u)). lia. }
  eapply checks_bind.
  { apply (peel_loop_spec _ [] (λ u, zlen (N u)) (λ _, 0) 0).
    - split; [lia| |by intros v ?%elem_of_nil| |by intros H k _ (w & _ & ?%elem_of_nil)].
      + intros u Hu _. split; [split; [apply zlen_nonneg|apply Hle]|].
        assert (residual N [] u = zlen (N u)) as -> by (unfold residual; rewrite filter_all; [done|]; apply list.Forall_forall; set_solver).
        split; [done|lia].
      + exists (seqZ 0 n). split; [intros u Hu _; apply elem_of_seqZ; lia|]. intros u _. apply zlen_nonneg.
    - split_and!; [apply sort_pairs_sorted|..].
      + intros x. unfold heap. rewrite elem_of_sort_pairs, list_elem_of_fmap. intros ([v d] & -> & [i Hi]%list_elem_of_lookup).
        apply enumerate_lookup in Hi as [-> Hi]. apply lookup_lt_Some in Hi. destruct Hdeg as [Hl _]. unfold zlen in Hl. cbn. lia.
      + intros u Hu _. unfold heap. rewrite elem_of_sort_pairs. apply list_elem_of_fmap. exists (u, zlen (N u)). split; [done|].
        apply list_elem_of_lookup. exists (Z.to_nat u). apply enumerate_lookup. split; [lia|]. by apply Hdeg.
    - by intros v ?%elem_of_nil.
    - done.
    - apply (holds_ext _ _ _ _ (holds_replicate n false Hn)). intros v _. by rewrite bool_decide_false by set_solver.
    - by apply holds_replicate.
    - intros v _. apply zlen_nonneg.
    - assert (0 ≤ foldr Z.add 0 degrees) as Hsum by (apply (sum_nonneg n _ _ Hdeg); intros v _; apply zlen_nonneg).
      unfold work, zlen. lia. }
  intros core Hcore. eapply checks_bind; [by apply (checks_call _ (λ _, True))|]. intros _ _. by apply checks_ret.
Qed.
End k_core.

(** C14: the core number of every node is the largest [k] for which the node is
    in a set of nodes each joined, by an edge of some direction, to at least [k]
    others of the set.  Whatever the callback answers, the computation ends with
    these numbers or with an error of the callback. *)
Theorem core_numbers check outgoing incoming :
  transposes outgoing incoming →
  let cores core := zlen core = node_count outgoing
    ∧ ∀ v, 0 ≤ v < node_count outgoing → ∃ k, core !! Z.to_nat v = Some k ∧ core_number (near outgoing incoming) v k in
  returns check (k_core_cancellable check outgoing incoming) cores
  ∧ (∃ core, k_core outgoing incoming = Ok core ∧ cores core)
  ∧ ∀ u v, v ∈ near outgoing incoming u ↔ joined outgoing u v.
Proof.
  intros Hp cores. assert (∀ ch, checks ch (k_core_cancellable ch outgoing incoming) cores) as H.
  { intros ch. eapply checks_mono; [by apply k_core_spec|]. intros core (K & [Hl HK] & Hcore). split; [done|].
    intros v Hv. exists (K v). split; [by apply HK|by apply Hcore]. }
  split_and!; [by apply checks_run|by apply checks_never|]. intros u v. by apply elem_of_near.
Qed.

Lemma core_numbers_witness :
  k_core (csr_read wings_out) (csr_read wings_in) = Ok [2; 2; 2; 2; 1]
  ∧ core_number (near (csr_read wings_out) (csr_read wings_in)) 4 1.
Proof.
  destruct (core_numbers never _ _ wings_transposes) as (_ & (core & Hcore & _ & Hk) & _).
  assert (k_core (csr_read wings_out) (csr_read wings_in) = Ok [2; 2; 2; 2; 1]) as He by (vm_compute; reflexivity).
  rewrite He in Hcore. injection Hcore as <-. split; [exact He|].
  destruct (Hk 4) as (k & Hlk & Hcn); [vm_compute; split; [discriminate|reflexivity]|].
  assert (k = 1) as -> by (vm_compute in Hlk; congruence). exact Hcn.
Defined.
