(* ===== verification/Adjacency.v ===== *)
(** * Adjacency with pending changes: [crates/graph/src/adjacency.rs]

    [Adjacency] is the two directions as CSR, a vector of changes, and an index
    of the changes by endpoint that is built on first use.  Reads merge the
    changes of a row into the row of the base. *)

From stdpp Require Import prelude gmap strings sorting.
From Stdlib Require Import ZArith Lia.
From S2P Require Import Prelude RadixMap RadixMapTheorems PagedVec PagedVecTheorems Machine Types Shared Csr.

Local Open Scope Z_scope.

Inductive AdjacencyDelta :=
  | Insert (source target edge : Z)
  | Delete (source target edge : Z).

#[global] Instance AdjacencyDelta_eq_dec : EqDecision AdjacencyDelta.
Proof. solve_decision. Defined.

(** Four words of four bytes: the variant and the fields. *)
Definition DELTA_SIZE : Z := 16.

Abbreviation DeltaVec := (@PageDirectory AdjacencyDelta (PersistentMap (list (option (@ValuePage AdjacencyDelta))))).

(** The results of the collections, which fail only by panics. *)
Abbreviation Outcome := (outcome string).

Definition delta_default : DeltaVec := PagedVec_default.
Definition delta_push (v : DeltaVec) (d : AdjacencyDelta) : Outcome DeltaVec := PagedVec.push DELTA_SIZE v d.
Definition delta_iter (v : DeltaVec) : Outcome (list AdjacencyDelta) := PagedVec.iter DELTA_SIZE v.

Record DeltaRows := mkRows {
  rows_outgoing : PersistentMap DeltaVec;
  rows_incoming : PersistentMap DeltaVec;
}.

Definition DeltaRows_default : DeltaRows := mkRows PersistentMap_default PersistentMap_default.

Definition delta_source (d : AdjacencyDelta) : Z := match d with Insert s _ _ | Delete s _ _ => s end.
Definition delta_target (d : AdjacencyDelta) : Z := match d with Insert _ t _ | Delete _ t _ => t end.

(** [get(key).cloned().unwrap_or_default()], [push], [insert]. *)
Definition row_append (rows : PersistentMap DeltaVec) (key : Z) (d : AdjacencyDelta) : Outcome (PersistentMap DeltaVec) :=
  let row := default delta_default (RadixMap.get rows key) in
  row ← delta_push row d;
  '(rows, _) ← RadixMap.insert rows key row;
  Ok rows.

Definition append (rows : DeltaRows) (d : AdjacencyDelta) : Outcome DeltaRows :=
  outgoing ← row_append (rows_outgoing rows) (delta_source d) d;
  incoming ← row_append (rows_incoming rows) (delta_target d) d;
  Ok (mkRows outgoing incoming).

Record Adjacency := mkAdjacency {
  outgoing : Csr;
  incoming : Csr;
  deltas : DeltaVec;
  delta_rows : option DeltaRows;
}.

Definition from_csr (outgoing incoming : Csr) : Adjacency := mkAdjacency outgoing incoming delta_default None.

Definition build_delta_rows (deltas : DeltaVec) : Outcome DeltaRows :=
  ds ← delta_iter deltas;
  foldM append DeltaRows_default ds.

(** Reading a stored value builds the index. *)
Definition deserialize (outgoing incoming : Csr) (deltas : DeltaVec) : Outcome Adjacency :=
  rows ← build_delta_rows deltas;
  Ok (mkAdjacency outgoing incoming deltas (Some rows)).

Definition append_delta (a : Adjacency) (d : AdjacencyDelta) : Outcome Adjacency :=
  let existing := delta_rows a in
  deltas ← delta_push (deltas a) d;
  rows ← match existing with Some rows => append rows d | None => build_delta_rows deltas end;
  Ok (mkAdjacency (outgoing a) (incoming a) deltas (Some rows)).

Definition insert (a : Adjacency) (source target edge : Z) : Outcome Adjacency := append_delta a (Insert source target edge).
Definition delete (a : Adjacency) (source target edge : Z) : Outcome Adjacency := append_delta a (Delete source target edge).

Definition delta_len (a : Adjacency) : Z := PagedVec.len (deltas a).
Definition to_deltas (a : Adjacency) : Outcome (list AdjacencyDelta) := delta_iter (deltas a).

(** [get_or_init]: the index, and the value with the index kept. *)
Definition get_delta_rows (a : Adjacency) : Outcome (DeltaRows * Adjacency) :=
  match delta_rows a with
  | Some rows => Ok (rows, a)
  | None => rows ← build_delta_rows (deltas a); Ok (rows, mkAdjacency (outgoing a) (incoming a) (deltas a) (Some rows))
  end.

(** ** Reads *)

(** The changes of a row: entries inserted and deleted, the last change of an
    entry deciding.  [inserted] and [deleted] are [BTreeSet]s. *)
Abbreviation EntrySet := (gset (Z * Z)).

Definition pending_out (source : Z) (s : EntrySet * EntrySet) (d : AdjacencyDelta) : EntrySet * EntrySet :=
  let '(inserted, deleted) := s in
  match d with
  | Insert row target edge =>
      if row =? source then (inserted ∪ {[(target, edge)]}, deleted ∖ {[(target, edge)]}) else s
  | Delete row target edge =>
      if row =? source then (inserted ∖ {[(target, edge)]}, deleted ∪ {[(target, edge)]}) else s
  end.

Definition pending_in (target : Z) (s : EntrySet * EntrySet) (d : AdjacencyDelta) : EntrySet * EntrySet :=
  let '(inserted, deleted) := s in
  match d with
  | Insert source row edge =>
      if row =? target then (inserted ∪ {[(source, edge)]}, deleted ∖ {[(source, edge)]}) else s
  | Delete source row edge =>
      if row =? target then (inserted ∖ {[(source, edge)]}, deleted ∪ {[(source, edge)]}) else s
  end.

(** The changes indexed under a key. *)
Definition indexed (rows : PersistentMap DeltaVec) (key : Z) : Outcome (list AdjacencyDelta) :=
  match RadixMap.get rows key with Some row => delta_iter row | None => Ok [] end.

(** Iterating over a set goes in ascending order. *)
Definition in_order (s : EntrySet) : list (Z * Z) := sort_pairs (elements s).

(** [dedup]: of consecutive equal items one is kept. *)
Fixpoint dedup (l : list (Z * Z)) : list (Z * Z) :=
  match l with
  | [] => []
  | x :: l =>
      match dedup l with
      | [] => [x]
      | y :: l' => if bool_decide (x = y) then y :: l' else x :: y :: l'
      end
  end.

Definition expand (base : option (list (Z * Z))) (pending : EntrySet * EntrySet) : list (Z * Z) :=
  let '(inserted, deleted) := pending in
  if bool_decide (inserted = ∅) && bool_decide (deleted = ∅) then default [] base
  else
    let kept := filter (λ e, e ∉ deleted) (default [] base) in
    dedup (sort_pairs (kept ++ in_order inserted)).

(** [merge_bounded_row]; [fuel] bounds the items taken. *)
Fixpoint merge_loop (fuel : nat) (base inserted : list (Z * Z)) (limit : Z) (output : list (Z * Z)) : Outcome (list (Z * Z)) :=
  match fuel with
  | O => Abort OutOfFuel
  | S fuel =>
      if limit <=? zlen output then Ok output
      else
        let next :=
          match base, inserted with
          | l :: base', r :: inserted' =>
              if bool_decide (pair_le l r ∧ l ≠ r) then Some (l, base', inserted)
              else if bool_decide (pair_le r l ∧ r ≠ l) then Some (r, base, inserted')
              else Some (l, base', inserted')
          | l :: base', [] => Some (l, base', [])
          | [], r :: inserted' => Some (r, [], inserted')
          | [], [] => None
          end in
        match next with
        | None => Ok output
        | Some (value, base, inserted) =>
            let output := if bool_decide (last output = Some value) then output else output ++ [value] in
            merge_loop fuel base inserted limit output
        end
  end.

Definition merge_bounded_row (base inserted : list (Z * Z)) (limit : Z) : Outcome (list (Z * Z)) :=
  merge_loop (S (length base + length inserted)) base inserted limit [].

Definition expand_bounded (base : option (list (Z * Z))) (pending : EntrySet * EntrySet) (limit : Z) : Outcome (list (Z * Z)) :=
  let '(inserted, deleted) := pending in
  merge_bounded_row (filter (λ e, e ∉ deleted) (default [] base)) (in_order inserted) limit.

Definition expand_out (a : Adjacency) (source : Z) : Outcome (list (Z * Z) * Adjacency) :=
  '(rows, a) ← get_delta_rows a;
  ds ← indexed (rows_outgoing rows) source;
  Ok (expand (row (outgoing a) source) (foldl (pending_out source) (∅, ∅) ds), a).

Definition expand_in (a : Adjacency) (target : Z) : Outcome (list (Z * Z) * Adjacency) :=
  '(rows, a) ← get_delta_rows a;
  ds ← indexed (rows_incoming rows) target;
  Ok (expand (row (incoming a) target) (foldl (pending_in target) (∅, ∅) ds), a).

Definition expand_out_bounded (a : Adjacency) (source limit : Z) : Outcome (list (Z * Z) * Adjacency) :=
  if limit =? 0 then Ok ([], a)
  else
    '(rows, a) ← get_delta_rows a;
    ds ← indexed (rows_outgoing rows) source;
    output ← expand_bounded (row (outgoing a) source) (foldl (pending_out source) (∅, ∅) ds) limit;
    Ok (output, a).

Definition expand_in_bounded (a : Adjacency) (target limit : Z) : Outcome (list (Z * Z) * Adjacency) :=
  if limit =? 0 then Ok ([], a)
  else
    '(rows, a) ← get_delta_rows a;
    ds ← indexed (rows_incoming rows) target;
    output ← expand_bounded (row (incoming a) target) (foldl (pending_in target) (∅, ∅) ds) limit;
    Ok (output, a).

(** Each assignment takes effect before the next may fail. *)
Definition compact (a : Adjacency) (node_count : Z) (visible_edges : list (Z * Z * Z)) : Adjacency * Result unit :=
  match build node_count visible_edges with
  | Ok out =>
      let a := mkAdjacency out (incoming a) (deltas a) (delta_rows a) in
      match build_transposed node_count visible_edges with
      | Ok inc => (mkAdjacency out inc delta_default None, Ok tt)
      | Err e => (a, Err e)
      | Abort w => (a, Abort w)
      end
  | Err e => (a, Err e)
  | Abort w => (a, Abort w)
  end.
