(* ===== verification/AdjacencyTheorems.v ===== *)
(** * Adjacency with pending changes: theorems

    A row is read as the set of its entries after the changes, in order; the
    bounded read is a prefix of it, and both directions agree. *)

From stdpp Require Import prelude gmap strings sorting list.
From Stdlib Require Import ZArith Lia.
From S2P Require Import Prelude RadixMap RadixMapTheorems PagedVec PagedVecTheorems Machine Types Shared Csr CsrTheorems SearchTheorems Adjacency.

Local Open Scope Z_scope.
#[local] Set Warnings "-clear-no-such-hyp".

(** ** Sets in order *)

Lemma elem_of_in_order x s : x ∈ in_order s ↔ x ∈ s.
Proof. unfold in_order. by rewrite elem_of_sort_pairs, elem_of_elements. Qed.

Lemma in_order_unique (l : list (Z * Z)) s :
  StronglySorted pair_le l → NoDup l → (∀ x, x ∈ l ↔ x ∈ s) → l = in_order s.
Proof.
  intros Hs Hnd Hin. apply sort_pairs_unique; [done|]. apply NoDup_Permutation; [done|apply NoDup_elements|].
  intros x. by rewrite Hin, elem_of_elements.
Qed.

Lemma in_order_sorted s : StronglySorted pair_le (in_order s).
Proof. apply sort_pairs_sorted. Qed.

Lemma in_order_nodup s : NoDup (in_order s).
Proof. unfold in_order. rewrite sort_pairs_perm. apply NoDup_elements. Qed.

Lemma in_order_cons x s : x ∉ s → (∀ y, y ∈ s → pair_le x y) → in_order ({[x]} ∪ s) = x :: in_order s.
Proof.
  intros Hx Hle. symmetry. apply in_order_unique.
  - constructor; [apply in_order_sorted|]. apply list.Forall_forall. intros y Hy. by apply Hle, elem_of_in_order.
  - apply list.NoDup_cons. split; [by rewrite elem_of_in_order|apply in_order_nodup].
  - intros y. rewrite elem_of_cons, elem_of_in_order. set_solver.
Qed.

Lemma dedup_sorted l :
  StronglySorted pair_le l →
  StronglySorted pair_le (dedup l) ∧ NoDup (dedup l) ∧ (∀ x, x ∈ dedup l ↔ x ∈ l) ∧ head (dedup l) = head l.
Proof.
  induction 1 as [|x l Hs (IHs & IHn & IHin & IHh) Hall]; [split_and!; [constructor..|done|done]|]. cbn [dedup].
  destruct (dedup l) as [|y l'] eqn:Hd.
  - destruct l as [|z l]; [|done].
    split_and!; [repeat constructor|apply NoDup_singleton|done|done].
  - assert (y ∈ l) as Hyl by (apply IHin; by left). pose proof (proj1 (list.Forall_forall _ _) Hall y Hyl) as Hxy.
    case_bool_decide as Heq; [subst; split_and!; [done|done| |done]; set_solver|].
    assert (∀ z, z ∈ y :: l' → pair_le y z) as Hy.
    { apply StronglySorted_inv in IHs as [_ Hy]. intros z [->|Hz]%elem_of_cons; [unfold pair_le; lia|].
      by apply (proj1 (list.Forall_forall _ _) Hy). }
    split_and!; [|apply list.NoDup_cons; split; [|done]|set_solver|done].
    + constructor; [done|]. apply list.Forall_forall. intros z Hz. etrans; [exact Hxy|by apply Hy].
    + intros Hx. apply Heq. apply (anti_symm pair_le); [done|by apply Hy].
Qed.

(** ** Pending changes *)

(** What a change does to the entries of a row. *)
Definition apply_out (source : Z) (s : EntrySet) (d : AdjacencyDelta) : EntrySet :=
  match d with
  | Insert row target edge => if row =? source then s ∪ {[(target, edge)]} else s
  | Delete row target edge => if row =? source then s ∖ {[(target, edge)]} else s
  end.

Definition apply_in (target : Z) (s : EntrySet) (d : AdjacencyDelta) : EntrySet :=
  match d with
  | Insert source row edge => if row =? target then s ∪ {[(source, edge)]} else s
  | Delete source row edge => if row =? target then s ∖ {[(source, edge)]} else s
  end.

(** The entries of a base with the changes of a pair of sets. *)
Definition merged (base : EntrySet) (pending : EntrySet * EntrySet) : EntrySet := (base ∖ pending.2) ∪ pending.1.

Lemma merged_insert b i d (x : Z * Z) : merged b (i ∪ {[x]}, d ∖ {[x]}) = merged b (i, d) ∪ {[x]}.
Proof.
  unfold merged. cbn. apply set_eq. intros y. destruct (decide (y = x)) as [->|Hne]; set_solver.
Qed.

Lemma merged_delete b i d (x : Z * Z) : merged b (i ∖ {[x]}, d ∪ {[x]}) = merged b (i, d) ∖ {[x]}.
Proof.
  unfold merged. cbn. apply set_eq. intros y. destruct (decide (y = x)) as [->|Hne]; set_solver.
Qed.

Lemma merged_out source b p d : merged b (pending_out source p d) = apply_out source (merged b p) d.
Proof.
  destruct p as [i x], d as [s t e|s t e]; cbn; destruct (s =? source); [apply merged_insert|done|apply merged_delete|done].
Qed.

Lemma merged_in target b p d : merged b (pending_in target p d) = apply_in target (merged b p) d.
Proof.
  destruct p as [i x], d as [s t e|s t e]; cbn; destruct (t =? target); [apply merged_insert|done|apply merged_delete|done].
Qed.

(** The changes of other rows do nothing. *)
Lemma foldl_filter {A B} (f : B → A → B) (P : A → Prop) `{!∀ x, Decision (P x)} b l :
  (∀ b x, ¬ P x → f b x = b) → foldl f b (filter P l) = foldl f b l.
Proof.
  intros Hf. revert b. induction l as [|x l IH]; intros b; [done|]. rewrite filter_cons. case_decide; cbn; [by rewrite IH|].
  rewrite (Hf b x) by done. apply IH.
Qed.

Lemma foldl_merged {D} (step : EntrySet * EntrySet → D → EntrySet * EntrySet) (apply : EntrySet → D → EntrySet) b p ds :
  (∀ p d, merged b (step p d) = apply (merged b p) d) → merged b (foldl step p ds) = foldl apply (merged b p) ds.
Proof. intros Hs. revert p. induction ds as [|d ds IH]; intros p; [done|]. cbn. by rewrite IH, Hs. Qed.

Lemma merged_none b : merged b (∅, ∅) = b.
Proof. unfold merged. set_solver. Qed.

(** ** One row *)

Lemma expand_spec base pending :
  StronglySorted pair_le (default [] base) → NoDup (default [] base) →
  expand base pending = in_order (merged (list_to_set (default [] base)) pending).
Proof.
  intros Hs Hnd. destruct pending as [i d]. unfold expand.
  destruct (bool_decide (i = ∅) && bool_decide (d = ∅)) eqn:He.
  - apply andb_true_iff in He as [->%bool_decide_eq_true ->%bool_decide_eq_true]. rewrite merged_none.
    apply in_order_unique; [done..|]. intros x. by rewrite elem_of_list_to_set.
  - destruct (dedup_sorted (sort_pairs (filter (λ e, e ∉ d) (default [] base) ++ in_order i))) as (Hs' & Hnd' & Hin & _); [apply sort_pairs_sorted|].
    apply in_order_unique; [done..|]. intros x. rewrite Hin, elem_of_sort_pairs, elem_of_app, list_elem_of_filter, elem_of_in_order.
    unfold merged. cbn. rewrite elem_of_union, elem_of_difference, elem_of_list_to_set. tauto.
Qed.

(** What the bounded merge has yet to put out. *)
Definition outstanding (base inserted output : list (Z * Z)) : EntrySet :=
  (list_to_set base ∪ list_to_set inserted) ∖ list_to_set output.

(** Items to come are not below those put out, and only the last one may come
    again. *)
Definition in_front (output : list (Z * Z)) (items : list (Z * Z)) : Prop :=
  ∀ x, x ∈ items → (∀ y, y ∈ output → pair_le y x) ∧ (x ∈ output → last output = Some x).

(** Taking the least item [x] of those to come. *)
Lemma merge_step base inserted base' inserted' output x :
  in_front output (base ++ inserted) → (∀ y, y ∈ base ++ inserted → pair_le x y) →
  (∀ y, y ∈ base ++ inserted ↔ y = x ∨ y ∈ base' ++ inserted') →
  let output' := if bool_decide (last output = Some x) then output else output ++ [x] in
  in_front output' (base' ++ inserted')
  ∧ output ++ in_order (outstanding base inserted output) = output' ++ in_order (outstanding base' inserted' output').
Proof.
  intros Hf Hx Hin output'. assert (x ∈ base ++ inserted) as Hx0 by (apply Hin; by left).
  assert (∀ y, y ∈ base' ++ inserted' → y ∈ base ++ inserted) as Hsub by (intros y Hy; apply Hin; by right).
  unfold output'. case_bool_decide as Hlast.
  - split; [intros y Hy; by apply Hf, Hsub|]. do 2 f_equal. unfold outstanding. apply set_eq. intros y.
    rewrite !elem_of_difference, !elem_of_union, !elem_of_list_to_set. specialize (Hin y). rewrite !elem_of_app in Hin. rewrite Hin.
    assert (x ∈ output) by (by apply last_Some_elem_of). naive_solver.
  - assert (x ∉ output) as Hnew by (intros Ho; apply Hlast; by apply Hf). split.
    + intros y Hy. destruct (Hf y (Hsub y Hy)) as [Hle Hl]. split.
      * intros z [Hz| ->%list_elem_of_singleton]%elem_of_app; [by apply Hle|by apply Hx, Hsub].
      * intros [Hyo| ->%list_elem_of_singleton]%elem_of_app; [|by rewrite last_snoc].
        specialize (Hl Hyo). exfalso. apply Hnew. assert (y = x) as <-; [|done].
        apply (anti_symm pair_le); [by apply (Hf x Hx0)|by apply Hx, Hsub].
    + rewrite <- app_assoc. f_equal. cbn [app]. rewrite <- in_order_cons.
      * f_equal. unfold outstanding. apply set_eq. intros y.
        rewrite elem_of_union, !elem_of_difference, !elem_of_union, !elem_of_list_to_set, elem_of_singleton, elem_of_app, list_elem_of_singleton.
        specialize (Hin y). rewrite !elem_of_app in Hin. rewrite Hin. destruct (decide (y = x)) as [->|]; naive_solver.
      * unfold outstanding. rewrite elem_of_difference, elem_of_list_to_set. set_solver.
      * intros y. unfold outstanding. rewrite elem_of_difference, elem_of_union, !elem_of_list_to_set. intros [Hy _].
        apply Hx, Hsub. by apply elem_of_app.
Qed.

Lemma sorted_items_cons x (l : list (Z * Z)) : StronglySorted pair_le (x :: l) → StronglySorted pair_le l ∧ ∀ y, y ∈ x :: l → pair_le x y.
Proof.
  intros [Hs Hall]%StronglySorted_inv. split; [done|]. intros y [->|Hy]%elem_of_cons; [unfold pair_le; lia|].
  by apply (proj1 (list.Forall_forall _ _) Hall).
Qed.

Lemma merge_loop_spec fuel base inserted limit output :
  StronglySorted pair_le base → StronglySorted pair_le inserted → in_front output (base ++ inserted) →
  (length base + length inserted < fuel)%nat → zlen output ≤ limit →
  merge_loop fuel base inserted limit output
  = Ok (take (Z.to_nat limit) (output ++ in_order (outstanding base inserted output))).
Proof.
  revert base inserted output. induction fuel as [|fuel IH]; intros base inserted output Hb Hi Hf Hlen Hlim; [lia|].
  cbn [merge_loop]. destruct (Z.leb_spec limit (zlen output)) as [Hge|Hlt].
  { rewrite take_app_le, take_ge by (unfold zlen in *; lia). done. }
  assert (∀ x base' inserted', StronglySorted pair_le base' → StronglySorted pair_le inserted' →
    (length base' + length inserted' < fuel)%nat → (∀ y, y ∈ base ++ inserted → pair_le x y) →
    (∀ y, y ∈ base ++ inserted ↔ y = x ∨ y ∈ base' ++ inserted') →
    merge_loop fuel base' inserted' limit (if bool_decide (last output = Some x) then output else output ++ [x])
    = Ok (take (Z.to_nat limit) (output ++ in_order (outstanding base inserted output)))) as Hstep.
  { intros x base' inserted' Hb' Hi' Hl' Hx Hin. destruct (merge_step base inserted base' inserted' output x Hf Hx Hin) as [Hf' ->].
    apply IH; [done..|]. case_bool_decide; [done|]. rewrite zlen_app. change (zlen [x]) with 1. lia. }
  clear IH Hf Hlim. destruct base as [|l base], inserted as [|r inserted]; cbn [length] in *.
  - unfold outstanding. rewrite !list_to_set_nil, take_ge; [|rewrite length_app; unfold in_order].
    + assert ((∅ ∪ ∅ : EntrySet) ∖ list_to_set output = ∅) as -> by set_solver. by rewrite app_nil_r.
    + assert ((∅ ∪ ∅ : EntrySet) ∖ list_to_set output = ∅) as -> by set_solver. rewrite elements_empty. cbn. unfold zlen in Hlt. lia.
  - destruct (sorted_items_cons _ _ Hi) as [Hi' Hr]. apply Hstep; [done..|cbn; lia|exact Hr|set_solver].
  - destruct (sorted_items_cons _ _ Hb) as [Hb' Hl]. apply Hstep; [done..|cbn; lia| |].
    + intros y. rewrite app_nil_r. apply Hl.
    + set_solver.
  - destruct (sorted_items_cons _ _ Hb) as [Hb' Hl], (sorted_items_cons _ _ Hi) as [Hi' Hr].
    destruct (decide (pair_le l r ∧ l ≠ r)) as [Hlr|Hlr];
      [rewrite bool_decide_true by done|rewrite bool_decide_false by done;
        destruct (decide (pair_le r l ∧ r ≠ l)) as [Hrl|Hrl]; [rewrite bool_decide_true by done|rewrite bool_decide_false by done]].
    + apply Hstep; [done..|cbn; lia| |set_solver]. intros y [Hy|Hy]%elem_of_app; [by apply Hl|].
      etrans; [apply Hlr|by apply Hr].
    + apply Hstep; [done..|cbn; lia| |set_solver]. intros y [Hy|Hy]%elem_of_app; [|by apply Hr].
      etrans; [apply Hrl|by apply Hl].
    + assert (l = r) as -> by (destruct (decide (l = r)); [done|]; destruct (total pair_le l r); naive_solver).
      apply Hstep; [done..|cbn; lia| |set_solver]. intros y [Hy|Hy]%elem_of_app; [by apply Hl|by apply Hr].
Qed.

Lemma expand_bounded_spec base pending limit :
  StronglySorted pair_le (default [] base) → 0 ≤ limit →
  expand_bounded base pending limit = Ok (take (Z.to_nat limit) (in_order (merged (list_to_set (default [] base)) pending))).
Proof.
  intros Hs Hl. destruct pending as [i d]. unfold expand_bounded, merge_bounded_row. rewrite merge_loop_spec.
  - cbn [app]. do 3 f_equal. unfold outstanding, merged. cbn. apply set_eq. intros x.
    rewrite elem_of_difference, !elem_of_union, elem_of_difference, !elem_of_list_to_set, list_elem_of_filter, elem_of_in_order.
    set_solver.
  - by apply StronglySorted_filter.
  - apply in_order_sorted.
  - intros x _. split; [by intros y ?%elem_of_nil|by intros ?%elem_of_nil].
  - lia.
  - done.
Qed.

(** ** The index of changes *)

(** A vector that holds these changes from its first page on. *)
Definition holds_deltas (v : DeltaVec) (ds : list AdjacencyDelta) : Prop :=
  represents DELTA_SIZE v ds ∧ first_page v = 0.

(** Every key leads to the changes that have it, in order. *)
Definition row_index (key_of : AdjacencyDelta → Z) (rows : PersistentMap DeltaVec) (ds : list AdjacencyDelta) : Prop :=
  map_inv rows ∧ ∀ key, u32 key →
    match to_map rows !! key with
    | Some v => holds_deltas v (filter (λ d, key_of d = key) ds)
    | None => filter (λ d, key_of d = key) ds = []
    end.

Lemma u32_u128 k : u32 k → u128 k.
Proof. unfold u32, u128. lia. Qed.

Lemma row_index_default key_of : row_index key_of PersistentMap_default [].
Proof. split; [apply default_inv|]. intros key _. done. Qed.

Lemma row_index_get key_of rows ds key :
  row_index key_of rows ds → u32 key → holds_deltas (default delta_default (RadixMap.get rows key)) (filter (λ d, key_of d = key) ds).
Proof.
  intros [Hm Hr] Hk. rewrite get_spec by (done || by apply u32_u128). specialize (Hr key Hk).
  destruct (to_map rows !! key) as [v|]; [done|]. rewrite Hr. split; [apply default_represents|done].
Qed.

Lemma row_append_spec key_of rows ds d :
  row_index key_of rows ds → u32 (key_of d) → zlen ds < usize_max →
  ∃ rows', row_append rows (key_of d) d = Ok rows' ∧ row_index key_of rows' (ds ++ [d]).
Proof.
  intros Hi Hk Hlen. pose proof (row_index_get _ _ _ _ Hi Hk) as [Hrep Hfirst]. pose proof Hi as [Hm Hr].
  destruct (push_spec DELTA_SIZE _ _ d Hrep) as (v' & Hpush & Hrep' & Hf').
  { rewrite Hfirst. pose proof (length_filter (λ d', key_of d' = key_of d) ds). unfold zlen in *. lia. }
  destruct (insert_spec (E := string) rows (key_of d) v' Hm (u32_u128 _ Hk)) as (rows' & Hins & Hm' & Hmap).
  exists rows'. split.
  - unfold row_append, delta_push. rewrite Hpush. cbn. unfold RadixMap.insert. by rewrite Hins.
  - split; [done|]. intros key Hkey. rewrite Hmap. destruct (decide (key_of d = key)) as [<-|Hne].
    + rewrite lookup_insert_eq, filter_app, filter_cons_True, filter_nil by done. split; [done|by rewrite Hf'].
    + rewrite lookup_insert_ne, filter_app, filter_cons_False, filter_nil, app_nil_r by done. by apply Hr.
Qed.

(** A change with endpoints of 32 bits. *)
Definition delta_ok (d : AdjacencyDelta) : Prop := u32 (delta_source d) ∧ u32 (delta_target d).

Definition indexes (rows : DeltaRows) (ds : list AdjacencyDelta) : Prop :=
  row_index delta_source (rows_outgoing rows) ds ∧ row_index delta_target (rows_incoming rows) ds.

Lemma append_spec rows ds d :
  indexes rows ds → delta_ok d → zlen ds < usize_max → ∃ rows', append rows d = Ok rows' ∧ indexes rows' (ds ++ [d]).
Proof.
  intros [Ho Hi] [Hs Ht] Hlen. destruct (row_append_spec _ _ _ d Ho Hs Hlen) as (o & Ho1 & Ho2).
  destruct (row_append_spec _ _ _ d Hi Ht Hlen) as (i & Hi1 & Hi2). exists (mkRows o i). unfold append. rewrite Ho1. cbn. rewrite Hi1. done.
Qed.

Lemma build_delta_rows_spec v ds :
  holds_deltas v ds → Forall delta_ok ds → zlen ds ≤ usize_max → ∃ rows, build_delta_rows v = Ok rows ∧ indexes rows ds.
Proof.
  intros [Hrep _] Hok Hlen. unfold build_delta_rows, delta_iter. rewrite (iter_spec DELTA_SIZE v ds Hrep). cbn.
  assert (posts (λ _ : string, False) (foldM append DeltaRows_default ds) (λ rows, indexes rows ds)) as Hp.
  { apply (foldM_posts _ _ _ _ (λ done rows, indexes rows done)); [split; apply row_index_default|].
    intros done d rest rows Heq Hi. rewrite Heq in Hok, Hlen. apply Forall_app in Hok as [_ [Hd _]%Forall_cons].
    rewrite zlen_app, zlen_cons in Hlen. pose proof (zlen_nonneg rest).
    destruct (append_spec rows done d Hi Hd ltac:(lia)) as (rows' & -> & ?). done. }
  destruct (foldM append DeltaRows_default ds) as [rows|e|w]; [by exists rows|done..].
Qed.

(** ** The state *)

(** The base rows in both directions, in order, and the changes made since;
    the index, when there is one, is the index of the changes. *)
Record adjacency_inv (a : Adjacency) (out_rows in_rows : list (list (Z * Z))) (ds : list AdjacencyDelta) : Prop := {
  inv_outgoing : csr_rows (outgoing a) out_rows;
  inv_incoming : csr_rows (incoming a) in_rows;
  inv_sorted : Forall (StronglySorted pair_le) out_rows ∧ Forall (StronglySorted pair_le) in_rows;
  inv_deltas : holds_deltas (deltas a) ds;
  inv_index : match delta_rows a with Some rows => indexes rows ds | None => True end;
  inv_ok : Forall delta_ok ds;
  inv_len : zlen ds ≤ usize_max;
}.

Lemma append_delta_spec a out_rows in_rows ds d :
  adjacency_inv a out_rows in_rows ds → delta_ok d → zlen ds < usize_max →
  ∃ a', append_delta a d = Ok a' ∧ adjacency_inv a' out_rows in_rows (ds ++ [d]).
Proof.
  intros [Ho Hi Hs [Hrep Hf] Hidx Hok Hlen] Hd Hlt. destruct (push_spec DELTA_SIZE (deltas a) ds d Hrep) as (v' & Hpush & Hrep' & Hf').
  { rewrite Hf. lia. }
  assert (Forall delta_ok (ds ++ [d])) as Hok' by (apply Forall_app; split; [done|by apply Forall_singleton]).
  assert (zlen (ds ++ [d]) ≤ usize_max) as Hlen' by (rewrite zlen_app; change (zlen [d]) with 1; lia).
  assert (holds_deltas v' (ds ++ [d])) as Hv' by (split; [done|by rewrite Hf']).
  unfold append_delta, delta_push. rewrite Hpush. cbn [mbind outcome_bind].
  assert (∃ rows, match delta_rows a with Some rows => append rows d | None => build_delta_rows v' end = Ok rows ∧ indexes rows (ds ++ [d])) as (rows & -> & Hrows).
  { destruct (delta_rows a) as [rows|]; [by apply append_spec|by apply build_delta_rows_spec]. }
  cbn. eexists. split; [done|]. split; done.
Qed.

Lemma get_delta_rows_spec a out_rows in_rows ds :
  adjacency_inv a out_rows in_rows ds →
  ∃ rows a', get_delta_rows a = Ok (rows, a') ∧ indexes rows ds ∧ adjacency_inv a' out_rows in_rows ds
    ∧ outgoing a' = outgoing a ∧ incoming a' = incoming a.
Proof.
  intros Hinv. pose proof Hinv as [Ho Hi Hs Hrep Hidx Hok Hlen]. unfold get_delta_rows. destruct (delta_rows a) as [rows|] eqn:E.
  - by exists rows, a.
  - destruct (build_delta_rows_spec (deltas a) ds Hrep Hok Hlen) as (rows & -> & Hrows). cbn.
    eexists _, _. split; [done|]. split_and!; [done| |done|done]. by split.
Qed.

Lemma indexed_spec key_of rows ds key :
  row_index key_of rows ds → u32 key → indexed rows key = Ok (filter (λ d, key_of d = key) ds).
Proof.
  intros [Hm Hr] Hk. unfold indexed. rewrite get_spec by (done || by apply u32_u128). specialize (Hr key Hk).
  destruct (to_map rows !! key) as [v|]; [|by rewrite Hr]. unfold delta_iter. apply (iter_spec DELTA_SIZE v), Hr.
Qed.

(** ** Reads *)

(** The entries of a base row. *)
Definition base_row (rows : list (list (Z * Z))) (node : Z) : list (Z * Z) := default [] (get rows node).

(** The entries of a row after the changes. *)
Definition live_out (out_rows : list (list (Z * Z))) (ds : list AdjacencyDelta) (source : Z) : EntrySet :=
  foldl (apply_out source) (list_to_set (base_row out_rows source)) ds.
Definition live_in (in_rows : list (list (Z * Z))) (ds : list AdjacencyDelta) (target : Z) : EntrySet :=
  foldl (apply_in target) (list_to_set (base_row in_rows target)) ds.

Lemma pending_out_live out_rows ds source :
  merged (list_to_set (base_row out_rows source)) (foldl (pending_out source) (∅, ∅) (filter (λ d, delta_source d = source) ds))
  = live_out out_rows ds source.
Proof.
  rewrite foldl_filter; [rewrite (foldl_merged _ (apply_out source)); [by rewrite merged_none|intros; apply merged_out]|].
  intros [i x] [s t e|s t e] Hne; cbn in *; by rewrite (proj2 (Z.eqb_neq _ _)).
Qed.

Lemma pending_in_live in_rows ds target :
  merged (list_to_set (base_row in_rows target)) (foldl (pending_in target) (∅, ∅) (filter (λ d, delta_target d = target) ds))
  = live_in in_rows ds target.
Proof.
  rewrite foldl_filter; [rewrite (foldl_merged _ (apply_in target)); [by rewrite merged_none|intros; apply merged_in]|].
  intros [i x] [s t e|s t e] Hne; cbn in *; by rewrite (proj2 (Z.eqb_neq _ _)).
Qed.

Lemma base_row_csr c rows node : csr_rows c rows → 0 ≤ node → default [] (row c node) = base_row rows node.
Proof. intros Hc Hn. unfold base_row. by rewrite (row_csr c rows), get_nat. Qed.

Lemma base_row_sorted rows node : Forall (StronglySorted pair_le) rows → StronglySorted pair_le (base_row rows node).
Proof.
  intros Hs. unfold base_row, get. destruct (node <? 0); [constructor|].
  destruct (rows !! Z.to_nat node) as [r|] eqn:Hr; cbn; [|constructor]. by apply (proj1 (Forall_lookup _ _) Hs _ _ Hr).
Qed.

(** What the two reads of a row return, [l] and a prefix of [live]. *)
Definition reads_as (out_rows in_rows : list (list (Z * Z))) (ds : list AdjacencyDelta) (base : list (Z * Z)) (live : EntrySet)
    (full : Outcome (list (Z * Z) * Adjacency)) (bounded : Z → Outcome (list (Z * Z) * Adjacency)) : Prop :=
  (∃ l a', full = Ok (l, a') ∧ adjacency_inv a' out_rows in_rows ds ∧ (NoDup base → l = in_order live))
  ∧ ∀ limit, 0 ≤ limit → ∃ a', bounded limit = Ok (take (Z.to_nat limit) (in_order live), a') ∧ adjacency_inv a' out_rows in_rows ds.

Lemma expand_out_spec a out_rows in_rows ds source :
  adjacency_inv a out_rows in_rows ds → u32 source →
  reads_as out_rows in_rows ds (base_row out_rows source) (live_out out_rows ds source)
    (expand_out a source) (expand_out_bounded a source).
Proof.
  intros Hinv Hs. destruct (get_delta_rows_spec a _ _ _ Hinv) as (rows & a' & Hget & [Hidx _] & Hinv' & Ho & _).
  assert (0 ≤ source) as Hs0 by (unfold u32 in Hs; lia).
  pose proof (base_row_csr _ _ source (inv_outgoing _ _ _ _ Hinv') Hs0) as Hbase.
  pose proof (base_row_sorted _ source (proj1 (inv_sorted _ _ _ _ Hinv'))) as Hsort.
  split.
  - unfold expand_out. rewrite Hget. cbn. rewrite (indexed_spec _ _ _ _ Hidx Hs). cbn. eexists _, a'. split_and!; [done..|].
    intros Hnd. rewrite expand_spec by (by rewrite Hbase). by rewrite Hbase, pending_out_live.
  - intros limit Hl. unfold expand_out_bounded. destruct (Z.eqb_spec limit 0) as [->|Hne]; [by exists a|].
    rewrite Hget. cbn. rewrite (indexed_spec _ _ _ _ Hidx Hs). cbn. rewrite expand_bounded_spec by (by rewrite ?Hbase).
    cbn. rewrite Hbase, pending_out_live. by exists a'.
Qed.

Lemma expand_in_spec a out_rows in_rows ds target :
  adjacency_inv a out_rows in_rows ds → u32 target →
  reads_as out_rows in_rows ds (base_row in_rows target) (live_in in_rows ds target)
    (expand_in a target) (expand_in_bounded a target).
Proof.
  intros Hinv Ht. destruct (get_delta_rows_spec a _ _ _ Hinv) as (rows & a' & Hget & [_ Hidx] & Hinv' & _ & Hi).
  assert (0 ≤ target) as Ht0 by (unfold u32 in Ht; lia).
  pose proof (base_row_csr _ _ target (inv_incoming _ _ _ _ Hinv') Ht0) as Hbase.
  pose proof (base_row_sorted _ target (proj2 (inv_sorted _ _ _ _ Hinv'))) as Hsort.
  split.
  - unfold expand_in. rewrite Hget. cbn. rewrite (indexed_spec _ _ _ _ Hidx Ht). cbn. eexists _, a'. split_and!; [done..|].
    intros Hnd. rewrite expand_spec by (by rewrite Hbase). by rewrite Hbase, pending_in_live.
  - intros limit Hl. unfold expand_in_bounded. destruct (Z.eqb_spec limit 0) as [->|Hne]; [by exists a|].
    rewrite Hget. cbn. rewrite (indexed_spec _ _ _ _ Hidx Ht). cbn. rewrite expand_bounded_spec by (by rewrite ?Hbase).
    cbn. rewrite Hbase, pending_in_live. by exists a'.
Qed.

(** Both directions have the same edges. *)
Lemma live_mirrored out_rows in_rows ds :
  (∀ s t e, (t, e) ∈ base_row out_rows s ↔ (s, e) ∈ base_row in_rows t) →
  ∀ s t e, (t, e) ∈ live_out out_rows ds s ↔ (s, e) ∈ live_in in_rows ds t.
Proof.
  intros Hbase s t e. unfold live_out, live_in. induction ds as [|d ds IH] using rev_ind.
  - cbn. by rewrite !elem_of_list_to_set.
  - rewrite !foldl_app. cbn [foldl].
    destruct d as [s' t' e'|s' t' e']; cbn [apply_out apply_in]; destruct (Z.eqb_spec s' s), (Z.eqb_spec t' t);
      rewrite ?elem_of_union, ?elem_of_difference, ?elem_of_singleton, IH; naive_solver.
Qed.

(** ** Changes *)

Lemma built_rows_sorted n edges : Forall (StronglySorted pair_le) (rows_of n edges).
Proof. unfold rows_of. apply Forall_fmap, Forall_forall. intros v _. apply sort_pairs_sorted. Qed.

Lemma base_row_of n edges v : base_row (rows_of n edges) v = if decide (0 ≤ v < n) then row_of edges v else [].
Proof.
  unfold base_row, rows_of, get. destruct (Z.ltb_spec v 0) as [Hneg|Hpos]; [by rewrite decide_False by lia|].
  rewrite list_lookup_fmap. case_decide as Hv.
  - by rewrite (proj2 (lookup_seqZ 0 n (Z.to_nat v) v)) by lia.
  - rewrite (proj2 (lookup_ge_None _ _)); [done|]. rewrite length_seqZ. lia.
Qed.

Lemma elem_of_base_row n edges v t e :
  nonnegative edges → sources_in n edges → (t, e) ∈ base_row (rows_of n edges) v ↔ (v, t, e) ∈ edges.
Proof.
  unfold nonnegative, sources_in. rewrite !list.Forall_forall. intros Hnn Hs. rewrite base_row_of. case_decide as Hv; [apply elem_of_row_of|].
  split; [by intros ?%elem_of_nil|]. intros He. specialize (Hnn _ He). specialize (Hs _ He). cbn in *. lia.
Qed.

Lemma row_of_nodup edges v : NoDup edges → NoDup (row_of edges v).
Proof.
  intros Hnd. unfold row_of. rewrite sort_pairs_perm. apply NoDup_fmap_2_strong; [|by apply NoDup_filter].
  intros [[s t] e] [[s' t'] e'] [Hs _]%list_elem_of_filter [Hs' _]%list_elem_of_filter Heq. by simplify_eq/=.
Qed.

Lemma base_row_nodup n edges v : NoDup edges → NoDup (base_row (rows_of n edges) v).
Proof. intros Hnd. rewrite base_row_of. case_decide; [by apply row_of_nodup|constructor]. Qed.

Lemma from_csr_inv out inc out_rows in_rows :
  csr_rows out out_rows → csr_rows inc in_rows → Forall (StronglySorted pair_le) out_rows → Forall (StronglySorted pair_le) in_rows →
  adjacency_inv (from_csr out inc) out_rows in_rows [].
Proof.
  intros Ho Hi Hso Hsi. split; [done..| |done|constructor|rewrite zlen_nil; rlia]. split; [apply default_represents|done].
Qed.

Lemma deserialize_spec a out_rows in_rows ds :
  adjacency_inv a out_rows in_rows ds →
  ∃ a', deserialize (outgoing a) (incoming a) (deltas a) = Ok a' ∧ adjacency_inv a' out_rows in_rows ds.
Proof.
  intros [Ho Hi Hs Hrep _ Hok Hlen]. destruct (build_delta_rows_spec _ _ Hrep Hok Hlen) as (rows & Hb & Hrows).
  unfold deserialize. rewrite Hb. cbn. eexists. split; [done|]. by split.
Qed.

(** Either all of the state is replaced or nothing is. *)
Lemma compact_spec a n edges :
  0 ≤ n < usize_max → nonnegative edges → zlen edges ≤ u32_max →
  if bool_decide (sources_in n edges ∧ targets_in n edges)
  then ∃ a', compact a n edges = (a', Ok tt) ∧ adjacency_inv a' (rows_of n edges) (rows_of n (transpose <$> edges)) []
  else ∃ e, compact a n edges = (a, Err e) ∧ code e = InvalidData.
Proof.
  intros Hn Hnn Hlen. unfold compact. case_bool_decide as Hin.
  - destruct Hin as [Hs Ht]. destruct (build_both n edges Hn Hnn Hlen Hs Ht) as (out & inc & -> & -> & Hout & Hinc).
    eexists. split; [done|]. by apply (from_csr_inv out inc); [done..|apply built_rows_sorted|apply built_rows_sorted].
  - pose proof (build_owned_spec n edges Hn Hnn Hlen) as Hb. unfold build. repeat case_bool_decide; try (destruct Hin; done); rewrite Hb; eauto.
Qed.

(** ** Theorems *)


(** C16: recording an insertion or a deletion appends it to the changes, whether
    or not the index has been built, and a stored value is read back with its
    index.  Compacting replaces the base by the given edges in both directions
    and drops the changes, so that rows read the same when the edges are the
    visible ones; when an endpoint is no node it fails and nothing changes. *)
Theorem adjacency_changes a out_rows in_rows ds s t e n edges :
  adjacency_inv a out_rows in_rows ds → u32 s → u32 t → zlen ds < usize_max →
  0 ≤ n < usize_max → nonnegative edges → NoDup edges → zlen edges ≤ u32_max →
  (∃ a', insert a s t e = Ok a' ∧ adjacency_inv a' out_rows in_rows (ds ++ [Insert s t e]))
  ∧ (∃ a', delete a s t e = Ok a' ∧ adjacency_inv a' out_rows in_rows (ds ++ [Delete s t e]))
  ∧ (∃ a', deserialize (outgoing a) (incoming a) (deltas a) = Ok a' ∧ adjacency_inv a' out_rows in_rows ds)
  ∧ if bool_decide (sources_in n edges ∧ targets_in n edges)
    then ∃ a' out' in', compact a n edges = (a', Ok tt) ∧ adjacency_inv a' out' in' []
      ∧ (∀ v, NoDup (base_row out' v) ∧ NoDup (base_row in' v))
      ∧ (∀ x y k, (y, k) ∈ base_row out' x ↔ (x, k) ∈ base_row in' y)
      ∧ ((∀ x y k, (x, y, k) ∈ edges ↔ 0 ≤ x ∧ (y, k) ∈ live_out out_rows ds x) →
         ∀ v, 0 ≤ v → live_out out' [] v = live_out out_rows ds v)
    else ∃ err, compact a n edges = (a, Err err) ∧ code err = InvalidData.
Proof.
  intros Hinv Hs Ht Hlt Hn Hnn Hnd Hlen. split_and!.
  - by apply append_delta_spec.
  - by apply append_delta_spec.
  - by apply deserialize_spec.
  - pose proof (compact_spec a n edges Hn Hnn Hlen) as Hc. case_bool_decide as Hin; [|done].
    destruct Hc as (a' & Hc & Hinv'). exists a', (rows_of n edges), (rows_of n (transpose <$> edges)). split_and!; [done..| | |].
    + intros v. split; apply base_row_nodup; [done|]. by apply (NoDup_fmap_2 transpose).
    + intros x y k. destruct (transposed_ok n edges Hnn (proj1 Hin) (proj2 Hin)) as (Hnn' & Hs' & _).
      rewrite !elem_of_base_row by (done || apply Hin). split; [by intros He%(list_elem_of_fmap_2 transpose)|].
      intros ([[x' y'] k'] & Heq & He)%list_elem_of_fmap. by simplify_eq/=.
    + intros Hedges v Hv. unfold live_out at 1. cbn [foldl]. apply set_eq. intros [y k].
      rewrite elem_of_list_to_set, elem_of_base_row by (done || apply Hin). rewrite Hedges. tauto.
Qed.

(** Two edges, one of them replaced. *)
Definition two_edges : list (Z * Z * Z) := [(0, 2, 8); (0, 1, 7)].
Definition two_base : Adjacency := (compact (from_csr Csr_default Csr_default) 3 two_edges).1.
Definition two_changed : Adjacency :=
  match (a ← delete two_base 0 1 7; insert a 0 1 9) with Ok a => a | _ => two_base end.

Lemma two_base_inv : adjacency_inv two_base (rows_of 3 two_edges) (rows_of 3 (transpose <$> two_edges)) [].
Proof.
  pose proof (compact_spec (from_csr Csr_default Csr_default) 3 two_edges ltac:(rlia) ltac:(decided) ltac:(vm_compute; discriminate)) as H.
  rewrite bool_decide_true in H by (split; decided). destruct H as (a & Ha & Hinv). unfold two_base. by rewrite Ha.
Qed.

Lemma two_changed_inv :
  adjacency_inv two_changed (rows_of 3 two_edges) (rows_of 3 (transpose <$> two_edges)) [Delete 0 1 7; Insert 0 1 9].
Proof.
  assert (delta_ok (Delete 0 1 7) ∧ delta_ok (Insert 0 1 9)) as [Hd Hi] by (unfold delta_ok, u32; cbn; lia).
  destruct (append_delta_spec _ _ _ _ (Delete 0 1 7) two_base_inv Hd) as (a & Ha & Hinv); [rewrite zlen_nil; rlia|].
  destruct (append_delta_spec _ _ _ _ (Insert 0 1 9) Hinv Hi) as (a' & Ha' & Hinv'); [vm_compute; reflexivity|].
  unfold two_changed, delete. rewrite Ha. cbn [mbind outcome_bind]. unfold insert. by rewrite Ha'.
Qed.


Lemma adjacency_changes_witness :
  (∃ a', insert two_changed 1 2 5 = Ok a')
  ∧ (∃ a', compact two_changed 3 [(0, 1, 9); (0, 2, 8)] = (a', Ok tt))
  ∧ ∃ err, compact two_changed 1 [(0, 1, 9)] = (two_changed, Err err).
Proof.
  assert (zlen [Delete 0 1 7; Insert 0 1 9] < usize_max ∧ u32 1 ∧ u32 2) as (Hl & H1 & H2) by (split_and!; unfold u32; (vm_compute; reflexivity) || lia).
  split_and!.
  - destruct (adjacency_changes _ _ _ _ 1 2 5 3 [] two_changed_inv H1 H2 Hl) as ((a' & Ha & _) & _);
      [rlia|constructor|constructor|vm_compute; discriminate|]. by exists a'.
  - destruct (adjacency_changes _ _ _ _ 1 2 5 3 [(0, 1, 9); (0, 2, 8)] two_changed_inv H1 H2 Hl) as (_ & _ & _ & Hc);
      [rlia|decided|decided|vm_compute; discriminate|].
    rewrite bool_decide_true in Hc by (split; decided). destruct Hc as (a' & _ & _ & Hc & _). by exists a'.
  - destruct (adjacency_changes _ _ _ _ 1 2 5 1 [(0, 1, 9)] two_changed_inv H1 H2 Hl) as (_ & _ & _ & Hc);
      [rlia|decided|decided|vm_compute; discriminate|].
    rewrite bool_decide_false in Hc; [|intros [_ Ht]; apply Forall_cons in Ht as [Ht _]; cbn in Ht; lia].
    destruct Hc as (err & Hc & _). by exists err.
Defined.

(** An edge given twice stays in its base row twice: the read without pending
    changes repeats it, the bounded read does not. *)
Example duplicate_edge :
  let a := (compact (from_csr Csr_default Csr_default) 2 [(0, 1, 7); (0, 1, 7)]).1 in
  fst <$> expand_out a 0 = Ok [(1, 7); (1, 7)] ∧ fst <$> expand_out_bounded a 0 2 = Ok [(1, 7)].
Proof. split; vm_compute; reflexivity. Qed.
