(* ===== verification/Admission.v ===== *)
(** * Write admission

    [crates/storage/src/admission.rs]: the count and byte limits of the
    in-memory write path.  The state sits behind a mutex that each call holds
    from its first read to its last write, so calls are atomic steps.
    [Instant::now()] is an argument.  A permit is given back by [release] or
    by [drop]; its flag makes a second release a no-op. *)

From stdpp Require Import prelude gmap strings sorting.
From Stdlib Require Import ZArith Lia.
From S2P Require Import Prelude Machine Types.

Local Open Scope Z_scope.
#[local] Set Warnings "-clear-no-such-hyp".

(** [ConnectionId]. *)
Definition ConnectionId_is_valid (connection : Z) : bool := negb (connection =? 0).

Inductive AdmissionClass := Client | Broker | Control | Cancellation.

Definition is_control (class : AdmissionClass) : bool :=
  match class with Control | Cancellation => true | _ => false end.

Record AdmissionLimits := mkLimits {
  max_requests : Z;
  max_encoded_bytes : Z;
  reserved_control_requests : Z;
  reserved_control_bytes : Z;
  max_requests_per_connection : Z;
  max_encoded_bytes_per_connection : Z;
  retry_after : Z;
}.

Record ConnectionUsage := mkUsage { usage_requests : Z; usage_bytes : Z }.

Definition usage_default : ConnectionUsage := mkUsage 0 0.

Record AdmissionState := mkState {
  requests : Z;
  bytes_held : Z;
  connections : gmap Z ConnectionUsage;
}.

Definition state_default : AdmissionState := mkState 0 0 ∅.

(** The limits of a controller; [None] is [unrestricted]. *)
Definition AdmissionController_new (limits : AdmissionLimits) : Result (option AdmissionLimits) :=
  if (max_requests limits =? 0) || (max_encoded_bytes limits =? 0)
     || (max_requests_per_connection limits =? 0)
     || (max_encoded_bytes_per_connection limits =? 0)
     || (max_encoded_bytes limits <? max_encoded_bytes_per_connection limits)
     || (max_requests limits <=? reserved_control_requests limits)
     || (max_encoded_bytes limits <=? reserved_control_bytes limits)
  then Err (Error_invalid_data "invalid write-admission limits")
  else Ok (Some limits).

Definition unrestricted : option AdmissionLimits := None.

(** [limits.is_some_and(p)]. *)
Definition limit_exceeded (limits : option AdmissionLimits) (p : AdmissionLimits → bool) : bool :=
  match limits with Some l => p l | None => false end.

Definition full_error (limits : option AdmissionLimits) (message : string) : Error :=
  Error_retryable WriteAdmissionFull message (retry_after <$> limits).

Record AdmissionPermit := mkPermit { connection : Z; encoded_bytes : Z; released : bool }.

Definition request_limit (l : AdmissionLimits) (class : AdmissionClass) : Z :=
  if is_control class then max_requests l else max_requests l - reserved_control_requests l.
Definition byte_limit (l : AdmissionLimits) (class : AdmissionClass) : Z :=
  if is_control class then max_encoded_bytes l else max_encoded_bytes l - reserved_control_bytes l.

(** [try_admit_until]: the state after the call and its result. *)
Definition try_admit_until (limits : option AdmissionLimits) (now : Z) (s : AdmissionState)
    (conn : Z) (class : AdmissionClass) (size : Z) (deadline : option Z)
    : AdmissionState * Result AdmissionPermit :=
  let usage := default usage_default (connections s !! conn) in
  let result :=
    if match deadline with Some d => d <=? now | None => false end then
      Err (Error_retryable DeadlineExceeded "write deadline expired before admission" None)
    else if (size =? 0) || limit_exceeded limits (λ l, max_encoded_bytes l <? size) then
      Err (Error_invalid_data "invalid admitted mutation byte size")
    else if negb (ConnectionId_is_valid conn) then
      Err (Error_invalid_data "write admission requires a connection identity")
    else if negb (is_control class)
            && limit_exceeded limits (λ l, max_requests_per_connection l <=? usage_requests usage) then
      Err (full_error limits "connection write-admission share is full")
    else if negb (is_control class)
            && match checked_add usize_max (usage_bytes usage) size with
               | None => true
               | Some n => limit_exceeded limits (λ l, max_encoded_bytes_per_connection l <? n)
               end then
      Err (full_error limits "connection write-admission byte share is full")
    else
      next_requests ← ok_or (checked_add usize_max (requests s) 1)
        (Error_internal "write-admission request count overflow");
      next_bytes ← ok_or (checked_add usize_max (bytes_held s) size)
        (Error_internal "write-admission byte count overflow");
      if limit_exceeded limits (λ l,
           (request_limit l class <? next_requests) || (byte_limit l class <? next_bytes)) then
        Err (full_error limits "write-admission capacity is full")
      else Ok (next_requests, next_bytes) in
  match result with
  | Err e => (s, Err e)
  | Abort a => (s, Abort a)
  | Ok (next_requests, next_bytes) =>
      let s := mkState next_requests next_bytes (connections s) in
      let entry :=
        conn_requests ← usize_add (usage_requests usage) 1;
        conn_bytes ← ok_or (checked_add usize_max (usage_bytes usage) size)
          (Error_internal "connection byte accounting overflow");
        Ok (mkUsage conn_requests conn_bytes) in
      match entry with
      | Err e => (s, Err e)
      | Abort a => (s, Abort a)
      | Ok entry =>
          (mkState next_requests next_bytes (<[conn := entry]> (connections s)),
           Ok (mkPermit conn size false))
      end
  end.

Definition try_admit (limits : option AdmissionLimits) (now : Z) (s : AdmissionState)
    (conn : Z) (class : AdmissionClass) (size : Z) (deadline : Z)
    : AdmissionState * Result AdmissionPermit :=
  try_admit_until limits now s conn class size (Some deadline).

Definition usage_of (s : AdmissionState) : Z * Z := (requests s, bytes_held s).

Definition maximum_encoded_bytes (limits : option AdmissionLimits) : Z :=
  match limits with Some l => max_encoded_bytes l | None => usize_max end.

Definition release_inner (s : AdmissionState) (p : AdmissionPermit)
    : AdmissionState * AdmissionPermit :=
  if released p then (s, p)
  else
    let s := mkState (saturating_sub (requests s) 1)
               (saturating_sub (bytes_held s) (encoded_bytes p)) (connections s) in
    let '(s, remove) :=
      match connections s !! connection p with
      | Some usage =>
          let usage := mkUsage (saturating_sub (usage_requests usage) 1)
                         (saturating_sub (usage_bytes usage) (encoded_bytes p)) in
          (mkState (requests s) (bytes_held s) (<[connection p := usage]> (connections s)),
           usage_requests usage =? 0)
      | None => (s, false)
      end in
    let s := if remove : bool
             then mkState (requests s) (bytes_held s) (delete (connection p) (connections s))
             else s in
    (s, mkPermit (connection p) (encoded_bytes p) true).

(** [Drop]. *)
Definition permit_drop (s : AdmissionState) (p : AdmissionPermit) : AdmissionState :=
  (release_inner s p).1.

(** [release] consumes the permit, which is then dropped. *)
Definition release (s : AdmissionState) (p : AdmissionPermit) : AdmissionState :=
  let '(s, p) := release_inner s p in permit_drop s p.

(** ** Accounting *)

(** A live permit with the class it was admitted under. *)
Abbreviation holding := (AdmissionClass * AdmissionPermit)%type.

Fixpoint total (f : holding → Z) (live : list holding) : Z :=
  match live with [] => 0 | h :: live => f h + total f live end.

Definition one (h : holding) : Z := 1.
Definition size_of (h : holding) : Z := encoded_bytes h.2.
(** Restricts a weight to one connection, or to ordinary (non-control) work. *)
Definition on (conn : Z) (f : holding → Z) (h : holding) : Z :=
  if connection h.2 =? conn then f h else 0.
Definition ordinary (f : holding → Z) (h : holding) : Z := if is_control h.1 then 0 else f h.
Definition control (f : holding → Z) (h : holding) : Z := if is_control h.1 then f h else 0.

Lemma total_app f a b : total f (a ++ b) = total f a + total f b.
Proof. induction a; simpl; lia. Qed.

Lemma total_mono f g live : (∀ h, h ∈ live → f h ≤ g h) → total f live ≤ total g live.
Proof.
  induction live as [|h live IH]; intros Hfg; simpl; [lia|].
  pose proof (Hfg h ltac:(set_solver)). specialize (IH ltac:(set_solver)). lia.
Qed.

Lemma total_split f live : total f live = total (ordinary f) live + total (control f) live.
Proof.
  induction live as [|h live IH]; simpl; [done|]. unfold ordinary, control in *.
  destruct (is_control h.1); lia.
Qed.

Lemma total_mid f a h b : total f (a ++ h :: b) = total f (a ++ b) + f h.
Proof. rewrite !total_app. simpl. lia. Qed.

Lemma total_one live : total one live = zlen live.
Proof. induction live as [|h live IH]; [done|]. simpl. rewrite IH, zlen_cons. done. Qed.

(** What the controller state says about the live permits. *)
Definition usage_for (live : list holding) (conn : Z) : option ConnectionUsage :=
  if total (on conn one) live =? 0 then None
  else Some (mkUsage (total (on conn one) live) (total (on conn size_of) live)).

Definition within (limits : option AdmissionLimits) (live : list holding) : Prop :=
  match limits with
  | None => True
  | Some l =>
      total one live ≤ max_requests l ∧ total size_of live ≤ max_encoded_bytes l
      ∧ total (ordinary one) live ≤ max_requests l - reserved_control_requests l
      ∧ total (ordinary size_of) live ≤ max_encoded_bytes l - reserved_control_bytes l
      ∧ ∀ conn, total (on conn (ordinary one)) live ≤ max_requests_per_connection l
                ∧ total (on conn (ordinary size_of)) live ≤ max_encoded_bytes_per_connection l
  end.

Definition limits_ok (limits : option AdmissionLimits) : Prop :=
  match limits with
  | None => True
  | Some l => AdmissionController_new l = Ok limits ∧ 0 ≤ reserved_control_requests l
              ∧ 0 ≤ reserved_control_bytes l ∧ max_requests l ≤ usize_max
              ∧ max_encoded_bytes l ≤ usize_max
              ∧ 0 ≤ max_requests_per_connection l ∧ 0 ≤ max_encoded_bytes_per_connection l
  end.

Definition accounted (limits : option AdmissionLimits) (s : AdmissionState) (live : list holding) : Prop :=
  requests s = total one live ∧ bytes_held s = total size_of live
  ∧ (∀ conn, connections s !! conn = usage_for live conn)
  ∧ requests s ≤ usize_max ∧ bytes_held s ≤ usize_max
  ∧ Forall (λ h, 0 < encoded_bytes h.2 ∧ released h.2 = false) live
  ∧ within limits live.

(** ** Steps of the controller *)

Inductive step (limits : option AdmissionLimits)
    : AdmissionState * list holding → AdmissionState * list holding → Prop :=
| step_admit now s live conn class size deadline s' p :
    0 ≤ size →
    try_admit_until limits now s conn class size deadline = (s', Ok p) →
    step limits (s, live) (s', (class, p) :: live)
| step_refuse now s live conn class size deadline s' e :
    0 ≤ size →
    try_admit_until limits now s conn class size deadline = (s', Err e) →
    step limits (s, live) (s', live)
| step_release s before class p after :
    step limits (s, before ++ (class, p) :: after) (release s p, before ++ after)
| step_drop s before class p after :
    step limits (s, before ++ (class, p) :: after) (permit_drop s p, before ++ after).

Definition reachable (limits : option AdmissionLimits) : AdmissionState * list holding → Prop :=
  rtc (step limits) (state_default, []).

Section accounting.
Context (limits : option AdmissionLimits).

Lemma sizes_nonneg live h :
  Forall (λ h, 0 < encoded_bytes h.2 ∧ released h.2 = false) live → h ∈ live → 0 < size_of h.
Proof. rewrite Forall_forall. intros Hf Hh. by apply Hf. Qed.

Lemma total_nonneg (f : holding → Z) live : (∀ h, h ∈ live → 0 ≤ f h) → 0 ≤ total f live.
Proof.
  intros Hf. assert (total (λ _, 0) live = 0) as <-.
  { clear Hf. induction live as [|h live IH]; [done|]. cbn. lia. }
  by apply total_mono.
Qed.

(** Restricted totals never exceed the full ones. *)
Lemma total_on_le conn f live : (∀ h, h ∈ live → 0 ≤ f h) → total (on conn f) live ≤ total f live.
Proof.
  intros Hf. apply total_mono. intros h Hh. unfold on. specialize (Hf h Hh). destruct (_ =? _); lia.
Qed.
Lemma total_ordinary_le f live : (∀ h, h ∈ live → 0 ≤ f h) → total (ordinary f) live ≤ total f live.
Proof.
  intros Hf. apply total_mono. intros h Hh. unfold ordinary. specialize (Hf h Hh).
  destruct (is_control _); lia.
Qed.
Lemma total_on_ordinary_le conn f live :
  (∀ h, h ∈ live → 0 ≤ f h) → total (on conn (ordinary f)) live ≤ total (on conn f) live.
Proof.
  intros Hf. apply total_mono. intros h Hh. unfold on, ordinary. specialize (Hf h Hh).
  destruct (_ =? _); [destruct (is_control _)|]; lia.
Qed.

(** The usage recorded for a connection, zero if absent. *)
Lemma usage_lookup s live conn :
  accounted limits s live →
  default usage_default (connections s !! conn)
  = mkUsage (total (on conn one) live) (total (on conn size_of) live).
Proof.
  intros (_ & _ & Hc & _ & _ & Hpos & _). rewrite Hc. unfold usage_for.
  destruct (Z.eqb_spec (total (on conn one) live) 0) as [Hz|]; [|done]. cbn. rewrite Hz.
  unfold usage_default. f_equal. symmetry.
  assert (∀ h, h ∈ live → connection h.2 ≠ conn) as Hno.
  { clear Hc. induction live as [|h live IH]; [set_solver|]. apply Forall_cons in Hpos as [_ Hpos].
    cbn in Hz. assert (0 ≤ total (on conn one) live).
    { apply total_nonneg. intros x _. unfold on, one. destruct (_ =? _); lia. }
    unfold on at 1, one at 1 in Hz. destruct (Z.eqb_spec (connection h.2) conn); [lia|].
    intros h' [->|Hin]%elem_of_cons; [done|]. apply IH; [done|lia|done]. }
  clear -Hno. induction live as [|h live IH]; [done|]. cbn. rewrite IH by set_solver.
  unfold on. destruct (Z.eqb_spec (connection h.2) conn); [|done].
  exfalso. apply (Hno h); [set_solver|done].
Qed.

Lemma one_nonneg (live : list holding) : ∀ h, h ∈ live → 0 ≤ one h.
Proof. intros. unfold one. lia. Qed.

Lemma size_nonneg s live : accounted limits s live → ∀ h, h ∈ live → 0 ≤ size_of h.
Proof.
  intros (_ & _ & _ & _ & _ & Hpos & _) h Hh. pose proof (sizes_nonneg live h Hpos Hh). lia.
Qed.

(** The totals after one more permit. *)
Lemma usage_for_cons class p live conn :
  0 ≤ total (on conn one) live →
  usage_for ((class, p) :: live) conn
  = if connection p =? conn
    then Some (mkUsage (total (on conn one) live + 1) (total (on conn size_of) live + encoded_bytes p))
    else usage_for live conn.
Proof.
  intros Hnn. unfold usage_for. cbn. unfold on at 1 3 5. cbn [snd].
  destruct (connection p =? conn); [|by rewrite !Z.add_0_l].
  unfold one at 1 3, size_of at 1. cbn [snd]. destruct (Z.eqb_spec (1 + total (on conn one) live) 0); [lia|].
  do 2 f_equal; lia.
Qed.

(** An admission the guards let through stays within the limits. *)
Lemma within_admit l live conn class size :
  limits_ok (Some l) → (∀ h, h ∈ live → 0 ≤ size_of h) → 0 ≤ size → within (Some l) live →
  negb (is_control class) && (max_requests_per_connection l <=? total (on conn one) live) = false →
  negb (is_control class)
    && (max_encoded_bytes_per_connection l <? total (on conn size_of) live + size) = false →
  (request_limit l class <? total one live + 1)
    || (byte_limit l class <? total size_of live + size) = false →
  within (Some l) ((class, mkPermit conn size false) :: live).
Proof.
  intros (_ & Hr1 & Hr2 & _) Hnn Hsize (H1 & H2 & H3 & H4 & Hper) Hcr Hcb
    [Hl1%Z.ltb_ge Hl2%Z.ltb_ge]%orb_false_iff.
  pose proof (total_ordinary_le one live (one_nonneg live)).
  pose proof (total_ordinary_le size_of live Hnn).
  pose proof (total_on_ordinary_le conn one live (one_nonneg live)).
  pose proof (total_on_ordinary_le conn size_of live Hnn).
  unfold request_limit, byte_limit, within in *.
  split_and!; [..|intros k; destruct (Hper k); split]; cbn [total];
    unfold on, ordinary, one, size_of in *; cbn [fst snd connection encoded_bytes];
    (destruct (is_control class);
      [|cbn [negb andb] in Hcr, Hcb; apply Z.leb_gt in Hcr; apply Z.ltb_ge in Hcb]);
    try (destruct (Z.eqb_spec conn k) as [->|]); lia.
Qed.

Context (Hlimits : limits_ok limits).

Lemma admit_step now s live conn class size deadline :
  accounted limits s live → 0 ≤ size →
  (∃ e, try_admit_until limits now s conn class size deadline = (s, Err e))
  ∨ (∃ s', try_admit_until limits now s conn class size deadline = (s', Ok (mkPermit conn size false))
           ∧ accounted limits s' ((class, mkPermit conn size false) :: live)).
Proof.
  intros Hacc Hsize. unfold try_admit_until. rewrite (usage_lookup s live conn Hacc).
  pose proof (total_on_le conn size_of live (size_nonneg s live Hacc)) as Hon.
  pose proof (total_on_le conn one live (one_nonneg live)) as Hon1.
  pose proof (size_nonneg s live Hacc) as Hnn0.
  pose proof Hacc as (Hr & Hb & Hc & Hru & Hbu & Hpos & Hwithin).
  cbn [usage_requests usage_bytes].
  destruct (match deadline with Some _ => _ | None => _ end); [eauto|].
  destruct (Z.eqb_spec size 0); cbn [orb]; [eauto|].
  destruct (limit_exceeded limits (λ l, max_encoded_bytes l <? size)); [eauto|].
  destruct (negb (ConnectionId_is_valid conn)); [eauto|].
  destruct (negb (is_control class) && limit_exceeded limits (λ l, _ <=? _)) eqn:Hcr; [eauto|].
  destruct (negb (is_control class) && match _ with None => _ | Some _ => _ end) eqn:Hcb; [eauto|].
  unfold checked_add in *. destruct (Z.leb_spec (requests s + 1) usize_max); [|eauto]. rbind.
  destruct (Z.leb_spec (bytes_held s + size) usize_max); [|eauto]. rbind.
  destruct (limit_exceeded limits (λ l, (_ <? _) || _)) eqn:Hlim; [eauto|].
  rewrite (proj2 (Z.leb_le _ _)) in Hcb |- * by lia. rewrite usize_add_Ok by lia. rbind.
  right. eexists. split; [done|]. unfold accounted. cbn [requests bytes_held connections].
  assert (∀ conn, 0 ≤ total (on conn one) live) as Hnn.
  { intros k. apply total_nonneg. intros h _. unfold on, one. destruct (_ =? _); lia. }
  split_and!; cbn [total]; [unfold one at 1; lia|unfold size_of at 1; cbn; lia| |done|done| |].
  - intros k. rewrite usage_for_cons by done. cbn [connection encoded_bytes].
    destruct (Z.eqb_spec conn k) as [->|]; [by rewrite lookup_insert_eq|by rewrite lookup_insert_ne].
  - constructor; [cbn; split; [lia|done]|done].
  - destruct limits as [l|]; [|done]. cbn [limit_exceeded] in *. rewrite Hr, Hb in *.
    by apply within_admit.
Qed.

Lemma release_is_drop s p : released p = false → release s p = permit_drop s p.
Proof.
  intros Hp. unfold release, permit_drop, release_inner. rewrite Hp.
  by destruct (connections _ !! connection p) as [u|]; cbn.
Qed.

(** Fewer permits stay within the limits. *)
Lemma within_release live before h after :
  live = before ++ h :: after → 0 ≤ size_of h → within limits live → within limits (before ++ after).
Proof.
  intros -> Hh. destruct limits as [l|]; [|done]. intros (H1 & H2 & H3 & H4 & Hper).
  rewrite total_mid in H1, H2, H3, H4.
  split_and!; [..|intros k; destruct (Hper k) as [Hk1 Hk2]; rewrite total_mid in Hk1, Hk2; split];
    unfold on, ordinary, one in *; repeat case_match; lia.
Qed.

Lemma usage_for_mid before h after conn :
  usage_for (before ++ h :: after) conn = usage_for (h :: before ++ after) conn.
Proof. unfold usage_for. rewrite !total_mid. cbn [total]. by rewrite !(Z.add_comm _ (on conn _ h)). Qed.

Lemma drop_step s before class p after :
  accounted limits s (before ++ (class, p) :: after) →
  accounted limits (permit_drop s p) (before ++ after).
Proof.
  intros (Hr & Hb & Hc & Hru & Hbu & Hpos & Hwithin).
  pose proof (Forall_elt _ _ _ Hpos) as [Hsize Hrel]. cbn [snd] in Hsize, Hrel.
  rewrite total_mid in Hr, Hb. unfold one at 2 in Hr. unfold size_of at 2 in Hb. cbn [snd] in Hb.
  assert (∀ h, h ∈ before ++ after → 0 ≤ size_of h) as Hsz.
  { intros h Hh. apply Z.lt_le_incl. apply (sizes_nonneg (before ++ (class, p) :: after)); set_solver. }
  pose proof (total_nonneg one _ (one_nonneg (before ++ after))) as Hn1.
  pose proof (total_nonneg size_of _ Hsz) as Hn2.
  assert (∀ k, 0 ≤ total (on k one) (before ++ after)) as Hnn.
  { intros k. apply total_nonneg. intros h _. unfold on, one. destruct (_ =? _); lia. }
  assert (0 ≤ total (on (connection p) size_of) (before ++ after)) as Hnb.
  { apply total_nonneg. intros h Hh. unfold on. destruct (_ =? _); [auto|lia]. }
  unfold permit_drop, release_inner. rewrite Hrel. cbn [connections].
  pose proof (Hc (connection p)) as Hcp. rewrite usage_for_mid, usage_for_cons, Z.eqb_refl in Hcp by done.
  rewrite Hcp. cbn [usage_requests usage_bytes requests bytes_held connections fst].
  pose proof (Hnn (connection p)). unfold saturating_sub. rewrite !Z.max_r by lia.
  unfold accounted.
  split_and!.
  7: by apply (within_release _ before (class, p) after eq_refl); [unfold size_of; cbn; lia|].
  6: { apply Forall_app in Hpos as [? [_ ?]%Forall_cons]. by apply Forall_app. }
  all: destruct (Z.eqb_spec (total (on (connection p) one) (before ++ after) + 1 - 1) 0); cbn; try lia.
  all: intros k; specialize (Hc k); rewrite usage_for_mid, usage_for_cons in Hc by done.
  - destruct (Z.eqb_spec (connection p) k); [subst k|by rewrite lookup_delete_ne, lookup_insert_ne].
    rewrite lookup_delete_eq. unfold usage_for. by rewrite (proj2 (Z.eqb_eq _ _)) by lia.
  - destruct (Z.eqb_spec (connection p) k); [subst k|by rewrite lookup_insert_ne].
    rewrite lookup_insert_eq. unfold usage_for. rewrite (proj2 (Z.eqb_neq _ _)) by lia.
    do 2 f_equal; lia.
Qed.

Lemma step_accounted s live s' live' :
  step limits (s, live) (s', live') → accounted limits s live → accounted limits s' live'.
Proof.
  intros Hstep Hacc. inversion Hstep; subst.
  - edestruct admit_step as [[e He]|(s2 & He & Hs2)]; [done|done|..]; rewrite He in *; by simplify_eq.
  - edestruct admit_step as [[e' He]|(s2 & He & Hs2)]; [done|done|..]; rewrite He in *; by simplify_eq.
  - destruct Hacc as (? & ? & ? & ? & ? & Hpos & ?).
    pose proof (Forall_elt _ _ _ Hpos) as [_ Hrel]. rewrite release_is_drop by done. by eapply drop_step.
  - by eapply drop_step.
Qed.

Lemma default_accounted : accounted limits state_default [].
Proof.
  split_and!; [done|done| |done|done|constructor|].
  - intros conn. apply lookup_empty.
  - destruct limits as [l|]; [|done]. destruct Hlimits as (Hnew & ? & ? & ? & ? & ? & ?).
    unfold AdmissionController_new in Hnew. destruct (_ || _) eqn:E in Hnew; [done|].
    rewrite !orb_false_iff, !Z.leb_gt in E. cbn. split_and!; intros; lia.
Qed.

Lemma reachable_accounted s live : reachable limits (s, live) → accounted limits s live.
Proof.
  unfold reachable. intros Hr.
  assert (∀ x y, rtc (step limits) x y → accounted limits x.1 x.2 → accounted limits y.1 y.2) as Hrtc.
  { intros x y Hxy. induction Hxy as [|[] [] ? Hs _ IH]; [done|]. intros. apply IH. by eapply step_accounted. }
  apply (Hrtc _ _ Hr default_accounted).
Qed.
End accounting.

(** ** Theorems *)

(** C21: after any sequence of admissions, refusals, releases and drops, the
    controller counts exactly the permits still held: the request count and
    the byte count are those of the live permits, in total and per connection,
    and idle connections have no entry.  The live permits respect every limit:
    the totals, the capacity left to ordinary work once the control reserve is
    set aside, and the share of each connection.  Once every permit has been
    given back the controller is in its initial state.  An admission call
    returns a permit for exactly the requested connection and size, or an error
    that leaves the controller as it was: it neither panics nor leaks capacity
    on an error path. *)
Theorem admission_accounting limits s live :
  limits_ok limits → reachable limits (s, live) →
  usage_of s = (zlen live, total size_of live)
  ∧ (∀ conn, connections s !! conn = usage_for live conn)
  ∧ within limits live
  ∧ (live = [] → s = state_default)
  ∧ (∀ now conn class size deadline, 0 ≤ size →
     (∃ e, try_admit_until limits now s conn class size deadline = (s, Err e))
     ∨ (∃ s', try_admit_until limits now s conn class size deadline = (s', Ok (mkPermit conn size false)))).
Proof.
  intros Hl Hreach. destruct (reachable_accounted _ Hl _ _ Hreach) as (Hr & Hb & Hc & _ & _ & _ & Hw).
  split_and!; [|done|done| |].
  - unfold usage_of. by rewrite Hr, Hb, total_one.
  - intros ->. destruct s as [r b c]. unfold state_default. cbn in *. subst. f_equal.
    apply map_eq. intros conn. by rewrite Hc, lookup_empty.
  - intros now conn class size deadline Hsize.
    destruct (admit_step _ Hl now s live conn class size deadline (reachable_accounted _ Hl _ _ Hreach) Hsize)
      as [?|(s' & ? & _)]; eauto.
Qed.

(** C22: ordinary work cannot take the control reserve.  Whatever the history,
    control work that fits the reserve beside the control permits already held
    is admitted, for any connection identity and whatever that connection
    already holds. *)
Theorem control_reserve_guaranteed l s live now conn class size deadline :
  limits_ok (Some l) → reachable (Some l) (s, live) →
  is_control class = true → ConnectionId_is_valid conn = true →
  match deadline with Some d => now < d | None => True end → 0 < size →
  total (control one) live + 1 ≤ reserved_control_requests l →
  total (control size_of) live + size ≤ reserved_control_bytes l →
  ∃ s', try_admit_until (Some l) now s conn class size deadline = (s', Ok (mkPermit conn size false)).
Proof.
  intros Hl Hreach Hclass Hconn Hdl Hsize Hfit1 Hfit2.
  pose proof (reachable_accounted _ Hl _ _ Hreach) as Hacc.
  pose proof (total_nonneg (control size_of) live) as Hnn.
  assert (0 ≤ total (control size_of) live).
  { apply Hnn. intros h Hh. unfold control. destruct (is_control h.1); [|lia].
    by eapply (size_nonneg (Some l)). }
  destruct (admit_step _ Hl now s live conn class size deadline Hacc ltac:(lia)) as [[e He]|(s' & He & _)];
    [exfalso|by exists s'].
  pose proof Hacc as (Hr & Hb & _ & _ & _ & _ & Hlim). destruct Hlim as (_ & _ & Ho1 & Ho2 & _).
  destruct Hl as (Hnew & ? & ? & Hm1 & Hm2 & _). unfold AdmissionController_new in Hnew.
  destruct (_ || _) eqn:E in Hnew; [done|]. rewrite !orb_false_iff, !Z.leb_gt in E. clear Hnew.
  rewrite (total_split one) in Hr. rewrite (total_split size_of) in Hb.
  unfold try_admit_until in He. rewrite (usage_lookup _ s live conn Hacc), Hclass, Hconn in He.
  replace (match deadline with Some d => d <=? now | None => false end) with false in He
    by (destruct deadline; [symmetry; apply Z.leb_gt; lia|done]).
  cbn [limit_exceeded negb andb] in He.
  rewrite (proj2 (Z.eqb_neq size 0)), (proj2 (Z.ltb_ge _ size)) in He by lia. cbn [orb] in He.
  unfold checked_add in He.
  rewrite (proj2 (Z.leb_le (requests s + 1) _)), (proj2 (Z.leb_le (bytes_held s + size) _)) in He by lia.
  cbn in He. unfold request_limit, byte_limit in He. rewrite Hclass in He.
  rewrite (proj2 (Z.ltb_ge (max_requests l) _)), (proj2 (Z.ltb_ge (max_encoded_bytes l) _)) in He by lia.
  pose proof (total_on_le conn size_of live (size_nonneg (Some l) s live Hacc)).
  pose proof (total_on_le conn one live (one_nonneg live)).
  pose proof Hacc as (Hr' & Hb' & _).
  cbn [orb usage_requests usage_bytes] in He. rewrite usize_add_Ok in He by lia. cbn in He.
  by rewrite (proj2 (Z.leb_le _ _)) in He by lia.
Qed.

(** ** A concrete history: one client write of 100 bytes on connection 1 *)

Definition sample_limits : AdmissionLimits := mkLimits 8 800 2 200 2 200 25.
Definition client_permit : AdmissionPermit := mkPermit 1 100 false.
Definition one_client : AdmissionState := mkState 1 100 {[1 := mkUsage 1 100]}.

Lemma sample_limits_ok : limits_ok (Some sample_limits).
Proof. split_and!; [done|vm_compute; discriminate..]. Qed.

Lemma one_client_reachable : reachable (Some sample_limits) (one_client, [(Client, client_permit)]).
Proof.
  eapply rtc_l; [|apply rtc_refl].
  by apply (step_admit _ 0 state_default [] 1 Client 100 (Some 5)); [lia|vm_compute].
Qed.

Lemma drained_reachable :
  reachable (Some sample_limits) (release one_client client_permit, []).
Proof. eapply rtc_r; [apply one_client_reachable|]. apply (step_release _ _ [] Client client_permit []). Qed.

Lemma admission_accounting_witness :
  usage_of one_client = (1, 100) ∧ within (Some sample_limits) [(Client, client_permit)]
  ∧ release one_client client_permit = state_default
  ∧ ((∃ e, try_admit_until (Some sample_limits) 0 one_client 1 Client 101 None = (one_client, Err e))
     ∨ (∃ s', try_admit_until (Some sample_limits) 0 one_client 1 Client 101 None = (s', Ok (mkPermit 1 101 false)))).
Proof.
  destruct (admission_accounting (Some sample_limits) one_client [(Client, client_permit)]
    sample_limits_ok one_client_reachable) as (Hu & _ & Hw & _ & Hr).
  destruct (admission_accounting (Some sample_limits) _ [] sample_limits_ok drained_reachable) as (_ & _ & _ & Hd & _).
  split_and!; [done|done|by apply Hd|]. apply Hr. lia.
Defined.

Lemma control_reserve_guaranteed_witness :
  ∃ s', try_admit_until (Some sample_limits) 0 one_client 1 Control 200 (Some 5)
        = (s', Ok (mkPermit 1 200 false)).
Proof.
  apply (control_reserve_guaranteed sample_limits one_client [(Client, client_permit)]);
    [apply sample_limits_ok|apply one_client_reachable|done|done|lia|lia|vm_compute; discriminate..].
Defined.
