(* ===== verification/Results.v ===== *)
(** * Result values: [crates/execution/src/result.rs]

    The typed values of query results, their conversion from and to the
    canonical property documents, and the shape check of a result batch.
    ([crates/cypher] has the same conversions over the same types.)

    Reading a document yields a tree whose leaves could again be documents; the
    code recurses into them, and the model counts these rounds.  The decoder
    never returns such a leaf, so one round is enough. *)

From stdpp Require Import prelude gmap strings sorting.
From Stdlib Require Import ZArith Lia.
From S2P Require Import Prelude Machine Types Document DocumentCodec DocumentDecode DocumentTheorems.

Local Open Scope Z_scope.

Inductive ColumnType :=
| ColumnAny | ColumnNull | ColumnBoolean | ColumnInteger | ColumnFloat | ColumnString
| ColumnBytes | ColumnTemporal | ColumnDuration | ColumnNode | ColumnRelationship
| ColumnPath | ColumnVector | ColumnList | ColumnMap.

Record ResultNode := mkNode {
  node_id : Z;
  node_layer : Layer;
  node_revision : Z;
  node_labels : list bytes;
  node_properties : list (bytes * ScalarValue);
}.

Record ResultEdge := mkEdge {
  edge_id : Z;
  edge_source : Z;
  edge_target : Z;
  edge_type : bytes;
  edge_layer : Layer;
  edge_revision : Z;
  edge_properties : list (bytes * ScalarValue);
}.

(** A vector holds the bit patterns of its [f32] components. *)
#[local] Unset Elimination Schemes.
Inductive ResultValue :=
| ResScalar (v : ScalarValue)
| ResNode (n : ResultNode)
| ResRelationship (e : ResultEdge)
| ResPath (nodes : list ResultNode) (relationships : list ResultEdge)
| ResVector (components : list Z)
| ResList (values : list ResultValue)
| ResMap (values : list (bytes * ResultValue)).
#[local] Set Elimination Schemes.

Section ResultValue_induction.
Context (P : ResultValue → Prop).
Hypothesis Hscalar : ∀ v, P (ResScalar v).
Hypothesis Hnode : ∀ n, P (ResNode n).
Hypothesis Hrelationship : ∀ e, P (ResRelationship e).
Hypothesis Hpath : ∀ ns es, P (ResPath ns es).
Hypothesis Hvector : ∀ vs, P (ResVector vs).
Hypothesis Hlist : ∀ vs, Forall P vs → P (ResList vs).
Hypothesis Hmap : ∀ vs, Forall (λ p, P p.2) vs → P (ResMap vs).

Fixpoint ResultValue_nested_ind (v : ResultValue) : P v :=
  match v with
  | ResScalar v => Hscalar v
  | ResNode n => Hnode n
  | ResRelationship e => Hrelationship e
  | ResPath ns es => Hpath ns es
  | ResVector vs => Hvector vs
  | ResList vs =>
      Hlist vs ((fix go vs : Forall P vs :=
        match vs with
        | [] => Forall_nil_2 _
        | v :: vs => Forall_cons_2 _ _ _ (ResultValue_nested_ind v) (go vs)
        end) vs)
  | ResMap vs =>
      Hmap vs ((fix go (vs : list (bytes * ResultValue)) : Forall (λ p, P p.2) vs :=
        match vs with
        | [] => Forall_nil_2 _
        | (k, v) :: vs => Forall_cons_2 (λ p, P p.2) (k, v) vs (ResultValue_nested_ind v) (go vs)
        end) vs)
  end.
End ResultValue_induction.

Definition column_type (v : ResultValue) : ColumnType :=
  match v with
  | ResScalar v =>
      match v with
      | ScalarNull => ColumnNull
      | ScalarBoolean _ => ColumnBoolean
      | ScalarInteger _ => ColumnInteger
      | ScalarFloat _ => ColumnFloat
      | ScalarString _ => ColumnString
      | ScalarBytes _ => ColumnBytes
      | ScalarDate _ | ScalarLocalTime _ | ScalarZonedTime _ _ | ScalarLocalDateTime _ _
      | ScalarZonedDateTime _ _ _ => ColumnTemporal
      | ScalarDuration _ _ _ _ => ColumnDuration
      | ScalarList _ => ColumnList
      | ScalarMap _ => ColumnMap
      end
  | ResNode _ => ColumnNode
  | ResRelationship _ => ColumnRelationship
  | ResPath _ _ => ColumnPath
  | ResVector _ => ColumnVector
  | ResList _ => ColumnList
  | ResMap _ => ColumnMap
  end.

(** [BTreeMap::from_iter]: later entries replace earlier ones. *)
Definition btree_collect {V} (entries : list (bytes * V)) : list (bytes * V) :=
  foldl (λ m '(k, v), (btree_insert k v m).2) [] entries.

(** [.map(|(name, value)| Ok((name, f(value)?))).collect::<Result<BTreeMap<_, _>>>()]. *)
Definition collect_entries {V W} (f : V → Result W) (entries : list (bytes * V))
    : Result (list (bytes * W)) :=
  entries ← mapM (λ '(name, value), value ← f value; Ok (name, value)) entries;
  Ok (btree_collect entries).

Definition not_a_property : Error :=
  Error_new QueryType "property documents may contain only scalar, list, and map values".

Section conversions.
Context `{Allocator}.

(** [document_item_to_result], over the [from_property] it calls on leaves. *)
Fixpoint document_item_to_result (from_property : ScalarValue → Result ResultValue)
    (value : DocumentItem) : Result ResultValue :=
  match value with
  | ItemScalar value => from_property value
  | ItemList values =>
      values ← mapM (document_item_to_result from_property) values;
      Ok (ResList values)
  | ItemMap values =>
      values ← collect_entries (document_item_to_result from_property) values;
      Ok (ResMap values)
  end.

Fixpoint from_property_rounds (rounds : nat) (value : ScalarValue) : Result ResultValue :=
  match value with
  | ScalarList document =>
      match rounds with
      | O => Abort OutOfFuel
      | S rounds =>
          items ← DocumentList_items document;
          values ← mapM (document_item_to_result (from_property_rounds rounds)) items;
          Ok (ResList values)
      end
  | ScalarMap document =>
      match rounds with
      | O => Abort OutOfFuel
      | S rounds =>
          entries ← DocumentMap_entries document;
          values ← collect_entries (document_item_to_result (from_property_rounds rounds)) entries;
          Ok (ResMap values)
      end
  | value => Ok (ResScalar value)
  end.

Definition from_property (value : ScalarValue) : Result ResultValue := from_property_rounds 1 value.

(** [result_to_document_item]; [again] is the call on the parts of a document. *)
Fixpoint result_to_item (again : ResultValue → Result DocumentItem) (value : ResultValue)
    : Result DocumentItem :=
  match value with
  | ResScalar value =>
      if is_document value then
        m ← from_property value;
        match m with
        | ResList values => values ← mapM again values; Ok (ItemList values)
        | ResMap values => values ← collect_entries again values; Ok (ItemMap values)
        | _ => Err (corrupt "document property decoded to a scalar root")
        end
      else Ok (ItemScalar value)
  | ResList values => values ← mapM (result_to_item again) values; Ok (ItemList values)
  | ResMap values => values ← collect_entries (result_to_item again) values; Ok (ItemMap values)
  | ResNode _ | ResRelationship _ | ResPath _ _ | ResVector _ => Err not_a_property
  end.

Definition result_to_document_item : ResultValue → Result DocumentItem :=
  result_to_item (result_to_item (λ _, Abort OutOfFuel)).

Definition into_property (value : ResultValue) : Result ScalarValue :=
  match value with
  | ResScalar value => Ok value
  | ResList values =>
      items ← mapM result_to_document_item values;
      ScalarList <$> DocumentList_new items
  | ResMap values =>
      entries ← collect_entries result_to_document_item values;
      ScalarMap <$> DocumentMap_new entries
  | ResNode _ | ResRelationship _ | ResPath _ _ | ResVector _ => Err not_a_property
  end.
End conversions.

(** ** Batches *)

Record ResultColumn := mkColumn {
  column_name : bytes;
  value_type : ColumnType;
  column_values : list ResultValue;
}.

Record ResultBatch := mkBatch { row_count : Z; columns : list ResultColumn }.

Definition validate_batch (b : ResultBatch) : bool :=
  forallb (λ column, zlen (column_values column) =? row_count b) (columns b).
