(* ===== verification/ResultsTheorems.v ===== *)
(** * Result values: conversions from and to property documents *)

From stdpp Require Import prelude gmap strings sorting.
From Stdlib Require Import ZArith Lia.
From S2P Require Import Prelude Machine Types Document DocumentCodec DocumentDecode DocumentTheorems.
From S2P Require Import Results.

Local Open Scope Z_scope.
#[local] Set Warnings "-clear-no-such-hyp".

(** ** Well-formed values *)

Definition node_wf (n : ResultNode) : Prop := u64 (node_id n).
Definition edge_wf (e : ResultEdge) : Prop := u64 (edge_id e).

(** What the Rust types guarantee. *)
#[local] Unset Elimination Schemes.
Inductive result_wf : ResultValue → Prop :=
| result_wf_scalar v : scalar_wf v → result_wf (ResScalar v)
| result_wf_node n : node_wf n → result_wf (ResNode n)
| result_wf_relationship e : edge_wf e → result_wf (ResRelationship e)
| result_wf_path ns es :
    Forall node_wf ns → Forall edge_wf es → zlen ns ≤ isize_max → zlen es ≤ isize_max →
    result_wf (ResPath ns es)
| result_wf_vector vs : Forall u32 vs → result_wf (ResVector vs)
| result_wf_list vs : Forall result_wf vs → result_wf (ResList vs)
| result_wf_map vs :
    keys_sorted vs → Forall (λ p, str_wf p.1 ∧ result_wf p.2) vs → result_wf (ResMap vs).
#[local] Set Elimination Schemes.

(** No leaf is a property document. *)
Fixpoint result_free (v : ResultValue) : bool :=
  match v with
  | ResScalar v => negb (is_document v)
  | ResList vs => forallb result_free vs
  | ResMap vs => forallb (λ '(_, v), result_free v) vs
  | _ => true
  end.

(** The result value with the shape of a document tree. *)
Fixpoint item_result (v : DocumentItem) : ResultValue :=
  match v with
  | ItemScalar v => ResScalar v
  | ItemList vs => ResList (map item_result vs)
  | ItemMap vs => ResMap (map (λ '(k, v), (k, item_result v)) vs)
  end.

(** Floats as documents store them. *)
Fixpoint result_canonical (v : ResultValue) : ResultValue :=
  match v with
  | ResScalar v => ResScalar (canonical_scalar v)
  | ResList vs => ResList (map result_canonical vs)
  | ResMap vs => ResMap (map (λ '(k, v), (k, result_canonical v)) vs)
  | v => v
  end.

(** Every document replaced by the tree it encodes. *)
Fixpoint materialized `{Allocator} (v : ResultValue) : Result ResultValue :=
  match v with
  | ResScalar v => from_property v
  | ResList vs => vs ← mapM materialized vs; Ok (ResList vs)
  | ResMap vs => vs ← collect_entries materialized vs; Ok (ResMap vs)
  | v => Ok v
  end.

(** ** Ordered maps *)

Lemma btree_collect_app {V} (acc m : list (bytes * V)) :
  keys_sorted (acc ++ m) → foldl (λ m '(k, v), (btree_insert k v m).2) acc m = acc ++ m.
Proof.
  revert acc. induction m as [|[k v] m IH]; intros acc Hs; cbn [foldl]; [by rewrite app_nil_r|].
  rewrite btree_insert_last by (by eapply keys_sorted_app_lt). cbn [snd].
  rewrite IH; rewrite <- (assoc_L (++)); [done|exact Hs].
Qed.

Lemma btree_collect_sorted {V} (m : list (bytes * V)) : keys_sorted m → btree_collect m = m.
Proof. apply (btree_collect_app []). Qed.

(** Entries with equal keys and related values. *)
Definition entry_rel {V W} (R : V → W → Prop) (p : bytes * V) (q : bytes * W) : Prop :=
  p.1 = q.1 ∧ R p.2 q.2.

Section collect.
Context {V W : Type} (f : V → Result W).
Implicit Types (l : list (bytes * V)) (k : list (bytes * W)).

Lemma mapM_entries_inv l k :
  mapM (λ '(name, value), value ← f value; Ok (name, value)) l = Ok k →
  Forall2 (entry_rel (λ v w, f v = Ok w)) l k.
Proof.
  intros Hm%mapM_Ok_inv. eapply Forall2_impl; [exact Hm|].
  intros [a v] [b w] Hq. cbn in *. inv_ok. by simplify_eq.
Qed.

Lemma Forall2_keys l k (R : V → W → Prop) :
  Forall2 (entry_rel R) l k → map fst l = map fst k.
Proof. induction 1 as [|p q l k [Hk _] _ IH]; cbn; congruence. Qed.

Lemma collect_entries_Ok l k :
  keys_sorted l → Forall2 (entry_rel (λ v w, f v = Ok w)) l k → collect_entries f l = Ok k.
Proof.
  intros Hs Hf. unfold collect_entries. rewrite (mapM_Ok _ l k).
  - rbind. rewrite btree_collect_sorted; [done|]. eapply keys_sorted_keys; [|exact Hs]. by eapply Forall2_keys.
  - eapply Forall2_impl; [exact Hf|]. intros [a v] [b w] [Ha Hv]. cbn in *. subst. by rewrite Hv.
Qed.

Lemma collect_entries_post l (Q : V → W → Prop) :
  keys_sorted l → Forall (λ p, post (f p.2) (Q p.2)) l →
  post (collect_entries f l) (λ k, keys_sorted k ∧ Forall2 (entry_rel Q) l k).
Proof.
  intros Hs Hf. unfold collect_entries.
  eapply post_bind; [apply (mapM_post _ l (entry_rel Q))|].
  - eapply Forall_impl; [exact Hf|]. intros [a v] Hv. cbn in *.
    eapply post_bind; [exact Hv|]. intros w Hw. by split.
  - intros k Hk. assert (keys_sorted k) as Hsk by (eapply keys_sorted_keys; [by eapply Forall2_keys|done]).
    cbn. by rewrite btree_collect_sorted.
Qed.

Lemma collect_entries_Ok_inv l k :
  keys_sorted l → collect_entries f l = Ok k →
  keys_sorted k ∧ Forall2 (entry_rel (λ v w, f v = Ok w)) l k.
Proof.
  intros Hs Hc. unfold collect_entries in Hc. inv_ok. apply mapM_entries_inv in Ha.
  assert (keys_sorted a) as Hsk by (eapply keys_sorted_keys; [by eapply Forall2_keys|done]).
  rewrite btree_collect_sorted in Hc by done. by subst.
Qed.
End collect.

(** ** Reading documents *)

Lemma Forall2_map_r {A B} (g : A → B) (R : A → B → Prop) l :
  Forall (λ x, R x (g x)) l → Forall2 R l (map g l).
Proof. induction 1; constructor; done. Qed.

Lemma Forall2_map_entries {V W} (g : V → W) (R : V → W → Prop) (l : list (bytes * V)) :
  Forall (λ p, R p.2 (g p.2)) l →
  Forall2 (entry_rel R) l (map (λ '(k, v), (k, g v)) l).
Proof. induction 1 as [|[k v] l]; constructor; [by split|done]. Qed.

Lemma from_property_plain `{Allocator} n s :
  is_document s = false → from_property_rounds n s = Ok (ResScalar s).
Proof. by destruct n, s. Qed.

Section reading.
Context `{Allocator}.

Lemma item_free_entries (vs : list (bytes * DocumentItem)) :
  document_free (ItemMap vs) = true ↔ Forall (λ p, document_free p.2 = true) vs.
Proof.
  cbn [document_free]. rewrite forallb_Forall. apply Forall_iff. by intros [k v].
Qed.

Lemma result_free_entries (vs : list (bytes * ResultValue)) :
  result_free (ResMap vs) = true ↔ Forall (λ p, result_free p.2 = true) vs.
Proof. cbn [result_free]. rewrite forallb_Forall. apply Forall_iff. by intros [k v]. Qed.

(** A tree without document leaves is converted as it stands. *)
Lemma to_result_free n v :
  item_wf v → document_free v = true →
  document_item_to_result (from_property_rounds n) v = Ok (item_result v).
Proof.
  induction v as [s|vs IH|vs IH] using DocumentItem_nested_ind; intros Hw Hd.
  - cbn in *. apply negb_true_iff in Hd. by apply from_property_plain.
  - inversion Hw as [|? Hvs|]; subst. cbn [document_free] in Hd. rewrite forallb_Forall in Hd.
    cbn [document_item_to_result item_result]. rewrite (mapM_Ok _ vs (map item_result vs)); [done|].
    apply Forall2_map_r. rewrite Forall_forall in *. auto.
  - inversion Hw as [| |? Hs Hvs]; subst. apply item_free_entries in Hd.
    cbn [document_item_to_result item_result].
    rewrite (collect_entries_Ok _ vs (map (λ '(k, v), (k, item_result v)) vs)); [done|done|].
    apply Forall2_map_entries. rewrite Forall_forall in *. intros p Hp.
    apply IH; [done|by apply Hvs|by apply Hd].
Qed.

Lemma item_result_wf v : item_wf v → result_wf (item_result v).
Proof.
  induction v as [s|vs IH|vs IH] using DocumentItem_nested_ind; intros Hw; inversion Hw as [?|? Hvs|? Hs Hvs];
    subst; cbn [item_result]; constructor.
  - done.
  - apply Forall_map. rewrite Forall_forall in *. naive_solver.
  - eapply keys_sorted_keys; [|exact Hs]. clear. induction vs as [|[k v] vs]; cbn; congruence.
  - apply Forall_map. rewrite Forall_forall in *. intros [k v] Hp. cbn.
    split; [by apply (Hvs (k, v))|by apply (IH (k, v)), (Hvs (k, v))].
Qed.

Lemma item_result_free v : document_free v = true → result_free (item_result v) = true.
Proof.
  induction v as [s|vs IH|vs IH] using DocumentItem_nested_ind; intros Hd; [done|..].
  - cbn [document_free item_result result_free] in *. apply forallb_Forall in Hd.
    apply forallb_Forall, Forall_map. rewrite Forall_forall in *. intros v Hv. by apply IH, Hd.
  - apply item_free_entries in Hd. cbn [item_result]. apply result_free_entries.
    apply Forall_map. rewrite Forall_forall in *. intros [k v] Hp. apply (IH (k, v)); [done|by apply (Hd (k, v))].
Qed.

Lemma item_result_canonical v : result_canonical (item_result v) = item_result (canonical v).
Proof.
  induction v as [s|vs IH|vs IH] using DocumentItem_nested_ind; [done|..].
  - cbn. f_equal. rewrite !map_map. apply map_ext_Forall. done.
  - cbn. f_equal. rewrite !map_map. apply map_ext_Forall. eapply Forall_impl; [exact IH|].
    intros [k v] Hv. cbn in *. by rewrite Hv.
Qed.

(** The root tag of the scalar that holds a document. *)
Definition scalar_of (root : DocumentRoot) (document : bytes) : ScalarValue :=
  match root with RootList => ScalarList document | RootMap => ScalarMap document end.

(** Reading a document is decoding it. *)
Lemma from_property_decode root document :
  bytes_wf document →
  from_property (scalar_of root document) = (item_result <$> decode document root).
Proof.
  intros Hb. pose proof (decode_post document root Hb) as Hp.
  destruct root; cbn [scalar_of]; unfold from_property; cbn [from_property_rounds];
    unfold DocumentList_items, DocumentMap_entries; destruct (decode document _) as [v|e|w]; try done;
    destruct Hp as ((Hw & Hf & _) & Hr & _), v as [s|vs|vs]; try done; rbind.
  - change (mapM _ vs ≫= _)
      with (document_item_to_result (from_property_rounds 0) (ItemList vs)). by rewrite to_result_free.
  - change (collect_entries _ vs ≫= _)
      with (document_item_to_result (from_property_rounds 0) (ItemMap vs)). by rewrite to_result_free.
Qed.

Lemma from_property_post s :
  scalar_wf s → post (from_property s) (λ m, result_wf m ∧ result_free m = true).
Proof.
  intros Hs. destruct (is_document s) eqn:Hd.
  - assert (∃ root document, s = scalar_of root document ∧ bytes_wf document) as (root & d & -> & Hb)
      by (destruct s; try done; [by exists RootList, document|by exists RootMap, document]).
    rewrite from_property_decode by done. pose proof (decode_post d root Hb) as Hp.
    destruct (decode d root) as [v|e|w]; try done. destruct Hp as ((Hw & Hf & _) & _).
    split; [by apply item_result_wf|by apply item_result_free].
  - unfold from_property. rewrite from_property_plain by done. split; [by constructor|].
    cbn. by rewrite Hd.
Qed.
End reading.

(** ** Writing documents *)

Section writing.
Context `{Allocator}.

(** No output outgrows the address space. *)
Lemma push_byte_fits out b out' : push_byte out b = Ok out' → zlen out' ≤ isize_max.
Proof.
  unfold push_byte. destruct (grant _ _) eqn:Hg; [|done]. intros [= <-]. apply grant_bound in Hg.
  by rewrite zlen_app.
Qed.
Lemma extend_output_fits out bs out' : extend_output out bs = Ok out' → zlen out' ≤ isize_max.
Proof.
  unfold extend_output. destruct (grant _ _) eqn:Hg; [|done]. intros [= <-]. apply grant_bound in Hg.
  by rewrite zlen_app.
Qed.
Lemma push_bytes_fits out bs out' : push_bytes out bs = Ok out' → zlen out' ≤ isize_max.
Proof. unfold push_bytes. intros Hp. inv_ok. by eapply extend_output_fits. Qed.

Lemma encode_scalar_fits out v out' : encode_scalar out v = Ok out' → zlen out' ≤ isize_max.
Proof.
  destruct v as [|[]| | | | | | | | | | | |]; cbn [encode_scalar]; intros Hp; inv_ok;
    eauto using push_byte_fits, extend_output_fits, push_bytes_fits.
Qed.

Lemma push_len_fits out n out' : push_len out n = Ok out' → zlen out' ≤ isize_max.
Proof. unfold push_len. intros Hp. inv_ok. by eapply extend_output_fits. Qed.

Lemma collection_fits (out : bytes) tag n (values : Result (list EncodeFrame)) out' st' :
  (output ← push_byte out tag; output ← push_len output n;
   stack ← values; Ok (output, stack)) = Ok (out', st') → zlen out' ≤ isize_max.
Proof.
  intros (o1 & _ & (o2 & Ho2 & (st & _ & [= <- <-])%bind_Ok_inv)%bind_Ok_inv)%bind_Ok_inv.
  by eapply push_len_fits.
Qed.

Lemma encode_frame_fits out f st out' st' :
  encode_frame out f st = Ok (out', st') → zlen out ≤ isize_max → zlen out' ≤ isize_max.
Proof.
  intros Hf Ho. destruct f as [[s|vs|vs]|vs|vs]; cbn [encode_frame] in Hf.
  - apply bind_Ok_inv in Hf as (o & Hs & [= <- <-]). by eapply encode_scalar_fits.
  - apply (collection_fits out LIST (zlen vs)
      (match vs with [] => Ok st | _ => push_frame st (EncodeList vs) end) out' st').
    by destruct vs.
  - apply (collection_fits out MAP (zlen vs)
      (match vs with [] => Ok st | _ => push_frame st (EncodeMap vs) end) out' st').
    by destruct vs.
  - destruct vs as [|v vs]; [by injection Hf as <- <-|].
    apply bind_Ok_inv in Hf as (u & _ & [= <- <-]). done.
  - destruct vs as [|[k v] vs]; [by injection Hf as <- <-|].
    apply bind_Ok_inv in Hf as (o & Hk & (u & _ & [= <- <-])%bind_Ok_inv). by eapply push_bytes_fits.
Qed.

Lemma encode_loop_fits fuel out st out' :
  encode_loop fuel out st = Ok out' → zlen out ≤ isize_max → zlen out' ≤ isize_max.
Proof.
  revert out st. induction fuel as [|fuel IH]; intros out [|f st]; cbn [encode_loop]; try (by intros [= <-]).
  destruct (encode_frame out f st) as [[o s]|e|w] eqn:Hf; try done. cbn. intros Hl Ho.
  eapply IH; [exact Hl|]. by eapply encode_frame_fits.
Qed.

Lemma encode_fits v root bs : encode v root = Ok bs → zlen bs ≤ isize_max.
Proof.
  unfold encode, encode_item. destruct (negb _); [done|]. intros He. inv_ok. case_decide; inv_ok. subst.
  eapply encode_loop_fits; [done|]. by eapply push_byte_fits.
Qed.

(** A value without documents becomes the document tree of the same shape. *)
Lemma to_item_free again v :
  result_wf v → result_free v = true →
  post (result_to_item again v) (λ i, item_wf i ∧ document_free i = true ∧ item_result i = v).
Proof.
  induction v as [s|n|e|ns es|vs|vs IH|vs IH] using ResultValue_nested_ind; intros Hw Hf; try done.
  - cbn in *. apply negb_true_iff in Hf. rewrite Hf. inversion Hw; subst. split_and!; [by constructor| |done].
    cbn. by rewrite Hf.
  - inversion Hw as [| | | | |? Hvs|]; subst. cbn [result_free] in Hf. apply forallb_Forall in Hf.
    cbn [result_to_item]. eapply post_bind.
    { apply (mapM_post _ vs (λ v i, item_wf i ∧ document_free i = true ∧ item_result i = v)).
      rewrite Forall_forall in *. auto. }
    intros is_ His. cbn. split_and!.
    + constructor. eapply Forall2_Forall_r; [exact His|]. apply Forall_true. naive_solver.
    + apply forallb_Forall. eapply Forall2_Forall_r; [exact His|]. apply Forall_true. naive_solver.
    + f_equal. clear -His. induction His as [|v i vs is_ (_ & _ & <-)]; [done|]. cbn. by f_equal.
  - inversion Hw as [| | | | | |? Hs Hvs]; subst. apply result_free_entries in Hf.
    cbn [result_to_item]. eapply post_bind.
    { apply (collect_entries_post _ vs (λ v i, item_wf i ∧ document_free i = true ∧ item_result i = v)); [done|].
      rewrite Forall_forall in *. intros p Hp. apply IH; [done|by apply Hvs|by apply Hf]. }
    intros is_ [Hsi His]. cbn. split_and!.
    + constructor; [done|]. clear -His Hvs. induction His as [|[k v] [k' i] vs is_ [Hk (Hw & _)]]; [constructor|].
      apply Forall_cons in Hvs as [[? _] ?]. cbn in *. subst. constructor; auto.
    + apply item_free_entries. eapply Forall2_Forall_r; [exact His|]. apply Forall_true.
      intros [k v] [k' i] [_ Hi]. apply Hi.
    + f_equal. clear -His. induction His as [|[k v] [k' i] vs is_ [Hk (_ & _ & Hi)]]; [done|].
      cbn in *. subst. by f_equal.
Qed.

(** The tree a value is stored as: its documents are inlined. *)
Definition stores (v : ResultValue) (i : DocumentItem) : Prop :=
  item_wf i ∧ document_free i = true ∧ materialized v = Ok (item_result i).

Lemma stores_list vs is_ : Forall2 stores vs is_ → stores (ResList vs) (ItemList is_).
Proof.
  intros His. unfold stores. cbn [materialized item_result]. split_and!.
  - constructor. eapply Forall2_Forall_r; [exact His|]. apply Forall_true. by intros v i (? & _).
  - apply forallb_Forall. eapply Forall2_Forall_r; [exact His|]. apply Forall_true. by intros v i (_ & ? & _).
  - rewrite (mapM_Ok _ vs (map item_result is_)); [done|].
    induction His as [|v i vs is_ (_ & _ & Hi)]; constructor; done.
Qed.

Lemma stores_map vs is_ :
  keys_sorted vs → Forall (λ p, str_wf p.1) vs → Forall2 (entry_rel stores) vs is_ →
  stores (ResMap vs) (ItemMap is_).
Proof.
  intros Hs Hk His. unfold stores. cbn [materialized item_result]. split_and!.
  - constructor; [eapply keys_sorted_keys; [by eapply Forall2_keys|done]|]. clear Hs.
    induction His as [|[k v] [k' i] vs is_ [Hkk (Hw & _)]]; [constructor|]. apply Forall_cons in Hk as [? ?].
    cbn in *. subst. constructor; auto.
  - apply item_free_entries. eapply Forall2_Forall_r; [exact His|]. apply Forall_true.
    intros [k v] [k' i] [_ (_ & Hi & _)]. apply Hi.
  - rewrite (collect_entries_Ok _ vs (map (λ '(k, v), (k, item_result v)) is_)); [done|done|]. clear Hs Hk.
    induction His as [|[k v] [k' i] vs is_ [Hkk (_ & _ & Hi)]]; constructor; [|done]. by split.
Qed.

Lemma to_item v : result_wf v → post (result_to_document_item v) (stores v).
Proof.
  unfold result_to_document_item.
  induction v as [s|n|e|ns es|vs|vs IH|vs IH] using ResultValue_nested_ind; intros Hw; try done.
  - inversion Hw; subst. cbn [result_to_item]. destruct (is_document s) eqn:Hd.
    + pose proof (from_property_post s ltac:(done)) as Hp.
      destruct (from_property s) as [m|e|w] eqn:Hm; try done. destruct Hp as [Hwm Hfm]. rbind.
      pose proof (to_item_free (λ _, Abort OutOfFuel) m Hwm Hfm) as Hi.
      destruct m as [| | | | |vs|vs]; try done; cbn [result_to_item] in Hi;
        (eapply post_mono; [exact Hi|]); intros i (? & ? & Hr); unfold stores; cbn [materialized];
        by rewrite Hm, Hr.
    + split_and!; [by constructor|cbn; by rewrite Hd|]. cbn [materialized]. by apply from_property_plain.
  - inversion Hw as [| | | | |? Hvs|]; subst. cbn [result_to_item]. eapply post_bind.
    { apply (mapM_post _ vs stores). rewrite Forall_forall in *. auto. }
    intros is_ His. by apply stores_list.
  - inversion Hw as [| | | | | |? Hs Hvs]; subst. cbn [result_to_item]. eapply post_bind.
    { apply (collect_entries_post _ vs stores); [done|]. rewrite Forall_forall in *.
      intros p Hp. apply IH; [done|by apply Hvs]. }
    intros is_ [Hsi His]. apply stores_map; [done| |done].
    eapply Forall_impl; [exact Hvs|]. by intros p [? _].
Qed.

(** Storing a list or a map keeps the tree. *)
Lemma into_property_stores v :
  result_wf v → match v with ResScalar _ => False | _ => True end →
  post (into_property v) (λ p, ∃ i root bs,
    stores v i ∧ root_matches i root = true ∧ p = scalar_of root bs ∧ encode i root = Ok bs).
Proof.
  intros Hw Hc. destruct v as [s|n|e|ns es|vs|vs|vs]; try done; cbn [into_property].
  - inversion Hw as [| | | | |? Hvs|]; subst. eapply post_bind.
    { apply (mapM_post _ vs stores). eapply Forall_impl; [exact Hvs|]. intros. by apply to_item. }
    intros is_ His%stores_list. unfold DocumentList_new.
    destruct (encode_cases (ItemList is_) RootList) as [(_ & _ & He)|(e & He & _)]; rewrite He; [|done].
    cbn. by exists (ItemList is_), RootList, (FORMAT_VERSION :: enc (ItemList is_)).
  - inversion Hw as [| | | | | |? Hs Hvs]; subst. eapply post_bind.
    { apply (collect_entries_post _ vs stores); [done|]. eapply Forall_impl; [exact Hvs|].
      intros p [_ ?]. by apply to_item. }
    intros is_ [Hsi His]. apply stores_map in His;
      [|done|eapply Forall_impl; [exact Hvs|]; by intros p [? _]].
    unfold DocumentMap_new.
    destruct (encode_cases (ItemMap is_) RootMap) as [(_ & _ & He)|(e & He & _)]; rewrite He; [|done].
    cbn. by exists (ItemMap is_), RootMap, (FORMAT_VERSION :: enc (ItemMap is_)).
Qed.
End writing.

(** ** Theorems *)

Lemma stored_reads_back `{Allocator} v p :
  (∀ b n, n ≤ isize_max → grant b n = true) → result_wf v →
  match v with ResList _ | ResMap _ => True | _ => False end →
  into_property v = Ok p →
  ∃ m, materialized v = Ok m ∧ from_property p = Ok (result_canonical m).
Proof.
  intros granted Hw Hc Hp.
  destruct (post_Ok_inv _ _ _ (into_property_stores v Hw ltac:(by destruct v)) Hp)
    as (i & root & bs & (Hwi & Hfi & Hm) & Hr & -> & He).
  exists (item_result i). split; [done|].
  pose proof (encode_fits _ _ _ He) as Hfit.
  destruct (encode_cases i root) as [(_ & _ & He')|(e & He' & _)]; rewrite He in He'; [|done].
  injection He' as ->. rewrite from_property_decode.
  - pose proof (canonical_good i Hwi Hfi) as Hg.
    rewrite <- enc_canonical in *. rewrite decode_enc; [cbn; by rewrite item_result_canonical|done..| |].
    + by destruct i.
    + done.
  - constructor; [by vm_compute|]. by apply enc_wf.
Qed.

Lemma conversions_safe `{Allocator} s v :
  scalar_wf s → result_wf v →
  aborts (from_property s) = false ∧ aborts (into_property v) = false
  ∧ (∀ m, from_property s = Ok m → result_wf m ∧ result_free m = true).
Proof.
  intros Hs Hv. pose proof (from_property_post s Hs) as Hp. split_and!; [by eapply post_no_abort| |].
  - destruct v as [x|n|e|ns es|vs|vs|vs]; try done; eapply post_no_abort; by apply into_property_stores.
  - intros m Hm. by apply (post_Ok_inv _ _ _ Hp).
Qed.

(** C5: reading any property, and storing any result value, terminates
    without a panic under any allocator; what is read contains no further
    document, so one round of decoding is enough.  A list or map stored as a
    property and read back is the value with its nested documents inlined and
    its floats normalised. *)
Theorem property_roundtrip `{Allocator} s v :
  scalar_wf s → result_wf v →
  aborts (from_property s) = false ∧ aborts (into_property v) = false
  ∧ (∀ m, from_property s = Ok m → result_wf m ∧ result_free m = true)
  ∧ ((∀ b n, n ≤ isize_max → grant b n = true) → match v with ResList _ | ResMap _ => True | _ => False end →
     ∀ p, into_property v = Ok p → ∃ m, materialized v = Ok m ∧ from_property p = Ok (result_canonical m)).
Proof.
  intros Hs Hv. destruct (conversions_safe s v Hs Hv) as (Hf & Hi & Hm). split_and!; [done..|].
  intros granted Hc p. by apply stored_reads_back.
Qed.

(** A list of a negative zero and a stored map. *)
Definition sample_value : ResultValue :=
  ResList [ResScalar (ScalarFloat 0x8000000000000000); ResScalar (ScalarMap sample_bytes)].
Definition sample_property : ScalarValue :=
  match into_property (H := roomy) sample_value with Ok p => p | _ => ScalarNull end.

Lemma sample_value_wf : result_wf sample_value.
Proof. constructor. repeat apply Forall_cons_2; try apply Forall_nil_2; constructor; decided. Qed.

Lemma property_roundtrip_witness :
  aborts (from_property (H := roomy) sample_property) = false
  ∧ ∃ m, materialized (H := roomy) sample_value = Ok m
         ∧ from_property (H := roomy) sample_property = Ok (result_canonical m).
Proof.
  destruct (property_roundtrip (H := roomy) sample_property sample_value ltac:(decided) sample_value_wf)
    as (Ha & _ & _ & Hr).
  split; [exact Ha|]. apply (Hr roomy_grants I). vm_compute. reflexivity.
Defined.
