(* ===== verification/Ordering.v ===== *)
(** * Total order of result values: [crates/execution/src/ordering.rs]

    The comparison behind [ORDER BY], grouping, min/max and tie-breaking.
    ([crates/cypher/src/order_key.rs] and [crates/execution/src/order_key.rs]
    repeat the number and duration helpers verbatim.)

    [OrderedFloat] is a third-party type; [OrderedFloatOrd] is its documented
    [Ord]: the IEEE order, with every NaN equal and above the rest.  Documents
    inside values are materialised once on each side, so two rounds of the
    recursive call that follows a materialisation are enough. *)

From stdpp Require Import prelude gmap strings sorting.
From Stdlib Require Import ZArith Lia.
From S2P Require Import Prelude Machine Types Document Results.

Local Open Scope Z_scope.

Class OrderedFloatOrd := {
  ordered_float_cmp : Z → Z → comparison;
  ordered_float_cmp_spec a b :
    ordered_float_cmp a b
    = match f64_is_nan a, f64_is_nan b with
      | true, true => Eq
      | true, false => Gt
      | false, true => Lt
      | false, false => f64_scaled a ?= f64_scaled b
      end;
}.

(** ** Numbers *)

Definition NEGATIVE_INFINITY : Z := 1.
Definition NEGATIVE_FINITE : Z := 2.
Definition ZERO : Z := 3.
Definition POSITIVE_FINITE : Z := 4.
Definition POSITIVE_INFINITY : Z := 5.
Definition NAN : Z := 6.
Definition MIN_BINARY_EXPONENT : Z := -1074.

Record OrderedNumber := mkNumber { category : Z; exponent : Z; significand : Z }.

(** The derived [Ord]. *)
Definition OrderedNumber_cmp (a b : OrderedNumber) : comparison :=
  then_cmp (category a ?= category b)
    (then_cmp (exponent a ?= exponent b) (significand a ?= significand b)).

Definition OrderedNumber_category (category : Z) : OrderedNumber := mkNumber category 0 0.
Definition OrderedNumber_zero : OrderedNumber := OrderedNumber_category ZERO.

(** The assertion of debug builds is a panic of the model. *)
Definition ordered_finite (negative : bool) (exponent significand : Z) : Result OrderedNumber :=
  if (MIN_BINARY_EXPONENT <=? exponent) && (exponent <=? 1023) then
    let biased := (exponent - MIN_BINARY_EXPONENT) mod 2 ^ 16 in
    if negative then Ok (mkNumber NEGATIVE_FINITE (u16_not biased) (u64_not significand))
    else Ok (mkNumber POSITIVE_FINITE biased significand)
  else Abort Panicked.

Definition ordered_integer (value : Z) : Result OrderedNumber :=
  if value =? 0 then Ok OrderedNumber_zero
  else
    let magnitude := Z.abs value in
    let width := 64 - leading_zeros64 magnitude in
    ordered_finite (value <? 0) (width - 1) (u64_shl magnitude (64 - width)).

Definition ordered_float (bits : Z) : Result OrderedNumber :=
  if f64_is_nan bits then Ok (OrderedNumber_category NAN)
  else if bits =? f64_neg_infinity_bits then Ok (OrderedNumber_category NEGATIVE_INFINITY)
  else if bits =? f64_infinity_bits then Ok (OrderedNumber_category POSITIVE_INFINITY)
  else if f64_is_zero bits then Ok OrderedNumber_zero
  else
    let negative := negb (Z.shiftr bits 63 =? 0) in
    let stored_exponent := Z.land (Z.shiftr bits 52) 0x7ff in
    let fraction := Z.land bits (Z.shiftl 1 52 - 1) in
    let '(exponent, significand) :=
      if stored_exponent =? 0 then
        let width := 64 - leading_zeros64 fraction in
        (MIN_BINARY_EXPONENT + width - 1, u64_shl fraction (64 - width))
      else (stored_exponent - 1023, u64_shl (Z.lor (Z.shiftl 1 52) fraction) 11) in
    ordered_finite negative exponent significand.

Definition compare_i64_f64 (integer float : Z) : Result comparison :=
  a ← ordered_integer integer;
  b ← ordered_float float;
  Ok (OrderedNumber_cmp a b).

Definition normalized_zoned_time (nanos offset_seconds : Z) : Z :=
  i64_saturating_sub nanos (i64_saturating_mul offset_seconds 1000000000).

Definition MONTH_NANOS : Z := 2629746000000000.

Definition normalized_duration (months days seconds nanos : Z) : Z :=
  i128_saturating_add
    (i128_saturating_add
       (i128_saturating_add (i128_saturating_mul months MONTH_NANOS)
          (i128_saturating_mul days 86400000000000))
       (i128_saturating_mul seconds 1000000000))
    nanos.

(** ** Scalars *)

Definition bool_cmp (a b : bool) : comparison := Z.b2z a ?= Z.b2z b.

Definition compare_same_scalar `{OrderedFloatOrd} (left right : ScalarValue)
    : Result (option comparison) :=
  match left, right with
  | ScalarBoolean l, ScalarBoolean r => Ok (Some (bool_cmp l r))
  | ScalarInteger l, ScalarInteger r => Ok (Some (l ?= r))
  | ScalarFloat l, ScalarFloat r => Ok (Some (ordered_float_cmp l r))
  | ScalarString l, ScalarString r => Ok (Some (lexZ l r))
  | ScalarDate l, ScalarDate r => Ok (Some (l ?= r))
  | ScalarLocalTime l, ScalarLocalTime r => Ok (Some (l ?= r))
  | ScalarZonedTime ln lo, ScalarZonedTime rn ro =>
      Ok (Some (then_cmp (normalized_zoned_time ln lo ?= normalized_zoned_time rn ro) (lo ?= ro)))
  | ScalarLocalDateTime ls ln, ScalarLocalDateTime rs rn => Ok (Some (then_cmp (ls ?= rs) (ln ?= rn)))
  | ScalarZonedDateTime ls ln lz, ScalarZonedDateTime rs rn rz =>
      Ok (Some (then_cmp (ls ?= rs) (then_cmp (ln ?= rn) (lexZ lz rz))))
  | ScalarDuration _ _ _ _, ScalarDuration _ _ _ _ => Ok None
  | _, _ => Ok None
  end.

Definition compare_duration (left right : ScalarValue) : comparison :=
  match left, right with
  | ScalarDuration lm ld ls ln, ScalarDuration rm rd rs rn =>
      normalized_duration lm ld ls ln ?= normalized_duration rm rd rs rn
  | _, _ => Eq
  end.

Definition scalar_rank (v : ScalarValue) : Z :=
  match v with
  | ScalarZonedDateTime _ _ _ => 0
  | ScalarLocalDateTime _ _ => 1
  | ScalarDate _ => 2
  | ScalarZonedTime _ _ => 3
  | ScalarLocalTime _ => 4
  | ScalarDuration _ _ _ _ => 5
  | ScalarString _ | ScalarBytes _ => 6
  | ScalarBoolean _ => 7
  | ScalarInteger _ | ScalarFloat _ => 8
  | ScalarNull => 9
  | ScalarList _ => 10
  | ScalarMap _ => 11
  end.

Definition compare_ranked `{OrderedFloatOrd} (left right : ScalarValue) : Result comparison :=
  if negb (scalar_rank left =? scalar_rank right) then Ok (scalar_rank left ?= scalar_rank right)
  else
    match compare_same_scalar left right with
    | Ok (Some ordering) => Ok ordering
    | Ok None => Ok (compare_duration left right)
    | Err _ => Ok Eq
    | Abort a => Abort a
    end.

Definition total_compare_scalar `{OrderedFloatOrd} (left right : ScalarValue) : Result comparison :=
  match left, right with
  | ScalarInteger l, ScalarFloat r => compare_i64_f64 l r
  | ScalarFloat l, ScalarInteger r => CompOpp <$> compare_i64_f64 r l
  | ScalarString _, ScalarBytes _ => Ok Lt
  | ScalarBytes _, ScalarString _ => Ok Gt
  | ScalarBytes l, ScalarBytes r => Ok (lexZ l r)
  | _, _ => compare_ranked left right
  end.

(** ** Values *)

Definition value_rank (v : ResultValue) : Z :=
  match v with
  | ResMap _ => 0
  | ResNode _ => 1
  | ResRelationship _ => 2
  | ResList _ => 3
  | ResPath _ _ => 4
  | ResVector _ => 5
  | ResScalar v => saturating_add u8_max 6 (scalar_rank v)
  end.

(** [.iter().zip(right).map(cmp).find(|order| *order != Equal)]. *)
Definition zip_find {A B} (cmp : A → B → Result comparison) : list A → list B → Result (option comparison) :=
  fix go l k :=
    match l, k with
    | x :: l, y :: k => c ← cmp x y; if is_eq c then go l k else Ok (Some c)
    | _, _ => Ok None
    end.

(** [compare_sequences], over the comparison of elements. *)
Definition compare_sequences {A} (cmp : A → A → Result comparison) (left right : list A)
    : Result comparison :=
  found ← zip_find cmp left right;
  Ok (default (zlen left ?= zlen right) found).

Definition compare_maps {A} (cmp : A → A → Result comparison) (left right : list (bytes * A))
    : Result comparison :=
  match then_cmp (zlen left ?= zlen right) (lex lexZ (map fst left) (map fst right)) with
  | Eq =>
      found ← zip_find (λ '(_, l) '(_, r), cmp l r) left right;
      Ok (default Eq found)
  | c => Ok c
  end.

(** The loop of [compare_path_ids] from [index] on, over [count] elements. *)
Fixpoint compare_path_from (count : nat) (index : Z) (ln : list ResultNode) (le : list ResultEdge)
    (rn : list ResultNode) (re : list ResultEdge) : Result (option comparison) :=
  match count with
  | O => Ok None
  | S count =>
      order ←
        (if index mod 2 =? 0 then
           l ← index_at ln (index / 2); r ← index_at rn (index / 2); Ok (node_id l ?= node_id r)
         else
           l ← index_at le (index / 2); r ← index_at re (index / 2); Ok (edge_id l ?= edge_id r));
      if is_eq order then compare_path_from count (index + 1) ln le rn re else Ok (Some order)
  end.

Definition compare_path_ids (ln : list ResultNode) (le : list ResultEdge)
    (rn : list ResultNode) (re : list ResultEdge) : Result comparison :=
  let left_len := saturating_add usize_max (zlen ln) (zlen le) in
  let right_len := saturating_add usize_max (zlen rn) (zlen re) in
  found ← compare_path_from (Z.to_nat (Z.min left_len right_len)) 0 ln le rn re;
  Ok (default (left_len ?= right_len) found).

Section total_compare.
Context `{Allocator} `{OrderedFloatOrd}.

(** [if let Scalar(value) && value.is_document() && let Ok(materialized) = ...]. *)
Definition document_value (v : ResultValue) : Result (option ResultValue) :=
  match v with
  | ResScalar s =>
      if is_document s then
        match from_property s with
        | Ok m => Ok (Some m)
        | Err _ => Ok None
        | Abort a => Abort a
        end
      else Ok None
  | _ => Ok None
  end.

(** [total_compare]; [again] is the call after a materialisation. *)
Fixpoint compare_values (again : ResultValue → ResultValue → Result comparison)
    (left right : ResultValue) : Result comparison :=
  materialized ← document_value left;
  match materialized with
  | Some m => again m right
  | None =>
      materialized ← document_value right;
      match materialized with
      | Some m => again left m
      | None =>
          let left_rank := value_rank left in
          let right_rank := value_rank right in
          if negb (left_rank =? right_rank) then Ok (left_rank ?= right_rank)
          else
            match left, right with
            | ResMap l, ResMap r => compare_maps (compare_values again) l r
            | ResNode l, ResNode r => Ok (node_id l ?= node_id r)
            | ResRelationship l, ResRelationship r => Ok (edge_id l ?= edge_id r)
            | ResList l, ResList r => compare_sequences (compare_values again) l r
            | ResPath ln le, ResPath rn re => compare_path_ids ln le rn re
            | ResVector l, ResVector r =>
                compare_sequences (λ x y, Ok (f32_total_cmp x y)) l r
            | ResScalar l, ResScalar r => total_compare_scalar l r
            | _, _ => Ok Eq
            end
      end
  end.

Fixpoint total_compare_rounds (rounds : nat) : ResultValue → ResultValue → Result comparison :=
  compare_values
    match rounds with O => λ _ _, Abort OutOfFuel | S rounds => total_compare_rounds rounds end.

Definition total_compare : ResultValue → ResultValue → Result comparison := total_compare_rounds 2.
End total_compare.
