(* ===== verification/OrderKey.v ===== *)
(** * Radix keys for the total order: [crates/execution/src/order_key.rs]

    A prefix-free encoding of result values whose bytes compare as the values
    do.  ([crates/cypher/src/order_key.rs] is the same code.)  Buffers grow
    through [Allocator]; the equality assertions of debug builds on the
    computed lengths are panics of the model. *)

From stdpp Require Import prelude gmap strings sorting.
From Stdlib Require Import ZArith Lia.
From S2P Require Import Prelude Machine Types Document Results Ordering.

Local Open Scope Z_scope.

Definition MAP : Z := 1.
Definition NODE : Z := 2.
Definition RELATIONSHIP : Z := 3.
Definition LIST : Z := 4.
Definition PATH : Z := 5.
Definition VECTOR : Z := 6.
Definition ZONED_DATETIME : Z := 7.
Definition LOCAL_DATETIME : Z := 8.
Definition DATE : Z := 9.
Definition ZONED_TIME : Z := 10.
Definition LOCAL_TIME : Z := 11.
Definition DURATION : Z := 12.
Definition STRING_OR_BYTES : Z := 13.
Definition BOOLEAN : Z := 14.
Definition NUMBER : Z := 15.
Definition NULL : Z := 16.
Definition STRING : Z := 1.
Definition BYTES : Z := 2.

Definition key_too_large : Error :=
  Error_new ResultBudgetExceeded "total-order key length exceeds the addressable result budget".
Definition key_allocation_failed : Error :=
  Error_new ResultBudgetExceeded
    "total-order key bytes cannot be admitted within the result memory budget".
Definition unmaterialized_document : Error :=
  Error_new CorruptStorage "document scalar reached total-order encoding without materialization".

(** ** Digits *)

Definition append_octet (output : bytes) (byte : Z) : bytes :=
  output ++ [Z.shiftr byte 4 + 1; Z.land byte 0x0f + 1].

Definition append_octets (output bs : bytes) : bytes := foldl append_octet output bs.

Definition append_bytes (output bs : bytes) : bytes := append_octets output bs ++ [0].

Definition append_u64 (output : bytes) (value : Z) : bytes := append_octets output (be_bytes 8 value).
Definition append_u32 (output : bytes) (value : Z) : bytes := append_octets output (be_bytes 4 value).
Definition append_u16 (output : bytes) (value : Z) : bytes := append_octets output (be_bytes 2 value).

(** [(value as u64) ^ (1 << 63)] and its relatives. *)
Definition append_i64 (output : bytes) (value : Z) : bytes :=
  append_u64 output (Z.lxor (value mod 2 ^ 64) (Z.shiftl 1 63)).
Definition append_i32 (output : bytes) (value : Z) : bytes :=
  append_u32 output (Z.lxor (value mod 2 ^ 32) (Z.shiftl 1 31)).
Definition append_i128 (output : bytes) (value : Z) : bytes :=
  append_octets output (be_bytes 16 (Z.lxor (value mod 2 ^ 128) (Z.shiftl 1 127))).

Definition append_number (output : bytes) (value : OrderedNumber) : bytes :=
  append_u64 (append_u16 (output ++ [category value]) (exponent value)) (significand value).

Definition sortable_f32_bits (bits : Z) : Z :=
  if Z.shiftr bits 31 =? 0 then Z.lxor bits (Z.shiftl 1 31) else u32_not bits.

(** ** Scalars *)

Definition append_scalar (output : bytes) (value : ScalarValue) : Result bytes :=
  match value with
  | ScalarZonedDateTime seconds nanos timezone =>
      Ok (append_bytes (append_u32 (append_i64 (output ++ [ZONED_DATETIME]) seconds) nanos) timezone)
  | ScalarLocalDateTime seconds nanos =>
      Ok (append_u32 (append_i64 (output ++ [LOCAL_DATETIME]) seconds) nanos)
  | ScalarDate value => Ok (append_i64 (output ++ [DATE]) value)
  | ScalarZonedTime nanos offset_seconds =>
      Ok (append_i32
            (append_i64 (output ++ [ZONED_TIME]) (normalized_zoned_time nanos offset_seconds))
            offset_seconds)
  | ScalarLocalTime value => Ok (append_i64 (output ++ [LOCAL_TIME]) value)
  | ScalarDuration months days seconds nanos =>
      Ok (append_i128 (output ++ [DURATION]) (normalized_duration months days seconds nanos))
  | ScalarString value => Ok (append_bytes (output ++ [STRING_OR_BYTES; STRING]) value)
  | ScalarBytes value => Ok (append_bytes (output ++ [STRING_OR_BYTES; BYTES]) value)
  | ScalarBoolean value => Ok (output ++ [BOOLEAN; Z.b2z value + 1])
  | ScalarInteger value =>
      number ← ordered_integer value;
      Ok (append_number (output ++ [NUMBER]) number)
  | ScalarFloat value =>
      number ← ordered_float value;
      Ok (append_number (output ++ [NUMBER]) number)
  | ScalarNull => Ok (output ++ [NULL])
  | ScalarList _ | ScalarMap _ => Err unmaterialized_document
  end.

(** ** Lengths *)

Definition checked_add_len (left right : Z) : Result Z :=
  ok_or (checked_add usize_max left right) key_too_large.

Definition encoded_bytes_len (length : Z) : Result Z :=
  ok_or (length ← checked_mul usize_max length 2; checked_add usize_max length 1) key_too_large.

Definition length_u64 (length : Z) : Result Z := ok_or (u64_try_from length) key_too_large.

Definition validate_path (nodes relationships : Z) : Result unit :=
  if negb (nodes =? saturating_add usize_max relationships 1) then
    Err (Error_new QueryType "path result must contain exactly one more node than relationship")
  else Ok tt.

Definition scalar_key_len (value : ScalarValue) : Result Z :=
  match value with
  | ScalarZonedDateTime _ _ timezone =>
      length ← encoded_bytes_len (zlen timezone); checked_add_len 25 length
  | ScalarLocalDateTime _ _ | ScalarZonedTime _ _ => Ok 25
  | ScalarDate _ => Ok 17
  | ScalarLocalTime _ => Ok 17
  | ScalarDuration _ _ _ _ => Ok 33
  | ScalarString value => length ← encoded_bytes_len (zlen value); checked_add_len 2 length
  | ScalarBytes value => length ← encoded_bytes_len (zlen value); checked_add_len 2 length
  | ScalarBoolean _ => Ok 2
  | ScalarInteger _ | ScalarFloat _ => Ok 22
  | ScalarNull => Ok 1
  | ScalarList _ | ScalarMap _ => Err unmaterialized_document
  end.

(** [values.iter().try_fold(start, |length, value| checked_add(length, f(value)?))]. *)
Definition try_fold_len {A} (f : A → Result Z) : Z → list A → Result Z :=
  fix go length values {struct values} :=
    match values with
    | [] => Ok length
    | value :: values =>
        n ← f value;
        length ← checked_add_len length n;
        go length values
    end.

(** [for value in values { append(output, value)? }]. *)
Definition append_all {A} (append : bytes → A → Result bytes) : bytes → list A → Result bytes :=
  fix go output values {struct values} :=
    match values with
    | [] => Ok output
    | value :: values => output ← append output value; go output values
    end.

(** The alternating identifiers of a path, from [index] on. *)
Fixpoint append_path (count : nat) (index : Z) (output : bytes)
    (nodes : list ResultNode) (relationships : list ResultEdge) : Result bytes :=
  match count with
  | O => Ok output
  | S count =>
      id ←
        (if index mod 2 =? 0 then n ← index_at nodes (index / 2); Ok (node_id n)
         else e ← index_at relationships (index / 2); Ok (edge_id e));
      append_path count (index + 1) (append_u64 output id) nodes relationships
  end.

Section keys.
Context `{Allocator}.

(** [append_value]; [again] is the call on a materialised document. *)
Fixpoint append_value_with (again : bytes → ResultValue → Result bytes)
    (output : bytes) (value : ResultValue) {struct value} : Result bytes :=
  match value with
  | ResMap values =>
      let output := output ++ [MAP] in
      length ← length_u64 (zlen values);
      let output := append_u64 output length in
      let output := foldl append_bytes output (map fst values) in
      append_all (λ output '(_, value), append_value_with again output value) output values
  | ResNode node => Ok (append_u64 (output ++ [NODE]) (node_id node))
  | ResRelationship relationship => Ok (append_u64 (output ++ [RELATIONSHIP]) (edge_id relationship))
  | ResList values =>
      output ← append_all (append_value_with again) (output ++ [LIST]) values;
      Ok (output ++ [0])
  | ResPath nodes relationships =>
      _ ← validate_path (zlen nodes) (zlen relationships);
      output ← append_path
        (Z.to_nat (saturating_add usize_max (zlen nodes) (zlen relationships))) 0
        (output ++ [PATH]) nodes relationships;
      Ok (output ++ [0])
  | ResVector values =>
      let output :=
        foldl (λ output value, append_u32 output (sortable_f32_bits value)) (output ++ [VECTOR]) values in
      Ok (output ++ [0])
  | ResScalar value =>
      if is_document value then
        materialized ← from_property value;
        again output materialized
      else append_scalar output value
  end.

Definition append_value : bytes → ResultValue → Result bytes :=
  append_value_with (append_value_with (λ _ _, Abort OutOfFuel)).

Fixpoint key_len_with (again : ResultValue → Result Z) (value : ResultValue) : Result Z :=
  match value with
  | ResMap values =>
      keys ← try_fold_len (λ '(name, _), encoded_bytes_len (zlen name)) 0 values;
      nested ← try_fold_len (λ '(_, value), key_len_with again value) 0 values;
      length ← checked_add_len keys nested;
      checked_add_len 17 length
  | ResNode _ | ResRelationship _ => Ok 17
  | ResList values => try_fold_len (key_len_with again) 2 values
  | ResPath nodes relationships =>
      _ ← validate_path (zlen nodes) (zlen relationships);
      length ← ok_or (length ← checked_add usize_max (zlen nodes) (zlen relationships);
                      checked_mul usize_max length 16) key_too_large;
      checked_add_len 2 length
  | ResVector values =>
      length ← ok_or (checked_mul usize_max (zlen values) 8) key_too_large;
      checked_add_len 2 length
  | ResScalar value =>
      if is_document value then
        materialized ← from_property value;
        again materialized
      else scalar_key_len value
  end.

Definition total_order_key_len : ResultValue → Result Z :=
  key_len_with (key_len_with (λ _, Abort OutOfFuel)).

Definition encode_total_order_key (value : ResultValue) : Result bytes :=
  capacity ← total_order_key_len value;
  if grant KeyBytes capacity then
    output ← append_value [] value;
    if zlen output =? capacity then Ok output else Abort Panicked
  else Err key_allocation_failed.

(** The grown buffer and the length of the new key. *)
Definition append_total_order_key (output : bytes) (value : ResultValue) : Result (bytes * Z) :=
  length ← total_order_key_len value;
  if grant KeyBytes (zlen output + length) then
    let start := zlen output in
    output ← append_value output value;
    if zlen output - start =? length then Ok (output, length) else Abort Panicked
  else Err key_allocation_failed.

Fixpoint max_total_order_key_len_from (maximum : Z) (values : list ResultValue) : Result Z :=
  match values with
  | [] => Ok maximum
  | value :: values =>
      length ← total_order_key_len value;
      max_total_order_key_len_from (Z.max maximum length) values
  end.

Definition max_total_order_key_len (values : list ResultValue) : Result Z :=
  max_total_order_key_len_from 0 values.
End keys.
