(* ===== verification/OrderingTheorems.v ===== *)
(** * Total order of result values: exact comparison of numbers *)

From stdpp Require Import prelude gmap strings sorting.
From Stdlib Require Import ZArith Lia.
From S2P Require Import Prelude Machine Types Document Results Ordering.

Local Open Scope Z_scope.

(** ** The number an ordered triple stands for

    In units of [2 ^ -1137], so that every significand is an integer; [None]
    is a NaN. *)

(** Above the finite values. *)
Definition beyond : Z := 2 ^ 2161.
Lemma beyond_pos : 0 < beyond.
Proof. by vm_compute. Qed.

Inductive denotes : OrderedNumber → option Z → Prop :=
| denotes_nan : denotes (mkNumber NAN 0 0) None
| denotes_neg_infinity : denotes (mkNumber NEGATIVE_INFINITY 0 0) (Some (- beyond))
| denotes_zero : denotes (mkNumber ZERO 0 0) (Some 0)
| denotes_infinity : denotes (mkNumber POSITIVE_INFINITY 0 0) (Some beyond)
| denotes_negative e s :
    0 ≤ e ≤ 2097 → 2 ^ 63 ≤ s < 2 ^ 64 →
    denotes (mkNumber NEGATIVE_FINITE (u16_not e) (u64_not s)) (Some (- (s * 2 ^ e)))
| denotes_positive e s :
    0 ≤ e ≤ 2097 → 2 ^ 63 ≤ s < 2 ^ 64 →
    denotes (mkNumber POSITIVE_FINITE e s) (Some (s * 2 ^ e)).

(** NaN is above every number. *)
Definition number_cmp (a b : option Z) : comparison :=
  match a, b with
  | None, None => Eq
  | None, Some _ => Gt
  | Some _, None => Lt
  | Some a, Some b => a ?= b
  end.

Definition float_number (bits : Z) : option Z :=
  if f64_is_nan bits then None else Some (f64_scaled bits * 2 ^ 63).
Definition integer_number (value : Z) : option Z := Some (value * 2 ^ 1137).

(** Normalised significands compare lexicographically after the exponent. *)
Lemma normalised_lt e1 s1 e2 s2 :
  0 ≤ e1 < e2 → 2 ^ 63 ≤ s1 < 2 ^ 64 → 2 ^ 63 ≤ s2 < 2 ^ 64 → s1 * 2 ^ e1 < s2 * 2 ^ e2.
Proof.
  intros He Hs1 Hs2. replace e2 with (e1 + (1 + (e2 - e1 - 1))) by lia.
  rewrite !Z.pow_add_r by lia. pose proof (Z.pow_pos_nonneg 2 e1 ltac:(lia) ltac:(lia)).
  pose proof (Z.pow_pos_nonneg 2 (e2 - e1 - 1) ltac:(lia) ltac:(lia)).
  set (p := 2 ^ e1) in *. set (q := 2 ^ (e2 - e1 - 1)) in *.
  change (2 ^ 1) with 2. change (2 ^ 64) with (2 * 2 ^ 63) in *. set (h := 2 ^ 63) in *.
  apply Z.lt_le_trans with (2 * h * p); [nia|]. replace (s2 * (p * (2 * q))) with (2 * s2 * (p * q)) by ring.
  assert (0 < h) by (by vm_compute). apply Z.mul_le_mono_nonneg; nia.
Qed.

Lemma compare_mul_r a b p : 0 < p → (a * p ?= b * p) = (a ?= b).
Proof.
  intros Hp. destruct (Z.compare_spec a b) as [->|Hlt|Hgt]; [apply Z.compare_refl|..].
  - apply Z.compare_lt_iff. nia.
  - apply Z.compare_gt_iff. nia.
Qed.

Lemma normalised_cmp e1 s1 e2 s2 :
  0 ≤ e1 → 0 ≤ e2 → 2 ^ 63 ≤ s1 < 2 ^ 64 → 2 ^ 63 ≤ s2 < 2 ^ 64 →
  (s1 * 2 ^ e1 ?= s2 * 2 ^ e2) = then_cmp (e1 ?= e2) (s1 ?= s2).
Proof.
  intros He1 He2 Hs1 Hs2. destruct (Z.compare_spec e1 e2) as [->|Hlt|Hgt]; cbn [then_cmp].
  - pose proof (Z.pow_pos_nonneg 2 e2 ltac:(lia) He2). by apply compare_mul_r.
  - apply Z.compare_lt_iff. apply normalised_lt; lia.
  - apply Z.compare_gt_iff. apply normalised_lt; lia.
Qed.

Lemma normalised_bounds e s : 0 ≤ e ≤ 2097 → 2 ^ 63 ≤ s < 2 ^ 64 → 0 < s * 2 ^ e < beyond.
Proof.
  intros He Hs. pose proof (Z.pow_pos_nonneg 2 e ltac:(lia) ltac:(lia)).
  assert (2 ^ e ≤ 2 ^ 2097) by (apply Z.pow_le_mono_r; lia).
  replace beyond with (2 ^ 64 * 2 ^ 2097) by (by vm_compute).
  split; [nia|]. apply Z.lt_le_trans with (2 ^ 64 * 2 ^ e); nia.
Qed.

Lemma compare_sub_l c a b : (c - a ?= c - b) = (b ?= a).
Proof.
  destruct (Z.compare_spec b a) as [->|Hlt|Hgt]; [apply Z.compare_refl|..].
  - apply Z.compare_lt_iff. lia.
  - apply Z.compare_gt_iff. lia.
Qed.

(** Decides a comparison whose sides are ordered by linear arithmetic. *)
Ltac solve_compare :=
  symmetry;
  first [apply Z.compare_lt_iff; lia | apply Z.compare_gt_iff; lia | apply Z.compare_eq_iff; lia].

Lemma denotes_cmp m v n w : denotes m v → denotes n w → OrderedNumber_cmp m n = number_cmp v w.
Proof.
  unfold OrderedNumber_cmp. intros Hm Hn. pose proof beyond_pos.
  destruct Hm as [| | | |e1 s1 He1 Hs1|e1 s1 He1 Hs1], Hn as [| | | |e2 s2 He2 Hs2|e2 s2 He2 Hs2].
  all: try (pose proof (normalised_bounds e1 s1 He1 Hs1)); try (pose proof (normalised_bounds e2 s2 He2 Hs2)).
  all: cbn [category exponent significand number_cmp];
    unfold NAN, NEGATIVE_INFINITY, ZERO, POSITIVE_INFINITY, NEGATIVE_FINITE, POSITIVE_FINITE.
  all: cbn [Z.compare Pos.compare Pos.compare_cont then_cmp]; try reflexivity; try solve_compare.
  1,2: match goal with |- _ = match ?x with _ => _ end => destruct x eqn:?; [lia|done || lia..] end.
  - rewrite Z.compare_opp, normalised_cmp by lia.
    unfold u16_not, u64_not. by rewrite !compare_sub_l.
  - by rewrite normalised_cmp by lia.
Qed.

(** ** What the conversions denote *)

Lemma ordered_finite_denotes negative exponent significand :
  MIN_BINARY_EXPONENT ≤ exponent ≤ 1023 → 2 ^ 63 ≤ significand < 2 ^ 64 →
  ∃ n, ordered_finite negative exponent significand = Ok n
       ∧ denotes n (Some (let v := significand * 2 ^ (exponent + 1074) in if negative then - v else v)).
Proof.
  unfold ordered_finite, MIN_BINARY_EXPONENT. intros He Hs.
  rewrite (proj2 (Z.leb_le _ _)), (proj2 (Z.leb_le _ _)) by lia. cbn [andb].
  rewrite Z.mod_small by lia. replace (exponent - -1074) with (exponent + 1074) by lia.
  destruct negative; eexists; (split; [done|]); constructor; lia.
Qed.

(** Shifting a magnitude up to its leading bit. *)
Lemma normalise m :
  0 < m < 2 ^ 64 →
  64 - leading_zeros64 m = Z.log2 m + 1
  ∧ 2 ^ 63 ≤ u64_shl m (64 - (Z.log2 m + 1)) < 2 ^ 64
  ∧ ∀ k, 0 ≤ k → u64_shl m (64 - (Z.log2 m + 1)) * 2 ^ (Z.log2 m + k) = m * 2 ^ (63 + k).
Proof.
  intros Hm. pose proof (Z.log2_spec m ltac:(lia)) as Hl. pose proof (Z.log2_nonneg m) as Hnn.
  assert (Z.log2 m ≤ 63) as Hle by (apply Z.lt_succ_r; apply Z.log2_lt_pow2; lia).
  unfold leading_zeros64, u64_shl. rewrite (proj2 (Z.eqb_neq _ _)) by lia. rewrite Z.shiftl_mul_pow2 by lia.
  replace (64 - (Z.log2 m + 1)) with (63 - Z.log2 m) by lia.
  assert (2 ^ 63 = 2 ^ Z.log2 m * 2 ^ (63 - Z.log2 m)) as Hp by (rewrite <- Z.pow_add_r by lia; f_equal; lia).
  pose proof (Z.pow_pos_nonneg 2 (63 - Z.log2 m) ltac:(lia) ltac:(lia)).
  assert (2 ^ 63 ≤ m * 2 ^ (63 - Z.log2 m) < 2 ^ 64) as Hb.
  { change (2 ^ 64) with (2 * 2 ^ 63). rewrite Hp. rewrite Z.pow_succ_r in Hl by lia. nia. }
  rewrite Z.mod_small by lia. split_and!; [lia|lia|lia|].
  intros k Hk. rewrite <- Z.mul_assoc, <- Z.pow_add_r by lia. do 2 f_equal. lia.
Qed.

Lemma ordered_integer_denotes value :
  i64 value → ∃ n, ordered_integer value = Ok n ∧ denotes n (integer_number value).
Proof.
  intros Hv. unfold ordered_integer, integer_number. destruct (Z.eqb_spec value 0) as [->|Hnz].
  { eexists. split; [done|]. constructor. }
  destruct (normalise (Z.abs value)) as (Hw & Hs & Hval); [rlia|]. rewrite Hw.
  assert (0 ≤ Z.log2 (Z.abs value) ≤ 63) as Hl.
  { split; [apply Z.log2_nonneg|]. apply Z.lt_succ_r, Z.log2_lt_pow2; rlia. }
  destruct (ordered_finite_denotes (value <? 0) (Z.log2 (Z.abs value) + 1 - 1) _ ltac:(unfold MIN_BINARY_EXPONENT; lia) Hs)
    as (n & -> & Hn).
  eexists. split; [done|]. cbv zeta in Hn.
  replace (Z.log2 (Z.abs value) + 1 - 1 + 1074) with (Z.log2 (Z.abs value) + 1074) in Hn by lia.
  rewrite Hval in Hn by lia. replace (63 + 1074) with 1137 in Hn by lia.
  destruct (Z.ltb_spec value 0).
  - replace (value * 2 ^ 1137) with (- (Z.abs value * 2 ^ 1137)) by (rewrite Z.abs_neq; lia). done.
  - by rewrite Z.abs_eq in Hn by lia.
Qed.

(** The bit fields of a float, by shifting and masking. *)
Lemma float_fields bits :
  u64 bits →
  Z.land (Z.shiftr bits 52) 0x7ff = f64_exponent bits
  ∧ Z.land bits (Z.shiftl 1 52 - 1) = f64_fraction bits
  ∧ negb (Z.shiftr bits 63 =? 0) = f64_negative bits
  ∧ bits = Z.b2z (f64_negative bits) * 2 ^ 63 + f64_exponent bits * 2 ^ 52 + f64_fraction bits
  ∧ 0 ≤ f64_exponent bits < 2048 ∧ 0 ≤ f64_fraction bits < 2 ^ 52.
Proof.
  intros Hb. unfold f64_exponent, f64_fraction, f64_negative. split_and!.
  - rewrite Z.shiftr_div_pow2 by lia. change 0x7ff with (Z.ones 11). by rewrite Z.land_ones by lia.
  - change (Z.shiftl 1 52 - 1) with (Z.ones 52). by rewrite Z.land_ones by lia.
  - rewrite Z.shiftr_div_pow2 by lia. unfold u64 in Hb.
    destruct (Z.leb_spec (2 ^ 63) bits) as [Hle|Hlt].
    + apply negb_true_iff, Z.eqb_neq. pose proof (Z.div_le_mono _ _ (2 ^ 63) ltac:(lia) Hle) as Hd.
      rewrite Z.div_same in Hd by lia. lia.
    + apply negb_false_iff, Z.eqb_eq. apply Z.div_small. lia.
  - pose proof (Z.div_mod bits (2 ^ 52) ltac:(lia)) as E1.
    pose proof (Z.div_mod (bits / 2 ^ 52) 2048 ltac:(lia)) as E2.
    rewrite Z.div_div in E2 by lia. change (2 ^ 52 * 2048) with (2 ^ 63) in E2. unfold u64 in Hb.
    assert (bits / 2 ^ 63 = Z.b2z (2 ^ 63 <=? bits)) as E3.
    { destruct (Z.leb_spec (2 ^ 63) bits); cbn [Z.b2z]; [|apply Z.div_small; lia].
      symmetry. apply Z.div_unique with (bits - 2 ^ 63); lia. }
    rewrite E3 in E2. lia.
  - apply Z.mod_pos_bound. lia.
  - apply Z.mod_pos_bound. lia.
  - apply Z.mod_pos_bound. lia.
  - apply Z.mod_pos_bound. lia.
Qed.

(** A finite nonzero float, from its fields. *)
Lemma finite_fields_denote s e f :
  0 ≤ e < 2047 → 0 ≤ f < 2 ^ 52 → e ≠ 0 ∨ f ≠ 0 →
  ∃ n, (let '(exponent, significand) :=
          if e =? 0 then
            let width := 64 - leading_zeros64 f in
            (MIN_BINARY_EXPONENT + width - 1, u64_shl f (64 - width))
          else (e - 1023, u64_shl (Z.lor (Z.shiftl 1 52) f) 11) in
        ordered_finite s exponent significand) = Ok n
       ∧ denotes n (Some (let m := if e =? 0 then f else (2 ^ 52 + f) * 2 ^ (e - 1) in
                          (if s then - m else m) * 2 ^ 63)).
Proof.
  intros He Hf Hnz. cbv zeta. destruct (Z.eqb_spec e 0) as [E0|E0].
  - destruct (normalise f) as (Hw & Hs & Hval); [lia|]. rewrite Hw.
    assert (0 ≤ Z.log2 f ≤ 51) as Hl.
    { split; [apply Z.log2_nonneg|]. apply Z.lt_succ_r, Z.log2_lt_pow2; lia. }
    destruct (ordered_finite_denotes s (MIN_BINARY_EXPONENT + (Z.log2 f + 1) - 1) _
      ltac:(unfold MIN_BINARY_EXPONENT; lia) Hs) as (n & -> & Hn).
    eexists. split; [done|]. cbv zeta in Hn. specialize (Hval 0 ltac:(lia)).
    replace (MIN_BINARY_EXPONENT + (Z.log2 f + 1) - 1 + 1074) with (Z.log2 f + 0) in Hn
      by (unfold MIN_BINARY_EXPONENT; lia).
    rewrite Hval, Z.add_0_r in Hn. destruct s; [|done]. by rewrite <- Z.mul_opp_l in Hn.
  - change (Z.shiftl 1 52) with (2 ^ 52). rewrite lor_pow2_small by lia.
    assert (u64_shl (2 ^ 52 + f) 11 = (2 ^ 52 + f) * 2 ^ 11) as ->.
    { unfold u64_shl. rewrite Z.shiftl_mul_pow2, Z.mod_small by lia. done. }
    destruct (ordered_finite_denotes s (e - 1023) ((2 ^ 52 + f) * 2 ^ 11)
      ltac:(unfold MIN_BINARY_EXPONENT; lia) ltac:(lia)) as (n & -> & Hn).
    eexists. split; [done|]. cbv zeta in Hn.
    assert ((2 ^ 52 + f) * 2 ^ 11 * 2 ^ (e - 1023 + 1074) = (2 ^ 52 + f) * 2 ^ (e - 1) * 2 ^ 63) as E.
    { rewrite <- !Z.mul_assoc, <- !Z.pow_add_r by lia. do 2 f_equal. lia. }
    rewrite E in Hn. destruct s; [|done]. by rewrite <- Z.mul_opp_l in Hn.
Qed.

Lemma ordered_float_denotes bits :
  u64 bits → ∃ n, ordered_float bits = Ok n ∧ denotes n (float_number bits).
Proof.
  intros Hb. destruct (float_fields bits Hb) as (HE & HF & HN & Hbits & He & Hf).
  unfold ordered_float, float_number. destruct (f64_is_nan bits) eqn:Hnan; [eexists; split; [done|constructor]|].
  destruct (Z.eqb_spec bits f64_neg_infinity_bits) as [->|Hni].
  { eexists. split; [done|]. replace (f64_scaled _ * _) with (- beyond) by (by vm_compute). constructor. }
  destruct (Z.eqb_spec bits f64_infinity_bits) as [->|Hpi].
  { eexists. split; [done|]. replace (f64_scaled _ * _) with beyond by (by vm_compute). constructor. }
  destruct (f64_is_zero bits) eqn:Hz.
  { eexists. split; [done|]. replace (f64_scaled bits * 2 ^ 63) with 0; [constructor|].
    unfold f64_is_zero in Hz. apply andb_true_iff in Hz as [He0 Hf0%Z.eqb_eq]. unfold f64_scaled.
    rewrite He0, Hf0. by destruct (f64_negative bits). }
  rewrite HE, HF, HN. unfold f64_is_nan in Hnan. unfold f64_is_zero in Hz. unfold f64_scaled.
  apply finite_fields_denote; [|done|].
  - destruct (Z.eq_dec (f64_exponent bits) 2047) as [E|]; [|lia].
    rewrite E in *. cbn [andb Z.eqb Pos.eqb] in Hnan. apply negb_false_iff, Z.eqb_eq in Hnan.
    rewrite Hnan in Hbits. unfold f64_neg_infinity_bits, f64_infinity_bits in *.
    destruct (f64_negative bits); cbn [Z.b2z] in Hbits; lia.
  - apply andb_false_iff in Hz as [Hz|Hz]; apply Z.eqb_neq in Hz; auto.
Qed.

Lemma compare_i64_f64_spec integer float :
  i64 integer → u64 float →
  compare_i64_f64 integer float
  = Ok (if f64_is_nan float then Lt else integer * 2 ^ 1074 ?= f64_scaled float).
Proof.
  intros Hi Hf. destruct (ordered_integer_denotes integer Hi) as (a & Ha & Hda).
  destruct (ordered_float_denotes float Hf) as (b & Hb & Hdb).
  unfold compare_i64_f64. rewrite Ha, Hb. cbn. f_equal. rewrite (denotes_cmp _ _ _ _ Hda Hdb).
  unfold integer_number, float_number. destruct (f64_is_nan float); [done|]. cbn [number_cmp].
  change (2 ^ 1137) with (2 ^ (1074 + 63)). rewrite Z.pow_add_r, Z.mul_assoc by lia.
  by apply compare_mul_r.
Qed.

(** ** Theorems *)

(** the comparison of an integer with a float is exact: it is the
    comparison of the two real numbers (both scaled by [2 ^ 1074]), infinities
    lie beyond every integer, and a NaN is above them all.  No intermediate
    step overflows and the exponent assertion holds. *)
Theorem compare_i64_f64_exact integer float :
  i64 integer → u64 float →
  compare_i64_f64 integer float
  = Ok (if f64_is_nan float then Lt else integer * 2 ^ 1074 ?= f64_scaled float).
Proof. apply compare_i64_f64_spec. Qed.

(** [2 ^ 53 + 1], which is not a float, and [2 ^ 53 + 2], which is. *)
Lemma compare_i64_f64_exact_witness :
  compare_i64_f64 9007199254740993 0x4340000000000001
  = Ok (if f64_is_nan 0x4340000000000001 then Lt
        else 9007199254740993 * 2 ^ 1074 ?= f64_scaled 0x4340000000000001).
Proof. apply (compare_i64_f64_exact 9007199254740993 0x4340000000000001); unfold i64, u64; lia. Defined.
