(* ===== verification/OrderCode.v ===== *)
(** * Order-preserving codes

    The compositional core of the radix keys: [codes c k1 k2] says that the
    encodings [k1] and [k2] decide a byte-wise comparison as [c] does, whatever
    follows them; concatenation composes codes, fixed-width digits and
    zero-terminated sequences are codes. *)

From stdpp Require Import prelude gmap strings sorting.
From Stdlib Require Import ZArith Lia.
From S2P Require Import Prelude Machine Types Document Results Ordering OrderKey.

Local Open Scope Z_scope.

Definition codes (c : comparison) (k1 k2 : bytes) : Prop :=
  ∀ s1 s2, lexZ (k1 ++ s1) (k2 ++ s2) = then_cmp c (lexZ s1 s2).

Lemma codes_nil : codes Eq [] [].
Proof. done. Qed.

Lemma codes_byte a b : codes (a ?= b) [a] [b].
Proof. done. Qed.

(** The second part matters only when the first parts are equal. *)
Lemma codes_app c d k1 k2 l1 l2 :
  codes c k1 k2 → (c = Eq → codes d l1 l2) → codes (then_cmp c d) (k1 ++ l1) (k2 ++ l2).
Proof.
  intros Hk Hl s1 s2. rewrite <- !(assoc_L (++)), Hk, then_cmp_assoc.
  destruct c; cbn [then_cmp]; [by apply Hl|done|done].
Qed.

Lemma codes_cons c a k1 k2 : codes c k1 k2 → codes c (a :: k1) (a :: k2).
Proof.
  intros Hk. change (codes (then_cmp Eq c) ([a] ++ k1) ([a] ++ k2)).
  apply codes_app; [|done]. rewrite <- (Z.compare_refl a). apply codes_byte.
Qed.

Lemma codes_tags a b k1 k2 : a ≠ b → codes (a ?= b) (a :: k1) (b :: k2).
Proof.
  intros Hab s1 s2. cbn. unfold lexZ. cbn [lex]. destruct (Z.compare_spec a b); cbn; done.
Qed.

Lemma codes_lex c k1 k2 : codes c k1 k2 → lexZ k1 k2 = c.
Proof. intros Hk. specialize (Hk [] []). rewrite !app_nil_r in Hk. rewrite Hk. apply then_cmp_Eq_r. Qed.

(** No code is a proper prefix of another. *)
Lemma codes_prefix c k1 t : codes c k1 (k1 ++ t) → t = [].
Proof.
  intros Hk. specialize (Hk t []). rewrite app_nil_r, lexZ_refl in Hk.
  destruct c; cbn in Hk; try done. symmetry in Hk. by apply lexZ_eq in Hk.
Qed.

(** ** Octets *)

Definition digits (b : Z) : bytes := [Z.shiftr b 4 + 1; Z.land b 0x0f + 1].
Definition octets (bs : bytes) : bytes := flat_map digits bs.

Lemma append_octets_app out bs : append_octets out bs = out ++ octets bs.
Proof.
  unfold append_octets. revert out. induction bs as [|b bs IH]; intros out; cbn [foldl octets flat_map].
  - by rewrite app_nil_r.
  - rewrite IH. unfold append_octet. by rewrite <- (assoc_L (++)).
Qed.

Lemma append_bytes_app out bs : append_bytes out bs = out ++ octets bs ++ [0].
Proof. unfold append_bytes. by rewrite append_octets_app, <- (assoc_L (++)). Qed.

Lemma zlen_octets bs : zlen (octets bs) = 2 * zlen bs.
Proof.
  induction bs as [|b bs IH]; [done|]. cbn [octets flat_map]. fold (octets bs).
  rewrite zlen_app, IH, zlen_cons. change (zlen (digits b)) with 2. lia.
Qed.

Lemma digits_cmp a b :
  u8 a → u8 b →
  then_cmp (Z.shiftr a 4 + 1 ?= Z.shiftr b 4 + 1) (Z.land a 0x0f + 1 ?= Z.land b 0x0f + 1) = (a ?= b).
Proof.
  intros Ha Hb. change 0x0f with (Z.ones 4). rewrite !Z.land_ones, !Z.shiftr_div_pow2 by lia.
  change (2 ^ 4) with 16. pose proof (Z.div_mod a 16 ltac:(lia)). pose proof (Z.div_mod b 16 ltac:(lia)).
  pose proof (Z.mod_pos_bound a 16 ltac:(lia)). pose proof (Z.mod_pos_bound b 16 ltac:(lia)).
  destruct (Z.compare_spec (a / 16 + 1) (b / 16 + 1)); cbn [then_cmp];
    [destruct (Z.compare_spec (a mod 16 + 1) (b mod 16 + 1))|..];
    symmetry; first [apply Z.compare_eq_iff; lia|apply Z.compare_lt_iff; lia|apply Z.compare_gt_iff; lia].
Qed.

Lemma codes_digits a b : u8 a → u8 b → codes (a ?= b) (digits a) (digits b).
Proof. intros Ha Hb. rewrite <- digits_cmp by done. apply (codes_app _ _ [_] [_] [_] [_]); [|intros _]; apply codes_byte. Qed.

Lemma codes_octets bs cs :
  bytes_wf bs → bytes_wf cs → length bs = length cs → codes (lexZ bs cs) (octets bs) (octets cs).
Proof.
  intros Hb. revert cs. induction Hb as [|b bs Hb Hbs IH]; intros [|c cs] Hc Hl; try done.
  apply Forall_cons in Hc as [Hc Hcs]. injection Hl as Hl.
  cbn [octets flat_map]. fold (octets bs) (octets cs).
  change (lexZ (b :: bs) (c :: cs)) with (then_cmp (b ?= c) (lexZ bs cs)).
  apply codes_app; [by apply codes_digits|]. intros _. by apply IH.
Qed.

Lemma digits_head b : u8 b → ∃ d t, digits b = d :: t ∧ 0 < d.
Proof.
  intros Hb. eexists _, _. split; [done|]. rewrite Z.shiftr_div_pow2 by lia. unfold u8 in Hb.
  pose proof (Z.div_pos b (2 ^ 4) ltac:(lia) ltac:(lia)). lia.
Qed.

(** ** Sequences *)

Section sequences.
Context {A : Type} (cmp : A → A → comparison) (key : A → bytes).

(** Starts with a nonzero digit. *)
Definition headed (k : bytes) : Prop := ∃ d t, k = d :: t ∧ 0 < d.

(** A zero terminator orders a sequence before its extensions. *)
Lemma codes_terminated l k :
  (∀ x y, x ∈ l → y ∈ k → codes (cmp x y) (key x) (key y)) →
  Forall (λ x, headed (key x)) l → Forall (λ x, headed (key x)) k →
  codes (lex cmp l k) (flat_map key l ++ [0]) (flat_map key k ++ [0]).
Proof.
  revert k. induction l as [|x l IH]; intros [|y k] Hc Hl Hk; cbn [lex flat_map app].
  - change [0] with ([0] : bytes). rewrite <- (Z.compare_refl 0). apply codes_byte.
  - apply Forall_cons in Hk as [(d & t & -> & Hd) _]. cbn [app].
    rewrite <- (proj2 (Z.compare_lt_iff 0 d) Hd). apply codes_tags. lia.
  - apply Forall_cons in Hl as [(d & t & -> & Hd) _]. cbn [app].
    rewrite <- (proj2 (Z.compare_gt_iff d 0) Hd). apply codes_tags. lia.
  - apply Forall_cons in Hl as [_ Hl]. apply Forall_cons in Hk as [_ Hk].
    rewrite <- !(assoc_L (++)). apply codes_app; [apply Hc; set_solver|]. intros _.
    apply IH; [|done|done]. intros. apply Hc; set_solver.
Qed.

(** Sequences of one length need no terminator. *)
Lemma codes_same_length l k :
  (∀ x y, x ∈ l → y ∈ k → codes (cmp x y) (key x) (key y)) → length l = length k →
  codes (lex cmp l k) (flat_map key l) (flat_map key k).
Proof.
  revert k. induction l as [|x l IH]; intros [|y k] Hc Hl; try done; cbn [lex flat_map].
  apply codes_app; [apply Hc; set_solver|]. intros _. injection Hl as Hl.
  apply IH; [|done]. intros. apply Hc; set_solver.
Qed.
End sequences.

Lemma codes_bytes bs cs :
  bytes_wf bs → bytes_wf cs → codes (lexZ bs cs) (octets bs ++ [0]) (octets cs ++ [0]).
Proof.
  unfold bytes_wf. rewrite !Forall_forall. intros Hb Hc. apply codes_terminated.
  - intros. apply codes_digits; auto.
  - apply Forall_forall. intros. by apply digits_head, Hb.
  - apply Forall_forall. intros. by apply digits_head, Hc.
Qed.

(** ** Big-endian integers *)

Lemma le_bytes_snoc n x : le_bytes (S n) x = le_bytes n x ++ [(x / 256 ^ Z.of_nat n) mod 256].
Proof.
  revert x. induction n as [|n IH]; intros x.
  - change (le_bytes 1 x) with [x mod 256]. change (256 ^ Z.of_nat 0) with 1. by rewrite Z.div_1_r.
  - change (le_bytes (S (S n)) x) with (x mod 256 :: le_bytes (S n) (x / 256)). rewrite IH.
    change (le_bytes (S n) x) with (x mod 256 :: le_bytes n (x / 256)).
    rewrite Z.div_div by (pose proof (pow256_pos n); lia). by rewrite pow256_S.
Qed.

Lemma be_bytes_S n x : be_bytes (S n) x = (x / 256 ^ Z.of_nat n) mod 256 :: be_bytes n x.
Proof. unfold be_bytes. by rewrite le_bytes_snoc, rev_app_distr. Qed.

Lemma be_bytes_cmp n x y :
  lexZ (be_bytes n x) (be_bytes n y) = (x mod 256 ^ Z.of_nat n ?= y mod 256 ^ Z.of_nat n).
Proof.
  induction n as [|n IH]; [by rewrite !Z.mod_1_r|]. rewrite !be_bytes_S, pow256_S.
  change (lexZ (?a :: ?l) (?b :: ?k)) with (then_cmp (a ?= b) (lexZ l k)). rewrite IH.
  pose proof (pow256_pos n) as Hp. rewrite (Z.mul_comm 256), !Z.rem_mul_r by lia.
  set (p := 256 ^ Z.of_nat n) in *.
  pose proof (Z.mod_pos_bound x p Hp). pose proof (Z.mod_pos_bound y p Hp).
  destruct (Z.compare_spec ((x / p) mod 256) ((y / p) mod 256)) as [->|Hlt|Hgt]; cbn [then_cmp].
  - destruct (Z.compare_spec (x mod p) (y mod p)); symmetry;
      first [apply Z.compare_eq_iff; lia|apply Z.compare_lt_iff; lia|apply Z.compare_gt_iff; lia].
  - symmetry. apply Z.compare_lt_iff. nia.
  - symmetry. apply Z.compare_gt_iff. nia.
Qed.

Lemma codes_be n x y :
  0 ≤ x < 256 ^ Z.of_nat n → 0 ≤ y < 256 ^ Z.of_nat n →
  codes (x ?= y) (octets (be_bytes n x)) (octets (be_bytes n y)).
Proof.
  intros Hx Hy. rewrite <- (Z.mod_small x (256 ^ Z.of_nat n)) at 1 by done.
  rewrite <- (Z.mod_small y (256 ^ Z.of_nat n)) at 1 by done. rewrite <- be_bytes_cmp.
  apply codes_octets; [apply be_bytes_wf|apply be_bytes_wf|by rewrite !length_be_bytes].
Qed.

Lemma headed_be n x : headed (octets (be_bytes (S n) x)).
Proof.
  rewrite be_bytes_S. cbn [octets flat_map]. eexists _, _. split; [done|].
  pose proof (Z.mod_pos_bound (x / 256 ^ Z.of_nat n) 256 ltac:(lia)).
  rewrite Z.shiftr_div_pow2 by lia. pose proof (Z.div_pos ((x / 256 ^ Z.of_nat n) mod 256) (2 ^ 4)). lia.
Qed.

Lemma compare_add_r a b c : (a + c ?= b + c) = (a ?= b).
Proof. rewrite !(Z.add_comm _ c). apply Z.add_compare_mono_l. Qed.

(** Signed integers, with the sign bit flipped. *)
Lemma codes_signed n m x y :
  256 ^ Z.of_nat n = 2 ^ (m + 1) → 0 ≤ m → - 2 ^ m ≤ x < 2 ^ m → - 2 ^ m ≤ y < 2 ^ m →
  codes (x ?= y) (octets (be_bytes n (Z.lxor (x mod 2 ^ (m + 1)) (Z.shiftl 1 m))))
    (octets (be_bytes n (Z.lxor (y mod 2 ^ (m + 1)) (Z.shiftl 1 m)))).
Proof.
  intros Hn Hm Hx Hy. rewrite !sign_flip by done. rewrite <- (compare_add_r x y (2 ^ m)).
  assert (2 ^ (m + 1) = 2 * 2 ^ m) by (rewrite Z.add_1_r, Z.pow_succ_r by done; done).
  apply codes_be; lia.
Qed.
