(* ===== verification/OrderKeyTheorems.v ===== *)
(** * Radix keys order values as the total comparison does *)

From stdpp Require Import prelude gmap strings sorting.
From Stdlib Require Import ZArith Lia.
From S2P Require Import Prelude Machine Types Document DocumentTheorems Results ResultsTheorems.
From S2P Require Import Ordering OrderingTheorems OrderKey OrderCode.

Local Open Scope Z_scope.
#[local] Set Warnings "-clear-no-such-hyp".

(** ** Keys as pure functions *)

Definition u64_key (x : Z) : bytes := octets (be_bytes 8 x).
Definition u32_key (x : Z) : bytes := octets (be_bytes 4 x).
Definition i64_key (x : Z) : bytes := u64_key (Z.lxor (x mod 2 ^ 64) (Z.shiftl 1 63)).
Definition i32_key (x : Z) : bytes := u32_key (Z.lxor (x mod 2 ^ 32) (Z.shiftl 1 31)).
Definition i128_key (x : Z) : bytes := octets (be_bytes 16 (Z.lxor (x mod 2 ^ 128) (Z.shiftl 1 127))).
Definition bytes_key (bs : bytes) : bytes := octets bs ++ [0].
Definition number_key (n : OrderedNumber) : bytes :=
  [category n] ++ octets (be_bytes 2 (exponent n)) ++ u64_key (significand n).

Lemma append_u64_app out x : append_u64 out x = out ++ u64_key x.
Proof. apply append_octets_app. Qed.
Lemma append_u32_app out x : append_u32 out x = out ++ u32_key x.
Proof. apply append_octets_app. Qed.
Lemma append_i64_app out x : append_i64 out x = out ++ i64_key x.
Proof. apply append_octets_app. Qed.
Lemma append_i32_app out x : append_i32 out x = out ++ i32_key x.
Proof. apply append_octets_app. Qed.
Lemma append_i128_app out x : append_i128 out x = out ++ i128_key x.
Proof. apply append_octets_app. Qed.
Lemma append_bytes_key out bs : append_bytes out bs = out ++ bytes_key bs.
Proof. apply append_bytes_app. Qed.
Lemma append_number_app out n : append_number out n = out ++ number_key n.
Proof.
  unfold append_number, append_u16. rewrite append_u64_app, append_octets_app. unfold number_key.
  by rewrite <- !(assoc_L (++)).
Qed.
Create Rewrite HintDb keys.
#[local] Hint Rewrite append_u64_app append_u32_app append_i64_app append_i32_app append_i128_app
  append_bytes_key append_number_app : keys.

Lemma codes_u64 x y : u64 x → u64 y → codes (x ?= y) (u64_key x) (u64_key y).
Proof. intros Hx Hy. apply codes_be; change (256 ^ Z.of_nat 8) with (2 ^ 64); rlia. Qed.
Lemma codes_u32 x y : u32 x → u32 y → codes (x ?= y) (u32_key x) (u32_key y).
Proof. intros Hx Hy. apply codes_be; change (256 ^ Z.of_nat 4) with (2 ^ 32); rlia. Qed.
Lemma codes_i64 x y : i64 x → i64 y → codes (x ?= y) (i64_key x) (i64_key y).
Proof. intros Hx Hy. apply (codes_signed 8 63); [done|lia|rlia|rlia]. Qed.
Lemma codes_i32 x y : i32 x → i32 y → codes (x ?= y) (i32_key x) (i32_key y).
Proof. intros Hx Hy. apply (codes_signed 4 31); [done|lia|rlia|rlia]. Qed.
Lemma codes_i128 x y : i128 x → i128 y → codes (x ?= y) (i128_key x) (i128_key y).
Proof. intros Hx Hy. apply (codes_signed 16 127); [done|lia|rlia|rlia]. Qed.

Lemma codes_number m v n w :
  denotes m v → denotes n w → codes (number_cmp v w) (number_key m) (number_key n).
Proof.
  intros Hm Hn. rewrite <- (denotes_cmp _ _ _ _ Hm Hn). unfold OrderedNumber_cmp, number_key.
  assert (∀ n v, denotes n v → 0 ≤ exponent n < 256 ^ Z.of_nat 2 ∧ u64 (significand n)) as Hr.
  { clear. change (256 ^ Z.of_nat 2) with (2 ^ 16). intros n v Hn.
    destruct Hn; cbn; unfold u16_not, u64_not; rlia. }
  destruct (Hr _ _ Hm), (Hr _ _ Hn).
  apply codes_app; [apply codes_byte|]. intros _. apply codes_app; [by apply codes_be|]. intros _.
  by apply codes_u64.
Qed.

Lemma headed_u64 x : headed (u64_key x).
Proof. apply headed_be. Qed.
Lemma headed_u32 x : headed (u32_key x).
Proof. apply headed_be. Qed.

Lemma zlen_be_octets n x : zlen (octets (be_bytes n x)) = 2 * Z.of_nat n.
Proof. rewrite zlen_octets. unfold zlen. by rewrite length_be_bytes. Qed.
Lemma zlen_u64_key x : zlen (u64_key x) = 16.
Proof. apply zlen_be_octets. Qed.
Lemma zlen_u32_key x : zlen (u32_key x) = 8.
Proof. apply zlen_be_octets. Qed.
Lemma zlen_i64_key x : zlen (i64_key x) = 16.
Proof. apply zlen_be_octets. Qed.
Lemma zlen_i32_key x : zlen (i32_key x) = 8.
Proof. apply zlen_be_octets. Qed.
Lemma zlen_i128_key x : zlen (i128_key x) = 32.
Proof. apply zlen_be_octets. Qed.
Lemma zlen_bytes_key bs : zlen (bytes_key bs) = 2 * zlen bs + 1.
Proof. unfold bytes_key. rewrite zlen_app, zlen_octets, zlen_cons, zlen_nil. lia. Qed.
Lemma zlen_number_key n : zlen (number_key n) = 21.
Proof. unfold number_key. rewrite !zlen_app, zlen_be_octets, zlen_u64_key, zlen_cons, zlen_nil. lia. Qed.
#[local] Hint Rewrite @zlen_nil @zlen_cons @zlen_app zlen_u64_key zlen_u32_key zlen_i64_key zlen_i32_key
  zlen_i128_key zlen_bytes_key zlen_number_key : keys.

Opaque u64_key u32_key i64_key i32_key i128_key bytes_key number_key.

(** ** Scalars *)

Definition scalar_key (s : ScalarValue) : bytes :=
  match append_scalar [] s with Ok k => k | _ => [] end.

Lemma append_scalar_app out s : append_scalar out s = ((out ++.) <$> append_scalar [] s).
Proof.
  destruct s; cbn [append_scalar]; try done; autorewrite with keys;
    repeat match goal with |- context [?m ≫= _] => destruct m; cbn end;
    autorewrite with keys; cbn; by rewrite <- ?(assoc_L (++)).
Qed.

(** Scalars that are not documents have a key. *)
Lemma append_scalar_Ok out s :
  scalar_wf s → is_document s = false → append_scalar out s = Ok (out ++ scalar_key s).
Proof.
  intros Hs Hd. rewrite append_scalar_app. unfold scalar_key.
  destruct s; cbn [append_scalar is_document] in *; try done.
  - by destruct (ordered_integer_denotes x Hs) as (n & -> & _).
  - by destruct (ordered_float_denotes bits Hs) as (n & -> & _).
Qed.

Lemma clamp_range lo hi x : lo ≤ hi → lo ≤ clamp lo hi x ≤ hi.
Proof. unfold clamp. lia. Qed.

Lemma zoned_time_range nanos offset : i64 (normalized_zoned_time nanos offset).
Proof. apply clamp_range. rlia. Qed.
Lemma duration_range months days seconds nanos : i128 (normalized_duration months days seconds nanos).
Proof. apply clamp_range. rlia. Qed.

(** The first byte of a scalar key tells its rank. *)
Lemma scalar_key_head s :
  scalar_wf s → is_document s = false → ∃ t, scalar_key s = 7 + scalar_rank s :: t.
Proof.
  intros Hs Hd. unfold scalar_key. destruct s; cbn [append_scalar is_document] in *; try done; autorewrite with keys;
    try (eexists; reflexivity).
  - destruct (ordered_integer_denotes x Hs) as (n & -> & _). cbn. autorewrite with keys. by eexists.
  - destruct (ordered_float_denotes bits Hs) as (n & -> & _). cbn. autorewrite with keys. by eexists.
Qed.

Definition number_of (s : ScalarValue) : option Z :=
  match s with
  | ScalarInteger x => integer_number x
  | ScalarFloat bits => float_number bits
  | _ => None
  end.

Lemma number_scalar_key s :
  scalar_wf s → match s with ScalarInteger _ | ScalarFloat _ => True | _ => False end →
  ∃ n, scalar_key s = NUMBER :: number_key n ∧ denotes n (number_of s).
Proof.
  intros Hs Hn. unfold scalar_key. destruct s; try done; cbn [append_scalar number_of].
  - destruct (ordered_integer_denotes x Hs) as (n & -> & Hd). exists n. cbn. by autorewrite with keys.
  - destruct (ordered_float_denotes bits Hs) as (n & -> & Hd). exists n. cbn. by autorewrite with keys.
Qed.

Lemma number_cmp_opp a b : number_cmp b a = CompOpp (number_cmp a b).
Proof. destruct a, b; cbn; try done. apply Z.compare_antisym. Qed.

Section scalars.
Context `{OrderedFloatOrd}.

Lemma numbers_compare l r :
  scalar_wf l → scalar_wf r →
  match l with ScalarInteger _ | ScalarFloat _ => True | _ => False end →
  match r with ScalarInteger _ | ScalarFloat _ => True | _ => False end →
  total_compare_scalar l r = Ok (number_cmp (number_of l) (number_of r)).
Proof.
  intros Hl Hr Hnl Hnr. destruct l as [| |x|a| | | | | | | | | |]; try done;
    destruct r as [| |y|b| | | | | | | | | |]; try done; cbn [total_compare_scalar number_of].
  - unfold compare_ranked. cbn. unfold integer_number. cbn [number_cmp]. by rewrite compare_mul_r.
  - unfold compare_i64_f64. destruct (ordered_integer_denotes x Hl) as (m & -> & Hm).
    destruct (ordered_float_denotes b Hr) as (n & -> & Hn). cbn. by rewrite (denotes_cmp _ _ _ _ Hm Hn).
  - unfold compare_i64_f64. destruct (ordered_integer_denotes y Hr) as (m & -> & Hm).
    destruct (ordered_float_denotes a Hl) as (n & -> & Hn). cbn.
    by rewrite (denotes_cmp _ _ _ _ Hm Hn), <- number_cmp_opp.
  - unfold compare_ranked. cbn. rewrite ordered_float_cmp_spec. unfold float_number.
    destruct (f64_is_nan a), (f64_is_nan b); try done. cbn [number_cmp]. by rewrite compare_mul_r.
Qed.

Lemma codes_string_or_bytes bs cs :
  bytes_wf bs → bytes_wf cs → codes (lexZ bs cs) (bytes_key bs) (bytes_key cs).
Proof. apply codes_bytes. Qed.

(** Scalars of one rank. *)
Lemma same_rank_codes l r :
  scalar_wf l → scalar_wf r → is_document l = false → is_document r = false →
  scalar_rank l = scalar_rank r →
  ∃ c, total_compare_scalar l r = Ok c ∧ codes c (scalar_key l) (scalar_key r).
Proof.
  intros Hl Hr Hdl Hdr Hrank.
  destruct (decide (scalar_rank l = 8)) as [H8|H8].
  { assert (match l with ScalarInteger _ | ScalarFloat _ => True | _ => False end) as Hnl by by destruct l.
    assert (match r with ScalarInteger _ | ScalarFloat _ => True | _ => False end) as Hnr
      by (rewrite Hrank in H8; by destruct r).
    eexists. split; [by apply numbers_compare|].
    destruct (number_scalar_key l Hl Hnl) as (m & -> & Hm), (number_scalar_key r Hr Hnr) as (n & -> & Hn).
    by apply codes_cons, codes_number. }
  destruct l, r; try done; eexists; (split; [reflexivity|]);
    unfold scalar_key; cbn [append_scalar scalar_wf] in *; autorewrite with keys;
    cbn [app]; repeat apply codes_cons; rewrite <- ?(assoc_L (++)).
  - apply codes_nil.
  - unfold bool_cmp. rewrite <- (compare_add_r _ _ 1). apply codes_byte.
  - apply codes_string_or_bytes; [apply Hl|apply Hr].
  - by apply (codes_tags STRING BYTES).
  - by apply (codes_tags BYTES STRING).
  - by apply codes_string_or_bytes.
  - by apply codes_i64.
  - by apply codes_i64.
  - apply codes_app; [apply codes_i64; apply zoned_time_range|]. intros _. apply codes_i32; [apply Hl|apply Hr].
  - apply codes_app; [apply codes_i64; [apply Hl|apply Hr]|]. intros _. apply codes_u32; [apply Hl|apply Hr].
  - apply codes_app; [apply codes_i64; [apply Hl|apply Hr]|]. intros _.
    apply codes_app; [apply codes_u32; [apply Hl|apply Hr]|]. intros _.
    apply codes_string_or_bytes; [apply Hl|apply Hr].
  - apply codes_i128; apply duration_range.
Qed.

Lemma scalar_codes l r :
  scalar_wf l → scalar_wf r → is_document l = false → is_document r = false →
  ∃ c, total_compare_scalar l r = Ok c ∧ codes c (scalar_key l) (scalar_key r).
Proof.
  intros Hl Hr Hdl Hdr. destruct (decide (scalar_rank l = scalar_rank r)) as [?|Hne]; [by apply same_rank_codes|].
  exists (scalar_rank l ?= scalar_rank r). split.
  - destruct l, r; try done; by vm_compute.
  - destruct (scalar_key_head l Hl Hdl) as [t ->], (scalar_key_head r Hr Hdr) as [t' ->].
    rewrite <- (Z.add_compare_mono_l 7). apply codes_tags. lia.
Qed.
End scalars.

(** ** Sequences *)

Lemma zip_find_lex {A} (cmp : A → A → Result comparison) (c : A → A → comparison) l k :
  (∀ x y, x ∈ l → y ∈ k → cmp x y = Ok (c x y)) →
  ∃ o, zip_find cmp l k = Ok o ∧ default (zlen l ?= zlen k) o = lex c l k.
Proof.
  revert k. induction l as [|x l IH]; intros [|y k] Hc; cbn [zip_find].
  - by exists None.
  - exists None. split; [done|]. cbn. apply Z.compare_lt_iff. rewrite zlen_cons, zlen_nil.
    pose proof (zlen_nonneg k). lia.
  - exists None. split; [done|]. cbn. apply Z.compare_gt_iff. rewrite zlen_cons, zlen_nil.
    pose proof (zlen_nonneg l). lia.
  - rewrite Hc by set_solver. rbind. cbn [lex]. destruct (c x y) eqn:Exy; cbn [is_eq then_cmp];
      [|by exists (Some Lt)|by exists (Some Gt)].
    destruct (IH k) as (o & Ho & Hd); [intros; apply Hc; set_solver|]. exists o. split; [done|].
    by rewrite !zlen_cons, Z.add_compare_mono_l.
Qed.

Lemma compare_sequences_lex {A} (cmp : A → A → Result comparison) (c : A → A → comparison) l k :
  (∀ x y, x ∈ l → y ∈ k → cmp x y = Ok (c x y)) → compare_sequences cmp l k = Ok (lex c l k).
Proof.
  intros Hc. unfold compare_sequences. destruct (zip_find_lex cmp c l k Hc) as (o & -> & Hd).
  cbn. by rewrite Hd.
Qed.

Lemma lexZ_lex_eq_length {A} (c : A → A → comparison) l k : lex c l k = Eq → length l = length k.
Proof.
  revert k. induction l as [|x l IH]; intros [|y k]; cbn; try done.
  destruct (c x y); cbn; try done. intros Hl. by rewrite (IH k).
Qed.

Lemma compare_maps_lex {A} (cmp : A → A → Result comparison) (c : A → A → comparison)
    (l k : list (bytes * A)) :
  (∀ x y, x ∈ l → y ∈ k → cmp x.2 y.2 = Ok (c x.2 y.2)) →
  compare_maps cmp l k
  = Ok (then_cmp (then_cmp (zlen l ?= zlen k) (lex lexZ (map fst l) (map fst k)))
          (lex (λ '(_, x) '(_, y), c x y) l k)).
Proof.
  intros Hc. unfold compare_maps. destruct (then_cmp _ _) eqn:E; cbn [then_cmp]; [|done|done].
  destruct (zip_find_lex (λ '(_, l) '(_, r), cmp l r) (λ '(_, x) '(_, y), c x y) l k)
    as (o & -> & Hd); [intros [] [] Hx Hy; by apply (Hc _ _ Hx Hy)|].
  cbn. assert ((zlen l ?= zlen k) = Eq) as Hz by (by destruct (zlen l ?= zlen k)).
  rewrite Hz in Hd. by rewrite Hd.
Qed.

(** ** Paths *)

(** The identifiers of a path, nodes and relationships alternating. *)
Fixpoint path_ids (ns : list ResultNode) (es : list ResultEdge) : list Z :=
  match ns with
  | [] => []
  | n :: ns => node_id n :: match es with [] => [] | e :: es => edge_id e :: path_ids ns es end
  end.

Definition path_valid (ns : list ResultNode) (es : list ResultEdge) : Prop :=
  length ns = S (length es).

Lemma path_ids_even ns es j :
  path_valid ns es → (j ≤ length es)%nat → path_ids ns es !! (2 * j)%nat = node_id <$> ns !! j.
Proof.
  unfold path_valid. revert es j. induction ns as [|n ns IH]; intros es j Hv Hj; [done|].
  destruct j as [|j]; [done|]. destruct es as [|e es]; cbn in *; [lia|].
  replace (j + S (j + 0))%nat with (S (2 * j)) by lia. cbn. apply IH; lia.
Qed.

Lemma path_ids_odd ns es j :
  path_valid ns es → (j < length es)%nat → path_ids ns es !! (2 * j + 1)%nat = edge_id <$> es !! j.
Proof.
  unfold path_valid. revert es j. induction ns as [|n ns IH]; intros es j Hv Hj; [cbn in *; lia|].
  destruct es as [|e es]; cbn in Hj; [lia|]. destruct j as [|j]; [done|].
  replace (2 * S j + 1)%nat with (S (S (2 * j + 1))) by lia. cbn [path_ids]. cbn. apply IH; cbn in *; lia.
Qed.

Lemma length_path_ids ns es : path_valid ns es → length (path_ids ns es) = (length ns + length es)%nat.
Proof.
  unfold path_valid. revert es. induction ns as [|n ns IH]; intros [|e es] Hv; cbn in *; try lia.
  rewrite IH by lia. lia.
Qed.

(** Both loops read the identifier at an index this way. *)
Lemma path_id_at ns es (i : nat) :
  path_valid ns es → (i < length ns + length es)%nat →
  ∃ x, path_ids ns es !! i = Some x
       ∧ (if Z.of_nat i mod 2 =? 0
          then ∃ n, index_at (E := Error) ns (Z.of_nat i / 2) = Ok n ∧ x = node_id n
          else ∃ e, index_at (E := Error) es (Z.of_nat i / 2) = Ok e ∧ x = edge_id e).
Proof.
  intros Hv Hi. unfold path_valid in Hv. unfold index_at, get.
  pose proof (Nat.div_mod i 2 ltac:(lia)) as Hdm. pose proof (Nat.mod_upper_bound i 2 ltac:(lia)) as Hm.
  assert (Z.of_nat i mod 2 = Z.of_nat (i mod 2)) as -> by (by rewrite Nat2Z.inj_mod).
  assert (Z.of_nat i / 2 = Z.of_nat (i / 2)) as -> by (by rewrite Nat2Z.inj_div).
  rewrite (proj2 (Z.ltb_ge _ _)) by lia. rewrite Nat2Z.id.
  destruct (i mod 2)%nat as [|[|]] eqn:E; [..|lia]; cbn [Z.of_nat Z.eqb].
  - destruct (lookup_lt_is_Some_2 ns (i / 2)%nat ltac:(lia)) as [n Hn].
    exists (node_id n). split; [|exists n; by rewrite Hn].
    replace i with (2 * (i / 2))%nat at 1 by lia. rewrite path_ids_even by (done || lia). by rewrite Hn.
  - destruct (lookup_lt_is_Some_2 es (i / 2)%nat ltac:(lia)) as [e He].
    exists (edge_id e). split; [|exists e; by rewrite He].
    replace i with (2 * (i / 2) + 1)%nat at 1 by lia. rewrite path_ids_odd by (done || lia). by rewrite He.
Qed.

Lemma compare_path_from_ids ln le rn re count i :
  path_valid ln le → path_valid rn re →
  (i + count = Nat.min (length ln + length le) (length rn + length re))%nat →
  compare_path_from count (Z.of_nat i) ln le rn re
  = zip_find (λ x y, Ok (x ?= y)) (drop i (path_ids ln le)) (drop i (path_ids rn re)).
Proof.
  intros Hl Hr. pose proof (length_path_ids _ _ Hl) as Hll. pose proof (length_path_ids _ _ Hr) as Hlr.
  revert i. induction count as [|count IH]; intros i Hi.
  - cbn [compare_path_from]. destruct (decide (length ln + length le ≤ i)%nat).
    + by rewrite (drop_ge (path_ids ln le)) by lia.
    + rewrite (drop_ge (path_ids rn re)) by lia. by destruct (drop i _).
  - destruct (path_id_at ln le i Hl ltac:(lia)) as (x & Hx & Hxi).
    destruct (path_id_at rn re i Hr ltac:(lia)) as (y & Hy & Hyi).
    rewrite (drop_S _ _ _ Hx), (drop_S _ _ _ Hy). cbn [zip_find compare_path_from].
    replace (Z.of_nat i + 1) with (Z.of_nat (S i)) by lia. rewrite IH by lia.
    destruct (Z.of_nat i mod 2 =? 0); destruct Hxi as (n & -> & ->), Hyi as (m & -> & ->); by rbind.
Qed.

Lemma compare_path_ids_lex ln le rn re :
  path_valid ln le → path_valid rn re →
  zlen le < isize_max → zlen re < isize_max →
  compare_path_ids ln le rn re = Ok (lexZ (path_ids ln le) (path_ids rn re)).
Proof.
  intros Hl Hr Hbl Hbr. pose proof (length_path_ids _ _ Hl) as Hll. pose proof (length_path_ids _ _ Hr) as Hlr.
  unfold compare_path_ids, saturating_add. unfold path_valid in *. unfold zlen in *.
  rewrite !Z.min_r by rlia.
  pose proof (compare_path_from_ids ln le rn re
    (Nat.min (length ln + length le) (length rn + length re)) 0 Hl Hr ltac:(lia)) as Hc.
  replace (Z.to_nat (Z.min _ _)) with (Nat.min (length ln + length le) (length rn + length re)) by lia.
  change (Z.of_nat 0) with 0 in Hc. rewrite Hc, !drop_0.
  destruct (zip_find_lex (λ x y, Ok (x ?= y)) Z.compare (path_ids ln le) (path_ids rn re)) as (o & -> & Hd); [done|].
  cbn. unfold lexZ. rewrite <- Hd. unfold zlen. by rewrite Hll, Hlr, !Nat2Z.inj_add.
Qed.

Lemma append_path_ids ns es count i out :
  path_valid ns es → (i + count = length ns + length es)%nat →
  append_path count (Z.of_nat i) out ns es = Ok (out ++ flat_map u64_key (drop i (path_ids ns es))).
Proof.
  intros Hv. pose proof (length_path_ids _ _ Hv) as Hl. revert i out.
  induction count as [|count IH]; intros i out Hi; cbn [append_path].
  - rewrite drop_ge by lia. cbn. by rewrite app_nil_r.
  - destruct (path_id_at ns es i Hv ltac:(lia)) as (x & Hx & Hxi). rewrite (drop_S _ _ _ Hx).
    cbn [flat_map]. rewrite (assoc_L (++)).
    replace (Z.of_nat i + 1) with (Z.of_nat (S i)) by lia.
    destruct (Z.of_nat i mod 2 =? 0); destruct Hxi as (n & -> & ->); rbind; rewrite append_u64_app; apply IH; lia.
Qed.

(** ** Values *)

Fixpoint key_of (v : ResultValue) : bytes :=
  match v with
  | ResMap vs =>
      MAP :: u64_key (zlen vs) ++ flat_map bytes_key (map fst vs) ++ flat_map (λ '(_, v), key_of v) vs
  | ResNode n => NODE :: u64_key (node_id n)
  | ResRelationship e => RELATIONSHIP :: u64_key (edge_id e)
  | ResList vs => LIST :: flat_map key_of vs ++ [0]
  | ResPath ns es => PATH :: flat_map u64_key (path_ids ns es) ++ [0]
  | ResVector vs => VECTOR :: flat_map (λ x, u32_key (sortable_f32_bits x)) vs ++ [0]
  | ResScalar s => scalar_key s
  end.

(** Has a key: no document leaf, paths alternate, maps have countable size. *)
Fixpoint encodable (v : ResultValue) : bool :=
  match v with
  | ResMap vs => (zlen vs <=? u64_max) && forallb (λ '(_, v), encodable v) vs
  | ResList vs => forallb encodable vs
  | ResPath ns es => (length ns =? S (length es))%nat
  | ResScalar s => negb (is_document s)
  | _ => true
  end.

Lemma encodable_entries vs :
  encodable (ResMap vs) = true ↔ zlen vs ≤ u64_max ∧ Forall (λ p, encodable p.2 = true) vs.
Proof.
  cbn [encodable]. rewrite andb_true_iff, Z.leb_le, forallb_Forall.
  apply and_iff_compat_l, Forall_iff. by intros [k v].
Qed.

Lemma key_head v :
  result_wf v → encodable v = true → ∃ t, key_of v = value_rank v + 1 :: t.
Proof.
  intros Hw He. destruct v as [s|n|e|ns es|vs|vs|vs]; try (by eexists).
  cbn in He. apply negb_true_iff in He. inversion Hw; subst.
  destruct (scalar_key_head s ltac:(done) He) as [t Ht]. exists t. cbn [key_of value_rank]. rewrite Ht.
  by destruct s.
Qed.

Lemma value_rank_nonneg v : 0 ≤ value_rank v.
Proof. destruct v as [s|n|e|ns es|vs|vs|vs]; cbn; try lia. destruct s; vm_compute; discriminate. Qed.

Lemma key_headed v : result_wf v → encodable v = true → headed (key_of v).
Proof.
  intros Hw He. destruct (key_head v Hw He) as [t Ht]. exists (value_rank v + 1), t. split; [done|].
  pose proof (value_rank_nonneg v). lia.
Qed.

Lemma sortable_key x : u32 x → sortable_f32_bits x = f32_total_key x + 2 ^ 31 ∧ u32 (sortable_f32_bits x).
Proof.
  intros Hx. unfold sortable_f32_bits, f32_total_key, u32_not. unfold u32 in *.
  rewrite Z.shiftr_div_pow2, Z.shiftl_mul_pow2, Z.mul_1_l by lia.
  destruct (Z.ltb_spec x (2 ^ 31)).
  - rewrite Z.div_small by lia. cbn [Z.eqb]. rewrite lxor_pow2_low by lia. lia.
  - rewrite (proj2 (Z.eqb_neq _ _)); [unfold u32_max; lia|].
    pose proof (Z.div_le_mono _ _ (2 ^ 31) ltac:(lia) H) as Hd. rewrite Z.div_same in Hd by lia. lia.
Qed.

Section values.
Context `{OrderedFloatOrd}.

Definition scalar_cmp (l r : ScalarValue) : comparison :=
  match total_compare_scalar l r with Ok c => c | _ => Eq end.

(** The order on encodable values. *)
Fixpoint value_cmp (a b : ResultValue) : comparison :=
  if negb (value_rank a =? value_rank b) then value_rank a ?= value_rank b
  else
    match a, b with
    | ResMap l, ResMap r =>
        then_cmp (then_cmp (zlen l ?= zlen r) (lex lexZ (map fst l) (map fst r)))
          (lex (λ '(_, x) '(_, y), value_cmp x y) l r)
    | ResNode l, ResNode r => node_id l ?= node_id r
    | ResRelationship l, ResRelationship r => edge_id l ?= edge_id r
    | ResList l, ResList r => lex value_cmp l r
    | ResPath ln le, ResPath rn re => lexZ (path_ids ln le) (path_ids rn re)
    | ResVector l, ResVector r => lex f32_total_cmp l r
    | ResScalar l, ResScalar r => scalar_cmp l r
    | _, _ => Eq
    end.

Lemma path_ids_wf ns es : Forall node_wf ns → Forall edge_wf es → Forall u64 (path_ids ns es).
Proof.
  intros Hn. revert es. induction Hn as [|n ns Hn Hns IH]; intros es He; [constructor|].
  cbn. constructor; [done|]. destruct He as [|e es He Hes]; constructor; [done|]. by apply IH.
Qed.

Lemma codes_path_ids ids ids' :
  Forall u64 ids → Forall u64 ids' →
  codes (lexZ ids ids') (flat_map u64_key ids ++ [0]) (flat_map u64_key ids' ++ [0]).
Proof.
  intros Hi Hi'. rewrite !Forall_forall in *. apply codes_terminated.
  - intros. apply codes_u64; auto.
  - apply Forall_forall. intros. apply headed_u64.
  - apply Forall_forall. intros. apply headed_u64.
Qed.

Lemma codes_vector l r :
  Forall u32 l → Forall u32 r →
  codes (lex f32_total_cmp l r) (flat_map (λ x, u32_key (sortable_f32_bits x)) l ++ [0])
    (flat_map (λ x, u32_key (sortable_f32_bits x)) r ++ [0]).
Proof.
  intros Hl Hr. rewrite !Forall_forall in *. apply codes_terminated.
  - intros x y Hx Hy. destruct (sortable_key x (Hl x Hx)) as [Ex ?], (sortable_key y (Hr y Hy)) as [Ey ?].
    unfold f32_total_cmp. rewrite <- (compare_add_r _ _ (2 ^ 31)), <- Ex, <- Ey. by apply codes_u32.
  - apply Forall_forall. intros. apply headed_u32.
  - apply Forall_forall. intros. apply headed_u32.
Qed.

Lemma codes_keys (l r : list (bytes * ResultValue)) :
  Forall (λ p, bytes_wf p.1) l → Forall (λ p, bytes_wf p.1) r → length l = length r →
  codes (lex lexZ (map fst l) (map fst r)) (flat_map bytes_key (map fst l)) (flat_map bytes_key (map fst r)).
Proof.
  intros Hl Hr Hlen. apply codes_same_length; [|by rewrite !length_map].
  intros x y (p & -> & Hp)%list_elem_of_fmap (q & -> & Hq)%list_elem_of_fmap. rewrite !Forall_forall in *.
  apply codes_string_or_bytes; auto.
Qed.

Lemma zlen_compare_eq {A B} (l : list A) (r : list B) : (zlen l ?= zlen r) = Eq → length l = length r.
Proof. intros Hz%Z.compare_eq_iff. unfold zlen in Hz. lia. Qed.

Lemma map_codes l r :
  Forall (λ p, result_wf p.2 → encodable p.2 = true → ∀ b, result_wf b → encodable b = true →
            codes (value_cmp p.2 b) (key_of p.2) (key_of b)) l →
  result_wf (ResMap l) → encodable (ResMap l) = true → result_wf (ResMap r) → encodable (ResMap r) = true →
  codes (value_cmp (ResMap l) (ResMap r)) (key_of (ResMap l)) (key_of (ResMap r)).
Proof.
  intros IH Hwl [Hzl Hel]%encodable_entries Hwr [Hzr Her]%encodable_entries.
  inversion Hwl as [| | | | | |? _ Hvl]; subst. inversion Hwr as [| | | | | |? _ Hvr]; subst.
  cbn [value_cmp key_of value_rank negb Z.eqb]. apply codes_cons. rewrite then_cmp_assoc.
  apply codes_app.
  { apply codes_u64; split; (apply zlen_nonneg || done). }
  intros Hlen%zlen_compare_eq. apply codes_app.
  { apply codes_keys; [..|done]; [eapply Forall_impl; [exact Hvl|]|eapply Forall_impl; [exact Hvr|]];
      intros p [[? _] _]; done. }
  intros _. apply codes_same_length; [|done]. intros [k x] [k' y] Hx Hy. rewrite Forall_forall in *.
  apply (IH (k, x) Hx); [apply (Hvl (k, x) Hx)|apply (Hel (k, x) Hx)|apply (Hvr (k', y) Hy)|apply (Her (k', y) Hy)].
Qed.

(** Values of different ranks are told apart by the first byte. *)
Lemma rank_codes a b :
  result_wf a → encodable a = true → result_wf b → encodable b = true →
  value_rank a ≠ value_rank b → codes (value_cmp a b) (key_of a) (key_of b).
Proof.
  intros Hwa Hea Hwb Heb Hne.
  assert (value_cmp a b = (value_rank a ?= value_rank b)) as ->.
  { destruct a; cbn [value_cmp]; by rewrite (proj2 (Z.eqb_neq _ _) Hne). }
  destruct (key_head a Hwa Hea) as [t ->], (key_head b Hwb Heb) as [t' ->].
  rewrite <- (compare_add_r _ _ 1). apply codes_tags. lia.
Qed.

Lemma scalar_rank_value s : value_rank (ResScalar s) = 6 + scalar_rank s.
Proof. by destruct s. Qed.

Lemma scalar_rank_codes a s :
  result_wf a → encodable a = true → result_wf (ResScalar s) → encodable (ResScalar s) = true →
  match a with ResScalar _ => False | _ => True end →
  codes (value_cmp a (ResScalar s)) (key_of a) (key_of (ResScalar s)).
Proof.
  intros ? ? ? ? Ha. apply rank_codes; [done..|]. rewrite scalar_rank_value. by destruct a, s.
Qed.

(** Keys decide every comparison as the order on values does. *)
Lemma value_codes a b :
  result_wf a → encodable a = true → result_wf b → encodable b = true →
  codes (value_cmp a b) (key_of a) (key_of b).
Proof.
  revert b. induction a as [s|n|e|ns es|vs|vs IH|vs IH] using ResultValue_nested_ind; intros b Hwa Hea Hwb Heb.
  - destruct b as [s'|n'|e'|ns' es'|vs'|vs'|vs'];
      [|apply rank_codes; [done..|]; rewrite scalar_rank_value; cbn; destruct s; cbn; lia..].
    destruct (decide (value_rank (ResScalar s) = value_rank (ResScalar s'))) as [Hr|]; [|by apply rank_codes].
    cbn [value_cmp]. rewrite (proj2 (Z.eqb_eq _ _) Hr). cbn [negb].
    inversion Hwa; inversion Hwb; subst. cbn in Hea, Heb. apply negb_true_iff in Hea, Heb.
    destruct (scalar_codes s s') as (c & Hc & Hk); [done..|]. unfold scalar_cmp. by rewrite Hc.
  - destruct b as [s'|n'|e'|ns' es'|vs'|vs'|vs']; [by apply scalar_rank_codes|try (by apply rank_codes)..].
    inversion Hwa; inversion Hwb; subst. by apply codes_cons, codes_u64.
  - destruct b as [s'|n'|e'|ns' es'|vs'|vs'|vs']; [by apply scalar_rank_codes|try (by apply rank_codes)..].
    inversion Hwa; inversion Hwb; subst. by apply codes_cons, codes_u64.
  - destruct b as [s'|n'|e'|ns' es'|vs'|vs'|vs']; [by apply scalar_rank_codes|try (by apply rank_codes)..].
    inversion Hwa; inversion Hwb; subst. by apply codes_cons, codes_path_ids; apply path_ids_wf.
  - destruct b as [s'|n'|e'|ns' es'|vs'|vs'|vs']; [by apply scalar_rank_codes|try (by apply rank_codes)..].
    inversion Hwa; inversion Hwb; subst. by apply codes_cons, codes_vector.
  - destruct b as [s'|n'|e'|ns' es'|vs'|vs'|vs']; [by apply scalar_rank_codes|try (by apply rank_codes)..].
    inversion Hwa as [| | | | |? Hva|]; inversion Hwb as [| | | | |? Hvb|]; subst.
    cbn [encodable] in Hea, Heb. apply forallb_Forall in Hea, Heb.
    cbn [value_cmp key_of]. apply codes_cons, codes_terminated.
    + rewrite Forall_forall in *. auto.
    + rewrite Forall_forall in *. intros. apply key_headed; auto.
    + rewrite Forall_forall in *. intros. apply key_headed; auto.
  - destruct b as [s'|n'|e'|ns' es'|vs'|vs'|vs']; [by apply scalar_rank_codes|try (by apply rank_codes)..].
    apply map_codes; try done. eapply Forall_impl; [exact IH|]. auto.
Qed.
End values.

(** ** The encoder *)

Section append_all.
Context {A M : Type} (f : bytes → A → Result bytes) (key : M → bytes).

Lemma append_all_post (P : A → M → Prop) out l :
  Forall (λ x, ∀ out, post (f out x) (λ out', ∃ m, P x m ∧ out' = out ++ key m)) l →
  post (append_all f out l) (λ out', ∃ ms, Forall2 P l ms ∧ out' = out ++ flat_map key ms).
Proof.
  intros Hl. revert out. induction Hl as [|x l Hx _ IH]; intros out; cbn [append_all].
  - exists []. split; [constructor|]. by rewrite app_nil_r.
  - eapply post_bind; [apply Hx|]. intros out' (m & Hm & ->). eapply post_mono; [apply IH|].
    intros out' (ms & Hms & ->). exists (m :: ms). split; [by constructor|]. cbn. by rewrite (assoc_L (++)).
Qed.

Lemma append_all_Ok out l ms :
  Forall2 (λ x m, ∀ out, f out x = Ok (out ++ key m)) l ms →
  append_all f out l = Ok (out ++ flat_map key ms).
Proof.
  intros Hl. revert out. induction Hl as [|x m l ms Hx _ IH]; intros out; cbn [append_all flat_map].
  - by rewrite app_nil_r.
  - rewrite Hx. rbind. by rewrite IH, (assoc_L (++)).
Qed.
End append_all.

Lemma foldl_append_bytes out names :
  foldl append_bytes out names = out ++ flat_map bytes_key names.
Proof.
  revert out. induction names as [|name names IH]; intros out; cbn [foldl flat_map].
  - by rewrite app_nil_r.
  - by rewrite IH, append_bytes_key, (assoc_L (++)).
Qed.

Lemma foldl_append_u32 out values :
  foldl (λ out v, append_u32 out (sortable_f32_bits v)) out values
  = out ++ flat_map (λ x, u32_key (sortable_f32_bits x)) values.
Proof.
  revert out. induction values as [|v values IH]; intros out; cbn [foldl flat_map].
  - by rewrite app_nil_r.
  - by rewrite IH, append_u32_app, (assoc_L (++)).
Qed.

Lemma validate_path_cases ns es :
  zlen es ≤ isize_max →
  (validate_path (zlen ns) (zlen es) = Ok tt ∧ path_valid ns es)
  ∨ (∃ e, validate_path (zlen ns) (zlen es) = Err e ∧ ¬ path_valid ns es).
Proof.
  intros Hb. unfold validate_path, saturating_add, path_valid. rewrite Z.min_r by rlia. unfold zlen.
  destruct (Z.eqb_spec (Z.of_nat (length ns)) (Z.of_nat (length es) + 1)); cbn [negb].
  - left. split; [done|lia].
  - right. eexists. split; [done|lia].
Qed.

Lemma append_path_all out ns es :
  zlen es ≤ isize_max → path_valid ns es →
  append_path (Z.to_nat (saturating_add usize_max (zlen ns) (zlen es))) 0 out ns es
  = Ok (out ++ flat_map u64_key (path_ids ns es)).
Proof.
  intros Hb Hv. unfold saturating_add. unfold path_valid in Hv. unfold zlen in *. rewrite Z.min_r by rlia.
  apply (append_path_ids ns es _ 0); [done|]. lia.
Qed.

Section encoder.
Context `{Allocator}.

(** A materialised value that has a key. *)
Definition keyed (v m : ResultValue) : Prop :=
  materialized v = Ok m ∧ result_wf m ∧ encodable m = true.

Lemma keyed_list vs ms : Forall2 keyed vs ms → keyed (ResList vs) (ResList ms).
Proof.
  intros Hm. unfold keyed. cbn [materialized encodable]. split_and!.
  - rewrite (mapM_Ok _ vs ms); [done|]. eapply Forall2_impl; [exact Hm|]. by intros v m (? & _).
  - constructor. eapply Forall2_Forall_r; [exact Hm|]. apply Forall_true. by intros v m (_ & ? & _).
  - apply forallb_Forall. eapply Forall2_Forall_r; [exact Hm|]. apply Forall_true. by intros v m (_ & _ & ?).
Qed.

Lemma keyed_map vs ms :
  keys_sorted vs → Forall (λ p, str_wf p.1) vs → zlen vs ≤ u64_max → Forall2 (entry_rel keyed) vs ms →
  keyed (ResMap vs) (ResMap ms).
Proof.
  intros Hs Hk Hz Hm. unfold keyed. cbn [materialized]. split_and!.
  - rewrite (collect_entries_Ok _ vs ms); [done|done|]. eapply Forall2_impl; [exact Hm|].
    intros p q [? (? & _)]. by split.
  - constructor; [eapply keys_sorted_keys; [by eapply Forall2_keys|done]|]. clear Hs Hz.
    induction Hm as [|[k v] [k' m] vs ms [Hkk (_ & Hw & _)]]; [constructor|]. apply Forall_cons in Hk as [? ?].
    cbn in *. subst. constructor; auto.
  - apply encodable_entries. split.
    + apply Forall2_length in Hm. unfold zlen in *. lia.
    + eapply Forall2_Forall_r; [exact Hm|]. apply Forall_true. intros p q [_ (_ & _ & ?)]. done.
Qed.

Lemma result_free_list vs : result_free (ResList vs) = true ↔ Forall (λ v, result_free v = true) vs.
Proof. cbn [result_free]. apply forallb_Forall. Qed.

Lemma materialized_free v : result_wf v → result_free v = true → materialized v = Ok v.
Proof.
  induction v as [s|n|e|ns es|vs|vs IH|vs IH] using ResultValue_nested_ind; intros Hw Hf; try done; cbn [materialized].
  - cbn in Hf. apply negb_true_iff in Hf. by apply from_property_plain.
  - apply result_free_list in Hf. inversion Hw as [| | | | |? Hvs|]; subst. rewrite (mapM_Ok _ vs vs); [done|].
    apply Forall_Forall2_diag. rewrite Forall_forall in *. auto.
  - apply result_free_entries in Hf. inversion Hw as [| | | | | |? Hs Hvs]; subst.
    rewrite (collect_entries_Ok _ vs vs); [done|done|]. apply Forall_Forall2_diag. rewrite Forall_forall in *.
    intros p Hp. split; [done|]. apply IH; [done|by apply Hvs|by apply Hf].
Qed.

Lemma keyed_self v : result_wf v → encodable v = true → result_free v = true → keyed v v.
Proof. intros. split_and!; [by apply materialized_free|done|done]. Qed.

(** What [again] promises on materialised documents. *)
Definition appends (again : bytes → ResultValue → Result bytes) : Prop :=
  ∀ out m, result_wf m → result_free m = true →
           post (again out m) (λ out', ∃ m', keyed m m' ∧ out' = out ++ key_of m').

Lemma append_sound again v out :
  result_wf v → result_free v = true ∨ appends again →
  post (append_value_with again out v) (λ out', ∃ m, keyed v m ∧ out' = out ++ key_of m).
Proof.
  revert out.
  induction v as [s|n|e|ns es|vs|vs IH|vs IH] using ResultValue_nested_ind; intros out Hw Ha; cbn [append_value_with].
  - inversion Hw; subst. destruct (is_document s) eqn:Hd.
    + destruct Ha as [Hf|Ha]; [cbn in Hf; by rewrite Hd in Hf|].
      pose proof (from_property_post s ltac:(done)) as Hp.
      destruct (from_property s) as [m| |] eqn:Hm; try done. destruct Hp as [Hwm Hfm]. rbind.
      eapply post_mono; [by apply Ha|]. intros out' (m' & (Hmm & Hw' & He') & ->). exists m'.
      split; [|done]. rewrite materialized_free in Hmm by done. injection Hmm as <-. by split_and!.
    + rewrite append_scalar_Ok by done. exists (ResScalar s). split; [|done].
      apply keyed_self; [done|..]; cbn; by rewrite Hd.
  - exists (ResNode n). split; [by apply keyed_self|]. by rewrite append_u64_app, <- (assoc_L (++)).
  - exists (ResRelationship e). split; [by apply keyed_self|]. by rewrite append_u64_app, <- (assoc_L (++)).
  - inversion Hw; subst. destruct (validate_path_cases ns es) as [[-> Hv]|(e & -> & _)]; [done| |done]. rbind.
    rewrite append_path_all by done. rbind. exists (ResPath ns es). split.
    + apply keyed_self; [done| |done]. cbn. apply Nat.eqb_eq, Hv.
    + by rewrite <- !(assoc_L (++)).
  - exists (ResVector vs). split; [by apply keyed_self|]. cbv zeta. rewrite foldl_append_u32.
    by rewrite <- !(assoc_L (++)).
  - inversion Hw as [| | | | |? Hvs|]; subst. eapply post_bind.
    { apply (append_all_post _ key_of keyed). rewrite Forall_forall in *. intros v Hv out'.
      apply IH; [done|auto|]. destruct Ha as [Hf|Ha]; [left|by right].
      apply result_free_list in Hf. rewrite Forall_forall in Hf. auto. }
    intros out' (ms & Hms & ->). exists (ResList ms). split; [by apply keyed_list|].
    by rewrite <- !(assoc_L (++)).
  - inversion Hw as [| | | | | |? Hs Hvs]; subst. cbv zeta. unfold length_u64, u64_try_from.
    destruct (Z.leb_spec (zlen vs) u64_max); [|done]. rbind. rewrite append_u64_app, foldl_append_bytes.
    eapply post_mono.
    { apply (append_all_post _ (λ '(_, m), key_of m) (entry_rel keyed)). rewrite Forall_forall in *.
      intros [k v] Hv out'. eapply post_mono; [apply (IH (k, v) Hv)|].
      - apply (Hvs (k, v) Hv).
      - destruct Ha as [Hf|Ha]; [left|by right].
        apply result_free_entries in Hf. rewrite Forall_forall in Hf. by apply (Hf (k, v)).
      - intros out'' (m & Hm & ->). by exists (k, m). }
    intros out' (ms & Hms & ->). exists (ResMap ms). split.
    + apply keyed_map; [done| |done|done]. eapply Forall_impl; [exact Hvs|]. by intros p [? _].
    + cbn [key_of]. rewrite (Forall2_keys _ _ _ Hms). replace (zlen ms) with (zlen vs)
        by (apply Forall2_length in Hms; unfold zlen; lia). by rewrite <- !(assoc_L (++)).
Qed.

Lemma append_value_sound v out :
  result_wf v → post (append_value out v) (λ out', ∃ m, keyed v m ∧ out' = out ++ key_of m).
Proof.
  intros Hw. apply append_sound; [done|]. right. intros out' m Hwm Hfm. apply append_sound; auto.
Qed.
End encoder.

(** ** The comparison *)

Lemma lex_map {A B} (c : B → B → comparison) (g : A → B) l k :
  lex c (map g l) (map g k) = lex (λ x y, c (g x) (g y)) l k.
Proof. revert k. induction l as [|x l IH]; intros [|y k]; cbn; try done. by rewrite IH. Qed.

Section comparison.
Context `{Allocator} `{OrderedFloatOrd}.

Definition is_document_value (v : ResultValue) : bool :=
  match v with ResScalar s => is_document s | _ => false end.

Lemma keyed_scalar s m : is_document s = false → keyed (ResScalar s) m → m = ResScalar s.
Proof.
  intros Hs (Hm & _). cbn [materialized] in Hm. unfold from_property in Hm.
  rewrite from_property_plain in Hm by done. congruence.
Qed.

Lemma keyed_list_inv vs m : keyed (ResList vs) m → ∃ ms, m = ResList ms ∧ Forall2 keyed vs ms.
Proof.
  intros (Hm & Hw & He). cbn [materialized] in Hm. inv_ok. subst m. apply mapM_Ok_inv in Ha.
  eexists. split; [done|]. inversion Hw as [| | | | |? Hvs|]; subst. cbn [encodable] in He.
  apply forallb_Forall in He. clear Hw. induction Ha as [|v m vs ms Hv _ IH]; [constructor|].
  apply Forall_cons in Hvs as [? ?], He as [? ?]. constructor; [by split_and!|auto].
Qed.

Lemma keyed_map_inv vs m :
  result_wf (ResMap vs) → keyed (ResMap vs) m → ∃ ms, m = ResMap ms ∧ Forall2 (entry_rel keyed) vs ms.
Proof.
  intros Hwv (Hm & Hw & He). inversion Hwv as [| | | | | |? Hs _]; subst. cbn [materialized] in Hm. inv_ok. subst m.
  apply collect_entries_Ok_inv in Ha as [Hsa Ha]; [|done]. eexists. split; [done|].
  inversion Hw as [| | | | | |? _ Hvs]; subst. apply encodable_entries in He as [_ He]. clear -Ha Hvs He.
  induction Ha as [|p q vs ms [Hk Hv] _ IH]; [constructor|].
  apply Forall_cons in Hvs as [[? ?] ?], He as [? ?]. constructor; [by split; [|split_and!]|auto].
Qed.

Lemma keyed_rank v m : is_document_value v = false → keyed v m → value_rank m = value_rank v.
Proof.
  intros Hd Hk. destruct v as [s|n|e|ns es|vs|vs|vs].
  - by rewrite (keyed_scalar s m Hd Hk).
  - destruct Hk as ([= <-] & _). done.
  - destruct Hk as ([= <-] & _). done.
  - destruct Hk as ([= <-] & _). done.
  - destruct Hk as ([= <-] & _). done.
  - by destruct (keyed_list_inv vs m Hk) as (ms & -> & _).
  - destruct Hk as (Hm & _). cbn [materialized] in Hm. inv_ok. by subst.
Qed.

(** The materialised form of a value that has one. *)
Definition form (v : ResultValue) : ResultValue :=
  match materialized v with Ok m => m | _ => v end.

Lemma keyed_form v m : keyed v m → form v = m.
Proof. intros (Hm & _). unfold form. by rewrite Hm. Qed.

Lemma keyed_forms vs ms : Forall2 keyed vs ms → map form vs = ms ∧ Forall (λ v, keyed v (form v)) vs.
Proof.
  induction 1 as [|v m vs ms Hv _ [IH1 IH2]]; [done|]. pose proof (keyed_form v m Hv) as E.
  split; [cbn; congruence|]. constructor; [by rewrite E|done].
Qed.

Lemma keyed_entry_forms (vs ms : list (bytes * ResultValue)) :
  Forall2 (entry_rel keyed) vs ms →
  map (λ '(k, v), (k, form v)) vs = ms ∧ Forall (λ p, keyed p.2 (form p.2)) vs.
Proof.
  induction 1 as [|[k v] [k' m] vs ms [Hk Hv] _ [IH1 IH2]]; [done|]. cbn in *.
  pose proof (keyed_form v m Hv) as E. split; [congruence|]. constructor; [cbn; by rewrite E|done].
Qed.

(** Materialisations still to come on one side. *)
Definition rounds_of (v : ResultValue) : nat := if result_free v then 0 else 1.

Lemma rounds_of_list vs v : v ∈ vs → (rounds_of v ≤ rounds_of (ResList vs))%nat.
Proof.
  intros Hv. unfold rounds_of. destruct (result_free (ResList vs)) eqn:E; [|destruct (result_free v); lia].
  apply result_free_list in E. rewrite Forall_forall in E. by rewrite E.
Qed.

Lemma rounds_of_map vs k v : (k, v) ∈ vs → (rounds_of v ≤ rounds_of (ResMap vs))%nat.
Proof.
  intros Hv. unfold rounds_of. destruct (result_free (ResMap vs)) eqn:E; [|destruct (result_free v); lia].
  apply result_free_entries in E. rewrite Forall_forall in E. specialize (E _ Hv). cbn in E. by rewrite E.
Qed.

(** [again] compares pairs that need fewer rounds. *)
Definition compares (n : nat) (cmp : ResultValue → ResultValue → Result comparison) : Prop :=
  ∀ a b ma mb, result_wf a → result_wf b → keyed a ma → keyed b mb →
    (rounds_of a + rounds_of b < n)%nat → cmp a b = Ok (value_cmp ma mb).

Lemma document_value_cases v m :
  result_wf v → keyed v m →
  (is_document_value v = true ∧ document_value v = Ok (Some m) ∧ rounds_of v = 1%nat
   ∧ rounds_of m = 0%nat ∧ keyed m m)
  ∨ (is_document_value v = false ∧ document_value v = Ok None).
Proof.
  intros Hw Hk. destruct v as [s|n|e|ns es|vs|vs|vs]; try (by right).
  destruct (is_document s) eqn:Hd; [left|right; cbn; by rewrite Hd].
  destruct Hk as (Hm & Hwm & Hem). cbn [materialized] in Hm. inversion Hw; subst.
  destruct (post_Ok_inv _ _ _ (from_property_post s ltac:(done)) Hm) as [_ Hf].
  cbn [is_document_value document_value]. rewrite Hd, Hm. unfold rounds_of. rewrite Hf. cbn [result_free]. rewrite Hd.
  split_and!; try done. by apply keyed_self.
Qed.

(** The comparison of values that need no further materialisation at the root. *)
Definition compare_roots (cmp : ResultValue → ResultValue → Result comparison) (a b : ResultValue)
    : Result comparison :=
  if negb (value_rank a =? value_rank b) then Ok (value_rank a ?= value_rank b)
  else
    match a, b with
    | ResMap l, ResMap r => compare_maps cmp l r
    | ResNode l, ResNode r => Ok (node_id l ?= node_id r)
    | ResRelationship l, ResRelationship r => Ok (edge_id l ?= edge_id r)
    | ResList l, ResList r => compare_sequences cmp l r
    | ResPath ln le, ResPath rn re => compare_path_ids ln le rn re
    | ResVector l, ResVector r => compare_sequences (λ x y, Ok (f32_total_cmp x y)) l r
    | ResScalar l, ResScalar r => total_compare_scalar l r
    | _, _ => Ok Eq
    end.

Lemma compare_values_eq again a b :
  compare_values again a b =
  (l ← document_value a;
   match l with
   | Some m => again m b
   | None =>
       r ← document_value b;
       match r with Some m => again a m | None => compare_roots (compare_values again) a b end
   end).
Proof. by destruct a. Qed.

Lemma compare_roots_lists cmp l r ml mr :
  (∀ x y, x ∈ l → y ∈ r → keyed x (form x) → keyed y (form y) → cmp x y = Ok (value_cmp (form x) (form y))) →
  Forall2 keyed l ml → Forall2 keyed r mr →
  compare_sequences cmp l r = Ok (lex value_cmp ml mr).
Proof.
  intros Hc [<- Hl]%keyed_forms [<- Hr]%keyed_forms. rewrite lex_map. apply compare_sequences_lex.
  intros x y Hx Hy. rewrite Forall_forall in *. apply Hc; auto.
Qed.

Lemma compare_roots_maps cmp (l r ml mr : list (bytes * ResultValue)) :
  (∀ x y, x ∈ l → y ∈ r → keyed x.2 (form x.2) → keyed y.2 (form y.2) →
          cmp x.2 y.2 = Ok (value_cmp (form x.2) (form y.2))) →
  Forall2 (entry_rel keyed) l ml → Forall2 (entry_rel keyed) r mr →
  compare_maps cmp l r
  = Ok (then_cmp (then_cmp (zlen ml ?= zlen mr) (lex lexZ (map fst ml) (map fst mr)))
          (lex (λ '(_, x) '(_, y), value_cmp x y) ml mr)).
Proof.
  intros Hc Hl Hr. rewrite <- (Forall2_keys _ _ _ Hl), <- (Forall2_keys _ _ _ Hr).
  replace (zlen ml) with (zlen l) by (apply Forall2_length in Hl; unfold zlen; lia).
  replace (zlen mr) with (zlen r) by (apply Forall2_length in Hr; unfold zlen; lia).
  apply keyed_entry_forms in Hl as [<- Hl], Hr as [<- Hr].
  rewrite (lex_map (λ '(_, x) '(_, y), value_cmp x y)).
  rewrite (compare_maps_lex cmp (λ x y, value_cmp (form x) (form y)));
    [|intros x y Hx Hy; rewrite Forall_forall in *; apply Hc; auto].
  f_equal. f_equal. clear. revert r.
  induction l as [|[k x] l IH]; intros [|[k' y] r]; cbn [lex]; try done. by rewrite IH.
Qed.

(** The parts that a recursive call may meet. *)
Definition part (x v : ResultValue) : Prop :=
  match v with
  | ResList vs => x ∈ vs
  | ResMap vs => ∃ k, (k, x) ∈ vs
  | _ => False
  end.

Lemma part_wf x v : result_wf v → part x v → result_wf x.
Proof.
  intros Hw Hp. destruct v; try done; inversion Hw as [| | | | |? Hvs|? _ Hvs]; subst; cbn in Hp;
    rewrite Forall_forall in Hvs; [by apply Hvs|]. destruct Hp as [k Hp]. by apply (Hvs (k, x)).
Qed.

Lemma part_rounds x v : part x v → (rounds_of x ≤ rounds_of v)%nat.
Proof.
  destruct v; try done; cbn [part]; [by apply rounds_of_list|]. intros [k Hp]. by eapply rounds_of_map.
Qed.

Lemma value_cmp_rank a b : value_rank a ≠ value_rank b → value_cmp a b = (value_rank a ?= value_rank b).
Proof. intros Hne. destruct a; cbn [value_cmp]; by rewrite (proj2 (Z.eqb_neq _ _) Hne). Qed.

Lemma compare_roots_spec cmp a b ma mb :
  result_wf a → result_wf b → keyed a ma → keyed b mb →
  is_document_value a = false → is_document_value b = false →
  (∀ x y, part x a → part y b → keyed x (form x) → keyed y (form y) →
          cmp x y = Ok (value_cmp (form x) (form y))) →
  compare_roots cmp a b = Ok (value_cmp ma mb).
Proof.
  intros Hwa Hwb Hka Hkb Hda Hdb Hcmp.
  pose proof (keyed_rank a ma Hda Hka) as Ra. pose proof (keyed_rank b mb Hdb Hkb) as Rb. unfold compare_roots.
  destruct (Z.eqb_spec (value_rank a) (value_rank b)) as [Hr|Hr]; cbn [negb];
    [|by rewrite value_cmp_rank, Ra, Rb by congruence].
  destruct a as [s|n|e|ns es|vs|vs|vs], b as [s'|n'|e'|ns' es'|vs'|vs'|vs']; try done;
    try (exfalso; rewrite ?scalar_rank_value in Hr; cbn in Hr; (destruct s || destruct s'); cbn in Hr; lia).
  - rewrite (keyed_scalar s ma), (keyed_scalar s' mb) by done. cbn [value_cmp].
    rewrite (proj2 (Z.eqb_eq _ _) Hr). cbn [negb]. inversion Hwa; inversion Hwb; subst.
    destruct (scalar_codes s s') as (c & Hc & _); [done..|]. unfold scalar_cmp. by rewrite Hc.
  - destruct Hka as ([= <-] & _), Hkb as ([= <-] & _). done.
  - destruct Hka as ([= <-] & _), Hkb as ([= <-] & _). done.
  - destruct Hka as ([= <-] & _ & Hea), Hkb as ([= <-] & _ & Heb). cbn in Hea, Heb. apply Nat.eqb_eq in Hea, Heb.
    inversion Hwa; inversion Hwb; subst. cbn [value_cmp value_rank Z.eqb negb].
    apply compare_path_ids_lex; unfold path_valid, zlen in *; lia.
  - destruct Hka as ([= <-] & _), Hkb as ([= <-] & _). cbn [value_cmp value_rank Z.eqb negb].
    by apply compare_sequences_lex.
  - destruct (keyed_list_inv vs ma Hka) as (ms & -> & Hms), (keyed_list_inv vs' mb Hkb) as (ms' & -> & Hms').
    cbn [value_cmp value_rank Z.eqb negb]. by apply compare_roots_lists.
  - destruct (keyed_map_inv vs ma Hwa Hka) as (ms & -> & Hms), (keyed_map_inv vs' mb Hwb Hkb) as (ms' & -> & Hms').
    cbn [value_cmp value_rank Z.eqb negb]. apply compare_roots_maps; [|done|done].
    intros [k x] [k' y] Hx Hy. apply Hcmp; by eexists.
Qed.

Lemma ResultValue_part_ind (P : ResultValue → Prop) :
  (∀ v, (∀ x, part x v → P x) → P v) → ∀ v, P v.
Proof.
  intros Hstep v. induction v as [s|n|e|ns es|vs|vs IH|vs IH] using ResultValue_nested_ind;
    apply Hstep; try done; cbn [part]; rewrite Forall_forall in IH; [done|].
  intros x [k Hx]. by apply (IH (k, x)).
Qed.

Lemma compare_values_spec n again a :
  compares n again →
  ∀ b ma mb, result_wf a → result_wf b → keyed a ma → keyed b mb →
    (rounds_of a + rounds_of b ≤ n)%nat → compare_values again a b = Ok (value_cmp ma mb).
Proof.
  intros Hagain. induction a as [a IH] using ResultValue_part_ind. intros b ma mb Hwa Hwb Hka Hkb Hn.
  rewrite compare_values_eq.
  destruct (document_value_cases a ma Hwa Hka) as [(_ & -> & Hra & Hrm & Hkm)|(Hda & ->)]; rbind.
  { apply Hagain; try done; [apply Hka|lia]. }
  destruct (document_value_cases b mb Hwb Hkb) as [(_ & -> & Hrb & Hrm & Hkm)|(Hdb & ->)]; rbind.
  { apply Hagain; try done; [apply Hkb|lia]. }
  apply compare_roots_spec; try done. intros x y Hx Hy Hkx Hky.
  pose proof (part_rounds x a Hx). pose proof (part_rounds y b Hy).
  apply IH; [done|apply (part_wf x a Hwa Hx)|apply (part_wf y b Hwb Hy)|done|done|lia].
Qed.

Lemma total_compare_rounds_spec n : compares (S n) (total_compare_rounds n).
Proof.
  induction n as [|n IH]; intros a b ma mb Hwa Hwb Hka Hkb Hn; cbn [total_compare_rounds].
  - eapply (compare_values_spec 0); try done; [intros ?????????; lia|lia].
  - eapply (compare_values_spec (S n)); try done. lia.
Qed.

(** Two rounds are enough. *)
Lemma total_compare_spec a b ma mb :
  result_wf a → result_wf b → keyed a ma → keyed b mb → total_compare a b = Ok (value_cmp ma mb).
Proof.
  intros. apply total_compare_rounds_spec; try done. unfold rounds_of. destruct (result_free a), (result_free b); lia.
Qed.
End comparison.

(** ** Lengths *)

(** A length that fits the address space. *)
Definition guard_len (n : Z) : Result Z := if n <=? usize_max then Ok n else Err key_too_large.

Lemma guard_small n : n ≤ usize_max → guard_len n = Ok n.
Proof. intros. unfold guard_len. by rewrite (proj2 (Z.leb_le _ _)). Qed.
Lemma guard_large n : usize_max < n → guard_len n = Err key_too_large.
Proof. intros. unfold guard_len. by rewrite (proj2 (Z.leb_gt _ _)). Qed.

Lemma checked_add_len_guard a b : checked_add_len a b = guard_len (a + b).
Proof. unfold checked_add_len, checked_add, guard_len. by destruct (_ <=? _). Qed.

Lemma guard_add a b : 0 ≤ a → (n ← guard_len b; checked_add_len a n) = guard_len (a + b).
Proof.
  intros Ha. destruct (Z_le_gt_dec b usize_max).
  - rewrite guard_small by done. rbind. apply checked_add_len_guard.
  - by rewrite !guard_large by lia.
Qed.

Lemma encoded_bytes_len_guard n : 0 ≤ n → encoded_bytes_len n = guard_len (2 * n + 1).
Proof.
  intros Hn. unfold encoded_bytes_len, checked_mul, checked_add, guard_len.
  destruct (Z.leb_spec (n * 2) usize_max); cbn.
  - rewrite (Z.mul_comm 2). by destruct (_ <=? _).
  - by rewrite (proj2 (Z.leb_gt _ _)) by lia.
Qed.

Lemma try_fold_len_guard {A M} (f : A → Result Z) (len : M → Z) acc l ms :
  0 ≤ acc ≤ usize_max → (∀ m, 0 ≤ len m) → Forall2 (λ x m, f x = guard_len (len m)) l ms →
  try_fold_len f acc l = guard_len (acc + foldr (λ m n, len m + n) 0 ms).
Proof.
  intros Hacc Hlen Hl. revert acc Hacc.
  induction Hl as [|x m l ms Hx Hl IH]; intros acc Hacc; cbn [try_fold_len foldr].
  - by rewrite Z.add_0_r, guard_small by lia.
  - rewrite Hx. specialize (Hlen m) as Hm.
    assert (0 ≤ foldr (λ m n, len m + n) 0 ms) as Hpos.
    { clear -Hlen. induction ms as [|m ms IH]; cbn; [lia|]. specialize (Hlen m). lia. }
    destruct (Z_le_gt_dec (len m) usize_max); [|rewrite !guard_large by lia; done].
    rewrite guard_small by done. rbind. rewrite checked_add_len_guard.
    destruct (Z_le_gt_dec (acc + len m) usize_max); [|rewrite !guard_large by lia; done].
    rewrite guard_small by done. rbind. rewrite IH by lia. f_equal. lia.
Qed.

Lemma zlen_flat_map {M} (key : M → bytes) ms :
  zlen (flat_map key ms) = foldr (λ m n, zlen (key m) + n) 0 ms.
Proof. induction ms as [|m ms IH]; [done|]. cbn [flat_map foldr]. by rewrite zlen_app, IH. Qed.

Lemma scalar_key_len_guard s :
  scalar_wf s → is_document s = false → scalar_key_len s = guard_len (zlen (scalar_key s)).
Proof.
  intros Hs Hd. destruct s; cbn [scalar_key_len is_document] in *; try done;
    try (rewrite encoded_bytes_len_guard, guard_add by (lia || apply zlen_nonneg);
         unfold scalar_key; cbn [append_scalar]; autorewrite with keys; f_equal; lia);
    try (unfold scalar_key; cbn [append_scalar]; autorewrite with keys; rewrite guard_small by rlia; f_equal; lia).
  - destruct (number_scalar_key (ScalarInteger x) Hs I) as (n & -> & _). autorewrite with keys.
    by rewrite guard_small by rlia.
  - destruct (number_scalar_key (ScalarFloat bits) Hs I) as (n & -> & _). autorewrite with keys.
    by rewrite guard_small by rlia.
Qed.

Lemma guard_add2 a b c :
  0 ≤ a → 0 ≤ b → 0 ≤ c →
  (x ← guard_len b; y ← guard_len c; z ← checked_add_len x y; checked_add_len a z) = guard_len (a + (b + c)).
Proof.
  intros Ha Hb Hc. destruct (Z_le_gt_dec b usize_max); [|by rewrite (guard_large b), (guard_large (a + (b + c))) by lia].
  rewrite (guard_small b) by done. rbind.
  destruct (Z_le_gt_dec c usize_max); [|by rewrite (guard_large c), (guard_large (a + (b + c))) by lia].
  rewrite (guard_small c) by done. rbind. rewrite checked_add_len_guard. by apply guard_add.
Qed.

Lemma foldr_sum_nonneg {M} (len : M → Z) ms : (∀ m, 0 ≤ len m) → 0 ≤ foldr (λ m n, len m + n) 0 ms.
Proof. intros Hl. induction ms as [|m ms IH]; cbn; [lia|]. specialize (Hl m). lia. Qed.

Lemma zlen_flat_map_const {M} (key : M → bytes) k ms :
  (∀ m, zlen (key m) = k) → zlen (flat_map key ms) = k * zlen ms.
Proof.
  intros Hk. induction ms as [|m ms IH]; cbn [flat_map]; [unfold zlen; cbn; lia|].
  rewrite zlen_app, IH, Hk, zlen_cons. lia.
Qed.

Section lengths.
Context `{Allocator}.

Definition measures (again : ResultValue → Result Z) : Prop :=
  ∀ m, result_wf m → result_free m = true → encodable m = true →
       again m = guard_len (zlen (key_of m)).

Lemma zlen_path_key ns es :
  path_valid ns es → zlen (key_of (ResPath ns es)) = 2 + (zlen ns + zlen es) * 16.
Proof.
  intros Hv. cbn [key_of]. autorewrite with keys. rewrite (zlen_flat_map_const _ 16) by apply zlen_u64_key.
  unfold zlen. rewrite length_path_ids by done. lia.
Qed.

Lemma zlen_vector_key vs : zlen (key_of (ResVector vs)) = 2 + zlen vs * 8.
Proof.
  cbn [key_of]. autorewrite with keys. rewrite (zlen_flat_map_const _ 8) by (intros; apply zlen_u32_key). lia.
Qed.

Lemma checked_mul_guard a b n :
  (length ← ok_or (checked_mul usize_max a b) key_too_large; checked_add_len n length)
  = (length ← guard_len (a * b); checked_add_len n length).
Proof. unfold checked_mul, guard_len. by destruct (_ <=? _). Qed.

Lemma list_key_len again vs ms :
  Forall2 (λ v m, key_len_with again v = guard_len (zlen (key_of m))) vs ms →
  key_len_with again (ResList vs) = guard_len (zlen (key_of (ResList ms))).
Proof.
  intros Hms. cbn [key_len_with].
  rewrite (try_fold_len_guard _ (λ m, zlen (key_of m)) _ _ ms); [|rlia|intros; apply zlen_nonneg|done].
  cbn [key_of]. autorewrite with keys. rewrite zlen_flat_map. f_equal. lia.
Qed.

Lemma map_key_len again (vs ms : list (bytes * ResultValue)) :
  Forall2 (entry_rel (λ v m, key_len_with again v = guard_len (zlen (key_of m)))) vs ms →
  key_len_with again (ResMap vs) = guard_len (zlen (key_of (ResMap ms))).
Proof.
  intros Hms. cbn [key_len_with].
  rewrite (try_fold_len_guard (λ '(name, _), encoded_bytes_len (zlen name))
    (λ '(k, _), zlen (bytes_key k)) _ vs ms);
    [|rlia|intros [? ?]; apply zlen_nonneg|].
  2: { eapply Forall2_impl; [exact Hms|]. intros [k v] [k' m] [Hk _]. cbn in Hk. subst.
       rewrite encoded_bytes_len_guard, zlen_bytes_key by apply zlen_nonneg. done. }
  rewrite (try_fold_len_guard _ (λ '(_, m), zlen (key_of m)) _ _ ms);
    [|rlia|intros [? ?]; apply zlen_nonneg|].
  2: { eapply Forall2_impl; [exact Hms|]. by intros [k v] [k' m] [_ Hv]. }
  rewrite guard_add2 by (lia || rewrite Z.add_0_l; apply foldr_sum_nonneg; intros [? ?]; apply zlen_nonneg).
  f_equal. cbn [key_of]. rewrite zlen_cons, !zlen_app, zlen_u64_key, !zlen_flat_map.
  assert (∀ ms : list (bytes * ResultValue), foldr (λ m n, zlen (bytes_key m) + n) 0 (map fst ms)
          = foldr (λ m n, (let '(k, _) := m in zlen (bytes_key k)) + n) 0 ms) as ->.
  { clear. intros ms. induction ms as [|[k m] ms IH]; [done|]. cbn. by rewrite IH. }
  assert (foldr (λ m n, zlen (let '(_, v) := m in key_of v) + n) 0 ms
          = foldr (λ m n, (let '(_, v) := m in zlen (key_of v)) + n) 0 ms) as ->.
  { clear. induction ms as [|[k m] ms IH]; [done|]. cbn. by rewrite IH. }
  lia.
Qed.

Lemma key_len_exact again v m :
  result_wf v → keyed v m → result_free v = true ∨ measures again →
  key_len_with again v = guard_len (zlen (key_of m)).
Proof.
  revert m. induction v as [v IH] using ResultValue_part_ind. intros m Hw Hk Ha.
  assert (∀ x m, part x v → keyed x m → key_len_with again x = guard_len (zlen (key_of m))) as Hparts.
  { intros x mx Hx Hkx. apply IH; [done|by apply (part_wf x v)|done|].
    destruct Ha as [Hf|Ha]; [left|by right]. pose proof (part_rounds x v Hx) as Hr.
    unfold rounds_of in Hr. rewrite Hf in Hr. destruct (result_free x); [done|lia]. }
  destruct v as [s|n|e|ns es|vs|vs|vs].
  - inversion Hw; subst. cbn [key_len_with]. destruct (is_document s) eqn:Hd.
    + destruct Ha as [Hf|Ha]; [cbn in Hf; by rewrite Hd in Hf|]. destruct Hk as (Hm & Hwm & Hem).
      cbn [materialized] in Hm. destruct (post_Ok_inv _ _ _ (from_property_post s ltac:(done)) Hm) as [_ Hf].
      rewrite Hm. rbind. by apply Ha.
    + rewrite (keyed_scalar s m) by done. by apply scalar_key_len_guard.
  - destruct Hk as ([= <-] & _). cbn [key_of]. autorewrite with keys. by rewrite guard_small by rlia.
  - destruct Hk as ([= <-] & _). cbn [key_of]. autorewrite with keys. by rewrite guard_small by rlia.
  - destruct Hk as ([= <-] & _ & He). cbn in He. apply Nat.eqb_eq in He. inversion Hw; subst.
    rewrite zlen_path_key by done. cbn [key_len_with].
    destruct (validate_path_cases ns es) as [[-> _]|(? & _ & ?)]; [done| |done]. rbind.
    unfold checked_add at 1. rewrite (proj2 (Z.leb_le _ _)) by rlia. cbn [mbind option_bind].
    rewrite checked_mul_guard. by apply guard_add.
  - destruct Hk as ([= <-] & _). rewrite zlen_vector_key. cbn [key_len_with].
    rewrite checked_mul_guard. by apply guard_add.
  - destruct (keyed_list_inv vs m Hk) as (ms & -> & Hms). apply list_key_len.
    eapply Forall2_impl_in; [exact Hms|]. intros x y Hx _. by apply Hparts.
  - destruct (keyed_map_inv vs m Hw Hk) as (ms & -> & Hms). apply map_key_len.
    eapply Forall2_impl_in; [exact Hms|]. intros [k x] [k' y] Hx _ [? ?]. split; [done|].
    apply Hparts; [by exists k|done].
Qed.

(** Without a key, the length is an error, not a panic. *)
Lemma try_fold_len_post {A} (f : A → Result Z) acc l :
  Forall (λ x, post (f x) (λ _, True)) l → post (try_fold_len f acc l) (λ _, True).
Proof.
  intros Hl. revert acc. induction Hl as [|x l Hx _ IH]; intros acc; cbn [try_fold_len]; [done|].
  eapply post_bind; [exact Hx|]. intros n _. rewrite checked_add_len_guard. unfold guard_len.
  destruct (_ <=? _); rbind; [apply IH|done].
Qed.

Lemma guard_post n (Q : Z → Prop) : Q n → post (guard_len n) Q.
Proof. intros. unfold guard_len. by destruct (_ <=? _). Qed.

Lemma key_len_post again v :
  result_wf v → result_free v = true ∨ (∀ m, result_wf m → result_free m = true → post (again m) (λ _, True)) →
  post (key_len_with again v) (λ _, True).
Proof.
  induction v as [v IH] using ResultValue_part_ind. intros Hw Ha.
  assert (∀ x, part x v → post (key_len_with again x) (λ _, True)) as Hparts.
  { intros x Hx. apply IH; [done|by apply (part_wf x v)|].
    destruct Ha as [Hf|Ha]; [left|by right]. pose proof (part_rounds x v Hx) as Hr.
    unfold rounds_of in Hr. rewrite Hf in Hr. destruct (result_free x); [done|lia]. }
  destruct v as [s|n|e|ns es|vs|vs|vs]; cbn [key_len_with].
  - inversion Hw; subst. destruct (is_document s) eqn:Hd.
    + destruct Ha as [Hf|Ha]; [cbn in Hf; by rewrite Hd in Hf|].
      eapply post_bind; [by apply from_property_post|]. intros m [? ?]. by apply Ha.
    + rewrite scalar_key_len_guard by done. by apply guard_post.
  - done.
  - done.
  - inversion Hw; subst. destruct (validate_path_cases ns es) as [[-> _]|(? & -> & ?)]; [done| |done]. rbind.
    eapply post_bind; [by apply (post_ok_or _ _ (λ _, True))|]. intros n _. rewrite checked_add_len_guard.
    by apply guard_post.
  - rewrite checked_mul_guard. rewrite guard_add by done. by apply guard_post.
  - apply try_fold_len_post, Forall_forall. intros x Hx. by apply Hparts.
  - eapply post_bind; [apply try_fold_len_post, Forall_forall|].
    { intros [k x] _. rewrite encoded_bytes_len_guard by apply zlen_nonneg. by apply guard_post. }
    intros a _. eapply post_bind; [apply try_fold_len_post, Forall_forall|].
    { intros [k x] Hx. apply Hparts. by exists k. }
    intros b _. rewrite checked_add_len_guard. eapply post_bind; [by apply (guard_post _ (λ _, True))|].
    intros c _. rewrite checked_add_len_guard. by apply guard_post.
Qed.

Lemma total_order_key_len_keyed v m :
  result_wf v → keyed v m → total_order_key_len v = guard_len (zlen (key_of m)).
Proof.
  intros Hw Hk. apply key_len_exact; [done|done|]. right. intros m' ? ? ?.
  apply key_len_exact; [done|by apply keyed_self|by left].
Qed.

Lemma total_order_key_len_post v : result_wf v → post (total_order_key_len v) (λ _, True).
Proof. intros Hw. apply key_len_post; [done|]. right. intros m ? ?. apply key_len_post; auto. Qed.

(** A value with a key is encoded. *)
Lemma append_complete again v m out :
  result_wf v → keyed v m →
  result_free v = true
    ∨ (∀ out m, result_wf m → result_free m = true → encodable m = true → again out m = Ok (out ++ key_of m)) →
  append_value_with again out v = Ok (out ++ key_of m).
Proof.
  revert m out. induction v as [v IH] using ResultValue_part_ind. intros m out Hw Hk Ha.
  assert (∀ x m out, part x v → keyed x m → append_value_with again out x = Ok (out ++ key_of m)) as Hparts.
  { intros x mx out' Hx Hkx. apply IH; [done|by apply (part_wf x v)|done|].
    destruct Ha as [Hf|Ha]; [left|by right]. pose proof (part_rounds x v Hx) as Hr.
    unfold rounds_of in Hr. rewrite Hf in Hr. destruct (result_free x); [done|lia]. }
  destruct v as [s|n|e|ns es|vs|vs|vs]; cbn [append_value_with].
  - inversion Hw; subst. destruct (is_document s) eqn:Hd.
    + destruct Ha as [Hf|Ha]; [cbn in Hf; by rewrite Hd in Hf|]. destruct Hk as (Hm & Hwm & Hem).
      cbn [materialized] in Hm. destruct (post_Ok_inv _ _ _ (from_property_post s ltac:(done)) Hm) as [_ Hf].
      rewrite Hm. rbind. by apply Ha.
    + rewrite (keyed_scalar s m) by done. by apply append_scalar_Ok.
  - destruct Hk as ([= <-] & _). by rewrite append_u64_app, <- (assoc_L (++)).
  - destruct Hk as ([= <-] & _). by rewrite append_u64_app, <- (assoc_L (++)).
  - destruct Hk as ([= <-] & _ & He). cbn in He. apply Nat.eqb_eq in He. inversion Hw; subst.
    destruct (validate_path_cases ns es) as [[-> _]|(? & _ & ?)]; [done| |done]. rbind.
    rewrite append_path_all by done. rbind. by rewrite <- !(assoc_L (++)).
  - destruct Hk as ([= <-] & _). cbv zeta. rewrite foldl_append_u32. by rewrite <- !(assoc_L (++)).
  - destruct (keyed_list_inv vs m Hk) as (ms & -> & Hms). rewrite (append_all_Ok _ key_of _ vs ms).
    + rbind. by rewrite <- !(assoc_L (++)).
    + eapply Forall2_impl_in; [exact Hms|]. intros x y Hx _ ? ?. by apply Hparts.
  - destruct (keyed_map_inv vs m Hw Hk) as (ms & -> & Hms).
    assert (zlen ms = zlen vs) as Hz by (apply Forall2_length in Hms; unfold zlen; lia).
    destruct Hk as (_ & _ & [Hle _]%encodable_entries). cbv zeta. unfold length_u64, u64_try_from.
    rewrite (proj2 (Z.leb_le _ _)) by lia. rbind. rewrite append_u64_app, foldl_append_bytes.
    rewrite (append_all_Ok _ (λ '(_, m), key_of m) _ vs ms).
    + cbn [key_of]. rewrite Hz, (Forall2_keys _ _ _ Hms). by rewrite <- !(assoc_L (++)).
    + eapply Forall2_impl_in; [exact Hms|]. intros [k x] [k' y] Hx _ [_ ?] ?. apply Hparts; [by exists k|done].
Qed.

Lemma append_value_keyed v m out : result_wf v → keyed v m → append_value out v = Ok (out ++ key_of m).
Proof.
  intros Hw Hk. apply append_complete; [done|done|]. right. intros out' m' ? ? ?.
  apply append_complete; [done|by apply keyed_self|by left].
Qed.

Lemma append_key_cases v out :
  result_wf v →
  post (append_total_order_key out v)
    (λ '(out', n), ∃ m, keyed v m ∧ out' = out ++ key_of m ∧ n = zlen (key_of m)).
Proof.
  intros Hw. unfold append_total_order_key.
  pose proof (total_order_key_len_post v Hw) as Hl. destruct (total_order_key_len v) as [n| |] eqn:Hn; try done.
  rbind. destruct (grant _ _); [|done]. cbv zeta.
  eapply post_bind; [by apply append_value_sound|]. intros out' (m & Hk & ->).
  rewrite (total_order_key_len_keyed v m Hw Hk) in Hn. unfold guard_len in Hn.
  destruct (_ <=? _); [|done]. injection Hn as <-. rewrite zlen_app, (proj2 (Z.eqb_eq _ _)) by lia.
  by exists m.
Qed.

Lemma encode_append v :
  encode_total_order_key v = (fst <$> append_total_order_key [] v).
Proof.
  unfold encode_total_order_key, append_total_order_key. destruct (total_order_key_len v) as [n| |]; try done.
  rbind. rewrite zlen_nil, Z.add_0_l. destruct (grant _ _); [|done]. cbv zeta.
  destruct (append_value [] v) as [out| |]; try done. rbind. rewrite Z.sub_0_r. by destruct (_ =? _).
Qed.

Lemma encode_key_cases v :
  result_wf v → post (encode_total_order_key v) (λ k, ∃ m, keyed v m ∧ k = key_of m).
Proof.
  intros Hw. rewrite encode_append. pose proof (append_key_cases v [] Hw) as Ha.
  destruct (append_total_order_key [] v) as [[k n]| |]; try done. destruct Ha as (m & ? & -> & _). by exists m.
Qed.
End lengths.

(** ** Theorems *)

Section order_keys.
Context `{Allocator} `{OrderedFloatOrd}.

Lemma total_compare_keys a b ka kb :
  result_wf a → result_wf b →
  encode_total_order_key a = Ok ka → encode_total_order_key b = Ok kb →
  total_compare a b = Ok (lexZ ka kb) ∧ codes (lexZ ka kb) ka kb.
Proof.
  intros Hwa Hwb Ha Hb.
  destruct (post_Ok_inv _ _ _ (encode_key_cases a Hwa) Ha) as (ma & Hka & ->).
  destruct (post_Ok_inv _ _ _ (encode_key_cases b Hwb) Hb) as (mb & Hkb & ->).
  destruct (Hka) as (_ & ? & ?), (Hkb) as (_ & ? & ?).
  assert (codes (value_cmp ma mb) (key_of ma) (key_of mb)) as Hc by (by apply value_codes).
  rewrite (total_compare_spec a b ma mb) by done. by rewrite (codes_lex _ _ _ Hc).
Qed.

(** C4: the bytes of two keys compare as the values do, no key is a proper
    prefix of another, and so keys of several columns can be concatenated and
    still compare column by column. *)
Theorem order_key_refines_compare a b ka kb rest :
  result_wf a → result_wf b →
  encode_total_order_key a = Ok ka → encode_total_order_key b = Ok kb →
  total_compare a b = Ok (lexZ ka kb)
  ∧ (kb = ka ++ rest → rest = [])
  ∧ ∀ s1 s2, lexZ (ka ++ s1) (kb ++ s2) = then_cmp (lexZ ka kb) (lexZ s1 s2).
Proof.
  intros Hwa Hwb Ha Hb. destruct (total_compare_keys a b _ _ Hwa Hwb Ha Hb) as [Ht Hc].
  split; [done|]. split; [|exact Hc]. intros ->. by eapply codes_prefix.
Qed.

(** on values that have keys the comparison is a total preorder: equal to
    itself, reversed by swapping, transitive, and equal exactly on values with
    the same key. *)
Theorem total_compare_preorder a b c ka kb kc :
  result_wf a → result_wf b → result_wf c →
  encode_total_order_key a = Ok ka → encode_total_order_key b = Ok kb → encode_total_order_key c = Ok kc →
  total_compare a a = Ok Eq
  ∧ total_compare b a = (CompOpp <$> total_compare a b)
  ∧ (total_compare a b = Ok Lt → total_compare b c = Ok Lt → total_compare a c = Ok Lt)
  ∧ (total_compare a b = Ok Eq ↔ ka = kb).
Proof.
  intros Hwa Hwb Hwc Ha Hb Hc.
  rewrite (proj1 (total_compare_keys a a ka ka Hwa Hwa Ha Ha)), (proj1 (total_compare_keys a b ka kb Hwa Hwb Ha Hb)),
    (proj1 (total_compare_keys b a kb ka Hwb Hwa Hb Ha)), (proj1 (total_compare_keys b c kb kc Hwb Hwc Hb Hc)),
    (proj1 (total_compare_keys a c ka kc Hwa Hwc Ha Hc)).
  split_and!.
  - by rewrite lexZ_refl.
  - cbn. by rewrite <- lexZ_antisym.
  - intros [= H1] [= H2]. by rewrite (lexZ_trans _ _ _ H1 H2).
  - rewrite <- lexZ_eq. split; [by intros [= ?]|by intros ->].
Qed.

(** Encoding terminates without a panic, so the length computed in
    advance is the length of the key; a value whose documents decode, whose
    paths alternate and whose key the allocator grants is encoded, and
    appending to a column extends it by that key. *)
Theorem order_key_total v m out :
  result_wf v →
  aborts (encode_total_order_key v) = false ∧ aborts (append_total_order_key out v) = false
  ∧ (materialized v = Ok m → result_wf m → encodable m = true →
     grant KeyBytes (zlen (key_of m)) = true → grant KeyBytes (zlen out + zlen (key_of m)) = true →
     total_order_key_len v = Ok (zlen (key_of m))
     ∧ encode_total_order_key v = Ok (key_of m)
     ∧ append_total_order_key out v = Ok (out ++ key_of m, zlen (key_of m))).
Proof.
  intros Hw. split_and!.
  - eapply post_no_abort. by apply encode_key_cases.
  - eapply post_no_abort. by apply append_key_cases.
  - intros Hm Hwm He Hg Hg'. assert (keyed v m) as Hk by done.
    assert (total_order_key_len v = Ok (zlen (key_of m))) as Hl.
    { rewrite (total_order_key_len_keyed v m Hw Hk). apply guard_small. apply grant_bound in Hg. rlia. }
    split; [done|]. unfold encode_total_order_key, append_total_order_key.
    rewrite Hl. rbind. rewrite Hg, Hg', !(append_value_keyed v m) by done. rbind. cbv zeta.
    cbn [app]. rewrite Z.eqb_refl, zlen_app. split; [done|].
    by rewrite (proj2 (Z.eqb_eq (_ - _) _)) by lia.
Qed.
End order_keys.

(** ** Concrete values *)

Definition ieee_ord : OrderedFloatOrd := {|
  ordered_float_cmp a b :=
    match f64_is_nan a, f64_is_nan b with
    | true, true => Eq
    | true, false => Gt
    | false, true => Lt
    | false, false => f64_scaled a ?= f64_scaled b
    end;
  ordered_float_cmp_spec a b := eq_refl;
|}.

(** [2 ^ 53 + 1] and the float [2 ^ 53 + 2], in lists; a stored map. *)
Definition int_list : ResultValue := ResList [ResScalar (ScalarInteger 9007199254740993)].
Definition float_list : ResultValue := ResList [ResScalar (ScalarFloat 0x4340000000000001)].
Definition stored_map : ResultValue := ResScalar (ScalarMap sample_bytes).

Definition key (v : ResultValue) : bytes :=
  match encode_total_order_key (H := roomy) v with Ok k => k | _ => [] end.

Lemma int_list_wf : result_wf int_list.
Proof. constructor. apply Forall_singleton. constructor. decided. Qed.
Lemma float_list_wf : result_wf float_list.
Proof. constructor. apply Forall_singleton. constructor. decided. Qed.
Lemma stored_map_wf : result_wf stored_map.
Proof. constructor. decided. Qed.

Lemma order_key_refines_compare_witness :
  total_compare (H := roomy) (H0 := ieee_ord) int_list float_list = Ok (lexZ (key int_list) (key float_list))
  ∧ (key float_list = key int_list ++ [1] → [1] = [])
  ∧ ∀ s1 s2, lexZ (key int_list ++ s1) (key float_list ++ s2)
             = then_cmp (lexZ (key int_list) (key float_list)) (lexZ s1 s2).
Proof.
  apply (order_key_refines_compare (H := roomy) (H0 := ieee_ord) int_list float_list);
    [exact int_list_wf|exact float_list_wf|vm_compute; reflexivity..].
Defined.

Lemma total_compare_preorder_witness :
  total_compare (H := roomy) (H0 := ieee_ord) stored_map stored_map = Ok Eq
  ∧ total_compare (H := roomy) (H0 := ieee_ord) int_list stored_map
    = (CompOpp <$> total_compare (H := roomy) (H0 := ieee_ord) stored_map int_list)
  ∧ (total_compare (H := roomy) (H0 := ieee_ord) stored_map int_list = Ok Lt →
     total_compare (H := roomy) (H0 := ieee_ord) int_list float_list = Ok Lt →
     total_compare (H := roomy) (H0 := ieee_ord) stored_map float_list = Ok Lt)
  ∧ (total_compare (H := roomy) (H0 := ieee_ord) stored_map int_list = Ok Eq ↔ key stored_map = key int_list).
Proof.
  apply (total_compare_preorder (H := roomy) (H0 := ieee_ord) stored_map int_list float_list
           (key stored_map) (key int_list) (key float_list));
    [exact stored_map_wf|exact int_list_wf|exact float_list_wf|vm_compute; reflexivity..].
Defined.

Lemma order_key_total_witness :
  aborts (encode_total_order_key (H := roomy) stored_map) = false
  ∧ encode_total_order_key (H := roomy) stored_map = Ok (key stored_map).
Proof.
  pose (m := match materialized (H := roomy) stored_map with Ok m => m | _ => stored_map end).
  destruct (order_key_total (H := roomy) stored_map m [] stored_map_wf) as (Ha & _ & Hk).
  split; [exact Ha|].
  assert (result_wf m) as Hm.
  { constructor; [done|]. apply Forall_singleton. split; [decided|constructor; decided]. }
  destruct (Hk ltac:(vm_compute; reflexivity) Hm ltac:(vm_compute; reflexivity)
    ltac:(vm_compute; reflexivity) ltac:(vm_compute; reflexivity)) as (_ & He & _).
  rewrite He. vm_compute. reflexivity.
Defined.
