(* ===== verification/Records.v ===== *)
(** * Record store: [crates/storage/src/records.rs]

    Durable records over the embedded database [redb]: values above 64 KiB are
    split into chunks, every value carries a checksum, and a batch of
    operations commits together with the bookmark it reaches.

    [redb] and [blake3] are third-party code.  [Redb] lists the calls the store
    makes on them, each of which may fail; [RedbSpec] is their documented
    behaviour: a table is a finite map, a range visits the entries from a key
    on in key order, and a transaction that is not committed leaves no trace
    (so a write transaction works on copies of the tables that replace the
    originals on commit).  A commit that reports a failure may still have
    taken effect ([commit_survives]); it is never half done. *)

From stdpp Require Import prelude gmap strings sorting.
From Stdlib Require Import ZArith Lia.
From S2P Require Import Prelude Machine Types Document.

Local Open Scope Z_scope.

Definition FORMAT : bytes :=
  [73; 114; 111; 110; 71; 114; 97; 112; 104; 45; 114; 101; 99; 111; 114; 100; 115; 45; 49].
Definition CHUNK_BYTES : Z := 64 * 1024.
Definition HEADER_BYTES : Z := 48.
Definition DELETE_BATCH : nat := 128.

(** The keys [b"format"], [b"identity"] and [b"bookmark"]. *)
Definition format_key : bytes := [102; 111; 114; 109; 97; 116].
Definition identity_key : bytes := [105; 100; 101; 110; 116; 105; 116; 121].
Definition bookmark_key : bytes := [98; 111; 111; 107; 109; 97; 114; 107].

Inductive RecordOp :=
| Put (key value : bytes)
| Delete (key : bytes)
| DeletePrefix (prefix : bytes).

Record RecordBatch := mkRecordBatch {
  first_index : Z;
  batch_bookmark : Bookmark;
  operations : list RecordOp;
}.

(** Calls that open or end a transaction. *)
Inductive TransactionCall :=
| BeginRead | BeginWrite | OpenMetadata | OpenRecords | OpenChunks | ListTables | Commit.

(** Calls on the file system made by [open]; [CreateParent] is [Ok] for a path
    without a parent. *)
Inductive FileCall := AbsolutePath | CreateParent | CreateDatabase | SyncParent.

(** The lower bound of a range. *)
Inductive Bound := Included (key : bytes) | Excluded (key : bytes).

Class Redb (T C : Type) := {
  transaction_call : TransactionCall → Result unit;
  file_call : FileCall → Result unit;
  commit_survives : bool;
  table_get : T → bytes → Result (option bytes);
  table_insert : T → bytes → bytes → Result T;
  table_remove : T → bytes → Result (T * option bytes);
  (** The entries from a bound on, each of which may fail to be read. *)
  table_range : T → Bound → Result (list (Result (bytes * bytes)));
  chunk_get : C → bytes → Z → Result (option bytes);
  chunk_insert : C → bytes → Z → bytes → Result C;
  chunk_remove : C → bytes → Z → Result (C * option bytes);
  blake3 : bytes → bytes;
}.

(** [slice.starts_with(prefix)]. *)
Definition starts_with (key prefix : bytes) : bool := bool_decide (prefix `prefix_of` key).

(** [value.chunks(size)]; the fuel is the length. *)
Fixpoint chunks_from (size : Z) (fuel : nat) (value : bytes) : list bytes :=
  match fuel, value with
  | S fuel, _ :: _ =>
      firstn (Z.to_nat size) value :: chunks_from size fuel (skipn (Z.to_nat size) value)
  | _, _ => []
  end.
Definition chunks_of (value : bytes) : list bytes := chunks_from CHUNK_BYTES (length value) value.

(** ** Headers and bookmarks *)

Definition decode_header (bs : bytes) : Result (Z * Z * bytes) :=
  if zlen bs <? HEADER_BYTES then Err (corrupt "record header is truncated")
  else
    a ← index_range bs 0 8;
    let length := from_le a in
    b ← index_range bs 8 16;
    let count := from_le b in
    let expected_count := if length <=? CHUNK_BYTES then 0 else div_ceil length CHUNK_BYTES in
    if negb (count =? expected_count) then Err (corrupt "record chunk count disagrees with length")
    else if negb (count =? 0) && negb (zlen bs =? HEADER_BYTES) then
      Err (corrupt "chunked record header length mismatch")
    else
      extent ← (if count =? 0
                then ok_or (checked_add u64_max HEADER_BYTES length) (corrupt "record extent overflow")
                else Ok (zlen bs));
      if negb (zlen bs =? extent) then Err (corrupt "inline record length mismatch")
      else
        checksum ← index_range bs 16 48;
        Ok (length, count, checksum).

Definition encode_bookmark (b : Bookmark) : bytes := le_bytes 8 (term b) ++ le_bytes 8 (index b).

Definition decode_bookmark (bs : bytes) : Result Bookmark :=
  if negb (zlen bs =? 16) then Err (corrupt "durable bookmark length mismatch")
  else
    t ← index_range bs 0 8;
    i ← index_range bs 8 (zlen bs);
    let b := mkBookmark (from_le t) (from_le i) in
    if negb (Bool.eqb (term b =? 0) (index b =? 0)) then Err (corrupt "durable bookmark is invalid")
    else Ok b.

Section store.
Context {T C : Type} `{Redb T C} `{Allocator}.

Record Database := mkDatabase { metadata : T; records : T; chunks : C }.

(** ** Reading *)

Fixpoint read_chunks (count : nat) (cs : C) (key : bytes) (index length : Z) (value : bytes)
    : Result bytes :=
  match count with
  | O => Ok value
  | S count =>
      found ← chunk_get cs key index;
      chunk ← ok_or found (corrupt "record chunk is absent");
      let expected := Z.min (length - zlen value) CHUNK_BYTES in
      if negb (zlen chunk =? expected) then Err (corrupt "record chunk length mismatch")
      else read_chunks count cs key (index + 1) length (value ++ chunk)
  end.

Definition read_record (cs : C) (key encoded : bytes) : Result bytes :=
  '(length, count, checksum) ← decode_header encoded;
  length ← ok_or (usize_try_from length) (corrupt "record length exceeds process range");
  let expected_count := if length <=? CHUNK_BYTES then 0 else div_ceil length CHUNK_BYTES in
  if negb (count =? expected_count) then Err (corrupt "record chunk count disagrees with length")
  else
    value ←
      (if count =? 0 then
         extent ← ok_or (checked_add usize_max HEADER_BYTES length) (corrupt "record extent overflow");
         if negb (zlen encoded =? extent) then Err (corrupt "inline record length mismatch")
         else index_range encoded HEADER_BYTES (zlen encoded)
       else if negb (zlen encoded =? HEADER_BYTES) then
         Err (corrupt "chunked record header length mismatch")
       else if grant RecordBytes length then
         read_chunks (Z.to_nat count) cs key 0 length []
       else Err (Error_internal "record allocation failed"));
    if bool_decide (blake3 value = checksum) then Ok value
    else Err (corrupt "record checksum mismatch").

(** [RecordReader::get] on the tables a read transaction sees. *)
Definition reader_get (db : Database) (key : bytes) : Result (option bytes) :=
  _ ← transaction_call OpenRecords;
  _ ← transaction_call OpenChunks;
  found ← table_get (records db) key;
  match found with
  | None => Ok None
  | Some value => Some <$> read_record (chunks db) key value
  end.

(** [reader]: a read transaction sees the database as it is now. *)
Definition reader (db : Database) : Result Database :=
  _ ← transaction_call BeginRead;
  Ok db.

Definition get_record (db : Database) (key : bytes) : Result (option bytes) :=
  snapshot ← reader db;
  reader_get snapshot key.

(** The loop of [RecordReader::scan_prefix], over the state of the visitor. *)
Fixpoint scan_entries {St} (cs : C) (prefix : bytes) (visit : St → bytes → bytes → Result St)
    (entries : list (Result (bytes * bytes))) (st : St) : Result St :=
  match entries with
  | [] => Ok st
  | entry :: entries =>
      '(key, value) ← entry;
      if negb (starts_with key prefix) then Ok st
      else
        decoded ← read_record cs key value;
        st ← visit st key decoded;
        scan_entries cs prefix visit entries st
  end.

Definition reader_scan_prefix {St} (db : Database) (prefix : bytes)
    (visit : St → bytes → bytes → Result St) (st : St) : Result St :=
  _ ← transaction_call OpenRecords;
  _ ← transaction_call OpenChunks;
  entries ← table_range (records db) (Included prefix);
  scan_entries (chunks db) prefix visit entries st.

Definition scan_prefix {St} (db : Database) (prefix : bytes)
    (visit : St → bytes → bytes → Result St) (st : St) : Result St :=
  snapshot ← reader db;
  reader_scan_prefix snapshot prefix visit st.

Definition next_after (db : Database) (prefix : bytes) (after : option bytes)
    : Result (option (bytes * bytes)) :=
  _ ← transaction_call BeginRead;
  _ ← transaction_call OpenRecords;
  _ ← transaction_call OpenChunks;
  let start :=
    match after with
    | Some last => if negb (bool_decide (lexZ last prefix = Lt)) then Excluded last else Included prefix
    | None => Included prefix
    end in
  range ← table_range (records db) start;
  match range with
  | [] => Ok None
  | entry :: _ =>
      '(key, value) ← entry;
      if negb (starts_with key prefix) then Ok None
      else decoded ← read_record (chunks db) key value; Ok (Some (key, decoded))
  end.

Definition bookmark (db : Database) : Result Bookmark :=
  _ ← transaction_call BeginRead;
  _ ← transaction_call OpenMetadata;
  found ← table_get (metadata db) bookmark_key;
  value ← ok_or found (corrupt "missing durable bookmark");
  decode_bookmark value.

(** ** Writing

    The tables of a write transaction are threaded through its operations. *)

Fixpoint remove_chunks (count : nat) (cs : C) (key : bytes) (index : Z) : Result C :=
  match count with
  | O => Ok cs
  | S count =>
      '(cs, removed) ← chunk_remove cs key index;
      match removed with
      | None => Err (corrupt "record chunk is absent during replacement")
      | Some _ => remove_chunks count cs key (index + 1)
      end
  end.

Definition delete_record (rs : T) (cs : C) (key : bytes) : Result (T * C) :=
  '(rs, removed) ← table_remove rs key;
  match removed with
  | None => Ok (rs, cs)
  | Some value =>
      '(_, count, _) ← decode_header value;
      cs ← remove_chunks (Z.to_nat count) cs key 0;
      Ok (rs, cs)
  end.

Fixpoint insert_chunks (cs : C) (key : bytes) (index : Z) (parts : list bytes) : Result C :=
  match parts with
  | [] => Ok cs
  | part :: parts =>
      cs ← chunk_insert cs key index part;
      insert_chunks cs key (index + 1) parts
  end.

Definition put_record (rs : T) (cs : C) (key value : bytes) : Result (T * C) :=
  '(rs, cs) ← delete_record rs cs key;
  let chunk_count := if zlen value <=? CHUNK_BYTES then 0 else div_ceil (zlen value) CHUNK_BYTES in
  length ← ok_or (u64_try_from (zlen value)) (Error_invalid_data "record length overflow");
  count ← ok_or (u64_try_from chunk_count) (Error_invalid_data "record chunk count overflow");
  let header := le_bytes 8 length ++ le_bytes 8 count ++ blake3 value in
  if chunk_count =? 0 then
    rs ← table_insert rs key (header ++ value);
    Ok (rs, cs)
  else
    cs ← insert_chunks cs key 0 (chunks_of value);
    rs ← table_insert rs key header;
    Ok (rs, cs).

(** [.take_while(|entry| starts with the prefix)]; failed entries are kept. *)
Fixpoint take_prefixed (prefix : bytes) (entries : list (Result (bytes * bytes)))
    : list (Result (bytes * bytes)) :=
  match entries with
  | [] => []
  | entry :: entries =>
      if match entry with Ok (key, _) => starts_with key prefix | _ => true end
      then entry :: take_prefixed prefix entries
      else []
  end.

Fixpoint delete_records (rs : T) (cs : C) (keys : list bytes) : Result (T * C) :=
  match keys with
  | [] => Ok (rs, cs)
  | key :: keys =>
      '(rs, cs) ← delete_record rs cs key;
      delete_records rs cs keys
  end.

(** One round of the deletion loop: [None] when no key is left. *)
Definition delete_round (rs : T) (cs : C) (prefix : bytes) : Result (option (T * C)) :=
  entries ← table_range rs (Included prefix);
  keys ← mapM (λ entry : Result (bytes * bytes), '(key, _) ← entry; Ok key)
           (firstn DELETE_BATCH (take_prefixed prefix entries));
  match keys with
  | [] => Ok None
  | _ => Some <$> delete_records rs cs keys
  end.

Fixpoint delete_prefix (fuel : nat) (rs : T) (cs : C) (prefix : bytes) : Result (T * C) :=
  match fuel with
  | O => Abort OutOfFuel
  | S fuel =>
      next ← delete_round rs cs prefix;
      match next with
      | None => Ok (rs, cs)
      | Some (rs, cs) => delete_prefix fuel rs cs prefix
      end
  end.

(** Every round that goes on deletes at least one of the records in range. *)
Definition delete_prefix_fuel (rs : T) (prefix : bytes) : nat :=
  match table_range rs (Included prefix) with Ok entries => S (length entries) | _ => 1 end.

Definition apply_operation (rs : T) (cs : C) (operation : RecordOp) : Result (T * C) :=
  match operation with
  | Put key value => put_record rs cs key value
  | Delete key => delete_record rs cs key
  | DeletePrefix prefix => delete_prefix (delete_prefix_fuel rs prefix) rs cs prefix
  end.

Fixpoint apply_operations (rs : T) (cs : C) (ops : list RecordOp) : Result (T * C) :=
  match ops with
  | [] => Ok (rs, cs)
  | op :: ops => '(rs, cs) ← apply_operation rs cs op; apply_operations rs cs ops
  end.

Fixpoint apply_batches (rs : T) (cs : C) (at_ : Bookmark) (batches : list RecordBatch)
    : Result (T * C * Bookmark) :=
  match batches with
  | [] => Ok (rs, cs, at_)
  | batch :: batches =>
      discontinuous ←
        (if term (batch_bookmark batch) =? 0 then Ok true
         else
           next ← ok_or (checked_add u64_max (index at_) 1) (corrupt "durable position overflow");
           Ok (negb (first_index batch =? next)
               || (term (batch_bookmark batch) <? term at_)
               || (index (batch_bookmark batch) <? first_index batch)));
      if discontinuous : bool then Err (corrupt "record batch does not continue the durable prefix")
      else
        '(rs, cs) ← apply_operations rs cs (operations batch);
        apply_batches rs cs (batch_bookmark batch) batches
  end.

(** Everything inside the write transaction of [commit]. *)
Definition commit_transaction (db : Database) (batches : list RecordBatch) : Result Database :=
  _ ← transaction_call BeginWrite;
  _ ← transaction_call OpenMetadata;
  found ← table_get (metadata db) bookmark_key;
  value ← ok_or found (corrupt "missing durable bookmark");
  at_ ← decode_bookmark value;
  _ ← transaction_call OpenRecords;
  _ ← transaction_call OpenChunks;
  '(rs, cs, at_) ← apply_batches (records db) (chunks db) at_ batches;
  md ← table_insert (metadata db) bookmark_key (encode_bookmark at_);
  Ok (mkDatabase md rs cs).

(** The database after a write transaction and the result of the call: the
    transaction ends in [Some] tables to commit, or is dropped. *)
Definition publish {A} (db : Database) (m : Result (option Database * A)) : Database * Result A :=
  match m with
  | Ok (Some db', a) =>
      match transaction_call Commit with
      | Ok _ => (db', Ok a)
      | Err e => (if commit_survives then db' else db, Err e)
      | Abort w => (db, Abort w)
      end
  | Ok (None, a) => (db, Ok a)
  | Err e => (db, Err e)
  | Abort w => (db, Abort w)
  end.

Definition commit (db : Database) (batches : list RecordBatch) : Database * Result unit :=
  match batches with
  | [] => (db, Ok tt)
  | _ => publish db (db' ← commit_transaction db batches; Ok (Some db', tt))
  end.

Definition remove_if_value (db : Database) (key expected : bytes) : Database * Result bool :=
  publish db
    (_ ← transaction_call BeginWrite;
     _ ← transaction_call OpenRecords;
     _ ← transaction_call OpenChunks;
     found ← table_get (records db) key;
     value ← match found with
             | None => Ok None
             | Some value => Some <$> read_record (chunks db) key value
             end;
     if bool_decide (value = Some expected) then
       '(rs, cs) ← delete_record (records db) (chunks db) key;
       Ok (Some (mkDatabase (metadata db) rs cs), true)
     else Ok (None, false)).

(** [open] on an existing or a new file: [tables] are the tables it lists. *)
Definition open_metadata (tables : list string) (md : T) (store_id : bytes) : Result T :=
  existing_format ← table_get md format_key;
  match existing_format with
  | Some format =>
      if bool_decide (format = FORMAT) then
        if negb (forallb (λ name, bool_decide (name ∈ tables))
                   ["metadata"; "records"; "chunks"]%string) then
          Err (corrupt "record store table is absent")
        else
          identity ← table_get md identity_key;
          if negb (bool_decide (identity = Some store_id)) then
            Err (Error_new CorruptStorage "record store identity mismatch")
          else
            found ← table_get md bookmark_key;
            value ← ok_or found (corrupt "missing durable bookmark");
            _ ← decode_bookmark value;
            Ok md
      else Err (corrupt "unsupported record store format")
  | None =>
      if negb (bool_decide (tables = [])) then Err (corrupt "record store format is absent")
      else
        md ← table_insert md format_key FORMAT;
        md ← table_insert md identity_key store_id;
        table_insert md bookmark_key (encode_bookmark Bookmark_default)
  end.

Definition open_store (tables : list string) (db : Database) (store_id : bytes)
    : Database * Result unit :=
  let '(db, opened) :=
    publish db
      (_ ← file_call AbsolutePath;
       _ ← file_call CreateParent;
       _ ← file_call CreateDatabase;
       _ ← transaction_call BeginWrite;
       _ ← transaction_call ListTables;
       _ ← transaction_call OpenMetadata;
       md ← open_metadata tables (metadata db) store_id;
       _ ← transaction_call OpenRecords;
       _ ← transaction_call OpenChunks;
       Ok (Some (mkDatabase md (records db) (chunks db)), tt)) in
  (db, _ ← opened; file_call SyncParent).
End store.
