(* ===== verification/RecordsTheorems.v ===== *)
(** * Record store: a durable finite map

    The store refines a finite map from keys to values together with a
    bookmark; [store_inv] relates the tables to that map. *)

From stdpp Require Import prelude gmap strings sorting.
From Stdlib Require Import ZArith Lia.
From S2P Require Import Prelude Machine Types Document Records.

Local Open Scope Z_scope.
#[local] Set Warnings "-clear-no-such-hyp".

Definition above (b : Bound) (key : bytes) : Prop :=
  match b with Included k => lexZ key k ≠ Lt | Excluded k => lexZ key k = Gt end.

(** An entry of a range that may have failed to be read. *)
Definition entry_read (fails : Error → Prop) (e : Result (bytes * bytes)) (p : bytes * bytes) : Prop :=
  e = Ok p ∨ ∃ err, fails err ∧ e = Err err.

Class RedbSpec (T C : Type) `{Redb T C} := {
  (** The errors [redb] reports; none for a database that works. *)
  fails : Error → Prop;
  rows : T → gmap bytes bytes;
  parts : C → gmap (bytes * Z) bytes;
  transaction_call_safe c : posts fails (transaction_call c) (λ _, True);
  file_call_safe c : posts fails (file_call c) (λ _, True);
  table_get_spec t k : posts fails (table_get t k) (λ r, r = rows t !! k);
  table_insert_spec t k v : posts fails (table_insert t k v) (λ t', rows t' = <[k := v]> (rows t));
  table_remove_spec t k :
    posts fails (table_remove t k) (λ '(t', r), r = rows t !! k ∧ rows t' = delete k (rows t));
  table_range_spec t b :
    posts fails (table_range t b) (λ es, ∃ entries,
      keys_sorted entries ∧ (∀ k v, (k, v) ∈ entries ↔ rows t !! k = Some v ∧ above b k)
      ∧ Forall2 (entry_read fails) es entries);
  chunk_get_spec c k i : posts fails (chunk_get c k i) (λ r, r = parts c !! (k, i));
  chunk_insert_spec c k i v : posts fails (chunk_insert c k i v) (λ c', parts c' = <[(k, i) := v]> (parts c));
  chunk_remove_spec c k i :
    posts fails (chunk_remove c k i) (λ '(c', r), r = parts c !! (k, i) ∧ parts c' = delete (k, i) (parts c));
  blake3_length v : zlen (blake3 v) = 32;
}.

(** ** Chunks *)

Definition chunk_count (v : bytes) : Z :=
  if zlen v <=? CHUNK_BYTES then 0 else div_ceil (zlen v) CHUNK_BYTES.

Definition value_ok (v : bytes) : Prop := zlen v ≤ isize_max.

Lemma CHUNK_BYTES_eq : CHUNK_BYTES = 65536.
Proof. done. Qed.
Lemma HEADER_BYTES_eq : HEADER_BYTES = 48.
Proof. done. Qed.
Opaque CHUNK_BYTES HEADER_BYTES.

(** The pieces of a value: their number, their sizes and their offsets. *)
Lemma chunks_from_spec size fuel v :
  0 < size → (length v ≤ fuel)%nat →
  concat (chunks_from size fuel v) = v
  ∧ zlen (chunks_from size fuel v) = div_ceil (zlen v) size
  ∧ ∀ i c, chunks_from size fuel v !! i = Some c →
           0 < zlen c ∧ zlen c = Z.min (zlen v - Z.of_nat i * size) size
           ∧ zlen (concat (firstn i (chunks_from size fuel v))) = Z.of_nat i * size.
Proof.
  intros Hc. revert v.
  induction fuel as [|fuel IH]; intros v Hv.
  { destruct v as [|b v]; [|cbn in Hv; lia]. split_and!; [done| |done].
    change (0 = div_ceil 0 size). unfold div_ceil. rewrite Z.div_small by lia. done. }
  destruct v as [|b v].
  { split_and!; [done| |done]. change (0 = div_ceil 0 size). unfold div_ceil. rewrite Z.div_small by lia. done. }
  cbn [chunks_from]. set (n := Z.to_nat size). set (w := b :: v) in *.
  assert (length (skipn n w) ≤ fuel)%nat as Hs.
  { rewrite length_skipn. assert (0 < n)%nat by (unfold n; lia). lia. }
  destruct (IH _ Hs) as (Hcat & Hlen & Hget).
  assert (zlen (skipn n w) = Z.max 0 (zlen w - size)) as Hzs.
  { unfold zlen. rewrite length_skipn. unfold n. lia. }
  assert (zlen (firstn n w) = Z.min (zlen w) size) as Hzf.
  { unfold zlen. rewrite length_firstn. unfold n. lia. }
  assert (0 < zlen w) as Hpos by (unfold w; rewrite zlen_cons; pose proof (zlen_nonneg v); lia).
  split_and!.
  - cbn [concat]. rewrite Hcat. apply take_drop.
  - rewrite zlen_cons, Hlen, Hzs. unfold div_ceil. destruct (Z_le_gt_dec (zlen w) size).
    + rewrite Z.max_l by lia. rewrite (Z.div_small (0 + size - 1)) by lia.
      apply Z.div_unique with (zlen w - 1); lia.
    + rewrite Z.max_r by lia.
      replace (zlen w + size - 1) with ((zlen w - size + size - 1) + 1 * size) by lia.
      rewrite Z.div_add by lia. lia.
  - intros [|i] c Hi; cbn in Hi.
    + injection Hi as <-. split_and!; [lia|lia|done].
    + destruct (Hget i c Hi) as (Hcp & Hzc & Hzi). split_and!; [done|lia|].
      cbn [firstn concat]. rewrite zlen_app, Hzi, Hzf. lia.
Qed.

Lemma chunk_count_cases v :
  (zlen v ≤ CHUNK_BYTES ∧ chunk_count v = 0)
  ∨ (CHUNK_BYTES < zlen v ∧ chunk_count v = div_ceil (zlen v) CHUNK_BYTES ∧ 0 < chunk_count v ≤ zlen v).
Proof.
  unfold chunk_count. pose proof CHUNK_BYTES_eq as Hc. destruct (Z.leb_spec (zlen v) CHUNK_BYTES); [by left|right].
  split_and!; [done|done|..]; unfold div_ceil; rewrite Hc in *.
  - apply Z.div_str_pos. lia.
  - apply Z.div_le_upper_bound; lia.
Qed.

Lemma chunk_count_u64 v : value_ok v → u64 (zlen v) ∧ u64 (chunk_count v).
Proof.
  unfold value_ok. intros Hv. pose proof (zlen_nonneg v). destruct (chunk_count_cases v) as [[_ ->]|(_ & _ & ?)]; rlia.
Qed.

(** The chunk of a value under an index. *)
Definition chunk_at (v : bytes) (i : Z) : option bytes :=
  if chunk_count v =? 0 then None else get (chunks_of v) i.

(** ** Keys with a prefix form a segment of the key order *)

Lemma prefix_not_lt (p k : bytes) : p `prefix_of` k → lexZ k p ≠ Lt.
Proof.
  intros [t ->]. rewrite <- (app_nil_r p) at 2. rewrite lexZ_app_same. by destruct t.
Qed.

Lemma prefix_between (p k k' : bytes) :
  lexZ k p ≠ Lt → lexZ k k' = Lt → p `prefix_of` k' → p `prefix_of` k.
Proof.
  intros Hge Hlt [t ->]. revert k Hge Hlt.
  induction p as [|a p IH]; intros [|b k] Hge Hlt; [apply prefix_nil|apply prefix_nil|done|].
  unfold lexZ in *. cbn [lex app] in *. destruct (Z.compare_spec b a) as [->|Hba|Hba]; cbn [then_cmp] in *; try done.
  apply prefix_cons. by apply IH.
Qed.

(** In key order, nothing after a key without the prefix has it. *)
Lemma no_prefix_after (p : bytes) (e : bytes * bytes) (entries : list (bytes * bytes)) :
  keys_sorted (e :: entries) → lexZ e.1 p ≠ Lt → ¬ p `prefix_of` e.1 →
  Forall (λ x, ¬ p `prefix_of` x.1) entries.
Proof.
  destruct e as [k v]. intros Hs Hge Hn. apply keys_sorted_all_lt in Hs. eapply Forall_impl; [exact Hs|].
  intros [k' v'] Hlt Hp. apply Hn. by eapply prefix_between.
Qed.

Definition with_prefix (p : bytes) (entries : list (bytes * bytes)) : list (bytes * bytes) :=
  filter (λ x, p `prefix_of` x.1) entries.

Lemma with_prefix_none p entries : Forall (λ x, ¬ p `prefix_of` x.1) entries → with_prefix p entries = [].
Proof. induction 1 as [|x l Hx _ IH]; [done|]. unfold with_prefix in *. by rewrite filter_cons_False. Qed.

(** The keys one round of deletion collects. *)
Lemma collected_keys (fails : Error → Prop) p n es entries :
  Forall2 (entry_read fails) es entries → keys_sorted entries → Forall (λ x, lexZ x.1 p ≠ Lt) entries →
  posts fails (mapM (λ entry : Result (bytes * bytes), '(key, _) ← entry; Ok key) (firstn n (take_prefixed p es)))
    (λ keys, keys = firstn n (map fst (with_prefix p entries))).
Proof.
  intros Hes. revert n. induction Hes as [|e x es entries He Hes IH]; intros n Hs Hge; [by destruct n|].
  destruct n as [|n]; [by rewrite !take_0|]. apply Forall_cons in Hge as [Hx Hge].
  cbn [take_prefixed]. destruct He as [->|(err & Herr & ->)]; [|done]. destruct x as [k v]. unfold starts_with.
  case_bool_decide as Hp.
  - cbn [firstn]. rewrite mapM_cons. rbind. eapply posts_bind; [apply IH; [by eapply keys_sorted_tail|done]|].
    intros keys ->. unfold with_prefix. by rewrite filter_cons_True.
  - change (firstn (S n) (@nil (Result (bytes * bytes)))) with (@nil (Result (bytes * bytes))).
    unfold with_prefix. rewrite filter_cons_False by done.
    fold (with_prefix p entries). rewrite with_prefix_none by (by eapply no_prefix_after). done.
Qed.

Section theory.
Context {T C : Type} `{RedbSpec T C} `{Allocator}.

(** ** Headers *)

Definition header_of (v : bytes) : bytes :=
  le_bytes 8 (zlen v) ++ le_bytes 8 (chunk_count v) ++ blake3 v ++ (if chunk_count v =? 0 then v else []).

Lemma zlen_header v : zlen (header_of v) = 48 + (if chunk_count v =? 0 then zlen v else 0).
Proof.
  unfold header_of. rewrite !zlen_app, !zlen_le_bytes, blake3_length. destruct (_ =? _); [|change (zlen (@nil Z)) with 0]; lia.
Qed.

Lemma header_fields v :
  index_range (E := Error) (header_of v) 0 8 = Ok (le_bytes 8 (zlen v))
  ∧ index_range (E := Error) (header_of v) 8 16 = Ok (le_bytes 8 (chunk_count v))
  ∧ index_range (E := Error) (header_of v) 16 48 = Ok (blake3 v)
  ∧ (chunk_count v = 0 → index_range (E := Error) (header_of v) 48 (zlen (header_of v)) = Ok v).
Proof.
  pose proof (zlen_header v) as Hz. unfold header_of in *. split_and!.
  - by apply (index_range_app []).
  - by apply (index_range_app (le_bytes 8 (zlen v))); rewrite !zlen_le_bytes.
  - rewrite (assoc_L (++)). apply index_range_app; by rewrite zlen_app, !zlen_le_bytes, ?blake3_length.
  - intros E. rewrite E in *. cbn [Z.eqb] in *.
    rewrite Hz, !(assoc_L (++)). apply index_range_suffix; rewrite !zlen_app, !zlen_le_bytes, blake3_length; lia.
Qed.

Lemma decode_header_of v :
  value_ok v → decode_header (header_of v) = Ok (zlen v, chunk_count v, blake3 v).
Proof.
  intros Hv. destruct (chunk_count_u64 v Hv) as [Hl Hn]. pose proof (zlen_nonneg v) as Hnn.
  destruct (header_fields v) as (Hf1 & Hf2 & Hf3 & _). unfold decode_header.
  rewrite (zlen_header v), HEADER_BYTES_eq, Hf1, Hf2, Hf3. rbind. cbv zeta. rewrite !from_le_8 by done.
  fold (chunk_count v). rewrite (proj2 (Z.ltb_ge _ _)), Z.eqb_refl by (destruct (_ =? _); lia). cbn [negb].
  destruct (Z.eqb_spec (chunk_count v) 0) as [E|E]; cbn [negb andb].
  - unfold checked_add. rewrite (proj2 (Z.leb_le _ _)) by (unfold value_ok in Hv; rlia). rbind.
    by rewrite Z.eqb_refl.
  - rewrite Z.eqb_refl. rbind. by rewrite Z.eqb_refl.
Qed.

(** ** Reading a record back *)

Lemma chunks_of_spec v :
  chunk_count v ≠ 0 →
  concat (chunks_of v) = v ∧ zlen (chunks_of v) = chunk_count v
  ∧ ∀ i c, chunks_of v !! i = Some c →
           zlen c = Z.min (zlen v - Z.of_nat i * CHUNK_BYTES) CHUNK_BYTES
           ∧ zlen (concat (firstn i (chunks_of v))) = Z.of_nat i * CHUNK_BYTES.
Proof.
  intros Hn. destruct (chunk_count_cases v) as [[_ ?]|(_ & -> & _)]; [done|].
  destruct (chunks_from_spec CHUNK_BYTES (length v) v) as (Hc & Hl & Hi); [by rewrite CHUNK_BYTES_eq|done|].
  split_and!; [done|done|]. intros i c Hic. destruct (Hi i c Hic) as (_ & ? & ?). done.
Qed.

Lemma chunk_at_lookup v (i : nat) : chunk_count v ≠ 0 → chunk_at v (Z.of_nat i) = chunks_of v !! i.
Proof.
  intros Hn. unfold chunk_at, get. rewrite (proj2 (Z.eqb_neq _ _) Hn), (proj2 (Z.ltb_ge _ _)) by lia.
  by rewrite Nat2Z.id.
Qed.

(** The chunks of one key hold a value. *)
Definition holds (cs : C) (key v : bytes) : Prop := ∀ i, parts cs !! (key, i) = chunk_at v i.

(** What a read may report: a failure of [redb], or no memory for the value. *)
Definition read_fails (e : Error) : Prop := fails e ∨ e = Error_internal "record allocation failed".

Lemma read_fails_weaken {A} (m : Result A) Q : posts fails m Q → posts read_fails m Q.
Proof. intros Hm. eapply posts_weaken; [exact Hm|]. by left. Qed.

Lemma read_chunks_spec cs key v n i :
  chunk_count v ≠ 0 → holds cs key v → (i + n = length (chunks_of v))%nat →
  posts fails (read_chunks n cs key (Z.of_nat i) (zlen v) (concat (firstn i (chunks_of v)))) (λ r, r = v).
Proof.
  intros Hv Hh. destruct (chunks_of_spec v Hv) as (Hcat & _ & Hget). revert i.
  induction n as [|n IH]; intros i Hi; cbn [read_chunks].
  - rewrite firstn_all2 by lia. done.
  - eapply posts_bind; [apply chunk_get_spec|]. intros r ->. rewrite Hh, chunk_at_lookup by done.
    destruct (lookup_lt_is_Some_2 (chunks_of v) i ltac:(lia)) as [c Hc]. rewrite Hc. rbind.
    destruct (Hget i c Hc) as [Hzc Hzi]. rewrite Hzi, (proj2 (Z.eqb_eq _ _)) by lia. cbn [negb].
    replace (concat (firstn i (chunks_of v)) ++ c) with (concat (firstn (S i) (chunks_of v)))
      by (rewrite (take_S_r _ _ _ Hc), concat_app; cbn; by rewrite app_nil_r).
    replace (Z.of_nat i + 1) with (Z.of_nat (S i)) by lia. apply IH. lia.
Qed.

Lemma read_record_spec cs key v :
  value_ok v → holds cs key v → posts read_fails (read_record cs key (header_of v)) (λ r, r = v).
Proof.
  intros Hv Hh. destruct (header_fields v) as (_ & _ & _ & Hinline). unfold read_record.
  rewrite decode_header_of by done. rbind. unfold usize_try_from.
  destruct (chunk_count_u64 v Hv) as [Hl _]. rewrite (proj2 (Z.leb_le _ _)) by rlia. rbind. cbv zeta.
  fold (chunk_count v). rewrite Z.eqb_refl. cbn [negb]. eapply (posts_bind _ _ _ (λ r, r = v)).
  - pose proof (zlen_header v) as Hz. destruct (Z.eqb_spec (chunk_count v) 0) as [E|E].
    + unfold checked_add. rewrite (proj2 (Z.leb_le _ _)) by (unfold value_ok in Hv; rewrite HEADER_BYTES_eq; rlia).
      rbind. rewrite HEADER_BYTES_eq, (proj2 (Z.eqb_eq _ _)) by lia. cbn [negb]. by rewrite Hinline.
    + rewrite HEADER_BYTES_eq, (proj2 (Z.eqb_eq _ _)) by lia. cbn [negb]. destruct (grant _ _); [|by right].
      apply read_fails_weaken, (read_chunks_spec cs key v (Z.to_nat (chunk_count v)) 0); [done|done|].
      destruct (chunks_of_spec v E) as (_ & Hlen & _). unfold zlen in Hlen. lia.
  - intros r ->. rewrite bool_decide_eq_true_2 by done. done.
Qed.

(** ** The invariant *)

Definition store_inv (rs : T) (cs : C) (kv : gmap bytes bytes) : Prop :=
  rows rs = header_of <$> kv
  ∧ (∀ key i, parts cs !! (key, i) = (v ← kv !! key; chunk_at v i))
  ∧ map_Forall (λ _ v, value_ok v) kv.

Lemma inv_lookup rs cs kv key : store_inv rs cs kv → rows rs !! key = header_of <$> kv !! key.
Proof. intros (Hr & _). by rewrite Hr, lookup_fmap. Qed.

Lemma inv_holds rs cs kv key v : store_inv rs cs kv → kv !! key = Some v → holds cs key v ∧ value_ok v.
Proof. intros (_ & Hp & Hok) Hk. split; [|by apply (Hok key)]. intros i. by rewrite Hp, Hk. Qed.

Lemma remove_chunks_spec n cs key i :
  (∀ j, i ≤ j < i + Z.of_nat n → is_Some (parts cs !! (key, j))) →
  posts fails (remove_chunks n cs key i) (λ cs', ∀ k j,
    parts cs' !! (k, j)
    = if bool_decide (k = key ∧ i ≤ j < i + Z.of_nat n) then None else parts cs !! (k, j)).
Proof.
  revert cs i. induction n as [|n IH]; intros cs i Hs; cbn [remove_chunks].
  - intros k j. by rewrite bool_decide_eq_false_2 by lia.
  - eapply posts_bind; [apply chunk_remove_spec|]. intros [cs' r] [-> Hcs'].
    destruct (Hs i ltac:(lia)) as [c Hc]. rewrite Hc. eapply posts_mono; [apply IH|].
    + intros j Hj. rewrite Hcs', lookup_delete_ne by naive_solver lia. apply Hs. lia.
    + intros cs'' Hcs'' k j. rewrite Hcs'', Hcs'. destruct (decide ((k, j) = (key, i))) as [[= -> ->]|Hne].
      * rewrite lookup_delete_eq, (bool_decide_eq_true_2 (key = key ∧ i ≤ i < i + Z.of_nat (S n))) by (split; [done|lia]).
        by case_bool_decide.
      * rewrite lookup_delete_ne by done.
        assert (bool_decide (k = key ∧ i + 1 ≤ j < i + 1 + Z.of_nat n)
                = bool_decide (k = key ∧ i ≤ j < i + Z.of_nat (S n))) as ->; [|done].
        apply bool_decide_ext. split; intros [-> ?]; (split; [done|]); [lia|].
        assert (j ≠ i) by congruence. lia.
Qed.

Lemma chunk_at_Some v j : is_Some (chunk_at v j) ↔ 0 ≤ j < chunk_count v.
Proof.
  unfold chunk_at, get. destruct (Z.eqb_spec (chunk_count v) 0) as [E|E].
  - rewrite E. split; [by intros []|lia].
  - destruct (chunks_of_spec v E) as (_ & Hl & _). unfold zlen in Hl.
    destruct (Z.ltb_spec j 0); [split; [by intros []|lia]|]. rewrite lookup_lt_is_Some. lia.
Qed.

Lemma chunk_at_None v j : ¬ (0 ≤ j < chunk_count v) → chunk_at v j = None.
Proof. rewrite <- chunk_at_Some. apply eq_None_not_Some. Qed.

Lemma delete_record_spec rs cs kv key :
  store_inv rs cs kv →
  posts fails (delete_record rs cs key) (λ '(rs', cs'), store_inv rs' cs' (delete key kv)).
Proof.
  intros Hinv. pose proof Hinv as (Hr & Hp & Hok). unfold delete_record.
  eapply posts_bind; [apply table_remove_spec|]. intros [rs' r] [-> Hrs'].
  rewrite (inv_lookup _ _ _ _ Hinv). destruct (kv !! key) as [v|] eqn:Hk; cbn.
  - destruct (inv_holds _ _ _ _ _ Hinv Hk) as [Hh Hv]. rewrite decode_header_of by done. rbind.
    pose proof (chunk_count_u64 v Hv) as [_ Hn].
    eapply posts_bind; [apply remove_chunks_spec|].
    + intros j Hj. rewrite Hh. apply chunk_at_Some. rlia.
    + intros cs' Hcs'. split_and!.
      * by rewrite Hrs', Hr, fmap_delete.
      * intros k j. rewrite Hcs', Hp. destruct (decide (k = key)) as [->|].
        -- rewrite lookup_delete_eq, Hk. cbn. case_bool_decide as Hj; [done|]. apply chunk_at_None.
           intros ?. apply Hj. split; [done|rlia].
        -- rewrite lookup_delete_ne, bool_decide_eq_false_2 by naive_solver. done.
      * by apply map_Forall_delete.
  - split_and!.
    + by rewrite Hrs', Hr, fmap_delete.
    + intros k j. rewrite Hp. destruct (decide (k = key)) as [->|]; [by rewrite lookup_delete_eq, Hk|].
      by rewrite lookup_delete_ne.
    + by apply map_Forall_delete.
Qed.

Lemma insert_chunks_spec l cs key i :
  posts fails (insert_chunks cs key i l) (λ cs', ∀ k j,
    parts cs' !! (k, j)
    = if bool_decide (k = key ∧ i ≤ j < i + zlen l) then l !! Z.to_nat (j - i) else parts cs !! (k, j)).
Proof.
  revert cs i. induction l as [|c l IH]; intros cs i; cbn [insert_chunks].
  - intros k j. by rewrite zlen_nil, bool_decide_eq_false_2 by lia.
  - eapply posts_bind; [apply chunk_insert_spec|]. intros cs' Hcs'. eapply posts_mono; [apply IH|].
    intros cs'' Hcs'' k j. rewrite Hcs'', Hcs', zlen_cons. pose proof (zlen_nonneg l).
    destruct (decide ((k, j) = (key, i))) as [[= -> ->]|Hne].
    + rewrite lookup_insert_eq, (bool_decide_eq_true_2 (_ ∧ i ≤ i < _)) by (split; [done|lia]).
      rewrite bool_decide_eq_false_2 by lia. by rewrite Z.sub_diag.
    + rewrite lookup_insert_ne by done.
      assert (bool_decide (k = key ∧ i + 1 ≤ j < i + 1 + zlen l)
              = bool_decide (k = key ∧ i ≤ j < i + (1 + zlen l))) as ->.
      { apply bool_decide_ext. split; intros [-> ?]; (split; [done|]); [lia|]. assert (j ≠ i) by congruence. lia. }
      case_bool_decide as Hj; [|done]. destruct Hj as [-> Hj]. assert (j ≠ i) by congruence.
      replace (Z.to_nat (j - i)) with (S (Z.to_nat (j - (i + 1)))) by lia. done.
Qed.

Lemma put_record_spec rs cs kv key v :
  store_inv rs cs kv → value_ok v →
  posts fails (put_record rs cs key v) (λ '(rs', cs'), store_inv rs' cs' (<[key := v]> kv)).
Proof.
  intros Hinv Hv. unfold put_record.
  eapply posts_bind; [by apply delete_record_spec|]. intros [rs' cs'] (Hr & Hp & Hok).
  destruct (chunk_count_u64 v Hv) as [Hl Hn]. cbv zeta. fold (chunk_count v). unfold u64_try_from.
  rewrite (proj2 (Z.leb_le (zlen v) _)), (proj2 (Z.leb_le (chunk_count v) _)) by rlia. rbind.
  assert (∀ rs'', rows rs'' = <[key := header_of v]> (rows rs') → rows rs'' = header_of <$> <[key := v]> kv) as Hrows.
  { intros rs'' ->. by rewrite Hr, fmap_insert, fmap_delete, insert_delete_eq. }
  assert (map_Forall (λ _ v, value_ok v) (<[key := v]> kv)) as Hok'.
  { rewrite <- insert_delete_eq. apply map_Forall_insert_2; done. }
  destruct (Z.eqb_spec (chunk_count v) 0) as [E|E].
  - eapply posts_bind; [apply table_insert_spec|]. intros rs'' Hrs''. split_and!; [|intros k j|done].
    + apply Hrows. rewrite Hrs''. f_equal. unfold header_of. rewrite E. by rewrite <- !(assoc_L (++)).
    + rewrite Hp. destruct (decide (k = key)) as [->|]; [|by rewrite lookup_delete_ne, lookup_insert_ne].
      rewrite lookup_delete_eq, lookup_insert_eq. cbn. symmetry. apply chunk_at_None. lia.
  - eapply posts_bind; [apply insert_chunks_spec|]. intros cs'' Hcs''.
    eapply posts_bind; [apply table_insert_spec|]. intros rs'' Hrs''. split_and!; [|intros k j|done].
    + apply Hrows. rewrite Hrs''. f_equal. unfold header_of.
      rewrite (proj2 (Z.eqb_neq _ _) E). by rewrite app_nil_r.
    + destruct (chunks_of_spec v E) as (_ & Hlen & _). rewrite Hcs'', Hlen, Hp.
      destruct (decide (k = key)) as [->|].
      * rewrite lookup_delete_eq, lookup_insert_eq. cbn. case_bool_decide as Hj.
        -- destruct Hj as [_ Hj]. rewrite Z.sub_0_r, <- chunk_at_lookup by done. f_equal. lia.
        -- symmetry. apply chunk_at_None. intros ?. apply Hj. split; [done|lia].
      * rewrite lookup_delete_ne, lookup_insert_ne, bool_decide_eq_false_2 by naive_solver. done.
Qed.

(** ** Deletion by prefix *)

Definition delete_keys (kv : gmap bytes bytes) (keys : list bytes) : gmap bytes bytes :=
  foldl (λ m key, delete key m) kv keys.

Lemma delete_keys_lookup kv keys k :
  delete_keys kv keys !! k = if decide (k ∈ keys) then None else kv !! k.
Proof.
  revert kv. induction keys as [|key keys IH]; intros kv; cbn [delete_keys foldl]; [done|].
  fold (delete_keys (delete key kv) keys). rewrite IH. destruct (decide (k = key)) as [->|].
  - rewrite lookup_delete_eq, (decide_True (P := key ∈ key :: keys)) by set_solver. by case_decide.
  - rewrite lookup_delete_ne by done. by destruct (decide (k ∈ keys)), (decide (k ∈ key :: keys)); set_solver.
Qed.

Lemma delete_records_spec rs cs kv keys :
  store_inv rs cs kv →
  posts fails (delete_records rs cs keys) (λ '(rs', cs'), store_inv rs' cs' (delete_keys kv keys)).
Proof.
  revert rs cs kv. induction keys as [|key keys IH]; intros rs cs kv Hinv; cbn [delete_records]; [done|].
  eapply posts_bind; [by apply delete_record_spec|]. intros [rs' cs'] Hinv'. by apply IH.
Qed.

Definition without_prefix (p : bytes) (kv : gmap bytes bytes) : gmap bytes bytes :=
  filter (λ x, ¬ p `prefix_of` x.1) kv.
Definition having_prefix (p : bytes) (kv : gmap bytes bytes) : gmap bytes bytes :=
  filter (λ x, p `prefix_of` x.1) kv.

Lemma without_prefix_lookup p kv k :
  without_prefix p kv !! k = if decide (p `prefix_of` k) then None else kv !! k.
Proof.
  unfold without_prefix. case_decide as Hp.
  - apply map_lookup_filter_None. right. intros v _ Hn. by apply Hn.
  - destruct (kv !! k) as [v|] eqn:E; [by apply map_lookup_filter_Some|]. apply map_lookup_filter_None. by left.
Qed.

(** The entries of a range from a prefix on. *)
Lemma range_prefix rs cs kv p :
  store_inv rs cs kv →
  posts fails (table_range rs (Included p)) (λ es, ∃ entries,
    keys_sorted entries ∧ Forall (λ x, lexZ x.1 p ≠ Lt) entries ∧ Forall2 (entry_read fails) es entries
    ∧ (∀ x, x ∈ with_prefix p entries ↔ ∃ v, kv !! x.1 = Some v ∧ x.2 = header_of v ∧ p `prefix_of` x.1)).
Proof.
  intros Hinv. eapply posts_mono; [apply table_range_spec|]. intros es (entries & Hs & Hin & Hread).
  exists entries. split_and!; [done| |done|].
  - apply Forall_forall. intros [k v] Hx. by apply Hin in Hx as [_ ?].
  - intros [k h]. unfold with_prefix. rewrite list_elem_of_filter, Hin, (inv_lookup _ _ _ _ Hinv). cbn.
    split.
    + intros (Hp & (v & Hv & ->)%fmap_Some & _). by exists v.
    + intros (v & Hv & -> & Hp). rewrite Hv. split_and!; [done|done|]. by apply prefix_not_lt.
Qed.

Lemma delete_round_spec rs cs kv p :
  store_inv rs cs kv →
  posts fails (delete_round rs cs p) (λ next,
    match next with
    | None => having_prefix p kv = ∅
    | Some (rs', cs') => ∃ key keys,
        Forall (λ k, is_Some (having_prefix p kv !! k)) (key :: keys)
        ∧ store_inv rs' cs' (delete_keys kv (key :: keys))
    end).
Proof.
  intros Hinv. unfold delete_round. eapply posts_bind; [by apply (range_prefix rs cs kv)|].
  intros es (entries & Hs & Hge & Hread & Hin).
  eapply posts_bind; [by apply collected_keys|]. intros keys Hkeys.
  assert (∀ k v, having_prefix p kv !! k = Some v ↔ (k, header_of v) ∈ with_prefix p entries ∧ kv !! k = Some v)
    as Hhp.
  { intros k v. unfold having_prefix. rewrite map_lookup_filter_Some, Hin. naive_solver. }
  assert (∀ k, k ∈ keys → is_Some (having_prefix p kv !! k)) as Hk.
  { intros k Hk. rewrite Hkeys in Hk.
    assert (k ∈ map fst (with_prefix p entries)) as ([k' h] & -> & Hx)%list_elem_of_fmap.
    { rewrite <- (take_drop DELETE_BATCH (map fst (with_prefix p entries))). apply elem_of_app. by left. }
    destruct (proj1 (Hin _) Hx) as (v & Hv & Hh & _). cbn in *. subst h. exists v. by apply Hhp. }
  destruct keys as [|key keys].
  - assert (with_prefix p entries = []) as E by (by destruct (with_prefix p entries)).
    apply map_empty. intros k. destruct (having_prefix p kv !! k) as [v|] eqn:Hv; [|done].
    apply Hhp in Hv as [Hv _]. rewrite E in Hv. by apply elem_of_nil in Hv.
  - pose proof (delete_records_spec rs cs kv (key :: keys) Hinv) as Hd.
    destruct (delete_records rs cs (key :: keys)) as [[rs' cs']| |]; try done. cbn.
    exists key, keys. split; [|done]. apply Forall_forall. auto.
Qed.

(** Deletion goes on until no key has the prefix; each round shrinks the rest. *)
Lemma delete_prefix_spec fuel rs cs kv p :
  store_inv rs cs kv → (size (having_prefix p kv) < fuel)%nat →
  posts fails (delete_prefix fuel rs cs p) (λ '(rs', cs'), store_inv rs' cs' (without_prefix p kv)).
Proof.
  revert rs cs kv. induction fuel as [|fuel IH]; intros rs cs kv Hinv Hsize; [lia|]. cbn [delete_prefix].
  eapply posts_bind; [by apply delete_round_spec|]. intros [[rs' cs']|].
  - intros (key & keys & Hkeys & Hinv'). set (kv' := delete_keys kv (key :: keys)) in *.
    assert (without_prefix p kv' = without_prefix p kv) as <-.
    { apply map_eq. intros k. rewrite !without_prefix_lookup. case_decide as Hp; [done|].
      unfold kv'. rewrite delete_keys_lookup. case_decide as Hk; [|done].
      rewrite Forall_forall in Hkeys. destruct (Hkeys k Hk) as [v [_ Hv]%map_lookup_filter_Some]. done. }
    apply IH; [done|].
    assert (having_prefix p kv' ⊆ delete key (having_prefix p kv)) as Hsub.
    { apply map_subseteq_spec. intros k v [Hv Hp]%map_lookup_filter_Some. unfold kv' in Hv.
      rewrite delete_keys_lookup in Hv. case_decide as Hk; [done|].
      rewrite lookup_delete_ne by set_solver. by apply map_lookup_filter_Some. }
    apply map_subseteq_size in Hsub. apply Forall_cons in Hkeys as [Hkey _].
    rewrite map_size_delete_Some in Hsub by done.
    assert (size (having_prefix p kv) ≠ 0)%nat.
    { intros Hz%map_size_empty_inv. rewrite Hz in Hkey. destruct Hkey as [? Hkey]. by rewrite lookup_empty in Hkey. }
    lia.
  - intros Hempty. cbn. assert (without_prefix p kv = kv) as ->; [|done].
    apply map_eq. intros k. rewrite without_prefix_lookup. case_decide as Hp; [|done].
    destruct (kv !! k) as [v|] eqn:Hv; [|done].
    assert (having_prefix p kv !! k = Some v) as Hh by (by apply map_lookup_filter_Some).
    by rewrite Hempty, lookup_empty in Hh.
Qed.

Lemma delete_prefix_total rs cs kv p :
  store_inv rs cs kv →
  posts fails (delete_prefix (delete_prefix_fuel rs p) rs cs p)
    (λ '(rs', cs'), store_inv rs' cs' (without_prefix p kv)).
Proof.
  intros Hinv. unfold delete_prefix_fuel. pose proof (range_prefix rs cs kv p Hinv) as Hr.
  destruct (table_range rs (Included p)) as [es|e|w] eqn:Hes; [|..|done].
  - apply delete_prefix_spec; [done|]. destruct Hr as (entries & Hs & _ & Hread & Hin).
    rewrite (Forall2_length _ _ _ Hread). apply Nat.lt_succ_r.
    transitivity (size (list_to_set (map fst entries) : gset bytes)).
    + rewrite <- (size_dom (D := gset bytes)). apply subseteq_size. intros k [v [Hv Hp]%map_lookup_filter_Some]%elem_of_dom.
      apply elem_of_list_to_set, list_elem_of_fmap. exists (k, header_of v). split; [done|].
      assert ((k, header_of v) ∈ with_prefix p entries) as Hx by (apply Hin; by exists v).
      by apply list_elem_of_filter in Hx as [_ Hx].
    + rewrite size_list_to_set by (by apply keys_sorted_NoDup). by rewrite length_map.
  - cbn [delete_prefix]. unfold delete_round. by rewrite Hes.
Qed.

(** ** Operations and batches on the abstract store *)

Definition spec_operation (kv : gmap bytes bytes) (op : RecordOp) : gmap bytes bytes :=
  match op with
  | Put key v => <[key := v]> kv
  | Delete key => delete key kv
  | DeletePrefix p => without_prefix p kv
  end.

Definition spec_batches (kv : gmap bytes bytes) (batches : list RecordBatch) : gmap bytes bytes :=
  foldl (λ kv batch, foldl spec_operation kv (operations batch)) kv batches.

Definition operation_ok (op : RecordOp) : Prop :=
  match op with Put _ v => value_ok v | _ => True end.

Definition batch_ok (batch : RecordBatch) : Prop :=
  Forall operation_ok (operations batch) ∧ bookmark_wf (batch_bookmark batch) ∧ u64 (first_index batch).

Lemma apply_operation_spec rs cs kv op :
  store_inv rs cs kv → operation_ok op →
  posts fails (apply_operation rs cs op) (λ '(rs', cs'), store_inv rs' cs' (spec_operation kv op)).
Proof.
  intros Hinv Hop. destruct op; cbn [apply_operation spec_operation].
  - by apply put_record_spec.
  - by apply delete_record_spec.
  - by apply delete_prefix_total.
Qed.

Lemma apply_operations_spec rs cs kv ops :
  store_inv rs cs kv → Forall operation_ok ops →
  posts fails (apply_operations rs cs ops) (λ '(rs', cs'), store_inv rs' cs' (foldl spec_operation kv ops)).
Proof.
  intros Hinv Hops. revert rs cs kv Hinv. induction Hops as [|op ops Hop _ IH]; intros rs cs kv Hinv; [done|].
  cbn [apply_operations foldl]. eapply posts_bind; [by apply apply_operation_spec|].
  intros [rs' cs'] Hinv'. by apply IH.
Qed.

(** Each batch starts right after the previous one and does not go back. *)
Fixpoint continues (at_ : Bookmark) (batches : list RecordBatch) : Prop :=
  match batches with
  | [] => True
  | batch :: batches =>
      term (batch_bookmark batch) ≠ 0 ∧ first_index batch = index at_ + 1
      ∧ term at_ ≤ term (batch_bookmark batch) ∧ first_index batch ≤ index (batch_bookmark batch)
      ∧ continues (batch_bookmark batch) batches
  end.

Fixpoint reached (at_ : Bookmark) (batches : list RecordBatch) : Bookmark :=
  match batches with [] => at_ | batch :: batches => reached (batch_bookmark batch) batches end.

(** A bookmark is zero in both fields or in neither. *)
Definition bookmark_ok (b : Bookmark) : Prop := bookmark_wf b ∧ (term b = 0 ↔ index b = 0).

(** A commit fails when [redb] does, or when the batches leave a gap. *)
Definition commit_fails (at_ : Bookmark) (batches : list RecordBatch) (e : Error) : Prop :=
  fails e ∨ (¬ continues at_ batches ∧ code e = CorruptStorage).

Lemma commit_fails_weaken {A} at_ batches (m : Result A) Q :
  posts fails m Q → posts (commit_fails at_ batches) m Q.
Proof. intros Hm. eapply posts_weaken; [exact Hm|]. by left. Qed.

Lemma apply_batches_spec rs cs kv at_ batches :
  store_inv rs cs kv → Forall batch_ok batches → bookmark_ok at_ →
  posts (commit_fails at_ batches) (apply_batches rs cs at_ batches) (λ '(rs', cs', at_'),
    store_inv rs' cs' (spec_batches kv batches) ∧ continues at_ batches ∧ at_' = reached at_ batches
    ∧ bookmark_ok at_').
Proof.
  intros Hinv Hb. revert rs cs kv at_ Hinv.
  induction Hb as [|batch batches (Hops & [Ht Hi] & Hf) _ IH]; intros rs cs kv at_ Hinv Hat; [done|].
  cbn [apply_batches reached spec_batches foldl].
  destruct (Z.eqb_spec (term (batch_bookmark batch)) 0) as [|Hterm]; rbind; [right; cbn; naive_solver|].
  unfold checked_add. destruct (Z.leb_spec (index at_ + 1) u64_max); rbind; [|right; cbn; split; [rlia|done]].
  destruct (Z.eqb_spec (first_index batch) (index at_ + 1)); cbn [negb orb]; [|right; cbn; naive_solver].
  destruct (Z.ltb_spec (term (batch_bookmark batch)) (term at_)); cbn [orb]; [right; cbn; split; [lia|done]|].
  destruct (Z.ltb_spec (index (batch_bookmark batch)) (first_index batch)); [right; cbn; split; [lia|done]|].
  eapply posts_bind; [by apply commit_fails_weaken, apply_operations_spec|]. intros [rs' cs'] Hinv'.
  eapply posts_weaken; [eapply posts_mono; [apply (IH _ _ _ _ Hinv')|]|].
  - split; [done|]. destruct Hat as [[_ ?] _]. rlia.
  - intros [[rs'' cs''] at_''] (? & ? & ? & ?). done.
  - intros err [?|[? ?]]; [by left|right; cbn; naive_solver].
Qed.

(** ** Bookmarks *)

Lemma decode_encode_bookmark b : bookmark_ok b → decode_bookmark (encode_bookmark b) = Ok b.
Proof.
  destruct b as [t i]. intros [[Ht Hi] Hz]. cbn in *. unfold decode_bookmark, encode_bookmark. cbn [term index].
  rewrite zlen_app, !zlen_le_bytes. change (Z.of_nat 8 + Z.of_nat 8) with 16. cbn [Z.eqb negb].
  assert (index_range (E := Error) (le_bytes 8 t ++ le_bytes 8 i) 0 8 = Ok (le_bytes 8 t)) as ->
    by (by apply (index_range_app [])).
  assert (index_range (E := Error) (le_bytes 8 t ++ le_bytes 8 i) 8 16 = Ok (le_bytes 8 i)) as ->
    by (by apply index_range_suffix; rewrite ?zlen_le_bytes). rbind.
  rewrite !from_le_8 by done. cbn.
  destruct (Z.eqb_spec t 0), (Z.eqb_spec i 0); naive_solver.
Qed.
End theory.
