(* ===== verification/RecordsStore.v ===== *)
(** * Record store: commits, reads and opening

    The whole store against its abstract state: an identity, a finite map and
    the bookmark the map has reached. *)

From stdpp Require Import prelude gmap strings sorting.
From Stdlib Require Import ZArith Lia.
From S2P Require Import Prelude Machine Types Document Records RecordsTheorems.

Local Open Scope Z_scope.
#[local] Set Warnings "-clear-no-such-hyp".

Opaque FORMAT format_key identity_key bookmark_key.

(** ** Damage is noticed *)

Section damage.
Context {T C : Type} `{Redb T C} `{Allocator}.

Lemma read_chunks_length n cs key i len value r :
  zlen value ≤ len → read_chunks n cs key i len value = Ok r →
  zlen r = Z.min len (zlen value + Z.of_nat n * CHUNK_BYTES).
Proof.
  pose proof CHUNK_BYTES_eq as Hc. revert i value. induction n as [|n IH]; intros i value Hv; cbn [read_chunks].
  - intros [= <-]. lia.
  - intros (found & _ & Hr)%bind_Ok_inv. apply bind_Ok_inv in Hr as (chunk & _ & Hr).
    destruct (Z.eqb_spec (zlen chunk) (Z.min (len - zlen value) CHUNK_BYTES)) as [E|]; cbn [negb] in Hr; [|done].
    apply IH in Hr; rewrite zlen_app in *; lia.
Qed.

(** whatever the tables hold, a record that is read has the length and the
    checksum its header states. *)
Theorem record_read_authentic cs key encoded v :
  read_record cs key encoded = Ok v →
  ∃ count, decode_header encoded = Ok (zlen v, count, blake3 v).
Proof.
  unfold read_record. intros ([[len count] checksum] & Hd & Hr)%bind_Ok_inv.
  apply bind_Ok_inv in Hr as (len' & Hl & Hr).
  assert (len' = len) as -> by (unfold usize_try_from in Hl; destruct (_ <=? _); cbn in Hl; congruence). clear Hl.
  cbv zeta in Hr. destruct (Z.eqb_spec count (if len <=? CHUNK_BYTES then 0 else div_ceil len CHUNK_BYTES))
    as [Hcount|]; cbn [negb] in Hr; [|done].
  apply bind_Ok_inv in Hr as (v' & Hv & Hr). case_bool_decide as Hsum; [|done]. injection Hr as ->.
  exists count. rewrite Hsum. assert (zlen v = len) as ->; [|done].
  destruct (Z.eqb_spec count 0) as [E|E].
  - apply bind_Ok_inv in Hv as (extent & He & Hv). unfold checked_add in He. rewrite HEADER_BYTES_eq in *.
    destruct (_ <=? _); cbn in He; [|done]. injection He as <-.
    destruct (Z.eqb_spec (zlen encoded) (48 + len)) as [Ez|]; cbn [negb] in Hv; [|done].
    unfold index_range in Hv. destruct (get_range _ _ _) as [w|] eqn:Hg; [|done]. injection Hv as ->.
    apply get_range_Some in Hg as (? & ? & ?); [|done]. lia.
  - destruct (_ =? _); cbn [negb] in Hv; [|done]. destruct (grant _ _); [|done].
    pose proof CHUNK_BYTES_eq as Hc. destruct (Z.leb_spec len CHUNK_BYTES); [done|].
    apply read_chunks_length in Hv; change (zlen (@nil Z)) with 0 in *; [|lia]. rewrite Hv, Hcount. unfold div_ceil in *. rewrite Hc in *.
    pose proof (Z.div_mod (len + 65536 - 1) 65536). pose proof (Z.mod_pos_bound (len + 65536 - 1) 65536). lia.
Qed.
End damage.

Section database.
Context {T C : Type} `{RedbSpec T C} `{Allocator}.
Implicit Types (db : @Database T C) (kv : gmap bytes bytes) (b : Bookmark).

Definition meta_inv (md : T) (id : bytes) b : Prop :=
  rows md !! format_key = Some FORMAT ∧ rows md !! identity_key = Some id
  ∧ rows md !! bookmark_key = Some (encode_bookmark b) ∧ bookmark_ok b.

(** The durable state of a store: its identity, records and bookmark. *)
Definition db_inv db (id : bytes) kv b : Prop :=
  meta_inv (metadata db) id b ∧ store_inv (records db) (chunks db) kv.

(** A transaction that is not committed, or whose commit fails without effect,
    leaves the database as it was. *)
Lemma publish_spec {A} (F : Error → Prop) db (m : Result (option Database * A)) Q :
  posts F m Q → (∀ e, fails e → F e) →
  match publish db m with
  | (db', Ok a) => (∃ o, Q (o, a) ∧ db' = default db o)
  | (db', Err e) => F e ∧ (db' = db ∨ ∃ a, Q (Some db', a))
  | (_, Abort _) => False
  end.
Proof.
  intros Hm HF. destruct m as [[[db'|] a]|e|w]; cbn in *; [|by exists None|by auto|done].
  pose proof (transaction_call_safe Commit) as Hc. destruct (transaction_call Commit) as [u|e|w]; cbn in *; [|..|done].
  - by exists (Some db').
  - split; [by apply HF|]. destruct commit_survives; [right|left]; eauto.
Qed.

Lemma call_fails (F : Error → Prop) c : (∀ e, fails e → F e) → posts F (transaction_call c) (λ _, True).
Proof. intros HF. eapply posts_weaken; [apply transaction_call_safe|done]. Qed.

Lemma meta_insert_bookmark md md' id b b' :
  meta_inv md id b → bookmark_ok b' → rows md' = <[bookmark_key := encode_bookmark b']> (rows md) →
  meta_inv md' id b'.
Proof.
  intros (Hf & Hi & _ & _) Hb Hr. unfold meta_inv. rewrite Hr, !lookup_insert_ne, lookup_insert_eq by done. done.
Qed.

Lemma read_bookmark md id b : meta_inv md id b →
  posts fails (found ← table_get md bookmark_key;
               value ← ok_or found (corrupt "missing durable bookmark");
               decode_bookmark value) (λ r, r = b).
Proof.
  intros (_ & _ & Hb & Hok). eapply posts_bind; [apply table_get_spec|]. intros r ->. rewrite Hb. rbind.
  by rewrite decode_encode_bookmark.
Qed.

Lemma commit_transaction_spec db id kv b batches :
  db_inv db id kv b → Forall batch_ok batches →
  posts (commit_fails b batches) (commit_transaction db batches) (λ db',
    db_inv db' id (spec_batches kv batches) (reached b batches) ∧ continues b batches).
Proof.
  intros [Hm Hs] Hb. unfold commit_transaction.
  do 2 (eapply posts_bind; [by apply call_fails; left|]; intros [] _).
  assert (∀ (k : Bookmark → Result (@Database T C)),
    (found ← table_get (metadata db) bookmark_key;
     value ← ok_or found (corrupt "missing durable bookmark");
     at_ ← decode_bookmark value; k at_)
    = ((found ← table_get (metadata db) bookmark_key;
        value ← ok_or found (corrupt "missing durable bookmark");
        decode_bookmark value) ≫= k)) as Hassoc.
  { intros k. destruct (table_get _ _) as [[value|]| |]; cbn; try done. }
  rewrite Hassoc. eapply posts_bind; [by eapply commit_fails_weaken, read_bookmark|]. intros at_ ->.
  do 2 (eapply posts_bind; [by apply call_fails; left|]; intros [] _).
  eapply posts_bind; [apply (apply_batches_spec _ _ kv); [done|done|apply Hm]|].
  intros [[rs cs] at_] (Hinv & Hc & -> & Hok).
  eapply posts_bind; [apply commit_fails_weaken, table_insert_spec|]. intros md Hmd. cbn.
  split; [|done]. split; [by eapply meta_insert_bookmark|done].
Qed.

Lemma commit_spec db id kv b batches :
  db_inv db id kv b → Forall batch_ok batches →
  match commit db batches with
  | (db', Ok _) => db_inv db' id (spec_batches kv batches) (reached b batches) ∧ continues b batches
  | (db', Err e) =>
      commit_fails b batches e
      ∧ (db' = db
         ∨ db_inv db' id (spec_batches kv batches) (reached b batches) ∧ continues b batches)
  | (_, Abort _) => False
  end.
Proof.
  intros Hdb Hb. destruct batches as [|batch batches]; [done|]. cbn [commit].
  set (bs := batch :: batches) in *.
  assert (posts (commit_fails b bs) (db' ← commit_transaction db bs; Ok (Some db', ()))
    (λ '(o, _), ∃ db', o = Some db' ∧ db_inv db' id (spec_batches kv bs) (reached b bs) ∧ continues b bs)) as Hm.
  { eapply posts_bind; [by apply commit_transaction_spec|]. intros db' Hdb'. cbn. eauto. }
  apply (publish_spec _ db) in Hm; [|by left]. destruct (publish _ _) as [db' [u|e|w]]; [| |done].
  - by destruct Hm as (o & (db'' & -> & ?) & ->).
  - destruct Hm as (He & [->|(a & db'' & [= ->] & ?)]); auto.
Qed.

(** C23: a commit of batches takes the store from its durable state to the one
    the batches describe, records and bookmark together, or leaves it as it
    was.  It succeeds only when every batch starts right after the bookmark
    reached so far, and fails only when [redb] reports a failure or the
    batches leave a gap. *)
Theorem record_commit_refines db id kv b batches :
  db_inv db id kv b → Forall batch_ok batches →
  match commit db batches with
  | (db', Ok _) => db_inv db' id (spec_batches kv batches) (reached b batches) ∧ continues b batches
  | (db', Err e) =>
      commit_fails b batches e
      ∧ (db' = db
         ∨ db_inv db' id (spec_batches kv batches) (reached b batches) ∧ continues b batches)
  | (_, Abort _) => False
  end.
Proof. apply commit_spec. Qed.

(** ** Reading *)

Lemma read_entry db id kv b key v :
  db_inv db id kv b → kv !! key = Some v →
  posts read_fails (read_record (chunks db) key (header_of v)) (λ r, r = v).
Proof. intros [_ Hs] Hk. destruct (inv_holds _ _ _ _ _ Hs Hk). by apply read_record_spec. Qed.

Lemma get_value db id kv b key :
  db_inv db id kv b →
  posts read_fails
    (found ← table_get (records db) key;
     match found with
     | None => Ok None
     | Some value => Some <$> read_record (chunks db) key value
     end) (λ r, r = kv !! key).
Proof.
  intros Hdb. eapply posts_bind; [apply read_fails_weaken, table_get_spec|]. intros r ->.
  rewrite (inv_lookup _ _ _ _ (proj2 Hdb)). destruct (kv !! key) as [v|] eqn:Hk; [|done]. cbn.
  apply posts_fmap. eapply posts_mono; [by eapply read_entry|]. by intros ? ->.
Qed.

Lemma reader_get_spec db id kv b key :
  db_inv db id kv b → posts read_fails (reader_get db key) (λ r, r = kv !! key).
Proof.
  intros Hdb. unfold reader_get. do 2 (eapply posts_bind; [by apply call_fails; left|]; intros [] _).
  by eapply get_value.
Qed.

Lemma get_record_spec db id kv b key :
  db_inv db id kv b → posts read_fails (get_record db key) (λ r, r = kv !! key).
Proof.
  intros Hdb. unfold get_record, reader. rewrite bind_assoc.
  eapply posts_bind; [by apply call_fails; left|]. intros [] _. rbind. by eapply reader_get_spec.
Qed.

Lemma bookmark_spec db id kv b : db_inv db id kv b → posts fails (bookmark db) (λ r, r = b).
Proof.
  intros Hdb. unfold bookmark.
  do 2 (eapply posts_bind; [apply transaction_call_safe|]; intros [] _). by eapply read_bookmark, Hdb.
Qed.

(** The visitor applied to entries in order. *)
Fixpoint visit_all {St} (visit : St → bytes → bytes → Result St) (l : list (bytes * bytes)) (st : St)
    : Result St :=
  match l with [] => Ok st | (k, v) :: l => st ← visit st k v; visit_all visit l st end.

(** The records under a prefix, in key order. *)
Definition prefixed kv (p : bytes) (l : list (bytes * bytes)) : Prop :=
  keys_sorted l ∧ ∀ k v, (k, v) ∈ l ↔ kv !! k = Some v ∧ p `prefix_of` k.

(** The records from a bound on, in key order. *)
Definition ranged kv (bd : Bound) (l : list (bytes * bytes)) : Prop :=
  keys_sorted l ∧ ∀ k v, (k, v) ∈ l ↔ kv !! k = Some v ∧ above bd k.

(** An entry of the records table, read or failed, for a record. *)
Definition entry_for (e : Result (bytes * bytes)) (x : bytes * bytes) : Prop :=
  entry_read fails e (x.1, header_of x.2).

Lemma range_entries db id kv b bd :
  db_inv db id kv b →
  posts fails (table_range (records db) bd) (λ es, ∃ l, ranged kv bd l ∧ Forall2 entry_for es l).
Proof.
  intros [_ Hs]. eapply posts_mono; [apply table_range_spec|]. intros es (entries & Hsort & Hin & Hread).
  set (f := λ x : bytes * bytes, (x.1, default [] (kv !! x.1))).
  assert (∀ x, x ∈ entries → ∃ v, kv !! x.1 = Some v ∧ x.2 = header_of v ∧ above bd x.1) as Hval.
  { intros [k h] [Hr Ha]%Hin. rewrite (inv_lookup _ _ _ _ Hs), fmap_Some in Hr. naive_solver. }
  exists (map f entries). split; [split|].
  - eapply keys_sorted_keys; [|exact Hsort]. rewrite map_map. by apply map_ext.
  - intros k v. rewrite list_elem_of_fmap. split.
    + intros (x & [= -> ->] & Hx). destruct (Hval x Hx) as (v & -> & _ & Ha). done.
    + intros [Hk Ha]. exists (k, header_of v). unfold f. cbn. rewrite Hk. split; [done|].
      apply Hin. by rewrite (inv_lookup _ _ _ _ Hs), Hk.
  - apply Forall2_fmap_r. eapply Forall2_impl_in; [exact Hread|]. intros e x _ Hx He.
    unfold entry_for. cbn. destruct (Hval x Hx) as (v & -> & Hh & _). cbn. rewrite <- Hh. by destruct x.
Qed.

Lemma scan_entries_spec {St} db id kv b p (visit : St → bytes → bytes → Result St) es l st :
  db_inv db id kv b → Forall2 entry_for es l → keys_sorted l →
  Forall (λ x, kv !! x.1 = Some x.2 ∧ lexZ x.1 p ≠ Lt) l →
  scan_entries (chunks db) p visit es st = visit_all visit (with_prefix p l) st
  ∨ ∃ e, read_fails e ∧ scan_entries (chunks db) p visit es st = Err e.
Proof.
  intros Hdb Hes. revert st. induction Hes as [|e [k v] es l He _ IH]; intros st Hs Hge; [by left|].
  apply Forall_cons in Hge as [[Hk Hkp] Hge]. cbn in Hk, Hkp. cbn [scan_entries].
  destruct He as [->|(err & Herr & ->)]; [|right; by exists err; split; [left|]]. cbn [fst snd]. rbind.
  unfold starts_with, with_prefix. case_bool_decide as Hp; cbn [negb].
  - rewrite filter_cons_True by done. fold (with_prefix p l). pose proof (read_entry _ _ _ _ _ _ Hdb Hk) as Hr.
    destruct (read_record _ _ _) as [v'|err|w]; cbn in Hr; [subst v'|right; by exists err|done]. rbind.
    cbn [visit_all]. destruct (visit st k v) as [st'|err|w]; rbind; [|by left..].
    apply IH; [by eapply keys_sorted_tail|done].
  - left. rewrite filter_cons_False by done. fold (with_prefix p l).
    by rewrite with_prefix_none by (by eapply no_prefix_after).
Qed.

Lemma call_cases {A} c (k : unit → Result A) (P : Result A → Prop) :
  P (k tt) → (∀ e, fails e → P (Err e)) → P (transaction_call c ≫= k).
Proof. intros Hk He. pose proof (transaction_call_safe c). by destruct (transaction_call c) as [[]| |]; cbn; auto. Qed.

Lemma scan_prefix_spec {St} db id kv b p (visit : St → bytes → bytes → Result St) st :
  db_inv db id kv b →
  (∃ l, prefixed kv p l ∧ scan_prefix db p visit st = visit_all visit l st)
  ∨ ∃ e, read_fails e ∧ scan_prefix db p visit st = Err e.
Proof.
  intros Hdb. unfold scan_prefix, reader, reader_scan_prefix.
  rewrite bind_assoc. do 3 (apply call_cases; [|intros e He; right; exists e; by split; [left|]]; rbind).
  pose proof (range_entries _ _ _ _ (Included p) Hdb) as Hr.
  destruct (table_range _ _) as [es|e|w]; [|right; by exists e; split; [left|]|done]. rbind.
  destruct Hr as (l & [Hs Hin] & Hes). assert (Forall (λ x, kv !! x.1 = Some x.2 ∧ lexZ x.1 p ≠ Lt) l) as Hge.
  { apply Forall_forall. intros [k v] Hx. by apply Hin in Hx. }
  destruct (scan_entries_spec _ _ _ _ p visit es l st Hdb Hes Hs Hge) as [->|]; [left|by right].
  exists (with_prefix p l). split; [split|done]; [by apply keys_sorted_filter|].
  intros k v. unfold with_prefix. rewrite list_elem_of_filter, Hin. cbn.
  split; [tauto|]. intros [? ?]. split_and!; [done|done|]. by apply prefix_not_lt.
Qed.

(** The key of a record that a page starting after [after] may hold. *)
Definition follows (after : option bytes) (k : bytes) : Prop :=
  match after with Some last => lexZ last k = Lt | None => True end.

(** The lower bound [next_after] chooses. *)
Definition next_bound (p : bytes) (after : option bytes) : Bound :=
  match after with
  | Some last => if negb (bool_decide (lexZ last p = Lt)) then Excluded last else Included p
  | None => Included p
  end.

Lemma next_bound_above p after k :
  (above (next_bound p after) k → lexZ k p ≠ Lt)
  ∧ (p `prefix_of` k → (above (next_bound p after) k ↔ follows after k)).
Proof.
  destruct after as [last|]; cbn; [|pose proof (prefix_not_lt p k); tauto].
  case_bool_decide as Hl; cbn [negb above].
  - split; [done|]. intros Hp%prefix_not_lt. split; [|done]. intros _.
    destruct (lexZ p k) eqn:E; [by apply lexZ_eq in E as <-| |].
    + by eapply lexZ_trans.
    + by apply lexZ_lt_gt in E.
  - rewrite <- lexZ_lt_gt. split; [|done]. intros Hk Hkp. by apply Hl, (lexZ_trans _ k).
Qed.

Lemma next_after_spec db id kv b p after :
  db_inv db id kv b →
  posts read_fails (next_after db p after) (λ r,
    match r with
    | Some (k, v) => kv !! k = Some v ∧ p `prefix_of` k ∧ follows after k
        ∧ ∀ k', is_Some (kv !! k') → p `prefix_of` k' → follows after k' → lexZ k' k ≠ Lt
    | None => ∀ k', is_Some (kv !! k') → p `prefix_of` k' → ¬ follows after k'
    end).
Proof.
  intros Hdb. unfold next_after. do 3 (eapply posts_bind; [by apply call_fails; left|]; intros [] _).
  fold (next_bound p after). cbv zeta. eapply posts_bind; [by eapply read_fails_weaken, range_entries|].
  intros es (l & [Hs Hin] & Hes).
  assert (∀ k, is_Some (kv !! k) → p `prefix_of` k → follows after k → ∃ v, (k, v) ∈ l) as Hall.
  { intros k [v Hv] Hp Hf. exists v. apply Hin. split; [done|]. by apply (next_bound_above p after k). }
  destruct Hes as [|e [k v] es l He _].
  { intros k Hk Hp Hf. destruct (Hall k Hk Hp Hf) as [? []%elem_of_nil]. }
  destruct (proj1 (Hin k v)) as [Hk Ha]; [set_solver|].
  destruct He as [->|(err & Herr & ->)]; [|by left]. cbn [fst snd]. rbind. unfold starts_with.
  case_bool_decide as Hp; cbn [negb].
  - eapply posts_bind; [by eapply read_entry|]. intros r ->. cbn.
    split_and!; [done|done|by apply (next_bound_above p after k)|].
    intros k' Hk' Hp' Hf'. destruct (Hall k' Hk' Hp' Hf') as [v' [[= -> ->]|Hx]%elem_of_cons]; [by rewrite lexZ_refl|].
    apply keys_sorted_all_lt in Hs. rewrite Forall_forall in Hs. specialize (Hs _ Hx). cbn in Hs.
    apply lexZ_lt_gt in Hs. by rewrite Hs.
  - intros k' Hk' Hp' Hf'. destruct (Hall k' Hk' Hp' Hf') as [v' [[= -> ->]|Hx]%elem_of_cons]; [done|].
    apply (no_prefix_after p) in Hs; [|by apply (next_bound_above p after k)|done].
    rewrite Forall_forall in Hs. by apply (Hs _ Hx).
Qed.

(** C24: every read of the store agrees with the durable map, unless a read of
    the database fails: get returns the value of the key, the bookmark is the
    one reached, a scan visits exactly the records under the prefix in key
    order until the visitor stops, and [next_after] finds the least record
    under the prefix that follows the given key, or none when there is
    none. *)
Theorem record_reads {St} db id kv b key p (visit : St → bytes → bytes → Result St) st after :
  db_inv db id kv b →
  posts read_fails (get_record db key) (λ r, r = kv !! key)
  ∧ posts fails (bookmark db) (λ r, r = b)
  ∧ ((∃ l, prefixed kv p l ∧ scan_prefix db p visit st = visit_all visit l st)
     ∨ ∃ e, read_fails e ∧ scan_prefix db p visit st = Err e)
  ∧ posts read_fails (next_after db p after) (λ r,
      match r with
      | Some (k, v) => kv !! k = Some v ∧ p `prefix_of` k ∧ follows after k
          ∧ ∀ k', is_Some (kv !! k') → p `prefix_of` k' → follows after k' → lexZ k' k ≠ Lt
      | None => ∀ k', is_Some (kv !! k') → p `prefix_of` k' → ¬ follows after k'
      end).
Proof.
  intros Hdb. split_and!; [by eapply get_record_spec|by eapply bookmark_spec|by eapply scan_prefix_spec|by eapply next_after_spec].
Qed.

(** [remove_if_value] removes the record exactly when it holds the
    expected value, and never touches the bookmark or another record. *)
Theorem record_remove_if_value db id kv b key expected :
  db_inv db id kv b →
  match remove_if_value db key expected with
  | (db', Ok true) => kv !! key = Some expected ∧ db_inv db' id (delete key kv) b
  | (db', Ok false) => kv !! key ≠ Some expected ∧ db' = db
  | (db', Err e) =>
      read_fails e
      ∧ (db' = db ∨ kv !! key = Some expected ∧ db_inv db' id (delete key kv) b)
  | (_, Abort _) => False
  end.
Proof.
  intros Hdb. unfold remove_if_value.
  match goal with |- context [publish db ?m] => assert (posts read_fails m (λ '(o, a),
    match o with
    | Some db' => a = true ∧ kv !! key = Some expected ∧ db_inv db' id (delete key kv) b
    | None => a = false ∧ kv !! key ≠ Some expected
    end)) as Hm end.
  { do 3 (eapply posts_bind; [by apply call_fails; left|]; intros [] _).
    assert (∀ (k : option bytes → Result (option (@Database T C) * bool)),
      (found ← table_get (records db) key;
       value ← match found with None => Ok None | Some value => Some <$> read_record (chunks db) key value end;
       k value)
      = ((found ← table_get (records db) key;
          match found with None => Ok None | Some value => Some <$> read_record (chunks db) key value end) ≫= k)) as ->.
    { intros k. by destruct (table_get _ _). }
    eapply posts_bind; [by eapply get_value|]. intros r ->. case_bool_decide as Hv; [|done].
    eapply posts_bind; [by eapply read_fails_weaken, delete_record_spec, Hdb|]. intros [rs cs] Hinv. cbn.
    split_and!; [done|done|]. split; [apply Hdb|done]. }
  apply (publish_spec _ db) in Hm; [|by left]. destruct (publish _ _) as [db' [[] |e|w]]; [..|done].
  - destruct Hm as ([db''|] & Hm & ->); naive_solver.
  - destruct Hm as ([db''|] & Hm & ->); naive_solver.
  - destruct Hm as (He & [->|(a & _ & ? & ?)]); auto.
Qed.

(** ** Opening *)

Lemma open_spec (F : Error → Prop) tables db store_id Q :
  posts F (open_metadata tables (metadata db) store_id) Q → (∀ e, fails e → F e) →
  match open_store tables db store_id with
  | (db', Ok _) => ∃ md, Q md ∧ db' = mkDatabase md (records db) (chunks db)
  | (db', Err e) => F e ∧ (db' = db ∨ ∃ md, Q md ∧ db' = mkDatabase md (records db) (chunks db))
  | (_, Abort _) => False
  end.
Proof.
  intros Hm HF. unfold open_store.
  match goal with |- context [publish db ?m] => assert (posts F m (λ '(o, _),
    ∃ md, Q md ∧ o = Some (mkDatabase md (records db) (chunks db)))) as Ho end.
  { do 3 (eapply posts_bind; [eapply posts_weaken; [apply file_call_safe|done]|]; intros [] _).
    do 3 (eapply posts_bind; [by apply call_fails|]; intros [] _).
    eapply posts_bind; [exact Hm|]. intros md Hmd.
    do 2 (eapply posts_bind; [by apply call_fails|]; intros [] _). cbn. eauto. }
  apply (publish_spec _ db) in Ho; [|done]. pose proof (file_call_safe SyncParent) as Hf.
  destruct (publish _ _) as [db' [u|e|w]]; cbn; [|..|done].
  - destruct Ho as (o & (md & Hmd & ->) & ->). cbn. destruct (file_call SyncParent) as [u'|e|w]; cbn in Hf; [| |done].
    + by exists md.
    + split; [by apply HF|]. right. by exists md.
  - destruct Ho as (He & [->|(a & md & Hmd & [= ->])]); [by auto|]. split; [done|]. right. by exists md.
Qed.

Definition tables_listed (tables : list string) : Prop :=
  forallb (λ name, bool_decide (name ∈ tables)) ["metadata"; "records"; "chunks"]%string = true.

Lemma open_existing tables md id b store_id :
  meta_inv md id b → tables_listed tables →
  posts (λ e, fails e ∨ (store_id ≠ id ∧ code e = CorruptStorage)) (open_metadata tables md store_id)
    (λ md', md' = md ∧ store_id = id).
Proof.
  intros (Hf & Hi & Hb & Hok) Ht. unfold open_metadata. cbv zeta.
  eapply posts_bind; [eapply posts_weaken; [apply table_get_spec|by left]|]. intros r ->. rewrite Hf.
  rewrite bool_decide_eq_true_2, Ht by done. cbn [negb].
  eapply posts_bind; [eapply posts_weaken; [apply table_get_spec|by left]|]. intros r ->. rewrite Hi.
  case_bool_decide as E; cbn [negb]; [|right; split; [congruence|done]]. injection E as <-.
  eapply posts_bind; [eapply posts_weaken; [apply table_get_spec|by left]|]. intros r ->. rewrite Hb. rbind.
  by rewrite decode_encode_bookmark.
Qed.

Lemma open_fresh md store_id :
  rows md !! format_key = None →
  posts fails (open_metadata [] md store_id) (λ md', meta_inv md' store_id Bookmark_default).
Proof.
  intros Hf. unfold open_metadata. eapply posts_bind; [apply table_get_spec|]. intros r ->. rewrite Hf.
  rewrite bool_decide_eq_true_2 by done. cbn [negb].
  eapply posts_bind; [apply table_insert_spec|]. intros md1 H1'. eapply posts_bind; [apply table_insert_spec|].
  intros md2 H2. eapply posts_mono; [apply table_insert_spec|]. intros md3 H3.
  unfold meta_inv. rewrite H3, H2, H1'. split_and!; [..|by rewrite lookup_insert_eq|].
  - by rewrite !lookup_insert_ne, lookup_insert_eq by done.
  - by rewrite lookup_insert_ne, lookup_insert_eq by done.
  - split; [split; cbn; rlia|done].
Qed.

(** Opening a store checks its identity and changes nothing in it; opening
    an empty file creates an empty store of the given identity at the zero
    bookmark.  Both fail only when [redb] or the file system does, or when the
    identity is another one. *)
Theorem record_open :
  (∀ db id kv b tables store_id,
     db_inv db id kv b → tables_listed tables →
     match open_store tables db store_id with
     | (db', Ok _) => store_id = id ∧ db' = db
     | (db', Err e) => db' = db ∧ (fails e ∨ (store_id ≠ id ∧ code e = CorruptStorage))
     | (_, Abort _) => False
     end)
  ∧ ∀ db store_id,
     rows (metadata db) = ∅ → rows (records db) = ∅ → parts (chunks db) = ∅ →
     match open_store [] db store_id with
     | (db', Ok _) => db_inv db' store_id ∅ Bookmark_default
     | (db', Err e) => fails e ∧ (db' = db ∨ db_inv db' store_id ∅ Bookmark_default)
     | (_, Abort _) => False
     end.
Proof.
  split.
  - intros db id kv b tables store_id [Hm _] Ht.
    pose proof (open_spec _ tables db store_id _ (open_existing _ _ _ _ store_id Hm Ht)) as Ho.
    destruct (open_store _ _ _) as [db' [u|e|w]]; [..|by apply Ho; left].
    + destruct Ho as (md & [-> ?] & ->); [by left|]. by destruct db.
    + destruct Ho as (He & [->|(md & [-> ?] & ->)]); [by left|done|]. by destruct db.
  - intros db store_id Hmd Hrs Hcs.
    assert (rows (metadata db) !! format_key = None) as Hf by (by rewrite Hmd).
    assert (∀ md, meta_inv md store_id Bookmark_default →
                  db_inv (mkDatabase md (records db) (chunks db)) store_id ∅ Bookmark_default) as Hnew.
    { intros md ?. split; [done|]. cbn. split_and!; [by rewrite Hrs, fmap_empty|by intros; rewrite Hcs|].
      apply map_Forall_empty. }
    pose proof (open_spec _ [] db store_id _ (open_fresh _ store_id Hf)) as Ho.
    destruct (open_store _ _ _) as [db' [u|e|w]]; [..|by apply Ho].
    + destruct Ho as (md & ? & ->); auto.
    + destruct Ho as (He & [->|(md & ? & ->)]); auto.
Qed.
End database.
