(* ===== verification/RecordsMemory.v ===== *)
(** * Record store: an in-memory database

    A database whose tables are finite maps and whose calls never fail
    satisfies [RedbSpec]; the theorems on the store are applied to it. *)

From stdpp Require Import prelude gmap strings sorting.
From Stdlib Require Import ZArith Lia.
From S2P Require Import Prelude Machine Types Document Records RecordsTheorems RecordsStore.

Local Open Scope Z_scope.

Definition key_le (x y : bytes * bytes) : Prop := lexZ x.1 y.1 ≠ Gt.

#[global] Instance key_le_dec : RelDecision key_le.
Proof. intros x y. unfold key_le. apply _. Defined.

#[global] Instance above_dec b k : Decision (above b k).
Proof. destruct b; cbn; apply _. Defined.

#[global] Instance key_le_total : Total key_le.
Proof.
  intros x y. unfold key_le. rewrite (lexZ_antisym y.1 x.1). destruct (lexZ y.1 x.1); cbn; auto.
Qed.

#[global] Instance key_le_trans : Transitive key_le.
Proof.
  intros x y z. unfold key_le. destruct (lexZ x.1 y.1) eqn:Hxy, (lexZ y.1 z.1) eqn:Hyz; try done; intros _ _.
  - apply lexZ_eq in Hxy as ->. by rewrite Hyz.
  - apply lexZ_eq in Hxy as ->. by rewrite Hyz.
  - apply lexZ_eq in Hyz as <-. by rewrite Hxy.
  - by rewrite (lexZ_trans _ _ _ Hxy Hyz).
Qed.

Definition sorted_rows (t : gmap bytes bytes) : list (bytes * bytes) := merge_sort key_le (map_to_list t).

Lemma sorted_rows_elem t k v : (k, v) ∈ sorted_rows t ↔ t !! k = Some v.
Proof. unfold sorted_rows. by rewrite merge_sort_Permutation, elem_of_map_to_list. Qed.

Lemma sorted_keys l : StronglySorted key_le l → NoDup (map fst l) → keys_sorted l.
Proof.
  induction 1 as [|[k v] l Hl IH Hle]; [done|]. intros [Hnin Hnd]%NoDup_cons. apply keys_sorted_cons; [|auto].
  rewrite Forall_forall in *. intros [k' v'] Hx. specialize (Hle _ Hx). unfold key_le in Hle. cbn in *.
  destruct (lexZ k k') eqn:E; try done. apply lexZ_eq in E as ->. destruct Hnin.
  apply list_elem_of_fmap. by exists (k', v').
Qed.

Lemma sorted_rows_sorted t : keys_sorted (sorted_rows t).
Proof.
  apply sorted_keys; [apply (StronglySorted_merge_sort key_le)|]; [apply _..|].
  unfold sorted_rows. rewrite (fmap_Permutation fst _ _ (merge_sort_Permutation key_le (map_to_list t))).
  apply NoDup_fst_map_to_list.
Qed.

#[global] Instance memory : Redb (gmap bytes bytes) (gmap (bytes * Z) bytes) := {
  transaction_call _ := Ok tt;
  file_call _ := Ok tt;
  commit_survives := false;
  table_get t k := Ok (t !! k);
  table_insert t k v := Ok (<[k := v]> t);
  table_remove t k := Ok (delete k t, t !! k);
  table_range t b := Ok (Ok <$> filter (λ x, above b x.1) (sorted_rows t));
  chunk_get c k i := Ok (c !! (k, i));
  chunk_insert c k i v := Ok (<[(k, i) := v]> c);
  chunk_remove c k i := Ok (delete (k, i) c, c !! (k, i));
  blake3 _ := repeat 0 32;
}.

#[global] Instance memory_spec : RedbSpec (gmap bytes bytes) (gmap (bytes * Z) bytes).
Proof.
  refine {| fails := λ _, False; rows := λ t, t; parts := λ c, c |}; try done.
  intros t b. exists (filter (λ x, above b x.1) (sorted_rows t)). split_and!.
  - apply keys_sorted_filter, sorted_rows_sorted.
  - intros k v. rewrite list_elem_of_filter, sorted_rows_elem. cbn. tauto.
  - apply Forall2_fmap_l, Forall_Forall2_diag, Forall_forall. intros x _. by left.
Defined.

(** A store with one identity, no records and the zero bookmark. *)
Definition memory_db : @Database (gmap bytes bytes) (gmap (bytes * Z) bytes) :=
  mkDatabase
    (<[bookmark_key := encode_bookmark Bookmark_default]> (<[identity_key := [7]]> {[format_key := FORMAT]}))
    ∅ ∅.

Lemma memory_db_inv : db_inv memory_db [7] ∅ Bookmark_default.
Proof.
  split; [split_and!; [by vm_compute..|split; [split; cbn; rlia|done]]|].
  split_and!; [by rewrite fmap_empty|done|apply map_Forall_empty].
Qed.

(** The same store with a record of two bytes. *)
Definition memory_record : gmap bytes bytes := {[ [1] := [5; 6] ]}.
Definition memory_db1 : @Database (gmap bytes bytes) (gmap (bytes * Z) bytes) :=
  mkDatabase (metadata memory_db) (header_of <$> memory_record) ∅.

Lemma memory_db1_inv : db_inv memory_db1 [7] memory_record Bookmark_default.
Proof.
  split; [apply memory_db_inv|]. split_and!; [done| |].
  - intros k i. cbn. rewrite lookup_empty. unfold memory_record. destruct (decide (k = [1])) as [->|].
    + by rewrite lookup_singleton_eq.
    + by rewrite lookup_singleton_ne.
  - apply map_Forall_singleton. by vm_compute.
Qed.

Definition memory_batches : list RecordBatch :=
  [mkRecordBatch 1 (mkBookmark 1 2) [Put [1] [5]; Put [1; 2] [6]; DeletePrefix [1; 2]]].

Lemma memory_batches_ok : Forall batch_ok memory_batches.
Proof.
  apply Forall_singleton. split; [|split; [split|]; cbn; rlia].
  repeat (apply Forall_cons; split); by try apply Forall_nil_2.
Qed.

Lemma record_commit_refines_witness :
  db_inv memory_db [7] ∅ Bookmark_default ∧ Forall batch_ok memory_batches
  ∧ ∃ db', commit memory_db memory_batches = (db', Ok tt)
      ∧ db_inv db' [7] (spec_batches ∅ memory_batches) (mkBookmark 1 2).
Proof.
  split; [apply memory_db_inv|]. split; [apply memory_batches_ok|].
  pose proof (record_commit_refines memory_db [7] ∅ Bookmark_default memory_batches memory_db_inv memory_batches_ok) as Hc.
  destruct (commit memory_db memory_batches) as [db' [[]|e|w]]; [|exfalso|done].
  - exists db'. split; [done|apply Hc].
  - destruct Hc as [[[]|[Hn _]] _]. apply Hn. cbn. lia.
Defined.

Definition collect_keys (l : list bytes) (k _ : bytes) : Result (list bytes) := Ok (l ++ [k]).

Lemma record_reads_witness :
  db_inv memory_db1 [7] memory_record Bookmark_default
  ∧ get_record memory_db1 [1] = Ok (Some [5; 6])
  ∧ scan_prefix memory_db1 [1] collect_keys [] = Ok [[1]]
  ∧ next_after memory_db1 [1] None = Ok (Some ([1], [5; 6]))
  ∧ posts (λ _, False) (bookmark memory_db1) (λ r, r = Bookmark_default).
Proof.
  split; [apply memory_db1_inv|]. do 3 (split; [vm_compute; reflexivity|]).
  by destruct (record_reads memory_db1 [7] memory_record _ [1] [1] collect_keys [] None memory_db1_inv) as (_ & Hb & _).
Defined.

Lemma record_remove_if_value_witness :
  db_inv memory_db1 [7] memory_record Bookmark_default
  ∧ ∃ db', remove_if_value memory_db1 [1] [5; 6] = (db', Ok true)
      ∧ db_inv db' [7] (delete [1] memory_record) Bookmark_default.
Proof.
  split; [apply memory_db1_inv|].
  pose proof (record_remove_if_value memory_db1 [7] memory_record Bookmark_default [1] [5; 6] memory_db1_inv) as Hr.
  assert (memory_record !! [1] = Some [5; 6]) as Hk by (by vm_compute).
  assert ((remove_if_value memory_db1 [1] [5; 6]).2 = Ok true) as Ho by (vm_compute; reflexivity).
  destruct (remove_if_value memory_db1 [1] [5; 6]) as [db' r]. cbn in Ho. subst r.
  exists db'. split; [done|apply Hr].
Defined.

Lemma record_open_witness :
  db_inv memory_db1 [7] memory_record Bookmark_default
  ∧ match open_store ["chunks"; "metadata"; "records"]%string memory_db1 [7] with
    | (db', Ok _) => [7] = [7] ∧ db' = memory_db1
    | (db', Err e) => db' = memory_db1 ∧ (False ∨ ([7] ≠ [7] ∧ code e = CorruptStorage))
    | (_, Abort _) => False
    end.
Proof.
  split; [apply memory_db1_inv|].
  exact (proj1 record_open memory_db1 [7] memory_record Bookmark_default
    ["chunks"; "metadata"; "records"]%string [7] memory_db1_inv eq_refl).
Defined.

Lemma record_read_authentic_witness :
  read_record (∅ : gmap (bytes * Z) bytes) [1] (header_of [5; 6]) = Ok [5; 6]
  ∧ ∃ count, decode_header (header_of [5; 6]) = Ok (zlen [5; 6], count, blake3 [5; 6]).
Proof.
  assert (read_record (∅ : gmap (bytes * Z) bytes) [1] (header_of [5; 6]) = Ok [5; 6]) as Hr
    by (vm_compute; reflexivity).
  split; [exact Hr|]. exact (record_read_authentic (∅ : gmap (bytes * Z) bytes) [1] _ _ Hr).
Defined.
