(* ===== verification/Segment.v ===== *)
(** * Segment store: [crates/storage/src/segment.rs]

    Immutable payload collections named by the hash of their content.  New
    payloads are staged in memory with claims on them; the operations that
    make them durable join the record batch of the metadata that refers to
    them, and staging ends when that batch is committed.

    The calls of one store are modelled one at a time (each takes the store
    and returns it), so the identity of an [Arc] is the number it was
    allocated under.  [postcard] and [hex] are third-party code: [Codecs]
    lists the functions used of them, [CodecsSpec] their documented
    behaviour.  A [blake3] hasher is the bytes fed to it so far. *)

From stdpp Require Import prelude gmap strings sorting.
From Stdlib Require Import ZArith Lia.
From S2P Require Import Prelude Machine Types Document Records.

Local Open Scope Z_scope.

(** [b"\xffpayload/"]. *)
Definition PREFIX : bytes := [255; 112; 97; 121; 108; 111; 97; 100; 47].

Inductive SegmentFamily :=
| Nodes | Edges | NodeTemporal | EdgeTemporal | Embeddings
| BrokerPayload | BrokerReferences | BrokerCoordination | Security | Catalog.

#[global] Instance SegmentFamily_eq_dec : EqDecision SegmentFamily.
Proof. solve_decision. Defined.

(** [family as u8]. *)
Definition family_as_u8 (family : SegmentFamily) : Z :=
  match family with
  | Nodes => 0 | Edges => 1 | NodeTemporal => 2 | EdgeTemporal => 3 | Embeddings => 4
  | BrokerPayload => 5 | BrokerReferences => 6 | BrokerCoordination => 7
  | Security => 8 | Catalog => 9
  end.

Record SegmentRecord := mkSegmentRecord { kind : Z; payload : bytes }.

(** A project identity is the bytes of its UUID; a file name those of its text. *)
Record SegmentDescriptor := mkDescriptor {
  family : SegmentFamily;
  project_id : option bytes;
  file_name : bytes;
  descriptor_bytes : Z;
  checksum : bytes;
}.

#[global] Instance SegmentDescriptor_eq_dec : EqDecision SegmentDescriptor.
Proof. solve_decision. Defined.

Record SegmentRecordLocation := mkLocation { offset : Z; location_bytes : Z }.

#[global] Instance SegmentRecordLocation_eq_dec : EqDecision SegmentRecordLocation.
Proof. solve_decision. Defined.

Record Manifest := mkManifest { descriptor : SegmentDescriptor; manifest_records : Z }.

Record Claims := mkClaims { unbound : Z; latest_bound : option Bookmark }.

(** [identity] tells allocations apart ([Arc::ptr_eq]). *)
Record StagedPayload := mkStaged {
  identity : nat;
  staged_descriptor : SegmentDescriptor;
  staged_records : list (SegmentRecordLocation * bytes);
  claims : Claims;
}.

Record PendingPayloads := mkPending {
  payloads : gmap bytes StagedPayload;
  publications : gset (Z * bytes);
}.

Class Codecs := {
  postcard_record : SegmentRecord → outcome string bytes;
  postcard_record_from : bytes → outcome string SegmentRecord;
  postcard_manifest : Manifest → outcome string bytes;
  postcard_manifest_from : bytes → outcome string Manifest;
  hex_encode : bytes → bytes;
}.

(** [Result::map_err]. *)
Definition map_err {E F A} (f : E → F) (m : outcome E A) : outcome F A :=
  match m with Ok a => Ok a | Err e => Err (f e) | Abort w => Abort w end.

(** ** Keys and identities *)

Definition payload_prefix (d : SegmentDescriptor) : bytes := PREFIX ++ checksum d.
(** [b'm'] and [b'r']. *)
Definition manifest_key (d : SegmentDescriptor) : bytes := payload_prefix d ++ [109].
Definition record_prefix (d : SegmentDescriptor) : bytes := payload_prefix d ++ [114].
Definition record_key (d : SegmentDescriptor) (offset : Z) : bytes :=
  record_prefix d ++ be_bytes 8 offset.

Definition is_manifest_key (key : bytes) : bool :=
  starts_with key PREFIX && (zlen key =? zlen PREFIX + 33) && bool_decide (last key = Some 109).

Definition family_requires_project (family : SegmentFamily) : bool :=
  match family with Security | Catalog => false | _ => true end.

(** The bytes hashed before the records: [b"IronGraph-payload-1"], the family
    and the project. *)
Definition payload_hasher (family : SegmentFamily) (project : option bytes) : bytes :=
  [73; 114; 111; 110; 71; 114; 97; 112; 104; 45; 112; 97; 121; 108; 111; 97; 100; 45; 49]
  ++ [family_as_u8 family] ++ default [] project.

Definition corrupt_owned (m : string) : Error := Error_new CorruptStorage m.

Section segment.
Context {T C : Type} `{Redb T C} `{Allocator} `{Codecs}.

Definition validate_descriptor (d : SegmentDescriptor) : Result unit :=
  if negb (bool_decide (file_name d = hex_encode (checksum d)))
     || negb (Bool.eqb (family_requires_project (family d)) (bool_decide (is_Some (project_id d))))
  then Err (corrupt "payload content identity is invalid")
  else Ok tt.

Definition decode_record (bs : bytes) : Result SegmentRecord :=
  map_err (λ e, corrupt_owned ("payload record: " +:+ e)) (postcard_record_from bs).

(** ** The store *)

(** A pinned payload keeps the staged bytes, or a read transaction on the
    database of that moment; [strong] counts the pins that share it. *)
Record PinnedPayload := mkPinned {
  pin_identity : nat;
  pin_descriptor : SegmentDescriptor;
  pin_staged : option StagedPayload;
  pin_reader : option (@Database T C);
  strong : nat;
}.

Record SegmentStore := mkStore {
  database : @Database T C;
  pending : PendingPayloads;
  pins : gmap bytes PinnedPayload;
  next_identity : nat;
}.

Definition with_records (db : Database) : SegmentStore := mkStore db (mkPending ∅ ∅) ∅ 0.

Definition set_pending (s : SegmentStore) (p : PendingPayloads) : SegmentStore :=
  mkStore (database s) p (pins s) (next_identity s).
Definition set_payload (p : PendingPayloads) (name : bytes) (staged : StagedPayload) : PendingPayloads :=
  mkPending (<[name := staged]> (payloads p)) (publications p).
Definition set_claims (staged : StagedPayload) (c : Claims) : StagedPayload :=
  mkStaged (identity staged) (staged_descriptor staged) (staged_records staged) c.

(** ** Staging a payload *)

(** The loop over [record_at]: hashed bytes, length and records so far. *)
Fixpoint encode_records (count : nat) (at_ : Z) (record_at : Z → Result SegmentRecord)
    (hash : bytes) (total : Z) (acc : list (SegmentRecordLocation * bytes))
    : Result (bytes * Z * list (SegmentRecordLocation * bytes)) :=
  match count with
  | O => Ok (hash, total, acc)
  | S count =>
      record ← record_at at_;
      encoded ← map_err (λ e, Error_invalid_data ("payload encoding: " +:+ e)) (postcard_record record);
      length ← ok_or (u64_try_from (zlen encoded)) (Error_invalid_data "payload length overflow");
      let location := mkLocation total length in
      total ← ok_or (n ← checked_add u64_max total length; checked_add u64_max n 8)
                (Error_invalid_data "payload extent overflow");
      encode_records count (at_ + 1) record_at (hash ++ le_bytes 8 length ++ encoded) total
        (acc ++ [(location, encoded)])
  end.

Definition write_immutable_streaming_indexed (s : SegmentStore) (family : SegmentFamily)
    (project : option bytes) (count : Z) (record_at : Z → Result SegmentRecord)
    : SegmentStore * Result (SegmentDescriptor * list SegmentRecordLocation) :=
  if negb (Bool.eqb (family_requires_project family) (bool_decide (is_Some project))) then
    (s, Err (Error_invalid_data "payload project scope does not match its family"))
  else
    match encode_records (Z.to_nat count) 0 record_at (payload_hasher family project) 0 [] with
    | Ok (hash, total, records) =>
        let checksum := blake3 hash in
        let descriptor := mkDescriptor family project (hex_encode checksum) total checksum in
        let staged := mkStaged (next_identity s) descriptor records (mkClaims 1 None) in
        let s := mkStore (database s) (pending s) (pins s) (S (next_identity s)) in
        match payloads (pending s) !! file_name descriptor with
        | Some existing =>
            if negb (bool_decide (staged_descriptor existing = descriptor)) then
              (s, Err (corrupt "payload content identity collision"))
            else
              match checked_add usize_max (unbound (claims existing)) 1 with
              | None => (s, Err (Error_internal "pending payload claim overflow"))
              | Some n =>
                  (set_pending s (set_payload (pending s) (file_name descriptor)
                     (set_claims existing (mkClaims n (latest_bound (claims existing))))),
                   Ok (descriptor, map fst records))
              end
        | None =>
            (set_pending s (set_payload (pending s) (file_name descriptor) staged),
             Ok (descriptor, map fst records))
        end
    | Err e => (s, Err e)
    | Abort w => (s, Abort w)
    end.

Definition write_immutable_streaming (s : SegmentStore) (family : SegmentFamily)
    (project : option bytes) (count : Z) (record_at : Z → Result SegmentRecord)
    : SegmentStore * Result SegmentDescriptor :=
  let '(s, written) := write_immutable_streaming_indexed s family project count record_at in
  (s, fst <$> written).

Definition write_immutable (s : SegmentStore) (family : SegmentFamily) (project : option bytes)
    (records : list SegmentRecord) : SegmentStore * Result SegmentDescriptor :=
  write_immutable_streaming s family project (zlen records)
    (λ i, ok_or (get records i) (Error_internal "payload record disappeared")).

(** ** Publishing *)

(** The operations that make one staged payload durable. *)
Definition payload_operations (d : SegmentDescriptor) (staged : StagedPayload) : Result (list RecordOp) :=
  let manifest := mkManifest d (zlen (staged_records staged)) in
  let puts := map (λ '(location, value), Put (record_key d (offset location)) value) (staged_records staged) in
  value ← map_err (λ e, Error_invalid_data e) (postcard_manifest manifest);
  Ok (puts ++ [Put (manifest_key d) value]).

(** The first loop of [pending_operations]. *)
Fixpoint capture (p : PendingPayloads) (descriptors : list SegmentDescriptor) (seen : gset bytes)
    (operations : list RecordOp) (captured : list (SegmentDescriptor * StagedPayload))
    : Result (list RecordOp * list (SegmentDescriptor * StagedPayload)) :=
  match descriptors with
  | [] => Ok (operations, captured)
  | d :: descriptors =>
      _ ← validate_descriptor d;
      if bool_decide (file_name d ∈ seen) then capture p descriptors seen operations captured
      else
        let seen := {[file_name d]} ∪ seen in
        match payloads p !! file_name d with
        | None => capture p descriptors seen operations captured
        | Some staged =>
            if negb (bool_decide (staged_descriptor staged = d)) then
              Err (corrupt "staged payload identity differs")
            else if unbound (claims staged) =? 0 then
              Err (Error_internal "payload publication has no unbound claim")
            else
              ops ← payload_operations d staged;
              capture p descriptors seen (operations ++ ops) (captured ++ [(d, staged)])
        end
  end.

(** One claim of a payload becomes bound to a publication. *)
Definition bind_claim (p : PendingPayloads) (d : SegmentDescriptor) (staged : StagedPayload)
    (publication : Bookmark) : Result PendingPayloads :=
  match payloads p !! file_name d with
  | None => Err (Error_internal "staged payload changed before publication")
  | Some current =>
      if negb (identity current =? identity staged)%nat then
        Err (Error_internal "staged payload changed before publication")
      else
        let c := claims current in
        n ← ok_or (checked_sub (unbound c) 1) (Error_internal "payload publication has no unbound claim");
        if match latest_bound c with Some latest => index latest <? index publication | None => true end then
          let pubs := match latest_bound c with
                      | Some old => publications p ∖ {[(index old, file_name d)]}
                      | None => publications p
                      end in
          Ok (mkPending (<[file_name d := set_claims current (mkClaims n (Some publication))]> (payloads p))
                ({[(index publication, file_name d)]} ∪ pubs))
        else
          Ok (set_payload p (file_name d) (set_claims current (mkClaims n (latest_bound c))))
  end.

(** The second loop: payloads bound before a failure stay bound. *)
Fixpoint bind_captured (p : PendingPayloads) (captured : list (SegmentDescriptor * StagedPayload))
    (publication : Bookmark) : PendingPayloads * Result unit :=
  match captured with
  | [] => (p, Ok tt)
  | (d, staged) :: captured =>
      match bind_claim p d staged publication with
      | Ok p => bind_captured p captured publication
      | Err e => (p, Err e)
      | Abort w => (p, Abort w)
      end
  end.

Definition pending_operations (s : SegmentStore) (descriptors : list SegmentDescriptor)
    (publication : Bookmark) : SegmentStore * Result (list RecordOp) :=
  if (term publication =? 0) || (index publication =? 0) then
    (s, Err (Error_invalid_data "payload publication must be nonzero"))
  else
    match capture (pending s) descriptors ∅ [] [] with
    | Ok (operations, captured) =>
        let '(p, bound) := bind_captured (pending s) captured publication in
        (set_pending s p, _ ← bound; Ok operations)
    | Err e => (s, Err e)
    | Abort w => (s, Abort w)
    end.

(** ** Retiring *)

(** The order of [(u64, String)]. *)
Definition publication_le (a b : Z * bytes) : bool :=
  match then_cmp (fst a ?= fst b) (lexZ (snd a) (snd b)) with Gt => false | _ => true end.

(** [BTreeSet::first]. *)
Definition first_publication (pubs : gset (Z * bytes)) : option (Z * bytes) :=
  foldr (λ x best, match best with
                   | Some y => if publication_le x y then Some x else Some y
                   | None => Some x
                   end) None (elements pubs).

(** One round of [release_committed_through]: whether to go on. *)
Definition release_round (p : PendingPayloads) (b : Bookmark) : PendingPayloads * Result bool :=
  match first_publication (publications p) with
  | None => (p, Ok false)
  | Some (at_, name) =>
      if index b <? at_ then (p, Ok false)
      else
        let pubs := publications p ∖ {[(at_, name)]} in
        match payloads p !! name with
        | None => (mkPending (payloads p) pubs, Err (Error_internal "indexed staged payload is absent"))
        | Some staged =>
            let c := mkClaims (unbound (claims staged)) None in
            (mkPending (if unbound c =? 0 then delete name (payloads p)
                        else <[name := set_claims staged c]> (payloads p)) pubs, Ok true)
        end
  end.

Fixpoint release_rounds (fuel : nat) (p : PendingPayloads) (b : Bookmark) : PendingPayloads * Result unit :=
  match fuel with
  | O => (p, Abort OutOfFuel)
  | S fuel =>
      match release_round p b with
      | (p, Ok true) => release_rounds fuel p b
      | (p, Ok false) => (p, Ok tt)
      | (p, Err e) => (p, Err e)
      | (p, Abort w) => (p, Abort w)
      end
  end.

(** Every round that goes on removes a publication. *)
Definition release_committed_through (s : SegmentStore) (b : Bookmark) : SegmentStore * Result unit :=
  let '(p, r) := release_rounds (S (size (publications (pending s)))) (pending s) b in
  (set_pending s p, r).

Definition release_claim (p : PendingPayloads) (name : bytes) : PendingPayloads :=
  match payloads p !! name with
  | None => p
  | Some staged =>
      let c := mkClaims (saturating_sub (unbound (claims staged)) 1) (latest_bound (claims staged)) in
      if (unbound c =? 0) && negb (bool_decide (is_Some (latest_bound c)))
      then mkPending (delete name (payloads p)) (publications p)
      else set_payload p name (set_claims staged c)
  end.

Definition discard_staged (s : SegmentStore) (d : SegmentDescriptor) : SegmentStore :=
  set_pending s (release_claim (pending s) (file_name d)).

Fixpoint reclaim_loop (candidates : list SegmentDescriptor) (live seen : gset bytes)
    (operations : list RecordOp) : Result (list RecordOp) :=
  match candidates with
  | [] => Ok operations
  | d :: candidates =>
      _ ← validate_descriptor d;
      if negb (bool_decide (file_name d ∈ live)) && negb (bool_decide (file_name d ∈ seen)) then
        reclaim_loop candidates live ({[file_name d]} ∪ seen) (operations ++ [DeletePrefix (payload_prefix d)])
      else reclaim_loop candidates live seen operations
  end.

Definition reclamation_operations (candidates : list SegmentDescriptor) (live : gset bytes)
    : Result (list RecordOp) :=
  reclaim_loop candidates live ∅ [].

(** ** Reading *)

(** The least staged name, or the least above [previous]. *)
Definition next_name (p : PendingPayloads) (previous : option bytes) : option bytes :=
  foldr (λ name best,
           if match previous with Some last => bool_decide (lexZ last name = Lt) | None => true end then
             match best with
             | Some other => if bool_decide (lexZ name other = Lt) then Some name else Some other
             | None => Some name
             end
           else best) None (map fst (map_to_list (payloads p))).

Fixpoint staged_names (fuel : nat) (p : PendingPayloads) (previous : option bytes) (names : gset bytes)
    : Result (gset bytes) :=
  match fuel with
  | O => Abort OutOfFuel
  | S fuel =>
      match next_name p previous with
      | None => Ok names
      | Some name => staged_names fuel p (Some name) ({[name]} ∪ names)
      end
  end.

(** [names.into_iter().collect()] of a [BTreeSet]. *)
Definition sorted_names (names : gset bytes) : list bytes :=
  merge_sort (λ a b, lexZ a b ≠ Gt) (elements names).

Definition immutable_file_names (s : SegmentStore) : Result (list bytes) :=
  names ← staged_names (S (size (payloads (pending s)))) (pending s) None ∅;
  names ← scan_prefix (database s) PREFIX
            (λ (names : gset bytes) key _,
               if is_manifest_key key then
                 sum ← index_range key (zlen PREFIX) (zlen PREFIX + 32);
                 Ok ({[hex_encode sum]} ∪ names)
               else Ok names) names;
  Ok (sorted_names names).

Definition check_manifest (d : SegmentDescriptor) (found : option bytes) : Result Manifest :=
  encoded ← ok_or found (corrupt "payload descriptor is absent");
  manifest ← map_err (λ e, corrupt_owned ("payload manifest: " +:+ e)) (postcard_manifest_from encoded);
  if negb (bool_decide (descriptor manifest = d)) then Err (corrupt "payload manifest identity differs")
  else Ok manifest.

Definition manifest (s : SegmentStore) (d : SegmentDescriptor) : Result Manifest :=
  found ← get_record (database s) (manifest_key d);
  check_manifest d found.

Definition manifest_from_reader (snapshot : Database) (d : SegmentDescriptor) : Result Manifest :=
  found ← reader_get snapshot (manifest_key d);
  check_manifest d found.

Fixpoint visit_staged {St} (visitor : St → SegmentRecord → Result St)
    (records : list (SegmentRecordLocation * bytes)) (st : St) : Result St :=
  match records with
  | [] => Ok st
  | (_, encoded) :: records =>
      record ← decode_record encoded;
      st ← visitor st record;
      visit_staged visitor records st
  end.

Definition try_for_each_record {St} (s : SegmentStore) (d : SegmentDescriptor)
    (visitor : St → SegmentRecord → Result St) (st : St) : Result St :=
  _ ← validate_descriptor d;
  match payloads (pending s) !! file_name d with
  | Some staged =>
      if negb (bool_decide (staged_descriptor staged = d)) then Err (corrupt "staged payload identity differs")
      else visit_staged visitor (staged_records staged) st
  | None =>
      manifest ← manifest s d;
      '(count, st) ← scan_prefix (database s) (record_prefix d)
                       (λ '(count, st) _ encoded,
                          record ← decode_record encoded;
                          st ← visitor st record;
                          Ok (count + 1, st)) (0, st);
      if negb (count =? manifest_records manifest) then Err (corrupt "payload record count mismatch")
      else Ok st
  end.

Definition read (s : SegmentStore) (d : SegmentDescriptor) : Result (list SegmentRecord) :=
  try_for_each_record s d (λ records record, Ok (records ++ [record])) [].

(** [slice::binary_search_by_key] on the offsets: the position of the last
    element that is not above, found by halving; [Err] unless it is equal. *)
Fixpoint search_base (fuel : nat) (offsets : list Z) (target base size : Z) : Z :=
  match fuel with
  | S fuel =>
      if 1 <? size then
        let half := size / 2 in
        let mid := base + half in
        let base := if default 0 (get offsets mid) <=? target then mid else base in
        search_base fuel offsets target base (size - half)
      else base
  | O => base
  end.

Definition binary_search_offset (records : list (SegmentRecordLocation * bytes)) (target : Z) : option Z :=
  let offsets := map (λ r, offset r.1) records in
  match offsets with
  | [] => None
  | _ =>
      let base := search_base (length offsets) offsets target 0 (zlen offsets) in
      if default 0 (get offsets base) =? target then Some base else None
  end.

Definition read_staged_at (d : SegmentDescriptor) (staged : StagedPayload)
    (location : SegmentRecordLocation) : Result SegmentRecord :=
  if negb (bool_decide (staged_descriptor staged = d)) then Err (corrupt "staged payload identity differs")
  else
    at_ ← ok_or (binary_search_offset (staged_records staged) (offset location))
            (corrupt "payload record offset is absent");
    '(extent, encoded) ← index_at (staged_records staged) at_;
    if negb (bool_decide (extent = location)) then Err (corrupt "payload record length differs")
    else decode_record encoded.

Definition read_record_at (s : SegmentStore) (d : SegmentDescriptor) (location : SegmentRecordLocation)
    : Result SegmentRecord :=
  _ ← validate_descriptor d;
  if match checked_add u64_max (offset location) (location_bytes location) with
     | Some end_ => descriptor_bytes d <? end_
     | None => true
     end
  then Err (corrupt "payload record extent exceeds its descriptor")
  else
    let pinned := pins s !! file_name d in
    let staged := match (pin ← pinned; pin_staged pin) with
                  | Some staged => Some staged
                  | None => payloads (pending s) !! file_name d
                  end in
    match staged with
    | Some staged => read_staged_at d staged location
    | None =>
        let key := record_key d (offset location) in
        found ← match (pin ← pinned; pin_reader pin) with
                | Some snapshot => reader_get snapshot key
                | None => get_record (database s) key
                end;
        encoded ← ok_or found (Error_new RetentionExpired "requested payload record was reclaimed");
        if negb (zlen encoded =? location_bytes location) then Err (corrupt "payload record length differs")
        else decode_record encoded
    end.

(** The visitor of [validate]: length, hashed bytes and number of records. *)
Definition validate_entry (prefix : bytes) (st : Z * bytes * Z) (key value : bytes)
    : Result (Z * bytes * Z) :=
  let '(total, hash, count) := st in
  offset ← ok_or (b ← get_range key (zlen prefix) (zlen key);
                  if zlen b =? 8 then Some (from_be b) else None)
             (corrupt "payload key offset is invalid");
  if negb (offset =? total) then Err (corrupt "payload record offsets are discontinuous")
  else
    let length := zlen value in
    total ← ok_or (n ← checked_add u64_max total length; checked_add u64_max n 8)
              (corrupt "payload extent overflow");
    Ok (total, hash ++ le_bytes 8 length ++ value, count + 1).

Definition validate (s : SegmentStore) (d : SegmentDescriptor) : Result unit :=
  _ ← validate_descriptor d;
  match payloads (pending s) !! file_name d with
  | Some staged =>
      if negb (bool_decide (staged_descriptor staged = d)) then Err (corrupt "staged payload identity differs")
      else Ok tt
  | None =>
      manifest ← manifest s d;
      '(total, hash, count) ← scan_prefix (database s) (record_prefix d) (validate_entry (record_prefix d))
                                (0, payload_hasher (family d) (project_id d), 0);
      if negb (total =? descriptor_bytes d) || negb (count =? manifest_records manifest)
         || negb (bool_decide (blake3 hash = checksum d))
      then Err (corrupt "payload checksum, length or record count mismatch")
      else Ok tt
  end.

(** ** Pins *)

(** A pin is the name it was taken under: it shares the registered payload. *)
Definition share (s : SegmentStore) (name : bytes) (pinned : PinnedPayload) : SegmentStore :=
  mkStore (database s) (pending s)
    (<[name := mkPinned (pin_identity pinned) (pin_descriptor pinned) (pin_staged pinned) (pin_reader pinned)
                 (S (strong pinned))]> (pins s)) (next_identity s).

Definition pin (s : SegmentStore) (d : SegmentDescriptor) : SegmentStore * Result bytes :=
  match validate_descriptor d with
  | Ok _ =>
      match pins s !! file_name d with
      | Some pinned =>
          if negb (bool_decide (pin_descriptor pinned = d)) then
            (s, Err (corrupt "pinned payload identity differs"))
          else (share s (file_name d) pinned, Ok (file_name d))
      | None =>
          let staged := payloads (pending s) !! file_name d in
          match
            (match staged with
             | Some payload =>
                 if negb (bool_decide (staged_descriptor payload = d)) then
                   Err (corrupt "staged payload identity differs")
                 else Ok None
             | None =>
                 snapshot ← reader (database s);
                 _ ← manifest_from_reader snapshot d;
                 Ok (Some snapshot)
             end)
          with
          | Ok snapshot =>
              let pinned := mkPinned (next_identity s) d staged snapshot 0 in
              (share (mkStore (database s) (pending s) (pins s) (S (next_identity s))) (file_name d) pinned,
               Ok (file_name d))
          | Err e => (s, Err e)
          | Abort w => (s, Abort w)
          end
      end
  | Err e => (s, Err e)
  | Abort w => (s, Abort w)
  end.

(** Dropping a pin; the last one removes the payload from the registry. *)
Definition unpin (s : SegmentStore) (name : bytes) : SegmentStore :=
  match pins s !! name with
  | None => s
  | Some pinned =>
      let rest :=
        match strong pinned with
        | S (S n) => <[name := mkPinned (pin_identity pinned) (pin_descriptor pinned) (pin_staged pinned)
                                 (pin_reader pinned) (S n)]> (pins s)
        | _ => delete name (pins s)
        end in
      mkStore (database s) (pending s) rest (next_identity s)
  end.

(** The store after a commit of record batches, made by the owner of the
    shared record store. *)
Definition commit_records (s : SegmentStore) (batches : list RecordBatch) : SegmentStore * Result unit :=
  let '(db, r) := commit (database s) batches in
  (mkStore db (pending s) (pins s) (next_identity s), r).
End segment.
