(* ===== verification/SegmentTheorems.v ===== *)
(** * Segment store: staging

    The invariant of the staged payloads, that every operation keeps it, and
    what publishing and retiring do to the claims. *)

From stdpp Require Import prelude gmap strings sorting.
From Stdlib Require Import ZArith Lia.
From S2P Require Import Prelude Machine Types Document Records RecordsTheorems RecordsStore Segment.

Local Open Scope Z_scope.
#[local] Set Warnings "-clear-no-such-hyp".

(** Documented behaviour of [postcard] and [hex]: what is encoded decodes to
    itself, vectors have at most [isize::MAX] bytes, and the hexadecimal text
    determines the bytes. *)
Class CodecsSpec `{Codecs} := {
  record_roundtrip r bs : postcard_record r = Ok bs → postcard_record_from bs = Ok r ∧ value_ok bs;
  manifest_roundtrip m bs : postcard_manifest m = Ok bs → postcard_manifest_from bs = Ok m ∧ value_ok bs;
  record_encode_safe r : aborts (postcard_record r) = false;
  record_decode_safe bs : aborts (postcard_record_from bs) = false;
  manifest_encode_safe m : aborts (postcard_manifest m) = false;
  manifest_decode_safe bs : aborts (postcard_manifest_from bs) = false;
  hex_inj a b : bytes_wf a → bytes_wf b → hex_encode a = hex_encode b → a = b;
}.

(** ** Payloads *)

(** Records laid out from an offset on, each followed by eight bytes. *)
Fixpoint extents (at_ : Z) (records : list (SegmentRecordLocation * bytes)) (total : Z) : Prop :=
  match records with
  | [] => at_ = total
  | (location, encoded) :: records =>
      location = mkLocation at_ (zlen encoded) ∧ extents (at_ + zlen encoded + 8) records total
  end.

Definition hashed (records : list (SegmentRecordLocation * bytes)) : bytes :=
  concat (map (λ r, le_bytes 8 (zlen r.2) ++ r.2) records).

Section payloads.
Context {T C : Type} `{RedbSpec T C} `{Allocator} `{CodecsSpec}.
Implicit Types (records : list (SegmentRecordLocation * bytes)) (d : SegmentDescriptor) (p : PendingPayloads).

(** The records are those the descriptor names. *)
Record payload_ok d records : Prop := {
  payload_sum : checksum d = blake3 (payload_hasher (family d) (project_id d) ++ hashed records);
  payload_name : file_name d = hex_encode (checksum d);
  payload_scope : family_requires_project (family d) = bool_decide (is_Some (project_id d));
  payload_extents : extents 0 records (descriptor_bytes d);
  payload_size : descriptor_bytes d ≤ u64_max;
  payload_records : Forall (λ r, value_ok r.2 ∧ ∃ v, postcard_record_from r.2 = Ok v) records;
}.

Lemma extents_app at_ records records' mid total :
  extents at_ records mid → extents mid records' total → extents at_ (records ++ records') total.
Proof.
  revert at_. induction records as [|[l e] records IH]; intros at_; cbn; [by intros ->|].
  intros [-> ?] ?. split; [done|]. auto.
Qed.

Lemma extents_le at_ records total : extents at_ records total → at_ + 8 * zlen records ≤ total.
Proof.
  revert at_. induction records as [|[l e] records IH]; intros at_; cbn.
  - intros ->. change (zlen (@nil (SegmentRecordLocation * bytes))) with 0. lia.
  - intros [_ Hx%IH]. rewrite zlen_cons. pose proof (zlen_nonneg e). lia.
Qed.

Lemma payload_valid d records : payload_ok d records → validate_descriptor d = Ok tt.
Proof.
  intros Hp. unfold validate_descriptor. rewrite bool_decide_eq_true_2 by apply Hp.
  rewrite (payload_scope _ _ Hp), eqb_reflx. done.
Qed.

Lemma hashed_inj at_ records records' total total' :
  extents at_ records total → extents at_ records' total' →
  Forall (λ r, value_ok r.2) records → Forall (λ r, value_ok r.2) records' →
  hashed records = hashed records' → records = records'.
Proof.
  revert at_ records'. induction records as [|[l e] records IH]; intros at_ [|[l' e'] records'] Hx Hx' Hv Hv' Hh; [done|..].
  1,2: by apply (f_equal length) in Hh; cbn in Hh; rewrite !length_app, length_le_bytes in Hh.
  destruct Hx as [-> Hx], Hx' as [-> Hx']. apply Forall_cons in Hv as [He Hv], Hv' as [He' Hv'].
  unfold hashed in Hh. cbn [map concat snd] in Hh. rewrite <- !(assoc_L (++)) in Hh.
  apply app_inj_1 in Hh as [Hl Hh]; [|by rewrite !length_le_bytes].
  apply (f_equal from_le) in Hl. unfold value_ok in *. cbn in He, He'.
  pose proof (zlen_nonneg e). pose proof (zlen_nonneg e').
  rewrite !from_le_8 in Hl by rlia. apply app_inj_1 in Hh as [-> Hh]; [|unfold zlen in Hl; lia].
  f_equal. by eapply IH.
Qed.

(** Two inputs on which the hash fails to tell payloads apart. *)
Definition collision (a b : bytes) : Prop := a ≠ b ∧ blake3 a = blake3 b.

(** Records with the same descriptor are the same, unless their hashes collide. *)
Lemma payload_unique d records records' :
  payload_ok d records → payload_ok d records' →
  records = records'
  ∨ collision (payload_hasher (family d) (project_id d) ++ hashed records)
      (payload_hasher (family d) (project_id d) ++ hashed records').
Proof.
  intros Hr Hr'. destruct (decide (hashed records = hashed records')) as [E|E].
  - left. eapply hashed_inj; [apply Hr|apply Hr'| | |done]; (eapply Forall_impl; [by eapply payload_records|]); naive_solver.
  - right. split; [by intros ?%app_inv_head|]. by rewrite <- (payload_sum _ _ Hr), <- (payload_sum _ _ Hr').
Qed.

(** What the encoding loop adds. *)
Lemma encode_records_spec count at_ record_at hash total acc :
  total ≤ u64_max → (∀ i, aborts (record_at i) = false) →
  post (encode_records count at_ record_at hash total acc) (λ '(hash', total', acc'), ∃ records values,
    acc' = acc ++ records ∧ hash' = hash ++ hashed records ∧ extents total records total' ∧ total' ≤ u64_max
    ∧ Forall2 (λ r v, postcard_record_from r.2 = Ok v ∧ value_ok r.2) records values
    ∧ length values = count
    ∧ ∀ i v, values !! i = Some v → record_at (at_ + Z.of_nat i) = Ok v).
Proof.
  intros Ht Hrec. revert at_ hash total acc Ht. induction count as [|count IH]; intros at_ hash total acc Ht; cbn [encode_records].
  { exists [], []. unfold hashed. cbn. rewrite !app_nil_r. split_and!; [done..|constructor|done|done]. }
  pose proof (Hrec at_) as Hsafe. destruct (record_at at_) as [v|e|w] eqn:Hv; [|done|done]. rbind.
  pose proof (record_encode_safe v) as Hes. destruct (postcard_record v) as [bs|e|w] eqn:Hbs; [|done|done].
  cbn [map_err]. rbind. destruct (record_roundtrip _ _ Hbs) as [Hdec Hok].
  unfold u64_try_from. destruct (_ <=? u64_max); rbind; [|done]. cbv zeta. unfold checked_add.
  destruct (Z.leb_spec (total + zlen bs) u64_max); cbn [mbind option_bind]; rbind; [|done].
  destruct (Z.leb_spec (total + zlen bs + 8) u64_max); rbind; [|done].
  eapply post_mono; [by apply IH|]. intros [[hash' total'] acc'] (records & values & -> & -> & Hx & Ht' & Hf & Hl & Hat).
  exists ((mkLocation total (zlen bs), bs) :: records), (v :: values). unfold hashed. cbn [map concat snd fst].
  split_and!; [by rewrite <- (assoc_L (++))|by rewrite <- !(assoc_L (++))|done|done| |by rewrite <- Hl|].
  - by constructor.
  - intros [|i] v' Hi; cbn in Hi; [injection Hi as <-; by rewrite Z.add_0_r|].
    rewrite <- (Hat i v' Hi). f_equal. lia.
Qed.

(** ** The staging invariant *)

Definition staged_ok (name : bytes) (st : StagedPayload) : Prop :=
  file_name (staged_descriptor st) = name ∧ payload_ok (staged_descriptor st) (staged_records st)
  ∧ 0 ≤ unbound (claims st) ≤ usize_max
  ∧ (unbound (claims st) ≠ 0 ∨ is_Some (latest_bound (claims st))).

(** The publication a payload waits for. *)
Definition bound_at p (name : bytes) : option Z :=
  st ← payloads p !! name; index <$> latest_bound (claims st).

Record pending_inv p : Prop := {
  inv_staged : map_Forall staged_ok (payloads p);
  inv_publications : ∀ i name, (i, name) ∈ publications p ↔ bound_at p name = Some i;
}.

Lemma bound_at_insert p name st name' pubs :
  bound_at (mkPending (<[name := st]> (payloads p)) pubs) name'
  = if decide (name = name') then index <$> latest_bound (claims st) else bound_at p name'.
Proof. unfold bound_at. cbn. case_decide as E; [subst; by rewrite lookup_insert_eq|by rewrite lookup_insert_ne]. Qed.

Lemma bound_at_delete p name name' pubs :
  bound_at (mkPending (delete name (payloads p)) pubs) name'
  = if decide (name = name') then None else bound_at p name'.
Proof. unfold bound_at. cbn. case_decide as E; [subst; by rewrite lookup_delete_eq|by rewrite lookup_delete_ne]. Qed.

Lemma empty_inv : pending_inv (mkPending ∅ ∅).
Proof. split; [apply map_Forall_empty|]. intros i name. unfold bound_at. cbn. rewrite lookup_empty. set_solver. Qed.

(** Replacing a payload's claims without changing its publication. *)
Lemma inv_insert p name st :
  pending_inv p → staged_ok name st → index <$> latest_bound (claims st) = bound_at p name →
  pending_inv (set_payload p name st).
Proof.
  intros [Hs Hp] Hok Hb. split; [by apply map_Forall_insert_2|].
  intros i name'. unfold set_payload. rewrite bound_at_insert. cbn [publications]. rewrite Hp.
  case_decide as E; [by subst; rewrite Hb|done].
Qed.

(** Removing a payload that waits for nothing. *)
Lemma inv_delete p name :
  pending_inv p → bound_at p name = None → pending_inv (mkPending (delete name (payloads p)) (publications p)).
Proof.
  intros [Hs Hp] Hb. split; [by apply map_Forall_delete|]. intros i name'. rewrite bound_at_delete.
  cbn [publications]. rewrite Hp. case_decide as E; [subst; by rewrite Hb|done].
Qed.

(** ** Writing *)

(** A payload whose records decode to the given values. *)
Definition decodes records (values : list SegmentRecord) : Prop :=
  Forall2 (λ r v, postcard_record_from r.2 = Ok v ∧ value_ok r.2) records values.

Definition written_ok (s : SegmentStore (T := T) (C := C)) family project count record_at : Prop :=
  match write_immutable_streaming_indexed s family project count record_at with
  | (s', Ok (d, locations)) =>
      pending_inv (pending s')
      ∧ ∃ records values st,
          locations = map fst records ∧ payload_ok d records ∧ decodes records values
          ∧ length values = Z.to_nat count
          ∧ (∀ i v, values !! i = Some v → record_at (Z.of_nat i) = Ok v)
          ∧ payloads (pending s') !! file_name d = Some st ∧ staged_descriptor st = d
          ∧ unbound (claims st) ≠ 0
          ∧ (staged_records st = records
             ∨ collision (payload_hasher (Segment.family d) (project_id d) ++ hashed (staged_records st))
                 (payload_hasher (Segment.family d) (project_id d) ++ hashed records))
  | (s', Err _) => pending s' = pending s
  | (_, Abort _) => False
  end.

Lemma write_spec s family project count record_at :
  pending_inv (pending s) → (∀ i, aborts (record_at i) = false) →
  written_ok s family project count record_at.
Proof.
  intros Hinv Hrec. unfold written_ok, write_immutable_streaming_indexed.
  destruct (eqb _ _) eqn:Hscope; cbn [negb]; [|done]. apply eqb_prop in Hscope.
  pose proof (encode_records_spec (Z.to_nat count) 0 record_at (payload_hasher family project) 0 []
    ltac:(rlia) Hrec) as He.
  destruct (encode_records _ _ _ _ _ _) as [[[hash total] records]|e|w]; [|done|done].
  destruct He as (records' & values & Hr & -> & Hx & Ht & Hf & Hl & Hat). cbn [app] in Hr. subst records'. cbv zeta.
  set (d := mkDescriptor _ _ _ _ _). cbn [pending payloads].
  assert (payload_ok d records) as Hd.
  { split; [done..|]. apply Forall_lookup. intros i r Hi.
    destruct (Forall2_lookup_l _ _ _ _ _ Hf Hi) as (v & _ & Hv & ?). eauto. }
  destruct (payloads (pending s) !! file_name d) as [existing|] eqn:Hex.
  - clear Hscope. case_bool_decide as Hsame; cbn [negb]; [|done]. unfold checked_add.
    pose proof (inv_staged _ Hinv _ _ Hex) as (Hn & Hok & Hu & Hc).
    destruct (Z.leb_spec (unbound (claims existing) + 1) usize_max); [|done].
    split.
    + apply inv_insert; [done| |by unfold bound_at; rewrite Hex].
      split_and!; [done|done|cbn; lia..|left; cbn; lia].
    + assert (payload_ok d (staged_records existing)) as Hold by (by rewrite <- Hsame).
      exists records, values. eexists. cbn [pending payloads set_pending set_payload]. rewrite lookup_insert_eq.
      split_and!; [done..|cbn; lia|]. exact (payload_unique d _ _ Hold Hd).
  - split.
    + apply inv_insert; [done| |unfold bound_at; by rewrite Hex]. split_and!; [done|done|cbn; rlia..|by left].
    + exists records, values. eexists. cbn. rewrite lookup_insert_eq. split_and!; [done..|]. by left.
Qed.

(** ** Publishing *)

(** The claims of a payload after one of them is bound to a publication. *)
Definition bound_claims (publication : Bookmark) (c : Claims) : Claims :=
  mkClaims (unbound c - 1)
    (match latest_bound c with
     | Some latest => if index latest <? index publication then Some publication else Some latest
     | None => Some publication
     end).

Lemma bind_claim_spec p d st publication :
  pending_inv p → payloads p !! file_name d = Some st → unbound (claims st) ≠ 0 →
  ∃ p', bind_claim p d st publication = Ok p' ∧ pending_inv p'
    ∧ payloads p' = <[file_name d := set_claims st (bound_claims publication (claims st))]> (payloads p).
Proof.
  intros Hinv Hst Hu. pose proof (inv_staged _ Hinv _ _ Hst) as (Hn & Hok & Hr & Hc).
  unfold bind_claim. rewrite Hst, Nat.eqb_refl. cbn [negb]. unfold checked_sub.
  rewrite (proj2 (Z.leb_le _ _)) by lia. rbind.
  assert (bound_at p (file_name d) = index <$> latest_bound (claims st)) as Hb by (unfold bound_at; by rewrite Hst).
  unfold bound_claims. destruct (latest_bound (claims st)) as [latest|] eqn:Hl.
  - destruct (Z.ltb_spec (index latest) (index publication)).
    + eexists. split; [done|]. split; [|done]. split.
      * apply map_Forall_insert_2; [|apply Hinv]. split_and!; [done|done|cbn; lia..|right; by eexists].
      * intros i name. rewrite bound_at_insert. cbn [publications claims latest_bound set_claims fmap option_fmap option_map].
        rewrite elem_of_union, elem_of_singleton, elem_of_difference, (inv_publications _ Hinv), elem_of_singleton.
        case_decide as E; [subst name; rewrite Hb; cbn; naive_solver|naive_solver].
    + eexists. split; [done|]. split; [|done]. apply inv_insert; [done| |by cbn; rewrite Hb].
      split_and!; [done|done|cbn; lia..|right; by eexists].
  - eexists. split; [done|]. split; [|done]. split.
    + apply map_Forall_insert_2; [|apply Hinv]. split_and!; [done|done|cbn; lia..|right; by eexists].
    + intros i name. rewrite bound_at_insert. cbn [publications claims latest_bound set_claims fmap option_fmap option_map].
      rewrite elem_of_union, elem_of_singleton, (inv_publications _ Hinv).
      case_decide as E; [subst name; rewrite Hb; cbn; naive_solver|naive_solver].
Qed.

Definition captured_names (captured : list (SegmentDescriptor * StagedPayload)) : list bytes :=
  map (λ x, file_name x.1) captured.

Definition captured_ok p (captured : list (SegmentDescriptor * StagedPayload)) : Prop :=
  NoDup (captured_names captured)
  ∧ Forall (λ x, payloads p !! file_name x.1 = Some x.2 ∧ staged_descriptor x.2 = x.1
                 ∧ unbound (claims x.2) ≠ 0) captured.

(** The payloads after one claim of each captured one is bound. *)
Definition bound_payload p publication (names : list bytes) (name : bytes) : option StagedPayload :=
  (λ st, if decide (name ∈ names) then set_claims st (bound_claims publication (claims st)) else st)
  <$> payloads p !! name.

Lemma bind_captured_spec p captured publication :
  pending_inv p → captured_ok p captured →
  ∃ p', bind_captured p captured publication = (p', Ok tt) ∧ pending_inv p'
    ∧ ∀ name, payloads p' !! name = bound_payload p publication (captured_names captured) name.
Proof.
  revert p. induction captured as [|[d st] captured IH]; intros p Hinv [Hnd Hall]; cbn [bind_captured].
  { exists p. split_and!; [done|done|]. intros name. unfold bound_payload. cbn. by destruct (payloads p !! name). }
  apply NoDup_cons in Hnd as [Hnin Hnd]. change (file_name d ∉ captured_names captured) in Hnin.
  apply Forall_cons in Hall as [(Hst & Hd & Hu) Hall]. cbn in Hst, Hd, Hu.
  destruct (bind_claim_spec p d st publication Hinv Hst Hu) as (p1 & -> & Hinv1 & Hp1).
  destruct (IH p1 Hinv1) as (p' & -> & Hinv' & Hp').
  { split; [done|]. rewrite Forall_forall in *. intros x Hx. destruct (Hall x Hx) as (Hx1 & Hx2). split; [|done].
    rewrite Hp1, lookup_insert_ne; [done|]. intros E. apply Hnin. rewrite E.
    apply list_elem_of_fmap. by exists x. }
  exists p'. split_and!; [done|done|]. intros name. rewrite Hp'. unfold bound_payload. rewrite Hp1.
  destruct (decide (name = file_name d)) as [->|Hne].
  - rewrite lookup_insert_eq, Hst. cbn. rewrite decide_False, decide_True by (done || set_solver). done.
  - rewrite lookup_insert_ne by done. destruct (payloads p !! name) as [st'|]; [|done].
    apply (f_equal Some). apply decide_ext.
    change (captured_names ((d, st) :: captured)) with (file_name d :: captured_names captured).
    rewrite elem_of_cons. tauto.
Qed.

Lemma payload_operations_safe d st : aborts (payload_operations d st) = false.
Proof.
  unfold payload_operations. pose proof (manifest_encode_safe (mkManifest d (zlen (staged_records st)))) as Hs.
  by destruct (postcard_manifest _).
Qed.

Lemma validate_descriptor_safe d : aborts (validate_descriptor d) = false.
Proof. unfold validate_descriptor. by destruct (_ || _). Qed.

(** The operations of captured payloads, in order. *)
Definition operations_of (captured : list (SegmentDescriptor * StagedPayload)) (ops : list RecordOp) : Prop :=
  ∃ opss, ops = concat opss ∧ Forall2 (λ x o, payload_operations x.1 x.2 = Ok o) captured opss.

Lemma capture_spec p descriptors seen ops captured :
  post (capture p descriptors seen ops captured) (λ '(ops', captured'), ∃ more new,
    captured' = captured ++ more ∧ ops' = ops ++ new ∧ operations_of more new ∧ captured_ok p more
    ∧ Forall (λ name, name ∉ seen) (captured_names more)
    ∧ ∀ d, d ∈ descriptors → file_name d ∉ seen → is_Some (payloads p !! file_name d) →
           file_name d ∈ captured_names more).
Proof.
  revert seen ops captured. induction descriptors as [|d descriptors IH]; intros seen ops captured; cbn [capture].
  { exists [], []. rewrite !app_nil_r. split_and!; [done|done|by exists []| |constructor|set_solver].
    split; constructor. }
  pose proof (validate_descriptor_safe d) as Hv. destruct (validate_descriptor d) as [[]|e|w]; [|done|done]. rbind.
  case_bool_decide as Hseen.
  { eapply post_mono; [apply IH|]. intros [ops' captured'] (more & new & ? & ? & ? & ? & ? & Hall).
    exists more, new. split_and!; [done..|]. set_solver. }
  cbv zeta. destruct (payloads p !! file_name d) as [st|] eqn:Hst.
  - case_bool_decide as Hd; cbn [negb]; [|done]. destruct (Z.eqb_spec (unbound (claims st)) 0) as [|Hu]; [done|].
    pose proof (payload_operations_safe d st) as Hs. destruct (payload_operations d st) as [o|e|w] eqn:Ho; [|done|done].
    rbind. eapply post_mono; [apply IH|].
    intros [ops' captured'] (more & new & -> & -> & (opss & -> & Hops) & [Hnd Hok] & Hfresh & Hall).
    exists ((d, st) :: more), (o ++ concat opss). rewrite <- !(assoc_L (++)).
    rewrite Forall_forall in Hfresh. split_and!; [done|done| | | |].
    + exists (o :: opss). split; [done|]. by constructor.
    + split; [|by constructor]. apply NoDup_cons. split; [|done]. intros Hin. specialize (Hfresh _ Hin). set_solver.
    + apply Forall_forall. intros name [->|Hin]%elem_of_cons; [done|]. specialize (Hfresh _ Hin). set_solver.
    + intros d' [->|Hin]%elem_of_cons Hn Hs'; [by left|]. destruct (decide (file_name d' = file_name d)) as [->|]; [by left|].
      right. apply Hall; [done|set_solver|done].
  - eapply post_mono; [apply IH|]. intros [ops' captured'] (more & new & ? & ? & ? & ? & Hfresh & Hall).
    exists more, new. split_and!; [done..| |].
    + eapply Forall_impl; [exact Hfresh|]. set_solver.
    + intros d' [->|Hin]%elem_of_cons Hn [st Hs']; [congruence|]. apply Hall; [done| |by eexists].
      intros [E%elem_of_singleton|]%elem_of_union; [congruence|done].
Qed.

Lemma pending_operations_spec (s : SegmentStore (T := T) (C := C)) descriptors publication :
  pending_inv (pending s) →
  match pending_operations s descriptors publication with
  | (s', Ok ops) =>
      pending_inv (pending s') ∧ ∃ captured,
        captured_ok (pending s) captured ∧ operations_of captured ops
        ∧ (∀ d, d ∈ descriptors → is_Some (payloads (pending s) !! file_name d) →
                file_name d ∈ captured_names captured)
        ∧ ∀ name, payloads (pending s') !! name
                  = bound_payload (pending s) publication (captured_names captured) name
  | (s', Err _) => s' = s
  | (_, Abort _) => False
  end.
Proof.
  intros Hinv. unfold pending_operations. destruct (_ || _); [done|].
  pose proof (capture_spec (pending s) descriptors ∅ [] []) as Hc.
  destruct (capture _ _ _ _ _) as [[ops captured]|e|w]; [|done|done].
  destruct Hc as (more & new & -> & -> & Hops & Hok & _ & Hall). cbn [app].
  destruct (bind_captured_spec (pending s) more publication Hinv Hok) as (p' & -> & Hinv' & Hp').
  cbn. split; [done|]. exists more. split_and!; [done|done| |done]. set_solver.
Qed.

Lemma pending_operations_inv (s : SegmentStore (T := T) (C := C)) descriptors publication :
  pending_inv (pending s) → pending_inv (pending (pending_operations s descriptors publication).1).
Proof.
  intros Hinv. pose proof (pending_operations_spec s descriptors publication Hinv) as Hp.
  destruct (pending_operations _ _ _) as [s' [ops|e|w]]; [apply Hp|by subst s'|done].
Qed.

(** C26: asking for the operations of a publication either binds one claim of
    every staged payload among the descriptors and returns the records and
    manifest of each of them, or changes nothing. *)
Theorem publication_all_or_nothing (s : SegmentStore (T := T) (C := C)) descriptors publication :
  pending_inv (pending s) →
  match pending_operations s descriptors publication with
  | (s', Ok ops) =>
      pending_inv (pending s') ∧ ∃ captured,
        captured_ok (pending s) captured ∧ operations_of captured ops
        ∧ (∀ d, d ∈ descriptors → is_Some (payloads (pending s) !! file_name d) →
                file_name d ∈ captured_names captured)
        ∧ ∀ name, payloads (pending s') !! name
                  = bound_payload (pending s) publication (captured_names captured) name
  | (s', Err _) => s' = s
  | (_, Abort _) => False
  end.
Proof. apply pending_operations_spec. Qed.

(** ** Retiring *)

Lemma first_publication_spec (pubs : gset (Z * bytes)) :
  match first_publication pubs with
  | Some x => x ∈ pubs ∧ ∀ y, y ∈ pubs → x.1 ≤ y.1
  | None => pubs = ∅
  end.
Proof.
  unfold first_publication.
  assert (∀ l, match foldr (λ x best, match best with
      | Some y => if publication_le x y then Some x else Some y | None => Some x end) None l with
    | Some x => x ∈ l ∧ ∀ y, y ∈ l → x.1 ≤ y.1
    | None => l = [] end) as Hl.
  { induction l as [|x l IH]; cbn; [done|]. destruct (foldr _ _ _) as [y|]; [|subst l; set_solver by lia].
    destruct IH as [Hy Hmin]. unfold publication_le.
    destruct (then_cmp (x.1 ?= y.1) (lexZ x.2 y.2)) eqn:E; (split; [set_solver|]);
      intros z [->|Hz]%elem_of_cons; try done; try specialize (Hmin _ Hz);
      destruct (Z.compare_spec x.1 y.1); cbn in E; try done; lia. }
  specialize (Hl (elements pubs)). destruct (foldr _ _ _) as [x|].
  - destruct Hl as [Hx Hmin]. split; [by apply elem_of_elements|]. intros y Hy. by apply Hmin, elem_of_elements.
  - by apply leibniz_equiv, elements_empty_iff.
Qed.

(** A payload after everything up to a bookmark is durable. *)
Definition released (b : Bookmark) (st : StagedPayload) : option StagedPayload :=
  match latest_bound (claims st) with
  | Some latest =>
      if index latest <=? index b then
        if unbound (claims st) =? 0 then None
        else Some (set_claims st (mkClaims (unbound (claims st)) None))
      else Some st
  | None => Some st
  end.

Lemma release_round_spec p b :
  pending_inv p →
  match release_round p b with
  | (p', Ok true) =>
      pending_inv p' ∧ (size (publications p') < size (publications p))%nat
      ∧ ∀ name, (payloads p' !! name ≫= released b) = (payloads p !! name ≫= released b)
  | (p', Ok false) => p' = p ∧ ∀ name, (payloads p !! name ≫= released b) = payloads p !! name
  | (_, _) => False
  end.
Proof.
  intros Hinv. unfold release_round. pose proof (first_publication_spec (publications p)) as Hf.
  assert (∀ (P : Z → Prop), (∀ i name, (i, name) ∈ publications p → P i) →
            (∀ i, P i → index b < i) →
            ∀ name, (payloads p !! name ≫= released b) = payloads p !! name) as Hnone.
  { intros P HP Hlt name. destruct (payloads p !! name) as [st|] eqn:Hst; [|done]. cbn. unfold released.
    destruct (latest_bound (claims st)) as [latest|] eqn:Hl; [|done].
    assert (bound_at p name = Some (index latest)) as Hb by (unfold bound_at; rewrite Hst; cbn; by rewrite Hl).
    apply (inv_publications _ Hinv), HP, Hlt in Hb. by rewrite (proj2 (Z.leb_gt _ _)). }
  destruct (first_publication (publications p)) as [[at_ name]|].
  - destruct Hf as [Hin Hmin]. cbn in Hmin. destruct (Z.ltb_spec (index b) at_).
    { split; [done|]. apply (Hnone (λ i, at_ ≤ i)); [intros i n Hi; by apply (Hmin (i, n))|lia]. }
    pose proof Hin as Hb. apply (inv_publications _ Hinv) in Hb. unfold bound_at in Hb.
    destruct (payloads p !! name) as [st|] eqn:Hst; [|done]. cbn in Hb.
    destruct (latest_bound (claims st)) as [latest|] eqn:Hl; [|done]. injection Hb as Hb. cbv zeta. cbn [unbound].
    pose proof (inv_staged _ Hinv _ _ Hst) as (Hn & Hok & Hr & _).
    assert (released b st = if unbound (claims st) =? 0 then None
                            else Some (set_claims st (mkClaims (unbound (claims st)) None))) as Hrel.
    { unfold released. by rewrite Hl, (proj2 (Z.leb_le _ _)) by lia. }
    split_and!.
    + assert (bound_at p name = Some at_) as Hb' by (unfold bound_at; rewrite Hst; cbn; by rewrite Hl, <- Hb).
      destruct (Z.eqb_spec (unbound (claims st)) 0) as [|Hu]; split; cbn [payloads publications].
      * apply map_Forall_delete, Hinv.
      * intros i name'. rewrite bound_at_delete, elem_of_difference, elem_of_singleton, (inv_publications _ Hinv).
        case_decide as E; [subst|]; naive_solver.
      * apply map_Forall_insert_2; [|apply Hinv]. split_and!; [done|done|cbn; lia..|by left].
      * intros i name'. rewrite bound_at_insert, elem_of_difference, elem_of_singleton, (inv_publications _ Hinv).
        case_decide as E; [subst|]; naive_solver.
    + cbn. rewrite size_difference by set_solver. rewrite size_singleton.
      assert (size (publications p) ≠ 0)%nat; [|lia]. intros E%size_empty_inv. set_solver.
    + intros name'. cbn. destruct (decide (name' = name)) as [->|Hne].
      * rewrite Hst. cbn. destruct (_ =? 0).
        -- by rewrite lookup_delete_eq, Hrel.
        -- by rewrite lookup_insert_eq, Hrel.
      * destruct (_ =? 0); [by rewrite lookup_delete_ne|by rewrite lookup_insert_ne].
  - split; [done|]. apply (Hnone (λ _, False)); [rewrite Hf; set_solver|done].
Qed.

Lemma release_rounds_spec fuel p b :
  pending_inv p → (size (publications p) < fuel)%nat →
  ∃ p', release_rounds fuel p b = (p', Ok tt) ∧ pending_inv p'
    ∧ ∀ name, payloads p' !! name = (payloads p !! name ≫= released b).
Proof.
  revert p. induction fuel as [|fuel IH]; intros p Hinv Hs; [lia|]. cbn [release_rounds].
  pose proof (release_round_spec p b Hinv) as Hr. destruct (release_round p b) as [p1 [[]| |]]; try done.
  - destruct Hr as (Hinv1 & Hlt & Hsame). destruct (IH p1 Hinv1) as (p' & -> & Hinv' & Hp'); [lia|].
    exists p'. split_and!; [done|done|]. intros name. by rewrite Hp', Hsame.
  - destruct Hr as [-> Hsame]. exists p. split_and!; [done|done|]. intros name. by rewrite Hsame.
Qed.

Lemma release_spec (s : SegmentStore (T := T) (C := C)) b :
  pending_inv (pending s) →
  ∃ s', release_committed_through s b = (s', Ok tt) ∧ pending_inv (pending s')
    ∧ database s' = database s ∧ pins s' = pins s
    ∧ ∀ name, payloads (pending s') !! name = (payloads (pending s) !! name ≫= released b).
Proof.
  intros Hinv. unfold release_committed_through.
  destruct (release_rounds_spec (S (size (publications (pending s)))) (pending s) b Hinv) as (p' & -> & Hinv' & Hp');
    [lia|]. by exists (set_pending s p').
Qed.

Lemma release_inv (s : SegmentStore (T := T) (C := C)) b :
  pending_inv (pending s) → pending_inv (pending (release_committed_through s b).1).
Proof. intros Hinv. by destruct (release_spec s b Hinv) as (s' & -> & Hinv' & _). Qed.

(** Retiring what is durable up to a bookmark ends without an error: every
    payload published up to it stops waiting, and leaves staging when no other
    claim is left; all other payloads stay as they are. *)
Theorem release_retires_published (s : SegmentStore (T := T) (C := C)) b :
  pending_inv (pending s) →
  ∃ s', release_committed_through s b = (s', Ok tt) ∧ pending_inv (pending s')
    ∧ database s' = database s ∧ pins s' = pins s
    ∧ ∀ name, payloads (pending s') !! name = (payloads (pending s) !! name ≫= released b).
Proof. apply release_spec. Qed.

Lemma release_claim_inv p name : pending_inv p → pending_inv (release_claim p name).
Proof.
  intros Hinv. unfold release_claim. destruct (payloads p !! name) as [st|] eqn:Hst; [|done]. cbv zeta.
  pose proof (inv_staged _ Hinv _ _ Hst) as (Hn & Hok & Hr & Hc). cbn [unbound latest_bound].
  assert (bound_at p name = index <$> latest_bound (claims st)) as Hb by (unfold bound_at; by rewrite Hst).
  destruct (_ && _) eqn:E.
  - apply andb_true_iff in E as [_ E]. apply inv_delete; [done|]. rewrite Hb.
    destruct (latest_bound (claims st)); [|done]. rewrite bool_decide_eq_true_2 in E by done. done.
  - apply inv_insert; [done| |by rewrite Hb]. split_and!; [done|done|cbn; unfold saturating_sub; lia..|].
    cbn. destruct (latest_bound (claims st)); [by right|left]. rewrite bool_decide_eq_false_2, andb_true_r in E by (by intros []).
    by apply Z.eqb_neq.
Qed.

(** ** Reachable stores *)

Inductive segment_step : SegmentStore (T := T) (C := C) → SegmentStore → Prop :=
| step_write s family project count record_at :
    (∀ i, aborts (record_at i) = false) →
    segment_step s (write_immutable_streaming_indexed s family project count record_at).1
| step_publish s descriptors publication : segment_step s (pending_operations s descriptors publication).1
| step_commit s batches : segment_step s (commit_records s batches).1
| step_release s b : segment_step s (release_committed_through s b).1
| step_discard s d : segment_step s (discard_staged s d)
| step_pin s d : segment_step s (pin s d).1
| step_unpin s name : segment_step s (unpin s name).

Lemma pin_pending (s : SegmentStore (T := T) (C := C)) d : pending (pin s d).1 = pending s.
Proof.
  unfold pin. destruct (validate_descriptor d); [|done..]. destruct (pins s !! file_name d) as [pinned|].
  - by case_bool_decide.
  - by destruct (match payloads (pending s) !! file_name d with Some _ => _ | None => _ end).
Qed.

Lemma unpin_pending (s : SegmentStore (T := T) (C := C)) name : pending (unpin s name) = pending s.
Proof. unfold unpin. by destruct (pins s !! name). Qed.

Lemma step_inv s s' : segment_step s s' → pending_inv (pending s) → pending_inv (pending s').
Proof.
  intros [s0 family project count record_at Hrec|s0 ds pub|s0 batches|s0 b|s0 d|s0 d|s0 name] Hinv.
  - pose proof (write_spec s0 family project count record_at Hinv Hrec) as Hw. unfold written_ok in Hw.
    destruct (write_immutable_streaming_indexed _ _ _ _ _) as [s1 [[d l]|e|w]]; [apply Hw|by cbn; rewrite Hw|done].
  - by apply pending_operations_inv.
  - unfold commit_records. by destruct (commit _ _).
  - by apply release_inv.
  - by apply release_claim_inv.
  - by rewrite pin_pending.
  - by rewrite unpin_pending.
Qed.

(** in every store reached by writing, publishing, committing, retiring,
    discarding and pinning, each staged payload holds the records its
    descriptor names and has a claim left, and the publication index lists
    exactly the payloads that wait for a commit, once each. *)
Theorem staging_invariant db s :
  rtc segment_step (with_records db) s → pending_inv (pending s).
Proof.
  intros Hs. assert (pending_inv (pending (with_records db))) as Hinv by apply empty_inv.
  induction Hs as [|s s1 s2 Hstep _ IH]; [done|]. apply IH. by eapply step_inv.
Qed.
End payloads.
