(* ===== verification/SegmentReads.v ===== *)
(** * Segment store: reading payloads back

    A payload reads the same while it is staged, once it is durable, and
    through a pin after it was reclaimed. *)

From stdpp Require Import prelude gmap strings sorting.
From Stdlib Require Import ZArith Lia.
From S2P Require Import Prelude Machine Types Document OrderCode Records RecordsTheorems RecordsStore Segment SegmentTheorems.

Local Open Scope Z_scope.
#[local] Set Warnings "-clear-no-such-hyp".

(** ** Binary search *)

Definition strictly_increasing (l : list Z) : Prop :=
  ∀ i j x y, (i < j)%nat → l !! i = Some x → l !! j = Some y → x < y.

(** The target, if it is in the list, stays between [base] and [base + size]. *)
Lemma search_base_spec fuel l (target : Z) (k base : nat) size :
  strictly_increasing l → l !! k = Some target → 0 < size → (base + Z.to_nat size ≤ length l)%nat →
  (base ≤ k < base + Z.to_nat size)%nat → (Z.to_nat size ≤ S fuel)%nat →
  search_base fuel l target (Z.of_nat base) size = Z.of_nat k.
Proof.
  intros Hs Hk. revert base size. induction fuel as [|fuel IH]; intros base size Hsz Hlen Hr Hf; cbn [search_base]; [lia|].
  destruct (Z.ltb_spec 1 size); [|lia]. cbv zeta.
  pose proof (Z.div_mod size 2). pose proof (Z.mod_pos_bound size 2).
  set (half := size / 2) in *. assert (0 < half < size) by lia.
  destruct (lookup_lt_is_Some_2 l (base + Z.to_nat half) ltac:(lia)) as [x Hx].
  assert (get l (Z.of_nat base + half) = Some x) as ->.
  { unfold get. rewrite (proj2 (Z.ltb_ge _ _)) by lia. rewrite <- Hx. f_equal. lia. }
  change (default 0 (Some x)) with x. destruct (Z.leb_spec x target) as [Hle|Hgt].
  - replace (Z.of_nat base + half) with (Z.of_nat (base + Z.to_nat half)) by lia.
    assert (base + Z.to_nat half ≤ k)%nat.
    { destruct (decide (k < base + Z.to_nat half)%nat) as [Hlt|]; [|lia]. specialize (Hs _ _ _ _ Hlt Hk Hx). lia. }
    apply IH; lia.
  - assert (k < base + Z.to_nat half)%nat.
    { destruct (decide (k < base + Z.to_nat half)%nat) as [|Hge]; [done|].
      destruct (decide (k = base + Z.to_nat half)%nat) as [->|]; [rewrite Hx in Hk; injection Hk; lia|].
      assert (base + Z.to_nat half < k)%nat as Hlt by lia. specialize (Hs _ _ _ _ Hlt Hx Hk). lia. }
    apply IH; lia.
Qed.

Definition offsets (records : list (SegmentRecordLocation * bytes)) : list Z := map (λ r, offset r.1) records.

Lemma extents_offsets at_ records total :
  extents at_ records total → strictly_increasing (offsets records) ∧ Forall (λ o, at_ ≤ o) (offsets records).
Proof.
  revert at_. induction records as [|[l e] records IH]; intros at_; cbn [extents].
  - intros _. split; [by intros i j x y _ Hi|constructor].
  - intros [-> Hx]. destruct (IH _ Hx) as [Hs Hge]. pose proof (zlen_nonneg e).
    assert (Forall (λ o, at_ < o) (offsets records)) as Hlt by (eapply Forall_impl; [exact Hge|]; cbn; lia).
    split.
    + intros i j x y Hij Hi Hj. destruct i as [|i], j as [|j]; try lia; cbn in Hi, Hj.
      * injection Hi as <-. rewrite Forall_forall in Hlt. by apply Hlt, list_elem_of_lookup_2 with j.
      * eapply (Hs i j); [lia|done..].
    + constructor; [cbn; lia|]. eapply Forall_impl; [exact Hlt|]. cbn. lia.
Qed.

Lemma binary_search_found records total i r :
  extents 0 records total → records !! i = Some r →
  binary_search_offset records (offset r.1) = Some (Z.of_nat i).
Proof.
  intros Hx Hi. destruct (extents_offsets _ _ _ Hx) as [Hs _].
  assert (offsets records !! i = Some (offset r.1)) as Ho by (unfold offsets; by rewrite list_lookup_fmap, Hi).
  pose proof (lookup_lt_Some _ _ _ Ho) as Hlt. unfold binary_search_offset. fold (offsets records). cbv zeta.
  destruct (offsets records) as [|o os] eqn:E; [done|]. rewrite <- E in *.
  rewrite (search_base_spec _ _ _ i 0) by (done || unfold zlen; lia).
  unfold get. rewrite (proj2 (Z.ltb_ge _ _)), Nat2Z.id, Ho by lia. cbn. by rewrite Z.eqb_refl.
Qed.

Section reads.
Context {T C : Type} `{RedbSpec T C} `{Allocator} `{CodecsSpec}.
Implicit Types (s : SegmentStore (T := T) (C := C)) (d : SegmentDescriptor)
  (records : list (SegmentRecordLocation * bytes)) (kv : gmap bytes bytes).

Lemma decode_record_Ok bs v : postcard_record_from bs = Ok v → decode_record bs = Ok v.
Proof. unfold decode_record. by intros ->. Qed.

(** The visitor applied to the records of a payload in order. *)
Fixpoint visit_values {St} (visitor : St → SegmentRecord → Result St) (values : list SegmentRecord) (st : St)
    : Result St :=
  match values with [] => Ok st | v :: values => st ← visitor st v; visit_values visitor values st end.

Lemma visit_values_collect values acc :
  visit_values (λ collected record, Ok (collected ++ [record])) values acc = Ok (acc ++ values).
Proof.
  revert acc. induction values as [|v values IH]; intros acc; cbn; [by rewrite app_nil_r|].
  by rewrite IH, <- (assoc_L (++)).
Qed.

Lemma visit_staged_values {St} (visitor : St → SegmentRecord → Result St) records values st :
  decodes records values → visit_staged visitor records st = visit_values visitor values st.
Proof.
  intros Hd. revert st. induction Hd as [|[l e] v records values [Hv _] _ IH]; intros st; cbn; [done|].
  rewrite (decode_record_Ok e v Hv). rbind. destruct (visitor st v); rbind; [apply IH|done..].
Qed.

Lemma read_staged_found d st values i r v :
  staged_descriptor st = d → payload_ok d (staged_records st) → decodes (staged_records st) values →
  staged_records st !! i = Some r → values !! i = Some v → read_staged_at d st r.1 = Ok v.
Proof.
  intros Hd Hok Hdec Hi Hv. unfold read_staged_at. rewrite bool_decide_eq_true_2 by done. cbn [negb].
  rewrite (binary_search_found _ _ _ _ (payload_extents _ _ Hok) Hi). rbind.
  unfold index_at, get. rewrite (proj2 (Z.ltb_ge _ _)), Nat2Z.id, Hi by lia. rbind. destruct r as [l e].
  rewrite bool_decide_eq_true_2 by done. cbn [negb].
  destruct (Forall2_lookup_lr _ _ _ _ _ _ Hdec Hi Hv) as [Hr _]. by apply decode_record_Ok.
Qed.

(** The extent of a record lies within its payload. *)
Lemma extent_inside at_ records total i r :
  extents at_ records total → records !! i = Some r →
  at_ ≤ offset r.1 ∧ location_bytes r.1 = zlen r.2 ∧ offset r.1 + zlen r.2 + 8 ≤ total.
Proof.
  revert at_ i. induction records as [|[l e] records IH]; intros at_ [|i] Hx Hi; try done; cbn in Hi.
  - injection Hi as <-. destruct Hx as [-> Hx]. apply extents_le in Hx. cbn. pose proof (zlen_nonneg records). lia.
  - destruct Hx as [_ Hx]. destruct (IH _ _ Hx Hi) as (? & ? & ?). pose proof (zlen_nonneg e). lia.
Qed.

Lemma extent_checked d records i r :
  payload_ok d records → records !! i = Some r →
  match checked_add u64_max (offset r.1) (location_bytes r.1) with
  | Some end_ => descriptor_bytes d <? end_
  | None => true
  end = false.
Proof.
  intros Hok Hi. destruct (extent_inside _ _ _ _ _ (payload_extents _ _ Hok) Hi) as (? & -> & ?).
  pose proof (payload_size _ _ Hok). unfold checked_add. rewrite (proj2 (Z.leb_le _ _)) by lia.
  apply Z.ltb_ge. lia.
Qed.

Lemma each_staged {St} s d st values (visitor : St → SegmentRecord → Result St) init :
  pending_inv (pending s) → payloads (pending s) !! file_name d = Some st → staged_descriptor st = d →
  decodes (staged_records st) values →
  try_for_each_record s d visitor init = visit_values visitor values init.
Proof.
  intros Hinv Hst Hd Hdec. pose proof (inv_staged _ Hinv _ _ Hst) as (_ & Hok & _). rewrite Hd in Hok.
  unfold try_for_each_record. rewrite (payload_valid _ _ Hok), Hst. rbind. rewrite bool_decide_eq_true_2 by done.
  by apply visit_staged_values.
Qed.

Lemma read_staged s d st values :
  pending_inv (pending s) → payloads (pending s) !! file_name d = Some st → staged_descriptor st = d →
  decodes (staged_records st) values → read s d = Ok values.
Proof. intros. unfold read. by erewrite each_staged, visit_values_collect. Qed.

Lemma record_at_staged s d st values i r v :
  pending_inv (pending s) → payloads (pending s) !! file_name d = Some st → staged_descriptor st = d →
  decodes (staged_records st) values → pins s !! file_name d = None →
  staged_records st !! i = Some r → values !! i = Some v → read_record_at s d r.1 = Ok v.
Proof.
  intros Hinv Hst Hd Hdec Hpin Hi Hv. pose proof (inv_staged _ Hinv _ _ Hst) as (_ & Hok & _). rewrite Hd in Hok.
  unfold read_record_at. rewrite (payload_valid _ _ Hok), (extent_checked _ _ _ _ Hok Hi), Hpin, Hst. rbind. cbn.
  by eapply read_staged_found.
Qed.

Lemma validate_staged s d st :
  pending_inv (pending s) → payloads (pending s) !! file_name d = Some st → staged_descriptor st = d →
  validate s d = Ok tt.
Proof.
  intros Hinv Hst Hd. pose proof (inv_staged _ Hinv _ _ Hst) as (_ & Hok & _). rewrite Hd in Hok.
  unfold validate. rewrite (payload_valid _ _ Hok), Hst. rbind. by rewrite bool_decide_eq_true_2.
Qed.

(** A payload reads back as the records it was written from, as a whole
    and at each location handed out, unless the hash confuses it with another
    payload that was staged before. *)
Theorem written_payload_reads s family project count record_at s' d locations :
  pending_inv (pending s) → (∀ i, aborts (record_at i) = false) → pins s' !! file_name d = None →
  write_immutable_streaming_indexed s family project count record_at = (s', Ok (d, locations)) →
  ∃ records values,
    locations = map fst records ∧ decodes records values ∧ length values = Z.to_nat count
    ∧ (∀ i v, values !! i = Some v → record_at (Z.of_nat i) = Ok v)
    ∧ ((read s' d = Ok values ∧ validate s' d = Ok tt
        ∧ ∀ i l v, locations !! i = Some l → values !! i = Some v → read_record_at s' d l = Ok v)
       ∨ ∃ st, payloads (pending s') !! file_name d = Some st
           ∧ collision (payload_hasher (Segment.family d) (project_id d) ++ hashed (staged_records st))
               (payload_hasher (Segment.family d) (project_id d) ++ hashed records)).
Proof.
  intros Hinv Hrec Hpin Hw. pose proof (write_spec s family project count record_at Hinv Hrec) as Hs.
  unfold written_ok in Hs. rewrite Hw in Hs.
  destruct Hs as (Hinv' & records & values & st & -> & Hok & Hdec & Hl & Hat & Hst & Hd & _ & [Heq|Hcol]);
    exists records, values; (split_and!; [done..|]); [left|right; by exists st]. subst records.
  split_and!; [by eapply read_staged|by eapply validate_staged|].
  intros i l v (r & -> & Hr)%list_lookup_fmap_Some Hv. by eapply record_at_staged.
Qed.

(** ** Durable payloads *)

Definition entries_of d records : list (bytes * bytes) :=
  map (λ r, (record_key d (offset r.1), r.2)) records.

(** The map holds the manifest and exactly the records of a payload. *)
Definition stored kv d records : Prop :=
  (∃ m, postcard_manifest (mkManifest d (zlen records)) = Ok m ∧ kv !! manifest_key d = Some m)
  ∧ ∀ k v, (k, v) ∈ entries_of d records ↔ kv !! k = Some v ∧ record_prefix d `prefix_of` k.

Lemma record_key_lt d a b : u64 a → u64 b → a < b → lexZ (record_key d a) (record_key d b) = Lt.
Proof.
  intros Ha Hb Hab. unfold record_key. rewrite lexZ_app_same, be_bytes_cmp.
  rewrite !Z.mod_small by (change (256 ^ Z.of_nat 8) with 18446744073709551616; rlia). by apply Z.compare_lt_iff.
Qed.

Lemma payload_entries_sorted d at_ records total :
  0 ≤ at_ → extents at_ records total → total ≤ u64_max → keys_sorted (entries_of d records).
Proof.
  revert at_. induction records as [|[l e] records IH]; intros at_ H0' Hx Ht; [done|]. destruct Hx as [-> Hx].
  cbn [entries_of map fst snd offset]. pose proof (zlen_nonneg e). apply keys_sorted_cons; [|by eapply IH; [|done..]; lia].
  apply Forall_forall. intros x (r & -> & Hr)%list_elem_of_fmap. apply list_elem_of_lookup in Hr as [i Hr].
  destruct (extent_inside _ _ _ _ _ Hx Hr) as (? & _ & ?). pose proof (zlen_nonneg r.2). cbn.
  apply record_key_lt; rlia.
Qed.

Lemma stored_entries kv d records l :
  stored kv d records → payload_ok d records → prefixed kv (record_prefix d) l → l = entries_of d records.
Proof.
  intros [_ Hst] Hok [Hs Hin]. apply keys_sorted_unique; [done| |].
  - eapply (payload_entries_sorted d 0); [lia|apply Hok|apply Hok].
  - intros [k v]. by rewrite Hst, Hin.
Qed.

Lemma manifest_stored s id kv b d records :
  db_inv (database s) id kv b → stored kv d records →
  posts read_fails (manifest s d) (λ m, m = mkManifest d (zlen records)).
Proof.
  intros Hdb [(m & Hm & Hk) _]. unfold manifest. eapply posts_bind; [by eapply get_record_spec|]. intros r ->.
  unfold check_manifest. rewrite Hk. rbind. rewrite (proj1 (manifest_roundtrip _ _ Hm)). cbn [map_err]. rbind.
  by rewrite bool_decide_eq_true_2.
Qed.

Lemma visit_entries {St} (visitor : St → SegmentRecord → Result St) d records values count st :
  decodes records values →
  visit_all (λ '(count, st) _ encoded,
               record ← decode_record encoded; st ← visitor st record; Ok (count + 1, st))
    (entries_of d records) (count, st)
  = (st ← visit_values visitor values st; Ok (count + zlen records, st)).
Proof.
  intros Hd. revert count st. induction Hd as [|[l e] v records values [Hv _] _ IH]; intros count st.
  { cbn. by rewrite zlen_nil, Z.add_0_r. }
  cbn [entries_of map visit_all visit_values fst snd]. rewrite (decode_record_Ok e v Hv). rbind.
  destruct (visitor st v) as [st'| |]; rbind; [|done..]. fold (entries_of d records). rewrite IH, zlen_cons.
  destruct (visit_values visitor values st'); rbind; [|done..]. do 2 f_equal. lia.
Qed.

Lemma validate_entries d at_ records total hash count :
  0 ≤ at_ → extents at_ records total → total ≤ u64_max →
  visit_all (validate_entry (record_prefix d)) (entries_of d records) (at_, hash, count)
  = Ok (total, hash ++ hashed records, count + zlen records).
Proof.
  revert at_ hash count. induction records as [|[l e] records IH]; intros at_ hash count H0' Hx Ht; cbn in Hx.
  { subst total. cbn. by rewrite app_nil_r, zlen_nil, Z.add_0_r. }
  destruct Hx as [-> Hx]. pose proof (extents_le _ _ _ Hx). pose proof (zlen_nonneg records). pose proof (zlen_nonneg e).
  cbn [entries_of map visit_all fst snd offset]. fold (entries_of d records).
  assert (validate_entry (record_prefix d) (at_, hash, count) (record_key d at_) e
          = Ok (at_ + zlen e + 8, hash ++ le_bytes 8 (zlen e) ++ e, count + 1)) as ->.
  { unfold validate_entry, record_key. rewrite zlen_app.
    assert (get_range (record_prefix d ++ be_bytes 8 at_) (zlen (record_prefix d))
              (zlen (record_prefix d) + zlen (be_bytes 8 at_)) = Some (be_bytes 8 at_)) as ->.
    { pose proof (get_range_app (record_prefix d) (be_bytes 8 at_) []) as Hg. by rewrite app_nil_r in Hg. }
    cbn [mbind option_bind]. assert (zlen (be_bytes 8 at_) = 8) as -> by (unfold zlen; by rewrite length_be_bytes).
    rewrite from_be_be_bytes, Z.mod_small by (change (256 ^ Z.of_nat 8) with 18446744073709551616; rlia).
    change (8 =? 8) with true. cbv match. rbind. rewrite Z.eqb_refl. cbn [negb]. cbv zeta. unfold checked_add.
    rewrite (proj2 (Z.leb_le (at_ + zlen e) _)) by lia. cbn [mbind option_bind].
    by rewrite (proj2 (Z.leb_le _ _)) by lia. }
  rbind. rewrite IH by (done || lia). do 2 f_equal; [|rewrite zlen_cons; lia].
  f_equal. unfold hashed. cbn [map concat snd]. by rewrite <- !(assoc_L (++)).
Qed.

(** A scan visits the records under its prefix or reports a failed read. *)
Local Ltac scan_cases Hdb :=
  match goal with
  | |- context [scan_prefix ?db ?p ?f ?a] =>
      let l := fresh "l" in let Hl := fresh "Hl" in let e := fresh "e" in let He := fresh "He" in
      destruct (scan_prefix_spec db _ _ _ p f a Hdb) as [(l & Hl & ->)|(e & He & ->)]
  end.

Lemma each_durable {St} s id kv b d records values (visitor : St → SegmentRecord → Result St) init :
  db_inv (database s) id kv b → payload_ok d records → decodes records values → stored kv d records →
  payloads (pending s) !! file_name d = None →
  try_for_each_record s d visitor init = visit_values visitor values init
  ∨ ∃ e, read_fails e ∧ try_for_each_record s d visitor init = Err e.
Proof.
  intros Hdb Hok Hdec Hst Hp. unfold try_for_each_record. rewrite (payload_valid _ _ Hok), Hp. rbind.
  pose proof (manifest_stored s id kv b d records Hdb Hst) as Hm.
  destruct (manifest s d) as [m|e|w]; cbn in Hm; [subst m|right; by exists e|done]. rbind.
  scan_cases Hdb; [|right; by exists e].
  rewrite (stored_entries _ _ _ _ Hst Hok Hl), (visit_entries _ _ _ values) by done.
  left. destruct (visit_values visitor values init) as [st| |]; rbind; [|done..]. cbn [manifest_records].
  by rewrite Z.add_0_l, Z.eqb_refl.
Qed.

Lemma read_durable s id kv b d records values :
  db_inv (database s) id kv b → payload_ok d records → decodes records values → stored kv d records →
  payloads (pending s) !! file_name d = None →
  posts read_fails (read s d) (λ r, r = values).
Proof.
  intros Hdb Hok Hdec Hst Hp. unfold read.
  destruct (each_durable s id kv b d records values (λ collected record, Ok (collected ++ [record])) []
    Hdb Hok Hdec Hst Hp) as [->|(e & He & ->)]; [|done]. by rewrite visit_values_collect.
Qed.

(** The value under a record's key is the record. *)
Lemma stored_record_at kv d records values i r v :
  stored kv d records → payload_ok d records → decodes records values →
  records !! i = Some r → values !! i = Some v →
  posts read_fails
    (encoded ← ok_or (kv !! record_key d (offset r.1))
                 (Error_new RetentionExpired "requested payload record was reclaimed");
     if negb (zlen encoded =? location_bytes r.1) then Err (corrupt "payload record length differs")
     else decode_record encoded) (λ v', v' = v).
Proof.
  intros Hst Hok Hdec Hi Hv. assert (kv !! record_key d (offset r.1) = Some r.2) as ->.
  { apply Hst. apply list_elem_of_fmap. exists r. split; [done|]. by eapply list_elem_of_lookup_2. }
  rbind. destruct (extent_inside _ _ _ _ _ (payload_extents _ _ Hok) Hi) as (_ & -> & _). rewrite Z.eqb_refl. cbn [negb].
  destruct (Forall2_lookup_lr _ _ _ _ _ _ Hdec Hi Hv) as [Hr _]. by rewrite (decode_record_Ok _ _ Hr).
Qed.

(** a payload whose records and manifest are durable reads back as the
    records that were written and is found valid, unless a read fails. *)
Theorem durable_payload_reads {St} s id kv b d records values (visitor : St → SegmentRecord → Result St) init :
  db_inv (database s) id kv b → payload_ok d records → decodes records values → stored kv d records →
  payloads (pending s) !! file_name d = None →
  posts read_fails (read s d) (λ r, r = values)
  ∧ (try_for_each_record s d visitor init = visit_values visitor values init
     ∨ ∃ e, read_fails e ∧ try_for_each_record s d visitor init = Err e)
  ∧ posts read_fails (validate s d) (λ _, True)
  ∧ (pins s !! file_name d = None →
     ∀ i r v, records !! i = Some r → values !! i = Some v →
              posts read_fails (read_record_at s d r.1) (λ v', v' = v)).
Proof.
  intros Hdb Hok Hdec Hst Hp. split_and!.
  - by eapply read_durable.
  - by eapply each_durable.
  - unfold validate. rewrite (payload_valid _ _ Hok), Hp. rbind.
    eapply posts_bind; [by eapply manifest_stored|]. intros m ->.
    scan_cases Hdb; [|done].
    rewrite (stored_entries _ _ _ _ Hst Hok Hl), (validate_entries _ _ _ (descriptor_bytes d));
      [|lia|apply Hok..]. rbind.
    rewrite Z.add_0_l, !Z.eqb_refl, bool_decide_eq_true_2; [done|]. symmetry. apply Hok.
  - intros Hpin i r v Hi Hv. unfold read_record_at.
    rewrite (payload_valid _ _ Hok), (extent_checked _ _ _ _ Hok Hi), Hpin, Hp. rbind. cbn [mbind option_bind]. cbv zeta.
    eapply posts_bind; [by eapply get_record_spec|]. intros found ->. by eapply stored_record_at.
Qed.

(** ** Becoming durable *)

(** Whatever the map holds under the payload's record keys is the payload. *)
Definition compatible kv d records : Prop :=
  ∀ k v, kv !! k = Some v → record_prefix d `prefix_of` k → (k, v) ∈ entries_of d records.

Definition puts (l : list (bytes * bytes)) : list RecordOp := map (λ x, Put x.1 x.2) l.

Lemma puts_other kv l k : k ∉ map fst l → foldl spec_operation kv (puts l) !! k = kv !! k.
Proof.
  revert kv. induction l as [|[k' v'] l IH]; intros kv Hk; [done|]. cbn in *.
  rewrite IH by set_solver. apply lookup_insert_ne. set_solver.
Qed.

Lemma puts_in kv l k v : NoDup (map fst l) → (k, v) ∈ l → foldl spec_operation kv (puts l) !! k = Some v.
Proof.
  revert kv. induction l as [|[k' v'] l IH]; intros kv Hnd Hin; [by apply elem_of_nil in Hin|].
  cbn in Hnd. apply NoDup_cons in Hnd as [Hnin Hnd]. apply elem_of_cons in Hin as [[= -> ->]|Hin]; cbn.
  - rewrite puts_other by done. apply lookup_insert_eq.
  - by apply IH.
Qed.

Lemma payload_operations_puts d st ops :
  payload_operations d st = Ok ops →
  ∃ m, postcard_manifest (mkManifest d (zlen (staged_records st))) = Ok m
    ∧ ops = puts (entries_of d (staged_records st) ++ [(manifest_key d, m)]).
Proof.
  unfold payload_operations. cbv zeta. intros (m & Hm & [= <-])%bind_Ok_inv.
  exists m. split; [by destruct (postcard_manifest _); cbn in Hm; simplify_eq|].
  unfold puts, entries_of. rewrite map_app, map_map. f_equal. apply map_ext. by intros [].
Qed.

Lemma manifest_not_record d : ¬ record_prefix d `prefix_of` manifest_key d.
Proof.
  intros [t Ht]. unfold manifest_key, record_prefix in Ht. rewrite <- (assoc_L (++)) in Ht.
  by apply app_inv_head in Ht.
Qed.

Lemma record_key_prefix d records k v : (k, v) ∈ entries_of d records → record_prefix d `prefix_of` k.
Proof. intros (r & [= -> ->] & _)%list_elem_of_fmap. by eexists. Qed.

Lemma stored_by_operations kv d st ops :
  payload_operations d st = Ok ops → payload_ok d (staged_records st) → compatible kv d (staged_records st) →
  stored (foldl spec_operation kv ops) d (staged_records st).
Proof.
  intros (m & Hm & ->)%payload_operations_puts Hok Hc. set (es := entries_of d (staged_records st)) in *.
  assert (manifest_key d ∉ map fst es) as Hmk.
  { intros ([k v] & Hk & Hin)%list_elem_of_fmap. cbn in Hk. subst k.
    apply record_key_prefix in Hin. by apply manifest_not_record in Hin. }
  assert (NoDup (map fst (es ++ [(manifest_key d, m)]))) as Hnd.
  { rewrite map_app. cbn. apply NoDup_app. split_and!; [|by intros k Hk ->%list_elem_of_singleton|apply NoDup_singleton].
    eapply keys_sorted_NoDup, (payload_entries_sorted d 0); [lia|apply Hok..]. }
  split.
  - exists m. split; [done|]. apply puts_in; [done|]. apply elem_of_app. right. by left.
  - fold es. intros k v. split.
    + intros Hin. split; [|by eapply record_key_prefix].
      apply puts_in; [done|]. apply elem_of_app. by left.
    + intros [Hk Hp]. destruct (decide (k ∈ map fst (es ++ [(manifest_key d, m)]))) as [Hin|Hnin].
      * apply list_elem_of_fmap in Hin as ([k' v'] & -> & Hin). cbn in *. rewrite (puts_in _ _ _ _ Hnd Hin) in Hk.
        injection Hk as <-. apply elem_of_app in Hin as [|[= -> ->]%list_elem_of_singleton]; [done|].
        by apply manifest_not_record in Hp.
      * rewrite puts_other in Hk by done. by apply Hc.
Qed.
End reads.
