(* ===== verification/SegmentDurability.v ===== *)
(** * Segment store: publication, reclamation and pins

    Payloads and the metadata that refers to them commit together; the
    theorems here compose the segment store with the record store under it. *)

From stdpp Require Import prelude gmap strings sorting.
From Stdlib Require Import ZArith Lia.
From S2P Require Import Prelude Machine Types Document Records RecordsTheorems RecordsStore Segment SegmentTheorems SegmentReads.

Local Open Scope Z_scope.
#[local] Set Warnings "-clear-no-such-hyp".

(** ** Operations that leave a prefix alone *)

Definition agrees (p : bytes) (kv kv' : gmap bytes bytes) : Prop :=
  ∀ k, p `prefix_of` k → kv' !! k = kv !! k.

Definition op_outside (p : bytes) (op : RecordOp) : Prop :=
  match op with
  | Put k _ | Delete k => ¬ p `prefix_of` k
  | DeletePrefix q => ∀ k, p `prefix_of` k → ¬ q `prefix_of` k
  end.

Lemma op_outside_agrees p kv op : op_outside p op → agrees p kv (spec_operation kv op).
Proof.
  intros Ho k Hk. destruct op as [k' v|k'|q]; cbn in *.
  - apply lookup_insert_ne. by intros ->.
  - apply lookup_delete_ne. by intros ->.
  - rewrite without_prefix_lookup. rewrite decide_False by auto. done.
Qed.

Lemma ops_outside_agree p kv ops : Forall (op_outside p) ops → agrees p kv (foldl spec_operation kv ops).
Proof.
  intros Ho. revert kv. induction Ho as [|op ops Hop _ IH]; intros kv k Hk; [done|]. cbn [foldl].
  rewrite IH by done. by apply (op_outside_agrees p).
Qed.

Lemma prefix_common (a b k : bytes) :
  a `prefix_of` k → b `prefix_of` k → length a = length b → a = b.
Proof. intros [t ->] [t' E] Hl. by apply app_inj_1 in E as [-> _]. Qed.

Section durability.
Context {T C : Type} `{RedbSpec T C} `{Allocator} `{CodecsSpec}.
Implicit Types (s : SegmentStore (T := T) (C := C)) (d : SegmentDescriptor)
  (records : list (SegmentRecordLocation * bytes)) (kv : gmap bytes bytes).

Lemma prefix_chain d k : record_prefix d `prefix_of` k → payload_prefix d `prefix_of` k.
Proof. intros [t ->]. unfold record_prefix. rewrite <- (assoc_L (++)). by eexists. Qed.

Lemma manifest_prefix d : payload_prefix d `prefix_of` manifest_key d.
Proof. by eexists. Qed.

Lemma stored_frame kv kv' d records :
  agrees (payload_prefix d) kv kv' → stored kv d records → stored kv' d records.
Proof.
  intros Ha [(m & Hm & Hk) Hin]. split.
  - exists m. split; [done|]. rewrite Ha; [done|]. apply manifest_prefix.
  - intros k v. rewrite Hin. split; intros [Hk' Hp]; (split; [|done]); [rewrite Ha|rewrite <- Ha]; by try apply prefix_chain.
Qed.

Lemma compatible_frame kv kv' d records :
  agrees (payload_prefix d) kv kv' → compatible kv d records → compatible kv' d records.
Proof. intros Ha Hc k v Hk Hp. apply Hc; [|done]. rewrite <- Ha; [done|]. by apply prefix_chain. Qed.

(** The keys of payloads with different checksums are disjoint. *)
Lemma payload_prefix_apart d d' k :
  length (checksum d) = length (checksum d') → checksum d ≠ checksum d' →
  payload_prefix d `prefix_of` k → ¬ payload_prefix d' `prefix_of` k.
Proof.
  intros Hl Hne Hk Hk'. apply Hne.
  assert (payload_prefix d = payload_prefix d') as E.
  { eapply prefix_common; [done..|]. unfold payload_prefix. rewrite !length_app. lia. }
  by apply app_inv_head in E.
Qed.

Lemma operations_outside d d' st ops :
  length (checksum d) = length (checksum d') → checksum d ≠ checksum d' →
  payload_operations d' st = Ok ops → Forall (op_outside (payload_prefix d)) ops.
Proof.
  intros Hl Hne (m & _ & ->)%payload_operations_puts. apply Forall_fmap, Forall_forall.
  intros [k v] Hin Hk. cbn in Hk. eapply payload_prefix_apart; [done..|].
  apply elem_of_app in Hin as [Hin|[= -> ->]%list_elem_of_singleton]; [|apply manifest_prefix].
  by eapply prefix_chain, record_key_prefix.
Qed.

Lemma checksum_length d records : payload_ok d records → length (checksum d) = 32%nat.
Proof.
  intros Hok. rewrite (payload_sum _ _ Hok). set (x := _ ++ _). pose proof (blake3_length x) as E.
  unfold zlen in E. lia.
Qed.

Lemma stored_captured p captured opss kv :
  pending_inv p → captured_ok p captured →
  Forall2 (λ x o, payload_operations x.1 x.2 = Ok o) captured opss →
  Forall (λ x, compatible kv x.1 (staged_records x.2)) captured →
  Forall (λ x, stored (foldl spec_operation kv (concat opss)) x.1 (staged_records x.2)) captured.
Proof.
  intros Hinv [Hnd Hok] Hops. revert kv Hnd Hok.
  induction Hops as [|[d st] o captured opss Ho Hops IH]; intros kv Hnd Hok Hc; [constructor|].
  change (captured_names ((d, st) :: captured)) with (file_name d :: captured_names captured) in Hnd.
  apply NoDup_cons in Hnd as [Hnin Hnd]. apply Forall_cons in Hok as [(Hst & Hd & _) Hok], Hc as [Hc0 Hc].
  cbn in Hst, Hd, Ho, Hc0. cbn [concat]. rewrite foldl_app.
  assert (∀ x, x ∈ (d, st) :: captured → payload_ok x.1 (staged_records x.2)) as Hpay.
  { intros x [->|Hx]%elem_of_cons.
    - pose proof (inv_staged _ Hinv _ _ Hst) as (_ & Hp & _). cbn. by rewrite Hd in Hp.
    - rewrite Forall_forall in Hok. destruct (Hok x Hx) as (Hx1 & Hx2 & _).
      pose proof (inv_staged _ Hinv _ _ Hx1) as (_ & Hp & _). by rewrite Hx2 in Hp. }
  assert (∀ x, x ∈ captured → length (checksum d) = length (checksum x.1) ∧ checksum d ≠ checksum x.1) as Hdiff.
  { intros x Hx. pose proof (Hpay (d, st) ltac:(by left)) as Hp. pose proof (Hpay x ltac:(by right)) as Hp'.
    cbn in Hp. split; [by rewrite (checksum_length _ _ Hp), (checksum_length _ _ Hp')|]. intros E. apply Hnin.
    rewrite (payload_name _ _ Hp), E, <- (payload_name _ _ Hp'). apply list_elem_of_fmap. by exists x. }
  constructor.
  - cbn. eapply stored_frame; [|apply stored_by_operations; [done|apply (Hpay (d, st)); by left|done]].
    apply ops_outside_agree. clear -Hops Hdiff. induction Hops as [|x o' captured opss Ho' _ IH]; [constructor|].
    cbn [concat]. apply Forall_app. split; [|apply IH; intros y Hy; apply Hdiff; by right].
    destruct (Hdiff x ltac:(by left)). by eapply operations_outside.
  - apply IH; [done|done|]. rewrite Forall_forall in *. intros x Hx. eapply compatible_frame; [|by apply Hc].
    apply ops_outside_agree. destruct (Hdiff x Hx). eapply operations_outside; [| |exact Ho]; done.
Qed.

Lemma operations_ok captured ops : operations_of captured ops →
  Forall (λ x, Forall (λ r, value_ok r.2) (staged_records x.2)) captured → Forall operation_ok ops.
Proof.
  intros (opss & -> & Hops) Hv. induction Hops as [|[d st] o captured opss Ho _ IH]; [constructor|].
  apply Forall_cons in Hv as [Hv0 Hv]. cbn [concat]. apply Forall_app. split; [|by apply IH].
  cbn in Ho, Hv0. apply payload_operations_puts in Ho as (m & Hm & ->).
  apply Forall_fmap, Forall_app. split.
  - apply Forall_fmap. eapply Forall_impl; [exact Hv0|]. done.
  - apply Forall_singleton. by apply (manifest_roundtrip _ _ Hm).
Qed.

Lemma outside_prefix d op : op_outside PREFIX op → op_outside (payload_prefix d) op.
Proof.
  assert (∀ k, payload_prefix d `prefix_of` k → PREFIX `prefix_of` k) as Hp.
  { intros k [t ->]. unfold payload_prefix. rewrite <- (assoc_L (++)). by eexists. }
  destruct op; cbn; eauto.
Qed.

Lemma pending_operations_frame s descriptors publication s' r :
  pending_operations s descriptors publication = (s', r) → database s' = database s ∧ pins s' = pins s.
Proof.
  unfold pending_operations. destruct (_ || _); [by intros [= <- <-]|].
  destruct (capture _ _ _ _ _) as [[ops captured]|e|w]; [|by intros [= <- <-]..].
  destruct (bind_captured _ _ _). by intros [= <- <-].
Qed.

(** What a captured payload is once a batch with its operations is committed. *)
Lemma committed_stored s id kv b descriptors publication first extra s1 ops s2 d st :
  db_inv (database s) id kv b → pending_inv (pending s) → bookmark_wf publication → u64 first →
  Forall operation_ok extra → Forall (op_outside PREFIX) extra →
  d ∈ descriptors → payloads (pending s) !! file_name d = Some st → staged_descriptor st = d →
  (∀ name st', payloads (pending s) !! name = Some st' →
               compatible kv (staged_descriptor st') (staged_records st')) →
  pending_operations s descriptors publication = (s1, Ok ops) →
  commit_records s1 [mkRecordBatch first publication (extra ++ ops)] = (s2, Ok tt) →
  pending_inv (pending s1) ∧ pending s2 = pending s1
  ∧ (∃ st1, payloads (pending s1) !! file_name d = Some st1 ∧ staged_descriptor st1 = d
            ∧ staged_records st1 = staged_records st)
  ∧ ∃ kv', db_inv (database s2) id kv' publication ∧ stored kv' d (staged_records st).
Proof.
  intros Hdb Hinv Hpub Hfirst Hxok Hxout Hin Hst Hd Hcompat Hops Hcommit.
  pose proof (pending_operations_spec s descriptors publication Hinv) as Hp. rewrite Hops in Hp.
  destruct Hp as (Hinv1 & captured & Hcap & Hof & Hall & Hpay1).
  destruct (pending_operations_frame _ _ _ _ _ Hops) as [Hdb1 _].
  unfold commit_records in Hcommit. set (batch := mkRecordBatch _ _ _) in *. rewrite Hdb1 in Hcommit.
  assert (Forall (λ x, payload_ok x.1 (staged_records x.2) ∧ compatible kv x.1 (staged_records x.2)) captured) as Hx.
  { destruct Hcap as [_ Hcap]. eapply Forall_impl; [exact Hcap|]. intros [d' st'] (Hst' & Hd' & _). cbn in *.
    subst d'. split; [apply (inv_staged _ Hinv _ _ Hst')|by eapply Hcompat]. }
  apply Forall_and in Hx as [Hpay Hcomp].
  assert (batch_ok batch) as Hbatch.
  { split; [|done]. cbn. apply Forall_app. split; [done|]. eapply operations_ok; [done|].
    eapply Forall_impl; [exact Hpay|]. intros x Hx. eapply Forall_impl; [apply Hx|]. by intros ? []. }
  pose proof (commit_spec (database s) id kv b [batch] Hdb (proj2 (Forall_singleton _ _) Hbatch)) as Hc.
  destruct (commit (database s) [batch]) as [db' r]. injection Hcommit as <- ->. destruct Hc as [Hdb' _].
  split_and!; [done|done| |].
  - rewrite Hpay1. unfold bound_payload. rewrite Hst. cbn. eexists. split; [done|]. by case_decide.
  - cbn [database]. eexists. split; [exact Hdb'|]. cbn [spec_batches foldl operations batch]. rewrite foldl_app.
    destruct Hof as (opss & -> & Hof).
    assert ((d, st) ∈ captured) as Hmem.
    { destruct Hcap as [_ Hcap]. rewrite Forall_forall in Hcap.
      specialize (Hall d Hin ltac:(by eexists)). apply list_elem_of_fmap in Hall as ([d' st'] & Hn & Hmem).
      destruct (Hcap _ Hmem) as (Hst' & Hd' & _). cbn in *. rewrite <- Hn in Hst'. by simplify_eq. }
    assert (Forall (λ x, compatible (foldl spec_operation kv extra) x.1 (staged_records x.2)) captured) as Hcomp'.
    { eapply Forall_impl; [exact Hcomp|]. intros x Hx. eapply compatible_frame; [|exact Hx].
      apply ops_outside_agree. eapply Forall_impl; [exact Hxout|]. apply outside_prefix. }
    pose proof (stored_captured _ _ _ _ Hinv Hcap Hof Hcomp') as Hs. rewrite Forall_forall in Hs.
    by apply (Hs (d, st)).
Qed.

(** C25: payloads published in a committed batch, with whatever metadata the
    batch also holds, read back unchanged at every moment: staged before the
    commit, and from the database once their staging is retired. *)
Theorem published_payload_survives s id kv b descriptors publication first extra s1 ops s2 s3 d st values :
  db_inv (database s) id kv b → pending_inv (pending s) → bookmark_wf publication → u64 first →
  Forall operation_ok extra → Forall (op_outside PREFIX) extra →
  d ∈ descriptors → payloads (pending s) !! file_name d = Some st → staged_descriptor st = d →
  decodes (staged_records st) values →
  (∀ name st', payloads (pending s) !! name = Some st' →
               compatible kv (staged_descriptor st') (staged_records st')) →
  pending_operations s descriptors publication = (s1, Ok ops) →
  commit_records s1 [mkRecordBatch first publication (extra ++ ops)] = (s2, Ok tt) →
  release_committed_through s2 publication = (s3, Ok tt) →
  read s1 d = Ok values ∧ read s2 d = Ok values ∧ posts read_fails (read s3 d) (λ r, r = values).
Proof.
  intros Hdb Hinv Hpub Hfirst Hxok Hxout Hin Hst Hd Hdec Hcompat Hops Hcommit Hrelease.
  destruct (committed_stored s id kv b descriptors publication first extra s1 ops s2 d st)
    as (Hinv1 & Hp2 & (st1 & Hst1 & Hd1 & Hr1) & kv' & Hdb2 & Hstored); [done..|].
  split_and!; [by eapply read_staged; [..|rewrite Hr1]|by eapply (read_staged s2); rewrite ?Hp2; [..|rewrite Hr1]|].
  destruct (release_spec s2 publication) as (s3' & Hrel & Hinv3 & Hdb3 & _ & Hp3); [by rewrite Hp2|].
  rewrite Hrelease in Hrel. injection Hrel as <-. specialize (Hp3 (file_name d)). rewrite Hp2, Hst1 in Hp3. cbn in Hp3.
  destruct (released publication st1) as [st3|] eqn:Hst3.
  - assert (staged_descriptor st3 = d ∧ staged_records st3 = staged_records st) as [Hd3 Hr3].
    { unfold released in Hst3. destruct (latest_bound (claims st1)); [|by simplify_eq].
      destruct (_ <=? _); [destruct (_ =? 0)|]; by simplify_eq. }
    by rewrite (read_staged s3 d st3 values); [..|rewrite Hr3].
  - eapply (read_durable s3 id kv'); [by rewrite Hdb3| |done|done|done].
    pose proof (inv_staged _ Hinv _ _ Hst) as (_ & Hok & _). by rewrite Hd in Hok.
Qed.

(** ** Reclamation *)

(** A checksum is an array of 32 bytes. *)
Definition checksum_wf d : Prop := length (checksum d) = 32%nat ∧ bytes_wf (checksum d).

Lemma validate_name d u : validate_descriptor d = Ok u → file_name d = hex_encode (checksum d).
Proof. unfold validate_descriptor. by case_bool_decide. Qed.

Lemma reclaim_loop_spec candidates live seen operations ops :
  reclaim_loop candidates live seen operations = Ok ops →
  ∃ victims, (ops = operations ++ map (λ d, DeletePrefix (payload_prefix d)) victims)
    ∧ Forall (λ d, d ∈ candidates ∧ (file_name d ∉ live) ∧ file_name d = hex_encode (checksum d)) victims
    ∧ (∀ d, d ∈ candidates → (file_name d ∉ live) → (file_name d ∉ seen) →
            ∃ d', d' ∈ victims ∧ file_name d' = file_name d)
    ∧ Forall (λ d, file_name d = hex_encode (checksum d)) candidates.
Proof.
  revert seen operations. induction candidates as [|d candidates IH]; intros seen operations; cbn [reclaim_loop].
  { intros [= <-]. exists []. rewrite app_nil_r. split_and!; [done|constructor| |constructor]. intros d Hd. by apply elem_of_nil in Hd. }
  intros (u & Hu & Hr)%bind_Ok_inv. apply validate_name in Hu.
  case_bool_decide as Hlive; cbn [negb andb] in Hr; [|case_bool_decide as Hseen; cbn [negb] in Hr].
  - apply IH in Hr as (victims & -> & Hv & Hall & Hn). exists victims. split_and!; [done| | |by constructor].
    + eapply Forall_impl; [exact Hv|]. set_solver.
    + intros d' [->|Hd]%elem_of_cons; [done|]. by apply Hall.
  - apply IH in Hr as (victims & -> & Hv & Hall & Hn). exists victims. split_and!; [done| | |by constructor].
    + eapply Forall_impl; [exact Hv|]. set_solver.
    + intros d' [->|Hd]%elem_of_cons; [done|]. by apply Hall.
  - apply IH in Hr as (victims & -> & Hv & Hall & Hn). exists (d :: victims). split_and!; [| | |by constructor].
    + by rewrite <- (assoc_L (++)).
    + constructor; [set_solver|]. eapply Forall_impl; [exact Hv|]. set_solver.
    + intros d' [->|Hd]%elem_of_cons Hl Hs; [exists d; set_solver|].
      destruct (decide (file_name d' = file_name d)) as [E|E]; [exists d; set_solver|].
      destruct (Hall d' Hd Hl) as (d'' & ? & ?); [set_solver|]. exists d''. set_solver.
Qed.

Lemma delete_prefixes_lookup kv (ps : list bytes) k :
  foldl spec_operation kv (map DeletePrefix ps) !! k
  = if decide (Exists (λ p, p `prefix_of` k) ps) then None else kv !! k.
Proof.
  revert kv. induction ps as [|p ps IH]; intros kv; cbn [map foldl].
  { rewrite decide_False; [done|]. by intros ?%Exists_nil. }
  rewrite IH. cbn [spec_operation]. rewrite without_prefix_lookup.
  destruct (decide (Exists (λ p, p `prefix_of` k) ps)) as [He|He], (decide (p `prefix_of` k)) as [Hp|Hp],
    (decide (Exists (λ p, p `prefix_of` k) (p :: ps))) as [He'|He']; rewrite Exists_cons in He'; try done; tauto.
Qed.

(** C27: reclaiming removes every key of the candidates that are not live and
    no key of a live payload, so live payloads stay stored. *)
Theorem reclamation_spares_live candidates live ops kv :
  reclamation_operations candidates live = Ok ops → Forall checksum_wf candidates →
  (∀ d records, checksum_wf d → file_name d = hex_encode (checksum d) → file_name d ∈ live →
                stored kv d records → stored (foldl spec_operation kv ops) d records)
  ∧ ∀ d k, d ∈ candidates → file_name d ∉ live →
           payload_prefix d `prefix_of` k → foldl spec_operation kv ops !! k = None.
Proof.
  intros (victims & -> & Hv & Hall & Hnames)%reclaim_loop_spec Hwf. cbn [app].
  replace (map (λ d, DeletePrefix (payload_prefix d)) victims) with (map DeletePrefix (map payload_prefix victims))
    by (by rewrite map_map).
  rewrite Forall_forall in Hv, Hwf, Hnames. split.
  - intros d records Hd Hname Hlive. apply stored_frame. intros k Hk. rewrite delete_prefixes_lookup, decide_False; [done|].
    intros (p & Hp & Hpk)%Exists_exists. apply list_elem_of_fmap in Hp as (d' & -> & Hd').
    destruct (Hv _ Hd') as (Hc & Hnl & Hn'). eapply (payload_prefix_apart d d'); [|..|done|done].
    + by rewrite (proj1 Hd), (proj1 (Hwf _ Hc)).
    + intros E. apply Hnl. by rewrite Hn', <- E, <- Hname.
  - intros d k Hd Hnl Hk. rewrite delete_prefixes_lookup, decide_True; [done|].
    destruct (Hall d Hd Hnl) as (d' & Hd' & Hn); [set_solver|]. apply Exists_exists. exists (payload_prefix d').
    split; [apply list_elem_of_fmap; by exists d'|]. unfold payload_prefix in *.
    destruct (Hv _ Hd') as (Hc & _). rewrite (Hnames d Hd), (Hnames d' Hc) in Hn.
    by rewrite (hex_inj _ _ (proj2 (Hwf d' Hc)) (proj2 (Hwf d Hd)) Hn).
Qed.

(** ** Pins *)

(** What a pin protects: everything but the number of its holders. *)
Definition same_pin (a b : PinnedPayload (T := T) (C := C)) : Prop :=
  pin_descriptor a = pin_descriptor b ∧ pin_staged a = pin_staged b ∧ pin_reader a = pin_reader b.

(** A step during which the pin stays registered. *)
Definition held_step (name : bytes) s s' : Prop := segment_step s s' ∧ is_Some (pins s' !! name).

Lemma step_pins s s' : segment_step s s' →
  pins s' = pins s
  ∨ (∃ d, s' = (pin s d).1) ∨ ∃ name, s' = unpin s name.
Proof.
  intros [s0 family project count record_at Hrec|s0 ds pub|s0 batches|s0 b|s0 d|s0 d|s0 name]; try eauto; left.
  - unfold write_immutable_streaming_indexed. destruct (negb _); [done|].
    destruct (encode_records _ _ _ _ _ _) as [[[hash total] records]|e|w]; [|done|done]. cbn [pending].
    destruct (payloads (pending s0) !! _); [|done]. destruct (negb _); [done|]. by destruct (checked_add _ _ _).
  - destruct (pending_operations s0 ds pub) as [s1 r] eqn:E. by apply pending_operations_frame in E as [_ ?].
  - unfold commit_records. by destruct (commit _ _).
  - unfold release_committed_through. by destruct (release_rounds _ _ _).
Qed.

Lemma pin_keeps s d name pinned :
  pins s !! name = Some pinned → ∃ pinned', pins (pin s d).1 !! name = Some pinned' ∧ same_pin pinned pinned'.
Proof.
  intros Hp. unfold pin. destruct (validate_descriptor d); [|by exists pinned..].
  destruct (decide (name = file_name d)) as [->|Hne].
  - rewrite Hp. case_bool_decide; cbn [negb]; [|by exists pinned]. eexists. cbn. by rewrite lookup_insert_eq.
  - destruct (pins s !! file_name d) as [other|].
    + case_bool_decide; cbn [negb]; [|by exists pinned]. exists pinned. cbn. by rewrite lookup_insert_ne.
    + match goal with |- context [match ?m with Ok _ => _ | _ => _ end] => destruct m end; [|by exists pinned..].
      exists pinned. cbn. by rewrite lookup_insert_ne.
Qed.

Lemma unpin_keeps s name' name pinned :
  pins s !! name = Some pinned → is_Some (pins (unpin s name') !! name) →
  ∃ pinned', pins (unpin s name') !! name = Some pinned' ∧ same_pin pinned pinned'.
Proof.
  intros Hp. unfold unpin. destruct (decide (name' = name)) as [->|Hne].
  - rewrite Hp. cbn. destruct (strong pinned) as [|[|n]]; [rewrite lookup_delete_eq; by intros []..|].
    intros _. eexists. by rewrite lookup_insert_eq.
  - intros _. destruct (pins s !! name') as [other|]; [|by exists pinned]. exists pinned. cbn.
    destruct (strong other) as [|[|n]]; [by rewrite lookup_delete_ne..|by rewrite lookup_insert_ne].
Qed.

Lemma held_keeps name s s' pinned :
  rtc (held_step name) s s' → pins s !! name = Some pinned →
  ∃ pinned', pins s' !! name = Some pinned' ∧ same_pin pinned pinned'.
Proof.
  intros Hs. revert pinned. induction Hs as [s|s s1 s2 [Hstep Hheld] _ IH]; intros pinned Hp; [by exists pinned|].
  assert (∃ p1, pins s1 !! name = Some p1 ∧ same_pin pinned p1) as (p1 & Hp1 & (E1 & E2 & E3)).
  { destruct (step_pins _ _ Hstep) as [->|[[d ->]|[name' ->]]]; [by exists pinned|by apply pin_keeps|].
    by apply unpin_keeps. }
  destruct (IH p1 Hp1) as (p2 & Hp2 & (F1 & F2 & F3)). exists p2. split; [done|].
  split_and!; [by rewrite E1|by rewrite E2|by rewrite E3].
Qed.

Lemma pin_first s d s1 name :
  pins s !! file_name d = None → pin s d = (s1, Ok name) →
  name = file_name d ∧ validate_descriptor d = Ok tt ∧ ∃ pinned,
    pins s1 !! file_name d = Some pinned ∧ pin_descriptor pinned = d
    ∧ pin_staged pinned = payloads (pending s) !! file_name d
    ∧ pin_reader pinned = match payloads (pending s) !! file_name d with
                          | Some _ => None | None => Some (database s)
                          end.
Proof.
  intros Hnone. unfold pin. destruct (validate_descriptor d) as [[]|e|w]; [|done|done]. rewrite Hnone.
  destruct (payloads (pending s) !! file_name d) as [st|] eqn:Hst.
  - case_bool_decide; cbn [negb]; [|done]. intros [= <- <-]. split_and!; [done|done|]. eexists. cbn.
    by rewrite lookup_insert_eq.
  - unfold reader. destruct (transaction_call BeginRead); rbind; [|done|done].
    destruct (manifest_from_reader _ _); rbind; [|done|done]. intros [= <- <-]. split_and!; [done|done|].
    eexists. cbn. by rewrite lookup_insert_eq.
Qed.

(** While a pin is held, the records of its payload read as they did when
    it was taken, whatever is published, committed, reclaimed or retired. *)
Theorem pinned_payload_stable s d s1 s2 records values :
  pins s !! file_name d = None → pin s d = (s1, Ok (file_name d)) → rtc (held_step (file_name d)) s1 s2 →
  payload_ok d records → decodes records values →
  (∀ st, payloads (pending s) !! file_name d = Some st → staged_descriptor st = d → staged_records st = records →
     ∀ i r v, records !! i = Some r → values !! i = Some v → read_record_at s2 d r.1 = Ok v)
  ∧ (∀ id kv b, payloads (pending s) !! file_name d = None → db_inv (database s) id kv b → stored kv d records →
     payloads (pending s2) !! file_name d = None →
     ∀ i r v, records !! i = Some r → values !! i = Some v →
              posts read_fails (read_record_at s2 d r.1) (λ v', v' = v)).
Proof.
  intros Hnone Hpin Hheld Hok Hdec.
  destruct (pin_first _ _ _ _ Hnone Hpin) as (_ & Hv & pinned & Hp1 & Hpd & Hps & Hpr).
  destruct (held_keeps _ _ _ _ Hheld Hp1) as (pinned2 & Hp2 & (E1 & E2 & E3)). rewrite Hps in E2. rewrite Hpr in E3.
  split.
  - intros st Hst Hd Hr i r v Hi Hvi. unfold read_record_at. rewrite Hst in E2.
    rewrite Hv, (extent_checked _ _ _ _ Hok Hi), Hp2. rbind. cbn [mbind option_bind]. rewrite <- E2.
    subst records. by eapply read_staged_found.
  - intros id kv b Hst Hdb Hstored Hst2 i r v Hi Hvi. rewrite Hst in E2, E3. unfold read_record_at.
    rewrite Hv, (extent_checked _ _ _ _ Hok Hi), Hp2, Hst2. rbind. cbn [mbind option_bind]. rewrite <- E2, <- E3. cbv zeta.
    eapply posts_bind; [by eapply reader_get_spec|]. intros found ->. by eapply stored_record_at.
Qed.
End durability.
