(* ===== verification/SegmentMemory.v ===== *)
(** * Segment store: an in-memory instance

    Simple codecs that satisfy [CodecsSpec] (length-prefixed fields and
    hexadecimal text), and the theorems on the segment store applied to it. *)

From stdpp Require Import prelude gmap strings sorting.
From Stdlib Require Import ZArith Lia.
From S2P Require Import Prelude Machine Types Document Records RecordsTheorems RecordsStore RecordsMemory Segment SegmentTheorems SegmentReads SegmentDurability.

Local Open Scope Z_scope.

(** A field is its length and its content. *)
Definition pack (field rest : bytes) : bytes := zlen field :: field ++ rest.
Definition unpack (bs : bytes) : option (bytes * bytes) :=
  match bs with n :: bs => Some (firstn (Z.to_nat n) bs, skipn (Z.to_nat n) bs) | [] => None end.

Lemma unpack_pack field rest : unpack (pack field rest) = Some (field, rest).
Proof.
  unfold unpack, pack. unfold zlen. rewrite Nat2Z.id. by rewrite take_app_length, drop_app_length.
Qed.

Definition hex_digit (x : Z) : Z := if x <? 10 then 48 + x else 87 + x.

Definition sized (bs : bytes) : outcome string bytes :=
  if zlen bs <=? isize_max then Ok bs else Err "too large"%string.

Lemma sized_Ok bs bs' : sized bs = Ok bs' → bs' = bs ∧ value_ok bs.
Proof. unfold sized. destruct (Z.leb_spec (zlen bs) isize_max); [by intros [= <-]|done]. Qed.

Definition families : list SegmentFamily :=
  [Nodes; Edges; NodeTemporal; EdgeTemporal; Embeddings; BrokerPayload; BrokerReferences; BrokerCoordination;
   Security; Catalog].

Definition pack_manifest (m : Manifest) : bytes :=
  let d := descriptor m in
  [family_as_u8 (family d)] ++ pack (file_name d) (pack (checksum d)
    ([descriptor_bytes d; manifest_records m] ++ match project_id d with Some p => 1 :: p | None => [0] end)).

Definition unpack_manifest (bs : bytes) : option Manifest :=
  match bs with
  | f :: bs =>
      fam ← get families f;
      '(name, bs) ← unpack bs;
      '(sum, bs) ← unpack bs;
      match bs with
      | n :: r :: tag :: p =>
          Some (mkManifest (mkDescriptor fam (if tag =? 1 then Some p else None) name n sum) r)
      | _ => None
      end
  | [] => None
  end.

Lemma unpack_pack_manifest m : unpack_manifest (pack_manifest m) = Some m.
Proof.
  destruct m as [[fam proj name n sum] r]. unfold pack_manifest, unpack_manifest. cbn [descriptor family app].
  assert (get families (family_as_u8 fam) = Some fam) as -> by (by destruct fam).
  cbn [mbind option_bind file_name checksum]. rewrite unpack_pack. cbn [mbind option_bind]. rewrite unpack_pack.
  cbn [mbind option_bind descriptor_bytes manifest_records project_id]. by destruct proj.
Qed.

#[global] Instance memory_codecs : Codecs := {
  postcard_record r := sized (kind r :: payload r);
  postcard_record_from bs := match bs with k :: p => Ok (mkSegmentRecord k p) | [] => Err "empty"%string end;
  postcard_manifest m := sized (pack_manifest m);
  postcard_manifest_from bs := match unpack_manifest bs with Some m => Ok m | None => Err "bad"%string end;
  hex_encode := flat_map (λ b, [hex_digit (b / 16); hex_digit (b mod 16)]);
}.

Lemma hex_digit_inj x y : 0 ≤ x < 16 → 0 ≤ y < 16 → hex_digit x = hex_digit y → x = y.
Proof. unfold hex_digit. destruct (Z.ltb_spec x 10), (Z.ltb_spec y 10); lia. Qed.

Lemma sized_safe bs : aborts (sized bs) = false.
Proof. unfold sized. by destruct (_ <=? _). Qed.

Lemma hex_encode_inj a b : bytes_wf a → bytes_wf b → hex_encode a = hex_encode b → a = b.
Proof.
  intros Ha. revert b. induction Ha as [|x a Hx _ IH]; intros [|y b] Hb; try done.
  apply Forall_cons in Hb as [Hy Hb]. cbn. intros [= H1 H2 H3].
  pose proof (Z.div_mod x 16). pose proof (Z.div_mod y 16). unfold u8 in *.
  pose proof (Z.mod_pos_bound x 16). pose proof (Z.mod_pos_bound y 16).
  apply hex_digit_inj in H1; [|split; [apply Z.div_pos; lia|apply Z.div_lt_upper_bound; lia]..].
  apply hex_digit_inj in H2; [|lia..]. f_equal; [lia|]. by apply IH.
Qed.

Lemma memory_record_roundtrip r bs :
  postcard_record r = Ok bs → postcard_record_from bs = Ok r ∧ value_ok bs.
Proof. destruct r as [k p]. cbn [postcard_record memory_codecs kind payload]. by intros [-> ?]%sized_Ok. Qed.

Lemma memory_manifest_roundtrip m bs :
  postcard_manifest m = Ok bs → postcard_manifest_from bs = Ok m ∧ value_ok bs.
Proof.
  cbn [postcard_manifest postcard_manifest_from memory_codecs]. intros [-> ?]%sized_Ok.
  by rewrite unpack_pack_manifest.
Qed.

#[global] Instance memory_codecs_spec : CodecsSpec.
Proof.
  split.
  - exact memory_record_roundtrip.
  - exact memory_manifest_roundtrip.
  - intros r. apply sized_safe.
  - by intros [].
  - intros m. apply sized_safe.
  - intros bs. cbn [postcard_manifest_from memory_codecs]. by destruct (unpack_manifest bs).
  - exact hex_encode_inj.
Qed.

Lemma pair_result {A B} (x : A * B) b : x.2 = b → x = (x.1, b).
Proof. by destruct x; intros <-. Qed.

(** ** One payload from its writing to its reclamation *)

Abbreviation Store := (SegmentStore (T := gmap bytes bytes) (C := gmap (bytes * Z) bytes)).

Definition sample_records : list SegmentRecord := [mkSegmentRecord 1 [5; 6]; mkSegmentRecord 2 [7]].
Definition sample_at (i : Z) : Result SegmentRecord :=
  ok_or (get sample_records i) (Error_internal "payload record disappeared").
Definition sample_project : option bytes := Some (repeat 3 16).

Definition store0 : Store := with_records memory_db.
Definition written := write_immutable_streaming_indexed store0 BrokerPayload sample_project 2 sample_at.
Definition store1 : Store := written.1.
Definition sample_descriptor : SegmentDescriptor :=
  mkDescriptor BrokerPayload sample_project (hex_encode (repeat 0 32)) 21 (repeat 0 32).
Definition sample_locations : list SegmentRecordLocation := [mkLocation 0 3; mkLocation 11 2].

Lemma written_eq : written = (store1, Ok (sample_descriptor, sample_locations)).
Proof. apply pair_result. vm_compute. reflexivity. Qed.

Lemma sample_at_safe i : aborts (sample_at i) = false.
Proof. unfold sample_at. by destruct (get sample_records i). Qed.

Lemma store1_inv : pending_inv (pending store1).
Proof.
  pose proof (write_spec store0 BrokerPayload sample_project 2 sample_at empty_inv sample_at_safe) as Hw.
  unfold written_ok in Hw. fold written in Hw. rewrite written_eq in Hw. apply Hw.
Qed.

Definition sample_staged : list (SegmentRecordLocation * bytes) :=
  [(mkLocation 0 3, [1; 5; 6]); (mkLocation 11 2, [2; 7])].

Lemma sample_decodes : decodes sample_staged sample_records.
Proof. repeat constructor; by vm_compute. Qed.

Definition sample_payload : StagedPayload := mkStaged 0 sample_descriptor sample_staged (mkClaims 1 None).

Lemma store1_payload : payloads (pending store1) !! file_name sample_descriptor = Some sample_payload.
Proof. vm_compute. reflexivity. Qed.

Lemma sample_ok : payload_ok sample_descriptor sample_staged.
Proof. apply (inv_staged _ store1_inv _ _ store1_payload). Qed.

Lemma store1_pending : pending store1 = mkPending {[file_name sample_descriptor := sample_payload]} ∅.
Proof. vm_compute. reflexivity. Qed.

Lemma store1_only name st : payloads (pending store1) !! name = Some st → st = sample_payload.
Proof.
  rewrite store1_pending. cbn [payloads]. by intros [_ <-]%lookup_singleton_Some.
Qed.

Definition publication : Bookmark := mkBookmark 1 1.
Definition store2 : Store := (pending_operations store1 [sample_descriptor] publication).1.
Definition sample_operations : list RecordOp :=
  match (pending_operations store1 [sample_descriptor] publication).2 with Ok ops => ops | _ => [] end.
Definition sample_batch : RecordBatch := mkRecordBatch 1 publication ([Put [1] [9]] ++ sample_operations).
Definition store3 : Store := (commit_records store2 [sample_batch]).1.
Definition store4 : Store := (release_committed_through store3 publication).1.

Lemma published_eq :
  pending_operations store1 [sample_descriptor] publication = (store2, Ok sample_operations).
Proof. apply pair_result. vm_compute. reflexivity. Qed.
Lemma committed_eq : commit_records store2 [sample_batch] = (store3, Ok tt).
Proof. apply pair_result. vm_compute. reflexivity. Qed.
Lemma released_eq : release_committed_through store3 publication = (store4, Ok tt).
Proof. apply pair_result. vm_compute. reflexivity. Qed.

Lemma publication_wf : bookmark_wf publication.
Proof. split; cbn; rlia. Qed.

Lemma extra_ok : Forall operation_ok [Put [1] [9]] ∧ Forall (op_outside PREFIX) [Put [1] [9]].
Proof. split; apply Forall_singleton; [by vm_compute|]. intros [t Ht]. done. Qed.

Lemma empty_compatible d records : compatible ∅ d records.
Proof. intros k v Hk. by rewrite lookup_empty in Hk. Qed.

Lemma store3_stored :
  ∃ kv, db_inv (database store3) [7] kv publication ∧ stored kv sample_descriptor sample_staged.
Proof.
  destruct (committed_stored store1 [7] ∅ Bookmark_default [sample_descriptor] publication 1 [Put [1] [9]]
    store2 sample_operations store3 sample_descriptor sample_payload) as (_ & _ & _ & Hkv);
    [apply memory_db_inv|apply store1_inv|apply publication_wf|rlia|apply extra_ok|apply extra_ok|by left
    |apply store1_payload|done|intros name st ->%store1_only; apply empty_compatible|apply published_eq
    |apply committed_eq|exact Hkv].
Qed.

Lemma staging_invariant_witness :
  rtc segment_step (with_records memory_db) store1 ∧ pending_inv (pending store1).
Proof.
  assert (rtc segment_step (with_records memory_db) store1) as Hs.
  { apply rtc_once. exact (step_write store0 BrokerPayload sample_project 2 sample_at sample_at_safe). }
  split; [exact Hs|exact (staging_invariant memory_db store1 Hs)].
Defined.

Lemma publication_all_or_nothing_witness :
  pending_inv (pending store1)
  ∧ ∃ ops, (pending_operations store1 [sample_descriptor] publication).2 = Ok ops
     ∧ match pending_operations store1 [sample_descriptor] publication with
       | (s', Ok ops) =>
           pending_inv (pending s') ∧ ∃ captured,
             captured_ok (pending store1) captured ∧ operations_of captured ops
             ∧ (∀ d, d ∈ [sample_descriptor] → is_Some (payloads (pending store1) !! file_name d) →
                     file_name d ∈ captured_names captured)
             ∧ ∀ name, payloads (pending s') !! name
                       = bound_payload (pending store1) publication (captured_names captured) name
       | (s', Err _) => s' = store1
       | (_, Abort _) => False
       end.
Proof.
  split; [exact store1_inv|]. exists sample_operations. split; [by rewrite published_eq|].
  exact (publication_all_or_nothing store1 [sample_descriptor] publication store1_inv).
Defined.

Lemma release_retires_published_witness :
  pending_inv (pending store1)
  ∧ ∃ s', release_committed_through store1 publication = (s', Ok tt) ∧ pending_inv (pending s')
      ∧ database s' = database store1 ∧ pins s' = pins store1
      ∧ ∀ name, payloads (pending s') !! name = (payloads (pending store1) !! name ≫= released publication).
Proof. split; [exact store1_inv|]. exact (release_retires_published store1 publication store1_inv). Defined.

Lemma written_payload_reads_witness :
  written = (store1, Ok (sample_descriptor, sample_locations))
  ∧ ∃ records values,
      sample_locations = map fst records ∧ decodes records values ∧ length values = 2%nat.
Proof.
  split; [exact written_eq|].
  destruct (written_payload_reads store0 BrokerPayload sample_project 2 sample_at store1 sample_descriptor
    sample_locations empty_inv sample_at_safe eq_refl written_eq) as (records & values & ? & ? & ? & _).
  by exists records, values.
Defined.

Lemma durable_payload_reads_witness :
  payloads (pending store4) !! file_name sample_descriptor = None
  ∧ posts read_fails (read store4 sample_descriptor) (λ r, r = sample_records).
Proof.
  assert (payloads (pending store4) !! file_name sample_descriptor = None) as Hnone by (vm_compute; reflexivity).
  split; [exact Hnone|]. destruct store3_stored as (kv & Hdb & Hst).
  exact (proj1 (durable_payload_reads store4 [7] kv publication sample_descriptor sample_staged sample_records
    (λ (u : unit) _, Ok u) tt Hdb sample_ok sample_decodes Hst Hnone)).
Defined.

Lemma published_payload_survives_witness :
  pending_operations store1 [sample_descriptor] publication = (store2, Ok sample_operations)
  ∧ commit_records store2 [sample_batch] = (store3, Ok tt)
  ∧ release_committed_through store3 publication = (store4, Ok tt)
  ∧ posts read_fails (read store4 sample_descriptor) (λ r, r = sample_records).
Proof.
  split; [exact published_eq|]. split; [exact committed_eq|]. split; [exact released_eq|].
  apply (published_payload_survives store1 [7] ∅ Bookmark_default [sample_descriptor] publication 1 [Put [1] [9]]
    store2 sample_operations store3 store4 sample_descriptor sample_payload sample_records);
    [apply memory_db_inv|apply store1_inv|apply publication_wf|rlia|apply extra_ok|apply extra_ok|by left
    |apply store1_payload|done|apply sample_decodes|intros name st ->%store1_only; apply empty_compatible
    |apply published_eq|apply committed_eq|apply released_eq].
Defined.

Definition other_descriptor : SegmentDescriptor :=
  mkDescriptor Security None (hex_encode (repeat 1 32)) 0 (repeat 1 32).

Lemma reclamation_spares_live_witness :
  reclamation_operations [other_descriptor; sample_descriptor] {[file_name sample_descriptor]}
  = Ok [DeletePrefix (payload_prefix other_descriptor)]
  ∧ ∃ kv, stored (foldl spec_operation kv [DeletePrefix (payload_prefix other_descriptor)])
            sample_descriptor sample_staged.
Proof.
  assert (reclamation_operations [other_descriptor; sample_descriptor] {[file_name sample_descriptor]}
          = Ok [DeletePrefix (payload_prefix other_descriptor)]) as Hr by (vm_compute; reflexivity).
  assert (Forall checksum_wf [other_descriptor; sample_descriptor]) as Hwf
    by (repeat (apply Forall_cons; split); [..|apply Forall_nil_2]; (split; [done|decided])).
  split; [exact Hr|]. destruct store3_stored as (kv & _ & Hst). exists kv.
  apply (proj1 (reclamation_spares_live [other_descriptor; sample_descriptor] {[file_name sample_descriptor]}
    [DeletePrefix (payload_prefix other_descriptor)] kv Hr Hwf)); [|done|set_solver|done].
  split; [done|decided].
Defined.

Definition pinned_store : Store := (pin store1 sample_descriptor).1.

Lemma pinned_payload_stable_witness :
  pin store1 sample_descriptor = (pinned_store, Ok (file_name sample_descriptor))
  ∧ read_record_at (unpin (share pinned_store (file_name sample_descriptor)
        (mkPinned 1 sample_descriptor (Some sample_payload) None 1)) (file_name sample_descriptor))
      sample_descriptor (mkLocation 11 2) = Ok (mkSegmentRecord 2 [7])
  ∧ read_record_at pinned_store sample_descriptor (mkLocation 11 2) = Ok (mkSegmentRecord 2 [7]).
Proof.
  assert (pin store1 sample_descriptor = (pinned_store, Ok (file_name sample_descriptor))) as Hp
    by (apply pair_result; vm_compute; reflexivity).
  split; [exact Hp|]. split; [vm_compute; reflexivity|].
  exact (proj1 (pinned_payload_stable store1 sample_descriptor pinned_store pinned_store sample_staged sample_records
    eq_refl Hp (rtc_refl _ _) sample_ok sample_decodes) sample_payload store1_payload eq_refl eq_refl
    1%nat _ _ eq_refl eq_refl).
Defined.
