(* ===== verification/Lexer.v ===== *)
(** * Cypher tokenizer: [crates/cypher/src/lexer.rs]

    A source text is a list of Unicode scalar values.  The lexer keeps the
    text from its byte offset on ([rest] is [&source[offset..]]) and its line
    and column; an operation takes the lexer and returns it with a result.

    [char::is_alphabetic] and [char::is_numeric] are tables of the Unicode
    standard: beyond ASCII they are the parameters of the class [Unicode]. *)

From stdpp Require Import prelude strings pretty.
From Stdlib Require Import ZArith Lia Ascii.
From S2P Require Import Prelude Machine Types.

Local Open Scope Z_scope.

(** ** Characters *)

Abbreviation text := (list Z).

Definition newline : Z := 10.

Definition len_utf8 (c : Z) : Z :=
  if c <? 128 then 1 else if c <? 2048 then 2 else if c <? 65536 then 3 else 4.

(** [char::from_u32]: everything but surrogates up to U+10FFFF. *)
Definition char_from_u32 (x : Z) : option Z :=
  if (x <? 55296) || ((57344 <=? x) && (x <? 1114112)) then Some x else None.

Definition between (lo hi c : Z) : bool := (lo <=? c) && (c <=? hi).
Definition is_ascii (c : Z) : bool := c <? 128.
Definition is_ascii_digit (c : Z) : bool := between 48 57 c.
Definition is_ascii_letter (c : Z) : bool := between 65 90 c || between 97 122 c.
Definition is_ascii_hexdigit (c : Z) : bool := is_ascii_digit c || between 65 70 c || between 97 102 c.

(** The code points with the property White_Space. *)
Definition is_whitespace (c : Z) : bool :=
  between 9 13 c || (c =? 32) || (c =? 133) || (c =? 160) || (c =? 5760) || between 8192 8202 c
  || (c =? 8232) || (c =? 8233) || (c =? 8239) || (c =? 8287) || (c =? 12288).

Class Unicode := {
  unicode_alphabetic : Z → bool;
  unicode_numeric : Z → bool;
}.

(** [char::to_digit]. *)
Definition digit_value (c : Z) : option Z :=
  if between 48 57 c then Some (c - 48)
  else if between 97 122 c then Some (c - 87)
  else if between 65 90 c then Some (c - 55)
  else None.
Definition is_digit_of (radix c : Z) : bool :=
  match digit_value c with Some d => d <? radix | None => false end.

(** [from_str_radix] of digits for an unsigned type of the given maximum. *)
Fixpoint digits_value (radix max acc : Z) (digits : text) : option Z :=
  match digits with
  | [] => Some acc
  | c :: digits =>
      d ← digit_value c;
      if d <? radix then
        n ← checked_mul max acc radix;
        n ← checked_add max n d;
        digits_value radix max n digits
      else None
  end.
Definition from_str_radix (radix max : Z) (digits : text) : option Z :=
  match digits with [] => None | _ => digits_value radix max 0 digits end.

(** ** Decimal floating-point literals

    [str::parse::<f64>] of an unsigned literal without an [inf] or [nan]: the
    float nearest to the decimal value, ties to even. *)

Fixpoint decimal_value (acc : Z) (digits : text) : Z :=
  match digits with [] => acc | c :: digits => decimal_value (acc * 10 + (c - 48)) digits end.

(** Splits a leading run of digits off. *)
Fixpoint span_digits (t : text) : text * text :=
  match t with
  | c :: t' => if is_ascii_digit c then let '(ds, rest) := span_digits t' in (c :: ds, rest) else ([], t)
  | [] => ([], [])
  end.

Definition parse_f64 (t : text) : option Z :=
  let '(int, t) := span_digits t in
  let '(frac, t) := match t with
                    | 46 :: t => span_digits t
                    | _ => ([], t)
                    end in
  match int ++ frac with
  | [] => None
  | digits =>
      exponent ←
        match t with
        | [] => Some 0
        | c :: t =>
            if (c =? ch "e") || (c =? ch "E") then
              let '(negative, t) := match t with
                                    | 43 :: t => (false, t)
                                    | 45 :: t => (true, t)
                                    | _ => (false, t)
                                    end in
              match span_digits t with
              | (c :: ds, []) => let v := decimal_value 0 (c :: ds) in Some (if negative : bool then - v else v)
              | _ => None
              end
            else None
        end;
      let scale := exponent - zlen frac in
      Some (f64_nearest (decimal_value 0 digits * 10 ^ Z.max 0 scale) (10 ^ Z.max 0 (- scale)))
  end.

(** ** Tokens *)

Record Span := mkSpan { start : Z; span_end : Z; line : Z; column : Z }.

Inductive Symbol :=
| LeftParen | RightParen | LeftBracket | RightBracket | LeftBrace | RightBrace
| Comma | Dot | Colon | Semicolon | Dollar | Pipe | DoublePipe | Ampersand | Bang
| Plus | Minus | Star | Slash | Percent | Caret | Equal | NotEqual | Less | LessOrEqual
| Greater | GreaterOrEqual | RegexMatch | ArrowLeft | ArrowRight | Range.

Inductive TokenKind :=
| TIdentifier (name : text)
| TString (value : text)
| TInteger (magnitude : Z)
| TFloat (bits : Z)
| TParameter (name : text)
| TSymbol (symbol : Symbol)
| TEnd.

Record Token := mkToken { kind : TokenKind; span : Span }.

Record Lexer := mkLexer {
  rest : text;
  offset : Z;
  at_line : Z;
  at_column : Z;
  ended : bool;
}.

Definition Lexer_new (source : text) : Lexer := mkLexer source 0 1 1 false.

(** An operation on the lexer. *)
Definition Lex (A : Type) : Type := Lexer → Lexer * Result A.

#[global] Instance Lex_ret : MRet Lex := λ A a s, (s, Ok a).
#[global] Instance Lex_bind : MBind Lex := λ A B f m s,
  match m s with
  | (s, Ok a) => f a s
  | (s, Err e) => (s, Err e)
  | (s, Abort w) => (s, Abort w)
  end.
Definition fail {A} (e : Error) : Lex A := λ s, (s, Err e).
Definition lift {A} (m : Result A) : Lex A := λ s, (s, m).

(** The position a token starts at. *)
Abbreviation position := (Z * Z * Z)%type.

Definition detail_error (detail message : string) (p : position) : Error :=
  let '(start, line, column) := p in
  Error_new QuerySyntax
    (detail +:+ ": " +:+ message +:+ " at " +:+ pretty line +:+ ":" +:+ pretty column
     +:+ " (byte " +:+ pretty start +:+ ")").
Definition error (message : string) (p : position) : Error := detail_error "UnexpectedSyntax" message p.
Definition syntax {A} (message : string) (p : position) : Lex A := fail (error message p).
Definition syntax_detail {A} (detail message : string) (p : position) : Lex A :=
  fail (detail_error detail message p).

Definition remaining : Lex text := λ s, (s, Ok (rest s)).
Definition peek : Lex (option Z) := λ s, (s, Ok (head (rest s))).
Definition here : Lex position := λ s, (s, Ok (offset s, at_line s, at_column s)).

(** [str::starts_with]. *)
Fixpoint starts (t p : text) {struct p} : bool :=
  match p, t with
  | [], _ => true
  | x :: p, y :: t => (x =? y) && starts t p
  | _ :: _, [] => false
  end.
Definition at_literal (p : string) : Lex bool := λ s, (s, Ok (starts (rest s) (lit p))).

Definition advance (s : Lexer) (c : Z) (t : text) : Lexer :=
  if c =? newline then mkLexer t (offset s + len_utf8 c) (saturating_add u32_max (at_line s) 1) 1 (ended s)
  else mkLexer t (offset s + len_utf8 c) (at_line s) (saturating_add u32_max (at_column s) 1) (ended s).

Definition bump : Lex (option Z) := λ s,
  match rest s with
  | [] => (s, Ok None)
  | c :: t => (advance s c t, Ok (Some c))
  end.

Definition token (k : TokenKind) (p : position) : Lex Token := λ s,
  let '(start, line, column) := p in (s, Ok (mkToken k (mkSpan start start line column))).
Definition token_at (k : TokenKind) (p : position) : Lex Token := λ s,
  let '(start, line, column) := p in (s, Ok (mkToken k (mkSpan start (offset s) line column))).

(** [while self.peek().is_some_and(predicate) { push(self.bump()) }]: the text
    is shorter after each round, so its length is fuel enough. *)
Fixpoint take_while_fuel (fuel : nat) (predicate : Z → bool) (acc : text) : Lex text :=
  match fuel with
  | O => mret acc
  | S fuel =>
      next ← peek;
      match next with
      | Some c => if predicate c then _ ← bump; take_while_fuel fuel predicate (acc ++ [c]) else mret acc
      | None => mret acc
      end
  end.
Definition take_while (predicate : Z → bool) : Lex text := λ s,
  take_while_fuel (length (rest s)) predicate [] s.

Definition underscore : Z := 95.
(** [text.replace('_', "")]. *)
Definition without_underscores (t : text) : text := filter (λ c, c ≠ underscore) t.
(** [str::trim_start]. *)
Fixpoint trim_start (t : text) : text :=
  match t with c :: t' => if is_whitespace c then trim_start t' else t | [] => [] end.

Definition digit_or_underscore (c : Z) : bool := is_ascii_digit c || (c =? underscore).

Section lexer.
Context `{Unicode}.

Definition is_alphabetic (c : Z) : bool :=
  if is_ascii c then is_ascii_letter c else unicode_alphabetic c.
Definition is_alphanumeric (c : Z) : bool :=
  if is_ascii c then is_ascii_letter c || is_ascii_digit c else unicode_alphabetic c || unicode_numeric c.

Definition is_identifier_start (c : Z) : bool := (c =? underscore) || is_alphabetic c.
Definition is_identifier_continue (c : Z) : bool := (c =? underscore) || is_alphanumeric c.

Definition take_identifier : Lex text := take_while is_identifier_continue.

(** ** Layout *)

(** The inside of a block comment, up to the end of the outermost one. *)
Fixpoint block_comment (fuel : nat) (depth : Z) (p : position) : Lex unit :=
  if depth =? 0 then mret tt
  else
    match fuel with
    | O => lift (Abort OutOfFuel)
    | S fuel =>
        opening ← at_literal "/*";
        if opening : bool then
          _ ← bump; _ ← bump; block_comment fuel (saturating_add u32_max depth 1) p
        else
          closing ← at_literal "*/";
          if closing : bool then
            _ ← bump; _ ← bump; block_comment fuel (saturating_sub depth 1) p
          else
            next ← peek;
            match next with
            | Some _ => _ ← bump; block_comment fuel depth p
            | None => syntax "unterminated block comment" p
            end
    end.

Fixpoint skip_layout_fuel (fuel : nat) : Lex unit :=
  match fuel with
  | O => lift (Abort OutOfFuel)
  | S fuel =>
      _ ← take_while is_whitespace;
      line_comment ← at_literal "//";
      if line_comment : bool then
        _ ← take_while (λ c, negb (c =? newline)); skip_layout_fuel fuel
      else
        opening ← at_literal "/*";
        if opening : bool then
          p ← here;
          _ ← bump; _ ← bump;
          text ← remaining;
          _ ← block_comment (S (length text)) 1 p;
          skip_layout_fuel fuel
        else mret tt
  end.

(** Every round that goes on consumes a comment. *)
Definition skip_layout : Lex unit := λ s, skip_layout_fuel (S (length (rest s))) s.

(** ** Quoted names and strings *)

Definition backtick : Z := 96.
Definition backslash : Z := 92.

Fixpoint quoted_body (fuel : nat) (p : position) (value : text) : Lex text :=
  match fuel with
  | O => lift (Abort OutOfFuel)
  | S fuel =>
      next ← peek;
      match next with
      | None => syntax "unterminated quoted identifier" p
      | Some c =>
          _ ← bump;
          if c =? backtick then
            again ← peek;
            if bool_decide (again = Some backtick) then
              _ ← bump; quoted_body fuel p (value ++ [backtick])
            else mret value
          else quoted_body fuel p (value ++ [c])
      end
  end.

Definition quoted_identifier (p : position) : Lex Token :=
  _ ← bump;
  text ← remaining;
  value ← quoted_body (S (length text)) p [];
  token_at (TIdentifier value) p.

Fixpoint escape_digits (width : nat) (p : position) (digits : text) : Lex text :=
  match width with
  | O => mret digits
  | S width =>
      next ← peek;
      match next with
      | None => syntax_detail "InvalidUnicodeLiteral" "truncated Unicode escape" p
      | Some c =>
          if negb (is_ascii_hexdigit c) then
            syntax_detail "InvalidUnicodeLiteral" "invalid Unicode escape" p
          else _ ← bump; escape_digits width p (digits ++ [c])
      end
  end.

Definition unicode_escape (width : nat) (p : position) : Lex Z :=
  digits ← escape_digits width p [];
  scalar ← lift (ok_or (from_str_radix 16 u32_max digits)
                   (detail_error "InvalidUnicodeLiteral" "invalid Unicode escape" p));
  lift (ok_or (char_from_u32 scalar)
          (detail_error "InvalidUnicodeLiteral" "Unicode escape is not a scalar value" p)).

(** The character an escape stands for. *)
Definition escape (c : Z) (p : position) : Lex Z :=
  if c =? ch "n" then mret 10
  else if c =? ch "r" then mret 13
  else if c =? ch "t" then mret 9
  else if c =? ch "b" then mret 8
  else if c =? ch "f" then mret 12
  else if c =? backslash then mret backslash
  else if c =? ch "'" then mret (ch "'")
  else if c =? 34 then mret 34
  else if c =? ch "u" then unicode_escape 4 p
  else if c =? ch "U" then unicode_escape 8 p
  else syntax "invalid string escape" p.

Fixpoint string_body (fuel : nat) (quote : Z) (p : position) (value : text) : Lex text :=
  match fuel with
  | O => lift (Abort OutOfFuel)
  | S fuel =>
      next ← peek;
      match next with
      | None => syntax "unterminated string literal" p
      | Some c =>
          _ ← bump;
          if c =? quote then
            again ← peek;
            if bool_decide (again = Some quote) then
              _ ← bump; string_body fuel quote p (value ++ [quote])
            else mret value
          else if c =? backslash then
            escaped ← peek;
            match escaped with
            | None => syntax "unterminated string escape" p
            | Some e => _ ← bump; v ← escape e p; string_body fuel quote p (value ++ [v])
            end
          else string_body fuel quote p (value ++ [c])
      end
  end.

Definition string (quote : Z) (p : position) : Lex Token :=
  _ ← bump;
  text ← remaining;
  value ← string_body (S (length text)) quote p [];
  token_at (TString value) p.

(** ** Numbers *)

Definition radix_integer (radix : Z) (invalid : String.string) (p : position) : Lex Token :=
  _ ← bump; _ ← bump;
  digits ← take_while is_identifier_continue;
  if negb (existsb (λ c, negb (c =? underscore)) digits
           && forallb (λ c, (c =? underscore) || (is_ascii c && is_digit_of radix c)) digits) then
    syntax_detail "InvalidNumberLiteral" invalid p
  else
    value ← lift (ok_or (from_str_radix radix u64_max (without_underscores digits))
                    (detail_error "IntegerOverflow" "integer literal is out of range" p));
    token_at (TInteger value) p.

(** The fraction, if the literal has one: [None] when it has not. *)
Definition fraction : Lex (option text) :=
  next ← peek;
  range ← at_literal "..";
  if bool_decide (next = Some (ch ".")) && negb range then
    _ ← bump;
    digits ← take_while digit_or_underscore;
    mret (Some (ch "." :: digits))
  else mret None.

Definition exponent : Lex (option text) :=
  next ← peek;
  match next with
  | Some e =>
      if (e =? ch "e") || (e =? ch "E") then
        _ ← bump;
        sign ← peek;
        signed ← match sign with
                 | Some c => if (c =? ch "+") || (c =? ch "-") then _ ← bump; mret [c] else mret []
                 | None => mret []
                 end;
        digits ← take_while digit_or_underscore;
        mret (Some (e :: signed ++ digits))
      else mret None
  | None => mret None
  end.

Definition decimal_integer (cleaned : text) (p : position) : Lex Token :=
  next ← peek;
  if match next with Some c => is_identifier_continue c | None => false end then
    _ ← take_while is_identifier_continue;
    text ← remaining;
    if starts (trim_start text) (lit ":") then
      syntax "a symbolic name cannot start with a decimal digit" p
    else syntax_detail "InvalidNumberLiteral" "invalid decimal integer literal" p
  else
    magnitude ← lift (ok_or (from_str_radix 10 u64_max cleaned)
                        (detail_error "IntegerOverflow" "integer literal is out of range" p));
    token_at (TInteger magnitude) p.

Definition number (p : position) : Lex Token :=
  text ← remaining;
  if starts text (lit "0x") || starts text (lit "0X") then
    radix_integer 16 "invalid hexadecimal integer literal" p
  else if starts text (lit "0o") || starts text (lit "0O") then
    radix_integer 8 "invalid octal integer literal" p
  else
    integer ← take_while digit_or_underscore;
    frac ← fraction;
    exp ← exponent;
    let cleaned := without_underscores (integer ++ default [] frac ++ default [] exp) in
    if bool_decide (is_Some frac) || bool_decide (is_Some exp) then
      value ← lift (ok_or (parse_f64 cleaned) (error "invalid floating-point literal" p));
      if negb (f64_is_finite value) then
        syntax "FloatingPointOverflow: floating-point literal is not finite" p
      else token_at (TFloat value) p
    else decimal_integer cleaned p.

(** ** Punctuation *)

Definition two_char_symbol (t : text) : option Symbol :=
  if starts t (lit "<-") then Some ArrowLeft
  else if starts t (lit "->") then Some ArrowRight
  else if starts t (lit "<=") then Some LessOrEqual
  else if starts t (lit ">=") then Some GreaterOrEqual
  else if starts t (lit "<>") || starts t (lit "!=") then Some NotEqual
  else if starts t (lit "=~") then Some RegexMatch
  else if starts t (lit "||") then Some DoublePipe
  else if starts t (lit "..") then Some Range
  else None.

Definition one_char_symbol (c : Z) : option Symbol :=
  if c =? ch "(" then Some LeftParen
  else if c =? ch ")" then Some RightParen
  else if c =? ch "[" then Some LeftBracket
  else if c =? ch "]" then Some RightBracket
  else if c =? ch "{" then Some LeftBrace
  else if c =? ch "}" then Some RightBrace
  else if c =? ch "," then Some Comma
  else if c =? ch "." then Some Dot
  else if c =? ch ":" then Some Colon
  else if c =? ch ";" then Some Semicolon
  else if c =? ch "|" then Some Pipe
  else if c =? ch "&" then Some Ampersand
  else if c =? ch "!" then Some Bang
  else if c =? ch "+" then Some Plus
  else if c =? ch "-" then Some Minus
  else if c =? ch "*" then Some Star
  else if c =? ch "/" then Some Slash
  else if c =? ch "%" then Some Percent
  else if c =? ch "^" then Some Caret
  else if c =? ch "=" then Some Equal
  else if c =? ch "<" then Some Less
  else if c =? ch ">" then Some Greater
  else None.

Definition symbol (p : position) : Lex Token :=
  text ← remaining;
  match two_char_symbol text with
  | Some s => _ ← bump; _ ← bump; token_at (TSymbol s) p
  | None =>
      match text with
      | c :: _ =>
          match one_char_symbol c with
          | Some s => _ ← bump; token_at (TSymbol s) p
          | None =>
              if negb (is_ascii c) then
                syntax_detail "InvalidUnicodeCharacter" "Unicode character is not valid Cypher punctuation" p
              else syntax "unexpected character" p
          end
      | [] => syntax "unexpected character" p
      end
  end.

(** ** Tokens *)

Definition parameter (p : position) : Lex Token :=
  expression ← at_literal "$(";
  if expression : bool then _ ← bump; token_at (TSymbol Dollar) p
  else
    _ ← bump;
    name ← take_identifier;
    match name with
    | [] => syntax "parameter name is missing" p
    | _ => token_at (TParameter name) p
    end.

Definition set_ended : Lex unit := λ s,
  (mkLexer (rest s) (offset s) (at_line s) (at_column s) true, Ok tt).

Definition next_token : Lex Token := λ s,
  if ended s then token TEnd (offset s, at_line s, at_column s) s
  else
    (_ ← skip_layout;
     p ← here;
     text ← remaining;
     match text with
     | [] => _ ← set_ended; token TEnd p
     | c :: _ =>
         if c =? backtick then quoted_identifier p
         else if (c =? ch "'") || (c =? 34) then string c p
         else if c =? ch "$" then parameter p
         else if is_ascii_digit c
                 || ((c =? ch ".") && match text with _ :: d :: _ => is_ascii_digit d | _ => false end)
         then number p
         else if is_identifier_start c then
           name ← take_identifier; token_at (TIdentifier name) p
         else symbol p
     end) s.

Fixpoint collect (fuel : nat) (tokens : list Token) (s : Lexer) : Result (list Token) :=
  match fuel with
  | O => Abort OutOfFuel
  | S fuel =>
      let '(s, next) := next_token s in
      token ← next;
      match kind token with
      | TEnd => Ok (tokens ++ [token])
      | _ => collect fuel (tokens ++ [token]) s
      end
  end.

(** Every token but the last consumes a character. *)
Definition lex (source : text) : Result (list Token) :=
  collect (S (length source)) [] (Lexer_new source).
End lexer.
