(* ===== verification/LexerTheorems.v ===== *)
(** * Cypher tokenizer: the lexical grammar

    The tokenizer terminates on every text with tokens or a syntax error; the
    tokens it returns tile the text, separated by layout, each spelled as the
    grammar below says, at the position it reports. *)

From stdpp Require Import prelude strings pretty.
From Stdlib Require Import ZArith Lia Ascii.
From S2P Require Import Prelude Machine Types Lexer.

Local Open Scope Z_scope.

(** ** Consuming text *)

Fixpoint moved (s : Lexer) (cs : text) : Lexer :=
  match cs with [] => s | c :: cs => moved (advance s c (tail (rest s))) cs end.

(** The lexer went over [cs]. *)
Definition consumes (s : Lexer) (cs : text) (s' : Lexer) : Prop :=
  rest s = cs ++ rest s' ∧ s' = moved s cs.

Lemma advance_rest s c t : rest (advance s c t) = t.
Proof. unfold advance. by destruct (c =? newline). Qed.

Lemma advance_ended s c t : ended (advance s c t) = ended s.
Proof. unfold advance. by destruct (c =? newline). Qed.

Lemma consumes_nil s : consumes s [] s.
Proof. done. Qed.

Lemma moved_app s cs cs' : moved s (cs ++ cs') = moved (moved s cs) cs'.
Proof. revert s. induction cs as [|c cs IH]; intros s; cbn; [done|]. apply IH. Qed.

Lemma consumes_app s cs s' cs' s'' : consumes s cs s' → consumes s' cs' s'' → consumes s (cs ++ cs') s''.
Proof.
  intros [Hr ->] [Hr' ->]. split; [by rewrite Hr, Hr', (assoc_L (++))|]. by rewrite moved_app.
Qed.

Lemma moved_ended s cs : ended (moved s cs) = ended s.
Proof. revert s. induction cs as [|c cs IH]; intros s; cbn; [done|]. by rewrite IH, advance_ended. Qed.

Lemma consumes_cons s c t : rest s = c :: t → consumes s [c] (advance s c t).
Proof. intros Hr. split; [by rewrite advance_rest, Hr|]. cbn. by rewrite Hr. Qed.

Lemma consumes_length s cs s' : consumes s cs s' → length (rest s) = (length cs + length (rest s'))%nat.
Proof. intros [-> _]. by rewrite length_app. Qed.

(** ** Specifications of lexer operations

    [lexes s m Q]: from [s], [m] either fails with a syntax error or returns a
    value and consumes some text, and [Q] holds of the value, the text and the
    lexer after it. *)

Definition lexes {A} (s : Lexer) (m : Lex A) (Q : A → text → Lexer → Prop) : Prop :=
  match m s with
  | (s', Ok a) => ∃ cs, consumes s cs s' ∧ Q a cs s'
  | (_, Err e) => code e = QuerySyntax
  | (_, Abort _) => False
  end.

Section rules.
Context {A B : Type}.
Implicit Types (m : Lex A) (Q : A → text → Lexer → Prop).

Lemma lexes_bind s m (f : A → Lex B) Q (R : B → text → Lexer → Prop) :
  lexes s m Q →
  (∀ a cs s', consumes s cs s' → Q a cs s' → lexes s' (f a) (λ b cs', R b (cs ++ cs'))) →
  lexes s (m ≫= f) R.
Proof.
  unfold lexes, mbind, Lex_bind. intros Hm Hf. destruct (m s) as [s' [a|e|w]]; [|done|done].
  destruct Hm as (cs & Hc & HQ). specialize (Hf a cs s' Hc HQ). destruct (f a s') as [s'' [b|e|w]]; [|done|done].
  destruct Hf as (cs' & Hc' & HR). exists (cs ++ cs'). split; [by eapply consumes_app|done].
Qed.

Lemma lexes_ret s (a : A) Q : Q a [] s → lexes s (mret a) Q.
Proof. intros HQ. exists []. by split; [apply consumes_nil|]. Qed.

Lemma lexes_mono s m Q R : lexes s m Q → (∀ a cs s', consumes s cs s' → Q a cs s' → R a cs s') → lexes s m R.
Proof. unfold lexes. destruct (m s) as [s' [a|e|w]]; [|done..]. intros (cs & Hc & HQ) HR. exists cs. auto. Qed.

Lemma lexes_syntax s message p Q : lexes s (syntax message p) Q.
Proof. by destruct p as [[? ?] ?]. Qed.

Lemma lexes_syntax_detail s detail message p Q : lexes s (syntax_detail detail message p) Q.
Proof. by destruct p as [[? ?] ?]. Qed.

Lemma lexes_ok_or s (o : option A) detail message p Q :
  (∀ a, o = Some a → Q a [] s) → lexes s (lift (ok_or o (detail_error detail message p))) Q.
Proof.
  intros HQ. unfold lexes, lift. destruct o as [a|]; [exists []; by split; [apply consumes_nil|apply HQ]|].
  by destruct p as [[? ?] ?].
Qed.

Lemma lexes_ok_or_error s (o : option A) message p Q :
  (∀ a, o = Some a → Q a [] s) → lexes s (lift (ok_or o (error message p))) Q.
Proof. apply lexes_ok_or. Qed.

End rules.

Section reads.
Context {B : Type}.
Implicit Types (R : B → text → Lexer → Prop).

Lemma lexes_peek s f R : lexes s (f (head (rest s))) R → lexes s (peek ≫= f) R.
Proof. done. Qed.
Lemma lexes_remaining s f R : lexes s (f (rest s)) R → lexes s (remaining ≫= f) R.
Proof. done. Qed.
Lemma lexes_here s f R : lexes s (f (offset s, at_line s, at_column s)) R → lexes s (here ≫= f) R.
Proof. done. Qed.
Lemma lexes_at_literal s p f R :
  lexes s (f (starts (rest s) (lit p))) R → lexes s (at_literal p ≫= f) R.
Proof. done. Qed.

Lemma lexes_bump s c t f R :
  rest s = c :: t → lexes (advance s c t) (f (Some c)) (λ b cs, R b (c :: cs)) → lexes s (bump ≫= f) R.
Proof.
  intros Hr Hf. eapply (lexes_bind _ _ _ (λ a cs s', a = Some c ∧ cs = [c] ∧ s' = advance s c t)).
  - unfold lexes, bump. rewrite Hr. exists [c]. split; [by apply consumes_cons|done].
  - by intros a cs s' _ (-> & -> & ->).
Qed.
End reads.

(** The token from a position to here. *)
Definition spanned (k : TokenKind) (p : position) (end_ : Z) : Token :=
  let '(start, line, column) := p in mkToken k (mkSpan start end_ line column).

Lemma lexes_token_at s k p (Q : Token → text → Lexer → Prop) :
  Q (spanned k p (offset s)) [] s → lexes s (token_at k p) Q.
Proof. destruct p as [[? ?] ?]. intros HQ. exists []. by split; [apply consumes_nil|]. Qed.

Lemma starts_spec t p : starts t p = true ↔ ∃ t', t = p ++ t'.
Proof.
  revert t. induction p as [|x p IH]; intros t; cbn; [split; [intros _; by exists t|done]|].
  destruct t as [|y t]; [split; [done|by intros []]|]. rewrite andb_true_iff, Z.eqb_eq, IH.
  split; [intros [-> [t' ->]]; by eexists|]. intros [t' [= -> ->]]. eauto.
Qed.

(** ** Runs of characters *)

Definition stops (predicate : Z → bool) (t : text) : Prop :=
  match t with c :: _ => predicate c = false | [] => True end.

Lemma take_while_fuel_spec fuel predicate acc s :
  (length (rest s) ≤ fuel)%nat →
  lexes s (take_while_fuel fuel predicate acc) (λ taken cs s',
    taken = acc ++ cs ∧ Forall (λ c, predicate c = true) cs ∧ stops predicate (rest s')).
Proof.
  revert acc s. induction fuel as [|fuel IH]; intros acc s Hf; cbn [take_while_fuel].
  { apply lexes_ret. rewrite app_nil_r. split_and!; [done|constructor|]. by destruct (rest s); [|cbn in Hf; lia]. }
  apply lexes_peek. destruct (rest s) as [|c t] eqn:Hr; cbn [head].
  { apply lexes_ret. rewrite app_nil_r, Hr. split_and!; [done|constructor|done]. }
  destruct (predicate c) eqn:Hp.
  - eapply lexes_bump; [done|]. eapply lexes_mono; [apply IH; rewrite advance_rest; cbn in Hf; lia|].
    intros taken cs s' _ (-> & Hall & Hs). rewrite <- (assoc_L (++)). split_and!; [done|by constructor|done].
  - apply lexes_ret. rewrite app_nil_r, Hr. split_and!; [done|constructor|done].
Qed.

Lemma take_while_spec predicate s :
  lexes s (take_while predicate) (λ taken cs s',
    taken = cs ∧ Forall (λ c, predicate c = true) cs ∧ stops predicate (rest s')).
Proof. unfold take_while. by apply (take_while_fuel_spec (length (rest s)) predicate [] s). Qed.

(** ** Positions *)

Definition utf8_len (t : text) : Z := foldr (λ c n, len_utf8 c + n) 0 t.

(** Lines and columns count from one, up to [u32::MAX]. *)
Definition line_of (before : text) : Z :=
  Z.min u32_max (1 + zlen (filter (λ c, c = newline) before)).
Definition last_line (before : text) : text :=
  foldl (λ acc c, if c =? newline then [] else acc ++ [c]) [] before.
Definition column_of (before : text) : Z := Z.min u32_max (1 + zlen (last_line before)).

Lemma utf8_len_app t t' : utf8_len (t ++ t') = utf8_len t + utf8_len t'.
Proof. induction t as [|c t IH]; [done|]. unfold utf8_len in *. cbn [app foldr]. rewrite IH. lia. Qed.

Lemma moved_position source before :
  offset (moved (Lexer_new source) before) = utf8_len before
  ∧ at_line (moved (Lexer_new source) before) = line_of before
  ∧ at_column (moved (Lexer_new source) before) = column_of before.
Proof.
  induction before as [|c before (Ho & Hl & Hc)] using rev_ind; [done|].
  rewrite moved_app, utf8_len_app. cbn [moved]. unfold line_of, column_of, last_line in *.
  rewrite foldl_app, filter_app, zlen_app. unfold advance. cbn [foldl utf8_len foldr].
  destruct (Z.eqb_spec c newline) as [->|Hn]; cbn [offset at_line at_column]; rewrite Ho, ?Hl, ?Hc;
    unfold saturating_add; (split_and!; [lia|..]).
  - rewrite filter_cons_True by done. change (zlen (newline :: filter _ [])) with 1. rlia.
  - done.
  - rewrite filter_cons_False by done. change (zlen (filter _ [])) with 0. lia.
  - rewrite zlen_app. change (zlen [c]) with 1. rlia.
Qed.

(** ** Layout *)

(** The inside of nested block comments, with the number of open ones, which
    the lexer counts up to [u32::MAX]. *)
Inductive comment_body : Z → text → Prop :=
| comment_closed : comment_body 0 []
| comment_open depth t : 0 < depth → comment_body (Z.min u32_max (depth + 1)) t → comment_body depth (lit "/*" ++ t)
| comment_close depth t : 0 < depth → comment_body (depth - 1) t → comment_body depth (lit "*/" ++ t)
| comment_char depth c t :
    0 < depth → starts (c :: t) (lit "/*") = false → starts (c :: t) (lit "*/") = false →
    comment_body depth t → comment_body depth (c :: t).

Inductive layout : text → Prop :=
| layout_nil : layout []
| layout_space c t : is_whitespace c = true → layout t → layout (c :: t)
| layout_line body t :
    Forall (λ c, c ≠ newline) body → (t = [] ∨ ∃ t', t = newline :: t') → layout t →
    layout (lit "//" ++ body ++ t)
| layout_block body t : comment_body 1 body → layout t → layout (lit "/*" ++ body ++ t).

(** Where layout ends. *)
Definition layout_ends (t : text) : Prop :=
  stops is_whitespace t ∧ starts t (lit "//") = false ∧ starts t (lit "/*") = false.

Lemma starts_app t t' p : starts (t ++ t') p = false → starts t p = false.
Proof.
  destruct (starts t p) eqn:E; [|done]. apply starts_spec in E as [t'' ->].
  rewrite <- (assoc_L (++)). intros Hf. by rewrite (proj2 (starts_spec _ _)) in Hf by (by eexists).
Qed.

(** Two characters at the start of the text, as a literal. *)
Lemma starts_two s p a b :
  lit p = [a; b] → starts (rest s) (lit p) = true → ∃ t, rest s = a :: b :: t.
Proof. intros -> [t Ht]%starts_spec. by exists t. Qed.

Lemma lexes_bump_two {B} s a b t (f : Lex B) (R : B → text → Lexer → Prop) :
  rest s = a :: b :: t →
  (∀ s', rest s' = t → lexes s' f (λ x cs, R x (a :: b :: cs))) →
  lexes s (bump ≫= λ _, bump ≫= λ _, f) R.
Proof.
  intros Hr Hf. eapply lexes_bump; [exact Hr|]. eapply lexes_bump; [by rewrite advance_rest|].
  apply Hf. by rewrite advance_rest.
Qed.

Section grammar.
Context `{Unicode}.

Lemma block_comment_spec fuel depth p s :
  0 ≤ depth → (length (rest s) < fuel)%nat →
  lexes s (block_comment fuel depth p) (λ _ cs _, comment_body depth cs).
Proof.
  revert depth s. induction fuel as [|fuel IH]; intros depth s Hd Hf; [lia|]. cbn [block_comment].
  destruct (Z.eqb_spec depth 0) as [->|Hz]; [apply lexes_ret; constructor|].
  apply lexes_at_literal. destruct (starts (rest s) (lit "/*")) eqn:Ho.
  { destruct (starts_two s "/*" 47 42 eq_refl Ho) as [t Hr]. eapply lexes_bump_two; [exact Hr|]. intros s' Hs'.
    rewrite Hr in Hf. eapply lexes_mono; [apply IH; rewrite ?Hs'; cbn in Hf; unfold saturating_add; rlia|].
    intros u cs s'' _ Hb. by apply (comment_open depth cs); [lia|]. }
  apply lexes_at_literal. destruct (starts (rest s) (lit "*/")) eqn:Hc.
  { destruct (starts_two s "*/" 42 47 eq_refl Hc) as [t Hr]. eapply lexes_bump_two; [exact Hr|]. intros s' Hs'.
    rewrite Hr in Hf. unfold saturating_sub. rewrite Z.max_r by lia. eapply lexes_mono; [apply IH; rewrite ?Hs'; cbn in Hf; lia|].
    intros u cs s'' _ Hb. by apply (comment_close depth cs); [lia|]. }
  apply lexes_peek. destruct (rest s) as [|c t] eqn:Hr; cbn [head]; [apply lexes_syntax|].
  eapply lexes_bump; [exact Hr|].
  eapply lexes_mono; [apply IH; rewrite ?advance_rest; cbn in Hf; lia|].
  intros u cs s'' [Hcs _] Hb. rewrite advance_rest in Hcs. subst t.
  apply comment_char; [lia|by eapply starts_app|by eapply starts_app|done].
Qed.

Lemma layout_spaces cs t : Forall (λ c, is_whitespace c = true) cs → layout t → layout (cs ++ t).
Proof. induction 1; intros; [done|]. cbn. constructor; auto. Qed.

Lemma skip_layout_fuel_spec fuel s :
  (length (rest s) < fuel)%nat →
  lexes s (skip_layout_fuel fuel) (λ _ cs s', layout cs ∧ layout_ends (rest s')).
Proof.
  revert s. induction fuel as [|fuel IH]; intros s Hf; [lia|]. cbn [skip_layout_fuel].
  eapply lexes_bind; [apply take_while_spec|]. intros taken cs s1 Hc (-> & Hws & Hstop).
  pose proof (consumes_length _ _ _ Hc) as Hl.
  apply lexes_at_literal. destruct (starts (rest s1) (lit "//")) eqn:Hline.
  { eapply lexes_bind; [apply take_while_spec|]. intros taken body s2 Hc2 (-> & Hbody & Hstop2).
    destruct (starts_two s1 "//" 47 47 eq_refl Hline) as [t Hr]. pose proof (consumes_length _ _ _ Hc2) as Hl2.
    destruct Hc2 as [Hc2 _]. rewrite Hr in Hc2.
    destruct body as [|b0 [|b1 body]].
    1: cbn in Hc2; rewrite <- Hc2 in Hstop2; done.
    1: injection Hc2 as <- Hc2; rewrite <- Hc2 in Hstop2; done.
    injection Hc2 as <- <- ->. cbn in Hl2.
    eapply lexes_mono; [apply IH; lia|]. intros u more s3 [Hmore _] [Hlay Hends].
    split; [|done]. apply layout_spaces; [done|]. apply (layout_line body more); [| |done].
    - do 2 apply Forall_inv_tail in Hbody. eapply Forall_impl; [exact Hbody|]. intros c Hn ->. done.
    - destruct (rest s2) as [|c r]; [left; by destruct more|]. cbn in Hstop2. apply negb_false_iff, Z.eqb_eq in Hstop2 as ->.
      destruct more as [|c more]; cbn in Hmore; [rewrite <- Hmore in Hends; by destruct Hends|].
      injection Hmore as <- _. right. by eexists. }
  apply lexes_at_literal. destruct (starts (rest s1) (lit "/*")) eqn:Hblock.
  { apply lexes_here. destruct (starts_two s1 "/*" 47 42 eq_refl Hblock) as [t Hr].
    eapply lexes_bump_two; [exact Hr|]. intros s2 Hs2. apply lexes_remaining. rewrite Hs2.
    rewrite Hr in Hl. cbn in Hl. eapply lexes_bind; [apply block_comment_spec; rewrite ?Hs2; lia|].
    intros u body s3 Hc3 Hbody. pose proof (consumes_length _ _ _ Hc3) as Hl3. rewrite Hs2 in Hl3.
    eapply lexes_mono; [apply IH; lia|]. intros u' more s4 _ [Hlay Hends].
    split; [|done]. apply layout_spaces; [done|]. by apply (layout_block body more). }
  apply lexes_ret. rewrite app_nil_r. split; [|done]. rewrite <- (app_nil_r cs). apply layout_spaces; [done|constructor].
Qed.

Lemma skip_layout_spec s :
  lexes s skip_layout (λ _ cs s', layout cs ∧ layout_ends (rest s')).
Proof. unfold skip_layout. apply (skip_layout_fuel_spec (S (length (rest s))) s). lia. Qed.

(** ** Lexemes *)

(** Text between quotes that are doubled inside, and the text it stands for. *)
Inductive quoted_text (quote : Z) : text → text → Prop :=
| quoted_nil : quoted_text quote [] []
| quoted_char c t v : c ≠ quote → quoted_text quote t v → quoted_text quote (c :: t) (c :: v)
| quoted_twice t v : quoted_text quote t v → quoted_text quote (quote :: quote :: t) (quote :: v).

(** The character of a one-letter escape. *)
Definition simple_escape (e : Z) : option Z :=
  if e =? ch "n" then Some 10
  else if e =? ch "r" then Some 13
  else if e =? ch "t" then Some 9
  else if e =? ch "b" then Some 8
  else if e =? ch "f" then Some 12
  else if e =? backslash then Some backslash
  else if e =? ch "'" then Some (ch "'")
  else if e =? 34 then Some 34
  else None.

(** Four or eight hexadecimal digits of a scalar value. *)
Definition unicode_digits (e : Z) (digits : text) (v : Z) : Prop :=
  ((e = ch "u" ∧ length digits = 4%nat) ∨ (e = ch "U" ∧ length digits = 8%nat))
  ∧ Forall (λ c, is_ascii_hexdigit c = true) digits
  ∧ (x ← from_str_radix 16 u32_max digits; char_from_u32 x) = Some v.

Inductive string_text (quote : Z) : text → text → Prop :=
| string_nil : string_text quote [] []
| string_char c t v : c ≠ quote → c ≠ backslash → string_text quote t v → string_text quote (c :: t) (c :: v)
| string_twice t v : string_text quote t v → string_text quote (quote :: quote :: t) (quote :: v)
| string_escape e x t v :
    quote ≠ backslash → simple_escape e = Some x → string_text quote t v →
    string_text quote (backslash :: e :: t) (x :: v)
| string_unicode e digits x t v :
    quote ≠ backslash → unicode_digits e digits x → string_text quote t v →
    string_text quote (backslash :: e :: digits ++ t) (x :: v).

Definition digits_text (t : text) : Prop := Forall (λ c, digit_or_underscore c = true) t.
Definition fraction_text (t : text) : Prop := ∃ ds, t = ch "." :: ds ∧ digits_text ds.
Definition exponent_text (t : text) : Prop :=
  ∃ e sign ds, t = e :: sign ++ ds ∧ (e = ch "e" ∨ e = ch "E")
    ∧ (sign = [] ∨ sign = [ch "+"] ∨ sign = [ch "-"]) ∧ digits_text ds.
Definition absent_or (P : text → Prop) (t : text) : Prop := t = [] ∨ P t.

(** How each token is spelled. *)
Inductive lexeme : text → TokenKind → Prop :=
| lexeme_name c t :
    is_identifier_start c = true → Forall (λ c, is_identifier_continue c = true) (c :: t) →
    lexeme (c :: t) (TIdentifier (c :: t))
| lexeme_quoted_name t v : quoted_text backtick t v → lexeme (backtick :: t ++ [backtick]) (TIdentifier v)
| lexeme_string quote t v :
    quote = ch "'" ∨ quote = 34 → string_text quote t v → lexeme (quote :: t ++ [quote]) (TString v)
| lexeme_integer t n :
    digits_text t → from_str_radix 10 u64_max (without_underscores t) = Some n → lexeme t (TInteger n)
| lexeme_radix prefix radix t n :
    (radix = 16 ∧ (prefix = lit "0x" ∨ prefix = lit "0X")) ∨ (radix = 8 ∧ (prefix = lit "0o" ∨ prefix = lit "0O")) →
    Forall (λ c, c = underscore ∨ is_digit_of radix c = true) t →
    from_str_radix radix u64_max (without_underscores t) = Some n → lexeme (prefix ++ t) (TInteger n)
| lexeme_float int frac exp bits :
    digits_text int → absent_or fraction_text frac → absent_or exponent_text exp → frac ++ exp ≠ [] →
    parse_f64 (without_underscores (int ++ frac ++ exp)) = Some bits → f64_is_finite bits = true →
    lexeme (int ++ frac ++ exp) (TFloat bits)
| lexeme_parameter t :
    t ≠ [] → Forall (λ c, is_identifier_continue c = true) t → lexeme (ch "$" :: t) (TParameter t)
| lexeme_dollar : lexeme (lit "$") (TSymbol Dollar)
| lexeme_symbol_two a b sy : two_char_symbol [a; b] = Some sy → lexeme [a; b] (TSymbol sy)
| lexeme_symbol c sy : one_char_symbol c = Some sy → lexeme [c] (TSymbol sy).

(** What a token operation does from a position: the token spans the text
    consumed, which spells it. *)
Definition scans (s : Lexer) (p : position) (m : Lex Token) : Prop :=
  lexes s m (λ tok cs s', cs ≠ [] ∧ ∃ k, tok = spanned k p (offset s') ∧ lexeme cs k).

Lemma quoted_body_spec fuel p value s :
  (length (rest s) < fuel)%nat →
  lexes s (quoted_body fuel p value) (λ v cs s', ∃ t w,
    cs = t ++ [backtick] ∧ v = value ++ w ∧ quoted_text backtick t w).
Proof.
  revert value s. induction fuel as [|fuel IH]; intros value s Hf; [lia|]. cbn [quoted_body].
  apply lexes_peek. destruct (rest s) as [|c t] eqn:Hr; cbn [head]; [apply lexes_syntax|]. cbn in Hf.
  eapply lexes_bump; [exact Hr|]. destruct (Z.eqb_spec c backtick) as [->|Hc].
  - apply lexes_peek. rewrite advance_rest. case_bool_decide as Hagain.
    + destruct t as [|c t]; [done|]. injection Hagain as ->. cbn in Hf.
      eapply lexes_bump; [by rewrite advance_rest|]. eapply lexes_mono; [apply IH; rewrite !advance_rest; lia|].
      intros v cs s' _ (t' & w & -> & -> & Hq). exists (backtick :: backtick :: t'), (backtick :: w).
      rewrite <- (assoc_L (++)). split_and!; [done..|by constructor].
    + apply lexes_ret. exists [], []. rewrite app_nil_r. split_and!; [done..|constructor].
  - eapply lexes_mono; [apply IH; rewrite advance_rest; lia|].
    intros v cs s' _ (t' & w & -> & -> & Hq). exists (c :: t'), (c :: w).
    rewrite <- (assoc_L (++)). split_and!; [done..|by constructor].
Qed.

Lemma quoted_identifier_spec s t p :
  rest s = backtick :: t → scans s p (quoted_identifier p).
Proof.
  intros Hr. unfold scans, quoted_identifier. eapply lexes_bump; [exact Hr|]. apply lexes_remaining.
  eapply lexes_bind; [apply quoted_body_spec; lia|]. intros v cs s' _ (t' & w & -> & -> & Hq).
  apply lexes_token_at. split; [done|]. eexists. split; [done|]. rewrite app_nil_r. by constructor.
Qed.

Lemma escape_digits_spec width p digits s :
  lexes s (escape_digits width p digits) (λ ds cs s',
    ds = digits ++ cs ∧ length cs = width ∧ Forall (λ c, is_ascii_hexdigit c = true) cs).
Proof.
  revert digits s. induction width as [|width IH]; intros digits s; cbn [escape_digits].
  { apply lexes_ret. by rewrite app_nil_r. }
  apply lexes_peek. destruct (rest s) as [|c t] eqn:Hr; cbn [head]; [apply lexes_syntax_detail|].
  destruct (is_ascii_hexdigit c) eqn:Hc; cbn [negb]; [|apply lexes_syntax_detail].
  eapply lexes_bump; [exact Hr|]. eapply lexes_mono; [apply IH|]. intros ds cs s' _ (-> & <- & Hall).
  rewrite <- (assoc_L (++)). split_and!; [done..|by constructor].
Qed.

Lemma unicode_escape_spec width p s :
  lexes s (unicode_escape width p) (λ v cs s',
    length cs = width ∧ Forall (λ c, is_ascii_hexdigit c = true) cs
    ∧ (x ← from_str_radix 16 u32_max cs; char_from_u32 x) = Some v).
Proof.
  unfold unicode_escape. eapply lexes_bind; [apply escape_digits_spec|]. intros ds cs s' _ (-> & Hl & Hall). cbn [app].
  eapply lexes_bind; [apply (lexes_ok_or _ _ _ _ _ (λ x cs' _, cs' = [] ∧ from_str_radix 16 u32_max cs = Some x)); by intros|].
  intros x cs' s'' _ [-> Hx]. apply lexes_ok_or. intros v Hv. rewrite !app_nil_r, Hx. done.
Qed.

(** An escape after its letter. *)
Lemma escape_spec e p s :
  lexes s (escape e p) (λ v cs s', (cs = [] ∧ simple_escape e = Some v) ∨ unicode_digits e cs v).
Proof.
  unfold escape, simple_escape.
  repeat match goal with
  | |- lexes _ (if ?b then mret _ else _) _ => destruct b eqn:?; [by apply lexes_ret; left|]
  end.
  destruct (Z.eqb_spec e (ch "u")) as [->|].
  { eapply lexes_mono; [apply unicode_escape_spec|]. intros v cs s' _ (? & ? & ?). right. split_and!; auto. }
  destruct (Z.eqb_spec e (ch "U")) as [->|]; [|apply lexes_syntax].
  eapply lexes_mono; [apply unicode_escape_spec|]. intros v cs s' _ (? & ? & ?). right. split_and!; auto.
Qed.

Lemma string_body_spec fuel quote p value s :
  quote ≠ backslash → (length (rest s) < fuel)%nat →
  lexes s (string_body fuel quote p value) (λ v cs s', ∃ t w,
    cs = t ++ [quote] ∧ v = value ++ w ∧ string_text quote t w).
Proof.
  intros Hqb. revert value s. induction fuel as [|fuel IH]; intros value s Hf; [lia|]. cbn [string_body].
  apply lexes_peek. destruct (rest s) as [|c t] eqn:Hr; cbn [head]; [apply lexes_syntax|]. cbn in Hf.
  eapply lexes_bump; [exact Hr|]. destruct (Z.eqb_spec c quote) as [->|Hc].
  { apply lexes_peek. rewrite advance_rest. case_bool_decide as Hagain.
    - destruct t as [|c t]; [done|]. injection Hagain as ->. cbn in Hf.
      eapply lexes_bump; [by rewrite advance_rest|]. eapply lexes_mono; [apply IH; rewrite !advance_rest; lia|].
      intros v cs s' _ (t' & w & -> & -> & Hq). exists (quote :: quote :: t'), (quote :: w).
      rewrite <- (assoc_L (++)). split_and!; [done..|by constructor].
    - apply lexes_ret. exists [], []. rewrite app_nil_r. split_and!; [done..|constructor]. }
  destruct (Z.eqb_spec c backslash) as [->|Hb].
  - apply lexes_peek. rewrite advance_rest. destruct t as [|e t]; cbn [head]; [apply lexes_syntax|]. cbn in Hf.
    eapply lexes_bump; [by rewrite advance_rest|]. eapply lexes_bind; [apply escape_spec|].
    intros x cs s1 Hcs Hesc. pose proof (consumes_length _ _ _ Hcs) as Hl. rewrite !advance_rest in Hl.
    eapply lexes_mono; [apply IH; lia|]. intros v cs' s' _ (t' & w & -> & -> & Hq).
    exists (backslash :: e :: cs ++ t'), (x :: w). rewrite <- !(assoc_L (++)). cbn [app].
    split_and!; [by rewrite <- (assoc_L (++))|done|].
    destruct Hesc as [[-> Hx]|Hx]; [by apply string_escape|by apply string_unicode].
  - eapply lexes_mono; [apply IH; rewrite advance_rest; lia|].
    intros v cs s' _ (t' & w & -> & -> & Hq). exists (c :: t'), (c :: w).
    rewrite <- (assoc_L (++)). split_and!; [done..|by constructor].
Qed.

Lemma string_spec s quote t p :
  rest s = quote :: t → quote = ch "'" ∨ quote = 34 → scans s p (string quote p).
Proof.
  intros Hr Hq. unfold scans, string. eapply lexes_bump; [exact Hr|]. apply lexes_remaining.
  eapply lexes_bind; [apply string_body_spec; [by destruct Hq as [->| ->]|lia]|].
  intros v cs s' _ (t' & w & -> & -> & Hs). apply lexes_token_at. split; [done|]. eexists. split; [done|].
  rewrite app_nil_r. by constructor.
Qed.

Lemma radix_integer_spec s a b t radix invalid p :
  rest s = a :: b :: t →
  (radix = 16 ∧ ([a; b] = lit "0x" ∨ [a; b] = lit "0X")) ∨ (radix = 8 ∧ ([a; b] = lit "0o" ∨ [a; b] = lit "0O")) →
  scans s p (radix_integer radix invalid p).
Proof.
  intros Hr Hp. unfold scans, radix_integer. eapply lexes_bump_two; [exact Hr|]. intros s1 _.
  eapply lexes_bind; [apply take_while_spec|]. intros digits cs s2 _ (-> & _ & _).
  destruct (_ && _) eqn:Hv; cbn [negb]; [|apply lexes_syntax_detail]. apply andb_true_iff in Hv as [_ Hv].
  apply forallb_Forall in Hv.
  eapply lexes_bind; [apply (lexes_ok_or _ _ _ _ _ (λ n cs' _, cs' = [] ∧ from_str_radix radix u64_max (without_underscores cs) = Some n)); by intros|].
  intros n cs' s3 _ [-> Hn]. apply lexes_token_at. split; [done|]. eexists. split; [done|]. rewrite !app_nil_r.
  apply (lexeme_radix [a; b] radix cs n); [done| |done].
  eapply Forall_impl; [exact Hv|]. intros c [Hc%Z.eqb_eq|[_ Hc]%andb_true_iff]%orb_true_iff; auto.
Qed.

Lemma fraction_spec s :
  lexes s fraction (λ r cs s',
    match r with
    | Some f => cs = f ∧ fraction_text f
    | None => cs = [] ∧ (starts (rest s) (lit "..") = true ∨ head (rest s) ≠ Some (ch "."))
    end).
Proof.
  unfold fraction. apply lexes_peek, lexes_at_literal. case_bool_decide as Hd; cbn [andb].
  - destruct (starts (rest s) (lit "..")) eqn:Hr; cbn [negb]; [apply lexes_ret; auto|].
    destruct (rest s) as [|c t] eqn:Hs; [done|]. injection Hd as ->. eapply lexes_bump; [exact Hs|].
    eapply lexes_bind; [apply take_while_spec|]. intros ds cs s' _ (-> & Hds & _).
    apply lexes_ret. rewrite app_nil_r. split; [done|]. by eexists.
  - apply lexes_ret. auto.
Qed.

Lemma exponent_spec s :
  lexes s exponent (λ r cs s',
    match r with Some e => cs = e ∧ exponent_text e | None => cs = [] end).
Proof.
  unfold exponent. apply lexes_peek. destruct (rest s) as [|e t] eqn:Hr; cbn [head]; [by apply lexes_ret|].
  destruct ((e =? ch "e") || (e =? ch "E")) eqn:He; [|by apply lexes_ret].
  eapply lexes_bump; [exact Hr|]. apply lexes_peek. rewrite advance_rest.
  eapply (lexes_bind _ _ _ (λ sign cs _, cs = sign ∧ (sign = [] ∨ sign = [ch "+"] ∨ sign = [ch "-"]))).
  { destruct t as [|c t]; cbn [head]; [apply lexes_ret; auto|].
    destruct ((c =? ch "+") || (c =? ch "-")) eqn:Hc; [|apply lexes_ret; auto].
    eapply lexes_bump; [by rewrite advance_rest|]. apply lexes_ret. split; [done|].
    apply orb_true_iff in Hc as [->%Z.eqb_eq| ->%Z.eqb_eq]; auto. }
  intros sign cs s1 _ [-> Hsign]. eapply lexes_bind; [apply take_while_spec|]. intros ds cs s2 _ (-> & Hds & _).
  apply lexes_ret. rewrite app_nil_r. split; [done|]. exists e, sign, cs. split_and!; [done| |done|done].
  by apply orb_true_iff in He as [->%Z.eqb_eq| ->%Z.eqb_eq]; auto.
Qed.

(** The start of a number: a digit, or a point before a digit. *)
Definition number_start (t : text) : Prop :=
  match t with
  | c :: t' => is_ascii_digit c = true
              ∨ (c = ch "." ∧ match t' with d :: _ => is_ascii_digit d = true | [] => False end)
  | [] => False
  end.

Lemma decimal_integer_spec s cleaned p (n : text) :
  n ≠ [] → digits_text n → cleaned = without_underscores n →
  lexes s (decimal_integer cleaned p) (λ tok cs s',
    ∃ k, tok = spanned k p (offset s') ∧ cs = [] ∧ lexeme n k).
Proof.
  intros Hne Hn ->. unfold decimal_integer. apply lexes_peek. destruct (match head (rest s) with Some _ => _ | None => _ end).
  - eapply lexes_bind; [apply take_while_spec|]. intros taken cs s' _ _. apply lexes_remaining.
    destruct (starts _ _); [apply lexes_syntax|apply lexes_syntax_detail].
  - eapply lexes_bind; [apply (lexes_ok_or _ _ _ _ _ (λ v cs' _, cs' = [] ∧ from_str_radix 10 u64_max (without_underscores n) = Some v)); by intros|].
    intros v cs' s' _ [-> Hv]. apply lexes_token_at. eexists. split; [done|]. split; [done|]. by constructor.
Qed.

Lemma number_spec s p : number_start (rest s) → scans s p (number p).
Proof.
  intros Hstart. unfold scans, number. apply lexes_remaining.
  destruct (starts (rest s) (lit "0x") || starts (rest s) (lit "0X")) eqn:Hx.
  { apply orb_true_iff in Hx as [Hx|Hx]; apply starts_spec in Hx as [t Ht].
    - eapply (radix_integer_spec _ 48 120 t); [done|]. auto.
    - eapply (radix_integer_spec _ 48 88 t); [done|]. auto. }
  destruct (starts (rest s) (lit "0o") || starts (rest s) (lit "0O")) eqn:Ho.
  { apply orb_true_iff in Ho as [Ho|Ho]; apply starts_spec in Ho as [t Ht].
    - eapply (radix_integer_spec _ 48 111 t); [done|]. auto.
    - eapply (radix_integer_spec _ 48 79 t); [done|]. auto. }
  eapply lexes_bind; [apply take_while_spec|]. intros int cs s1 [Hc1 _] (-> & Hint & Hstop).
  eapply lexes_bind; [apply fraction_spec|]. intros frac cf s2 Hc2 Hfrac.
  eapply lexes_bind; [apply exponent_spec|]. intros exp ce s3 Hc3 Hexp. cbv zeta.
  assert (absent_or fraction_text cf ∧ default [] frac = cf ∧ (is_Some frac ↔ cf ≠ [])) as (Hf1 & Hf2 & Hf3).
  { destruct frac as [f|]; [destruct Hfrac as [-> Hf]|destruct Hfrac as [-> _]]; split_and!; [by right|done| |by left|done|].
    - destruct Hf as (ds & -> & _). split; [done|by eexists].
    - split; [by intros []|done]. }
  assert (absent_or exponent_text ce ∧ default [] exp = ce ∧ (is_Some exp ↔ ce ≠ [])) as (He1 & He2 & He3).
  { destruct exp as [e|]; [destruct Hexp as [-> He]|subst ce]; split_and!; [by right|done| |by left|done|].
    - destruct He as (e0 & sg & ds & -> & _). split; [done|by eexists].
    - split; [by intros []|done]. }
  rewrite Hf2, He2.
  destruct (bool_decide (is_Some frac) || bool_decide (is_Some exp)) eqn:Hfl.
  - eapply lexes_bind; [apply (lexes_ok_or_error _ _ _ _ (λ v cs' _, cs' = [] ∧ parse_f64 (without_underscores (cs ++ cf ++ ce)) = Some v)); by intros|].
    intros bits cs' s4 _ [-> Hbits]. destruct (f64_is_finite bits) eqn:Hfin; cbn [negb]; [|apply lexes_syntax].
    apply lexes_token_at. rewrite !app_nil_r.
    assert (cf ++ ce ≠ []) as Hne.
    { apply orb_true_iff in Hfl as [Hs%bool_decide_eq_true_1%Hf3|Hs%bool_decide_eq_true_1%He3]; intros []%app_eq_nil; done. }
    split; [intros [_ ?]%app_eq_nil; done|]. eexists. split; [done|]. by constructor.
  - apply orb_false_iff in Hfl as [Hs1%bool_decide_eq_false_1 Hs2%bool_decide_eq_false_1].
    assert (cf = [] ∧ ce = []) as [-> ->].
    { split; [destruct cf|destruct ce]; try done; exfalso; [apply Hs1, Hf3|apply Hs2, He3]; done. }
    rewrite !app_nil_r.
    assert (cs ≠ []) as Hne.
    { intros ->. cbn in Hc1. rewrite Hc1 in Hstart. destruct (rest s1) as [|c t] eqn:Hr; [done|]. cbn in Hstop.
      destruct Hstart as [Hd|[-> Hd]]; [unfold digit_or_underscore in Hstop; by rewrite Hd in Hstop|].
      destruct frac as [f|]; [by apply Hs1|]. destruct Hfrac as [_ [Hdots|Hdots]]; [|done].
      apply starts_spec in Hdots as [t' [= Ht]]. by rewrite Ht in Hd. }
    eapply lexes_mono; [by apply (decimal_integer_spec _ _ _ cs)|].
    intros tok cs' s4 _ (k & -> & -> & Hk). cbn [app]. rewrite app_nil_r. split; [done|]. by exists k.
Qed.

Lemma two_char_symbol_spec t sy :
  two_char_symbol t = Some sy → ∃ a b t', t = a :: b :: t' ∧ two_char_symbol [a; b] = Some sy.
Proof.
  unfold two_char_symbol at 1.
  repeat match goal with
  | |- context [if starts t ?p then _ else _] =>
      let E := fresh "E" in destruct (starts t p) eqn:E;
        [apply starts_spec in E as [t' ->]; intros [= <-]; by eexists _, _, _|]
  | |- context [if starts t ?p || starts t ?q then _ else _] =>
      let E := fresh "E" in destruct (starts t p || starts t q) eqn:E;
        [apply orb_true_iff in E as [E|E]; apply starts_spec in E as [t' ->]; intros [= <-]; by eexists _, _, _|]
  end. done.
Qed.

Lemma symbol_spec s p : rest s ≠ [] → scans s p (symbol p).
Proof.
  intros Hne. unfold scans, symbol. apply lexes_remaining. destruct (two_char_symbol (rest s)) as [sy|] eqn:Hs.
  { apply two_char_symbol_spec in Hs as (a & b & t & Hr & Hs). eapply lexes_bump_two; [exact Hr|]. intros s' _.
    apply lexes_token_at. split; [done|]. eexists. split; [done|]. by constructor. }
  destruct (rest s) as [|c t] eqn:Hr; [done|]. destruct (one_char_symbol c) as [sy|] eqn:Hc.
  - eapply lexes_bump; [exact Hr|]. apply lexes_token_at. split; [done|]. eexists. split; [done|]. by constructor.
  - destruct (is_ascii c); [apply lexes_syntax|apply lexes_syntax_detail].
Qed.

Lemma parameter_spec s t p : rest s = ch "$" :: t → scans s p (parameter p).
Proof.
  intros Hr. unfold scans, parameter. apply lexes_at_literal. destruct (starts (rest s) (lit "$(")).
  - eapply lexes_bump; [exact Hr|]. apply lexes_token_at. split; [done|]. eexists. split; [done|]. apply lexeme_dollar.
  - eapply lexes_bump; [exact Hr|]. unfold take_identifier. eapply lexes_bind; [apply take_while_spec|].
    intros name cs s' _ (-> & Hcs & _). destruct cs as [|c cs]; [apply lexes_syntax|].
    apply lexes_token_at. split; [done|]. eexists. split; [done|]. rewrite app_nil_r. by constructor.
Qed.

Lemma name_spec s c t p :
  rest s = c :: t → is_identifier_start c = true →
  scans s p (take_identifier ≫= λ name, token_at (TIdentifier name) p).
Proof.
  intros Hr Hc. unfold scans, take_identifier. eapply lexes_bind; [apply take_while_spec|].
  intros name cs s' [Hcs _] (-> & Hall & Hstop).
  assert (is_identifier_continue c = true) as Hcc.
  { unfold is_identifier_start, is_alphabetic in Hc. unfold is_identifier_continue, is_alphanumeric.
    apply orb_true_iff in Hc as [->|Hc]; [done|]. destruct (is_ascii c); rewrite Hc; by rewrite ?orb_true_r. }
  destruct cs as [|c' cs]; [cbn in Hcs; rewrite Hr in Hcs; rewrite <- Hcs in Hstop; cbn in Hstop; congruence|].
  rewrite Hr in Hcs. injection Hcs as <- _. apply lexes_token_at. split; [done|]. eexists. split; [done|].
  rewrite app_nil_r. by constructor.
Qed.

(** ** Tokens of a text *)

Definition at_position (s : Lexer) : position := (offset s, at_line s, at_column s).

(** The tokens from a state on: layout, then a lexeme or the end. *)
Inductive scanned : Lexer → list Token → Prop :=
| scanned_end s gap s1 :
    layout gap → consumes s gap s1 → rest s1 = [] →
    scanned s [spanned TEnd (at_position s1) (offset s1)]
| scanned_token s gap s1 cs s2 k toks :
    layout gap → consumes s gap s1 → layout_ends (rest s1) →
    cs ≠ [] → lexeme cs k → consumes s1 cs s2 → scanned s2 toks →
    scanned s (spanned k (at_position s1) (offset s2) :: toks).

Lemma lexeme_not_end cs k : lexeme cs k → k ≠ TEnd.
Proof. by destruct 1. Qed.

Lemma next_token_spec s :
  ended s = false →
  match next_token s with
  | (s', Ok tok) => ∃ gap s1, layout gap ∧ consumes s gap s1 ∧ layout_ends (rest s1)
      ∧ ((rest s1 = [] ∧ tok = spanned TEnd (at_position s1) (offset s1))
         ∨ ∃ cs k, cs ≠ [] ∧ lexeme cs k ∧ consumes s1 cs s' ∧ tok = spanned k (at_position s1) (offset s'))
  | (_, Err e) => code e = QuerySyntax
  | (_, Abort _) => False
  end.
Proof.
  intros He. unfold next_token. rewrite He. unfold mbind at 1, Lex_bind at 1.
  pose proof (skip_layout_spec s) as Hl. unfold lexes in Hl.
  destruct (skip_layout s) as [s1 [[]|e|w]]; [|done|done]. destruct Hl as (gap & Hgap & Hlay & Hends).
  change ((here ≫= ?f) s1) with (f (at_position s1) s1). cbv beta.
  change ((remaining ≫= ?f) s1) with (f (rest s1) s1). cbv beta.
  destruct (rest s1) as [|c t] eqn:Hr.
  { exists gap, s1. split_and!; [done|done|by rewrite Hr|]. left. done. }
  assert (∀ m, scans s1 (at_position s1) m →
    match m s1 with
    | (s', Ok tok) => ∃ gap s1, layout gap ∧ consumes s gap s1 ∧ layout_ends (rest s1)
        ∧ ((rest s1 = [] ∧ tok = spanned TEnd (at_position s1) (offset s1))
           ∨ ∃ cs k, cs ≠ [] ∧ lexeme cs k ∧ consumes s1 cs s' ∧ tok = spanned k (at_position s1) (offset s'))
    | (_, Err e) => code e = QuerySyntax
    | (_, Abort _) => False
    end) as Hscan.
  { intros m Hm. unfold scans, lexes in Hm. destruct (m s1) as [s' [tok|e|w]]; [|done|done].
    destruct Hm as (cs & Hcs & Hne & k & -> & Hk). exists gap, s1. split_and!; [done|done|by rewrite Hr|]. right. by exists cs, k. }
  rewrite <- Hr in Hends.
  destruct (Z.eqb_spec c backtick) as [->|_]; [by eapply Hscan, quoted_identifier_spec|].
  destruct ((c =? ch "'") || (c =? 34)) eqn:Hq.
  { eapply Hscan, string_spec; [done|]. by apply orb_true_iff in Hq as [->%Z.eqb_eq| ->%Z.eqb_eq]; auto. }
  destruct (Z.eqb_spec c (ch "$")) as [->|_]; [by eapply Hscan, parameter_spec|].
  destruct (is_ascii_digit c || _) eqn:Hd.
  { apply Hscan, number_spec. rewrite Hr. cbn. apply orb_true_iff in Hd as [Hd|[->%Z.eqb_eq Hd]%andb_true_iff]; [by left|].
    right. split; [done|]. by destruct t. }
  destruct (is_identifier_start c) eqn:Hi; [by eapply Hscan, name_spec|].
  apply Hscan, symbol_spec. by rewrite Hr.
Qed.

Lemma lex_collect_spec fuel acc s :
  ended s = false → (length (rest s) < fuel)%nat →
  match collect fuel acc s with
  | Ok toks => ∃ ts, toks = acc ++ ts ∧ scanned s ts
  | Err e => code e = QuerySyntax
  | Abort _ => False
  end.
Proof.
  revert acc s. induction fuel as [|fuel IH]; intros acc s He Hf; [lia|]. cbn [collect].
  pose proof (next_token_spec s He) as Hn. destruct (next_token s) as [s' [tok|e|w]]; rbind; [|done|done].
  destruct Hn as (gap & s1 & Hlay & Hgap & Hends & [[Hnil ->]|(cs & k & Hne & Hk & Hcs & ->)]).
  - cbn. exists [spanned TEnd (at_position s1) (offset s1)]. split; [done|]. by econstructor.
  - change (kind (spanned k (at_position s1) (offset s'))) with k. pose proof (lexeme_not_end _ _ Hk) as Hend.
    assert (ended s' = false) as He'.
    { destruct Hgap as [_ ->], Hcs as [_ ->]. by rewrite !moved_ended. }
    pose proof (consumes_length _ _ _ Hgap) as Hl1. pose proof (consumes_length _ _ _ Hcs) as Hl2.
    specialize (IH (acc ++ [spanned k (at_position s1) (offset s')]) s' He').
    assert (length cs ≠ 0%nat) by (by destruct cs). specialize (IH ltac:(lia)).
    assert (match collect fuel (acc ++ [spanned k (at_position s1) (offset s')]) s' with
            | Ok toks => ∃ ts, toks = acc ++ ts ∧ scanned s ts
            | Err e => code e = QuerySyntax
            | Abort _ => False end) as Hgo.
    { destruct (collect _ _ _) as [toks|e|w]; [|done|done]. destruct IH as (ts & -> & Hts).
      exists (spanned k (at_position s1) (offset s') :: ts). rewrite <- (assoc_L (++)). split; [done|].
      by econstructor. }
    by destruct k.
Qed.

(** The token covers a part of the text, at the position it reports. *)
Definition placed (source : text) (tok : Token) : Prop :=
  ∃ before cs after, source = before ++ cs ++ after
    ∧ start (span tok) = utf8_len before ∧ span_end (span tok) = utf8_len (before ++ cs)
    ∧ line (span tok) = line_of before ∧ column (span tok) = column_of before.

(** Tokens one after the other, up to the end of the text. *)
Fixpoint in_order (from : Z) (toks : list Token) (end_ : Z) : Prop :=
  match toks with
  | [] => False
  | [tok] => kind tok = TEnd ∧ from ≤ start (span tok) ∧ start (span tok) = end_ ∧ span_end (span tok) = end_
  | tok :: toks => kind tok ≠ TEnd ∧ from ≤ start (span tok) ∧ start (span tok) < span_end (span tok)
                   ∧ in_order (span_end (span tok)) toks end_
  end.

Lemma utf8_len_pos t : 0 ≤ utf8_len t ∧ (t ≠ [] → 0 < utf8_len t).
Proof.
  induction t as [|c t [IH _]]; [done|]. change (utf8_len (c :: t)) with (len_utf8 c + utf8_len t). assert (0 < len_utf8 c) by (unfold len_utf8; repeat case_match; lia). lia.
Qed.

Lemma spanned_placed source before cs after k s1 s2 :
  source = before ++ cs ++ after → s1 = moved (Lexer_new source) before → s2 = moved s1 cs →
  placed source (spanned k (at_position s1) (offset s2)).
Proof.
  intros Hsrc -> ->. exists before, cs, after. rewrite <- moved_app. cbn.
  destruct (moved_position source before) as (-> & -> & ->). by destruct (moved_position source (before ++ cs)) as (-> & _).
Qed.

Lemma scanned_placed source before s toks :
  scanned s toks → source = before ++ rest s → s = moved (Lexer_new source) before →
  Forall (placed source) toks ∧ in_order (utf8_len before) toks (utf8_len source).
Proof.
  intros Hs. revert before. induction Hs as [s gap s1 Hlay [Hg ->] Hnil|s gap s1 cs s2 k toks Hlay [Hg Hs1] Hends Hne Hk [Hc Hs2] Hrec IH];
    intros before Hsrc Hmv.
  - rewrite Hnil, app_nil_r in Hg. rewrite Hg in Hsrc.
    assert (offset (moved s gap) = utf8_len source) as Ho.
    { rewrite Hmv, <- moved_app, <- Hsrc. apply moved_position. }
    split.
    + apply Forall_singleton. eapply (spanned_placed source source [] []); [by rewrite app_nil_r| |done].
      by rewrite Hmv, <- moved_app, <- Hsrc.
    + cbn. rewrite Ho. split_and!; [done| |done|done]. rewrite Hsrc, utf8_len_app. pose proof (proj1 (utf8_len_pos gap)). lia.
  - assert (s1 = moved (Lexer_new source) (before ++ gap)) as Hm1 by (by rewrite moved_app, <- Hmv).
    assert (s2 = moved (Lexer_new source) ((before ++ gap) ++ cs)) as Hm2 by (by rewrite moved_app, <- Hm1).
    assert (source = (before ++ gap) ++ cs ++ rest s2) as Hsrc' by (by rewrite Hsrc, Hg, Hc, <- !(assoc_L (++))).
    destruct (IH ((before ++ gap) ++ cs)) as [IH1 IH2]; [by rewrite <- (assoc_L (++))|done|].
    split; [constructor; [by eapply spanned_placed|done]|].
    assert (start (span (spanned k (at_position s1) (offset s2))) = utf8_len (before ++ gap)) as E1.
    { cbn. rewrite Hm1. apply moved_position. }
    assert (span_end (span (spanned k (at_position s1) (offset s2))) = utf8_len ((before ++ gap) ++ cs)) as E2.
    { cbn. rewrite Hm2. apply moved_position. }
    destruct toks as [|t0 toks]; [inversion Hrec|]. cbn [in_order]. rewrite E1, E2.
    pose proof (utf8_len_pos gap) as [? _]. pose proof (proj2 (utf8_len_pos cs) Hne).
    split_and!; [by eapply lexeme_not_end| | |done]; rewrite !utf8_len_app; lia.
Qed.

(** C28: on every text the tokenizer ends, with a syntax error or with tokens:
    they are in order up to the end marker at the end of the text, each covers
    whole characters of it, and each reports the line and column it starts
    at. *)
Theorem lex_total_positions source :
  match lex source with
  | Ok toks => Forall (placed source) toks ∧ in_order 0 toks (utf8_len source)
  | Err e => code e = QuerySyntax
  | Abort _ => False
  end.
Proof.
  pose proof (lex_collect_spec (S (length source)) [] (Lexer_new source) eq_refl) as Hc. unfold lex.
  destruct (collect _ _ _) as [toks|e|w]; [|apply Hc; cbn; lia..].
  destruct Hc as (ts & -> & Hs); [cbn; lia|]. by apply (scanned_placed source [] _ _ Hs).
Qed.

End grammar.
