(* ===== verification/LexerPrint.v ===== *)
(** * Cypher tokenizer: round trips

    Text and names written between quotes, whatever characters they hold, come
    back from the tokenizer; examples of the other theorems. *)

From stdpp Require Import prelude strings pretty.
From Stdlib Require Import ZArith Lia Ascii.
From S2P Require Import Prelude Machine Types Lexer LexerTheorems.

Local Open Scope Z_scope.

(** ** Writing quoted text *)

(** A text in single quotes, a text in double quotes, a name in backticks. *)
Inductive literal := Single (v : text) | Double (v : text) | Name (v : text).

Definition mark (l : literal) : Z :=
  match l with Single _ => ch "'" | Double _ => 34 | Name _ => backtick end.

Definition written (l : literal) : text :=
  match l with Single v | Double v | Name v => v end.

Definition literal_kind (l : literal) : TokenKind :=
  match l with Single v | Double v => TString v | Name v => TIdentifier v end.

(** The quote is doubled; in a text a backslash is too. *)
Definition write_char (l : literal) (c : Z) : text :=
  if c =? mark l then [c; c]
  else match l with Name _ => [c] | _ => if c =? backslash then [c; c] else [c] end.

Definition write_body (l : literal) (v : text) : text := mjoin (write_char l <$> v).

Definition write (l : literal) : text := mark l :: write_body l (written l) ++ [mark l].

Definition space : Z := 32.

Definition write_all (ls : list literal) : text := mjoin ((λ l, space :: write l) <$> ls).

(** ** Running the lexer on a known text *)

Lemma moved_rest s cs t : rest s = cs ++ t → rest (moved s cs) = t.
Proof.
  revert s. induction cs as [|c cs IH]; intros s Hr; [done|]. apply IH. by rewrite advance_rest, Hr.
Qed.

Lemma run_bump s c t : rest s = c :: t → bump s = (moved s [c], Ok (Some c)).
Proof. intros Hr. unfold bump. cbn. by rewrite Hr. Qed.

Lemma run_bind {A B} (m : Lex A) (f : A → Lex B) s s' a :
  m s = (s', Ok a) → (m ≫= f) s = f a s'.
Proof. intros Hm. unfold mbind, Lex_bind. by rewrite Hm. Qed.

Lemma run_peek {B} (f : option Z → Lex B) s : (peek ≫= f) s = f (head (rest s)) s.
Proof. done. Qed.

Lemma moved_moved s c cs : moved (moved s [c]) cs = moved s (c :: cs).
Proof. done. Qed.

(** Past the closing quote the text goes on with something else. *)
Definition closes (quote : Z) (t : text) : Prop := head t ≠ Some quote.

Lemma run_string_body l v t fuel p value s :
  match l with Name _ => False | _ => True end →
  rest s = write_body l v ++ mark l :: t → closes (mark l) t → (length (rest s) < fuel)%nat →
  string_body fuel (mark l) p value s = (moved s (write_body l v ++ [mark l]), Ok (value ++ v)).
Proof.
  intros Hl. revert fuel value s. induction v as [|c v IH]; intros [|fuel] value s Hr Ht Hf; [lia| |lia|].
  - cbn in Hr. cbn [string_body]. rewrite run_peek, Hr. cbn [head]. rewrite (run_bind _ _ _ _ _ (run_bump _ _ _ Hr)).
    rewrite Z.eqb_refl, run_peek, (moved_rest _ [mark l] t Hr), bool_decide_eq_false_2 by done. by rewrite app_nil_r.
  - change (write_body l (c :: v)) with (write_char l c ++ write_body l v) in *.
    rewrite <- (assoc_L (++)) in Hr.
    assert (∀ x y, (value ++ [x]) ++ y = value ++ x :: y) as Happ by (intros; by rewrite <- (assoc_L (++))).
    cbn [string_body]. rewrite run_peek. unfold write_char in *.
    destruct (Z.eqb_spec c (mark l)) as [->|Hm]; [|replace (match l with Name _ => [c] | _ => _ end) with
      (if c =? backslash then [c; c] else [c]) in * by (by destruct l); destruct (Z.eqb_spec c backslash) as [->|Hb]];
      cbn [app] in Hr; rewrite Hr; cbn [head]; rewrite (run_bind _ _ _ _ _ (run_bump _ _ _ Hr)).
    + rewrite Z.eqb_refl, run_peek. pose proof (moved_rest _ [mark l] _ Hr) as Hr'. rewrite Hr'. cbn [head].
      rewrite bool_decide_eq_true_2, (run_bind _ _ _ _ _ (run_bump _ _ _ Hr')) by done.
      pose proof (moved_rest _ [mark l] _ Hr') as Hr''.
      rewrite IH; [by rewrite Happ, !moved_moved|done|done|]. rewrite Hr''. rewrite Hr in Hf. cbn in Hf. lia.
    + rewrite (proj2 (Z.eqb_neq _ _) Hm), Z.eqb_refl, run_peek.
      pose proof (moved_rest _ [backslash] _ Hr) as Hr'. rewrite Hr'. cbn [head].
      rewrite (run_bind _ _ _ _ _ (run_bump _ _ _ Hr')).
      pose proof (moved_rest _ [backslash] _ Hr') as Hr''.
      rewrite (run_bind (escape backslash p) _ _ _ backslash eq_refl).
      rewrite IH; [by rewrite Happ, !moved_moved|done|done|]. rewrite Hr''. rewrite Hr in Hf. cbn in Hf. lia.
    + rewrite (proj2 (Z.eqb_neq _ _) Hm), (proj2 (Z.eqb_neq _ _) Hb).
      pose proof (moved_rest _ [c] _ Hr) as Hr'.
      rewrite IH; [by rewrite Happ, moved_moved|done|done|]. rewrite Hr'. rewrite Hr in Hf. cbn in Hf. lia.
Qed.

Lemma run_quoted_body n v t fuel p value s :
  rest s = write_body (Name n) v ++ backtick :: t → closes backtick t → (length (rest s) < fuel)%nat →
  quoted_body fuel p value s = (moved s (write_body (Name n) v ++ [backtick]), Ok (value ++ v)).
Proof.
  revert fuel value s. induction v as [|c v IH]; intros [|fuel] value s Hr Ht Hf; [lia| |lia|].
  - cbn [write_body fmap list_fmap mjoin list_join app] in Hr. cbn [quoted_body]. rewrite run_peek, Hr. cbn [head].
    rewrite (run_bind _ _ _ _ _ (run_bump _ _ _ Hr)).
    rewrite Z.eqb_refl, run_peek, (moved_rest _ [backtick] t Hr), bool_decide_eq_false_2 by done. by rewrite app_nil_r.
  - change (write_body (Name n) (c :: v)) with (write_char (Name n) c ++ write_body (Name n) v) in *.
    rewrite <- (assoc_L (++)) in Hr.
    assert (∀ x y, (value ++ [x]) ++ y = value ++ x :: y) as Happ by (intros; by rewrite <- (assoc_L (++))).
    cbn [quoted_body]. rewrite run_peek. unfold write_char in *. cbn [mark] in *.
    destruct (Z.eqb_spec c backtick) as [->|Hm];
      cbn [app] in Hr; rewrite Hr; cbn [head]; rewrite (run_bind _ _ _ _ _ (run_bump _ _ _ Hr)).
    + rewrite Z.eqb_refl, run_peek. pose proof (moved_rest _ [backtick] _ Hr) as Hr'. rewrite Hr'. cbn [head].
      rewrite bool_decide_eq_true_2, (run_bind _ _ _ _ _ (run_bump _ _ _ Hr')) by done.
      pose proof (moved_rest _ [backtick] _ Hr') as Hr''.
      rewrite IH; [by rewrite Happ, !moved_moved|done|done|]. rewrite Hr''. rewrite Hr in Hf. cbn in Hf. lia.
    + rewrite (proj2 (Z.eqb_neq _ _) Hm). pose proof (moved_rest _ [c] _ Hr) as Hr'.
      rewrite IH; [by rewrite Happ, moved_moved|done|done|]. rewrite Hr'. rewrite Hr in Hf. cbn in Hf. lia.
Qed.

Lemma run_skip_layout s gap c t :
  (gap = [] ∨ gap = [space]) → is_whitespace c = false → c ≠ ch "/" →
  rest s = gap ++ c :: t → skip_layout s = (moved s gap, Ok tt).
Proof.
  intros Hgap Hw Hc Hr.
  assert (take_while is_whitespace s = (moved s gap, Ok gap)) as Htake.
  { unfold take_while. rewrite Hr. destruct Hgap as [->| ->]; cbn [app length take_while_fuel] in *;
      rewrite run_peek, Hr; cbn [head]; [by rewrite Hw|].
    change (is_whitespace space) with true. cbn [app]. rewrite (run_bind _ _ _ _ _ (run_bump _ _ _ Hr)).
    rewrite run_peek, (moved_rest _ [space] _ Hr). cbn [head]. by rewrite Hw. }
  pose proof (moved_rest _ gap _ Hr) as Hr'.
  assert (∀ p, at_literal (String "/" p) (moved s gap) = (moved s gap, Ok false)) as Hs.
  { intros p. unfold at_literal. rewrite Hr'.
    change (starts (c :: t) (lit (String "/" p))) with ((ch "/" =? c) && starts t (lit p)).
    by rewrite (proj2 (Z.eqb_neq _ _) (not_eq_sym Hc)). }
  unfold skip_layout. cbn [skip_layout_fuel]. rewrite (run_bind _ _ _ _ _ Htake).
  by rewrite (run_bind _ _ _ _ _ (Hs _)), (run_bind _ _ _ _ _ (Hs _)).
Qed.

Section written.
Context `{Unicode}.

Lemma mark_start l : is_whitespace (mark l) = false ∧ mark l ≠ ch "/".
Proof. by destruct l. Qed.

Lemma run_string l s t p :
  match l with Name _ => False | _ => True end → rest s = write l ++ t → closes (mark l) t →
  string (mark l) p s = (moved s (write l), Ok (spanned (TString (written l)) p (offset (moved s (write l))))).
Proof.
  intros Hl Hr Ht. unfold write in *. cbn [app] in Hr. rewrite <- (assoc_L (++)) in Hr. cbn [app] in Hr.
  unfold string. rewrite (run_bind _ _ _ _ _ (run_bump _ _ _ Hr)).
  rewrite (run_bind remaining _ (moved s [mark l]) (moved s [mark l]) (rest (moved s [mark l])) eq_refl).
  rewrite (run_bind _ _ _ _ _ (run_string_body l (written l) t _ p [] (moved s [mark l]) Hl (moved_rest _ [mark l] _ Hr) Ht
    (Nat.lt_succ_diag_r _))). by destruct p as [[? ?] ?].
Qed.

Lemma run_quoted_identifier v s t p :
  rest s = write (Name v) ++ t → closes backtick t →
  quoted_identifier p s = (moved s (write (Name v)), Ok (spanned (TIdentifier v) p (offset (moved s (write (Name v)))))).
Proof.
  intros Hr Ht. unfold write in *. cbn [app mark written] in *. rewrite <- (assoc_L (++)) in Hr. cbn [app] in Hr.
  unfold quoted_identifier. rewrite (run_bind _ _ _ _ _ (run_bump _ _ _ Hr)).
  rewrite (run_bind remaining _ (moved s [backtick]) (moved s [backtick]) (rest (moved s [backtick])) eq_refl).
  rewrite (run_bind _ _ _ _ _ (run_quoted_body v v t _ p [] (moved s [backtick]) (moved_rest _ [backtick] _ Hr) Ht
    (Nat.lt_succ_diag_r _))). by destruct p as [[? ?] ?].
Qed.

Lemma run_next_token s l t :
  ended s = false → rest s = space :: write l ++ t → closes (mark l) t →
  next_token s = (moved s (space :: write l),
    Ok (spanned (literal_kind l) (at_position (moved s [space])) (offset (moved s (space :: write l))))).
Proof.
  intros He Hr Ht. unfold next_token. rewrite He. destruct (mark_start l) as [Hw Hc].
  pose proof (run_skip_layout s [space] _ _ (or_intror eq_refl) Hw Hc Hr) as Hlay.
  rewrite (run_bind _ _ _ _ _ Hlay). pose proof (moved_rest s [space] _ Hr) as Hr1.
  set (s1 := moved s [space]) in *.
  rewrite (run_bind here _ s1 s1 (at_position s1) eq_refl).
  rewrite (run_bind remaining _ s1 s1 (write l ++ t)) by (unfold remaining; by rewrite Hr1).
  change (moved s (space :: write l)) with (moved s1 (write l)).
  destruct l as [v|v|v]; [apply (run_string (Single v) s1 t _ I Hr1 Ht)|apply (run_string (Double v) s1 t _ I Hr1 Ht)|
    apply (run_quoted_identifier v s1 t _ Hr1 Ht)].
Qed.

Lemma run_collect ls acc fuel s :
  ended s = false → rest s = write_all ls → (length ls < fuel)%nat →
  ∃ toks, collect fuel acc s = Ok (acc ++ toks) ∧ kind <$> toks = (literal_kind <$> ls) ++ [TEnd].
Proof.
  revert acc fuel s. induction ls as [|l ls IH]; intros acc [|fuel] s He Hr Hf; [lia| |cbn in Hf; lia|].
  - cbn [collect]. unfold next_token. rewrite He. destruct s as [r o ln cl e]. cbn in Hr, He. subst r e. by eexists [_].
  - change (write_all (l :: ls)) with (space :: write l ++ write_all ls) in Hr.
    assert (closes (mark l) (write_all ls)) as Ht by (by destruct ls, l).
    cbn [collect]. rewrite (run_next_token _ _ _ He Hr Ht).
    set (tok := spanned (literal_kind l) (at_position (moved s [space])) (offset (moved s (space :: write l)))).
    destruct (IH (acc ++ [tok]) fuel (moved s (space :: write l))) as (toks & Hc & Hk).
    + by rewrite moved_ended.
    + by apply (moved_rest _ (space :: write l)).
    + cbn in Hf. lia.
    + exists (tok :: toks). split; [|by cbn; rewrite Hk].
      rewrite <- (assoc_L (++)) in Hc. cbn [app] in Hc. rewrite <- Hc. by destruct l.
Qed.

Lemma write_all_length ls : (length ls ≤ length (write_all ls))%nat.
Proof.
  induction ls as [|l ls IH]; [done|].
  change (write_all (l :: ls)) with (space :: write l ++ write_all ls). cbn. rewrite length_app. lia.
Qed.

(** quoted texts and names, whatever characters they hold, are read back
    by the tokenizer, when the quote is doubled and a text's backslashes are
    too. *)
Theorem lex_literals ls :
  ∃ toks, lex (write_all ls) = Ok toks ∧ kind <$> toks = (literal_kind <$> ls) ++ [TEnd].
Proof.
  apply (run_collect ls [] (S (length (write_all ls))) (Lexer_new (write_all ls)) eq_refl eq_refl).
  pose proof (write_all_length ls). lia.
Qed.
End written.

(** ** Examples *)

(** Letters beyond ASCII, as far as the examples need them. *)
Definition latin : Unicode :=
  {| unicode_alphabetic := λ c, (between 192 591 c) || (between 880 1023 c);
     unicode_numeric := λ c, between 178 179 c |}.

Definition sample : text := lit "MATCH (n:`a``b`) // all
WHERE n.x >= 0x1F AND n.y = 'it''s' RETURN $p, 1.5e3 /* done */".

