(* ===== verification/Mutation.v ===== *)
(** * In-flight mutations: [crates/storage/src/mutation.rs]

    A resolved command with a checksum of its body.  The checksum of an entry
    that was built here is known to be right; of an entry that was received it
    is computed on the first call of [verify], which remembers a success.
    [postcard] and [blake3] are third-party: serialising a body gives bytes or
    an error, and [blake3] is a function of the bytes it was given. *)

From stdpp Require Import prelude strings.
From Stdlib Require Import ZArith Lia.
From S2P Require Import Prelude Machine Types.

Local Open Scope Z_scope.
#[local] Set Warnings "-clear-no-such-hyp".

Inductive MutationKind := KindGraph | KindSecurity | KindPolicy | KindBroker | KindProject.

Record MutationBody := mkBody {
  body_term : Z;
  body_index : Z;
  body_kind : MutationKind;
  body_project_id : option bytes;
  body_request_id : option bytes;
  body_commit_time_millis : Z;
  body_payload : bytes;
}.

(** [checksum_verified] is whether the cell is set. *)
Record MutationEntry := mkEntry {
  body : MutationBody;
  entry_checksum : bytes;
  checksum_verified : bool;
}.

Class MutationCodec := {
  postcard_body : MutationBody → outcome string bytes;
  blake3_hash : bytes → bytes;
}.

Section entries.
Context `{MutationCodec}.

Definition body_checksum (b : MutationBody) : Result bytes :=
  match postcard_body b with
  | Ok written => Ok (blake3_hash written)
  | Err message => Err (Error_new InvalidData message)
  | Abort w => Abort w
  end.

Definition project_scoped (k : MutationKind) : bool :=
  match k with KindGraph | KindBroker | KindProject => true | _ => false end.
Definition store_wide (k : MutationKind) : bool :=
  match k with KindSecurity | KindPolicy => true | _ => false end.

Definition MutationEntry_new (term index : Z) (kind : MutationKind) (project_id request_id : option bytes)
    (commit_time_millis : Z) (payload : bytes) : Result MutationEntry :=
  if (term =? 0) || (index =? 0) || (zlen payload =? 0) then
    Err (Error_invalid_data "mutation term, index, and payload must be non-zero")
  else if project_scoped kind && bool_decide (project_id = None) then
    Err (Error_invalid_data "project-scoped mutation is missing project ID")
  else if store_wide kind && negb (bool_decide (project_id = None)) then
    Err (Error_invalid_data "store-wide mutation must not carry a project ID")
  else
    let b := mkBody term index kind project_id request_id commit_time_millis payload in
    checksum ← body_checksum b;
    Ok (mkEntry b checksum true).

(** [serde]: the cell is not part of the message. *)
Definition received (b : MutationBody) (checksum : bytes) : MutationEntry := mkEntry b checksum false.

Definition entry_bookmark (e : MutationEntry) : Bookmark := mkBookmark (body_term (body e)) (body_index (body e)).

Definition verify (e : MutationEntry) : MutationEntry * Result unit :=
  if checksum_verified e then (e, Ok tt)
  else
    match body_checksum (body e) with
    | Ok calculated =>
        if negb (bool_decide (calculated = entry_checksum e)) then
          (e, Err (corrupt "mutation checksum mismatch"))
        else (mkEntry (body e) (entry_checksum e) true, Ok tt)
    | Err error => (e, Err error)
    | Abort w => (e, Abort w)
    end.

(** ** Entries that exist *)

Definition authentic (e : MutationEntry) : Prop := body_checksum (body e) = Ok (entry_checksum e).

(** Built here or received, and verified any number of times. *)
Inductive entry_exists : MutationEntry → Prop :=
| exists_new term index kind project_id request_id millis payload e :
    MutationEntry_new term index kind project_id request_id millis payload = Ok e → entry_exists e
| exists_received b checksum : entry_exists (received b checksum)
| exists_verified e : entry_exists e → entry_exists (verify e).1.

Definition well_scoped (b : MutationBody) : Prop :=
  body_term b ≠ 0 ∧ body_index b ≠ 0 ∧ body_payload b ≠ [] ∧
  match body_kind b with
  | KindGraph | KindBroker | KindProject => is_Some (body_project_id b)
  | KindSecurity | KindPolicy => body_project_id b = None
  end.

Lemma sealed_spec b :
  match checksum ← body_checksum b; Ok (mkEntry b checksum true) with
  | Ok e => body e = b ∧ authentic e ∧ checksum_verified e = true
  | Err e => code e = InvalidData ∧ ∃ m, postcard_body b = Err m
  | Abort w => postcard_body b = Abort w
  end.
Proof.
  unfold authentic, body_checksum. destruct (postcard_body b) as [bs|m|w] eqn:Hb; cbn; [|by eauto|done].
  by rewrite Hb.
Qed.

Lemma new_spec term index kind project_id request_id millis payload :
  let b := mkBody term index kind project_id request_id millis payload in
  match MutationEntry_new term index kind project_id request_id millis payload with
  | Ok e => body e = b ∧ well_scoped b ∧ authentic e ∧ checksum_verified e = true
  | Err e => code e = InvalidData ∧ (¬ well_scoped b ∨ ∃ m, postcard_body b = Err m)
  | Abort w => postcard_body b = Abort w
  end.
Proof.
  intros b. pose proof (sealed_spec b) as Hsealed. unfold MutationEntry_new. fold b.
  destruct (Z.eqb_spec term 0) as [->|Ht]; [by split; [done|]; left; intros (? & _)|].
  destruct (Z.eqb_spec index 0) as [->|Hi]; [by split; [done|]; left; intros (_ & ? & _)|].
  destruct (Z.eqb_spec (zlen payload) 0) as [Hp|Hp]; [split; [done|]; left; intros (_ & _ & ? & _); by destruct payload|].
  assert (payload ≠ []) as Hne by (by intros ->). cbn [orb].
  assert (well_scoped b ∨ (¬ well_scoped b
    ∧ (project_scoped kind && bool_decide (project_id = None)
       || store_wide kind && negb (bool_decide (project_id = None))) = true)) as Hscope.
  { unfold well_scoped, b. destruct kind, project_id as [id|]; cbn; naive_solver. }
  destruct Hscope as [Hs|[Hs Hb]].
  - replace (project_scoped kind && bool_decide (project_id = None)) with false
      by (unfold well_scoped, b in Hs; destruct kind, project_id; cbn in *; try done; by destruct Hs as (_ & _ & _ & [])).
    replace (store_wide kind && negb (bool_decide (project_id = None))) with false
      by (unfold well_scoped, b in Hs; destruct kind, project_id; cbn in *; try done; by destruct Hs as (_ & _ & _ & [=])).
    destruct (checksum ← body_checksum b; _) as [e|e|w]; naive_solver.
  - destruct (project_scoped kind && _); [by split; [done|]; left|]. cbn [orb] in Hb. rewrite Hb. by split; [done|]; left.
Qed.

Lemma exists_authentic e : entry_exists e → checksum_verified e = true → authentic e.
Proof.
  induction 1 as [term index kind project_id request_id millis payload e Hn|b c|e He IH]; intros Hv; [|done|].
  - pose proof (new_spec term index kind project_id request_id millis payload) as Hs. cbv zeta in Hs. rewrite Hn in Hs. apply Hs.
  - unfold verify in *. destruct (checksum_verified e) eqn:Hc; [by apply IH|].
    destruct (body_checksum (body e)) as [c|m|w] eqn:Hb; cbn in *; try congruence.
    case_bool_decide; cbn in *; [|congruence]. unfold authentic. cbn. by subst.
Qed.

(** C30: an entry is built exactly when its position and payload are not empty,
    its project fits its kind and its body can be serialised, and it then
    carries the checksum of its body.  Of any entry that was built or received
    and maybe verified before, [verify] accepts exactly those whose checksum is
    that of the body: it refuses a changed body as corrupt storage, leaves the
    rest of the entry alone, and never recomputes after a success. *)
Theorem mutation_integrity e term index kind project_id request_id millis payload :
  entry_exists e →
  (let b := mkBody term index kind project_id request_id millis payload in
   match MutationEntry_new term index kind project_id request_id millis payload with
   | Ok e => body e = b ∧ well_scoped b ∧ authentic e ∧ (verify e) = (e, Ok tt)
   | Err e => code e = InvalidData ∧ (¬ well_scoped b ∨ ∃ m, postcard_body b = Err m)
   | Abort w => postcard_body b = Abort w
   end)
  ∧ body (verify e).1 = body e ∧ entry_checksum (verify e).1 = entry_checksum e
  ∧ ((verify e).2 = Ok tt ↔ authentic e)
  ∧ ((verify e).2 = Ok tt → checksum_verified (verify e).1 = true)
  ∧ (∀ c, body_checksum (body e) = Ok c → c ≠ entry_checksum e → (verify e).2 = Err (corrupt "mutation checksum mismatch")).
Proof.
  intros He. split.
  { pose proof (new_spec term index kind project_id request_id millis payload) as Hs. cbv zeta in *.
    destruct (MutationEntry_new _ _ _ _ _ _ _) as [e'| |]; [|done..]. destruct Hs as (? & ? & ? & Hv).
    split_and!; try done. unfold verify. by rewrite Hv. }
  pose proof (exists_authentic e He) as Ha. unfold verify, authentic in *.
  destruct (checksum_verified e) eqn:Hv.
  { rewrite Ha by done. split_and!; try done. by intros c [= <-]. }
  destruct (body_checksum (body e)) as [c|m|w] eqn:Hb; cbn [fst snd]; try (by split_and!).
  case_bool_decide as Hc; cbn [negb fst snd body entry_checksum checksum_verified]; split_and!; try done; try (by subst).
  - by intros c' [= <-].
  - split; [done|]. by intros [= ->].
Qed.
End entries.

(** ** A codec for examples *)

Definition plain_codec : MutationCodec :=
  {| postcard_body b := Ok (body_payload b); blake3_hash bs := [from_le bs mod 251] |}.

Lemma mutation_integrity_witness :
  entry_exists (H := plain_codec) (received (mkBody 1 2 KindGraph (Some [7]) None 5 [9]) [8])
  ∧ (verify (H := plain_codec) (received (mkBody 1 2 KindGraph (Some [7]) None 5 [9]) [8])).2
    = Err (corrupt "mutation checksum mismatch")
  ∧ (∃ e, MutationEntry_new (H := plain_codec) 1 2 KindGraph (Some [7]) None 5 [9] = Ok e
          ∧ verify (H := plain_codec) e = (e, Ok tt)).
Proof.
  pose (e := received (mkBody 1 2 KindGraph (Some [7]) None 5 [9]) [8]).
  assert (entry_exists (H := plain_codec) e) as He by constructor.
  destruct (mutation_integrity (H := plain_codec) e 1 2 KindGraph (Some [7]) None 5 [9] He) as (Hn & _ & _ & _ & _ & Hm).
  split; [exact He|]. split; [apply (Hm [9]); [reflexivity|discriminate]|].
  eexists. split; [reflexivity|]. exact (proj2 (proj2 (proj2 Hn))).
Defined.
