(* ===== verification/Temporal.v ===== *)
(** * Temporal values: [crates/execution/src/temporal.rs]

    Fields of temporal values, their comparison, the addition of durations and
    their text.  The calendar, the time zones and the text of dates are those
    of [chrono] and [chrono_tz], which are third-party: a class of their
    operations.  A [TimeDelta] in days is an integer; building one out of its
    bounds panics, as its documentation says. *)

From stdpp Require Import prelude strings.
From Stdlib Require Import ZArith Lia Ascii.
From S2P Require Import Prelude Machine Types.

Local Open Scope Z_scope.

(** ** Types *)

Inductive CompareOp := CmpEq | CmpNotEq | CmpLess | CmpLessOrEqual | CmpGreater | CmpGreaterOrEqual.

Inductive ResidentRowValueType :=
| RowBoolean | RowInteger | RowFloat | RowString | RowDate | RowLocalTime | RowZonedTime
| RowLocalDateTime | RowZonedDateTime | RowList.

Definition payload_bytes (t : ResidentRowValueType) : Z :=
  match t with
  | RowBoolean => 1
  | RowInteger | RowFloat | RowString | RowDate | RowLocalTime | RowList => 8
  | RowZonedTime | RowLocalDateTime => 8 + 4
  | RowZonedDateTime => 8 + 4 + 8
  end.

Definition is_numeric (t : ResidentRowValueType) : bool :=
  match t with RowInteger | RowFloat => true | _ => false end.

Definition is_temporal (t : ResidentRowValueType) : bool :=
  match t with
  | RowDate | RowLocalTime | RowZonedTime | RowLocalDateTime | RowZonedDateTime => true
  | _ => false
  end.

Inductive ResidentTemporalAccessor :=
| AYear | AQuarter | AMonth | AWeek | AWeekYear | ADay | AOrdinalDay | AWeekDay | ADayOfQuarter
| AHour | AMinute | ASecond | AMillisecond | AMicrosecond | ANanosecond | ATimezone | AOffset
| AOffsetMinutes | AOffsetSeconds | AEpochSeconds | AEpochMillis
| AYears | AQuarters | AMonths | AWeeks | ADays | AHours | AMinutes | ASeconds | AMilliseconds
| AMicroseconds | ANanoseconds | AQuartersOfYear | AMonthsOfQuarter | AMonthsOfYear | ADaysOfWeek
| AMinutesOfHour | ASecondsOfMinute | AMillisecondsOfSecond | AMicrosecondsOfSecond
| ANanosecondsOfSecond.

#[global] Instance ResidentTemporalAccessor_eq_dec : EqDecision ResidentTemporalAccessor.
Proof. solve_decision. Defined.

(** [to_ascii_lowercase]. *)
Definition ascii_lowercase (c : ascii) : ascii :=
  if (65 <=? ch c) && (ch c <=? 90) then ascii_of_N (Z.to_N (ch c + 32)) else c.
Fixpoint to_ascii_lowercase (s : string) : string :=
  match s with EmptyString => EmptyString | String c s => String (ascii_lowercase c) (to_ascii_lowercase s) end.

(** The arms of [from_property_name], in order. *)
Definition accessor_names : list (string * ResidentTemporalAccessor) :=
  [("year", AYear); ("quarter", AQuarter); ("month", AMonth); ("week", AWeek); ("weekyear", AWeekYear);
   ("day", ADay); ("ordinalday", AOrdinalDay); ("weekday", AWeekDay); ("dayofweek", AWeekDay);
   ("dayofquarter", ADayOfQuarter); ("hour", AHour); ("minute", AMinute); ("second", ASecond);
   ("millisecond", AMillisecond); ("microsecond", AMicrosecond); ("nanosecond", ANanosecond);
   ("timezone", ATimezone); ("offset", AOffset); ("offsetminutes", AOffsetMinutes);
   ("offsetseconds", AOffsetSeconds); ("epochseconds", AEpochSeconds); ("epochmillis", AEpochMillis);
   ("years", AYears); ("quarters", AQuarters); ("months", AMonths); ("weeks", AWeeks); ("days", ADays);
   ("hours", AHours); ("minutes", AMinutes); ("seconds", ASeconds); ("milliseconds", AMilliseconds);
   ("microseconds", AMicroseconds); ("nanoseconds", ANanoseconds); ("quartersofyear", AQuartersOfYear);
   ("monthsofquarter", AMonthsOfQuarter); ("monthsofyear", AMonthsOfYear); ("daysofweek", ADaysOfWeek);
   ("minutesofhour", AMinutesOfHour); ("secondsofminute", ASecondsOfMinute);
   ("millisecondsofsecond", AMillisecondsOfSecond); ("microsecondsofsecond", AMicrosecondsOfSecond);
   ("nanosecondsofsecond", ANanosecondsOfSecond)]%string.

Definition from_property_name (name : string) : option ResidentTemporalAccessor :=
  snd <$> find (λ '(n, _), bool_decide (n = to_ascii_lowercase name)) accessor_names.

Definition property_name (a : ResidentTemporalAccessor) : string :=
  match a with
  | AYear => "year" | AQuarter => "quarter" | AMonth => "month" | AWeek => "week"
  | AWeekYear => "weekyear" | ADay => "day" | AOrdinalDay => "ordinalday" | AWeekDay => "weekday"
  | ADayOfQuarter => "dayofquarter" | AHour => "hour" | AMinute => "minute" | ASecond => "second"
  | AMillisecond => "millisecond" | AMicrosecond => "microsecond" | ANanosecond => "nanosecond"
  | ATimezone => "timezone" | AOffset => "offset" | AOffsetMinutes => "offsetminutes"
  | AOffsetSeconds => "offsetseconds" | AEpochSeconds => "epochseconds" | AEpochMillis => "epochmillis"
  | AYears => "years" | AQuarters => "quarters" | AMonths => "months" | AWeeks => "weeks"
  | ADays => "days" | AHours => "hours" | AMinutes => "minutes" | ASeconds => "seconds"
  | AMilliseconds => "milliseconds" | AMicroseconds => "microseconds" | ANanoseconds => "nanoseconds"
  | AQuartersOfYear => "quartersofyear" | AMonthsOfQuarter => "monthsofquarter"
  | AMonthsOfYear => "monthsofyear" | ADaysOfWeek => "daysofweek" | AMinutesOfHour => "minutesofhour"
  | ASecondsOfMinute => "secondsofminute" | AMillisecondsOfSecond => "millisecondsofsecond"
  | AMicrosecondsOfSecond => "microsecondsofsecond" | ANanosecondsOfSecond => "nanosecondsofsecond"
  end%string.

Definition output_type (a : ResidentTemporalAccessor) : ResidentRowValueType :=
  match a with ATimezone | AOffset => RowString | _ => RowInteger end.

Definition is_duration (a : ResidentTemporalAccessor) : bool :=
  match a with
  | AYears | AQuarters | AMonths | AWeeks | ADays | AHours | AMinutes | ASeconds | AMilliseconds
  | AMicroseconds | ANanoseconds | AQuartersOfYear | AMonthsOfQuarter | AMonthsOfYear | ADaysOfWeek
  | AMinutesOfHour | ASecondsOfMinute | AMillisecondsOfSecond | AMicrosecondsOfSecond
  | ANanosecondsOfSecond => true
  | _ => false
  end.

Definition supports (a : ResidentTemporalAccessor) (t : ResidentRowValueType) : bool :=
  match a with
  | AYear | AQuarter | AMonth | AWeek | AWeekYear | ADay | AOrdinalDay | AWeekDay | ADayOfQuarter =>
      match t with RowDate | RowLocalDateTime | RowZonedDateTime => true | _ => false end
  | AHour | AMinute | ASecond | AMillisecond | AMicrosecond | ANanosecond =>
      match t with RowLocalTime | RowZonedTime | RowLocalDateTime | RowZonedDateTime => true | _ => false end
  | ATimezone | AOffset | AOffsetMinutes | AOffsetSeconds =>
      match t with RowZonedTime | RowZonedDateTime => true | _ => false end
  | AEpochSeconds | AEpochMillis => match t with RowZonedDateTime => true | _ => false end
  | _ => false
  end.

(** ** Errors and integers *)

Definition temporal_range (message : string) : Error := Error_new TemporalRange message.

Definition unsupported_accessor (a : ResidentTemporalAccessor) : Error :=
  Error_new QueryType ("unsupported temporal field `" +:+ property_name a +:+ "`").

(** [try_from] and the checked operations of the signed types: the exact result
    if it is in range. *)
Definition to_i64 : Z → option Z := in_range i64_min i64_max.
Definition to_i128 : Z → option Z := in_range i128_min i128_max.
Definition to_i32 : Z → option Z := in_range (-2147483648) 2147483647.
Definition to_u32 : Z → option Z := in_range 0 u32_max.

Definition NANOS_PER_SECOND : Z := 1000000000.
Definition NANOS_PER_DAY : Z := 86400 * NANOS_PER_SECOND.

(** ** [chrono] *)

(** A date, and a date with the second and nanosecond of its day. *)
Class Chrono := {
  NaiveDate : Type;
  from_ymd_opt : Z → Z → Z → option NaiveDate;
  date_year : NaiveDate → Z;
  date_month : NaiveDate → Z;
  date_day : NaiveDate → Z;
  date_ordinal : NaiveDate → Z;
  date_iso_week : NaiveDate → Z;
  date_iso_year : NaiveDate → Z;
  date_weekday_from_monday : NaiveDate → Z;
  (** Whether [Duration::days] is within the bounds of a [TimeDelta]. *)
  delta_in_bounds : Z → bool;
  checked_add_days : NaiveDate → Z → option NaiveDate;
  (** [date.signed_duration_since(other).num_days()]. *)
  days_since : NaiveDate → NaiveDate → Z;
  (** [DateTime::from_timestamp(seconds, nanos)], as a UTC date and time. *)
  from_timestamp : Z → Z → option (NaiveDate * (Z * Z));
  (** [local.and_utc().timestamp()]. *)
  utc_timestamp : NaiveDate * (Z * Z) → Z;
  Tz : Type;
  parse_tz : bytes → option Tz;
  FixedOffset : Type;
  parse_offset : bytes → option FixedOffset;
  tz_local : Tz → Z → Z → (NaiveDate * (Z * Z)) * Z;
  offset_local : FixedOffset → Z → Z → NaiveDate * (Z * Z);
  local_minus_utc : FixedOffset → Z;
  (** [from_local_datetime(&local).single()], as a timestamp and its nanoseconds. *)
  tz_from_local : Tz → NaiveDate * (Z * Z) → option (Z * Z);
  offset_from_local : FixedOffset → NaiveDate * (Z * Z) → option (Z * Z);
  (** [FixedOffset::east_opt(offset)], displayed. *)
  offset_display : Z → option bytes;
  show_date : NaiveDate → bytes;
  show_datetime : NaiveDate * (Z * Z) → bytes;
  (** [NaiveTime::from_num_seconds_from_midnight_opt], formatted. *)
  show_time : Z → Z → option bytes;
  rfc3339_utc : Z → Z → bytes;
  rfc3339_tz : Tz → Z → Z → bytes;
  rfc3339_offset : FixedOffset → Z → Z → bytes;
}.

Section temporal.
Context `{Chrono}.

Abbreviation NaiveDateTime := (NaiveDate * (Z * Z))%type.

(** [Duration::days]. *)
Definition Duration_days (days : Z) : Result Z := if delta_in_bounds days then Ok days else Abort Panicked.

(** [date.checked_add_signed(Duration::days(days))]. *)
Definition checked_add_signed (date : NaiveDate) (days : Z) : Result (option NaiveDate) :=
  delta ← Duration_days days; Ok (checked_add_days date delta).

Definition month0 (date : NaiveDate) : Z := date_month date - 1.

Definition date_from_epoch_day (days : Z) : Result NaiveDate :=
  match from_ymd_opt 1970 1 1 with
  | None => Err (temporal_range "date is outside the supported range")
  | Some date =>
      sum ← checked_add_signed date days;
      ok_or sum (temporal_range "date is outside the supported range")
  end.

Definition epoch_day_from_date (date : NaiveDate) : Result Z :=
  epoch ← ok_or (from_ymd_opt 1970 1 1) (temporal_range "invalid epoch");
  Ok (days_since date epoch).

Definition datetime_from_stored (seconds nanos : Z) : Result NaiveDateTime :=
  ok_or (from_timestamp seconds nanos) (temporal_range "datetime is outside the supported range").

(** The loop of [add_months]: [day] counts down to zero. *)
Fixpoint clamp_day (fuel : nat) (year month day : Z) : Result NaiveDate :=
  match fuel with
  | O => Abort OutOfFuel
  | S fuel =>
      match from_ymd_opt year month day with
      | Some value => Ok value
      | None =>
          day ← ok_or (checked_sub day 1) (temporal_range "calendar date overflow");
          clamp_day fuel year month day
      end
  end.

Definition add_months (date : NaiveDate) (months : Z) : Result NaiveDate :=
  total ← ok_or (v ← to_i64 (date_year date * 12); v ← to_i64 (v + month0 date); to_i64 (v + months))
            (temporal_range "calendar month overflow");
  year ← ok_or (to_i32 (total / 12)) (temporal_range "calendar year overflow");
  month ← ok_or (to_u32 (total mod 12 + 1)) (temporal_range "calendar month overflow");
  clamp_day (S (S (Z.to_nat (date_day date)))) year month (date_day date).

Definition add_calendar (value : NaiveDateTime) (months days : Z) : Result NaiveDateTime :=
  date ← add_months (fst value) months;
  sum ← checked_add_signed date days;
  date ← ok_or sum (temporal_range "calendar day overflow");
  Ok (date, snd value).

Definition add_clock (value seconds nanos : Z) : Result Z :=
  elapsed ← ok_or (v ← to_i128 (seconds * NANOS_PER_SECOND); to_i128 (v + nanos))
              (temporal_range "time duration overflow");
  ok_or (to_i64 ((value + elapsed) mod NANOS_PER_DAY)) (temporal_range "time duration overflow").

Definition add_elapsed (base_seconds base_nanos seconds nanos : Z) : Result (Z * Z) :=
  value ← ok_or (v ← to_i128 (base_seconds * NANOS_PER_SECOND);
                 v ← to_i128 (v + base_nanos);
                 to_i128 (v + (seconds * NANOS_PER_SECOND + nanos)))
            (temporal_range "datetime duration overflow");
  seconds ← ok_or (to_i64 (value / NANOS_PER_SECOND)) (temporal_range "datetime duration overflow");
  nanos ← ok_or (to_u32 (value mod NANOS_PER_SECOND)) (temporal_range "datetime duration overflow");
  Ok (seconds, nanos).

Definition zoned_local (seconds nanos : Z) (timezone : bytes) : Result (NaiveDateTime * Z) :=
  _ ← ok_or (from_timestamp seconds nanos) (temporal_range "datetime is outside the supported range");
  match parse_tz timezone with
  | Some zone => Ok (tz_local zone seconds nanos)
  | None =>
      match parse_offset timezone with
      | Some offset => Ok (offset_local offset seconds nanos, local_minus_utc offset)
      | None => Err (temporal_range "datetime timezone is invalid")
      end
  end.

Definition local_to_instant (local : NaiveDateTime) (timezone : bytes) : Result (Z * Z) :=
  match parse_tz timezone with
  | Some zone => ok_or (tz_from_local zone local) (temporal_range "local datetime is ambiguous or nonexistent")
  | None =>
      match parse_offset timezone with
      | Some offset => ok_or (offset_from_local offset local) (temporal_range "local datetime is invalid")
      | None => Err (temporal_range "datetime timezone is invalid")
      end
  end.

Definition offset_text (offset : Z) : Result bytes :=
  ok_or (offset_display offset) (temporal_range "time offset is invalid").

(** ** Fields *)

Definition date_accessor (date : NaiveDate) (a : ResidentTemporalAccessor) : Result ScalarValue :=
  value ←
    match a with
    | AYear => Ok (date_year date)
    | AQuarter => Ok (month0 date / 3 + 1)
    | AMonth => Ok (date_month date)
    | AWeek => Ok (date_iso_week date)
    | AWeekYear => Ok (date_iso_year date)
    | ADay => Ok (date_day date)
    | AOrdinalDay => Ok (date_ordinal date)
    | AWeekDay => Ok (date_weekday_from_monday date)
    | ADayOfQuarter =>
        first ← ok_or (from_ymd_opt (date_year date) (month0 date / 3 * 3 + 1) 1) (temporal_range "invalid quarter");
        (* u32 subtraction and addition, with the overflow checks of a debug build *)
        difference ← match checked_sub (date_ordinal date) (date_ordinal first) with
                     | Some d => Ok d | None => Abort Panicked end;
        match checked_add u32_max difference 1 with Some d => Ok d | None => Abort Panicked end
    | _ => Err (unsupported_accessor a)
    end;
  Ok (ScalarInteger value).

Definition time_accessor (nanos : Z) (a : ResidentTemporalAccessor) : Result ScalarValue :=
  if negb ((0 <=? nanos) && (nanos <? 86400000000000)) then Err (temporal_range "time is outside one day")
  else
    let seconds := Z.quot nanos 1000000000 in
    let sub := Z.rem nanos 1000000000 in
    value ←
      match a with
      | AHour => Ok (Z.quot seconds 3600)
      | AMinute => Ok (Z.rem (Z.quot seconds 60) 60)
      | ASecond => Ok (Z.rem seconds 60)
      | AMillisecond => Ok (Z.quot sub 1000000)
      | AMicrosecond => Ok (Z.quot sub 1000)
      | ANanosecond => Ok sub
      | _ => Err (unsupported_accessor a)
      end;
    Ok (ScalarInteger value).

(** [seconds.checked_mul(scale).and_then(|v| v.checked_add(part))]. *)
Definition scaled_seconds (seconds scale part : Z) (message : string) : Result Z :=
  ok_or (v ← to_i64 (seconds * scale); to_i64 (v + part)) (temporal_range message).

Definition duration_accessor (months days seconds nanos : Z) (a : ResidentTemporalAccessor)
    : Result ScalarValue :=
  value ←
    match a with
    | AYears => Ok (Z.quot months 12)
    | AQuarters => Ok (Z.quot months 3)
    | AMonths => Ok months
    | AWeeks => Ok (Z.quot days 7)
    | ADays => Ok days
    | AHours => Ok (Z.quot seconds 3600)
    | AMinutes => Ok (Z.quot seconds 60)
    | ASeconds => Ok seconds
    | AMilliseconds => scaled_seconds seconds 1000 (Z.quot nanos 1000000) "duration milliseconds overflow"
    | AMicroseconds => scaled_seconds seconds 1000000 (Z.quot nanos 1000) "duration microseconds overflow"
    | ANanoseconds => scaled_seconds seconds 1000000000 nanos "duration nanoseconds overflow"
    | AQuartersOfYear => Ok (Z.rem (Z.quot months 3) 4)
    | AMonthsOfQuarter => Ok (Z.rem months 3)
    | AMonthsOfYear => Ok (Z.rem months 12)
    | ADaysOfWeek => Ok (Z.rem days 7)
    | AMinutesOfHour => Ok (Z.rem (Z.quot seconds 60) 60)
    | ASecondsOfMinute => Ok (Z.rem seconds 60)
    | AMillisecondsOfSecond => Ok (Z.quot nanos 1000000)
    | AMicrosecondsOfSecond => Ok (Z.quot nanos 1000)
    | ANanosecondsOfSecond => Ok nanos
    | _ => Err (unsupported_accessor a)
    end;
  Ok (ScalarInteger value).

(** [date_accessor(..).or_else(|_| time_accessor(..))]. *)
Definition datetime_accessor (value : NaiveDateTime) (a : ResidentTemporalAccessor) : Result ScalarValue :=
  match date_accessor (fst value) a with
  | Err _ => time_accessor (fst (snd value) * 1000000000 + snd (snd value)) a
  | outcome => outcome
  end.

Definition evaluate_temporal_accessor (value : ScalarValue) (a : ResidentTemporalAccessor)
    : Result ScalarValue :=
  match value with
  | ScalarDate days => date ← date_from_epoch_day days; date_accessor date a
  | ScalarLocalTime nanos => time_accessor nanos a
  | ScalarZonedTime nanos offset_seconds =>
      match a with
      | ATimezone | AOffset => ScalarString <$> offset_text offset_seconds
      | AOffsetMinutes => Ok (ScalarInteger (Z.quot offset_seconds 60))
      | AOffsetSeconds => Ok (ScalarInteger offset_seconds)
      | _ => time_accessor nanos a
      end
  | ScalarLocalDateTime seconds nanos =>
      value ← datetime_from_stored seconds nanos; datetime_accessor value a
  | ScalarZonedDateTime seconds nanos timezone =>
      match a with
      | ATimezone => Ok (ScalarString timezone)
      | AEpochSeconds => Ok (ScalarInteger seconds)
      | AEpochMillis =>
          ScalarInteger <$> scaled_seconds seconds 1000 (Z.quot nanos 1000000) "datetime epochMillis overflow"
      | _ =>
          '(local, offset) ← zoned_local seconds nanos timezone;
          match a with
          | AOffset => ScalarString <$> offset_text offset
          | AOffsetMinutes => Ok (ScalarInteger (Z.quot offset 60))
          | AOffsetSeconds => Ok (ScalarInteger offset)
          | _ => datetime_accessor local a
          end
      end
  | ScalarDuration months days seconds nanos => duration_accessor months days seconds nanos a
  | _ => Err (Error_new QueryType "temporal accessor requires a temporal or duration value")
  end.

(** ** Comparison *)

Definition temporal_family (value : ScalarValue) : option Z :=
  match value with
  | ScalarDate _ => Some 0
  | ScalarLocalTime _ => Some 1
  | ScalarZonedTime _ _ => Some 2
  | ScalarLocalDateTime _ _ => Some 3
  | ScalarZonedDateTime _ _ _ => Some 4
  | ScalarDuration _ _ _ _ => Some 5
  | _ => None
  end.

Definition not_temporal : Error := Error_new QueryType "temporal comparison requires temporal values".

Definition ensure_temporal (value : ScalarValue) : Result unit :=
  ok_or ((λ _, tt) <$> temporal_family value) not_temporal.

Definition temporal_key (value : ScalarValue) : Result (Z * Z * Z * bytes) :=
  match value with
  | ScalarDate days => Ok (0, days, 0, [])
  | ScalarLocalTime nanos => Ok (1, nanos, 0, [])
  | ScalarZonedTime nanos offset_seconds =>
      Ok (2, nanos - offset_seconds * NANOS_PER_SECOND, offset_seconds, [])
  | ScalarLocalDateTime seconds nanos => Ok (3, seconds, nanos, [])
  | ScalarZonedDateTime seconds nanos timezone => Ok (4, seconds, nanos, timezone)
  | ScalarDuration months days seconds nanos =>
      Ok (5, months * 2629746000000000 + days * 86400000000000 + seconds * NANOS_PER_SECOND + nanos, 0, [])
  | _ => Err not_temporal
  end.

(** [Ord] on the tuples. *)
Definition temporal_key_cmp (l r : Z * Z * Z * bytes) : comparison :=
  let '(l0, l1, l2, l3) := l in
  let '(r0, r1, r2, r3) := r in
  then_cmp (l0 ?= r0) (then_cmp (l1 ?= r1) (then_cmp (l2 ?= r2) (lexZ l3 r3))).

(** Temporal values hold no floats, so [==] on them is equality. *)
Definition compare_temporal_scalars (left right : ScalarValue) (operation : CompareOp) : Result ScalarValue :=
  if bool_decide (left = ScalarNull) || bool_decide (right = ScalarNull) then Ok ScalarNull
  else
    _ ← ensure_temporal left;
    _ ← ensure_temporal right;
    let equal := bool_decide (temporal_family left = temporal_family right) && bool_decide (left = right) in
    match operation with
    | CmpEq => Ok (ScalarBoolean equal)
    | CmpNotEq => Ok (ScalarBoolean (negb equal))
    | _ =>
        if negb (bool_decide (temporal_family left = temporal_family right))
           || match left with ScalarDuration _ _ _ _ => true | _ => false end then Ok ScalarNull
        else
          l ← temporal_key left;
          r ← temporal_key right;
          let ordering := temporal_key_cmp l r in
          Ok (ScalarBoolean
                match operation with
                | CmpEq => is_eq ordering
                | CmpNotEq => negb (is_eq ordering)
                | CmpLess => match ordering with Lt => true | _ => false end
                | CmpLessOrEqual => negb (match ordering with Gt => true | _ => false end)
                | CmpGreater => match ordering with Gt => true | _ => false end
                | CmpGreaterOrEqual => negb (match ordering with Lt => true | _ => false end)
                end)
    end.

(** ** Adding durations *)

Definition apply_duration_to_temporal_scalar (temporal : ScalarValue) (months days seconds nanos : Z)
    : Result ScalarValue :=
  match temporal with
  | ScalarDate epoch_day =>
      date ← date_from_epoch_day epoch_day;
      date ← add_months date months;
      let elapsed_days := Z.quot seconds 86400 in
      delta ← ok_or (to_i64 (days + elapsed_days)) (temporal_range "date duration overflow");
      sum ← checked_add_signed date delta;
      date ← ok_or sum (temporal_range "date duration overflow");
      ScalarDate <$> epoch_day_from_date date
  | ScalarLocalTime value => ScalarLocalTime <$> add_clock value seconds nanos
  | ScalarZonedTime value offset_seconds =>
      nanos ← add_clock value seconds nanos;
      Ok (ScalarZonedTime nanos offset_seconds)
  | ScalarLocalDateTime value sub =>
      stored ← datetime_from_stored value sub;
      local ← add_calendar stored months days;
      '(seconds, nanos) ← add_elapsed (utc_timestamp local) (snd (snd local)) seconds nanos;
      _ ← datetime_from_stored seconds nanos;
      Ok (ScalarLocalDateTime seconds nanos)
  | ScalarZonedDateTime value sub timezone =>
      '(base_seconds, base_nanos) ←
        (if (months =? 0) && (days =? 0) then Ok (value, sub)
         else
           '(local, _) ← zoned_local value sub timezone;
           local ← add_calendar local months days;
           local_to_instant local timezone);
      '(seconds, nanos) ← add_elapsed base_seconds base_nanos seconds nanos;
      _ ← zoned_local seconds nanos timezone;
      Ok (ScalarZonedDateTime seconds nanos timezone)
  | _ => Err (Error_new QueryType "duration arithmetic requires a temporal value")
  end.
End temporal.

(** ** Text *)

(** The digits of a natural number below [10 ^ fuel]. *)
Fixpoint digits_of (fuel : nat) (n : Z) : bytes :=
  match fuel with
  | O => []
  | S fuel => if n <? 10 then [48 + n] else digits_of fuel (n / 10) ++ [48 + n mod 10]
  end.

(** [{}] of an integer; an [i128] has at most 39 digits. *)
Definition display (n : Z) : bytes := (if n <? 0 then lit "-" else []) ++ digits_of 40 (Z.abs n).

(** [{:09}] of a natural number. *)
Definition display_09 (n : Z) : bytes :=
  let ds := digits_of 40 n in replicate (9 - length ds) 48 ++ ds.

(** [trim_end_matches('0')]. *)
Fixpoint drop_zeros (t : bytes) : bytes :=
  match t with c :: t => if c =? 48 then drop_zeros t else c :: t | [] => [] end.
Definition trim_end_zeros (t : bytes) : bytes := rev (drop_zeros (rev t)).

(** [{n}{unit}], when [n] is not zero. *)
Definition component (n : Z) (unit : string) : bytes := if n =? 0 then [] else display n ++ lit unit.

Definition seconds_component (second_nanos : Z) : bytes :=
  if second_nanos =? 0 then []
  else
    let sign := if second_nanos <? 0 then lit "-" else [] in
    let absolute := Z.abs second_nanos in
    let component_seconds := Z.quot absolute NANOS_PER_SECOND in
    let component_nanos := Z.rem absolute NANOS_PER_SECOND in
    if component_nanos =? 0 then sign ++ display component_seconds ++ lit "S"
    else sign ++ display component_seconds ++ lit "." ++ trim_end_zeros (display_09 component_nanos) ++ lit "S".

Definition format_duration (months days seconds nanos : Z) : bytes :=
  let years := Z.quot months 12 in
  let remaining_months := Z.rem months 12 in
  let total_nanos := seconds * NANOS_PER_SECOND + nanos in
  lit "P" ++ component years "Y" ++ component remaining_months "M" ++ component days "D" ++
  (if negb (total_nanos =? 0) then
     let whole_seconds := Z.quot total_nanos NANOS_PER_SECOND in
     let fractional_nanos := Z.rem total_nanos NANOS_PER_SECOND in
     let hours := Z.quot whole_seconds 3600 in
     let after_hours := Z.rem whole_seconds 3600 in
     let minutes := Z.quot after_hours 60 in
     let second_nanos := Z.rem after_hours 60 * NANOS_PER_SECOND + fractional_nanos in
     lit "T" ++ component hours "H" ++ component minutes "M" ++ seconds_component second_nanos
   else if (years =? 0) && (remaining_months =? 0) && (days =? 0) then lit "T0S"
   else []).

Section format.
Context `{Chrono}.

Definition format_time (nanos : Z) : Result bytes :=
  if negb ((0 <=? nanos) && (nanos <? 86400000000000)) then Err (temporal_range "local time is outside one day")
  else
    seconds ← ok_or (to_u32 (Z.quot nanos 1000000000)) (temporal_range "time overflow");
    sub ← ok_or (to_u32 (Z.rem nanos 1000000000)) (temporal_range "time overflow");
    ok_or (show_time seconds sub) (temporal_range "local time is invalid").

Definition format_temporal_scalar (value : ScalarValue) : Result (option bytes) :=
  match value with
  | ScalarNull => Ok None
  | ScalarDate days => date ← date_from_epoch_day days; Ok (Some (show_date date))
  | ScalarLocalTime nanos => Some <$> format_time nanos
  | ScalarZonedTime nanos offset_seconds =>
      time ← format_time nanos;
      offset ← offset_text offset_seconds;
      Ok (Some (time ++ offset))
  | ScalarLocalDateTime seconds nanos =>
      value ← datetime_from_stored seconds nanos; Ok (Some (show_datetime value))
  | ScalarZonedDateTime seconds nanos timezone =>
      _ ← ok_or (from_timestamp seconds nanos) (temporal_range "datetime is outside the format range");
      if bool_decide (timezone = lit "UTC") then Ok (Some (rfc3339_utc seconds nanos))
      else
        match parse_tz timezone with
        | Some zone => Ok (Some (rfc3339_tz zone seconds nanos ++ lit "[" ++ timezone ++ lit "]"))
        | None =>
            match parse_offset timezone with
            | Some offset => Ok (Some (rfc3339_offset offset seconds nanos))
            | None => Err (temporal_range "datetime timezone is invalid")
            end
        end
  | ScalarDuration months days seconds nanos => Ok (Some (format_duration months days seconds nanos))
  | _ => Err (Error_new QueryType "temporal serialization requires a temporal value")
  end.
End format.
