(* ===== verification/Value.v ===== *)
(** * Values in predicates: [crates/cypher/src/value.rs]

    Three-valued truth, equality, membership and the ordering predicates of
    expressions.  Stored documents are read before they are compared; as in
    [Ordering], two rounds of the call that follows a reading are enough.
    [left == right] on scalars is the derived [PartialEq], under which the
    third-party [OrderedFloat] is equal when its [Ord] says so. *)

From stdpp Require Import prelude gmap strings sorting.
From Stdlib Require Import ZArith Lia.
From S2P Require Import Prelude Machine Types Document Results Ordering.

Local Open Scope Z_scope.

(** ** Truth *)

Inductive Truth := False_ | True_ | Unknown.

#[global] Instance Truth_eq_dec : EqDecision Truth.
Proof. solve_decision. Defined.

Definition bool_truth (value : bool) : Truth := if value then True_ else False_.

Definition into_value (t : Truth) : ResultValue :=
  match t with
  | False_ => ResScalar (ScalarBoolean false)
  | True_ => ResScalar (ScalarBoolean true)
  | Unknown => ResScalar ScalarNull
  end.

Definition not_ (t : Truth) : Truth :=
  match t with False_ => True_ | True_ => False_ | Unknown => Unknown end.

Definition and_ (t other : Truth) : Truth :=
  match t, other with
  | False_, _ | _, False_ => False_
  | True_, True_ => True_
  | _, _ => Unknown
  end.

Definition or_ (t other : Truth) : Truth :=
  match t, other with
  | True_, _ | _, True_ => True_
  | False_, False_ => False_
  | _, _ => Unknown
  end.

Definition xor_ (t other : Truth) : Truth :=
  match t, other with
  | Unknown, _ | _, Unknown => Unknown
  | False_, False_ | True_, True_ => False_
  | _, _ => True_
  end.

Definition truth (value : ResultValue) : Result Truth :=
  match value with
  | ResScalar (ScalarBoolean false) => Ok False_
  | ResScalar (ScalarBoolean true) => Ok True_
  | ResScalar ScalarNull => Ok Unknown
  | _ => Err (Error_new QueryType "predicate expression must be BOOLEAN or NULL")
  end.

Definition is_null (value : ResultValue) : bool :=
  match value with ResScalar ScalarNull => true | _ => false end.

(** ** Derived equality *)

Definition vector_equal (left right : list Z) : bool :=
  (zlen left =? zlen right) && forallb (λ '(l, r), l =? r) (zip left right).

Definition scalar_family (value : ScalarValue) : Z :=
  match value with
  | ScalarInteger _ | ScalarFloat _ => 0
  | ScalarBoolean _ => 1
  | ScalarString _ => 2
  | ScalarBytes _ => 3
  | ScalarDate _ => 4
  | ScalarLocalTime _ => 5
  | ScalarZonedTime _ _ => 6
  | ScalarLocalDateTime _ _ => 7
  | ScalarZonedDateTime _ _ _ => 8
  | ScalarDuration _ _ _ _ => 9
  | ScalarNull => 10
  | ScalarList _ => 11
  | ScalarMap _ => 12
  end.

Definition scalar_is_nan (value : ScalarValue) : bool :=
  match value with ScalarFloat bits => f64_is_nan bits | _ => false end.

Section equality.
Context `{OrderedFloatOrd}.

Definition scalar_eq (left right : ScalarValue) : bool :=
  match left, right with
  | ScalarFloat l, ScalarFloat r => is_eq (ordered_float_cmp l r)
  | _, _ => bool_decide (left = right)
  end.

(** [==] on [BTreeMap<String, ScalarValue>]. *)
Fixpoint properties_eq (left right : list (bytes * ScalarValue)) : bool :=
  match left, right with
  | [], [] => true
  | (k, v) :: ls, (k', v') :: rs => bool_decide (k = k') && scalar_eq v v' && properties_eq ls rs
  | _, _ => false
  end.

Definition node_eq (left right : ResultNode) : bool :=
  (node_id left =? node_id right) && bool_decide (node_layer left = node_layer right)
  && (node_revision left =? node_revision right) && bool_decide (node_labels left = node_labels right)
  && properties_eq (node_properties left) (node_properties right).

Definition edge_eq (left right : ResultEdge) : bool :=
  (edge_id left =? edge_id right) && (edge_source left =? edge_source right)
  && (edge_target left =? edge_target right) && bool_decide (edge_type left = edge_type right)
  && bool_decide (edge_layer left = edge_layer right) && (edge_revision left =? edge_revision right)
  && properties_eq (edge_properties left) (edge_properties right).

(** [==] on [Vec]. *)
Fixpoint all_eq {A} (eq : A → A → bool) (left right : list A) : bool :=
  match left, right with
  | [], [] => true
  | l :: ls, r :: rs => eq l r && all_eq eq ls rs
  | _, _ => false
  end.

(** ** Equality *)

Definition equal_scalars (left right : ScalarValue) : Result Truth :=
  match left, right with
  | ScalarInteger l, ScalarFloat r =>
      if f64_is_nan r then Ok (bool_truth false)
      else c ← compare_i64_f64 l r; Ok (bool_truth (is_eq c))
  | ScalarFloat l, ScalarInteger r =>
      if f64_is_nan l then Ok (bool_truth false)
      else c ← compare_i64_f64 r l; Ok (bool_truth (is_eq c))
  | _, _ =>
      if negb (scalar_family left =? scalar_family right) then Ok False_
      else Ok (if scalar_is_nan left || scalar_is_nan right then False_
               else if scalar_eq left right then True_ else False_)
  end.

(** The loop of [sequence_equal] and [map_equal], from [result] on. *)
Definition equal_zip {A B} (equal : A → B → Result Truth) : Truth → list A → list B → Result Truth :=
  fix go result ls rs {struct ls} :=
    match ls, rs with
    | l :: ls, r :: rs =>
        t ← equal l r;
        let result := and_ result t in
        if bool_decide (result = False_) then Ok result else go result ls rs
    | _, _ => Ok result
    end.

Definition sequence_equal {A} (equal : A → A → Result Truth) (left right : list A) : Result Truth :=
  if negb (zlen left =? zlen right) then Ok False_ else equal_zip equal True_ left right.

Definition map_equal {A} (equal : A → A → Result Truth) (left right : list (bytes * A)) : Result Truth :=
  if negb (zlen left =? zlen right) || negb (bool_decide (map fst left = map fst right)) then Ok False_
  else equal_zip (λ '(_, l) '(_, r), equal l r) True_ left right.

(** The loop of [path_list_equal] from [index] on. *)
Fixpoint path_list_from (index : Z) (nodes : list ResultNode) (relationships : list ResultEdge)
    (values : list ResultValue) : Truth :=
  match values with
  | [] => True_
  | value :: values =>
      if index mod 2 =? 0 then
        match get nodes (index / 2) with
        | None => False_
        | Some node =>
            if match value with ResNode v => node_id v =? node_id node | _ => false end
            then path_list_from (index + 1) nodes relationships values else False_
        end
      else
        match get relationships (index / 2) with
        | None => False_
        | Some relationship =>
            if match value with ResRelationship v => edge_id v =? edge_id relationship | _ => false end
            then path_list_from (index + 1) nodes relationships values else False_
        end
  end.

Definition path_list_equal (nodes : list ResultNode) (relationships : list ResultEdge)
    (values : list ResultValue) : Truth :=
  if negb (zlen values =? saturating_add usize_max (zlen nodes) (zlen relationships))
     || negb (zlen nodes =? saturating_add usize_max (zlen relationships) 1) then False_
  else path_list_from 0 nodes relationships values.

(** The stored document that a value is, to be read first. *)
Definition document_of (v : ResultValue) : option ScalarValue :=
  match v with ResScalar s => if is_document s then Some s else None | _ => None end.

Context `{Allocator}.

(** [equal]; [again] is the call after a document was read. *)
Fixpoint equal_values (again : ResultValue → ResultValue → Result Truth) (left right : ResultValue)
    : Result Truth :=
  match document_of left with
  | Some value => materialized ← from_property value; again materialized right
  | None =>
      match document_of right with
      | Some value => materialized ← from_property value; again left materialized
      | None =>
          if is_null left || is_null right then Ok Unknown
          else
            match left, right with
            | ResScalar l, ResScalar r => equal_scalars l r
            | ResNode l, ResNode r => Ok (bool_truth (node_id l =? node_id r))
            | ResRelationship l, ResRelationship r => Ok (bool_truth (edge_id l =? edge_id r))
            | ResPath ln le, ResPath rn re =>
                Ok (bool_truth (all_eq node_eq ln rn && all_eq edge_eq le re))
            | ResVector l, ResVector r => Ok (bool_truth (vector_equal l r))
            | ResList l, ResList r => sequence_equal (equal_values again) l r
            | ResMap l, ResMap r => map_equal (equal_values again) l r
            | ResPath nodes relationships, ResList values
            | ResList values, ResPath nodes relationships => Ok (path_list_equal nodes relationships values)
            | _, _ => Ok False_
            end
      end
  end.

Fixpoint equal_rounds (rounds : nat) : ResultValue → ResultValue → Result Truth :=
  equal_values match rounds with O => λ _ _, Abort OutOfFuel | S rounds => equal_rounds rounds end.

Definition equal : ResultValue → ResultValue → Result Truth := equal_rounds 2.

(** The loop of [contains]. *)
Fixpoint contains_from (unknown : bool) (list : list ResultValue) (needle : ResultValue) : Result Truth :=
  match list with
  | [] => Ok (if unknown then Unknown else False_)
  | value :: list =>
      t ← equal needle value;
      match t with
      | True_ => Ok True_
      | Unknown => contains_from true list needle
      | False_ => contains_from unknown list needle
      end
  end.

Definition contains (list : list ResultValue) (needle : ResultValue) : Result Truth :=
  match list with [] => Ok False_ | _ => contains_from false list needle end.
End equality.

(** ** Ordering predicates *)

Inductive BinaryOperator :=
| OpOr | OpXor | OpAnd | OpEqual | OpNotEqual | OpLess | OpLessOrEqual | OpGreater | OpGreaterOrEqual
| OpIn | OpStartsWith | OpEndsWith | OpContains | OpRegexMatch | OpConcat | OpAdd | OpSubtract
| OpMultiply | OpDivide | OpModulo | OpPower.

Inductive PartialComparison :=
| Ordered (ordering : comparison)
| UnknownOrder
| Unordered.

Definition incomparable (operation left right : string) : Error :=
  Error_new QueryType (operation +:+ " is not defined between " +:+ left +:+ " and " +:+ right).

Section ordering.
Context `{OrderedFloatOrd}.

Definition compare_same_scalar (left right : ScalarValue) : Result (option comparison) :=
  match left, right with
  | ScalarBoolean l, ScalarBoolean r => Ok (Some (bool_cmp l r))
  | ScalarInteger l, ScalarInteger r => Ok (Some (l ?= r))
  | ScalarFloat l, ScalarFloat r => Ok (Some (ordered_float_cmp l r))
  | ScalarString l, ScalarString r => Ok (Some (lexZ l r))
  | ScalarDate l, ScalarDate r => Ok (Some (l ?= r))
  | ScalarLocalTime l, ScalarLocalTime r => Ok (Some (l ?= r))
  | ScalarZonedTime ln lo, ScalarZonedTime rn ro =>
      Ok (Some (then_cmp (normalized_zoned_time ln lo ?= normalized_zoned_time rn ro) (lo ?= ro)))
  | ScalarLocalDateTime ls ln, ScalarLocalDateTime rs rn => Ok (Some (then_cmp (ls ?= rs) (ln ?= rn)))
  | ScalarZonedDateTime ls ln lz, ScalarZonedDateTime rs rn rz =>
      Ok (Some (then_cmp (ls ?= rs) (then_cmp (ln ?= rn) (lexZ lz rz))))
  | ScalarDuration _ _ _ _, ScalarDuration _ _ _ _ => Ok None
  | _, _ => Err (incomparable "ordering" (type_name left) (type_name right))
  end.

Definition partial_compare_scalars (left right : ScalarValue) : Result PartialComparison :=
  match left, right with
  | ScalarInteger l, ScalarFloat r =>
      if f64_is_nan r then Ok Unordered else c ← compare_i64_f64 l r; Ok (Ordered c)
  | ScalarFloat l, ScalarInteger r =>
      if f64_is_nan l then Ok Unordered else c ← compare_i64_f64 r l; Ok (Ordered (CompOpp c))
  | _, _ =>
      if negb (scalar_family left =? scalar_family right) then Ok UnknownOrder
      else if scalar_is_nan left || scalar_is_nan right then Ok Unordered
      else
        match compare_same_scalar left right with
        | Ok (Some ordering) => Ok (Ordered ordering)
        | Ok None | Err _ => Ok UnknownOrder
        | Abort w => Abort w
        end
  end.

(** The loop of [compare_lists]; [lengths] compares the two lengths. *)
Definition compare_zip {A} (partial_compare : A → A → Result PartialComparison) (lengths : comparison)
    : list A → list A → Result PartialComparison :=
  fix go ls rs {struct ls} :=
    match ls, rs with
    | l :: ls, r :: rs =>
        result ← partial_compare l r;
        match result with Ordered Eq => go ls rs | result => Ok result end
    | _, _ => Ok (Ordered lengths)
    end.

Definition compare_lists {A} (partial_compare : A → A → Result PartialComparison) (left right : list A)
    : Result PartialComparison :=
  compare_zip partial_compare (zlen left ?= zlen right) left right.

Context `{Allocator}.

(** [partial_compare]; [again] is the call after a document was read. *)
Fixpoint partial_values (again : ResultValue → ResultValue → Result PartialComparison)
    (left right : ResultValue) : Result PartialComparison :=
  match document_of left with
  | Some value => materialized ← from_property value; again materialized right
  | None =>
      match document_of right with
      | Some value => materialized ← from_property value; again left materialized
      | None =>
          if is_null left || is_null right then Ok UnknownOrder
          else
            match left, right with
            | ResScalar l, ResScalar r => partial_compare_scalars l r
            | ResList l, ResList r => compare_lists (partial_values again) l r
            | _, _ => Ok UnknownOrder
            end
      end
  end.

Fixpoint partial_rounds (rounds : nat) : ResultValue → ResultValue → Result PartialComparison :=
  partial_values match rounds with O => λ _ _, Abort OutOfFuel | S rounds => partial_rounds rounds end.

Definition partial_compare : ResultValue → ResultValue → Result PartialComparison := partial_rounds 2.

Definition compare_predicate (left right : ResultValue) (operation : BinaryOperator) : Result Truth :=
  ordering ← partial_compare left right;
  match ordering with
  | UnknownOrder => Ok Unknown
  | Unordered => Ok False_
  | Ordered ordering =>
      value ←
        match operation with
        | OpLess => Ok (match ordering with Lt => true | _ => false end)
        | OpLessOrEqual => Ok (negb (match ordering with Gt => true | _ => false end))
        | OpGreater => Ok (match ordering with Gt => true | _ => false end)
        | OpGreaterOrEqual => Ok (negb (match ordering with Lt => true | _ => false end))
        | _ => Err (Error_internal "comparison predicate requires an ordering operator")
        end;
      Ok (bool_truth value)
  end.
End ordering.
