(* ===== verification/TemporalTheorems.v ===== *)
(** * Temporal values: theorems

    Fields, comparison, the addition of durations and their text, over the
    documented behaviour of [chrono]. *)

From stdpp Require Import prelude strings.
From Stdlib Require Import ZArith Lia Ascii.
From S2P Require Import Prelude Machine Types Document Results Ordering Value Temporal.

Local Open Scope Z_scope.
#[local] Set Warnings "-clear-no-such-hyp".

(** ** The calendar *)

Definition leap (y : Z) : bool := (y mod 4 =? 0) && (negb (y mod 100 =? 0) || (y mod 400 =? 0)).

Definition days_in_month (y m : Z) : Z :=
  if m =? 2 then if leap y then 29 else 28
  else if (m =? 4) || (m =? 6) || (m =? 9) || (m =? 11) then 30 else 31.

(** The largest number of days in a [TimeDelta], which holds an [i64] of
    milliseconds. *)
Definition DELTA_DAYS : Z := 106751991167.

(** What the documentation of [chrono] says of the operations: dates are those
    of the proleptic Gregorian calendar in a range of years, numbered by days
    from the Unix epoch; times of day are seconds and nanoseconds, with a leap
    second as nanoseconds beyond a second. *)
Class ChronoSpec `{Chrono} := {
  day_number : NaiveDate → Z;
  min_year : Z;
  max_year : Z;
  year_range : -2147483648 ≤ min_year ≤ 1970 ∧ 1970 ≤ max_year ≤ 2147483647;
  from_ymd_some y m d :
    is_Some (from_ymd_opt y m d) ↔ min_year ≤ y ≤ max_year ∧ 1 ≤ m ≤ 12 ∧ 1 ≤ d ≤ days_in_month y m;
  from_ymd_fields y m d x :
    from_ymd_opt y m d = Some x → date_year x = y ∧ date_month x = m ∧ date_day x = d;
  from_ymd_of_fields x : from_ymd_opt (date_year x) (date_month x) (date_day x) = Some x;
  epoch_number x : from_ymd_opt 1970 1 1 = Some x → day_number x = 0;
  delta_bounds n : delta_in_bounds n = true ↔ - DELTA_DAYS ≤ n ≤ DELTA_DAYS;
  add_days_number x k y : checked_add_days x k = Some y ↔ day_number y = day_number x + k;
  days_since_number x y : days_since x y = day_number x - day_number y;
  ordinal_number x j :
    from_ymd_opt (date_year x) 1 1 = Some j → date_ordinal x = day_number x - day_number j + 1;
  later_day x y :
    date_year x = date_year y → date_month x < date_month y ∨ date_month x = date_month y ∧ date_day x ≤ date_day y →
    day_number x ≤ day_number y;
  day_number_bound x : - 2 ^ 30 ≤ day_number x < 2 ^ 30;
  from_timestamp_number s n x t u :
    from_timestamp s n = Some (x, (t, u)) →
    s = day_number x * 86400 + t ∧ 0 ≤ t < 86400 ∧ u = n ∧ 0 ≤ n < 2 * NANOS_PER_SECOND;
  from_timestamp_of x t n :
    0 ≤ t < 86400 → 0 ≤ n < NANOS_PER_SECOND → from_timestamp (day_number x * 86400 + t) n = Some (x, (t, n));
  tz_instant_width zone local s n :
    tz_from_local zone local = Some (s, n) → i64_min ≤ s ≤ i64_max ∧ 0 ≤ n ≤ u32_max;
  offset_instant_width offset local s n :
    offset_from_local offset local = Some (s, n) → i64_min ≤ s ≤ i64_max ∧ 0 ≤ n ≤ u32_max;
  utc_timestamp_number x t u : utc_timestamp (x, (t, u)) = day_number x * 86400 + t;
}.

Section calendar.
Context `{ChronoSpec}.

(** The date some months later, on the last day of a shorter month. *)
Definition months_later (x : NaiveDate) (months : Z) (y : NaiveDate) : Prop :=
  date_year y * 12 + date_month y = date_year x * 12 + date_month x + months
  ∧ 1 ≤ date_month y ≤ 12
  ∧ date_day y = Z.min (date_day x) (days_in_month (date_year y) (date_month y)).

Lemma date_fields x :
  min_year ≤ date_year x ≤ max_year ∧ 1 ≤ date_month x ≤ 12
  ∧ 1 ≤ date_day x ≤ days_in_month (date_year x) (date_month x).
Proof. apply from_ymd_some. rewrite from_ymd_of_fields. by eexists. Qed.

Lemma days_in_month_bounds y m : 28 ≤ days_in_month y m ≤ 31.
Proof. unfold days_in_month. repeat case_match; lia. Qed.

(** The loop ends with the last day of the month that exists, or at zero. *)
Lemma clamp_day_spec fuel y m d :
  0 ≤ d → (Z.to_nat d < fuel)%nat →
  match clamp_day fuel y m d with
  | Ok x => date_year x = y ∧ date_month x = m ∧ date_day x = Z.min d (days_in_month y m) ∧ 1 ≤ m ≤ 12
            ∧ min_year ≤ y ≤ max_year
  | Err e => code e = TemporalRange ∧ ¬ (min_year ≤ y ≤ max_year ∧ 1 ≤ m ≤ 12 ∧ 1 ≤ d)
  | Abort _ => False
  end.
Proof.
  revert d. induction fuel as [|fuel IH]; intros d Hd Hf; [lia|]. cbn [clamp_day].
  pose proof (days_in_month_bounds y m).
  destruct (from_ymd_opt y m d) as [x|] eqn:Hx.
  - destruct (proj1 (from_ymd_some y m d) ltac:(by eexists)) as (? & ? & ?).
    apply from_ymd_fields in Hx as (-> & -> & ->). split_and!; try done; lia.
  - assert (¬ (min_year ≤ y ≤ max_year ∧ 1 ≤ m ≤ 12 ∧ 1 ≤ d ≤ days_in_month y m)) as Hn.
    { intros Hv. apply from_ymd_some in Hv as [? Hv]. congruence. }
    unfold checked_sub. destruct (Z.leb_spec 1 d) as [Hle|Hlt]; cbn [ok_or mbind outcome_bind].
    + specialize (IH (d - 1) ltac:(lia) ltac:(lia)). destruct (clamp_day fuel y m (d - 1)) as [x|e|w]; [|naive_solver lia|done].
      destruct IH as (? & ? & Hday & ? & ?). split_and!; try done; lia.
    + split; [done|]. lia.
Qed.

(** [m] returns a value that satisfies [Q], fails with a range error, or panics
    and [P] holds. *)
Definition ranged {A} (m : Result A) (Q : A → Prop) (P : Prop) : Prop :=
  match m with
  | Ok a => Q a
  | Err e => code e = TemporalRange
  | Abort w => w = Panicked ∧ P
  end.

Lemma ranged_bind {A B} (m : Result A) (f : A → Result B) Q R P :
  ranged m Q P → (∀ a, Q a → ranged (f a) R P) → ranged (m ≫= f) R P.
Proof. destruct m; cbn; auto. Qed.

Lemma ranged_mono {A} (m : Result A) (Q R : A → Prop) (P P' : Prop) :
  ranged m Q P → (∀ a, Q a → R a) → (P → P') → ranged m R P'.
Proof. destruct m; cbn; naive_solver. Qed.

Lemma ranged_fmap {A B} (m : Result A) (g : A → B) (R : B → Prop) P :
  ranged m (λ a, R (g a)) P → ranged (g <$> m) R P.
Proof. by destruct m. Qed.

Lemma ranged_ok_or {A} (o : option A) message (Q : A → Prop) P :
  (∀ a, o = Some a → Q a) → ranged (ok_or o (temporal_range message)) Q P.
Proof. destruct o; cbn; naive_solver. Qed.

Lemma in_range_ok lo hi x : lo ≤ x ≤ hi → in_range lo hi x = Some x.
Proof. intros. unfold in_range. by rewrite !(proj2 (Z.leb_le _ _)) by lia. Qed.

Lemma add_months_spec x months P : ranged (add_months x months) (months_later x months) P.
Proof.
  unfold add_months. destruct (date_fields x) as (_ & Hm & Hd).
  eapply ranged_bind; [apply ranged_ok_or; intros total Ht; exact Ht|]. intros total Ht.
  apply bind_Some in Ht as (v & Hv & Ht). apply bind_Some in Ht as (v' & Hv' & Ht).
  unfold to_i64 in *. apply in_range_Some in Hv as [-> _], Hv' as [-> _], Ht as [-> _]. unfold month0.
  set (total := date_year x * 12 + (date_month x - 1) + months).
  eapply ranged_bind; [apply ranged_ok_or; intros y Hy; exact Hy|]. intros y Hy.
  eapply ranged_bind; [apply ranged_ok_or; intros m Hm'; exact Hm'|]. intros m Hm'.
  unfold to_i32, to_u32 in *. apply in_range_Some in Hy as [-> _], Hm' as [-> _].
  pose proof (clamp_day_spec (S (S (Z.to_nat (date_day x)))) (total / 12) (total mod 12 + 1) (date_day x)
    ltac:(lia) ltac:(lia)) as Hc.
  destruct (clamp_day _ _ _ _) as [z|e|w]; [|by destruct Hc|done]. destruct Hc as (Hy & Hmz & Hdz & _ & _).
  pose proof (Z.div_mod total 12 ltac:(lia)). pose proof (Z.mod_pos_bound total 12 ltac:(lia)).
  cbn. unfold months_later. rewrite Hy, Hmz. split_and!; [unfold total in *; lia|lia|lia|done].
Qed.

Lemma add_no_months x : add_months x 0 = Ok x.
Proof.
  destruct (date_fields x) as (Hy & Hm & Hd). pose proof year_range. unfold add_months, month0.
  unfold to_i64, to_i32, to_u32.
  rewrite (in_range_ok i64_min i64_max (date_year x * 12)) by rlia. cbn [mbind option_bind].
  rewrite (in_range_ok i64_min i64_max (date_year x * 12 + _)) by rlia. cbn [mbind option_bind].
  rewrite in_range_ok by rlia. cbn [ok_or mbind outcome_bind].
  replace (date_year x * 12 + (date_month x - 1) + 0) with ((date_month x - 1) + date_year x * 12) by lia.
  rewrite Z.div_add, Z.mod_add by lia. rewrite (Z.div_small (date_month x - 1)), (Z.mod_small (date_month x - 1)) by lia.
  rewrite (in_range_ok (-2147483648) 2147483647) by lia. cbn [ok_or mbind outcome_bind].
  rewrite (in_range_ok 0 u32_max) by rlia. cbn [ok_or mbind outcome_bind clamp_day].
  replace (date_month x - 1 + 1) with (date_month x) by lia. by rewrite ?Z.add_0_l, from_ymd_of_fields.
Qed.

(** More days than a [TimeDelta] holds. *)
Definition beyond_delta (days : Z) : Prop := days < - DELTA_DAYS ∨ DELTA_DAYS < days.

Lemma Duration_days_spec days :
  (Duration_days days = Ok days ∧ ¬ beyond_delta days) ∨ (Duration_days days = Abort Panicked ∧ beyond_delta days).
Proof.
  unfold Duration_days, beyond_delta. destruct (delta_in_bounds days) eqn:E.
  - left. apply delta_bounds in E. split; [done|lia].
  - right. split; [done|]. assert (¬ (- DELTA_DAYS ≤ days ≤ DELTA_DAYS)); [|lia]. intros ?%delta_bounds. congruence.
Qed.

Lemma add_signed_spec x days message :
  ranged (sum ← checked_add_signed x days; ok_or sum (temporal_range message))
    (λ y, day_number y = day_number x + days) (beyond_delta days).
Proof.
  unfold checked_add_signed. destruct (Duration_days_spec days) as [[-> _]|[-> Hb]]; [|by split].
  cbn. apply ranged_ok_or. intros y. apply add_days_number.
Qed.

Lemma epoch_exists : ∃ e, from_ymd_opt 1970 1 1 = Some e ∧ day_number e = 0.
Proof.
  pose proof year_range. destruct (proj2 (from_ymd_some 1970 1 1)) as [e He].
  - pose proof (days_in_month_bounds 1970 1). lia.
  - exists e. split; [done|]. by apply epoch_number.
Qed.

Lemma date_from_epoch_day_spec days :
  ranged (date_from_epoch_day days) (λ x, day_number x = days) (beyond_delta days).
Proof.
  unfold date_from_epoch_day. destruct epoch_exists as (e & -> & He).
  eapply ranged_mono; [apply add_signed_spec| |done]. cbn. intros x ->. lia.
Qed.

Lemma date_from_beyond days : beyond_delta days → date_from_epoch_day days = Abort Panicked.
Proof.
  intros Hb. unfold date_from_epoch_day, checked_add_signed. destruct epoch_exists as (e & -> & _).
  destruct (Duration_days_spec days) as [[_ ?]|[-> _]]; [done|]. done.
Qed.

Lemma epoch_day_from_date_spec x : epoch_day_from_date x = Ok (day_number x).
Proof.
  unfold epoch_day_from_date. destruct epoch_exists as (e & -> & He). cbn. by rewrite days_since_number, He, Z.sub_0_r.
Qed.

(** ** Clocks *)

Definition elapsed (seconds nanos : Z) : Z := seconds * NANOS_PER_SECOND + nanos.

Lemma add_clock_spec value seconds nanos P :
  ranged (add_clock value seconds nanos) (λ r, r = (value + elapsed seconds nanos) mod NANOS_PER_DAY) P.
Proof.
  unfold add_clock, elapsed, to_i128, to_i64. eapply ranged_bind; [apply ranged_ok_or; intros e He; exact He|].
  intros e He. apply bind_Some in He as (v & Hv & He). apply in_range_Some in Hv as [-> _], He as [-> _].
  apply ranged_ok_or. by intros r [-> _]%in_range_Some.
Qed.

Lemma add_elapsed_spec base_seconds base_nanos seconds nanos P :
  ranged (add_elapsed base_seconds base_nanos seconds nanos)
    (λ '(s, n), elapsed s n = elapsed base_seconds base_nanos + elapsed seconds nanos ∧ 0 ≤ n < NANOS_PER_SECOND) P.
Proof.
  unfold add_elapsed, elapsed, to_i128, to_i64, to_u32.
  eapply ranged_bind; [apply ranged_ok_or; intros e He; exact He|]. intros e He.
  apply bind_Some in He as (v & Hv & He). apply bind_Some in He as (v' & Hv' & He).
  apply in_range_Some in Hv as [-> _], Hv' as [-> _], He as [-> _].
  set (value := _ + _ + _). eapply ranged_bind; [apply ranged_ok_or; intros s Hs; exact Hs|]. intros s [-> _]%in_range_Some.
  eapply ranged_bind; [apply ranged_ok_or; intros n Hn; exact Hn|]. intros n [-> _]%in_range_Some. cbn.
  pose proof (Z.div_mod value NANOS_PER_SECOND ltac:(done)). pose proof (Z.mod_pos_bound value NANOS_PER_SECOND ltac:(done)).
  unfold value in *. lia.
Qed.

Lemma stored_spec s n P :
  ranged (datetime_from_stored s n)
    (λ '(x, (t, u)), s = day_number x * 86400 + t ∧ 0 ≤ t < 86400 ∧ u = n) P.
Proof.
  apply ranged_ok_or. intros [x [t u]] Hx. apply from_timestamp_number in Hx as (? & ? & ? & _). done.
Qed.

Lemma add_calendar_spec x t months days :
  ranged (add_calendar (x, t) months days)
    (λ '(y, u), u = t ∧ ∃ z, months_later x months z ∧ day_number y = day_number z + days) (beyond_delta days).
Proof.
  unfold add_calendar. eapply ranged_bind; [apply add_months_spec|]. intros z Hz. cbn [fst snd].
  pose proof (add_signed_spec z days "calendar day overflow") as Hs.
  destruct (checked_add_signed z days) as [sum|e|w]; cbn in *; [|done|done].
  destruct sum as [y|]; cbn in *; [|done]. eauto.
Qed.

Lemma zoned_local_spec s n tz P : ranged (zoned_local s n tz) (λ r, zoned_local s n tz = Ok r) P.
Proof.
  unfold zoned_local. destruct (from_timestamp s n); cbn; [|done].
  destruct (parse_tz tz); cbn; [done|]. by destruct (parse_offset tz).
Qed.

Lemma local_to_instant_spec local tz P : ranged (local_to_instant local tz) (λ r, local_to_instant local tz = Ok r) P.
Proof.
  unfold local_to_instant. destruct (parse_tz tz) as [z|]; [by destruct (tz_from_local z local)|].
  destruct (parse_offset tz) as [o|]; [by destruct (offset_from_local o local)|done].
Qed.

(** ** Adding a duration *)

(** What adding a duration means for each temporal type: months first, on the
    calendar and to the end of a shorter month, then days, then the exact
    elapsed time; dates take whole days of it, clocks go round. *)
Inductive advances (months days seconds nanos : Z) : ScalarValue → ScalarValue → Prop :=
| advances_date x y z :
    months_later x months y → day_number z = day_number y + (days + Z.quot seconds 86400) →
    advances months days seconds nanos (ScalarDate (day_number x)) (ScalarDate (day_number z))
| advances_local_time v :
    advances months days seconds nanos (ScalarLocalTime v)
      (ScalarLocalTime ((v + elapsed seconds nanos) mod NANOS_PER_DAY))
| advances_zoned_time v o :
    advances months days seconds nanos (ScalarZonedTime v o)
      (ScalarZonedTime ((v + elapsed seconds nanos) mod NANOS_PER_DAY) o)
| advances_local_datetime s n x t y z s' n' :
    from_timestamp s n = Some (x, (t, n)) → months_later x months y → day_number z = day_number y + days →
    elapsed s' n' = elapsed (day_number z * 86400 + t) n + elapsed seconds nanos → 0 ≤ n' < NANOS_PER_SECOND →
    is_Some (from_timestamp s' n') →
    advances months days seconds nanos (ScalarLocalDateTime s n) (ScalarLocalDateTime s' n')
| advances_zoned_elapsed s n tz s' n' l :
    months = 0 → days = 0 → elapsed s' n' = elapsed s n + elapsed seconds nanos → 0 ≤ n' < NANOS_PER_SECOND →
    zoned_local s' n' tz = Ok l →
    advances months days seconds nanos (ScalarZonedDateTime s n tz) (ScalarZonedDateTime s' n' tz)
| advances_zoned_calendar s n tz x t o y z bs bn s' n' l :
    months ≠ 0 ∨ days ≠ 0 → zoned_local s n tz = Ok ((x, t), o) → months_later x months y →
    day_number z = day_number y + days → local_to_instant (z, t) tz = Ok (bs, bn) →
    elapsed s' n' = elapsed bs bn + elapsed seconds nanos → 0 ≤ n' < NANOS_PER_SECOND → zoned_local s' n' tz = Ok l →
    advances months days seconds nanos (ScalarZonedDateTime s n tz) (ScalarZonedDateTime s' n' tz).

(** The day counts that reach [Duration::days]. *)
Definition day_counts (value : ScalarValue) (days seconds : Z) : list Z :=
  match value with
  | ScalarDate d => [d; days + Z.quot seconds 86400]
  | ScalarLocalDateTime _ _ | ScalarZonedDateTime _ _ _ => [days]
  | _ => []
  end.

Definition is_temporal_value (value : ScalarValue) : bool :=
  match value with
  | ScalarDate _ | ScalarLocalTime _ | ScalarZonedTime _ _ | ScalarLocalDateTime _ _ | ScalarZonedDateTime _ _ _ => true
  | _ => false
  end.

(** The widths of the fields a [ScalarValue] keeps. *)
Definition instant_width (value : ScalarValue) : Prop :=
  match value with
  | ScalarZonedDateTime s n _ => i64_min ≤ s ≤ i64_max ∧ 0 ≤ n ≤ u32_max
  | _ => True
  end.

Lemma ranged_weaken {A} (m : Result A) (Q : A → Prop) (P P' : Prop) : ranged m Q P → (P → P') → ranged m Q P'.
Proof. intros. by eapply ranged_mono. Qed.

(** Every result is the base advanced; errors are range errors, and the only
    panics are those of [Duration::days]. *)
Lemma apply_duration_sound value months days seconds nanos :
  is_temporal_value value →
  ranged (apply_duration_to_temporal_scalar value months days seconds nanos)
    (advances months days seconds nanos value) (Exists beyond_delta (day_counts value days seconds)).
Proof.
  destruct value; try done; intros _; cbn [apply_duration_to_temporal_scalar day_counts].
  - eapply ranged_bind; [eapply ranged_weaken; [apply date_from_epoch_day_spec|by left]|]. intros x <-.
    eapply ranged_bind; [apply add_months_spec|]. intros y Hy.
    eapply ranged_bind; [apply ranged_ok_or; intros k Hk; exact Hk|]. intros k [-> _]%in_range_Some.
    rewrite <- bind_assoc.
    eapply ranged_bind; [eapply ranged_weaken; [apply add_signed_spec|by right; left]|]. intros z Hz.
    rewrite epoch_day_from_date_spec. cbn. by econstructor.
  - apply ranged_fmap. eapply ranged_mono; [apply add_clock_spec| |exact id]. cbn. intros r ->. constructor.
  - eapply ranged_bind; [apply add_clock_spec|]. cbn. intros r ->. constructor.
  - eapply ranged_bind; [apply ranged_ok_or; intros st Hst; exact Hst|]. intros [x [t u]] Hx.
    destruct (from_timestamp_number _ _ _ _ _ Hx) as (_ & _ & -> & _).
    eapply ranged_bind; [eapply ranged_weaken; [apply add_calendar_spec|by left]|]. intros [z tu] (-> & y & Hy & Hz).
    eapply ranged_bind; [apply add_elapsed_spec|]. intros [s' n'] [He Hn']. rewrite utc_timestamp_number in He. cbn in He.
    eapply ranged_bind; [apply ranged_ok_or; intros st Hst; exact Hst|]. intros st Hst. cbn.
    eapply advances_local_datetime; try done. by exists st.
  - destruct ((months =? 0) && (days =? 0)) eqn:Ez.
    + apply andb_true_iff in Ez as [->%Z.eqb_eq ->%Z.eqb_eq]. cbn [mbind outcome_bind].
      eapply ranged_bind; [apply add_elapsed_spec|]. intros [s' n'] [He Hn'].
      eapply ranged_bind; [apply zoned_local_spec|]. intros l Hl. cbn. by eapply advances_zoned_elapsed; [..|exact Hl].
    + assert (months ≠ 0 ∨ days ≠ 0) as Hne by (apply andb_false_iff in Ez as [?%Z.eqb_neq|?%Z.eqb_neq]; auto).
      rewrite bind_assoc. eapply ranged_bind; [apply zoned_local_spec|]. intros [[x t] o] Hl.
      rewrite bind_assoc.
      eapply ranged_bind; [eapply ranged_weaken; [apply add_calendar_spec|by left]|]. intros [z tu] (-> & y & Hy & Hz).
      eapply ranged_bind; [apply local_to_instant_spec|]. intros [bs bn] Hb.
      eapply ranged_bind; [apply add_elapsed_spec|]. intros [s' n'] [He Hn'].
      eapply ranged_bind; [apply zoned_local_spec|]. intros l Hl'. cbn. by eapply advances_zoned_calendar; [done|exact Hl|..|exact Hl'].
Qed.

(** And every advance is computed: nothing in range is refused. *)
Lemma day_number_inj x y : day_number x = day_number y → x = y.
Proof.
  intros E. assert (checked_add_days x 0 = Some x ∧ checked_add_days x 0 = Some y) as [??]; [|congruence].
  split; apply add_days_number; lia.
Qed.

Lemma add_signed_complete x z k :
  day_number z = day_number x + k → checked_add_signed x k = Ok (Some z).
Proof.
  intros Hz. pose proof (day_number_bound x). pose proof (day_number_bound z). unfold checked_add_signed.
  destruct (Duration_days_spec k) as [[-> _]|[_ Hb]]; [|unfold beyond_delta, DELTA_DAYS in Hb; lia].
  cbn. f_equal. by apply add_days_number.
Qed.

Lemma date_from_epoch_day_complete x : date_from_epoch_day (day_number x) = Ok x.
Proof.
  unfold date_from_epoch_day. destruct epoch_exists as (e & -> & He).
  by rewrite (add_signed_complete e x) by lia.
Qed.

Lemma months_later_unique x months y z : months_later x months y → months_later x months z → y = z.
Proof.
  intros (Ey & My & Dy) (Ez & Mz & Dz). assert (date_year y = date_year z ∧ date_month y = date_month z) as [Hy Hm] by lia.
  rewrite Hy, Hm, <- Dz in Dy. pose proof (from_ymd_of_fields y) as E. rewrite Hy, Hm, Dy, from_ymd_of_fields in E. congruence.
Qed.

Lemma add_months_complete x months y : months_later x months y → add_months x months = Ok y.
Proof.
  intros Hy. pose proof (add_months_spec x months False) as Hs. destruct Hy as (E & Hm & Hd).
  destruct (date_fields x) as (Hyx & Hmx & Hdx), (date_fields y) as (Hyy & _ & _). pose proof year_range.
  assert (date_year x * 12 + (date_month x - 1) + months = date_month y - 1 + date_year y * 12) as Et by lia.
  enough (∃ z, add_months x months = Ok z) as [z Hz].
  { rewrite Hz in *. f_equal. by apply (months_later_unique x months). }
  clear Hs. unfold add_months, month0, to_i64, to_i32, to_u32.
  rewrite (in_range_ok i64_min i64_max (date_year x * 12)) by rlia. cbn [mbind option_bind].
  rewrite (in_range_ok i64_min i64_max (date_year x * 12 + _)) by rlia. cbn [mbind option_bind]. rewrite Et.
  rewrite in_range_ok by rlia. cbn [ok_or mbind outcome_bind].
  rewrite Z.div_add, Z.mod_add, (Z.div_small (date_month y - 1)), (Z.mod_small (date_month y - 1)) by lia.
  rewrite (in_range_ok (-2147483648) 2147483647) by lia. cbn [ok_or mbind outcome_bind].
  rewrite (in_range_ok 0 u32_max) by rlia. cbn [ok_or mbind outcome_bind].
  pose proof (clamp_day_spec (S (S (Z.to_nat (date_day x)))) (0 + date_year y) (date_month y - 1 + 1) (date_day x)
    ltac:(lia) ltac:(lia)) as Hc. destruct (clamp_day _ _ _ _); [by eexists|naive_solver lia|done].
Qed.

Lemma add_calendar_complete x t months days y z :
  months_later x months y → day_number z = day_number y + days → add_calendar (x, t) months days = Ok (z, t).
Proof.
  intros Hy Hz. unfold add_calendar. cbn [fst snd]. rewrite (add_months_complete x months y Hy). cbn [mbind outcome_bind].
  by rewrite (add_signed_complete y z) by done.
Qed.

Lemma add_clock_complete value seconds nanos :
  i64_min ≤ seconds ≤ i64_max → -2147483648 ≤ nanos ≤ 2147483647 →
  add_clock value seconds nanos = Ok ((value + elapsed seconds nanos) mod NANOS_PER_DAY).
Proof.
  intros Hs Hn. unfold add_clock, elapsed, to_i128, to_i64.
  rewrite (in_range_ok i128_min i128_max (seconds * _)) by (unfold NANOS_PER_SECOND; rlia). cbn [mbind option_bind].
  rewrite in_range_ok by (unfold NANOS_PER_SECOND; rlia). cbn [ok_or mbind outcome_bind].
  pose proof (Z.mod_pos_bound (value + (seconds * NANOS_PER_SECOND + nanos)) NANOS_PER_DAY ltac:(done)).
  rewrite in_range_ok by (unfold NANOS_PER_DAY, NANOS_PER_SECOND in *; rlia). done.
Qed.

Lemma add_elapsed_complete bs bn seconds nanos s' n' :
  i64_min ≤ bs ≤ i64_max → 0 ≤ bn ≤ u32_max → i64_min ≤ s' ≤ i64_max → 0 ≤ n' < NANOS_PER_SECOND →
  elapsed s' n' = elapsed bs bn + elapsed seconds nanos → add_elapsed bs bn seconds nanos = Ok (s', n').
Proof.
  intros Hb Hbn Hs Hn E. unfold add_elapsed, to_i128, to_i64, to_u32, elapsed in *.
  rewrite (in_range_ok i128_min i128_max (bs * _)) by (unfold NANOS_PER_SECOND; rlia). cbn [mbind option_bind].
  rewrite (in_range_ok i128_min i128_max (bs * _ + _)) by (unfold NANOS_PER_SECOND; rlia). cbn [mbind option_bind].
  rewrite <- E, in_range_ok by (unfold NANOS_PER_SECOND in *; rlia). cbn [ok_or mbind outcome_bind].
  rewrite Z.div_add_l, Z.div_small, Z.add_0_r by done. rewrite (in_range_ok i64_min i64_max s') by done. cbn [ok_or mbind outcome_bind].
  rewrite Z.add_comm, Z.mod_add, Z.mod_small by done. rewrite in_range_ok by (unfold NANOS_PER_SECOND in *; rlia). done.
Qed.

Lemma stored_width s n x : from_timestamp s n = Some x → i64_min ≤ s ≤ i64_max ∧ 0 ≤ n ≤ u32_max.
Proof.
  destruct x as [x [t u]]. intros (-> & ? & -> & ?)%from_timestamp_number. pose proof (day_number_bound x).
  unfold NANOS_PER_SECOND in *. split; rlia.
Qed.

Lemma zoned_width s n tz l : zoned_local s n tz = Ok l → i64_min ≤ s ≤ i64_max ∧ 0 ≤ n ≤ u32_max.
Proof. unfold zoned_local. destruct (from_timestamp s n) eqn:E; [|done]. intros _. by eapply stored_width. Qed.

Lemma instant_width_of local tz s n : local_to_instant local tz = Ok (s, n) → i64_min ≤ s ≤ i64_max ∧ 0 ≤ n ≤ u32_max.
Proof.
  unfold local_to_instant. destruct (parse_tz tz) as [zone|].
  - destruct (tz_from_local zone local) as [[]|] eqn:E; intros; simplify_eq/=. by eapply tz_instant_width.
  - destruct (parse_offset tz) as [o|]; [|done].
    destruct (offset_from_local o local) as [[]|] eqn:E; intros; simplify_eq/=. by eapply offset_instant_width.
Qed.

Lemma apply_duration_complete value months days seconds nanos r :
  i64_min ≤ seconds ≤ i64_max → -2147483648 ≤ nanos ≤ 2147483647 → instant_width value →
  advances months days seconds nanos value r →
  apply_duration_to_temporal_scalar value months days seconds nanos = Ok r.
Proof.
  intros Hs Hn Hw Ha. destruct Ha as [x y z Hy Hz|v|v o|s n x t y z s' n' Hx Hy Hz He Hn' [st Hst]
    |s n tz s' n' l -> -> He Hn' Hl|s n tz x t o y z bs bn s' n' l Hne Hx Hy Hz Hb He Hn' Hl];
    cbn [apply_duration_to_temporal_scalar].
  - rewrite date_from_epoch_day_complete. cbn [mbind outcome_bind]. rewrite (add_months_complete x months y Hy).
    cbn [mbind outcome_bind]. pose proof (day_number_bound y). pose proof (day_number_bound z). unfold to_i64.
    rewrite in_range_ok by rlia. cbn [ok_or mbind outcome_bind]. rewrite (add_signed_complete y z) by done.
    cbn [ok_or mbind outcome_bind]. by rewrite epoch_day_from_date_spec.
  - by rewrite add_clock_complete.
  - by rewrite add_clock_complete.
  - unfold datetime_from_stored. rewrite Hx. cbn [ok_or mbind outcome_bind].
    rewrite (add_calendar_complete x _ months days y z Hy Hz). cbn [mbind outcome_bind snd]. rewrite utc_timestamp_number.
    pose proof (from_timestamp_number _ _ _ _ _ Hx) as (_ & Ht & _ & _). pose proof (day_number_bound z).
    pose proof (stored_width _ _ _ Hx) as [_ ?]. pose proof (stored_width _ _ _ Hst) as [? _].
    rewrite (add_elapsed_complete _ _ _ _ s' n') by (done || rlia). cbn [mbind outcome_bind]. by rewrite Hst.
  - cbn [Z.eqb andb mbind outcome_bind]. destruct Hw, (zoned_width _ _ _ _ Hl).
    rewrite (add_elapsed_complete _ _ _ _ s' n') by done. cbn [mbind outcome_bind]. by rewrite Hl.
  - assert ((months =? 0) && (days =? 0) = false) as -> by (apply andb_false_iff; rewrite !Z.eqb_neq; done).
    rewrite Hx. cbn [mbind outcome_bind]. rewrite (add_calendar_complete x t months days y z Hy Hz).
    cbn [mbind outcome_bind]. rewrite Hb. cbn [mbind outcome_bind].
    destruct (instant_width_of _ _ _ _ Hb), (zoned_width _ _ _ _ Hl).
    rewrite (add_elapsed_complete _ _ _ _ s' n') by done. cbn [mbind outcome_bind]. by rewrite Hl.
Qed.

(** ** Fields *)

Definition row_type (value : ScalarValue) : option ResidentRowValueType :=
  match value with
  | ScalarBoolean _ => Some RowBoolean
  | ScalarInteger _ => Some RowInteger
  | ScalarFloat _ => Some RowFloat
  | ScalarString _ => Some RowString
  | ScalarDate _ => Some RowDate
  | ScalarLocalTime _ => Some RowLocalTime
  | ScalarZonedTime _ _ => Some RowZonedTime
  | ScalarLocalDateTime _ _ => Some RowLocalDateTime
  | ScalarZonedDateTime _ _ _ => Some RowZonedDateTime
  | _ => None
  end.

Lemma first_of_month x m :
  1 ≤ m ≤ 12 → ∃ y, from_ymd_opt (date_year x) m 1 = Some y ∧ date_year y = date_year x ∧ date_month y = m ∧ date_day y = 1.
Proof.
  intros Hm. destruct (date_fields x) as (Hy & _ & _). pose proof (days_in_month_bounds (date_year x) m).
  destruct (proj2 (from_ymd_some (date_year x) m 1)) as [y E]; [lia|]. exists y. split; [done|]. by apply from_ymd_fields.
Qed.

Lemma ordinal_difference x y : date_year x = date_year y → date_ordinal y - date_ordinal x = day_number y - day_number x.
Proof.
  intros E. destruct (first_of_month x 1) as (j & Hj & _); [lia|].
  rewrite (ordinal_number x j Hj). rewrite E in Hj. rewrite (ordinal_number y j Hj). lia.
Qed.

(** The first day of the quarter of a date. *)
Definition quarter_start (x f : NaiveDate) : Prop :=
  date_year f = date_year x ∧ date_month f = (date_month x - 1) / 3 * 3 + 1 ∧ date_day f = 1.

Lemma quarter_day x :
  ∃ f, quarter_start x f ∧ day_number f ≤ day_number x
       ∧ date_accessor x ADayOfQuarter = Ok (ScalarInteger (day_number x - day_number f + 1)).
Proof.
  destruct (date_fields x) as (_ & Hm & Hd). unfold date_accessor, month0.
  pose proof (Z.div_mod (date_month x - 1) 3 ltac:(lia)). pose proof (Z.mod_pos_bound (date_month x - 1) 3 ltac:(lia)).
  destruct (first_of_month x ((date_month x - 1) / 3 * 3 + 1)) as (f & -> & Hy & Hmf & Hdf); [lia|].
  exists f. split; [done|]. cbn [ok_or mbind outcome_bind].
  assert (day_number f ≤ day_number x) as Hle by (apply later_day; [done|lia]).
  pose proof (ordinal_difference f x Hy). pose proof (day_number_bound f). pose proof (day_number_bound x).
  split; [done|]. unfold checked_sub, checked_add.
  rewrite (proj2 (Z.leb_le _ _)) by lia. cbn [mbind outcome_bind].
  rewrite (proj2 (Z.leb_le _ _)) by rlia. cbn. do 2 f_equal. lia.
Qed.

Definition is_date_field (a : ResidentTemporalAccessor) : bool := supports a RowDate.
Definition is_time_field (a : ResidentTemporalAccessor) : bool := supports a RowLocalTime.

Lemma date_accessor_spec x a :
  if is_date_field a then ∃ z, date_accessor x a = Ok (ScalarInteger z)
  else date_accessor x a = Err (unsupported_accessor a).
Proof. destruct a; cbn -[date_accessor]; try (by eexists); try done. destruct (quarter_day x) as (? & ? & ? & ?). eauto. Qed.

Lemma time_accessor_spec n a P :
  if is_time_field a then ranged (time_accessor n a) (λ r, ∃ z, r = ScalarInteger z) P
  else ∃ e, time_accessor n a = Err e.
Proof. unfold time_accessor. destruct (negb _); destruct a; cbn; eauto. Qed.

Lemma datetime_accessor_spec v a P :
  if is_date_field a || is_time_field a then ranged (datetime_accessor v a) (λ r, ∃ z, r = ScalarInteger z) P
  else ∃ e, datetime_accessor v a = Err e.
Proof.
  unfold datetime_accessor. pose proof (date_accessor_spec (fst v) a) as Hd.
  destruct (is_date_field a); cbn.
  - destruct Hd as [z ->]. cbn. eauto.
  - rewrite Hd. apply time_accessor_spec.
Qed.

Lemma supported_field value t a :
  row_type value = Some t → is_temporal t → supports a t →
  ranged (evaluate_temporal_accessor value a) (λ r, row_type r = Some (output_type a))
    (Exists beyond_delta (day_counts value 0 0)).
Proof.
  intros Ht Htemp.
  intros Ha. destruct value; simplify_eq/=; try done.
  - eapply ranged_bind; [eapply ranged_weaken; [apply date_from_epoch_day_spec|by left]|]. intros x _.
    pose proof (date_accessor_spec x a) as Hd. unfold is_date_field in Hd. destruct (supports a RowDate) eqn:E; [|done].
    destruct Hd as [z ->]. by destruct a.
  - pose proof (time_accessor_spec nanos a (Exists beyond_delta [])) as Hd. unfold is_time_field in Hd.
    destruct (supports a RowLocalTime) eqn:E; [|done]. eapply ranged_mono; [exact Hd| |done].
    intros r [z ->]. by destruct a.
  - pose proof (time_accessor_spec nanos a (Exists beyond_delta [])) as Hd.
    destruct a; try done; cbn in Hd; try (eapply ranged_mono; [exact Hd| |done]; by intros r [z ->]);
      apply ranged_fmap, ranged_ok_or; done.
  - eapply ranged_bind; [apply stored_spec|]. intros v _.
    pose proof (datetime_accessor_spec v a (Exists beyond_delta [0])) as Hd.
    destruct a; try done; cbn in Hd; (eapply ranged_mono; [exact Hd| |done]); by intros r [z ->].
  - assert (∀ b, is_date_field b || is_time_field b → output_type b = RowInteger →
      ranged ('(local, _) ← zoned_local seconds nanos timezone; datetime_accessor local b)
        (λ r, row_type r = Some (output_type b)) (Exists beyond_delta [0])) as Hz.
    { intros b Hb Ho. eapply ranged_bind; [apply zoned_local_spec|]. intros [v o] _.
      pose proof (datetime_accessor_spec v b (Exists beyond_delta [0])) as Hd. destruct (is_date_field b || _); [|done].
      eapply ranged_mono; [exact Hd| |done]. intros r [z ->]. by rewrite Ho. }
    destruct a; try done; try (by apply (Hz _)); try (apply ranged_fmap, ranged_ok_or; done);
      (eapply ranged_bind; [apply zoned_local_spec|]; intros [v o] _); [|done|done].
    by apply ranged_fmap, ranged_ok_or.
Qed.

Lemma unsupported_field value t a r :
  row_type value = Some t → is_temporal t → ¬ supports a t → evaluate_temporal_accessor value a ≠ Ok r.
Proof.
  intros Ht Htemp.
  intros Ha. destruct value; simplify_eq/=; try done.
  - destruct (date_from_epoch_day days) as [x|e|w]; try done. cbn. pose proof (date_accessor_spec x a) as Hd.
    unfold is_date_field in Hd. destruct (supports a RowDate); [done|]. by rewrite Hd.
  - pose proof (time_accessor_spec nanos a True) as Hd. unfold is_time_field in Hd.
    destruct (supports a RowLocalTime); [done|]. by destruct Hd as [e ->].
  - pose proof (time_accessor_spec nanos a True) as Hd. destruct a; try (by destruct Ha); by destruct Hd as [e ->].
  - destruct (datetime_from_stored seconds nanos) as [v|e|w]; try done. cbn.
    pose proof (datetime_accessor_spec v a True) as Hd. destruct a; try (by destruct Ha); by destruct Hd as [e ->].
  - destruct a; try (by destruct Ha); destruct (zoned_local seconds nanos timezone) as [[v o]|e|w]; try done; cbn [mbind outcome_bind];
      match goal with |- datetime_accessor v ?a ≠ _ => by destruct (datetime_accessor_spec v a True) as [e ->] end.
Qed.

(** ** Fields of times and durations recombine *)

(** The value of an integer field. *)
Definition field (value : ScalarValue) (a : ResidentTemporalAccessor) (z : Z) : Prop :=
  evaluate_temporal_accessor value a = Ok (ScalarInteger z).

Lemma rem_parts z k : 0 < k → z = Z.quot z k * k + Z.rem z k ∧ Z.abs (Z.rem z k) < k.
Proof.
  intros Hk. pose proof (Z.quot_rem' z k). pose proof (Z.rem_bound_abs z k ltac:(lia)). lia.
Qed.

(** A date is the one its year, month and day name; its quarter holds its month,
    and its day of the quarter counts from the quarter's first. *)
Definition date_parts (x : NaiveDate) : Prop :=
  let v := ScalarDate (day_number x) in
  ∃ y m d q k, field v AYear y ∧ field v AMonth m ∧ field v ADay d ∧ field v AQuarter q ∧ field v ADayOfQuarter k
    ∧ from_ymd_opt y m d = Some x ∧ 1 ≤ q ≤ 4 ∧ 3 * q - 2 ≤ m ≤ 3 * q
    ∧ ∃ f, from_ymd_opt y (3 * q - 2) 1 = Some f ∧ 1 ≤ k ∧ day_number x = day_number f + (k - 1).

(** A time of day is the sum of its fields, each in its range. *)
Definition time_parts (n : Z) : Prop :=
  let v := ScalarLocalTime n in
  ∃ h m s ms us ns, field v AHour h ∧ field v AMinute m ∧ field v ASecond s ∧ field v AMillisecond ms
    ∧ field v AMicrosecond us ∧ field v ANanosecond ns
    ∧ n = ((h * 60 + m) * 60 + s) * NANOS_PER_SECOND + ns
    ∧ 0 ≤ h < 24 ∧ 0 ≤ m < 60 ∧ 0 ≤ s < 60 ∧ 0 ≤ ns < NANOS_PER_SECOND ∧ us = ns / 1000 ∧ ms = us / 1000.

(** A duration is the sum of its fields, each smaller than the next unit. *)
Definition duration_parts (months days seconds nanos : Z) : Prop :=
  let v := ScalarDuration months days seconds nanos in
  ∃ ys qs ws h mi qy mq my dw mh sm, field v AYears ys ∧ field v AQuarters qs ∧ field v AMonths months
    ∧ field v AWeeks ws ∧ field v ADays days ∧ field v AHours h ∧ field v AMinutes mi ∧ field v ASeconds seconds
    ∧ field v AQuartersOfYear qy ∧ field v AMonthsOfQuarter mq ∧ field v AMonthsOfYear my ∧ field v ADaysOfWeek dw
    ∧ field v AMinutesOfHour mh ∧ field v ASecondsOfMinute sm ∧ field v ANanosecondsOfSecond nanos
    ∧ months = ys * 12 + my ∧ months = qs * 3 + mq ∧ qs = ys * 4 + qy ∧ days = ws * 7 + dw
    ∧ seconds = (h * 60 + mh) * 60 + sm ∧ mi = h * 60 + mh
    ∧ Z.abs my < 12 ∧ Z.abs mq < 3 ∧ Z.abs qy < 4 ∧ Z.abs dw < 7 ∧ Z.abs mh < 60 ∧ Z.abs sm < 60.

Lemma date_parts_of x : date_parts x.
Proof.
  destruct (date_fields x) as (_ & Hm & _). destruct (quarter_day x) as (f & (Hfy & Hfm & Hfd) & Hle & Hq).
  pose proof (Z.div_mod (date_month x - 1) 3 ltac:(lia)). pose proof (Z.mod_pos_bound (date_month x - 1) 3 ltac:(lia)).
  unfold date_parts, field. cbn [evaluate_temporal_accessor]. rewrite date_from_epoch_day_complete. cbn [mbind outcome_bind].
  do 5 eexists. split_and!; [reflexivity..|exact Hq|apply from_ymd_of_fields| | | | |]; unfold month0; try lia.
  exists f. split_and!; [|lia|lia]. rewrite <- Hfy, <- (from_ymd_of_fields f), Hfm, Hfd. do 2 f_equal; lia.
Qed.

Lemma time_parts_of n : 0 ≤ n < NANOS_PER_DAY → time_parts n.
Proof.
  intros Hn. unfold NANOS_PER_DAY, NANOS_PER_SECOND in Hn.
  assert ((0 <=? n) && (n <? 86400000000000) = true) as E by (apply andb_true_iff; rewrite Z.leb_le, Z.ltb_lt; lia).
  do 6 eexists. split_and!; try (unfold field, evaluate_temporal_accessor, time_accessor; rewrite E; reflexivity);
    unfold NANOS_PER_SECOND; Z.to_euclidean_division_equations; lia.
Qed.

Lemma duration_parts_of months days seconds nanos : duration_parts months days seconds nanos.
Proof.
  pose proof (rem_parts months 12 ltac:(lia)). pose proof (rem_parts months 3 ltac:(lia)).
  pose proof (rem_parts (Z.quot months 3) 4 ltac:(lia)). pose proof (rem_parts days 7 ltac:(lia)).
  pose proof (rem_parts seconds 60 ltac:(lia)). pose proof (rem_parts (Z.quot seconds 60) 60 ltac:(lia)).
  pose proof (Z.quot_quot months 3 4 ltac:(lia) ltac:(lia)). pose proof (Z.quot_quot seconds 60 60 ltac:(lia) ltac:(lia)).
  do 11 eexists. split_and!; try reflexivity; change (3 * 4) with 12 in *; change (60 * 60) with 3600 in *; lia.
Qed.

(** a field of a temporal value is computed exactly when its row type
    supports the field, and has the field's output type; the errors are range
    errors, and the only panic is that of [Duration::days] on the days of a
    date.  A field the type does not support is never answered, and names of
    fields are read back.  The fields determine the value: a date in range is
    the one its year, month and day name, and its quarter and day of quarter
    agree with them; a time of day is the sum of its hour, minute, second and
    nanosecond, each in its range; a duration is the sum of its parts. *)
Theorem temporal_accessors value t a x n months days seconds nanos :
  row_type value = Some t → is_temporal t → 0 ≤ n < NANOS_PER_DAY →
  (supports a t →
   ranged (evaluate_temporal_accessor value a) (λ r, row_type r = Some (output_type a))
     (Exists beyond_delta (day_counts value 0 0)))
  ∧ (¬ supports a t → ∀ r, evaluate_temporal_accessor value a ≠ Ok r)
  ∧ from_property_name (property_name a) = Some a
  ∧ date_parts x ∧ time_parts n ∧ duration_parts months days seconds nanos.
Proof.
  intros Ht Htemp Hn. split_and!; [by apply supported_field| |by destruct a|..];
    [|apply date_parts_of|by apply time_parts_of|apply duration_parts_of].
  intros Ha r. by apply (unsupported_field _ t).
Qed.

Lemma date_addition_panics x days seconds nanos :
  let k := days + Z.quot seconds 86400 in
  i64_min ≤ k ≤ i64_max → beyond_delta k →
  apply_duration_to_temporal_scalar (ScalarDate (day_number x)) 0 days seconds nanos = Abort Panicked.
Proof.
  intros k Hk Hb. cbn [apply_duration_to_temporal_scalar]. rewrite date_from_epoch_day_complete. cbn [mbind outcome_bind].
  rewrite add_no_months. cbn [mbind outcome_bind]. unfold to_i64. rewrite in_range_ok by done. cbn [ok_or mbind outcome_bind].
  unfold checked_add_signed. fold k. by destruct (Duration_days_spec k) as [[_ ?]|[-> _]].
Qed.

(** C32: adding a duration to a temporal value answers exactly the value it
    advances to, whenever that value exists: months on the calendar, to the end
    of a shorter month, then days, then the exact elapsed time.  Otherwise the
    error is a range error for temporal values and a type error for others, and
    the only panic is that of [Duration::days] on more days than it holds,
    which adding such a count to a date always reaches. *)
Theorem duration_addition value months days seconds nanos :
  i64_min ≤ seconds ≤ i64_max → -2147483648 ≤ nanos ≤ 2147483647 → instant_width value →
  let result := apply_duration_to_temporal_scalar value months days seconds nanos in
  let k := days + Z.quot seconds 86400 in
  (∀ r, result = Ok r ↔ advances months days seconds nanos value r)
  ∧ match result with
    | Ok _ => True
    | Err e => code e = if is_temporal_value value then TemporalRange else QueryType
    | Abort w => w = Panicked ∧ Exists beyond_delta (day_counts value days seconds)
    end
  ∧ (∀ x, value = ScalarDate (day_number x) → months = 0 → i64_min ≤ k ≤ i64_max → beyond_delta k →
     result = Abort Panicked).
Proof.
  intros Hs Hn Hw result k. pose proof (apply_duration_sound value months days seconds nanos) as Hr.
  fold result in Hr. destruct (is_temporal_value value) eqn:E.
  - specialize (Hr I). split_and!.
    + intros r. split; [by intros Er; rewrite Er in Hr|]. by apply apply_duration_complete.
    + destruct result; cbn in Hr; done.
    + intros x -> -> Hk Hb. by apply date_addition_panics.
  - destruct value; try done; (split_and!; [intros r; split; [done|intros Ha; inversion Ha]|done|done]).
Qed.
End calendar.

(** ** Comparison *)

Section comparison.
Context `{OrderedFloatOrd} `{Allocator}.

(** The predicate an operator stands for. *)
Definition truth_of (operation : CompareOp) (left right : ResultValue) : Result Truth :=
  match operation with
  | CmpEq => equal left right
  | CmpNotEq => not_ <$> equal left right
  | CmpLess => compare_predicate left right OpLess
  | CmpLessOrEqual => compare_predicate left right OpLessOrEqual
  | CmpGreater => compare_predicate left right OpGreater
  | CmpGreaterOrEqual => compare_predicate left right OpGreaterOrEqual
  end.

(** The time of day of a zoned time and its offset are those of a day. *)
Definition zoned_time_in_day (value : ScalarValue) : Prop :=
  match value with
  | ScalarZonedTime nanos offset => 0 ≤ nanos < NANOS_PER_DAY ∧ -86400 < offset < 86400
  | _ => True
  end.

Lemma normalized_exact nanos offset :
  0 ≤ nanos < NANOS_PER_DAY → -86400 < offset < 86400 →
  normalized_zoned_time nanos offset = nanos - offset * NANOS_PER_SECOND.
Proof.
  unfold NANOS_PER_DAY, NANOS_PER_SECOND. intros. unfold normalized_zoned_time, i64_saturating_sub, i64_saturating_mul.
  unfold clamp; rlia.
Qed.

(** The key compares as the predicates do. *)
Lemma temporal_key_agrees left right :
  zoned_time_in_day left → zoned_time_in_day right →
  is_Some (temporal_family left) → temporal_family left = temporal_family right →
  (match left with ScalarDuration _ _ _ _ => false | _ => true end) →
  ∃ l r, temporal_key left = Ok l ∧ temporal_key right = Ok r
    ∧ Value.compare_same_scalar left right = Ok (Some (temporal_key_cmp l r)).
Proof.
  intros Hl Hr [f Hf] E Hd. destruct left, right; try done; do 2 eexists; (split_and!; [reflexivity..|]);
    cbn [Value.compare_same_scalar temporal_key_cmp]; rewrite ?Z.compare_refl; cbn [then_cmp].
  - by destruct (_ ?= _).
  - by destruct (_ ?= _).
  - cbn in Hl, Hr. rewrite !normalized_exact by tauto. by repeat destruct (_ ?= _).
  - by repeat destruct (_ ?= _).
  - done.
Qed.

Definition ordering_operator (operation : CompareOp) : option BinaryOperator :=
  match operation with
  | CmpEq | CmpNotEq => None
  | CmpLess => Some OpLess
  | CmpLessOrEqual => Some OpLessOrEqual
  | CmpGreater => Some OpGreater
  | CmpGreaterOrEqual => Some OpGreaterOrEqual
  end.

Lemma partial_compare_temporal left right :
  is_Some (temporal_family left) → temporal_family left = temporal_family right →
  partial_compare (ResScalar left) (ResScalar right) =
  match Value.compare_same_scalar left right with
  | Ok (Some ordering) => Ok (Ordered ordering)
  | Ok None | Err _ => Ok UnknownOrder
  | Abort w => Abort w
  end.
Proof. intros [f Hf] E. destruct left, right; done. Qed.

Lemma compare_temporal_order left right operation o l r :
  ordering_operator operation = Some o →
  is_Some (temporal_family left) → temporal_family left = temporal_family right →
  (match left with ScalarDuration _ _ _ _ => false | _ => true end) →
  temporal_key left = Ok l → temporal_key right = Ok r →
  compare_temporal_scalars left right operation =
  Ok (ScalarBoolean (match o, temporal_key_cmp l r with
      | OpLess, Lt | OpLessOrEqual, (Lt | Eq) | OpGreater, Gt | OpGreaterOrEqual, (Gt | Eq) => true
      | _, _ => false end)).
Proof.
  intros Eo [f Hf] E Hd El Er. unfold compare_temporal_scalars, ensure_temporal.
  rewrite !bool_decide_eq_false_2 by (intros ->; cbn in *; congruence). cbn [orb]. rewrite <- !E, Hf, bool_decide_eq_true_2 by done.
  cbn [ok_or fmap option_fmap option_map mbind outcome_bind negb orb].
  assert ((match left with ScalarDuration _ _ _ _ => true | _ => false end) = false) as -> by (by destruct left).
  rewrite El, Er. cbn [mbind outcome_bind].
  destruct operation; try discriminate; injection Eo as <-; by destruct (temporal_key_cmp l r).
Qed.

Lemma same_family_agrees left right operation :
  zoned_time_in_day left → zoned_time_in_day right →
  is_Some (temporal_family left) → temporal_family left = temporal_family right →
  ResScalar <$> compare_temporal_scalars left right operation
  = into_value <$> truth_of operation (ResScalar left) (ResScalar right).
Proof.
  intros Hl Hr Fl Ef. destruct (ordering_operator operation) as [o|] eqn:Eo.
  - assert (truth_of operation (ResScalar left) (ResScalar right) = compare_predicate (ResScalar left) (ResScalar right) o)
      as -> by (by destruct operation; simplify_eq/=).
    unfold compare_predicate. rewrite partial_compare_temporal by done.
    destruct (match left with ScalarDuration _ _ _ _ => false | _ => true end) eqn:Ed.
    + destruct (temporal_key_agrees left right) as (l & r & El & Er & ->); [done..|by rewrite Ed|].
      rewrite (compare_temporal_order _ _ _ o l r) by (done || by rewrite Ed). cbn.
      destruct operation; simplify_eq/=; by destruct (temporal_key_cmp l r).
    + destruct Fl as [f Hf]. destruct left, right; try done; by destruct operation.
  - assert (equal (ResScalar left) (ResScalar right) = Ok (bool_truth (bool_decide (left = right)))) as Eq.
    { destruct Fl as [f Hf]. destruct left, right; done. }
    destruct Fl as [f Hf]. unfold compare_temporal_scalars, ensure_temporal.
    rewrite (bool_decide_eq_false_2 (left = _)), (bool_decide_eq_false_2 (right = _)) by (intros ->; cbn in *; congruence).
    rewrite <- !Ef, Hf, (bool_decide_eq_true_2 (Some f = _)) by done.
    cbn [ok_or fmap option_fmap option_map mbind outcome_bind orb andb]. destruct operation; try done; cbn [truth_of]; rewrite Eq;
      by destruct (bool_decide (left = right)).
Qed.

(** Comparing two temporal values row by row answers what the predicates of
    the language answer: equality, its negation, the orders, and null where
    they are unknown, for null operands as well. *)
Theorem temporal_comparison_agrees left right operation :
  zoned_time_in_day left → zoned_time_in_day right →
  left = ScalarNull ∨ is_Some (temporal_family left) → right = ScalarNull ∨ is_Some (temporal_family right) →
  ResScalar <$> compare_temporal_scalars left right operation
  = into_value <$> truth_of operation (ResScalar left) (ResScalar right).
Proof.
  intros Hl Hr [->|Fl] Fr; [destruct Fr as [->|[f Hf]]; [by destruct operation|by destruct right, operation]|].
  destruct Fr as [->|Fr]; [destruct Fl as [f Hf]; by destruct left, operation|].
  destruct (bool_decide (temporal_family left = temporal_family right)) eqn:Ef.
  - apply bool_decide_eq_true in Ef. by apply same_family_agrees.
  - apply bool_decide_eq_false in Ef. destruct Fl as [f Hf], Fr as [g Hg].
    destruct left, right; try done; by destruct operation.
Qed.
End comparison.

(** ** The text of durations *)

(** A reader of ISO 8601 durations, one character at a time: the designator [T]
    seen, the number being read (sign, whole part, whether the point was seen,
    the weight of the next decimal and the decimals in nanoseconds), and the
    months, days and nanoseconds read so far. *)
Record Reading := MkReading {
  in_time : bool; minus : bool; whole : Z; point : bool; weight : Z; decimals : Z;
  got_months : Z; got_days : Z; got_nanos : Z }.

Definition signed (r : Reading) (z : Z) : Z := if minus r then - z else z.

(** The unit ends the number. *)
Definition add_unit (r : Reading) (months days nanos : Z) : Reading :=
  MkReading (in_time r) false 0 false 0 0 (got_months r + months) (got_days r + days) (got_nanos r + nanos).

Definition read_char (r : Reading) (c : Z) : Reading :=
  let n := signed r (whole r) in
  if c =? ch "-" then MkReading (in_time r) true (whole r) (point r) (weight r) (decimals r) (got_months r) (got_days r) (got_nanos r)
  else if c =? ch "." then
    MkReading (in_time r) (minus r) (whole r) true 100000000 0 (got_months r) (got_days r) (got_nanos r)
  else if c =? ch "T" then
    MkReading true (minus r) (whole r) (point r) (weight r) (decimals r) (got_months r) (got_days r) (got_nanos r)
  else if c =? ch "Y" then add_unit r (12 * n) 0 0
  else if c =? ch "M" then if in_time r then add_unit r 0 0 (60 * NANOS_PER_SECOND * n) else add_unit r n 0 0
  else if c =? ch "D" then add_unit r 0 n 0
  else if c =? ch "H" then add_unit r 0 0 (3600 * NANOS_PER_SECOND * n)
  else if c =? ch "S" then add_unit r 0 0 (signed r (whole r * NANOS_PER_SECOND + decimals r))
  else if (48 <=? c) && (c <=? 57) then
    if point r then
      MkReading (in_time r) (minus r) (whole r) true (weight r / 10) (decimals r + weight r * (c - 48))
        (got_months r) (got_days r) (got_nanos r)
    else
      MkReading (in_time r) (minus r) (whole r * 10 + (c - 48)) false (weight r) (decimals r)
        (got_months r) (got_days r) (got_nanos r)
  else r.

Definition read_text (r : Reading) (t : bytes) : Reading := fold_left read_char t r.

(** Between components: no number has been read. *)
Definition between (time : bool) (months days nanos : Z) : Reading := MkReading time false 0 false 0 0 months days nanos.

(** The months, days and nanoseconds of a text. *)
Definition read_duration (t : bytes) : Z * Z * Z :=
  let r := read_text (between false 0 0 0) t in (got_months r, got_days r, got_nanos r).

Lemma read_text_app r t u : read_text r (t ++ u) = read_text (read_text r t) u.
Proof. apply fold_left_app. Qed.

Lemma read_text_cons r c t : read_text r (c :: t) = read_text (read_char r c) t.
Proof. done. Qed.

Definition is_digit (c : Z) : Prop := 48 ≤ c ≤ 57.

Lemma digits_are_digits fuel n : 0 ≤ n → Forall is_digit (digits_of fuel n).
Proof.
  revert n. induction fuel as [|fuel IH]; intros n Hn; cbn; [constructor|]. unfold is_digit.
  destruct (Z.ltb_spec n 10); [repeat constructor; lia|]. apply Forall_app. split; [apply IH; Z.to_euclidean_division_equations; lia|].
  repeat constructor; Z.to_euclidean_division_equations; lia.
Qed.

(** A digit of the whole part. *)
Lemma read_digit time neg i w d m ds ns c :
  is_digit c →
  read_char (MkReading time neg i false w d m ds ns) c = MkReading time neg (i * 10 + (c - 48)) false w d m ds ns.
Proof.
  intros [??]. unfold read_char. cbn [point in_time minus whole weight decimals got_months got_days got_nanos].
  repeat (rewrite (proj2 (Z.eqb_neq _ _)) by (vm_compute; lia || (unfold ch; cbn; lia))).
  by rewrite !(proj2 (Z.leb_le _ _)) by lia.
Qed.

(** The number decimal digits stand for. *)
Definition decimal (ds : bytes) : Z := fold_left (λ v c, v * 10 + (c - 48)) ds 0.

Lemma decimal_from v ds : fold_left (λ v c, v * 10 + (c - 48)) ds v = v * 10 ^ zlen ds + decimal ds.
Proof.
  unfold decimal. revert v. induction ds as [|c ds IH]; intros v; cbn [fold_left]; [change (10 ^ zlen []) with 1; lia|].
  rewrite (IH (v * 10 + (c - 48))), (IH (0 * 10 + (c - 48))). unfold zlen. cbn [length].
  rewrite Nat2Z.inj_succ, Z.pow_succ_r by lia.
  lia.
Qed.

Lemma decimal_app ds es : decimal (ds ++ es) = decimal ds * 10 ^ zlen es + decimal es.
Proof. unfold decimal at 1. rewrite fold_left_app. apply decimal_from. Qed.

Lemma decimal_zeros k : decimal (replicate k 48) = 0.
Proof. induction k; [done|]. cbn [replicate]. unfold decimal. cbn [fold_left]. done. Qed.

Lemma decimal_digits fuel n : 0 ≤ n < 10 ^ Z.of_nat fuel → decimal (digits_of fuel n) = n.
Proof.
  revert n. induction fuel as [|fuel IH]; intros n Hn; cbn [digits_of]; [cbn in *; lia|].
  destruct (Z.ltb_spec n 10); [cbn; lia|]. rewrite Nat2Z.inj_succ, Z.pow_succ_r in Hn by lia.
  rewrite decimal_app, IH by (Z.to_euclidean_division_equations; lia). change (10 ^ zlen [_]) with 10.
  unfold decimal. cbn [fold_left]. Z.to_euclidean_division_equations; lia.
Qed.

Lemma digits_length fuel n k : 0 ≤ n < 10 ^ Z.of_nat k → (1 ≤ k)%nat → (length (digits_of fuel n) ≤ k)%nat.
Proof.
  revert n k. induction fuel as [|fuel IH]; intros n k Hn Hk; cbn [digits_of]; [cbn; lia|].
  destruct (Z.ltb_spec n 10); [cbn; lia|]. rewrite length_app. cbn [length]. destruct k as [|[|k]]; [lia|cbn in Hn; lia|].
  rewrite Nat2Z.inj_succ, Z.pow_succ_r in Hn by lia. assert (0 ≤ n / 10 < 10 ^ Z.of_nat (S k)) as Hd by (Z.to_euclidean_division_equations; lia).
  specialize (IH (n / 10) (S k) Hd ltac:(lia)). lia.
Qed.

Lemma read_digits ds time neg i w d m days ns :
  Forall is_digit ds →
  read_text (MkReading time neg i false w d m days ns) ds =
  MkReading time neg (i * 10 ^ zlen ds + decimal ds) false w d m days ns.
Proof.
  intros Hds. revert i. induction Hds as [|c ds Hc Hds IH]; intros i; [cbn [read_text fold_left]; change (10 ^ zlen []) with 1; unfold decimal; cbn [fold_left]; f_equal; lia|].
  rewrite read_text_cons, read_digit, IH by done. f_equal. by rewrite <- !decimal_from.
Qed.

(** Decimals of weights [w], [w / 10], ... *)
Fixpoint fraction (w : Z) (ds : bytes) : Z :=
  match ds with [] => 0 | c :: ds => w * (c - 48) + fraction (w / 10) ds end.

Lemma read_fraction ds time neg i w d m days ns :
  Forall is_digit ds →
  ∃ w', read_text (MkReading time neg i true w d m days ns) ds =
        MkReading time neg i true w' (d + fraction w ds) m days ns.
Proof.
  intros Hds. revert w d. induction Hds as [|c ds Hc Hds IH]; intros w d; [eexists; cbn; f_equal; lia|].
  rewrite read_text_cons. cbn [fraction].
  assert (read_char (MkReading time neg i true w d m days ns) c = MkReading time neg i true (w / 10) (d + w * (c - 48)) m days ns)
    as ->.
  { destruct Hc. unfold read_char. cbn [point in_time minus whole weight decimals got_months got_days got_nanos].
    repeat (rewrite (proj2 (Z.eqb_neq _ _)) by (vm_compute; lia || (unfold ch; cbn; lia))).
    by rewrite !(proj2 (Z.leb_le _ _)) by lia. }
  destruct (IH (w / 10) (d + w * (c - 48))) as [w' ->]. exists w'. f_equal. lia.
Qed.

Lemma fraction_trim w ds : fraction w (trim_end_zeros ds) = fraction w ds.
Proof.
  assert (∀ t, ∃ k, t = replicate k 48 ++ drop_zeros t) as Hd.
  { induction t as [|c t [k IH]]; [by exists 0%nat|]. cbn. destruct (Z.eqb_spec c 48) as [->|]; [|by exists 0%nat].
    exists (S k). cbn. by f_equal. }
  unfold trim_end_zeros. destruct (Hd (rev ds)) as [k E].
  assert (ds = rev (drop_zeros (rev ds)) ++ replicate k 48) as E'.
  { rewrite <- (rev_involutive ds) at 1. rewrite E at 1. rewrite rev_app_distr. f_equal.
    rewrite rev_alt. apply reverse_replicate. }
  rewrite E' at 2. generalize (rev (drop_zeros (rev ds))) as t. clear E E' Hd ds. intros t. revert w.
  induction t as [|c t IH]; intros w; cbn; [|by rewrite IH].
  revert w. induction k as [|k IHk]; intros w; cbn; [done|]. rewrite <- IHk. lia.
Qed.

(** Decimals of as many digits as the weight has are the number. *)
Lemma fraction_decimal ds : fraction (10 ^ (zlen ds - 1)) ds = decimal ds.
Proof.
  induction ds as [|c ds IH]; [done|]. cbn [fraction]. unfold decimal. cbn [fold_left]. rewrite decimal_from, <- IH.
  unfold zlen in *. cbn [length]. rewrite Nat2Z.inj_succ. replace (Z.succ (Z.of_nat (length ds)) - 1) with (Z.of_nat (length ds)) by lia.
  destruct ds as [|c' ds]; [cbn; lia|]. cbn [length] in *. rewrite Nat2Z.inj_succ in *. unfold Z.sub in IH. 
  replace (10 ^ Z.succ (Z.of_nat (length ds)) / 10) with (10 ^ (Z.succ (Z.of_nat (length ds)) - 1)); [lia|].
  rewrite Z.sub_1_r, Z.pred_succ, Z.pow_succ_r, Z.mul_comm, Z.div_mul by lia. done.
Qed.

Lemma read_decimals n time neg i m days ns :
  0 ≤ n < NANOS_PER_SECOND →
  ∃ w, read_text (MkReading time neg i true 100000000 0 m days ns) (trim_end_zeros (display_09 n))
       = MkReading time neg i true w n m days ns.
Proof.
  intros Hn. pose proof (digits_are_digits 40 n ltac:(lia)) as Hd.
  pose proof (digits_length 40 n 9 ltac:(exact Hn) ltac:(lia)) as Hlen. unfold display_09.
  set (ds := replicate (9 - length (digits_of 40 n)) 48 ++ digits_of 40 n).
  assert (length ds = 9%nat) as El by (unfold ds; rewrite length_app, length_replicate; lia).
  assert (Forall is_digit ds) as Fd.
  { apply Forall_app. split; [|done]. apply Forall_replicate. unfold is_digit. lia. }
  destruct (read_fraction (trim_end_zeros ds) time neg i 100000000 0 m days ns) as [w ->].
  - unfold trim_end_zeros. apply Forall_rev. apply (Forall_impl is_digit); [|done].
    apply Forall_rev in Fd. induction Fd as [|c t Hc Ht IH]; cbn; [constructor|]. case_match; [done|by constructor].
  - exists w. f_equal. rewrite fraction_trim. pose proof (fraction_decimal ds) as Hf. unfold zlen in Hf. rewrite El in Hf.
    change (10 ^ (Z.of_nat 9 - 1)) with 100000000 in Hf. rewrite Hf. unfold ds.
    rewrite decimal_app, decimal_zeros, decimal_digits; [lia|]. unfold NANOS_PER_SECOND in Hn. change (10 ^ Z.of_nat 40) with (10 ^ 40). lia.
Qed.

Lemma read_display n time m days ns :
  Z.abs n < 10 ^ 40 →
  read_text (between time m days ns) (display n) = MkReading time (n <? 0) (Z.abs n) false 0 0 m days ns.
Proof.
  intros Hn. unfold display, between.
  assert (∀ neg, read_text (MkReading time neg 0 false 0 0 m days ns) (digits_of 40 (Z.abs n))
                 = MkReading time neg (Z.abs n) false 0 0 m days ns) as Hd.
  { intros neg. rewrite read_digits by (apply digits_are_digits; lia). rewrite decimal_digits by (split; [lia|exact Hn]).
    f_equal. }
  destruct (n <? 0); [|apply Hd]. change (lit "-" ++ ?t) with (ch "-" :: t). rewrite read_text_cons. apply Hd.
Qed.

Lemma read_S neg q p w d m days ns :
  read_text (MkReading true neg q p w d m days ns) (lit "S")
  = between true m days (ns + (if neg then - (q * NANOS_PER_SECOND + d) else q * NANOS_PER_SECOND + d)).
Proof.
  change (read_text ?r (lit "S")) with (add_unit r 0 0 (signed r (whole r * NANOS_PER_SECOND + decimals r))).
  unfold add_unit, between, signed. cbn [minus whole decimals in_time got_months got_days got_nanos]. f_equal; lia.
Qed.

(** A component adds its number of units. *)
Lemma read_component n unit time m days ns km kd kn :
  Z.abs n < 10 ^ 40 →
  (∀ r, point r = false → weight r = 0 → decimals r = 0 → in_time r = time →
        read_text r (lit unit) = add_unit r (km * signed r (whole r)) (kd * signed r (whole r)) (kn * signed r (whole r))) →
  read_text (between time m days ns) (component n unit) = between time (m + km * n) (days + kd * n) (ns + kn * n).
Proof.
  intros Hn Hu. unfold component. destruct (Z.eqb_spec n 0) as [->|Hne]; [cbn; unfold between; f_equal; lia|].
  rewrite read_text_app, read_display, Hu by done. unfold add_unit, signed, between. cbn.
  destruct (Z.ltb_spec n 0); f_equal; lia.
Qed.

Lemma read_seconds n m days ns :
  Z.abs n < 10 ^ 40 → read_text (between true m days ns) (seconds_component n) = between true m days (ns + n).
Proof.
  intros Hn. unfold seconds_component. destruct (Z.eqb_spec n 0) as [->|Hne]; [cbn; unfold between; f_equal; lia|].
  set (q := Z.quot (Z.abs n) NANOS_PER_SECOND). set (f := Z.rem (Z.abs n) NANOS_PER_SECOND).
  assert (Z.abs n = q * NANOS_PER_SECOND + f ∧ 0 ≤ f < NANOS_PER_SECOND ∧ 0 ≤ q ≤ Z.abs n) as (En & Hf & Hq).
  { unfold q, f, NANOS_PER_SECOND. Z.to_euclidean_division_equations; lia. }
  set (neg := n <? 0).
  assert (read_text (between true m days ns) ((if neg then lit "-" else []) ++ display q)
          = MkReading true neg q false 0 0 m days ns) as Hd.
  { unfold display. rewrite (proj2 (Z.ltb_ge q 0)) by lia. cbn [app]. rewrite Z.abs_eq by lia.
    assert (∀ b, read_text (MkReading true b 0 false 0 0 m days ns) (digits_of 40 q) = MkReading true b q false 0 0 m days ns) as Hb.
    { intros b. rewrite read_digits by (apply digits_are_digits; lia). by rewrite decimal_digits by (change (Z.of_nat 40) with 40; lia). }
    destruct neg; [|apply Hb]. change (lit "-" ++ ?t) with (ch "-" :: t). rewrite read_text_cons. apply Hb. }
  destruct (Z.eqb_spec f 0) as [Ef|Hf0]; rewrite app_assoc, read_text_app, Hd.
  - rewrite read_S. unfold between, neg. destruct (Z.ltb_spec n 0); f_equal; lia.
  - rewrite read_text_app. change (read_text (MkReading true neg q false 0 0 m days ns) (lit "."))
      with (MkReading true neg q true 100000000 0 m days ns). rewrite read_text_app.
    destruct (read_decimals f true neg q m days ns Hf) as [w ->]. rewrite read_S.
    unfold between, neg. destruct (Z.ltb_spec n 0); f_equal; lia.
Qed.

Ltac unit_step :=
  intros [? ? ? ? ? ? ? ? ?] ? ? ? ?; rewrite ?Z.mul_1_l, ?Z.mul_0_l; simplify_eq/=; unfold add_unit, signed; cbn; f_equal; unfold NANOS_PER_SECOND; lia.

Lemma read_date_part months days :
  i64_min ≤ months ≤ i64_max → i64_min ≤ days ≤ i64_max →
  read_text (between false 0 0 0) (component (Z.quot months 12) "Y" ++ component (Z.rem months 12) "M" ++ component days "D")
  = between false months days 0.
Proof.
  intros Hm Hd. rewrite !read_text_app.
  rewrite (read_component _ "Y" _ _ _ _ 12 0 0), (read_component _ "M" _ _ _ _ 1 0 0), (read_component _ "D" _ _ _ _ 0 1 0);
    try unit_step; try (Z.to_euclidean_division_equations; rlia).
  unfold between. f_equal; Z.to_euclidean_division_equations; lia.
Qed.

Lemma read_time_part total m days :
  Z.abs total < 10 ^ 30 →
  let seconds := Z.quot total NANOS_PER_SECOND in
  read_text (between false m days 0)
    (lit "T" ++ component (Z.quot seconds 3600) "H" ++ component (Z.quot (Z.rem seconds 3600) 60) "M" ++
     seconds_component (Z.rem (Z.rem seconds 3600) 60 * NANOS_PER_SECOND + Z.rem total NANOS_PER_SECOND))
  = between true m days total.
Proof.
  intros Ht seconds. rewrite read_text_app.
  change (read_text (between false m days 0) (lit "T")) with (between true m days 0).
  assert (total = seconds * NANOS_PER_SECOND + Z.rem total NANOS_PER_SECOND ∧ Z.abs (Z.rem total NANOS_PER_SECOND) < NANOS_PER_SECOND
    ∧ Z.abs seconds ≤ Z.abs total) as (Et & Hr & Hs).
  { unfold seconds, NANOS_PER_SECOND. Z.to_euclidean_division_equations; lia. }
  revert Et Hr. generalize (Z.rem total NANOS_PER_SECOND) as f. generalize dependent seconds. intros seconds Hs f -> Hf.
  rewrite !read_text_app.
  rewrite (read_component _ "H" _ _ _ _ 0 0 (3600 * NANOS_PER_SECOND)), (read_component _ "M" _ _ _ _ 0 0 (60 * NANOS_PER_SECOND));
    try unit_step; try (unfold NANOS_PER_SECOND in *; Z.to_euclidean_division_equations; lia).
  rewrite read_seconds by (unfold NANOS_PER_SECOND in *; Z.to_euclidean_division_equations; lia).
  unfold between, NANOS_PER_SECOND in *. f_equal; Z.to_euclidean_division_equations; lia.
Qed.

