(* ===== verification/TemporalCalendar.v ===== *)
(** * Temporal values: a calendar

    The proleptic Gregorian calendar over the years [chrono] supports, with the
    single time zone UTC: an instance of the documented behaviour the temporal
    theorems assume, and the theorems at concrete values. *)

From stdpp Require Import prelude strings.
From Stdlib Require Import ZArith Lia Ascii.
From S2P Require Import Prelude Machine Types Document Results Ordering OrderKeyTheorems Value Temporal TemporalTheorems.

Local Open Scope Z_scope.
#[local] Set Warnings "-clear-no-such-hyp".

(** ** Day numbers *)

(** The day number of the first of January. *)
Definition first_of_year (y : Z) : Z :=
  365 * (y - 1970) + ((y - 1) / 4 - 492) - ((y - 1) / 100 - 19) + ((y - 1) / 400 - 4).

(** The days of the year before a month. *)
Definition days_before (y m : Z) : Z :=
  match m with
  | 1 => 0 | 2 => 31 | 3 => 59 | 4 => 90 | 5 => 120 | 6 => 151
  | 7 => 181 | 8 => 212 | 9 => 243 | 10 => 273 | 11 => 304 | _ => 334
  end
  + (if (2 <? m) && leap y then 1 else 0).

Definition civil_number (y m d : Z) : Z := first_of_year y + days_before y m + d - 1.

Lemma month_cases m : 1 ≤ m ≤ 12 → m ∈ ([1; 2; 3; 4; 5; 6; 7; 8; 9; 10; 11; 12] : list Z).
Proof.
  intros Hm. assert (m = 1 ∨ m = 2 ∨ m = 3 ∨ m = 4 ∨ m = 5 ∨ m = 6 ∨ m = 7 ∨ m = 8 ∨ m = 9 ∨ m = 10 ∨ m = 11 ∨ m = 12) by lia.
  set_solver.
Qed.

Ltac by_month H := apply month_cases in H; rewrite ?elem_of_cons, elem_of_nil in H; destruct_or! H; subst; try done.

Lemma year_length y : first_of_year (y + 1) - first_of_year y = if leap y then 366 else 365.
Proof.
  unfold first_of_year, leap. replace (y + 1 - 1) with y by lia.
  destruct (Z.eqb_spec (y mod 4) 0), (Z.eqb_spec (y mod 100) 0), (Z.eqb_spec (y mod 400) 0); cbn;
    Z.to_euclidean_division_equations; lia.
Qed.

Lemma first_of_year_mono y y' : y < y' → first_of_year (y + 1) ≤ first_of_year y'.
Proof. intros. unfold first_of_year. Z.to_euclidean_division_equations; lia. Qed.

Lemma days_before_bounds y m d :
  1 ≤ m ≤ 12 → 1 ≤ d ≤ days_in_month y m → 0 ≤ days_before y m + d - 1 < if leap y then 366 else 365.
Proof. intros Hm. unfold days_before, days_in_month. destruct (leap y); by_month Hm; cbn; lia. Qed.

Lemma days_before_step y m m' : 1 ≤ m ≤ 12 → 1 ≤ m' ≤ 12 → m < m' → days_before y m + days_in_month y m ≤ days_before y m'.
Proof.
  intros Hm Hm'. unfold days_before, days_in_month. destruct (leap y); by_month Hm; by_month Hm'; cbn; lia.
Qed.

Definition valid_date (p : Z * Z * Z) : bool :=
  let '(y, m, d) := p in
  (-262143 <=? y) && (y <=? 262142) && (1 <=? m) && (m <=? 12) && (1 <=? d) && (d <=? days_in_month y m).

Lemma valid_date_iff y m d :
  valid_date (y, m, d) ↔ -262143 ≤ y ≤ 262142 ∧ 1 ≤ m ≤ 12 ∧ 1 ≤ d ≤ days_in_month y m.
Proof. unfold valid_date. rewrite !andb_True, !Is_true_true, !Z.leb_le. lia. Qed.

(** Later dates have larger numbers, so the numbers tell dates apart. *)
Lemma civil_number_lt y m d y' m' d' :
  valid_date (y, m, d) → valid_date (y', m', d') →
  y < y' ∨ y = y' ∧ (m < m' ∨ m = m' ∧ d < d') → civil_number y m d < civil_number y' m' d'.
Proof.
  intros (_ & Hm & Hd)%valid_date_iff (_ & Hm' & Hd')%valid_date_iff Hlt. unfold civil_number.
  pose proof (days_before_bounds y m d Hm Hd). pose proof (days_before_bounds y' m' d' Hm' Hd'). pose proof (year_length y).
  destruct Hlt as [Hy|[-> [Hlt|[-> Hlt]]]].
  - pose proof (first_of_year_mono y y' Hy). lia.
  - pose proof (days_before_step y' m m' Hm Hm' Hlt). lia.
  - lia.
Qed.

Lemma civil_number_inj y m d y' m' d' :
  valid_date (y, m, d) → valid_date (y', m', d') → civil_number y m d = civil_number y' m' d' → (y, m, d) = (y', m', d').
Proof.
  intros Hv Hv' E. destruct (decide ((y, m, d) = (y', m', d'))) as [|Hne]; [done|]. exfalso.
  assert ((y < y' ∨ y = y' ∧ (m < m' ∨ m = m' ∧ d < d')) ∨ (y' < y ∨ y' = y ∧ (m' < m ∨ m' = m ∧ d' < d))) as [Hl|Hl].
  { destruct (decide (y = y')), (decide (m = m')), (decide (d = d')); subst; try done; lia. }
  - pose proof (civil_number_lt _ _ _ _ _ _ Hv Hv' Hl). lia.
  - pose proof (civil_number_lt _ _ _ _ _ _ Hv' Hv Hl). lia.
Qed.

Lemma civil_number_bound y m d : valid_date (y, m, d) → -100000000 < civil_number y m d < 100000000.
Proof.
  intros (Hy & Hm & Hd)%valid_date_iff. pose proof (days_before_bounds y m d Hm Hd) as Hb. unfold civil_number, first_of_year.
  destruct (leap y); Z.to_euclidean_division_equations; lia.
Qed.

(** ** Dates by number *)

(** The dates a number may have: the year is within one of the estimate. *)
Definition candidates (n : Z) : list (Z * Z * Z) :=
  let year := 1970 + n * 400 / 146097 in
  y ← [year - 1; year; year + 1];
  m ← [1; 2; 3; 4; 5; 6; 7; 8; 9; 10; 11; 12];
  [(y, m, n - first_of_year y - days_before y m + 1)].

Definition date_of_number (n : Z) : option (Z * Z * Z) := find valid_date (candidates n).

Lemma estimate y m d n :
  valid_date (y, m, d) → civil_number y m d = n → y ∈ (let year := 1970 + n * 400 / 146097 in [year - 1; year; year + 1]).
Proof.
  intros (Hy & Hm & Hd)%valid_date_iff <-. pose proof (days_before_bounds y m d Hm Hd) as Hb.
  unfold civil_number. set (k := days_before y m + d - 1) in *. replace (_ + _ + _ - 1) with (first_of_year y + k) by lia.
  assert (0 ≤ k < 366) as Hk by (destruct (leap y); lia). clearbody k. clear Hb.
  cbn zeta. set (e := 1970 + _).
  assert (e = y - 1 ∨ e = y ∨ e = y + 1); [|set_solver by lia].
  unfold e, first_of_year. Z.to_euclidean_division_equations; lia.
Qed.

Lemma date_of_number_spec n y m d :
  date_of_number n = Some (y, m, d) ↔ valid_date (y, m, d) ∧ civil_number y m d = n.
Proof.
  assert (∀ y m d, (y, m, d) ∈ candidates n → civil_number y m d = n) as Hc.
  { intros y' m' d' He. unfold candidates in He. unfold civil_number.
    apply list_elem_of_bind in He as (y'' & He & _). apply list_elem_of_bind in He as (m'' & He & _).
    apply list_elem_of_singleton in He. simplify_eq. lia. }
  unfold date_of_number. split.
  - intros [Hi Hv]%find_some. apply list_elem_of_In in Hi. split; [by rewrite Hv|by apply Hc].
  - intros [Hv Hn]. destruct (find valid_date (candidates n)) as [[[y' m'] d']|] eqn:E.
    + apply find_some in E as [Hi Hv']. apply list_elem_of_In, Hc in Hi. f_equal.
      apply civil_number_inj; [by rewrite Hv'|done|congruence].
    + exfalso. apply find_none with (x := (y, m, d)) in E; [by rewrite E in Hv|]. apply list_elem_of_In.
      pose proof (estimate y m d n Hv Hn) as Hy. apply valid_date_iff in Hv as (_ & Hm & _).
      unfold candidates. apply list_elem_of_bind. exists y. split; [|exact Hy].
      apply list_elem_of_bind. exists m. split; [|by apply month_cases].
      apply list_elem_of_singleton. do 2 f_equal. unfold civil_number in Hn. lia.
Qed.

(** ** The instance *)

Definition Date : Type := { p : Z * Z * Z | Is_true (valid_date p) }.

Definition to_date (p : Z * Z * Z) : option Date :=
  match decide (Is_true (valid_date p)) with left H => Some (p ↾ H) | right _ => None end.

Definition number_of (x : Date) : Z := let '(y, m, d) := `x in civil_number y m d.

Definition by_number (n : Z) : option Date := p ← date_of_number n; to_date p.

Lemma to_date_Some p x : to_date p = Some x ↔ `x = p.
Proof.
  unfold to_date. destruct x as [q Hq]. case_decide as Hp; cbn.
  - split; [by intros; simplify_eq|]. intros ->. do 2 f_equal. apply proof_irrel.
  - split; [done|]. by intros ->.
Qed.

Lemma to_date_valid x : to_date (`x) = Some x.
Proof. by apply to_date_Some. Qed.

Lemma by_number_Some n x : by_number n = Some x ↔ number_of x = n.
Proof.
  unfold by_number, number_of. destruct x as [[[y m] d] Hx]; cbn. rewrite bind_Some. split.
  - intros ([[y' m'] d'] & Hp & Hd). apply to_date_Some in Hd. simplify_eq/=. by apply date_of_number_spec in Hp as [_ ?].
  - intros Hn. exists (y, m, d). split; [by apply date_of_number_spec|]. by apply to_date_Some.
Qed.

Definition epoch_date : Date := (1970, 1, 1) ↾ I.

Definition date_at (seconds : Z) : Date := default epoch_date (by_number (seconds / 86400)).

(** A leap second is written in the last second of a minute. *)
Definition gregorian_from_timestamp (seconds nanos : Z) : option (Date * (Z * Z)) :=
  if (0 <=? nanos) && ((nanos <? NANOS_PER_SECOND) || (nanos <? 2 * NANOS_PER_SECOND) && (seconds mod 60 =? 59)) then
    x ← by_number (seconds / 86400); Some (x, (seconds mod 86400, nanos))
  else None.

Definition gregorian_timestamp (v : Date * (Z * Z)) : Z := number_of v.1 * 86400 + v.2.1.

(** The Thursday of the week, which is in the ISO year of the week. *)
Definition weekday (x : Date) : Z := (number_of x + 3) mod 7 + 1.
Definition thursday (x : Date) : Date := default x (by_number (number_of x - weekday x + 4)).
Definition ordinal (x : Date) : Z := number_of x - first_of_year (proj1_sig x).1.1 + 1.

#[global] Instance gregorian : Chrono := {|
  NaiveDate := Date;
  from_ymd_opt y m d := to_date (y, m, d);
  date_year x := (proj1_sig x).1.1;
  date_month x := (proj1_sig x).1.2;
  date_day x := (proj1_sig x).2;
  date_ordinal := ordinal;
  date_iso_week x := (ordinal (thursday x) - 1) / 7 + 1;
  date_iso_year x := (proj1_sig (thursday x)).1.1;
  date_weekday_from_monday := weekday;
  delta_in_bounds n := (- DELTA_DAYS <=? n) && (n <=? DELTA_DAYS);
  checked_add_days x k := by_number (number_of x + k);
  days_since x y := number_of x - number_of y;
  from_timestamp := gregorian_from_timestamp;
  utc_timestamp := gregorian_timestamp;
  Tz := unit;
  parse_tz name := if bool_decide (name = lit "UTC") then Some tt else None;
  FixedOffset := Z;
  parse_offset _ := None;
  tz_local _ seconds nanos := ((date_at seconds, (seconds mod 86400, nanos)), 0);
  offset_local offset seconds nanos := (date_at (seconds + offset), ((seconds + offset) mod 86400, nanos));
  local_minus_utc offset := offset;
  tz_from_local _ local :=
    s ← to_i64 (gregorian_timestamp local); n ← to_u32 local.2.2; Some (s, n);
  offset_from_local offset local :=
    s ← to_i64 (gregorian_timestamp local - offset); n ← to_u32 local.2.2; Some (s, n);
  offset_display offset := if offset =? 0 then Some (lit "+00:00") else None;
  show_date x := display (proj1_sig x).1.1 ++ lit "-" ++ display (proj1_sig x).1.2 ++ lit "-" ++ display (proj1_sig x).2;
  show_datetime v := display (gregorian_timestamp v);
  show_time seconds nanos := Some (display seconds ++ lit "." ++ display_09 nanos);
  rfc3339_utc seconds nanos := display seconds ++ lit "." ++ display_09 nanos;
  rfc3339_tz _ seconds nanos := display seconds ++ lit "." ++ display_09 nanos;
  rfc3339_offset _ seconds nanos := display seconds ++ lit "." ++ display_09 nanos;
|}.

Lemma instant_fits v u s n :
  (s ← to_i64 v; n ← to_u32 u; Some (s, n)) = Some (s, n) → i64_min ≤ s ≤ i64_max ∧ 0 ≤ n ≤ u32_max.
Proof.
  intros (s' & Hs & (n' & Hn & ?)%bind_Some)%bind_Some. simplify_eq.
  apply in_range_Some in Hs as [-> ?], Hn as [-> ?]. done.
Qed.

Lemma date_order (x y : Date) :
  date_year x = date_year y → date_month x < date_month y ∨ date_month x = date_month y ∧ date_day x ≤ date_day y →
  number_of x ≤ number_of y.
Proof.
  destruct x as [[[y1 m1] d1] Hx], y as [[[y2 m2] d2] Hy]. cbn. intros -> Hle. unfold number_of. cbn.
  destruct (decide (m1 = m2 ∧ d1 = d2)) as [[-> ->]|Hne]; [lia|].
  apply Z.lt_le_incl, civil_number_lt; [done..|]. right. split; [done|]. lia.
Qed.

Lemma timestamp_number s n x t u :
  gregorian_from_timestamp s n = Some (x, (t, u)) →
  s = number_of x * 86400 + t ∧ 0 ≤ t < 86400 ∧ u = n ∧ 0 ≤ n < 2 * NANOS_PER_SECOND.
Proof.
  unfold gregorian_from_timestamp. case_match eqn:E; [|done]. intros (y & Hy & ?)%bind_Some. simplify_eq.
  apply by_number_Some in Hy. rewrite Hy. apply andb_true_iff in E as [H0%Z.leb_le Hn].
  assert (u < 2 * NANOS_PER_SECOND).
  { apply orb_true_iff in Hn as [?%Z.ltb_lt|[?%Z.ltb_lt _]%andb_true_iff]; unfold NANOS_PER_SECOND in *; lia. }
  split_and!; try done; Z.to_euclidean_division_equations; lia.
Qed.

Lemma timestamp_of (x : Date) t n :
  0 ≤ t < 86400 → 0 ≤ n < NANOS_PER_SECOND → gregorian_from_timestamp (number_of x * 86400 + t) n = Some (x, (t, n)).
Proof.
  intros Ht Hn. unfold gregorian_from_timestamp. rewrite (proj2 (Z.leb_le 0 n)), (proj2 (Z.ltb_lt n NANOS_PER_SECOND)) by lia.
  cbn [andb orb]. rewrite Z.div_add_l, Z.div_small, Z.add_0_r by lia. rewrite (proj2 (by_number_Some _ x)) by done.
  cbn. by rewrite Z.add_comm, Z.mod_add, Z.mod_small by lia.
Qed.

#[global] Instance gregorian_spec : ChronoSpec.
Proof.
  refine {| day_number := number_of : NaiveDate → Z; min_year := -262143; max_year := 262142 |}.
  - lia.
  - intros y m d. cbn. unfold to_date. rewrite <- valid_date_iff. case_decide; split; try done; by intros [? ?].
  - intros y m d x Hx. apply to_date_Some in Hx. cbn. by rewrite Hx.
  - intros x. apply to_date_Some. by destruct x as [[[??]?]?].
  - intros x Hx. apply to_date_Some in Hx. unfold number_of. by rewrite Hx.
  - intros n. cbn. by rewrite andb_true_iff, !Z.leb_le.
  - intros x k y. apply by_number_Some.
  - done.
  - intros x j Hj. apply to_date_Some in Hj. cbn. unfold ordinal, number_of at 3. rewrite Hj. cbn. unfold civil_number, days_before.
    cbn. lia.
  - apply date_order.
  - intros [[[y m] d] Hx]. unfold number_of. cbn. pose proof (civil_number_bound y m d Hx). lia.
  - apply timestamp_number.
  - apply timestamp_of.
  - intros zone local s n. cbn. apply instant_fits.
  - intros o local s n. cbn. apply instant_fits.
  - done.
Defined.

(** ** The theorems at concrete values *)

Definition some_friday : NaiveDate := ((2024, 5, 17) ↾ I : Date).

(** The hour of a time, which a date does not have; the fields of 2024-05-17, of
    the second nanosecond of a day, and of a duration. *)
Lemma temporal_accessors_witness :
  row_type (ScalarInteger 1) = Some (output_type AHour)
  ∧ evaluate_temporal_accessor (ScalarLocalTime 3600000000000) AHour = Ok (ScalarInteger 1)
  ∧ (∀ r, evaluate_temporal_accessor (ScalarDate 0) AHour ≠ Ok r)
  ∧ date_parts some_friday ∧ time_parts 1 ∧ duration_parts (-13) 8 (-3661) 5.
Proof.
  destruct (temporal_accessors (ScalarLocalTime 3600000000000) RowLocalTime AHour some_friday 1 (-13) 8 (-3661) 5
    eq_refl I ltac:(unfold NANOS_PER_DAY, NANOS_PER_SECOND; lia)) as (Hs & _ & _ & Hparts).
  destruct (temporal_accessors (ScalarDate 0) RowDate AHour some_friday 1 0 0 0 0
    eq_refl I ltac:(unfold NANOS_PER_DAY, NANOS_PER_SECOND; lia)) as (_ & Hu & _).
  split; [exact (Hs I)|]. split; [vm_compute; reflexivity|]. split; [apply Hu; by intros []|exact Hparts].
Defined.

(** A month after 2024-01-31 is 2024-02-29; a duration of more days than a
    [TimeDelta] holds panics. *)
Lemma duration_addition_witness :
  advances 1 0 0 0 (ScalarDate 19753) (ScalarDate 19782)
  ∧ apply_duration_to_temporal_scalar (ScalarDate 0) 0 200000000000 0 0 = Abort Panicked.
Proof.
  split.
  - apply (duration_addition (ScalarDate 19753) 1 0 0 0); [rlia|lia|done|]. vm_compute. reflexivity.
  - eapply (duration_addition (ScalarDate 0) 0 200000000000 0 0 ltac:(rlia) ltac:(lia) I).
    + instantiate (1 := epoch_date). reflexivity.
    + reflexivity.
    + vm_compute. split; discriminate.
    + right. vm_compute. reflexivity.
Defined.

Lemma temporal_comparison_agrees_witness :
  ResScalar <$> compare_temporal_scalars (ScalarZonedTime 3600000000000 3600) (ScalarZonedTime 0 0) CmpGreater
  = into_value <$> truth_of (H := ieee_ord) (H0 := roomy) CmpGreater (ResScalar (ScalarZonedTime 3600000000000 3600)) (ResScalar (ScalarZonedTime 0 0)).
Proof.
  apply (temporal_comparison_agrees (H := ieee_ord) (H0 := roomy)); cbn; unfold NANOS_PER_DAY, NANOS_PER_SECOND; try lia; right; by eexists.
Defined.

