(* ===== verification/EqualityKey.v ===== *)
(** * Keys for grouping: [crates/cypher/src/equality_key.rs]

    The bytes under which grouping and duplicate elimination store a value:
    equal numbers of either type share a key, and so do a path and the list of
    its parts.  A stored document is keyed as the value it reads as; its
    leaves are never documents again, so one round is enough. *)

From stdpp Require Import prelude gmap strings sorting.
From Stdlib Require Import ZArith Lia.
From S2P Require Import Prelude Machine Types Document Results OrderKey.

Local Open Scope Z_scope.

Definition push_len (output : bytes) (value : Z) : bytes :=
  output ++ be_bytes 8 (default u64_max (u64_try_from value)).

Definition push_bytes (output value : bytes) : bytes := push_len output (zlen value) ++ value.

Definition append_integer (output : bytes) (value : Z) : bytes := output ++ [2] ++ be_bytes 8 value.

(** [value.fract() == 0.0] of a finite float. *)
Definition f64_fract_is_zero (bits : Z) : bool := f64_scaled bits mod 2 ^ 1074 =? 0.
(** [value as i64] of a float in range. *)
Definition f64_as_i64 (bits : Z) : Z := Z.quot (f64_scaled bits) (2 ^ 1074).

Definition TWO_TO_63 : Z := 2 ^ 63 * 2 ^ 1074.

Definition exactly_equivalent_integer (value : Z) : option Z :=
  if f64_is_finite value && f64_fract_is_zero value
     && ((- TWO_TO_63 <=? f64_scaled value) && (f64_scaled value <? TWO_TO_63))
  then Some (f64_as_i64 value) else None.

Definition append_float (output : bytes) (value : Z) : bytes :=
  match exactly_equivalent_integer value with
  | Some integer => append_integer output integer
  | None =>
      let bits := if f64_is_nan value then f64_nan_bits else if f64_is_zero value then 0 else value in
      output ++ [3] ++ be_bytes 8 bits
  end.

Section keys.
Context `{Allocator}.

(** [append_document_item], over the [append_scalar] it calls on leaves. *)
Fixpoint append_document_item (append_scalar : bytes → ScalarValue → Result bytes)
    (output : bytes) (value : DocumentItem) {struct value} : Result bytes :=
  match value with
  | ItemScalar value => append_scalar output value
  | ItemList values =>
      append_all (append_document_item append_scalar) (push_len (output ++ [18]) (zlen values)) values
  | ItemMap values =>
      append_all (λ output '(name, value), append_document_item append_scalar (push_bytes output name) value)
        (push_len (output ++ [20]) (zlen values)) values
  end.

Fixpoint append_scalar_rounds (rounds : nat) (output : bytes) (value : ScalarValue) : Result bytes :=
  let append_scalar := match rounds with O => λ _ _, Abort OutOfFuel | S rounds => append_scalar_rounds rounds end in
  match value with
  | ScalarNull => Ok (output ++ [0])
  | ScalarBoolean value => Ok (output ++ [1; Z.b2z value])
  | ScalarInteger value => Ok (append_integer output value)
  | ScalarFloat value => Ok (append_float output value)
  | ScalarString value => Ok (push_bytes (output ++ [4]) value)
  | ScalarBytes value => Ok (push_bytes (output ++ [5]) value)
  | ScalarDate value => Ok (output ++ [6] ++ be_bytes 8 value)
  | ScalarLocalTime value => Ok (output ++ [7] ++ be_bytes 8 value)
  | ScalarZonedTime nanos offset_seconds => Ok (output ++ [8] ++ be_bytes 8 nanos ++ be_bytes 4 offset_seconds)
  | ScalarLocalDateTime seconds nanos => Ok (output ++ [9] ++ be_bytes 8 seconds ++ be_bytes 4 nanos)
  | ScalarZonedDateTime seconds nanos timezone =>
      Ok (push_bytes (output ++ [10] ++ be_bytes 8 seconds ++ be_bytes 4 nanos) timezone)
  | ScalarDuration months days seconds nanos =>
      Ok (output ++ [11] ++ be_bytes 8 months ++ be_bytes 8 days ++ be_bytes 8 seconds ++ be_bytes 4 nanos)
  | ScalarList value =>
      let output := output ++ [18] in
      match DocumentList_items value with
      | Ok values => append_all (append_document_item append_scalar) (push_len output (zlen values)) values
      | Err _ => Ok (push_bytes output value)
      | Abort w => Abort w
      end
  | ScalarMap value =>
      let output := output ++ [20] in
      match DocumentMap_entries value with
      | Ok values =>
          append_all (λ output '(name, value), append_document_item append_scalar (push_bytes output name) value)
            (push_len output (zlen values)) values
      | Err _ => Ok (push_bytes output value)
      | Abort w => Abort w
      end
  end.

Definition append_scalar : bytes → ScalarValue → Result bytes := append_scalar_rounds 1.

(** The loop over a path from [index] on, over [count] elements. *)
Fixpoint append_path_from (count : nat) (index : Z) (output : bytes) (nodes : list ResultNode)
    (relationships : list ResultEdge) : Result bytes :=
  match count with
  | O => Ok output
  | S count =>
      output ←
        (if index mod 2 =? 0 then
           node ← index_at nodes (index / 2); Ok (output ++ [16] ++ be_bytes 8 (node_id node))
         else
           edge ← index_at relationships (index / 2); Ok (output ++ [17] ++ be_bytes 8 (edge_id edge)));
      append_path_from count (index + 1) output nodes relationships
  end.

Fixpoint append_value (output : bytes) (value : ResultValue) {struct value} : Result bytes :=
  match value with
  | ResScalar value => append_scalar output value
  | ResNode node => Ok (output ++ [16] ++ be_bytes 8 (node_id node))
  | ResRelationship relationship => Ok (output ++ [17] ++ be_bytes 8 (edge_id relationship))
  | ResPath nodes relationships =>
      let length := saturating_add usize_max (zlen nodes) (zlen relationships) in
      append_path_from (Z.to_nat length) 0 (push_len (output ++ [18]) length) nodes relationships
  | ResVector vector =>
      Ok (foldl (λ output coordinate, output ++ be_bytes 4 coordinate)
            (push_len (output ++ [19]) (zlen vector)) vector)
  | ResList values => append_all append_value (push_len (output ++ [18]) (zlen values)) values
  | ResMap values =>
      append_all (λ output '(name, value), append_value (push_bytes output name) value)
        (push_len (output ++ [20]) (zlen values)) values
  end.

Definition value_key (value : ResultValue) : Result bytes := append_value [] value.
End keys.
