(* ===== verification/ValueTheorems.v ===== *)
(** * Values in predicates: theorems

    Equality and the ordering predicates on the values that stored documents
    read as, symmetry, membership as a disjunction, and the agreement of the
    predicates with the total order behind [ORDER BY]. *)

From stdpp Require Import prelude gmap strings sorting.
From Stdlib Require Import ZArith Lia.
From S2P Require Import Prelude Machine Types Document Results ResultsTheorems Ordering OrderingTheorems OrderKey OrderCode OrderKeyTheorems Value.

Local Open Scope Z_scope.
#[local] Set Warnings "-clear-no-such-hyp".

(** ** Comparisons that read documents first *)

Section rounds.
Context `{Allocator} {R : Type}.
Context (recur : (ResultValue → ResultValue → Result R) → ResultValue → ResultValue → Result R).
Context (roots : (ResultValue → ResultValue → Result R) → ResultValue → ResultValue → Result R).
Context (spec : ResultValue → ResultValue → R).

Hypothesis recur_eq : ∀ again a b,
  recur again a b =
  match document_of a with
  | Some value => m ← from_property value; again m b
  | None =>
      match document_of b with
      | Some value => m ← from_property value; again a m
      | None => roots (recur again) a b
      end
  end.

Hypothesis roots_spec : ∀ cmp a b ma mb,
  result_wf a → result_wf b → keyed a ma → keyed b mb → document_of a = None → document_of b = None →
  (∀ x y, part x a → part y b → keyed x (form x) → keyed y (form y) → cmp x y = Ok (spec (form x) (form y))) →
  roots cmp a b = Ok (spec ma mb).

Fixpoint rounds (n : nat) : ResultValue → ResultValue → Result R :=
  recur match n with O => λ _ _, Abort OutOfFuel | S n => rounds n end.

(** [cmp] is right on pairs that need fewer than [n] readings. *)
Definition settles (n : nat) (cmp : ResultValue → ResultValue → Result R) : Prop :=
  ∀ a b ma mb, result_wf a → result_wf b → keyed a ma → keyed b mb →
    (rounds_of a + rounds_of b < n)%nat → cmp a b = Ok (spec ma mb).

Lemma document_of_cases v m :
  result_wf v → keyed v m →
  (∃ s, document_of v = Some s ∧ from_property s = Ok m ∧ rounds_of v = 1%nat ∧ rounds_of m = 0%nat ∧ keyed m m)
  ∨ document_of v = None.
Proof.
  intros Hw Hk. destruct (document_value_cases v m Hw Hk) as [(Hd & Hv & ? & ? & ?)|(Hd & _)]; [left|right].
  - destruct v as [s| | | | | |]; try done. cbn in *. rewrite Hd in *. exists s. split_and!; try done.
    by destruct Hk as (Hm & _).
  - destruct v; try done. cbn in *. by rewrite Hd.
Qed.

Lemma recur_spec n again a :
  settles n again →
  ∀ b ma mb, result_wf a → result_wf b → keyed a ma → keyed b mb →
    (rounds_of a + rounds_of b ≤ n)%nat → recur again a b = Ok (spec ma mb).
Proof.
  intros Hagain. induction a as [a IH] using ResultValue_part_ind. intros b ma mb Hwa Hwb Hka Hkb Hn.
  rewrite recur_eq.
  destruct (document_of_cases a ma Hwa Hka) as [(s & -> & -> & Hra & Hrm & Hkm)|Hda]; [|rewrite Hda].
  { cbn. apply Hagain; try done; [apply Hka|lia]. }
  destruct (document_of_cases b mb Hwb Hkb) as [(s & -> & -> & Hrb & Hrm & Hkm)|Hdb]; [|rewrite Hdb].
  { cbn. apply Hagain; try done; [apply Hkb|lia]. }
  apply roots_spec; try done. intros x y Hx Hy Hkx Hky.
  pose proof (part_rounds x a Hx). pose proof (part_rounds y b Hy).
  apply IH; [done|apply (part_wf x a Hwa Hx)|apply (part_wf y b Hwb Hy)|done|done|lia].
Qed.

Lemma rounds_settle n : settles (S n) (rounds n).
Proof.
  induction n as [|n IH]; intros a b ma mb Hwa Hwb Hka Hkb Hn; cbn [rounds].
  - eapply (recur_spec 0); try done; [intros ?????????; lia|lia].
  - eapply (recur_spec (S n)); try done. lia.
Qed.

Lemma two_rounds a b ma mb :
  result_wf a → result_wf b → keyed a ma → keyed b mb → rounds 2 a b = Ok (spec ma mb).
Proof.
  intros. apply rounds_settle; try done. unfold rounds_of. destruct (result_free a), (result_free b); lia.
Qed.
End rounds.

(** ** Equality of materialised values *)

Section truths.
Context {A B : Type} (f : A → B → Truth).

Definition truth_all : list A → list B → Truth :=
  fix go l k := match l, k with x :: l, y :: k => and_ (f x y) (go l k) | _, _ => True_ end.

Lemma equal_zip_all (cmp : A → B → Result Truth) t l k :
  (∀ x y, x ∈ l → y ∈ k → cmp x y = Ok (f x y)) → equal_zip cmp t l k = Ok (and_ t (truth_all l k)).
Proof.
  revert t k. induction l as [|x l IH]; intros t [|y k] Hc; cbn [equal_zip truth_all]; try (by destruct t).
  rewrite Hc by constructor. cbn.
  assert (∀ u v w, and_ (and_ u v) w = and_ u (and_ v w)) as Hassoc by (by intros [] [] []).
  rewrite <- Hassoc. case_bool_decide as E; [by rewrite E|]. apply IH. intros. apply Hc; by constructor.
Qed.

Lemma equal_zip_true (cmp : A → B → Result Truth) l k :
  (∀ x y, x ∈ l → y ∈ k → cmp x y = Ok (f x y)) → equal_zip cmp True_ l k = Ok (truth_all l k).
Proof. intros Hc. rewrite (equal_zip_all _ _ _ _ Hc). by destruct (truth_all l k). Qed.
End truths.

Lemma truth_all_map {A B C D} (f : A → B → Truth) (g : C → A) (h : D → B) l k :
  truth_all f (map g l) (map h k) = truth_all (λ x y, f (g x) (h y)) l k.
Proof. revert k. induction l as [|x l IH]; intros [|y k]; cbn; [done..|]. by rewrite IH. Qed.

Section equality.
Context `{OrderedFloatOrd}.

Definition scalars_equal (l r : ScalarValue) : Truth :=
  match equal_scalars l r with Ok t => t | _ => False_ end.

(** [equal], on values without stored documents. *)
Fixpoint value_equal (a b : ResultValue) : Truth :=
  if is_null a || is_null b then Unknown
  else
    match a, b with
    | ResScalar l, ResScalar r => scalars_equal l r
    | ResNode l, ResNode r => bool_truth (node_id l =? node_id r)
    | ResRelationship l, ResRelationship r => bool_truth (edge_id l =? edge_id r)
    | ResPath ln le, ResPath rn re => bool_truth (all_eq node_eq ln rn && all_eq edge_eq le re)
    | ResVector l, ResVector r => bool_truth (vector_equal l r)
    | ResList l, ResList r => if zlen l =? zlen r then truth_all value_equal l r else False_
    | ResMap l, ResMap r =>
        if (zlen l =? zlen r) && bool_decide (map fst l = map fst r)
        then truth_all (λ '(_, x) '(_, y), value_equal x y) l r else False_
    | ResPath ns es, ResList vs | ResList vs, ResPath ns es => path_list_equal ns es vs
    | _, _ => False_
    end.

Lemma equal_scalars_Ok l r : scalar_wf l → scalar_wf r → equal_scalars l r = Ok (scalars_equal l r).
Proof.
  intros Hl Hr. unfold scalars_equal.
  assert (∃ t, equal_scalars l r = Ok t) as [t ->]; [|done].
  destruct l, r; cbn [equal_scalars]; try by eexists.
  - destruct (f64_is_nan bits) eqn:?; [by eexists|]. rewrite compare_i64_f64_spec by done. by eexists.
  - destruct (f64_is_nan bits) eqn:?; [by eexists|]. rewrite compare_i64_f64_spec by done. by eexists.
Qed.

Context `{Allocator}.

Definition equal_roots (cmp : ResultValue → ResultValue → Result Truth) (a b : ResultValue) : Result Truth :=
  if is_null a || is_null b then Ok Unknown
  else
    match a, b with
    | ResScalar l, ResScalar r => equal_scalars l r
    | ResNode l, ResNode r => Ok (bool_truth (node_id l =? node_id r))
    | ResRelationship l, ResRelationship r => Ok (bool_truth (edge_id l =? edge_id r))
    | ResPath ln le, ResPath rn re => Ok (bool_truth (all_eq node_eq ln rn && all_eq edge_eq le re))
    | ResVector l, ResVector r => Ok (bool_truth (vector_equal l r))
    | ResList l, ResList r => sequence_equal cmp l r
    | ResMap l, ResMap r => map_equal cmp l r
    | ResPath ns es, ResList vs | ResList vs, ResPath ns es => Ok (path_list_equal ns es vs)
    | _, _ => Ok False_
    end.

Lemma equal_values_eq again a b :
  equal_values again a b =
  match document_of a with
  | Some value => m ← from_property value; again m b
  | None =>
      match document_of b with
      | Some value => m ← from_property value; again a m
      | None => equal_roots (equal_values again) a b
      end
  end.
Proof. by destruct a. Qed.

Lemma keyed_is_null v m : keyed v m → document_of v = None → is_null m = is_null v.
Proof.
  intros Hk Hd. destruct v as [s|n|e|ns es|vs|vs|vs].
  - cbn in Hd. destruct (is_document s) eqn:E; [done|]. by rewrite (keyed_scalar s m E Hk).
  - by destruct Hk as ([= <-] & _).
  - by destruct Hk as ([= <-] & _).
  - by destruct Hk as ([= <-] & _).
  - by destruct Hk as ([= <-] & _).
  - by destruct (keyed_list_inv vs m Hk) as (ms & -> & _).
  - destruct Hk as (Hm & _). cbn [materialized] in Hm. inv_ok. by subst.
Qed.

(** A materialised value keeps its constructor unless it is a document. *)
Lemma keyed_roots v m :
  result_wf v → keyed v m → document_of v = None →
  match v with
  | ResScalar _ | ResNode _ | ResRelationship _ | ResPath _ _ | ResVector _ => m = v
  | ResList vs => m = ResList (map form vs) ∧ Forall (λ x, keyed x (form x)) vs
  | ResMap vs => m = ResMap (map (λ '(k, x), (k, form x)) vs) ∧ Forall (λ p, keyed p.2 (form p.2)) vs
  end.
Proof.
  intros Hw Hk Hd. destruct v as [s|n|e|ns es|vs|vs|vs].
  - cbn in Hd. destruct (is_document s) eqn:E; [done|]. by apply keyed_scalar.
  - by destruct Hk as ([= <-] & _).
  - by destruct Hk as ([= <-] & _).
  - by destruct Hk as ([= <-] & _).
  - by destruct Hk as ([= <-] & _).
  - destruct (keyed_list_inv vs m Hk) as (ms & -> & Hms). by apply keyed_forms in Hms as [<- ?].
  - destruct (keyed_map_inv vs m Hw Hk) as (ms & -> & Hms). by apply keyed_entry_forms in Hms as [<- ?].
Qed.

Lemma zlen_map {A B} (g : A → B) l : zlen (map g l) = zlen l.
Proof. unfold zlen. by rewrite length_map. Qed.

Lemma map_fst_form (vs : list (bytes * ResultValue)) : map fst (map (λ '(k, x), (k, form x)) vs) = map fst vs.
Proof. induction vs as [|[k x] vs IH]; [done|]. cbn. by rewrite IH. Qed.

(** A path meets only the kinds and identifiers of a list's elements. *)
Lemma path_list_from_form i ns es vs :
  Forall (λ x, result_wf x ∧ keyed x (form x)) vs →
  path_list_from i ns es (map form vs) = path_list_from i ns es vs.
Proof.
  intros Hvs. revert i. induction Hvs as [|v vs [Hw Hk] _ IH]; intros i; [done|]. cbn [map path_list_from].
  assert (match form v with ResNode n => Some (inl (node_id n)) | ResRelationship e => Some (inr (edge_id e)) | _ => None end
    = match v with ResNode n => Some (inl (node_id n)) | ResRelationship e => Some (inr (edge_id e)) | _ => None end) as E.
  { destruct (document_of_cases v (form v) Hw Hk) as [(s & Hd & Hs & _)|Hd].
    - destruct v as [s'| | | | | |]; try done. cbn in Hd. destruct (is_document s') eqn:Es; [|done].
      simplify_eq. clear -Hs Es. revert Hs. generalize (form (ResScalar s)). intros m Hs.
      unfold from_property in Hs. destruct s; try done; cbn in Hs; inv_ok; by subst.
    - pose proof (keyed_roots v (form v) Hw Hk Hd) as Hr. destruct v; [by rewrite Hr..| |]; by destruct Hr as [-> _]. }
  clear Hw Hk. revert E. generalize (form v). intros m E.
  destruct (i mod 2 =? 0); destruct (get _ _); try done; rewrite IH; destruct v, m; cbn in *;
    first [congruence|injection E as E; by rewrite E].
Qed.

Lemma path_list_equal_form ns es vs :
  Forall (λ x, result_wf x ∧ keyed x (form x)) vs →
  path_list_equal ns es (map form vs) = path_list_equal ns es vs.
Proof. intros Hvs. unfold path_list_equal. by rewrite zlen_map, path_list_from_form. Qed.

Lemma equal_roots_spec cmp a b ma mb :
  result_wf a → result_wf b → keyed a ma → keyed b mb → document_of a = None → document_of b = None →
  (∀ x y, part x a → part y b → keyed x (form x) → keyed y (form y) →
          cmp x y = Ok (value_equal (form x) (form y))) →
  equal_roots cmp a b = Ok (value_equal ma mb).
Proof.
  intros Hwa Hwb Hka Hkb Hda Hdb Hcmp. unfold equal_roots.
  assert (value_equal ma mb = if is_null ma || is_null mb then Unknown else
    match ma, mb with
    | ResScalar l, ResScalar r => scalars_equal l r
    | ResNode l, ResNode r => bool_truth (node_id l =? node_id r)
    | ResRelationship l, ResRelationship r => bool_truth (edge_id l =? edge_id r)
    | ResPath ln le, ResPath rn re => bool_truth (all_eq node_eq ln rn && all_eq edge_eq le re)
    | ResVector l, ResVector r => bool_truth (vector_equal l r)
    | ResList l, ResList r => if zlen l =? zlen r then truth_all value_equal l r else False_
    | ResMap l, ResMap r =>
        if (zlen l =? zlen r) && bool_decide (map fst l = map fst r)
        then truth_all (λ '(_, x) '(_, y), value_equal x y) l r else False_
    | ResPath ns es, ResList vs | ResList vs, ResPath ns es => path_list_equal ns es vs
    | _, _ => False_
    end) as -> by (by destruct ma).
  rewrite (keyed_is_null a ma Hka Hda), (keyed_is_null b mb Hkb Hdb).
  destruct (is_null a || is_null b); [done|].
  pose proof (keyed_roots a ma Hwa Hka Hda) as Ra. pose proof (keyed_roots b mb Hwb Hkb Hdb) as Rb.
  assert (∀ vs v, result_wf (ResList vs) → v ∈ vs → result_wf v) as Hwl.
  { intros vs v Hw Hv. by apply (part_wf v (ResList vs)). }
  destruct a as [s|n|e|ns es|vs|vs|vs], b as [s'|n'|e'|ns' es'|vs'|vs'|vs'];
    repeat match goal with R : _ = _ ∧ _ |- _ => destruct R as [-> R] | R : ma = _ |- _ => subst ma | R : mb = _ |- _ => subst mb end;
    try done.
  - inversion Hwa; inversion Hwb; subst. by apply equal_scalars_Ok.
  - f_equal. symmetry. apply path_list_equal_form. rewrite Forall_forall in *. eauto.
  - f_equal. symmetry. apply path_list_equal_form. rewrite Forall_forall in *. eauto.
  - unfold sequence_equal. rewrite !zlen_map. destruct (zlen vs =? zlen vs'); cbn [negb]; [|done].
    rewrite truth_all_map. apply (equal_zip_true (λ x y, value_equal (form x) (form y))).
    intros x y Hx Hy. rewrite Forall_forall in *. apply Hcmp; auto.
  - unfold map_equal. rewrite !zlen_map, !map_fst_form.
    destruct (zlen vs =? zlen vs'); cbn [negb andb orb]; [|done]. case_bool_decide; cbn [negb]; [|done].
    rewrite truth_all_map. apply equal_zip_true. intros [k x] [k' y] Hx Hy. rewrite Forall_forall in *.
    apply Hcmp; [by exists k|by exists k'|by apply (Ra (k, x))|by apply (Rb (k', y))].
Qed.

(** Equality is decided on the values that documents read as. *)
Lemma equal_spec a b ma mb :
  result_wf a → result_wf b → keyed a ma → keyed b mb → equal a b = Ok (value_equal ma mb).
Proof. apply (two_rounds equal_values equal_roots value_equal equal_values_eq equal_roots_spec). Qed.
End equality.

(** ** Symmetry and membership *)

Lemma all_eq_sym {A} (eq : A → A → bool) l k : (∀ x y, eq x y = eq y x) → all_eq eq l k = all_eq eq k l.
Proof. intros Hs. revert k. induction l as [|x l IH]; intros [|y k]; cbn; [done..|]. by rewrite Hs, IH. Qed.

Lemma vector_equal_eq l r : vector_equal l r = bool_decide (l = r).
Proof.
  unfold vector_equal. revert r. induction l as [|x l IH]; intros [|y r]; try done.
  rewrite !zlen_cons. cbn [zip zip_with forallb].
  replace (1 + zlen l =? 1 + zlen r) with (zlen l =? zlen r) by (apply eq_true_iff_eq; rewrite !Z.eqb_eq; lia).
  rewrite andb_assoc, (andb_comm (zlen l =? zlen r)), <- andb_assoc, IH.
  apply eq_true_iff_eq. rewrite andb_true_iff, Z.eqb_eq, !bool_decide_eq_true. naive_solver.
Qed.

Section symmetry.
Context `{OrderedFloatOrd}.

Lemma is_eq_opp c : is_eq (CompOpp c) = is_eq c.
Proof. by destruct c. Qed.

Lemma ordered_float_antisym a b : ordered_float_cmp b a = CompOpp (ordered_float_cmp a b).
Proof. rewrite !ordered_float_cmp_spec. destruct (f64_is_nan a), (f64_is_nan b); try done. apply Z.compare_antisym. Qed.

Lemma bool_decide_sym {A} `{EqDecision A} (x y : A) : bool_decide (x = y) = bool_decide (y = x).
Proof. apply bool_decide_ext. naive_solver. Qed.

Lemma scalar_eq_sym l r : scalar_eq l r = scalar_eq r l.
Proof.
  destruct l, r; cbn [scalar_eq]; try apply bool_decide_sym.
  by rewrite ordered_float_antisym, is_eq_opp.
Qed.

Lemma properties_eq_sym l r : properties_eq l r = properties_eq r l.
Proof.
  revert r. induction l as [|[k v] l IH]; intros [|[k' v'] r]; cbn; [done..|].
  by rewrite scalar_eq_sym, IH, bool_decide_sym.
Qed.

Lemma node_eq_sym n n' : node_eq n n' = node_eq n' n.
Proof.
  unfold node_eq. rewrite properties_eq_sym, (Z.eqb_sym (node_id n)), (Z.eqb_sym (node_revision n)).
  by rewrite (bool_decide_sym (node_layer n)), (bool_decide_sym (node_labels n)).
Qed.

Lemma edge_eq_sym e e' : edge_eq e e' = edge_eq e' e.
Proof.
  unfold edge_eq. rewrite properties_eq_sym, (Z.eqb_sym (edge_id e)), (Z.eqb_sym (edge_source e)).
  rewrite (Z.eqb_sym (edge_target e)), (Z.eqb_sym (edge_revision e)).
  by rewrite (bool_decide_sym (edge_layer e)), (bool_decide_sym (edge_type e)).
Qed.

Lemma scalars_equal_sym l r : scalars_equal l r = scalars_equal r l.
Proof.
  unfold scalars_equal.
  assert (∀ s s' : ScalarValue, (if negb (scalar_family s =? scalar_family s') then Ok False_
      else Ok (if scalar_is_nan s || scalar_is_nan s' then False_ else if scalar_eq s s' then True_ else False_))
    = (if negb (scalar_family s' =? scalar_family s) then Ok False_
      else Ok (if scalar_is_nan s' || scalar_is_nan s then False_ else if scalar_eq s' s then True_ else False_)) :> Result Truth) as E.
  { intros s s'. by rewrite Z.eqb_sym, orb_comm, scalar_eq_sym. }
  destruct l, r; cbn [equal_scalars]; try done; by rewrite E.
Qed.

Lemma and_comm t u : and_ t u = and_ u t.
Proof. by destruct t, u. Qed.

Lemma value_equal_sym a : ∀ b, value_equal a b = value_equal b a.
Proof.
  induction a as [s|n|e|ns es|vs|vs IH|vs IH] using ResultValue_nested_ind;
    intros [s'|n'|e'|ns' es'|vs'|vs'|vs']; cbn [value_equal]; rewrite orb_comm; case_match; try done.
  - apply scalars_equal_sym.
  - by rewrite Z.eqb_sym.
  - by rewrite Z.eqb_sym.
  - by rewrite (all_eq_sym node_eq ns ns' node_eq_sym), (all_eq_sym edge_eq es es' edge_eq_sym).
  - by rewrite !vector_equal_eq, bool_decide_sym.
  - rewrite Z.eqb_sym. case_match; [|done].
    clear -IH. revert vs'. induction IH as [|x vs Hx _ IH]; intros [|y vs']; try done. cbn [truth_all]. by rewrite Hx, IH.
  - rewrite Z.eqb_sym, bool_decide_sym. case_match; [|done].
    clear -IH. revert vs'. induction IH as [|[k x] vs Hx _ IH]; intros [|[k' y] vs']; try done.
    cbn [truth_all]. cbn in Hx. by rewrite Hx, IH.
Qed.
End symmetry.

(** ** Ordering predicates *)

Section ordering.
Context `{OrderedFloatOrd}.

Definition scalars_partial (l r : ScalarValue) : PartialComparison :=
  match partial_compare_scalars l r with Ok p => p | _ => UnknownOrder end.

Definition lists_partial {A} (f : A → A → PartialComparison) : list A → list A → PartialComparison :=
  fix go l k :=
    match l, k with
    | x :: l, y :: k => match f x y with Ordered Eq => go l k | p => p end
    | l, k => Ordered (zlen l ?= zlen k)
    end.

(** [partial_compare], on values without stored documents. *)
Fixpoint value_partial (a b : ResultValue) : PartialComparison :=
  if is_null a || is_null b then UnknownOrder
  else
    match a, b with
    | ResScalar l, ResScalar r => scalars_partial l r
    | ResList l, ResList r => lists_partial value_partial l r
    | _, _ => UnknownOrder
    end.

Lemma compare_zip_partial {A B} (cmp : A → A → Result PartialComparison) (f : B → B → PartialComparison)
    (g : A → B) l k :
  (∀ x y, x ∈ l → y ∈ k → cmp x y = Ok (f (g x) (g y))) →
  compare_zip cmp (zlen l ?= zlen k) l k = Ok (lists_partial f (map g l) (map g k)).
Proof.
  revert k. induction l as [|x l IH]; intros [|y k] Hc; cbn [compare_zip lists_partial map]; try done.
  rewrite Hc by constructor. cbn. destruct (f (g x) (g y)) as [[]| |]; try done.
  replace (zlen (x :: l) ?= zlen (y :: k)) with (zlen l ?= zlen k)
    by (rewrite !zlen_cons, !(Z.add_comm 1); symmetry; apply compare_add_r).
  apply IH. intros. apply Hc; by constructor.
Qed.

Lemma partial_scalars_Ok l r :
  scalar_wf l → scalar_wf r → partial_compare_scalars l r = Ok (scalars_partial l r).
Proof.
  intros Hl Hr. unfold scalars_partial.
  assert (∃ p, partial_compare_scalars l r = Ok p) as [p ->]; [|done].
  destruct l, r; cbn; try (by eexists); rewrite ?compare_i64_f64_spec by done;
    repeat case_match; by eexists.
Qed.

(** The predicates follow the total order wherever they order at all. *)
Lemma scalars_partial_cmp l r c :
  scalar_wf l → scalar_wf r → is_document l = false → is_document r = false →
  scalars_partial l r = Ordered c → value_cmp (ResScalar l) (ResScalar r) = c.
Proof.
  intros Hl Hr Hdl Hdr Hp. unfold scalars_partial in Hp. cbn [value_cmp]. rewrite !scalar_rank_value. unfold scalar_cmp.
  destruct l, r; try done; cbn in *; rewrite ?compare_i64_f64_spec in * by done; cbn in *;
    repeat case_match; simplify_eq; cbn in *; congruence.
Qed.

Lemma value_partial_cmp a : ∀ b c,
  result_wf a → result_wf b → result_free a = true → result_free b = true →
  value_partial a b = Ordered c → value_cmp a b = c.
Proof.
  induction a as [s|n|e|ns es|vs|vs IH|vs IH] using ResultValue_nested_ind;
    intros [s'|n'|e'|ns' es'|vs'|vs'|vs'] c Hwa Hwb Hfa Hfb Hp; cbn [value_partial] in Hp;
    (destruct (is_null _ || is_null _); [done|]); try done.
  - cbn in Hfa, Hfb. apply negb_true_iff in Hfa, Hfb. inversion Hwa; inversion Hwb; subst.
    by apply scalars_partial_cmp.
  - apply result_free_list in Hfa, Hfb. inversion Hwa as [| | | | |? Hva|]; inversion Hwb as [| | | | |? Hvb|]; subst.
    cbn [value_cmp value_rank Z.eqb negb]. clear Hwa Hwb. revert vs' c Hfb Hvb Hp.
    induction vs as [|x vs IHvs]; intros [|y vs'] c Hfb Hvb Hp; cbn [lists_partial lex] in *; simplify_eq; try done.
    apply Forall_cons in IH as [IHx IH], Hfa as [Hfx Hfa], Hfb as [Hfy Hfb], Hva as [Hvx Hva], Hvb as [Hvy Hvb].
    destruct (value_partial x y) as [o| |] eqn:Exy; [|done|done].
    rewrite (IHx y o Hvx Hvy Hfx Hfy Exy). destruct o; simplify_eq; cbn; try done. by apply IHvs.
Qed.

Definition swap (p : PartialComparison) : PartialComparison :=
  match p with Ordered c => Ordered (CompOpp c) | p => p end.

Lemma scalars_partial_swap l r :
  scalar_wf l → scalar_wf r → scalars_partial r l = swap (scalars_partial l r).
Proof.
  intros Hl Hr. unfold scalars_partial.
  destruct l, r; cbn; try done; rewrite ?compare_i64_f64_spec by done; cbn;
    repeat match goal with |- context [f64_is_nan ?b] => destruct (f64_is_nan b) end; cbn; try done; f_equal;
    rewrite ?CompOpp_then, <- ?Z.compare_antisym, <- ?lexZ_antisym, <- ?ordered_float_antisym, ?CompOpp_involutive; try done.
  unfold bool_cmp. apply Z.compare_antisym.
Qed.

Lemma value_partial_swap a : ∀ b,
  result_wf a → result_wf b → value_partial b a = swap (value_partial a b).
Proof.
  induction a as [s|n|e|ns es|vs|vs IH|vs IH] using ResultValue_nested_ind;
    intros [s'|n'|e'|ns' es'|vs'|vs'|vs'] Hwa Hwb; cbn [value_partial]; rewrite orb_comm;
    destruct (is_null _ || is_null _); try done.
  - inversion Hwa; inversion Hwb; subst. by apply scalars_partial_swap.
  - inversion Hwa as [| | | | |? Hva|]; inversion Hwb as [| | | | |? Hvb|]; subst. clear Hwa Hwb.
    revert vs' Hvb. induction vs as [|x vs IHvs]; intros [|y vs'] Hvb; cbn [lists_partial swap]; f_equal;
      rewrite <- ?Z.compare_antisym; try done.
    apply Forall_cons in IH as [IHx IH], Hva as [Hvx Hva], Hvb as [Hvy Hvb].
    rewrite IHx by done. destruct (value_partial x y) as [[]| |]; cbn; try done. by apply IHvs.
Qed.

Context `{Allocator}.

Definition partial_roots (cmp : ResultValue → ResultValue → Result PartialComparison) (a b : ResultValue)
    : Result PartialComparison :=
  if is_null a || is_null b then Ok UnknownOrder
  else
    match a, b with
    | ResScalar l, ResScalar r => partial_compare_scalars l r
    | ResList l, ResList r => compare_lists cmp l r
    | _, _ => Ok UnknownOrder
    end.

Lemma partial_values_eq again a b :
  partial_values again a b =
  match document_of a with
  | Some value => m ← from_property value; again m b
  | None =>
      match document_of b with
      | Some value => m ← from_property value; again a m
      | None => partial_roots (partial_values again) a b
      end
  end.
Proof. by destruct a. Qed.

Lemma partial_roots_spec cmp a b ma mb :
  result_wf a → result_wf b → keyed a ma → keyed b mb → document_of a = None → document_of b = None →
  (∀ x y, part x a → part y b → keyed x (form x) → keyed y (form y) →
          cmp x y = Ok (value_partial (form x) (form y))) →
  partial_roots cmp a b = Ok (value_partial ma mb).
Proof.
  intros Hwa Hwb Hka Hkb Hda Hdb Hcmp. unfold partial_roots.
  assert (value_partial ma mb = if is_null ma || is_null mb then UnknownOrder else
    match ma, mb with
    | ResScalar l, ResScalar r => scalars_partial l r
    | ResList l, ResList r => lists_partial value_partial l r
    | _, _ => UnknownOrder
    end) as -> by (by destruct ma).
  rewrite (keyed_is_null a ma Hka Hda), (keyed_is_null b mb Hkb Hdb).
  destruct (is_null a || is_null b); [done|].
  pose proof (keyed_roots a ma Hwa Hka Hda) as Ra. pose proof (keyed_roots b mb Hwb Hkb Hdb) as Rb.
  destruct a as [s|n|e|ns es|vs|vs|vs], b as [s'|n'|e'|ns' es'|vs'|vs'|vs'];
    repeat match goal with R : _ = _ ∧ _ |- _ => destruct R as [-> R] | R : ma = _ |- _ => subst ma | R : mb = _ |- _ => subst mb end;
    try done.
  - inversion Hwa; inversion Hwb; subst. by apply partial_scalars_Ok.
  - apply compare_zip_partial. intros x y Hx Hy. rewrite Forall_forall in *. apply Hcmp; auto.
Qed.

Lemma partial_compare_spec a b ma mb :
  result_wf a → result_wf b → keyed a ma → keyed b mb → partial_compare a b = Ok (value_partial ma mb).
Proof. apply (two_rounds partial_values partial_roots value_partial partial_values_eq partial_roots_spec). Qed.

Lemma encodable_free v : encodable v = true → result_free v = true.
Proof.
  induction v as [s|n|e|ns es|vs|vs IH|vs IH] using ResultValue_nested_ind; intros He; try done.
  - apply result_free_list. cbn [encodable] in He. apply forallb_Forall in He. rewrite Forall_forall in *. auto.
  - apply result_free_entries. apply encodable_entries in He as [_ He]. rewrite Forall_forall in *. auto.
Qed.

(** The four operators, and each with its operands swapped. *)
Definition holds (op : BinaryOperator) (c : comparison) : option bool :=
  match op with
  | OpLess => Some (match c with Lt => true | _ => false end)
  | OpLessOrEqual => Some (match c with Gt => false | _ => true end)
  | OpGreater => Some (match c with Gt => true | _ => false end)
  | OpGreaterOrEqual => Some (match c with Lt => false | _ => true end)
  | _ => None
  end.

Definition flip_operator (op : BinaryOperator) : BinaryOperator :=
  match op with
  | OpLess => OpGreater
  | OpLessOrEqual => OpGreaterOrEqual
  | OpGreater => OpLess
  | OpGreaterOrEqual => OpLessOrEqual
  | op => op
  end.

(** the ordering predicates agree with the order of [ORDER BY].  On values
    whose documents can be read, [<], [<=], [>] and [>=] never fail; the answer
    is null for values that do not compare and false for a NaN, otherwise it
    is what the total order of the two values says; and swapping the operands
    along with the operator does not change it. *)
Theorem predicates_follow_order a b ma mb op :
  result_wf a → result_wf b → keyed a ma → keyed b mb → is_Some (holds op Eq) →
  ∃ t p, compare_predicate a b op = Ok t ∧ compare_predicate b a (flip_operator op) = Ok t
    ∧ partial_compare a b = Ok p
    ∧ match p with
      | Ordered c => total_compare a b = Ok c ∧ bool_truth <$> holds op c = Some t
      | UnknownOrder => t = Unknown
      | Unordered => t = False_
      end.
Proof.
  intros Hwa Hwb Hka Hkb Hop. pose proof (Hka) as (_ & Hwma & Hea). pose proof (Hkb) as (_ & Hwmb & Heb).
  unfold compare_predicate. rewrite (partial_compare_spec a b ma mb), (partial_compare_spec b a mb ma) by done.
  rewrite (value_partial_swap ma mb) by done. cbn [mbind outcome_bind].
  pose proof (total_compare_spec a b ma mb Hwa Hwb Hka Hkb) as Ht.
  destruct (value_partial ma mb) as [c| |] eqn:Hp; cbn [swap].
  - rewrite (value_partial_cmp ma mb c Hwma Hwmb (encodable_free _ Hea) (encodable_free _ Heb) Hp) in Ht.
    destruct op; try (by destruct Hop); destruct c; eexists _, _; cbn; by split_and!.
  - by eexists _, _.
  - by eexists _, _.
Qed.

Lemma contains_from_or unknown l needle ts :
  Forall2 (λ v t, equal needle v = Ok t) l ts →
  contains_from unknown l needle = Ok (or_ (if unknown then Unknown else False_) (foldr or_ False_ ts)).
Proof.
  intros Hts. revert unknown. induction Hts as [|v t l ts Hv _ IH]; intros unknown; cbn [contains_from foldr].
  { by destruct unknown. }
  rewrite Hv. cbn. destruct t; rewrite ?IH; by destruct unknown, (foldr or_ False_ ts).
Qed.

(** On values whose documents can be read, equality never fails and is
    symmetric, and membership in a list is the three-valued disjunction of the
    equalities with its elements. *)
Theorem membership_is_disjunction needle l mn ml :
  result_wf needle → keyed needle mn → Forall result_wf l → Forall2 keyed l ml →
  ∃ ts, Forall2 (λ v t, equal needle v = Ok t ∧ equal v needle = Ok t) l ts
    ∧ contains l needle = Ok (foldr or_ False_ ts).
Proof.
  intros Hwn Hkn Hwl Hkl. exists (map (value_equal mn) ml).
  assert (Forall2 (λ v t, equal needle v = Ok t ∧ equal v needle = Ok t) l (map (value_equal mn) ml)) as Hts.
  { clear -Hwn Hkn Hwl Hkl. induction Hkl as [|v m l ml Hv _ IH]; [constructor|].
    apply Forall_cons in Hwl as [Hwv Hwl]. constructor; [|auto]. split; [by apply equal_spec|].
    rewrite value_equal_sym. by apply equal_spec. }
  split; [done|]. unfold contains. destruct l as [|v l]; [by apply Forall2_nil_inv_l in Hts as ->|].
  rewrite (contains_from_or _ _ _ (map (value_equal mn) ml)); [by destruct (foldr _ _ _)|].
  eapply Forall2_impl; [exact Hts|]. by intros ? ? [? _].
Qed.
End ordering.
