(* ===== verification/EqualityKeyTheorems.v ===== *)
(** * Keys for grouping: theorems

    The key of a value is an injective code of its group form: the value with
    documents read, entities reduced to their identifiers, paths written as
    lists and numbers in one representation.  Grouping by key therefore agrees
    with equality. *)

From stdpp Require Import prelude gmap strings sorting.
From Stdlib Require Import ZArith Lia.
From S2P Require Import Prelude Machine Types Document DocumentCodec DocumentDecode DocumentTheorems Results ResultsTheorems Ordering OrderingTheorems OrderKey OrderCode OrderKeyTheorems Value ValueTheorems EqualityKey.

Local Open Scope Z_scope.
#[local] Set Warnings "-clear-no-such-hyp".

(** ** Floats and integers *)

Definition magnitude (e f : Z) : Z := if e =? 0 then f else (2 ^ 52 + f) * 2 ^ (e - 1).

Lemma magnitude_bounds e f : 0 ≤ e → 0 ≤ f < 2 ^ 52 → 0 ≤ magnitude e f < 2 ^ (52 + e).
Proof.
  intros He Hf. unfold magnitude. destruct (Z.eqb_spec e 0) as [->|Hn]; [lia|].
  pose proof (Z.pow_pos_nonneg 2 (e - 1) ltac:(lia) ltac:(lia)).
  replace (2 ^ (52 + e)) with (2 ^ 53 * 2 ^ (e - 1)) by (rewrite <- Z.pow_add_r by lia; f_equal; lia). nia.
Qed.

Lemma magnitude_lt e f e' f' :
  0 ≤ e < e' → 0 ≤ f < 2 ^ 52 → 0 ≤ f' < 2 ^ 52 → magnitude e f < magnitude e' f'.
Proof.
  intros He Hf Hf'. pose proof (proj2 (magnitude_bounds e f ltac:(lia) Hf)) as Hlt.
  unfold magnitude at 2. rewrite (proj2 (Z.eqb_neq e' 0)) by lia.
  assert (2 ^ (52 + e) ≤ 2 ^ (52 + (e' - 1))) as Hp by (apply Z.pow_le_mono_r; lia).
  rewrite (Z.pow_add_r 2 52 (e' - 1)) in Hp by lia. pose proof (Z.pow_pos_nonneg 2 (e' - 1) ltac:(lia) ltac:(lia)). nia.
Qed.

Lemma magnitude_inj e f e' f' :
  0 ≤ e → 0 ≤ e' → 0 ≤ f < 2 ^ 52 → 0 ≤ f' < 2 ^ 52 → magnitude e f = magnitude e' f' → e = e' ∧ f = f'.
Proof.
  intros He He' Hf Hf' Heq. assert (e = e') as <-.
  { destruct (Z.lt_trichotomy e e') as [Hl|[->|Hl]]; [|done|].
    - pose proof (magnitude_lt e f e' f' ltac:(lia) Hf Hf'). lia.
    - pose proof (magnitude_lt e' f' e f ltac:(lia) Hf' Hf). lia. }
  split; [done|]. unfold magnitude in Heq. destruct (Z.eqb_spec e 0); [done|].
  pose proof (Z.pow_pos_nonneg 2 (e - 1) ltac:(lia) ltac:(lia)). nia.
Qed.

Lemma f64_scaled_magnitude bits :
  f64_scaled bits = if f64_negative bits then - magnitude (f64_exponent bits) (f64_fraction bits)
                    else magnitude (f64_exponent bits) (f64_fraction bits).
Proof. done. Qed.

(** Only the two zeros share a value. *)
Lemma f64_scaled_inj a b :
  u64 a → u64 b → f64_scaled a = f64_scaled b → a = b ∨ f64_scaled a = 0.
Proof.
  intros Ha Hb. rewrite !f64_scaled_magnitude. intros Heq.
  destruct (float_fields a Ha) as (_ & _ & _ & Ea & Hea & Hfa).
  destruct (float_fields b Hb) as (_ & _ & _ & Eb & Heb & Hfb).
  pose proof (magnitude_bounds (f64_exponent a) (f64_fraction a) ltac:(lia) Hfa) as [H1 _].
  pose proof (magnitude_bounds (f64_exponent b) (f64_fraction b) ltac:(lia) Hfb) as [H2 _].
  assert (magnitude (f64_exponent a) (f64_fraction a) = magnitude (f64_exponent b) (f64_fraction b)
          ∧ (f64_negative a = f64_negative b ∨ magnitude (f64_exponent a) (f64_fraction a) = 0)) as [Hm Hs].
  { destruct (f64_negative a), (f64_negative b); split; try (by left); try lia; right; lia. }
  destruct Hs as [Hs|Hz]; [left|right; rewrite Hz; by destruct (f64_negative a)].
  apply magnitude_inj in Hm as [He Hf]; [|lia..]. rewrite Ea, Eb. by rewrite Hs, He, Hf.
Qed.

Lemma exact_integer v i :
  u64 v → f64_is_nan v = false → i64 i → f64_scaled v = i * 2 ^ 1074 → exactly_equivalent_integer v = Some i.
Proof.
  intros Hv Hn Hi Hs. unfold exactly_equivalent_integer, f64_fract_is_zero, f64_as_i64, TWO_TO_63.
  assert (0 < 2 ^ 1074) as Hp by (apply Z.pow_pos_nonneg; lia). unfold i64 in Hi.
  assert (f64_is_finite v = true) as ->.
  { unfold f64_is_finite. apply negb_true_iff, Z.eqb_neq. intros He.
    destruct (float_fields v Hv) as (_ & _ & _ & _ & _ & Hf). rewrite f64_scaled_magnitude, He in Hs.
    assert (2 ^ 63 * 2 ^ 1074 < magnitude 2047 (f64_fraction v)) as Hb.
    { unfold magnitude. cbn [Z.eqb]. change (2047 - 1) with (62 + 1 + 909 + 1074). rewrite !(Z.pow_add_r 2 _ 1074) by lia.
      assert (2 ^ 63 < (2 ^ 52 + f64_fraction v) * 2 ^ (62 + 1 + 909)); [|nia].
      assert (2 ^ 63 < 2 ^ (62 + 1 + 909)) by (apply Z.pow_lt_mono_r; lia). nia. }
    set (p := 2 ^ 1074) in *. set (m := magnitude _ _) in *. clearbody p m. destruct (f64_negative v); nia. }
  rewrite Hs. rewrite Z.mod_mul, Z.quot_mul by lia. cbn [Z.eqb andb].
  rewrite (proj2 (Z.leb_le _ _)), (proj2 (Z.ltb_lt _ _)); [done|..]; set (p := 2 ^ 1074) in *; clearbody p; nia.
Qed.

Lemma exact_integer_inv v i :
  exactly_equivalent_integer v = Some i → f64_scaled v = i * 2 ^ 1074 ∧ i64 i ∧ f64_is_nan v = false.
Proof.
  unfold exactly_equivalent_integer, f64_fract_is_zero, f64_as_i64, TWO_TO_63.
  assert (0 < 2 ^ 1074) as Hp by (apply Z.pow_pos_nonneg; lia).
  destruct (f64_is_finite v) eqn:Hf; [|done]. destruct (Z.eqb_spec (f64_scaled v mod 2 ^ 1074) 0) as [Hm|]; [|done].
  destruct (Z.leb_spec (- (2 ^ 63 * 2 ^ 1074)) (f64_scaled v)) as [Hl|]; [|done].
  destruct (Z.ltb_spec (f64_scaled v) (2 ^ 63 * 2 ^ 1074)) as [Hu|]; [|done]. cbn [andb]. intros [= <-].
  apply Z.div_exact in Hm; [|lia]. set (k := f64_scaled v / 2 ^ 1074) in *. rewrite Hm in *.
  rewrite (Z.mul_comm (2 ^ 1074)) in *. rewrite Z.quot_mul by lia. split_and!; [done| |].
  - unfold i64. set (p := 2 ^ 1074) in *. clearbody p k. nia.
  - unfold f64_is_finite in Hf. unfold f64_is_nan. apply negb_true_iff in Hf. by rewrite Hf.
Qed.

(** ** Group forms *)

Definition bare_node (id : Z) : ResultValue := ResNode (mkNode id Observed 0 [] []).
Definition bare_edge (id : Z) : ResultValue := ResRelationship (mkEdge id 0 0 [] Observed 0 []).

Fixpoint path_parts (ns : list ResultNode) (es : list ResultEdge) : list (ResultNode + ResultEdge) :=
  match ns with
  | [] => []
  | n :: ns => inl n :: match es with [] => [] | e :: es => inr e :: path_parts ns es end
  end.

Definition bare_part (p : ResultNode + ResultEdge) : ResultValue :=
  match p with inl n => bare_node (node_id n) | inr e => bare_edge (edge_id e) end.

(** One representation for every number. *)
Definition group_float (bits : Z) : ScalarValue :=
  match exactly_equivalent_integer bits with
  | Some i => ScalarInteger i
  | None => ScalarFloat (if f64_is_nan bits then f64_nan_bits else bits)
  end.

Fixpoint group_form (v : ResultValue) : ResultValue :=
  match v with
  | ResScalar (ScalarFloat bits) => ResScalar (group_float bits)
  | ResScalar s => ResScalar s
  | ResNode n => bare_node (node_id n)
  | ResRelationship e => bare_edge (edge_id e)
  | ResPath ns es => ResList (map bare_part (path_parts ns es))
  | ResVector vs => ResVector vs
  | ResList vs => ResList (map group_form vs)
  | ResMap vs => ResMap (map (λ '(k, v), (k, group_form v)) vs)
  end.

(** ** The code of a group form *)

Definition len_code (n : Z) : bytes := be_bytes 8 (default u64_max (u64_try_from n)).
Definition bytes_code (bs : bytes) : bytes := len_code (zlen bs) ++ bs.

Definition scalar_code (s : ScalarValue) : bytes :=
  match s with
  | ScalarNull => [0]
  | ScalarBoolean b => [1; Z.b2z b]
  | ScalarInteger x => 2 :: be_bytes 8 x
  | ScalarFloat bits => 3 :: be_bytes 8 bits
  | ScalarString s => 4 :: bytes_code s
  | ScalarBytes s => 5 :: bytes_code s
  | ScalarDate x => 6 :: be_bytes 8 x
  | ScalarLocalTime x => 7 :: be_bytes 8 x
  | ScalarZonedTime x y => 8 :: be_bytes 8 x ++ be_bytes 4 y
  | ScalarLocalDateTime x y => 9 :: be_bytes 8 x ++ be_bytes 4 y
  | ScalarZonedDateTime x y z => 10 :: be_bytes 8 x ++ be_bytes 4 y ++ bytes_code z
  | ScalarDuration m d s n => 11 :: be_bytes 8 m ++ be_bytes 8 d ++ be_bytes 8 s ++ be_bytes 4 n
  | ScalarList _ | ScalarMap _ => []
  end.

Fixpoint code (v : ResultValue) : bytes :=
  match v with
  | ResScalar s => scalar_code s
  | ResNode n => 16 :: be_bytes 8 (node_id n)
  | ResRelationship e => 17 :: be_bytes 8 (edge_id e)
  | ResPath _ _ => []
  | ResVector vs => 19 :: len_code (zlen vs) ++ flat_map (be_bytes 4) vs
  | ResList vs => 18 :: len_code (zlen vs) ++ flat_map code vs
  | ResMap vs => 20 :: len_code (zlen vs) ++ flat_map (λ '(k, v), bytes_code k ++ code v) vs
  end.

Definition group_code (v : ResultValue) : bytes := code (group_form v).

Lemma push_bytes_code out bs : push_bytes out bs = out ++ bytes_code bs.
Proof. unfold push_bytes, bytes_code, push_len. by rewrite <- (assoc_L (++)). Qed.

Lemma append_float_code out bits :
  u64 bits → append_float out bits = out ++ scalar_code (group_float bits).
Proof.
  intros Hb. unfold append_float, group_float. destruct (exactly_equivalent_integer bits) as [i|] eqn:Hi; [done|].
  destruct (f64_is_nan bits) eqn:Hn; [done|]. destruct (f64_is_zero bits) eqn:Hz; [|done].
  exfalso. rewrite (exact_integer bits 0) in Hi; [done|done|done|unfold i64; lia|].
  unfold f64_is_zero in Hz. apply andb_true_iff in Hz as [He Hf%Z.eqb_eq]. rewrite f64_scaled_magnitude.
  unfold magnitude. rewrite He, Hf. by destruct (f64_negative bits).
Qed.

(** ** The encoder writes the code *)

Lemma path_part_at ns es (i : nat) :
  path_valid ns es → (i < length ns + length es)%nat →
  ∃ p, path_parts ns es !! i = Some p
    ∧ match p with
      | inl n => (Z.of_nat i mod 2 =? 0) = true ∧ get ns (Z.of_nat i / 2) = Some n
      | inr e => (Z.of_nat i mod 2 =? 0) = false ∧ get es (Z.of_nat i / 2) = Some e
      end.
Proof.
  unfold path_valid. revert es i. induction ns as [|n ns IH]; intros es i Hv Hi; [done|].
  destruct i as [|[|i]]; [by exists (inl n)|..]; (destruct es as [|e es]; [cbn in *; lia|]); [by exists (inr e)|].
  destruct (IH es i) as (p & Hp & Hr); [cbn in *; lia..|]. exists p. split; [done|].
  assert (Z.of_nat (S (S i)) mod 2 = Z.of_nat i mod 2) as ->.
  { rewrite !Nat2Z.inj_succ. replace (Z.succ (Z.succ (Z.of_nat i))) with (Z.of_nat i + 1 * 2) by lia.
    by rewrite Z.mod_add. }
  assert (Z.of_nat (S (S i)) / 2 = Z.of_nat i / 2 + 1) as ->.
  { rewrite !Nat2Z.inj_succ. replace (Z.succ (Z.succ (Z.of_nat i))) with (Z.of_nat i + 1 * 2) by lia.
    by rewrite Z.div_add. }
  assert (∀ A (x : A) l k, 0 ≤ k → get (x :: l) (k + 1) = get l k) as Hget.
  { intros A x l k Hk. unfold get. rewrite !(proj2 (Z.ltb_ge _ _)) by lia.
    replace (Z.to_nat (k + 1)) with (S (Z.to_nat k)) by lia. done. }
  pose proof (Z.div_pos (Z.of_nat i) 2 ltac:(lia) ltac:(lia)).
  destruct p; rewrite Hget by done; done.
Qed.

Lemma length_path_parts ns es : path_valid ns es → length (path_parts ns es) = (length ns + length es)%nat.
Proof.
  unfold path_valid. revert es. induction ns as [|n ns IH]; intros [|e es] Hv; cbn in *; try lia.
  rewrite IH by lia. lia.
Qed.

Lemma append_path_code ns es count i out :
  path_valid ns es → (i + count = length ns + length es)%nat →
  append_path_from count (Z.of_nat i) out ns es
  = Ok (out ++ flat_map (λ p, code (bare_part p)) (drop i (path_parts ns es))).
Proof.
  intros Hv. pose proof (length_path_parts _ _ Hv) as Hl. revert i out.
  induction count as [|count IH]; intros i out Hi; cbn [append_path_from].
  - rewrite drop_ge by lia. cbn. by rewrite app_nil_r.
  - destruct (path_part_at ns es i Hv ltac:(lia)) as (p & Hp & Hi'). rewrite (drop_S _ _ _ Hp).
    cbn [flat_map]. rewrite (assoc_L (++)). replace (Z.of_nat i + 1) with (Z.of_nat (S i)) by lia.
    destruct p as [n|e]; destruct Hi' as [-> Hg]; unfold index_at; rewrite Hg; cbn; apply IH; lia.
Qed.

Lemma flat_map_map {A B C} (f : B → list C) (g : A → B) l : flat_map f (map g l) = flat_map (λ x, f (g x)) l.
Proof. induction l as [|x l IH]; [done|]. cbn. by rewrite IH. Qed.

Lemma push_len_code out tag n : push_len (out ++ [tag]) n = out ++ tag :: len_code n.
Proof. unfold push_len. by rewrite <- (assoc_L (++)). Qed.

Lemma Forall2_self {A} (P : A → A → Prop) l : Forall (λ x, P x x) l → Forall2 P l l.
Proof. induction 1; by constructor. Qed.

Section encoder.
Context `{Allocator}.

Lemma append_plain_scalar n out s :
  scalar_wf s → is_document s = false → append_scalar_rounds n out s = Ok (out ++ group_code (ResScalar s)).
Proof.
  intros Hw Hd. unfold group_code. destruct n, s; try done; cbn [append_scalar_rounds group_form code scalar_code];
    rewrite ?push_bytes_code, <- ?(assoc_L (++)), ?append_float_code by done; done.
Qed.

(** Sequences and maps, written after their lengths. *)
Lemma append_list_code {A} (f : bytes → A → Result bytes) (g : A → ResultValue) out l :
  Forall (λ x, ∀ out, f out x = Ok (out ++ group_code (g x))) l →
  append_all f (push_len (out ++ [18]) (zlen l)) l = Ok (out ++ group_code (ResList (map g l))).
Proof.
  intros Hl. rewrite push_len_code.
  rewrite (append_all_Ok f (λ x, group_code (g x)) _ l l) by (by apply Forall2_self).
  unfold group_code. cbn [group_form code]. by rewrite !zlen_map, !flat_map_map, <- (assoc_L (++)).
Qed.

Lemma append_map_code {A} (f : bytes → A → Result bytes) (g : A → ResultValue) out (l : list (bytes * A)) :
  Forall (λ p, ∀ out, f out p.2 = Ok (out ++ group_code (g p.2))) l →
  append_all (λ out '(name, value), f (push_bytes out name) value) (push_len (out ++ [20]) (zlen l)) l
  = Ok (out ++ group_code (ResMap (map (λ '(k, x), (k, g x)) l))).
Proof.
  intros Hl. rewrite push_len_code.
  rewrite (append_all_Ok _ (λ p, bytes_code p.1 ++ group_code (g p.2)) _ l l).
  - unfold group_code. cbn [group_form code]. rewrite !zlen_map, !flat_map_map, <- (assoc_L (++)). cbn [app].
    do 4 f_equal. clear. induction l as [|[k x] l IH]; [done|]. cbn. by rewrite IH.
  - apply Forall2_self. eapply Forall_impl; [exact Hl|]. intros [k x] Hx out'. cbn in *.
    by rewrite Hx, push_bytes_code, <- (assoc_L (++)).
Qed.

Lemma append_item_code n out v :
  item_wf v → document_free v = true →
  append_document_item (append_scalar_rounds n) out v = Ok (out ++ group_code (item_result v)).
Proof.
  revert out. induction v as [s|vs IH|vs IH] using DocumentItem_nested_ind; intros out Hw Hf.
  - inversion Hw; subst. cbn in Hf. apply negb_true_iff in Hf. by apply append_plain_scalar.
  - cbn [append_document_item item_result]. apply (append_list_code _ item_result). inversion Hw as [|? Hvs|]; subst.
    cbn [document_free] in Hf. apply forallb_Forall in Hf. rewrite Forall_forall in *. auto.
  - cbn [append_document_item item_result]. apply (append_map_code _ item_result). inversion Hw as [| |? _ Hvs]; subst.
    apply item_free_entries in Hf. rewrite Forall_forall in *. intros p Hp out'. apply IH; [done|by apply Hvs|by apply Hf].
Qed.

Lemma append_scalar_code out s m :
  scalar_wf s → from_property s = Ok m → append_scalar out s = Ok (out ++ group_code m).
Proof.
  intros Hw Hm. destruct (is_document s) eqn:Hd.
  - assert (∃ root document, s = scalar_of root document ∧ bytes_wf document) as (root & d & -> & Hb)
      by (destruct s; try done; [by exists RootList, document|by exists RootMap, document]).
    rewrite from_property_decode in Hm by done. pose proof (decode_post d root Hb) as Hp.
    destruct (decode d root) as [v|e|w] eqn:Hdec; try done. destruct Hp as ((Hwv & Hf & _) & Hr & _).
    cbn in Hm. injection Hm as <-. rewrite <- (append_item_code 0) by done. unfold append_scalar.
    destruct root, v as [s|vs|vs]; try done; cbn [scalar_of append_scalar_rounds];
      unfold DocumentList_items, DocumentMap_entries; rewrite Hdec; done.
  - unfold from_property in Hm. rewrite from_property_plain in Hm by done. injection Hm as <-.
    by apply append_plain_scalar.
Qed.

Lemma foldl_append_flat {A} (f : A → bytes) out l : foldl (λ out x, out ++ f x) out l = out ++ flat_map f l.
Proof. revert out. induction l as [|x l IH]; intros out; cbn; [by rewrite app_nil_r|]. by rewrite IH, (assoc_L (++)). Qed.

Lemma append_value_code v : ∀ m out,
  result_wf v → keyed v m → append_value out v = Ok (out ++ group_code m).
Proof.
  induction v as [s|n|e|ns es|vs|vs IH|vs IH] using ResultValue_nested_ind; intros m out Hw Hk.
  - inversion Hw; subst. cbn [append_value]. destruct Hk as (Hm & _). by apply append_scalar_code.
  - by destruct Hk as ([= <-] & _).
  - by destruct Hk as ([= <-] & _).
  - destruct Hk as ([= <-] & _ & He). cbn [encodable] in He. apply Nat.eqb_eq in He.
    inversion Hw as [| | |? ? _ _ Hn Hs| | |]; subst. cbn [append_value]. unfold saturating_add, zlen in *.
    rewrite Z.min_r by rlia. pose proof (append_path_code ns es (length ns + length es) 0
      (push_len (out ++ [18]) (Z.of_nat (length ns) + Z.of_nat (length es))) He ltac:(lia)) as Hp.
    replace (Z.to_nat _) with (length ns + length es)%nat by lia. change (Z.of_nat 0) with 0 in Hp.
    rewrite Hp, drop_0, push_len_code. unfold group_code. cbn [group_form code].
    rewrite zlen_map, flat_map_map, <- (assoc_L (++)). unfold zlen. rewrite length_path_parts by done.
    by rewrite Nat2Z.inj_add.
  - destruct Hk as ([= <-] & _). cbn [append_value]. rewrite foldl_append_flat, push_len_code, <- (assoc_L (++)). done.
  - destruct (keyed_list_inv vs m Hk) as (ms & -> & Hms). apply keyed_forms in Hms as [<- Hf].
    cbn [append_value]. apply (append_list_code _ form). inversion Hw as [| | | | |? Hvs|]; subst.
    rewrite Forall_forall in *. intros x Hx out'. apply IH; auto.
  - destruct (keyed_map_inv vs m Hw Hk) as (ms & -> & Hms). apply keyed_entry_forms in Hms as [<- Hf].
    cbn [append_value]. apply (append_map_code _ form). inversion Hw as [| | | | | |? _ Hvs]; subst.
    rewrite Forall_forall in *. intros p Hp out'. apply IH; [done|by apply Hvs|by apply Hf].
Qed.
End encoder.

(** ** The code is injective *)

Definition scalar_sized (s : ScalarValue) : bool :=
  match s with ScalarString s | ScalarBytes s | ScalarZonedDateTime _ _ s => zlen s <=? u64_max | _ => true end.

(** Lengths fit the 64-bit counts of the keys, as they do in any memory. *)
Fixpoint sized (v : ResultValue) : bool :=
  match v with
  | ResScalar s => scalar_sized s
  | ResVector vs => zlen vs <=? u64_max
  | ResList vs => (zlen vs <=? u64_max) && forallb sized vs
  | ResMap vs => (zlen vs <=? u64_max) && forallb (λ '(k, v), (zlen k <=? u64_max) && sized v) vs
  | _ => true
  end.

#[local] Unset Elimination Schemes.
Inductive coded : ResultValue → Prop :=
| coded_scalar s : scalar_wf s → scalar_sized s = true → is_document s = false → coded (ResScalar s)
| coded_node id : u64 id → coded (bare_node id)
| coded_edge id : u64 id → coded (bare_edge id)
| coded_vector vs : Forall u32 vs → zlen vs ≤ u64_max → coded (ResVector vs)
| coded_list vs : zlen vs ≤ u64_max → Forall coded vs → coded (ResList vs)
| coded_map vs : zlen vs ≤ u64_max → Forall (λ p, zlen p.1 ≤ u64_max ∧ coded p.2) vs → coded (ResMap vs).
#[local] Set Elimination Schemes.

Lemma be_app n x y s t : be_bytes n x ++ s = be_bytes n y ++ t → be_bytes n x = be_bytes n y ∧ s = t.
Proof. intros E. apply app_inj_1 in E; [done|]. by rewrite !length_be_bytes. Qed.

Lemma be_rev n x y : be_bytes n x = be_bytes n y → le_bytes n x = le_bytes n y.
Proof. unfold be_bytes. intros E. by rewrite <- (rev_involutive (le_bytes n x)), E, rev_involutive. Qed.

Lemma be_u64 x y s t : u64 x → u64 y → be_bytes 8 x ++ s = be_bytes 8 y ++ t → x = y ∧ s = t.
Proof. intros Hx Hy [E ->]%be_app. apply be_rev in E. by rewrite <- (from_le_8 x Hx), E, from_le_8. Qed.
Lemma be_u32 x y s t : u32 x → u32 y → be_bytes 4 x ++ s = be_bytes 4 y ++ t → x = y ∧ s = t.
Proof. intros Hx Hy [E ->]%be_app. apply be_rev in E. by rewrite <- (from_le_4 x Hx), E, from_le_4. Qed.
Lemma be_i64 x y s t : i64 x → i64 y → be_bytes 8 x ++ s = be_bytes 8 y ++ t → x = y ∧ s = t.
Proof. intros Hx Hy [E ->]%be_app. apply be_rev in E. by rewrite <- (from_le_signed_8 x Hx), E, from_le_signed_8. Qed.
Lemma be_i32 x y s t : i32 x → i32 y → be_bytes 4 x ++ s = be_bytes 4 y ++ t → x = y ∧ s = t.
Proof. intros Hx Hy [E ->]%be_app. apply be_rev in E. by rewrite <- (from_le_signed_4 x Hx), E, from_le_signed_4. Qed.

Lemma len_code_inj m n s t :
  0 ≤ m ≤ u64_max → 0 ≤ n ≤ u64_max → len_code m ++ s = len_code n ++ t → m = n ∧ s = t.
Proof.
  intros Hm Hn. unfold len_code, u64_try_from. rewrite !(proj2 (Z.leb_le _ _)) by lia. cbn [default].
  apply be_u64; unfold u64, u64_max in *; lia.
Qed.

Lemma bytes_code_inj a b s t :
  zlen a ≤ u64_max → zlen b ≤ u64_max → bytes_code a ++ s = bytes_code b ++ t → a = b ∧ s = t.
Proof.
  intros Ha Hb. unfold bytes_code. rewrite <- !(assoc_L (++)).
  intros [Hl E]%len_code_inj; [|split; [apply zlen_nonneg|done]..].
  apply app_inj_1 in E; [done|]. unfold zlen in Hl. lia.
Qed.

(** Reads the fields at the head of two equal codes. *)
Ltac code_fields E :=
  repeat match type of E with
  | be_bytes 8 ?x ++ _ = be_bytes 8 ?y ++ _ =>
      first [apply (be_i64 x y) in E as [? E]; [|assumption..]|apply (be_u64 x y) in E as [? E]; [|assumption..]]
  | be_bytes 4 ?x ++ _ = be_bytes 4 ?y ++ _ =>
      first [apply (be_i32 x y) in E as [? E]; [|assumption..]|apply (be_u32 x y) in E as [? E]; [|assumption..]]
  | bytes_code ?x ++ _ = bytes_code ?y ++ _ => apply (bytes_code_inj x y) in E as [? E]; [|assumption..]
  end.

Lemma scalar_code_inj l r s t :
  scalar_wf l → scalar_wf r → scalar_sized l = true → scalar_sized r = true →
  is_document l = false → is_document r = false →
  scalar_code l ++ s = scalar_code r ++ t → l = r ∧ s = t.
Proof.
  intros Hl Hr Hsl Hsr Hdl Hdr E.
  destruct l, r; try discriminate Hdl; try discriminate Hdr; cbn [scalar_code app scalar_sized scalar_wf] in *;
    rewrite ?Z.leb_le in *; rewrite <- ?(assoc_L (++)) in E; try (discriminate (f_equal head E));
    apply (f_equal tail) in E; cbn [tail] in E; repeat match goal with H : _ ∧ _ |- _ => destruct H end;
    code_fields E; subst; try (split; reflexivity).
  injection E as E ->. by destruct b, b0.
Qed.

(** Codes of the same number of parts, one after the other. *)
Lemma flat_map_inj {A} (f : A → bytes) l k s t :
  Forall (λ x, ∀ y s t, y ∈ k → f x ++ s = f y ++ t → x = y ∧ s = t) l → length l = length k →
  flat_map f l ++ s = flat_map f k ++ t → l = k ∧ s = t.
Proof.
  intros Hl. revert k s t Hl. induction l as [|x l IH]; intros [|y k] s t Hl Hn E; try done.
  cbn [flat_map] in E. rewrite <- !(assoc_L (++)) in E. apply Forall_cons in Hl as [Hx Hl].
  apply Hx in E as [-> E]; [|constructor]. apply IH in E as [-> ->]; [done| |by injection Hn].
  eapply Forall_impl; [exact Hl|]. intros z Hz w s' t' Hw. apply Hz. by constructor.
Qed.

Lemma scalar_code_tag s : is_document s = false → ∃ k t, scalar_code s = k :: t ∧ k ≤ 11.
Proof. intros Hd. destruct s; try done; eexists _, _; (split; [reflexivity|lia]). Qed.

Lemma scalar_tag_clash l s tag t : is_document l = false → 11 < tag → scalar_code l ++ s ≠ tag :: t.
Proof. intros Hd Ht E. destruct (scalar_code_tag l Hd) as (k & t' & El & Hk). rewrite El in E. injection E as -> _. lia. Qed.

Lemma code_inj a : ∀ b s t, coded a → coded b → code a ++ s = code b ++ t → a = b ∧ s = t.
Proof.
  induction a as [l|n|e|ns es|vs|vs IH|vs IH] using ResultValue_nested_ind; intros b s t Ha Hb E;
    inversion Ha as [? Hw Hz Hd|? Hid|? Hid|? Hvs Hz|? Hz Hvs|? Hz Hvs]; subst;
    inversion Hb as [? Hw' Hz' Hd'|? Hid'|? Hid'|? Hvs' Hz'|? Hz' Hvs'|? Hz' Hvs']; subst;
    try (destruct (scalar_code_inj l s0 s t) as [-> ->]; done);
    try (exfalso; cbn [code app bare_node bare_edge] in E;
         first [by eapply (scalar_tag_clash l); [done| |exact E]|by eapply (scalar_tag_clash s0); [done| |symmetry; exact E]]);
    try (exfalso; discriminate (f_equal head E)); apply (f_equal tail) in E; cbn [code app tail bare_node bare_edge node_id edge_id] in E.
  - apply be_u64 in E as [-> ->]; done.
  - apply be_u64 in E as [-> ->]; done.
  - rewrite <- !(assoc_L (++)) in E. apply len_code_inj in E as [Hl E]; [|split; [apply zlen_nonneg|done]..].
    apply flat_map_inj in E as [-> ->]; [done| |unfold zlen in Hl; lia].
    rewrite Forall_forall in *. intros x Hx y s' t' Hy. apply be_u32; auto.
  - rewrite <- !(assoc_L (++)) in E. apply len_code_inj in E as [Hl E]; [|split; [apply zlen_nonneg|done]..].
    apply flat_map_inj in E as [-> ->]; [done| |unfold zlen in Hl; lia].
    rewrite Forall_forall in *. intros x Hx y s' t' Hy. apply IH; auto.
  - rewrite <- !(assoc_L (++)) in E. apply len_code_inj in E as [Hl E]; [|split; [apply zlen_nonneg|done]..].
    apply flat_map_inj in E as [-> ->]; [done| |unfold zlen in Hl; lia].
    rewrite Forall_forall in *. intros [k x] Hx [k' y] s' t' Hy Ec. rewrite <- !(assoc_L (++)) in Ec.
    destruct (Hvs _ Hx) as [? ?], (Hvs' _ Hy) as [? ?]. cbn in *.
    apply bytes_code_inj in Ec as [-> Ec]; [|done..].
    pose proof (IH _ Hx y s' t' ltac:(done) ltac:(done) Ec) as [Ex ->]. cbn in Ex. by subst.
Qed.

Lemma group_float_coded bits : u64 bits → coded (ResScalar (group_float bits)).
Proof.
  intros Hb. unfold group_float. destruct (exactly_equivalent_integer bits) as [i|] eqn:Hi.
  - apply exact_integer_inv in Hi as (_ & Hi & _). by constructor.
  - constructor; [|done|done]. cbn. destruct (f64_is_nan bits); [|done]. unfold u64, f64_nan_bits. lia.
Qed.

Lemma group_form_coded v :
  result_wf v → encodable v = true → sized v = true → coded (group_form v).
Proof.
  induction v as [s|n|e|ns es|vs|vs IH|vs IH] using ResultValue_nested_ind; intros Hw He Hs.
  - inversion Hw; subst. cbn in He. apply negb_true_iff in He.
    destruct s; try (by constructor). by apply group_float_coded.
  - inversion Hw; subst. by constructor.
  - inversion Hw; subst. by constructor.
  - inversion Hw as [| | |? ? Hns Hes Hn Hz| | |]; subst. cbn in He. apply Nat.eqb_eq in He. cbn [group_form]. constructor.
    + rewrite zlen_map. unfold zlen in *. rewrite length_path_parts by done. rlia.
    + apply Forall_map. clear -Hns Hes. revert es Hes. induction Hns as [|n ns Hn Hns IH]; intros es Hes; [constructor|].
      constructor; [by constructor|]. destruct Hes as [|e es He Hes]; constructor; [by constructor|auto].
  - inversion Hw; subst. cbn in Hs. apply Z.leb_le in Hs. by constructor.
  - inversion Hw as [| | | | |? Hvs|]; subst. cbn [sized encodable] in *. apply andb_true_iff in Hs as [Hz%Z.leb_le Hs].
    apply forallb_Forall in Hs, He. cbn [group_form]. constructor; [by rewrite zlen_map|]. apply Forall_map.
    rewrite Forall_forall in *. cbn. auto.
  - inversion Hw as [| | | | | |? _ Hvs]; subst. apply encodable_entries in He as [_ He]. cbn [sized] in Hs.
    apply andb_true_iff in Hs as [Hz%Z.leb_le Hs]. apply forallb_Forall in Hs. cbn [group_form].
    constructor; [by rewrite zlen_map|]. apply Forall_map. rewrite Forall_forall in *. intros [k v] Hp. cbn.
    specialize (Hs _ Hp). cbn in Hs. apply andb_true_iff in Hs as [Hk%Z.leb_le Hs].
    split; [done|]. apply (IH _ Hp); [by apply (Hvs (k, v))|by apply (He (k, v))|done].
Qed.

Lemma group_code_inj a b :
  result_wf a → result_wf b → encodable a = true → encodable b = true → sized a = true → sized b = true →
  group_code a = group_code b → group_form a = group_form b.
Proof.
  intros Hwa Hwb Hea Heb Hsa Hsb E.
  apply (code_inj (group_form a) (group_form b) [] []); [by apply group_form_coded..|]. by rewrite !app_nil_r.
Qed.

(** ** Equality and group forms *)

Fixpoint null_free (v : ResultValue) : bool :=
  match v with
  | ResScalar s => match s with ScalarNull => false | _ => true end
  | ResList vs => forallb null_free vs
  | ResMap vs => forallb (λ '(_, v), null_free v) vs
  | _ => true
  end.

Fixpoint nan_free (v : ResultValue) : bool :=
  match v with
  | ResScalar s => negb (scalar_is_nan s)
  | ResList vs => forallb nan_free vs
  | ResMap vs => forallb (λ '(_, v), nan_free v) vs
  | _ => true
  end.

(** The entities on the paths of a value. *)
Fixpoint path_nodes (v : ResultValue) : list ResultNode :=
  match v with
  | ResPath ns _ => ns
  | ResList vs => flat_map path_nodes vs
  | ResMap vs => flat_map (λ '(_, v), path_nodes v) vs
  | _ => []
  end.
Fixpoint path_edges (v : ResultValue) : list ResultEdge :=
  match v with
  | ResPath _ es => es
  | ResList vs => flat_map path_edges vs
  | ResMap vs => flat_map (λ '(_, v), path_edges v) vs
  | _ => []
  end.

(** Two values of one snapshot of the graph: an identifier stands for one
    entity. *)
Definition one_snapshot (a b : ResultValue) : Prop :=
  (∀ n n', n ∈ path_nodes a → n' ∈ path_nodes b → node_id n = node_id n' → n = n')
  ∧ (∀ e e', e ∈ path_edges a → e' ∈ path_edges b → edge_id e = edge_id e' → e = e').

Section grouping.
Context `{OrderedFloatOrd}.

Lemma is_eq_true c : is_eq c = true ↔ c = Eq.
Proof. by destruct c. Qed.

Lemma scalars_equal_group l r :
  scalar_wf l → scalar_wf r → scalars_equal l r = True_ →
  group_form (ResScalar l) = group_form (ResScalar r).
Proof.
  intros Hl Hr. unfold scalars_equal.
  assert (∀ s s' : ScalarValue, match (if negb (scalar_family s =? scalar_family s') then Ok False_
      else Ok (if scalar_is_nan s || scalar_is_nan s' then False_ else if scalar_eq s s' then True_ else False_)) : Result Truth with
      | Ok t => t | _ => False_ end = True_ → scalar_is_nan s = false ∧ scalar_is_nan s' = false ∧ scalar_eq s s' = true) as Hgen.
  { intros s s'. destruct (negb _); [done|]. destruct (scalar_is_nan s), (scalar_is_nan s'), (scalar_eq s s'); done. }
  destruct l, r; cbn [equal_scalars];
    try (intros (_ & _ & Heq)%Hgen; cbn in Heq; apply bool_decide_eq_true in Heq; by simplify_eq).
  - destruct (f64_is_nan bits) eqn:Hn; [done|]. rewrite compare_i64_f64_spec, Hn by done. cbn. intros Heq.
    destruct (x * 2 ^ 1074 ?= f64_scaled bits) eqn:E; try done. apply Z.compare_eq in E.
    unfold group_float. by rewrite (exact_integer bits x).
  - destruct (f64_is_nan bits) eqn:Hn; [done|]. rewrite compare_i64_f64_spec, Hn by done. cbn. intros Heq.
    destruct (x * 2 ^ 1074 ?= f64_scaled bits) eqn:E; try done. apply Z.compare_eq in E.
    unfold group_float. by rewrite (exact_integer bits x).
  - intros (Hn & Hn' & Heq)%Hgen. cbn in Hn, Hn', Heq. apply is_eq_true in Heq. rewrite ordered_float_cmp_spec, Hn, Hn' in Heq.
    apply Z.compare_eq in Heq. cbn [group_form]. f_equal. unfold group_float.
    destruct (f64_scaled_inj bits bits0 Hl Hr Heq) as [->|Hz]; [done|].
    rewrite (exact_integer bits 0), (exact_integer bits0 0); try done; try (unfold i64; lia); cbn; congruence.
Qed.

Lemma group_scalars_equal l r :
  scalar_wf l → scalar_wf r → is_document l = false → is_document r = false →
  scalar_is_nan l = false → is_null (ResScalar l) = false →
  group_form (ResScalar l) = group_form (ResScalar r) → scalars_equal l r = True_.
Proof.
  intros Hl Hr Hdl Hdr Hn Hnull Hg. unfold scalars_equal.
  assert (∀ bits, scalar_is_nan (ScalarFloat bits) = false → group_float bits = ScalarFloat bits
    ∨ ∃ i, group_float bits = ScalarInteger i ∧ f64_scaled bits = i * 2 ^ 1074 ∧ f64_is_nan bits = false) as Hfloat.
  { intros bits Hb. unfold group_float. destruct (exactly_equivalent_integer bits) as [i|] eqn:Hi.
    - right. exists i. apply exact_integer_inv in Hi as (? & _ & ?). done.
    - left. cbn in Hb. by rewrite Hb. }
  assert (∀ bits x, group_float bits = ScalarInteger x → f64_scaled bits = x * 2 ^ 1074 ∧ f64_is_nan bits = false) as Hint.
  { intros bits x Hx. unfold group_float in Hx. destruct (exactly_equivalent_integer bits) as [i|] eqn:Hi; [|done].
    apply exact_integer_inv in Hi as (? & _ & ?). by simplify_eq. }
  destruct l, r; try done; cbn [group_form] in Hg; simplify_eq; cbn [equal_scalars scalar_family Z.eqb Pos.eqb negb scalar_is_nan orb scalar_eq];
    try (by rewrite bool_decide_eq_true_2 by done); try (unfold group_float in Hg; by case_match).
  - symmetry in Hg. apply Hint in Hg as [Hs Hn']. rewrite Hn', compare_i64_f64_spec, Hn', Hs, Z.compare_refl by done. done.
  - apply Hint in Hg as [Hs Hn']. rewrite Hn', compare_i64_f64_spec, Hn', Hs, Z.compare_refl by done. done.
  - cbn in Hn. rewrite Hn. cbn [orb].
    assert (f64_is_nan bits0 = false ∧ f64_scaled bits = f64_scaled bits0) as [Hn' Hs].
    { destruct (Hfloat bits Hn) as [E|(i & E & Hs & _)]; rewrite E in Hg.
      - unfold group_float in Hg. destruct (exactly_equivalent_integer bits0); [done|]. injection Hg as Hg.
        destruct (f64_is_nan bits0) eqn:Hn0; [|by subst]. subst bits. done.
      - symmetry in Hg. apply Hint in Hg as [Hs' ?]. split; [done|congruence]. }
    rewrite Hn'. by rewrite ordered_float_cmp_spec, Hn, Hn', Hs, Z.compare_refl.
Qed.

Lemma properties_eq_refl l : properties_eq l l = true.
Proof.
  induction l as [|[k v] l IH]; [done|]. cbn. rewrite IH, bool_decide_eq_true_2 by done.
  assert (scalar_eq v v = true) as ->; [|done]. destruct v; cbn [scalar_eq]; try (by rewrite bool_decide_eq_true_2).
  rewrite ordered_float_cmp_spec. destruct (f64_is_nan bits); [done|]. by rewrite Z.compare_refl.
Qed.

Lemma node_eq_refl n : node_eq n n = true.
Proof. unfold node_eq. by rewrite !Z.eqb_refl, !bool_decide_eq_true_2, properties_eq_refl by done. Qed.

Lemma edge_eq_refl e : edge_eq e e = true.
Proof. unfold edge_eq. by rewrite !Z.eqb_refl, !bool_decide_eq_true_2, properties_eq_refl by done. Qed.

Lemma all_eq_ids {A} (eq : A → A → bool) (id : A → Z) l k :
  (∀ x y, eq x y = true → id x = id y) → all_eq eq l k = true → map id l = map id k.
Proof.
  intros Hid. revert k. induction l as [|x l IH]; intros [|y k]; cbn; try done.
  intros [Hx Hl]%andb_true_iff. f_equal; auto.
Qed.

Lemma all_eq_same {A} (eq : A → A → bool) (id : A → Z) l k :
  (∀ x, eq x x = true) → (∀ x y, x ∈ l → y ∈ k → id x = id y → x = y) → map id l = map id k → all_eq eq l k = true.
Proof.
  intros Hrefl. revert k. induction l as [|x l IH]; intros [|y k] Hid; cbn; try done. intros [= Hx Hl].
  rewrite (Hid x y) by (done || constructor). rewrite Hrefl. apply IH; [|done].
  intros x' y' Hx' Hy'. apply Hid; by constructor.
Qed.

Lemma bare_parts_ids ns es ns' es' :
  map node_id ns = map node_id ns' → map edge_id es = map edge_id es' →
  map bare_part (path_parts ns es) = map bare_part (path_parts ns' es').
Proof.
  revert es ns' es'. induction ns as [|n ns IH]; intros es [|n' ns'] es'; cbn; try done. intros [= Hn Hns] Hes.
  rewrite Hn. f_equal. destruct es, es'; try done. cbn in *. injection Hes as He Hes. rewrite He. f_equal. auto.
Qed.

Lemma bare_parts_inj ns es ns' es' :
  path_valid ns es → path_valid ns' es' →
  map bare_part (path_parts ns es) = map bare_part (path_parts ns' es') →
  map node_id ns = map node_id ns' ∧ map edge_id es = map edge_id es'.
Proof.
  unfold path_valid. revert es ns' es'. induction ns as [|n ns IH]; intros es [|n' ns'] es' Hv Hv'; cbn in *; try lia.
  intros [= Hn E]. destruct es as [|e es], es' as [|e' es']; cbn in *; try done.
  - destruct ns, ns'; cbn in *; try lia. by rewrite Hn.
  - injection E as He E. destruct (IH es ns' es') as [-> ->]; [lia|lia|done|]. by rewrite Hn, He.
Qed.

Lemma group_bare_part v p :
  group_form v = bare_part p ↔
  match p with
  | inl n => match v with ResNode m => node_id m =? node_id n | _ => false end = true
  | inr e => match v with ResRelationship m => edge_id m =? edge_id e | _ => false end = true
  end.
Proof.
  destruct p as [n|e], v as [s|m|m|ns es|vs|vs|vs]; cbn; rewrite ?Z.eqb_eq; try (destruct s); cbn; split;
    try done; try (intros [=]; done); by intros ->.
Qed.

Lemma path_list_from_parts ns es i vs :
  path_valid ns es → (i + length vs = length ns + length es)%nat →
  path_list_from (Z.of_nat i) ns es vs ≠ Unknown
  ∧ (path_list_from (Z.of_nat i) ns es vs = True_ ↔ map group_form vs = map bare_part (drop i (path_parts ns es))).
Proof.
  intros Hv. pose proof (length_path_parts _ _ Hv) as Hl. revert i. induction vs as [|v vs IH]; intros i Hi; cbn in Hi.
  { rewrite drop_ge by lia. done. }
  destruct (path_part_at ns es i Hv ltac:(lia)) as (p & Hp & Hi'). rewrite (drop_S _ _ _ Hp). cbn [path_list_from map].
  replace (Z.of_nat i + 1) with (Z.of_nat (S i)) by lia. destruct (IH (S i) ltac:(lia)) as [IHu IHt].
  pose proof (group_bare_part v p) as Hg.
  destruct p as [n|e]; destruct Hi' as [-> ->]; (destruct (match v with ResScalar _ => _ | _ => _ end) eqn:Ev;
    [split; [done|]; rewrite IHt; split; [intros ->; f_equal; by apply Hg|by intros [= _ ->]]|
     split; [done|]; split; [done|]; intros [= E _]; apply Hg in E; congruence]).
Qed.

Lemma path_list_equal_parts ns es vs :
  path_valid ns es → zlen ns ≤ isize_max → zlen es ≤ isize_max →
  path_list_equal ns es vs ≠ Unknown
  ∧ (path_list_equal ns es vs = True_ ↔ map group_form vs = map bare_part (path_parts ns es)).
Proof.
  intros Hv Hn He. pose proof (length_path_parts _ _ Hv) as Hl. unfold path_list_equal, saturating_add.
  unfold path_valid, zlen in *. rewrite !Z.min_r by rlia.
  replace (Z.of_nat (length ns) =? Z.of_nat (length es) + 1) with true by (symmetry; apply Z.eqb_eq; lia).
  rewrite orb_false_r.
  destruct (Z.eqb_spec (Z.of_nat (length vs)) (Z.of_nat (length ns) + Z.of_nat (length es))) as [Hz|Hz]; cbn [negb].
  - pose proof (path_list_from_parts ns es 0 vs Hv ltac:(lia)) as Hp. by rewrite drop_0 in Hp.
  - split; [done|]. split; [done|]. intros E. apply (f_equal length) in E. rewrite !length_map in E. lia.
Qed.

Lemma truth_all_true {A B} (f : A → B → Truth) l k :
  length l = length k → truth_all f l k = True_ → Forall2 (λ x y, f x y = True_) l k.
Proof.
  revert k. induction l as [|x l IH]; intros [|y k] Hl; try done. cbn [truth_all].
  intros E. constructor; [by destruct (f x y), (truth_all f l k)|]. apply IH; [by injection Hl|]. by destruct (f x y), (truth_all f l k).
Qed.

Lemma Forall2_map_eq {A B C} (f : A → C) (g : B → C) l k : Forall2 (λ x y, f x = g y) l k → map f l = map g k.
Proof. induction 1 as [|x y l k E _ IH]; [done|]. cbn. by rewrite E, IH. Qed.

(** Equal values have the same group form. *)
Lemma value_equal_group a : ∀ b,
  result_wf a → result_wf b → encodable a = true → encodable b = true →
  value_equal a b = True_ → group_form a = group_form b.
Proof.
  induction a as [s|n|e|ns es|vs|vs IH|vs IH] using ResultValue_nested_ind;
    intros [s'|n'|e'|ns' es'|vs'|vs'|vs'] Hwa Hwb Hea Heb E; cbn [value_equal] in E;
    (destruct (is_null _ || is_null _); [done|]); try done.
  - inversion Hwa; inversion Hwb; subst. by apply scalars_equal_group.
  - cbn. destruct (Z.eqb_spec (node_id n) (node_id n')) as [->|]; done.
  - cbn. destruct (Z.eqb_spec (edge_id e) (edge_id e')) as [->|]; done.
  - destruct (all_eq node_eq ns ns') eqn:Hn; [|done]. destruct (all_eq edge_eq es es') eqn:He; [|done].
    cbn [group_form]. f_equal. apply bare_parts_ids.
    + eapply all_eq_ids; [|exact Hn]. intros x y Hxy. unfold node_eq in Hxy. apply Z.eqb_eq. by destruct (node_id x =? node_id y).
    + eapply all_eq_ids; [|exact He]. intros x y Hxy. unfold edge_eq in Hxy. apply Z.eqb_eq. by destruct (edge_id x =? edge_id y).
  - cbn in Hea. apply Nat.eqb_eq in Hea. inversion Hwa; subst. cbn [group_form]. f_equal. symmetry.
    by apply path_list_equal_parts.
  - rewrite vector_equal_eq in E. case_bool_decide; [by subst|done].
  - cbn in Heb. apply Nat.eqb_eq in Heb. inversion Hwb; subst. cbn [group_form]. f_equal. by apply path_list_equal_parts.
  - destruct (Z.eqb_spec (zlen vs) (zlen vs')) as [Hz|]; [|done]. apply truth_all_true in E; [|unfold zlen in Hz; lia].
    inversion Hwa as [| | | | |? Hva|]; inversion Hwb as [| | | | |? Hvb|]; subst. cbn [encodable] in *.
    apply forallb_Forall in Hea, Heb. cbn [group_form]. f_equal. apply Forall2_map_eq. clear Hwa Hwb Hz.
    induction E as [|x y vs vs' Hxy _ IHvs]; [constructor|]. repeat match goal with H : Forall _ (_ :: _) |- _ => apply Forall_cons in H as [? ?] end.
    constructor; auto.
  - destruct (Z.eqb_spec (zlen vs) (zlen vs')) as [Hz|]; [|done]. cbn [andb] in E. case_bool_decide as Hk; [|done].
    apply truth_all_true in E; [|unfold zlen in Hz; lia].
    inversion Hwa as [| | | | | |? _ Hva]; inversion Hwb as [| | | | | |? _ Hvb]; subst.
    apply encodable_entries in Hea as [_ Hea], Heb as [_ Heb]. cbn [group_form]. f_equal. apply Forall2_map_eq. clear Hwa Hwb Hz.
    induction E as [|[k x] [k' y] vs vs' Hxy _ IHvs]; [constructor|].
    repeat match goal with H : Forall _ (_ :: _) |- _ => apply Forall_cons in H as [? ?] end.
    injection Hk as -> Hk. cbn in *. constructor; [|auto]. f_equal. naive_solver.
Qed.

Lemma is_null_group v : is_null (group_form v) = is_null v.
Proof.
  destruct v as [s| | | | | |]; try done. destruct s; try done. cbn. unfold group_float. by destruct (exactly_equivalent_integer bits).
Qed.

Lemma null_free_group v : null_free (group_form v) = null_free v.
Proof.
  induction v as [s|n|e|ns es|vs|vs IH|vs IH] using ResultValue_nested_ind; try done.
  - destruct s; try done. cbn. unfold group_float. by destruct (exactly_equivalent_integer bits).
  - cbn. revert es. induction ns as [|n ns IH]; intros es; [done|]. destruct es as [|e es]; [done|]. cbn. apply IH.
  - cbn. induction IH as [|x vs Hx _ IHvs]; [done|]. cbn. by rewrite Hx, IHvs.
  - cbn. induction IH as [|[k x] vs Hx _ IHvs]; [done|]. cbn in *. by rewrite Hx, IHvs.
Qed.

Lemma truth_all_nulls {A B} (f : A → B → Truth) (p : A → bool) l k :
  Forall2 (λ x y, f x y = if p x then True_ else Unknown) l k →
  truth_all f l k = if forallb p l then True_ else Unknown.
Proof. induction 1 as [|x y l k E _ IH]; [done|]. cbn. rewrite E, IH. by destruct (p x), (forallb p l). Qed.

Lemma elem_of_flat_map {A B} (f : A → list B) x y l : y ∈ f x → x ∈ l → y ∈ flat_map f l.
Proof.
  intros Hy Hx. induction l as [|z l IH]; [by apply elem_of_nil in Hx|]. cbn.
  apply elem_of_app. apply elem_of_cons in Hx as [->|Hx]; auto.
Qed.

(** Values with the same group form are equal, but for nulls and NaNs. *)
Lemma group_value_equal a : ∀ b,
  result_wf a → result_wf b → encodable a = true → encodable b = true → one_snapshot a b → nan_free a = true →
  group_form a = group_form b → value_equal a b = if null_free a then True_ else Unknown.
Proof.
  induction a as [s|n|e|ns es|vs|vs IH|vs IH] using ResultValue_nested_ind;
    intros b Hwa Hwb Hea Heb [Hsn Hse] Hnan Hg;
    pose proof (is_null_group b) as Hnb; rewrite <- Hg, is_null_group in Hnb.
  - destruct b as [s'|n'|e'|ns' es'|vs'|vs'|vs']; try (by destruct s); try (cbn in Hg; destruct s; cbn in Hg; done).
    cbn [value_equal]. rewrite <- Hnb, orb_diag. destruct (is_null (ResScalar s)) eqn:Hnull; [by destruct s|].
    replace (null_free (ResScalar s)) with true by (by destruct s). inversion Hwa; inversion Hwb; subst. cbn in Hea, Heb, Hnan.
    apply negb_true_iff in Hea, Heb, Hnan. by apply group_scalars_equal.
  - destruct b as [s'|n'|e'|ns' es'|vs'|vs'|vs']; try done; [by destruct s'|]. cbn in Hg. injection Hg as Hg. cbn. by rewrite Hg, Z.eqb_refl.
  - destruct b as [s'|n'|e'|ns' es'|vs'|vs'|vs']; try done; [by destruct s'|]. cbn in Hg. injection Hg as Hg. cbn. by rewrite Hg, Z.eqb_refl.
  - cbn in Hea. apply Nat.eqb_eq in Hea. inversion Hwa as [| | |? ? _ _ Hzn Hze| | |]; subst.
    destruct b as [s'|n'|e'|ns' es'|vs'|vs'|vs']; try done; [by destruct s'|..]; cbn [group_form] in Hg; injection Hg as Hg.
    + cbn in Heb. apply Nat.eqb_eq in Heb. apply bare_parts_inj in Hg as [Hn He]; [|done..]. cbn.
      rewrite (all_eq_same node_eq node_id ns ns' node_eq_refl Hsn Hn), (all_eq_same edge_eq edge_id es es' edge_eq_refl Hse He). done.
    + cbn. by apply path_list_equal_parts.
  - destruct b as [s'|n'|e'|ns' es'|vs'|vs'|vs']; try done; [by destruct s'|]. cbn in Hg. injection Hg as ->. cbn.
    by rewrite vector_equal_eq, bool_decide_eq_true_2.
  - destruct b as [s'|n'|e'|ns' es'|vs'|vs'|vs']; try done; [by destruct s'|..]; pose proof Hg as Hg'; cbn [group_form] in Hg; injection Hg as Hg.
    + cbn in Heb. apply Nat.eqb_eq in Heb. inversion Hwb; subst.
      rewrite <- null_free_group, Hg', null_free_group. cbn. by apply path_list_equal_parts.
    + assert (length vs = length vs') as Hl by (apply (f_equal length) in Hg; by rewrite !length_map in Hg).
      cbn [value_equal is_null orb]. rewrite (proj2 (Z.eqb_eq _ _)) by (unfold zlen; by rewrite Hl).
      inversion Hwa as [| | | | |? Hva|]; inversion Hwb as [| | | | |? Hvb|]; subst. cbn [encodable nan_free null_free] in *.
      apply forallb_Forall in Hea, Heb, Hnan. apply truth_all_nulls. rewrite Forall_forall in *.
      apply Forall2_same_length_lookup_2; [done|]. intros i x y Hx Hy.
      pose proof (f_equal (.!! i) Hg) as Hgi. rewrite !list_lookup_fmap, Hx, Hy in Hgi. injection Hgi as Hgi.
      apply list_elem_of_lookup_2 in Hx, Hy. apply IH; auto.
      split; intros; [apply Hsn|apply Hse]; try done; by eapply elem_of_flat_map.
  - destruct b as [s'|n'|e'|ns' es'|vs'|vs'|vs']; try done; [by destruct s'|]. cbn [group_form] in Hg. injection Hg as Hg.
    assert (length vs = length vs') as Hl by (apply (f_equal length) in Hg; by rewrite !length_map in Hg).
    assert (map fst vs = map fst vs') as Hk.
    { apply (f_equal (map fst)) in Hg. rewrite !map_map in Hg. clear -Hg. revert vs' Hg.
      induction vs as [|[k x] vs IH]; intros [|[k' y] vs']; cbn; try done. intros [= -> E]. f_equal. auto. }
    cbn [value_equal is_null orb]. rewrite (proj2 (Z.eqb_eq _ _)), bool_decide_eq_true_2 by (done || unfold zlen; by rewrite Hl).
    inversion Hwa as [| | | | | |? _ Hva]; inversion Hwb as [| | | | | |? _ Hvb]; subst.
    apply encodable_entries in Hea as [_ Hea], Heb as [_ Heb]. cbn [nan_free null_free andb] in *.
    apply forallb_Forall in Hnan. apply truth_all_nulls. rewrite Forall_forall in *.
    apply Forall2_same_length_lookup_2; [done|]. intros i [k x] [k' y] Hx Hy.
    pose proof (f_equal (.!! i) Hg) as Hgi. rewrite !list_lookup_fmap, Hx, Hy in Hgi. injection Hgi as _ Hgi.
    apply list_elem_of_lookup_2 in Hx, Hy.
    apply (IH _ Hx); [by apply (Hva (k, x))|by apply (Hvb (k', y))|by apply (Hea (k, x))|by apply (Heb (k', y))| |by apply (Hnan (k, x))|done].
    split; intros; [apply Hsn|apply Hse]; try done; by eapply (elem_of_flat_map _ (_, _)).
Qed.
End grouping.

(** ** Theorems *)

(** C31: grouping by key agrees with equality.  On values of one snapshot whose
    documents can be read, both always give a result; equal values, an integer
    and a float of the same value, a path and the list of its parts, a stored
    document and the value it reads as included, have the same key; and values
    with the same key are equal, unless equality has to answer null because of
    a null inside, or false because of a NaN. *)
Theorem grouping_agrees_with_equality `{Allocator} `{OrderedFloatOrd} a b ma mb :
  result_wf a → result_wf b → keyed a ma → keyed b mb → sized ma = true → sized mb = true →
  one_snapshot ma mb →
  ∃ ka kb t, value_key a = Ok ka ∧ value_key b = Ok kb ∧ equal a b = Ok t
    ∧ (t = True_ → ka = kb)
    ∧ (ka = kb → nan_free ma = true → t = if null_free ma then True_ else Unknown).
Proof.
  intros Hwa Hwb Hka Hkb Hsa Hsb Hsnap. exists (group_code ma), (group_code mb), (value_equal ma mb).
  pose proof (Hka) as (_ & Hwma & Hea). pose proof (Hkb) as (_ & Hwmb & Heb). split_and!.
  - exact (append_value_code a ma [] Hwa Hka).
  - exact (append_value_code b mb [] Hwb Hkb).
  - by apply equal_spec.
  - intros Ht. unfold group_code. by rewrite (value_equal_group ma mb).
  - intros Hk Hn. apply group_value_equal; try done. by apply group_code_inj.
Qed.

(** ** Examples *)

Definition pair_items : list DocumentItem := [ItemScalar (ScalarInteger 1); ItemScalar ScalarNull].
Definition pair_bytes : bytes :=
  Eval vm_compute in match DocumentList_new (H := roomy) pair_items with Ok bs => bs | _ => [] end.

(** [[1, null]], stored; [[1.0, null]], computed. *)
Definition stored_pair : ResultValue := ResScalar (ScalarList pair_bytes).
Definition pair_value : ResultValue := ResList [ResScalar (ScalarInteger 1); ResScalar ScalarNull].
Definition float_pair : ResultValue := ResList [ResScalar (ScalarFloat 0x3ff0000000000000); ResScalar ScalarNull].

Lemma stored_pair_wf : result_wf stored_pair.
Proof. constructor. decided. Qed.
Lemma float_pair_wf : result_wf float_pair.
Proof. constructor. repeat constructor; decided. Qed.
Lemma stored_pair_keyed : keyed (H := roomy) stored_pair pair_value.
Proof. split; [vm_compute; reflexivity|]. split; [|done]. constructor. repeat constructor; decided. Qed.
Lemma float_pair_keyed : keyed (H := roomy) float_pair float_pair.
Proof. split; [vm_compute; reflexivity|]. split; [exact float_pair_wf|done]. Qed.

Lemma grouping_agrees_with_equality_witness :
  value_key (H := roomy) stored_pair = value_key (H := roomy) float_pair
  ∧ ∃ ka kb t, value_key (H := roomy) stored_pair = Ok ka ∧ value_key (H := roomy) float_pair = Ok kb
    ∧ equal (H := ieee_ord) (H0 := roomy) stored_pair float_pair = Ok t ∧ (t = True_ → ka = kb)
    ∧ (ka = kb → nan_free pair_value = true → t = if null_free pair_value then True_ else Unknown).
Proof.
  split; [vm_compute; reflexivity|].
  apply (grouping_agrees_with_equality (H := roomy) (H0 := ieee_ord) stored_pair float_pair pair_value float_pair);
    [exact stored_pair_wf|exact float_pair_wf|exact stored_pair_keyed|exact float_pair_keyed|reflexivity|reflexivity|].
  split; intros x x' Hx; cbn in Hx; by apply elem_of_nil in Hx.
Defined.

Lemma predicates_follow_order_witness :
  ∃ t p, compare_predicate (H := ieee_ord) (H0 := roomy) stored_pair float_pair OpLess = Ok t
    ∧ compare_predicate (H := ieee_ord) (H0 := roomy) float_pair stored_pair OpGreater = Ok t
    ∧ partial_compare (H := ieee_ord) (H0 := roomy) stored_pair float_pair = Ok p
    ∧ match p with
      | Ordered c => total_compare (H := roomy) (H0 := ieee_ord) stored_pair float_pair = Ok c
                     ∧ bool_truth <$> holds OpLess c = Some t
      | UnknownOrder => t = Unknown
      | Unordered => t = False_
      end.
Proof.
  apply (predicates_follow_order (H := ieee_ord) (H0 := roomy) stored_pair float_pair pair_value float_pair OpLess);
    [exact stored_pair_wf|exact float_pair_wf|exact stored_pair_keyed|exact float_pair_keyed|by eexists].
Defined.

Lemma membership_is_disjunction_witness :
  ∃ ts, Forall2 (λ v t, equal (H := ieee_ord) (H0 := roomy) stored_pair v = Ok t
                        ∧ equal (H := ieee_ord) (H0 := roomy) v stored_pair = Ok t) [float_pair] ts
    ∧ contains (H := ieee_ord) (H0 := roomy) [float_pair] stored_pair = Ok (foldr or_ False_ ts).
Proof.
  apply (membership_is_disjunction (H := ieee_ord) (H0 := roomy) stored_pair [float_pair] pair_value [float_pair]);
    [exact stored_pair_wf|exact stored_pair_keyed|exact (Forall_cons_2 _ _ _ float_pair_wf (Forall_nil_2 _))|].
  constructor; [exact float_pair_keyed|constructor].
Defined.

(** A list of a node is the same group as the path of that node alone, but a
    null in its place makes the one comparison null and the other false. *)
Lemma path_and_list_disagree_on_null n :
  equal (H := ieee_ord) (H0 := roomy) (ResList [ResNode n]) (ResList [ResScalar ScalarNull]) = Ok Unknown
  ∧ equal (H := ieee_ord) (H0 := roomy) (ResPath [n] []) (ResList [ResScalar ScalarNull]) = Ok False_
  ∧ value_key (H := roomy) (ResPath [n] []) = value_key (H := roomy) (ResList [ResNode n]).
Proof. done. Qed.
