(* ===== verification/Bolt.v ===== *)
(** * The Bolt wire format: [crates/server/src/protocol/bolt.rs]

    PackStream values with their encoder and decoder, the chunked framing of
    messages and the version handshake.  An [f64] is its bit pattern, a
    [String] its UTF-8 bytes and a [BTreeMap] its key-ordered entries.  The
    decoder keeps its offset into the input; every [usize] operation that
    could overflow or index out of range aborts as it would panic.

    A connection is the bytes the peer will still send and how the stream ends
    after them; a sink is the bytes written so far and how many more the peer
    accepts.  [codec_work], which only moves a computation to a worker, is the
    computation itself. *)

From stdpp Require Import prelude gmap strings sorting.
From Stdlib Require Import ZArith Lia.
From S2P Require Import Prelude Machine Types.

Local Open Scope Z_scope.

Definition BOLT_MAGIC : Z := 1616949271. (* 0x6060_B017 *)
Definition BOLT_V5_0 : Z := 5.
Definition MAX_VALUE_DEPTH : Z := 64.

#[local] Unset Elimination Schemes.
Inductive PackStreamValue :=
| PackNull
| PackBoolean (value : bool)
| PackInteger (value : Z)
| PackFloat (bits : Z)
| PackBytes (value : bytes)
| PackString (value : bytes)
| PackList (values : list PackStreamValue)
| PackMap (values : list (bytes * PackStreamValue))
| PackStructure (signature : Z) (fields : list PackStreamValue).
#[local] Set Elimination Schemes.

(** Induction through the nested lists. *)
Section PackStreamValue_induction.
Context (P : PackStreamValue → Prop).
Hypothesis Hnull : P PackNull.
Hypothesis Hboolean : ∀ b, P (PackBoolean b).
Hypothesis Hinteger : ∀ x, P (PackInteger x).
Hypothesis Hfloat : ∀ x, P (PackFloat x).
Hypothesis Hbytes : ∀ s, P (PackBytes s).
Hypothesis Hstring : ∀ s, P (PackString s).
Hypothesis Hlist : ∀ vs, Forall P vs → P (PackList vs).
Hypothesis Hmap : ∀ vs, Forall (λ p, P p.2) vs → P (PackMap vs).
Hypothesis Hstructure : ∀ g vs, Forall P vs → P (PackStructure g vs).

Fixpoint PackStreamValue_nested_ind (v : PackStreamValue) : P v :=
  let go := fix go vs : Forall P vs :=
    match vs with
    | [] => Forall_nil_2 _
    | v :: vs => Forall_cons_2 _ _ _ (PackStreamValue_nested_ind v) (go vs)
    end in
  match v with
  | PackNull => Hnull
  | PackBoolean b => Hboolean b
  | PackInteger x => Hinteger x
  | PackFloat x => Hfloat x
  | PackBytes s => Hbytes s
  | PackString s => Hstring s
  | PackList vs => Hlist vs (go vs)
  | PackMap vs =>
      Hmap vs ((fix go (vs : list (bytes * PackStreamValue)) : Forall (λ p, P p.2) vs :=
        match vs with
        | [] => Forall_nil_2 _
        | (k, v) :: vs => Forall_cons_2 (λ p, P p.2) (k, v) vs (PackStreamValue_nested_ind v) (go vs)
        end) vs)
  | PackStructure g vs => Hstructure g vs (go vs)
  end.
End PackStreamValue_induction.

Definition protocol_violation (m : string) : Error := Error_new ProtocolViolation m.

(** ** Encoding *)

Definition encode_length (length marker8 marker16 marker32 : Z) (output : bytes) : Result bytes :=
  if length <=? u8_max then Ok (output ++ [marker8; length])
  else if length <=? u16_max then Ok (output ++ [marker16] ++ be_bytes 2 length)
  else
    value ← ok_or (u32_try_from length) (protocol_violation "PackStream value is too large");
    Ok (output ++ [marker32] ++ be_bytes 4 value).

Definition encode_tiny_or_length (length tiny marker8 marker16 marker32 : Z) (output : bytes)
    : Result bytes :=
  if length <=? 15 then Ok (output ++ [Z.lor tiny length])
  else encode_length length marker8 marker16 marker32 output.

Definition encode_string (value output : bytes) : Result bytes :=
  output ← encode_tiny_or_length (zlen value) 128 208 209 210 output; (* 0x80 0xD0 0xD1 0xD2 *)
  Ok (output ++ value).

Definition encode_bytes (value output : bytes) : Result bytes :=
  output ← encode_length (zlen value) 204 205 206 output; (* 0xCC 0xCD 0xCE *)
  Ok (output ++ value).

(** The integer arms: the first form whose range holds the value. *)
Definition encode_integer (value : Z) (output : bytes) : bytes :=
  if (0 <=? value) && (value <=? 127) then output ++ [value]
  else if (-16 <=? value) && (value <=? -1) then output ++ [value mod 256]
  else if (-128 <=? value) && (value <=? 127) then output ++ [200; value mod 256]
  else if (-32768 <=? value) && (value <=? 32767) then output ++ [201] ++ be_bytes 2 value
  else if (-2147483648 <=? value) && (value <=? 2147483647) then
    output ++ [202] ++ be_bytes 4 value
  else output ++ [203] ++ be_bytes 8 value.

Definition encode_list_length (length : Z) (output : bytes) : Result bytes :=
  encode_tiny_or_length length 144 212 213 214 output. (* 0x90 0xD4 0xD5 0xD6 *)

Definition encode_map_length (length : Z) (output : bytes) : Result bytes :=
  encode_tiny_or_length length 160 216 217 218 output. (* 0xA0 0xD8 0xD9 0xDA *)

Fixpoint encode_packstream (value : PackStreamValue) (output : bytes) : Result bytes :=
  match value with
  | PackNull => Ok (output ++ [192])
  | PackBoolean false => Ok (output ++ [194])
  | PackBoolean true => Ok (output ++ [195])
  | PackInteger value => Ok (encode_integer value output)
  | PackFloat bits => Ok (output ++ [193] ++ be_bytes 8 bits)
  | PackBytes value => encode_bytes value output
  | PackString value => encode_string value output
  | PackList values =>
      output ← encode_list_length (zlen values) output;
      foldM (λ output value, encode_packstream value output) output values
  | PackMap values =>
      output ← encode_map_length (zlen values) output;
      foldM (λ output '(key, value),
        output ← encode_string key output;
        encode_packstream value output) output values
  | PackStructure signature fields =>
      if 15 <? zlen fields then
        Err (protocol_violation "PackStream structure has more than 15 fields")
      else
        let output := output ++ [Z.lor 176 (zlen fields); signature] in
        foldM (λ output value, encode_packstream value output) output fields
  end.

(** ** Decoding *)

Record Decoder := mkDecoder { input : bytes; offset : Z }.

(** [a - b] on [usize]. *)
Definition usize_sub (a b : Z) : Result Z := if b <=? a then Ok (a - b) else Abort Panicked.

(** [x as iN as i64] for an [x] of [bits] bits. *)
Definition as_signed (bits x : Z) : Z := if x <? 2 ^ (bits - 1) then x else x - 2 ^ bits.

(** [{x:02x}] of a byte. *)
Definition hex_digit (d : Z) : string :=
  match String.get (Z.to_nat d) "0123456789abcdef" with
  | Some c => String.String c EmptyString
  | None => EmptyString
  end.
Definition hex02 (x : Z) : string := String.append (hex_digit (x / 16)) (hex_digit (x mod 16)).

Definition byte (d : Decoder) : Result (Z * Decoder) :=
  value ← ok_or (get (input d) (offset d)) (protocol_violation "truncated PackStream value");
  next ← usize_add (offset d) 1;
  Ok (value, mkDecoder (input d) next).

Definition take (d : Decoder) (length : Z) : Result (bytes * Decoder) :=
  end_ ← ok_or (checked_add usize_max (offset d) length)
    (Error_invalid_data "PackStream length overflow");
  value ← ok_or (get_range (input d) (offset d) end_)
    (protocol_violation "truncated PackStream payload");
  Ok (value, mkDecoder (input d) end_).

(** [slice.try_into::<[u8; n]>()]. *)
Definition as_array (n : nat) (bs : bytes) (m : string) : Result bytes :=
  if decide (length bs = n) then Ok bs else Err (Error_internal m).

Definition read_u16 (d : Decoder) : Result (Z * Decoder) :=
  '(bs, d) ← take d 2; bs ← as_array 2 bs "u16 slice"; Ok (from_be bs, d).
Definition read_u32 (d : Decoder) : Result (Z * Decoder) :=
  '(bs, d) ← take d 4; bs ← as_array 4 bs "u32 slice"; Ok (from_be bs, d).
Definition read_u64 (d : Decoder) : Result (Z * Decoder) :=
  '(bs, d) ← take d 8; bs ← as_array 8 bs "u64 slice"; Ok (from_be bs, d).

Definition length32 (d : Decoder) : Result (Z * Decoder) :=
  '(x, d) ← read_u32 d;
  length ← ok_or (usize_try_from x) (Error_invalid_data "PackStream length does not fit usize");
  Ok (length, d).

Definition read_bytes (d : Decoder) (length : Z) : Result (PackStreamValue * Decoder) :=
  '(value, d) ← take d length; Ok (PackBytes value, d).

Definition read_string (d : Decoder) (length : Z) : Result (PackStreamValue * Decoder) :=
  '(text, d) ← take d length;
  if utf8_valid text then Ok (PackString text, d)
  else Err (protocol_violation "PackStream string is not UTF-8").

(** The loops below call [value], the decoder of one value at the next depth. *)
Section collections.
Context (value : Decoder → Result (PackStreamValue * Decoder)).

Fixpoint read_values (n : nat) (values : list PackStreamValue) (d : Decoder)
    : Result (list PackStreamValue * Decoder) :=
  match n with
  | O => Ok (values, d)
  | S n => '(v, d) ← value d; read_values n (values ++ [v]) d
  end.

Fixpoint read_entries (n : nat) (values : list (bytes * PackStreamValue)) (d : Decoder)
    : Result (list (bytes * PackStreamValue) * Decoder) :=
  match n with
  | O => Ok (values, d)
  | S n =>
      '(key, d) ← value d;
      match key with
      | PackString key =>
          '(v, d) ← value d;
          match btree_insert key v values with
          | (Some _, _) => Err (protocol_violation "duplicate PackStream map key")
          | (None, values) => read_entries n values d
          end
      | _ => Err (protocol_violation "PackStream map key is not a string")
      end
  end.

Definition read_list (d : Decoder) (length : Z) : Result (PackStreamValue * Decoder) :=
  left ← usize_sub (zlen (input d)) (offset d);
  if left <? length then Err (protocol_violation "truncated PackStream list")
  else
    '(values, d) ← read_values (Z.to_nat length) [] d;
    Ok (PackList values, d).

Definition read_map (d : Decoder) (length : Z) : Result (PackStreamValue * Decoder) :=
  left ← usize_sub (zlen (input d)) (offset d);
  if left / 2 <? length then Err (protocol_violation "truncated PackStream map")
  else
    '(values, d) ← read_entries (Z.to_nat length) [] d;
    Ok (PackMap values, d).

Definition read_structure (d : Decoder) (length : Z) : Result (PackStreamValue * Decoder) :=
  '(signature, d) ← byte d;
  '(fields, d) ← read_values (Z.to_nat length) [] d;
  Ok (PackStructure signature fields, d).

(** A length of one, two or four bytes, then the payload it announces. *)
Definition sized {A} (size : Decoder → Result (Z * Decoder)) (read : Decoder → Z → Result A)
    (d : Decoder) : Result A :=
  '(len, d) ← size d; read d len.

(** The [match marker] of [Decoder::value]. *)
Definition read_marker (marker : Z) (d : Decoder) : Result (PackStreamValue * Decoder) :=
  let low := Z.land marker 15 in
  let within lo hi := (lo <=? marker) && (marker <=? hi) in
  if within 0 127 then Ok (PackInteger marker, d)
  else if within 240 255 then Ok (PackInteger (as_signed 8 marker), d)
  else if within 128 143 then read_string d low
  else if within 144 159 then read_list d low
  else if within 160 175 then read_map d low
  else if within 176 191 then read_structure d low
  else if marker =? 192 then Ok (PackNull, d)
  else if marker =? 193 then '(bits, d) ← read_u64 d; Ok (PackFloat bits, d)
  else if marker =? 194 then Ok (PackBoolean false, d)
  else if marker =? 195 then Ok (PackBoolean true, d)
  else if marker =? 200 then '(x, d) ← byte d; Ok (PackInteger (as_signed 8 x), d)
  else if marker =? 201 then '(x, d) ← read_u16 d; Ok (PackInteger (as_signed 16 x), d)
  else if marker =? 202 then '(x, d) ← read_u32 d; Ok (PackInteger (as_signed 32 x), d)
  else if marker =? 203 then '(x, d) ← read_u64 d; Ok (PackInteger (as_signed 64 x), d)
  else if marker =? 204 then sized byte read_bytes d
  else if marker =? 205 then sized read_u16 read_bytes d
  else if marker =? 206 then sized length32 read_bytes d
  else if marker =? 208 then sized byte read_string d
  else if marker =? 209 then sized read_u16 read_string d
  else if marker =? 210 then sized length32 read_string d
  else if marker =? 212 then sized byte read_list d
  else if marker =? 213 then sized read_u16 read_list d
  else if marker =? 214 then sized length32 read_list d
  else if marker =? 216 then sized byte read_map d
  else if marker =? 217 then sized read_u16 read_map d
  else if marker =? 218 then sized length32 read_map d
  else Err (protocol_violation (String.append "unknown PackStream marker 0x" (hex02 marker))).
End collections.

Definition nesting_limit : Error := protocol_violation "PackStream nesting limit exceeded".

(** [Decoder::value]: the recursion is bounded by the depth it checks. *)
Fixpoint value (fuel : nat) (d : Decoder) (depth : Z) : Result (PackStreamValue * Decoder) :=
  match fuel with
  | O => Abort OutOfFuel
  | S fuel =>
      if MAX_VALUE_DEPTH <? depth then Err nesting_limit
      else
        '(marker, d) ← byte d;
        read_marker (λ d, depth ← usize_add depth 1; value fuel d depth) marker d
  end.

(** Depths 0 to [MAX_VALUE_DEPTH] recurse; the one after them is refused. *)
Definition depth_fuel : nat := Z.to_nat (MAX_VALUE_DEPTH + 2).

Definition decode_packstream (input : bytes) : Result PackStreamValue :=
  '(v, d) ← value depth_fuel (mkDecoder input 0) 0;
  if offset d =? zlen input then Ok v
  else Err (protocol_violation "trailing PackStream bytes").

(** ** The transport *)

Inductive IoErrorKind := UnexpectedEof | OtherIo.
Record IoError := mkIoError { kind : IoErrorKind; io_message : string }.

Definition Error_from_io (e : IoError) : Error := Error_new Io (io_message e).

(** The bytes the peer has yet to send, and the error a read past them meets:
    [UnexpectedEof] when the peer closed the connection. *)
Record Stream := mkStream { incoming : bytes; ending : IoError }.

(** [AsyncReadExt::read_exact]. *)
Definition read_exact (s : Stream) (n : Z) : outcome IoError (bytes * Stream) :=
  match get_range (incoming s) 0 n with
  | Some bs => Ok (bs, mkStream (drop (Z.to_nat n) (incoming s)) (ending s))
  | None => Err (ending s)
  end.

(** What a read that fails leaves: the bytes that were there are gone. *)
Definition drained (s : Stream) : Stream := mkStream [] (ending s).

(** [?] on an [io::Result]. *)
Definition io {A} (m : outcome IoError A) : Result A :=
  match m with Ok a => Ok a | Err e => Err (Error_from_io e) | Abort w => Abort w end.

(** The bytes written, how many more the peer takes, and the error after them. *)
Record Sink := mkSink { written : bytes; accepts : Z; broken : IoError }.

(** [AsyncWriteExt::write_all]. *)
Definition write_all (s : Sink) (bs : bytes) : Result Sink :=
  if zlen bs <=? accepts s then
    Ok (mkSink (written s ++ bs) (accepts s - zlen bs) (broken s))
  else Err (Error_from_io (broken s)).

(** ** Message framing *)

(** The loop of [read_chunked_message].  [message_bytes] counts the bytes in
    [chunks]; an empty chunk ends a message, or is skipped before one. *)
Fixpoint read_chunks (fuel : nat) (chunks : list bytes) (message_bytes : Z) (s : Stream)
    : Result (option bytes * Stream) :=
  match fuel with
  | O => Abort OutOfFuel
  | S fuel =>
      match read_exact s 2 with
      | Ok (size, s) =>
          let length := from_be size in
          if length =? 0 then
            if message_bytes =? 0 then read_chunks fuel chunks message_bytes s
            else Ok (Some (concat chunks), s)
          else
            next_bytes ← ok_or (checked_add usize_max message_bytes length)
              (Error_invalid_data "Bolt message length overflow");
            '(chunk, s) ← io (read_exact s length);
            read_chunks fuel (chunks ++ [chunk]) next_bytes s
      | Err e =>
          match kind e with
          | UnexpectedEof => if message_bytes =? 0 then Ok (None, drained s) else Err (Error_from_io e)
          | OtherIo => Err (Error_from_io e)
          end
      | Abort w => Abort w
      end
  end.

(** Each round reads at least the two bytes of a chunk size. *)
Definition read_chunked_message (s : Stream) : Result (option bytes * Stream) :=
  read_chunks (S (length (incoming s))) [] 0 s.

(** [slice.chunks(n)]: the pieces of at most [n] elements, in order. *)
Fixpoint slice_chunks {A} (fuel : nat) (n : nat) (l : list A) : list (list A) :=
  match fuel, l with
  | O, _ | _, [] => []
  | S fuel, _ => firstn n l :: slice_chunks fuel n (skipn n l)
  end.

Definition write_encoded_message (s : Sink) (payload : bytes) : Result Sink :=
  s ← foldM (λ s chunk,
        s ← write_all s (be_bytes 2 (zlen chunk mod 65536));
        write_all s chunk)
      s (slice_chunks (length payload) (Z.to_nat u16_max) payload);
  write_all s [0; 0].

Definition write_owned_message (s : Sink) (value : PackStreamValue) : Result Sink :=
  payload ← encode_packstream value [];
  write_encoded_message s payload.

(** ** The handshake *)

Definition proposal_includes_v5_0 (proposal : Z) : bool :=
  let major := Z.land proposal 255 in
  let minor := Z.land (Z.shiftr proposal 8) 255 in
  let range := Z.land (Z.shiftr proposal 16) 255 in
  let reserved := Z.shiftr proposal 24 in
  (reserved =? 0) && (major =? 5) && (range <=? minor) && (saturating_sub minor range =? 0).

(** [slice.chunks_exact(4)] of a slice whose length four divides. *)
Fixpoint chunks_exact4 (l : bytes) : list bytes :=
  match l with
  | a :: b :: c :: d :: l => [a; b; c; d] :: chunks_exact4 l
  | _ => []
  end.

(** The answer, with the streams after it; [false] when the peer closed the
    connection before a whole handshake or proposed no version spoken here. *)
Definition negotiate (s : Stream) (out : Sink) : Result (bool * Stream * Sink) :=
  match read_exact s 20 with
  | Err e =>
      match kind e with
      | UnexpectedEof => Ok (false, drained s, out)
      | OtherIo => Err (Error_from_io e)
      end
  | Abort w => Abort w
  | Ok (handshake, s) =>
      magic ← index_range handshake 0 4;
      if negb (from_be magic =? BOLT_MAGIC) then Err (protocol_violation "invalid Bolt magic")
      else
        proposals ← index_range handshake 4 (zlen handshake);
        let supported := existsb proposal_includes_v5_0 (map from_be (chunks_exact4 proposals)) in
        let selected := if supported then be_bytes 4 BOLT_V5_0 else [0; 0; 0; 0] in
        out ← write_all out selected;
        Ok (supported, s, out)
  end.
