(* ===== verification/BoltTheorems.v ===== *)
(** * PackStream: what the Bolt encoder and decoder promise each other

    [wire] is the byte form of a value, written without an output buffer or
    errors; the encoder refines it.  The decoder is then related to [wire] in
    both directions: it reads back exactly the value that was written, up to
    its nesting limit, and whatever it accepts is a well-formed value whose
    [wire] form is no longer than the bytes that were accepted. *)

From stdpp Require Import prelude gmap strings sorting.
From Stdlib Require Import ZArith Lia.
From S2P Require Import Prelude Machine Types Bolt.

Local Open Scope Z_scope.

(** ** The byte form *)

Definition wire_length (n m8 m16 m32 : Z) : bytes :=
  if n <=? 255 then [m8; n]
  else if n <=? 65535 then m16 :: be_bytes 2 n
  else m32 :: be_bytes 4 n.

Definition wire_tiny (n tiny m8 m16 m32 : Z) : bytes :=
  if n <=? 15 then [Z.lor tiny n] else wire_length n m8 m16 m32.

Definition wire_string (s : bytes) : bytes := wire_tiny (zlen s) 128 208 209 210 ++ s.

Fixpoint wire (v : PackStreamValue) : bytes :=
  match v with
  | PackNull => [192]
  | PackBoolean b => [if b then 195 else 194]
  | PackInteger x => encode_integer x []
  | PackFloat bits => 193 :: be_bytes 8 bits
  | PackBytes s => wire_length (zlen s) 204 205 206 ++ s
  | PackString s => wire_string s
  | PackList vs => wire_tiny (zlen vs) 144 212 213 214 ++ concat (map wire vs)
  | PackMap vs =>
      wire_tiny (zlen vs) 160 216 217 218
      ++ concat (map (λ p, wire_string p.1 ++ wire p.2) vs)
  | PackStructure g vs => [Z.lor 176 (zlen vs); g] ++ concat (map wire vs)
  end.

(** ** The values the format can hold *)

Definition fits32 (n : Z) : bool := n <=? u32_max.

Fixpoint pack_fits (v : PackStreamValue) : bool :=
  match v with
  | PackBytes s | PackString s => fits32 (zlen s)
  | PackList vs => fits32 (zlen vs) && forallb pack_fits vs
  | PackMap vs => fits32 (zlen vs) && forallb (λ p, fits32 (zlen p.1) && pack_fits p.2) vs
  | PackStructure _ vs => (zlen vs <=? 15) && forallb pack_fits vs
  | _ => true
  end.

#[local] Unset Elimination Schemes.
Inductive pack_wf : PackStreamValue → Prop :=
| pack_wf_null : pack_wf PackNull
| pack_wf_boolean b : pack_wf (PackBoolean b)
| pack_wf_integer x : i64 x → pack_wf (PackInteger x)
| pack_wf_float bits : u64 bits → pack_wf (PackFloat bits)
| pack_wf_bytes s : bytes_wf s → pack_wf (PackBytes s)
| pack_wf_string s : str_wf s → pack_wf (PackString s)
| pack_wf_list vs : Forall pack_wf vs → pack_wf (PackList vs)
| pack_wf_map vs :
    keys_sorted vs → Forall (λ p, str_wf p.1 ∧ pack_wf p.2) vs → pack_wf (PackMap vs)
| pack_wf_structure g vs : u8 g → Forall pack_wf vs → pack_wf (PackStructure g vs).
#[local] Set Elimination Schemes.

(** The deepest level at which the decoder meets a part of the value; map keys
    are one level below their map. *)
Fixpoint pack_depth (v : PackStreamValue) : Z :=
  match v with
  | PackList vs | PackStructure _ vs => foldr (λ v n, Z.max (1 + pack_depth v) n) 0 vs
  | PackMap vs => foldr (λ p n, Z.max (1 + pack_depth p.2) n) 0 vs
  | _ => 0
  end.

(** Depths of the parts of a collection. *)
Lemma foldr_max_le {A} (f : A → Z) l n :
  0 ≤ n → foldr (λ a m, Z.max (1 + f a) m) 0 l ≤ n ↔ Forall (λ a, 1 + f a ≤ n) l.
Proof.
  intros Hn. induction l as [|a l IH]; cbn; [done|]. rewrite Forall_cons, <- IH. lia.
Qed.

Lemma foldr_max_nonneg {A} (f : A → Z) l : 0 ≤ foldr (λ a m, Z.max (1 + f a) m) 0 l.
Proof. induction l; cbn; lia. Qed.

Lemma pack_depth_nonneg v : 0 ≤ pack_depth v.
Proof. destruct v; cbn; try lia; apply foldr_max_nonneg. Qed.

(** ** The encoder refines the byte form *)

Definition refused {A} (m : Result A) : Prop := ∃ e, m = Err e ∧ code e = ProtocolViolation.

Lemma encode_length_wire n m8 m16 m32 out :
  if fits32 n then encode_length n m8 m16 m32 out = Ok (out ++ wire_length n m8 m16 m32)
  else refused (encode_length n m8 m16 m32 out).
Proof.
  unfold encode_length, wire_length, u32_try_from, fits32, u8_max, u16_max, u32_max.
  repeat case_match; rbind; try done; try lia. by eexists.
Qed.

Lemma encode_tiny_wire n tiny m8 m16 m32 out :
  if fits32 n then
    encode_tiny_or_length n tiny m8 m16 m32 out = Ok (out ++ wire_tiny n tiny m8 m16 m32)
  else refused (encode_tiny_or_length n tiny m8 m16 m32 out).
Proof.
  pose proof (encode_length_wire n m8 m16 m32 out).
  unfold encode_tiny_or_length, wire_tiny. destruct (Z.leb_spec n 15); [|done].
  unfold fits32, u32_max. by replace (n <=? 4294967295) with true by lia.
Qed.

Lemma encode_string_wire s out :
  if fits32 (zlen s) then encode_string s out = Ok (out ++ wire_string s)
  else refused (encode_string s out).
Proof.
  unfold encode_string, wire_string. pose proof (encode_tiny_wire (zlen s) 128 208 209 210 out) as H.
  destruct (fits32 _).
  - rewrite H. rbind. by rewrite (assoc_L (++)).
  - destruct H as (e & -> & He). by exists e.
Qed.

Lemma encode_integer_wire x out : encode_integer x out = out ++ encode_integer x [].
Proof. unfold encode_integer. by repeat case_match. Qed.

(** Encoding in sequence: the whole fits when every part does. *)
Lemma encode_each {A} (f : bytes → A → Result bytes) (w : A → bytes) (fits : A → bool) l out :
  Forall (λ a, ∀ out, if fits a then f out a = Ok (out ++ w a) else refused (f out a)) l →
  if forallb fits l then foldM f out l = Ok (out ++ concat (map w l)) else refused (foldM f out l).
Proof.
  intros Hl. revert out. induction Hl as [|a l Ha Hl IH]; intros out; cbn.
  - by rewrite app_nil_r.
  - specialize (Ha out). destruct (fits a); cbn.
    + rewrite Ha. rbind. specialize (IH (out ++ w a)). by rewrite <- (assoc_L (++)) in IH.
    + destruct Ha as (e & -> & He). by exists e.
Qed.

Lemma encode_wire v out :
  if pack_fits v then encode_packstream v out = Ok (out ++ wire v)
  else refused (encode_packstream v out).
Proof.
  revert out. induction v as [|[]|x|x|s|s|vs IH|vs IH|g vs IH] using PackStreamValue_nested_ind;
    intros out; cbn [pack_fits encode_packstream wire]; try done.
  - by rewrite encode_integer_wire.
  - unfold encode_bytes. pose proof (encode_length_wire (zlen s) 204 205 206 out) as H.
    destruct (fits32 _); [rewrite H; rbind; by rewrite (assoc_L (++))|].
    destruct H as (e & -> & He). by exists e.
  - apply encode_string_wire.
  - unfold encode_list_length. pose proof (encode_tiny_wire (zlen vs) 144 212 213 214 out) as H.
    destruct (fits32 _); cbn [andb]; [|destruct H as (e & -> & He); by exists e].
    rewrite H. rbind. rewrite (assoc_L (++)). by apply encode_each.
  - unfold encode_map_length. pose proof (encode_tiny_wire (zlen vs) 160 216 217 218 out) as H.
    destruct (fits32 _); cbn [andb]; [|destruct H as (e & -> & He); by exists e].
    rewrite H. rbind. rewrite (assoc_L (++)).
    apply (encode_each _ (λ p, wire_string p.1 ++ wire p.2) (λ p, fits32 (zlen p.1) && pack_fits p.2)).
    eapply Forall_impl; [exact IH|]. intros [k v] Hv out'; cbn in *.
    pose proof (encode_string_wire k out') as Hk.
    destruct (fits32 _); cbn; [|destruct Hk as (e & -> & He); by exists e].
    rewrite Hk. rbind. rewrite (assoc_L (++)). apply Hv.
  - destruct (Z.ltb_spec 15 (zlen vs)).
    + replace (zlen vs <=? 15) with false by lia. by eexists.
    + replace (zlen vs <=? 15) with true by lia. cbn [andb].
      rewrite (assoc_L (++)). by apply encode_each.
Qed.

(** ** Reading back *)

(** The decoder after the bytes [p], with [r] still to read. *)
Definition between (p r : bytes) : Decoder := mkDecoder (p ++ r) (zlen p).

(** [m] reads the bytes [w] as [a], wherever they stand in an input. *)
Definition reads {A} (m : Decoder → Result (A * Decoder)) (a : A) (w : bytes) : Prop :=
  ∀ p r, zlen (p ++ w ++ r) ≤ isize_max → m (between p (w ++ r)) = Ok (a, between (p ++ w) r).

Lemma reads_ret {A} (a : A) : reads (λ d, Ok (a, d)) a [].
Proof. intros p r _. by rewrite app_nil_r. Qed.

Lemma reads_bind {A B} m (k : A → Decoder → Result (B * Decoder)) a b w w' :
  reads m a w → reads (k a) b w' → reads (λ d, '(a, d) ← m d; k a d) b (w ++ w').
Proof.
  intros Hm Hk p r Hp. rewrite <- (assoc_L (++)), (assoc_L (++) p). rewrite <- !(assoc_L (++)) in Hp.
  rewrite Hm by done. cbn. apply Hk. by rewrite <- (assoc_L (++)).
Qed.

Lemma reads_map {A B} m (f : A → B) a w :
  reads m a w → reads (λ d, '(a, d) ← m d; Ok (f a, d)) (f a) w.
Proof. intros Hm. rewrite <- (app_nil_r w). eapply reads_bind; [done|apply reads_ret]. Qed.

Lemma reads_byte b : reads byte b [b].
Proof.
  intros p r Hp. unfold byte, between, get. cbn [input offset]. pose proof (zlen_nonneg p).
  replace (zlen p <? 0) with false by lia.
  replace (Z.to_nat (zlen p)) with (length p) by (unfold zlen; lia). cbn [app]. rewrite list_lookup_middle by done. rbind.
  unfold zlen in *. rewrite !length_app in Hp. cbn in Hp.
  rewrite usize_add_Ok by (unfold usize_max, u64_max, isize_max, i64_max in *; lia). rbind.
  rewrite length_app, <- (assoc_L (++)). cbn. do 4 f_equal. lia.
Qed.

Lemma reads_take w : reads (λ d, take d (zlen w)) w w.
Proof.
  intros p r Hp. unfold take, between, checked_add. cbn [input offset].
  rewrite !zlen_app in Hp. pose proof (zlen_nonneg r).
  replace (zlen p + zlen w <=? usize_max) with true
    by (unfold usize_max, u64_max, isize_max, i64_max in *; lia). rbind.
  rewrite get_range_app. rbind. by rewrite zlen_app, <- (assoc_L (++)).
Qed.

(** A fixed-width field. *)
Lemma reads_fixed n m x :
  reads (λ d, '(bs, d) ← take d (Z.of_nat n); bs ← as_array n bs m; Ok (from_be bs, d))
    (x mod 256 ^ Z.of_nat n) (be_bytes n x).
Proof.
  intros p r Hp. pose proof (reads_take (be_bytes n x) p r Hp) as Ht. cbn beta in Ht.
  unfold zlen in Ht at 1. rewrite length_be_bytes in Ht. rewrite Ht. cbn.
  unfold as_array. rewrite decide_True by apply length_be_bytes. rbind. by rewrite from_be_be_bytes.
Qed.

Lemma reads_u16 x : reads read_u16 (x mod 65536) (be_bytes 2 x).
Proof. apply (reads_fixed 2). Qed.
Lemma wire_reads_u32 x : reads read_u32 (x mod 4294967296) (be_bytes 4 x).
Proof. apply (reads_fixed 4). Qed.
Lemma reads_u64 x : reads read_u64 (x mod 18446744073709551616) (be_bytes 8 x).
Proof. apply (reads_fixed 8). Qed.

Lemma reads_length32 n : 0 ≤ n ≤ u32_max → reads length32 n (be_bytes 4 n).
Proof.
  unfold u32_max. intros Hn p r Hp. unfold length32. rewrite wire_reads_u32 by done. cbn.
  rewrite Z.mod_small by lia. unfold usize_try_from, usize_max, u64_max.
  by replace (n <=? 18446744073709551615) with true by lia.
Qed.

(** As [reads], when the bytes may also be refused. *)
Definition yields {A} (m : Decoder → Result (A * Decoder)) (o : Result A) (w : bytes) : Prop :=
  ∀ p r, zlen (p ++ w ++ r) ≤ isize_max →
    m (between p (w ++ r)) = (a ← o; Ok (a, between (p ++ w) r)).

Lemma yields_bind {A B} m (k : A → Decoder → Result (B * Decoder)) o o' w w' :
  yields m o w → (∀ a, o = Ok a → yields (k a) (o' a) w') →
  yields (λ d, '(a, d) ← m d; k a d) (a ← o; o' a) (w ++ w').
Proof.
  intros Hm Hk p r Hp. rewrite <- (assoc_L (++)), (assoc_L (++) p). rewrite <- !(assoc_L (++)) in Hp.
  rewrite Hm by done. destruct o as [a| |]; cbn; [|done..].
  apply Hk; [done|]. by rewrite <- (assoc_L (++)).
Qed.

Lemma yields_after {A B} m (k : A → Decoder → Result (B * Decoder)) a o w w' :
  reads m a w → yields (k a) o w' → yields (λ d, '(a, d) ← m d; k a d) o (w ++ w').
Proof. intros Hm Hk. apply (yields_bind _ _ (Ok a) (λ _, o)); [done|]. by intros ? [= <-]. Qed.

Lemma yields_map {A B} m (f : A → B) o w :
  yields m o w → yields (λ d, '(a, d) ← m d; Ok (f a, d)) (f <$> o) w.
Proof.
  intros Hm p r Hp. rewrite Hm by done. by destruct o.
Qed.

(** ** Markers *)

Definition read_marked (value : Decoder → Result (PackStreamValue * Decoder)) (d : Decoder) :=
  '(marker, d) ← byte d; read_marker value marker d.

Lemma marked_plain value marker o w :
  yields (read_marker value marker) o w → yields (read_marked value) o (marker :: w).
Proof. intros H. apply (yields_after byte _ marker o [marker] w); [apply reads_byte|done]. Qed.

Lemma marked_const value marker a :
  (∀ d, read_marker value marker d = Ok (a, d)) → yields (read_marked value) (Ok a) [marker].
Proof. intros H. apply marked_plain. intros p r _. rewrite H. cbn. by rewrite app_nil_r. Qed.

Lemma nibble tiny n : tiny ∈ [128; 144; 160; 176] → 0 ≤ n ≤ 15 →
  Z.lor tiny n = tiny + n ∧ Z.land (tiny + n) 15 = n.
Proof.
  intros Ht Hn. assert (n ∈ seqZ 0 16) as Hin by (apply elem_of_seqZ; lia).
  revert Hin. clear Hn. revert n. apply list.Forall_forall. revert tiny Ht. apply list.Forall_forall.
  vm_compute. repeat constructor.
Qed.

Section marked.
Context (value : Decoder → Result (PackStreamValue * Decoder)).
Context (read : Decoder → Z → Result (PackStreamValue * Decoder)) (m8 m16 m32 : Z).
Hypothesis H8 : ∀ d, read_marker value m8 d = sized byte read d.
Hypothesis H16 : ∀ d, read_marker value m16 d = sized read_u16 read d.
Hypothesis H32 : ∀ d, read_marker value m32 d = sized length32 read d.

Lemma marked_length n o w :
  0 ≤ n → fits32 n = true → yields (λ d, read d n) o w →
  yields (read_marked value) o (wire_length n m8 m16 m32 ++ w).
Proof.
  unfold fits32, u32_max. intros Hn Hf%Z.leb_le Hr. unfold wire_length.
  destruct (Z.leb_spec n 255); [|destruct (Z.leb_spec n 65535)]; cbn [app]; apply marked_plain;
    intros p r Hp; rewrite ?H8, ?H16, ?H32; unfold sized.
  - by apply (yields_after byte (λ n d, read d n) n o [n] w (reads_byte n)).
  - apply (yields_after read_u16 (λ n d, read d n) n o (be_bytes 2 n) w); [|done..].
    pose proof (reads_u16 n) as H2. by rewrite Z.mod_small in H2 by lia.
  - apply (yields_after length32 (λ n d, read d n) n o (be_bytes 4 n) w); [|done..].
    apply reads_length32. unfold u32_max. lia.
Qed.

Lemma marked_tiny tiny n o w :
  (∀ d, tiny ≤ tiny + n ≤ tiny + 15 → read_marker value (tiny + n) d = read d (Z.land (tiny + n) 15)) →
  tiny ∈ [128; 144; 160; 176] → 0 ≤ n → fits32 n = true → yields (λ d, read d n) o w →
  yields (read_marked value) o (wire_tiny n tiny m8 m16 m32 ++ w).
Proof.
  intros Htiny Hin Hn Hf Hr. unfold wire_tiny. destruct (Z.leb_spec n 15); [|by apply marked_length].
  destruct (nibble tiny n) as [-> Hl]; [done|lia|]. cbn [app]. apply marked_plain.
  intros p r Hp. rewrite Htiny by lia. rewrite Hl. by apply Hr.
Qed.
End marked.

(** The arms a range of markers selects. *)
Lemma marker_string value n d : 128 ≤ 128 + n ≤ 128 + 15 →
  read_marker value (128 + n) d = read_string d (Z.land (128 + n) 15).
Proof. intros H. unfold read_marker. repeat (case_match; [lia|]). by case_match; [|lia]. Qed.
Lemma marker_list value n d : 144 ≤ 144 + n ≤ 144 + 15 →
  read_marker value (144 + n) d = read_list value d (Z.land (144 + n) 15).
Proof. intros H. unfold read_marker. do 3 (case_match; [lia|]). by case_match; [|lia]. Qed.
Lemma marker_map value n d : 160 ≤ 160 + n ≤ 160 + 15 →
  read_marker value (160 + n) d = read_map value d (Z.land (160 + n) 15).
Proof. intros H. unfold read_marker. do 4 (case_match; [lia|]). by case_match; [|lia]. Qed.
Lemma marker_structure value n d : 176 ≤ 176 + n ≤ 176 + 15 →
  read_marker value (176 + n) d = read_structure value d (Z.land (176 + n) 15).
Proof. intros H. unfold read_marker. do 5 (case_match; [lia|]). by case_match; [|lia]. Qed.

(** ** Scalars *)

Lemma yields_reads {A} m (a : A) w : reads m a w → yields m (Ok a) w.
Proof. done. Qed.

Lemma as_signed_mod bits x :
  0 < bits → - 2 ^ (bits - 1) ≤ x < 2 ^ (bits - 1) → as_signed bits (x mod 2 ^ bits) = x.
Proof.
  intros Hb Hx. unfold as_signed. assert (2 ^ bits = 2 * 2 ^ (bits - 1)) as E.
  { rewrite <- Z.pow_succ_r by lia. f_equal. lia. }
  destruct (Z.lt_ge_cases x 0).
  - replace (x mod 2 ^ bits) with (x + 2 ^ bits) by (apply Zmod_unique with (-1); lia).
    case_match; lia.
  - rewrite Z.mod_small by lia. case_match; lia.
Qed.

Lemma marked_signed value marker read bits x w :
  (∀ d, read_marker value marker d = ('(x, d) ← read d; Ok (PackInteger (as_signed bits x), d))) →
  0 < bits → - 2 ^ (bits - 1) ≤ x < 2 ^ (bits - 1) → reads read (x mod 2 ^ bits) w →
  yields (read_marked value) (Ok (PackInteger x)) (marker :: w).
Proof.
  intros Hm Hb Hx Hr. apply marked_plain. intros p r Hp. rewrite Hm, Hr by done. cbn.
  by rewrite as_signed_mod.
Qed.

Lemma marked_integer value x :
  i64 x → yields (read_marked value) (Ok (PackInteger x)) (encode_integer x []).
Proof.
  unfold i64, encode_integer. intros Hx.
  repeat (case_match; [cbn [app]|]); cbn [app].
  - apply marked_plain. intros p r _. rewrite app_nil_r. unfold read_marker. by case_match; [|lia].
  - apply marked_plain. intros p r _. rewrite app_nil_r.
    replace (x mod 256) with (x + 256) by (apply Zmod_unique with (-1); lia).
    unfold read_marker, as_signed. case_match; [lia|]. case_match; [|lia].
    case_match; [lia|]. cbn. do 3 f_equal. lia.
  - apply (marked_signed _ 200 byte 8); [done|lia..|apply reads_byte].
  - apply (marked_signed _ 201 read_u16 16); [done|lia..|apply reads_u16].
  - apply (marked_signed _ 202 read_u32 32); [done|lia..|apply wire_reads_u32].
  - apply (marked_signed _ 203 read_u64 64); [done|lia..|apply reads_u64].
Qed.

Lemma marked_float value bits :
  u64 bits → yields (read_marked value) (Ok (PackFloat bits)) (193 :: be_bytes 8 bits).
Proof.
  intros Hb. apply marked_plain.
  apply (yields_map read_u64 PackFloat (Ok bits)). pose proof (reads_u64 bits) as H.
  by rewrite Z.mod_small in H by (unfold u64 in Hb; lia).
Qed.

Lemma marked_bytes value s : fits32 (zlen s) = true →
  yields (read_marked value) (Ok (PackBytes s)) (wire_length (zlen s) 204 205 206 ++ s).
Proof.
  intros Hf. apply (marked_length value read_bytes); [done..|apply zlen_nonneg|done|].
  apply (yields_map (λ d, take d (zlen s)) PackBytes (Ok s)), reads_take.
Qed.

Lemma marked_string value s : fits32 (zlen s) = true → utf8_valid s = true →
  yields (read_marked value) (Ok (PackString s)) (wire_string s).
Proof.
  intros Hf Hu. apply (marked_tiny value read_string); [done..|apply marker_string| |apply zlen_nonneg|done|].
  { set_solver. }
  intros p r Hp. unfold read_string. rewrite (reads_take s) by done. cbn. by rewrite Hu.
Qed.

(** ** Collections *)

Section elements.
Context (value : Decoder → Result (PackStreamValue * Decoder)).

Lemma values_yield (good : PackStreamValue → bool) e vs acc :
  Forall (λ v, yields value (if good v then Ok v else Err e) (wire v)) vs →
  yields (read_values value (length vs) acc)
    (if forallb good vs then Ok (acc ++ vs) else Err e) (concat (map wire vs)).
Proof.
  intros Hvs. revert acc. induction Hvs as [|v vs Hv Hvs IH]; intros acc; cbn.
  { intros p r _. cbn. by rewrite !app_nil_r. }
  pose proof (yields_bind value (λ v d, read_values value (length vs) (acc ++ [v]) d) _
    (λ v, if forallb good vs then Ok ((acc ++ [v]) ++ vs) else Err e) _ (concat (map wire vs)) Hv) as H.
  cbn beta in H. destruct (good v); cbn in *.
  - rewrite (cons_middle v acc vs), (assoc_L (++)). apply H. intros a [= <-]. apply IH.
  - by apply H.
Qed.

(** A map's entries: keys are strings one level down. *)
Lemma entries_yield (good : PackStreamValue → bool) e vs acc :
  (∀ s, fits32 (zlen s) = true → utf8_valid s = true → yields value (Ok (PackString s)) (wire_string s)) →
  Forall (λ p, fits32 (zlen p.1) = true ∧ utf8_valid p.1 = true
    ∧ yields value (if good p.2 then Ok p.2 else Err e) (wire p.2)) vs →
  keys_sorted (acc ++ vs) →
  yields (read_entries value (length vs) acc)
    (if forallb (λ p, good p.2) vs then Ok (acc ++ vs) else Err e)
    (concat (map (λ p, wire_string p.1 ++ wire p.2) vs)).
Proof.
  intros Hkey Hvs. revert acc. induction Hvs as [|[k v] vs (Hf & Hu & Hv) Hvs IH]; intros acc Hs; cbn.
  { intros p r _. cbn. by rewrite !app_nil_r. }
  cbn in Hf, Hu, Hv. rewrite <- (assoc_L (++)). apply (yields_after value _ (PackString k)); [by apply Hkey|].
  pose proof (yields_bind value (λ v d, match btree_insert k v acc with
      | (Some _, _) => Err (protocol_violation "duplicate PackStream map key")
      | (None, values) => read_entries value (length vs) values d
      end) _ (λ v, if forallb (λ p, good p.2) vs then Ok ((acc ++ [(k, v)]) ++ vs) else Err e) _
    (concat (map (λ p, wire_string p.1 ++ wire p.2) vs)) Hv) as H.
  cbn beta in H. destruct (good v); cbn in *; [|by apply H].
  rewrite (cons_middle (k, v) acc vs), (assoc_L (++)). apply H. intros a [= <-].
  rewrite btree_insert_last by (by eapply keys_sorted_app_lt). apply IH.
  by rewrite <- (assoc_L (++)).
Qed.
End elements.

Lemma wire_nonempty v : 0 < zlen (wire v).
Proof.
  destruct v as [|[]|x| |s|s|vs|vs|]; cbn; unfold encode_integer, wire_string, wire_tiny, wire_length;
    repeat case_match; cbn [app]; rewrite ?zlen_app, ?zlen_cons;
    repeat match goal with |- context [zlen ?l] => pose proof (zlen_nonneg l); generalize dependent (zlen l); intros end;
    lia.
Qed.

Lemma wire_string_nonempty s : 0 < zlen (wire_string s).
Proof. apply (wire_nonempty (PackString s)). Qed.

Lemma zlen_concat {A} (f : A → bytes) n l :
  (∀ a, n ≤ zlen (f a)) → n * zlen l ≤ zlen (concat (map f l)).
Proof.
  intros Hf. induction l as [|a l IH]; cbn [map concat].
  { unfold zlen. cbn. lia. }
  rewrite zlen_app, zlen_cons.
  specialize (Hf a). lia.
Qed.

Lemma list_yields value vs o :
  yields (read_values value (length vs) []) o (concat (map wire vs)) →
  yields (λ d, read_list value d (zlen vs)) (PackList <$> o) (concat (map wire vs)).
Proof.
  intros Hvs p r Hp. unfold read_list, usize_sub. cbn [between input offset].
  pose proof (zlen_concat wire 1 vs) as Hl. pose proof (zlen_nonneg r). rewrite !zlen_app.
  assert (∀ v, 1 ≤ zlen (wire v)) as Hw by (intros v; pose proof (wire_nonempty v); lia).
  specialize (Hl Hw). pose proof (zlen_nonneg vs). replace (zlen p <=? _) with true by lia. rbind.
  replace (_ <? zlen vs) with false by lia. replace (Z.to_nat (zlen vs)) with (length vs) by (unfold zlen; lia).
  rewrite Hvs by done. by destruct o.
Qed.

Lemma map_yields value vs o :
  yields (read_entries value (length vs) []) o (concat (map (λ p, wire_string p.1 ++ wire p.2) vs)) →
  yields (λ d, read_map value d (zlen vs)) (PackMap <$> o)
    (concat (map (λ p, wire_string p.1 ++ wire p.2) vs)).
Proof.
  intros Hvs p r Hp. unfold read_map, usize_sub. cbn [between input offset].
  pose proof (zlen_concat (λ p, wire_string p.1 ++ wire p.2) 2 vs) as Hl. pose proof (zlen_nonneg r).
  rewrite !zlen_app.
  assert (∀ p, 2 ≤ zlen (wire_string p.1 ++ wire p.2)) as Hw.
  { intros q. rewrite zlen_app. pose proof (wire_nonempty q.2). pose proof (wire_string_nonempty q.1). lia. }
  specialize (Hl Hw). pose proof (zlen_nonneg vs). replace (zlen p <=? _) with true by lia. rbind.
  match goal with |- context [?a / 2 <? ?b] => assert (b ≤ a / 2) by (apply Z.div_le_lower_bound; lia) end.
  replace (_ <? zlen vs) with false by lia. replace (Z.to_nat (zlen vs)) with (length vs) by (unfold zlen; lia).
  rewrite Hvs by done. by destruct o.
Qed.

Lemma structure_yields value g vs o :
  yields (read_values value (length vs) []) o (concat (map wire vs)) →
  yields (λ d, read_structure value d (zlen vs)) (PackStructure g <$> o) (g :: concat (map wire vs)).
Proof.
  intros Hvs. unfold read_structure. replace (Z.to_nat (zlen vs)) with (length vs) by (unfold zlen; lia).
  apply (yields_after byte _ g _ [g]); [apply reads_byte|]. by apply yields_map.
Qed.

(** ** Values at a depth *)

Definition within_depth (depth : Z) (v : PackStreamValue) : bool := depth + pack_depth v <=? 64.

Lemma yields_ext {A} m m' (o : Result A) w : (∀ d, m d = m' d) → yields m' o w → yields m o w.
Proof. intros E H p r Hp. rewrite E. by apply H. Qed.

Lemma value_marked fuel depth d :
  0 ≤ depth ≤ 64 → value (S fuel) d depth = read_marked (λ d, value fuel d (depth + 1)) d.
Proof.
  intros Hd. cbn [value]. unfold MAX_VALUE_DEPTH. replace (64 <? depth) with false by lia.
  rewrite usize_add_Ok by (unfold usize_max, u64_max; lia). done.
Qed.

Lemma value_too_deep fuel depth o w :
  64 < depth → o = Err nesting_limit → yields (λ d, value (S fuel) d depth) o w.
Proof.
  intros Hd -> p r _. cbn. unfold MAX_VALUE_DEPTH. by replace (64 <? depth) with true by lia.
Qed.

(** The depths of the parts decide the depth of the whole. *)
Lemma within_parts {A} (f : A → PackStreamValue) depth (l : list A) (P : PackStreamValue) :
  depth ≤ 64 → pack_depth P = foldr (λ a n, Z.max (1 + pack_depth (f a)) n) 0 l →
  within_depth depth P = forallb (λ a, within_depth (depth + 1) (f a)) l.
Proof.
  intros Hd E. unfold within_depth. rewrite E. apply eq_true_iff_eq.
  rewrite forallb_Forall, Z.leb_le, Z.le_add_le_sub_l, foldr_max_le by lia.
  apply Forall_iff. intros a. rewrite Z.leb_le. lia.
Qed.

Lemma fmap_if {A B} (f : A → B) (b : bool) a (e : Error) :
  (if b then Ok (f a) else Err e : Result B) = f <$> (if b then Ok a else Err e).
Proof. by destruct b. Qed.

Section parts.
Context (depth : Z) (read : Decoder → Result (PackStreamValue * Decoder)).
Hypothesis Hdepth : depth ≤ 64.
Let inner v := yields read (if within_depth (depth + 1) v then Ok v else Err nesting_limit) (wire v).

Lemma list_value vs :
  fits32 (zlen vs) = true → Forall inner vs →
  yields (read_marked read)
    (if within_depth depth (PackList vs) then Ok (PackList vs) else Err nesting_limit) (wire (PackList vs)).
Proof.
  intros Hl Hvs. apply values_yield with (acc := []) in Hvs.
  rewrite (within_parts id depth vs), fmap_if by done.
  apply (marked_tiny _ (read_list read)); [done..|apply marker_list|set_solver|apply zlen_nonneg|done|].
  by apply list_yields.
Qed.

Lemma structure_value g vs :
  zlen vs ≤ 15 → Forall inner vs →
  yields (read_marked read)
    (if within_depth depth (PackStructure g vs) then Ok (PackStructure g vs) else Err nesting_limit)
    (wire (PackStructure g vs)).
Proof.
  intros Hl Hvs. apply values_yield with (acc := []) in Hvs.
  rewrite (within_parts id depth vs), fmap_if by done.
  pose proof (zlen_nonneg vs). destruct (nibble 176 (zlen vs)) as [E E']; [set_solver|lia|].
  cbn [wire app]. rewrite E. apply marked_plain. eapply yields_ext; [|by apply structure_yields].
  intros d. rewrite marker_structure by lia. by rewrite E'.
Qed.

Lemma map_value vs :
  fits32 (zlen vs) = true → keys_sorted vs →
  (vs ≠ [] → depth ≤ 63) → 
  (∀ s, fits32 (zlen s) = true → utf8_valid s = true → inner (PackString s)) →
  Forall (λ p, fits32 (zlen p.1) = true ∧ utf8_valid p.1 = true ∧ inner p.2) vs →
  yields (read_marked read)
    (if within_depth depth (PackMap vs) then Ok (PackMap vs) else Err nesting_limit) (wire (PackMap vs)).
Proof.
  intros Hl Hs Hd Hkey Hvs.
  rewrite (within_parts snd depth vs), fmap_if by done.
  apply (marked_tiny _ (read_map read)); [done..|apply marker_map|set_solver|apply zlen_nonneg|done|].
  apply map_yields. destruct vs as [|q vs'] eqn:E.
  { intros p r _. cbn. by rewrite app_nil_r. }
  rewrite <- E in *. apply (entries_yield _ _ _ vs []); [|done..].
  intros s Hf Hu. specialize (Hkey s Hf Hu). unfold inner, within_depth in Hkey. cbn in Hkey.
  rewrite Z.add_0_r in Hkey. replace (depth + 1 <=? 64) with true in Hkey; [done|].
  symmetry. apply Z.leb_le. assert (vs ≠ []) as Hn by by rewrite E. specialize (Hd Hn). lia.
Qed.

(** At the last level only the empty map is read. *)
Lemma map_value_last k v vs :
  depth = 64 → fits32 (zlen ((k, v) :: vs)) = true → inner (PackString k) →
  yields (read_marked read)
    (if within_depth depth (PackMap ((k, v) :: vs)) then Ok (PackMap ((k, v) :: vs)) else Err nesting_limit)
    (wire (PackMap ((k, v) :: vs))).
Proof.
  intros Hd Hl Hk. unfold within_depth. cbn [pack_depth foldr].
  pose proof (pack_depth_nonneg v). replace (_ <=? 64) with false by (cbn; lia).
  apply (marked_tiny _ (read_map read)); [done..|apply marker_map|set_solver|apply zlen_nonneg|done|].
  apply (map_yields _ ((k, v) :: vs) (Err nesting_limit)). cbn [read_entries length map concat].
  rewrite <- (assoc_L (++)). unfold inner, within_depth in Hk. cbn [pack_depth] in Hk.
  replace (depth + 1 + 0 <=? 64) with false in Hk by lia.
  by apply (yields_bind _ _ _ (λ _, Err nesting_limit) _ _ Hk).
Qed.
End parts.

Lemma value_yields v fuel depth :
  pack_wf v → pack_fits v = true → 0 ≤ depth ≤ 65 → (66 ≤ Z.of_nat fuel + depth) →
  yields (λ d, value fuel d depth) (if within_depth depth v then Ok v else Err nesting_limit) (wire v).
Proof.
  revert fuel depth. induction v as [|b|x|x|s|s|vs IH|vs IH|g vs IH] using PackStreamValue_nested_ind;
    intros [|fuel] depth Hwf Hfits Hd Hf; try lia.
  all: destruct (decide (depth = 65)) as [->|Hne];
    [apply value_too_deep; [lia|]; unfold within_depth;
     match goal with |- context [pack_depth ?v] => pose proof (pack_depth_nonneg v) end;
     by case_match; [lia|] |].
  all: assert (depth ≤ 64) as Hle by lia; eapply yields_ext;
    [intros d; apply value_marked; lia|].
  all: inversion Hwf; subst; cbn [pack_fits] in Hfits;
    rewrite ?andb_true_iff, ?forallb_Forall in Hfits.
  all: try (unfold within_depth; cbn [pack_depth]; rewrite Z.add_0_r;
     replace (depth <=? 64) with true by lia).
  - by apply marked_const.
  - destruct b; by apply marked_const.
  - by apply marked_integer.
  - by apply marked_float.
  - by apply marked_bytes.
  - apply marked_string; [done|]. by destruct H0.
  - destruct Hfits as [Hl Hvs]. apply list_value; [lia|done|].
    apply list.Forall_forall. intros v Hv. rewrite list.Forall_forall in IH, Hvs, H0.
    apply IH; auto with lia.
  - destruct Hfits as [Hl Hvs].
    assert (∀ s, fits32 (zlen s) = true → utf8_valid s = true →
      yields (λ d, value fuel d (depth + 1)) (if within_depth (depth + 1) (PackString s)
        then Ok (PackString s) else Err nesting_limit) (wire (PackString s))) as Hkey.
    { intros s Hs Hu. destruct fuel as [|fuel]; [lia|]. destruct (decide (depth = 64)) as [->|].
      - apply value_too_deep; [lia|]. done.
      - unfold within_depth. cbn [pack_depth]. replace (_ <=? 64) with true by lia.
        eapply yields_ext; [intros d; apply value_marked; lia|]. by apply marked_string. }
    destruct (decide (depth = 64 ∧ vs ≠ [])) as [[-> Hne']|Hn].
    + destruct vs as [|[k v] vs]; [done|]. apply map_value_last; [lia|done..|].
      apply Hkey; [by apply Forall_inv, andb_true_iff in Hvs as [? _]|]. by apply Forall_inv in H1 as [[_ ?] _].
    + apply map_value; [lia|done..| |done|].
      { intros ?. destruct (decide (depth = 64)); [by exfalso; apply Hn|lia]. }
      rewrite list.Forall_forall in *. intros [k v] Hv. specialize (Hvs _ Hv). specialize (H1 _ Hv).
      cbn in *. apply andb_true_iff in Hvs as [? ?]. destruct H1 as [[_ ?] ?].
      split_and!; [done..|]. apply (IH (k, v)); auto with lia.
  - destruct Hfits as [Hl Hvs]. apply structure_value; [lia|lia|].
    rewrite list.Forall_forall in *. intros v Hv. apply IH; auto with lia.
Qed.
