(* ===== verification/BoltDecode.v ===== *)
(** * PackStream: every input is decoded or refused

    The decoder on arbitrary bytes: it never panics, its recursion ends, every
    error is a protocol violation, and a value it accepts is well formed, is
    encoded again and takes no more bytes than it was read from. *)

From stdpp Require Import prelude gmap strings sorting.
From Stdlib Require Import ZArith Lia.
From S2P Require Import Prelude Machine Types Bolt BoltTheorems.

Local Open Scope Z_scope.

(** ** Consuming input *)

Definition violation (e : Error) : Prop := code e = ProtocolViolation.

(** On any input [m] stops, with a protocol violation or having consumed a
    prefix: [Q] relates the result to the length of the prefix. *)
Definition consumes {A} (m : Decoder → Result (A * Decoder)) (Q : A → Z → Prop) : Prop :=
  ∀ p r, bytes_wf r → zlen (p ++ r) ≤ isize_max →
    posts violation (m (between p r))
      (λ '(a, d), ∃ w r', r = w ++ r' ∧ d = between (p ++ w) r' ∧ Q a (zlen w)).

Lemma consumes_ret {A} (a : A) (Q : A → Z → Prop) : Q a 0 → consumes (λ d, Ok (a, d)) Q.
Proof. intros HQ p r _ _. exists [], r. by rewrite app_nil_r. Qed.

Lemma consumes_err {A} e (Q : A → Z → Prop) : violation e → consumes (λ _, Err e) Q.
Proof. by intros He p r _ _. Qed.

Lemma consumes_mono {A} m (Q R : A → Z → Prop) :
  consumes m Q → (∀ a n, 0 ≤ n → Q a n → R a n) → consumes m R.
Proof.
  intros Hm HQ p r Hw Hl. eapply posts_mono; [by apply Hm|].
  intros [a d] (w & r' & -> & -> & Ha). exists w, r'. split_and!; [done..|].
  apply HQ; [apply zlen_nonneg|done].
Qed.

Lemma consumes_bind {A B} m (k : A → Decoder → Result (B * Decoder)) Q R :
  consumes m Q → (∀ a n, 0 ≤ n → Q a n → consumes (k a) (λ b n', R b (n + n'))) →
  consumes (λ d, '(a, d) ← m d; k a d) R.
Proof.
  intros Hm Hk p r Hw Hl. eapply posts_bind; [by apply Hm|].
  intros [a d] (w & r' & -> & -> & Ha). eapply posts_mono.
  - eapply (Hk a (zlen w)); [apply zlen_nonneg|done| |].
    + by apply Forall_app in Hw as [_ ?].
    + by rewrite <- (assoc_L (++)).
  - intros [b d] (w' & r'' & -> & -> & Hb). exists (w ++ w'), r''.
    by rewrite zlen_app, <- !(assoc_L (++)).
Qed.

Lemma consumes_ext {A} m m' (Q : A → Z → Prop) : (∀ d, m d = m' d) → consumes m' Q → consumes m Q.
Proof. intros E H p r Hw Hl. rewrite E. by apply H. Qed.

Lemma consumes_byte : consumes byte (λ b n, u8 b ∧ n = 1).
Proof.
  intros p [|b r] Hw Hl.
  - unfold byte, between, get. cbn [input offset]. rewrite app_nil_r. case_match; [done|].
    rewrite lookup_ge_None_2 by (unfold zlen; lia). done.
  - change (b :: r) with ([b] ++ r) in *. rewrite (reads_byte b p r) by done. exists [b], r. apply Forall_inv in Hw. done.
Qed.

Lemma consumes_take k :
  0 ≤ k ≤ u32_max → consumes (λ d, take d k) (λ s n, bytes_wf s ∧ zlen s = k ∧ n = k).
Proof.
  intros Hk p r Hw Hl. unfold take, between, checked_add. cbn [input offset].
  pose proof (zlen_nonneg r). rewrite zlen_app in Hl.
  unfold u32_max, isize_max, i64_max in *.
  replace (zlen p + k <=? usize_max) with true by (unfold usize_max, u64_max; lia). rbind.
  destruct (get_range (p ++ r) (zlen p) (zlen p + k)) as [s|] eqn:Hg; [|done]. rbind.
  apply get_range_Some in Hg as (p' & r' & E & Hp & Hs); [|apply zlen_nonneg].
  apply app_inj_1 in E as [<- ->]; [|unfold zlen in *; lia].
  exists s, r'. apply Forall_app in Hw as [? _]. rewrite (assoc_L (++)). unfold between.
  rewrite zlen_app. split_and!; [done| |done|lia|lia]. repeat f_equal; lia.
Qed.

Lemma from_be_bound bs : bytes_wf bs → 0 ≤ from_be bs < 256 ^ zlen bs.
Proof. intros Hb. unfold from_be. rewrite <- (zlen_rev bs). apply from_le_bound. by apply Forall_rev. Qed.

Lemma consumes_fixed n m :
  Z.of_nat n ≤ 8 →
  consumes (λ d, '(bs, d) ← take d (Z.of_nat n); bs ← as_array n bs m; Ok (from_be bs, d))
    (λ x k, 0 ≤ x < 256 ^ Z.of_nat n ∧ k = Z.of_nat n).
Proof.
  intros Hn. eapply consumes_bind; [apply consumes_take; unfold u32_max; lia|].
  intros bs k Hk (Hw & Hl & ->). unfold as_array. rewrite decide_True by (unfold zlen in Hl; lia).
  apply consumes_ret. pose proof (from_be_bound bs Hw) as Hb. rewrite Hl in Hb. split; [done|lia].
Qed.

Lemma consumes_u16 : consumes read_u16 (λ x k, 0 ≤ x < 65536 ∧ k = 2).
Proof. by apply (consumes_fixed 2). Qed.
Lemma consumes_u32 : consumes read_u32 (λ x k, 0 ≤ x < 4294967296 ∧ k = 4).
Proof. by apply (consumes_fixed 4). Qed.
Lemma consumes_u64 : consumes read_u64 (λ x k, 0 ≤ x < 18446744073709551616 ∧ k = 8).
Proof. by apply (consumes_fixed 8). Qed.

Lemma consumes_length32 : consumes length32 (λ x k, 0 ≤ x ≤ u32_max ∧ k = 4).
Proof.
  unfold length32. eapply consumes_bind; [apply consumes_u32|]. intros x k Hk [Hx ->].
  unfold usize_try_from, usize_max, u64_max, u32_max.
  replace (x <=? _) with true by lia. cbn. apply consumes_ret. lia.
Qed.

(** ** Accepted values *)

(** What is known of a value read at [depth] from [n] bytes. *)
Definition accepted (depth : Z) (v : PackStreamValue) (n : Z) : Prop :=
  pack_wf v ∧ pack_fits v = true ∧ depth + pack_depth v ≤ 64 ∧ zlen (wire v) ≤ n.

(** The sizes a length of [k] further bytes can announce; none for a marker
    that holds the length itself. *)
Definition announces (k n : Z) : Prop :=
  0 ≤ n ∧ (k = 0 ∧ n ≤ 15 ∨ k = 1 ∧ n ≤ 255 ∨ k = 2 ∧ n ≤ 65535 ∨ k = 4 ∧ n ≤ u32_max).

Lemma announces_bound k n : announces k n → 0 ≤ n ≤ u32_max.
Proof. unfold announces, u32_max. lia. Qed.

Lemma announces_fits k n : announces k n → fits32 n = true.
Proof. intros H%announces_bound. unfold fits32. lia. Qed.

Lemma zlen_be_bytes n x : zlen (be_bytes n x) = Z.of_nat n.
Proof. unfold zlen. by rewrite length_be_bytes. Qed.

Lemma announced_length k n m8 m16 m32 :
  announces k n → k ≠ 0 → zlen (wire_length n m8 m16 m32) ≤ 1 + k.
Proof.
  intros Ha Hk. unfold announces in Ha. unfold wire_length. repeat case_match;
    rewrite ?zlen_cons, ?zlen_be_bytes, ?zlen_nil; lia.
Qed.

Lemma announced_tiny k n tiny m8 m16 m32 :
  announces k n → zlen (wire_tiny n tiny m8 m16 m32) ≤ 1 + k.
Proof.
  intros Ha. unfold wire_tiny. destruct (Z.leb_spec n 15).
  - unfold announces in Ha. unfold zlen. cbn. lia.
  - apply announced_length; [done|]. unfold announces in Ha. lia.
Qed.

Lemma integer_length x :
  i64 x → zlen (encode_integer x []) ≤ 9
  ∧ (-128 ≤ x < 128 → zlen (encode_integer x []) ≤ 2)
  ∧ (-32768 ≤ x < 32768 → zlen (encode_integer x []) ≤ 3)
  ∧ (-2147483648 ≤ x < 2147483648 → zlen (encode_integer x []) ≤ 5).
Proof.
  intros _. unfold encode_integer. repeat case_match; cbn [app];
    rewrite ?zlen_cons, ?zlen_be_bytes, ?zlen_nil; lia.
Qed.

Lemma as_signed_range bits x :
  0 < bits → 0 ≤ x < 2 ^ bits → - 2 ^ (bits - 1) ≤ as_signed bits x < 2 ^ (bits - 1).
Proof.
  intros Hb Hx. unfold as_signed. assert (2 ^ bits = 2 * 2 ^ (bits - 1)).
  { rewrite <- Z.pow_succ_r by lia. f_equal. lia. }
  case_match; lia.
Qed.

Section at_depth.
Context (depth : Z).
Hypothesis Hdepth : 0 ≤ depth ≤ 64.

Lemma accepted_integer x n : i64 x → zlen (encode_integer x []) ≤ n → accepted depth (PackInteger x) n.
Proof. intros Hx Hn. split_and!; [by constructor|done|cbn; lia|done]. Qed.

Lemma consumes_signed read bits k :
  0 < bits ≤ 64 → consumes read (λ x n, 0 ≤ x < 2 ^ bits ∧ n = k) →
  (∀ x, - 2 ^ (bits - 1) ≤ x < 2 ^ (bits - 1) → zlen (encode_integer x []) ≤ 1 + k) →
  consumes (λ d, '(x, d) ← read d; Ok (PackInteger (as_signed bits x), d))
    (λ v n, accepted depth v (1 + n)).
Proof.
  intros Hb Hr Hl. eapply consumes_bind; [exact Hr|]. intros x n _ [Hx ->].
  apply consumes_ret. pose proof (as_signed_range bits x ltac:(lia) Hx) as Hs.
  apply accepted_integer; [|rewrite Z.add_0_r; by apply Hl].
  assert (2 ^ (bits - 1) ≤ 2 ^ 63) by (apply Z.pow_le_mono_r; lia). unfold i64.
  change (2 ^ 63) with 9223372036854775808 in *. lia.
Qed.

(** A payload of announced size, behind a marker and [k] bytes of length. *)
Definition payload (tiny : bool) (read : Decoder → Z → Result (PackStreamValue * Decoder)) : Prop :=
  ∀ k n, announces k n → (tiny = false → k ≠ 0) →
    consumes (λ d, read d n) (λ v n', accepted depth v (1 + k + n')).

Lemma sized_payload tiny size k read :
  payload tiny read → k ≠ 0 → consumes size (λ x n, announces k x ∧ n = k) →
  consumes (sized size read) (λ v n, accepted depth v (1 + n)).
Proof.
  intros Hp Hk Hs. unfold sized. eapply consumes_bind; [exact Hs|]. intros x n _ [Hx ->].
  eapply consumes_mono; [by apply (Hp k)|]. intros v n _. by rewrite Z.add_assoc.
Qed.

Lemma byte_announces : consumes byte (λ x n, announces 1 x ∧ n = 1).
Proof. eapply consumes_mono; [apply consumes_byte|]. unfold announces, u8. intros. lia. Qed.
Lemma u16_announces : consumes read_u16 (λ x n, announces 2 x ∧ n = 2).
Proof. eapply consumes_mono; [apply consumes_u16|]. unfold announces. intros. lia. Qed.
Lemma u32_announces : consumes length32 (λ x n, announces 4 x ∧ n = 4).
Proof. eapply consumes_mono; [apply consumes_length32|]. unfold announces, u32_max. intros. lia. Qed.

Lemma bytes_payload : payload false read_bytes.
Proof.
  intros k n Ha Hk. unfold read_bytes. eapply consumes_bind; [apply consumes_take; by eapply announces_bound|].
  intros s n' _ (Hs & Hl & ->). apply consumes_ret. rewrite Z.add_0_r.
  split_and!; [by constructor|cbn; rewrite Hl; by eapply announces_fits|cbn; lia|].
  cbn [wire]. rewrite zlen_app, Hl. pose proof (announced_length k n 204 205 206 Ha (Hk eq_refl)). lia.
Qed.

Lemma string_payload : payload true read_string.
Proof.
  intros k n Ha Hk. unfold read_string. eapply consumes_bind; [apply consumes_take; by eapply announces_bound|].
  intros s n' _ (Hs & Hl & ->). destruct (utf8_valid s) eqn:Hu; [|by apply consumes_err].
  apply consumes_ret. rewrite Z.add_0_r.
  split_and!; [by do 2 constructor|cbn; rewrite Hl; by eapply announces_fits|cbn; lia|].
  cbn [wire]. unfold wire_string. rewrite zlen_app, Hl. pose proof (announced_tiny k n 128 208 209 210 Ha). lia.
Qed.
End at_depth.

(** The check of an announced count against the bytes left. *)
Lemma consumes_guard {A} (short : Z → bool) e m (Q : A → Z → Prop) :
  violation e → consumes m Q →
  consumes (λ d, left ← usize_sub (zlen (input d)) (offset d); if short left then Err e else m d) Q.
Proof.
  intros He Hm p r Hw Hl. unfold usize_sub. cbn [between input offset].
  pose proof (zlen_nonneg r). rewrite zlen_app. replace (_ <=? _) with true by lia. rbind.
  case_match; [done|by apply Hm].
Qed.

Section elements.
Context (depth : Z) (value : Decoder → Result (PackStreamValue * Decoder)).
Hypothesis Hdepth : 0 ≤ depth ≤ 64.
Hypothesis Hvalue : consumes value (accepted (depth + 1)).

(** A part of a collection. *)
Let part v := pack_wf v ∧ pack_fits v = true ∧ depth + 1 + pack_depth v ≤ 64.

Lemma consumes_values n acc :
  consumes (read_values value n acc)
    (λ vs k, ∃ vs', vs = acc ++ vs' ∧ length vs' = n ∧ Forall part vs'
      ∧ zlen (concat (map wire vs')) ≤ k).
Proof.
  revert acc. induction n as [|n IH]; intros acc.
  { apply consumes_ret. exists []. rewrite app_nil_r. by split_and!; [..|constructor|]. }
  eapply (consumes_bind value (λ v d, read_values value n (acc ++ [v]) d)); [exact Hvalue|].
  intros v k _ (Hw & Hf & Hd & Hl). eapply consumes_mono; [apply IH|].
  intros vs k' _ (vs' & -> & Hn & Hvs & Hl'). exists (v :: vs'). cbn. rewrite <- (assoc_L (++)).
  split_and!; [done|lia|by constructor|]. rewrite zlen_app. lia.
Qed.

Lemma depth_parts (vs : list PackStreamValue) :
  Forall part vs → depth + foldr (λ v n, Z.max (1 + pack_depth v) n) 0 vs ≤ 64.
Proof.
  intros Hvs. apply Z.le_add_le_sub_l, foldr_max_le; [lia|].
  eapply Forall_impl; [exact Hvs|]. intros v (_ & _ & ?). lia.
Qed.

Lemma list_payload : payload depth true (read_list value).
Proof.
  intros k n Ha _. apply consumes_guard; [done|]. eapply consumes_bind; [apply consumes_values|].
  intros vs k' _ (vs' & -> & Hn & Hvs & Hl). apply consumes_ret. cbn [app].
  assert (zlen vs' = n) as Hz by (apply announces_bound in Ha; unfold zlen; lia).
  pose proof (announced_tiny k n 144 212 213 214 Ha) as Ht.
  split_and!; [constructor|cbn|by apply depth_parts|cbn [wire]; rewrite zlen_app, Hz; lia].
  - eapply Forall_impl; [exact Hvs|]. by intros v [? _].
  - rewrite Hz, (announces_fits k n Ha). apply forallb_Forall.
    eapply Forall_impl; [exact Hvs|]. by intros v (_ & ? & _).
Qed.

Lemma structure_consumes n :
  0 ≤ n ≤ 15 → consumes (λ d, read_structure value d n) (λ v k, accepted depth v (1 + k)).
Proof.
  intros Hn. unfold read_structure. eapply consumes_bind; [apply consumes_byte|].
  intros g k _ [Hg ->]. eapply consumes_bind; [apply consumes_values|].
  intros vs k' _ (vs' & -> & Hl & Hvs & Hc). apply consumes_ret. cbn [app].
  assert (zlen vs' = n) as Hz by (unfold zlen; lia).
  split_and!; [constructor; [done|]|cbn|by apply depth_parts|cbn [wire]; rewrite zlen_app; unfold zlen at 1; cbn; lia].
  - eapply Forall_impl; [exact Hvs|]. by intros v [? _].
  - rewrite Hz. replace (n <=? 15) with true by lia. apply forallb_Forall.
    eapply Forall_impl; [exact Hvs|]. by intros v (_ & ? & _).
Qed.

Let entry (p : bytes * PackStreamValue) := str_wf p.1 ∧ fits32 (zlen p.1) = true ∧ part p.2.
Let entry_wire (p : bytes * PackStreamValue) := wire_string p.1 ++ wire p.2.

Lemma concat_perm (l l' : list (bytes * PackStreamValue)) :
  l ≡ₚ l' → zlen (concat (map entry_wire l)) = zlen (concat (map entry_wire l')).
Proof. induction 1; cbn; rewrite ?zlen_app; lia. Qed.

Lemma consumes_entries n acc :
  keys_sorted acc → Forall entry acc →
  consumes (read_entries value n acc)
    (λ vs k, length vs = (n + length acc)%nat ∧ keys_sorted vs ∧ Forall entry vs
      ∧ zlen (concat (map entry_wire vs)) ≤ zlen (concat (map entry_wire acc)) + k).
Proof.
  revert acc. induction n as [|n IH]; intros acc Hs Hacc.
  { apply consumes_ret. split_and!; [done..|lia]. }
  cbn [read_entries]. eapply consumes_bind; [exact Hvalue|].
  intros key k _ (Hkw & Hkf & Hkd & Hkl). destruct key as [| | | | |key| | |]; try by apply consumes_err.
  eapply consumes_bind; [exact Hvalue|]. intros v k1 _ (Hw & Hf & Hd & Hl).
  destruct (btree_insert key v acc) as [[old|] acc'] eqn:Hi; [by apply consumes_err|].
  pose proof (btree_insert_new _ _ _ _ Hi) as Hp. inversion Hkw; subst.
  eapply consumes_mono; [apply IH|].
  - by eapply btree_insert_sorted.
  - rewrite Hp. constructor; [|done]. done.
  - intros vs k2 _ (Hn & Hvs & He & Hc). rewrite (concat_perm _ _ Hp) in Hc.
    apply Permutation_length in Hp. cbn in Hp. cbn [map concat] in Hc. rewrite zlen_app in Hc.
    unfold entry_wire in Hc at 2. cbn [fst snd] in Hc. rewrite zlen_app in Hc. cbn [wire] in Hkl.
    split_and!; [lia|done..|lia].
Qed.

Lemma map_payload : payload depth true (read_map value).
Proof.
  intros k n Ha _. apply (consumes_guard (λ left, left / 2 <? n)); [done|].
  eapply consumes_bind; [by apply consumes_entries|].
  intros vs k' _ (Hn & Hs & Hvs & Hl). apply consumes_ret.
  assert (zlen vs = n) as Hz by (apply announces_bound in Ha; cbn in Hn; unfold zlen; lia).
  pose proof (announced_tiny k n 160 216 217 218 Ha) as Ht. cbn [map concat] in Hl. rewrite zlen_nil in Hl.
  split_and!; [apply pack_wf_map; [exact Hs|]|cbn| |cbn [wire]; rewrite zlen_app, Hz; unfold entry_wire in Hl; lia].
  - eapply Forall_impl; [exact Hvs|]. intros p (? & _ & ? & _). done.
  - rewrite Hz, (announces_fits k n Ha). apply forallb_Forall.
    eapply Forall_impl; [exact Hvs|]. intros p (_ & Hf & _ & Hf' & _). by rewrite Hf, Hf'.
  - cbn [pack_depth]. apply Z.le_add_le_sub_l, (foldr_max_le (λ p, pack_depth p.2)); [lia|].
    eapply Forall_impl; [exact Hvs|]. intros p (_ & _ & _ & _ & ?). lia.
Qed.
End elements.

(** ** Every marker *)

Lemma nibble_range marker : 0 ≤ Z.land marker 15 ≤ 15.
Proof. change 15 with (Z.ones 4). rewrite Z.land_ones by lia. pose proof (Z.mod_pos_bound marker (2 ^ 4) eq_refl). change (Z.ones 4) with 15. lia. Qed.

Lemma nibble_payload depth read marker :
  payload depth true read → consumes (λ d, read d (Z.land marker 15)) (λ v n, accepted depth v (1 + n)).
Proof.
  intros Hp. pose proof (nibble_range marker).
  eapply consumes_mono; [apply (Hp 0); [unfold announces; lia|done]|]. intros v n _. by rewrite Z.add_0_r.
Qed.

Section markers.
Context (depth : Z) (value : Decoder → Result (PackStreamValue * Decoder)).
Hypothesis Hdepth : 0 ≤ depth ≤ 64.
Hypothesis Hvalue : consumes value (accepted (depth + 1)).

Lemma consumes_marker marker :
  u8 marker → consumes (read_marker value marker) (λ v n, accepted depth v (1 + n)).
Proof.
  intros Hm. unfold read_marker.
  pose proof (list_payload depth value Hdepth Hvalue) as Hlist.
  pose proof (map_payload depth value Hdepth Hvalue) as Hmap.
  pose proof (string_payload depth Hdepth) as Hstring. pose proof (bytes_payload depth Hdepth) as Hbytes.
  pose proof byte_announces. pose proof u16_announces. pose proof u32_announces.
  repeat (case_match; [
    first [ by apply nibble_payload
          | by eapply sized_payload; [eassumption| |eassumption]
          | by apply structure_consumes; [..|apply nibble_range]
          | idtac ] |]).
  - apply consumes_ret, accepted_integer; [done|unfold i64; lia|].
    unfold encode_integer. by case_match; [|lia].
  - apply consumes_ret, accepted_integer; [done|..]; unfold as_signed; (case_match; [lia|]);
      [unfold i64; lia|].
    unfold encode_integer. case_match; [lia|]. by case_match; [|lia].
  - apply consumes_ret. split_and!; [constructor|done|cbn; lia|done].
  - eapply consumes_bind; [apply consumes_u64|]. intros x n _ [Hx ->]. apply consumes_ret.
    split_and!; [constructor; unfold u64; lia|done|cbn; lia|].
    cbn [wire]. rewrite zlen_cons, zlen_be_bytes. lia.
  - apply consumes_ret. split_and!; [constructor|done|cbn; lia|done].
  - apply consumes_ret. split_and!; [constructor|done|cbn; lia|done].
  - apply (consumes_signed depth Hdepth byte 8 1); [lia| |].
    + eapply consumes_mono; [apply consumes_byte|]. unfold u8. intros. lia.
    + intros x Hx. apply integer_length; unfold i64; lia.
  - apply (consumes_signed depth Hdepth read_u16 16 2); [lia|apply consumes_u16|].
    intros x Hx. apply integer_length; unfold i64; lia.
  - apply (consumes_signed depth Hdepth read_u32 32 4); [lia|apply consumes_u32|].
    intros x Hx. apply integer_length; unfold i64; lia.
  - apply (consumes_signed depth Hdepth read_u64 64 8); [lia|apply consumes_u64|].
    intros x Hx. apply integer_length; unfold i64; lia.
  - by apply consumes_err.
Qed.
End markers.

Lemma consumes_value fuel depth :
  0 ≤ depth ≤ 65 → 66 ≤ Z.of_nat fuel + depth →
  consumes (λ d, value fuel d depth) (accepted depth).
Proof.
  revert depth. induction fuel as [|fuel IH]; intros depth Hd Hf; [lia|].
  destruct (decide (depth = 65)) as [->|Hne].
  { cbn. unfold MAX_VALUE_DEPTH. by apply consumes_err. }
  eapply consumes_ext; [intros d; apply value_marked; lia|].
  eapply consumes_bind; [apply consumes_byte|]. intros marker n _ [Hm ->].
  apply consumes_marker; [lia| |done]. apply IH; lia.
Qed.

Lemma decode_accepts input :
  bytes_wf input → zlen input ≤ isize_max →
  posts violation (decode_packstream input) (λ v, accepted 0 v (zlen input)).
Proof.
  intros Hw Hl. unfold decode_packstream. eapply posts_bind.
  - apply (consumes_value depth_fuel 0 ltac:(lia) ltac:(unfold depth_fuel, MAX_VALUE_DEPTH; lia) [] input); done.
  - intros [v d] (w & r & -> & -> & Ha). cbn [offset between app]. case_match; [|done].
    cbn. destruct Ha as (? & ? & ? & ?). split_and!; [done..|]. lia.
Qed.

Lemma decode_wire v :
  pack_wf v → pack_fits v = true → zlen (wire v) ≤ isize_max →
  decode_packstream (wire v) = if pack_depth v <=? MAX_VALUE_DEPTH then Ok v else Err nesting_limit.
Proof.
  intros Hw Hf Hl. unfold decode_packstream, MAX_VALUE_DEPTH.
  pose proof (value_yields v depth_fuel 0 Hw Hf ltac:(lia) ltac:(unfold depth_fuel, MAX_VALUE_DEPTH; lia) [] []) as H.
  unfold between in H. cbn [app] in H. rewrite app_nil_r, zlen_nil in H. rewrite (H Hl).
  unfold within_depth. rewrite Z.add_0_l.
  destruct (pack_depth v <=? 64); cbn; [|done]. by rewrite Z.eqb_refl.
Qed.

(** C34: the PackStream codec round trip.  Encoding a well-formed value either
    succeeds, and decoding the bytes gives the value back, or a nesting error
    exactly when the value is nested deeper than [MAX_VALUE_DEPTH]; or it is
    refused as a protocol violation, exactly when a length needs more than 32
    bits or a structure has more than 15 fields.  The encoder never panics. *)
Theorem packstream_roundtrip v :
  pack_wf v →
  match encode_packstream v [] with
  | Ok bs =>
      pack_fits v = true
      ∧ (zlen bs ≤ isize_max →
         decode_packstream bs = if pack_depth v <=? MAX_VALUE_DEPTH then Ok v else Err nesting_limit)
  | Err e => pack_fits v = false ∧ code e = ProtocolViolation
  | Abort _ => False
  end.
Proof.
  intros Hw. pose proof (encode_wire v []) as He. destruct (pack_fits v) eqn:Hf.
  - rewrite He. split; [done|]. by apply decode_wire.
  - destruct He as (e & -> & ?). done.
Qed.

(** C35: decoding arbitrary bytes.  On every input that fits in memory the
    decoder returns: a protocol violation, or a well-formed value nested at
    most [MAX_VALUE_DEPTH] levels, which encodes again to a form that decodes
    to the same value and is no longer than the input.  It never panics, and
    its recursion ends within the depth it checks. *)
Theorem packstream_decode_total input :
  bytes_wf input → zlen input ≤ isize_max →
  match decode_packstream input with
  | Ok v =>
      pack_wf v ∧ pack_depth v ≤ MAX_VALUE_DEPTH
      ∧ ∃ bs, encode_packstream v [] = Ok bs ∧ zlen bs ≤ zlen input ∧ decode_packstream bs = Ok v
  | Err e => code e = ProtocolViolation
  | Abort _ => False
  end.
Proof.
  intros Hw Hl. pose proof (decode_accepts input Hw Hl) as H.
  destruct (decode_packstream input) as [v|e|]; [|exact H..].
  destruct H as (Hv & Hf & Hd & Hn). unfold MAX_VALUE_DEPTH. split_and!; [done|lia|].
  exists (wire v). pose proof (encode_wire v []) as He. rewrite Hf in He. split_and!; [done..|].
  rewrite decode_wire by (done || lia). unfold MAX_VALUE_DEPTH.
  by replace (pack_depth v <=? 64) with true by lia.
Qed.

(** A value with every container, for the witnesses. *)
Definition bolt_sample : PackStreamValue :=
  PackStructure 113 [
    PackMap [(lit "a", PackList [PackInteger (-17); PackNull; PackFloat 4607182418800017408]);
             (lit "b", PackBytes [0; 255])];
    PackInteger 70000; PackBoolean true; PackString (lit "bolt")].

Ltac solve_pack_wf :=
  repeat first [ apply pack_wf_structure | apply pack_wf_map | apply pack_wf_list | apply Forall_cons_2
               | apply Forall_nil_2 | apply pack_wf_null | apply pack_wf_boolean | apply pack_wf_integer
               | apply pack_wf_float | apply pack_wf_bytes | apply pack_wf_string | split ];
  try done; try (unfold u8; lia); vm_compute; repeat constructor; done.

Lemma bolt_sample_wf : pack_wf bolt_sample.
Proof. solve_pack_wf. Qed.

Lemma packstream_roundtrip_witness :
  pack_wf bolt_sample
  ∧ ∃ bs, encode_packstream bolt_sample [] = Ok bs ∧ decode_packstream bs = Ok bolt_sample.
Proof.
  split; [exact bolt_sample_wf|]. pose proof (packstream_roundtrip bolt_sample bolt_sample_wf) as H.
  eexists. split; [vm_compute; reflexivity|].
  destruct (encode_packstream bolt_sample []) as [bs|e|w] eqn:E; [|vm_compute in E; discriminate E..].
  vm_compute in E. injection E as <-. destruct H as [_ H]. rewrite H by done. vm_compute. reflexivity.
Defined.

Lemma packstream_decode_total_witness :
  let input := [209; 0; 2; 104; 105] in
  bytes_wf input ∧ zlen input ≤ isize_max
  ∧ ∃ bs, encode_packstream (PackString (lit "hi")) [] = Ok bs ∧ zlen bs ≤ 5
      ∧ decode_packstream bs = Ok (PackString (lit "hi")).
Proof.
  cbn zeta. assert (bytes_wf [209; 0; 2; 104; 105]) as Hw by (repeat constructor; done).
  assert (zlen [209; 0; 2; 104; 105] ≤ isize_max) as Hl by done. split_and!; [done..|].
  pose proof (packstream_decode_total _ Hw Hl) as H.
  replace (decode_packstream _) with (Ok (PackString (lit "hi")) : Result PackStreamValue) in H
    by (vm_compute; reflexivity).
  exact (proj2 (proj2 H)).
Defined.
