(* ===== verification/BoltFraming.v ===== *)
(** * Bolt messages on a connection

    The chunked framing between [write_encoded_message] and
    [read_chunked_message], and the version handshake.  [frame] is the byte
    form of a message; the writer produces it and the reader takes it apart,
    whatever follows it on the connection. *)

From stdpp Require Import prelude gmap strings sorting.
From Stdlib Require Import ZArith Lia.
From S2P Require Import Prelude Machine Types Bolt BoltTheorems BoltDecode.

Local Open Scope Z_scope.

(** ** [slice.chunks] *)

Section chunks.
Context {A : Type} (n : nat).
Hypothesis Hn : (0 < n)%nat.
Implicit Types l : list A.

Lemma slice_chunks_concat fuel l : (length l ≤ fuel)%nat → concat (slice_chunks fuel n l) = l.
Proof using Hn.
  revert l. induction fuel as [|fuel IH]; intros [|a l] Hl; cbn [slice_chunks concat]; try done; [cbn in Hl; lia|].
  rewrite IH; [apply firstn_skipn|]. rewrite length_skipn. cbn in *. lia.
Qed.

Lemma slice_chunks_sizes fuel l :
  Forall (λ c, (0 < length c ≤ n)%nat) (slice_chunks fuel n l).
Proof using Hn.
  revert l. induction fuel as [|fuel IH]; intros [|a l]; cbn [slice_chunks]; constructor; [|apply IH].
  rewrite length_firstn. cbn. lia.
Qed.
End chunks.

Definition message_chunks (payload : bytes) : list bytes :=
  slice_chunks (length payload) (Z.to_nat u16_max) payload.

Definition chunk_frame (c : bytes) : bytes := be_bytes 2 (zlen c) ++ c.

Definition frame (payload : bytes) : bytes :=
  concat (map chunk_frame (message_chunks payload)) ++ [0; 0].

(** The sizes a chunk may have. *)
Definition chunk_ok (c : bytes) : Prop := 0 < zlen c ≤ u16_max.

Lemma message_chunks_ok payload : Forall chunk_ok (message_chunks payload).
Proof.
  eapply Forall_impl; [apply slice_chunks_sizes; unfold u16_max; lia|].
  intros c Hc. unfold chunk_ok, zlen, u16_max in *. lia.
Qed.

Lemma message_chunks_concat payload : concat (message_chunks payload) = payload.
Proof. apply slice_chunks_concat; [unfold u16_max; lia|done]. Qed.

(** ** Writing *)

Lemma write_all_app s a b :
  (s' ← write_all s a; write_all s' b) = write_all s (a ++ b).
Proof.
  unfold write_all. rewrite zlen_app. pose proof (zlen_nonneg b).
  destruct (Z.leb_spec (zlen a) (accepts s)); cbn.
  - destruct (Z.leb_spec (zlen b) (accepts s - zlen a)), (Z.leb_spec (zlen a + zlen b) (accepts s)); try lia; [|done].
    rewrite <- (assoc_L (++)). do 2 f_equal. lia.
  - by replace (zlen a + zlen b <=? accepts s) with false by lia.
Qed.

Lemma write_all_each {A} (f : A → bytes) l tail s :
  (s ← foldM (λ s a, write_all s (f a)) s l; write_all s tail) = write_all s (concat (map f l) ++ tail).
Proof.
  revert s. induction l as [|a l IH]; intros s; cbn; [done|].
  rewrite <- (assoc_L (++)), <- write_all_app. destruct (write_all s (f a)); cbn; [apply IH|done..].
Qed.

Lemma write_encoded_frame s payload : write_encoded_message s payload = write_all s (frame payload).
Proof.
  unfold write_encoded_message, frame. rewrite <- write_all_each. f_equal. apply foldM_ext.
  eapply Forall_impl; [apply message_chunks_ok|]. unfold chunk_ok, u16_max. intros c Hc s'.
  rewrite Z.mod_small by lia. apply write_all_app.
Qed.

(** ** Reading *)

Lemma read_exact_app bs rest e n :
  n = zlen bs → read_exact (mkStream (bs ++ rest) e) n = Ok (bs, mkStream rest e).
Proof.
  intros ->. unfold read_exact. cbn [incoming ending].
  rewrite (get_range_app [] bs rest : get_range (bs ++ rest) 0 (zlen bs) = Some bs).
  do 3 f_equal. unfold zlen. by rewrite Nat2Z.id, drop_app_length.
Qed.

(** Either enough bytes are there, or the stream ends. *)
Lemma read_exact_cases s n :
  0 ≤ n →
  (∃ bs rest, incoming s = bs ++ rest ∧ zlen bs = n ∧ read_exact s n = Ok (bs, mkStream rest (ending s)))
  ∨ (zlen (incoming s) < n ∧ read_exact s n = Err (ending s)).
Proof.
  intros Hn. destruct (get_range (incoming s) 0 n) as [bs|] eqn:Hg.
  - left. pose proof (get_range_Some _ _ _ _ (Z.le_refl 0) Hg) as (p & r & E & Hp & Hl).
    destruct p as [|b p]; [|rewrite zlen_cons in Hp; pose proof (zlen_nonneg p); lia].
    rewrite zlen_nil in Hl. exists bs, r. destruct s as [i e]. cbn in *. subst i.
    split_and!; [done|lia|]. apply read_exact_app. lia.
  - right. unfold read_exact. rewrite Hg. split; [|done].
    unfold get_range in Hg. case_match; [done|]. lia.
Qed.

Lemma from_be_be2 n : 0 ≤ n ≤ u16_max → from_be (be_bytes 2 n) = n.
Proof. intros Hn. rewrite from_be_be_bytes. apply Z.mod_small. unfold u16_max in Hn. cbn. lia. Qed.

Lemma be_bytes_from_be n bs : bytes_wf bs → length bs = n → be_bytes n (from_be bs) = bs.
Proof.
  intros Hw <-. unfold be_bytes, from_be. rewrite <- (length_rev bs).
  rewrite le_bytes_from_le by (by apply Forall_rev). apply rev_involutive.
Qed.

Lemma read_chunk fuel acc mb c rest e :
  chunk_ok c → mb + zlen c ≤ usize_max →
  read_chunks (S fuel) acc mb (mkStream (chunk_frame c ++ rest) e)
  = read_chunks fuel (acc ++ [c]) (mb + zlen c) (mkStream rest e).
Proof.
  intros Hc Hmb. unfold chunk_ok in Hc. cbn [read_chunks]. unfold chunk_frame. rewrite <- (assoc_L (++)).
  rewrite read_exact_app by (by rewrite zlen_be_bytes). rewrite from_be_be2 by lia.
  replace (zlen c =? 0) with false by lia. unfold checked_add.
  replace (mb + zlen c <=? usize_max) with true by lia. rbind. by rewrite read_exact_app.
Qed.

Lemma read_end fuel acc mb rest e :
  read_chunks (S fuel) acc mb (mkStream ([0; 0] ++ rest) e)
  = if mb =? 0 then read_chunks fuel acc mb (mkStream rest e)
    else Ok (Some (concat acc), mkStream rest e).
Proof. cbn [read_chunks]. by rewrite read_exact_app. Qed.

Definition no_ops (k : nat) : bytes := concat (replicate k [0; 0]).

Lemma read_no_ops k fuel rest e :
  read_chunks (k + fuel) [] 0 (mkStream (no_ops k ++ rest) e) = read_chunks fuel [] 0 (mkStream rest e).
Proof. induction k as [|k IH]; [done|]. exact (eq_trans (read_end (k + fuel) [] 0 (no_ops k ++ rest) e) IH). Qed.

Lemma read_message cs fuel acc rest e :
  Forall chunk_ok cs → 0 < zlen (concat (acc ++ cs)) ≤ usize_max → (length cs < fuel)%nat →
  read_chunks fuel acc (zlen (concat acc)) (mkStream (concat (map chunk_frame cs) ++ [0; 0] ++ rest) e)
  = Ok (Some (concat (acc ++ cs)), mkStream rest e).
Proof.
  intros Hcs. revert fuel acc. induction Hcs as [|c cs Hc Hcs IH]; intros [|fuel] acc Hl Hf; try (cbn in Hf; lia).
  - rewrite app_nil_r in *. cbn [map concat]. rewrite app_nil_l, read_end. by replace (_ =? 0) with false by lia.
  - cbn [map concat]. rewrite <- (assoc_L (++)), read_chunk; [|done|].
    + replace (zlen (concat acc) + zlen c) with (zlen (concat (acc ++ [c])))
        by (rewrite concat_app, zlen_app; cbn; by rewrite app_nil_r).
      replace (acc ++ c :: cs) with ((acc ++ [c]) ++ cs) in * by (by rewrite <- (assoc_L (++))).
      apply IH; [done|cbn in Hf; lia].
    + rewrite concat_app, !zlen_app in Hl. cbn in Hl. rewrite zlen_app in Hl.
      pose proof (zlen_nonneg (concat cs)). lia.
Qed.

Lemma length_no_ops k : length (no_ops k) = (2 * k)%nat.
Proof. unfold no_ops. induction k as [|k IH]; cbn [replicate concat]; [done|]. rewrite length_app, IH. cbn. lia. Qed.

Lemma length_chunk_frames cs : (length cs ≤ length (concat (map chunk_frame cs)))%nat.
Proof.
  induction cs as [|c cs IH]; cbn [map concat]; [done|]. unfold chunk_frame at 1.
  rewrite !length_app, length_be_bytes. cbn [length]. lia.
Qed.

(** Any chunking of a message reads back as the message. *)
Lemma read_framed k cs rest e :
  Forall chunk_ok cs → cs ≠ [] → zlen (concat cs) ≤ usize_max →
  read_chunked_message (mkStream (no_ops k ++ concat (map chunk_frame cs) ++ [0; 0] ++ rest) e)
  = Ok (Some (concat cs), mkStream rest e).
Proof.
  intros Hcs Hne Hl. unfold read_chunked_message. cbn [incoming].
  set (len := length _). assert (k + S (length cs) ≤ len)%nat as Hlen.
  { unfold len. rewrite !length_app, length_no_ops. pose proof (length_chunk_frames cs). cbn [length]. lia. }
  replace (S len) with (k + (S len - k))%nat by lia. rewrite read_no_ops.
  apply (read_message cs (S len - k) []); [done| |lia]. cbn [app]. split; [|done].
  destruct Hcs as [|c cs Hc _]; [done|]. cbn. rewrite zlen_app. unfold chunk_ok in Hc.
  pose proof (zlen_nonneg (concat cs)). lia.
Qed.

(** ** Every stream is read to a message, to its end or to an error *)

Definition reading (before : bytes) (mb : Z) (e : IoError) (acc : list bytes)
    (result : option bytes * Stream) : Prop :=
  match result with
  | (Some m, s') =>
      ∃ k cs, (mb ≠ 0 → k = 0%nat) ∧ Forall chunk_ok cs ∧ m = concat (acc ++ cs)
        ∧ before = no_ops k ++ concat (map chunk_frame cs) ++ [0; 0] ++ incoming s'
        ∧ ending s' = e ∧ (mb = 0 → cs ≠ [])
  | (None, s') =>
      mb = 0 ∧ kind e = UnexpectedEof ∧ s' = mkStream [] e ∧ ∃ k r, before = no_ops k ++ r ∧ zlen r < 2
  end.

Lemma read_chunks_total fuel acc mb s :
  bytes_wf (incoming s) → (length (incoming s) < fuel)%nat → 0 ≤ mb →
  mb + zlen (incoming s) ≤ isize_max →
  posts (eq (Error_from_io (ending s))) (read_chunks fuel acc mb s)
    (reading (incoming s) mb (ending s) acc).
Proof.
  revert acc mb s. induction fuel as [|fuel IH]; intros acc mb s Hw Hf Hmb Hl; [lia|].
  cbn [read_chunks]. destruct (read_exact_cases s 2) as [(size & rest & E & Hs & ->)|[Hshort ->]]; [lia|..].
  2: { destruct (kind (ending s)) eqn:Hk; [|done]. destruct (Z.eqb_spec mb 0); [|done].
       split_and!; [done..|]. by exists 0%nat, (incoming s). }
  rewrite E in Hw, Hf, Hl. apply Forall_app in Hw as [Hws Hwr]. rewrite length_app in Hf. rewrite zlen_app in Hl.
  assert (length size = 2%nat) as Hs' by (unfold zlen in Hs; lia).
  pose proof (from_be_bound size Hws) as Hb. rewrite Hs in Hb. change (256 ^ 2) with 65536 in Hb.
  pose proof (be_bytes_from_be 2 size Hws Hs') as Esize. destruct (Z.eqb_spec (from_be size) 0) as [H0|H0].
  - rewrite H0 in Esize. change (be_bytes 2 0) with [0; 0] in Esize. subst size.
    destruct (Z.eqb_spec mb 0) as [->|Hne].
    + eapply posts_mono; [apply (IH acc 0 (mkStream rest (ending s))); cbn [incoming]; [done|lia|lia|lia]|].
      cbn [incoming ending]. intros [[m|] s'].
      * intros (k & cs & _ & Hcs & -> & Hr & He & Hne). exists (S k), cs. split_and!; [done..| |done|done].
        by rewrite E, Hr.
      * intros (_ & Hk & -> & k & r & Hr & Hlr). split_and!; [done..|]. exists (S k), r. by rewrite E, Hr.
    + exists 0%nat, []. split_and!; [done|constructor|by rewrite app_nil_r|by rewrite E|done|done].
  - unfold checked_add. replace (mb + from_be size <=? usize_max) with true
      by (unfold isize_max, i64_max, usize_max, u64_max in *; pose proof (zlen_nonneg rest); lia). rbind.
    destruct (read_exact_cases (mkStream rest (ending s)) (from_be size))
      as [(c & rest' & E' & Hc & ->)|[_ ->]]; [lia| |done].
    cbn [incoming ending] in E'. subst rest. cbn [io]. rbind.
    apply Forall_app in Hwr as [_ Hwr]. rewrite length_app in Hf. rewrite zlen_app in Hl.
    eapply posts_mono; [apply (IH (acc ++ [c]) (mb + from_be size) (mkStream rest' (ending s)));
      cbn [incoming ending]; [done|lia|lia|lia]|].
    cbn [incoming ending]. intros [[m|] s']; [|intros (? & _); lia].
    intros (k & cs & Hk & Hcs & -> & Hr & He & _). specialize (Hk ltac:(lia)). subst k.
    exists 0%nat, (c :: cs). split_and!; [done| | | |done|done].
    + constructor; [|done]. unfold chunk_ok, u16_max. lia.
    + by rewrite <- (assoc_L (++)).
    + rewrite E, Hr. cbn [map concat no_ops replicate]. unfold chunk_frame at 2. rewrite Hc, Esize.
      by rewrite <- !(assoc_L (++)).
Qed.


Lemma frame_wf payload : bytes_wf payload → bytes_wf (frame payload).
Proof.
  intros Hw. unfold frame. apply Forall_app; split; [|by repeat constructor]. apply Forall_concat.
  apply list.Forall_forall. intros c (c' & -> & Hc)%list_elem_of_fmap.
  apply Forall_app; split; [apply be_bytes_wf|]. rewrite <- (message_chunks_concat payload) in Hw.
  unfold bytes_wf in *. rewrite list.Forall_forall in *. intros x Hx. apply Hw, list_elem_of_In, in_concat.
  exists c'. by rewrite <- !list_elem_of_In.
Qed.

Lemma chunk_frames_longer cs : (length (concat cs) ≤ length (concat (map chunk_frame cs)))%nat.
Proof.
  induction cs as [|c cs IH]; cbn [map concat]; [done|]. unfold chunk_frame at 1. rewrite !length_app. lia.
Qed.

(** A truncated frame is not a message. *)
Lemma frame_prefix payload n e m s :
  bytes_wf payload → payload ≠ [] → zlen payload ≤ isize_max →
  (n < length (frame payload))%nat → zlen (frame payload) ≤ isize_max →
  read_chunked_message (mkStream (firstn n (frame payload)) e) ≠ Ok (Some m, s).
Proof.
  intros Hw Hne Hl Hn Hf Hread.
  pose proof (frame_wf payload Hw) as Hwf.
  pose proof (read_chunks_total (S (length (firstn n (frame payload)))) [] 0 (mkStream (firstn n (frame payload)) e)) as H.
  cbn [incoming ending] in H. unfold read_chunked_message in Hread. cbn [incoming] in Hread. rewrite Hread in H.
  destruct H as (k & cs & _ & Hcs & _ & E & _ & Hcne); [by apply Forall_take|lia|lia| |].
  { unfold zlen in *. rewrite length_firstn. lia. }
  assert (zlen (concat cs) ≤ usize_max) as Hcl.
  { apply (f_equal length) in E. rewrite length_firstn, !length_app in E.
    pose proof (chunk_frames_longer cs).
    unfold zlen, isize_max, usize_max, u64_max, i64_max in *. lia. }
  pose proof (read_framed k cs (incoming s ++ skipn n (frame payload)) e Hcs (Hcne eq_refl) Hcl) as H1.
  rewrite (assoc_L (++) [0; 0]), (assoc_L (++) (concat _)), (assoc_L (++) (no_ops k)) in H1. rewrite <- E, firstn_skipn in H1.
  pose proof (read_framed 0 (message_chunks payload) [] e (message_chunks_ok payload)) as H2.
  rewrite message_chunks_concat in H2. cbn [no_ops replicate concat app] in H2.
  change (concat (map chunk_frame (message_chunks payload)) ++ [0; 0]) with (frame payload) in H2.
  rewrite H2 in H1.
  - injection H1 as _ H1. symmetry in H1. apply app_eq_nil in H1 as [_ H1].
    apply (f_equal length) in H1. rewrite length_skipn in H1. cbn in H1. lia.
  - intros E0. apply Hne. by rewrite <- (message_chunks_concat payload), E0.
  - unfold isize_max, usize_max, u64_max, i64_max in *. lia.
Qed.

(** ** Messages end to end *)

Lemma wire_length_wf n m8 m16 m32 :
  0 ≤ n → u8 m8 → u8 m16 → u8 m32 → bytes_wf (wire_length n m8 m16 m32).
Proof.
  intros Hn H8 H16 H32. unfold wire_length. destruct (Z.leb_spec n 255).
  - repeat constructor; unfold u8 in *; lia.
  - case_match; (constructor; [done|apply be_bytes_wf]).
Qed.

Lemma wire_tiny_wf n tiny m8 m16 m32 :
  0 ≤ n → tiny ∈ [128; 144; 160; 176] → u8 m8 → u8 m16 → u8 m32 → bytes_wf (wire_tiny n tiny m8 m16 m32).
Proof.
  intros Hn Ht H8 H16 H32. unfold wire_tiny. destruct (Z.leb_spec n 15); [|by apply wire_length_wf].
  destruct (nibble tiny n) as [-> _]; [done|lia|]. constructor; [|constructor].
  unfold u8. set_unfold. lia.
Qed.

Lemma wire_string_wf s : bytes_wf s → bytes_wf (wire_string s).
Proof.
  intros Hs. apply Forall_app; split; [|done].
  apply wire_tiny_wf; [apply zlen_nonneg|set_solver|unfold u8; lia..].
Qed.

Lemma wire_parts_wf {A} (f : A → bytes) l : Forall (λ a, bytes_wf (f a)) l → bytes_wf (concat (map f l)).
Proof. intros Hl. by apply Forall_concat, Forall_fmap. Qed.

Lemma encode_integer_wf x : bytes_wf (encode_integer x []).
Proof.
  pose proof (Z.mod_pos_bound x 256 eq_refl).
  unfold encode_integer. repeat case_match; cbn [app]; repeat first [apply be_bytes_wf | constructor];
    unfold u8; lia.
Qed.

Lemma wire_wf v : pack_wf v → pack_fits v = true → bytes_wf (wire v).
Proof.
  induction v as [|b|x|x|s|s|vs IH|vs IH|g vs IH] using PackStreamValue_nested_ind; intros Hw Hf;
    inversion Hw; subst; cbn [wire].
  - by repeat constructor.
  - destruct b; by repeat constructor.
  - apply encode_integer_wf.
  - constructor; [done|apply be_bytes_wf].
  - apply Forall_app; split; [|done]. apply wire_length_wf; [apply zlen_nonneg|unfold u8; lia..].
  - apply wire_string_wf. by destruct H0.
  - cbn in Hf. apply andb_true_iff in Hf as [_ Hf%forallb_Forall].
    apply Forall_app; split; [apply wire_tiny_wf; [apply zlen_nonneg|set_solver|unfold u8; lia..]|].
    apply wire_parts_wf. rewrite list.Forall_forall in *. auto.
  - cbn in Hf. apply andb_true_iff in Hf as [_ Hf%forallb_Forall].
    apply Forall_app; split; [apply wire_tiny_wf; [apply zlen_nonneg|set_solver|unfold u8; lia..]|].
    apply wire_parts_wf. rewrite list.Forall_forall in *. intros p Hp.
    specialize (Hf p Hp). apply andb_true_iff in Hf as [_ ?]. destruct (H1 p Hp) as [[? _] ?].
    apply Forall_app; split; [by apply wire_string_wf|by apply IH].
  - cbn in Hf. apply andb_true_iff in Hf as [Hl Hf%forallb_Forall]. pose proof (zlen_nonneg vs).
    destruct (nibble 176 (zlen vs)) as [-> _]; [set_solver|lia|].
    constructor; [unfold u8; lia|]. constructor; [done|].
    apply wire_parts_wf. rewrite list.Forall_forall in *. auto.
Qed.

Lemma frame_longer payload : zlen payload ≤ zlen (frame payload).
Proof.
  pose proof (chunk_frames_longer (message_chunks payload)) as Hc. rewrite message_chunks_concat in Hc.
  unfold frame, zlen. rewrite length_app. lia.
Qed.

(** A framed value is read back, whatever comes before and after it. *)
Lemma frame_reads v k rest e :
  pack_wf v → pack_fits v = true → zlen (frame (wire v)) ≤ isize_max →
  read_chunked_message (mkStream (no_ops k ++ frame (wire v) ++ rest) e) = Ok (Some (wire v), mkStream rest e)
  ∧ decode_packstream (wire v) = if pack_depth v <=? MAX_VALUE_DEPTH then Ok v else Err nesting_limit.
Proof.
  intros Hw Hf Hl.
  assert (wire v ≠ []) as Hne by (intros E; pose proof (wire_nonempty v) as Hz; rewrite E in Hz; done).
  assert (zlen (wire v) ≤ isize_max) as Hlw by (pose proof (frame_longer (wire v)); lia).
  split; [|by apply decode_wire].
  unfold frame. rewrite <- (assoc_L (++)). rewrite <- (message_chunks_concat (wire v)) at 2.
  apply read_framed; [apply message_chunks_ok| |].
  - intros E. apply Hne. by rewrite <- (message_chunks_concat (wire v)), E.
  - rewrite message_chunks_concat. unfold isize_max, usize_max, u64_max, i64_max in *. lia.
Qed.

(** C37: a message written to a connection arrives.  Sending a well-formed
    value puts its frame behind what was sent before; whoever reads it, after
    any number of empty chunks and before any other bytes, takes exactly the
    frame off the connection and decodes the value, or refuses its nesting;
    and if the connection breaks anywhere inside the frame no message is
    delivered.  Sending fails only for a value the format cannot hold, or
    with the connection's error when it takes fewer bytes than the frame. *)
Theorem bolt_message_exchange v out :
  pack_wf v → zlen (frame (wire v)) ≤ isize_max →
  match write_owned_message out v with
  | Ok out' =>
      written out' = written out ++ frame (wire v)
      ∧ (∀ k rest e, ∃ payload,
           read_chunked_message (mkStream (no_ops k ++ frame (wire v) ++ rest) e)
             = Ok (Some payload, mkStream rest e)
           ∧ decode_packstream payload = if pack_depth v <=? MAX_VALUE_DEPTH then Ok v else Err nesting_limit)
      ∧ (∀ n e m s, (n < length (frame (wire v)))%nat →
           read_chunked_message (mkStream (firstn n (frame (wire v))) e) ≠ Ok (Some m, s))
  | Err e =>
      (pack_fits v = false ∧ code e = ProtocolViolation)
      ∨ (accepts out < zlen (frame (wire v)) ∧ e = Error_from_io (broken out))
  | Abort _ => False
  end.
Proof.
  intros Hw Hl. unfold write_owned_message. pose proof (encode_wire v []) as He.
  destruct (pack_fits v) eqn:Hf; [|destruct He as (e & -> & ?); by left].
  rewrite He. cbn [app]. rbind. rewrite write_encoded_frame. unfold write_all.
  destruct (Z.leb_spec (zlen (frame (wire v))) (accepts out)); [|by right].
  assert (wire v ≠ []) as Hne by (intros E; pose proof (wire_nonempty v) as Hz; rewrite E in Hz; done).
  assert (zlen (wire v) ≤ isize_max) by (pose proof (frame_longer (wire v)); lia).
  cbn [written]. split_and!; [done| |].
  - intros k rest e. exists (wire v). by apply frame_reads.
  - intros n e m s Hn. apply frame_prefix; [by apply wire_wf|done..].
Qed.

(** ** The handshake *)

Lemma from_be_4 a b c d : from_be [a; b; c; d] = d + 256 * (c + 256 * (b + 256 * a)).
Proof. unfold from_be, rev, app, from_le. lia. Qed.

(** A proposal names 5.0 when its range reaches from its minor version down to
    zero, no further. *)
Lemma proposal_v5_0 a b c d :
  bytes_wf [a; b; c; d] → proposal_includes_v5_0 (from_be [a; b; c; d]) = true ↔ a = 0 ∧ b = c ∧ d = 5.
Proof.
  intros Hw. rewrite from_be_4. unfold bytes_wf in Hw. rewrite !Forall_cons in Hw. unfold u8 in Hw.
  unfold proposal_includes_v5_0, saturating_sub. change 255 with (Z.ones 8).
  rewrite !Z.land_ones, !Z.shiftr_div_pow2 by lia.
  rewrite !andb_true_iff, !Z.eqb_eq, Z.leb_le.
  set (x := d + _).
  assert (x mod 2 ^ 8 = d) as -> by (subst x; Z.div_mod_to_equations; lia).
  assert (x / 2 ^ 8 = c + 256 * (b + 256 * a)) as -> by (subst x; Z.div_mod_to_equations; lia).
  assert (x / 2 ^ 16 = b + 256 * a) as -> by (subst x; Z.div_mod_to_equations; lia).
  assert (x / 2 ^ 24 = a) as -> by (subst x; Z.div_mod_to_equations; lia).
  assert ((c + 256 * (b + 256 * a)) mod 2 ^ 8 = c) as -> by (Z.div_mod_to_equations; lia).
  assert ((b + 256 * a) mod 2 ^ 8 = b) as -> by (Z.div_mod_to_equations; lia).
  lia.
Qed.

(** The proposals of a handshake that name 5.0. *)
Definition names_v5_0 (p : bytes) : Prop := ∃ m, p = [0; m; m; 5].

Lemma chunks_exact4_concat l n :
  length l = (4 * n)%nat → concat (chunks_exact4 l) = l ∧ Forall (λ p, length p = 4%nat) (chunks_exact4 l)
  ∧ length (chunks_exact4 l) = n.
Proof.
  revert l. induction n as [|n IH]; intros l Hl; [by destruct l|].
  destruct l as [|a [|b [|c [|d l]]]]; cbn [length] in Hl; try lia.
  destruct (IH l) as (E & Hf & Hn); [lia|]. cbn [chunks_exact4 concat length]. rewrite E, Hn.
  split_and!; [done|by constructor|done].
Qed.

Lemma supported_proposals ps :
  Forall (λ p, length p = 4%nat) ps → bytes_wf (concat ps) →
  existsb proposal_includes_v5_0 (map from_be ps) = true ↔ Exists names_v5_0 ps.
Proof.
  induction 1 as [|p ps Hp _ IH]; cbn [map existsb concat].
  { intros _. split; [done|by intros ?%Exists_nil]. }
  intros [Hw Hws]%Forall_app. rewrite orb_true_iff, Exists_cons, IH by done.
  destruct p as [|a [|b [|c [|d [|? ?]]]]]; try done. rewrite proposal_v5_0 by done.
  clear IH. unfold names_v5_0. split; (intros [H|H]; [left|by right]).
  - destruct H as (-> & -> & ->). by exists c.
  - by destruct H as (m & [= -> -> -> ->]).
Qed.

(** the version handshake.  The server agrees exactly when the client
    sends the Bolt magic and four proposals of which one names version 5.0,
    and then answers 5.0; it answers zeros to four proposals that do not,
    answers nothing to a client that closes first, and fails only on a wrong
    magic or an error of the connection.  It consumes the twenty bytes of the
    handshake and no more. *)
Theorem handshake_selects s out :
  bytes_wf (incoming s) →
  let handshake ps s' :=
    length ps = 4%nat ∧ Forall (λ p, length p = 4%nat) ps
    ∧ incoming s = be_bytes 4 BOLT_MAGIC ++ concat ps ++ incoming s' in
  match negotiate s out with
  | Ok (true, s', out') =>
      ∃ ps, handshake ps s' ∧ Exists names_v5_0 ps ∧ written out' = written out ++ [0; 0; 0; 5]
  | Ok (false, s', out') =>
      (∃ ps, handshake ps s' ∧ ¬ Exists names_v5_0 ps ∧ written out' = written out ++ [0; 0; 0; 0])
      ∨ (zlen (incoming s) < 20 ∧ kind (ending s) = UnexpectedEof ∧ out' = out)
  | Err e =>
      (20 ≤ zlen (incoming s) ∧ firstn 4 (incoming s) ≠ be_bytes 4 BOLT_MAGIC ∧ code e = ProtocolViolation)
      ∨ (zlen (incoming s) < 20 ∧ kind (ending s) = OtherIo ∧ e = Error_from_io (ending s))
      ∨ (accepts out < 4 ∧ e = Error_from_io (broken out))
  | Abort _ => False
  end.
Proof.
  intros Hw handshake. unfold negotiate.
  destruct (read_exact_cases s 20) as [(hs & rest & E & Hl & ->)|[Hs ->]]; [lia|..].
  2: { destruct (kind (ending s)) eqn:Hk; [by right|]. right. by left. }
  assert (∃ magic props, hs = magic ++ props ∧ length magic = 4%nat ∧ length props = 16%nat)
    as (magic & props & -> & Hm & Hp).
  { exists (firstn 4 hs), (skipn 4 hs). rewrite firstn_skipn, length_firstn, length_skipn.
    unfold zlen in Hl. split_and!; [done|lia..]. }
  assert (bytes_wf magic ∧ bytes_wf props) as [Hwm Hwp].
  { rewrite E in Hw. unfold bytes_wf in *. rewrite !Forall_app in Hw. tauto. }
  assert (zlen magic = 4) as Hzm by (unfold zlen; lia). assert (zlen props = 16) as Hzp by (unfold zlen; lia).
  assert (index_range (E := Error) (magic ++ props) 0 4 = Ok magic) as ->
    by (apply (index_range_app [] magic props); [done|by rewrite Hzm]). rbind.
  destruct (Z.eqb_spec (from_be magic) BOLT_MAGIC) as [Em|Em]; cbn [negb].
  2: { left. split_and!; [rewrite E, zlen_app; pose proof (zlen_nonneg rest); lia| |done].
       rewrite E, <- (assoc_L (++)), take_app_length' by done. intros ->. by vm_compute in Em. }
  rewrite (index_range_suffix magic props 4 (zlen (magic ++ props))) by (rewrite ?zlen_app; lia). rbind.
  destruct (chunks_exact4_concat props 4 Hp) as (Ep & Hf & Hn).
  assert (handshake (chunks_exact4 props) (mkStream rest (ending s))) as Hhs.
  { split_and!; [done..|]. rewrite E, Ep, <- (assoc_L (++)). f_equal.
    rewrite <- Em. symmetry. by apply be_bytes_from_be. }
  pose proof (supported_proposals (chunks_exact4 props) Hf) as Hsup. rewrite Ep in Hsup. specialize (Hsup Hwp).
  unfold write_all. destruct (existsb _ _);
    (destruct (Z.leb_spec 4 (accepts out)) as [Ha|Ha];
     [replace (_ <=? accepts out) with true by (symmetry; by apply Z.leb_le)
     |replace (_ <=? accepts out) with false by (symmetry; by apply Z.leb_gt)]); cbn [mbind outcome_bind].
  - exists (chunks_exact4 props). split_and!; [done|by apply Hsup|done].
  - right. by right.
  - left. exists (chunks_exact4 props). split_and!; [done| |done]. intros Hx. by apply Hsup in Hx.
  - right. by right.
Qed.

Definition closed : IoError := mkIoError UnexpectedEof "early eof".


Lemma bolt_message_exchange_witness :
  let v := PackStructure 1 [PackMap []] in
  let out := mkSink [9] 100 closed in
  pack_wf v ∧ zlen (frame (wire v)) ≤ isize_max
  ∧ ∃ out', write_owned_message out v = Ok out' ∧ written out' = [9] ++ frame (wire v)
      ∧ ∀ k rest e, ∃ payload,
          read_chunked_message (mkStream (no_ops k ++ frame (wire v) ++ rest) e)
            = Ok (Some payload, mkStream rest e)
          ∧ decode_packstream payload = Ok v.
Proof.
  cbn zeta. set (v := PackStructure _ _). set (out := mkSink _ _ _).
  assert (pack_wf v) as Hw by (repeat constructor; done).
  assert (zlen (frame (wire v)) ≤ isize_max) as Hl by (vm_compute; discriminate).
  split_and!; [done..|]. pose proof (bolt_message_exchange v out Hw Hl) as H.
  destruct (write_owned_message out v) as [out'|e|w] eqn:E; [|vm_compute in E; discriminate E..].
  exists out'. destruct H as (H1 & H2 & _). split_and!; [done|exact H1|exact H2].
Defined.

Lemma handshake_selects_witness :
  let s := mkStream (be_bytes 4 BOLT_MAGIC ++ [0; 0; 4; 4] ++ [0; 2; 2; 5] ++ [0; 0; 0; 3] ++ [0; 0; 0; 0]) closed in
  bytes_wf (incoming s)
  ∧ ∃ s' out' ps, negotiate s (mkSink [] 4 closed) = Ok (true, s', out')
      ∧ Exists names_v5_0 ps ∧ written out' = [0; 0; 0; 5].
Proof.
  cbn zeta. set (s := mkStream _ _).
  assert (bytes_wf (incoming s)) as Hw by (vm_compute; repeat constructor; discriminate).
  split; [done|]. pose proof (handshake_selects s (mkSink [] 4 closed) Hw) as H.
  destruct (negotiate s (mkSink [] 4 closed)) as [[[b s'] out']|e|w] eqn:E; [|vm_compute in E; discriminate E..].
  assert (b = true) as -> by (vm_compute in E; congruence).
  destruct H as (ps & _ & H1 & H2). exists s', out', ps. split_and!; [done|exact H1|exact H2].
Defined.
