(* ===== verification/BoltTyped.v ===== *)
(** * Query results on the Bolt wire: [crates/server/src/protocol/bolt.rs], [query.rs]

    The typed values of query results, their PackStream form ([typed_to_pack])
    and the encoder that writes most of them without building it
    ([encode_typed_value]).  The records of the code are generic in the type of
    a property, which ties the recursive knot of [TypedValue].

    [Timezones] stands for the [chrono_tz] database: whether a name is in it. *)

From stdpp Require Import prelude gmap strings sorting.
From Stdlib Require Import ZArith Lia.
From S2P Require Import Prelude Machine Types Bolt.

Local Open Scope Z_scope.

(** ** Text and numbers of the standard library *)

(** [str::split] on one ASCII character: at least one part. *)
Fixpoint split_on (c : Z) (s : bytes) : list bytes :=
  match s with
  | [] => [[]]
  | b :: s =>
      if b =? c then [] :: split_on c s
      else match split_on c s with part :: parts => (b :: part) :: parts | [] => [[b]] end
  end.

(** The digits of [FromStr] for integers, every step checked. *)
Fixpoint parse_digits (sign min max acc : Z) (s : bytes) : option Z :=
  match s with
  | [] => Some acc
  | c :: s =>
      if (48 <=? c) && (c <=? 57) then
        acc ← in_range min max (acc * 10);
        acc ← in_range min max (acc + sign * (c - 48));
        parse_digits sign min max acc s
      else None
  end.

(** [str::parse] for an integer type of the given bounds: a sign, [-] only for
    a signed type, then at least one digit. *)
Definition parse_int (min max : Z) (s : bytes) : option Z :=
  match s with
  | [] => None
  | c :: rest =>
      match rest with
      | [] => if (c =? 43) || (c =? 45) then None else parse_digits 1 min max 0 s
      | _ =>
          if c =? 43 then parse_digits 1 min max 0 rest
          else if (c =? 45) && (min <? 0) then parse_digits (-1) min max 0 rest
          else parse_digits 1 min max 0 s
      end
  end.

Definition parse_i64 : bytes → option Z := parse_int i64_min i64_max.
Definition parse_u64 : bytes → option Z := parse_int 0 u64_max.
Definition i32_min : Z := -2147483648.
Definition i32_max : Z := 2147483647.
Definition parse_i32 : bytes → option Z := parse_int i32_min i32_max.

(** [f64::from] of an [f32], on bit patterns: exact on every number; a NaN
    keeps its sign and payload and becomes quiet. *)
Definition f64_from_f32 (bits : Z) : Z :=
  let sign := bits / 2 ^ 31 * 2 ^ 63 in
  let exponent := bits / 2 ^ 23 mod 256 in
  let fraction := bits mod 2 ^ 23 in
  if exponent =? 255 then
    sign + 2047 * 2 ^ 52 + (if fraction =? 0 then 0 else Z.lor (fraction * 2 ^ 29) (2 ^ 51))
  else if exponent =? 0 then
    if fraction =? 0 then sign
    else
      let top := Z.log2 fraction in
      sign + (top + 874) * 2 ^ 52 + (fraction - 2 ^ top) * 2 ^ (52 - top)
  else sign + (exponent + 896) * 2 ^ 52 + fraction * 2 ^ 29.

Class Timezones := { timezone_known : bytes → bool }.

(** ** Typed values *)

Record ResultNode (V : Type) := mkResultNode {
  id : bytes;
  labels : list bytes;
  properties : list (bytes * V);
}.
Record RelationshipValue (V : Type) := mkRelationship {
  rel_id : bytes;
  source : bytes;
  target : bytes;
  relationship_type : bytes;
  rel_properties : list (bytes * V);
}.
Record PathValue (V : Type) := mkPath {
  nodes : list (ResultNode V);
  relationships : list (RelationshipValue V);
}.
Arguments mkResultNode {V}. Arguments id {V}. Arguments labels {V}. Arguments properties {V}.
Arguments mkRelationship {V}. Arguments rel_id {V}. Arguments source {V}. Arguments target {V}.
Arguments relationship_type {V}. Arguments rel_properties {V}.
Arguments mkPath {V}. Arguments nodes {V}. Arguments relationships {V}.

(** An integer is its decimal text; a float the bits of its [f64], a vector
    those of its [f32] components. *)
#[local] Unset Elimination Schemes.
Inductive TypedValue :=
| TypedNull
| TypedBoolean (value : bool)
| TypedInteger (value : bytes)
| TypedFloat (bits : Z)
| TypedString (value : bytes)
| TypedBytes (value : bytes)
| TypedDate (days : Z)
| TypedTime (nanos : Z) (offset_seconds : option Z)
| TypedDateTime (seconds nanos : Z) (timezone : option bytes)
| TypedDuration (months days seconds nanos : Z)
| TypedVector (values : list Z)
| TypedNode (node : ResultNode TypedValue)
| TypedRelationship (edge : RelationshipValue TypedValue)
| TypedPath (path : PathValue TypedValue)
| TypedList (values : list TypedValue)
| TypedMap (values : list (bytes * TypedValue)).
#[local] Set Elimination Schemes.

(** ** Conversion to PackStream *)

Definition stable_numeric_id (value : bytes) : Result Z :=
  value ← ok_or (parse_u64 value)
    (Error_internal "query result contains an invalid entity identifier");
  Ok (as_signed 64 value).

Definition validate_result_time (nanos : Z) (offset_seconds : option Z) : Result unit :=
  if negb ((0 <=? nanos) && (nanos <? 86400000000000)) then
    Err (Error_internal "query result time is outside one day")
  else
    match offset_seconds with
    | Some offset =>
        if 86400 <=? Z.abs offset then
          Err (Error_internal "query result timezone offset is outside one day")
        else Ok tt
    | None => Ok tt
    end.

Definition fixed_offset_seconds (timezone : bytes) : option Z :=
  '(sign, value) ←
    match timezone with
    | c :: value => if c =? 43 then Some (1, value) else if c =? 45 then Some (-1, value) else None
    | [] => None
    end;
  let parts := split_on 58 value in
  hours ← (parts !! 0%nat ≫= parse_i32);
  minutes ← (parts !! 1%nat ≫= parse_i32);
  seconds ← match parts !! 2%nat with Some part => parse_i32 part | None => Some 0 end;
  if bool_decide (is_Some (parts !! 3%nat)) || (23 <? hours) || (59 <? minutes) || (59 <? seconds)
     || (zlen value <? 5)
  then None
  else
    h ← in_range i32_min i32_max (hours * 3600);
    m ← in_range i32_min i32_max (minutes * 60);
    hm ← in_range i32_min i32_max (h + m);
    hms ← in_range i32_min i32_max (hm + seconds);
    in_range i32_min i32_max (hms * sign).

(** [.map(|(key, value)| Ok((key.clone(), f(value)?))).collect()] over the
    entries of a [BTreeMap]: the keys, and so their order, stay. *)
Definition map_entries {V W} (f : V → Result W) (entries : list (bytes * V))
    : Result (list (bytes * W)) :=
  mapM (λ '(key, value), value ← f value; Ok (key, value)) entries.

Section entities.
Context {V : Type} (to_pack : V → Result PackStreamValue).

Definition node_to_pack (node : ResultNode V) : Result PackStreamValue :=
  number ← stable_numeric_id (id node);
  entries ← map_entries to_pack (properties node);
  Ok (PackStructure 78 [PackInteger number; PackList (map PackString (labels node)); PackMap entries;
                        PackString (id node)]).

Definition relationship_to_pack (edge : RelationshipValue V) : Result PackStreamValue :=
  number ← stable_numeric_id (rel_id edge);
  from ← stable_numeric_id (source edge);
  to ← stable_numeric_id (target edge);
  entries ← map_entries to_pack (rel_properties edge);
  Ok (PackStructure 82 [PackInteger number; PackInteger from; PackInteger to;
                        PackString (relationship_type edge); PackMap entries;
                        PackString (rel_id edge); PackString (source edge); PackString (target edge)]).

Definition unbound_relationship_to_pack (edge : RelationshipValue V) : Result PackStreamValue :=
  number ← stable_numeric_id (rel_id edge);
  entries ← map_entries to_pack (rel_properties edge);
  Ok (PackStructure 114 [PackInteger number; PackString (relationship_type edge); PackMap entries;
                         PackString (rel_id edge)]).

(** The positions given to identifiers, and what stands at them. *)
Record Placed := mkPlaced { indexes : list (bytes * Z); placed : list PackStreamValue }.

Definition place (key : bytes) (pack : Result PackStreamValue) (p : Placed) : Result Placed :=
  let index := zlen (placed p) in
  packed ← pack;
  Ok (mkPlaced (btree_insert key index (indexes p)).2 (placed p ++ [packed])).

Definition path_nodes (p : Placed) (nodes : list (ResultNode V)) : Result Placed :=
  foldM (λ p node,
    match btree_get (id node) (indexes p) with
    | Some _ => Ok p
    | None => place (id node) (node_to_pack node) p
    end) p nodes.

Definition path_step (ids : list bytes) (node_indexes : list (bytes * Z))
    (state : Z * Placed * list PackStreamValue) (relationship : RelationshipValue V)
    : Result (Z * Placed * list PackStreamValue) :=
  let '(index, rels, sequence) := state in
  '(relationship_index, rels) ←
    match btree_get (rel_id relationship) (indexes rels) with
    | Some existing => Ok (existing, rels)
    | None =>
        let next := zlen (placed rels) in
        rels ← place (rel_id relationship) (unbound_relationship_to_pack relationship) rels;
        Ok (next, rels)
    end;
  left ← index_at ids index;
  right ← index_at ids (index + 1);
  let forward := bool_decide (source relationship = left) && bool_decide (target relationship = right) in
  let reverse := bool_decide (source relationship = right) && bool_decide (target relationship = left) in
  if negb forward && negb reverse then
    Err (Error_internal "query result path relationship does not connect adjacent nodes")
  else
    relationship_reference ← ok_or (in_range i64_min i64_max (saturating_add usize_max relationship_index 1))
      (Error_internal "query result path exceeds Bolt index range");
    node_reference ← ok_or (btree_get right node_indexes)
      (Error_internal "query result path node is missing");
    node_reference ← ok_or (in_range i64_min i64_max node_reference)
      (Error_internal "query result path exceeds Bolt index range");
    Ok (index + 1, rels,
        sequence ++ [PackInteger (if forward then relationship_reference else - relationship_reference);
                     PackInteger node_reference]).

Definition path_to_pack (path : PathValue V) : Result PackStreamValue :=
  if negb (zlen (nodes path) =? saturating_add usize_max (zlen (relationships path)) 1) then
    Err (Error_internal "query result contains a malformed path")
  else
    packed_nodes ← path_nodes (mkPlaced [] []) (nodes path);
    '(_, packed_rels, sequence) ←
      foldM (path_step (map id (nodes path)) (indexes packed_nodes)) (0, mkPlaced [] [], [])
        (relationships path);
    Ok (PackStructure 80 [PackList (placed packed_nodes); PackList (placed packed_rels);
                          PackList sequence]).
End entities.

Section typed.
Context `{Timezones}.

Definition datetime_to_pack (seconds nanos : Z) (timezone : option bytes) : Result PackStreamValue :=
  if 999999999 <? nanos then
    Err (Error_internal "query result datetime nanoseconds exceed one second")
  else
    match timezone with
    | None => Ok (PackStructure 100 [PackInteger seconds; PackInteger nanos])
    | Some timezone =>
        match fixed_offset_seconds timezone with
        | Some offset => Ok (PackStructure 73 [PackInteger seconds; PackInteger nanos; PackInteger offset])
        | None =>
            if timezone_known timezone then
              Ok (PackStructure 105 [PackInteger seconds; PackInteger nanos; PackString timezone])
            else Err (Error_internal "query result contains an invalid timezone")
        end
    end.

Fixpoint typed_to_pack (value : TypedValue) : Result PackStreamValue :=
  match value with
  | TypedNull => Ok PackNull
  | TypedBoolean value => Ok (PackBoolean value)
  | TypedInteger value =>
      value ← ok_or (parse_i64 value)
        (Error_internal "query result contains an invalid canonical integer");
      Ok (PackInteger value)
  | TypedFloat bits => Ok (PackFloat bits)
  | TypedString value => Ok (PackString value)
  | TypedBytes value => Ok (PackBytes value)
  | TypedDate days => Ok (PackStructure 68 [PackInteger days])
  | TypedTime nanos offset_seconds =>
      _ ← validate_result_time nanos offset_seconds;
      Ok (match offset_seconds with
          | None => PackStructure 116 [PackInteger nanos]
          | Some offset => PackStructure 84 [PackInteger nanos; PackInteger offset]
          end)
  | TypedDateTime seconds nanos timezone => datetime_to_pack seconds nanos timezone
  | TypedDuration months days seconds nanos =>
      if 999999999 <? Z.abs nanos then
        Err (Error_internal "query result duration nanoseconds exceed one second")
      else Ok (PackStructure 69 [PackInteger months; PackInteger days; PackInteger seconds; PackInteger nanos])
  | TypedVector values => Ok (PackList (map (λ value, PackFloat (f64_from_f32 value)) values))
  | TypedNode node => node_to_pack typed_to_pack node
  | TypedRelationship edge => relationship_to_pack typed_to_pack edge
  | TypedPath path => path_to_pack typed_to_pack path
  | TypedList values => PackList <$> mapM typed_to_pack values
  | TypedMap values => PackMap <$> map_entries typed_to_pack values
  end.

(** ** Encoding without the PackStream tree *)

Definition encode_typed_entries (encode : TypedValue → bytes → Result bytes)
    (values : list (bytes * TypedValue)) (output : bytes) : Result bytes :=
  output ← encode_map_length (zlen values) output;
  foldM (λ output '(name, value),
    output ← encode_string name output;
    encode value output) output values.

Definition encode_ids (ids : list bytes) (output : bytes) : Result bytes :=
  foldM (λ output id, number ← stable_numeric_id id; encode_packstream (PackInteger number) output)
    output ids.

Fixpoint encode_typed_value (value : TypedValue) (output : bytes) : Result bytes :=
  match value with
  | TypedString value => encode_string value output
  | TypedBytes value => encode_bytes value output
  | TypedList values =>
      output ← encode_list_length (zlen values) output;
      foldM (λ output value, encode_typed_value value output) output values
  | TypedMap values => encode_typed_entries encode_typed_value values output
  | TypedVector values =>
      output ← encode_list_length (zlen values) output;
      foldM (λ output value, encode_packstream (PackFloat (f64_from_f32 value)) output) output values
  | TypedNode node =>
      let output := output ++ [180; 78] in
      output ← encode_ids [id node] output;
      output ← encode_list_length (zlen (labels node)) output;
      output ← foldM (λ output label, encode_string label output) output (labels node);
      output ← encode_typed_entries encode_typed_value (properties node) output;
      encode_string (id node) output
  | TypedRelationship edge =>
      let output := output ++ [184; 82] in
      output ← encode_ids [rel_id edge; source edge; target edge] output;
      output ← encode_string (relationship_type edge) output;
      output ← encode_typed_entries encode_typed_value (rel_properties edge) output;
      foldM (λ output id, encode_string id output) output [rel_id edge; source edge; target edge]
  | value =>
      packed ← typed_to_pack value;
      encode_packstream packed output
  end.

Definition encode_typed_map : list (bytes * TypedValue) → bytes → Result bytes :=
  encode_typed_entries encode_typed_value.
End typed.
