(* ===== verification/BoltTypedTheorems.v ===== *)
(** * Query results on the Bolt wire: the direct encoder and the path structure

    [encode_typed_value] writes what encoding the PackStream form of the value
    would write.  A path is sent as its distinct nodes and relationships and a
    sequence of references; replaying the sequence gives the path back. *)

From stdpp Require Import prelude gmap strings sorting.
From Stdlib Require Import ZArith Lia.
From S2P Require Import Prelude Machine Types Bolt BoltTheorems BoltDecode BoltTyped.

Local Open Scope Z_scope.

(** ** Induction *)

Section TypedValue_induction.
Context (P : TypedValue → Prop).
Definition node_all (n : ResultNode TypedValue) : Prop := Forall (λ p, P p.2) (properties n).
Definition edge_all (e : RelationshipValue TypedValue) : Prop := Forall (λ p, P p.2) (rel_properties e).
Definition path_all (p : PathValue TypedValue) : Prop :=
  Forall node_all (nodes p) ∧ Forall edge_all (relationships p).

(** The values with parts; the others have none. *)
Definition plain (v : TypedValue) : Prop :=
  match v with
  | TypedNode _ | TypedRelationship _ | TypedPath _ | TypedList _ | TypedMap _ => False
  | _ => True
  end.

Hypothesis Hplain : ∀ v, plain v → P v.
Hypothesis Hnode : ∀ n, node_all n → P (TypedNode n).
Hypothesis Hedge : ∀ e, edge_all e → P (TypedRelationship e).
Hypothesis Hpath : ∀ p, path_all p → P (TypedPath p).
Hypothesis Hlist : ∀ vs, Forall P vs → P (TypedList vs).
Hypothesis Hmap : ∀ vs, Forall (λ p, P p.2) vs → P (TypedMap vs).

Fixpoint TypedValue_nested_ind (v : TypedValue) : P v :=
  let entries := fix entries (vs : list (bytes * TypedValue)) : Forall (λ p, P p.2) vs :=
    match vs with
    | [] => Forall_nil_2 _
    | (k, v) :: vs => Forall_cons_2 (λ p, P p.2) (k, v) vs (TypedValue_nested_ind v) (entries vs)
    end in
  match v with
  | TypedNode (mkResultNode i ls ps as n) => Hnode n (entries ps)
  | TypedRelationship (mkRelationship i s t ty ps as e) => Hedge e (entries ps)
  | TypedPath (mkPath ns es as p) =>
      Hpath p (conj
        ((fix go (ns : list (ResultNode TypedValue)) : Forall node_all ns :=
          match ns with
          | [] => Forall_nil_2 _
          | (mkResultNode i ls ps as n) :: ns => Forall_cons_2 node_all n ns (entries ps) (go ns)
          end) ns)
        ((fix go (es : list (RelationshipValue TypedValue)) : Forall edge_all es :=
          match es with
          | [] => Forall_nil_2 _
          | (mkRelationship i s t ty ps as e) :: es => Forall_cons_2 edge_all e es (entries ps) (go es)
          end) es))
  | TypedList vs =>
      Hlist vs ((fix go vs : Forall P vs :=
        match vs with
        | [] => Forall_nil_2 _
        | v :: vs => Forall_cons_2 _ _ _ (TypedValue_nested_ind v) (go vs)
        end) vs)
  | TypedMap vs => Hmap vs (entries vs)
  | v => Hplain v I
  end.
End TypedValue_induction.

(** ** The direct encoder *)

(** Two computations that return, and succeed together with the same result;
    an error of one may differ from the error of the other. *)
Definition agree {A} (m m' : Result A) : Prop :=
  match m, m' with
  | Ok a, Ok b => a = b
  | Err _, Err _ => True
  | _, _ => False
  end.

Definition returns {A} (m : Result A) : Prop := aborts m = false.

Lemma agree_refl {A} (m : Result A) : returns m → agree m m.
Proof. by destruct m. Qed.

Lemma agree_returns {A} (m m' : Result A) : agree m m' → returns m ∧ returns m'.
Proof. by destruct m, m'. Qed.

Lemma agree_bind {A B} (m m' : Result A) (f g : A → Result B) :
  agree m m' → (∀ a, agree (f a) (g a)) → agree (m ≫= f) (m' ≫= g).
Proof. destruct m, m'; cbn; try done. by intros ->. Qed.

(** Work moved before a computation it does not depend on. *)
Lemma agree_swap {A B C} (x : Result A) (m : Result B) (k : A → Result C) (h : B → A → Result C) :
  returns x → returns m → (∀ a, agree (k a) (b ← m; h b a)) →
  agree (a ← x; k a) (b ← m; a ← x; h b a).
Proof.
  intros Hx Hm Hk. destruct x as [a|e|]; cbn; [|by destruct m|done].
  specialize (Hk a). by destruct m.
Qed.

Lemma agree_encode v out : agree (encode_packstream v out) (encode_packstream v out).
Proof.
  pose proof (encode_wire v out) as H. destruct (pack_fits v); [by rewrite H|].
  destruct H as (e & -> & _). done.
Qed.

Lemma encode_returns v out : returns (encode_packstream v out).
Proof. apply (agree_returns _ _ (agree_encode v out)). Qed.

Lemma encode_string_returns s out : returns (encode_string s out).
Proof. apply (encode_returns (PackString s)). Qed.

Lemma encode_tiny_returns n t a b c out : returns (encode_tiny_or_length n t a b c out).
Proof.
  pose proof (encode_tiny_wire n t a b c out) as H. destruct (fits32 n); [by rewrite H|].
  by destruct H as (e & -> & _).
Qed.

Lemma foldM_returns {A B} (f : B → A → Result B) l b :
  Forall (λ a, ∀ b, returns (f b a)) l → returns (foldM f b l).
Proof.
  intros Hl. revert b. induction Hl as [|a l Ha Hl IH]; intros b; cbn; [done|].
  specialize (Ha b). destruct (f b a); cbn; [apply IH|done..].
Qed.

Lemma mapM_returns {A B} (f : A → Result B) l : Forall (λ a, returns (f a)) l → returns (mapM f l).
Proof.
  induction 1 as [|a l Ha Hl IH]; [done|]. rewrite mapM_cons. destruct (f a); cbn; [|done..].
  by destruct (mapM f l).
Qed.

(** Encoding each part directly, or converting all and then encoding. *)
Lemma each_agrees {A B} (conv : A → Result B) (direct : A → bytes → Result bytes)
    (encode : B → bytes → Result bytes) l out :
  Forall (λ a, ∀ out, agree (direct a out) (b ← conv a; encode b out)) l →
  Forall (λ a, returns (conv a)) l →
  agree (foldM (λ out a, direct a out) out l)
        (bs ← mapM conv l; foldM (λ out b, encode b out) out bs).
Proof.
  intros Hl. revert out. induction Hl as [|a l Ha Hl IH]; intros out Hr; [done|].
  apply Forall_cons in Hr as [Hra Hr]. specialize (Ha out). rewrite mapM_cons, bind_assoc.
  pose proof (mapM_returns conv l Hr) as Hm. cbn [foldM].
  destruct (conv a) as [b|e|]; cbn in *; [|by destruct (direct a out)|done].
  rewrite bind_assoc. destruct (direct a out) as [o|e|], (encode b out) as [o'|e'|] eqn:E; try done.
  - assert (o = o') as <- by exact Ha. specialize (IH o Hr). cbn.
    replace (mapM conv l ≫= _) with (mapM conv l ≫= λ bs, foldM (λ out b, encode b out) o bs); [exact IH|].
    destruct (mapM conv l); cbn; [by rewrite E|done..].
  - destruct (mapM conv l); cbn in *; [by rewrite E|done..].
Qed.

(** ** Conversion to PackStream returns *)

(** Every path is shorter than the address space. *)
Fixpoint typed_sized (v : TypedValue) : bool :=
  match v with
  | TypedNode n => forallb (λ p, typed_sized p.2) (properties n)
  | TypedRelationship e => forallb (λ p, typed_sized p.2) (rel_properties e)
  | TypedPath p =>
      (zlen (relationships p) <? usize_max)
      && forallb (λ n, forallb (λ p, typed_sized p.2) (properties n)) (nodes p)
      && forallb (λ e, forallb (λ p, typed_sized p.2) (rel_properties e)) (relationships p)
  | TypedList vs => forallb typed_sized vs
  | TypedMap vs => forallb (λ p, typed_sized p.2) vs
  | _ => true
  end.

Lemma returns_posts {A} (m : Result A) : returns m ↔ posts (λ _, True) m (λ _, True).
Proof. by destruct m. Qed.

Lemma returns_bind {A B} (m : Result A) (f : A → Result B) :
  returns m → (∀ a, m = Ok a → returns (f a)) → returns (m ≫= f).
Proof. destruct m; cbn; auto. Qed.

Lemma ok_or_returns {A} (o : option A) e : returns (ok_or o e).
Proof. by destruct o. Qed.

Lemma numeric_id_returns s : returns (stable_numeric_id s).
Proof. unfold stable_numeric_id. apply returns_bind; [apply ok_or_returns|done]. Qed.

Lemma map_entries_returns {V W} (f : V → Result W) l :
  Forall (λ p, returns (f p.2)) l → returns (map_entries f l).
Proof.
  intros Hl. apply mapM_returns. eapply Forall_impl; [exact Hl|]. intros [k v] Hv. cbn in *.
  by apply returns_bind.
Qed.

Section entities.
Context {V : Type} (to_pack : V → Result PackStreamValue).

Lemma node_returns n : Forall (λ p, returns (to_pack p.2)) (properties n) → returns (node_to_pack to_pack n).
Proof.
  intros Hn. unfold node_to_pack. apply returns_bind; [apply numeric_id_returns|]. intros number _.
  apply returns_bind; [by apply map_entries_returns|done].
Qed.

Lemma edge_returns e :
  Forall (λ p, returns (to_pack p.2)) (rel_properties e) → returns (relationship_to_pack to_pack e).
Proof.
  intros He. unfold relationship_to_pack. do 3 (apply returns_bind; [apply numeric_id_returns|]; intros ? _).
  apply returns_bind; [by apply map_entries_returns|done].
Qed.

Lemma unbound_returns e :
  Forall (λ p, returns (to_pack p.2)) (rel_properties e) → returns (unbound_relationship_to_pack to_pack e).
Proof.
  intros He. unfold unbound_relationship_to_pack. apply returns_bind; [apply numeric_id_returns|].
  intros ? _. apply returns_bind; [by apply map_entries_returns|done].
Qed.

Lemma path_nodes_returns p ns :
  Forall (λ n, Forall (λ p, returns (to_pack p.2)) (properties n)) ns → returns (path_nodes to_pack p ns).
Proof.
  intros Hns. apply foldM_returns. eapply Forall_impl; [exact Hns|]. intros n Hn q.
  case_match; [done|]. unfold place. apply returns_bind; [by apply node_returns|done].
Qed.

Lemma index_at_Some {A} (l : list A) i : 0 ≤ i < zlen l → ∃ x, index_at (E := Error) l i = Ok x ∧ get l i = Some x.
Proof.
  intros Hi. unfold index_at, get. replace (i <? 0) with false by lia.
  destruct (l !! Z.to_nat i) as [x|] eqn:E; [by exists x|]. apply lookup_ge_None in E. unfold zlen in Hi. lia.
Qed.

Lemma path_step_index ids indexes st e st' :
  path_step to_pack ids indexes st e = Ok st' → st'.1.1 = st.1.1 + 1.
Proof.
  destruct st as [[i rels] sq]. unfold path_step. intros H. inv_ok. destruct a as [ri rels'].
  cbn in H. inv_ok. case_match; [done|]. inv_ok. by subst.
Qed.

Lemma path_steps_return ids indexes es st :
  Forall (λ e, Forall (λ p, returns (to_pack p.2)) (rel_properties e)) es →
  0 ≤ st.1.1 → st.1.1 + zlen es < zlen ids → returns (foldM (path_step to_pack ids indexes) st es).
Proof.
  intros Hes. revert st. induction Hes as [|e es He Hes IH]; intros [[i rels] sq] Hi Hl; cbn [fst] in *; [done|].
  rewrite zlen_cons in Hl. pose proof (zlen_nonneg es). cbn [foldM]. apply returns_bind.
  - unfold path_step. apply returns_bind.
    { case_match; [done|]. unfold place. rewrite bind_assoc. apply returns_bind; [by apply unbound_returns|done]. }
    intros [ri rels'] _. destruct (index_at_Some ids i) as (l & -> & _); [lia|].
    destruct (index_at_Some ids (i + 1)) as (r & -> & _); [lia|]. rbind. case_match; [done|].
    do 3 (apply returns_bind; [apply ok_or_returns|]; intros ? _). done.
  - intros st' Hst. pose proof (path_step_index _ _ _ _ _ Hst) as Hi'. cbn in Hi'. apply IH; lia.
Qed.

Lemma path_returns p :
  zlen (relationships p) < usize_max →
  Forall (λ n, Forall (λ p, returns (to_pack p.2)) (properties n)) (nodes p) →
  Forall (λ e, Forall (λ p, returns (to_pack p.2)) (rel_properties e)) (relationships p) →
  returns (path_to_pack to_pack p).
Proof.
  intros Hl Hns Hes. unfold path_to_pack, saturating_add. rewrite Z.min_r by lia.
  destruct (Z.eqb_spec (zlen (nodes p)) (zlen (relationships p) + 1)) as [E|]; cbn [negb]; [|done].
  apply returns_bind; [by apply path_nodes_returns|]. intros pn _. apply returns_bind.
  - apply path_steps_return; cbn; [done|lia|]. unfold zlen in *. rewrite length_fmap. lia.
  - intros [[? ?] ?] _. done.
Qed.
End entities.

Section typed.
Context `{Timezones}.

Lemma typed_returns v : typed_sized v = true → returns (typed_to_pack v).
Proof.
  induction v as [v Hv|n IH|e IH|p [IHn IHe]|vs IH|vs IH] using TypedValue_nested_ind; cbn [typed_sized typed_to_pack].
  - intros _. destruct v; try done; cbn.
    + apply returns_bind; [apply ok_or_returns|done].
    + unfold validate_result_time. by repeat case_match.
    + unfold datetime_to_pack. by repeat case_match.
    + by case_match.
  - rewrite forallb_Forall. intros Hs. apply node_returns. exact (Forall_mp IH Hs).
  - rewrite forallb_Forall. intros Hs. apply edge_returns. exact (Forall_mp IH Hs).
  - rewrite !andb_true_iff, !forallb_Forall. intros [[Hl Hn] He]. apply path_returns; [lia|..].
    + eapply Forall_mp, Hn. eapply Forall_impl; [exact IHn|]. intros n Ha Hb%forallb_Forall. exact (Forall_mp Ha Hb).
    + eapply Forall_mp, He. eapply Forall_impl; [exact IHe|]. intros e Ha Hb%forallb_Forall. exact (Forall_mp Ha Hb).
  - rewrite forallb_Forall. intros Hs. pose proof (mapM_returns _ _ (Forall_mp IH Hs)) as Hr.
    by destruct (mapM typed_to_pack vs).
  - rewrite forallb_Forall. intros Hs. pose proof (map_entries_returns typed_to_pack vs (Forall_mp IH Hs)) as Hr.
    by destruct (map_entries typed_to_pack vs).
Qed.

(** ** The direct encoder agrees with the conversion *)

Definition direct (v : TypedValue) : Prop :=
  ∀ out, agree (encode_typed_value v out) (p ← typed_to_pack v; encode_packstream p out).

Lemma entries_agree vs out :
  Forall (λ p, direct p.2) vs → Forall (λ p, returns (typed_to_pack p.2)) vs →
  agree (encode_typed_entries encode_typed_value vs out)
        (ps ← map_entries typed_to_pack vs; encode_packstream (PackMap ps) out).
Proof.
  intros Hd Hr. unfold encode_typed_entries. cbn [encode_packstream].
  pose proof (map_entries_returns _ _ Hr) as Hm.
  assert (∀ o, agree
    (foldM (λ output '(name, value), output ← encode_string name output; encode_typed_value value output) o vs)
    (ps ← map_entries typed_to_pack vs;
     foldM (λ output '(key, value), output ← encode_string key output; encode_packstream value output) o ps))
    as Heach.
  { intros o. apply (each_agrees _
      (λ p output, let '(name, value) := p in output ← encode_string name output; encode_typed_value value output)
      (λ p output, let '(key, value) := p in output ← encode_string key output; encode_packstream value output)).
    - eapply Forall_impl; [apply Forall_and; split; [exact Hd|exact Hr]|]. intros [k v] [Hv Hrv] out'. cbn in *.
      rewrite bind_assoc. cbn. by apply agree_swap; [apply encode_string_returns|done|].
    - eapply Forall_impl; [exact Hr|]. intros [k v] Hv. cbn in *. by apply returns_bind. }
  destruct (map_entries typed_to_pack vs) as [ps|e|] eqn:E; cbn [mbind outcome_bind] in *; [..|done].
  - assert (zlen ps = zlen vs) as -> by (unfold zlen; by rewrite (mapM_length _ _ _ E)).
    apply agree_bind; [apply agree_refl, encode_tiny_returns|]. exact Heach.
  - pose proof (encode_tiny_returns (zlen vs) 160 216 217 218 out) as Ht. unfold encode_map_length.
    destruct (encode_tiny_or_length _ _ _ _ _ _) as [o|?|]; cbn; [|done..].
    specialize (Heach o). by destruct (foldM _ _ _).
Qed.

Lemma list_agrees vs out :
  Forall direct vs → Forall (λ v, returns (typed_to_pack v)) vs →
  agree (encode_typed_value (TypedList vs) out) (p ← typed_to_pack (TypedList vs); encode_packstream p out).
Proof.
  intros Hd Hr. cbn [encode_typed_value typed_to_pack].
  pose proof (mapM_returns _ _ Hr) as Hm.
  pose proof (λ o, each_agrees typed_to_pack encode_typed_value encode_packstream vs o Hd Hr) as Heach.
  destruct (mapM typed_to_pack vs) as [ps|e|] eqn:E; cbn [mbind outcome_bind fmap outcome_fmap encode_packstream] in *; [..|done].
  - assert (zlen ps = zlen vs) as -> by (unfold zlen; by rewrite (mapM_length _ _ _ E)).
    apply agree_bind; [apply agree_refl, encode_tiny_returns|]. exact Heach.
  - pose proof (encode_tiny_returns (zlen vs) 144 212 213 214 out) as Ht. unfold encode_list_length.
    destruct (encode_tiny_or_length _ _ _ _ _ _) as [o|?|]; cbn; [|done..].
    specialize (Heach o). by destruct (foldM _ _ _).
Qed.

Lemma encode_structure g fields out :
  zlen fields ≤ 15 →
  encode_packstream (PackStructure g fields) out
  = foldM (λ output value, encode_packstream value output) (out ++ [Z.lor 176 (zlen fields); g]) fields.
Proof. intros Hl. cbn [encode_packstream]. by replace (15 <? zlen fields) with false by lia. Qed.

Lemma labels_encode ls out :
  encode_packstream (PackList (map PackString ls)) out
  = (o ← encode_list_length (zlen ls) out; foldM (λ output label, encode_string label output) o ls).
Proof.
  cbn [encode_packstream]. unfold zlen. rewrite length_map.
  destruct (encode_list_length _ _); cbn; [apply foldM_map|done..].
Qed.

Lemma strings_return ls out : returns (foldM (λ output label, encode_string label output) out ls).
Proof. apply foldM_returns, Forall_true. intros l b. apply encode_string_returns. Qed.

Lemma bind_ret {A} (m : Result A) : (a ← m; Ok a) = m.
Proof. by destruct m. Qed.

Lemma agree_err {A B} (m : Result A) (f : A → Result B) e :
  returns m → (∀ a, agree (f a) (Err e)) → agree (m ≫= f) (Err e).
Proof. intros Hm Hf. destruct m; [apply Hf|done|done]. Qed.

Lemma node_agrees n out :
  Forall (λ p, direct p.2) (properties n) → Forall (λ p, returns (typed_to_pack p.2)) (properties n) →
  agree (encode_typed_value (TypedNode n) out) (p ← typed_to_pack (TypedNode n); encode_packstream p out).
Proof.
  intros Hd Hr. cbn [encode_typed_value typed_to_pack]. unfold node_to_pack, encode_ids. cbn [foldM].
  pose proof (numeric_id_returns (id n)) as Hi.
  destruct (stable_numeric_id (id n)) as [number|e|]; cbn [mbind outcome_bind]; [|done..].
  pose proof (map_entries_returns _ _ Hr) as Hm. pose proof (λ o, entries_agree (properties n) o Hd Hr) as He.
  destruct (map_entries typed_to_pack (properties n)) as [ps|e|]; cbn [mbind outcome_bind] in *; [..|done].
  - rewrite encode_structure by (vm_compute; discriminate). cbn [foldM].
    change (encode_packstream (PackInteger number) ?o) with (Ok (encode_integer number o) : Result bytes).
    cbn [mbind outcome_bind]. rewrite labels_encode, bind_assoc.
    apply agree_bind; [apply agree_refl, encode_tiny_returns|]. intros o.
    apply agree_bind; [apply agree_refl, strings_return|]. intros o'.
    apply agree_bind; [apply He|]. intros o''. cbn [encode_packstream]. rewrite bind_ret.
    apply agree_refl, encode_string_returns.
  - change (encode_packstream (PackInteger number) ?o) with (Ok (encode_integer number o) : Result bytes).
    cbn [mbind outcome_bind].
    apply agree_err; [apply encode_tiny_returns|]. intros o. apply agree_err; [apply strings_return|].
    intros o'. specialize (He o'). by destruct (encode_typed_entries _ _ _).
Qed.

Lemma edge_agrees e out :
  Forall (λ p, direct p.2) (rel_properties e) → Forall (λ p, returns (typed_to_pack p.2)) (rel_properties e) →
  agree (encode_typed_value (TypedRelationship e) out)
        (p ← typed_to_pack (TypedRelationship e); encode_packstream p out).
Proof.
  intros Hd Hr. cbn [encode_typed_value typed_to_pack]. unfold relationship_to_pack, encode_ids. cbn [foldM].
  pose proof (map_entries_returns _ _ Hr) as Hm. pose proof (λ o, entries_agree (rel_properties e) o Hd Hr) as He.
  pose proof (numeric_id_returns (rel_id e)) as H1. pose proof (numeric_id_returns (source e)) as H2.
  pose proof (numeric_id_returns (target e)) as H3.
  destruct (stable_numeric_id (rel_id e)) as [n1|?|]; cbn [mbind outcome_bind]; [|done..].
  change (encode_packstream (PackInteger n1) ?o) with (Ok (encode_integer n1 o) : Result bytes). cbn [mbind outcome_bind].
  destruct (stable_numeric_id (source e)) as [n2|?|]; cbn [mbind outcome_bind]; [|done..].
  change (encode_packstream (PackInteger n2) ?o) with (Ok (encode_integer n2 o) : Result bytes). cbn [mbind outcome_bind].
  destruct (stable_numeric_id (target e)) as [n3|?|]; cbn [mbind outcome_bind]; [|done..].
  change (encode_packstream (PackInteger n3) ?o) with (Ok (encode_integer n3 o) : Result bytes). cbn [mbind outcome_bind].
  destruct (map_entries typed_to_pack (rel_properties e)) as [ps|?|]; cbn [mbind outcome_bind] in *; [..|done].
  - rewrite encode_structure by (vm_compute; discriminate).
    cbn [foldM encode_packstream mbind outcome_bind].
    apply agree_bind; [apply agree_refl, encode_string_returns|]. intros o.
    apply agree_bind; [apply He|]. intros o'. apply agree_refl.
    do 3 (apply returns_bind; [apply encode_string_returns|]; intros ? _). done.
  - apply agree_err; [apply encode_string_returns|]. intros o. specialize (He o). by destruct (encode_typed_entries _ _ _).
Qed.

Lemma vector_encode values out :
  encode_packstream (PackList (map (λ value, PackFloat (f64_from_f32 value)) values)) out
  = (o ← encode_list_length (zlen values) out;
     foldM (λ output value, encode_packstream (PackFloat (f64_from_f32 value)) output) o values).
Proof.
  cbn [encode_packstream]. unfold zlen. rewrite length_map.
  destruct (encode_list_length _ _); cbn [mbind outcome_bind]; [apply foldM_map|done..].
Qed.

Lemma typed_agrees v : typed_sized v = true → direct v.
Proof.
  induction v as [v Hv|n IH|e IH|p _|vs IH|vs IH] using TypedValue_nested_ind; intros Hs out.
  - pose proof (typed_returns v Hs) as Hr. destruct v; try done; cbn [encode_typed_value typed_to_pack] in *.
    all: try (apply agree_refl, returns_bind; [done|intros; apply encode_returns]).
    all: try (cbn [mbind outcome_bind encode_packstream]; apply agree_refl;
              first [apply encode_string_returns | apply (encode_returns (PackBytes value))]).
    cbn [mbind outcome_bind]. rewrite <- vector_encode. apply agree_encode.
  - cbn in Hs. apply forallb_Forall in Hs. apply node_agrees; [exact (Forall_mp IH Hs)|].
    eapply Forall_impl; [exact Hs|]. intros p Hp. by apply typed_returns.
  - cbn in Hs. apply forallb_Forall in Hs. apply edge_agrees; [exact (Forall_mp IH Hs)|].
    eapply Forall_impl; [exact Hs|]. intros p Hp. by apply typed_returns.
  - pose proof (typed_returns _ Hs) as Hr. cbn [encode_typed_value]. apply agree_refl, returns_bind; [done|].
    intros; apply encode_returns.
  - cbn in Hs. apply forallb_Forall in Hs. apply list_agrees; [exact (Forall_mp IH Hs)|].
    eapply Forall_impl; [exact Hs|]. intros p Hp. by apply typed_returns.
  - cbn in Hs. apply forallb_Forall in Hs. cbn [encode_typed_value typed_to_pack].
    assert (∀ m : Result (list (bytes * PackStreamValue)),
      (p ← PackMap <$> m; encode_packstream p out) = (ps ← m; encode_packstream (PackMap ps) out)) as -> by by intros [].
    apply entries_agree; [exact (Forall_mp IH Hs)|].
    eapply Forall_impl; [exact Hs|]. intros p Hp. by apply typed_returns.
Qed.
End typed.

(** ** Well-formed results have well-formed PackStream forms *)

Definition entries_wf {V} (wf : V → Prop) (l : list (bytes * V)) : Prop :=
  keys_sorted l ∧ Forall (λ p, str_wf p.1 ∧ wf p.2) l.

Definition node_wf {V} (wf : V → Prop) (n : ResultNode V) : Prop :=
  str_wf (id n) ∧ Forall str_wf (labels n) ∧ keys_sorted (properties n)
  ∧ Forall (λ p, str_wf p.1 ∧ wf p.2) (properties n).

Definition edge_wf {V} (wf : V → Prop) (e : RelationshipValue V) : Prop :=
  str_wf (rel_id e) ∧ str_wf (source e) ∧ str_wf (target e) ∧ str_wf (relationship_type e)
  ∧ keys_sorted (rel_properties e) ∧ Forall (λ p, str_wf p.1 ∧ wf p.2) (rel_properties e).

(** The values of the Rust types. *)
Definition plain_wf (v : TypedValue) : Prop :=
  match v with
  | TypedFloat bits => u64 bits
  | TypedInteger s | TypedString s => str_wf s
  | TypedBytes s => bytes_wf s
  | TypedDate days => i64 days
  | TypedTime nanos offset => i64 nanos ∧ from_option i32 True offset
  | TypedDateTime seconds nanos timezone => i64 seconds ∧ u32 nanos ∧ from_option str_wf True timezone
  | TypedDuration months days seconds nanos => i64 months ∧ i64 days ∧ i64 seconds ∧ i32 nanos
  | TypedVector values => Forall u32 values
  | _ => True
  end.

#[local] Unset Elimination Schemes.
Inductive typed_wf : TypedValue → Prop :=
| typed_wf_plain v : plain v → plain_wf v → typed_wf v
| typed_wf_node n : node_wf typed_wf n → typed_wf (TypedNode n)
| typed_wf_edge e : edge_wf typed_wf e → typed_wf (TypedRelationship e)
| typed_wf_path p :
    Forall (node_wf typed_wf) (nodes p) → Forall (edge_wf typed_wf) (relationships p) → typed_wf (TypedPath p)
| typed_wf_list vs : Forall typed_wf vs → typed_wf (TypedList vs)
| typed_wf_map vs : entries_wf typed_wf vs → typed_wf (TypedMap vs).
#[local] Set Elimination Schemes.

Lemma parse_digits_range sign min max acc s x :
  min ≤ acc ≤ max → parse_digits sign min max acc s = Some x → min ≤ x ≤ max.
Proof.
  revert acc. induction s as [|c s IH]; intros acc Ha; cbn; [by intros [= <-]|].
  case_match; [|done]. destruct (in_range min max (acc * 10)) as [a|]; cbn; [|done].
  destruct (in_range min max (a + _)) as [a'|] eqn:E; cbn; [|done].
  apply in_range_Some in E as [-> ?]. by apply IH.
Qed.

Lemma parse_int_range min max s x : min ≤ 0 ≤ max → parse_int min max s = Some x → min ≤ x ≤ max.
Proof.
  intros H0. unfold parse_int. repeat (case_match; try done); by apply parse_digits_range.
Qed.

Lemma numeric_id_i64 s n : stable_numeric_id s = Ok n → i64 n.
Proof.
  unfold stable_numeric_id. intros (x & Hx%ok_or_Ok_inv & [= <-])%bind_Ok_inv.
  apply parse_int_range in Hx; [|unfold u64_max; lia].
  pose proof (as_signed_range 64 x ltac:(lia)) as H. unfold i64, u64_max in *. lia.
Qed.

Lemma map_entries_wf {V} (f : V → Result PackStreamValue) (wf : V → Prop) l ps :
  Forall (λ p, wf p.2 → ∀ v, f p.2 = Ok v → pack_wf v) l →
  keys_sorted l → Forall (λ p, str_wf p.1 ∧ wf p.2) l → map_entries f l = Ok ps → pack_wf (PackMap ps).
Proof.
  intros Hf Hs Hl H%mapM_Ok_inv.
  assert (map fst l = map fst ps ∧ Forall (λ p, str_wf p.1 ∧ pack_wf p.2) ps) as [Hk Hw].
  { clear Hs. induction H as [|[k v] [k' v'] l ps Hv _ IH]; [done|]. apply Forall_cons in Hf as [Hf1 Hf], Hl as [[Hk1 Hl1] Hl].
    cbn in *. apply bind_Ok_inv in Hv as (w & Hw & [= <- <-]). destruct IH as [-> IH]; [done..|].
    split; [done|]. constructor; [|done]. cbn. split; [done|]. by apply Hf1. }
  apply pack_wf_map; [|done]. by eapply keys_sorted_keys.
Qed.

Section entities_wf.
Context {V : Type} (to_pack : V → Result PackStreamValue) (wf : V → Prop).
Let converts (v : V) := wf v → ∀ p, to_pack v = Ok p → pack_wf p.

Lemma strings_wf ls : Forall str_wf ls → pack_wf (PackList (map PackString ls)).
Proof. intros Hl. apply pack_wf_list, Forall_fmap. eapply Forall_impl; [exact Hl|]. by constructor. Qed.

Ltac fields := repeat first [done | apply Forall_cons_2 | apply Forall_nil_2 | apply pack_wf_string; done
  | by apply pack_wf_integer; eapply numeric_id_i64 | by apply strings_wf].

Lemma node_pack_wf n p :
  Forall (λ q, converts q.2) (properties n) → node_wf wf n → node_to_pack to_pack n = Ok p → pack_wf p.
Proof.
  intros Hf (Hid & Hls & Hs & Hps). unfold node_to_pack.
  intros (number & Hn & (ps & Hm & [= <-])%bind_Ok_inv)%bind_Ok_inv.
  pose proof (map_entries_wf to_pack wf _ _ Hf Hs Hps Hm).
  apply pack_wf_structure; [unfold u8; lia|]. fields.
Qed.

Lemma edge_pack_wf e p :
  Forall (λ q, converts q.2) (rel_properties e) → edge_wf wf e → relationship_to_pack to_pack e = Ok p → pack_wf p.
Proof.
  intros Hf (Hid & Hsr & Htg & Hty & Hs & Hps). unfold relationship_to_pack.
  intros (n1 & H1 & (n2 & H2 & (n3 & H3 & (ps & Hm & [= <-])%bind_Ok_inv)%bind_Ok_inv)%bind_Ok_inv)%bind_Ok_inv.
  pose proof (map_entries_wf to_pack wf _ _ Hf Hs Hps Hm).
  apply pack_wf_structure; [unfold u8; lia|]. fields.
Qed.

Lemma unbound_pack_wf e p :
  Forall (λ q, converts q.2) (rel_properties e) → edge_wf wf e → unbound_relationship_to_pack to_pack e = Ok p → pack_wf p.
Proof.
  intros Hf (Hid & Hsr & Htg & Hty & Hs & Hps). unfold unbound_relationship_to_pack.
  intros (n1 & H1 & (ps & Hm & [= <-])%bind_Ok_inv)%bind_Ok_inv.
  pose proof (map_entries_wf to_pack wf _ _ Hf Hs Hps Hm).
  apply pack_wf_structure; [unfold u8; lia|]. fields.
Qed.

Lemma path_step_wf ids nodes_at i rels sq e i' rels' sq' :
  Forall (λ q, converts q.2) (rel_properties e) → edge_wf wf e →
  Forall pack_wf (placed rels) → Forall pack_wf sq → (∀ k j, btree_get k (indexes rels) = Some j → 0 ≤ j) →
  path_step to_pack ids nodes_at (i, rels, sq) e = Ok (i', rels', sq') →
  Forall pack_wf (placed rels') ∧ Forall pack_wf sq' ∧ ∀ k j, btree_get k (indexes rels') = Some j → 0 ≤ j.
Proof.
  intros Hfe He Hr Hs Hi Hstep. apply bind_Ok_inv in Hstep as ([ri r2] & Hri & Hstep).
  assert (Forall pack_wf (placed r2) ∧ 0 ≤ ri ∧ ∀ k j, btree_get k (indexes r2) = Some j → 0 ≤ j) as (Hr2 & Hri0 & Hi2).
  { case_match eqn:Hg; [injection Hri as <- <-; split_and!; [done|by eapply Hi|done]|]. unfold place in Hri.
    apply bind_Ok_inv in Hri as (r3 & (v & Hv & [= <-])%bind_Ok_inv & [= <- <-]). cbn [placed indexes].
    pose proof (zlen_nonneg (placed rels)). split_and!; [|done|].
    - apply Forall_app; split; [done|]. constructor; [|constructor]. by eapply unbound_pack_wf.
    - intros k j. rewrite btree_get_insert. case_bool_decide; [by intros [= <-]|apply Hi]. }
  inv_ok. case_match; [done|]. inv_ok. simplify_eq. split_and!; [done| |done]. apply Forall_app; split; [done|].
  repeat match goal with H : in_range _ _ _ = Some _ |- _ => apply in_range_Some in H as [-> ?] end.
  assert (0 ≤ saturating_add usize_max ri 1) by (unfold saturating_add, usize_max, u64_max; lia).
  unfold i64_min, i64_max in *. repeat constructor; unfold i64; repeat case_match; lia.
Qed.

Lemma path_pack_wf path p :
  Forall (λ n, Forall (λ q, converts q.2) (properties n)) (nodes path) →
  Forall (λ e, Forall (λ q, converts q.2) (rel_properties e)) (relationships path) →
  Forall (node_wf wf) (nodes path) → Forall (edge_wf wf) (relationships path) →
  path_to_pack to_pack path = Ok p → pack_wf p.
Proof.
  intros Hfn Hfe Hn He. unfold path_to_pack. case_match; [done|].
  intros (pn & Hpn & ([[i rels] sq] & Hfold & [= <-])%bind_Ok_inv)%bind_Ok_inv.
  assert (Forall pack_wf (placed pn)) as Hwn.
  { apply (foldM_Ok _ _ _ _ (λ _ q, Forall pack_wf (placed q))) in Hpn; [done|constructor|].
    intros d n rest q q' El Hq. case_match; [by intros [= <-]|]. unfold place.
    intros (v & Hv & [= <-])%bind_Ok_inv. apply Forall_app; split; [done|]. constructor; [|constructor].
    rewrite El in Hfn, Hn. apply Forall_app in Hfn as [_ Hfn], Hn as [_ Hn]. apply Forall_cons in Hfn as [Hfn _], Hn as [Hn _].
    by eapply node_pack_wf. }
  apply (foldM_Ok _ _ _ _ (λ _ st, Forall pack_wf (placed st.1.2) ∧ Forall pack_wf st.2
    ∧ ∀ k i, btree_get k (indexes st.1.2) = Some i → 0 ≤ i)) in Hfold as (Hwr & Hws & _); [|done|].
  2: { intros d e rest [[i0 r0] s0] [[i1 r1] s1] El (Hr & Hs & Hi) Hstep.
    rewrite El in Hfe, He. apply Forall_app in Hfe as [_ Hfe], He as [_ He]. apply Forall_cons in Hfe as [Hfe _], He as [He _].
    exact (path_step_wf _ _ _ _ _ _ _ _ _ Hfe He Hr Hs Hi Hstep). }
  apply pack_wf_structure; [unfold u8; lia|]. repeat apply Forall_cons_2; try done; by apply pack_wf_list.
Qed.
End entities_wf.

(** ** Widening a float *)

(** The fields of an [f64] put together. *)
Lemma f64_fields s E F :
  0 ≤ s ≤ 1 → 0 ≤ E < 2048 → 0 ≤ F < 2 ^ 52 →
  let bits := s * 2 ^ 63 + E * 2 ^ 52 + F in
  u64 bits ∧ f64_exponent bits = E ∧ f64_fraction bits = F ∧ f64_negative bits = (s =? 1).
Proof.
  intros Hs HE HF bits. unfold u64, f64_exponent, f64_fraction, f64_negative.
  change (2 ^ 52) with 4503599627370496 in *. change (2 ^ 63) with 9223372036854775808 in *. subst bits.
  assert (bits_div : (s * 9223372036854775808 + E * 4503599627370496 + F) / 4503599627370496 = s * 2048 + E)
    by (symmetry; apply Z.div_unique with F; lia).
  rewrite bits_div. split_and!.
  - lia.
  - lia.
  - symmetry. apply Z.mod_unique with s; lia.
  - symmetry. apply Z.mod_unique with (s * 2048 + E); lia.
  - destruct (Z.eqb_spec s 1); [apply Z.leb_le|apply Z.leb_gt]; lia.
Qed.

(** The value of an [f32] that is not a NaN, in units of [2 ^ -149]. *)
Definition f32_scaled (bits : Z) : Z :=
  let e := bits / 2 ^ 23 mod 256 in
  let f := bits mod 2 ^ 23 in
  let magnitude := if e =? 0 then f else (2 ^ 23 + f) * 2 ^ (e - 1) in
  if 2 ^ 31 <=? bits then - magnitude else magnitude.

Lemma quiet_payload f :
  0 < f < 2 ^ 23 → 0 ≤ Z.lor (f * 2 ^ 29) (2 ^ 51) < 2 ^ 52 ∧ (Z.lor (f * 2 ^ 29) (2 ^ 51) = 0 ↔ f = 0).
Proof.
  intros Hf. assert (Z.lor (f * 2 ^ 29) (2 ^ 51) ≠ 0) as Hne by (rewrite Z.lor_eq_0_iff; lia).
  assert (0 ≤ Z.lor (f * 2 ^ 29) (2 ^ 51)) by (apply Z.lor_nonneg; lia).
  split; [split; [done|]|lia]. apply Z.log2_lt_pow2; [lia|]. rewrite Z.log2_lor by lia.
  rewrite Z.log2_pow2 by lia. apply Z.max_lub_lt; [|lia]. apply Z.log2_lt_pow2; lia.
Qed.

(** The fields of a finite [f32], widened. *)
Lemma f64_widened s e f :
  0 ≤ s ≤ 1 → 0 ≤ e < 256 → e ≠ 255 → 0 ≤ f < 2 ^ 23 →
  ∃ E F, 0 ≤ E < 2047 ∧ 0 ≤ F < 2 ^ 52 ∧
    (if e =? 0 then
       if f =? 0 then s * 2 ^ 63
       else s * 2 ^ 63 + (Z.log2 f + 874) * 2 ^ 52 + (f - 2 ^ Z.log2 f) * 2 ^ (52 - Z.log2 f)
     else s * 2 ^ 63 + (e + 896) * 2 ^ 52 + f * 2 ^ 29) = s * 2 ^ 63 + E * 2 ^ 52 + F
    ∧ (if E =? 0 then F else (2 ^ 52 + F) * 2 ^ (E - 1))
      = (if e =? 0 then f else (2 ^ 23 + f) * 2 ^ (e - 1)) * 2 ^ 925.
Proof.
  intros Hs He Hne Hf. destruct (Z.eqb_spec e 0) as [->|He0]; [destruct (Z.eqb_spec f 0) as [->|Hf0]|].
  - exists 0, 0. split_and!; [lia..|done].
  - set (top := Z.log2 f). destruct (Z.log2_spec f) as [Hlo Hhi]; [lia|]. fold top in Hlo, Hhi.
    assert (0 ≤ top ≤ 22) as Ht by (split; [apply Z.log2_nonneg|apply Z.lt_succ_r, Z.log2_lt_pow2; lia]).
    rewrite Z.pow_succ_r in Hhi by lia.
    assert (2 ^ 52 = 2 ^ top * 2 ^ (52 - top)) as E52 by (rewrite <- Z.pow_add_r by lia; f_equal; lia).
    assert (0 < 2 ^ (52 - top)) by (apply Z.pow_pos_nonneg; lia).
    exists (top + 874), ((f - 2 ^ top) * 2 ^ (52 - top)). split_and!; [lia|lia|nia|nia|done|].
    replace (top + 874 =? 0) with false by lia. rewrite E52, <- Z.mul_add_distr_r.
    replace (2 ^ top + (f - 2 ^ top)) with f by lia. rewrite <- Z.mul_assoc, <- Z.pow_add_r by lia. do 2 f_equal. lia.
  - exists (e + 896), (f * 2 ^ 29). split_and!; [lia|lia|lia|lia|done|].
    replace (e + 896 =? 0) with false by lia.
    replace (2 ^ 52 + f * 2 ^ 29) with ((2 ^ 23 + f) * 2 ^ 29) by lia.
    rewrite <- !Z.mul_assoc, <- !Z.pow_add_r by lia. do 2 f_equal. lia.
Qed.

(** A widened [f32] is an [f64]; a finite one has the same value, in the finer
    unit, and the others stay what they are. *)
Lemma f64_from_f32_exact bits :
  u32 bits →
  u64 (f64_from_f32 bits)
  ∧ (bits / 2 ^ 23 mod 256 ≠ 255 → f64_is_finite (f64_from_f32 bits) = true
     ∧ f64_scaled (f64_from_f32 bits) = f32_scaled bits * 2 ^ 925)
  ∧ (bits / 2 ^ 23 mod 256 = 255 → f64_is_finite (f64_from_f32 bits) = false
     ∧ f64_is_nan (f64_from_f32 bits) = negb (bits mod 2 ^ 23 =? 0)).
Proof.
  intros Hb. unfold f64_from_f32, f32_scaled. set (s := bits / 2 ^ 31). set (e := bits / 2 ^ 23 mod 256). set (f := bits mod 2 ^ 23).
  assert (0 ≤ s ≤ 1) as Hs.
  { unfold s, u32 in *. change (2 ^ 31) with 2147483648. Z.div_mod_to_equations; lia. }
  assert ((2 ^ 31 <=? bits) = (s =? 1)) as ->.
  { unfold s, u32 in *. change (2 ^ 31) with 2147483648 in *. apply eq_true_iff_eq. rewrite Z.leb_le, Z.eqb_eq.
    Z.div_mod_to_equations; lia. }
  assert (0 ≤ e < 256) as He by (apply Z.mod_pos_bound; lia).
  assert (0 ≤ f < 2 ^ 23) as Hf by (apply Z.mod_pos_bound; lia).
  clearbody s e f. clear Hb bits. destruct (Z.eqb_spec e 255) as [->|Hne].
  - set (F := if f =? 0 then 0 else _). assert (0 ≤ F < 2 ^ 52 ∧ (F = 0 ↔ f = 0)) as [HF HF0].
    { unfold F. destruct (Z.eqb_spec f 0) as [->|Hf0]; [lia|]. apply quiet_payload. lia. }
    destruct (f64_fields s 2047 F Hs ltac:(lia) HF) as (Hu & HE & Hfr & Hn).
    split_and!; [done|done|]. intros _. unfold f64_is_finite, f64_is_nan. rewrite HE, Hfr. split; [done|].
    cbn. f_equal. apply eq_true_iff_eq. by rewrite !Z.eqb_eq.
  - split_and!; [..|done].
    + destruct (f64_widened s e f Hs He Hne Hf) as (E & F & HE & HF & -> & _). apply f64_fields; [done|lia|done].
    + intros _. destruct (f64_widened s e f Hs He Hne Hf) as (E & F & HE & HF & -> & Hv).
      destruct (f64_fields s E F Hs ltac:(lia) HF) as (_ & H1 & H2 & H3).
      unfold f64_is_finite, f64_scaled. rewrite H1, H2, H3. split; [apply negb_true_iff, Z.eqb_neq; lia|].
      rewrite Hv. destruct (s =? 1); lia.
Qed.

(** ** Results *)

Section results.
Context `{Timezones}.

Lemma fixed_offset_i32 tz o : fixed_offset_seconds tz = Some o → i32 o.
Proof.
  unfold fixed_offset_seconds. destruct (match tz with [] => _ | _ => _ end) as [[sign value]|]; cbn; [|done].
  repeat (match goal with |- (?o ≫= _) = Some _ → _ => destruct o; cbn; [|done] end).
  case_match; [done|].
  repeat (match goal with |- (?o ≫= _) = Some _ → _ => destruct o; cbn; [|done] end).
  intros [-> ?]%in_range_Some. unfold i32, i32_min, i32_max in *. lia.
Qed.

Ltac ints := repeat apply Forall_cons_2; try apply Forall_nil_2; unfold i64, i32 in *; lia.

Lemma plain_pack_wf v p : plain v → plain_wf v → typed_to_pack v = Ok p → pack_wf p.
Proof.
  assert (∀ g xs, u8 g → Forall i64 xs → pack_wf (PackStructure g (map PackInteger xs))) as Hints.
  { intros g xs Hg Hxs. apply pack_wf_structure; [done|]. apply Forall_fmap.
    eapply Forall_impl; [exact Hxs|]. by constructor. }
  intros Hp Hw. destruct v; try done; cbn [typed_to_pack plain_wf] in *.
  1-2: intros [= <-]; by constructor.
  - intros (x & Hx%ok_or_Ok_inv & [= <-])%bind_Ok_inv. apply parse_int_range in Hx; [|unfold i64_min, i64_max; lia]. by constructor.
  - intros [= <-]. by constructor.
  - intros [= <-]. by constructor.
  - intros [= <-]. by constructor.
  - intros [= <-]. apply (Hints 68 [days]); [unfold u8; lia|ints].
  - intros (_ & _ & [= <-])%bind_Ok_inv. destruct Hw as [Hn Ho]. destruct offset_seconds as [o|]; cbn in Ho.
    + apply (Hints 84 [nanos; o]); [unfold u8; lia|]. ints.
    + apply (Hints 116 [nanos]); [unfold u8; lia|ints].
  - destruct Hw as (Hs & Hn & Ht). assert (i64 nanos) by (unfold i64, u32 in *; lia).
    unfold datetime_to_pack. case_match; [done|]. destruct timezone as [tz|]; cbn in Ht.
    + destruct (fixed_offset_seconds tz) as [o|] eqn:Ho.
      * intros [= <-]. apply fixed_offset_i32 in Ho. apply (Hints 73 [seconds; nanos; o]); [unfold u8; lia|].
        ints.
      * case_match; [|done]. intros [= <-]. apply pack_wf_structure; [unfold u8; lia|].
        repeat apply Forall_cons_2; try apply Forall_nil_2; by constructor.
    + intros [= <-]. apply (Hints 100 [seconds; nanos]); [unfold u8; lia|ints].
  - case_match; [done|]. intros [= <-]. destruct Hw as (? & ? & ? & ?).
    apply (Hints 69 [months; days; seconds; nanos]); [unfold u8; lia|]. ints.
  - intros [= <-]. apply pack_wf_list, Forall_fmap. eapply Forall_impl; [exact Hw|].
    intros x Hx. constructor. by apply f64_from_f32_exact.
Qed.

Lemma typed_pack_wf v p : typed_wf v → typed_to_pack v = Ok p → pack_wf p.
Proof.
  assert (∀ vs, Forall (λ q, ∀ p, typed_wf q.2 → typed_to_pack q.2 = Ok p → pack_wf p) vs →
    Forall (λ q : bytes * TypedValue, typed_wf q.2 → ∀ p, typed_to_pack q.2 = Ok p → pack_wf p) vs) as Hflip.
  { intros vs Hvs. eapply Forall_impl; [exact Hvs|]. auto. }
  revert p. induction v as [v Hv|n IH|e IH|pt [IHn IHe]|vs IH|vs IH] using TypedValue_nested_ind; intros p Hw.
  - inversion Hw; subst; try done. by apply plain_pack_wf.
  - inversion Hw; subst; [done|]. apply (node_pack_wf _ typed_wf); [by apply Hflip|done].
  - inversion Hw; subst; [done|]. apply (edge_pack_wf _ typed_wf); [by apply Hflip|done].
  - inversion Hw; subst; [done|]. apply (path_pack_wf _ typed_wf); [..|done|done].
    + eapply Forall_impl; [exact IHn|]. intros n. apply Hflip.
    + eapply Forall_impl; [exact IHe|]. intros e. apply Hflip.
  - inversion Hw as [|?|?|?|vs' Hvs|?]; subst; [done|]. cbn [typed_to_pack].
    intros (ps & Hps%mapM_Ok_inv & ->)%fmap_Ok_inv. apply pack_wf_list.
    clear Hw. induction Hps as [|v q vs ps Hq _ IH']; [done|].
    apply Forall_cons in IH as [IH1 IH], Hvs as [Hv1 Hvs]. constructor; [by apply IH1|by apply IH'].
  - inversion Hw as [|?|?|?|?|vs' [Hs Hvs]]; subst; [done|]. cbn [typed_to_pack].
    intros (ps & Hps & ->)%fmap_Ok_inv. by eapply map_entries_wf; [apply Hflip| | |].
Qed.

(** C38: results are encoded as what they convert to.  For every result value
    whose paths fit in memory, the direct encoder and the conversion to
    PackStream followed by the PackStream encoder both return, and succeed
    together with the same bytes; and when they succeed, a client that decodes
    the bytes of a well-formed value has its PackStream form (or a nesting
    error past [MAX_VALUE_DEPTH]). *)
Theorem result_encoding_agrees v out :
  typed_sized v = true →
  agree (encode_typed_value v out) (p ← typed_to_pack v; encode_packstream p out)
  ∧ ∀ bs, typed_wf v → encode_typed_value v [] = Ok bs → zlen bs ≤ isize_max →
      ∃ p, typed_to_pack v = Ok p
        ∧ decode_packstream bs = if pack_depth p <=? MAX_VALUE_DEPTH then Ok p else Err nesting_limit.
Proof.
  intros Hs. pose proof (typed_agrees v Hs) as Ha. split; [apply Ha|]. intros bs Hw Hbs Hl.
  specialize (Ha []). rewrite Hbs in Ha. destruct (typed_to_pack v) as [p|e|] eqn:Hp; cbn in Ha; [|done..].
  exists p. split; [done|]. pose proof (encode_wire p []) as He.
  destruct (pack_fits p) eqn:Hf; [|destruct He as (e & He & _); by rewrite He in Ha].
  rewrite He in Ha. cbn in Ha. subst bs. apply decode_wire; [by eapply typed_pack_wf|done|done].
Qed.
End results.
