(* ===== verification/BoltPaths.v ===== *)
(** * Paths on the Bolt wire

    A path is sent as its distinct nodes, its distinct relationships and a
    sequence of references; replaying the sequence gives the path back. *)

From stdpp Require Import prelude gmap strings sorting.
From Stdlib Require Import ZArith Lia.
From S2P Require Import Prelude Machine Types Bolt BoltTheorems BoltDecode BoltTyped BoltTypedTheorems.

Local Open Scope Z_scope.

(** What a client reconstructs from a path structure: for each pair of the
    sequence the direction, the relationship and the node it refers to. *)
Fixpoint replay (ns rs sequence : list PackStreamValue)
    : option (list (bool * PackStreamValue * PackStreamValue)) :=
  match sequence with
  | [] => Some []
  | PackInteger r :: PackInteger n :: sequence =>
      rel ← get rs (Z.abs r - 1);
      node ← get ns n;
      steps ← replay ns rs sequence;
      Some ((0 <? r, rel, node) :: steps)
  | _ => None
  end.

Lemma replay_app ns rs a b sa sb :
  replay ns rs a = Some sa → replay ns rs b = Some sb → replay ns rs (a ++ b) = Some (sa ++ sb).
Proof.
  revert a sa. fix IH 1. intros a sa Ha Hb. destruct a as [|x [|y a]]; cbn in *.
  - by injection Ha as <-.
  - by destruct x.
  - destruct x as [| |r| | | | | |], y as [| |n| | | | | |]; try done.
    destruct (get rs (Z.abs r - 1)) as [rel|]; [|done]. destruct (get ns n) as [node|]; [|done]. cbn in *.
    destruct (replay ns rs a) as [sa'|] eqn:E; [|done]. injection Ha as <-.
    by rewrite (IH a sa' E Hb).
Qed.

Lemma get_elem {A} (l : list A) i x : get l i = Some x → x ∈ l.
Proof. unfold get. destruct (i <? 0); [done|]. apply list_elem_of_lookup_2. Qed.

Lemma get_at_nat {A} (l : list A) (j : nat) : get l (Z.of_nat j) = l !! j.
Proof. unfold get. destruct (Z.ltb_spec (Z.of_nat j) 0); [lia|]. by rewrite Nat2Z.id. Qed.

Lemma index_at_map {E A B} (f : A → B) l i y :
  index_at (E := E) (map f l) i = Ok y → ∃ x, get l i = Some x ∧ y = f x.
Proof.
  unfold index_at, get. destruct (i <? 0); [done|]. rewrite list_lookup_fmap.
  destruct (l !! Z.to_nat i) as [x|]; cbn; [|done]. intros [= <-]. by exists x.
Qed.

Section placing.
Context {A : Type} (key : A → bytes) (pack : A → Result PackStreamValue).

(** Elements with the same key are the same. *)
Definition consistent (l : list A) : Prop := ∀ a b, a ∈ l → b ∈ l → key a = key b → a = b.

(** The elements seen are placed at the positions given to their keys. *)
Definition places (seen : list A) (p : Placed) : Prop :=
  (∀ a, a ∈ seen → ∃ i v, btree_get (key a) (indexes p) = Some i ∧ get (placed p) i = Some v ∧ pack a = Ok v)
  ∧ (∀ k i, btree_get k (indexes p) = Some i → 0 ≤ i ∧ ∃ a, a ∈ seen ∧ key a = k).

Lemma get_snoc {B} (l : list B) x i v : get l i = Some v → get (l ++ [x]) i = Some v.
Proof. unfold get. case_match; [done|]. intros E. by apply lookup_app_l_Some. Qed.

Lemma get_last {B} (l : list B) x : get (l ++ [x]) (zlen l) = Some x.
Proof.
  unfold get. pose proof (zlen_nonneg l). replace (zlen l <? 0) with false by lia.
  unfold zlen. rewrite Nat2Z.id. by apply list_lookup_middle.
Qed.

Lemma place_places seen p a p' :
  places seen p → btree_get (key a) (indexes p) = None → place (key a) (pack a) p = Ok p' →
  places (seen ++ [a]) p' ∧ btree_get (key a) (indexes p') = Some (zlen (placed p))
  ∧ (∀ i v, get (placed p) i = Some v → get (placed p') i = Some v).
Proof.
  intros [Hseen Hkeys] Hnew Hp. unfold place in Hp. inv_ok. subst p'. cbn [indexes placed].
  rename a0 into v. split_and!; [split| |].
  - intros b Hb. cbn [indexes placed]. rewrite btree_get_insert. apply elem_of_app in Hb as [Hb|Hb].
    + destruct (Hseen b Hb) as (i & w & Hi & Hw & Hpack). rewrite bool_decide_false by congruence.
      exists i, w. split_and!; [done|by apply get_snoc|done].
    + apply list_elem_of_singleton in Hb as ->. rewrite bool_decide_true by done.
      exists (zlen (placed p)), v. split_and!; [done|apply get_last|done].
  - intros k i. cbn [indexes placed]. rewrite btree_get_insert. case_bool_decide as Hk.
    + intros [= <-]. split; [apply zlen_nonneg|]. exists a. split; [set_solver|done].
    + intros Hi. destruct (Hkeys k i Hi) as (? & b & Hb & <-). split; [done|]. exists b. split; [set_solver|done].
  - by rewrite btree_get_insert, bool_decide_true.
  - intros i w. apply get_snoc.
Qed.

Lemma seen_places seen p a i :
  consistent (seen ++ [a]) → places seen p → btree_get (key a) (indexes p) = Some i → places (seen ++ [a]) p.
Proof.
  intros Hc [Hseen Hkeys] Hi. destruct (Hkeys _ _ Hi) as (_ & b & Hb & Hk).
  assert (b = a) as -> by (apply Hc; [set_solver..|done]). split.
  - intros c [Hin| ->%list_elem_of_singleton]%elem_of_app; [by apply Hseen|by apply Hseen].
  - intros k j Hj. destruct (Hkeys k j Hj) as (? & c & ? & ?). split; [done|]. exists c. split; [set_solver|done].
Qed.
End placing.

Lemma replay_mono ns rs rs' sequence steps :
  (∀ i v, get rs i = Some v → get rs' i = Some v) →
  replay ns rs sequence = Some steps → replay ns rs' sequence = Some steps.
Proof.
  intros Hrs. revert sequence steps. fix IH 1. intros sequence steps.
  destruct sequence as [|x [|y sequence]]; cbn; [done|by destruct x|].
  destruct x as [| |r| | | | | |], y as [| |n| | | | | |]; try done.
  destruct (get rs (Z.abs r - 1)) as [rel|] eqn:E; [|done]. rewrite (Hrs _ _ E). cbn.
  destruct (get ns n) as [node|]; [|done]. cbn.
  destruct (replay ns rs sequence) as [st|] eqn:Hr; [|done]. intros [= <-]. by rewrite (IH _ _ Hr).
Qed.

Section paths.
Context {V : Type} (to_pack : V → Result PackStreamValue).
Implicit Types (n l r : ResultNode V) (e : RelationshipValue V).

Definition consistent_path (p : PathValue V) : Prop :=
  consistent id (nodes p) ∧ consistent rel_id (relationships p).

(** The step of a relationship between the nodes around it. *)
Definition walks l e r (step : bool * PackStreamValue * PackStreamValue) : Prop :=
  ∃ rel node, unbound_relationship_to_pack to_pack e = Ok rel ∧ node_to_pack to_pack r = Ok node ∧
    (source e = id l ∧ target e = id r ∧ step = (true, rel, node)
     ∨ ¬ (source e = id l ∧ target e = id r) ∧ source e = id r ∧ target e = id l ∧ step = (false, rel, node)).

Lemma path_nodes_places ns p :
  consistent id ns → path_nodes to_pack (mkPlaced [] []) ns = Ok p →
  places id (node_to_pack to_pack) ns p
  ∧ ∀ n ns', ns = n :: ns' → ∃ v, get (placed p) 0 = Some v ∧ node_to_pack to_pack n = Ok v.
Proof.
  intros Hc Hp.
  apply (foldM_Ok _ _ _ _ (λ seen p, places id (node_to_pack to_pack) seen p
    ∧ (∀ n seen', seen = n :: seen' → ∃ v, get (placed p) 0 = Some v ∧ node_to_pack to_pack n = Ok v)
    ∧ (seen = [] → p = mkPlaced [] []))) in Hp as (? & ? & _); [done|..].
  - split_and!; [split; [by intros ? ?%not_elem_of_nil|done]|done|done].
  - intros seen n rest q q' El (Hq & Hfirst & Hempty) Hstep.
    destruct (btree_get (id n) (indexes q)) as [i|] eqn:Hg.
    + injection Hstep as <-. split_and!; [|intros n' seen' E|by intros ?%app_eq_nil; naive_solver].
      * eapply seen_places; [|done..]. intros a b Ha Hb. apply Hc; rewrite El; set_solver.
      * destruct seen as [|n0 seen]; [|injection E as -> _; by eapply Hfirst].
        rewrite (Hempty eq_refl) in Hg. done.
    + destruct (place_places _ _ _ _ _ _ Hq Hg Hstep) as (Hp' & Hi & Hkeep).
      split_and!; [done|intros n' seen' E|by intros [_ ?]%app_eq_nil].
      destruct seen as [|n0 seen].
      * rewrite (Hempty eq_refl) in Hi. cbn in E. injection E as -> _.
        destruct Hp' as [Hs _]. destruct (Hs n') as (i & v & Hi' & Hv & Hpack); [set_solver|].
        rewrite Hi in Hi'. injection Hi' as <-. by exists v.
      * injection E as -> _. destruct (Hfirst _ _ eq_refl) as (v & Hv & Hpack). exists v. split; [by apply Hkeep|done].
Qed.

Lemma path_step_walks ns pn d e rest rels rels' sq sq' i' steps :
  places id (node_to_pack to_pack) ns pn →
  consistent rel_id (d ++ e :: rest) → places rel_id (unbound_relationship_to_pack to_pack) d rels →
  replay (placed pn) (placed rels) sq = Some steps →
  path_step to_pack (map id ns) (indexes pn) (zlen d, rels, sq) e = Ok (i', rels', sq') →
  i' = zlen d + 1 ∧ places rel_id (unbound_relationship_to_pack to_pack) (d ++ [e]) rels'
  ∧ ∃ l r step, get ns (zlen d) = Some l ∧ get ns (zlen d + 1) = Some r ∧ walks l e r step
      ∧ replay (placed pn) (placed rels') sq' = Some (steps ++ [step]).
Proof.
  intros Hpn Hc Hrels Hsteps Hstep. unfold path_step in Hstep.
  apply bind_Ok_inv in Hstep as ([ri rels1] & Hri & Hstep).
  assert (places rel_id (unbound_relationship_to_pack to_pack) (d ++ [e]) rels1
    ∧ btree_get (rel_id e) (indexes rels1) = Some ri
    ∧ ∀ i v, get (placed rels) i = Some v → get (placed rels1) i = Some v) as (Hp1 & Hri1 & Hkeep).
  { destruct (btree_get (rel_id e) (indexes rels)) as [j|] eqn:Hg.
    - injection Hri as <- <-. split_and!; [|done|done]. eapply seen_places; [|done..].
      intros a b Ha Hb. apply Hc; set_solver.
    - apply bind_Ok_inv in Hri as (rels2 & Hplace & [= <- <-]). by apply place_places with (1 := Hrels). }
  apply bind_Ok_inv in Hstep as (left & (l & Hl & ->)%index_at_map & Hstep).
  apply bind_Ok_inv in Hstep as (right & (r & Hr & ->)%index_at_map & Hstep).
  case_match eqn:Hdir; [done|]. apply bind_Ok_inv in Hstep as (rr & Hrr%ok_or_Ok_inv & Hstep).
  apply bind_Ok_inv in Hstep as (nr & Hnr%ok_or_Ok_inv & Hstep).
  apply bind_Ok_inv in Hstep as (nr' & Hnr'%ok_or_Ok_inv & Hstep). injection Hstep as <- <- <-.
  split_and!; [done..|].
  apply in_range_Some in Hrr as [-> Hin]. apply in_range_Some in Hnr' as [-> _].
  destruct Hp1 as [Hs1 Hk1]. destruct (Hk1 _ _ Hri1) as [Hri0 _].
  assert (saturating_add usize_max ri 1 = ri + 1) as Esat.
  { unfold saturating_add, usize_max, u64_max, i64_max in *. lia. }
  destruct (Hs1 e) as (i & rel & Hi & Hrel & Hpack); [set_solver|]. rewrite Hri1 in Hi. injection Hi as <-.
  pose proof (get_elem _ _ _ Hr) as Hin_r.
  destruct (proj1 Hpn r Hin_r) as (j & node & Hj & Hnode & Hnpack). rewrite Hnr in Hj. injection Hj as <-.
  set (fwd := bool_decide (source e = id l) && bool_decide (target e = id r)) in *.
  exists l, r, (fwd, rel, node). split_and!; [done..| |].
  - exists rel, node. split_and!; [done..|]. destruct (decide (source e = id l ∧ target e = id r)) as [[E1 E2]|Hn].
    + left. split_and!; [done..|]. unfold fwd. by rewrite (bool_decide_true (source e = id l)), (bool_decide_true (target e = id r)).
    + right. assert (fwd = false) as Ef by (unfold fwd; rewrite <- bool_decide_and; by apply bool_decide_false).
      rewrite Ef in *. apply negb_false_iff, andb_true_iff in Hdir as [E1%bool_decide_eq_true E2%bool_decide_eq_true].
      done.
  - apply replay_app; [by eapply replay_mono|]. cbn [replay]. rewrite Esat.
    replace (Z.abs (if fwd then ri + 1 else - (ri + 1)) - 1) with ri by (destruct fwd; lia).
    rewrite Hrel. cbn. rewrite Hnode. cbn. do 4 f_equal. destruct fwd; lia.
Qed.

Lemma path_replays path v :
  consistent_path path → path_to_pack to_pack path = Ok v →
  ∃ ns rs sequence steps,
    v = PackStructure 80 [PackList ns; PackList rs; PackList sequence]
    ∧ (∀ n, nodes path !! 0%nat = Some n → ∃ first, ns !! 0%nat = Some first ∧ node_to_pack to_pack n = Ok first)
    ∧ replay ns rs sequence = Some steps ∧ length steps = length (relationships path)
    ∧ ∀ j l e r, nodes path !! j = Some l → relationships path !! j = Some e → nodes path !! S j = Some r →
        ∃ step, steps !! j = Some step ∧ walks l e r step.
Proof.
  intros [Hcn Hcr] Hp. unfold path_to_pack in Hp. case_match eqn:Hlen; [done|].
  apply bind_Ok_inv in Hp as (pn & Hpn & Hp). apply bind_Ok_inv in Hp as ([[i rels] sq] & Hfold & [= <-]).
  destruct (path_nodes_places _ _ Hcn Hpn) as [Hplaces Hfirst].
  apply (foldM_Ok _ _ _ _ (λ d '(i, rels, sq), i = zlen d
    ∧ places rel_id (unbound_relationship_to_pack to_pack) d rels
    ∧ ∃ steps, replay (placed pn) (placed rels) sq = Some steps ∧ length steps = length d
      ∧ ∀ j l e r, nodes path !! j = Some l → d !! j = Some e → nodes path !! S j = Some r →
          ∃ step, steps !! j = Some step ∧ walks l e r step)) in Hfold as (_ & _ & steps & Hreplay & Hl & Hsteps).
  - exists (placed pn), (placed rels), sq, steps. split_and!; [done| |done..].
    intros n Hn. destruct (nodes path) as [|n' ns'] eqn:E; [done|]. injection Hn as ->.
    destruct (Hfirst _ _ eq_refl) as (v & Hv & ?). exists v. by rewrite (get_at_nat _ 0) in Hv.
  - split_and!; [done|split; [by intros ? ?%not_elem_of_nil|done]|]. by exists [].
  - intros d e rest [[i0 rels0] sq0] [[i1 rels1] sq1] El (-> & Hpl & steps & Hr & Hls & Hst) Hstep.
    destruct (path_step_walks _ _ _ _ _ _ _ _ _ _ _ Hplaces ltac:(by rewrite <- El) Hpl Hr Hstep)
      as (-> & Hpl' & l & r & step & Hgl & Hgr & Hw & Hr').
    split_and!; [by rewrite zlen_app|done|]. exists (steps ++ [step]).
    split_and!; [done|rewrite !length_app; by rewrite Hls|].
    intros j l' e' r' Hl' He' Hrj. destruct (decide (j = length d)) as [->|Hj].
    + rewrite list_lookup_middle in He' by done. injection He' as <-. unfold zlen in Hgl, Hgr.
      rewrite get_at_nat in Hgl. replace (Z.of_nat (length d) + 1) with (Z.of_nat (S (length d))) in Hgr by lia.
      rewrite get_at_nat in Hgr. simplify_eq. exists step. by rewrite list_lookup_middle.
    + rewrite lookup_app_l in He'; [|apply lookup_lt_Some in He'; rewrite length_app in He'; cbn in He'; lia].
      destruct (Hst j l' e' r' Hl' He' Hrj) as (st & Hs & Hws). exists st. split; [|done].
      by apply lookup_app_l_Some.
Qed.
End paths.

(** C39: the structure sent for a path is the path.  Where equal identifiers
    mean equal nodes and equal relationships, a path that converts is sent
    with its first node first, and replaying the sequence of references from
    there gives, for each relationship in turn, that relationship, the node
    after it, and the direction in which it is crossed: forwards when it runs
    from the node before to the node after, and otherwise it runs back. *)
Theorem path_structure_replays `{Timezones} path v :
  consistent_path path → typed_to_pack (TypedPath path) = Ok v →
  ∃ ns rs sequence steps,
    v = PackStructure 80 [PackList ns; PackList rs; PackList sequence]
    ∧ (∀ n, nodes path !! 0%nat = Some n →
         ∃ first, ns !! 0%nat = Some first ∧ node_to_pack typed_to_pack n = Ok first)
    ∧ replay ns rs sequence = Some steps ∧ length steps = length (relationships path)
    ∧ ∀ j l e r, nodes path !! j = Some l → relationships path !! j = Some e → nodes path !! S j = Some r →
        ∃ step, steps !! j = Some step ∧ walks typed_to_pack l e r step.
Proof. apply path_replays. Qed.

(** ** Examples *)

Definition one_zone : Timezones := {| timezone_known s := bool_decide (s = lit "Europe/Oslo") |}.

Definition sample_node (i : string) : ResultNode TypedValue :=
  mkResultNode (lit i) [lit "Person"]
    [(lit "name", TypedString (lit "Ada")); (lit "when", TypedDateTime 5 6 (Some (lit "+01:30")))].

Definition sample_edge (i s t : string) : RelationshipValue TypedValue :=
  mkRelationship (lit i) (lit s) (lit t) (lit "KNOWS") [(lit "since", TypedDate 3)].

(** Over an edge, back along it, and over another one. *)
Definition sample_path : PathValue TypedValue :=
  mkPath [sample_node "1"; sample_node "2"; sample_node "1"; sample_node "3"]
    [sample_edge "7" "1" "2"; sample_edge "7" "1" "2"; sample_edge "8" "3" "1"].

Lemma sample_path_consistent : consistent_path sample_path.
Proof.
  split; intros a b Ha Hb; cbn in Ha, Hb;
    repeat match goal with
    | H : _ ∈ _ :: _ |- _ => apply elem_of_cons in H as [-> | H]
    | H : _ ∈ [] |- _ => by apply not_elem_of_nil in H
    end; intros E; try reflexivity; vm_compute in E; discriminate E.
Qed.

Lemma path_structure_replays_witness :
  consistent_path sample_path
  ∧ ∃ v ns rs sequence steps, typed_to_pack (H := one_zone) (TypedPath sample_path) = Ok v
    ∧ v = PackStructure 80 [PackList ns; PackList rs; PackList sequence]
    ∧ replay ns rs sequence = Some steps ∧ length steps = 3%nat.
Proof.
  split; [exact sample_path_consistent|].
  destruct (typed_to_pack (H := one_zone) (TypedPath sample_path)) as [v|e|w] eqn:E;
    [|vm_compute in E; discriminate E..].
  destruct (path_structure_replays (H := one_zone) sample_path v sample_path_consistent E)
    as (ns & rs & sequence & steps & Hv & _ & Hr & Hl & _).
  exists v, ns, rs, sequence, steps. split_and!; [reflexivity|exact Hv|exact Hr|exact Hl].
Defined.

(** The sequence of the example. *)
Example sample_path_sequence :
  ∃ ns rs, typed_to_pack (H := one_zone) (TypedPath sample_path)
    = Ok (PackStructure 80 [PackList ns; PackList rs;
            PackList (map PackInteger [1; 1; -1; 0; -2; 2])])
    ∧ length ns = 3%nat ∧ length rs = 2%nat.
Proof. eexists _, _. split_and!; vm_compute; reflexivity. Qed.

Lemma result_encoding_agrees_witness :
  typed_sized (TypedPath sample_path) = true
  ∧ agree (encode_typed_value (H := one_zone) (TypedPath sample_path) [])
      (p ← typed_to_pack (H := one_zone) (TypedPath sample_path); encode_packstream p [])
  ∧ agree (encode_typed_value (H := one_zone) (TypedList [TypedNode (sample_node "1"); TypedVector [1065353216]]) [])
      (p ← typed_to_pack (H := one_zone) (TypedList [TypedNode (sample_node "1"); TypedVector [1065353216]]);
       encode_packstream p []).
Proof.
  split_and!; [reflexivity|..].
  - apply (result_encoding_agrees (H := one_zone)). reflexivity.
  - apply (result_encoding_agrees (H := one_zone)). reflexivity.
Defined.
