(* ===== verification/BoltParameters.v ===== *)
(** * Query parameters and results between Bolt and the engine

    Query parameters arrive as PackStream, become JSON ([pack_to_json],
    [crates/server/src/protocol/bolt.rs]) and then result values
    ([json_to_result], [crates/server/src/server/database.rs]); result values
    leave as typed values ([result_to_typed]) on their way to [BoltTyped].
    Also the bookmarks a client passes and receives.

    A [serde_json] number is an integer or the bits of a float; an object is
    its entries in key order. *)

From stdpp Require Import prelude gmap strings sorting.
From Stdlib Require Import ZArith Lia.
From S2P Require Import Prelude Machine Types Document Results Temporal Bolt BoltTyped.

Local Open Scope Z_scope.

(** ** JSON *)

#[local] Unset Elimination Schemes.
Inductive Json :=
| JsonNull
| JsonBool (value : bool)
| JsonInteger (value : Z)
| JsonFloat (bits : Z)
| JsonString (value : bytes)
| JsonArray (values : list Json)
| JsonObject (values : list (bytes * Json)).
#[local] Set Elimination Schemes.

(** [serde_json::Number::from_f64]: no infinity, no NaN. *)
Definition number_from_f64 (bits : Z) : option Json :=
  if f64_is_finite bits then Some (JsonFloat bits) else None.

Definition as_str (value : Json) : option bytes :=
  match value with JsonString s => Some s | _ => None end.
Definition as_array (value : Json) : option (list Json) :=
  match value with JsonArray vs => Some vs | _ => None end.
Definition json_as_i64 (value : Json) : option Z :=
  match value with JsonInteger x => if x <=? i64_max then Some x else None | _ => None end.
Definition json_as_u64 (value : Json) : option Z :=
  match value with JsonInteger x => if 0 <=? x then Some x else None | _ => None end.

(** [as_f64] of a number: an integer is rounded to the nearest float. *)
Definition integer_as_f64 (x : Z) : Z :=
  if x <? 0 then 2 ^ 63 + f64_nearest (- x) 1 else f64_nearest x 1.

(** [json!({ ... })]. *)
Definition json_object (entries : list (string * Json)) : Json :=
  JsonObject (btree_collect (map (λ p, (lit p.1, p.2)) entries)).

Definition text (s : string) : Json := JsonString (lit s).

(** ** Parameters: PackStream to JSON *)

Definition concat_message (a b : string) : string := String.append a b.

Definition parameter_i64 (value : PackStreamValue) (field : string) : Result Z :=
  match value with
  | PackInteger value => Ok value
  | _ => Err (protocol_violation (concat_message field " must be an integer"))
  end.

Definition parameter_i32 (value : PackStreamValue) (field : string) : Result Z :=
  value ← parameter_i64 value field;
  ok_or (in_range i32_min i32_max value)
    (protocol_violation (concat_message field " exceeds 32-bit range")).

Definition parameter_u32 (value : PackStreamValue) (field : string) : Result Z :=
  value ← parameter_i64 value field;
  ok_or (in_range 0 u32_max value)
    (protocol_violation (concat_message field " is negative or exceeds 32-bit range")).

Definition parameter_time_nanos (value : PackStreamValue) (field : string) : Result Z :=
  nanos ← parameter_i64 value field;
  if negb ((0 <=? nanos) && (nanos <? 86400000000000)) then
    Err (protocol_violation (concat_message field " is outside one day"))
  else Ok nanos.

Definition parameter_fraction_nanos (value : PackStreamValue) (field : string) : Result Z :=
  nanos ← parameter_u32 value field;
  if 999999999 <? nanos then Err (protocol_violation (concat_message field " exceeds one second"))
  else Ok nanos.

Definition parameter_offset (value : PackStreamValue) (field : string) : Result Z :=
  offset ← parameter_i32 value field;
  if 86400 <=? Z.abs offset then
    Err (protocol_violation (concat_message field " is outside one day"))
  else Ok offset.

Definition parameter_duration_nanos (value : PackStreamValue) : Result Z :=
  nanos ← parameter_i32 value "duration nanos";
  if 999999999 <? Z.abs nanos then Err (protocol_violation "duration nanos exceeds one second")
  else Ok nanos.

(** [{:02}] of a natural number. *)
Definition display_02 (n : Z) : bytes :=
  let ds := digits_of 40 n in replicate (2 - length ds) 48 ++ ds.

Definition format_offset (offset_seconds : Z) : Result bytes :=
  let absolute := Z.abs offset_seconds in
  if 24 * 60 * 60 <=? absolute then Err (protocol_violation "datetime offset is outside one day")
  else
    let sign := if offset_seconds <? 0 then lit "-" else lit "+" in
    let hours := absolute / 3600 in
    let minutes := absolute mod 3600 / 60 in
    let seconds := absolute mod 60 in
    if seconds =? 0 then Ok (sign ++ display_02 hours ++ lit ":" ++ display_02 minutes)
    else Ok (sign ++ display_02 hours ++ lit ":" ++ display_02 minutes ++ lit ":" ++ display_02 seconds).

Section parameters.
Context `{Timezones}.

Definition temporal_parameter_to_json (signature : Z) (fields : list PackStreamValue) : Result Json :=
  let unknown := Err (protocol_violation (concat_message "PackStream structure 0x"
                   (concat_message (hex02 signature) " is not a query parameter value"))) in
  match fields with
  | [days] =>
      if signature =? 68 then
        days ← parameter_i64 days "date days";
        Ok (json_object [("$irongraph_type", text "date"); ("days", JsonInteger days)])
      else if signature =? 116 then
        nanos ← parameter_time_nanos days "local time nanos";
        Ok (json_object [("$irongraph_type", text "local_time"); ("nanos", JsonInteger nanos)])
      else unknown
  | [first; second] =>
      if signature =? 84 then
        nanos ← parameter_time_nanos first "time nanos";
        offset ← parameter_offset second "time offset";
        Ok (json_object [("$irongraph_type", text "zoned_time"); ("nanos", JsonInteger nanos);
                         ("offset_seconds", JsonInteger offset)])
      else if signature =? 100 then
        seconds ← parameter_i64 first "datetime seconds";
        nanos ← parameter_fraction_nanos second "datetime nanos";
        Ok (json_object [("$irongraph_type", text "local_datetime"); ("seconds", JsonInteger seconds);
                         ("nanos", JsonInteger nanos)])
      else unknown
  | [seconds; nanos; zone] =>
      if signature =? 73 then
        seconds ← parameter_i64 seconds "datetime seconds";
        nanos ← parameter_fraction_nanos nanos "datetime nanos";
        offset ← parameter_offset zone "datetime offset";
        timezone ← format_offset offset;
        Ok (json_object [("$irongraph_type", text "zoned_datetime"); ("seconds", JsonInteger seconds);
                         ("nanos", JsonInteger nanos); ("timezone", JsonString timezone)])
      else if signature =? 105 then
        match zone with
        | PackString timezone =>
            if (zlen timezone =? 0) || (255 <? zlen timezone) || negb (timezone_known timezone) then
              Err (protocol_violation "datetime timezone is not a supported IANA identifier")
            else
              seconds ← parameter_i64 seconds "datetime seconds";
              nanos ← parameter_fraction_nanos nanos "datetime nanos";
              Ok (json_object [("$irongraph_type", text "zoned_datetime"); ("seconds", JsonInteger seconds);
                               ("nanos", JsonInteger nanos); ("timezone", JsonString timezone)])
        | _ => unknown
        end
      else unknown
  | [months; days; seconds; nanos] =>
      if signature =? 69 then
        months ← parameter_i64 months "duration months";
        days ← parameter_i64 days "duration days";
        seconds ← parameter_i64 seconds "duration seconds";
        nanos ← parameter_duration_nanos nanos;
        Ok (json_object [("$irongraph_type", text "duration"); ("months", JsonInteger months);
                         ("days", JsonInteger days); ("seconds", JsonInteger seconds);
                         ("nanos", JsonInteger nanos)])
      else unknown
  | _ => unknown
  end.

Fixpoint pack_to_json (value : PackStreamValue) : Result Json :=
  match value with
  | PackNull => Ok JsonNull
  | PackBoolean value => Ok (JsonBool value)
  | PackInteger value => Ok (JsonInteger value)
  | PackFloat bits => ok_or (number_from_f64 bits) (Error_invalid_data "non-finite query parameter")
  | PackString value => Ok (JsonString value)
  | PackBytes value =>
      Ok (json_object [("$irongraph_type", text "bytes"); ("value", JsonArray (map JsonInteger value))])
  | PackList values => JsonArray <$> mapM pack_to_json values
  | PackMap values => JsonObject <$> collect_entries pack_to_json values
  | PackStructure signature fields => temporal_parameter_to_json signature fields
  end.

Definition pack_map_to_json (values : list (bytes * PackStreamValue)) : Result (list (bytes * Json)) :=
  collect_entries pack_to_json values.
End parameters.

(** ** JSON to result values *)

Definition exact_tag_fields (values : list (bytes * Json)) (fields : list string) : Result unit :=
  if (zlen values =? zlen fields)
     && forallb (λ field, bool_decide (is_Some (btree_get (lit field) values))) fields
  then Ok tt
  else Err (Error_invalid_data "typed parameter has missing or unknown fields").

Definition typed_field (field message : string) : Error :=
  Error_invalid_data (concat_message "typed parameter " (concat_message field message)).

Definition tag_i64 (values : list (bytes * Json)) (field : string) : Result Z :=
  ok_or (btree_get (lit field) values ≫= json_as_i64) (typed_field field " must be an integer").

Definition tag_i32 (values : list (bytes * Json)) (field : string) : Result Z :=
  value ← tag_i64 values field;
  ok_or (in_range i32_min i32_max value) (typed_field field " exceeds 32-bit range").

Definition tag_u32 (values : list (bytes * Json)) (field : string) : Result Z :=
  ok_or ((btree_get (lit field) values ≫= json_as_u64) ≫= in_range 0 u32_max)
    (typed_field field " is negative or exceeds 32-bit range").

Definition json_byte (value : Json) : Result Z :=
  ok_or (json_as_u64 value ≫= in_range 0 u8_max) (Error_invalid_data "byte parameter is outside 0..255").

Definition tagged_json_to_result (values : list (bytes * Json)) : Result ResultValue :=
  kind ← ok_or (btree_get (lit "$irongraph_type") values ≫= as_str)
    (Error_invalid_data "typed parameter requires a string $irongraph_type");
  let tagged k := bool_decide (kind = lit k) in
  scalar ←
    (if tagged "bytes" then
       _ ← exact_tag_fields values ["$irongraph_type"; "value"];
       array ← ok_or (btree_get (lit "value") values ≫= as_array)
         (Error_invalid_data "bytes parameter requires an array");
       ScalarBytes <$> mapM json_byte array
     else if tagged "date" then
       _ ← exact_tag_fields values ["$irongraph_type"; "days"];
       ScalarDate <$> tag_i64 values "days"
     else if tagged "local_time" then
       _ ← exact_tag_fields values ["$irongraph_type"; "nanos"];
       ScalarLocalTime <$> tag_i64 values "nanos"
     else if tagged "zoned_time" then
       _ ← exact_tag_fields values ["$irongraph_type"; "nanos"; "offset_seconds"];
       nanos ← tag_i64 values "nanos";
       offset_seconds ← tag_i32 values "offset_seconds";
       Ok (ScalarZonedTime nanos offset_seconds)
     else if tagged "local_datetime" then
       _ ← exact_tag_fields values ["$irongraph_type"; "seconds"; "nanos"];
       seconds ← tag_i64 values "seconds";
       nanos ← tag_u32 values "nanos";
       Ok (ScalarLocalDateTime seconds nanos)
     else if tagged "zoned_datetime" then
       _ ← exact_tag_fields values ["$irongraph_type"; "seconds"; "nanos"; "timezone"];
       timezone ← ok_or
         (timezone ← (btree_get (lit "timezone") values ≫= as_str);
          if negb (zlen timezone =? 0) && (zlen timezone <=? 255) then Some timezone else None)
         (Error_invalid_data "datetime timezone is empty or oversized");
       seconds ← tag_i64 values "seconds";
       nanos ← tag_u32 values "nanos";
       Ok (ScalarZonedDateTime seconds nanos timezone)
     else if tagged "duration" then
       _ ← exact_tag_fields values ["$irongraph_type"; "months"; "days"; "seconds"; "nanos"];
       months ← tag_i64 values "months";
       days ← tag_i64 values "days";
       seconds ← tag_i64 values "seconds";
       nanos ← tag_i32 values "nanos";
       Ok (ScalarDuration months days seconds nanos)
     else Err (Error_invalid_data "typed parameter has an unknown $irongraph_type") : Result ScalarValue);
  Ok (ResScalar scalar).

Fixpoint json_to_result (value : Json) : Result ResultValue :=
  match value with
  | JsonNull => Ok (ResScalar ScalarNull)
  | JsonBool value => Ok (ResScalar (ScalarBoolean value))
  | JsonInteger x =>
      Ok (ResScalar (match json_as_i64 value with
                     | Some integer => ScalarInteger integer
                     | None => ScalarFloat (integer_as_f64 x)
                     end))
  | JsonFloat bits => Ok (ResScalar (ScalarFloat bits))
  | JsonString value => Ok (ResScalar (ScalarString value))
  | JsonArray values => ResList <$> mapM json_to_result values
  | JsonObject values =>
      if bool_decide (is_Some (btree_get (lit "$irongraph_type") values)) then tagged_json_to_result values
      else ResMap <$> collect_entries json_to_result values
  end.

(** ** Result values to typed values *)

Section typed_results.
Context `{Allocator}.

(** [scalar_to_typed], over what it does with a stored document. *)
Definition scalar_to_typed_with (document : ScalarValue → Result TypedValue) (value : ScalarValue)
    : Result TypedValue :=
  match value with
  | ScalarNull => Ok TypedNull
  | ScalarBoolean value => Ok (TypedBoolean value)
  | ScalarInteger value => Ok (TypedInteger (display value))
  | ScalarFloat bits => Ok (TypedFloat bits)
  | ScalarString value => Ok (TypedString value)
  | ScalarBytes value => Ok (TypedBytes value)
  | ScalarDate value => Ok (TypedDate value)
  | ScalarLocalTime value => Ok (TypedTime value None)
  | ScalarZonedTime nanos offset_seconds => Ok (TypedTime nanos (Some offset_seconds))
  | ScalarLocalDateTime seconds nanos => Ok (TypedDateTime seconds nanos None)
  | ScalarZonedDateTime seconds nanos timezone => Ok (TypedDateTime seconds nanos (Some timezone))
  | ScalarDuration months days seconds nanos => Ok (TypedDuration months days seconds nanos)
  | ScalarList _ | ScalarMap _ => document value
  end.

Section entities.
Context (document : ScalarValue → Result TypedValue).

Definition typed_node (node : Results.ResultNode) : Result (BoltTyped.ResultNode TypedValue) :=
  properties ← map_entries (scalar_to_typed_with document) (node_properties node);
  Ok (mkResultNode (display (node_id node)) (node_labels node) properties).

Definition typed_relationship (edge : ResultEdge) : Result (RelationshipValue TypedValue) :=
  properties ← map_entries (scalar_to_typed_with document) (edge_properties edge);
  Ok (mkRelationship (display (edge_id edge)) (display (edge_source edge)) (display (edge_target edge))
        (edge_type edge) properties).

Fixpoint result_to_typed_with (value : ResultValue) : Result TypedValue :=
  match value with
  | ResScalar value => scalar_to_typed_with document value
  | ResNode node => TypedNode <$> typed_node node
  | ResRelationship edge => TypedRelationship <$> typed_relationship edge
  | ResPath nodes relationships =>
      nodes ← mapM typed_node nodes;
      relationships ← mapM typed_relationship relationships;
      Ok (TypedPath (mkPath nodes relationships))
  | ResVector values => Ok (TypedVector values)
  | ResList values => TypedList <$> mapM result_to_typed_with values
  | ResMap values => TypedMap <$> collect_entries result_to_typed_with values
  end.
End entities.

(** A stored document is decoded and converted; the decoded tree holds no
    further document, so one round is enough. *)
Fixpoint document_to_typed (rounds : nat) (value : ScalarValue) : Result TypedValue :=
  match rounds with
  | O => Abort OutOfFuel
  | S rounds => value ← from_property value; result_to_typed_with (document_to_typed rounds) value
  end.

Definition scalar_to_typed : ScalarValue → Result TypedValue := scalar_to_typed_with (document_to_typed 1).
Definition result_to_typed : ResultValue → Result TypedValue := result_to_typed_with (document_to_typed 1).
End typed_results.

(** ** Bookmarks *)

(** [format!("ig:{}:{}", bookmark.term, bookmark.index)]. *)
Definition bookmark_text (b : Bookmark) : bytes := lit "ig:" ++ display (term b) ++ lit ":" ++ display (index b).

Definition parse_bookmark (s : bytes) : Result Bookmark :=
  let parts := split_on 58 s in
  if negb (bool_decide (parts !! 0%nat = Some (lit "ig"))) then
    Err (protocol_violation "bookmark prefix is invalid")
  else
    term ← ok_or (parts !! 1%nat ≫= parse_u64) (protocol_violation "bookmark term is invalid");
    index ← ok_or (parts !! 2%nat ≫= parse_u64) (protocol_violation "bookmark index is invalid");
    if bool_decide (is_Some (parts !! 3%nat)) then Err (protocol_violation "bookmark has extra components")
    else Ok (mkBookmark term index).

Definition as_string_ref (value : PackStreamValue) : option bytes :=
  match value with PackString s => Some s | _ => None end.

(** One round of the loop over the bookmarks of a request. *)
Definition select_bookmark (selected : option Bookmark) (value : PackStreamValue) : Result (option Bookmark) :=
  s ← ok_or (as_string_ref value) (protocol_violation "bookmark is not a string");
  bookmark ← parse_bookmark s;
  match selected with
  | Some current =>
      if (index current =? index bookmark) && negb (term current =? term bookmark) then
        Err (protocol_violation "bookmarks conflict at one local write index")
      else Ok (Some (if index current <? index bookmark then bookmark else current))
  | None => Ok (Some bookmark)
  end.

Definition bookmark_from_extra (extra : list (bytes * PackStreamValue)) : Result (option Bookmark) :=
  match btree_get (lit "bookmarks") extra with
  | None => Ok None
  | Some (PackList values) => foldM select_bookmark None values
  | Some _ => Err (protocol_violation "bookmarks must be a list of strings")
  end.
