(* ===== verification/BoltParameterTheorems.v ===== *)
(** * Parameters come back as they were sent

    A parameter that a query returns unchanged reaches the client as the
    PackStream value it was sent as: JSON, result values and typed values in
    between lose nothing.  Bookmarks, which the server prints and the client
    sends back, are read back; of several, the latest is taken. *)

From stdpp Require Import prelude gmap strings sorting.
From Stdlib Require Import ZArith Lia.
From S2P Require Import Prelude Machine Types Document Results ResultsTheorems Temporal TemporalTheorems Bolt BoltTheorems BoltDecode BoltTyped BoltTypedTheorems BoltPaths BoltParameters.

Local Open Scope Z_scope.

(** ** Printing and parsing integers *)

Lemma decimal_cons c ds : decimal (c :: ds) = (c - 48) * 10 ^ zlen ds + decimal ds.
Proof. unfold decimal at 1. cbn [fold_left]. rewrite decimal_from. lia. Qed.

Lemma decimal_nonneg ds : Forall is_digit ds → 0 ≤ decimal ds.
Proof.
  induction 1 as [|c ds [Hc _] _ IH]; [done|]. rewrite decimal_cons.
  assert (0 ≤ 10 ^ zlen ds) by (apply Z.pow_nonneg; lia). nia.
Qed.

Lemma parse_digits_decimal sign min max acc ds :
  sign = 1 ∨ sign = -1 → min ≤ 0 ≤ max → Forall is_digit ds → 0 ≤ sign * acc →
  min ≤ acc * 10 ^ zlen ds + sign * decimal ds ≤ max →
  parse_digits sign min max acc ds = Some (acc * 10 ^ zlen ds + sign * decimal ds).
Proof.
  intros Hs H0 Hds. revert acc. induction Hds as [|c ds Hc Hds IH]; intros acc Ha Hb.
  { cbn. f_equal. change (10 ^ zlen []) with 1. unfold decimal. cbn. lia. }
  cbn [parse_digits]. destruct Hc as [Hc1 Hc2].
  replace ((48 <=? c) && (c <=? 57)) with true by lia.
  pose proof (decimal_nonneg ds Hds) as Hd. pose proof (zlen_nonneg ds).
  rewrite decimal_cons, zlen_cons, Z.pow_add_r in * by lia. change (10 ^ 1) with 10 in *.
  assert (1 ≤ 10 ^ zlen ds) as HP by (apply Z.lt_pred_le, Z.pow_pos_nonneg; lia).
  set (P := 10 ^ zlen ds) in *.
  replace (acc * (10 * P) + sign * ((c - 48) * P + decimal ds))
    with ((acc * 10 + sign * (c - 48)) * P + sign * decimal ds) in * by lia.
  assert (in_range min max (acc * 10) = Some (acc * 10)) as -> by (apply in_range_Some; split; [done|]; nia).
  cbn. assert (in_range min max (acc * 10 + sign * (c - 48)) = Some (acc * 10 + sign * (c - 48))) as ->
    by (apply in_range_Some; split; [done|]; nia).
  cbn. apply IH; [lia|done].
Qed.

Lemma parse_int_digits min max n :
  min ≤ 0 → 0 ≤ n ≤ max → n < 10 ^ 40 → parse_int min max (digits_of 40 n) = Some n.
Proof.
  intros Hm Hn Hl. pose proof (digits_are_digits 40 n ltac:(lia)) as Hds. pose proof (decimal_digits 40 n ltac:(lia)) as Hv.
  pose proof (parse_digits_decimal 1 min max 0 (digits_of 40 n)) as Hp. rewrite Hv in Hp.
  rewrite !Z.mul_0_l, !Z.add_0_l, !Z.mul_1_l in Hp. specialize (Hp ltac:(by left) ltac:(lia) Hds ltac:(lia) ltac:(lia)).
  destruct (digits_of 40 n) as [|c ds] eqn:E.
  { cbn [digits_of] in E. case_match; [done|]. by apply app_eq_nil in E as [_ ?]. }
  apply Forall_cons in Hds as [[Hc1 Hc2] _]. unfold parse_int.
  replace (c =? 43) with false by lia. replace (c =? 45) with false by lia. cbn [orb andb]. destruct ds; exact Hp.
Qed.

(** What [{}] prints, [parse] reads. *)
Lemma parse_display min max n :
  min ≤ n ≤ max → min ≤ 0 ≤ max → Z.abs n < 10 ^ 40 → parse_int min max (display n) = Some n.
Proof.
  intros Hn H0 Hl. unfold display. destruct (Z.ltb_spec n 0); cbn [app]; [|rewrite Z.abs_eq by lia; apply parse_int_digits; lia].
  change (lit "-" ++ ?l) with (45 :: l). cbn [parse_int].
  pose proof (digits_are_digits 40 (Z.abs n) ltac:(lia)) as Hds. pose proof (decimal_digits 40 (Z.abs n) ltac:(lia)) as Hv.
  pose proof (parse_digits_decimal (-1) min max 0 (digits_of 40 (Z.abs n))) as Hp. rewrite Hv in Hp.
  replace (0 * 10 ^ zlen (digits_of 40 (Z.abs n)) + -1 * Z.abs n) with n in Hp by lia.
  specialize (Hp ltac:(by right) ltac:(lia) Hds ltac:(lia) ltac:(lia)).
  destruct (digits_of 40 (Z.abs n)) as [|c ds] eqn:E.
  { cbn [digits_of] in E. case_match; [done|]. by apply app_eq_nil in E as [_ ?]. }
  replace (45 =? 43) with false by lia. replace (45 =? 45) with true by lia.
  replace (min <? 0) with true by lia. exact Hp.
Qed.

(** ** Splitting text *)

Lemma split_on_none c s : c ∉ s → split_on c s = [s].
Proof.
  induction s as [|b s IH]; [done|]. intros [Hb Hs]%not_elem_of_cons. cbn. rewrite IH by done.
  by destruct (Z.eqb_spec b c).
Qed.

Lemma split_on_app c s rest : c ∉ s → split_on c (s ++ c :: rest) = s :: split_on c rest.
Proof.
  induction s as [|b s IH]; cbn.
  - intros _. by rewrite Z.eqb_refl.
  - intros [Hb Hs]%not_elem_of_cons. rewrite IH by done. by destruct (Z.eqb_spec b c).
Qed.

Lemma digits_no_colon ds : Forall is_digit ds → 58 ∉ ds.
Proof. intros Hds Hin. rewrite list.Forall_forall in Hds. specialize (Hds _ Hin). unfold is_digit in Hds. lia. Qed.

Lemma display_no_colon n : 58 ∉ display n.
Proof.
  unfold display. intros [Hin|Hin]%elem_of_app.
  - case_match; [apply list_elem_of_singleton in Hin; discriminate|by apply not_elem_of_nil in Hin].
  - by apply digits_no_colon in Hin; [|apply digits_are_digits; lia].
Qed.

(** Two digits. *)
Lemma display_02_reads n :
  0 ≤ n < 60 → parse_i32 (display_02 n) = Some n ∧ length (display_02 n) = 2%nat ∧ (58 ∉ display_02 n).
Proof.
  intros Hn. assert (n ∈ seqZ 0 60) as Hin by (apply elem_of_seqZ; lia). clear Hn. revert n Hin.
  apply list.Forall_forall. decided.
Qed.

(** ** Offsets *)

Lemma offset_parts (sign : Z) (c : Z) (h m : Z) (rest : bytes) (sec : Z) :
  (c = 43 ∧ sign = 1 ∨ c = 45 ∧ sign = -1) → 0 ≤ h < 24 → 0 ≤ m < 60 → 0 ≤ sec < 60 →
  rest = [] ∧ sec = 0 ∨ rest = 58 :: display_02 sec →
  fixed_offset_seconds (c :: display_02 h ++ 58 :: display_02 m ++ rest)
  = Some ((h * 3600 + m * 60 + sec) * sign).
Proof.
  intros Hc Hh Hm Hs Hr.
  destruct (display_02_reads h ltac:(lia)) as (Ph & Lh & Nh). destruct (display_02_reads m Hm) as (Pm & Lm & Nm).
  destruct (display_02_reads sec Hs) as (Ps & Ls & Ns).
  set (value := display_02 h ++ 58 :: display_02 m ++ rest).
  assert (∃ third, split_on 58 value = display_02 h :: display_02 m :: third
    ∧ match third !! 0%nat with Some part => parse_i32 part | None => Some 0 end = Some sec ∧ third !! 1%nat = None)
    as (third & E & Et & En).
  { unfold value. rewrite split_on_app by done. destruct Hr as [[-> ->] | ->].
    - rewrite app_nil_r, split_on_none by done. by exists [].
    - rewrite split_on_app, split_on_none by done. by exists [display_02 sec]. }
  assert (5 ≤ zlen value) as Hl.
  { unfold value, zlen. rewrite length_app. cbn [length]. rewrite length_app. lia. }
  unfold fixed_offset_seconds.
  replace (if c =? 43 then Some (1, value) else if c =? 45 then Some (-1, value) else None)
    with (Some (sign, value)) by (destruct Hc as [[-> ->]|[-> ->]]; done).
  cbn [mbind option_bind]. rewrite E.
  change ((display_02 h :: display_02 m :: third) !! 0%nat) with (Some (display_02 h)).
  change ((display_02 h :: display_02 m :: third) !! 1%nat) with (Some (display_02 m)).
  change ((display_02 h :: display_02 m :: third) !! 2%nat) with (third !! 0%nat).
  change ((display_02 h :: display_02 m :: third) !! 3%nat) with (third !! 1%nat).
  cbn [mbind option_bind]. rewrite Ph, Pm, Et, En. cbn [mbind option_bind].
  rewrite bool_decide_false by (by intros [? ?]). cbn [orb].
  replace (23 <? h) with false by lia. replace (59 <? m) with false by lia. replace (59 <? sec) with false by lia.
  replace (zlen value <? 5) with false by lia. cbn [orb]. unfold i32_min, i32_max.
  repeat (rewrite in_range_ok by (destruct Hc as [[_ ->]|[_ ->]]; lia); cbn [mbind option_bind]). done.
Qed.

(** The text of an offset is read as the offset. *)
Lemma format_offset_reads o :
  Z.abs o < 86400 →
  ∃ s, format_offset o = Ok s ∧ fixed_offset_seconds s = Some o ∧ 0 < zlen s ≤ 255.
Proof.
  intros Ho. unfold format_offset. replace (24 * 60 * 60 <=? Z.abs o) with false by lia.
  set (h := Z.abs o / 3600). set (m := Z.abs o mod 3600 / 60). set (sec := Z.abs o mod 60).
  assert (0 ≤ h < 24 ∧ 0 ≤ m < 60 ∧ 0 ≤ sec < 60 ∧ h * 3600 + m * 60 + sec = Z.abs o) as (Hh & Hm & Hs & E).
  { subst h m sec. Z.div_mod_to_equations. lia. }
  destruct (display_02_reads h ltac:(lia)) as (_ & Lh & _). destruct (display_02_reads m Hm) as (_ & Lm & _).
  destruct (display_02_reads sec Hs) as (_ & Ls & _).
  set (c := if o <? 0 then 45 else 43).
  assert ((if o <? 0 then lit "-" else lit "+") = [c]) as -> by (unfold c; by case_match).
  assert (c = 43 ∧ (if o <? 0 then -1 else 1) = 1 ∨ c = 45 ∧ (if o <? 0 then -1 else 1) = -1) as Hc
    by (unfold c; case_match; auto).
  assert ((h * 3600 + m * 60 + sec) * (if o <? 0 then -1 else 1) = o) as Eo by (rewrite E; case_match; lia).
  destruct (Z.eqb_spec sec 0).
  - eexists. split; [done|]. split.
    + pose proof (offset_parts _ c h m [] sec Hc Hh Hm Hs ltac:(left; split; [done|lia])) as Hp.
      rewrite app_nil_r, Eo in Hp. exact Hp.
    + unfold zlen. rewrite !length_app, Lh, Lm. cbn. lia.
  - eexists. split; [done|]. split.
    + pose proof (offset_parts _ c h m (58 :: display_02 sec) sec Hc Hh Hm Hs ltac:(by right)) as Hp.
      rewrite Eo in Hp. exact Hp.
    + unfold zlen. rewrite !length_app, Lh, Lm, Ls. cbn. lia.
Qed.

(** ** Parameters echo *)

(** No map has the key that marks a typed parameter. *)
Fixpoint untagged (v : PackStreamValue) : bool :=
  match v with
  | PackList vs => forallb untagged vs
  | PackMap vs =>
      forallb (λ p, negb (bool_decide (p.1 = lit "$irongraph_type"))) vs && forallb (λ p, untagged p.2) vs
  | _ => true
  end.

Section echo.
Context `{Timezones} `{Allocator}.

(** The way of a parameter through the engine and back. *)
Definition echo (j : Json) : Result PackStreamValue :=
  r ← json_to_result j;
  t ← result_to_typed r;
  typed_to_pack t.

Definition echoes (v : PackStreamValue) : Prop :=
  posts (λ e, code e = InvalidData ∨ code e = ProtocolViolation) (pack_to_json v) (λ j, echo j = Ok v).

(** Reading the fields of a tagged object. *)
Definition field_i64 (x : Z) (field : string) : Result Z :=
  ok_or (json_as_i64 (JsonInteger x)) (typed_field field " must be an integer").
Definition field_i32 (x : Z) (field : string) : Result Z :=
  value ← field_i64 x field; ok_or (in_range i32_min i32_max value) (typed_field field " exceeds 32-bit range").
Definition field_u32 (x : Z) (field : string) : Result Z :=
  ok_or (json_as_u64 (JsonInteger x) ≫= in_range 0 u32_max)
    (typed_field field " is negative or exceeds 32-bit range").

Lemma field_i64_ok x field : i64 x → field_i64 x field = Ok x.
Proof. unfold i64, field_i64, json_as_i64, i64_max. intros Hx. by replace (x <=? _) with true by lia. Qed.
Lemma field_i32_ok x field : i32 x → field_i32 x field = Ok x.
Proof.
  intros Hx. unfold field_i32. rewrite field_i64_ok by (unfold i32, i64 in *; lia). rbind.
  rewrite in_range_ok; [done|]. unfold i32, i32_min, i32_max in *. lia.
Qed.
Lemma field_u32_ok x field : u32 x → field_u32 x field = Ok x.
Proof.
  unfold u32. intros Hx. unfold field_u32. cbn. replace (0 <=? x) with true by lia. cbn.
  rewrite in_range_ok; [done|]. unfold u32_max. lia.
Qed.

(** Every kind of tagged object, reduced to its fields. *)
Lemma date_reads days :
  json_to_result (json_object [("$irongraph_type", text "date"); ("days", JsonInteger days)])
  = (s ← ScalarDate <$> field_i64 days "days"; Ok (ResScalar s)).
Proof. reflexivity. Qed.

Lemma local_time_reads nanos :
  json_to_result (json_object [("$irongraph_type", text "local_time"); ("nanos", JsonInteger nanos)])
  = (s ← ScalarLocalTime <$> field_i64 nanos "nanos"; Ok (ResScalar s)).
Proof. reflexivity. Qed.

Lemma zoned_time_reads nanos offset :
  json_to_result (json_object [("$irongraph_type", text "zoned_time"); ("nanos", JsonInteger nanos);
                               ("offset_seconds", JsonInteger offset)])
  = (s ← (nanos ← field_i64 nanos "nanos"; offset ← field_i32 offset "offset_seconds";
          Ok (ScalarZonedTime nanos offset)); Ok (ResScalar s)).
Proof. reflexivity. Qed.

Lemma local_datetime_reads seconds nanos :
  json_to_result (json_object [("$irongraph_type", text "local_datetime"); ("seconds", JsonInteger seconds);
                               ("nanos", JsonInteger nanos)])
  = (s ← (seconds ← field_i64 seconds "seconds"; nanos ← field_u32 nanos "nanos";
          Ok (ScalarLocalDateTime seconds nanos)); Ok (ResScalar s)).
Proof. reflexivity. Qed.

Lemma zoned_datetime_reads seconds nanos timezone :
  json_to_result (json_object [("$irongraph_type", text "zoned_datetime"); ("seconds", JsonInteger seconds);
                               ("nanos", JsonInteger nanos); ("timezone", JsonString timezone)])
  = (s ← (timezone ← ok_or (if negb (zlen timezone =? 0) && (zlen timezone <=? 255) then Some timezone else None)
            (Error_invalid_data "datetime timezone is empty or oversized");
          seconds ← field_i64 seconds "seconds"; nanos ← field_u32 nanos "nanos";
          Ok (ScalarZonedDateTime seconds nanos timezone)); Ok (ResScalar s)).
Proof. reflexivity. Qed.

Lemma duration_reads months days seconds nanos :
  json_to_result (json_object [("$irongraph_type", text "duration"); ("months", JsonInteger months);
                               ("days", JsonInteger days); ("seconds", JsonInteger seconds);
                               ("nanos", JsonInteger nanos)])
  = (s ← (months ← field_i64 months "months"; days ← field_i64 days "days";
          seconds ← field_i64 seconds "seconds"; nanos ← field_i32 nanos "nanos";
          Ok (ScalarDuration months days seconds nanos)); Ok (ResScalar s)).
Proof. reflexivity. Qed.

Lemma bytes_reads array :
  json_to_result (json_object [("$irongraph_type", text "bytes"); ("value", JsonArray array)])
  = (s ← ScalarBytes <$> mapM json_byte array; Ok (ResScalar s)).
Proof. reflexivity. Qed.

(** ** Each value echoes *)

Definition refusal (e : Error) : Prop := code e = InvalidData ∨ code e = ProtocolViolation.

Lemma parameter_i64_posts v f : posts refusal (parameter_i64 v f) (λ x, v = PackInteger x).
Proof. destruct v; cbn; try done; by right. Qed.

Lemma parameter_time_posts v f :
  posts refusal (parameter_time_nanos v f) (λ x, v = PackInteger x ∧ 0 ≤ x < 86400000000000).
Proof.
  eapply posts_bind; [apply parameter_i64_posts|]. intros x ->. case_match; [by right|]. cbn. split; [done|lia].
Qed.

Lemma parameter_i32_posts v f : posts refusal (parameter_i32 v f) (λ x, v = PackInteger x ∧ i32 x).
Proof.
  eapply posts_bind; [apply parameter_i64_posts|]. intros x ->.
  destruct (in_range i32_min i32_max x) as [y|] eqn:E; [|by right]. apply in_range_Some in E as [-> ?]. done.
Qed.

Lemma parameter_fraction_posts v f :
  posts refusal (parameter_fraction_nanos v f) (λ x, v = PackInteger x ∧ 0 ≤ x ≤ 999999999).
Proof.
  unfold parameter_fraction_nanos, parameter_u32. rewrite bind_assoc.
  eapply posts_bind; [apply parameter_i64_posts|]. intros x ->.
  destruct (in_range 0 u32_max x) as [y|] eqn:E; [|by right]. apply in_range_Some in E as [-> ?]. rbind.
  case_match; [by right|]. cbn. split; [done|lia].
Qed.

Lemma parameter_offset_posts v f :
  posts refusal (parameter_offset v f) (λ x, v = PackInteger x ∧ i32 x ∧ Z.abs x < 86400).
Proof.
  eapply posts_bind; [apply parameter_i32_posts|]. intros x [-> Hx]. case_match; [by right|]. cbn. split_and!; [done..|lia].
Qed.

Lemma parameter_duration_posts v :
  posts refusal (parameter_duration_nanos v) (λ x, v = PackInteger x ∧ i32 x ∧ Z.abs x ≤ 999999999).
Proof.
  eapply posts_bind; [apply parameter_i32_posts|]. intros x [-> Hx]. case_match; [by right|]. cbn. split_and!; [done..|lia].
Qed.

Lemma pack_integer_i64 x : pack_wf (PackInteger x) → i64 x.
Proof. by inversion 1. Qed.

(** A date and a local time. *)
Lemma echo_one g a :
  pack_wf a → posts refusal (temporal_parameter_to_json g [a]) (λ j, echo j = Ok (PackStructure g [a])).
Proof.
  intros Ha. unfold temporal_parameter_to_json. destruct (Z.eqb_spec g 68) as [->|]; [|destruct (Z.eqb_spec g 116) as [->|]; [|by right]].
  - eapply posts_bind; [apply parameter_i64_posts|]. intros x ->. apply pack_integer_i64 in Ha. cbn [posts].
    unfold echo. rewrite date_reads, field_i64_ok by done. done.
  - eapply posts_bind; [apply parameter_time_posts|]. intros x [-> Hx]. apply pack_integer_i64 in Ha. cbn [posts].
    unfold echo. rewrite local_time_reads, field_i64_ok by done. cbn. unfold validate_result_time.
    by replace ((0 <=? x) && (x <? 86400000000000)) with true by lia.
Qed.

(** A zoned time and a local datetime. *)
Lemma echo_two g a b :
  pack_wf a → pack_wf b →
  posts refusal (temporal_parameter_to_json g [a; b]) (λ j, echo j = Ok (PackStructure g [a; b])).
Proof.
  intros Ha Hb. unfold temporal_parameter_to_json. destruct (Z.eqb_spec g 84) as [->|]; [|destruct (Z.eqb_spec g 100) as [->|]; [|by right]].
  - eapply posts_bind; [apply parameter_time_posts|]. intros x [-> Hx].
    eapply posts_bind; [apply parameter_offset_posts|]. intros y (-> & Hy & Hy'). apply pack_integer_i64 in Ha. cbn [posts].
    unfold echo. rewrite zoned_time_reads, field_i64_ok by done. rbind. rewrite field_i32_ok by done. cbn.
    unfold validate_result_time. replace ((0 <=? x) && (x <? 86400000000000)) with true by lia.
    by replace (86400 <=? Z.abs y) with false by lia.
  - eapply posts_bind; [apply parameter_i64_posts|]. intros x ->.
    eapply posts_bind; [apply parameter_fraction_posts|]. intros y [-> Hy]. apply pack_integer_i64 in Ha. cbn [posts].
    unfold echo. rewrite local_datetime_reads, field_i64_ok by done. rbind. rewrite field_u32_ok by (unfold u32; lia). cbn.
    unfold datetime_to_pack. by replace (999999999 <? y) with false by lia.
Qed.

(** Names of the timezone database do not look like offsets. *)
Definition zone_names : Prop := ∀ c rest, timezone_known (c :: rest) = true → c ≠ 43 ∧ c ≠ 45.

(** A datetime with an offset or a named zone. *)
Lemma echo_three g a b c :
  zone_names → pack_wf a → pack_wf b →
  posts refusal (temporal_parameter_to_json g [a; b; c]) (λ j, echo j = Ok (PackStructure g [a; b; c])).
Proof.
  intros Hz Ha Hb. unfold temporal_parameter_to_json. destruct (Z.eqb_spec g 73) as [->|]; [|destruct (Z.eqb_spec g 105) as [->|]; [|by right]].
  - eapply posts_bind; [apply parameter_i64_posts|]. intros x ->.
    eapply posts_bind; [apply parameter_fraction_posts|]. intros y [-> Hy].
    eapply posts_bind; [apply parameter_offset_posts|]. intros o (-> & Ho & Ho'). apply pack_integer_i64 in Ha.
    destruct (format_offset_reads o Ho') as (s & -> & Hs & Hl). rbind. cbn [posts].
    unfold echo. rewrite zoned_datetime_reads. replace (zlen s =? 0) with false by lia. replace (zlen s <=? 255) with true by lia.
    cbn [negb andb]. rbind. rewrite field_i64_ok by done. rbind. rewrite field_u32_ok by (unfold u32; lia). cbn.
    unfold datetime_to_pack. replace (999999999 <? y) with false by lia. by rewrite Hs.
  - destruct c as [| | | | |tz| | |]; try by right. case_match eqn:Htz; [by right|].
    apply orb_false_iff in Htz as [[Hne Hlen]%orb_false_iff Hk%negb_false_iff].
    eapply posts_bind; [apply parameter_i64_posts|]. intros x ->.
    eapply posts_bind; [apply parameter_fraction_posts|]. intros y [-> Hy]. apply pack_integer_i64 in Ha. cbn [posts].
    unfold echo. rewrite zoned_datetime_reads, Hne. replace (zlen tz <=? 255) with true by lia.
    cbn [negb andb]. rbind. rewrite field_i64_ok by done. rbind. rewrite field_u32_ok by (unfold u32; lia). cbn.
    unfold datetime_to_pack. replace (999999999 <? y) with false by lia.
    assert (fixed_offset_seconds tz = None) as ->; [|by rewrite Hk].
    destruct tz as [|ch rest]; [done|]. destruct (Hz ch rest Hk) as [H1 H2]. unfold fixed_offset_seconds.
    replace (ch =? 43) with false by lia. by replace (ch =? 45) with false by lia.
Qed.

(** A duration. *)
Lemma echo_four g a b c d :
  pack_wf a → pack_wf b → pack_wf c →
  posts refusal (temporal_parameter_to_json g [a; b; c; d]) (λ j, echo j = Ok (PackStructure g [a; b; c; d])).
Proof.
  intros Ha Hb Hc. unfold temporal_parameter_to_json. destruct (Z.eqb_spec g 69) as [->|]; [|by right].
  do 3 (eapply posts_bind; [apply parameter_i64_posts|]; intros ? ->).
  eapply posts_bind; [apply parameter_duration_posts|]. intros n (-> & Hn & Hn').
  apply pack_integer_i64 in Ha, Hb, Hc. cbn [posts]. unfold echo.
  rewrite duration_reads, !field_i64_ok by done. rbind. rewrite field_i32_ok by done. cbn.
  by replace (999999999 <? Z.abs n) with false by lia.
Qed.

Lemma echo_steps j v :
  echo j = Ok v ↔ ∃ r t, json_to_result j = Ok r ∧ result_to_typed r = Ok t ∧ typed_to_pack t = Ok v.
Proof.
  unfold echo. split.
  - intros (r & Hr & (t & Ht & Hv)%bind_Ok_inv)%bind_Ok_inv. by exists r, t.
  - intros (r & t & -> & Ht & Hv). rbind. by rewrite Ht.
Qed.

Lemma echo_list vs js :
  Forall2 (λ v j, echo j = Ok v) vs js → echo (JsonArray js) = Ok (PackList vs).
Proof.
  intros Hall. apply echo_steps.
  assert (∃ rs ts, mapM json_to_result js = Ok rs ∧ mapM result_to_typed rs = Ok ts ∧ mapM typed_to_pack ts = Ok vs)
    as (rs & ts & Hr & Ht & Hv).
  { induction Hall as [|v j vs js (r & t & Hr & Ht & Hv)%echo_steps _ (rs & ts & Hrs & Hts & Hvs)]; [by exists [], []|].
    exists (r :: rs), (t :: ts). rewrite !mapM_cons, Hr, Ht, Hv. rbind. by rewrite Hrs, Hts, Hvs. }
  exists (ResList rs), (TypedList ts). cbn [json_to_result result_to_typed]. rewrite Hr. split; [done|].
  unfold result_to_typed in *. cbn [result_to_typed_with typed_to_pack]. rewrite Ht, Hv. done.
Qed.

Lemma map_entries_Ok {V W} (f : V → Result W) l k :
  Forall2 (entry_rel (λ v w, f v = Ok w)) l k → map_entries f l = Ok k.
Proof.
  intros Hf. apply mapM_Ok. eapply Forall2_impl; [exact Hf|]. intros [a v] [b w] [E Hv]. cbn in *. subst. by rewrite Hv.
Qed.

Lemma btree_get_None {V W} k (l : list (bytes * V)) (m : list (bytes * W)) :
  map fst l = map fst m → Forall (λ p, p.1 ≠ k) l → btree_get k m = None.
Proof.
  revert l. induction m as [|[k' v] m IH]; intros [|[k0 v0] l] E Hl; try done. cbn in *. injection E as -> E.
  apply Forall_cons in Hl as [Hk Hl]. rewrite bool_decide_false by (cbn in Hk; congruence). by eapply IH.
Qed.

Lemma echo_map vs js :
  keys_sorted vs → Forall (λ p, p.1 ≠ lit "$irongraph_type") vs →
  Forall2 (entry_rel (λ v j, echo j = Ok v)) vs js → echo (JsonObject js) = Ok (PackMap vs).
Proof.
  intros Hs Hk Hall. apply echo_steps.
  assert (∃ rs ts, Forall2 (entry_rel (λ j r, json_to_result j = Ok r)) js rs
    ∧ Forall2 (entry_rel (λ r t, result_to_typed r = Ok t)) rs ts
    ∧ Forall2 (entry_rel (λ t v, typed_to_pack t = Ok v)) ts vs) as (rs & ts & Hr & Ht & Hv).
  { clear Hs Hk. induction Hall as [|[k v] [k' j] vs js [E He] _ (rs & ts & Hrs & Hts & Hvs)]; [by exists [], []|].
    cbn in E, He. subst k'. apply echo_steps in He as (r & t & Hr & Ht & Hv).
    exists ((k, r) :: rs), ((k, t) :: ts). split_and!; by constructor. }
  pose proof (Forall2_keys _ _ _ Hall) as K1. pose proof (Forall2_keys _ _ _ Hr) as K2.
  pose proof (keys_sorted_keys _ _ K1 Hs) as S1. pose proof (keys_sorted_keys _ _ K2 S1) as S2.
  exists (ResMap rs), (TypedMap ts). cbn [json_to_result]. rewrite (btree_get_None _ _ _ K1 Hk).
  rewrite bool_decide_false by (by intros [? ?]). rewrite (collect_entries_Ok _ _ _ S1 Hr). split; [done|].
  unfold result_to_typed in *. cbn [result_to_typed_with typed_to_pack].
  rewrite (collect_entries_Ok _ _ _ S2 Ht), (map_entries_Ok _ _ _ Hv). done.
Qed.

Lemma collect_entries_posts {V W} (F : Error → Prop) (f : V → Result W) l (Q : V → W → Prop) :
  keys_sorted l → Forall (λ p, posts F (f p.2) (Q p.2)) l →
  posts F (collect_entries f l) (λ k, Forall2 (entry_rel Q) l k).
Proof.
  intros Hs Hf. unfold collect_entries. eapply posts_bind; [apply (mapM_posts F _ l (entry_rel Q))|].
  - eapply Forall_impl; [exact Hf|]. intros [a v] Hv. cbn in *. eapply posts_bind; [exact Hv|]. intros w Hw. by split.
  - intros k Hk. cbn. rewrite btree_collect_sorted; [done|]. eapply keys_sorted_keys; [by eapply Forall2_keys|done].
Qed.

Lemma bytes_echo s : bytes_wf s → mapM json_byte (map JsonInteger s) = Ok s.
Proof.
  intros Hs. apply mapM_Ok. induction Hs as [|b s Hb _ IH]; cbn; constructor; [|done].
  unfold json_byte, u8 in *. cbn. replace (0 <=? b) with true by lia. cbn. rewrite in_range_ok; [done|]. unfold u8_max. lia.
Qed.

Lemma value_echoes v : zone_names → pack_wf v → untagged v = true → echoes v.
Proof.
  intros Hz. induction v as [|b|x|x|s|s|vs IH|vs IH|g vs _] using PackStreamValue_nested_ind; intros Hw Hu;
    inversion Hw as [| |? Hx| |? Hs| |? Hvs|? Hsort Hvs|? ? Hg Hvs]; subst; unfold echoes; cbn [pack_to_json].
  - done.
  - done.
  - cbn [posts]. apply echo_steps.
    exists (ResScalar (ScalarInteger x)), (TypedInteger (display x)). cbn [json_to_result]. unfold json_as_i64.
    unfold i64 in Hx. replace (x <=? i64_max) with true by (unfold i64_max; lia). split_and!; [done..|].
    cbn [typed_to_pack]. unfold parse_i64. rewrite parse_display; [done|unfold i64_min, i64_max; lia..|].
    change (10 ^ 40) with 10000000000000000000000000000000000000000. lia.
  - unfold number_from_f64. case_match; [done|by left].
  - cbn [posts]. unfold echo. rewrite bytes_reads, bytes_echo by done. done.
  - done.
  - cbn in Hu. apply forallb_Forall in Hu. apply posts_fmap. eapply posts_mono; [apply mapM_posts|].
    + apply (Forall_mp (P := λ v, pack_wf v ∧ untagged v = true)); [|by apply Forall_and].
      eapply Forall_impl; [exact IH|]. intros v Hv [? ?]. by apply Hv.
    + intros js Hjs. by apply echo_list.
  - cbn in Hu. apply andb_true_iff in Hu as [Hk%forallb_Forall Hu%forallb_Forall].
    apply posts_fmap. eapply posts_mono; [apply (collect_entries_posts _ _ _ (λ v j, echo j = Ok v)); [done|]|].
    + apply (Forall_mp (P := λ p, (str_wf p.1 ∧ pack_wf p.2) ∧ untagged p.2 = true)); [|by apply Forall_and].
      eapply Forall_impl; [exact IH|]. intros p Hp [[_ ?] ?]. by apply Hp.
    + intros js Hjs. apply echo_map; [done| |done]. eapply Forall_impl; [exact Hk|].
      intros p Hp%negb_true_iff. by apply bool_decide_eq_false in Hp.
  - destruct vs as [|a [|b [|c [|d [|? ?]]]]]; rewrite ?Forall_cons in Hvs.
    + by right.
    + apply echo_one; tauto.
    + apply echo_two; tauto.
    + apply echo_three; tauto.
    + apply echo_four; tauto.
    + by right.
Qed.

(** The values a query accepts as parameters. *)
#[local] Unset Elimination Schemes.
Inductive sendable : PackStreamValue → Prop :=
  | send_null : sendable PackNull
  | send_boolean b : sendable (PackBoolean b)
  | send_integer x : sendable (PackInteger x)
  | send_float x : f64_is_finite x = true → sendable (PackFloat x)
  | send_string s : sendable (PackString s)
  | send_bytes s : sendable (PackBytes s)
  | send_list vs : Forall sendable vs → sendable (PackList vs)
  | send_map vs : Forall (λ p, sendable p.2) vs → sendable (PackMap vs)
  | send_date x : sendable (PackStructure 68 [PackInteger x])
  | send_local_time x : 0 ≤ x < 86400000000000 → sendable (PackStructure 116 [PackInteger x])
  | send_time x o :
      0 ≤ x < 86400000000000 → Z.abs o < 86400 → sendable (PackStructure 84 [PackInteger x; PackInteger o])
  | send_local_datetime x n : 0 ≤ n ≤ 999999999 → sendable (PackStructure 100 [PackInteger x; PackInteger n])
  | send_datetime x n o :
      0 ≤ n ≤ 999999999 → Z.abs o < 86400 → sendable (PackStructure 73 [PackInteger x; PackInteger n; PackInteger o])
  | send_datetime_zone x n zone :
      0 ≤ n ≤ 999999999 → 0 < zlen zone ≤ 255 → timezone_known zone = true →
      sendable (PackStructure 105 [PackInteger x; PackInteger n; PackString zone])
  | send_duration m d x n :
      Z.abs n ≤ 999999999 →
      sendable (PackStructure 69 [PackInteger m; PackInteger d; PackInteger x; PackInteger n]).
#[local] Set Elimination Schemes.

Lemma parameter_time_ok x f : 0 ≤ x < 86400000000000 → parameter_time_nanos (PackInteger x) f = Ok x.
Proof. intros Hx. cbn. by replace ((0 <=? x) && (x <? 86400000000000)) with true by lia. Qed.
Lemma parameter_i32_ok x f : i32 x → parameter_i32 (PackInteger x) f = Ok x.
Proof. unfold i32. intros Hx. cbn. rewrite in_range_ok; [done|]. unfold i32_min, i32_max. lia. Qed.
Lemma parameter_fraction_ok x f : 0 ≤ x ≤ 999999999 → parameter_fraction_nanos (PackInteger x) f = Ok x.
Proof.
  intros Hx. unfold parameter_fraction_nanos, parameter_u32. cbn. rewrite in_range_ok by (unfold u32_max; lia). rbind.
  by replace (999999999 <? x) with false by lia.
Qed.
Lemma parameter_offset_ok x f : Z.abs x < 86400 → parameter_offset (PackInteger x) f = Ok x.
Proof.
  intros Hx. unfold parameter_offset. rewrite parameter_i32_ok by (unfold i32; lia). rbind.
  by replace (86400 <=? Z.abs x) with false by lia.
Qed.

Lemma mapM_succeeds {V W} (f : V → Result W) l :
  Forall (λ v, ∃ w, f v = Ok w) l → ∃ k, mapM f l = Ok k.
Proof.
  induction 1 as [|v l [w Hw] _ [k Hk]]; [by exists []|]. exists (w :: k). rewrite mapM_cons, Hw. rbind. by rewrite Hk.
Qed.

Lemma sendable_accepted v : sendable v → ∃ j, pack_to_json v = Ok j.
Proof.
  induction v as [| | | | | |vs IH|vs IH|g vs _] using PackStreamValue_nested_ind;
    inversion 1 as [| | |? Hf| | |? Hvs|? Hvs| | | | | |? ? ? ? Hl Hk|]; subst; cbn [pack_to_json]; try by eexists.
  - unfold number_from_f64. rewrite Hf. by eexists.
  - destruct (mapM_succeeds pack_to_json vs) as [js ->]; [by eapply Forall_mp|by eexists].
  - unfold collect_entries.
    destruct (mapM_succeeds (λ '(name, value), value ← pack_to_json value; Ok (name, value)) vs) as [js ->]; [|by eexists].
    eapply Forall_mp; [|exact Hvs]. eapply Forall_impl; [exact IH|]. cbn. intros [k v] Hp Hs. destruct (Hp Hs) as [j Hj]. cbn in Hj.
    rewrite Hj. by eexists.
  - cbn [temporal_parameter_to_json]. rewrite parameter_time_ok by done. by eexists.
  - cbn [temporal_parameter_to_json]. rewrite parameter_time_ok by done. rbind. rewrite parameter_offset_ok by done. by eexists.
  - cbn [temporal_parameter_to_json]. rbind. rewrite parameter_fraction_ok by done. by eexists.
  - cbn [temporal_parameter_to_json]. rbind. rewrite parameter_fraction_ok by done. rbind. rewrite parameter_offset_ok by done.
    destruct (format_offset_reads o) as (s & Es & _); [done|]. cbn -[format_offset json_object]. rewrite Es. by eexists.
  - cbn [temporal_parameter_to_json]. replace (zlen zone =? 0) with false by lia. replace (255 <? zlen zone) with false by lia.
    rewrite Hk. rbind. rewrite parameter_fraction_ok by done. by eexists.
  - cbn [temporal_parameter_to_json]. rbind. unfold parameter_duration_nanos. rewrite parameter_i32_ok by (unfold i32; lia).
    rbind. replace (999999999 <? Z.abs n) with false by lia. by eexists.
Qed.

End echo.

(** ** Bookmarks *)

Lemma parse_u64_display n : u64 n → parse_u64 (display n) = Some n.
Proof.
  unfold u64. intros Hn. unfold parse_u64. rewrite parse_display; [done|unfold u64_max; lia..|].
  change (10 ^ 40) with 10000000000000000000000000000000000000000. lia.
Qed.

Lemma bookmark_reads b : bookmark_wf b → parse_bookmark (bookmark_text b) = Ok b.
Proof.
  destruct b as [t i]. intros [Ht Hi]. unfold parse_bookmark, bookmark_text. cbn [term index] in *.
  change (lit "ig:" ++ ?l) with (lit "ig" ++ 58 :: l). change (lit ":" ++ ?l) with (58 :: l).
  rewrite split_on_app by decided.
  rewrite split_on_app, split_on_none by apply display_no_colon.
  cbn -[display lit parse_u64]. rewrite !parse_u64_display by done. done.
Qed.

(** The latest of the bookmarks. *)
Definition latest (bs : list Bookmark) (b : option Bookmark) : Prop :=
  match b with
  | None => bs = []
  | Some b => b ∈ bs ∧ ∀ b', b' ∈ bs → index b' ≤ index b ∧ (index b' = index b → b' = b)
  end.

Definition conflict (bs : list Bookmark) : Prop :=
  ∃ b b', b ∈ bs ∧ b' ∈ bs ∧ index b = index b' ∧ term b ≠ term b'.

Lemma bookmarks_selected bs :
  Forall bookmark_wf bs →
  posts (λ e, code e = ProtocolViolation ∧ conflict bs)
    (foldM select_bookmark None (map (λ b, PackString (bookmark_text b)) bs)) (latest bs).
Proof.
  intros Hwf. rewrite foldM_map. apply foldM_posts; [done|]. intros seen b rest current -> Hseen.
  apply Forall_app in Hwf as [_ [Hb _]%Forall_cons].
  unfold select_bookmark, as_string_ref. cbn [ok_or]. rbind. rewrite bookmark_reads by done. rbind.
  destruct current as [c|]; cbn [latest] in Hseen.
  - destruct Hseen as [Hc Hmax]. destruct ((index c =? index b) && negb (term c =? term b)) eqn:E.
    + apply andb_true_iff in E as [Ei%Z.eqb_eq Et%negb_true_iff%Z.eqb_neq]. split; [done|].
      exists c, b. split_and!; [set_solver|set_solver|done..].
    + cbn [posts latest]. assert (index c = index b → b = c) as Hsame.
      { intros Ei. destruct b, c. cbn in *. f_equal; lia. }
      destruct (Z.ltb_spec (index c) (index b)) as [Hlt|Hge]; cbn [latest]; (split; [set_solver|]);
        intros b' [Hb'| ->%list_elem_of_singleton]%elem_of_app.
      * destruct (Hmax b' Hb'). split; [lia|intros; lia].
      * done.
      * by apply Hmax.
      * split; [lia|intros; by apply Hsame].
  - subst seen. cbn. split; [set_solver|]. by intros b' ->%list_elem_of_singleton.
Qed.

(** A client that sends back the bookmarks it was given resumes after the
    latest of them.  The text of a bookmark ([ig:term:index]) parses back to
    the bookmark, and a request whose [bookmarks] are texts the server has
    printed selects the one with the highest index; it is refused, as a
    protocol violation, only when two of them name the same index under
    different terms.  A request without bookmarks selects none. *)
Theorem bookmarks_select_latest extra bs :
  Forall bookmark_wf bs →
  (∀ b, bookmark_wf b → parse_bookmark (bookmark_text b) = Ok b)
  ∧ (btree_get (lit "bookmarks") extra = None → bookmark_from_extra extra = Ok None)
  ∧ (btree_get (lit "bookmarks") extra = Some (PackList (map (λ b, PackString (bookmark_text b)) bs)) →
     match bookmark_from_extra extra with
     | Ok None => bs = []
     | Ok (Some b) => b ∈ bs ∧ ∀ b', b' ∈ bs → index b' ≤ index b ∧ (index b' = index b → b' = b)
     | Err e => code e = ProtocolViolation ∧ conflict bs
     | Abort _ => False
     end).
Proof.
  intros Hwf. split_and!; [apply bookmark_reads| |]; unfold bookmark_from_extra; intros ->; [done|].
  pose proof (bookmarks_selected bs Hwf) as H. destruct (foldM _ _ _) as [[b|]|e|w]; exact H.
Qed.

(** ** Examples *)

Lemma one_zone_names : zone_names (H := one_zone).
Proof.
  intros c rest E%bool_decide_eq_true. change (lit "Europe/Oslo") with (69 :: lit "urope/Oslo") in E. injection E as -> _. done.
Qed.

(** A map with a datetime of either form, bytes, a duration and a list. *)
Definition parameter_sample : PackStreamValue :=
  PackMap [(lit "at", PackStructure 73 [PackInteger 1700000000; PackInteger 5; PackInteger (-12345)]);
           (lit "blob", PackBytes [0; 128; 255]);
           (lit "in", PackStructure 105 [PackInteger 0; PackInteger 999999999; PackString (lit "Europe/Oslo")]);
           (lit "list", PackList [PackInteger (-9223372036854775808); PackFloat 4607182418800017408; PackNull]);
           (lit "span", PackStructure 69 [PackInteger 14; PackInteger (-3); PackInteger 0; PackInteger (-7)])].

Lemma parameter_sample_wf : pack_wf parameter_sample.
Proof. unfold parameter_sample. solve_pack_wf. Qed.


(** A map that a client sends with the marking key is taken for a typed
    parameter. *)
Example tagged_map_becomes_date :
  let v := PackMap [(lit "$irongraph_type", PackString (lit "date")); (lit "days", PackInteger 3)] in
  (j ← pack_to_json (H := one_zone) v; echo (H := one_zone) (H0 := roomy) j) = Ok (PackStructure 68 [PackInteger 3]).
Proof. vm_compute. reflexivity. Qed.

Lemma bookmarks_select_latest_witness :
  let bs := [mkBookmark 1 7; mkBookmark 2 9; mkBookmark 1 3] in
  bookmark_from_extra [(lit "bookmarks", PackList (map (λ b, PackString (bookmark_text b)) bs))]
  = Ok (Some (mkBookmark 2 9)).
Proof.
  cbn zeta. set (extra := [_]).
  assert (Forall bookmark_wf [mkBookmark 1 7; mkBookmark 2 9; mkBookmark 1 3]) as Hwf
    by (repeat constructor; cbn; lia).
  destruct (bookmarks_select_latest extra _ Hwf) as (_ & _ & H). specialize (H eq_refl).
  destruct (bookmark_from_extra extra) as [[b|]|e|w] eqn:E; [|done| |done].
  - destruct H as [Hin Hmax]. f_equal. f_equal. symmetry. apply Hmax; [set_solver|].
    destruct (Hmax (mkBookmark 2 9)) as [Hle _]; [set_solver|]. cbn in Hle. cbn [index].
    repeat (apply elem_of_cons in Hin as [->|Hin]; [cbn in *; lia|]). by apply not_elem_of_nil in Hin.
  - vm_compute in E. discriminate E.
Defined.
