(* ===== verification/QueryEvents.v ===== *)
(** * Query requests, events and statistics: [crates/server/src/protocol/query.rs]

    What a transport sends to the engine and receives from it, and the
    statistics every transport keeps of a result.  Identifiers ([Uuid],
    [ProjectId], [ConnectionId], cancellation tokens) are integers.  The clock a
    request started at is left out of the statistics; [settle] is given the time
    elapsed. *)

From stdpp Require Import prelude gmap strings sorting.
From Stdlib Require Import ZArith Lia.
From S2P Require Import Prelude Machine Types Bolt BoltTyped BoltTypedTheorems BoltParameters.

Local Open Scope Z_scope.

(** ** Requests *)

Inductive CommitAcknowledgement := Published.

Record QueryRequest := mkQueryRequest {
  request_id : Z;
  project_id : option Z;
  query : bytes;
  parameters : list (bytes * Json);
  consistency : CommitAcknowledgement;
  bookmark : option Bookmark;
  cancellation : Z;
  deadline : option Z;
  connection_id : Z;
}.

(** [str::trim] leaves nothing: the text is white space, in UTF-8. *)
Fixpoint blank (s : bytes) : bool :=
  match s with
  | [] => true
  | 194 :: (133 | 160) :: s => blank s
  | 225 :: 154 :: 128 :: s => blank s
  | 226 :: 128 :: c :: s => (((128 <=? c) && (c <=? 138)) || (c =? 168) || (c =? 169) || (c =? 175)) && blank s
  | 226 :: 129 :: 159 :: s => blank s
  | 227 :: 128 :: 128 :: s => blank s
  | c :: s => (((9 <=? c) && (c <=? 13)) || (c =? 32)) && blank s
  end.

Definition validate (request : QueryRequest) : Result unit :=
  if blank (query request) then Err (Error_invalid_data "query is empty") else Ok tt.

(** ** Events *)

Record QueryColumn := mkQueryColumn { column_name : bytes; column_type : bytes; nullable : bool }.

Record BatchColumn := mkBatchColumn { batch_name : bytes; batch_type : bytes; values : list TypedValue }.

Record CatalogEvent := mkCatalogEvent {
  catalog_project : option Z;
  schema_revision : Z;
  catalog_labels : list bytes;
  catalog_relationship_types : list bytes;
  catalog_properties : list bytes;
  functions : list bytes;
  catalog_indexes : list bytes;
}.

Record QueryStatistics := mkQueryStatistics {
  elapsed_ms : Z;
  elapsed_us : Z;
  stat_rows : Z;
  stat_nodes : Z;
  stat_edges : Z;
  updates : Z;
}.

Inductive QueryStreamEvent :=
| EventCatalog (catalog : CatalogEvent)
| EventSchema (request_id : Z) (columns : list QueryColumn)
| EventBatch (request_id sequence row_count : Z) (columns : list BatchColumn)
| EventSummary (request_id : Z) (bookmark : Bookmark) (statistics : QueryStatistics) (truncated : bool)
    (truncation_reason : option bytes)
| EventError (request_id : Z) (code : ErrorCode) (message : string) (retryable : bool)
    (retry_after_ms : option Z).

(** ** Result statistics *)

Record QueryResultStatistics := mkResultStatistics { rows : Z; result_nodes : Z; result_edges : Z }.

Definition QueryResultStatistics_new : QueryResultStatistics := mkResultStatistics 0 0 0.

(** [u64::try_from(n).unwrap_or(u64::MAX)]. *)
Definition u64_or_max (n : Z) : Z := if n <=? u64_max then n else u64_max.

Definition settle (s : QueryResultStatistics) (micros millis : Z) (event : QueryStreamEvent) : QueryStreamEvent :=
  match event with
  | EventSummary request bookmark statistics truncated reason =>
      EventSummary request bookmark
        (mkQueryStatistics (u64_or_max millis) (u64_or_max micros) (stat_rows statistics)
          (result_nodes s) (result_edges s) (updates statistics))
        truncated reason
  | _ => event
  end.

Definition budget_exceeded (m : string) : Error := Error_new ResultBudgetExceeded m.

Definition add_counts (node_message edge_message : string) (counts more : Z * Z) : Result (Z * Z) :=
  nodes ← ok_or (checked_add u64_max counts.1 more.1) (budget_exceeded node_message);
  edges ← ok_or (checked_add u64_max counts.2 more.2) (budget_exceeded edge_message);
  Ok (nodes, edges).

Definition add_query_counts : Z * Z → Z * Z → Result (Z * Z) :=
  add_counts "query node accounting overflow" "query relationship accounting overflow".
Definition add_path_counts : Z * Z → Z * Z → Result (Z * Z) :=
  add_counts "path node accounting overflow" "path relationship accounting overflow".

Definition graph_counts_iter {A} (counts : A → Result (Z * Z)) (values : list A) : Result (Z * Z) :=
  foldM (λ total value, more ← counts value; add_query_counts total more) (0, 0) values.

Fixpoint typed_graph_counts (value : TypedValue) : Result (Z * Z) :=
  match value with
  | TypedNode node =>
      '(nested_nodes, nested_edges) ← graph_counts_iter (λ p, typed_graph_counts p.2) (properties node);
      nodes ← ok_or (checked_add u64_max nested_nodes 1) (budget_exceeded "query node accounting overflow");
      Ok (nodes, nested_edges)
  | TypedRelationship edge =>
      '(nested_nodes, nested_edges) ← graph_counts_iter (λ p, typed_graph_counts p.2) (rel_properties edge);
      edges ← ok_or (checked_add u64_max nested_edges 1) (budget_exceeded "query relationship accounting overflow");
      Ok (nested_nodes, edges)
  | TypedPath path =>
      node_count ← ok_or (u64_try_from (zlen (nodes path)))
        (budget_exceeded "path node count does not fit result accounting");
      edge_count ← ok_or (u64_try_from (zlen (relationships path)))
        (budget_exceeded "path relationship count does not fit result accounting");
      counts ← foldM (λ counts node,
          more ← graph_counts_iter (λ p, typed_graph_counts p.2) (properties node);
          add_path_counts counts more) (node_count, edge_count) (nodes path);
      foldM (λ counts relationship,
          more ← graph_counts_iter (λ p, typed_graph_counts p.2) (rel_properties relationship);
          add_path_counts counts more) counts (relationships path)
  | TypedList values => graph_counts_iter typed_graph_counts values
  | TypedMap values => graph_counts_iter (λ p, typed_graph_counts p.2) values
  | _ => Ok (0, 0)
  end.

Definition batch_counts (columns : list BatchColumn) : Result (Z * Z) :=
  graph_counts_iter typed_graph_counts (concat (map values columns)).

Definition observe (s : QueryResultStatistics) (event : QueryStreamEvent)
    : QueryResultStatistics * Result unit :=
  match
    '(batch_rows, (batch_nodes, batch_edges)) ←
      match event with
      | EventBatch _ _ row_count columns => counts ← batch_counts columns; Ok (row_count, counts)
      | _ => Ok (0, (0, 0))
      end;
    total_rows ← ok_or (checked_add u64_max (rows s) batch_rows) (budget_exceeded "query row accounting overflow");
    '(total_nodes, total_edges) ← add_query_counts (result_nodes s, result_edges s) (batch_nodes, batch_edges);
    Ok (mkResultStatistics total_rows total_nodes total_edges)
  with
  | Ok s' => (s', Ok tt)
  | Err e => (s, Err e)
  | Abort w => (s, Abort w)
  end.

(** The callback the database puts between a query and its transport
    ([QueryExecutor::execute], [crates/server/src/server/database.rs]): count,
    stamp, pass on.  [clock] is the time elapsed in micro- and milliseconds. *)
Definition account (s : QueryResultStatistics) (clock : Z * Z) (event : QueryStreamEvent)
    : QueryResultStatistics * Result QueryStreamEvent :=
  let '(s, observed) := observe s event in
  (s, _ ← observed; Ok (settle s clock.1 clock.2 event)).

(** A query that emits events until one is refused: the events passed on. *)
Fixpoint account_all (s : QueryResultStatistics) (events : list (Z * Z * QueryStreamEvent))
    : list QueryStreamEvent * Result unit :=
  match events with
  | [] => ([], Ok tt)
  | (clock, event) :: events =>
      match account s clock event with
      | (s, Ok event) => let '(passed, result) := account_all s events in (event :: passed, result)
      | (_, Err e) => ([], Err e)
      | (_, Abort w) => ([], Abort w)
      end
  end.

(** ** The counts are exact *)

Definition sum {A} (f : A → Z) (l : list A) : Z := foldr (λ a n, f a + n) 0 l.

(** The node and relationship values inside a value. *)
Fixpoint typed_nodes (value : TypedValue) : Z :=
  match value with
  | TypedNode node => 1 + sum (λ p, typed_nodes p.2) (properties node)
  | TypedRelationship edge => sum (λ p, typed_nodes p.2) (rel_properties edge)
  | TypedPath path =>
      zlen (nodes path) + sum (λ n, sum (λ p, typed_nodes p.2) (properties n)) (nodes path)
      + sum (λ e, sum (λ p, typed_nodes p.2) (rel_properties e)) (relationships path)
  | TypedList values => sum typed_nodes values
  | TypedMap values => sum (λ p, typed_nodes p.2) values
  | _ => 0
  end.

Fixpoint typed_edges (value : TypedValue) : Z :=
  match value with
  | TypedNode node => sum (λ p, typed_edges p.2) (properties node)
  | TypedRelationship edge => 1 + sum (λ p, typed_edges p.2) (rel_properties edge)
  | TypedPath path =>
      zlen (relationships path) + sum (λ n, sum (λ p, typed_edges p.2) (properties n)) (nodes path)
      + sum (λ e, sum (λ p, typed_edges p.2) (rel_properties e)) (relationships path)
  | TypedList values => sum typed_edges values
  | TypedMap values => sum (λ p, typed_edges p.2) values
  | _ => 0
  end.

(** The result is the pair of counts, or an error when one exceeds [u64]. *)
Definition counted (m : Result (Z * Z)) (n e : Z) : Prop :=
  0 ≤ n ∧ 0 ≤ e
  ∧ posts (λ er, code er = ResultBudgetExceeded ∧ (u64_max < n ∨ u64_max < e)) m
      (λ c, c = (n, e) ∧ n ≤ u64_max ∧ e ≤ u64_max).

Lemma sum_cons {A} (f : A → Z) a l : sum f (a :: l) = f a + sum f l.
Proof. done. Qed.

Lemma sum_of_nonneg {A} (f : A → Z) l : Forall (λ a, 0 ≤ f a) l → 0 ≤ sum f l.
Proof. induction 1; [done|]. rewrite sum_cons. lia. Qed.

Lemma sum_app {A} (f : A → Z) l k : sum f (l ++ k) = sum f l + sum f k.
Proof. induction l; [done|]. cbn [app]. rewrite !sum_cons. lia. Qed.

Lemma checked_add_u64 m a b :
  posts (λ e, code e = ResultBudgetExceeded ∧ u64_max < a + b)
    (ok_or (checked_add u64_max a b) (budget_exceeded m)) (λ c, c = a + b ∧ a + b ≤ u64_max).
Proof. unfold checked_add. destruct (Z.leb_spec (a + b) u64_max); cbn; split; done || lia. Qed.

Lemma counted_bind {A} (m : Result (Z * Z)) n e (f : Z * Z → Result A) F Q :
  counted m n e →
  (n ≤ u64_max → e ≤ u64_max → posts F (f (n, e)) Q) →
  (∀ er, code er = ResultBudgetExceeded → u64_max < n ∨ u64_max < e → F er) →
  posts F (c ← m; f c) Q.
Proof.
  intros (_ & _ & Hm) Hf HF. destruct m as [c|er|w]; [|by apply HF; apply Hm|done].
  destruct Hm as (-> & ? & ?). by apply Hf.
Qed.

(** Sums of counted parts, added one by one. *)
Lemma counts_fold {A} m1 m2 (counts : A → Result (Z * Z)) (n e : A → Z) l a b :
  Forall (λ x, counted (counts x) (n x) (e x)) l → 0 ≤ a ≤ u64_max → 0 ≤ b ≤ u64_max →
  counted (foldM (λ total x, more ← counts x; add_counts m1 m2 total more) (a, b) l) (a + sum n l) (b + sum e l).
Proof.
  intros Hl. revert a b. induction Hl as [|x l Hx Hl IH]; intros a b Ha Hb.
  { change (sum n []) with 0. change (sum e []) with 0. rewrite !Z.add_0_r. split_and!; [lia..|]. cbn. split_and!; [done|lia..]. }
  pose proof (proj1 Hx). pose proof (proj1 (proj2 Hx)).
  assert (0 ≤ sum n l) by (apply sum_of_nonneg; eapply Forall_impl; [exact Hl|]; by intros ? (? & _)).
  assert (0 ≤ sum e l) by (apply sum_of_nonneg; eapply Forall_impl; [exact Hl|]; by intros ? (_ & ? & _)).
  rewrite !sum_cons. split_and!; [lia..|]. cbn [foldM]. rewrite bind_assoc.
  eapply counted_bind; [exact Hx| |intros er ? ?; split; [done|lia]].
  intros _ _. unfold add_counts. cbn [fst snd]. rewrite !bind_assoc.
  eapply posts_bind; [eapply posts_weaken; [apply checked_add_u64|]; intros er [? ?]; split; [done|lia]|].
  intros c [-> ?]. rewrite !bind_assoc.
  eapply posts_bind; [eapply posts_weaken; [apply checked_add_u64|]; intros er [? ?]; split; [done|lia]|].
  intros d [-> ?]. rbind. rewrite !Z.add_assoc. apply IH; lia.
Qed.

Lemma counts_iter {A} (counts : A → Result (Z * Z)) (n e : A → Z) l :
  Forall (λ x, counted (counts x) (n x) (e x)) l → counted (graph_counts_iter counts l) (sum n l) (sum e l).
Proof.
  intros Hl. exact (counts_fold _ _ _ _ _ _ 0 0 Hl ltac:(done) ltac:(done)).
Qed.

Lemma entries_counted (l : list (bytes * TypedValue)) :
  Forall (λ p, counted (typed_graph_counts p.2) (typed_nodes p.2) (typed_edges p.2)) l →
  counted (graph_counts_iter (λ p, typed_graph_counts p.2) l) (sum (λ p, typed_nodes p.2) l) (sum (λ p, typed_edges p.2) l).
Proof. apply (counts_iter (λ p, typed_graph_counts p.2)). Qed.

Lemma u64_length {A} (l : list A) m :
  posts (λ e, code e = ResultBudgetExceeded ∧ u64_max < zlen l) (ok_or (u64_try_from (zlen l)) (budget_exceeded m))
    (λ c, c = zlen l ∧ zlen l ≤ u64_max).
Proof. unfold u64_try_from. destruct (Z.leb_spec (zlen l) u64_max); cbn; split; done || lia. Qed.

Lemma path_counted (p : PathValue TypedValue) :
  path_all (λ v, counted (typed_graph_counts v) (typed_nodes v) (typed_edges v)) p →
  counted (typed_graph_counts (TypedPath p)) (typed_nodes (TypedPath p)) (typed_edges (TypedPath p)).
Proof.
  intros [Hn He]. cbn [typed_graph_counts typed_nodes typed_edges].
  apply (Forall_impl _ (λ n, counted (graph_counts_iter (λ p, typed_graph_counts p.2) (properties n))
    (sum (λ p, typed_nodes p.2) (properties n)) (sum (λ p, typed_edges p.2) (properties n)))) in Hn;
    [|intros n Hp; by apply entries_counted].
  apply (Forall_impl _ (λ e, counted (graph_counts_iter (λ p, typed_graph_counts p.2) (rel_properties e))
    (sum (λ p, typed_nodes p.2) (rel_properties e)) (sum (λ p, typed_edges p.2) (rel_properties e)))) in He;
    [|intros e Hp; by apply entries_counted].
  assert (Hnn := sum_of_nonneg _ _ (Forall_impl _ _ _ Hn (λ n H, proj1 H))).
  assert (Hen := sum_of_nonneg _ _ (Forall_impl _ _ _ Hn (λ n H, proj1 (proj2 H)))).
  assert (Hne := sum_of_nonneg _ _ (Forall_impl _ _ _ He (λ n H, proj1 H))).
  assert (Hee := sum_of_nonneg _ _ (Forall_impl _ _ _ He (λ n H, proj1 (proj2 H)))).
  pose proof (zlen_nonneg (nodes p)). pose proof (zlen_nonneg (relationships p)). split_and!; [lia..|].
  eapply posts_bind; [eapply posts_weaken; [apply u64_length|]; intros er [? ?]; split; [done|lia]|]. intros c [-> ?].
  eapply posts_bind; [eapply posts_weaken; [apply u64_length|]; intros er [? ?]; split; [done|lia]|]. intros d [-> ?].
  eapply counted_bind; [apply (counts_fold _ _ _ _ _ _ _ _ Hn); lia| |intros er ? ?; split; [done|lia]].
  intros ? ?. apply (counts_fold _ _ _ _ _ _ _ _ He); lia.
Qed.

Lemma typed_counted v : counted (typed_graph_counts v) (typed_nodes v) (typed_edges v).
Proof.
  induction v as [v Hv|n Hn|e He|p Hp|vs Hvs|vs Hvs] using TypedValue_nested_ind.
  - by destruct v; try done; (split_and!; [done..|]); cbn.
  - apply entries_counted in Hn as Hc. destruct Hc as (H0 & H1 & _). cbn [typed_graph_counts typed_nodes typed_edges].
    split_and!; [lia..|]. eapply counted_bind; [by apply entries_counted| |intros er ? ?; split; [done|lia]].
    intros ? ?. eapply posts_bind; [eapply posts_weaken; [apply checked_add_u64|]; intros er [? ?]; split; [done|lia]|].
    intros c [-> ?]. cbn. split_and!; [f_equal; lia|lia..].
  - apply entries_counted in He as Hc. destruct Hc as (H0 & H1 & _). cbn [typed_graph_counts typed_nodes typed_edges].
    split_and!; [lia..|]. eapply counted_bind; [by apply entries_counted| |intros er ? ?; split; [done|lia]].
    intros ? ?. eapply posts_bind; [eapply posts_weaken; [apply checked_add_u64|]; intros er [? ?]; split; [done|lia]|].
    intros c [-> ?]. cbn. split_and!; [f_equal; lia|lia..].
  - by apply path_counted.
  - by apply (counts_iter typed_graph_counts).
  - by apply entries_counted.
Qed.

(** What an event adds to the statistics. *)
Definition event_values (event : QueryStreamEvent) : list TypedValue :=
  match event with EventBatch _ _ _ columns => concat (map values columns) | _ => [] end.
Definition event_rows (event : QueryStreamEvent) : Z :=
  match event with EventBatch _ _ row_count _ => row_count | _ => 0 end.
Definition event_nodes (event : QueryStreamEvent) : Z := sum typed_nodes (event_values event).
Definition event_edges (event : QueryStreamEvent) : Z := sum typed_edges (event_values event).

Definition event_wf (event : QueryStreamEvent) : Prop := u64 (event_rows event).

Definition statistics_wf (s : QueryResultStatistics) : Prop :=
  u64 (rows s) ∧ u64 (result_nodes s) ∧ u64 (result_edges s).

(** The statistics of a list of events. *)
Definition totals (events : list QueryStreamEvent) : QueryResultStatistics :=
  mkResultStatistics (sum event_rows events) (sum event_nodes events) (sum event_edges events).

Definition fits (s : QueryResultStatistics) : Prop :=
  rows s ≤ u64_max ∧ result_nodes s ≤ u64_max ∧ result_edges s ≤ u64_max.

Lemma event_counts_nonneg event : 0 ≤ event_nodes event ∧ 0 ≤ event_edges event.
Proof.
  split; apply sum_of_nonneg, Forall_true; intros v; by destruct (typed_counted v) as (? & ? & _).
Qed.

Lemma totals_snoc events event :
  totals (events ++ [event])
  = mkResultStatistics (rows (totals events) + event_rows event) (result_nodes (totals events) + event_nodes event)
      (result_edges (totals events) + event_edges event).
Proof. unfold totals. rewrite !sum_app. cbn. f_equal; lia. Qed.

Lemma batch_counted event :
  posts (λ e, code e = ResultBudgetExceeded ∧ (u64_max < event_nodes event ∨ u64_max < event_edges event))
    match event with
    | EventBatch _ _ row_count columns => counts ← batch_counts columns; Ok (row_count, counts)
    | _ => Ok (0, (0, 0))
    end (λ c, c = (event_rows event, (event_nodes event, event_edges event))).
Proof.
  destruct event; try done. unfold batch_counts.
  eapply counted_bind; [apply counts_iter, Forall_true, typed_counted|done|done].
Qed.

Lemma observe_totals before event :
  0 ≤ rows (totals before) → 0 ≤ result_nodes (totals before) → 0 ≤ result_edges (totals before) → event_wf event →
  match observe (totals before) event with
  | (s, Ok _) => s = totals (before ++ [event]) ∧ fits s
  | (s, Err e) => s = totals before ∧ code e = ResultBudgetExceeded ∧ ¬ fits (totals (before ++ [event]))
  | (_, Abort _) => False
  end.
Proof.
  intros H0 H1 H2 Hw. rewrite totals_snoc. set (s := totals before) in *. pose proof (event_counts_nonneg event) as [? ?].
  unfold event_wf, u64 in Hw. unfold observe.
  match goal with |- match (match ?m with _ => _ end) with _ => _ end =>
    assert (posts (λ e, code e = ResultBudgetExceeded
      ∧ ¬ fits (mkResultStatistics (rows s + event_rows event) (result_nodes s + event_nodes event) (result_edges s + event_edges event)))
      m (λ s', s' = mkResultStatistics (rows s + event_rows event) (result_nodes s + event_nodes event) (result_edges s + event_edges event) ∧ fits s'))
      as Hm; [|by destruct m]
  end.
  unfold fits. cbn [rows result_nodes result_edges].
  eapply posts_bind; [eapply posts_weaken; [apply batch_counted|]; intros er [? ?]; split; [done|lia]|]. intros ? ->.
  eapply posts_bind; [eapply posts_weaken; [apply checked_add_u64|]; intros er [? ?]; split; [done|lia]|]. intros ? [-> ?].
  unfold add_query_counts, add_counts. cbn [fst snd]. rewrite !bind_assoc.
  eapply posts_bind; [eapply posts_weaken; [apply checked_add_u64|]; intros er [? ?]; split; [done|lia]|]. intros ? [-> ?].
  rewrite !bind_assoc.
  eapply posts_bind; [eapply posts_weaken; [apply checked_add_u64|]; intros er [? ?]; split; [done|lia]|]. intros ? [-> ?].
  cbn. split_and!; done || lia.
Qed.

Lemma totals_nonneg events : Forall event_wf events →
  0 ≤ rows (totals events) ∧ 0 ≤ result_nodes (totals events) ∧ 0 ≤ result_edges (totals events).
Proof.
  intros Hw. split_and!; apply sum_of_nonneg; [|apply Forall_true; intros e; by apply event_counts_nonneg..].
  eapply Forall_impl; [exact Hw|]. unfold event_wf, u64. lia.
Qed.

Lemma account_all_totals before events :
  Forall event_wf before → Forall (λ p, event_wf p.2) events →
  let '(passed, result) := account_all (totals before) events in
  (∀ i event, passed !! i = Some event → ∃ clock given,
     events !! i = Some (clock, given)
     ∧ event = settle (totals (before ++ map snd (firstn (S i) events))) clock.1 clock.2 given
     ∧ fits (totals (before ++ map snd (firstn (S i) events))))
  ∧ match result with
    | Ok _ => length passed = length events
    | Err e => code e = ResultBudgetExceeded ∧ (length passed < length events)%nat
               ∧ ¬ fits (totals (before ++ map snd (firstn (S (length passed)) events)))
    | Abort _ => False
    end.
Proof.
  intros Hb Hw. revert before Hb. induction Hw as [|[clock event] events He Hw IH]; intros before Hb; [done|].
  cbn [account_all]. unfold account. destruct (totals_nonneg before Hb) as (? & ? & ?).
  pose proof (observe_totals before event ltac:(done) ltac:(done) ltac:(done) He) as Ho. cbn in He.
  destruct (observe (totals before) event) as [s [[]|e|w]]; [|cbn; split_and!; [done|apply Ho|lia|apply Ho]|done].
  destruct Ho as [-> Hf]. rbind. specialize (IH (before ++ [event])).
  destruct (account_all (totals (before ++ [event])) events) as [passed result].
  destruct IH as [Hp Hr]; [apply Forall_app; split; [done|by constructor]|].
  setoid_rewrite <- (assoc_L (++)) in Hp. split.
  - intros [|i] ev; cbn [lookup]; [intros [= <-]; by exists clock, event|]. intros Hi. apply Hp, Hi.
  - destruct result as [u|e|w]; [by cbn; f_equal|cbn|done]. rewrite <- (assoc_L (++)) in Hr.
    destruct Hr as (? & ? & ?). split_and!; [done|lia|done].
Qed.

(** C10: The statistics of a result are exact.  Of the events a query emits, the
    transport receives the longest prefix whose totals fit 64 bits, each event
    as it was emitted except that a summary carries the number of node and of
    relationship values in all batches up to it, those inside paths, lists,
    maps and properties included.  When a total does not fit, the query fails
    with an exceeded result budget and nothing later is passed on. *)
Theorem result_statistics_exact events :
  Forall (λ p, event_wf p.2) events →
  let '(passed, result) := account_all QueryResultStatistics_new events in
  (∀ i event, passed !! i = Some event → ∃ clock given,
     events !! i = Some (clock, given)
     ∧ event = settle (totals (map snd (firstn (S i) events))) clock.1 clock.2 given
     ∧ fits (totals (map snd (firstn (S i) events))))
  ∧ match result with
    | Ok _ => length passed = length events
    | Err e => code e = ResultBudgetExceeded ∧ (length passed < length events)%nat
               ∧ ¬ fits (totals (map snd (firstn (S (length passed)) events)))
    | Abort _ => False
    end.
Proof. intros Hw. by apply (account_all_totals []). Qed.

(** A path of one relationship whose second node holds a node in a list. *)
Definition counted_sample : list (Z * Z * QueryStreamEvent) :=
  let node i ps := mkResultNode (lit i) [] ps in
  let inner := [(lit "friends", TypedList [TypedNode (node "9" [])])] in
  let path := mkPath [node "1" []; node "2" inner] [mkRelationship (lit "5") (lit "1") (lit "2") (lit "KNOWS") []] in
  [((1, 0), EventBatch 7 0 1 [mkBatchColumn (lit "p") (lit "PATH") [TypedPath path]]);
   ((2500, 2), EventSummary 7 (mkBookmark 1 1) (mkQueryStatistics 0 0 1 0 0 0) false None)].

Lemma result_statistics_exact_witness :
  Forall (λ p, event_wf p.2) counted_sample
  ∧ ∃ batch, account_all QueryResultStatistics_new counted_sample
      = ([batch; EventSummary 7 (mkBookmark 1 1) (mkQueryStatistics 2 2500 1 3 1 0) false None], Ok tt).
Proof.
  assert (Forall (λ p, event_wf p.2) counted_sample) as Hw by (repeat constructor; done).
  split; [exact Hw|]. pose proof (result_statistics_exact _ Hw) as H.
  destruct (account_all QueryResultStatistics_new counted_sample) as [passed result] eqn:E.
  destruct H as [Hp Hr].
  destruct result as [[]|e|w]; [|vm_compute in E; discriminate E|done].
  destruct passed as [|batch [|event [|? ?]]]; try done. exists batch.
  destruct (Hp 1%nat event eq_refl) as (clock & given & [= <- <-] & -> & _). reflexivity.
Defined.
