(* ===== verification/Actions.v ===== *)
(** * Actions: computations that change a state and may fail

    The model of a Rust method on [&mut self] that returns a [Result]: what it
    did to the state before an error stays done.  [runs] is the weakest
    precondition of an action; its rules take an action apart. *)

From stdpp Require Import prelude.
From S2P Require Import Prelude.

Definition action (S E A : Type) : Type := S → S * outcome E A.

#[global] Instance action_ret S E : MRet (action S E) := λ A a s, (s, Ok a).
#[global] Instance action_bind S E : MBind (action S E) := λ A B f m s,
  match m s with
  | (s, Ok a) => f a s
  | (s, Err e) => (s, Err e)
  | (s, Abort w) => (s, Abort w)
  end.

Section actions.
Context {S E : Type}.

Definition get_state : action S E S := λ s, (s, Ok s).
Definition modify (f : S → S) : action S E unit := λ s, (f s, Ok tt).
Definition lift {A} (m : outcome E A) : action S E A := λ s, (s, m).

(** [match m { Ok(a) => .., Err(e) => .. }]: an error becomes a value. *)
Definition attempt {A} (m : action S E A) : action S E (outcome E A) := λ s,
  match m s with
  | (s, Abort w) => (s, Abort w)
  | (s, r) => (s, Ok r)
  end.

(** The action ends in a value with [Q] or in an error with [F]; if it does not
    return, [N] holds. *)
Definition runs {A} (N : Prop) (m : action S E A) (Q : A → S → Prop) (F : E → S → Prop) (s : S) : Prop :=
  match m s with
  | (s, Ok a) => Q a s
  | (s, Err e) => F e s
  | (_, Abort _) => N
  end.

Context {A B : Type} (N : Prop).
Implicit Types (m : action S E A) (f : A → action S E B) (F : E → S → Prop).

Lemma runs_ret (a : A) (Q : A → S → Prop) F s : Q a s → runs N (mret a) Q F s.
Proof. done. Qed.

Lemma runs_bind m f (Q : B → S → Prop) F s :
  runs N m (λ a s, runs N (f a) Q F s) F s → runs N (m ≫= f) Q F s.
Proof. unfold runs at 1 3, mbind, action_bind. by destruct (m s) as [s' [a|e|w]]. Qed.

Lemma runs_mono m (Q R : A → S → Prop) (F G : E → S → Prop) s :
  runs N m Q F s → (∀ a s, Q a s → R a s) → (∀ e s, F e s → G e s) → runs N m R G s.
Proof. unfold runs. destruct (m s) as [s' [a|e|w]]; auto. Qed.

Lemma runs_get (Q : S → S → Prop) F s : Q s s → runs N get_state Q F s.
Proof. done. Qed.

Lemma runs_modify g (Q : unit → S → Prop) F s : Q tt (g s) → runs N (modify g) Q F s.
Proof. done. Qed.

Lemma runs_lift (r : outcome E A) (Q : A → S → Prop) F s :
  match r with Ok a => Q a s | Err e => F e s | Abort _ => N end → runs N (lift r) Q F s.
Proof. by destruct r. Qed.

Lemma runs_attempt m (Q : outcome E A → S → Prop) F s :
  runs N m (λ a, Q (Ok a)) (λ e, Q (Err e)) s → runs N (attempt m) Q F s.
Proof. unfold runs, attempt. by destruct (m s) as [s' [a|e|w]]. Qed.

(** The effect of an action, step by step. *)
Lemma bind_eval m f s s' a : m s = (s', Ok a) → (m ≫= f) s = f a s'.
Proof. unfold mbind, action_bind. by intros ->. Qed.

Lemma bind_eval_err m f s s' e : m s = (s', Err e) → (m ≫= f) s = (s', Err e).
Proof. unfold mbind, action_bind. by intros ->. Qed.
End actions.

Create HintDb runs_db.
#[export] Hint Resolve runs_ret runs_get runs_modify : runs_db.
