(* ===== verification/BoltCursor.v ===== *)
(** * Result cursors: [BoltCursor], [crates/server/src/protocol/bolt.rs]

    A cursor reads the events a query sends over a channel, checks them, and
    hands out the rows of their batches as encoded RECORD messages, encoding up
    to 64 KiB of a batch ahead.  The channel is the list of the events still to
    be received; the query's thread is the transaction it has taken with it, if
    any.  Whether the query has been cancelled is asked before each row; the
    answers, which other threads decide, are a parameter. *)

From stdpp Require Import prelude gmap strings sorting.
From Stdlib Require Import ZArith Lia.
From S2P Require Import Prelude Machine Types Bolt BoltTyped BoltParameters QueryEvents Actions.

Local Open Scope Z_scope.

Definition CURSOR_EVENT_CAPACITY : Z := 2.

Record CursorBatch := mkCursorBatch {
  row_count : Z;
  next_row : Z;
  columns : list (list TypedValue);
  encoded_records : list bytes;
}.

(** The thread that runs the query, with the transaction moved into it. *)
Record Worker := mkWorker { worker_transaction : option Z }.

Record BoltCursor := mkCursor {
  cursor_request : Z;
  receiver : list QueryStreamEvent;
  worker : option Worker;
  cursor_token : Z;
  polled : nat;
  batch : option CursorBatch;
  pending_record : option bytes;
  field_count : option Z;
  expected_sequence : Z;
  cursor_summary : option (list (bytes * PackStreamValue));
  terminal : bool;
}.

Definition BoltCursor_new (request_id : Z) (receiver : list QueryStreamEvent) (worker : Worker) (token : Z)
    : BoltCursor :=
  mkCursor request_id receiver (Some worker) token 0 None None None 0 None false.

Definition set_receiver (events : list QueryStreamEvent) (c : BoltCursor) : BoltCursor :=
  mkCursor (cursor_request c) events (worker c) (cursor_token c) (polled c) (batch c) (pending_record c)
    (field_count c) (expected_sequence c) (cursor_summary c) (terminal c).
Definition set_polled (n : nat) (c : BoltCursor) : BoltCursor :=
  mkCursor (cursor_request c) (receiver c) (worker c) (cursor_token c) n (batch c) (pending_record c)
    (field_count c) (expected_sequence c) (cursor_summary c) (terminal c).
Definition set_batch (b : option CursorBatch) (c : BoltCursor) : BoltCursor :=
  mkCursor (cursor_request c) (receiver c) (worker c) (cursor_token c) (polled c) b (pending_record c)
    (field_count c) (expected_sequence c) (cursor_summary c) (terminal c).
Definition set_pending (r : option bytes) (c : BoltCursor) : BoltCursor :=
  mkCursor (cursor_request c) (receiver c) (worker c) (cursor_token c) (polled c) (batch c) r
    (field_count c) (expected_sequence c) (cursor_summary c) (terminal c).
Definition set_field_count (n : option Z) (c : BoltCursor) : BoltCursor :=
  mkCursor (cursor_request c) (receiver c) (worker c) (cursor_token c) (polled c) (batch c) (pending_record c)
    n (expected_sequence c) (cursor_summary c) (terminal c).
Definition set_sequence (n : Z) (c : BoltCursor) : BoltCursor :=
  mkCursor (cursor_request c) (receiver c) (worker c) (cursor_token c) (polled c) (batch c) (pending_record c)
    (field_count c) n (cursor_summary c) (terminal c).
Definition set_summary (s : option (list (bytes * PackStreamValue))) (c : BoltCursor) : BoltCursor :=
  mkCursor (cursor_request c) (receiver c) (worker c) (cursor_token c) (polled c) (batch c) (pending_record c)
    (field_count c) (expected_sequence c) s (terminal c).
Definition set_terminal (b : bool) (c : BoltCursor) : BoltCursor :=
  mkCursor (cursor_request c) (receiver c) (worker c) (cursor_token c) (polled c) (batch c) (pending_record c)
    (field_count c) (expected_sequence c) (cursor_summary c) b.

Definition with_encoded (records : list bytes) (b : CursorBatch) : CursorBatch :=
  mkCursorBatch (row_count b) (next_row b) (columns b) records.

Abbreviation Cur := (action BoltCursor Error).

Definition verify_request (request : Z) : Cur unit :=
  c ← get_state;
  if request =? cursor_request c then mret tt
  else lift (Err (protocol_violation "query cursor emitted an event for another request")).

(** [Receiver::recv]: [None] once the query has dropped its end. *)
Definition recv : Cur (option QueryStreamEvent) :=
  c ← get_state;
  match receiver c with
  | [] => mret None
  | event :: events => _ ← modify (set_receiver events); mret (Some event)
  end.

Definition event_error (code : ErrorCode) (message : string) (retryable : bool) (retry_after_ms : option Z) : Error :=
  mkError code message retryable retry_after_ms.

Fixpoint await_schema_loop (fuel : nat) : Cur (list bytes) :=
  match fuel with
  | O => lift (Abort OutOfFuel)
  | S fuel =>
      event ← recv;
      match event with
      | None => lift (Err (protocol_violation "query cursor closed before schema"))
      | Some (EventCatalog _) => await_schema_loop fuel
      | Some (EventSchema request columns) =>
          _ ← verify_request request;
          c ← get_state;
          match field_count c with
          | Some _ => lift (Err (protocol_violation "query cursor emitted duplicate schema"))
          | None => _ ← modify (set_field_count (Some (zlen columns))); mret (map column_name columns)
          end
      | Some (EventError request code message retryable after) =>
          _ ← verify_request request;
          lift (Err (event_error code message retryable after))
      | Some (EventBatch _ _ _ _) | Some (EventSummary _ _ _ _ _) =>
          lift (Err (protocol_violation "query cursor emitted data before schema"))
      end
  end.

(** Each round receives an event. *)
Definition await_schema : Cur (list bytes) :=
  c ← get_state; await_schema_loop (S (length (receiver c))).

Section cursor.
Context `{Timezones}.

(** Whether the query of a token is cancelled when it is asked for the n-th time. *)
Context (is_cancelled : Z → nat → bool).

(** The next value of a column, and what is left of the column. *)
Definition encode_column (state : bytes * list (list TypedValue)) (column : list TypedValue)
    : Result (bytes * list (list TypedValue)) :=
  let '(payload, rest) := state in
  match column with
  | [] => Err (protocol_violation "query batch column is shorter than its row count")
  | value :: values =>
      payload ← encode_typed_value value payload;
      Ok (payload, rest ++ [values])
  end.

(** A RECORD message of the next value of each column, and the columns after it. *)
Definition encode_record (columns : list (list TypedValue)) : Result (bytes * list (list TypedValue)) :=
  payload ← encode_list_length (zlen columns) [177; 113];
  foldM encode_column (payload, []) columns.

(** The loop that encodes ahead; [bytes] counts what it has encoded. *)
Fixpoint encode_ahead (fuel : nat) (token : Z) (polls : nat) (bytes : Z) (b : CursorBatch)
    : Result (CursorBatch * nat) :=
  if (next_row b <? row_count b) && (bytes <? 64 * 1024) then
    match fuel with
    | O => Abort OutOfFuel
    | S fuel =>
        if is_cancelled token polls then Err (Error_new Cancelled "Bolt result encoding cancelled")
        else
          '(payload, rest) ← encode_record (columns b);
          encode_ahead fuel token (S polls) (saturating_add usize_max bytes (zlen payload))
            (mkCursorBatch (row_count b) (next_row b + 1) rest (encoded_records b ++ [payload]))
    end
  else Ok (b, polls).

(** The next record of the batch at hand; an exhausted batch is dropped. *)
Definition from_batch : Cur (option bytes) :=
  c ← get_state;
  match batch c with
  | None => mret None
  | Some b =>
      _ ← modify (set_batch None);
      match encoded_records b with
      | record :: records =>
          _ ← modify (set_batch (Some (with_encoded records b)));
          mret (Some record)
      | [] =>
          if next_row b <? row_count b then
            '(b, polls) ← lift (encode_ahead (Z.to_nat (row_count b - next_row b)) (cursor_token c) (polled c) 0 b);
            _ ← modify (set_polled polls);
            match encoded_records b with
            | record :: records =>
                _ ← modify (set_batch (Some (with_encoded records b)));
                mret (Some record)
            | [] => lift (Abort Panicked)
            end
          else mret None
      end
  end.

Definition summary_map (bookmark : Bookmark) (statistics : QueryStatistics) (truncated : bool)
    : list (bytes * PackStreamValue) :=
  [(lit "bookmark", PackString (bookmark_text bookmark));
   (lit "t_last", PackInteger (as_signed 64 (elapsed_ms statistics)));
   (lit "truncated", PackBoolean truncated)].

(** What [next_record] does with an event before it goes round again. *)
Definition on_event (event : QueryStreamEvent) : Cur unit :=
  match event with
  | EventCatalog _ => mret tt
  | EventSchema request _ =>
      _ ← verify_request request;
      lift (Err (protocol_violation "query cursor emitted duplicate schema"))
  | EventBatch request sequence count batch_columns =>
      _ ← verify_request request;
      c ← get_state;
      if negb (sequence =? expected_sequence c) then
        lift (Err (protocol_violation "query batch sequence is discontinuous"))
      else
        _ ← modify (set_sequence (saturating_add u64_max (expected_sequence c) 1));
        count ← lift (ok_or (usize_try_from count) (Error_invalid_data "row count does not fit memory"));
        if negb (zlen batch_columns =? default 0 (field_count c))
           || existsb (λ column, negb (zlen (values column) =? count)) batch_columns then
          lift (Err (protocol_violation "query batch does not match its schema or row count"))
        else modify (set_batch (Some (mkCursorBatch count 0 (map values batch_columns) [])))
  | EventSummary request bookmark statistics truncated _ =>
      _ ← verify_request request;
      _ ← modify (set_summary (Some (summary_map bookmark statistics truncated)));
      modify (set_terminal true)
  | EventError request code message retryable after =>
      _ ← verify_request request;
      _ ← modify (set_terminal true);
      lift (Err (event_error code message retryable after))
  end.

Fixpoint next_record_loop (fuel : nat) : Cur (option bytes) :=
  match fuel with
  | O => lift (Abort OutOfFuel)
  | S fuel =>
      record ← from_batch;
      match record with
      | Some record => mret (Some record)
      | None =>
          c ← get_state;
          if terminal c then mret None
          else
            event ← recv;
            match event with
            | None => _ ← modify (set_terminal true); mret None
            | Some event => _ ← on_event event; next_record_loop fuel
            end
      end
  end.

(** Each round but the last receives an event. *)
Definition next_record : Cur (option bytes) :=
  c ← get_state;
  match pending_record c with
  | Some record => _ ← modify (set_pending None); mret (Some record)
  | None => next_record_loop (S (length (receiver c)))
  end.

Definition has_more : Cur bool :=
  record ← next_record;
  match record with
  | Some record => _ ← modify (set_pending (Some record)); mret true
  | None => mret false
  end.
End cursor.
