(* ===== verification/BoltCursorTheorems.v ===== *)
(** * A cursor hands out the rows of its query, in order and once

    The rows a cursor has yet to deliver are those encoded ahead, those left of
    the batch at hand and those of the batches still in the channel.
    [next_record] delivers the first of them, [has_more] tells whether there is
    one. *)

From stdpp Require Import prelude gmap strings sorting.
From Stdlib Require Import ZArith Lia.
From S2P Require Import Prelude Machine Types Bolt BoltTheorems BoltDecode BoltTyped BoltTypedTheorems BoltParameters QueryEvents Actions BoltCursor.

Local Open Scope Z_scope.

(** ** Rows *)

Abbreviation row := (list TypedValue).

Definition heads (columns : list (list TypedValue)) : row := map (λ column, default TypedNull (head column)) columns.

Fixpoint rows_of (n : nat) (columns : list (list TypedValue)) : list row :=
  match n with
  | O => []
  | S n => heads columns :: rows_of n (map tail columns)
  end.

(** The rows of the batches that come before the end of the result. *)
Fixpoint stream_rows (events : list QueryStreamEvent) : list row :=
  match events with
  | EventBatch _ _ count columns :: events => rows_of (Z.to_nat count) (map values columns) ++ stream_rows events
  | (EventSummary _ _ _ _ _ | EventError _ _ _ _ _) :: _ => []
  | _ :: events => stream_rows events
  | [] => []
  end.

(** The metadata of the summary that ends it. *)
Fixpoint stream_summary (events : list QueryStreamEvent) : option (list (bytes * PackStreamValue)) :=
  match events with
  | EventSummary _ bookmark statistics truncated _ :: _ => Some (summary_map bookmark statistics truncated)
  | EventError _ _ _ _ _ :: _ => None
  | _ :: events => stream_summary events
  | [] => None
  end.

(** No more events follow the end of a result than its channel holds. *)
Fixpoint short (events : list QueryStreamEvent) : Prop :=
  match events with
  | (EventSummary _ _ _ _ _ | EventError _ _ _ _ _) :: events => zlen events ≤ CURSOR_EVENT_CAPACITY
  | _ :: events => short events
  | [] => True
  end.

Definition event_sized (event : QueryStreamEvent) : bool := forallb typed_sized (event_values event).

Definition batch_ok (b : CursorBatch) : Prop :=
  0 ≤ next_row b ≤ row_count b
  ∧ Forall (λ column, zlen column = row_count b - next_row b ∧ Forall (λ v, typed_sized v = true) column) (columns b).

Definition batch_rows (b : CursorBatch) : list row := rows_of (Z.to_nat (row_count b - next_row b)) (columns b).

Section rows.
Context `{Timezones}.

(** The RECORD message of a row. *)
Definition row_record (r : row) : Result bytes := encode_typed_value (TypedList r) [177; 113].

Lemma row_record_eval r :
  row_record r
  = (payload ← encode_list_length (zlen r) [177; 113]; foldM (λ output value, encode_typed_value value output) payload r).
Proof. done. Qed.

Lemma row_record_returns r : Forall (λ v, typed_sized v = true) r → returns (row_record r).
Proof.
  intros Hs. pose proof (typed_agrees (TypedList r)) as Ha. cbn [typed_sized] in Ha.
  rewrite forallb_Forall in Ha. specialize (Ha Hs [177; 113]). unfold row_record, returns.
  by destruct (encode_typed_value (TypedList r) [177; 113]).
Qed.

Lemma encode_columns cols out rest :
  Forall (λ column, column ≠ []) cols →
  foldM encode_column (out, rest) cols
  = (payload ← foldM (λ output value, encode_typed_value value output) out (heads cols); Ok (payload, rest ++ map tail cols)).
Proof.
  intros Hc. revert out rest. induction Hc as [|col cols Hne _ IH]; intros out rest; [cbn; by rewrite app_nil_r|].
  destruct col as [|v vs]; [done|]. cbn [foldM heads map default head tail encode_column].
  change (Datatypes.id v) with v.
  destruct (encode_typed_value v out) as [out'|e|w]; [|done..]. cbn [mbind outcome_bind].
  rewrite IH. by rewrite <- (assoc_L (++)).
Qed.

Lemma encode_record_row cols :
  Forall (λ column, column ≠ []) cols →
  encode_record cols = (payload ← row_record (heads cols); Ok (payload, map tail cols)).
Proof.
  intros Hc. unfold encode_record. rewrite row_record_eval.
  replace (zlen (heads cols)) with (zlen cols) by (unfold zlen, heads; by rewrite length_map).
  rewrite bind_assoc. destruct (encode_list_length (zlen cols) [177; 113]) as [out|e|w]; [|done..]. cbn [mbind outcome_bind].
  by apply encode_columns.
Qed.

Lemma column_step (col : list TypedValue) n :
  zlen col = n ∧ Forall (λ v, typed_sized v = true) col → 0 < n →
  ∃ v vs, col = v :: vs ∧ zlen vs = n - 1 ∧ typed_sized v = true ∧ Forall (λ v, typed_sized v = true) vs.
Proof.
  intros [Hl Hs] Hn. destruct col as [|v vs]; [unfold zlen in Hl; cbn in Hl; lia|].
  rewrite zlen_cons in Hl. apply Forall_cons in Hs as [? ?]. exists v, vs. split_and!; [done|lia|done..].
Qed.

Lemma batch_rows_step b :
  batch_ok b → next_row b < row_count b →
  let next := mkCursorBatch (row_count b) (next_row b + 1) (map tail (columns b)) (encoded_records b) in
  Forall (λ column, column ≠ []) (columns b) ∧ batch_ok next ∧ batch_rows b = heads (columns b) :: batch_rows next
  ∧ Forall (λ v, typed_sized v = true) (heads (columns b)).
Proof.
  intros [Hn Hc] Hlt. cbn zeta. split_and!.
  - eapply Forall_impl; [exact Hc|]. intros col Hcol. by destruct (column_step col _ Hcol) as (v & vs & -> & _); [lia|].
  - unfold batch_ok. cbn [next_row row_count columns]. split; [lia|]. apply Forall_map. eapply Forall_impl; [exact Hc|].
    intros col Hcol. destruct (column_step col _ Hcol) as (v & vs & -> & ? & _ & ?); [lia|]. cbn. split; [lia|done].
  - unfold batch_rows. cbn [row_count next_row columns].
    replace (Z.to_nat (row_count b - next_row b)) with (S (Z.to_nat (row_count b - (next_row b + 1)))) by lia. done.
  - apply Forall_map. eapply Forall_impl; [exact Hc|].
    intros col Hcol. by destruct (column_step col _ Hcol) as (v & vs & -> & _ & ? & _); [lia|].
Qed.

(** ** Encoding ahead *)

Context (is_cancelled : Z → nat → bool).

(** The records that encoding ahead adds are those of the rows it takes. *)
Definition encodes (b b' : CursorBatch) (records : list bytes) : Prop :=
  batch_ok b' ∧ encoded_records b' = encoded_records b ++ records
  ∧ ∃ taken, batch_rows b = taken ++ batch_rows b' ∧ Forall2 (λ r record, row_record r = Ok record) taken records.

(** Why encoding ahead fails: the query was cancelled, or a row has no message. *)
Definition stops (token : Z) (rows : list row) (e : Error) : Prop :=
  (∃ n, is_cancelled token n = true ∧ code e = Cancelled) ∨ ∃ r, r ∈ rows ∧ row_record r = Err e.

Lemma encode_ahead_spec fuel token polls n b :
  batch_ok b → row_count b - next_row b ≤ Z.of_nat fuel →
  posts (stops token (batch_rows b)) (encode_ahead is_cancelled fuel token polls n b)
    (λ p, ∃ records, encodes b p.1 records ∧ (next_row b < row_count b → n < 64 * 1024 → records ≠ [])).
Proof.
  revert polls n b. induction fuel as [|fuel IH]; intros polls n b Hb Hf; cbn [encode_ahead].
  { pose proof (proj1 Hb). replace (next_row b <? row_count b) with false by lia. cbn. exists []. split; [|lia].
    split_and!; [done|by rewrite app_nil_r|]. exists []. by split. }
  destruct (Z.ltb_spec (next_row b) (row_count b)) as [Hlt|Hge]; cbn [andb];
    [|cbn; exists []; split; [|lia]; split_and!; [done|by rewrite app_nil_r|exists []; by split]].
  destruct (Z.ltb_spec n (64 * 1024)) as [Hn|Hn];
    [|cbn; exists []; split; [|lia]; split_and!; [done|by rewrite app_nil_r|exists []; by split]].
  destruct (is_cancelled token polls) eqn:Hcan; [left; by exists polls|].
  destruct (batch_rows_step b Hb Hlt) as (Hne & Hok & Hrows & Hsized). rewrite (encode_record_row _ Hne).
  pose proof (row_record_returns _ Hsized) as Hr. rewrite Hrows.
  destruct (row_record (heads (columns b))) as [payload|e|w] eqn:E; [|right; exists (heads (columns b)); split; [left|done]|done].
  cbn [mbind outcome_bind]. eapply posts_weaken; [eapply posts_mono; [apply IH; [|cbn [row_count next_row]; lia]|]|].
  - exact Hok.
  - intros [b' polls'] (records & (Hok' & Hrec & taken & Htaken & Hall) & _). exists (payload :: records). split; [|done].
    cbn [fst encoded_records] in *. split_and!; [done|by rewrite Hrec, <- (assoc_L (++))|].
    exists (heads (columns b) :: taken). split; [|by constructor]. rewrite Hrows. cbn. f_equal. exact Htaken.
  - intros e [Hc|(r & Hin & Hr')]; [by left|right]. exists r. split; [by right|done].
Qed.

(** ** The rows still to come *)

Definition encoded_rows (c : BoltCursor) : list bytes :=
  option_list (pending_record c) ++ match batch c with Some b => encoded_records b | None => [] end.

Definition later_rows (c : BoltCursor) : list row :=
  match batch c with Some b => batch_rows b | None => [] end
  ++ (if terminal c then [] else stream_rows (receiver c)).

(** The cursor will deliver [rows] and then has [summary]. *)
Definition holds (c : BoltCursor) (rows : list row) (summary : option (list (bytes * PackStreamValue))) : Prop :=
  (∃ ready, Forall2 (λ r record, row_record r = Ok record) ready (encoded_rows c) ∧ rows = ready ++ later_rows c)
  ∧ (∀ b, batch c = Some b → batch_ok b)
  ∧ Forall (λ event, event_wf event ∧ event_sized event = true) (receiver c)
  ∧ summary = (if terminal c then cursor_summary c else stream_summary (receiver c))
  ∧ (terminal c = false → cursor_summary c = None)
  ∧ (if terminal c then zlen (receiver c) ≤ CURSOR_EVENT_CAPACITY else short (receiver c)).

(** What a query promises of its events: batches of the announced width in
    sequence, then a summary, and nothing after it. *)
Fixpoint contract (request fields sequence : Z) (events : list QueryStreamEvent) : Prop :=
  match events with
  | EventCatalog _ :: events => contract request fields sequence events
  | EventBatch r s count columns :: events =>
      r = request ∧ s = sequence ∧ zlen columns = fields ∧ Forall (λ column, zlen (values column) = count) columns
      ∧ contract request fields (saturating_add u64_max sequence 1) events
  | [EventSummary r _ _ _ _] => r = request
  | _ => False
  end.

(** A cursor on such a query, which is not cancelled and whose rows can be sent. *)
Definition orderly (c : BoltCursor) (rows : list row) : Prop :=
  (∀ n, is_cancelled (cursor_token c) n = false)
  ∧ Forall (λ r, ∃ record, row_record r = Ok record) rows
  ∧ (terminal c = false → contract (cursor_request c) (default 0 (field_count c)) (expected_sequence c) (receiver c)).

(** The parts of a cursor that reading from its batch leaves alone. *)
Definition same_stream (c c' : BoltCursor) : Prop :=
  cursor_request c' = cursor_request c ∧ receiver c' = receiver c ∧ cursor_token c' = cursor_token c
  ∧ field_count c' = field_count c ∧ expected_sequence c' = expected_sequence c
  ∧ cursor_summary c' = cursor_summary c ∧ terminal c' = terminal c ∧ worker c' = worker c.

Lemma from_batch_spec c rows summary :
  holds c rows summary → pending_record c = None →
  runs False (from_batch is_cancelled)
    (λ r c', same_stream c c' ∧ pending_record c' = None
      ∧ match r with
        | Some record => ∃ first rest, rows = first :: rest ∧ row_record first = Ok record ∧ holds c' rest summary
        | None => holds c' rows summary ∧ batch c' = None
        end)
    (λ e c', stops (cursor_token c) rows e) c.
Proof.
  intros ((ready & Hready & Hrows) & Hbatch & Hev & Hsum & Hnone & Hshort) Hp.
  unfold from_batch. apply runs_bind, runs_get. destruct (batch c) as [b|] eqn:Eb.
  2: { apply runs_ret. split; [by repeat split|]. split_and!; [done| |done]. split_and!; [by exists ready|congruence|done..]. }
  specialize (Hbatch b eq_refl). unfold encoded_rows in Hready. unfold later_rows in Hrows. rewrite Eb in *.
  rewrite Hp in Hready. cbn [option_list app] in Hready.
  apply runs_bind, runs_modify. destruct (encoded_records b) as [|record records] eqn:Er.
  - apply Forall2_nil_inv_r in Hready as ->. cbn [app] in Hrows.
    destruct (Z.ltb_spec (next_row b) (row_count b)) as [Hlt|Hge].
    + apply runs_bind, runs_lift.
      pose proof (encode_ahead_spec (Z.to_nat (row_count b - next_row b)) (cursor_token c) (polled c) 0 b Hbatch ltac:(lia)) as Hs.
      destruct (encode_ahead _ _ _ _ _ _) as [[b' polls]|e|w]; cbn [posts] in Hs; [|..].
      * destruct Hs as (recs & (Hok & Hrec & taken & Htaken & Hall) & Hne). specialize (Hne Hlt ltac:(done)). cbn [fst] in *.
        rewrite Er in Hrec. cbn [app] in Hrec. rewrite Hrec. apply runs_bind, runs_modify.
        destruct recs as [|record records]; [done|]. apply Forall2_cons_inv_r in Hall as (first & taken' & Hf & Hall & ->).
        apply runs_bind, runs_modify, runs_ret. split; [by repeat split|]. split; [done|].
        exists first, (taken' ++ batch_rows b' ++ (if terminal c then [] else stream_rows (receiver c))).
        split; [by rewrite Hrows, Htaken, <- (assoc_L (++))|]. split; [done|]. split_and!; [|by intros ? [= <-]|done..].
        exists taken'. split; [unfold encoded_rows; cbn; by rewrite Hp|done].
      * destruct Hs as [Hs|(r & Hin & Hr)]; [by left|right]. exists r. split; [|done]. rewrite Hrows. apply elem_of_app. by left.
      * done.
    + apply runs_ret. split; [by repeat split|]. split; [done|]. split; [|done]. split_and!; [|done..].
      exists []. split; [unfold encoded_rows; cbn; by rewrite Hp|]. rewrite Hrows. unfold batch_rows, later_rows. cbn.
      by replace (Z.to_nat (row_count b - next_row b)) with 0%nat by lia.
  - apply Forall2_cons_inv_r in Hready as (first & ready' & Hf & Hready & ->).
    apply runs_bind, runs_modify, runs_ret. split; [by repeat split|]. split; [done|].
    exists first, (ready' ++ batch_rows b ++ (if terminal c then [] else stream_rows (receiver c))).
    split; [done|]. split; [done|]. split_and!; [|by intros ? [= <-]|done..]. exists ready'. split; [unfold encoded_rows; cbn; by rewrite Hp|done].
Qed.
Definition same_query (c c' : BoltCursor) : Prop :=
  cursor_request c' = cursor_request c ∧ cursor_token c' = cursor_token c ∧ field_count c' = field_count c
  ∧ worker c' = worker c.

Lemma verify_runs request (Q : unit → BoltCursor → Prop) (F : Error → BoltCursor → Prop) c :
  (request = cursor_request c → Q tt c) → (request ≠ cursor_request c → ∀ e, F e c) →
  runs False (verify_request request) Q F c.
Proof.
  intros HQ HF. unfold verify_request. apply runs_bind, runs_get.
  destruct (Z.eqb_spec request (cursor_request c)); [by apply runs_ret, HQ|by apply runs_lift, HF].
Qed.

Lemma batch_of_event request sequence count cols :
  event_wf (EventBatch request sequence count cols) → event_sized (EventBatch request sequence count cols) = true →
  Forall (λ column, zlen (values column) = count) cols →
  batch_ok (mkCursorBatch count 0 (map values cols) []).
Proof.
  unfold event_wf, u64, event_sized. cbn [event_rows event_values]. intros Hw Hs Hl. split; [cbn; lia|].
  cbn [columns row_count next_row]. apply Forall_map. rewrite forallb_Forall, Forall_concat, Forall_map in Hs.
  apply Forall_and. split; [|done]. eapply Forall_impl; [exact Hl|]. cbn. lia.
Qed.

(** Reading an event keeps the rows to come. *)
Lemma on_event_spec c event events rows summary :
  holds c rows summary → batch c = None → pending_record c = None → terminal c = false → receiver c = event :: events →
  runs False (on_event event)
    (λ _ c', holds c' rows summary ∧ pending_record c' = None ∧ receiver c' = events ∧ same_query c c'
      ∧ (orderly c rows → orderly c' rows))
    (λ e c', ¬ orderly c rows) (set_receiver events c).
Proof.
  intros ((ready & Hready & Hrows) & _ & Hev & Hsum & Hnone & Hshort) Hb Hp Ht Hr. unfold encoded_rows, later_rows in *.
  rewrite Hb, Hp, Ht in *. apply Forall2_nil_inv_r in Hready as ->. cbn [app] in Hrows. rewrite Hr in *.
  apply Forall_cons in Hev as [[Hwf Hsz] Hev].
  assert (orderly c rows → contract (cursor_request c) (default 0 (field_count c)) (expected_sequence c) (event :: events)) as Hk.
  { intros (_ & _ & Hk). rewrite <- Hr. by apply Hk. }
  destruct event as [catalog|request cs|request sequence count cs|request bm st tr reason|request cd msg rt af]; cbn [on_event].
  - apply runs_ret. split_and!; [|done|done|done|].
    + split_and!; [|by cbn; rewrite Hb|done|cbn; by rewrite Ht|cbn; intros _; by apply Hnone|cbn; by rewrite Ht]. exists []. unfold encoded_rows, later_rows. cbn. by rewrite Hb, Hp, Ht.
    + intros Ho. split_and!; [apply Ho..|]. intros _. exact (Hk Ho).
  - apply runs_bind, verify_runs; [intros _; apply runs_lift|intros _ _]; exact Hk.
  - apply runs_bind, verify_runs; [intros ->|intros Hne _ Ho; by destruct (Hk Ho)].
    apply runs_bind, runs_get. cbn [set_receiver expected_sequence field_count].
    destruct (Z.eqb_spec sequence (expected_sequence c)) as [->|Hne];
      [cbn [negb]|apply runs_lift; intros Ho; by destruct (Hk Ho) as (_ & ? & _)].
    apply runs_bind, runs_modify, runs_bind. unfold event_wf, u64 in Hwf. cbn [event_rows] in Hwf.
    apply runs_lift. unfold usize_try_from. replace (count <=? usize_max) with true by (unfold usize_max, u64_max; lia). cbn [ok_or].
    destruct (negb _ || existsb _ _) eqn:Hbad.
    + apply runs_lift. intros Ho. destruct (Hk Ho) as (_ & _ & Hf & Hl & _). apply orb_true_iff in Hbad as [Hbad|Hbad]; [lia|].
      apply existsb_exists in Hbad as (column & Hin & Hbad). rewrite Forall_forall in Hl.
      specialize (Hl column (proj2 (list_elem_of_In _ _) Hin)). lia.
    + apply orb_false_iff in Hbad as [Hf Hl]. assert (Forall (λ column, zlen (values column) = count) cs) as Hcount.
      { apply Forall_forall. intros column Hin%list_elem_of_In. destruct (Z.eqb_spec (zlen (values column)) count); [done|].
        assert (existsb (λ column, negb (zlen (values column) =? count)) cs = true) as Ht'; [|congruence].
        apply existsb_exists. exists column. split; [done|]. by apply negb_true_iff, Z.eqb_neq. }
      apply runs_modify. split_and!; [|done|done|done|].
      * split_and!; [|intros ? [= <-]; by eapply batch_of_event|done|cbn; by rewrite Ht|cbn; intros _; by apply Hnone|cbn; by rewrite Ht].
        exists []. unfold encoded_rows, later_rows, batch_rows. cbn. rewrite Hp, Ht, Z.sub_0_r. done.
      * intros Ho. split_and!; [apply Ho..|]. intros _. by destruct (Hk Ho) as (_ & _ & _ & _ & Hc).
  - apply runs_bind, verify_runs; [intros ->|intros Hne _ Ho; specialize (Hk Ho); by destruct events].
    apply runs_bind, runs_modify, runs_modify. split_and!; [|done|done|done|].
    + split_and!; [|by cbn; rewrite Hb|done..]. exists []. unfold encoded_rows, later_rows. cbn. by rewrite Hb, Hp.
    + intros Ho. split_and!; [apply Ho..|]. done.
  - apply runs_bind, verify_runs; [intros _; apply runs_bind, runs_modify, runs_lift|intros _ _]; exact Hk.
Qed.
Lemma stops_not_orderly c rows e : stops (cursor_token c) rows e → ¬ orderly c rows.
Proof.
  intros [(n & Hn & _)|(r & Hin & Hr)] (Hc & Hrec & _); [by rewrite Hc in Hn|].
  rewrite Forall_forall in Hrec. destruct (Hrec r Hin) as [record ?]. congruence.
Qed.

Lemma orderly_rest c c' rows rest :
  same_stream c c' → orderly c (rows ++ rest) → orderly c' rest.
Proof.
  intros (E1 & E2 & E3 & E4 & E5 & _ & E7 & _) (Hc & Hr & Hk). apply Forall_app in Hr as [_ Hr].
  unfold orderly. rewrite E1, E2, E3, E4, E5, E7. done.
Qed.

(** Where [next_record] leaves a cursor that was to deliver [rows]. *)
Definition delivers (c : BoltCursor) (rows : list row) (summary : option (list (bytes * PackStreamValue)))
    (r : option bytes) (c' : BoltCursor) : Prop :=
  same_query c c' ∧ pending_record c' = None
  ∧ match r with
    | Some record => ∃ first rest, rows = first :: rest ∧ row_record first = Ok record ∧ holds c' rest summary
                       ∧ (orderly c rows → orderly c' rest)
    | None => rows = [] ∧ holds c' [] summary ∧ terminal c' = true ∧ batch c' = None ∧ (orderly c rows → orderly c' [])
    end.

Lemma delivers_trans c c1 rows summary r c' :
  same_query c c1 → (orderly c rows → orderly c1 rows) → delivers c1 rows summary r c' → delivers c rows summary r c'.
Proof.
  intros (E1 & E2 & E3 & E4) Ho ((F1 & F2 & F3 & F4) & Hp & Hr). split; [split_and!; congruence|]. split; [done|].
  destruct r as [record|].
  - destruct Hr as (first & rest & ? & ? & ? & ?). exists first, rest. tauto.
  - destruct Hr as (? & ? & ? & ? & ?). tauto.
Qed.

Lemma next_record_loop_spec fuel c rows summary :
  holds c rows summary → pending_record c = None → (length (receiver c) < fuel)%nat →
  runs False (next_record_loop is_cancelled fuel) (delivers c rows summary) (λ _ _, ¬ orderly c rows) c.
Proof.
  revert c. induction fuel as [|fuel IH]; intros c Hh Hp Hf; [lia|]. cbn [next_record_loop].
  apply runs_bind. eapply runs_mono; [by apply from_batch_spec| |by intros e c' ?%stops_not_orderly].
  intros [record|] c' (Hs & Hp' & Hr).
  - destruct Hr as (first & rest & -> & Hrec & Hh'). apply runs_ret.
    split; [destruct Hs as (? & ? & ? & ? & ? & ? & ? & ?); by split_and!|]. split; [done|]. exists first, rest.
    do 3 (split; [done|]). by apply (orderly_rest c c' [first]).
  - destruct Hr as [Hh' Hb']. assert (orderly c rows → orderly c' rows) as Ho by by apply (orderly_rest c c' []).
    assert (same_query c c') as Hq by (destruct Hs as (? & ? & ? & ? & ? & ? & ? & ?); by split_and!).
    assert (receiver c' = receiver c) as Hrecv by apply Hs.
    apply runs_bind, runs_get. destruct (terminal c') eqn:Et.
    { apply runs_ret. split; [done|]. split; [done|]. pose proof Hh' as ((ready & Hready & Hrows) & _).
      unfold encoded_rows, later_rows in *. rewrite Hb', Hp', Et in *. apply Forall2_nil_inv_r in Hready as ->.
      cbn in Hrows. subst rows. by split_and!. }
    apply runs_bind. unfold recv. apply runs_bind, runs_get. destruct (receiver c') as [|event events] eqn:Er.
    + apply runs_ret. apply runs_bind, runs_modify, runs_ret. split; [done|]. split; [done|].
      destruct Hh' as ((ready & Hready & Hrows) & _ & _ & Hsum & Hnone & _).
      unfold encoded_rows, later_rows in *. rewrite Hb', Hp', Et in *. rewrite Er in *. apply Forall2_nil_inv_r in Hready as ->.
      cbn in Hrows, Hsum. subst rows. split; [done|]. split_and!; [|done|done|].
      * split_and!; [|by cbn; rewrite Hb'|cbn; by rewrite Er|cbn; by rewrite Hnone|done|cbn; by rewrite Er].
        exists []. unfold encoded_rows, later_rows. cbn. by rewrite Hb', Hp'.
      * intros (Hc & _)%Ho. by split_and!.
    + apply runs_bind, runs_modify, runs_ret, runs_bind.
      eapply runs_mono; [by eapply (on_event_spec c')| |intros e c1 Hn; auto].
      intros [] c1 (Hh1 & Hp1 & Hr1 & Hq1 & Ho1).
      eapply runs_mono; [apply IH; [done..|rewrite Hr1; rewrite <- Hrecv in Hf; cbn in Hf; lia]| |].
      * intros r c2. apply delivers_trans; [|auto]. destruct Hq as (? & ? & ? & ?), Hq1 as (? & ? & ? & ?). split_and!; congruence.
      * auto.
Qed.

Lemma next_record_spec c rows summary :
  holds c rows summary →
  runs False (next_record is_cancelled) (delivers c rows summary) (λ _ _, ¬ orderly c rows) c.
Proof.
  intros Hh. unfold next_record. apply runs_bind, runs_get. destruct (pending_record c) as [record|] eqn:Ep.
  - apply runs_bind, runs_modify, runs_ret. split; [by split_and!|]. split; [done|].
    destruct Hh as ((ready & Hready & Hrows) & Hb & Hev & Hsum & Hnone & Hshort). unfold encoded_rows in Hready. rewrite Ep in Hready.
    cbn [option_list app] in Hready. apply Forall2_cons_inv_r in Hready as (first & ready' & Hf & Hready & ->).
    exists first, (ready' ++ later_rows c). split_and!; [done|done|split_and!; [by exists ready'|done..]|].
    intros (Hc & Hr & Hk). subst rows. apply Forall_cons in Hr as [_ Hr]. by split_and!.
  - apply next_record_loop_spec; [done..|lia].
Qed.

(** Whatever happens, a cursor stays that of its query. *)
Definition keeps {A} (m : Cur A) : Prop := ∀ c, same_query c (m c).1.

Lemma keeps_bind {A B} (m : Cur A) (f : A → Cur B) : keeps m → (∀ a, keeps (f a)) → keeps (m ≫= f).
Proof.
  intros Hm Hf c. specialize (Hm c). unfold mbind, action_bind. destruct (m c) as [c1 [a|e|w]]; [|done..].
  specialize (Hf a c1). destruct Hm as (? & ? & ? & ?), Hf as (? & ? & ? & ?). cbn in *. split_and!; congruence.
Qed.

Lemma keeps_set {A} (f : A → BoltCursor → BoltCursor) a : (∀ c, same_query c (f a c)) → keeps (modify (f a)).
Proof. done. Qed.

Ltac keeps :=
  repeat first
    [ apply keeps_bind; [|intros ?] | by intros ? | by apply keeps_set
    | match goal with |- keeps (match ?x with _ => _ end) => destruct x end ].

Lemma verify_keeps request : keeps (verify_request request).
Proof. unfold verify_request. keeps. Qed.

Lemma from_batch_keeps : keeps (from_batch is_cancelled).
Proof. unfold from_batch. keeps. Qed.

Lemma on_event_keeps event : keeps (on_event event).
Proof. unfold on_event, verify_request. keeps. Qed.

Lemma next_record_keeps : keeps (next_record is_cancelled).
Proof.
  unfold next_record. apply keeps_bind; [done|]. intros c. destruct (pending_record c); [keeps|].
  generalize (S (length (receiver c))) as fuel. induction fuel as [|fuel IH]; [done|]. cbn [next_record_loop].
  apply keeps_bind; [apply from_batch_keeps|]. intros [record|]; [done|]. apply keeps_bind; [done|]. intros c1.
  destruct (terminal c1); [done|]. apply keeps_bind; [unfold recv; keeps|].
  intros [event|]; [|keeps]. apply keeps_bind; [apply on_event_keeps|]. by intros _.
Qed.

Lemma has_more_keeps : keeps (has_more is_cancelled).
Proof. unfold has_more. apply keeps_bind; [apply next_record_keeps|]. intros [record|]; keeps. Qed.

Lemma has_more_spec c rows summary :
  holds c rows summary →
  runs False (has_more is_cancelled)
    (λ more c', same_query c c' ∧ holds c' rows summary ∧ more = negb (bool_decide (rows = []))
       ∧ (orderly c rows → orderly c' rows) ∧ (more = false → terminal c' = true ∧ batch c' = None ∧ pending_record c' = None))
    (λ _ _, ¬ orderly c rows) c.
Proof.
  intros Hh. unfold has_more. apply runs_bind. eapply runs_mono; [by apply next_record_spec| |done].
  intros [record|] c' (Hq & Hp & Hr).
  - destruct Hr as (first & rest & -> & Hrec & Hh' & Ho). apply runs_bind, runs_modify, runs_ret.
    destruct Hh' as ((ready & Hready & Hrows) & Hb & Hev & Hsum & Hnone & Hshort). split_and!; [exact Hq| |done| |done].
    + split_and!; [|done..]. exists (first :: ready). unfold encoded_rows in *. rewrite Hp in Hready. cbn in *.
      split; [by constructor|by subst].
    + intros Horder. destruct (Ho Horder) as (? & ? & ?). split_and!; [done| |done].
      apply Forall_cons. split; [by exists record|done].
  - destruct Hr as (-> & Hh' & Ht & Hb & Ho). apply runs_ret. by split_and!.
Qed.
(** ** The schema *)

Definition is_catalog (event : QueryStreamEvent) : Prop := ∃ catalog, event = EventCatalog catalog.

(** Nothing has been read but catalogs. *)
Definition fresh (c : BoltCursor) : Prop :=
  batch c = None ∧ pending_record c = None ∧ field_count c = None ∧ expected_sequence c = 0
  ∧ cursor_summary c = None ∧ terminal c = false.

(** The cursor of a query that announced [cols] before the events [rest]. *)
Definition announced (c0 : BoltCursor) (cols : list QueryColumn) (rest : list QueryStreamEvent) : BoltCursor :=
  mkCursor (cursor_request c0) rest (worker c0) (cursor_token c0) (polled c0) None None (Some (zlen cols)) 0 None false.

Lemma await_schema_spec c :
  fresh c →
  runs False await_schema
    (λ names c', ∃ before cols rest,
       receiver c = before ++ EventSchema (cursor_request c) cols :: rest ∧ Forall is_catalog before
       ∧ names = map column_name cols ∧ c' = announced c cols rest)
    (λ _ c', cursor_token c' = cursor_token c ∧ worker c' = worker c) c.
Proof.
  intros Hf. unfold await_schema. apply runs_bind, runs_get.
  assert (length (receiver c) < S (length (receiver c)))%nat as Hl by lia. revert Hl. generalize (S (length (receiver c))) as fuel.
  intros fuel. revert c Hf. induction fuel as [|fuel IH]; intros c Hf Hl; [lia|]. cbn [await_schema_loop].
  pose proof Hf as (Hb & Hp & Hfc & Hseq & Hs & Ht). unfold recv. apply runs_bind, runs_bind, runs_get.
  destruct (receiver c) as [|event events] eqn:Er; [apply runs_ret; by apply runs_lift|].
  apply runs_bind, runs_modify, runs_ret.
  destruct event as [catalog|request cols|request sequence count cs|request bm st tr reason|request cd msg rt af].
  - eapply runs_mono; [apply (IH (set_receiver events c)); [exact Hf|cbn in *; lia]| |by intros e c' ?].
    intros names c' (before & cols & rest & Hr & Hcat & -> & ->). cbn in Hr.
    exists (EventCatalog catalog :: before), cols, rest. split_and!; [by rewrite Hr|constructor; [by eexists|done]|done..].
  - apply runs_bind, verify_runs; [intros ->|by intros _ e]. apply runs_bind, runs_get. cbn [set_receiver field_count].
    rewrite Hfc. apply runs_bind, runs_modify, runs_ret. exists [], cols, events. split_and!; [done..|].
    destruct c. cbn in *. by subst.
  - by apply runs_lift.
  - by apply runs_lift.
  - apply runs_bind, verify_runs; [intros _; by apply runs_lift|by intros _ e].
Qed.

Lemma short_app before events : Forall is_catalog before → short (before ++ events) ↔ short events.
Proof. by induction 1 as [|event before [catalog ->] _ IH]. Qed.

Lemma announced_holds c cols rest :
  Forall (λ event, event_wf event ∧ event_sized event = true) rest → short rest →
  holds (announced c cols rest) (stream_rows rest) (stream_summary rest).
Proof. intros Hev Hs. split_and!; [|done..]. exists []. by split; [constructor|]. Qed.

(** ** What a record says *)

(** Encoders write after what is there. *)
Definition extends (out : bytes) (m : Result bytes) : Prop :=
  match m with Ok out' => ∃ w, out' = out ++ w | _ => True end.

Lemma extends_app out w (m : Result bytes) : extends (out ++ w) m → extends out m.
Proof. destruct m as [o|e|v]; [|done..]. intros [w' ->]. exists (w ++ w'). by rewrite (assoc_L (++)). Qed.

Lemma extends_bind out (m : Result bytes) f : extends out m → (∀ o, extends o (f o)) → extends out (m ≫= f).
Proof. intros Hm Hf. destruct m as [o|e|w]; [|done..]. destruct Hm as [w ->]. apply (extends_app out w), Hf. Qed.

Lemma extends_fold {A} (f : bytes → A → Result bytes) l out :
  Forall (λ a, ∀ o, extends o (f o a)) l → extends out (foldM f out l).
Proof.
  intros Hl. revert out. induction Hl as [|a l Ha _ IH]; intros out; [exists []; by rewrite app_nil_r|].
  cbn [foldM]. by apply extends_bind.
Qed.

Lemma extends_pack v out : extends out (encode_packstream v out).
Proof. pose proof (encode_wire v out) as He. destruct (pack_fits v); [rewrite He; by eexists|by destruct He as (e & -> & _)]. Qed.

Lemma extends_string v out : extends out (encode_string v out).
Proof. apply (extends_pack (PackString v)). Qed.

Lemma extends_length n t m8 m16 m32 out : extends out (encode_tiny_or_length n t m8 m16 m32 out).
Proof.
  unfold encode_tiny_or_length, encode_length. repeat case_match; try (by eexists).
  destruct (u32_try_from n); [by eexists|done].
Qed.

Lemma extends_ids ids out : extends out (encode_ids ids out).
Proof.
  apply extends_fold, Forall_true. intros i o. destruct (stable_numeric_id i) as [n|e|w]; [apply extends_pack|done..].
Qed.

Lemma extends_entries encode l out :
  Forall (λ p, ∀ o, extends o (encode p.2 o)) l → extends out (encode_typed_entries encode l out).
Proof.
  intros Hl. apply extends_bind; [apply extends_length|]. intros o. apply extends_fold. eapply Forall_impl; [exact Hl|].
  intros [k v] Hv o'. apply extends_bind; [apply extends_string|apply Hv].
Qed.

Lemma extends_typed v : ∀ out, extends out (encode_typed_value v out).
Proof.
  induction v as [v Hv|n IH|e IH|p _|vs IH|vs IH] using TypedValue_nested_ind; intros out.
  - destruct v; try done; cbn [encode_typed_value];
      first [ apply extends_string | apply (extends_pack (PackBytes _)) | idtac ].
    all: try (match goal with |- extends _ (?m ≫= _) => destruct m as [p|e|w]; [apply extends_pack|done..] end).
    apply extends_bind; [apply extends_length|]. intros o. apply extends_fold, Forall_true. intros x o'. apply extends_pack.
  - cbn [encode_typed_value]. eapply extends_app.
    apply extends_bind; [apply extends_ids|]. intros o1. apply extends_bind; [apply extends_length|]. intros o2.
    apply extends_bind; [apply extends_fold, Forall_true; intros; apply extends_string|]. intros o3.
    apply extends_bind; [by apply extends_entries|]. intros o4. apply extends_string.
  - cbn [encode_typed_value]. eapply extends_app.
    apply extends_bind; [apply extends_ids|]. intros o1. apply extends_bind; [apply extends_string|]. intros o2.
    apply extends_bind; [by apply extends_entries|]. intros o3. apply extends_fold, Forall_true. intros; apply extends_string.
  - cbn [encode_typed_value]. destruct (typed_to_pack (TypedPath p)) as [q|e|w]; [apply extends_pack|done..].
  - cbn [encode_typed_value]. apply extends_bind; [apply extends_length|]. intros o. by apply extends_fold.
  - cbn [encode_typed_value]. by apply extends_entries.
Qed.

Lemma row_record_prefix r record : row_record r = Ok record → ∃ rest, record = 177 :: 113 :: rest.
Proof. intros Hr. pose proof (extends_typed (TypedList r) [177; 113]) as He. unfold row_record in Hr. by rewrite Hr in He. Qed.

(** The RECORD message of a row decodes to the PackStream forms of its values. *)
Lemma row_record_decodes r record :
  Forall (λ v, typed_sized v = true ∧ typed_wf v) r → row_record r = Ok record → zlen record ≤ isize_max →
  ∃ ps, mapM typed_to_pack r = Ok ps
    ∧ decode_packstream record
      = if pack_depth (PackStructure 113 [PackList ps]) <=? MAX_VALUE_DEPTH then Ok (PackStructure 113 [PackList ps])
        else Err nesting_limit.
Proof.
  intros Hall Hr Hl. apply Forall_and in Hall as [Hs Hw].
  pose proof (typed_agrees (TypedList r)) as Ha. cbn [typed_sized] in Ha. rewrite forallb_Forall in Ha.
  specialize (Ha Hs [177; 113]). unfold row_record in Hr. rewrite Hr in Ha.
  destruct (typed_to_pack (TypedList r)) as [p|e|w] eqn:Ep; cbn in Ha; [|done..].
  assert (typed_wf (TypedList r)) as Hwl by by constructor.
  pose proof (typed_pack_wf _ _ Hwl Ep) as Hpw. cbn [typed_to_pack] in Ep.
  destruct (mapM typed_to_pack r) as [ps|e|w]; [|done..]. injection Ep as <-. exists ps. split; [done|].
  assert (pack_wf (PackStructure 113 [PackList ps])) as Hsw.
  { apply pack_wf_structure; [unfold u8; lia|]. by constructor. }
  pose proof (encode_wire (PackList ps) [177; 113]) as He. destruct (pack_fits (PackList ps)) eqn:Hf;
    [|destruct He as (e & He & _); by rewrite He in Ha]. rewrite He in Ha. subst record.
  replace ([177; 113] ++ wire (PackList ps)) with (wire (PackStructure 113 [PackList ps])) in * by
    (cbn [wire map concat]; by rewrite app_nil_r).
  apply decode_wire; [done| |done]. cbn [pack_fits forallb] in *. by rewrite Hf.
Qed.
End rows.
