(* ===== verification/BoltSession.v ===== *)
(** * Bolt sessions: [BoltSession], [crates/server/src/protocol/bolt.rs]

    A session answers the messages of one connection, in order.  Its operations
    are actions on a [Session]: the fields of the struct, the stream it writes
    to, and the history of its calls to the query engine.

    The engine ([QueryExecutor], [QueryTransaction]) and the threads it runs on
    are the class [QueryEngine]: what each call answers, as a function of the
    history.  A running query is the list of the events it will send, given when
    it starts, and the result its thread ends with; both may depend on anything,
    cancellation included, so a statement about every engine covers every way
    the threads can interleave.  Transactions and cancellation tokens are named
    by the length of the history when they are made. *)

From stdpp Require Import prelude gmap strings sorting.
From Stdlib Require Import ZArith Lia.
From S2P Require Import Prelude Machine Types Bolt BoltTyped BoltParameters QueryEvents Actions BoltCursor.

Local Open Scope Z_scope.

Definition BOLT_SERVER_AGENT : string := "Neo4j/5.26.0".
Definition BOLT_ROUTE_SIGNATURE : Z := 102. (* 0x66 *)
Definition BOLT_ROUTING_TABLE_TTL_SECONDS : Z := 300.

Inductive SessionState := Authentication | Ready | Streaming | Transaction | Failed | Closed.

#[global] Instance SessionState_eq_dec : EqDecision SessionState.
Proof. solve_decision. Defined.

(** [{state:?}]. *)
Definition state_name (s : SessionState) : string :=
  match s with
  | Authentication => "Authentication" | Ready => "Ready" | Streaming => "Streaming"
  | Transaction => "Transaction" | Failed => "Failed" | Closed => "Closed"
  end.

(** ** The engine *)

(** What a session has done to the engine. *)
Inductive Call :=
| Began (transaction connection : Z) (project : option Z) (bookmark : option Bookmark)
| BeginRefused
| Started (token : Z) (transaction : option Z) (request : QueryRequest)
| CancelRequested (token : Z)
| Joined (token : Z) (cancelled succeeded : bool)
| Committed (transaction : Z)
| RolledBack (transaction : Z)
| Abandoned (token : Z) (transaction : option Z)
| Dropped (transaction : Z).

(** What the task that reads messages does to the interrupt registry. *)
Inductive ReaderStep := SignalReset | CancelActive.

Class QueryEngine := {
  resolve_project : list Call → bytes → Error + Z;
  begin_on_connection : list Call → Z → option Z → option Bookmark → CommitAcknowledgement → Error + unit;
  emits : list Call → QueryRequest → list QueryStreamEvent;
  (** The result of the thread of a query, or the text of the panic it died of. *)
  joins : list Call → Z → string + (Error + unit);
  commits : list Call → Z → string + (Error + Bookmark);
  rolls_back : list Call → Z → string + (Error + unit);
  is_cancelled : Z → nat → bool;
  meanwhile : list Call → list ReaderStep;
  new_uuid : list Call → Z;
  uuid_text : list Call → bytes;
  (** [{:?}] of a string. *)
  debug_text : bytes → string;
}.

Definition answered {A} (r : Error + A) : Result A :=
  match r with inl e => Err e | inr a => Ok a end.

(** [spawn_blocking(..).await.map_err(..)??]. *)
Definition awaited {A} (prefix : string) (r : string + (Error + A)) : Result A :=
  match r with
  | inl text => Err (Error_internal (concat_message prefix text))
  | inr r => answered r
  end.

(** ** The session *)

Record InterruptRegistry := mkInterrupt { active : option Z; reset_pending : bool }.

Record Session := mkSession {
  state : SessionState;
  transaction_project : option Z;
  cursor : option BoltCursor;
  transaction : option Z;
  stream_return_state : SessionState;
  interrupt : InterruptRegistry;
  session_connection : Z;
  stream : Sink;
  history : list Call;
}.

Definition set_state (v : SessionState) (s : Session) : Session :=
  mkSession v (transaction_project s) (cursor s) (transaction s) (stream_return_state s) (interrupt s)
    (session_connection s) (stream s) (history s).
Definition set_transaction_project (v : option Z) (s : Session) : Session :=
  mkSession (state s) v (cursor s) (transaction s) (stream_return_state s) (interrupt s)
    (session_connection s) (stream s) (history s).
Definition set_cursor (v : option BoltCursor) (s : Session) : Session :=
  mkSession (state s) (transaction_project s) v (transaction s) (stream_return_state s) (interrupt s)
    (session_connection s) (stream s) (history s).
Definition set_transaction (v : option Z) (s : Session) : Session :=
  mkSession (state s) (transaction_project s) (cursor s) v (stream_return_state s) (interrupt s)
    (session_connection s) (stream s) (history s).
Definition set_stream_return_state (v : SessionState) (s : Session) : Session :=
  mkSession (state s) (transaction_project s) (cursor s) (transaction s) v (interrupt s)
    (session_connection s) (stream s) (history s).
Definition set_interrupt (v : InterruptRegistry) (s : Session) : Session :=
  mkSession (state s) (transaction_project s) (cursor s) (transaction s) (stream_return_state s) v
    (session_connection s) (stream s) (history s).
Definition set_stream (v : Sink) (s : Session) : Session :=
  mkSession (state s) (transaction_project s) (cursor s) (transaction s) (stream_return_state s) (interrupt s)
    (session_connection s) v (history s).
Definition record_call (v : Call) (s : Session) : Session :=
  mkSession (state s) (transaction_project s) (cursor s) (transaction s) (stream_return_state s) (interrupt s)
    (session_connection s) (stream s) (history s ++ [v]).

Definition BoltSession_new (connection : Z) (out : Sink) : Session :=
  mkSession Authentication None None None Ready (mkInterrupt None false) connection out [].

Abbreviation Sess := (action Session Error).

(** ** Interrupts *)

Definition cancel (token : Z) : Sess unit := modify (record_call (CancelRequested token)).

Definition activate (token : Z) : Sess unit :=
  s ← get_state;
  _ ← modify (set_interrupt (mkInterrupt (Some token) (reset_pending (interrupt s))));
  if reset_pending (interrupt s) then cancel token else mret tt.

Definition clear : Sess unit :=
  s ← get_state; modify (set_interrupt (mkInterrupt None (reset_pending (interrupt s)))).

Definition cancel_active : Sess unit :=
  s ← get_state;
  match active (interrupt s) with Some token => cancel token | None => mret tt end.

Definition signal_reset : Sess unit :=
  s ← get_state;
  _ ← modify (set_interrupt (mkInterrupt (active (interrupt s)) true));
  cancel_active.

Definition acknowledge_reset : Sess unit :=
  s ← get_state; modify (set_interrupt (mkInterrupt (active (interrupt s)) false)).

Fixpoint reader_steps (steps : list ReaderStep) : Sess unit :=
  match steps with
  | [] => mret tt
  | SignalReset :: steps => _ ← signal_reset; reader_steps steps
  | CancelActive :: steps => _ ← cancel_active; reader_steps steps
  end.

(** ** Answers *)

(** A peer that stopped reading takes nothing more; what it took of the message
    cut short is left out. *)
Definition jammed (out : Sink) : Sink := mkSink (written out) 0 (broken out).

Definition write_encoded (payload : bytes) : Sess unit := λ s,
  match write_encoded_message (stream s) payload with
  | Ok out => (set_stream out s, Ok tt)
  | Err e => (set_stream (jammed (stream s)) s, Err e)
  | Abort w => (s, Abort w)
  end.

Definition write_owned (value : PackStreamValue) : Sess unit :=
  payload ← lift (encode_packstream value []);
  write_encoded payload.

Definition write_success (metadata : list (bytes * PackStreamValue)) : Sess unit :=
  write_owned (PackStructure 112 [PackMap metadata]).

Definition bolt_error_code (error : Error) : string :=
  match code error with
  | AuthenticationFailed => "Neo.ClientError.Security.Unauthorized"
  | AuthorizationDenied | LayerNotAllowed => "Neo.ClientError.Security.Forbidden"
  | ProjectNotFound | ProjectFenced => "Neo.ClientError.Database.DatabaseNotFound"
  | QuerySyntax => "Neo.ClientError.Statement.SyntaxError"
  | QueryType | TemporalRange | EmbeddingProfileMismatch | EmbeddingProfileImmutable =>
      "Neo.ClientError.Statement.TypeError"
  | InvalidData | ProtocolViolation => "Neo.ClientError.Request.Invalid"
  | TransactionExpired => "Neo.ClientError.Transaction.TransactionTimedOut"
  | TransactionConflict | TransactionSequencerChanged => "Neo.TransientError.Transaction.DeadlockDetected"
  | StaleLocalRead | WriteAdmissionFull | Backpressure | DeadlineExceeded | GpuAdmissionFailure
  | IndexUnavailable | EmbeddingUnavailable => "Neo.TransientError.General.DatabaseUnavailable"
  | Cancelled => "Neo.ClientError.Transaction.Terminated"
  | ResultBudgetExceeded | RetentionExpired => "Neo.ClientError.Statement.ExecutionFailed"
  | CorruptStorage | Io | Internal => "Neo.DatabaseError.General.UnknownError"
  end.

Definition write_failure (error : Error) : Sess unit :=
  write_owned (PackStructure 127 [PackMap [(lit "code", PackString (lit (bolt_error_code error)));
                                           (lit "message", PackString (lit (message error)))]]).

Definition write_ignored : Sess unit := write_owned (PackStructure 126 []).

(** ** Reading requests *)

Definition protocol_state (m : string) (s : SessionState) : Error :=
  protocol_violation (concat_message m (concat_message " is not valid in Bolt state " (state_name s))).

Definition as_map (value : PackStreamValue) : Result (list (bytes * PackStreamValue)) :=
  match value with
  | PackMap values => Ok values
  | _ => Err (protocol_violation "expected PackStream map")
  end.

Definition as_i64 (value : PackStreamValue) : Result Z :=
  match value with
  | PackInteger value => Ok value
  | _ => Err (protocol_violation "expected PackStream integer")
  end.

(** [Option::map(f).transpose()]. *)
Definition optional {A B} (f : A → Result B) (o : option A) : Result (option B) :=
  match o with Some a => Some <$> f a | None => Ok None end.

Definition fetch_count (metadata : list (bytes * PackStreamValue)) (m : string) (explicit_transaction : bool)
    : Result Z :=
  qid ← optional as_i64 (btree_get (lit "qid") metadata);
  if negb explicit_transaction && bool_decide (is_Some qid) then
    Err (protocol_violation "qid is valid only for an explicit transaction result")
  else if match qid with Some qid => negb ((qid =? -1) || (qid =? 0)) | None => false end then
    Err (protocol_violation "only the current Bolt result cursor may be consumed")
  else
    n ← ok_or (btree_get (lit "n") metadata) (protocol_violation (concat_message m " requires n"));
    maximum ← as_i64 n;
    if (maximum =? 0) || (maximum <? -1) then
      Err (protocol_violation (concat_message m " n must be -1 or positive"))
    else if maximum =? -1 then Ok usize_max
    else ok_or (usize_try_from maximum) (Error_invalid_data (concat_message m " n does not fit this platform")).

Section session.
Context `{Timezones} `{QueryEngine}.

Definition reject_unknown_keys (values : list (bytes * PackStreamValue)) (allowed : list string) (m : string)
    : Result unit :=
  match list_find (λ p, ¬ Exists (λ name, p.1 = lit name) allowed) values with
  | Some (_, (key, _)) =>
      Err (protocol_violation
        (concat_message m (concat_message " field " (concat_message (debug_text key) " is not supported by Bolt 5.0"))))
  | None => Ok tt
  end.

Definition project_from_extra (extra : list (bytes * PackStreamValue)) : Sess (option Z) :=
  match btree_get (lit "db") extra with
  | None => mret None
  | Some value =>
      selector ← lift (ok_or (as_string_ref value) (protocol_violation "db must be a string"));
      s ← get_state;
      project ← lift (answered (resolve_project (history s) selector));
      mret (Some project)
  end.
(** ** Cursors in a session *)

Record CursorCompletion := mkCompletion {
  completed_transaction : option Z;
  completed_result : Result unit;
  completed_summary : option (list (bytes * PackStreamValue));
}.

Definition drop_transaction (t : option Z) : Sess unit :=
  match t with Some t => modify (record_call (Dropped t)) | None => mret tt end.

(** [impl Drop for BoltCursor]: a query whose cursor goes away is cancelled, and
    its thread is left with its transaction. *)
Definition drop_cursor (c : BoltCursor) : Sess unit :=
  _ ← cancel (cursor_token c);
  match worker c with
  | Some w => modify (record_call (Abandoned (cursor_token c) (worker_transaction w)))
  | None => mret tt
  end.

(** A query that has more to send than the channel holds waits for ever when
    nobody receives or closes the channel. *)
Definition finish (c : BoltCursor) (cancelled : bool) : Sess CursorCompletion :=
  _ ← (if cancelled then cancel (cursor_token c) else mret tt);
  match worker c with
  | None => _ ← drop_cursor c; lift (Err (Error_internal "query cursor worker is missing"))
  | Some w =>
      if negb cancelled && (CURSOR_EVENT_CAPACITY <? zlen (receiver c)) then lift (Abort OutOfFuel)
      else
        s ← get_state;
        let joined := joins (history s) (cursor_token c) in
        _ ← modify (record_call (Joined (cursor_token c) cancelled
              match joined with inr (inr _) => true | _ => false end));
        _ ← cancel (cursor_token c);
        match joined with
        | inl text =>
            _ ← drop_transaction (worker_transaction w);
            lift (Err (Error_internal (concat_message "query worker terminated: " text)))
        | inr result => mret (mkCompletion (worker_transaction w) (answered result) (cursor_summary c))
        end
  end.

(** The end of a cursor after an error. *)
Definition abandon {A} (c : BoltCursor) (error : Error) : Sess A :=
  completion ← finish c true;
  _ ← clear;
  _ ← modify (set_transaction (completed_transaction completion));
  lift (Err error).

(** The most records a cursor can still deliver. *)
Definition event_size (event : QueryStreamEvent) : nat :=
  match event with EventBatch _ _ count _ => Z.to_nat count | _ => 0 end.
Definition cursor_size (c : BoltCursor) : nat :=
  length (option_list (pending_record c))
  + match batch c with Some b => length (encoded_records b) + Z.to_nat (row_count b - next_row b) | None => 0 end
  + sum_list_with event_size (receiver c).

(** [for _ in 0..count] over [next_record]: the cursor, and whether it ended. *)
Fixpoint consume_loop (fuel : nat) (deliver : bool) (count : Z) (c : BoltCursor) : Sess (BoltCursor * bool) :=
  if count =? 0 then mret (c, false)
  else
    match fuel with
    | O => lift (Abort OutOfFuel)
    | S fuel =>
        match next_record is_cancelled c with
        | (c, Ok (Some record)) =>
            written ← (if deliver then attempt (write_encoded record) else mret (Ok tt));
            match written with
            | Ok _ => consume_loop fuel deliver (count - 1) c
            | Err e => _ ← drop_cursor c; lift (Err e)
            | Abort w => lift (Abort w)
            end
        | (c, Ok None) => mret (c, true)
        | (c, Err e) => abandon c e
        | (_, Abort w) => lift (Abort w)
        end
    end.

(** The end of a cursor that has delivered everything. *)
Definition finish_reading (c : BoltCursor) : Sess unit :=
  completion ← finish c false;
  _ ← clear;
  _ ← modify (set_transaction (completed_transaction completion));
  _ ← lift (completed_result completion);
  s ← get_state;
  _ ← modify (set_state (stream_return_state s));
  summary ← lift (ok_or (completed_summary completion)
    (protocol_violation "query cursor closed without a terminal summary"));
  write_success (btree_insert (lit "has_more") (PackBoolean false) summary).2.

(** The part of [pull] and [discard] that reads the cursor; [deliver] is false
    for the latter. *)
Definition consume_cursor (deliver : bool) (count : Z) : Sess unit :=
  s ← get_state;
  c ← lift (ok_or (cursor s) (Error_internal "Bolt streaming state has no cursor"));
  _ ← modify (set_cursor None);
  '(c, exhausted) ← consume_loop (S (cursor_size c)) deliver count c;
  '(c, exhausted) ←
    (if negb exhausted && negb (count =? usize_max) then
       match has_more is_cancelled c with
       | (c, Ok more) => mret (c, negb more)
       | (c, Err e) => abandon c e
       | (_, Abort w) => lift (Abort w)
       end
     else mret (c, exhausted));
  if exhausted : bool then finish_reading c
  else
    _ ← modify (set_cursor (Some c));
    write_success [(lit "has_more", PackBoolean true)].

(** The common body of [pull] and [discard]. *)
Definition consume (m : string) (deliver : bool) (fields : list PackStreamValue) : Sess unit :=
  s ← get_state;
  if negb (bool_decide (state s = Streaming)) || negb (zlen fields =? 1) then
    lift (Err (protocol_state m (state s)))
  else
    metadata ← lift (field ← index_at fields 0; as_map field);
    _ ← lift (reject_unknown_keys metadata ["n"; "qid"] m);
    count ← lift (fetch_count metadata m (bool_decide (stream_return_state s = Transaction)));
    consume_cursor deliver count.

Definition pull : list PackStreamValue → Sess unit := consume "PULL" true.
Definition discard : list PackStreamValue → Sess unit := consume "DISCARD" false.

(** ** Requests *)

Definition hello (fields : list PackStreamValue) : Sess unit :=
  s ← get_state;
  if negb (bool_decide (state s = Authentication)) || negb (zlen fields =? 1) then
    lift (Err (protocol_state "HELLO" (state s)))
  else
    metadata ← lift (field ← index_at fields 0; as_map field);
    _ ← lift (reject_unknown_keys metadata ["user_agent"; "scheme"; "routing"; "patch_bolt"] "HELLO");
    _ ← lift (ok_or (btree_get (lit "user_agent") metadata ≫= as_string_ref)
      (protocol_violation "HELLO requires user_agent"));
    _ ← lift match btree_get (lit "scheme") metadata with
        | None => Ok tt
        | Some value =>
            match as_string_ref value with
            | None => Err (protocol_violation "Bolt HELLO scheme must be a string")
            | Some scheme =>
                if bool_decide (scheme = lit "none") then Ok tt
                else Err (Error_new AuthenticationFailed "Bolt authentication is transport-bound; use the none scheme")
            end
        end;
    if bool_decide (is_Some (btree_get (lit "principal") metadata))
       || bool_decide (is_Some (btree_get (lit "credentials") metadata)) then
      lift (Err (Error_new AuthenticationFailed "Bolt HELLO must not carry reusable credentials"))
    else
      _ ← lift match btree_get (lit "routing") metadata with
          | None | Some PackNull | Some (PackMap _) => Ok tt
          | Some _ => Err (protocol_violation "Bolt HELLO routing context must be a map")
          end;
      _ ← modify (set_state Ready);
      write_success [(lit "connection_id", PackString (uuid_text (history s)));
                     (lit "server", PackString (lit BOLT_SERVER_AGENT))].

Definition route (fields : list PackStreamValue) : Sess unit :=
  s ← get_state;
  if negb (bool_decide (state s = Ready)) || negb (zlen fields =? 3) then
    lift (Err (protocol_state "ROUTE" (state s)))
  else
    routing ← lift (field ← index_at fields 0; as_map field);
    extra ← lift (optional as_map (get fields 2));
    let database :=
      match (extra ≫= btree_get (lit "db")) ≫= as_string_ref with
      | Some database => PackString database
      | None => PackNull
      end in
    match btree_get (lit "address") routing ≫= as_string_ref with
    | None => lift (Err (protocol_violation "Bolt ROUTE requires an address in the routing context"))
    | Some address =>
        let server role :=
          PackMap [(lit "addresses", PackList [PackString address]); (lit "role", PackString (lit role))] in
        let table :=
          PackMap [(lit "db", database);
                   (lit "servers", PackList [server "WRITE"; server "READ"; server "ROUTE"]);
                   (lit "ttl", PackInteger BOLT_ROUTING_TABLE_TTL_SECONDS)] in
        write_success [(lit "rt", table)]
    end.

Definition transaction_keys : list string :=
  ["bookmarks"; "db"; "mode"; "tx_timeout"; "tx_metadata"; "imp_user"; "notifications"].

(** The project a RUN is for: in a transaction, that of the transaction. *)
Definition run_project (in_transaction : bool) (supplied transaction_project : option Z) : Result (option Z) :=
  if in_transaction then
    match supplied, transaction_project with
    | Some requested, Some transaction =>
        if negb (requested =? transaction) then
          Err (Error_new AuthorizationDenied "Bolt RUN cannot switch the project of an explicit transaction")
        else Ok (Some requested)
    | Some requested, None => Ok (Some requested)
    | None, project => Ok project
    end
  else Ok supplied.

(** The cursor of a new query ([BoltCursor::autocommit], [BoltCursor::transaction]). *)
Definition start_cursor (request : QueryRequest) (t : option Z) : Sess BoltCursor :=
  s ← get_state;
  _ ← modify (record_call (Started (cancellation request) t request));
  mret (BoltCursor_new (request_id request) (emits (history s) request) (mkWorker t) (cancellation request)).

Definition run_query (fields : list PackStreamValue) : Sess unit :=
  s ← get_state;
  let in_transaction := bool_decide (state s = Transaction) in
  if negb (bool_decide (state s = Ready) || in_transaction) || negb (zlen fields =? 3) then
    lift (Err (protocol_state "RUN" (state s)))
  else
    query ← lift (field ← index_at fields 0; ok_or (as_string_ref field) (protocol_violation "RUN query must be a string"));
    parameters ← lift (field ← index_at fields 1; values ← as_map field; pack_map_to_json values);
    extra ← lift (field ← index_at fields 2; as_map field);
    _ ← lift (reject_unknown_keys extra transaction_keys "RUN");
    supplied ← project_from_extra extra;
    project ← lift (run_project in_transaction supplied (transaction_project s));
    bookmark ← lift (bookmark_from_extra extra);
    if in_transaction && bool_decide (is_Some bookmark) then
      lift (Err (protocol_violation "bookmarks belong on BEGIN, not RUN inside an explicit transaction"))
    else
      let request := mkQueryRequest (new_uuid (history s)) project query parameters Published bookmark
                       (zlen (history s)) None (session_connection s) in
      _ ← lift (validate request);
      c ← (if in_transaction then
             t ← lift (ok_or (transaction s) (Error_internal "Bolt transaction state has no query transaction"));
             _ ← modify (set_transaction None);
             _ ← modify (set_stream_return_state Transaction);
             start_cursor request (Some t)
           else
             _ ← modify (set_stream_return_state Ready);
             start_cursor request None);
      _ ← activate (cursor_token c);
      match await_schema c with
      | (c, Err error) =>
          completion ← finish c true;
          _ ← clear;
          _ ← modify (set_transaction (completed_transaction completion));
          lift (Err match completed_result completion with Err e => e | _ => error end)
      | (_, Abort w) => lift (Abort w)
      | (c, Ok names) =>
          _ ← modify (set_cursor (Some c));
          _ ← modify (set_state Streaming);
          s ← get_state;
          write_success ([(lit "fields", PackList (map PackString names))]
            ++ (if bool_decide (stream_return_state s = Transaction) then [(lit "qid", PackInteger 0)] else [])
            ++ [(lit "t_first", PackInteger 0)])
      end.
Definition begin (fields : list PackStreamValue) : Sess unit :=
  s ← get_state;
  if negb (bool_decide (state s = Ready)) || negb (zlen fields =? 1) then
    lift (Err (protocol_state "BEGIN" (state s)))
  else
    extra ← lift (field ← index_at fields 0; as_map field);
    _ ← lift (reject_unknown_keys extra transaction_keys "BEGIN");
    project ← project_from_extra extra;
    bookmark ← lift (bookmark_from_extra extra);
    match begin_on_connection (history s) (session_connection s) project bookmark Published with
    | inl e => _ ← modify (record_call BeginRefused); lift (Err e)
    | inr _ =>
        let t := zlen (history s) in
        _ ← modify (record_call (Began t (session_connection s) project bookmark));
        (* the assignment drops a transaction that was there *)
        _ ← drop_transaction (transaction s);
        _ ← modify (set_transaction (Some t));
        _ ← modify (set_transaction_project project);
        _ ← modify (set_state Transaction);
        write_success []
    end.

Definition take_transaction : Sess Z :=
  s ← get_state;
  t ← lift (ok_or (transaction s) (Error_internal "Bolt transaction state has no query transaction"));
  _ ← modify (set_transaction None);
  mret t.

Definition commit (fields : list PackStreamValue) : Sess unit :=
  s ← get_state;
  if negb (bool_decide (state s = Transaction)) || negb (zlen fields =? 0) then
    lift (Err (protocol_state "COMMIT" (state s)))
  else
    t ← take_transaction;
    _ ← modify (record_call (Committed t));
    bookmark ← lift (awaited "transaction worker terminated: " (commits (history s) t));
    _ ← modify (set_transaction_project None);
    _ ← modify (set_state Ready);
    write_success [(lit "bookmark", PackString (bookmark_text bookmark))].

(** [spawn_blocking(move || transaction.rollback())]. *)
Definition roll_back (t : Z) : Sess unit :=
  s ← get_state;
  _ ← modify (record_call (RolledBack t));
  lift (awaited "transaction worker terminated: " (rolls_back (history s) t)).

Definition rollback (fields : list PackStreamValue) : Sess unit :=
  s ← get_state;
  if negb (bool_decide (state s = Transaction)) || negb (zlen fields =? 0) then
    lift (Err (protocol_state "ROLLBACK" (state s)))
  else
    t ← take_transaction;
    _ ← roll_back t;
    _ ← modify (set_transaction_project None);
    _ ← modify (set_state Ready);
    write_success [].

(** What RESET and GOODBYE do to a running query and an open transaction. *)
Definition release : Sess unit :=
  s ← get_state;
  _ ← match cursor s with
      | None => mret tt
      | Some c =>
          _ ← modify (set_cursor None);
          completion ← finish c true;
          _ ← clear;
          modify (set_transaction (completed_transaction completion))
      end;
  s ← get_state;
  match transaction s with
  | None => mret tt
  | Some t => _ ← modify (set_transaction None); roll_back t
  end.

Definition reset (fields : list PackStreamValue) : Sess unit :=
  s ← get_state;
  if negb (zlen fields =? 0) || bool_decide (state s = Authentication) || bool_decide (state s = Closed) then
    lift (Err (protocol_violation "RESET is unavailable before HELLO and takes no fields"))
  else
    _ ← release;
    _ ← modify (set_transaction_project None);
    _ ← modify (set_state Ready);
    _ ← acknowledge_reset;
    write_success [].

Definition goodbye (fields : list PackStreamValue) : Sess unit :=
  if negb (zlen fields =? 0) then lift (Err (protocol_violation "GOODBYE takes no fields"))
  else
    _ ← release;
    _ ← modify (set_transaction_project None);
    _ ← acknowledge_reset;
    modify (set_state Closed).

Definition dispatch (value : PackStreamValue) : Sess unit :=
  match value with
  | PackStructure signature fields =>
      s ← get_state;
      if bool_decide (state s = Failed) && negb (signature =? 15) && negb (signature =? 2) then write_ignored
      else if signature =? 1 then hello fields
      else if signature =? 2 then goodbye fields
      else if signature =? 16 then run_query fields
      else if signature =? 63 then pull fields
      else if signature =? 47 then discard fields
      else if signature =? 17 then begin fields
      else if signature =? 18 then commit fields
      else if signature =? 19 then rollback fields
      else if signature =? 15 then reset fields
      else if signature =? BOLT_ROUTE_SIGNATURE then route fields
      else lift (Err (protocol_violation (concat_message "unsupported Bolt message signature 0x" (hex02 signature))))
  | _ => lift (Err (protocol_violation "Bolt message is not a structure"))
  end.

(** ** Serving a connection *)

Inductive IncomingMessage :=
| Message (value : PackStreamValue)
| IncomingError (error : Error)
| End_.

(** The messages the reader task sends on, given the bytes of the peer; its
    steps on the interrupt registry are those of [meanwhile]. *)
Fixpoint read_messages (fuel : nat) (s : Stream) : list IncomingMessage :=
  match fuel with
  | O => []
  | S fuel =>
      match read_chunked_message s with
      | Ok (Some encoded, s) =>
          match decode_packstream encoded with
          | Ok value => Message value :: read_messages fuel s
          | Err e => [IncomingError e]
          | Abort _ => []
          end
      | Ok (None, _) => [End_]
      | Err e => [IncomingError e]
      | Abort _ => []
      end
  end.

(** Failures after authentication leave the session waiting for RESET. *)
Fixpoint serve_loop (incoming : list IncomingMessage) : Sess unit :=
  s ← get_state;
  if bool_decide (state s = Closed) then mret tt
  else
    _ ← reader_steps (meanwhile (history s));
    match incoming with
    | [] | End_ :: _ => goodbye []
    | IncomingError error :: _ =>
        _ ← attempt (write_failure error);
        _ ← attempt (goodbye []);
        lift (Err error)
    | Message value :: incoming =>
        answer ← attempt (dispatch value);
        match answer with
        | Err error =>
            if bool_decide (state s = Authentication) then
              _ ← write_failure error;
              _ ← attempt (goodbye []);
              lift (Err error)
            else
              _ ← modify (set_state Failed);
              _ ← write_failure error;
              serve_loop incoming
        | _ => serve_loop incoming
        end
    end.

(** [BoltSession::serve] after the handshake. *)
Definition serve_messages (incoming : list IncomingMessage) : Sess unit :=
  _ ← serve_loop incoming;
  cancel_active.

Definition serve (input : Stream) : Sess unit :=
  s ← get_state;
  '(supported, input, out) ← lift (negotiate input (stream s));
  if supported : bool then
    _ ← modify (set_stream out);
    serve_messages (read_messages (S (length (incoming input))) input)
  else modify (set_stream out).
(** Fields that are dropped with the session. *)
Definition drop_session : Sess unit :=
  s ← get_state;
  _ ← modify (set_cursor None);
  _ ← modify (set_transaction None);
  _ ← match cursor s with Some c => drop_cursor c | None => mret tt end;
  drop_transaction (transaction s).

(** A whole connection: a session for as long as it is served. *)
Definition serve_authenticated_transport (connection : Z) (input : Stream) (out : Sink) : Session * Result unit :=
  let '(s, result) := serve input (BoltSession_new connection out) in
  ((drop_session s).1, result).
End session.
