(* ===== verification/BoltSessionTheorems.v ===== *)
(** * Sessions keep their engagements and answer every message

    An automaton says which calls to the engine may follow which
    ([Engagement]): a query runs alone, in the open transaction or in none; a
    transaction is committed only while open, which a query that failed or was
    not read to its end spoils; and it is settled once.  The history of a
    session is a run of the automaton in every engine that keeps its contract,
    and when the connection ends nothing is left engaged.  Every message is
    answered by its records and one summary message. *)

From stdpp Require Import prelude gmap strings sorting.
From Stdlib Require Import ZArith Lia.
From S2P Require Import Prelude Machine Types Bolt BoltTheorems BoltDecode BoltFraming BoltTyped BoltTypedTheorems BoltParameters QueryEvents Actions BoltCursor BoltCursorTheorems BoltSession.

Local Open Scope Z_scope.

(** ** The engine's side *)

Inductive Engagement :=
| Unengaged
| Querying (token : Z) (transaction : option Z)
| Open (transaction : Z)
| Spoiled (transaction : Z).

(** What the end of a query leaves of the transaction it ran in. *)
Definition after_query (transaction : option Z) (completed : bool) : Engagement :=
  match transaction with
  | None => Unengaged
  | Some t => if completed then Open t else Spoiled t
  end.

Definition engage (e : Engagement) (call : Call) : option Engagement :=
  match call, e with
  | CancelRequested _, e => Some e
  | Began t _ _ _, Unengaged => Some (Open t)
  | BeginRefused, Unengaged => Some Unengaged
  | Started token None _, Unengaged => Some (Querying token None)
  | Started token (Some t) _, Open t' => if t =? t' then Some (Querying token (Some t)) else None
  | Joined token cancelled succeeded, Querying token' owner =>
      if token =? token' then Some (after_query owner (negb cancelled && succeeded)) else None
  | Abandoned token owner, Querying token' owner' =>
      if (token =? token') && bool_decide (owner = owner') then Some Unengaged else None
  | Committed t, Open t' => if t =? t' then Some Unengaged else None
  | RolledBack t, (Open t' | Spoiled t') => if t =? t' then Some Unengaged else None
  | Dropped t, (Open t' | Spoiled t') => if t =? t' then Some Unengaged else None
  | _, _ => None
  end.

Definition traces (calls : list Call) (e : Engagement) : Prop :=
  foldl (λ e call, e ≫= λ e, engage e call) (Some Unengaged) calls = Some e.

Lemma traces_snoc calls e call e' : traces calls e → engage e call = Some e' → traces (calls ++ [call]) e'.
Proof. unfold traces. rewrite foldl_app. by intros ->. Qed.

Lemma traces_cancels calls e tokens : traces calls e → traces (calls ++ map CancelRequested tokens) e.
Proof.
  intros He. induction tokens as [|token tokens IH] using rev_ind; [by rewrite app_nil_r|].
  rewrite map_app, (assoc_L (++)). by eapply traces_snoc.
Qed.

(** ** What the session writes *)

Definition sent (out out' : Sink) (payloads : list bytes) : Prop :=
  written out' = written out ++ concat (map frame payloads)
  ∧ accepts out' = accepts out - zlen (concat (map frame payloads)) ∧ broken out' = broken out.

Definition is_record (payload : bytes) : Prop := ∃ rest, payload = 177 :: 113 :: rest.
Definition is_success (payload : bytes) : Prop := ∃ rest, payload = 177 :: 112 :: rest.
Definition is_failure (payload : bytes) : Prop := ∃ rest, payload = 177 :: 127 :: rest.
Definition is_ignored (payload : bytes) : Prop := payload = [176; 126].
Definition is_summary (payload : bytes) : Prop := is_success payload ∨ is_failure payload ∨ is_ignored payload.

Lemma sent_nil out : sent out out [].
Proof. split_and!; [by rewrite app_nil_r|change (zlen (concat (map frame []))) with 0; lia|done]. Qed.

Lemma sent_trans out out1 out2 ps qs : sent out out1 ps → sent out1 out2 qs → sent out out2 (ps ++ qs).
Proof.
  intros (W1 & A1 & B1) (W2 & A2 & B2). unfold sent. rewrite map_app, concat_app, zlen_app. split_and!.
  - by rewrite W2, W1, (assoc_L (++)).
  - lia.
  - congruence.
Qed.

(** What an engine promises of the events of a query: the counts and sizes of
    their Rust types, and that a summary or an error ends them. *)
Class QueryEngineSpec `{QueryEngine} : Prop := {
  emits_wf h r : Forall (λ event, event_wf event ∧ event_sized event = true) (emits h r);
  emits_end h r : short (emits h r);
}.

Section sessions.
Context `{Timezones} `{QueryEngine}.
Implicit Types s : Session.

(** The messages were sent, or the peer takes no more. *)
Definition replies (out out' : Sink) (payloads : list bytes) : Prop := sent out out' payloads ∨ accepts out' = 0.

Lemma write_encoded_runs p s (Q : unit → Session → Prop) (F : Error → Session → Prop) :
  (∀ out, sent (stream s) out [p] → Q tt (set_stream out s)) →
  (∀ e out, accepts out = 0 → F e (set_stream out s)) →
  runs False (write_encoded p) Q F s.
Proof.
  intros HQ HF. unfold runs, write_encoded. rewrite write_encoded_frame. unfold write_all.
  destruct (zlen (frame p) <=? accepts (stream s)); [|by apply HF].
  apply HQ. unfold sent. cbn [map concat]. rewrite app_nil_r. by split_and!.
Qed.

Lemma write_owned_runs v s (Q : unit → Session → Prop) (F : Error → Session → Prop) :
  (∀ out p, encode_packstream v [] = Ok p → sent (stream s) out [p] → Q tt (set_stream out s)) →
  (∀ e out, accepts out = 0 ∨ out = stream s → F e (set_stream out s)) →
  runs False (write_owned v) Q F s.
Proof.
  intros HQ HF. unfold write_owned. apply runs_bind, runs_lift. pose proof (encode_returns v []) as Hr.
  destruct (encode_packstream v []) as [p|e|w] eqn:E; [| |done].
  - apply write_encoded_runs; [by eauto|auto].
  - replace s with (set_stream (stream s) s) by (by destruct s). apply HF. by right.
Qed.
(** ** The invariant *)

Definition cursor_ok (c : BoltCursor) (owner : option Z) : Prop :=
  worker c = Some (mkWorker owner) ∧ ∃ rows summary, holds c rows summary.

(** The cursor and the transaction a session holds are its engagement. *)
Definition held_ok (s : Session) (e : Engagement) : Prop :=
  match cursor s, transaction s with
  | Some c, None => ∃ owner, e = Querying (cursor_token c) owner ∧ cursor_ok c owner
                      ∧ stream_return_state s = match owner with Some _ => Transaction | None => Ready end
  | None, Some t => e = Open t ∨ e = Spoiled t
  | None, None => e = Unengaged
  | Some _, Some _ => False
  end.

Definition state_ok (s : Session) (e : Engagement) : Prop :=
  match state s with
  | Authentication | Ready | Closed => e = Unengaged
  | Streaming => ∃ token owner, e = Querying token owner
  | Transaction => ∃ t, e = Open t
  | Failed => True
  end.

Definition engaged (s : Session) (e : Engagement) : Prop := traces (history s) e ∧ held_ok s e.
Definition coherent (s : Session) : Prop := ∃ e, engaged s e.
Definition inv (s : Session) : Prop := ∃ e, engaged s e ∧ state_ok s e.

(** Changes of the interrupt registry, the stream and the cancelled tokens. *)
Definition quiet (s s' : Session) : Prop :=
  state s' = state s ∧ cursor s' = cursor s ∧ transaction s' = transaction s
  ∧ stream_return_state s' = stream_return_state s
  ∧ ∃ tokens, history s' = history s ++ map CancelRequested tokens.

Lemma quiet_same s s' :
  state s' = state s → cursor s' = cursor s → transaction s' = transaction s →
  stream_return_state s' = stream_return_state s → history s' = history s → quiet s s'.
Proof. intros ? ? ? ? E. split_and!; [done..|]. exists []. by rewrite E, app_nil_r. Qed.

Lemma quiet_refl s : quiet s s.
Proof. by apply quiet_same. Qed.

Lemma quiet_trans s s1 s2 : quiet s s1 → quiet s1 s2 → quiet s s2.
Proof.
  intros (? & ? & ? & ? & ts & E) (? & ? & ? & ? & us & E'). split_and!; [congruence..|].
  exists (ts ++ us). by rewrite E', E, map_app, (assoc_L (++)).
Qed.

Lemma quiet_engaged s s' e : quiet s s' → engaged s e → engaged s' e.
Proof.
  intros (Es & Ec & Et & Er & tokens & Eh) [Ht Hh]. split; [rewrite Eh; by apply traces_cancels|].
  unfold held_ok in *. by rewrite Ec, Et, Er.
Qed.

Lemma quiet_coherent s s' : quiet s s' → coherent s → coherent s'.
Proof. intros Hq [e He]. exists e. by eapply quiet_engaged. Qed.

Lemma quiet_inv s s' : quiet s s' → inv s → inv s'.
Proof.
  intros Hq (e & He & Hs). exists e. split; [by eapply quiet_engaged|].
  unfold state_ok in *. destruct Hq as (-> & _). exact Hs.
Qed.

Lemma inv_coherent s : inv s → coherent s.
Proof. intros (e & He & _). by exists e. Qed.

Lemma quiet_stream s out : quiet s (set_stream out s).
Proof. by apply quiet_same. Qed.

(** Quiet actions, which also leave the stream alone. *)
Definition silent (m : Sess unit) : Prop :=
  ∀ s, runs False m (λ _ s', quiet s s' ∧ stream s' = stream s) (λ _ _, False) s.

Lemma silent_runs m s (Q : unit → Session → Prop) (F : Error → Session → Prop) :
  silent m → (∀ s', quiet s s' → stream s' = stream s → Q tt s') → runs False m Q F s.
Proof. intros Hm HQ. eapply runs_mono; [apply Hm| |done]. intros [] s' [? ?]. by apply HQ. Qed.

Lemma cancel_silent token : silent (cancel token).
Proof. intros s. apply runs_modify. split; [|done]. split_and!; [done..|]. by exists [token]. Qed.

Lemma cancel_active_silent : silent cancel_active.
Proof.
  intros s. unfold cancel_active. apply runs_bind, runs_get.
  destruct (active (interrupt s)); [apply cancel_silent|apply runs_ret; split; [apply quiet_refl|done]].
Qed.

Lemma clear_silent : silent clear.
Proof. intros s. apply runs_bind, runs_get, runs_modify. split; [by apply quiet_same|done]. Qed.

Lemma acknowledge_silent : silent acknowledge_reset.
Proof. intros s. apply runs_bind, runs_get, runs_modify. split; [by apply quiet_same|done]. Qed.

Lemma activate_silent token : silent (activate token).
Proof.
  intros s. apply runs_bind, runs_get, runs_bind, runs_modify.
  destruct (reset_pending (interrupt s)); [|apply runs_ret; split; [by apply quiet_same|done]].
  apply silent_runs; [apply cancel_silent|]. intros s' Hq Hs. by split; [exact Hq|].
Qed.

Lemma signal_silent : silent signal_reset.
Proof.
  intros s. apply runs_bind, runs_get, runs_bind, runs_modify.
  apply silent_runs; [apply cancel_active_silent|]. intros s' Hq Hs. by split; [exact Hq|].
Qed.

Lemma reader_silent steps : silent (reader_steps steps).
Proof.
  induction steps as [|step steps IH]; intros s; [apply runs_ret; split; [apply quiet_refl|done]|].
  destruct step; cbn [reader_steps]; apply runs_bind, silent_runs; try apply signal_silent; try apply cancel_active_silent.
  all: intros s1 Hq Hs; apply silent_runs; [apply IH|]; intros s2 Hq2 Hs2; split; [by eapply quiet_trans|congruence].
Qed.
(** ** The end of a cursor *)

Definition kept (s s' : Session) : Prop :=
  state s' = state s ∧ cursor s' = cursor s ∧ transaction s' = transaction s
  ∧ stream_return_state s' = stream_return_state s ∧ stream s' = stream s.

Lemma cursor_finish_spec c owner cancelled s :
  worker c = Some (mkWorker owner) → traces (history s) (Querying (cursor_token c) owner) →
  cancelled = true ∨ zlen (receiver c) ≤ CURSOR_EVENT_CAPACITY →
  runs False (finish c cancelled)
    (λ k s', kept s s' ∧ completed_transaction k = owner ∧ completed_summary k = cursor_summary c
       ∧ returns (completed_result k) ∧ (∃ h r, joins h (cursor_token c) = inr r ∧ completed_result k = answered r)
       ∧ traces (history s') (after_query owner (negb cancelled && is_ok (completed_result k))))
    (λ _ s', kept s s' ∧ traces (history s') Unengaged ∧ ∃ h text, joins h (cursor_token c) = inl text) s.
Proof.
  intros Hw Ht Hc. unfold finish. apply runs_bind.
  apply (runs_mono _ _ (λ _ s', kept s s' ∧ traces (history s') (Querying (cursor_token c) owner)) _ (λ _ _, False)); [| |done].
  { destruct cancelled; [apply runs_modify|by apply runs_ret]. split; [done|]. by eapply traces_snoc. }
  intros [] s1 (Hk & Ht1). rewrite Hw.
  replace (negb cancelled && (CURSOR_EVENT_CAPACITY <? zlen (receiver c))) with false by (destruct Hc as [->|Hc]; [done|lia]).
  apply runs_bind, runs_get. cbn zeta. apply runs_bind, runs_modify, runs_bind, runs_modify.
  set (joined := joins (history s1) (cursor_token c)).
  assert (∀ b, traces ((history s1 ++ [Joined (cursor_token c) cancelled b]) ++ [CancelRequested (cursor_token c)])
    (after_query owner (negb cancelled && b))) as Hj.
  { intros b. eapply traces_snoc; [eapply traces_snoc; [exact Ht1|]|done]. cbn. by rewrite Z.eqb_refl. }
  destruct joined as [text|result] eqn:Hjoined.
  - assert (∃ h text, joins h (cursor_token c) = inl text) by by eexists _, _. apply runs_bind. destruct owner as [t|]; cbn [drop_transaction worker_transaction].
    + apply runs_modify, runs_lift. split_and!; [done| |done]. cbn. eapply traces_snoc; [apply Hj|]. cbn. rewrite andb_false_r. cbn. by rewrite Z.eqb_refl.
    + apply runs_ret, runs_lift. split_and!; [done|apply Hj|done].
  - apply runs_ret. split; [done|]. split_and!; [done|done|by destruct result as [e|[]]|by eexists _, _|].
    destruct result as [e|[]]; apply Hj.
Qed.

(** A session that has taken its cursor out. *)
Definition parted (s : Session) (c : BoltCursor) (owner : option Z) : Prop :=
  worker c = Some (mkWorker owner) ∧ cursor s = None ∧ transaction s = None
  ∧ traces (history s) (Querying (cursor_token c) owner)
  ∧ stream_return_state s = match owner with Some _ => Transaction | None => Ready end.

Lemma after_query_held s owner completed :
  cursor s = None → transaction s = owner → held_ok s (after_query owner completed).
Proof. intros Hc Ht. unfold held_ok. rewrite Hc, Ht. destruct owner; cbn; [destruct completed; auto|done]. Qed.

Lemma parted_same s c c' owner : parted s c owner → same_query c c' → parted s c' owner.
Proof. intros (Hw & ? & ? & Ht & ?) (_ & Q2 & _ & Q4). unfold parted. rewrite Q2, Q4. by split_and!. Qed.

Lemma abandon_spec {A} c owner e s :
  parted s c owner →
  runs False (abandon (A := A) c e) (λ _ _, False) (λ _ s', coherent s' ∧ stream s' = stream s) s.
Proof.
  intros (Hw & Hc & Ht & Htr & _). unfold abandon. apply runs_bind.
  eapply runs_mono; [apply cursor_finish_spec; [done..|by left]| |].
  - intros k s1 (Hk & Hown & _ & _ & _ & Htr1). destruct Hk as (K1 & K2 & K3 & K4 & K5).
    apply runs_bind, silent_runs; [apply clear_silent|]. intros s2 (Q1 & Q2 & Q3 & Q4 & tokens & Q5) Q6.
    apply runs_bind, runs_modify, runs_lift. split; [|cbn; congruence].
    exists (after_query owner false). split; [cbn; rewrite Q5; by apply traces_cancels|].
    apply after_query_held; [cbn; congruence|done].
  - intros _ s1 ((K1 & K2 & K3 & K4 & K5) & Htr1 & _). split; [|done]. exists Unengaged. split; [done|].
    unfold held_ok. by rewrite K2, K3, Hc, Ht.
Qed.

Lemma drop_cursor_spec c owner s :
  parted s c owner →
  runs False (drop_cursor c) (λ _ s', kept s s' ∧ traces (history s') Unengaged) (λ _ _, False) s.
Proof.
  intros (Hw & Hc & Ht & Htr & _). unfold drop_cursor. apply runs_bind, runs_modify. rewrite Hw. apply runs_modify.
  split; [done|]. cbn. eapply traces_snoc; [eapply traces_snoc; [exact Htr|done]|]. cbn.
  by rewrite Z.eqb_refl, bool_decide_true.
Qed.
(** ** Reading records *)

Lemma rows_of_length n cols : length (rows_of n cols) = n.
Proof. revert cols. induction n as [|n IH]; intros cols; [done|]. cbn. by rewrite IH. Qed.

Lemma stream_rows_length events : (length (stream_rows events) ≤ sum_list_with event_size events)%nat.
Proof.
  induction events as [|event events IH]; [done|].
  destruct event; cbn [stream_rows sum_list_with event_size length]; try lia. rewrite length_app, rows_of_length. lia.
Qed.

Lemma holds_size c rows summary : holds c rows summary → (length rows ≤ cursor_size c)%nat.
Proof.
  intros ((ready & Hready & ->) & _). apply Forall2_length in Hready. unfold cursor_size, encoded_rows, later_rows in *.
  rewrite !length_app, Hready, length_app. pose proof (stream_rows_length (receiver c)).
  destruct (batch c) as [b|]; cbn [length]; [unfold batch_rows; rewrite rows_of_length|]; destruct (terminal c); cbn [length]; lia.
Qed.

(** How many of the rows a request for [count] takes. *)
Definition taken (count : Z) (rows : list row) : nat := Z.to_nat (Z.min count (zlen rows)).

Lemma taken_zero rows : taken 0 rows = 0%nat.
Proof. unfold taken. pose proof (zlen_nonneg rows). lia. Qed.

Lemma taken_cons count r rows : 0 < count → taken count (r :: rows) = S (taken (count - 1) rows).
Proof. intros Hc. unfold taken. rewrite zlen_cons. pose proof (zlen_nonneg rows). lia. Qed.

(** What a request that read [count] of [rows] has done. *)
Definition consumed (deliver : bool) (count : Z) (c : BoltCursor) (rows : list row)
    (summary : option (list (bytes * PackStreamValue))) (s : Session) (r : BoltCursor * bool) (s' : Session) : Prop :=
  ∃ records out,
    Forall2 (λ r record, row_record r = Ok record) (firstn (taken count rows) rows) records
    ∧ holds r.1 (skipn (taken count rows) rows) summary ∧ same_query c r.1
    ∧ s' = set_stream out s ∧ sent (stream s) out (if deliver then records else [])
    ∧ r.2 = (zlen rows <? count) ∧ (r.2 = true → terminal r.1 = true)
    ∧ (orderly is_cancelled c rows → orderly is_cancelled r.1 (skipn (taken count rows) rows)).

(** Records were sent, but no summary: an error is on its way. *)
Definition partial (out out' : Sink) : Prop :=
  accepts out' = 0 ∨ ∃ records, Forall is_record records ∧ sent out out' records.

Lemma partial_sent out out1 out2 record : is_record record → sent out out1 [record] → partial out1 out2 → partial out out2.
Proof.
  intros Hr Hs [Hj|(records & Hrec & Hsent)]; [by left|right]. exists (record :: records). split; [by constructor|].
  by eapply (sent_trans _ _ _ [record]).
Qed.

Lemma set_stream_twice a b s : set_stream a (set_stream b s) = set_stream a s.
Proof. done. Qed.

Lemma consume_loop_spec fuel deliver count c rows summary owner s :
  holds c rows summary → parted s c owner → 0 ≤ count → (length rows < fuel)%nat →
  runs False (consume_loop fuel deliver count c) (consumed deliver count c rows summary s)
    (λ _ s', coherent s' ∧ partial (stream s) (stream s') ∧ (orderly is_cancelled c rows → accepts (stream s') = 0)) s.
Proof.
  revert count c rows s. induction fuel as [|fuel IH]; intros count c rows s Hh Hp Hc Hf; [lia|]. cbn [consume_loop].
  destruct (Z.eqb_spec count 0) as [->|Hne].
  { apply runs_ret. exists [], (stream s). rewrite taken_zero. cbn [firstn skipn fst snd]. split_and!; try done.
    - by destruct s.
    - destruct deliver; apply sent_nil.
    - pose proof (zlen_nonneg rows). symmetry. apply Z.ltb_ge. lia. }
  pose proof (next_record_spec is_cancelled c rows summary Hh) as Hn. unfold runs in Hn.
  pose proof (next_record_keeps is_cancelled c) as Hkeep.
  destruct (next_record is_cancelled c) as [c1 [[record|]|e|w]]; cbn [fst] in Hkeep.
  - destruct Hn as (Hq & _ & first & rest & -> & Hrec & Hh1 & Ho). apply runs_bind.
    assert (parted s c1 owner) as Hp1 by by eapply parted_same.
    assert (∀ out, sent (stream s) out (if deliver then [record] else []) →
      runs False (consume_loop fuel deliver (count - 1) c1) (consumed deliver count c (first :: rest) summary s)
        (λ _ s', coherent s' ∧ partial (stream s) (stream s') ∧ (orderly is_cancelled c (first :: rest) → accepts (stream s') = 0))
        (set_stream out s)) as Hgo.
    { intros out Hsent. cbn in Hf. eapply runs_mono; [apply (IH (count - 1) c1 rest (set_stream out s)); [done|done|lia|lia]| |].
      - intros [c2 ex] s2 (records & out2 & Hall & Hh2 & Hq2 & -> & Hs2 & Hex & Hterm & Ho2). cbn [fst snd] in *.
        exists (record :: records), out2. rewrite taken_cons by lia. cbn [firstn skipn fst snd]. split_and!; try done.
        + by constructor.
        + destruct Hq as (? & ? & ? & ?), Hq2 as (? & ? & ? & ?). split_and!; congruence.
        + cbn [stream set_stream] in Hs2. destruct deliver; [by eapply (sent_trans _ _ _ [record])|by eapply (sent_trans _ _ _ [])].
        + rewrite Hex, zlen_cons. apply Bool.eq_true_iff_eq. rewrite !Z.ltb_lt. lia.
        + auto.
      - intros e s2 (Hc2 & Hp2 & Hj). split_and!; [done| |auto]. cbn [stream set_stream] in Hp2.
        destruct deliver; [by eapply partial_sent; [eapply row_record_prefix| |]|].
        destruct Hp2 as [?|(records & ? & ?)]; [by left|right]. exists records. split; [done|]. by eapply (sent_trans _ _ _ []). }
    destruct deliver.
    + apply runs_attempt, write_encoded_runs; [intros out Hout; by apply Hgo|]. intros e out Hj.
      apply runs_bind. eapply runs_mono; [by apply (drop_cursor_spec c1 owner (set_stream out s))| |done].
      intros [] s2 ((K1 & K2 & K3 & K4 & K5) & Ht). apply runs_lift. rewrite K5. split_and!; [|by left|done].
      exists Unengaged. split; [done|]. unfold held_ok. rewrite K2, K3. cbn. destruct Hp as (_ & -> & -> & _). done.
    + apply runs_ret. replace s with (set_stream (stream s) s) by (by destruct s). apply Hgo. apply sent_nil.
  - destruct Hn as (Hq & _ & -> & Hh1 & Ht & _ & Ho). apply runs_ret. exists [], (stream s).
    replace (taken count []) with 0%nat by (unfold taken, zlen; cbn; lia). cbn [firstn skipn fst snd]. split_and!; try done.
    + by destruct s.
    + destruct deliver; apply sent_nil.
    + symmetry. apply Z.ltb_lt. unfold zlen; cbn; lia.
  - eapply runs_mono; [eapply abandon_spec; by eapply parted_same|done|]. intros _ s2 [Hc2 ->]. split_and!; [done| |by intros ?%Hn].
    right. exists []. split; [constructor|apply sent_nil].
  - done.
Qed.

(** ** Answers *)

(** A session past HELLO that goes on. *)
Definition authenticated (s : Session) : Prop := state s ≠ Closed ∧ state s ≠ Authentication.

Definition answers (s s' : Session) : Prop :=
  inv s' ∧ authenticated s'
  ∧ ∃ records summary, Forall is_record records ∧ is_summary summary ∧ sent (stream s) (stream s') (records ++ [summary]).

Definition refuses (s s' : Session) : Prop := coherent s' ∧ partial (stream s) (stream s').

Definition success (metadata : list (bytes * PackStreamValue)) : PackStreamValue := PackStructure 112 [PackMap metadata].

Lemma encoded_wire v p : encode_packstream v [] = Ok p → p = wire v.
Proof. intros Hp. pose proof (encode_wire v []) as He. destruct (pack_fits v); [rewrite He in Hp; by injection Hp as <-|destruct He as (e & ? & _); congruence]. Qed.

Lemma success_prefix metadata p : encode_packstream (success metadata) [] = Ok p → is_success p.
Proof. intros ->%encoded_wire. by eexists. Qed.

(** Ending a request with SUCCESS. *)
Lemma write_success_runs s s1 records metadata (Q : Session → Prop) (F : Error → Session → Prop) :
  sent (stream s) (stream s1) records → Forall is_record records → coherent s1 →
  (∀ out p, encode_packstream (success metadata) [] = Ok p → is_success p →
     sent (stream s) out (records ++ [p]) → Q (set_stream out s1)) →
  (∀ e out, refuses s (set_stream out s1) →
     accepts out = 0 ∨ pack_fits (success metadata) = false → F e (set_stream out s1)) →
  runs False (write_success metadata) (λ _ s', Q s') F s1.
Proof.
  intros Hs Hr Hc HQ HF. unfold write_success, write_owned. apply runs_bind, runs_lift.
  pose proof (encode_wire (success metadata) []) as He. fold (success metadata).
  destruct (pack_fits (success metadata)) eqn:Hf.
  - rewrite He. apply write_encoded_runs.
    + intros out Hout. apply (HQ out _ He); [by eapply success_prefix|by eapply sent_trans].
    + intros e out Hout. apply HF; [|by left]. split; [|by left]. by eapply quiet_coherent, Hc; apply quiet_stream.
  - destruct He as (e & He & _). rewrite He. replace s1 with (set_stream (stream s1) s1) by (by destruct s1).
    apply HF; [|by right]. split; [by eapply quiet_coherent, Hc; apply quiet_stream|]. right. by exists records.
Qed.

Lemma records_prefix rows records :
  Forall2 (λ r record, row_record r = Ok record) rows records → Forall is_record records.
Proof. induction 1 as [|r record rows records Hr _ IH]; constructor; [by eapply row_record_prefix|done]. Qed.

(** Whether a request for [count] sees the end of [rows]. *)
Definition ends (count : Z) (rows : list row) : bool :=
  (zlen rows <? count) || (negb (count =? usize_max) && (zlen rows =? count)).

Lemma taken_all count rows : zlen rows ≤ count → skipn (taken count rows) rows = [].
Proof. intros Hl. apply skipn_all2. unfold taken. unfold zlen in *. lia. Qed.

Lemma taken_rest count rows : 0 ≤ count < zlen rows → skipn (taken count rows) rows ≠ [].
Proof. intros Hl E. apply (f_equal length) in E. rewrite length_skipn in E. unfold taken, zlen in *. cbn in E. lia. Qed.

(** Where PULL or DISCARD leaves a session whose cursor was to deliver [rows]. *)
Definition read_on (deliver : bool) (count : Z) (c : BoltCursor) (rows : list row)
    (summary : option (list (bytes * PackStreamValue))) (s s' : Session) : Prop :=
  inv s' ∧ authenticated s' ∧ ∃ records p,
    Forall2 (λ r record, row_record r = Ok record) (firstn (taken count rows) rows) records
    ∧ sent (stream s) (stream s') ((if deliver then records else []) ++ [p])
    ∧ if ends count rows then
        state s' = stream_return_state s ∧ cursor s' = None
        ∧ ∃ sm, summary = Some sm
          ∧ encode_packstream (success (btree_insert (lit "has_more") (PackBoolean false) sm).2) [] = Ok p
      else
        state s' = Streaming ∧ stream_return_state s' = stream_return_state s
        ∧ encode_packstream (success [(lit "has_more", PackBoolean true)]) [] = Ok p
        ∧ ∃ c', cursor s' = Some c' ∧ same_query c c' ∧ holds c' (skipn (taken count rows) rows) summary
          ∧ (orderly is_cancelled c rows → orderly is_cancelled c' (skipn (taken count rows) rows)).

(** Why a request to read an orderly cursor fails: the peer stopped reading, or
    at the end the query's thread failed or its summary cannot be sent. *)
Definition read_fails (count : Z) (c : BoltCursor) (rows : list row)
    (summary : option (list (bytes * PackStreamValue))) (s' : Session) : Prop :=
  accepts (stream s') = 0
  ∨ ends count rows = true
    ∧ ((∃ h, joins h (cursor_token c) ≠ inr (inr tt))
       ∨ match summary with
         | None => True
         | Some sm => pack_fits (success (btree_insert (lit "has_more") (PackBoolean false) sm).2) = false
         end).

Lemma finish_reading_spec c owner summary recs s s2 :
  parted s2 c owner → holds c [] summary → terminal c = true →
  sent (stream s) (stream s2) recs → Forall is_record recs →
  runs False (finish_reading c)
    (λ _ s', inv s' ∧ authenticated s' ∧ state s' = stream_return_state s2 ∧ cursor s' = None
       ∧ ∃ sm p, summary = Some sm ∧ sent (stream s) (stream s') (recs ++ [p])
         ∧ encode_packstream (success (btree_insert (lit "has_more") (PackBoolean false) sm).2) [] = Ok p)
    (λ _ s', refuses s s' ∧ (accepts (stream s') = 0
       ∨ (∃ h, joins h (cursor_token c) ≠ inr (inr tt))
       ∨ match summary with
         | None => True
         | Some sm => pack_fits (success (btree_insert (lit "has_more") (PackBoolean false) sm).2) = false
         end)) s2.
Proof.
  intros (Hw & Hc & Ht & Htr & Hret) (_ & _ & _ & Hsum & _ & Hshort) Hterm Hsent Hrecs. rewrite Hterm in *.
  unfold finish_reading. apply runs_bind. eapply runs_mono; [apply cursor_finish_spec; [done..|by right]| |].
  2: { intros _ s3 ((K1 & K2 & K3 & K4 & K5) & Htr3 & h & text & Hj). split; [|right; left; exists h; by rewrite Hj]. split.
       - exists Unengaged. split; [done|]. unfold held_ok. by rewrite K2, K3, Hc, Ht.
       - rewrite K5. right. by exists recs. }
  intros k s3 ((K1 & K2 & K3 & K4 & K5) & Hown & Hks & Hkr & (h & r & Hj & Hkres) & Htr3).
  apply runs_bind, silent_runs; [apply clear_silent|]. intros s4 (Q1 & Q2 & Q3 & Q4 & tokens & Q5) Q6.
  apply runs_bind, runs_modify, runs_bind, runs_lift.
  assert (engaged (set_transaction (completed_transaction k) s4) (after_query owner (is_ok (completed_result k)))) as He.
  { split; [cbn; rewrite Q5; by apply traces_cancels|]. apply after_query_held; [cbn; congruence|done]. }
  destruct (completed_result k) as [[]|e|w] eqn:Er; [| |done].
  2: { split; [split; [by eexists|]|right; left; exists h; rewrite Hj; destruct r as [?|[]]; [done|cbn in Hkres; congruence]].
       cbn. rewrite Q6, K5. right. by exists recs. }
  cbn [is_ok] in He. apply runs_bind, runs_get, runs_bind, runs_modify.
  set (s5 := set_state _ _). assert (inv s5) as Hinv.
  { exists (after_query owner true). split; [exact He|]. unfold state_ok, s5. cbn. rewrite Q4, K4, Hret.
    destruct owner as [t|]; cbn; [by exists t|done]. }
  apply runs_bind, runs_lift. rewrite Hks, <- Hsum. destruct summary as [sm|]; cbn [ok_or].
  2: { split; [split; [by apply inv_coherent|]|by auto]. cbn. rewrite Q6, K5. right. by exists recs. }
  apply (write_success_runs s s5 recs).
  - cbn. by rewrite Q6, K5.
  - done.
  - by apply inv_coherent.
  - intros out p Hp _ Hs. split_and!; [by eapply quiet_inv, Hinv; apply quiet_stream| |cbn; congruence|cbn; congruence|by exists sm, p].
    unfold authenticated. cbn. rewrite Q4, K4, Hret. by destruct owner.
  - intros e out Href [Hj'|Hf]; split; auto.
Qed.

Lemma consume_cursor_spec deliver count c rows summary owner s :
  state s = Streaming → cursor s = Some c → engaged s (Querying (cursor_token c) owner) → cursor_ok c owner →
  holds c rows summary → 0 ≤ count →
  runs False (consume_cursor deliver count) (λ _ s', read_on deliver count c rows summary s s')
    (λ _ s', refuses s s' ∧ (orderly is_cancelled c rows → read_fails count c rows summary s')) s.
Proof.
  intros Hst Hcur [Htr Hheld] [Hw _] Hh Hcount. unfold consume_cursor. apply runs_bind, runs_get. rewrite Hcur.
  unfold held_ok in Hheld. rewrite Hcur in Hheld. destruct (transaction s) as [t|] eqn:Htx; [done|].
  destruct Hheld as (owner' & [= <-] & _ & Hret).
  apply runs_bind, runs_lift. cbn [ok_or]. apply runs_bind, runs_modify, runs_bind.
  set (s1 := set_cursor None s). assert (parted s1 c owner) as Hp by by split_and!.
  eapply runs_mono; [apply (consume_loop_spec _ deliver count c rows summary owner s1 Hh Hp Hcount)| |].
  { pose proof (holds_size _ _ _ Hh). lia. }
  2: { intros _ s2 (Hc2 & Hp2 & Hj). split; [by split|]. intros Ho. left. by apply Hj. }
  intros [c2 ex] s2 (records & out & Hall & Hh2 & Hq2 & -> & Hsent & Hex & Hterm & Hord). cbn [fst snd] in *.
  assert (parted (set_stream out s1) c2 owner) as Hp2 by (eapply parted_same; [exact Hp|done]).
  set (rest := skipn (taken count rows) rows) in *. set (recs := if deliver then records else []) in *.
  assert (Forall is_record recs) as Hrecs by (unfold recs; destruct deliver; [by eapply records_prefix|constructor]).
  apply runs_bind.
  apply (runs_mono _ _ (λ p s', s' = set_stream out s1 ∧ same_query c p.1 ∧ holds p.1 rest summary
      ∧ p.2 = ends count rows ∧ (p.2 = true → terminal p.1 = true) ∧ (orderly is_cancelled c rows → orderly is_cancelled p.1 rest))
    _ (λ _ s', refuses s s' ∧ ¬ orderly is_cancelled c rows)).
  { unfold ends. rewrite <- Hex. destruct ex; cbn [negb andb orb]; [by apply runs_ret|].
    destruct (Z.eqb_spec count usize_max) as [Emax|Nmax]; cbn [negb]; [by apply runs_ret|].
    pose proof (has_more_spec is_cancelled c2 rest summary Hh2) as Hm. pose proof (has_more_keeps is_cancelled c2) as Hk. unfold runs in Hm.
    destruct (has_more is_cancelled c2) as [c3 [more|e|w]]; cbn [fst] in Hk; [| |done].
    - destruct Hm as (Hq3 & Hh3 & -> & Ho3 & Ht3). apply runs_ret. cbn [fst snd]. split_and!; [done| |done| | |auto].
      + destruct Hq2 as (? & ? & ? & ?), Hq3 as (? & ? & ? & ?). split_and!; congruence.
      + rewrite negb_involutive. symmetry in Hex. apply Z.ltb_ge in Hex. cbn [andb].
        destruct (Z.eqb_spec (zlen rows) count); [rewrite bool_decide_true; [done|]; apply taken_all; lia|].
        rewrite bool_decide_false; [done|]. apply taken_rest. lia.
      + intros ?%negb_true_iff. by apply Ht3.
    - eapply runs_mono; [eapply abandon_spec; by eapply parted_same|done|]. intros _ s3 [Hc3 Hs3]. split; [|auto].
      split; [done|]. rewrite Hs3. right. by exists recs. }
  2: { intros _ s3 [Href Hno]. split; [done|]. by intros ?%Hno. }
  intros [c3 ex3] s3 (-> & Hq3 & Hh3 & Hex3 & Ht3 & Ho3). cbn [fst snd] in *. unfold read_on. rewrite <- Hex3.
  assert (parted (set_stream out s1) c3 owner) as Hp3 by (eapply parted_same; [exact Hp|done]).
  destruct ex3.
  - assert (rest = []) as Hrest.
    { apply taken_all. unfold ends in Hex3. lia. }
    rewrite Hrest in Hh3. eapply runs_mono; [eapply (finish_reading_spec c3 owner summary recs s); [done|done|by apply Ht3|done|done]| |].
    + intros [] s4 (Hi & Hncl & Hst4 & Hc4 & sm & p & -> & Hs4 & Henc). split; [done|]. split; [done|]. exists records, p. split_and!; try done. by exists sm.
    + intros _ s4 [Href Hwhy]. split; [done|]. intros _. destruct Hq3 as (_ & Q2 & _). rewrite Q2 in Hwhy.
      destruct Hwhy as [?|Hwhy]; [by left|right]. by split.
  - apply runs_bind, runs_modify. set (s5 := set_cursor (Some c3) (set_stream out s1)).
    assert (inv s5) as Hinv.
    { exists (Querying (cursor_token c) owner). destruct Hq3 as (_ & Q2 & _ & Q4). split; [split|].
      - exact Htr.
      - unfold held_ok. cbn. rewrite Htx. exists owner. rewrite Q2. split_and!; [done| |done]. split; [congruence|by exists rest, summary].
      - unfold state_ok. cbn. rewrite Hst. by eexists _, _. }
    apply (write_success_runs s s5 recs).
    + done.
    + done.
    + by apply inv_coherent.
    + intros out5 p Hp5 _ Hs5. split; [by eapply quiet_inv, Hinv; apply quiet_stream|]. split; [unfold authenticated; cbn; by rewrite Hst|]. exists records, p. split_and!; try done. by exists c3.
    + intros e out5 Href [?|Hf]; split; try done. intros _. by left.
Qed.
(** ** Requests *)

Definition handler (m : Sess unit) : Prop :=
  ∀ s, inv s → runs False m (λ _ s', answers s s') (λ _ s', refuses s s') s.

Lemma runs_pure {A} (m : Result A) (Q : A → Session → Prop) (F : Error → Session → Prop) s :
  returns m → (∀ a, m = Ok a → Q a s) → (∀ e, F e s) → runs False (lift m) Q F s.
Proof. intros Hr HQ HF. apply runs_lift. destruct m; [by apply HQ|apply HF|done]. Qed.

Lemma refuses_refl s : inv s → refuses s s.
Proof. intros Hi. split; [by apply inv_coherent|]. right. exists []. split; [constructor|apply sent_nil]. Qed.

Lemma reject_returns values allowed m : returns (reject_unknown_keys values allowed m).
Proof. unfold reject_unknown_keys. by destruct (list_find _ values) as [[? [? ?]]|]. Qed.

Lemma as_map_returns v : returns (as_map v).
Proof. by destruct v. Qed.

(** [fields[i]] after the check of their number. *)
Lemma field_runs {A} fields i n (f : PackStreamValue → Result A) (Q : A → Session → Prop) (F : Error → Session → Prop) s :
  zlen fields = n → 0 ≤ i < n → (∀ v, returns (f v)) → (∀ a, Q a s) → (∀ e, F e s) →
  runs False (lift (field ← index_at fields i; f field)) Q F s.
Proof.
  intros Hl Hi Hf HQ HF. unfold index_at, get.
  replace (i <? 0) with false by lia.
  destruct (lookup_lt_is_Some_2 fields (Z.to_nat i)) as [v Hv]; [unfold zlen in *; lia|]. rewrite Hv. cbn.
  by apply runs_pure; [apply Hf|..].
Qed.

Lemma fetch_count_spec metadata m tx :
  posts (λ _, True) (fetch_count metadata m tx) (λ n, 0 < n).
Proof.
  unfold fetch_count. eapply (posts_bind _ _ _ (λ _, True)).
  { destruct (btree_get (lit "qid") metadata) as [v|]; [|done]. by destruct v. }
  intros qid _. destruct (negb tx && bool_decide (is_Some qid)); [done|].
  destruct (match qid with Some _ => _ | None => false end); [done|].
  eapply (posts_bind _ _ _ (λ _, True)); [by destruct (btree_get (lit "n") metadata)|]. intros v _.
  eapply (posts_bind _ _ _ (λ _, True)); [by destruct v|]. intros n _.
  destruct ((n =? 0) || (n <? -1)) eqn:E; [done|]. destruct (Z.eqb_spec n (-1)); [done|].
  unfold usize_try_from. case_match; [cbn; lia|done].
Qed.

Lemma inv_streaming s : inv s → state s = Streaming →
  ∃ c owner rows summary, cursor s = Some c ∧ engaged s (Querying (cursor_token c) owner) ∧ cursor_ok c owner
    ∧ holds c rows summary.
Proof.
  intros (e & [Htr Hh] & Hs) Est. unfold state_ok in Hs. rewrite Est in Hs. destruct Hs as (token & owner & ->).
  pose proof Hh as Hh'. unfold held_ok in Hh'. destruct (cursor s) as [c|], (transaction s) as [t|]; try done.
  - destruct Hh' as (owner' & [= -> <-] & Hc & _). destruct (proj2 Hc) as (rows & summary & Hrows).
    exists c, owner, rows, summary. by split_and!.
  - by destruct Hh'.
Qed.

Lemma read_on_answers deliver count c rows summary s s' : read_on deliver count c rows summary s s' → answers s s'.
Proof.
  intros (Hi & Hn & records & p & Hall & Hs & Hp). split; [done|]. split; [done|]. exists (if deliver then records else []), p. split_and!; [|left|done].
  - destruct deliver; [by eapply records_prefix|constructor].
  - destruct (ends count rows); [destruct Hp as (_ & _ & sm & _ & Hp)|destruct Hp as (_ & _ & Hp & _)]; by eapply success_prefix.
Qed.

Lemma consume_handler m deliver fields : handler (consume m deliver fields).
Proof.
  intros s Hi. pose proof (refuses_refl s Hi) as Hr. unfold consume. apply runs_bind, runs_get.
  destruct (negb (bool_decide (state s = Streaming)) || negb (zlen fields =? 1)) eqn:E; [by apply runs_lift|].
  apply orb_false_iff in E as [Est%negb_false_iff%bool_decide_eq_true El%negb_false_iff%Z.eqb_eq].
  apply runs_bind. eapply field_runs; [done|lia|apply as_map_returns| |done]. intros metadata.
  apply runs_bind, runs_pure; [apply reject_returns| |done]. intros _ _.
  apply runs_bind, runs_lift. pose proof (fetch_count_spec metadata m (bool_decide (stream_return_state s = Transaction))) as Hc.
  destruct (fetch_count _ _ _) as [count|e|w]; [|done..]. cbn in Hc.
  destruct (inv_streaming s Hi Est) as (c & owner & rows & summary & ? & ? & ? & ?).
  eapply runs_mono; [eapply consume_cursor_spec; try done; lia| |].
  - intros [] s'. apply read_on_answers.
  - by intros e s' [? _].
Qed.
Lemma success_answers s s1 metadata :
  inv s1 → authenticated s1 → stream s1 = stream s →
  runs False (write_success metadata) (λ _ s', answers s s') (λ _ s', refuses s s') s1.
Proof.
  intros Hi Hn Hs. apply (write_success_runs s s1 []); [rewrite Hs; apply sent_nil|constructor|by apply inv_coherent| |done].
  intros out p _ Hp Hsent. split; [by eapply quiet_inv, Hi; apply quiet_stream|]. split; [exact Hn|]. exists [], p. split_and!; [constructor|by left|done].
Qed.

Lemma unengaged_held s : held_ok s Unengaged → cursor s = None ∧ transaction s = None.
Proof. unfold held_ok. destruct (cursor s), (transaction s); try done; [by intros (? & ? & _)|by intros [?|?]]. Qed.

(** Between requests nothing is engaged outside a transaction. *)
Lemma inv_rest s : inv s → state s = Authentication ∨ state s = Ready ∨ state s = Closed →
  engaged s Unengaged ∧ cursor s = None ∧ transaction s = None.
Proof.
  intros (e & He & Hs) Est. assert (e = Unengaged) as -> by (unfold state_ok in Hs; by destruct Est as [E|[E|E]]; rewrite E in Hs).
  split; [done|]. by apply unengaged_held, He.
Qed.

Lemma inv_open s : inv s → state s = Transaction →
  ∃ t, engaged s (Open t) ∧ cursor s = None ∧ transaction s = Some t.
Proof.
  intros (e & He & Hs) Est. unfold state_ok in Hs. rewrite Est in Hs. destruct Hs as [t ->]. exists t. split; [done|].
  destruct He as [_ Hh]. unfold held_ok in Hh. destruct (cursor s), (transaction s); try done; [by destruct Hh as (? & ? & _)|].
  destruct Hh as [[= ->]|?]; done.
Qed.

(** Nothing held and nothing engaged. *)
Lemma rest_inv s :
  traces (history s) Unengaged → cursor s = None → transaction s = None →
  state s = Authentication ∨ state s = Ready ∨ state s = Closed ∨ state s = Failed → inv s.
Proof.
  intros Ht Hc Htx Hs. exists Unengaged. split; [split; [done|]; unfold held_ok; by rewrite Hc, Htx|].
  unfold state_ok. by destruct Hs as [E|[E|[E|E]]]; rewrite E.
Qed.

Lemma rest_coherent s : traces (history s) Unengaged → cursor s = None → transaction s = None → coherent s.
Proof. intros Ht Hc Htx. exists Unengaged. split; [done|]. unfold held_ok. by rewrite Hc, Htx. Qed.

Lemma hello_handler fields : handler (hello fields).
Proof.
  intros s Hi. pose proof (refuses_refl s Hi) as Hr. unfold hello. apply runs_bind, runs_get.
  destruct (negb (bool_decide (state s = Authentication)) || negb (zlen fields =? 1)) eqn:E; [by apply runs_lift|].
  apply orb_false_iff in E as [Est%negb_false_iff%bool_decide_eq_true El%negb_false_iff%Z.eqb_eq].
  apply runs_bind. eapply field_runs; [done|lia|apply as_map_returns| |done]. intros metadata.
  apply runs_bind, runs_pure; [apply reject_returns| |done]. intros _ _.
  apply runs_bind, runs_pure; [apply ok_or_returns| |done]. intros _ _.
  apply runs_bind, runs_pure; [by repeat case_match| |done]. intros _ _.
  case_match; [by apply runs_lift|].
  apply runs_bind, runs_pure; [by repeat case_match| |done]. intros _ _.
  apply runs_bind, runs_modify. destruct (inv_rest s Hi) as ([Ht _] & Hc & Htx); [by left|].
  apply success_answers; [|done|done]. apply rest_inv; cbn; auto.
Qed.

Lemma route_handler fields : handler (route fields).
Proof.
  intros s Hi. pose proof (refuses_refl s Hi) as Hr. unfold route. apply runs_bind, runs_get.
  destruct (negb (bool_decide (state s = Ready)) || negb (zlen fields =? 3)) eqn:E; [by apply runs_lift|].
  apply orb_false_iff in E as [Est%negb_false_iff%bool_decide_eq_true El%negb_false_iff%Z.eqb_eq].
  apply runs_bind. eapply field_runs; [done|lia|apply as_map_returns| |done]. intros routing.
  apply runs_bind, runs_pure; [| |done].
  { unfold optional. destruct (get fields 2) as [v|]; [by destruct v|done]. }
  intros extra _. cbn zeta. destruct (btree_get (lit "address") routing ≫= as_string_ref); [|by apply runs_lift].
  apply success_answers; [done|unfold authenticated; by rewrite Est|done].
Qed.

Lemma project_runs extra (Q : option Z → Session → Prop) (F : Error → Session → Prop) s :
  (∀ p, Q p s) → (∀ e, F e s) → runs False (project_from_extra extra) Q F s.
Proof.
  intros HQ HF. unfold project_from_extra. destruct (btree_get (lit "db") extra) as [v|]; [|by apply runs_ret].
  apply runs_bind, runs_pure; [apply ok_or_returns| |done]. intros selector _. apply runs_bind, runs_get, runs_bind.
  apply runs_pure; [by destruct (resolve_project _ _)| |done]. intros p _. by apply runs_ret.
Qed.

Lemma parse_bookmark_returns t : returns (parse_bookmark t).
Proof.
  unfold parse_bookmark. case_match; [done|]. apply returns_bind; [apply ok_or_returns|]. intros term _.
  apply returns_bind; [apply ok_or_returns|]. intros index _. by case_match.
Qed.

Lemma bookmark_returns extra : returns (bookmark_from_extra extra).
Proof.
  unfold bookmark_from_extra. destruct (btree_get (lit "bookmarks") extra) as [[]|]; try done.
  generalize (@None Bookmark) as selected. induction values as [|v values IH]; intros selected; [done|]. cbn [foldM].
  apply returns_bind; [|done]. unfold select_bookmark. apply returns_bind; [apply ok_or_returns|]. intros t _.
  apply returns_bind; [apply parse_bookmark_returns|]. intros b _. destruct selected; [by case_match|done].
Qed.

Lemma begin_handler fields : handler (begin fields).
Proof.
  intros s Hi. pose proof (refuses_refl s Hi) as Hr. unfold begin. apply runs_bind, runs_get.
  destruct (negb (bool_decide (state s = Ready)) || negb (zlen fields =? 1)) eqn:E; [by apply runs_lift|].
  apply orb_false_iff in E as [Est%negb_false_iff%bool_decide_eq_true El%negb_false_iff%Z.eqb_eq].
  apply runs_bind. eapply field_runs; [done|lia|apply as_map_returns| |done]. intros extra.
  apply runs_bind, runs_pure; [apply reject_returns| |done]. intros _ _.
  apply runs_bind, project_runs; [|done]. intros project.
  apply runs_bind, runs_pure; [apply bookmark_returns| |done]. intros bookmark _.
  destruct (inv_rest s Hi) as ([Ht _] & Hc & Htx); [by auto|].
  destruct (begin_on_connection _ _ _ _ _) as [e|[]].
  - apply runs_bind, runs_modify, runs_lift. split; [|right; exists []; split; [constructor|apply sent_nil]].
    apply rest_coherent; [by eapply traces_snoc|done..].
  - cbn zeta. rewrite Htx. cbn [drop_transaction].
    apply runs_bind, runs_modify, runs_bind, runs_ret, runs_bind, runs_modify, runs_bind, runs_modify, runs_bind, runs_modify.
    apply success_answers; [|done|done]. exists (Open (zlen (history s))). split; [split; [by eapply traces_snoc|]|].
    + unfold held_ok. cbn. rewrite Hc. by left.
    + by eexists.
Qed.
Lemma awaited_returns {A} m (r : string + (Error + A)) : returns (awaited m r).
Proof. by destruct r as [|[]]. Qed.

Lemma partial_refl out : partial out out.
Proof. right. exists []. split; [constructor|apply sent_nil]. Qed.

Lemma commit_handler fields : handler (commit fields).
Proof.
  intros s Hi. pose proof (refuses_refl s Hi) as Hr. unfold commit. apply runs_bind, runs_get.
  destruct (negb (bool_decide (state s = Transaction)) || negb (zlen fields =? 0)) eqn:E; [by apply runs_lift|].
  apply orb_false_iff in E as [Est%negb_false_iff%bool_decide_eq_true _].
  destruct (inv_open s Hi Est) as (t & [Ht _] & Hc & Htx). unfold take_transaction.
  apply runs_bind, runs_bind, runs_get, runs_bind, runs_lift. rewrite Htx. cbn [ok_or].
  apply runs_bind, runs_modify, runs_ret, runs_bind, runs_modify.
  assert (traces (history s ++ [Committed t]) Unengaged) as Ht'.
  { eapply traces_snoc; [exact Ht|]. cbn. by rewrite Z.eqb_refl. }
  apply runs_bind, runs_pure; [apply awaited_returns| |].
  - intros b _. apply runs_bind, runs_modify, runs_bind, runs_modify. apply success_answers; [|done|done].
    apply rest_inv; cbn; auto.
  - intros e. split; [by apply rest_coherent|apply partial_refl].
Qed.

(** Rolling back an open or spoiled transaction that was taken out. *)
Lemma roll_back_runs t s e (Q : unit → Session → Prop) (F : Error → Session → Prop) :
  traces (history s) e → e = Open t ∨ e = Spoiled t →
  (∀ s', kept s s' → traces (history s') Unengaged → Q tt s') →
  (∀ er s', kept s s' → traces (history s') Unengaged → F er s') → runs False (roll_back t) Q F s.
Proof.
  intros Ht He HQ HF. unfold roll_back. apply runs_bind, runs_get, runs_bind, runs_modify.
  assert (traces (history s ++ [RolledBack t]) Unengaged) as Ht'.
  { eapply traces_snoc; [exact Ht|]. destruct He as [->| ->]; cbn; by rewrite Z.eqb_refl. }
  apply runs_pure; [apply awaited_returns|intros [] _; by apply HQ|intros er; by apply HF].
Qed.

Lemma rollback_handler fields : handler (rollback fields).
Proof.
  intros s Hi. pose proof (refuses_refl s Hi) as Hr. unfold rollback. apply runs_bind, runs_get.
  destruct (negb (bool_decide (state s = Transaction)) || negb (zlen fields =? 0)) eqn:E; [by apply runs_lift|].
  apply orb_false_iff in E as [Est%negb_false_iff%bool_decide_eq_true _].
  destruct (inv_open s Hi Est) as (t & [Ht _] & Hc & Htx). unfold take_transaction.
  apply runs_bind, runs_bind, runs_get, runs_bind, runs_lift. rewrite Htx. cbn [ok_or].
  apply runs_bind, runs_modify, runs_ret, runs_bind.
  eapply roll_back_runs; [exact Ht|by left|..].
  - intros s1 (K1 & K2 & K3 & K4 & K5) Ht1. apply runs_bind, runs_modify, runs_bind, runs_modify.
    apply success_answers; [|done|exact K5]. apply rest_inv; cbn; [done|by rewrite K2|by rewrite K3|auto].
  - intros e s1 (K1 & K2 & K3 & K4 & K5) Ht1. split; [|rewrite K5; apply partial_refl].
    apply rest_coherent; [done|by rewrite K2|by rewrite K3].
Qed.

(** Nothing held, and the stream as before. *)
Definition released (s s' : Session) : Prop :=
  traces (history s') Unengaged ∧ cursor s' = None ∧ transaction s' = None ∧ stream s' = stream s ∧ state s' = state s.

Lemma release_transaction s t e :
  traces (history s) e → e = Open t ∨ e = Spoiled t → cursor s = None →
  runs False (_ ← modify (set_transaction None); roll_back t) (λ _ s', released s s') (λ _ s', released s s') s.
Proof.
  intros Ht He Hc. apply runs_bind, runs_modify. eapply roll_back_runs; [exact Ht|exact He|..].
  all: intros; destruct_and?; match goal with Hk : kept _ _ |- _ => destruct Hk as (K1 & K2 & K3 & K4 & K5) end;
    split_and!; [done|by rewrite K2|by rewrite K3|by rewrite K5|by rewrite K1].
Qed.

Lemma session_release_spec s :
  coherent s → runs False release (λ _ s', released s s') (λ _ s', coherent s' ∧ stream s' = stream s) s.
Proof.
  intros (e & Ht & Hh). unfold release. apply runs_bind, runs_get, runs_bind. unfold held_ok in Hh.
  assert (∀ s1 owner b, traces (history s1) (after_query owner b) → cursor s1 = None → transaction s1 = owner →
    stream s1 = stream s → state s1 = state s →
    runs False (s2 ← get_state; match transaction s2 with
      | None => mret tt
      | Some t => _ ← modify (set_transaction None); roll_back t
      end) (λ _ s', released s s') (λ _ s', coherent s' ∧ stream s' = stream s) s1) as Hgo.
  { intros s1 owner b Ht1 Hc1 Htx1 Hs1 Hst1. apply runs_bind, runs_get. rewrite Htx1. destruct owner as [t|].
    - eapply runs_mono; [eapply release_transaction; [exact Ht1|destruct b; auto|done]| |].
      + intros [] s2 (? & ? & ? & ? & ?). split_and!; congruence.
      + intros _ s2 (? & ? & ? & ? & ?). split; [by apply rest_coherent|congruence].
    - apply runs_ret. by split_and!. }
  destruct (cursor s) as [c|] eqn:Hc, (transaction s) as [t|] eqn:Htx; [done| | |].
  - destruct Hh as (owner & -> & [Hw _] & Hret). apply runs_bind, runs_modify, runs_bind.
    eapply runs_mono; [eapply (cursor_finish_spec c owner true (set_cursor None s)); [done..|by left]| |].
    + intros k s1 ((K1 & K2 & K3 & K4 & K5) & Hown & _ & _ & _ & Ht1).
      apply runs_bind, silent_runs; [apply clear_silent|]. intros s2 (Q1 & Q2 & Q3 & Q4 & tokens & Q5) Q6.
      apply runs_modify. apply (Hgo _ owner false); cbn.
      * rewrite Q5. by apply traces_cancels.
      * by rewrite Q2, K2.
      * done.
      * by rewrite Q6, K5.
      * by rewrite Q1, K1.
    + intros _ s1 ((K1 & K2 & K3 & K4 & K5) & Ht1 & _). split; [|by rewrite K5].
      apply rest_coherent; [done|by rewrite K2|rewrite K3; exact Htx].
  - apply runs_ret. destruct Hh as [->| ->]; [apply (Hgo s (Some t) true)|apply (Hgo s (Some t) false)]; done.
  - apply runs_ret. subst e. by apply (Hgo s None true).
Qed.

Lemma reset_handler fields s :
  coherent s → runs False (reset fields) (λ _ s', answers s s') (λ _ s', refuses s s') s.
Proof.
  intros Hc. unfold reset. apply runs_bind, runs_get.
  case_match; [apply runs_lift; split; [done|apply partial_refl]|].
  apply runs_bind. eapply runs_mono; [by apply session_release_spec| |].
  - intros [] s1 (Ht & Hc1 & Htx & Hs & _). apply runs_bind, runs_modify, runs_bind, runs_modify, runs_bind.
    apply silent_runs; [apply acknowledge_silent|]. intros s2 (Q1 & Q2 & Q3 & Q4 & tokens & Q5) Q6.
    apply success_answers; [|unfold authenticated; by rewrite Q1|by rewrite Q6]. apply rest_inv; [rewrite Q5; by apply traces_cancels|by rewrite Q2|by rewrite Q3|].
    rewrite Q1. cbn. auto.
  - intros _ s1 [? Hs]. split; [done|]. rewrite Hs. apply partial_refl.
Qed.

Lemma goodbye_spec fields s :
  coherent s →
  runs False (goodbye fields) (λ _ s', released s (set_state (state s) s') ∧ state s' = Closed)
    (λ _ s', coherent s' ∧ stream s' = stream s) s.
Proof.
  intros Hc. unfold goodbye. case_match; [by apply runs_lift|].
  apply runs_bind. eapply runs_mono; [by apply session_release_spec| |done].
  intros [] s1 (Ht & Hc1 & Htx & Hs & _). apply runs_bind, runs_modify, runs_bind.
  apply silent_runs; [apply acknowledge_silent|]. intros s2 (Q1 & Q2 & Q3 & Q4 & tokens & Q5) Q6.
  apply runs_modify. split; [|done]. split_and!; cbn; [rewrite Q5; by apply traces_cancels|by rewrite Q2|by rewrite Q3|by rewrite Q6|done].
Qed.
(** ** Starting a query *)

Lemma parameter_i64_returns v f : returns (parameter_i64 v f).
Proof. by destruct v. Qed.

Lemma parameter_i32_returns v f : returns (parameter_i32 v f).
Proof. apply returns_bind; [apply parameter_i64_returns|]. intros x _. apply ok_or_returns. Qed.

Lemma parameter_fraction_returns v f : returns (parameter_fraction_nanos v f).
Proof.
  apply returns_bind; [apply returns_bind; [apply parameter_i64_returns|]; intros x _; apply ok_or_returns|].
  intros x _. by case_match.
Qed.

Lemma parameter_offset_returns v f : returns (parameter_offset v f).
Proof. apply returns_bind; [apply parameter_i32_returns|]. intros x _. by case_match. Qed.

Lemma parameter_time_returns v f : returns (parameter_time_nanos v f).
Proof. apply returns_bind; [apply parameter_i64_returns|]. intros x _. by case_match. Qed.

Lemma parameter_duration_returns v : returns (parameter_duration_nanos v).
Proof. apply returns_bind; [apply parameter_i32_returns|]. intros x _. by case_match. Qed.

Lemma format_offset_returns o : returns (format_offset o).
Proof. unfold format_offset. by repeat case_match. Qed.

Create HintDb returns_db.
#[local] Hint Resolve parameter_i64_returns parameter_fraction_returns parameter_offset_returns parameter_time_returns
  parameter_duration_returns format_offset_returns : returns_db.

Lemma temporal_parameter_returns g fields : returns (temporal_parameter_to_json g fields).
Proof.
  unfold temporal_parameter_to_json.
  repeat first [ done | apply returns_bind; [by eauto with returns_db|intros ? _] | case_match ].
Qed.

Lemma collect_returns {V W} (f : V → Result W) l : Forall (λ p, returns (f p.2)) l → returns (Results.collect_entries f l).
Proof.
  intros Hl. apply returns_bind; [|done]. apply mapM_returns. eapply Forall_impl; [exact Hl|].
  intros [k v] Hv. apply returns_bind; [exact Hv|done].
Qed.

Lemma pack_to_json_returns v : returns (pack_to_json v).
Proof.
  induction v as [| | |x| | |vs IH|vs IH|g vs _] using PackStreamValue_nested_ind; try done; cbn [pack_to_json].
  - apply ok_or_returns.
  - pose proof (mapM_returns _ _ IH) as Hr. unfold returns in *. by destruct (mapM pack_to_json vs).
  - pose proof (collect_returns _ _ IH) as Hr. unfold returns in *. by destruct (Results.collect_entries pack_to_json vs).
  - apply temporal_parameter_returns.
Qed.
Context `{!QueryEngineSpec}.

Lemma emitted_rest h r before cols rest id :
  emits h r = before ++ EventSchema id cols :: rest → Forall is_catalog before →
  Forall (λ event, event_wf event ∧ event_sized event = true) rest ∧ short rest.
Proof.
  intros E Hb. pose proof (emits_wf h r) as Hw. pose proof (emits_end h r) as Hs. rewrite E in *.
  apply Forall_app in Hw as [_ [_ Hw]%Forall_cons]. by rewrite short_app in Hs.
Qed.

(** The session streams the result of a query that [emits h request]. *)
Definition streams (h : list Call) (request : QueryRequest) (owner : option Z) (s : Session) : Prop :=
  ∃ before cols rest,
    emits h request = before ++ EventSchema (request_id request) cols :: rest ∧ Forall is_catalog before
    ∧ state s = Streaming
    ∧ cursor s = Some (announced (BoltCursor_new (request_id request) (emits h request) (mkWorker owner) (cancellation request)) cols rest).

(** The query has been started for [owner]; from here to the answer. *)
Lemma run_started request owner s s1 (names_metadata : list bytes → Sess unit) h (Q : Session → Prop) :
  traces (history s1) (Querying (cancellation request) owner) → cursor s1 = None → transaction s1 = None →
  stream s1 = stream s → stream_return_state s1 = match owner with Some _ => Transaction | None => Ready end →
  (∀ names s2, inv s2 → streams h request owner s2 → stream s2 = stream s →
     runs False (names_metadata names) (λ _ s', Q s') (λ _ s', refuses s s') s2) →
  let c := BoltCursor_new (request_id request) (emits h request) (mkWorker owner) (cancellation request) in
  runs False
    (_ ← activate (cursor_token c);
     match await_schema c with
     | (c, Err error) =>
         completion ← finish c true;
         _ ← clear;
         _ ← modify (set_transaction (completed_transaction completion));
         lift (Err match completed_result completion with Err e => e | _ => error end)
     | (_, Abort w) => lift (Abort w)
     | (c, Ok names) =>
         _ ← modify (set_cursor (Some c));
         _ ← modify (set_state Streaming);
         names_metadata names
     end)
    (λ _ s', Q s') (λ _ s', refuses s s') s1.
Proof.
  intros Ht Hc Htx Hs Hret Hgo c. apply runs_bind, silent_runs; [apply activate_silent|].
  intros s2 (Q1 & Q2 & Q3 & Q4 & tokens & Q5) Q6.
  assert (traces (history s2) (Querying (cancellation request) owner)) as Ht2 by (rewrite Q5; by apply traces_cancels).
  pose proof (await_schema_spec c ltac:(done)) as Ha. unfold runs in Ha.
  destruct (await_schema c) as [c2 [names|e|w]]; [| |done].
  - destruct Ha as (before & cols & rest & Hr & Hcat & -> & ->). destruct (emitted_rest _ _ _ _ _ _ Hr Hcat) as [Hw Hsh].
    apply runs_bind, runs_modify, runs_bind, runs_modify. apply Hgo; [|by exists before, cols, rest|cbn; by rewrite Q6].
    exists (Querying (cancellation request) owner). split; [split; [exact Ht2|]|by eexists _, _].
    unfold held_ok. cbn. rewrite Q3, Htx. exists owner. split_and!; [done| |by rewrite Q4].
    split; [done|]. eexists _, _. by apply announced_holds.
  - destruct Ha as [Ha1 Ha2]. apply runs_bind.
    eapply runs_mono; [apply (cursor_finish_spec c2 owner true); [by rewrite Ha2|by rewrite Ha1|by left]| |].
    + intros k s3 ((K1 & K2 & K3 & K4 & K5) & Hown & _ & _ & _ & Ht3).
      apply runs_bind, silent_runs; [apply clear_silent|]. intros s4 (R1 & R2 & R3 & R4 & tokens' & R5) R6.
      apply runs_bind, runs_modify, runs_lift. split; [|cbn; rewrite R6, K5, Q6, Hs; apply partial_refl].
      exists (after_query owner false). split; [cbn; rewrite R5; by apply traces_cancels|].
      apply after_query_held; [cbn; congruence|done].
    + intros _ s3 ((K1 & K2 & K3 & K4 & K5) & Ht3 & _). split; [|rewrite K5, Q6, Hs; apply partial_refl].
      apply rest_coherent; [done|congruence|congruence].
Qed.

(** RUN starts the query it is given. *)
Lemma run_spec fields s :
  inv s →
  runs False (run_query fields)
    (λ _ s', answers s s' ∧ ∃ h request owner, streams h request owner s' ∧ get fields 0 = Some (PackString (query request))
       ∧ state s = match owner with Some _ => Transaction | None => Ready end)
    (λ _ s', refuses s s') s.
Proof.
  intros Hi. pose proof (refuses_refl s Hi) as Hr. unfold run_query. apply runs_bind, runs_get. cbn zeta.
  set (tx := bool_decide (state s = Transaction)).
  destruct (negb (bool_decide (state s = Ready) || tx) || negb (zlen fields =? 3)) eqn:E; [by apply runs_lift|].
  apply orb_false_iff in E as [Est%negb_false_iff El%negb_false_iff%Z.eqb_eq].
  apply runs_bind, runs_lift. unfold index_at at 1. destruct (get fields 0) as [field|] eqn:Ef;
    [|destruct fields; [done|cbn in Ef; done]]. cbn [mbind outcome_bind].
  destruct (as_string_ref field) as [query|] eqn:Eq; [|done]. cbn [ok_or].
  assert (field = PackString query) as -> by (destruct field; try done; by injection Eq as ->).
  apply runs_bind. eapply field_runs; [done|lia| | |done].
  { intros v. apply returns_bind; [apply as_map_returns|]. intros values _. apply collect_returns, Forall_true.
    intros p. apply pack_to_json_returns. }
  intros parameters. apply runs_bind. eapply field_runs; [done|lia|apply as_map_returns| |done]. intros extra.
  apply runs_bind, runs_pure; [apply reject_returns| |done]. intros _ _.
  apply runs_bind, project_runs; [|done]. intros supplied.
  apply runs_bind, runs_pure; [unfold run_project; by repeat case_match| |done]. intros project _.
  apply runs_bind, runs_pure; [apply bookmark_returns| |done]. intros bookmark _.
  destruct (tx && bool_decide (is_Some bookmark)); [by apply runs_lift|].
  set (request := mkQueryRequest _ _ _ _ _ _ _ _ _).
  apply runs_bind, runs_pure; [unfold validate; by case_match| |done]. intros _ _.
  assert (∀ h owner names s2, state s = match owner with Some _ => Transaction | None => Ready end → inv s2 → streams h request owner s2 → stream s2 = stream s →
    runs False (s3 ← get_state;
      write_success ([(lit "fields", PackList (map PackString names))]
        ++ (if bool_decide (stream_return_state s3 = Transaction) then [(lit "qid", PackInteger 0)] else [])
        ++ [(lit "t_first", PackInteger 0)]))
      (λ _ s', answers s s' ∧ ∃ h request owner, streams h request owner s' ∧ Some (PackString query) = Some (PackString (QueryEvents.query request))
         ∧ state s = match owner with Some _ => Transaction | None => Ready end)
      (λ _ s', refuses s s') s2) as Hgo.
  { intros h owner names s2 Hown Hi2 Hstr Hs2. apply runs_bind, runs_get.
    assert (state s2 = Streaming) as Hst by (by destruct Hstr as (? & ? & ? & _ & _ & ? & _)).
    apply (write_success_runs s s2 []); [rewrite Hs2; apply sent_nil|constructor|by apply inv_coherent| |done].
    intros out p _ Hp Hsent. split; [|by exists h, request, owner].
    split; [by eapply quiet_inv, Hi2; apply quiet_stream|]. split; [unfold authenticated; cbn; by rewrite Hst|].
    exists [], p. split_and!; [constructor|by left|done]. }
  apply runs_bind. destruct tx eqn:Etx.
  - apply bool_decide_eq_true in Etx. destruct (inv_open s Hi Etx) as (t & [Ht _] & Hc & Htx).
    apply runs_bind, runs_lift. rewrite Htx. cbn [ok_or]. apply runs_bind, runs_modify, runs_bind, runs_modify.
    unfold start_cursor. apply runs_bind, runs_get, runs_bind, runs_modify, runs_ret.
    eapply (run_started request (Some t) s); try done; [|by intros; eapply (Hgo _ (Some t))]. cbn. eapply traces_snoc; [exact Ht|]. cbn. by rewrite Z.eqb_refl.
  - rewrite orb_false_r in Est. apply bool_decide_eq_true in Est. destruct (inv_rest s Hi) as ([Ht _] & Hc & Htx); [by auto|].
    apply runs_bind, runs_modify. unfold start_cursor. apply runs_bind, runs_get, runs_bind, runs_modify, runs_ret.
    eapply (run_started request None s); try done; [|by intros; eapply (Hgo _ None)]. cbn. by eapply traces_snoc.
Qed.

Lemma run_handler fields : handler (run_query fields).
Proof. intros s Hi. eapply runs_mono; [by apply run_spec| |done]. by intros [] s' [? _]. Qed.

(** ** Dispatch *)

Lemma ignored_runs s :
  coherent s → state s = Failed → runs False write_ignored (λ _ s', answers s s') (λ _ s', refuses s s') s.
Proof.
  intros Hc Hst. apply write_owned_runs.
  - intros out p Hp Hs. split; [|split; [unfold authenticated; cbn; by rewrite Hst|exists [], p; split_and!; [constructor|right; right; by apply encoded_wire in Hp|done]]].
    destruct Hc as [e He]. exists e. split; [by eapply quiet_engaged, He; apply quiet_stream|]. unfold state_ok. cbn. by rewrite Hst.
  - intros e out Hout. split; [by eapply quiet_coherent, Hc; apply quiet_stream|]. cbn.
    destruct Hout as [?| ->]; [by left|apply partial_refl].
Qed.

(** A message is answered, refused, or ends the session. *)
Lemma dispatch_spec value s :
  inv s →
  runs False (dispatch value)
    (λ _ s', answers s s' ∨ released s (set_state (state s) s') ∧ state s' = Closed ∧ ∃ fields, value = PackStructure 2 fields)
    (λ _ s', refuses s s') s.
Proof.
  intros Hi. pose proof (inv_coherent s Hi) as Hc. pose proof (refuses_refl s Hi) as Hr.
  assert (∀ m : Sess unit, runs False m (λ _ s', answers s s') (λ _ s', refuses s s') s →
    runs False m (λ _ s', answers s s' ∨ released s (set_state (state s) s') ∧ state s' = Closed ∧ ∃ fields, value = PackStructure 2 fields)
      (λ _ s', refuses s s') s) as Hgo.
  { intros m Hm. eapply runs_mono; [exact Hm| |done]. auto. }
  destruct value as [| | | | | | | |g fields]; try by apply runs_lift. cbn [dispatch]. apply runs_bind, runs_get.
  destruct (bool_decide (state s = Failed) && negb (g =? 15) && negb (g =? 2)) eqn:E.
  { apply Hgo, ignored_runs; [done|]. by apply andb_true_iff in E as [[E%bool_decide_eq_true _]%andb_true_iff _]. }
  destruct (Z.eqb_spec g 1); [by apply Hgo, hello_handler|].
  destruct (Z.eqb_spec g 2) as [->|].
  { eapply runs_mono; [by apply goodbye_spec| |].
    - intros [] s' [? ?]. right. split_and!; [done..|]. by exists fields.
    - intros _ s' [? Hs]. split; [done|]. rewrite Hs. apply partial_refl. }
  destruct (Z.eqb_spec g 16); [by apply Hgo, run_handler|].
  destruct (Z.eqb_spec g 63); [by apply Hgo, consume_handler|].
  destruct (Z.eqb_spec g 47); [by apply Hgo, consume_handler|].
  destruct (Z.eqb_spec g 17); [by apply Hgo, begin_handler|].
  destruct (Z.eqb_spec g 18); [by apply Hgo, commit_handler|].
  destruct (Z.eqb_spec g 19); [by apply Hgo, rollback_handler|].
  destruct (Z.eqb_spec g 15); [by apply Hgo, reset_handler|].
  destruct (Z.eqb_spec g BOLT_ROUTE_SIGNATURE); [by apply Hgo, route_handler|].
  by apply runs_lift.
Qed.
End sessions.
