(* ===== verification/BoltServe.v ===== *)
(** * Serving a connection

    From the requests to a whole connection: the loop that dispatches messages
    and turns errors into FAILURE messages, the end of the session, and what is
    dropped with it. *)

From stdpp Require Import prelude gmap strings sorting.
From Stdlib Require Import ZArith Lia.
From S2P Require Import Prelude Machine Types Bolt BoltTheorems BoltDecode BoltFraming BoltTyped BoltTypedTheorems BoltPaths BoltParameters QueryEvents Actions BoltCursor BoltCursorTheorems BoltSession BoltSessionTheorems.

Local Open Scope Z_scope.

(** ** The shape of a conversation *)

(** The error has no FAILURE message: its text is longer than PackStream has strings. *)
Definition unspeakable (e : Error) : Prop :=
  pack_fits (PackStructure 127 [PackMap [(lit "code", PackString (lit (bolt_error_code e)));
                                         (lit "message", PackString (lit (message e)))]]) = false.

Definition reports (e : Error) (failure : list bytes) : Prop :=
  (∃ p, failure = [p] ∧ is_failure p) ∨ failure = [] ∧ unspeakable e.

(** [conversation first incoming payloads r]: [payloads] is what a peer is told
    of the messages [incoming], and [r] what serving them returns.  [first]
    says that HELLO is still to come. *)
Inductive conversation : bool → list IncomingMessage → list bytes → Result unit → Prop :=
| talk_end first incoming r :
    incoming = [] ∨ (∃ rest, incoming = End_ :: rest) → conversation first incoming [] r
| talk_goodbye first fields rest : conversation first (Message (PackStructure 2 fields) :: rest) [] (Ok tt)
| talk_answered first value rest records summary payloads r :
    Forall is_record records → is_summary summary → conversation false rest payloads r →
    conversation first (Message value :: rest) (records ++ [summary] ++ payloads) r
(** A refused first message and one that cannot be read end the session. *)
| talk_rejected value rest records failure e :
    Forall is_record records → is_failure failure → conversation true (Message value :: rest) (records ++ [failure]) (Err e)
| talk_unreadable first e rest failure :
    reports e failure → conversation first (IncomingError e :: rest) failure (Err e)
| talk_unspeakable first value rest records e er :
    Forall is_record records → unspeakable e → conversation first (Message value :: rest) records (Err er).

(** ** What the automaton says of transactions *)

Definition settles (t : Z) (call : Call) : Prop :=
  call = Committed t ∨ call = RolledBack t ∨ call = Dropped t ∨ ∃ token, call = Abandoned token (Some t).

Definition engagement_of (e : Engagement) : option Z :=
  match e with Querying _ owner => owner | Open t | Spoiled t => Some t | Unengaged => None end.

(** A call keeps the transaction engaged or settles it. *)
Lemma engage_settles e call e' t :
  engage e call = Some e' → engagement_of e = Some t → engagement_of e' = Some t ∨ settles t call.
Proof.
  intros He Ht. unfold settles. destruct call, e as [|token' [t'|]|t'|t']; cbn in *; try done; repeat case_match; simplify_eq/=; eauto 6.
  all: try (apply Z.eqb_eq in H; subst); try (left; by destruct (negb cancelled && succeeded)); eauto 6.
  all: repeat match goal with
    | Hb : _ && _ = true |- _ => apply andb_true_iff in Hb as [?%Z.eqb_eq ?%bool_decide_eq_true]
    | Hb : (_ =? _) = true |- _ => apply Z.eqb_eq in Hb
    end; subst; eauto 6.
Qed.

Lemma run_settles calls e t :
  foldl (λ e call, e ≫= λ e, engage e call) (Some e) calls = Some Unengaged → engagement_of e = Some t →
  Exists (settles t) calls.
Proof.
  revert e. induction calls as [|call calls IH]; intros e; cbn; [by intros [= ->]|].
  destruct (engage e call) as [e'|] eqn:E; cbn.
  - intros Hr Ht. destruct (engage_settles _ _ _ _ E Ht) as [Ht'|Hs]; [right; by eapply IH|by left].
  - intros Hr. exfalso. clear -Hr. by induction calls.
Qed.

(** Since it began, every query in the transaction has succeeded. *)
Definition clean (t : Z) (calls : list Call) (running : option Z) : Prop :=
  ∃ before connection project bookmark since,
    calls = before ++ Began t connection project bookmark :: since
    ∧ ∀ token request, Started token (Some t) request ∈ since →
        running = Some token ∨ Joined token false true ∈ since.

Lemma clean_snoc t calls running running' call :
  clean t calls running →
  (∀ token, running = Some token → running' = Some token ∨ call = Joined token false true) →
  (∀ token request, call = Started token (Some t) request → running' = Some token) →
  clean t (calls ++ [call]) running'.
Proof.
  intros (before & connection & project & bookmark & since & -> & Hc) Hr Hs.
  exists before, connection, project, bookmark, (since ++ [call]). split; [by rewrite <- (assoc_L (++))|].
  intros token request [Hin|Hin%list_elem_of_singleton]%elem_of_app; [|left; by eapply Hs].
  destruct (Hc token request Hin) as [Hrun|Hj]; [|right; set_solver]. destruct (Hr token Hrun) as [?| ->]; [by left|right; set_solver].
Qed.

Lemma traces_clean calls e :
  traces calls e →
  match e with Open t => clean t calls None | Querying token (Some t) => clean t calls (Some token) | _ => True end.
Proof.
  revert e. induction calls as [|call calls IH] using rev_ind; intros e; [by intros [= <-]|].
  unfold traces. rewrite foldl_app. cbn. fold (traces calls).
  destruct (foldl _ _ calls) as [e0|] eqn:E0; [|done]. specialize (IH e0 E0). cbn.
  destruct call, e0 as [|token' [t'|]|t'|t']; cbn; intros He; try done; repeat case_match; simplify_eq/=; try done.
  { exists calls, connection, project, bookmark, []. split; [done|]. by intros ? ? ?%not_elem_of_nil. }
  all: repeat match goal with
    | Hb : (_ =? _) = true |- _ => apply Z.eqb_eq in Hb; subst
    | Hb : after_query _ _ = _ |- _ => unfold after_query in Hb; repeat case_match; simplify_eq/=
    | Hb : negb _ && _ = true |- _ => apply andb_true_iff in Hb as [?%negb_true_iff ?]; subst
    end.
  all: eapply clean_snoc; [eassumption|naive_solver..].
Qed.

(** Every transaction is settled. *)
Lemma began_settled calls t connection project bookmark before after :
  traces calls Unengaged → calls = before ++ Began t connection project bookmark :: after → Exists (settles t) after.
Proof.
  unfold traces. intros Ht ->. rewrite foldl_app in Ht. cbn in Ht.
  destruct (foldl _ _ before) as [e0|]; cbn in Ht; [|exfalso; clear -Ht; by induction after].
  destruct e0; cbn in Ht; try (exfalso; clear -Ht; by induction after). by eapply run_settles.
Qed.

(** Only a transaction in which every query succeeded is committed. *)
Lemma committed_clean calls e t before after :
  traces calls e → calls = before ++ Committed t :: after → clean t before None.
Proof.
  unfold traces. intros Ht ->. rewrite foldl_app in Ht. cbn in Ht.
  destruct (foldl _ _ before) as [e0|] eqn:E0; cbn in Ht; [|exfalso; clear -Ht; by induction after].
  destruct e0 as [| |t'|]; cbn in Ht; try (exfalso; clear -Ht; by induction after).
  destruct (Z.eqb_spec t t') as [->|]; [by apply (traces_clean before (Open t'))|exfalso; clear -Ht; by induction after].
Qed.

Section serving.
Context `{Timezones} `{QueryEngine} `{!QueryEngineSpec}.
Implicit Types s : Session.

Lemma failure_prefix e p :
  encode_packstream (PackStructure 127 [PackMap [(lit "code", PackString (lit (bolt_error_code e)));
                                                 (lit "message", PackString (lit (message e)))]]) [] = Ok p →
  is_failure p.
Proof. intros ->%encoded_wire. by eexists. Qed.

Lemma frame_nonempty p : 0 < zlen (frame p).
Proof. unfold frame. rewrite zlen_app. pose proof (zlen_nonneg (concat (map chunk_frame (message_chunks p)))). unfold zlen at 2. cbn. lia. Qed.

(** A peer that takes no more gets no message. *)
Lemma write_owned_stuck v s (F : Error → Session → Prop) :
  accepts (stream s) = 0 → (∀ e out, accepts out = 0 → F e (set_stream out s)) →
  runs False (write_owned v) (λ _ _, False) F s.
Proof.
  intros Hz HF. unfold write_owned. apply runs_bind, runs_lift. pose proof (encode_returns v []) as Hr.
  destruct (encode_packstream v []) as [p|e|w]; [| |done].
  - unfold runs, write_encoded. rewrite write_encoded_frame. unfold write_all. pose proof (frame_nonempty p).
    replace (zlen (frame p) <=? accepts (stream s)) with false by lia. by apply HF.
  - replace s with (set_stream (stream s) s) by (by destruct s). by apply HF.
Qed.

(** A message that fits is written, or the peer takes no more. *)
Lemma write_fitting_runs v s (Q : unit → Session → Prop) (F : Error → Session → Prop) :
  pack_fits v = true →
  (∀ out p, encode_packstream v [] = Ok p → sent (stream s) out [p] → Q tt (set_stream out s)) →
  (∀ e out, accepts out = 0 → F e (set_stream out s)) →
  runs False (write_owned v) Q F s.
Proof.
  intros Hf HQ HF. unfold write_owned. apply runs_bind, runs_lift. pose proof (encode_wire v []) as He. rewrite Hf in He.
  rewrite He in *. by apply write_encoded_runs; eauto.
Qed.

(** FAILURE goes out, or the stream is broken, or the error is unspeakable. *)
Lemma failure_runs e s (Q : unit → Session → Prop) (F : Error → Session → Prop) :
  (∀ out p, accepts (stream s) ≠ 0 → is_failure p → sent (stream s) out [p] → Q tt (set_stream out s)) →
  (∀ er out, accepts out = 0 ∨ out = stream s ∧ unspeakable e → F er (set_stream out s)) →
  runs False (write_failure e) Q F s.
Proof.
  intros HQ HF. destruct (decide (accepts (stream s) = 0)) as [Hz|Hn].
  - eapply runs_mono; [apply (write_owned_stuck _ _ F Hz)|done|done]. auto.
  - destruct (pack_fits (PackStructure 127 [PackMap [(lit "code", PackString (lit (bolt_error_code e)));
      (lit "message", PackString (lit (message e)))]])) eqn:Hf.
    + unfold write_failure. apply write_fitting_runs; [done| |auto]. intros out p Hp. apply HQ; [done|]. by eapply failure_prefix.
    + apply write_owned_runs.
      * intros out p Hp. pose proof (encode_wire (PackStructure 127 [PackMap [(lit "code", PackString (lit (bolt_error_code e)));
          (lit "message", PackString (lit (message e)))]]) []) as He. rewrite Hf in He. destruct He as (? & He & _). congruence.
      * intros er out [?| ->]; apply HF; auto.
Qed.

(** What serving the messages [incoming] comes to. *)
Definition served (first : bool) (incoming : list IncomingMessage) (s : Session) (r : Result unit) (s' : Session) : Prop :=
  coherent s' ∧ (r = Ok tt → state s' = Closed ∧ traces (history s') Unengaged ∧ cursor s' = None ∧ transaction s' = None)
  ∧ (accepts (stream s') = 0 ∨ ∃ payloads, sent (stream s) (stream s') payloads ∧ conversation first incoming payloads r).

Lemma served_goodbye first incoming s s1 (r : Result unit) :
  coherent s1 → sent (stream s) (stream s1) [] → incoming = [] ∨ (∃ rest, incoming = End_ :: rest) →
  runs False (goodbye []) (λ _ s', served first incoming s (Ok tt) s') (λ e s', served first incoming s (Err e) s') s1.
Proof.
  intros Hc Hs Hend. eapply runs_mono; [by apply goodbye_spec| |].
  - intros [] s2 [(Ht & Hc2 & Htx & Hs2 & _) Hst]. cbn in *. split_and!; [by apply rest_coherent|done|].
    right. exists []. split; [by rewrite Hs2|by constructor].
  - intros e s2 [Hc2 Hs2]. split_and!; [done|done|]. right. exists []. split; [by rewrite Hs2|by constructor].
Qed.

(** FAILURE and then goodbye, whose own error is ignored. *)
Lemma goodbye_ignored s (Q : Result unit → Session → Prop) (F : Error → Session → Prop) :
  coherent s → (∀ r s', coherent s' → stream s' = stream s → Q r s') → runs False (attempt (goodbye [])) Q F s.
Proof.
  intros Hc HQ. apply runs_attempt. eapply runs_mono; [by apply goodbye_spec| |].
  - intros [] s' [(Ht & Hc2 & Htx & Hs2 & _) Hst]. cbn in *. apply HQ; [by apply rest_coherent|done].
  - intros e s' [? ?]. by apply HQ.
Qed.

(** The session of an unspeakable error ends. *)
Lemma unspeakable_ended first s out value rest (e er : Error) :
  partial (stream s) out → unspeakable e →
  accepts out = 0 ∨ ∃ payloads, sent (stream s) out payloads ∧ conversation first (Message value :: rest) payloads (Err er).
Proof. intros [?|(records & Hr & Hs)] Hu; [by left|right]. exists records. split; [done|by eapply talk_unspeakable]. Qed.

(** Refusing the first message. *)
Lemma refused_end value rest e s s1 :
  refuses s s1 →
  runs False (_ ← write_failure e; _ ← attempt (goodbye []); lift (Err e) : Sess unit)
    (λ _ _, False) (λ er s', served true (Message value :: rest) s (Err er) s') s1.
Proof.
  intros [Hc Hp]. apply runs_bind, failure_runs.
  - intros out p Hn Hf Hs. apply runs_bind, goodbye_ignored; [by eapply quiet_coherent, Hc; apply quiet_stream|].
    intros r s2 Hc2 Hs2. apply runs_lift. split_and!; [done|done|]. right. rewrite Hs2.
    destruct Hp as [?|(records & Hr & Hs1)]; [done|]. exists (records ++ [p]). split; [by eapply sent_trans|by constructor].
  - intros er out Ho. split_and!; [by eapply quiet_coherent, Hc; apply quiet_stream|done|]. cbn.
    destruct Ho as [?|[-> Hu]]; [by left|by eapply unspeakable_ended].
Qed.

(** The answer to a message, then the rest of the conversation. *)
Lemma served_after first value rest s s1 r s' :
  (∃ records summary, Forall is_record records ∧ is_summary summary ∧ sent (stream s) (stream s1) (records ++ [summary])) →
  served false rest s1 r s' → served first (Message value :: rest) s r s'.
Proof.
  intros (records & summary & Hr & Hsum & Hs) (Hc & Hok & Hp). split_and!; [done|done|].
  destruct Hp as [?|(payloads & Hs' & Ht)]; [by left|right]. exists (records ++ [summary] ++ payloads).
  split; [rewrite (assoc_L (++)); by eapply sent_trans|by constructor].
Qed.

Lemma served_stream first incoming s s1 r s' : stream s1 = stream s → served first incoming s1 r s' → served first incoming s r s'.
Proof. unfold served. by intros ->. Qed.

Lemma serve_loop_closed incoming s : state s = Closed → serve_loop incoming s = (s, Ok tt).
Proof. intros Hs. destruct incoming; cbn [serve_loop]; unfold mbind, action_bind, get_state; by rewrite bool_decide_true. Qed.

(** After a message was refused. *)
Lemma refused_on first value rest e s s1 :
  refuses s s1 →
  (∀ s2, inv s2 → authenticated s2 →
     runs False (serve_loop rest) (λ _ s', served false rest s2 (Ok tt) s') (λ e s', served false rest s2 (Err e) s') s2) →
  runs False (_ ← modify (set_state Failed); _ ← write_failure e; serve_loop rest)
    (λ _ s', served first (Message value :: rest) s (Ok tt) s') (λ e s', served first (Message value :: rest) s (Err e) s') s1.
Proof.
  intros [Hc Hp] IH. apply runs_bind, runs_modify, runs_bind.
  assert (inv (set_state Failed s1)) as Hi.
  { destruct Hc as [eg [Ht Hh]]. exists eg. by split; [split|]. }
  apply failure_runs.
  - intros out p Hn Hf Hs. cbn [stream set_state] in *.
    eapply runs_mono; [apply IH; [by eapply quiet_inv, Hi; apply quiet_stream|done]| |].
    all: intros ? s'; apply served_after; destruct Hp as [?|(records & Hr & Hs1)]; [done|];
      exists records, p; split_and!; [done|by right; left|cbn; by eapply sent_trans].
  - intros er out Ho. split_and!; [by eapply quiet_coherent, inv_coherent, Hi; apply quiet_stream|done|]. cbn in *.
    destruct Ho as [?|[-> Hu]]; [by left|by eapply unspeakable_ended].
Qed.

Lemma serve_loop_spec first incoming s :
  inv s → state s ≠ Closed → (state s = Authentication → first = true) →
  runs False (serve_loop incoming) (λ _ s', served first incoming s (Ok tt) s') (λ e s', served first incoming s (Err e) s') s.
Proof.
  revert first s. induction incoming as [|message incoming IH]; intros first s Hi Hst Hfirst; cbn [serve_loop]; apply runs_bind, runs_get;
    rewrite bool_decide_false by done; apply runs_bind, silent_runs; try apply reader_silent; intros s1 Hq1 Hs1;
    pose proof (quiet_inv _ _ Hq1 Hi) as Hi1.
  { apply served_goodbye; [exact (Ok tt)|by apply inv_coherent|rewrite Hs1; apply sent_nil|by left]. }
  destruct message as [value|error|].
  - apply (runs_mono _ _ (λ _ s', served first (Message value :: incoming) s1 (Ok tt) s') _
      (λ e s', served first (Message value :: incoming) s1 (Err e) s')); [|intros ? ?; by apply served_stream..].
    apply runs_bind, runs_attempt. eapply runs_mono; [by apply dispatch_spec| |].
    + intros [] s2 [(Hi2 & Hn2 & Hans)|((Ht & Hc & Htx & Hs & _) & Hcl & fields & ->)].
      * eapply runs_mono; [apply (IH false); [done|apply Hn2|by destruct Hn2]| |]; intros ? s'; by apply served_after.
      * unfold runs. rewrite serve_loop_closed by done. cbn in *. split_and!; [by apply rest_coherent|done|].
        right. exists []. split; [rewrite Hs; apply sent_nil|by constructor].
    + intros e s2 Href. destruct (bool_decide_reflect (state s = Authentication)) as [Ha|Ha].
      * rewrite (Hfirst Ha). eapply runs_mono; [exact (refused_end value incoming e s1 s2 Href)|done|done].
      * apply refused_on; [done|]. intros s3 Hi3 [Hn3 Hn3']. by apply IH.
  - apply runs_bind, runs_attempt, failure_runs.
    + intros out p Hn Hf Hs. apply runs_bind, goodbye_ignored; [by eapply quiet_coherent, inv_coherent, Hi1; apply quiet_stream|].
      intros r s2 Hc2 Hs2. apply runs_lift. split_and!; [done|done|]. right. exists [p]. rewrite Hs2, <- Hs1.
      split; [done|]. apply talk_unreadable. left. by exists p.
    + intros er out Ho. apply runs_bind, goodbye_ignored; [by eapply quiet_coherent, inv_coherent, Hi1; apply quiet_stream|].
      intros r s2 Hc2 Hs2. apply runs_lift. split_and!; [done|done|]. rewrite Hs2. cbn.
      destruct Ho as [?|[-> Hu]]; [by left|right]. exists []. rewrite Hs1. split; [apply sent_nil|].
      apply talk_unreadable. by right.
  - apply served_goodbye; [exact (Ok tt)|by apply inv_coherent|rewrite Hs1; apply sent_nil|right; by eexists].
Qed.
(** ** The messages of the peer *)

Definition request_ok (v : PackStreamValue) : Prop :=
  pack_wf v ∧ pack_fits v = true ∧ pack_depth v ≤ MAX_VALUE_DEPTH ∧ zlen (frame (wire v)) ≤ isize_max.

Definition request_bytes (vs : list PackStreamValue) : bytes := concat (map (λ v, frame (wire v)) vs).

Lemma read_messages_sent vs e fuel :
  Forall request_ok vs → kind e = UnexpectedEof → (length vs < fuel)%nat →
  read_messages fuel (mkStream (request_bytes vs) e) = map Message vs ++ [End_].
Proof.
  intros Hvs He. revert fuel. induction Hvs as [|v vs (Hw & Hf & Hd & Hl) _ IH]; intros [|fuel] Hfuel; cbn in Hfuel; try lia.
  - cbn. destruct e as [k m]. cbn in He. by subst k.
  - cbn [read_messages map app]. destruct (frame_reads v 0 (request_bytes vs) e Hw Hf Hl) as [Hr Hdec].
    change (no_ops 0 ++ frame (wire v) ++ request_bytes vs) with (request_bytes (v :: vs)) in Hr. rewrite Hr, Hdec.
    replace (pack_depth v <=? MAX_VALUE_DEPTH) with true by lia. rewrite IH by lia. done.
Qed.

Lemma request_bytes_length vs : (length vs ≤ length (request_bytes vs))%nat.
Proof.
  induction vs as [|v vs IH]; [done|]. unfold request_bytes. cbn [map concat length]. rewrite length_app.
  pose proof (frame_nonempty (wire v)). unfold zlen, request_bytes in *. lia.
Qed.

(** ** Whole connections *)

Lemma new_inv connection out : inv (BoltSession_new connection out).
Proof. apply rest_inv; [done..|by left]. Qed.

Lemma negotiate_returns input out : returns (negotiate input out).
Proof.
  unfold negotiate. destruct (read_exact_cases input 20) as [(hs & rest & _ & Hl & ->)|[_ ->]]; [lia| |by case_match].
  assert (∃ magic, index_range (E := Error) hs 0 4 = Ok magic) as [magic ->].
  { unfold index_range, get_range. rewrite Hl. by eexists. }
  rbind. case_match; [done|]. assert (∃ rest', index_range (E := Error) hs 4 (zlen hs) = Ok rest') as [rest' ->].
  { unfold index_range, get_range. rewrite Hl. by eexists. }
  rbind. unfold write_all. by case_match.
Qed.

Lemma drop_session_spec s :
  coherent s → runs False drop_session (λ _ s', traces (history s') Unengaged ∧ stream s' = stream s) (λ _ _, False) s.
Proof.
  intros (e & Ht & Hh). unfold drop_session. apply runs_bind, runs_get, runs_bind, runs_modify, runs_bind, runs_modify, runs_bind.
  unfold held_ok in Hh. destruct (cursor s) as [c|], (transaction s) as [t|]; [done| | |].
  - destruct Hh as (owner & -> & [Hw _] & Hret). eapply runs_mono; [eapply drop_cursor_spec; by split_and!| |done].
    intros [] s1 ((K1 & K2 & K3 & K4 & K5) & Ht1). apply runs_ret. by rewrite K5.
  - apply runs_ret, runs_modify. split; [|done]. cbn. eapply traces_snoc; [exact Ht|].
    destruct Hh as [->| ->]; cbn; by rewrite Z.eqb_refl.
  - apply runs_ret, runs_ret. by subst e.
Qed.

(** The outcome of a whole connection. *)
Lemma connection_spec connection input out :
  let '(s, r) := serve_authenticated_transport connection input out in
  traces (history s) Unengaged ∧ returns r
  ∧ ∀ input' out', negotiate input out = Ok (true, input', out') →
      accepts (stream s) = 0
      ∨ ∃ payloads, sent out' (stream s) payloads ∧ conversation true (read_messages (S (length (incoming input'))) input') payloads r.
Proof.
  unfold serve_authenticated_transport. set (s0 := BoltSession_new connection out).
  assert (runs False (serve input)
    (λ _ s', coherent s' ∧ ∀ input' out', negotiate input out = Ok (true, input', out') → accepts (stream s') = 0
       ∨ ∃ payloads, sent out' (stream s') payloads ∧ conversation true (read_messages (S (length (incoming input'))) input') payloads (Ok tt))
    (λ e s', coherent s' ∧ ∀ input' out', negotiate input out = Ok (true, input', out') → accepts (stream s') = 0
       ∨ ∃ payloads, sent out' (stream s') payloads ∧ conversation true (read_messages (S (length (incoming input'))) input') payloads (Err e)) s0) as Hs.
  { unfold serve. apply runs_bind, runs_get, runs_bind, runs_lift. pose proof (negotiate_returns input out) as Hn.
    cbn [stream s0 BoltSession_new]. destruct (negotiate input out) as [[[supported input1] out1]|e|w]; [| |done].
    2: { split; [by apply inv_coherent, new_inv|done]. }
    destruct supported; [|apply runs_modify; split; [by apply inv_coherent, rest_inv; [..|left]|done]].
    apply runs_bind, runs_modify. unfold serve_messages. apply runs_bind.
    eapply runs_mono; [apply (serve_loop_spec true); [apply rest_inv; [done..|by left]|done|done]| |].
    - intros [] s1 (Hc1 & _ & Hp). apply silent_runs; [apply cancel_active_silent|]. intros s2 Hq2 Hs2.
      split; [by eapply quiet_coherent|]. intros input' out' [= <- <-]. by rewrite Hs2.
    - intros e s1 (Hc1 & _ & Hp). split; [done|]. by intros input' out' [= <- <-]. }
  unfold runs in Hs. destruct (serve input s0) as [s1 [[]|e|w]]; [| |done]; destruct Hs as [Hc Hp];
    pose proof (drop_session_spec s1 Hc) as Hd; unfold runs in Hd;
    destruct (drop_session s1) as [s2 [[]|e'|w']]; try done; destruct Hd as [Ht Hst]; cbn [fst]; (split_and!; [done|done|]);
    by rewrite Hst.
Qed.

(** The handshake of a client that proposes 5.0. *)
Lemma negotiated proposals rest closing out :
  length proposals = 4%nat → Forall (λ p, length p = 4%nat) proposals → bytes_wf (concat proposals) →
  Exists names_v5_0 proposals → 4 ≤ accepts out →
  ∃ out', negotiate (mkStream (be_bytes 4 BOLT_MAGIC ++ concat proposals ++ rest) closing) out = Ok (true, mkStream rest closing, out')
    ∧ written out' = written out ++ [0; 0; 0; 5].
Proof.
  intros Hl Hp Hwf Hv Ha. unfold negotiate.
  assert (zlen (concat proposals) = 16 ∧ chunks_exact4 (concat proposals) = proposals) as [Hlen Hch].
  { destruct proposals as [|a [|b [|c [|d [|? ?]]]]]; try done. rewrite !Forall_cons in Hp. destruct Hp as (Ea & Eb & Ec & Ed & _).
    destruct a as [|? [|? [|? [|? [|? ?]]]]]; try done. destruct b as [|? [|? [|? [|? [|? ?]]]]]; try done.
    destruct c as [|? [|? [|? [|? [|? ?]]]]]; try done. destruct d as [|? [|? [|? [|? [|? ?]]]]]; done. }
  rewrite (assoc_L (++)), read_exact_app by (rewrite zlen_app, Hlen; done).
  rewrite (index_range_app [] (be_bytes 4 BOLT_MAGIC) (concat proposals) 0 4) by done. rbind.
  change (negb (from_be (be_bytes 4 BOLT_MAGIC) =? BOLT_MAGIC)) with false. cbn iota.
  rewrite (index_range_suffix (be_bytes 4 BOLT_MAGIC) (concat proposals) 4) by (rewrite ?zlen_app; done). rbind.
  rewrite Hch, (proj2 (supported_proposals proposals Hp Hwf) Hv). unfold write_all.
  replace (zlen (be_bytes 4 BOLT_V5_0) <=? accepts out) with true by (symmetry; apply Z.leb_le; exact Ha). rbind.
  by eexists.
Qed.

(** C6: A session keeps its engagements with the engine.  Whatever a client
    sends and however it breaks off, serving the connection returns, without a
    panic and without waiting for ever, and its calls follow the automaton
    [engage]: one query at a time, inside the open transaction or outside any.
    Every transaction that was begun is settled later: committed, rolled back,
    or left to the thread of its query or dropped when that thread died.  A
    transaction is committed only if every query started in it since it began
    was read to its end and succeeded; in particular never after a failure,
    until RESET has rolled it back.  The engine is any that sends well-formed
    events and ends a result with its summary or error. *)
Theorem transactions_settled connection input out :
  let '(s, r) := serve_authenticated_transport connection input out in
  returns r ∧ traces (history s) Unengaged
  ∧ (∀ before t c p b after, history s = before ++ Began t c p b :: after → Exists (settles t) after)
  ∧ (∀ before t after, history s = before ++ Committed t :: after → clean t before None).
Proof.
  pose proof (connection_spec connection input out) as Hc.
  destruct (serve_authenticated_transport connection input out) as [s r]. destruct Hc as (Ht & Hr & _).
  split_and!; [done|done| |].
  - intros before t c p b after E. by eapply began_settled.
  - intros before t after E. by eapply committed_clean.
Qed.

End serving.

(** ** An engine *)

(** Answers every query with two rows. *)
Definition two_rows (request : QueryRequest) : list QueryStreamEvent :=
  [EventSchema (request_id request) [mkQueryColumn (lit "n") (lit "INTEGER") false];
   EventBatch (request_id request) 0 2 [mkBatchColumn (lit "n") (lit "INTEGER") [TypedInteger (lit "1"); TypedInteger (lit "2")]];
   EventSummary (request_id request) (mkBookmark 1 4) (mkQueryStatistics 3 3000 2 0 0 0) false None].

Definition small_engine : QueryEngine := {|
  resolve_project _ _ := inr 1;
  begin_on_connection _ _ _ _ _ := inr tt;
  emits _ request := two_rows request;
  joins _ _ := inr (inr tt);
  commits _ _ := inr (inr (mkBookmark 1 5));
  rolls_back _ _ := inr (inr tt);
  is_cancelled _ _ := false;
  meanwhile _ := [];
  new_uuid h := Z.of_nat (length h);
  uuid_text _ := lit "00000000-0000-4000-8000-000000000000";
  debug_text _ := "key";
|}.

Lemma small_engine_spec : QueryEngineSpec (H := small_engine).
Proof. split; [intros h r; repeat constructor; done|intros h r; vm_compute; discriminate]. Qed.

(** HELLO, BEGIN, RUN, PULL of one row and of the rest, COMMIT, GOODBYE. *)
Definition small_requests : list PackStreamValue :=
  [PackStructure 1 [PackMap [(lit "user_agent", PackString (lit "test"))]];
   PackStructure 17 [PackMap []];
   PackStructure 16 [PackString (lit "RETURN 1"); PackMap []; PackMap []];
   PackStructure 63 [PackMap [(lit "n", PackInteger 1)]];
   PackStructure 63 [PackMap [(lit "n", PackInteger (-1))]];
   PackStructure 18 [];
   PackStructure 2 []].

Definition small_proposals : list bytes := [[0; 0; 4; 4]; [0; 0; 0; 5]; [0; 0; 0; 0]; [0; 0; 0; 0]].

Definition small_input : Stream :=
  mkStream (be_bytes 4 BOLT_MAGIC ++ concat small_proposals ++ request_bytes small_requests) closed.

Definition small_history (token : Z) (request : QueryRequest) : list Call :=
  [Began 0 7 None None; Started token (Some 0) request; Joined token false true; CancelRequested token; Committed 0].

Lemma small_connection : ∃ token request s,
  serve_authenticated_transport (H := one_zone) (H0 := small_engine) 7 small_input (mkSink [] 100000 closed) = (s, Ok tt)
  ∧ history s = small_history token request ∧ accepts (stream s) ≠ 0.
Proof. eexists _, _, _. split; [vm_compute; reflexivity|]. split; [reflexivity|discriminate]. Qed.

Lemma transactions_settled_witness : ∃ token request s,
  QueryEngineSpec (H := small_engine)
  ∧ serve_authenticated_transport (H := one_zone) (H0 := small_engine) 7 small_input (mkSink [] 100000 closed) = (s, Ok tt)
  ∧ history s = small_history token request
  ∧ Exists (settles 0) (tail (small_history token request)) ∧ clean 0 (firstn 4 (small_history token request)) None.
Proof.
  destruct small_connection as (token & request & s & E & Eh & _). exists token, request, s.
  pose proof (transactions_settled (H := one_zone) (H0 := small_engine) (H1 := small_engine_spec) 7 small_input (mkSink [] 100000 closed)) as Hs.
  rewrite E in Hs. destruct Hs as (_ & _ & Hb & Hc).
  split_and!; [exact small_engine_spec|exact E|exact Eh|exact (Hb [] 0 7 None None _ Eh)|exact (Hc (firstn 4 (small_history token request)) 0 [] Eh)].
Defined.

Lemma small_requests_ok : Forall request_ok small_requests.
Proof. repeat (apply Forall_cons_2; [split_and!; [solve_pack_wf|reflexivity|vm_compute; discriminate..]|]). apply Forall_nil_2. Qed.


(** HELLO with credentials is refused as an unsupported field: the check that
    names them comes after that of the fields and never fires. *)
Example credentials_unsupported : ∃ s e,
  hello (H0 := small_engine)
    [PackMap [(lit "credentials", PackString (lit "secret")); (lit "user_agent", PackString (lit "test"))]]
    (BoltSession_new 7 (mkSink [] 100000 closed)) = (s, Err e)
  ∧ code e = ProtocolViolation.
Proof. eexists _, _. split; [vm_compute; reflexivity|reflexivity]. Qed.
