(* ===== verification/BoltResults.v ===== *)
(** * Results of queries

    What a client reads of the result of a query: the records of its rows, in
    order and once each, through any sequence of PULL and DISCARD requests
    (bolt.rs, [BoltSession::run_query], [BoltSession::pull],
    [BoltSession::discard] and [BoltCursor]). *)

From stdpp Require Import prelude gmap strings sorting.
From Stdlib Require Import ZArith Lia.
From S2P Require Import Prelude Machine Types Bolt BoltTheorems BoltDecode BoltFraming BoltTyped BoltTypedTheorems BoltPaths BoltParameters QueryEvents Actions BoltCursor BoltCursorTheorems BoltSession BoltSessionTheorems BoltServe.

Local Open Scope Z_scope.

(** PULL or DISCARD of [n] rows; of all that are left if [n] is -1. *)
Definition fetch (request : bool * Z) : PackStreamValue :=
  PackStructure (if request.1 then 63 else 47) [PackMap [(lit "n", PackInteger request.2)]].

Definition fetch_ok (request : bool * Z) : Prop := request.2 = -1 ∨ 1 ≤ request.2 ≤ i64_max.
Definition limit (n : Z) : Z := if n =? -1 then usize_max else n.

(** No request follows the one that reads the end of the result. *)
Fixpoint within (rows : list row) (requests : list (bool * Z)) : bool :=
  match requests with
  | [] => true
  | (_, n) :: requests =>
      if ends (limit n) rows then bool_decide (requests = [])
      else within (skipn (taken (limit n) rows) rows) requests
  end.

(** The rows that are left, and whether the end has been read. *)
Fixpoint finished (rows : list row) (requests : list (bool * Z)) : bool :=
  match requests with
  | [] => false
  | (_, n) :: requests => ends (limit n) rows || finished (skipn (taken (limit n) rows) rows) requests
  end.

Section results.
Context `{Timezones} `{QueryEngine} `{!QueryEngineSpec}.
Implicit Types s : Session.

Definition record_of (r : row) : bytes := match row_record r with Ok record => record | _ => [] end.

(** The answers a reader of [rows] is owed. *)
Fixpoint owed (rows : list row) (summary : list (bytes * PackStreamValue)) (requests : list (bool * Z)) : list bytes :=
  match requests with
  | [] => []
  | (deliver, n) :: requests =>
      (if deliver : bool then map record_of (firstn (taken (limit n) rows) rows) else [])
      ++ if ends (limit n) rows then [wire (success (btree_insert (lit "has_more") (PackBoolean false) summary).2)]
         else wire (success [(lit "has_more", PackBoolean true)])
              :: owed (skipn (taken (limit n) rows) rows) summary requests
  end.

Fixpoint fetch_all (requests : list (bool * Z)) : Sess unit :=
  match requests with
  | [] => mret tt
  | request :: requests => _ ← dispatch (fetch request); fetch_all requests
  end.

(** A query that is not cancelled, whose thread succeeds, and whose events are
    as promised and can be sent. *)
Definition succeeds (request : QueryRequest) (cols : list QueryColumn) (rest : list QueryStreamEvent)
    (summary : list (bytes * PackStreamValue)) : Prop :=
  (∀ n, is_cancelled (cancellation request) n = false)
  ∧ (∀ h, joins h (cancellation request) = inr (inr tt))
  ∧ contract (request_id request) (zlen cols) 0 rest
  ∧ Forall (λ r, ∃ record, row_record r = Ok record) (stream_rows rest)
  ∧ stream_summary rest = Some summary
  ∧ pack_fits (success (btree_insert (lit "has_more") (PackBoolean false) summary).2) = true.

Lemma fetch_count_limit m explicit n :
  fetch_ok (true, n) → fetch_count [(lit "n", PackInteger n)] m explicit = Ok (limit n).
Proof.
  intros Hn. unfold fetch_count, limit. change (btree_get (lit "qid") [(lit "n", PackInteger n)]) with (None : option PackStreamValue).
  change (btree_get (lit "n") [(lit "n", PackInteger n)]) with (Some (PackInteger n)). cbn [optional]. rbind.
  rewrite bool_decide_false, andb_false_r by (by intros [? ?]). cbn [ok_or as_i64]. rbind. unfold fetch_ok in Hn. cbn in Hn.
  replace ((n =? 0) || (n <? -1)) with false by (symmetry; apply orb_false_iff; lia).
  destruct (Z.eqb_spec n (-1)); [done|]. unfold usize_try_from.
  by replace (n <=? usize_max) with true by (unfold i64_max, usize_max, u64_max in *; lia).
Qed.

Lemma fetch_runs request s (Q : unit → Session → Prop) (F : Error → Session → Prop) :
  fetch_ok request → state s = Streaming →
  runs False (consume_cursor request.1 (limit request.2)) Q F s → runs False (dispatch (fetch request)) Q F s.
Proof.
  destruct request as [deliver n]. intros Hn Hst Hr. cbn [fst snd] in *.
  assert (∀ m, runs False (consume m deliver [PackMap [(lit "n", PackInteger n)]]) Q F s) as Hc.
  { intros m. unfold consume. apply runs_bind, runs_get. rewrite bool_decide_true by done. cbn [negb orb].
    change (zlen [PackMap [(lit "n", PackInteger n)]] =? 1) with true. cbn [negb].
    apply runs_bind, runs_lift. change (reject_unknown_keys [(lit "n", PackInteger n)] ["n"; "qid"] m) with (Ok tt : Result unit).
    apply runs_bind, runs_lift, runs_bind, runs_lift. by rewrite fetch_count_limit. }
  cbn [dispatch fetch]. apply runs_bind, runs_get. rewrite Hst. change (bool_decide (Streaming = Failed)) with false. cbn [andb fst].
  destruct deliver; apply Hc.
Qed.

Lemma records_of rows records :
  Forall2 (λ r record, row_record r = Ok record) rows records → records = map record_of rows.
Proof. induction 1 as [|r record rows records Hr _ IH]; [done|]. cbn. unfold record_of at 1. by rewrite Hr, IH. Qed.

(** Reading on from a cursor in order. *)
Lemma fetch_all_spec requests c rows summary s :
  inv s → state s = Streaming → cursor s = Some c → holds c rows (Some summary) → orderly is_cancelled c rows →
  (∀ h, joins h (cursor_token c) = inr (inr tt)) →
  pack_fits (success (btree_insert (lit "has_more") (PackBoolean false) summary).2) = true →
  Forall fetch_ok requests → within rows requests = true →
  runs False (fetch_all requests)
    (λ _ s', inv s' ∧ sent (stream s) (stream s') (owed rows summary requests)
       ∧ state s' = if finished rows requests then stream_return_state s else Streaming)
    (λ _ s', accepts (stream s') = 0) s.
Proof.
  intros Hi Hst Hcur Hh Ho Hj Hfits Hok. revert c rows s Hi Hst Hcur Hh Ho Hj.
  induction Hok as [|[deliver n] requests Hn _ IH]; intros c rows s Hi Hst Hcur Hh Ho Hj Hin; cbn [fetch_all].
  { apply runs_ret. split_and!; [done|apply sent_nil|done]. }
  apply runs_bind, fetch_runs; [done..|]. destruct (inv_streaming s Hi Hst) as (c0 & owner & rows0 & sm0 & Hc0 & He & Hcok & _).
  rewrite Hcur in Hc0. injection Hc0 as <-. cbn [fst snd].
  assert (0 ≤ limit n) as Hlim by (unfold limit, fetch_ok, usize_max, u64_max in *; cbn in Hn; destruct (Z.eqb_spec n (-1)); lia).
  eapply runs_mono; [by eapply consume_cursor_spec| |].
  - intros [] s1 (Hi1 & Hau & records & p & ->%records_of & Hs & Hcase). cbn [within owed finished] in *.
    destruct (ends (limit n) rows); cbn [orb] in *.
    + apply bool_decide_eq_true in Hin as ->. destruct Hcase as (Hst1 & _ & sm & [= <-] & ->%encoded_wire).
      apply runs_ret. by split_and!.
    + destruct Hcase as (Hst1 & Hret & ->%encoded_wire & c' & Hc' & (_ & Etok & _) & Hh' & Ho').
      eapply runs_mono; [eapply (IH c'); eauto; by rewrite Etok| |done].
      intros [] s2 (Hi2 & Hs2 & Hst2). split_and!; [done| |by rewrite Hst2, Hret].
      rewrite cons_middle, (assoc_L (++)). by eapply sent_trans.
  - intros e s1 [_ Hf]. destruct (Hf Ho) as [?|[_ [[h Hbad]|Hbad]]]; [done|by rewrite Hj in Hbad|by rewrite Hfits in Hbad].
Qed.

(** The events after the schema are as the engine promised. *)
Lemma emitted_holds h request before cols rest c :
  emits h request = before ++ EventSchema (request_id request) cols :: rest → Forall is_catalog before →
  holds (announced c cols rest) (stream_rows rest) (stream_summary rest).
Proof.
  intros He Hb. pose proof (emits_wf h request) as Hwf. pose proof (emits_end h request) as Hend. rewrite He in Hwf, Hend.
  apply Forall_app in Hwf as [_ [_ Hwf]%Forall_cons]. apply announced_holds; [done|]. exact (proj1 (short_app _ _ Hb) Hend).
Qed.

(** C8: A client reads the result of its query, in order and once.  After a RUN
    that is answered, and if the query succeeds, any sequence of PULL and
    DISCARD requests is answered by the records of the rows that each covers,
    the next ones in the order the engine sent them, followed by SUCCESS with
    [has_more]: true as long as rows are left, false together with the
    summary of the query when the end has been read, and the session is back
    where it was before RUN.  Only a client that stops reading misses any. *)
Theorem query_results_delivered fields s :
  inv s →
  match run_query fields s with
  | (s1, Ok _) =>
      ∃ h request before cols rest,
        get fields 0 = Some (PackString (query request))
        ∧ emits h request = before ++ EventSchema (request_id request) cols :: rest ∧ Forall is_catalog before
        ∧ ∀ summary requests,
            succeeds request cols rest summary → Forall fetch_ok requests → within (stream_rows rest) requests = true →
            let '(s2, r) := fetch_all requests s1 in
            accepts (stream s2) = 0
            ∨ r = Ok tt ∧ sent (stream s1) (stream s2) (owed (stream_rows rest) summary requests)
              ∧ state s2 = if finished (stream_rows rest) requests then state s else Streaming
  | (s1, Err _) => coherent s1
  | (_, Abort _) => False
  end.
Proof.
  intros Hi. pose proof (run_spec fields s Hi) as Hrun. unfold runs in Hrun.
  destruct (run_query fields s) as [s1 [[]|e|w]]; [|by destruct Hrun|done].
  destruct Hrun as ((Hi1 & _) & h & request & owner & (before & cols & rest & He & Hb & Hst & Hcur) & Hq & Hown).
  exists h, request, before, cols, rest. split_and!; [done..|].
  intros summary requests (Hcan & Hj & Hcon & Henc & Hsum & Hfits) Hok Hin.
  set (c := announced _ _ _) in Hcur. destruct (inv_streaming s1 Hi1 Hst) as (c0 & owner0 & _ & _ & Hc0 & [_ Hheld] & _).
  assert (stream_return_state s1 = state s) as Hret.
  { unfold held_ok in Hheld. rewrite Hcur in Hheld. destruct (transaction s1); [done|].
    destruct Hheld as (owner' & _ & [Hw _] & ->). rewrite Hown. cbn in Hw. by injection Hw as ->. }
  pose proof (fetch_all_spec requests c (stream_rows rest) summary s1) as Hf. rewrite <- Hsum in Hf.
  specialize (Hf Hi1 Hst Hcur (emitted_holds h request before cols rest _ He Hb)). unfold runs in Hf.
  destruct (fetch_all requests s1) as [s2 [[]|e|w]].
  - right. rewrite <- Hret. destruct Hf as (_ & ? & ?); auto. by split_and!.
  - left. by apply Hf.
  - exfalso. by apply Hf.
Qed.
End results.

(** ** A result read in two requests *)

Definition ready_session : Session := set_state Ready (BoltSession_new 7 (mkSink [] 100000 closed)).
Definition run_fields : list PackStreamValue := [PackString (lit "RETURN 1"); PackMap []; PackMap []].

Lemma two_rows_succeed request before cols rest :
  two_rows request = before ++ EventSchema (request_id request) cols :: rest → Forall is_catalog before →
  rest = tail (two_rows request)
  ∧ ∃ summary, succeeds (H := one_zone) (H0 := small_engine) request cols rest summary.
Proof.
  intros E Hb. destruct Hb as [|b before [catalog ->] _]; [|discriminate E]. injection E as <- <-. split; [done|].
  eexists. split_and!; [done|done|by repeat constructor| |reflexivity|vm_compute; reflexivity].
  repeat constructor; eexists; vm_compute; reflexivity.
Qed.

(** PULL of one row, DISCARD of the rest. *)
Definition two_fetches : list (bool * Z) := [(true, 1); (false, -1)].

Lemma query_results_delivered_witness :
  QueryEngineSpec (H := small_engine) ∧ inv (H := one_zone) ready_session
  ∧ ∃ s1 s2 summary,
      run_query (H := one_zone) (H0 := small_engine) run_fields ready_session = (s1, Ok tt)
      ∧ fetch_all (H := one_zone) (H0 := small_engine) two_fetches s1 = (s2, Ok tt)
      ∧ sent (stream s1) (stream s2)
          [177 :: 113 :: [145; 1]; wire (success [(lit "has_more", PackBoolean true)]);
           wire (success (btree_insert (lit "has_more") (PackBoolean false) summary).2)]
      ∧ state s2 = Ready.
Proof.
  assert (inv (H := one_zone) ready_session) as Hi by (by apply rest_inv; auto).
  split_and!; [exact small_engine_spec|exact Hi|].
  pose proof (query_results_delivered (H := one_zone) (H0 := small_engine) (H1 := small_engine_spec) run_fields ready_session Hi) as Hq.
  assert (∃ s1 s2, run_query (H := one_zone) (H0 := small_engine) run_fields ready_session = (s1, Ok tt)
    ∧ fetch_all (H := one_zone) (H0 := small_engine) two_fetches s1 = (s2, Ok tt) ∧ accepts (stream s2) ≠ 0) as (s1 & s2 & E1 & E2 & Ha).
  { eexists _, _. split; [vm_compute; reflexivity|]. split; [vm_compute; reflexivity|discriminate]. }
  rewrite E1 in Hq. destruct Hq as (h & request & before & cols & rest & _ & Ee & Hb & Hq).
  destruct (two_rows_succeed request before cols rest Ee Hb) as [-> [summary Hs]].
  specialize (Hq summary two_fetches Hs ltac:(repeat constructor; unfold fetch_ok; cbn; unfold i64_max; lia) eq_refl). rewrite E2 in Hq.
  destruct Hq as [?|(_ & Hsent & Hst)]; [contradiction|].
  exists s1, s2, summary. split_and!; [exact E1|exact E2|exact Hsent|exact Hst].
Defined.
