(* ===== verification/BoltInterrupt.v ===== *)
(** * Interrupts

    The task that reads messages and the session share the interrupt registry
    of a connection (bolt.rs, [InterruptRegistry]).  Here its operations are
    split into the accesses that are atomic (one critical section of the mutex,
    or one access of the flag), and the two tasks interleave at will.  The
    operations of BoltSession.v are these accesses run without interruption.

    The flag is accessed with acquire and release ordering only; interleavings
    are enough because the critical sections of the mutex order every store of
    the flag by RESET before or after every load by a query. *)

From stdpp Require Import prelude gmap strings sorting.
From Stdlib Require Import ZArith Lia.
From S2P Require Import Prelude Machine Types Bolt BoltTyped BoltPaths QueryEvents Actions BoltCursor BoltSession.

Local Open Scope Z_scope.

(** ** Accesses *)

Inductive Access :=
| Publish (token : Z)
| CheckPending (token : Z)
| Forget
| StorePending (pending : bool)
| CancelHeld.

(** The registry and the tokens cancelled so far. *)
Definition Shared : Type := InterruptRegistry * list Z.

Definition access (m : Shared) (a : Access) : Shared :=
  let '(r, cancelled) := m in
  match a with
  | Publish token => (mkInterrupt (Some token) (reset_pending r), cancelled)
  | CheckPending token => (r, if reset_pending r then cancelled ++ [token] else cancelled)
  | Forget => (mkInterrupt None (reset_pending r), cancelled)
  | StorePending pending => (mkInterrupt (active r) pending, cancelled)
  | CancelHeld => (r, match active r with Some token => cancelled ++ [token] | None => cancelled end)
  end.

Definition accesses (m : Shared) (l : list Access) : Shared := foldl access m l.

Definition activate_accesses (token : Z) : list Access := [Publish token; CheckPending token].
Definition clear_accesses : list Access := [Forget].
Definition signal_reset_accesses : list Access := [StorePending true; CancelHeld].
Definition acknowledge_reset_accesses : list Access := [StorePending false].
Definition cancel_active_accesses : list Access := [CancelHeld].

(** What the reader does between messages: signals, and at its end one [cancel_active]. *)
Definition reader_accesses (steps : list ReaderStep) : list Access :=
  concat (map (λ step, match step with SignalReset => signal_reset_accesses | CancelActive => cancel_active_accesses end) steps).

Inductive interleaving : list Access → list Access → list Access → Prop :=
| interleaving_nil : interleaving [] [] []
| interleaving_left a l1 l2 l : interleaving l1 l2 l → interleaving (a :: l1) l2 (a :: l)
| interleaving_right a l1 l2 l : interleaving l1 l2 l → interleaving l1 (a :: l2) (a :: l).

(** ** Without interruption *)

(** The operation of a session is these accesses. *)
Definition performs (m : Sess unit) (l : list Access) : Prop := ∀ s,
  m s = (set_interrupt (accesses (interrupt s, []) l).1
           (foldl (λ s token, record_call (CancelRequested token) s) s (accesses (interrupt s, []) l).2), Ok tt).

Lemma registry_performs :
  (∀ token, performs (activate token) (activate_accesses token)) ∧ performs clear clear_accesses
  ∧ performs signal_reset signal_reset_accesses ∧ performs acknowledge_reset acknowledge_reset_accesses
  ∧ performs cancel_active cancel_active_accesses.
Proof.
  split_and!; [intros token|..]; intros [st p c t rs [[a|] [|]] n o h]; reflexivity.
Qed.

(** ** Interleaved *)

(** The accesses of a reader never lower the flag or replace the token. *)
Definition reads_only (a : Access) : Prop := a = StorePending true ∨ a = CancelHeld.

Lemma reader_reads_only steps : Forall reads_only (reader_accesses steps).
Proof.
  induction steps as [|[] steps IH]; cbn; [constructor|..]; repeat (constructor; [by (left + right)|]); exact IH.
Qed.

Lemma interleaving_nil_left l2 l : interleaving [] l2 l → l = l2.
Proof. intros Hi. remember [] as l1 eqn:E. induction Hi; [done|done|]. by rewrite IHHi. Qed.

Lemma cancelled_last {A} (t : A) c : t ∈ c ++ [t].
Proof. apply elem_of_app. right. constructor. Qed.

Lemma access_keeps a m t : t ∈ m.2 → t ∈ (access m a).2.
Proof. destruct m as [[[u|] []] c], a; cbn; rewrite ?elem_of_app; tauto. Qed.

Lemma reader_keeps l m t :
  Forall reads_only l → active m.1 = Some t → t ∈ m.2 ∨ CancelHeld ∈ l → t ∈ (accesses m l).2.
Proof.
  intros Hl. revert m. induction Hl as [|a l Ha _ IH]; intros [r c] Hact Hc; cbn [accesses foldl] in *; [by destruct Hc as [?|Hc%elem_of_nil]|].
  apply IH; [by destruct Ha as [->| ->]|]. destruct Hc as [Hc|[<-|Hc]%elem_of_cons]; [left; by apply access_keeps| |by right].
  left. cbn in *. rewrite Hact. apply cancelled_last.
Qed.

(** The query has published its token and is yet to look at the flag. *)
Lemma published_reached t reader trace m :
  interleaving [CheckPending t] reader trace → Forall reads_only reader → active m.1 = Some t →
  t ∈ m.2 ∨ reset_pending m.1 = true ∨ CancelHeld ∈ reader → t ∈ (accesses m trace).2.
Proof.
  intros Hi. remember [CheckPending t] as session eqn:E. revert m E.
  induction Hi as [|a l1 l2 l Hi IH|a l1 l2 l Hi IH]; intros [r c] E Hr Hact Hc; [done| |].
  - injection E as -> ->. apply interleaving_nil_left in Hi as ->. apply (reader_keeps l2 (access (r, c) (CheckPending t))); [done|done|].
    destruct Hc as [Hc|[Hc|Hc]]; [left; by apply access_keeps| |by right]. left. cbn in *. rewrite Hc. apply cancelled_last.
  - apply Forall_cons in Hr as [Ha Hr]. apply (IH (access (r, c) a)); [done|done|by destruct Ha as [->| ->]|].
    destruct Hc as [Hc|[Hc|[<-|Hc]%elem_of_cons]]; [left; by apply access_keeps| | |by auto].
    + right. left. by destruct Ha as [->| ->].
    + left. cbn in *. rewrite Hact. apply cancelled_last.
Qed.

(** The reader has signalled, or will. *)
Definition signals (reader : list Access) : Prop :=
  ∃ l1 l2, reader = l1 ++ StorePending true :: l2 ∧ CancelHeld ∈ l2.

Lemma activation_reached t reader trace m :
  interleaving (activate_accesses t) reader trace → Forall reads_only reader →
  reset_pending m.1 = true ∨ signals reader → t ∈ (accesses m trace).2.
Proof.
  intros Hi. unfold activate_accesses in Hi. remember [Publish t; CheckPending t] as session eqn:E. revert m E.
  induction Hi as [|a l1 l2 l Hi IH|a l1 l2 l Hi IH]; intros [r c] E Hr Hc; [done| |].
  - injection E as -> ->. apply (published_reached t l2 l (access (r, c) (Publish t))); [done|done|done|].
    destruct Hc as [Hc|(x & y & -> & Hin)]; [right; by left|]. right. right. apply elem_of_app. right. by constructor.
  - apply Forall_cons in Hr as [Ha Hr]. apply (IH (access (r, c) a)); [done|done|].
    destruct Hc as [Hc|([|? x] & y & [= -> ->] & Hin)]; [left; by destruct Ha as [->| ->]|by left|right; by exists x, y].
Qed.

Lemma reader_signals before after : signals (reader_accesses (before ++ SignalReset :: after)).
Proof.
  unfold reader_accesses. rewrite map_app, concat_app. eexists _, _. split; [reflexivity|]. apply elem_of_cons. by left.
Qed.

(** C9: A RESET that races with the start of a query cancels it.  The accesses
    of the registry by [activate] and by the task that reads messages may
    interleave in any way: if that task signals a RESET, before, during or after
    the activation, then at the end the query is cancelled.  Each operation
    of the registry as the session uses it is its accesses in a row. *)
Theorem reset_reaches_query :
  ((∀ token, performs (activate token) (activate_accesses token)) ∧ performs clear clear_accesses
   ∧ performs signal_reset signal_reset_accesses ∧ performs acknowledge_reset acknowledge_reset_accesses
   ∧ performs cancel_active cancel_active_accesses)
  ∧ ∀ token before after trace m,
      interleaving (activate_accesses token) (reader_accesses (before ++ SignalReset :: after)) trace →
      token ∈ (accesses m trace).2.
Proof.
  split; [apply registry_performs|]. intros token before after trace m Hi.
  eapply activation_reached; [done|apply reader_reads_only|right; apply reader_signals].
Qed.

Lemma reset_reaches_query_witness :
  interleaving (activate_accesses 5) (reader_accesses ([] ++ SignalReset :: [])) [Publish 5; StorePending true; CancelHeld; CheckPending 5]
  ∧ 5 ∈ (accesses (mkInterrupt None false, []) [Publish 5; StorePending true; CancelHeld; CheckPending 5]).2.
Proof.
  assert (interleaving (activate_accesses 5) (reader_accesses ([] ++ SignalReset :: []))
    [Publish 5; StorePending true; CancelHeld; CheckPending 5]) as Hi by (repeat constructor).
  split; [exact Hi|]. exact (proj2 reset_reaches_query 5 [] [] _ _ Hi).
Defined.

(** A RESET is acknowledged whether or not it is the last one read.  If the
    reader is two RESET messages ahead, the session's answer to the first one
    lowers the flag of both, and a query between the two runs on. *)
Example second_reset_lost :
  let session := acknowledge_reset_accesses ++ activate_accesses 5 in
  let reader := reader_accesses [SignalReset; SignalReset] in
  interleaving session reader (reader ++ session)
  ∧ accesses (mkInterrupt None false, []) (reader ++ session) = (mkInterrupt (Some 5) false, []).
Proof. split; [repeat constructor|reflexivity]. Qed.
